(* ===== verification/_CoqProject ===== *)
-Q . S2P
Prelude.v
IntrusiveList.v
ListRefine.v
Refcount.v
StdHeap.v
TtlHeap.v
SpaceSaving.v
CountMinSketch.v
LatencyHistogram.v
Admission.v
MmLruList.v
MmLru.v
MmLruInv.v
MmLruOps.v
MmLruSet.v
MmLruTtl.v
MmLruFlush.v
MmLruRun.v
MmLruClaims.v
HashBucket.v
HashF14.v
HashTable.v
HashTableInv.v
HashTableOps.v
HashTableRefine.v
HashTableClaims.v
SharedSpinlock.v
CompactCache.v
CompactRefine.v
CompactClaims.v
Singleflight.v
Crc32.v
BinaryFormat.v
Serialization.v
SerializationClaims.v
MmLruSave.v
TlsRing.v
TlsCallback.v
TlsEvent.v
TlsAccess.v
TlsAccessInv.v
EpochReclamation.v
EpochInv.v
EpochObjects.v
EpochClaims.v
EpochProgress.v
HazardPointers.v
HazardInv.v
HazardObjects.v
HazardClaims.v
HazardProgress.v
SlabAllocator.v
SlabInv.v
SlabMoves.v
SlabGeo.v
SlabLocks.v
SlabClaims.v
CompressedPtr.v
CompressedList.v
DistributedMutex.v
DistributedWake.v
