(* ===== verification/Prelude.v ===== *)
(** * A verification library for the LRU cache

    The program (src/) is a header-only C++20 cache. A [unified_cache]
    (cache_trait.hpp) owns one eviction strategy of mm.hpp, which owns the items:
    each item carries an intrusive list hook (detail/intrusive_list.hpp), a
    refcount word with flags (detail/refcount.hpp), an expiry and a hash chain
    link. The strategy keeps the items on its recency list and in a hash table,
    decides who is evicted, records expiries in a shared TTL index
    (detail/ttl_heap.hpp), and reports events and statistics (core.hpp,
    detail/latency_histogram.hpp). Admission policies (admission.hpp) stand in
    front of a cache; the frequency sketch (detail/count_min_sketch.hpp) and the
    heavy-hitter tracker (detail/space_saving.hpp) serve the TinyLFU strategies
    and the hot-key detection. Concurrent misses of one key share a single call of
    the provider (detail/singleflight.hpp). Readers record promotions and events in
    thread-local rings (tls_ring.hpp) that are drained later, and a cache is saved to
    and loaded from a checksummed binary format (serialization.hpp, lru.hpp). Items
    taken off the map while readers may still walk over them are retired to an epoch
    domain (detail/epoch_reclamation.hpp), which frees them once no reader can hold
    them, or to a hazard-pointer domain (detail/hazptr.hpp), which frees them once no
    reader publishes them. The memory of items may come from a slab allocator (memory.hpp), and hooks
    may hold 32-bit offsets into a region instead of pointers (compressed_ptr.hpp).
    A cache is guarded by a reader-writer lock whose readers count themselves on
    distributed counters (detail/distributed_mutex.hpp).
    The compact cache (compact_cache.hpp) is a second, self-contained cache
    over a slot allocator.

    ** Files

    - Prelude: machine integers as [Z] with the wrap-around written out, the
      tactics and generic lemmas the files share.
    - IntrusiveList: the hook and its flag bits, [intrusive_list] over a store of
      hooks ([gmap] from addresses), every operation with its assertions ([None]
      is a failed assertion or a bad pointer), and the doubly linked segments.
    - ListRefine: the list operations against a sequence specification, the
      misuse the assertions catch, and several lists over one store.
    - Refcount: the 64-bit refcount word, each CAS loop as a step system with
      arbitrary interleavings, linearized to an abstract item with a pin count,
      admin bits and flags; the ownership protocol of pins, evictors and movers.
    - StdHeap: [std::priority_queue] as a class with its documented laws, and a
      binary heap that meets them.
    - TtlHeap: the TTL index and the mixin. [TtlStrategy] is the contract between
      the index and an eviction strategy.
    - SpaceSaving: the Space-Saving tracker with its lazily pruned heap.
    - CountMinSketch: the count-min sketch with ageing and its serialization; the
      key hash is a parameter.
    - LatencyHistogram: the 512-bucket log-linear histogram.
    - Admission: the split set, the reject-first policy with the history it is
      specified by, and the admission filter over an abstract cache
      ([FilteredCache]).
    - MmLruList: the recency list of [mm_lru] with its insertion point, over the
      sequence specification that ListRefine proves the intrusive list refines.
    - MmLru: the strategy [mm_lru] itself, as operations of a state and error
      monad: lookup, insertion, update, promotion, eviction, deletion, deferred
      deletion, popping, flush, expiry and reconfiguration.
    - MmLruInv: the weakest-precondition rules and the invariant of [mm_lru].
    - MmLruOps, MmLruSet, MmLruTtl, MmLruFlush: one total-correctness lemma per
      operation; MmLruTtl makes [mm_lru] an instance of [TtlStrategy].
    - MmLruRun: sequences of calls, the specification (a lossy map whose entries
      expire), and the step lemma of every call.
    - MmLruClaims: the theorems about [mm_lru] and concrete runs.
    - HashBucket: the items as the hash table of detail/concurrent_hash_table.hpp
      links them, the loops over a chain, the interface [Probing] between the table
      and its probing style (the [if constexpr (kIsF14)] of the source) with the
      contract [ProbingLaws], and the chain-mode bucket that meets it.
    - HashF14: the F14 chunk of 14 tagged slots with an overflow chain, its tag
      match in scalar and SSE2 form, and its proof of the contract.
    - HashTable: the table over either style: [find], [insert],
      [insert_or_assign], [erase], [clear], [rehash], [rehash_step],
      [rehash_finish], [reserve], the overload bookkeeping and the settings.
    - HashTableInv, HashTableOps: the invariant of the two arrays during a
      migration, and one lemma per operation.
    - HashTableRefine, HashTableClaims: sequences of calls against a finite map;
      the theorems.
    - SharedSpinlock: the reader-writer spinlock of the buckets as a step system of
      atomic accesses, parking and waking.
    - CompactCache: the compact cache: block allocator, slots, recency list, map,
      limits and the rollback of insertions that throw; and its specification, a
      list of entries in recency order.
    - CompactRefine, CompactClaims: the relation between the two with one lemma per
      operation; sequences of calls and the theorems.
    - Singleflight: the in-flight tracker and the fetch path of [unified_cache] as
      a step system of threads, with condition variables and spurious wake-ups.
    - Crc32: the table-driven CRC-32 of serialization.hpp and its definition as a
      division of polynomials over bits.
    - BinaryFormat: the binary reader (a monad of positions and errors) and writer,
      the [serde] overloads as a class [Serde] with the laws [SerdeLaws], and the
      records of the format.
    - Serialization: the snapshot writer, the parser, the sharded format and the
      inspection of a header. SerializationClaims: their theorems.
    - MmLruSave: [save] and [load] of an [mm_lru] cache: the snapshot of its list,
      and the rebuilding of list, map, insertion point and tail region.
    - TlsRing: the circular buffer with 64-bit positions that the thread-local rings
      of tls_ring.hpp share, and the bounded queue it implements ([RingOps]).
    - TlsCallback, TlsEvent: the callback and active-item rings and the event rings
      with their per-thread maps, registries, backups and thread exit, over any
      [RingOps]: the theorems are proved on queues and carried over to buffers.
    - TlsAccess, TlsAccessInv: the access ring of deferred promotions with its
      overflow policies, flush requests, dormant flush and counters; its invariant
      and the accounting of every operation.
    - EpochReclamation: epoch domains with their guards, reader slots, per-thread
      retire buffers, pending list and reclaim passes, as a step system whose steps
      are the atomic accesses of detail/epoch_reclamation.hpp; any number of threads
      and domains.
    - EpochInv, EpochObjects: the invariants of that system: who owns a reader slot
      and what it announces; where each retired object is.
    - EpochClaims, EpochProgress: safety and the pending counter; a reclaim pass that
      runs undisturbed, and concrete runs.
    - HazardPointers: hazard-pointer domains, their holders, slots with the thread
      caches, the tagged free list and the batches, retirement and reclaim passes, as
      a step system of the atomic accesses of detail/hazptr.hpp.
    - HazardInv, HazardObjects: its invariants: who owns a slot and what the free list
      holds; where each retired object is and what protects a guarded one.
    - HazardClaims, HazardProgress: safety, exact slots, no deadlock and concrete runs;
      a reclaim pass that runs undisturbed.
    - SlabAllocator: the slab allocator: size classes with tagged free lists, growth
      under the class mutex, large blocks, header-checked deallocation, routing by
      node and the owning handle, as a step system of atomic accesses; the layout of
      a warm restart.
    - SlabInv, SlabMoves, SlabGeo: its invariant (where each block is, what a stale
      list head can still mean), the moves that change it, and the regions the blocks
      lie in. SlabLocks: which thread holds the mutex of a class. SlabClaims: the
      theorems and concrete runs.
    - CompressedPtr: offset encoding, the compressed hook, the region of items.
    - CompressedList: the intrusive list written over the hook traits ([HookTraits],
      the source's [hook_pointer_traits]), whose links are read and written with the
      base of the list; on raw hooks it is IntrusiveList, on compressed hooks it is
      simulated by that, with the items that were never linked set apart.
    - DistributedMutex: the lock of the cache as a step system: 64 reader counters and
      the writer's word, the routing of readers, both fairness modes, parking and
      waking. DistributedWake: clients that only call the blocking operations.

    ** What the theorems show

    - [mm_lru] (MmLruClaims): every legal sequence of calls runs to its end with the
      invariant kept, and as long as updates fit the budgets no item is used after it
      was retired; its results are those of a lossy map whose entries expire; the
      size limit holds and both counters are exact; held items are never reclaimed and keep their
      values; unobstructed insertions are stored and unobstructed limits are
      reached; an eviction that searches from the tail takes the least recently
      used evictable item; a sweep removes exactly the expired unpinned items.
    - The hash table (HashTableClaims): in chain and in F14 mode, with blocking
      and incremental rehash, it is a finite map under every legal sequence of
      calls, which is how [mm_lru] uses it; a migration is completed by repeated
      [rehash_finish] in chain mode; the hazard-pointer walk equals the plain walk
      on chains of up to 65 items.
    - The spinlock: mutual exclusion under every interleaving, and what
      a parked thread can rely on.
    - The lock of the cache: mutual exclusion under every interleaving, also when the
      fairness or the routing of readers changes meanwhile; with blocking clients the
      counters are exact and nobody is left parked, for up to 2^25 threads.
    - The compact cache (CompactClaims): every sequence of calls answers as the list
      of entries does, throwing insertions included, and no slot is lost; the size
      limit holds and the memory exceeds its limit by at most one slot.
    - Stampede protection: one leader per key, followers return what
      their leader returned, exceptions included, and nobody waits forever.
    - Persistence: a saved cache loads back with its items, order, times and accessed
      bits, and its insertion point and tail region are rebuilt; snapshots of every strategy and of shards parse back; damage
      of up to 32 adjacent bits is detected; inspection and parsing agree.
    - The thread-local rings: they are bounded queues whatever their positions; no
      event is delivered twice or to another instance; an exiting thread loses
      none; without a reset, a synchronous drain request or a dropped result every
      recorded access is handed out, held or counted as dropped.
    - Epoch reclamation: under every interleaving no object a reader holds is freed,
      nothing is freed twice and each retired object is in one place; the pending
      counter is exact; an undisturbed pass frees exactly what the epochs allow.
    - Hazard pointers: under every interleaving of disciplined clients of the default
      domain an object that a holder protects and has found in its source afterwards
      is not freed, nothing is freed twice, slots are neither shared nor lost, and no
      call faults or deadlocks; an undisturbed pass below the threshold of automatic
      passes frees exactly what no slot publishes.
    - The slab allocator (SlabClaims): under every interleaving the blocks clients
      hold are disjoint and inside memory of the system, free lists are chains of
      free blocks of their class and node, a call waits only for a class mutex that
      another thread holds and goes on to release, and a claimed size is checked
      against the block and never believed.
    - Compressed pointers: items of a region have distinct offsets that decode to
      them, and the list over compressed hooks does what the list over pointers does
      as long as only items that have been linked are moved.
    - The list, the refcount word, the TTL index, the heavy-hitter tracker, the
      sketch, the histogram and admission each have their theorems in their file.
    - Some theorems are behaviours that contradict what the code intends: a
      [rehash_finish] that never returns, an assignment that is lost
      (HashTableClaims), a wake-up that is lost (SharedSpinlock), a
      reader left parked by a [try_lock] (DistributedMutex), protected objects that
      are freed, a read past the slot table and a free list that points to itself
      (HazardClaims), a stale eviction hint, a flush that breaks the insertion point, a
      dangling map entry, a use of a retired item and an expired item that [get] hands
      out (MmLruClaims), a stall counted for a migration that completed
      (HashTableClaims), sketches that cannot be restored (CountMinSketch), keys lost
      by a synchronous drain and a counter that drifts (TlsAccessInv), blocks larger
      than their slab and slabs past the end of the mapped file (SlabClaims), regions
      their pointers cannot reach and fresh hooks that are not null (CompressedPtr,
      CompressedList).

    ** Modelling conventions

    A w-bit unsigned integer is a [Z] in [0, 2^w). Items are addresses into a
    store split by field, so updates through one pointer are seen through every
    other; a retired item keeps its contents in the store, but the reclaimer may have
    freed it, so every use of one is recorded ([stale_uses_] of [mm_lru]).
    Strategies run under the cache's write lock, so [mm_lru] is sequential; the
    refcount word, which readers change without the lock, and the locks have an
    interleaving semantics. The hash table is modelled as its owner runs it under
    that lock: its per-bucket locks are uncontended there, and a version or seqlock
    read twice has the same value. Clock readings and the outcome of a try-lock are inputs of each
    call. Moved-from values and keys are given by functions. Atomic accesses are
    sequentially consistent. The epoch theorems are about runs of fewer than 2^64
    moves, in which the 64-bit epoch cannot wrap, and about clients that enter no
    second domain inside a critical section and read only objects that are still
    reachable. The hazard-pointer theorems are about runs of fewer than 2^64 moves, in
    which the counter of active slots cannot wrap, on the default domain, and about
    clients that retire objects derived from [hazptr_obj_base] which no source holds
    any more and call [get] only on holders with a slot. The slab theorems are about runs of fewer than 2^32 moves, in which a
    32-bit tag cannot repeat, a system that hands out memory it has not handed out
    before, slabs of at least one block, and clients that free a block they hold, on
    the allocator it came from; a block whose claimed size is refused stays with its
    client. A deallocation reads the header, which lies in memory
    of its caller, in the step that begins it; the failure notes are one step.

    Loops carry fuel where their recursion is not structural, and running out of
    fuel is a failure that the theorems exclude: the list length bounds the
    insertion-point loops, the victim search and the flush walk; the list length
    plus one bounds the eviction loops, since every round removes an item or
    stops; the heap length bounds a sweep, since every round pops an entry. The
    number of items bounds a walk over a hash chain; a chain-mode [rehash_finish]
    needs fuel 5 (its budget is four rounds) and depth 2 (the finish it calls has
    nothing left to migrate). In the compact cache the number of entries bounds the
    eviction loops and the flush, and the requested count bounds [reserve]. The
    reader and the ring drains recurse on the counts they are given.

    ** Not modelled

    The other strategies of mm.hpp, [unified_cache] beyond its fetch path, the memory
    monitors and evictors, tiering, shared memory and pooled caches are not modelled.
    Of the slab allocator,
    opening and mapping the file, the destructor, the statistics snapshot and the
    Windows allocation calls are left out. Of serialization, the
    file helpers and the rebuilding of the other strategies are left out; of the
    thread-local rings, the storage used during process teardown and the races inside
    one operation (each operation is one atomic step). Of epoch reclamation, the wait
    of [synchronize_epoch], the draining at teardown and the memory orders weaker
    than sequential consistency are left out, and of hazard pointers the getters of a domain, the
    text of the warning and the weaker memory orders. Of the
    compact cache, the metrics text, a throwing assignment to an existing value and a
    failing block allocation are left out; of the fetch path, promotion, statistics
    and callbacks on a hit. Of the hash table, the
    node-allocating instantiation, the lock-free pinning lookups with their races,
    the segmented table, swap and move are left out; of both locks, the
    condition-variable fallback and memory orders weaker than sequential
    consistency, and of the lock of the cache the latency histograms and the debug
    lock ranks. Of [mm_lru], [get_shared], the eviction iterators, node replacement, the hash
    statistics, the search-length histogram and the rollback on an exception of
    the allocator are left out. In [mm_lru] the hash table is a finite map whose
    entries answer to the key their item holds, as its embedded chains do; the
    refresh ratio, a double, is a function from ages to seconds.

    ** Extensions

    The FIFO, 2Q, TinyLFU and W-TinyLFU strategies fit the invariant and the
    [TtlStrategy] interface of [mm_lru], and [sharded_mm_lru] its theorems; the
    ttl_cache wrapper and chained items are the other parts with logic of their own. *)

From stdpp Require Export base tactics option list list_numbers numbers gmap.
From Stdlib Require Export ZArith Lia Permutation.

(** * Notation scope of the development *)

Declare Scope lru_scope.
Delimit Scope lru_scope with lru.
Open Scope Z_scope.

(** * Machine integers

    A C++ unsigned integer of width [w] is a [Z] kept in [0, 2^w); the
    operators that can leave that range are followed by the wrap-around. *)

Definition wrap (w x : Z) : Z := x mod 2 ^ w.

Abbreviation u8 x := (wrap 8 x).
Abbreviation u32 x := (wrap 32 x).
Abbreviation u64 x := (wrap 64 x).
Abbreviation U32_MAX := (2 ^ 32 - 1).
Abbreviation U64_MAX := (2 ^ 64 - 1).

(** [x & ~y] on unsigned words. *)
Definition clear_bits (x y : Z) : Z := Z.ldiff x y.

(** A bit of a word as the C++ expression [(x >> i) & 1]. *)
Definition bit (x i : Z) : bool := Z.testbit x i.

#[global] Arguments wrap : simpl never.
#[global] Arguments clear_bits : simpl never.
#[global] Arguments bit : simpl never.

(** * Proof automation *)

Create HintDb lru discriminated.

(** Destructs the conjunctions and existentials of the context. *)
Ltac destr :=
  repeat match goal with
  | H : _ /\ _ |- _ => destruct H
  | H : exists _, _ |- _ => destruct H
  end.

(** Case analysis on the first [match] or [if] scrutinee of the goal. *)
Ltac case_goal :=
  match goal with
  | |- context [match ?x with _ => _ end] =>
      lazymatch x with
      | context [match _ with _ => _ end] => fail
      | _ => destruct x eqn:?
      end
  end.

Ltac case_hyp H :=
  match type of H with
  | context [match ?x with _ => _ end] =>
      lazymatch x with
      | context [match _ with _ => _ end] => fail
      | _ => destruct x eqn:?
      end
  end.

(** Booleans of [Z] comparisons turned into the propositions they decide. *)
Ltac bool_to_Z :=
  repeat match goal with
  | H : (_ =? _) = true |- _ => apply Z.eqb_eq in H
  | H : (_ =? _) = false |- _ => apply Z.eqb_neq in H
  | H : (_ <? _) = true |- _ => apply Z.ltb_lt in H
  | H : (_ <? _) = false |- _ => apply Z.ltb_ge in H
  | H : (_ <=? _) = true |- _ => apply Z.leb_le in H
  | H : (_ <=? _) = false |- _ => apply Z.leb_gt in H
  | H : (_ && _)%bool = true |- _ => apply andb_true_iff in H as [? ?]
  | H : (_ || _)%bool = false |- _ => apply orb_false_iff in H as [? ?]
  | H : negb _ = true |- _ => apply negb_true_iff in H
  | H : negb _ = false |- _ => apply negb_false_iff in H
  end.

(** * Machine-integer lemmas *)

Lemma wrap_range w x : 0 <= w -> 0 <= wrap w x < 2 ^ w.
Proof. intros. apply Z.mod_pos_bound, Z.pow_pos_nonneg; lia. Qed.

Lemma wrap_small w x : 0 <= x < 2 ^ w -> wrap w x = x.
Proof. apply Z.mod_small. Qed.

Lemma wrap_add_l w x y : 0 <= w -> wrap w (wrap w x + y) = wrap w (x + y).
Proof. intros. unfold wrap. by rewrite Zplus_mod_idemp_l. Qed.

Lemma wrap_sub_l w x y : 0 <= w -> wrap w (wrap w x - y) = wrap w (x - y).
Proof. intros. unfold wrap. by rewrite Zminus_mod_idemp_l. Qed.

Create Rewrite HintDb wraps.
#[export] Hint Rewrite wrap_add_l wrap_sub_l using lia : wraps.
#[export] Hint Resolve wrap_range wrap_small : lru.

(** A word below [2^p] has no bit at or above [p]. *)
Lemma testbit_high x p i : 0 <= x < 2 ^ p -> 0 <= p <= i -> Z.testbit x i = false.
Proof.
  intros Hx Hp. rewrite <- (Z.mod_small x (2 ^ p)) by done.
  apply Z.mod_pow2_bits_high. lia.
Qed.

(** Bounds of a word from its bits. *)
Lemma bits_bounded x p : 0 <= p -> 0 <= x -> (forall i, p <= i -> Z.testbit x i = false) -> x < 2 ^ p.
Proof.
  intros Hp Hx Hi. assert (x = x mod 2 ^ p) as ->; [|apply Z.mod_pos_bound; lia].
  apply Z.bits_inj'. intros i H0. destruct (Z.lt_ge_cases i p).
  - rewrite Z.mod_pow2_bits_low by lia. done.
  - rewrite Z.mod_pow2_bits_high by lia. apply Hi. lia.
Qed.

Lemma lor_bounded x y p : 0 <= p -> 0 <= x < 2 ^ p -> 0 <= y < 2 ^ p -> 0 <= Z.lor x y < 2 ^ p.
Proof.
  intros Hp Hx Hy. assert (0 <= Z.lor x y) by (apply Z.lor_nonneg; lia).
  split; [done|]. apply bits_bounded; [done..|]. intros i Hi.
  rewrite Z.lor_spec, (testbit_high x p i), (testbit_high y p i) by lia. done.
Qed.

Lemma ldiff_bounded x y p : 0 <= p -> 0 <= x < 2 ^ p -> 0 <= Z.ldiff x y < 2 ^ p.
Proof.
  intros Hp Hx. assert (0 <= Z.ldiff x y) by (apply Z.ldiff_nonneg; lia).
  split; [done|]. apply bits_bounded; [done..|]. intros i Hi.
  by rewrite Z.ldiff_spec, (testbit_high x p i) by lia.
Qed.

(** * Options and lists *)

Lemma bind_Some {A B} (m : option A) (f : A -> option B) b :
  (m ≫= f) = Some b <-> exists a, m = Some a /\ f a = Some b.
Proof. destruct m; naive_solver. Qed.

Lemma NoDup_app_mid {A} (l1 l2 : list A) x :
  NoDup (l1 ++ x :: l2) <-> (x ∉ l1) /\ (x ∉ l2) /\ NoDup (l1 ++ l2).
Proof.
  rewrite <- Permutation_middle, NoDup_cons. set_solver.
Qed.

Lemma filter_none {A} (P : A -> Prop) `{!forall x, Decision (P x)} (l : list A) :
  (forall x, x ∈ l -> ~ P x) -> filter P l = [].
Proof.
  induction l as [|x l IH]; intros Hl; [done|]. rewrite filter_cons_False by (apply Hl; by left).
  apply IH. intros y Hy. apply Hl. by right.
Qed.

Lemma filter_all {A} (P : A -> Prop) `{!forall x, Decision (P x)} (l : list A) :
  (forall x, x ∈ l -> P x) -> filter P l = l.
Proof.
  induction l as [|x l IH]; intros Hl; [done|]. rewrite filter_cons_True by (apply Hl; by left).
  f_equal. apply IH. intros y Hy. apply Hl. by right.
Qed.

(** * Sums and concatenations over a finite map *)

Definition tsum {A} (f : A -> Z) (m : gmap Z A) : Z := foldr (fun p z => f p.2 + z) 0 (map_to_list m).
Definition tkeys {A B} (f : A -> list B) (m : gmap Z A) : list B := map_to_list m ≫= fun p => f p.2.

Section sums.
Context {A B : Type}.
Implicit Types (m : gmap Z A) (f : A -> Z) (g : A -> list B).

Lemma tsum_perm f (l l' : list (Z * A)) : l ≡ₚ l' -> foldr (fun p z => f p.2 + z) 0 l = foldr (fun p z => f p.2 + z) 0 l'.
Proof. induction 1; cbn; lia. Qed.

Lemma tsum_new f m t a : m !! t = None -> tsum f (<[t := a]> m) = f a + tsum f m.
Proof. intros Hm. unfold tsum. by rewrite (tsum_perm f _ _ (map_to_list_insert m t a Hm)). Qed.

Lemma tsum_delete f m t a : m !! t = Some a -> tsum f m = f a + tsum f (delete t m).
Proof. intros Hm. unfold tsum. by rewrite <- (tsum_perm f _ _ (map_to_list_delete m t a Hm)). Qed.

Lemma tsum_put f m t a b : m !! t = Some a -> tsum f (<[t := b]> m) + f a = tsum f m + f b.
Proof.
  intros Hm. rewrite (tsum_delete f m t a Hm). rewrite <- (insert_delete_eq m t b). rewrite tsum_new by apply lookup_delete_eq. lia.
Qed.

Lemma tkeys_new g m t a : m !! t = None -> tkeys g (<[t := a]> m) ≡ₚ g a ++ tkeys g m.
Proof. intros Hm. unfold tkeys. by rewrite (map_to_list_insert m t a Hm). Qed.

Lemma tkeys_delete g m t a : m !! t = Some a -> tkeys g m ≡ₚ g a ++ tkeys g (delete t m).
Proof. intros Hm. unfold tkeys. by rewrite <- (map_to_list_delete m t a Hm). Qed.

Lemma tkeys_put g m t a b : m !! t = Some a -> tkeys g (<[t := b]> m) ++ g a ≡ₚ tkeys g m ++ g b.
Proof.
  intros Hm. rewrite (tkeys_delete g m t a Hm). rewrite <- (insert_delete_eq m t b). rewrite tkeys_new by apply lookup_delete_eq. solve_Permutation.
Qed.

Lemma tsum_nonneg f m : (forall a, 0 <= f a) -> 0 <= tsum f m.
Proof. intros Hf. unfold tsum. induction (map_to_list m) as [|p l IH]; cbn; [lia|]. specialize (Hf p.2). lia. Qed.

Lemma tsum_size f m : (forall a, 0 <= f a <= 1) -> tsum f m <= Z.of_nat (base.size m).
Proof.
  intros Hf. unfold tsum. rewrite <- length_map_to_list. induction (map_to_list m) as [|p l IH]; cbn; [lia|]. specialize (Hf p.2). lia.
Qed.

(** The same for a map whose absent entries count as [a0]. *)
Lemma tsum_update f m a0 t b : f a0 = 0 -> tsum f (<[t := b]> m) = tsum f m + f b - f (default a0 (m !! t)).
Proof.
  intros H0. destruct (m !! t) as [a|] eqn:Hm; unfold default, from_option, id.
  - pose proof (tsum_put f m t a b Hm). lia.
  - rewrite (tsum_new f m t b Hm). lia.
Qed.

Lemma tkeys_update g m a0 t b : g a0 = [] -> tkeys g (<[t := b]> m) ++ g (default a0 (m !! t)) ≡ₚ tkeys g m ++ g b.
Proof.
  intros H0. destruct (m !! t) as [a|] eqn:Hm; unfold default, from_option, id.
  - by apply tkeys_put.
  - rewrite (tkeys_new g m t b Hm), H0. solve_Permutation.
Qed.

Lemma elem_of_tkeys g m x : x ∈ tkeys g m <-> exists t a, m !! t = Some a /\ x ∈ g a.
Proof.
  unfold tkeys. rewrite list_elem_of_bind. split.
  - intros ([t a] & Hx & Hp%elem_of_map_to_list). eauto.
  - intros (t & a & Hm & Hx). exists (t, a). by rewrite elem_of_map_to_list.
Qed.
End sums.

(** * Sums over the threads of a system *)

Section total.
Context {A : Type}.
Implicit Types (f g : A -> Z) (ts : list A).

Fixpoint total (f : A -> Z) (ts : list A) : Z :=
  match ts with
  | [] => 0
  | p :: ts => f p + total f ts
  end.

Lemma total_insert f ts i p q : ts !! i = Some p -> total f (<[i := q]> ts) = total f ts - f p + f q.
Proof.
  revert i. induction ts as [|x ts IH]; intros [|i] E; try done.
  - injection E as ->. cbn. lia.
  - change (<[S i := q]> (x :: ts)) with (x :: <[i := q]> ts). cbn [total]. rewrite (IH i E). lia.
Qed.

Lemma total_bound f ts : (forall p, 0 <= f p <= 1) -> 0 <= total f ts <= Z.of_nat (length ts).
Proof. intros Hf. induction ts as [|x ts IH]; cbn [total length]; [lia|]. specialize (Hf x). lia. Qed.

Lemma total_pos f ts i p : (forall p, 0 <= f p <= 1) -> ts !! i = Some p -> f p <= total f ts.
Proof.
  intros Hf. revert i. induction ts as [|x ts IH]; intros [|i]; cbn; try done.
  - intros [= ->]. pose proof (total_bound f ts Hf) as Hb. lia.
  - intros E. specialize (IH i E). specialize (Hf x). lia.
Qed.

Lemma total_two f ts i j p q z : (forall p, 0 <= f p <= 1) -> f z = 0 -> ts !! i = Some p -> ts !! j = Some q -> i <> j -> f p + f q <= total f ts.
Proof.
  intros Hf H0 Hi Hj Hij. pose proof (total_insert f ts i p z Hi) as E.
  pose proof (total_pos f (<[i := z]> ts) j q Hf) as Hp. rewrite list_lookup_insert_ne in Hp by done. specialize (Hp Hj).
  lia.
Qed.

Lemma total_some f ts : 0 < total f ts -> exists i p, ts !! i = Some p /\ 0 < f p.
Proof.
  induction ts as [|x ts IH]; cbn; [lia|]. intros Hp. destruct (Z.ltb_spec 0 (f x)); [by exists 0%nat, x|].
  destruct IH as (i & p & Hi & Hf); [lia|]. by exists (S i), p.
Qed.

Lemma total_ext f g ts : (forall p, f p = g p) -> total f ts = total g ts.
Proof. intros Hf. induction ts as [|x ts IH]; cbn; [done|]. rewrite Hf. lia. Qed.

Lemma total_map f (h : A -> A) ts : (forall p, f (h p) = f p) -> total f (h <$> ts) = total f ts.
Proof. intros Hf. induction ts as [|x ts IH]; cbn; [done|]. rewrite Hf. lia. Qed.

Lemma total_le f g ts : (forall p, f p <= g p) -> total f ts <= total g ts.
Proof. intros Hf. induction ts as [|x ts IH]; cbn; [done|]. specialize (Hf x). lia. Qed.

Lemma total_add f g ts : total (fun p => f p + g p) ts = total f ts + total g ts.
Proof. induction ts as [|x ts IH]; cbn; lia. Qed.
End total.
