(* ===== verification/IntrusiveList.v ===== *)
(** Intrusive doubly-linked list of detail/intrusive_list.hpp: the hook with
    its flag bits, the link operations as pointer manipulations on a store of
    hooks, the iterators, and the refinement of every operation to the
    mathematical list of the linked items. *)

From S2P Require Import Prelude.

(** * The embedded hook *)

(** Items are identified by their address; [None] is [nullptr]. *)
Definition loc := positive.
Bind Scope positive_scope with loc.
Definition ptr := option loc.

Record intrusive_hook := Hook {
  prev : ptr;
  next : ptr;
  update_time : Z;
  flags : Z
}.

Definition kTailFlag : Z := Z.shiftl 1 0.
Definition kAccessedFlag : Z := Z.shiftl 1 1.
Definition kLinkedFlag : Z := Z.shiftl 1 2.

(** [static_cast<uint8_t>(~kFlag)] *)
Definition kTailClearMask : Z := u8 (Z.lnot kTailFlag).
Definition kAccessedClearMask : Z := u8 (Z.lnot kAccessedFlag).
Definition kLinkedClearMask : Z := u8 (Z.lnot kLinkedFlag).

Definition with_flags (f : Z -> Z) (hk : intrusive_hook) : intrusive_hook :=
  Hook (prev hk) (next hk) (update_time hk) (f (flags hk)).

Definition flag_set (mask : Z) (hk : intrusive_hook) : bool :=
  negb (Z.land (flags hk) mask =? 0).

Definition is_tail := flag_set kTailFlag.
Definition set_tail := with_flags (fun f => Z.lor f kTailFlag).
Definition clear_tail := with_flags (fun f => Z.land f kTailClearMask).

Definition is_accessed := flag_set kAccessedFlag.
Definition set_accessed := with_flags (fun f => Z.lor f kAccessedFlag).
Definition clear_accessed := with_flags (fun f => Z.land f kAccessedClearMask).

Definition is_linked := flag_set kLinkedFlag.
Definition set_linked := with_flags (fun f => Z.lor f kLinkedFlag).
Definition clear_linked := with_flags (fun f => Z.land f kLinkedClearMask).

(** [hook_pointer_traits<intrusive_hook>]: the base address is ignored. *)
Definition set_prev (p : ptr) (hk : intrusive_hook) : intrusive_hook :=
  Hook p (next hk) (update_time hk) (flags hk).
Definition set_next (p : ptr) (hk : intrusive_hook) : intrusive_hook :=
  Hook (prev hk) p (update_time hk) (flags hk).
Definition is_end_prev (hk : intrusive_hook) : bool := bool_decide (prev hk = None).

(** The default-constructed hook of a new item. *)
Definition fresh_hook : intrusive_hook := Hook None None 0 0.

(** * The list *)

(** The hooks of all live items: an item's address absent from the store is a
    dangling pointer. *)
Abbreviation store := (gmap loc intrusive_hook).

Record intrusive_list := DList {
  head_ptr : ptr;
  tail_ptr : ptr;
  base : ptr;
  size_ : Z
}.

Definition with_head (p : ptr) (l : intrusive_list) := DList p (tail_ptr l) (base l) (size_ l).
Definition with_tail (p : ptr) (l : intrusive_list) := DList (head_ptr l) p (base l) (size_ l).
Definition with_size (n : Z) (l : intrusive_list) := DList (head_ptr l) (tail_ptr l) (base l) n.

Definition new_list (base_address : ptr) : intrusive_list := DList None None base_address 0.

(** [GetHook( *p )] and an update through that reference; [None] when [p] is
    dangling. *)
Definition upd (p : loc) (f : intrusive_hook -> intrusive_hook) (h : store) : option store :=
  hk ← h !! p; Some (<[p := f hk]> h).

(** [assert] of a debug build. *)
Definition assert_ (b : bool) : option unit := if b then Some tt else None.

(** The branch every link operation repeats: patch the predecessor's next
    pointer, or the list head when there is no predecessor. *)
Definition patch_next (p to : ptr) (s : store * intrusive_list) : option (store * intrusive_list) :=
  match p with
  | Some q => h ← upd q (set_next to) s.1; Some (h, s.2)
  | None => Some (s.1, with_head to s.2)
  end.

(** Dually: the successor's prev pointer, or the list tail. *)
Definition patch_prev (p to : ptr) (s : store * intrusive_list) : option (store * intrusive_list) :=
  match p with
  | Some q => h ← upd q (set_prev to) s.1; Some (h, s.2)
  | None => Some (s.1, with_tail to s.2)
  end.

Definition link_at_head (item : loc) (s : store * intrusive_list) : option (store * intrusive_list) :=
  let '(h, l) := s in
  hk ← h !! item;
  _ ← assert_ (negb (is_linked hk));
  h1 ← upd item (fun k => set_next (head_ptr l) (set_prev None k)) h;
  s1 ← patch_prev (head_ptr l) (Some item) (h1, l);
  let l1 := with_head (Some item) s1.2 in
  h2 ← upd item set_linked s1.1;
  Some (h2, with_size (u64 (size_ l1 + 1)) l1).

Definition link_at_tail (item : loc) (s : store * intrusive_list) : option (store * intrusive_list) :=
  let '(h, l) := s in
  hk ← h !! item;
  _ ← assert_ (negb (is_linked hk));
  h1 ← upd item (fun k => set_prev (tail_ptr l) (set_next None k)) h;
  s1 ← patch_next (tail_ptr l) (Some item) (h1, l);
  let l1 := with_tail (Some item) s1.2 in
  h2 ← upd item set_linked s1.1;
  Some (h2, with_size (u64 (size_ l1 + 1)) l1).

Definition insert_before (next_node item : loc) (s : store * intrusive_list) : option (store * intrusive_list) :=
  let '(h, l) := s in
  next_hook ← h !! next_node;
  item_hook ← h !! item;
  _ ← assert_ (negb (is_linked item_hook));
  _ ← assert_ (is_linked next_hook);
  let prev_ptr := prev next_hook in
  h1 ← upd item (fun k => set_next (Some next_node) (set_prev prev_ptr k)) h;
  s1 ← patch_next prev_ptr (Some item) (h1, l);
  h2 ← upd next_node (set_prev (Some item)) s1.1;
  h3 ← upd item set_linked h2;
  Some (h3, with_size (u64 (size_ s1.2 + 1)) s1.2).

Definition unlink (item : loc) (s : store * intrusive_list) : option (store * intrusive_list) :=
  let '(h, l) := s in
  hk ← h !! item;
  _ ← assert_ (is_linked hk);
  let prev_ptr := prev hk in
  let next_ptr := next hk in
  s1 ← patch_next prev_ptr next_ptr (h, l);
  s2 ← patch_prev next_ptr prev_ptr s1;
  h3 ← upd item clear_linked s2.1;
  Some (h3, with_size (u64 (size_ s2.2 - 1)) s2.2).

Definition remove (item : loc) (s : store * intrusive_list) : option (store * intrusive_list) :=
  s1 ← unlink item s;
  h ← upd item (fun k => set_next None (set_prev None k)) s1.1;
  Some (h, s1.2).

Definition move_to_head (item : loc) (s : store * intrusive_list) : option (store * intrusive_list) :=
  let '(h, l) := s in
  hk ← h !! item;
  if is_end_prev hk then Some (h, l)
  else
    let prev_ptr := prev hk in
    let next_ptr := next hk in
    s1 ← patch_next prev_ptr next_ptr (h, l);
    s2 ← patch_prev next_ptr prev_ptr s1;
    let old_head := head_ptr s2.2 in
    h3 ← upd item (fun k => set_next old_head (set_prev None k)) s2.1;
    s4 ← patch_prev old_head (Some item) (h3, s2.2);
    Some (s4.1, with_head (Some item) s4.2).

Definition replace (old_node new_node : loc) (s : store * intrusive_list) : option (store * intrusive_list) :=
  let '(h, l) := s in
  _ ← assert_ (negb (bool_decide (old_node = new_node)));
  old_hook ← h !! old_node;
  new_hook ← h !! new_node;
  _ ← assert_ (is_linked old_hook);
  _ ← assert_ (negb (is_linked new_hook));
  let prev_ptr := prev old_hook in
  let next_ptr := next old_hook in
  h1 ← upd new_node (fun k => set_next next_ptr (set_prev prev_ptr k)) h;
  s2 ← patch_next prev_ptr (Some new_node) (h1, l);
  s3 ← patch_prev next_ptr (Some new_node) s2;
  h4 ← upd old_node (fun k => clear_linked (set_next None (set_prev None k))) s3.1;
  h5 ← upd new_node set_linked h4;
  Some (h5, s3.2).

Definition empty (l : intrusive_list) : bool := size_ l =? 0.

Definition get_next (node : loc) (h : store) : option ptr := next <$> h !! node.
Definition get_prev (node : loc) (h : store) : option ptr := prev <$> h !! node.

(** The loop of [clear]: it nulls the next pointer of every node it visits, so
    it visits no more nodes than the store holds, plus one. *)
Fixpoint clear_loop (fuel : nat) (curr : ptr) (h : store) : option store :=
  match curr, fuel with
  | None, _ => Some h
  | Some _, O => None
  | Some p, S fuel =>
      hk ← h !! p;
      h1 ← upd p (fun k => clear_linked (set_next None (set_prev None k))) h;
      clear_loop fuel (next hk) h1
  end.

Definition clear (s : store * intrusive_list) : option (store * intrusive_list) :=
  h ← clear_loop (S (size s.1)) (head_ptr s.2) s.1;
  Some (h, DList None None (base s.2) 0).

Definition pop_at (end_ptr : intrusive_list -> ptr) (s : store * intrusive_list)
    : option (ptr * (store * intrusive_list)) :=
  if empty s.2 then Some (None, s)
  else
    item ← end_ptr s.2;
    s1 ← unlink item s;
    h ← upd item (fun k => set_next None (set_prev None k)) s1.1;
    Some (Some item, (h, s1.2)).

Definition pop_tail := pop_at tail_ptr.
Definition pop_head := pop_at head_ptr.

(** * Iterators *)

(** [operator++] of the forward iterator and [operator--] (which is [++] of
    the reverse iterator): no move from the end position. *)
Definition iter_next (h : store) (node : ptr) : option ptr :=
  match node with Some p => get_next p h | None => Some None end.
Definition iter_prev (h : store) (node : ptr) : option ptr :=
  match node with Some p => get_prev p h | None => Some None end.

Definition reset_to_begin (from_tail : bool) (l : intrusive_list) : ptr :=
  if from_tail then tail_ptr l else head_ptr l.

(** A range-for over the iterator: the nodes met from [node] to [end()]. *)
Fixpoint iterate (step : store -> ptr -> option ptr) (fuel : nat) (h : store) (node : ptr)
    : option (list loc) :=
  match node, fuel with
  | None, _ => Some []
  | Some _, O => None
  | Some p, S fuel => q ← step h node; rest ← iterate step fuel h q; Some (p :: rest)
  end.

Definition forward_items (h : store) (l : intrusive_list) : option (list loc) :=
  iterate iter_next (S (size h)) h (head_ptr l).
Definition reverse_items (h : store) (l : intrusive_list) : option (list loc) :=
  iterate iter_prev (S (size h)) h (tail_ptr l).

Arguments link_at_head : simpl never.
Arguments link_at_tail : simpl never.
Arguments insert_before : simpl never.
Arguments unlink : simpl never.
Arguments remove : simpl never.
Arguments move_to_head : simpl never.
Arguments replace : simpl never.

(** * Flag bits *)

Lemma is_linked_set hk : is_linked (set_linked hk) = true.
Proof.
  unfold is_linked, flag_set, set_linked, with_flags; simpl.
  rewrite negb_true_iff, Z.eqb_neq. intros E.
  apply (f_equal (fun z => Z.testbit z 2)) in E.
  rewrite Z.land_spec, Z.lor_spec in E. simpl in E.
  rewrite orb_true_r in E. discriminate.
Qed.

Lemma is_linked_clear hk : is_linked (clear_linked hk) = false.
Proof.
  unfold is_linked, flag_set, clear_linked, with_flags; simpl.
  rewrite <- Z.land_assoc. change (Z.land kLinkedClearMask kLinkedFlag) with 0.
  by rewrite Z.land_0_r.
Qed.

(** The fields no link operation touches. *)
Definition meta (hk : intrusive_hook) : Z * bool * bool :=
  (update_time hk, is_tail hk, is_accessed hk).

Lemma flag_set_lor m k hk :
  Z.land k m = 0 -> flag_set m (with_flags (fun f => Z.lor f k) hk) = flag_set m hk.
Proof.
  intros E. unfold flag_set, with_flags; simpl.
  by rewrite Z.land_lor_distr_l, E, Z.lor_0_r.
Qed.

Lemma flag_set_land m k hk :
  Z.land k m = m -> flag_set m (with_flags (fun f => Z.land f k) hk) = flag_set m hk.
Proof. intros E. unfold flag_set, with_flags; simpl. by rewrite <- Z.land_assoc, E. Qed.

Lemma meta_set_linked hk : meta (set_linked hk) = meta hk.
Proof. unfold meta, set_linked, is_tail, is_accessed. by rewrite !flag_set_lor. Qed.

Lemma meta_clear_linked hk : meta (clear_linked hk) = meta hk.
Proof. unfold meta, clear_linked, is_tail, is_accessed. by rewrite !flag_set_land. Qed.

#[export] Hint Resolve is_linked_set is_linked_clear meta_set_linked meta_clear_linked : lru.

(** * Representation of a list by its hooks *)

Definition hd_or (d : ptr) (xs : list loc) : ptr :=
  match xs with [] => d | x :: _ => Some x end.

Fixpoint last_or (d : ptr) (xs : list loc) : ptr :=
  match xs with [] => d | x :: xs => last_or (Some x) xs end.

Definition node (h : store) (p : loc) (pr nx : ptr) : Prop :=
  exists hk, h !! p = Some hk /\ prev hk = pr /\ next hk = nx /\ is_linked hk = true.

(** [dseg h pp xs qn]: the items [xs] are chained in [h], the first one's
    predecessor is [pp] and the last one's successor is [qn]. *)
Fixpoint dseg (h : store) (pp : ptr) (xs : list loc) (qn : ptr) : Prop :=
  match xs with
  | [] => True
  | x :: xs => node h x pp (hd_or qn xs) /\ dseg h (Some x) xs qn
  end.

(** [dll s xs]: the list object and the store represent the sequence [xs],
    MRU end first. *)
Record dll (s : store * intrusive_list) (xs : list loc) : Prop := {
  dll_nodup : NoDup xs;
  dll_head : head_ptr s.2 = hd_or None xs;
  dll_tail : tail_ptr s.2 = last_or None xs;
  dll_size : size_ s.2 = u64 (Z.of_nat (length xs));
  dll_seg : dseg s.1 None xs None
}.

(** The hooks of the items outside [xs] are the same. *)
Definition agree_off (xs : list loc) (h h' : store) : Prop :=
  forall q, q ∉ xs -> h' !! q = h !! q.

(** What a list operation guarantees besides the new sequence: no other
    item's hook, and no metadata, has changed. *)
Definition frame (xs : list loc) (h h' : store) : Prop :=
  agree_off xs h h' /\ meta <$> h' = meta <$> h.

Lemma hd_or_app d xs ys : hd_or d (xs ++ ys) = hd_or (hd_or d ys) xs.
Proof. by destruct xs. Qed.

Lemma last_or_app d xs ys : last_or d (xs ++ ys) = last_or (last_or d xs) ys.
Proof. revert d; induction xs; simpl; auto. Qed.

Lemma last_or_cons_ne d xs : xs <> [] -> last_or d xs = last_or None xs.
Proof. by destruct xs. Qed.

Lemma dseg_app h pp xs ys qn :
  dseg h pp (xs ++ ys) qn <-> dseg h pp xs (hd_or qn ys) /\ dseg h (last_or pp xs) ys qn.
Proof.
  revert pp; induction xs as [|x xs IH]; intros pp; simpl; [naive_solver|].
  rewrite IH, hd_or_app. naive_solver.
Qed.

Lemma dseg_agree xs h h' pp qn :
  (forall x, x ∈ xs -> h' !! x = h !! x) -> dseg h pp xs qn -> dseg h' pp xs qn.
Proof.
  revert pp; induction xs as [|x xs IH]; intros pp Ha; simpl; [done|].
  intros [(hk & Hx & ?) ?]. split.
  - exists hk. rewrite Ha by set_solver. done.
  - apply IH; [set_solver|done].
Qed.

Lemma dseg_node h pp xs qn x : dseg h pp xs qn -> x ∈ xs -> exists pr nx, node h x pr nx.
Proof.
  revert pp; induction xs as [|y xs IH]; intros pp; simpl; [set_solver|].
  intros [Hy Hs] [->|Hx]%elem_of_cons; eauto.
Qed.

Lemma dseg_unlinked_notin h pp xs qn x hk :
  dseg h pp xs qn -> h !! x = Some hk -> is_linked hk = false -> x ∉ xs.
Proof. intros Hs Hx Hl Hin. destruct (dseg_node _ _ _ _ _ Hs Hin) as (pr & nx & hk' & Hx' & _ & _ & Hl'). congruence. Qed.

(** ** Frame lemmas *)

Lemma upd_frame p f h h' xs :
  upd p f h = Some h' -> p ∈ xs -> (forall k, meta (f k) = meta k) -> frame xs h h'.
Proof.
  unfold upd. intros (hk & Hp & [= <-])%bind_Some Hin Hm. split.
  - intros q Hq. rewrite lookup_insert_ne; [done|]. set_solver.
  - apply map_eq. intros q. rewrite !lookup_fmap. destruct (decide (p = q)) as [->|].
    + rewrite lookup_insert_eq, Hp. simpl. by rewrite Hm.
    + by rewrite lookup_insert_ne.
Qed.

Lemma frame_refl xs h : frame xs h h.
Proof. done. Qed.

Lemma frame_trans xs h1 h2 h3 : frame xs h1 h2 -> frame xs h2 h3 -> frame xs h1 h3.
Proof. intros [A1 M1] [A2 M2]. split; [|congruence]. intros q Hq. by rewrite A2, A1. Qed.

Lemma frame_weaken xs ys h h' : (forall x, x ∈ xs -> x ∈ ys) -> frame xs h h' -> frame ys h h'.
Proof. intros Hs [A M]. split; [|done]. intros q Hq. apply A. naive_solver. Qed.

Lemma frame_compose xs ys zs h1 h2 h3 :
  frame xs h1 h2 -> frame ys h2 h3 -> xs ⊆ zs -> ys ⊆ zs -> frame zs h1 h3.
Proof. intros F1 F2 H1 H2. eapply frame_trans; eapply frame_weaken; [|done| |done]; auto. Qed.

Lemma dseg_frame xs ys h h' pp qn :
  frame ys h h' -> (forall x, x ∈ xs -> x ∉ ys) -> dseg h pp xs qn -> dseg h' pp xs qn.
Proof. intros [A _] Hd. apply dseg_agree. intros x Hx. apply A. auto. Qed.

(** ** The two pointer patches *)

Lemma upd_node p f h pr nx pr' nx' :
  node h p pr nx ->
  (forall k, prev k = pr -> next k = nx -> is_linked k = true ->
     prev (f k) = pr' /\ next (f k) = nx' /\ is_linked (f k) = true) ->
  exists h', upd p f h = Some h' /\ node h' p pr' nx'.
Proof.
  intros (hk & Hp & Hpr & Hnx & Hl) Hf. exists (<[p := f hk]> h). unfold upd. rewrite Hp.
  split; [done|]. exists (f hk). rewrite lookup_insert_eq. naive_solver.
Qed.

Lemma patch_next_spec h l l1 qn to :
  dseg h None l1 qn -> NoDup l1 ->
  exists h' l', patch_next (last_or None l1) to (h, l) = Some (h', l') /\
    dseg h' None l1 to /\ frame l1 h h' /\
    head_ptr l' = (if decide (l1 = []) then to else head_ptr l) /\
    tail_ptr l' = tail_ptr l /\ size_ l' = size_ l /\ base l' = base l.
Proof.
  intros Hs Hnd. destruct l1 as [|p l1 _] using rev_ind.
  - exists h, (with_head to l). case_decide; done.
  - rewrite last_or_app. simpl. apply dseg_app in Hs as [Hs1 [Hp _]].
    apply NoDup_app in Hnd as (Hnd & Hp1 & _).
    destruct (upd_node p (set_next to) h _ _ (last_or None l1) to Hp) as (h' & Hu & Hn); [naive_solver|].
    exists h', l. rewrite Hu. simpl.
    assert (frame [p] h h') by (eapply upd_frame; [done|set_solver|done]).
    split; [done|]. rewrite dseg_app. split; [split|].
    + eapply dseg_frame; [done|set_solver|done].
    + done.
    + split; [eapply frame_weaken; [|done]; set_solver|].
      rewrite decide_False by (by destruct l1). done.
Qed.

Lemma patch_prev_spec h l l2 pp to :
  dseg h pp l2 None -> NoDup l2 ->
  exists h' l', patch_prev (hd_or None l2) to (h, l) = Some (h', l') /\
    dseg h' to l2 None /\ frame l2 h h' /\
    tail_ptr l' = (if decide (l2 = []) then to else tail_ptr l) /\
    head_ptr l' = head_ptr l /\ size_ l' = size_ l /\ base l' = base l.
Proof.
  intros Hs Hnd. destruct l2 as [|p l2]; simpl.
  - exists h, (with_tail to l). done.
  - destruct Hs as [Hp Hs]. apply NoDup_cons in Hnd as [Hp2 Hnd].
    destruct (upd_node p (set_prev to) h _ _ to (hd_or None l2) Hp) as (h' & Hu & Hn); [naive_solver|].
    exists h', l. rewrite Hu. simpl.
    assert (frame [p] h h') by (eapply upd_frame; [done|set_solver|done]).
    split; [done|]. split; [split; [done|]|].
    + eapply dseg_frame; [done|set_solver|done].
    + split; [eapply frame_weaken; [|done]; set_solver|done].
Qed.

(** Both patches around the position between [l1] and [l2]: the left part is
    made to continue at [a], the right part to be preceded by [b]. *)
Lemma splice_spec h l l1 l2 qn pp a b :
  dseg h None l1 qn -> dseg h pp l2 None -> NoDup (l1 ++ l2) ->
  exists s1 h' l',
    patch_next (last_or None l1) a (h, l) = Some s1 /\
    patch_prev (hd_or None l2) b s1 = Some (h', l') /\
    dseg h' None l1 a /\ dseg h' b l2 None /\ frame (l1 ++ l2) h h' /\
    head_ptr l' = (if decide (l1 = []) then a else head_ptr l) /\
    tail_ptr l' = (if decide (l2 = []) then b else tail_ptr l) /\
    size_ l' = size_ l /\ base l' = base l.
Proof.
  intros Hs1 Hs2 (Hn1 & Hd & Hn2)%NoDup_app.
  destruct (patch_next_spec h l l1 _ a Hs1 Hn1) as (h1 & l1' & E1 & S1 & F1 & P1 & P2 & P3 & P4).
  assert (dseg h1 pp l2 None) as S2 by (eapply dseg_frame; [exact F1| |exact Hs2]; set_solver).
  destruct (patch_prev_spec h1 l1' l2 _ b S2 Hn2) as (h2 & l2' & E2 & S2' & F2 & Q1 & Q2 & Q3 & Q4).
  exists (h1, l1'), h2, l2'. split; [done|]. split; [done|].
  split; [eapply dseg_frame; [exact F2| |exact S1]; set_solver|]. split; [done|].
  split; [eapply frame_compose; [exact F1|exact F2|set_solver..]|].
  rewrite Q1, P2, Q2, P1. split; [done|]. split; [done|]. split; congruence.
Qed.

(** Splicing an item out of the chain, as [unlink] and [move_to_head] do. *)
Lemma bypass_spec h l l1 x l2 :
  dll (h, l) (l1 ++ x :: l2) ->
  exists s1 h' l',
    patch_next (last_or None l1) (hd_or None l2) (h, l) = Some s1 /\
    patch_prev (hd_or None l2) (last_or None l1) s1 = Some (h', l') /\
    dseg h' None (l1 ++ l2) None /\ frame (l1 ++ l2) h h' /\
    head_ptr l' = hd_or None (l1 ++ l2) /\ tail_ptr l' = last_or None (l1 ++ l2) /\
    size_ l' = size_ l /\ base l' = base l.
Proof.
  intros [(Hx1 & Hx2 & Hnd)%NoDup_app_mid Hh Ht Hsz Hs]. simpl in *.
  apply dseg_app in Hs as [Hs1 [_ Hs2]]. simpl in Hs1, Hs2.
  destruct (splice_spec h l l1 l2 _ _ (hd_or None l2) (last_or None l1) Hs1 Hs2 Hnd)
    as (s1 & h' & l' & E1 & E2 & S1 & S2 & F & P1 & P2 & P3 & P4).
  exists s1, h', l'. split; [done|]. split; [done|]. split; [by apply dseg_app|]. split; [done|].
  rewrite P1, P2, hd_or_app, last_or_app. split; [|split; [|done]].
  - destruct (decide (l1 = [])) as [->|E]; [done|]. rewrite Hh, hd_or_app. by destruct l1.
  - destruct (decide (l2 = [])) as [->|E]; [done|]. rewrite Ht, last_or_app. simpl.
    by rewrite (last_or_cons_ne (last_or None l1)), (last_or_cons_ne (Some x)).
Qed.

Lemma dll_mid_node h l l1 x l2 :
  dll (h, l) (l1 ++ x :: l2) -> node h x (last_or None l1) (hd_or None l2).
Proof. intros [_ _ _ _ Hs]. simpl in Hs. apply dseg_app in Hs as [_ [Hx _]]. done. Qed.

Lemma upd_total p f h hk : h !! p = Some hk -> upd p f h = Some (<[p := f hk]> h).
Proof. intros E. unfold upd. by rewrite E. Qed.

Lemma frame_lookup xs h h' q : frame xs h h' -> q ∉ xs -> h' !! q = h !! q.
Proof. intros [A _]. apply A. Qed.

(** ** Operations refine list functions *)

Lemma unlink_dll h l l1 x l2 :
  dll (h, l) (l1 ++ x :: l2) ->
  exists h' l', unlink x (h, l) = Some (h', l') /\ dll (h', l') (l1 ++ l2) /\
    frame (l1 ++ x :: l2) h h' /\ base l' = base l /\
    exists hk, h' !! x = Some hk /\ is_linked hk = false.
Proof.
  intros Hd. destruct (bypass_spec _ _ _ _ _ Hd) as (s1 & h2 & l2' & E1 & E2 & S2 & F2 & Hh & Ht & Hz & Hb).
  destruct (dll_mid_node _ _ _ _ _ Hd) as (hk & Hx & Hpr & Hnx & Hl).
  destruct Hd as [Hnd _ _ Hsz _]. simpl in Hsz. apply NoDup_app_mid in Hnd as (Hx1 & Hx2 & Hnd).
  assert (h2 !! x = Some hk) as Hx' by (rewrite (frame_lookup _ _ _ _ F2); [done|set_solver]).
  pose proof (upd_total x clear_linked h2 hk Hx') as Hu.
  assert (frame [x] h2 (<[x := clear_linked hk]> h2)) as F3
    by (eapply upd_frame; [done|set_solver|apply meta_clear_linked]).
  eexists _, _. unfold unlink. rewrite Hx. simpl. rewrite Hl, Hpr, Hnx. simpl.
  rewrite E1. simpl. rewrite E2. simpl. rewrite Hu. simpl. split; [done|]. split; [|split; [|split]].
  - split; simpl; try done.
    + rewrite Hz, Hsz. simpl. rewrite length_app. autorewrite with wraps. simpl.
      rewrite length_app. f_equal. simpl. lia.
    + eapply dseg_frame; [exact F3| |exact S2]. set_solver.
  - eapply frame_compose; [exact F2|exact F3|set_solver..].
  - done.
  - exists (clear_linked hk). rewrite lookup_insert_eq. auto with lru.
Qed.

Lemma remove_dll h l l1 x l2 :
  dll (h, l) (l1 ++ x :: l2) ->
  exists h' l', remove x (h, l) = Some (h', l') /\ dll (h', l') (l1 ++ l2) /\
    frame (l1 ++ x :: l2) h h' /\ base l' = base l /\
    exists hk, h' !! x = Some hk /\ is_linked hk = false /\ prev hk = None /\ next hk = None.
Proof.
  intros Hd. pose proof (dll_nodup _ _ Hd) as (Hx1 & Hx2 & _)%NoDup_app_mid.
  destruct (unlink_dll _ _ _ _ _ Hd) as (h1 & l1' & E & Hd1 & F1 & Hb & hk & Hx & Hl).
  pose proof (upd_total x (fun k => set_next None (set_prev None k)) h1 hk Hx) as Hu.
  eexists _, _. unfold remove. rewrite E. simpl. rewrite Hu. simpl. split; [done|].
  assert (frame [x] h1 (<[x := set_next None (set_prev None hk)]> h1)) as F2
    by (eapply upd_frame; [done|set_solver|done]).
  split; [|split; [|split; [done|]]].
  - destruct Hd1 as [? ? ? ? ?]. split; try done. simpl.
    eapply dseg_frame; [exact F2| |done]. set_solver.
  - eapply frame_trans; [done|]. eapply frame_weaken; [|done]. set_solver.
  - eexists. rewrite lookup_insert_eq. done.
Qed.

Lemma link_at_head_dll h l xs x hk :
  dll (h, l) xs -> h !! x = Some hk -> is_linked hk = false ->
  exists h' l', link_at_head x (h, l) = Some (h', l') /\ dll (h', l') (x :: xs) /\
    frame (x :: xs) h h' /\ base l' = base l.
Proof.
  intros [Hnd Hh Ht Hsz Hs] Hx Hl. simpl in *.
  assert (x ∉ xs) as Hxs by (eapply dseg_unlinked_notin; eauto).
  set (f := fun k => set_next (head_ptr l) (set_prev None k)).
  pose proof (upd_total x f h hk Hx) as Hu.
  assert (frame [x] h (<[x := f hk]> h)) as F1 by (eapply upd_frame; [done|set_solver|done]).
  assert (dseg (<[x := f hk]> h) None xs None) as S1 by (eapply dseg_frame; [exact F1| |done]; set_solver).
  destruct (patch_prev_spec _ l xs _ (Some x) S1 Hnd) as (h2 & l2 & E2 & S2 & F2 & P1 & P2 & P3 & P4).
  assert (h2 !! x = Some (f hk)) as Hx2 by (rewrite (frame_lookup _ _ _ _ F2), lookup_insert_eq; done).
  pose proof (upd_total x set_linked h2 _ Hx2) as Hu2.
  assert (frame [x] h2 (<[x := set_linked (f hk)]> h2)) as F3
    by (eapply upd_frame; [done|set_solver|apply meta_set_linked]).
  eexists _, _. unfold link_at_head. rewrite Hx. simpl. rewrite Hl. simpl. fold f. rewrite Hu. simpl.
  rewrite Hh, E2. simpl. rewrite Hu2. simpl. split; [done|]. split; [|split; [|done]].
  - split; simpl.
    + by apply NoDup_cons.
    + done.
    + rewrite P1. case_decide as E; [by subst|]. rewrite Ht. symmetry. by apply last_or_cons_ne.
    + rewrite P3, Hsz. autorewrite with wraps. f_equal. lia.
    + split; [|eapply dseg_frame; [exact F3| |done]; set_solver].
      eexists. rewrite lookup_insert_eq. split; [done|]. simpl. rewrite Hh. auto with lru.
  - eapply (frame_compose (x :: xs)); [eapply frame_compose; [exact F1|exact F2|set_solver..]|exact F3|set_solver..].
Qed.

Lemma link_at_tail_dll h l xs x hk :
  dll (h, l) xs -> h !! x = Some hk -> is_linked hk = false ->
  exists h' l', link_at_tail x (h, l) = Some (h', l') /\ dll (h', l') (xs ++ [x]) /\
    frame (xs ++ [x]) h h' /\ base l' = base l.
Proof.
  intros [Hnd Hh Ht Hsz Hs] Hx Hl. simpl in *.
  assert (x ∉ xs) as Hxs by (eapply dseg_unlinked_notin; eauto).
  set (f := fun k => set_prev (tail_ptr l) (set_next None k)).
  pose proof (upd_total x f h hk Hx) as Hu.
  assert (frame [x] h (<[x := f hk]> h)) as F1 by (eapply upd_frame; [done|set_solver|done]).
  assert (dseg (<[x := f hk]> h) None xs None) as S1 by (eapply dseg_frame; [exact F1| |done]; set_solver).
  destruct (patch_next_spec _ l xs _ (Some x) S1 Hnd) as (h2 & l2 & E2 & S2 & F2 & P1 & P2 & P3 & P4).
  assert (h2 !! x = Some (f hk)) as Hx2 by (rewrite (frame_lookup _ _ _ _ F2), lookup_insert_eq; done).
  pose proof (upd_total x set_linked h2 _ Hx2) as Hu2.
  assert (frame [x] h2 (<[x := set_linked (f hk)]> h2)) as F3
    by (eapply upd_frame; [done|set_solver|apply meta_set_linked]).
  eexists _, _. unfold link_at_tail. rewrite Hx. simpl. rewrite Hl. simpl. fold f. rewrite Hu. simpl.
  rewrite Ht, E2. simpl. rewrite Hu2. simpl. split; [done|]. split; [|split; [|done]].
  - split; simpl.
    + apply NoDup_app_mid. rewrite app_nil_r. set_solver.
    + rewrite P1, hd_or_app. simpl. destruct (decide (xs = [])) as [->|E]; [done|]. rewrite Hh. by destruct xs.
    + by rewrite last_or_app.
    + rewrite P3, Hsz, length_app. autorewrite with wraps. f_equal. simpl. lia.
    + apply dseg_app. split; [eapply dseg_frame; [exact F3| |exact S2]; set_solver|]. split; [|done].
      eexists. rewrite lookup_insert_eq. split; [done|]. simpl. rewrite Ht. auto with lru.
  - eapply (frame_compose (xs ++ [x])); [eapply frame_compose; [exact F1|exact F2|set_solver..]|exact F3|set_solver..].
Qed.

Lemma insert_before_dll h l l1 y l2 x hk :
  dll (h, l) (l1 ++ y :: l2) -> h !! x = Some hk -> is_linked hk = false ->
  exists h' l', insert_before y x (h, l) = Some (h', l') /\ dll (h', l') (l1 ++ x :: y :: l2) /\
    frame (l1 ++ x :: y :: l2) h h' /\ base l' = base l.
Proof.
  intros Hd Hx Hl. destruct (dll_mid_node _ _ _ _ _ Hd) as (yk & Hy & Hypr & Hynx & Hyl).
  destruct Hd as [Hnd Hh Ht Hsz Hs]. simpl in *.
  assert (x ∉ l1 ++ y :: l2) as Hxs by (eapply dseg_unlinked_notin; eauto).
  apply dseg_app in Hs as [Hs1 Hs2]. pose proof Hnd as (Hy1 & Hy2 & (Hn1 & Hdj & Hn2)%NoDup_app)%NoDup_app_mid.
  set (f := fun k => set_next (Some y) (set_prev (last_or None l1) k)).
  pose proof (upd_total x f h hk Hx) as Hu.
  assert (frame [x] h (<[x := f hk]> h)) as F1 by (eapply upd_frame; [done|set_solver|done]).
  assert (dseg (<[x := f hk]> h) None l1 (Some y)) as S1 by (eapply dseg_frame; [exact F1| |done]; set_solver).
  destruct (patch_next_spec _ l l1 _ (Some x) S1 Hn1) as (h2 & l2' & E2 & S2 & F2 & P1 & P2 & P3 & P4).
  assert (dseg h2 (last_or None l1) (y :: l2) None) as Sy.
  { eapply dseg_frame; [exact F2|set_solver|]. eapply dseg_frame; [exact F1|set_solver|done]. }
  destruct (patch_prev_spec h2 l2' (y :: l2) _ (Some x) Sy) as (h3 & l3 & E3 & S3 & F3 & _); [by apply NoDup_cons|].
  simpl in E3. apply bind_Some in E3 as (h3' & E3 & [= -> ->]).
  assert (h3 !! x = Some (f hk)) as Hx3.
  { rewrite (frame_lookup _ _ _ _ F3), (frame_lookup _ _ _ _ F2), lookup_insert_eq by set_solver. done. }
  pose proof (upd_total x set_linked h3 _ Hx3) as Hu2.
  assert (frame [x] h3 (<[x := set_linked (f hk)]> h3)) as F4
    by (eapply upd_frame; [done|set_solver|apply meta_set_linked]).
  eexists _, _. unfold insert_before. rewrite Hy. simpl. rewrite Hx. simpl. rewrite Hl. simpl. rewrite Hyl. simpl.
  rewrite Hypr. fold f. rewrite Hu. simpl. rewrite E2. simpl. rewrite E3. simpl. rewrite Hu2. simpl.
  split; [done|]. split; [|split; [|done]].
  - split; simpl.
    + apply NoDup_app_mid. set_solver.
    + rewrite P1, hd_or_app. simpl. destruct (decide (l1 = [])) as [->|E]; [done|]. rewrite Hh, hd_or_app. by destruct l1.
    + rewrite P2, Ht, !last_or_app. done.
    + rewrite P3, Hsz, !length_app. autorewrite with wraps. f_equal. simpl. lia.
    + apply dseg_app. split; [|split].
      * eapply dseg_frame; [exact F4|set_solver|]. eapply dseg_frame; [exact F3|set_solver|exact S2].
      * eexists. rewrite lookup_insert_eq. split; [done|]. simpl. auto with lru.
      * eapply (dseg_frame (y :: l2)); [exact F4|set_solver|exact S3].
  - eapply (frame_compose (l1 ++ x :: y :: l2) [x]); [|exact F4|set_solver..].
    eapply (frame_compose (l1 ++ x :: y :: l2)); [eapply frame_compose; [exact F1|exact F2|set_solver..]|exact F3|set_solver..].
Qed.

Lemma last_or_Some_ne d xs : d <> None -> last_or d xs <> None.
Proof. revert d; induction xs as [|x xs IH]; intros d Hd; simpl; [done|]. by apply IH. Qed.

Lemma last_or_None xs : last_or None xs = None -> xs = [].
Proof. destruct xs as [|x xs]; [done|]. simpl. intros E. by apply last_or_Some_ne in E. Qed.

Lemma move_to_head_dll h l l1 x l2 :
  dll (h, l) (l1 ++ x :: l2) ->
  exists h' l', move_to_head x (h, l) = Some (h', l') /\ dll (h', l') (x :: l1 ++ l2) /\
    frame (l1 ++ x :: l2) h h' /\ base l' = base l /\ size_ l' = size_ l.
Proof.
  intros Hd. destruct (dll_mid_node _ _ _ _ _ Hd) as (hk & Hx & Hpr & Hnx & Hl).
  destruct (bypass_spec _ _ _ _ _ Hd) as (s1 & h2 & l2' & E1 & E2 & S2 & F2 & Hh & Ht & Hz & Hb).
  unfold move_to_head. rewrite Hx. simpl. unfold is_end_prev. rewrite Hpr.
  case_bool_decide as E; simpl.
  { apply last_or_None in E as ->. exists h, l. auto using frame_refl. }
  destruct Hd as [(Hx1 & Hx2 & Hnd)%NoDup_app_mid Hh0 _ Hsz _]. simpl in Hsz.
  rewrite Hnx, E1. simpl. rewrite E2. simpl.
  set (f := fun k => set_next (head_ptr l2') (set_prev None k)).
  assert (h2 !! x = Some hk) as Hx' by (rewrite (frame_lookup _ _ _ _ F2); [done|set_solver]).
  pose proof (upd_total x f h2 hk Hx') as Hu. rewrite Hu. simpl.
  assert (frame [x] h2 (<[x := f hk]> h2)) as F3 by (eapply upd_frame; [done|set_solver|done]).
  assert (dseg (<[x := f hk]> h2) None (l1 ++ l2) None) as S3 by (eapply dseg_frame; [exact F3| |done]; set_solver).
  destruct (patch_prev_spec _ l2' (l1 ++ l2) _ (Some x) S3 Hnd) as (h4 & l4 & E4 & S4 & F4 & P1 & P2 & P3 & P4).
  rewrite Hh, E4. eexists _, _. split; [done|]. split; [|split; [|simpl; split; congruence]].
  - split; simpl.
    + apply NoDup_cons. set_solver.
    + done.
    + rewrite P1, decide_False by (destruct l1; [done|by intros ?]). rewrite Ht. symmetry. apply last_or_cons_ne.
      by destruct l1.
    + rewrite P3, Hz, Hsz, !length_app. f_equal. simpl. lia.
    + split; [|done]. exists (f hk). rewrite (frame_lookup _ _ _ _ F4), lookup_insert_eq by set_solver.
      rewrite <- Hh. done.
  - eapply (frame_compose (l1 ++ x :: l2)); [eapply frame_compose; [exact F2|exact F3|set_solver..]|exact F4|set_solver..].
Qed.

Lemma replace_dll h l l1 y l2 x hk :
  dll (h, l) (l1 ++ y :: l2) -> h !! x = Some hk -> is_linked hk = false ->
  exists h' l', replace y x (h, l) = Some (h', l') /\ dll (h', l') (l1 ++ x :: l2) /\
    frame (l1 ++ y :: x :: l2) h h' /\ base l' = base l /\
    exists yk, h' !! y = Some yk /\ is_linked yk = false /\ prev yk = None /\ next yk = None.
Proof.
  intros Hd Hx Hl. destruct (dll_mid_node _ _ _ _ _ Hd) as (yk & Hy & Hypr & Hynx & Hyl).
  destruct Hd as [(Hy1 & Hy2 & Hnd)%NoDup_app_mid Hh Ht Hsz Hs]. simpl in *.
  assert (x ∉ l1 ++ y :: l2) as Hxs by (eapply dseg_unlinked_notin; eauto).
  apply dseg_app in Hs as [Hs1 [_ Hs2]].
  set (f := fun k => set_next (hd_or None l2) (set_prev (last_or None l1) k)).
  set (g := fun k => clear_linked (set_next None (set_prev None k))).
  assert (frame [x] h (<[x := f hk]> h)) as F1
    by (eapply upd_frame; [by apply upd_total|set_solver|done]).
  destruct (splice_spec (<[x := f hk]> h) l l1 l2 (Some y) (Some y) (Some x) (Some x))
    as (s1 & h3 & l3 & E2 & E3 & S2 & S3 & F3 & P1 & P2 & P3 & P4);
    [by eapply dseg_frame; [exact F1|set_solver|]..|done|].
  assert (h3 !! y = Some yk) as Hy3
    by (rewrite (frame_lookup _ _ _ _ F3), lookup_insert_ne by set_solver; done).
  set (h4 := <[y := g yk]> h3). assert (frame [y] h3 h4) as F4
    by (eapply upd_frame; [by apply upd_total|set_solver|intros k; unfold g; by rewrite meta_clear_linked]).
  assert (h4 !! x = Some (f hk)) as Hx4 by (unfold h4; rewrite lookup_insert_ne,
    (frame_lookup _ _ _ _ F3), lookup_insert_eq by set_solver; done).
  assert (frame [x] h4 (<[x := set_linked (f hk)]> h4)) as F5
    by (eapply upd_frame; [by apply upd_total|set_solver|apply meta_set_linked]).
  unfold replace. rewrite bool_decide_false by set_solver. simpl. rewrite Hy. simpl. rewrite Hx. simpl.
  rewrite Hyl, Hl. simpl. rewrite Hypr, Hynx. fold f. rewrite (upd_total x f h hk Hx). simpl.
  rewrite E2. simpl. rewrite E3. simpl. fold g. rewrite (upd_total y g h3 yk Hy3). simpl. fold h4.
  rewrite (upd_total x set_linked h4 _ Hx4). simpl. eexists _, _. split; [done|].
  split; [split|split; [|split; [congruence|]]]; simpl.
  - apply NoDup_app_mid. set_solver.
  - rewrite P1, hd_or_app. simpl. destruct (decide (l1 = [])) as [->|E]; [done|]. rewrite Hh, hd_or_app. by destruct l1.
  - rewrite P2, last_or_app. simpl. destruct (decide (l2 = [])) as [->|E]; [done|].
    rewrite Ht, last_or_app. simpl. by rewrite !(last_or_cons_ne (Some _)).
  - rewrite P3, Hsz, !length_app. done.
  - apply dseg_app. split; [|split];
      [by eapply dseg_frame; [exact F5|set_solver|eapply dseg_frame; [exact F4|set_solver|]]| |
       by eapply dseg_frame; [exact F5|set_solver|eapply dseg_frame; [exact F4|set_solver|]]].
    eexists. rewrite lookup_insert_eq. split; [done|]. simpl. auto with lru.
  - set (zs := l1 ++ y :: x :: l2).
    eapply (frame_compose zs zs); [|eapply (frame_compose [y] [x] zs); [exact F4|exact F5|set_solver..]|set_solver..].
    eapply (frame_compose [x] (l1 ++ l2)); [exact F1|exact F3|set_solver..].
  - exists (g yk). unfold h4. rewrite lookup_insert_ne, lookup_insert_eq by set_solver. unfold g. auto with lru.
Qed.

(** ** Traversals *)

Lemma dseg_length h pp xs qn : dseg h pp xs qn -> NoDup xs -> (length xs <= size h)%nat.
Proof.
  intros Hs Hnd. rewrite <- size_dom, <- (size_list_to_set (C := gset loc) xs) by done.
  apply subseteq_size. intros x Hx%elem_of_list_to_set.
  destruct (dseg_node _ _ _ _ _ Hs Hx) as (? & ? & hk & Hk & _). by apply elem_of_dom_2 in Hk.
Qed.

Lemma iterate_next_dseg fuel h pp xs :
  dseg h pp xs None -> (length xs <= fuel)%nat -> iterate iter_next fuel h (hd_or None xs) = Some xs.
Proof.
  revert fuel pp; induction xs as [|x xs IH]; intros [|fuel] pp; simpl; [done|done|lia|].
  intros [(hk & Hx & _ & Hn & _) Hs] Hl. unfold get_next. rewrite Hx. simpl. rewrite Hn.
  rewrite (IH fuel (Some x)); [done..|lia].
Qed.

Lemma iterate_prev_dseg fuel h xs qn :
  dseg h None xs qn -> (length xs <= fuel)%nat -> iterate iter_prev fuel h (last_or None xs) = Some (rev xs).
Proof.
  revert fuel qn; induction xs as [|x xs IH] using rev_ind; intros [|fuel] qn; [done|done|..];
    rewrite length_app; simpl; [lia|].
  intros [Hs [(hk & Hx & Hp & _) _]]%dseg_app Hl. rewrite last_or_app, rev_app_distr. simpl.
  unfold get_prev. rewrite Hx. simpl. rewrite Hp, (IH fuel _ Hs); [done|lia].
Qed.

Lemma forward_items_dll s xs : dll s xs -> forward_items s.1 s.2 = Some xs.
Proof.
  intros [Hnd Hh _ _ Hs]. unfold forward_items. rewrite Hh.
  eapply iterate_next_dseg; [done|]. pose proof (dseg_length _ _ _ _ Hs Hnd). lia.
Qed.

Lemma reverse_items_dll s xs : dll s xs -> reverse_items s.1 s.2 = Some (rev xs).
Proof.
  intros [Hnd _ Ht _ Hs]. unfold reverse_items. rewrite Ht.
  eapply iterate_prev_dseg; [done|]. pose proof (dseg_length _ _ _ _ Hs Hnd). lia.
Qed.

Definition unlinked (h : store) (x : loc) : Prop := exists hk, h !! x = Some hk /\ is_linked hk = false.

Lemma clear_loop_dseg fuel h pp xs :
  dseg h pp xs None -> NoDup xs -> (length xs <= fuel)%nat ->
  exists h', clear_loop fuel (hd_or None xs) h = Some h' /\ frame xs h h' /\ Forall (unlinked h') xs.
Proof.
  revert fuel pp h; induction xs as [|x xs IH]; intros fuel pp h; simpl.
  { intros _ _ _. exists h. destruct fuel; auto using frame_refl. }
  intros [(hk & Hx & _ & Hn & _) Hs] [Hnx Hnd]%NoDup_cons Hl. destruct fuel as [|fuel]; [lia|]. simpl.
  set (f := fun k => clear_linked (set_next None (set_prev None k))).
  pose proof (upd_total x f h hk Hx) as Hu. rewrite Hx. simpl. rewrite Hu, Hn. simpl.
  assert (frame [x] h (<[x := f hk]> h)) as F1
    by (eapply upd_frame; [done|set_solver|intros k; unfold f; by rewrite meta_clear_linked]).
  destruct (IH fuel (Some x) (<[x := f hk]> h)) as (h' & E & F2 & Hall);
    [by eapply dseg_frame; [exact F1|set_solver|]|done|lia|].
  exists h'. split; [done|]. split; [eapply frame_compose; [exact F1|exact F2|set_solver..]|].
  constructor; [|done]. exists (f hk). rewrite (frame_lookup _ _ _ _ F2), lookup_insert_eq by done.
  unfold f. auto with lru.
Qed.

Lemma clear_dll s xs :
  dll s xs -> exists h', clear s = Some (h', new_list (base s.2)) /\ dll (h', new_list (base s.2)) [] /\
    frame xs s.1 h' /\ Forall (unlinked h') xs.
Proof.
  destruct s as [h l]. intros [Hnd Hh _ _ Hs]. simpl in *.
  destruct (clear_loop_dseg (S (size h)) h None xs Hs Hnd) as (h' & E & F & Hall).
  { pose proof (dseg_length _ _ _ _ Hs Hnd). lia. }
  exists h'. unfold clear. cbn [fst snd]. rewrite Hh, E. simpl. split; [done|]. split; [|done].
  split; simpl; try done. constructor.
Qed.

Lemma pop_at_dll e h l l1 x l2 :
  dll (h, l) (l1 ++ x :: l2) -> e l = Some x -> Z.of_nat (length (l1 ++ x :: l2)) < 2 ^ 64 ->
  exists h' l', pop_at e (h, l) = Some (Some x, (h', l')) /\ dll (h', l') (l1 ++ l2) /\
    frame (l1 ++ x :: l2) h h' /\ base l' = base l /\ unlinked h' x.
Proof.
  intros Hd He Hlen. destruct (remove_dll _ _ _ _ _ Hd) as (h' & l' & E & Hd' & F & Hb & hk & Hx & Hl & _).
  exists h', l'. split; [|split; [|split; [|split]]]; try done; [|by exists hk].
  pose proof (dll_size _ _ Hd) as Hz. simpl in Hz.
  unfold pop_at. simpl. unfold empty. rewrite Hz, wrap_small by lia.
  rewrite (proj2 (Z.eqb_neq _ _)) by (rewrite length_app; simpl; lia). rewrite He. simpl.
  unfold remove in E. apply bind_Some in E as (s1 & -> & E). simpl. apply bind_Some in E as (h1 & -> & [= <- <-]).
  done.
Qed.

Lemma pop_at_empty e s : dll s [] -> pop_at e s = Some (None, s).
Proof. intros Hd. unfold pop_at, empty. pose proof (dll_size _ _ Hd) as Hz. by rewrite Hz. Qed.
