(* ===== verification/ListRefine.v ===== *)
(** The interface of the intrusive list, its specification as a sequence of
    distinct items, and the refinement theorem: every run of list operations
    inside their contracts behaves as the sequence. *)

From S2P Require Import Prelude IntrusiveList.

(** * The list interface and its refinement *)

Inductive list_op :=
  | LinkAtHead (x : loc)
  | LinkAtTail (x : loc)
  | InsertBefore (y x : loc)
  | Remove (x : loc)
  | MoveToHead (x : loc)
  | Replace (y x : loc)
  | PopTail
  | PopHead
  | Clear.

Definition op_items (o : list_op) : list loc :=
  match o with
  | LinkAtHead x | LinkAtTail x | Remove x | MoveToHead x => [x]
  | InsertBefore y x | Replace y x => [y; x]
  | PopTail | PopHead | Clear => []
  end.

Definition run_op (o : list_op) (s : store * intrusive_list)
    : option (ptr * (store * intrusive_list)) :=
  let void r := s ← r; Some (None, s) in
  match o with
  | LinkAtHead x => void (link_at_head x s)
  | LinkAtTail x => void (link_at_tail x s)
  | InsertBefore y x => void (insert_before y x s)
  | Remove x => void (remove x s)
  | MoveToHead x => void (move_to_head x s)
  | Replace y x => void (replace y x s)
  | PopTail => pop_tail s
  | PopHead => pop_head s
  | Clear => void (clear s)
  end.

(** The specification: a sequence of distinct items, most recent first.
    [None] is an operation called outside its contract. *)
Definition without (x : loc) (xs : list loc) : list loc := filter (fun z => z <> x) xs.

Fixpoint put_before (y x : loc) (xs : list loc) : list loc :=
  match xs with
  | [] => []
  | z :: zs => if decide (z = y) then x :: z :: zs else z :: put_before y x zs
  end.

Definition spec_op (o : list_op) (xs : list loc) : option (ptr * list loc) :=
  let require (b : bool) r := if b then Some (None, r) else None in
  let isin x := bool_decide (x ∈ xs) in
  match o with
  | LinkAtHead x => require (negb (isin x)) (x :: xs)
  | LinkAtTail x => require (negb (isin x)) (xs ++ [x])
  | InsertBefore y x => require (isin y && negb (isin x))%bool (put_before y x xs)
  | Remove x => require (isin x) (without x xs)
  | MoveToHead x => require (isin x) (x :: without x xs)
  | Replace y x => require (isin y && negb (isin x))%bool ((fun z => if decide (z = y) then x else z) <$> xs)
  | PopTail => Some (last xs, reverse (tail (reverse xs)))
  | PopHead => Some (head xs, tail xs)
  | Clear => Some (None, [])
  end.

(** The list owns exactly the linked items of the store, and the item count
    fits the counter. *)
Record wf (s : store * intrusive_list) (xs : list loc) : Prop := {
  wf_dll : dll s xs;
  wf_rest : forall x hk, s.1 !! x = Some hk -> x ∉ xs -> is_linked hk = false;
  wf_fits : Z.of_nat (size s.1) < 2 ^ 64
}.

Lemma frame_size xs h h' : frame xs h h' -> size h' = size h.
Proof. intros [_ M]. by rewrite <- (map_size_fmap meta h'), M, map_size_fmap. Qed.

Lemma frame_is_Some xs h h' x : frame xs h h' -> is_Some (h !! x) -> is_Some (h' !! x).
Proof.
  intros [_ M] Hx. apply (f_equal (lookup x)) in M. rewrite !lookup_fmap in M.
  destruct Hx as [hk Hk]. rewrite Hk in M. by destruct (h' !! x).
Qed.

Lemma wf_step s s' xs xs' touched :
  wf s xs -> dll s' xs' -> frame touched s.1 s'.1 ->
  (forall x, x ∈ touched -> x ∉ xs' -> unlinked s'.1 x) -> (forall x, x ∈ xs -> x ∈ touched) ->
  wf s' xs'.
Proof.
  intros [_ Hr Hf] Hd F Ht Hx. split; [done| |by rewrite (frame_size _ _ _ F)].
  intros x hk Hk Hn. destruct (decide (x ∈ touched)) as [Hin|Hin].
  - destruct (Ht x Hin Hn) as (? & ? & ?). congruence.
  - rewrite (frame_lookup _ _ _ _ F Hin) in Hk. eapply Hr; [done|]. naive_solver.
Qed.

Lemma split_at (xs : list loc) x :
  NoDup xs -> x ∈ xs -> exists l1 l2, xs = l1 ++ x :: l2 /\ x ∉ l1 /\ x ∉ l2.
Proof.
  intros Hnd (l1 & l2 & ->)%list_elem_of_split. exists l1, l2.
  apply NoDup_app_mid in Hnd. naive_solver.
Qed.

Lemma without_split x l1 l2 : x ∉ l1 -> x ∉ l2 -> without x (l1 ++ x :: l2) = l1 ++ l2.
Proof.
  assert (forall l, x ∉ l -> without x l = l) as E.
  { intros l. induction l as [|y l IH]; intros Hx; [done|]. unfold without.
    rewrite filter_cons_True by set_solver. f_equal. apply IH. set_solver. }
  intros H1 H2. unfold without. rewrite filter_app, filter_cons_False by naive_solver.
  f_equal; by apply E.
Qed.

Lemma put_before_split y x l1 l2 : y ∉ l1 -> put_before y x (l1 ++ y :: l2) = l1 ++ x :: y :: l2.
Proof.
  induction l1 as [|z l1 IH]; intros Hy; simpl; [by rewrite decide_True|].
  rewrite decide_False by set_solver. f_equal. apply IH. set_solver.
Qed.

Lemma subst_split (y x : loc) l1 l2 :
  y ∉ l1 -> y ∉ l2 -> (fun z => if decide (z = y) then x else z) <$> l1 ++ y :: l2 = l1 ++ x :: l2.
Proof.
  set (f := fun z => if decide (z = y) then x else z).
  assert (forall l : list loc, y ∉ l -> f <$> l = l) as E.
  { intros l. induction l as [|z l IH]; intros Hy; simpl; [done|].
    unfold f at 1. rewrite decide_False by set_solver. f_equal. apply IH. set_solver. }
  intros H1 H2. rewrite fmap_app, fmap_cons. f_equal; [by apply E|]. f_equal; [|by apply E].
  unfold f. by rewrite decide_True.
Qed.

Lemma wf_length s xs : wf s xs -> Z.of_nat (length xs) < 2 ^ 64.
Proof. intros [Hd _ Hf]. pose proof (dseg_length _ _ _ _ (dll_seg _ _ Hd) (dll_nodup _ _ Hd)). lia. Qed.

(** What one operation guarantees: the specified sequence, nothing outside the
    list and the named items touched, and every item that left is unlinked. *)
Definition op_post (o : list_op) (xs xs' : list loc) (h : store) (s' : store * intrusive_list) : Prop :=
  dll s' xs' /\ frame (xs ++ op_items o) h s'.1 /\
  (forall z, z ∈ xs ++ op_items o -> z ∉ xs' -> unlinked s'.1 z).

Lemma op_post_intro o xs xs' h h' l' touched :
  dll (h', l') xs' -> frame touched h h' -> touched ⊆ xs ++ op_items o ->
  (forall z, z ∈ xs ++ op_items o -> z ∉ xs' -> unlinked h' z) -> op_post o xs xs' h (h', l').
Proof. intros Hd F Ht Hu. split; [done|]. split; [|done]. eapply frame_weaken; [|exact F]. auto. Qed.

(** Popping either end, given which end [e] reads. *)
Lemma pop_at_post o e h l l1 x l2 :
  dll (h, l) (l1 ++ x :: l2) -> e l = Some x -> Z.of_nat (length (l1 ++ x :: l2)) < 2 ^ 64 -> op_items o = [] ->
  exists s', pop_at e (h, l) = Some (Some x, s') /\ op_post o (l1 ++ x :: l2) (l1 ++ l2) h s'.
Proof.
  intros Hd He Hl Ho. destruct (pop_at_dll e h l l1 x l2 Hd He Hl) as (h' & l' & E & Hd' & F & _ & Hx).
  exists (h', l'). split; [done|]. eapply op_post_intro; [done|exact F|set_solver|]. rewrite Ho, app_nil_r.
  intros z Hz Hz'. assert (z = x) as -> by set_solver. done.
Qed.

Lemma pop_post (o : list_op) h l xs out xs' :
  o = PopTail \/ o = PopHead -> dll (h, l) xs -> Z.of_nat (length xs) < 2 ^ 64 ->
  spec_op o xs = Some (out, xs') ->
  exists s', run_op o (h, l) = Some (out, s') /\ op_post o xs xs' h s'.
Proof.
  intros Ho Hd Hl Hspec. destruct (decide (xs = [])) as [->|Hne].
  { exists (h, l). destruct Ho as [-> | ->]; simplify_eq/=;
      unfold pop_tail, pop_head; rewrite pop_at_empty by done;
      (split; [done|]); (eapply op_post_intro; [done|apply frame_refl|reflexivity|set_solver]). }
  destruct Ho as [-> | ->]; simplify_eq/=.
  - destruct (exists_last Hne) as (l1 & x & ->). rewrite last_snoc, reverse_snoc. simpl. rewrite reverse_involutive.
    pose proof (pop_at_post PopTail tail_ptr h l l1 x []) as P. rewrite app_nil_r in P. apply P; [done| |done|done].
    pose proof (dll_tail _ _ Hd) as Ht. simpl in Ht. by rewrite Ht, last_or_app.
  - destruct xs as [|x xs]; [done|]. apply (pop_at_post PopHead _ _ _ []); [done| |done|done].
    apply (dll_head _ _ Hd).
Qed.

(** One operation: inside its contract it succeeds, returns what the
    specification returns and meets its postcondition. *)
Lemma run_op_post o h l xs out xs' :
  dll (h, l) xs -> Z.of_nat (length xs) < 2 ^ 64 ->
  (forall x, x ∈ op_items o -> x ∉ xs -> unlinked h x) -> spec_op o xs = Some (out, xs') ->
  exists s', run_op o (h, l) = Some (out, s') /\ op_post o xs xs' h s'.
Proof.
  intros Hd Hlen Hfree Hspec.
  destruct o; simpl in Hspec, Hfree; repeat case_bool_decide; simplify_eq/=;
    try match goal with H : ?y ∈ xs |- _ =>
      destruct (split_at xs y (dll_nodup _ _ Hd) H) as (l1 & l2 & -> & Hn1 & Hn2) end;
    try (destruct (Hfree x) as (hk & Hk & Hl); [set_solver|done|]).
  - destruct (link_at_head_dll h l xs x hk Hd Hk Hl) as (h' & l' & E & Hd' & F & _).
    exists (h', l'). rewrite E. split; [done|]. eapply op_post_intro; [done|exact F|set_solver..].
  - destruct (link_at_tail_dll h l xs x hk Hd Hk Hl) as (h' & l' & E & Hd' & F & _).
    exists (h', l'). rewrite E. split; [done|]. eapply op_post_intro; [done|exact F|set_solver..].
  - rewrite put_before_split in * by done.
    destruct (insert_before_dll h l l1 y l2 x hk Hd Hk Hl) as (h' & l' & E & Hd' & F & _).
    exists (h', l'). rewrite E. split; [done|]. eapply op_post_intro; [done|exact F|set_solver..].
  - rewrite without_split in * by done.
    destruct (remove_dll h l l1 x l2 Hd) as (h' & l' & E & Hd' & F & _ & hk & Hk & Hl & _).
    exists (h', l'). rewrite E. split; [done|]. eapply op_post_intro; [done|exact F|set_solver|].
    simpl. intros z Hz Hz'. assert (z = x) as -> by set_solver. by exists hk.
  - rewrite without_split in * by done.
    destruct (move_to_head_dll h l l1 x l2 Hd) as (h' & l' & E & Hd' & F & _).
    exists (h', l'). rewrite E. split; [done|]. eapply op_post_intro; [done|exact F|set_solver..].
  - rewrite subst_split in * by done.
    destruct (replace_dll h l l1 y l2 x hk Hd Hk Hl) as (h' & l' & E & Hd' & F & _ & yk & Hy & Hyl & _).
    exists (h', l'). rewrite E. split; [done|]. eapply op_post_intro; [done|exact F|set_solver|].
    simpl. intros z Hz Hz'. assert (z = y) as -> by set_solver. by exists yk.
  - eapply (pop_post PopTail); eauto.
  - eapply (pop_post PopHead); eauto.
  - destruct (clear_dll _ _ Hd) as (h' & E & Hd' & F & Hall). simpl in *.
    exists (h', new_list (base l)). rewrite E. split; [done|]. eapply op_post_intro; [done|exact F|set_solver|].
    rewrite Forall_forall in Hall. rewrite app_nil_r. auto.
Qed.

Lemma run_op_refines o s xs out xs' :
  wf s xs -> (forall x, x ∈ op_items o -> is_Some (s.1 !! x)) -> spec_op o xs = Some (out, xs') ->
  exists s', run_op o s = Some (out, s') /\ wf s' xs' /\ meta <$> s'.1 = meta <$> s.1 /\
    (forall x, is_Some (s.1 !! x) -> is_Some (s'.1 !! x)).
Proof.
  destruct s as [h l]. intros Hwf Hlive Hspec.
  destruct (run_op_post o h l xs out xs') as (s' & E & Hd' & F & Hu); [apply Hwf|by eapply wf_length| |done|].
  { intros x Hx Hn. destruct (Hlive x Hx) as [hk Hk]. exists hk. split; [done|]. by eapply Hwf. }
  exists s'. split; [done|]. split; [eapply wf_step; [done|done|exact F|done|set_solver]|].
  split; [apply F|]. intros x. by eapply frame_is_Some.
Qed.

(** * Runs *)

Fixpoint run_ops (os : list list_op) (s : store * intrusive_list)
    : option (list ptr * (store * intrusive_list)) :=
  match os with
  | [] => Some ([], s)
  | o :: os => '(r, s1) ← run_op o s; '(rs, s2) ← run_ops os s1; Some (r :: rs, s2)
  end.

Fixpoint spec_ops (os : list list_op) (xs : list loc) : option (list ptr * list loc) :=
  match os with
  | [] => Some ([], xs)
  | o :: os => '(r, xs1) ← spec_op o xs; '(rs, xs2) ← spec_ops os xs1; Some (r :: rs, xs2)
  end.

Lemma run_ops_sim os s xs outs xs' :
  wf s xs -> (forall x, x ∈ concat (op_items <$> os) -> is_Some (s.1 !! x)) ->
  spec_ops os xs = Some (outs, xs') ->
  exists s', run_ops os s = Some (outs, s') /\ wf s' xs' /\ meta <$> s'.1 = meta <$> s.1.
Proof.
  revert s xs outs; induction os as [|o os IH]; intros s xs outs Hwf Hlive Hspec; simplify_eq/=; [by exists s|].
  apply bind_Some in Hspec as ([r xs1] & E1 & Hspec). apply bind_Some in Hspec as ([rs xs2] & E2 & [= <- <-]).
  destruct (run_op_refines o s xs r xs1 Hwf) as (s1 & R1 & W1 & M1 & L1); [set_solver|done|].
  destruct (IH s1 xs1 rs W1) as (s2 & R2 & W2 & M2); [set_solver|done|].
  exists s2. rewrite R1. simpl. rewrite R2. simpl. split; [done|]. split; [done|]. congruence.
Qed.

(** A store of fresh items with an empty list. *)
Definition fresh_store (items : list loc) : store := list_to_map ((fun x => (x, fresh_hook)) <$> items).

Lemma wf_new items : NoDup items -> Z.of_nat (length items) < 2 ^ 64 -> wf (fresh_store items, new_list None) [].
Proof.
  intros Hnd Hlen. split.
  - split; simpl; try done. constructor.
  - intros x hk Hk%elem_of_list_to_map_2 _. simpl in Hk.
    apply list_elem_of_fmap in Hk as (y & [= _ ->] & _). done.
  - simpl. unfold fresh_store. rewrite map_size_list_to_map, length_fmap; [done|].
    rewrite <- list_fmap_compose. by rewrite list_fmap_id.
Qed.

(** C33: every run of list operations inside their contracts, from a list that
    owns exactly the linked items of the store, succeeds; it returns the
    results of the sequence specification, the forward and the reverse
    iterators then enumerate exactly the specified sequence, the size counter
    is its length, and no item's update time or user flags have changed. *)
Theorem list_ops_refine os s xs outs xs' :
  wf s xs -> (forall x, x ∈ concat (op_items <$> os) -> is_Some (s.1 !! x)) ->
  spec_ops os xs = Some (outs, xs') ->
  exists s', run_ops os s = Some (outs, s') /\ wf s' xs' /\
    forward_items s'.1 s'.2 = Some xs' /\ reverse_items s'.1 s'.2 = Some (rev xs') /\
    size_ s'.2 = Z.of_nat (length xs') /\ meta <$> s'.1 = meta <$> s.1.
Proof.
  intros Hwf Hlive Hspec. destruct (run_ops_sim os s xs outs xs' Hwf Hlive Hspec) as (s' & E & W & M).
  exists s'. pose proof (wf_dll _ _ W) as Hd. pose proof (wf_length _ _ W).
  split; [done|]. split; [done|]. split; [by apply forward_items_dll|].
  split; [by apply reverse_items_dll|]. split; [|done]. rewrite (dll_size _ _ Hd), wrap_small; [done|lia].
Qed.

Lemma list_ops_refine_witness :
  exists s', run_ops [LinkAtHead 1; LinkAtHead 2; LinkAtTail 3; MoveToHead 3; PopTail; Replace 2 4]
    (fresh_store [1; 2; 3; 4]%positive, new_list None) = Some ([None; None; None; None; Some 1%positive; None], s') /\
    forward_items s'.1 s'.2 = Some [3; 4]%positive.
Proof.
  destruct (list_ops_refine [LinkAtHead 1; LinkAtHead 2; LinkAtTail 3; MoveToHead 3; PopTail; Replace 2 4]
    (fresh_store [1; 2; 3; 4]%positive, new_list None) [] [None; None; None; None; Some 1%positive; None] [3; 4]%positive)
    as (s' & E & _ & Hf & _).
  - apply wf_new; [|simpl; lia]. apply (bool_decide_unpack _). by vm_compute.
  - intros x Hx. simpl in Hx. set_unfold in Hx. destruct_or! Hx; subst; vm_compute; eauto.
  - vm_compute. reflexivity.
  - exists s'. split; [exact E|exact Hf].
Defined.

(** The debug assertions catch every call outside its contract, except
    that [move_to_head] asserts nothing: linking an item that is already
    linked, inserting before, removing or replacing an item that is not. *)
Theorem asserts_catch_misuse o s xs :
  wf s xs -> (forall x, o <> MoveToHead x) -> spec_op o xs = None -> run_op o s = None.
Proof.
  destruct s as [h l]. intros [Hd Hr _] Hm Hspec. simpl in Hr.
  assert (forall x hk, x ∈ xs -> h !! x = Some hk -> is_linked hk = true) as Hin.
  { intros x hk Hx Hk. destruct (dseg_node _ _ _ _ _ (dll_seg _ _ Hd) Hx) as (? & ? & hk' & Hk' & _ & _ & ?).
    simpl in Hk'. congruence. }
  assert (forall x hk, h !! x = Some hk -> is_linked hk = bool_decide (x ∈ xs)) as Hb.
  { intros x hk Hk. case_bool_decide; eauto. }
  destruct o as [x|x|y x|x|x|y x| | |]; simpl in Hspec; [..|done|done|done]; [| | | |by edestruct Hm|];
    unfold run_op, link_at_head, link_at_tail, insert_before, remove, unlink, replace; simpl;
    repeat case_bool_decide; simplify_eq/=; try done;
    repeat (match goal with |- context [h !! ?z] => destruct (h !! z) eqn:?; [|done] end; simpl);
    repeat match goal with E : h !! _ = Some ?k |- context [is_linked ?k] => rewrite (Hb _ _ E) end;
    repeat (case_bool_decide; simpl); done.
Qed.

Lemma asserts_catch_misuse_witness :
  run_op (LinkAtHead 1) (fresh_store [1; 2]%positive, new_list None) <> None /\
  forall s', run_op (LinkAtHead 1) (fresh_store [1; 2]%positive, new_list None) = Some (None, s') ->
    run_op (LinkAtTail 1) s' = None.
Proof.
  split; [by vm_compute|]. intros s' E.
  destruct (run_ops_sim [LinkAtHead 1] (fresh_store [1; 2]%positive, new_list None) [] [None] [1%positive])
    as (s1 & E1 & W & _).
  - apply wf_new; [|simpl; lia]. apply (bool_decide_unpack _). by vm_compute.
  - intros x Hx. simpl in Hx. set_unfold in Hx. destruct_or! Hx; subst; vm_compute; eauto.
  - reflexivity.
  - unfold run_ops in E1. rewrite E in E1. cbn in E1. simplify_eq.
    apply (asserts_catch_misuse (LinkAtTail 1) s1 [1%positive]); [exact W|discriminate|reflexivity].
Defined.

(** Lists that share one item store do not disturb each other (the
    multi-queue strategies keep several): an operation of one list, on items
    the other does not hold, leaves the other list exactly as it was. *)
Theorem lists_do_not_interfere o h l xs l2 ys out xs' :
  dll (h, l) xs -> dll (h, l2) ys -> Z.of_nat (length xs) < 2 ^ 64 ->
  (forall x, x ∈ op_items o -> x ∉ xs -> unlinked h x) ->
  (forall y, y ∈ ys -> y ∉ xs ++ op_items o) ->
  spec_op o xs = Some (out, xs') ->
  exists h' l', run_op o (h, l) = Some (out, (h', l')) /\ dll (h', l') xs' /\ dll (h', l2) ys.
Proof.
  intros Hd Hd2 Hlen Hfree Hdisj Hspec.
  destruct (run_op_post o h l xs out xs' Hd Hlen Hfree Hspec) as ([h' l'] & E & Hd' & F & _).
  exists h', l'. split; [done|]. split; [done|]. destruct Hd2. split; try done. simpl in *.
  eapply dseg_frame; [exact F|exact Hdisj|done].
Qed.

Lemma lists_do_not_interfere_witness :
  exists h l l2, dll (h, l) [1%positive] /\ dll (h, l2) [2%positive] /\
  exists h' l', run_op PopTail (h, l) = Some (Some 1%positive, (h', l')) /\ dll (h', l2) [2%positive].
Proof.
  set (h := list_to_map [(1%positive, Hook None None 0 4); (2%positive, Hook None None 0 4)] : store).
  set (mk := fun p : loc => DList (Some p) (Some p) None 1).
  assert (forall p, p = 1%positive \/ p = 2%positive -> dll (h, mk p) [p]) as Hmk.
  { intros p Hp. split; simpl; [apply NoDup_singleton|done|done|done|]. split; [|done].
    exists (Hook None None 0 4). destruct Hp as [-> | ->]; by vm_compute. }
  exists h, (mk 1%positive), (mk 2%positive). split; [auto|]. split; [auto|].
  destruct (lists_do_not_interfere PopTail h (mk 1%positive) [1%positive] (mk 2%positive) [2%positive]
    (Some 1%positive) []) as (h' & l' & E & _ & Hd); [auto|auto|simpl; lia| |set_solver|done|].
  - intros x Hx. by apply not_elem_of_nil in Hx.
  - eauto.
Defined.
