(* ===== verification/Refcount.v ===== *)
(** CAS-based reference counting with embedded admin bits and user flags of
    detail/refcount.hpp: the packed 64-bit word, every operation as the body of
    its compare-exchange loop, the concurrent machine that interleaves those
    loops, its refinement to an atomic item with a pin count, marks and flags, and
    the ownership protocol
    (handles, eviction, moving) the word implements. *)

From S2P Require Import Prelude.

(** * Bit positions and masks *)

Definition kAccessRefBits : Z := 32.
Definition kAccessRefMask : Z := Z.shiftl 1 kAccessRefBits - 1.
Definition kAccessRefMax : Z := kAccessRefMask.

Definition kLinkedBit : Z := 32.
Definition kAccessibleBit : Z := 33.
Definition kExclusiveBit : Z := 34.
Definition kAdminRefMask : Z :=
  Z.lor (Z.lor (Z.shiftl 1 kLinkedBit) (Z.shiftl 1 kAccessibleBit)) (Z.shiftl 1 kExclusiveBit).

Definition kFlagsShift : Z := 35.
Definition kFlagsMask : Z := Z.shiftl (Z.shiftl 1 5 - 1) kFlagsShift.

Inductive Flags := kMMFlag0 | kMMFlag1 | kMMFlag2 | kIsChainedItem | kHasChainedItem.

Definition flag_bit (f : Flags) : Z :=
  match f with
  | kMMFlag0 => 35 | kMMFlag1 => 36 | kMMFlag2 => 37
  | kIsChainedItem => 38 | kHasChainedItem => 39
  end.

(** * CAS backoff *)

Definition kCasBackoffThreshold : Z := 4.
Definition kCasBackoffMaxPause : Z := 64.

(** The number of pause instructions executed and the new spin counter. *)
Definition refcount_cas_backoff (spin_count : Z) : Z * Z :=
  if spin_count <? kCasBackoffThreshold then (0, u32 (spin_count + 1))
  else
    let shift := u32 (spin_count - kCasBackoffThreshold) in
    let shift := if 31 <? shift then 31 else shift in
    let pauses := u32 (Z.shiftl 1 shift) in
    let pauses := if kCasBackoffMaxPause <? pauses then kCasBackoffMaxPause else pauses in
    (pauses, u32 (spin_count + 1)).

(** * Results *)

Inductive MarkForEvictionResult := kSuccess | kUnlinked | kExclusive | kRefHeld.

Inductive IncResult :=
  | kIncOk | kIncFailedMoving | kIncFailedEviction | kIncFailedOverflow | kIncFailedUnlinked.

(** * One iteration of each compare-exchange loop

    An iteration looks at the value [old] it holds and either returns without
    writing, or attempts to replace [old] by [desired] and returns [r] when
    the exchange succeeds. *)

Inductive attempt (R : Type) :=
  | Return (r : R)
  | Cas (desired : Z) (r : R).
Arguments Return {R} _.
Arguments Cas {R} _ _.

Definition access_ref (v : Z) : Z := Z.land v kAccessRefMask.

#[global] Arguments access_ref : simpl never.

Definition incRef (old : Z) : attempt IncResult :=
  let exclusive := bit old kExclusiveBit in
  if exclusive then
    let access := access_ref old in
    Return (if access =? 0 then kIncFailedEviction else kIncFailedMoving)
  else if negb (bit old kLinkedBit) then Return kIncFailedUnlinked
  else
    let access := access_ref old in
    if kAccessRefMax <=? access then Return kIncFailedOverflow
    else Cas (u64 (old + 1)) kIncOk.

(** Returns the new word; on underflow the word is returned unchanged. *)
Definition decRef (old : Z) : attempt Z :=
  let access := access_ref old in
  if access =? 0 then Return old
  else let desired := u64 (old - 1) in Cas desired desired.

Definition markForEviction (old : Z) : attempt MarkForEvictionResult :=
  let linked := bit old kLinkedBit in
  let exclusive := bit old kExclusiveBit in
  let access := access_ref old in
  if negb linked then Return kUnlinked
  else if exclusive then Return kExclusive
  else if 0 <? access then Return kRefHeld
  else Cas (Z.lor old (Z.shiftl 1 kExclusiveBit)) kSuccess.

Definition markMoving (old : Z) : attempt bool :=
  let linked := bit old kLinkedBit in
  let exclusive := bit old kExclusiveBit in
  let access := access_ref old in
  if negb linked || exclusive || (0 <? access) then Return false
  else Cas (u64 (Z.lor old (Z.shiftl 1 kExclusiveBit) + 1)) true.

Definition unmarkForEviction (old : Z) : attempt Z :=
  let desired := clear_bits old (Z.shiftl 1 kExclusiveBit) in Cas desired desired.

Definition unmarkMoving (old : Z) : attempt Z :=
  let desired := u64 (clear_bits old (Z.shiftl 1 kExclusiveBit) - 1) in Cas desired desired.

Definition markInMMContainer (old : Z) : attempt unit :=
  Cas (Z.lor old (Z.shiftl 1 kLinkedBit)) tt.
Definition unmarkInMMContainer (old : Z) : attempt unit :=
  Cas (clear_bits old (Z.shiftl 1 kLinkedBit)) tt.
Definition markAccessible (old : Z) : attempt unit :=
  Cas (Z.lor old (Z.shiftl 1 kAccessibleBit)) tt.
Definition unmarkAccessible (old : Z) : attempt unit :=
  Cas (clear_bits old (Z.shiftl 1 kAccessibleBit)) tt.
Definition setFlag (f : Flags) (old : Z) : attempt unit :=
  Cas (Z.lor old (Z.shiftl 1 (flag_bit f))) tt.
Definition unSetFlag (f : Flags) (old : Z) : attempt unit :=
  Cas (clear_bits old (Z.shiftl 1 (flag_bit f))) tt.

(** * State queries *)

Definition isMarkedForEviction (v : Z) : bool := bit v kExclusiveBit && (access_ref v =? 0).
Definition isMoving (v : Z) : bool := bit v kExclusiveBit && (0 <? access_ref v).
Definition getAccessRef (v : Z) : Z :=
  let access := access_ref v in
  let exclusive := bit v kExclusiveBit in
  if exclusive && (0 <? access) then access - 1 else access.
Definition isDrained (v : Z) : bool := Z.land v (Z.lor kAccessRefMask kAdminRefMask) =? 0.
Definition isInMMContainer (v : Z) : bool := bit v kLinkedBit.
Definition isAccessible (v : Z) : bool := bit v kAccessibleBit.
Definition isFlagSet (f : Flags) (v : Z) : bool := bit v (flag_bit f).

(** * The operations of the object *)

Inductive rc_op :=
  | IncRef | DecRef | MarkForEviction | MarkMoving | UnmarkForEviction | UnmarkMoving
  | MarkLinked | UnmarkLinked | MarkAccessible | UnmarkAccessible
  | SetFlag (f : Flags) | UnSetFlag (f : Flags).

Inductive rc_res :=
  | RInc (r : IncResult) | RWord (v : Z) | RMark (r : MarkForEvictionResult) | RBool (b : bool) | RVoid.

Definition attempt_map {A B} (f : A -> B) (a : attempt A) : attempt B :=
  match a with Return r => Return (f r) | Cas d r => Cas d (f r) end.

Definition body (o : rc_op) (old : Z) : attempt rc_res :=
  match o with
  | IncRef => attempt_map RInc (incRef old)
  | DecRef => attempt_map RWord (decRef old)
  | MarkForEviction => attempt_map RMark (markForEviction old)
  | MarkMoving => attempt_map RBool (markMoving old)
  | UnmarkForEviction => attempt_map RWord (unmarkForEviction old)
  | UnmarkMoving => attempt_map RWord (unmarkMoving old)
  | MarkLinked => attempt_map (fun _ => RVoid) (markInMMContainer old)
  | UnmarkLinked => attempt_map (fun _ => RVoid) (unmarkInMMContainer old)
  | MarkAccessible => attempt_map (fun _ => RVoid) (markAccessible old)
  | UnmarkAccessible => attempt_map (fun _ => RVoid) (unmarkAccessible old)
  | SetFlag f => attempt_map (fun _ => RVoid) (setFlag f old)
  | UnSetFlag f => attempt_map (fun _ => RVoid) (unSetFlag f old)
  end.

(** The operation performed at one instant: its result and the new word. *)
Definition atomic (o : rc_op) (v : Z) : rc_res * Z :=
  match body o v with Return r => (r, v) | Cas d r => (r, d) end.

(** Process-wide and thread-local diagnostics of [incRef] and [decRef]: the
    thread's last result, the two overflow counters, the underflow counter. *)
Record diagnostics := Diag {
  tls_last_incRef_result : IncResult;
  global_incRef_overflow_count : Z;
  overflow_count : Z;
  underflow_count : Z
}.

Definition note_incRef (r : IncResult) (d : diagnostics) : diagnostics :=
  match r with
  | kIncFailedOverflow =>
      Diag r (u64 (global_incRef_overflow_count d + 1)) (u64 (overflow_count d + 1)) (underflow_count d)
  | _ => Diag r (global_incRef_overflow_count d) (overflow_count d) (underflow_count d)
  end.

Definition tls_last_incRef_was_overflow (d : diagnostics) : bool :=
  match tls_last_incRef_result d with kIncFailedOverflow => true | _ => false end.

Definition tls_clear_incRef_overflow_flag (d : diagnostics) : diagnostics :=
  Diag kIncOk (global_incRef_overflow_count d) (overflow_count d) (underflow_count d).

(** * The concurrent machine *)

(** A thread is outside the object, or in the loop of an operation holding the
    value its last load or failed exchange returned. *)
Inductive tstate := Idle | Looping (o : rc_op) (old : Z).

Record cstate := CState { word : Z; threads : nat -> tstate }.

Definition tset {A} (t : nat) (x : A) (f : nat -> A) : nat -> A :=
  fun u => if decide (u = t) then x else f u.

Inductive event := Call (t : nat) (o : rc_op) | Ret (t : nat) (o : rc_op) (r : rc_res).

(** [compare_exchange_weak] may fail although the values agree. *)
Inductive cstep : cstate -> option event -> cstate -> Prop :=
  | CLoad s t o :
      threads s t = Idle ->
      cstep s (Some (Call t o)) (CState (word s) (tset t (Looping o (word s)) (threads s)))
  | CReturn s t o old r :
      threads s t = Looping o old -> body o old = Return r ->
      cstep s (Some (Ret t o r)) (CState (word s) (tset t Idle (threads s)))
  | CCasOk s t o d r :
      threads s t = Looping o (word s) -> body o (word s) = Cas d r ->
      cstep s (Some (Ret t o r)) (CState d (tset t Idle (threads s)))
  | CCasFail s t o old d r :
      threads s t = Looping o old -> body o old = Cas d r ->
      cstep s None (CState (word s) (tset t (Looping o (word s)) (threads s))).

(** * The atomic object *)

Inductive astate_t := AIdle | ACalled (o : rc_op) | ADone (o : rc_op) (r : rc_res).

Record astate := AState { aword : Z; athreads : nat -> astate_t }.

(** An operation takes effect in one step between its call and its return. *)
Inductive astep : astate -> option event -> astate -> Prop :=
  | ACall s t o :
      athreads s t = AIdle ->
      astep s (Some (Call t o)) (AState (aword s) (tset t (ACalled o) (athreads s)))
  | ALin s t o :
      athreads s t = ACalled o ->
      astep s None (AState (atomic o (aword s)).2 (tset t (ADone o (atomic o (aword s)).1) (athreads s)))
  | ARet s t o r :
      athreads s t = ADone o r ->
      astep s (Some (Ret t o r)) (AState (aword s) (tset t AIdle (athreads s))).

(** The visible events of a run. *)
Inductive trace {S} (step : S -> option event -> S -> Prop) : S -> list event -> S -> Prop :=
  | TNil s : trace step s [] s
  | TTau s s1 s2 es : step s None s1 -> trace step s1 es s2 -> trace step s es s2
  | TEv s s1 s2 e es : step s (Some e) s1 -> trace step s1 es s2 -> trace step s (e :: es) s2.

(** * Refinement of the atomic object *)

Definition tmatch (c : tstate) (a : astate_t) : Prop :=
  match c with
  | Idle => a = AIdle
  | Looping o old => a = match body o old with Return r => ADone o r | Cas _ _ => ACalled o end
  end.

Definition cmatch (c : cstate) (a : astate) : Prop :=
  word c = aword a /\ forall t, tmatch (threads c t) (athreads a t).

Lemma tset_eq {A} t (x : A) f : tset t x f t = x.
Proof. unfold tset. by rewrite decide_True. Qed.

Lemma tset_ne {A} t u (x : A) f : u <> t -> tset t x f u = f u.
Proof. intros. unfold tset. by rewrite decide_False. Qed.

Lemma cmatch_set w c a t x y :
  (forall u, tmatch (threads c u) (athreads a u)) -> tmatch x y ->
  cmatch (CState w (tset t x (threads c))) (AState w (tset t y (athreads a))).
Proof.
  intros Hm Hxy. split; [done|]. intros u. simpl. unfold tset. case_decide; auto.
Qed.

Lemma trace_app {S} (step : S -> option event -> S -> Prop) s1 es1 s2 es2 s3 :
  trace step s1 es1 s2 -> trace step s2 es2 s3 -> trace step s1 (es1 ++ es2) s3.
Proof. induction 1; simpl; eauto using TTau, TEv. Qed.

Definition events (e : option event) : list event := match e with Some e => [e] | None => [] end.

(** Linearising [o] for thread [t] now, from any state where it is called. *)
Lemma alin_return s t o r :
  athreads s t = ACalled o -> body o (aword s) = Return r ->
  astep s None (AState (aword s) (tset t (ADone o r) (athreads s))).
Proof.
  intros Ht Hb. pose proof (ALin s t o Ht) as L. unfold atomic in L. by rewrite Hb in L.
Qed.

Lemma cstep_sim c e c' a :
  cstep c e c' -> cmatch c a -> exists a', trace astep a (events e) a' /\ cmatch c' a'.
Proof.
  intros Hs [Hw Hm]. destruct Hs as [s t o Ht|s t o old r Ht Hb|s t o d r Ht Hb|s t o old d r Ht Hb];
    pose proof (Hm t) as Hmt; rewrite Ht in Hmt; simpl in Hmt; try rewrite Hb in Hmt; simpl.
  - set (a1 := AState (aword a) (tset t (ACalled o) (athreads a))).
    assert (astep a (Some (Call t o)) a1) as S1 by (by apply ACall).
    destruct (body o (word s)) as [r|d r] eqn:Hb.
    + assert (athreads a1 t = ACalled o) as H1 by apply tset_eq. rewrite Hw in Hb.
      eexists. split; [eapply TEv, TTau, TNil; [exact S1|by apply alin_return]|].
      rewrite Hw. split; [done|]. intros u. simpl. unfold tset. case_decide; [simpl; by rewrite Hb|auto].
    + exists a1. split; [eapply TEv, TNil; exact S1|]. rewrite Hw. apply cmatch_set; [done|].
      simpl. by rewrite <- Hw, Hb.
  - eexists. split; [eapply TEv, TNil; by apply ARet|]. rewrite Hw. by apply cmatch_set.
  - pose proof (ALin a t o Hmt) as L. unfold atomic in L. rewrite <- Hw, Hb in L. simpl in L.
    eexists. split; [eapply TTau, TEv, TNil; [exact L|apply ARet, tset_eq]|]. simpl.
    split; [done|]. intros u. simpl. unfold tset. case_decide; [done|auto].
  - destruct (body o (word s)) as [r'|d' r'] eqn:Hb'.
    + rewrite Hw in Hb'. eexists. split; [eapply TTau, TNil; by apply alin_return|].
      rewrite Hw. apply cmatch_set; [done|]. simpl. by rewrite Hb'.
    + exists a. split; [apply TNil|]. split; [done|]. intros u. simpl. unfold tset.
      case_decide; [subst; simpl; by rewrite Hb'|auto].
Qed.

(** Whatever the interleaving of the compare-exchange loops, the calls and
    returns of a run are those of an object that performs each operation in one
    step on the word. *)
Lemma cas_loops_atomic c es c' :
  (forall t, threads c t = Idle) -> trace cstep c es c' ->
  exists a', trace astep (AState (word c) (fun _ => AIdle)) es a' /\ aword a' = word c'.
Proof.
  intros Hi Ht. assert (cmatch c (AState (word c) (fun _ => AIdle))) as Hm.
  { split; [done|]. intros t. by rewrite Hi. }
  revert Hm. generalize (AState (word c) (fun _ => AIdle)). clear Hi.
  induction Ht as [s|s s1 s2 es Hs _ IH|s s1 s2 e es Hs _ IH]; intros a Hm.
  - exists a. split; [apply TNil|]. symmetry. apply Hm.
  - destruct (cstep_sim _ _ _ _ Hs Hm) as (a1 & T1 & M1). destruct (IH _ M1) as (a' & T2 & Hw).
    exists a'. split; [|done]. exact (trace_app _ _ _ _ _ _ T1 T2).
  - destruct (cstep_sim _ _ _ _ Hs Hm) as (a1 & T1 & M1). destruct (IH _ M1) as (a' & T2 & Hw).
    exists a'. split; [|done]. exact (trace_app _ _ _ _ _ _ T1 T2).
Qed.

(** * Arithmetic of the packed word *)

Lemma access_ref_mod v : access_ref v = v mod 2 ^ 32.
Proof. unfold access_ref, kAccessRefMask. change (Z.shiftl 1 kAccessRefBits - 1) with (Z.ones 32). by rewrite Z.land_ones. Qed.

(** Bits at and above the counter depend on the quotient only. *)
Lemma bit_high v i : 32 <= i -> bit v i = Z.testbit (v / 2 ^ 32) (i - 32).
Proof. intros. unfold bit. rewrite Z.div_pow2_bits by lia. f_equal. lia. Qed.

Lemma word_inc v : 0 <= v < 2 ^ 64 -> access_ref v < kAccessRefMax ->
  access_ref (u64 (v + 1)) = access_ref v + 1 /\ (forall i, 32 <= i -> bit (u64 (v + 1)) i = bit v i) /\
  0 <= u64 (v + 1) < 2 ^ 64.
Proof.
  intros Hv Ha. rewrite !access_ref_mod in *. change kAccessRefMax with (2 ^ 32 - 1) in Ha.
  pose proof (Z.div_mod v (2 ^ 32) ltac:(done)). pose proof (Z.mod_pos_bound v (2 ^ 32) ltac:(done)).
  assert (u64 (v + 1) = v + 1) as ->.
  { apply wrap_small. assert (v / 2 ^ 32 < 2 ^ 32) by (apply Z.div_lt_upper_bound; lia). lia. }
  assert (v + 1 = (v mod 2 ^ 32 + 1) + (v / 2 ^ 32) * 2 ^ 32) as E by lia.
  assert (v / 2 ^ 32 < 2 ^ 32) by (apply Z.div_lt_upper_bound; lia).
  split; [|split].
  - rewrite E at 1. rewrite Z.mod_add by lia. apply Z.mod_small. lia.
  - intros i Hi. assert ((v + 1) / 2 ^ 32 = v / 2 ^ 32) as Ed by (rewrite E, Z.div_add, Z.div_small by lia; lia).
    by rewrite (bit_high (v + 1)), (bit_high v), Ed by done.
  - lia.
Qed.

Lemma word_dec v : 0 <= v < 2 ^ 64 -> 0 < access_ref v ->
  access_ref (u64 (v - 1)) = access_ref v - 1 /\ (forall i, 32 <= i -> bit (u64 (v - 1)) i = bit v i) /\
  0 <= u64 (v - 1) < 2 ^ 64.
Proof.
  intros Hv Ha. rewrite !access_ref_mod in *.
  pose proof (Z.div_mod v (2 ^ 32) ltac:(done)). pose proof (Z.mod_pos_bound v (2 ^ 32) ltac:(done)).
  pose proof (Z.div_pos v (2 ^ 32) ltac:(lia) ltac:(done)).
  assert (u64 (v - 1) = v - 1) as -> by (apply wrap_small; lia).
  assert (v - 1 = (v mod 2 ^ 32 - 1) + (v / 2 ^ 32) * 2 ^ 32) as E by lia.
  split; [|split; [|lia]].
  - rewrite E at 1. rewrite Z.mod_add by lia. apply Z.mod_small. lia.
  - intros i Hi. assert ((v - 1) / 2 ^ 32 = v / 2 ^ 32) as Ed by (rewrite E, Z.div_add, Z.div_small by lia; lia).
    by rewrite (bit_high (v - 1)), (bit_high v), Ed by done.
Qed.

Lemma word_set_bit v k : 0 <= v < 2 ^ 64 -> 32 <= k < 64 ->
  access_ref (Z.lor v (Z.shiftl 1 k)) = access_ref v /\
  (forall i, 32 <= i -> bit (Z.lor v (Z.shiftl 1 k)) i = (i =? k) || bit v i) /\
  0 <= Z.lor v (Z.shiftl 1 k) < 2 ^ 64.
Proof.
  intros Hv Hk. rewrite Z.shiftl_1_l. split; [|split].
  - unfold access_ref. rewrite Z.land_lor_distr_l.
    assert (Z.land (2 ^ k) kAccessRefMask = 0) as ->; [|apply Z.lor_0_r].
    change kAccessRefMask with (Z.ones 32). rewrite Z.land_ones by lia.
    replace k with (32 + (k - 32)) by lia. rewrite Z.pow_add_r, Z.mul_comm by lia. apply Z.mod_mul. lia.
  - intros i Hi. unfold bit. rewrite Z.lor_spec, Z.pow2_bits_eqb by lia. rewrite orb_comm. f_equal. apply Z.eqb_sym.
  - apply lor_bounded; [lia..|]. split; [lia|]. apply Z.pow_lt_mono_r; lia.
Qed.

Lemma word_clear_bit v k : 0 <= v < 2 ^ 64 -> 32 <= k < 64 ->
  access_ref (clear_bits v (Z.shiftl 1 k)) = access_ref v /\
  (forall i, 32 <= i -> bit (clear_bits v (Z.shiftl 1 k)) i = negb (i =? k) && bit v i) /\
  0 <= clear_bits v (Z.shiftl 1 k) < 2 ^ 64.
Proof.
  intros Hv Hk. unfold clear_bits. rewrite Z.shiftl_1_l. split; [|split].
  - unfold access_ref. apply Z.bits_inj'. intros i Hi. rewrite !Z.land_spec, Z.ldiff_spec, Z.pow2_bits_eqb by lia.
    change kAccessRefMask with (Z.ones 32). destruct (Z.eqb_spec k i) as [<-|]; simpl.
    + rewrite Z.ones_spec_high by lia. by rewrite !andb_false_r.
    + by rewrite andb_true_r.
  - intros i Hi. unfold bit. rewrite Z.ldiff_spec, Z.pow2_bits_eqb, andb_comm by lia. f_equal. f_equal. apply Z.eqb_sym.
  - apply ldiff_bounded; lia.
Qed.

(** * The abstract item *)

(** What the word stands for: the pin count, the admin bits and the user flags. *)
Record item_refs := ItemRefs { pins : Z; linked : bool; accessible : bool; exclusive : bool; user_flags : list bool }.

Definition view (w : Z) : item_refs :=
  ItemRefs (w mod 2 ^ 32) (Z.testbit w 32) (Z.testbit w 33) (Z.testbit w 34) (Z.testbit w <$> [35; 36; 37; 38; 39]).

Definition with_pins (n : Z) (a : item_refs) : item_refs := ItemRefs n (linked a) (accessible a) (exclusive a) (user_flags a).
Definition with_linked (b : bool) (a : item_refs) : item_refs := ItemRefs (pins a) b (accessible a) (exclusive a) (user_flags a).
Definition with_accessible (b : bool) (a : item_refs) : item_refs := ItemRefs (pins a) (linked a) b (exclusive a) (user_flags a).
Definition with_exclusive (b : bool) (a : item_refs) : item_refs := ItemRefs (pins a) (linked a) (accessible a) b (user_flags a).
Definition flag_index (f : Flags) : nat :=
  match f with kMMFlag0 => 0 | kMMFlag1 => 1 | kMMFlag2 => 2 | kIsChainedItem => 3 | kHasChainedItem => 4 end%nat.
Definition with_flag (f : Flags) (b : bool) (a : item_refs) : item_refs :=
  ItemRefs (pins a) (linked a) (accessible a) (exclusive a) (<[flag_index f := b]> (user_flags a)).

(** A pin is taken on a linked item that nobody owns exclusively, up to 2^32 - 1
    pins; an owner without a pin is an evictor, one with a pin a mover. *)
Definition spec_pin (a : item_refs) : IncResult * item_refs :=
  if exclusive a then (if pins a =? 0 then kIncFailedEviction else kIncFailedMoving, a)
  else if negb (linked a) then (kIncFailedUnlinked, a)
  else if pins a =? 2 ^ 32 - 1 then (kIncFailedOverflow, a)
  else (kIncOk, with_pins (pins a + 1) a).

Definition spec_evict (a : item_refs) : MarkForEvictionResult * item_refs :=
  if negb (linked a) then (kUnlinked, a)
  else if exclusive a then (kExclusive, a)
  else if pins a =? 0 then (kSuccess, with_exclusive true a)
  else (kRefHeld, a).

(** A mover takes the only pin together with the exclusive mark. *)
Definition spec_move (a : item_refs) : bool * item_refs :=
  if linked a && negb (exclusive a) && (pins a =? 0) then (true, with_pins 1 (with_exclusive true a)) else (false, a).

(** One operation on the abstract item. A returned word shows the new item; the
    end of a move that holds no pin is outside the contract and leaves any item. *)
Definition spec_step (o : rc_op) (a : item_refs) (r : rc_res) (a' : item_refs) : Prop :=
  let shows := exists w, r = RWord w /\ view w = a' in
  match o with
  | IncRef => r = RInc (spec_pin a).1 /\ a' = (spec_pin a).2
  | DecRef => a' = (if pins a =? 0 then a else with_pins (pins a - 1) a) /\ shows
  | MarkForEviction => r = RMark (spec_evict a).1 /\ a' = (spec_evict a).2
  | MarkMoving => r = RBool (spec_move a).1 /\ a' = (spec_move a).2
  | UnmarkForEviction => a' = with_exclusive false a /\ shows
  | UnmarkMoving => (0 < pins a -> a' = with_pins (pins a - 1) (with_exclusive false a)) /\ shows
  | MarkLinked => r = RVoid /\ a' = with_linked true a
  | UnmarkLinked => r = RVoid /\ a' = with_linked false a
  | MarkAccessible => r = RVoid /\ a' = with_accessible true a
  | UnmarkAccessible => r = RVoid /\ a' = with_accessible false a
  | SetFlag f => r = RVoid /\ a' = with_flag f true a
  | UnSetFlag f => r = RVoid /\ a' = with_flag f false a
  end.

(** A word whose count and bits are known. *)
Lemma view_of w n f : access_ref w = n -> (forall i, 32 <= i -> bit w i = f i) ->
  view w = ItemRefs n (f 32) (f 33) (f 34) (f <$> [35; 36; 37; 38; 39]).
Proof. intros Ha Hb. unfold view. rewrite <- access_ref_mod, Ha. unfold bit in Hb. cbn [fmap list_fmap]. by rewrite !Hb by lia. Qed.

Lemma view_set w k : 0 <= w < 2 ^ 64 -> 32 <= k < 64 ->
  view (Z.lor w (Z.shiftl 1 k)) = ItemRefs (access_ref w) ((32 =? k) || bit w 32) ((33 =? k) || bit w 33) ((34 =? k) || bit w 34)
    ((fun i => (i =? k) || bit w i) <$> [35; 36; 37; 38; 39]) /\ 0 <= Z.lor w (Z.shiftl 1 k) < 2 ^ 64.
Proof. intros Hw Hk. destruct (word_set_bit w k Hw Hk) as (A & B & R). split; [|done]. by apply (view_of _ _ (fun i => (i =? k) || bit w i)). Qed.

Lemma view_clear w k : 0 <= w < 2 ^ 64 -> 32 <= k < 64 ->
  view (clear_bits w (Z.shiftl 1 k)) = ItemRefs (access_ref w) (negb (32 =? k) && bit w 32) (negb (33 =? k) && bit w 33) (negb (34 =? k) && bit w 34)
    ((fun i => negb (i =? k) && bit w i) <$> [35; 36; 37; 38; 39]) /\ 0 <= clear_bits w (Z.shiftl 1 k) < 2 ^ 64.
Proof. intros Hw Hk. destruct (word_clear_bit w k Hw Hk) as (A & B & R). split; [|done]. by apply (view_of _ _ (fun i => negb (i =? k) && bit w i)). Qed.

Lemma view_pins w : pins (view w) = access_ref w.
Proof. by rewrite access_ref_mod. Qed.

Lemma view_inc w : 0 <= w < 2 ^ 64 -> access_ref w < kAccessRefMax ->
  view (u64 (w + 1)) = with_pins (access_ref w + 1) (view w) /\ 0 <= u64 (w + 1) < 2 ^ 64.
Proof. intros Hw Ha. destruct (word_inc w Hw Ha) as (A & B & R). split; [|done]. by rewrite (view_of _ _ _ A B). Qed.

Lemma view_dec w : 0 <= w < 2 ^ 64 -> 0 < access_ref w ->
  view (u64 (w - 1)) = with_pins (access_ref w - 1) (view w) /\ 0 <= u64 (w - 1) < 2 ^ 64.
Proof. intros Hw Ha. destruct (word_dec w Hw Ha) as (A & B & R). split; [|done]. by rewrite (view_of _ _ _ A B). Qed.

Lemma access_range w : 0 <= access_ref w <= kAccessRefMax.
Proof. rewrite access_ref_mod. pose proof (Z.mod_pos_bound w (2 ^ 32) ltac:(done)). change kAccessRefMax with (2 ^ 32 - 1). lia. Qed.

(** The operations on the word are those of the abstract item. *)
Definition meets (o : rc_op) : Prop :=
  forall w, 0 <= w < 2 ^ 64 -> spec_step o (view w) (atomic o w).1 (view (atomic o w).2) /\ 0 <= (atomic o w).2 < 2 ^ 64.

Lemma meets_inc : meets IncRef.
Proof.
  intros w Hw. pose proof (access_range w) as Hr. unfold atomic, body, incRef, spec_step, spec_pin. rewrite view_pins.
  change (exclusive (view w)) with (bit w kExclusiveBit). change (linked (view w)) with (bit w kLinkedBit).
  destruct (bit w kExclusiveBit); [done|]. destruct (bit w kLinkedBit); [|done]. cbn [negb].
  destruct (kAccessRefMax <=? access_ref w) eqn:E; bool_to_Z.
  - rewrite (proj2 (Z.eqb_eq _ _)); [done|]. change (2 ^ 32 - 1) with kAccessRefMax. lia.
  - rewrite (proj2 (Z.eqb_neq _ _)) by (change (2 ^ 32 - 1) with kAccessRefMax; lia). cbn [attempt_map fst snd].
    destruct (view_inc w Hw E) as [-> R]. done.
Qed.

Lemma meets_dec : meets DecRef.
Proof.
  intros w Hw. pose proof (access_range w) as Hr. unfold atomic, body, decRef, spec_step. rewrite view_pins.
  destruct (access_ref w =? 0) eqn:E; bool_to_Z; cbn [attempt_map fst snd].
  - split; [|done]. split; [done|]. by exists w.
  - destruct (view_dec w Hw ltac:(lia)) as [V R]. split; [|done]. split; [done|]. by eexists.
Qed.

Lemma meets_evict : meets MarkForEviction.
Proof.
  intros w Hw. pose proof (access_range w) as Hr. unfold atomic, body, markForEviction, spec_step, spec_evict. rewrite view_pins.
  change (exclusive (view w)) with (bit w kExclusiveBit). change (linked (view w)) with (bit w kLinkedBit).
  destruct (bit w kLinkedBit) eqn:El; [|done]. cbn [negb]. destruct (bit w kExclusiveBit) eqn:Ex; [done|]. destruct (0 <? access_ref w) eqn:E; bool_to_Z.
  - by rewrite (proj2 (Z.eqb_neq _ _)) by lia.
  - rewrite (proj2 (Z.eqb_eq _ _)) by lia. cbn [attempt_map fst snd]. destruct (view_set w kExclusiveBit Hw ltac:(done)) as [-> R]. split; [|done].
    split; [done|]. unfold with_exclusive. by rewrite view_pins.
Qed.

Lemma meets_move : meets MarkMoving.
Proof.
  intros w Hw. pose proof (access_range w) as Hr. unfold atomic, body, markMoving, spec_step, spec_move. rewrite view_pins.
  change (exclusive (view w)) with (bit w kExclusiveBit). change (linked (view w)) with (bit w kLinkedBit).
  destruct (bit w kLinkedBit) eqn:El; [|done]. cbn [negb orb andb]. destruct (bit w kExclusiveBit) eqn:Ex; [done|]. cbn [negb orb andb].
  destruct (0 <? access_ref w) eqn:E; bool_to_Z; [by rewrite (proj2 (Z.eqb_neq _ _)) by lia|].
  assert (access_ref w = 0) as E0 by lia. rewrite E0. cbn [Z.eqb attempt_map fst snd].
  destruct (view_set w kExclusiveBit Hw ltac:(done)) as [V R]. destruct (word_set_bit w kExclusiveBit Hw ltac:(done)) as (A & _).
  destruct (view_inc _ R) as [-> R2]; [rewrite A, E0; done|]. split; [|done]. split; [done|]. by rewrite A, E0, V.
Qed.

Lemma meets_unmark : meets UnmarkForEviction.
Proof.
  intros w Hw. unfold atomic, body, unmarkForEviction, spec_step. cbn [attempt_map fst snd].
  destruct (view_clear w kExclusiveBit Hw ltac:(done)) as [V R]. split; [|done]. split; [|by eexists].
  rewrite V. unfold with_exclusive. by rewrite view_pins.
Qed.

Lemma meets_unmove : meets UnmarkMoving.
Proof.
  intros w Hw. unfold atomic, body, unmarkMoving, spec_step. cbn [attempt_map fst snd].
  split; [|apply wrap_range; lia]. split; [|by eexists]. rewrite view_pins. intros Ha.
  destruct (view_clear w kExclusiveBit Hw ltac:(done)) as [V R]. destruct (word_clear_bit w kExclusiveBit Hw ltac:(done)) as (A & _).
  destruct (view_dec _ R) as [-> _]; [by rewrite A|]. rewrite A, V. reflexivity.
Qed.

Lemma meets_all o : meets o.
Proof.
  destruct o as [| | | | | | | | | |f|f];
    auto using meets_inc, meets_dec, meets_evict, meets_move, meets_unmark, meets_unmove; intros w Hw;
    unfold atomic, body, spec_step, markInMMContainer, unmarkInMMContainer, markAccessible, unmarkAccessible, setFlag, unSetFlag; cbn [attempt_map fst snd].
  - destruct (view_set w kLinkedBit Hw ltac:(done)) as [-> R]. rewrite <- view_pins. done.
  - destruct (view_clear w kLinkedBit Hw ltac:(done)) as [-> R]. rewrite <- view_pins. done.
  - destruct (view_set w kAccessibleBit Hw ltac:(done)) as [-> R]. rewrite <- view_pins. done.
  - destruct (view_clear w kAccessibleBit Hw ltac:(done)) as [-> R]. rewrite <- view_pins. done.
  - destruct (view_set w (flag_bit f) Hw ltac:(by destruct f)) as [-> R]. rewrite <- view_pins. split; [|done]. split; [done|]. by destruct f.
  - destruct (view_clear w (flag_bit f) Hw ltac:(by destruct f)) as [-> R]. rewrite <- view_pins. split; [|done]. split; [done|]. by destruct f.
Qed.

(** ** The specification as a concurrent object *)

Record sstate := SState { sitem : item_refs; sthreads : nat -> astate_t }.

Inductive sstep : sstate -> option event -> sstate -> Prop :=
  | SCall s t o :
      sthreads s t = AIdle ->
      sstep s (Some (Call t o)) (SState (sitem s) (tset t (ACalled o) (sthreads s)))
  | SLin s t o r a :
      sthreads s t = ACalled o -> spec_step o (sitem s) r a ->
      sstep s None (SState a (tset t (ADone o r) (sthreads s)))
  | SRet s t o r :
      sthreads s t = ADone o r ->
      sstep s (Some (Ret t o r)) (SState (sitem s) (tset t AIdle (sthreads s))).

Lemma astep_spec a e a' : astep a e a' -> 0 <= aword a < 2 ^ 64 ->
  sstep (SState (view (aword a)) (athreads a)) e (SState (view (aword a')) (athreads a')) /\ 0 <= aword a' < 2 ^ 64.
Proof.
  intros Hs Hw. destruct Hs as [s t o Ht|s t o Ht|s t o r Ht]; cbn [aword athreads].
  - split; [|done]. by apply (SCall (SState (view (aword s)) (athreads s))).
  - destruct (meets_all o (aword s) Hw) as [M R]. split; [|done]. by apply (SLin (SState (view (aword s)) (athreads s))).
  - split; [|done]. by apply (SRet (SState (view (aword s)) (athreads s))).
Qed.

Lemma atrace_spec a es a' : trace astep a es a' -> 0 <= aword a < 2 ^ 64 ->
  trace sstep (SState (view (aword a)) (athreads a)) es (SState (view (aword a')) (athreads a')).
Proof.
  induction 1 as [s|s s1 s2 es Hs _ IH|s s1 s2 e es Hs _ IH]; intros Hw; [apply TNil|..];
    destruct (astep_spec _ _ _ Hs Hw) as [S1 W1]; [eapply TTau|eapply TEv]; eauto.
Qed.

(** C35: linearizability. Whatever the interleaving of the threads'
    compare-exchange loops, and however often an exchange fails, the calls and
    returns of a run are those of an item with a pin count, admin bits and user
    flags whose operations each take effect atomically at one instant between
    call and return: a pin is taken only on a linked item that nobody owns, an
    owner's mark only on a linked item without pins and without an owner, and
    every other operation changes its own field alone. Ending a move that was
    never begun (a pin count of 0) is outside the contract. *)
Theorem refcount_linearizable c es c' :
  (forall t, threads c t = Idle) -> 0 <= word c < 2 ^ 64 -> trace cstep c es c' ->
  exists s', trace sstep (SState (view (word c)) (fun _ => AIdle)) es s' /\ sitem s' = view (word c').
Proof.
  intros Hi Hw Ht. destruct (cas_loops_atomic c es c' Hi Ht) as (a' & T & Ea).
  eexists. split; [exact (atrace_spec _ _ _ T Hw)|]. cbn [sitem]. by rewrite Ea.
Qed.

Lemma refcount_linearizable_witness :
  exists s', trace sstep (SState (ItemRefs 0 false false false [false; false; false; false; false]) (fun _ => AIdle))
    [Call 0 MarkLinked; Call 1 MarkAccessible; Ret 0 MarkLinked RVoid; Ret 1 MarkAccessible RVoid] s' /\
    sitem s' = ItemRefs 0 true true false [false; false; false; false; false].
Proof.
  apply (refcount_linearizable (CState 0 (fun _ => Idle))
    [Call 0 MarkLinked; Call 1 MarkAccessible; Ret 0 MarkLinked RVoid; Ret 1 MarkAccessible RVoid]
    (CState (3 * 2 ^ 32) (tset 1%nat Idle (tset 1%nat (Looping MarkAccessible (2 ^ 32))
      (tset 0%nat Idle (tset 1%nat (Looping MarkAccessible 0) (tset 0%nat (Looping MarkLinked 0) (fun _ => Idle)))))))).
  - reflexivity.
  - cbn. lia.
  - eapply TEv; [by apply CLoad|]. eapply TEv; [by apply CLoad|].
    eapply TEv; [eapply CCasOk; reflexivity|]. eapply TTau; [eapply (CCasFail _ 1%nat); reflexivity|].
    eapply TEv; [eapply CCasOk; reflexivity|]. apply TNil.
Defined.

(** * The ownership protocol *)

(** Who owns what: live handles, whether some thread holds the eviction mark,
    whether some thread holds the moving mark. *)
Record owners := Owners { handles : Z; evicting : bool; moving : bool }.

(** The ownership an operation transfers, given its result; [None] when the
    caller may not call it (releasing a handle or a mark nobody holds). *)
Definition effect (o : rc_op) (r : rc_res) (g : owners) : option owners :=
  match o, r with
  | IncRef, RInc kIncOk => Some (Owners (handles g + 1) (evicting g) (moving g))
  | DecRef, _ => if 0 <? handles g then Some (Owners (handles g - 1) (evicting g) (moving g)) else None
  | MarkForEviction, RMark kSuccess => Some (Owners (handles g) true (moving g))
  | UnmarkForEviction, _ => if evicting g then Some (Owners (handles g) false (moving g)) else None
  | MarkMoving, RBool true => Some (Owners (handles g) (evicting g) true)
  | UnmarkMoving, _ => if moving g then Some (Owners (handles g) (evicting g) false) else None
  | _, _ => Some g
  end.

Inductive pstep (o : rc_op) : Z * owners -> Z * owners -> Prop :=
  | PStep w g r w' g' : atomic o w = (r, w') -> effect o r g = Some g' -> pstep o (w, g) (w', g').

Inductive pruns (ok : rc_op -> Prop) : Z * owners -> Z * owners -> Prop :=
  | PRefl s : pruns ok s s
  | PTrans o s1 s2 s3 : ok o -> pruns ok s1 s2 -> pstep o s2 s3 -> pruns ok s1 s3.

Record inv (w : Z) (g : owners) : Prop := {
  inv_range : 0 <= w < 2 ^ 64;
  inv_handles : 0 <= handles g;
  inv_access : access_ref w = handles g + (if moving g then 1 else 0);
  inv_exclusive : bit w kExclusiveBit = evicting g || moving g;
  inv_owner : evicting g || moving g = true -> handles g = 0;
  inv_one : evicting g && moving g = false
}.

(** Which bits above the counter an operation may change, and to what. *)
Definition high_bit (o : rc_op) (i : Z) (b : bool) : bool :=
  match o with
  | MarkLinked => (i =? kLinkedBit) || b
  | UnmarkLinked => negb (i =? kLinkedBit) && b
  | MarkAccessible => (i =? kAccessibleBit) || b
  | UnmarkAccessible => negb (i =? kAccessibleBit) && b
  | SetFlag f => (i =? flag_bit f) || b
  | UnSetFlag f => negb (i =? flag_bit f) && b
  | _ => b
  end.

Lemma inv_init : inv 0 (Owners 0 false false).
Proof. by split. Qed.

(** Setting or clearing a bit other than the exclusive one keeps the word in
    step with its owners. *)
Lemma inv_admin w g w' :
  inv w g -> access_ref w' = access_ref w -> bit w' kExclusiveBit = bit w kExclusiveBit ->
  0 <= w' < 2 ^ 64 -> inv w' g.
Proof. intros [? ? ? ? ? ?] Ha Hb Hr. split; rewrite ?Ha, ?Hb; done. Qed.

Lemma flag_bit_range f : 35 <= flag_bit f < 40.
Proof. destruct f; simpl; lia. Qed.

(** An operation keeps the invariant and touches no bit above the counter
    except its own (the exclusive bit is accounted for by the invariant). *)
Definition keeps (o : rc_op) (w : Z) (w' : Z) (g' : owners) : Prop :=
  inv w' g' /\ (forall i, 32 <= i -> i <> kExclusiveBit -> bit w' i = high_bit o i (bit w i)).

(** The shape shared by the cases below. *)
Definition op_keeps (o : rc_op) : Prop := forall w g r w' g',
  inv w g -> atomic o w = (r, w') -> effect o r g = Some g' -> keeps o w w' g'.

Lemma keeps_same o w g : inv w g -> (forall i b, high_bit o i b = b) -> keeps o w w g.
Proof. intros Hi Hb. split; [done|]. intros. by rewrite Hb. Qed.

Lemma no_owner g : 0 < handles g -> (evicting g || moving g = true -> handles g = 0) ->
  evicting g = false /\ moving g = false.
Proof. intros Hp Ho. apply orb_false_iff. destruct (evicting g || moving g); [|done]. rewrite Ho in Hp; [lia|done]. Qed.

Lemma keeps_incRef : op_keeps IncRef.
Proof.
  intros w g r w' g' Hi Hat Hef. pose proof Hi as [Hr Hh Ha He Ho H1].
  unfold atomic in Hat. simpl in Hat. unfold incRef in Hat. destruct (bit w kExclusiveBit) eqn:Hx.
  { destruct (access_ref w =? 0); simplify_eq/=; by apply keeps_same. }
  destruct (bit w kLinkedBit) eqn:Hl; simpl in Hat; [|simplify_eq/=; by apply keeps_same].
  destruct (kAccessRefMax <=? access_ref w) eqn:Hm; simplify_eq/=; [by apply keeps_same|]. bool_to_Z.
  destruct (word_inc w Hr Hm) as (Wa & Wb & Wr). symmetry in He. apply orb_false_iff in He as [He1 He2].
  split; [|intros i ? _; by apply Wb]. rewrite He1, He2 in *.
  split; simpl; rewrite ?He1, ?He2; [done|lia|lia|by rewrite Wb|done|done].
Qed.

Lemma keeps_decRef : op_keeps DecRef.
Proof.
  intros w g r w' g' [Hr Hh Ha He Ho H1] Hat Hef. unfold atomic in Hat. simpl in Hat, Hef. unfold decRef in Hat.
  destruct (0 <? handles g) eqn:Hp; simplify_eq. bool_to_Z. destruct (no_owner g Hp Ho) as [He1 He2]. rewrite He2 in Ha.
  destruct (access_ref w =? 0) eqn:Hz; bool_to_Z; [lia|]. simplify_eq/=.
  destruct (word_dec w Hr) as (Wa & Wb & Wr); [lia|].
  split; [|intros i ? _; by apply Wb]. rewrite He1, He2 in *.
  split; simpl; rewrite ?He1, ?He2; [done|lia|lia|by rewrite Wb|done|done].
Qed.

Lemma keeps_mark : op_keeps MarkForEviction.
Proof.
  intros w g r w' g' Hi Hat Hef. pose proof Hi as [Hr Hh Ha He Ho H1].
  unfold atomic in Hat. simpl in Hat. unfold markForEviction in Hat.
  destruct (bit w kLinkedBit), (bit w kExclusiveBit) eqn:Hx; simplify_eq/=; try by apply keeps_same.
  destruct (0 <? access_ref w) eqn:Hz; simplify_eq/=; [by apply keeps_same|]. bool_to_Z.
  symmetry in He. apply orb_false_iff in He as [He1 He2]. rewrite He2 in *.
  destruct (word_set_bit w kExclusiveBit Hr) as (Wa & Wb & Wr); [done|].
  split; [|intros i Hi' Hne; rewrite Wb by done; by rewrite (proj2 (Z.eqb_neq _ _) Hne)].
  split; simpl; rewrite ?He2; [done|lia|lia|by rewrite Wb|lia|done].
Qed.

Lemma keeps_moving : op_keeps MarkMoving.
Proof.
  intros w g r w' g' Hi Hat Hef. pose proof Hi as [Hr Hh Ha He Ho H1].
  unfold atomic in Hat. simpl in Hat. unfold markMoving in Hat.
  destruct (bit w kLinkedBit), (bit w kExclusiveBit) eqn:Hx; simplify_eq/=; try by apply keeps_same.
  destruct (0 <? access_ref w) eqn:Hz; simplify_eq/=; [by apply keeps_same|]. bool_to_Z.
  symmetry in He. apply orb_false_iff in He as [He1 He2]. rewrite He2 in *.
  destruct (word_set_bit w kExclusiveBit Hr) as (Wa & Wb & Wr); [done|].
  destruct (word_inc _ Wr) as (Va & Vb & Vr); [change kAccessRefMax with (2 ^ 32 - 1); lia|].
  split; [|intros i Hi' Hne; rewrite Vb, Wb by done; by rewrite (proj2 (Z.eqb_neq _ _) Hne)].
  split; simpl; rewrite ?He1; [done|lia|lia|by rewrite Vb, Wb|lia|done].
Qed.

Lemma keeps_unmark : op_keeps UnmarkForEviction.
Proof.
  intros w g r w' g' [Hr Hh Ha He Ho H1] Hat Hef. unfold atomic in Hat. simpl in Hat, Hef. simplify_eq/=.
  destruct (evicting g) eqn:Hev; simplify_eq/=. rewrite H1 in *.
  destruct (word_clear_bit w kExclusiveBit Hr) as (Wa & Wb & Wr); [done|].
  split; [|intros i Hi' Hne; rewrite Wb by done; by rewrite (proj2 (Z.eqb_neq _ _) Hne)].
  split; simpl; [done|lia|lia|by rewrite Wb|lia|done].
Qed.

Lemma keeps_unmoving : op_keeps UnmarkMoving.
Proof.
  intros w g r w' g' [Hr Hh Ha He Ho H1] Hat Hef. unfold atomic in Hat. simpl in Hat, Hef. simplify_eq/=.
  destruct (moving g) eqn:Hmv; simplify_eq/=. rewrite andb_true_r in H1. rewrite H1 in *. simpl in *.
  destruct (word_clear_bit w kExclusiveBit Hr) as (Wa & Wb & Wr); [done|].
  destruct (word_dec _ Wr) as (Va & Vb & Vr); [lia|].
  split; [|intros i Hi' Hne; rewrite Vb, Wb by done; by rewrite (proj2 (Z.eqb_neq _ _) Hne)].
  split; simpl; rewrite ?H1; [done|lia|lia|by rewrite Vb, Wb|lia|done].
Qed.

Lemma keeps_set o k : (forall v, body o v = Cas (Z.lor v (Z.shiftl 1 k)) RVoid) -> 32 <= k < 64 -> k <> kExclusiveBit ->
  (forall r g, effect o r g = Some g) -> (forall i b, high_bit o i b = (i =? k) || b) -> op_keeps o.
Proof.
  intros Hb Hk Hne Hef Hh w g r w' g' Hi Hat Hg. unfold atomic in Hat. rewrite Hb in Hat. rewrite Hef in Hg.
  simplify_eq. destruct (word_set_bit w k (inv_range _ _ Hi) Hk) as (Wa & Wb & Wr).
  split; [|intros i ? _; by rewrite Wb, Hh]. eapply inv_admin; eauto.
  rewrite Wb by done. by rewrite (proj2 (Z.eqb_neq _ _) (not_eq_sym Hne)).
Qed.

Lemma keeps_clear o k : (forall v, body o v = Cas (clear_bits v (Z.shiftl 1 k)) RVoid) -> 32 <= k < 64 -> k <> kExclusiveBit ->
  (forall r g, effect o r g = Some g) -> (forall i b, high_bit o i b = negb (i =? k) && b) -> op_keeps o.
Proof.
  intros Hb Hk Hne Hef Hh w g r w' g' Hi Hat Hg. unfold atomic in Hat. rewrite Hb in Hat. rewrite Hef in Hg.
  simplify_eq. destruct (word_clear_bit w k (inv_range _ _ Hi) Hk) as (Wa & Wb & Wr).
  split; [|intros i ? _; by rewrite Wb, Hh]. eapply inv_admin; eauto.
  rewrite Wb by done. by rewrite (proj2 (Z.eqb_neq _ _) (not_eq_sym Hne)).
Qed.

Lemma keeps_all o : op_keeps o.
Proof.
  destruct o as [| | | | | | | | | |f|f].
  - apply keeps_incRef.
  - apply keeps_decRef.
  - apply keeps_mark.
  - apply keeps_moving.
  - apply keeps_unmark.
  - apply keeps_unmoving.
  - by apply (keeps_set _ kLinkedBit).
  - by apply (keeps_clear _ kLinkedBit).
  - by apply (keeps_set _ kAccessibleBit).
  - by apply (keeps_clear _ kAccessibleBit).
  - pose proof (flag_bit_range f). apply (keeps_set _ (flag_bit f)); unfold kExclusiveBit; try done; lia.
  - pose proof (flag_bit_range f). apply (keeps_clear _ (flag_bit f)); unfold kExclusiveBit; try done; lia.
Qed.

Lemma pruns_inv ok s s' : pruns ok s s' -> inv s.1 s.2 -> inv s'.1 s'.2.
Proof.
  induction 1 as [s|o s1 s2 s3 _ _ IH Hs]; [done|]. intros Hi. specialize (IH Hi).
  inversion Hs as [w g r w' g' Ha He]; subst. exact (proj1 (keeps_all _ _ _ _ _ _ IH Ha He)).
Qed.

Definition any_op (o : rc_op) : Prop := True.
Definition reachable (w : Z) (g : owners) : Prop := pruns any_op (0, Owners 0 false false) (w, g).

Lemma reachable_inv w g : reachable w g -> inv w g.
Proof. intros H. apply (pruns_inv _ _ _ H), inv_init. Qed.

Lemma bit_clear_access w g : inv w g -> evicting g || moving g = false -> access_ref w = handles g.
Proof. intros [? ? Ha ? ? ?] [_ Hm]%orb_false_iff. rewrite Hm in Ha. lia. Qed.

(** C36: exclusivity. In every reachable state of the protocol an evictor or a
    mover excludes every handle and each other, and while either holds its
    mark no [incRef] succeeds (it reports which of the two is in progress), no
    second mark is granted, and the word is left as it is. *)
Theorem exclusive_excludes w g :
  reachable w g -> evicting g || moving g = true ->
  handles g = 0 /\ evicting g && moving g = false /\
  atomic IncRef w = (RInc (if evicting g then kIncFailedEviction else kIncFailedMoving), w) /\
  (exists r, atomic MarkForEviction w = (RMark r, w) /\ r <> kSuccess) /\
  atomic MarkMoving w = (RBool false, w).
Proof.
  intros Hre Hx. destruct (reachable_inv _ _ Hre) as [Hr Hh Ha He Ho H1]. rewrite (Ho Hx) in *.
  split; [done|]. split; [done|]. unfold atomic. simpl. unfold incRef, markForEviction, markMoving.
  rewrite He, Hx, orb_true_r. simpl. split; [|split; [|done]].
  - rewrite Ha. destruct (evicting g), (moving g); done.
  - destruct (bit w kLinkedBit); eexists; done.
Qed.

Lemma exclusive_excludes_witness :
  atomic IncRef (5 * 2 ^ 32) = (RInc kIncFailedEviction, 5 * 2 ^ 32).
Proof.
  assert (reachable (5 * 2 ^ 32) (Owners 0 true false)) as Hre.
  { eapply (PTrans _ MarkForEviction _ (2 ^ 32, Owners 0 false false)); [done| |by apply (PStep _ _ _ (RMark kSuccess))].
    eapply (PTrans _ MarkLinked); [done|apply PRefl|by apply (PStep _ _ _ RVoid)]. }
  apply (exclusive_excludes (5 * 2 ^ 32) (Owners 0 true false) Hre). reflexivity.
Defined.

(** The queries tell the truth about ownership: in every reachable state
    [getAccessRef] is the number of live handles, [isMarkedForEviction] and
    [isMoving] say whether an evictor or a mover exists, and a drained word
    has no handle, no owner, and is neither linked nor accessible. *)
Theorem queries_exact w g :
  reachable w g ->
  getAccessRef w = handles g /\ isMarkedForEviction w = evicting g /\ isMoving w = moving g /\
  (isDrained w = true ->
     handles g = 0 /\ evicting g = false /\ moving g = false /\ isInMMContainer w = false /\ isAccessible w = false).
Proof.
  intros Hre. destruct (reachable_inv _ _ Hre) as [Hr Hh Ha He Ho H1].
  unfold getAccessRef, isMarkedForEviction, isMoving. rewrite He, Ha.
  assert (forall i, 0 <= i < 35 -> isDrained w = true -> Z.testbit w i = false) as Hz.
  { unfold isDrained. intros i Hi Hd. bool_to_Z. apply (f_equal (fun z => Z.testbit z i)) in Hd.
    rewrite Z.land_spec, Z.testbit_0_l in Hd. change (Z.lor kAccessRefMask kAdminRefMask) with (Z.ones 35) in Hd.
    by rewrite Z.ones_spec_low, andb_true_r in Hd by lia. }
  split; [|split; [|split]].
  - destruct (evicting g), (moving g); simpl in *; try rewrite Ho by done; try done; lia.
  - destruct (evicting g), (moving g); simpl in *; try rewrite Ho by done; done.
  - destruct (evicting g), (moving g); simpl in *; try rewrite Ho by done; done.
  - intros Hd. assert (access_ref w = 0) as E.
    { rewrite access_ref_mod. apply Z.bits_inj'. intros i Hi. rewrite Z.testbit_0_l.
      destruct (Z.lt_ge_cases i 32); [rewrite Z.mod_pow2_bits_low by lia; apply Hz; [lia|done]|].
      by rewrite Z.mod_pow2_bits_high by lia. }
    unfold isInMMContainer, isAccessible, bit in *. rewrite (Hz kExclusiveBit) in He by done.
    symmetry in He. apply orb_false_iff in He as [He1 He2]. rewrite He2 in Ha.
    rewrite (Hz kLinkedBit), (Hz kAccessibleBit) by done. split; [lia|done].
Qed.

Lemma queries_exact_witness : getAccessRef (2 ^ 32 + 1) = 1.
Proof.
  assert (reachable (2 ^ 32 + 1) (Owners 1 false false)) as Hre.
  { eapply (PTrans _ IncRef _ (2 ^ 32, Owners 0 false false)); [done| |by apply (PStep _ _ _ (RInc kIncOk))].
    eapply (PTrans _ MarkLinked); [done|apply PRefl|by apply (PStep _ _ _ RVoid)]. }
  apply (queries_exact (2 ^ 32 + 1) (Owners 1 false false) Hre).
Defined.

Definition no_relink (o : rc_op) : Prop := o <> MarkLinked.

Lemma unlinked_stays s s' :
  pruns no_relink s s' -> inv s.1 s.2 -> isInMMContainer s.1 = false ->
  isInMMContainer s'.1 = false /\ handles s'.2 <= handles s.2.
Proof.
  induction 1 as [s|o s1 s2 s3 Hok Hp IH Hs]; intros Hi Hu; [split; [done|lia]|].
  destruct (IH Hi Hu) as [Hu2 Hle]. pose proof (pruns_inv _ _ _ Hp Hi) as Hi2.
  inversion Hs as [w g r w' g' Ha He]; subst. simpl in *.
  destruct (keeps_all _ _ _ _ _ _ Hi2 Ha He) as [_ Hb].
  split; [unfold isInMMContainer; rewrite Hb by done; unfold isInMMContainer in Hu2; rewrite Hu2;
    destruct o as [| | | | | | | | | |[]|[]]; done|].
  assert (handles g' <= handles g); [|lia]. unfold isInMMContainer in Hu2.
  destruct o; simpl in He; try (destruct r as [[]| |[]|[]|]); simplify_eq/=; try lia;
    try (case_match; simplify_eq/=; lia).
  unfold atomic, body, incRef in Ha. rewrite Hu2 in Ha. simpl in Ha.
  destruct (bit w kExclusiveBit); simpl in Ha; [destruct (access_ref w =? 0)|]; simplify_eq/=.
Qed.

(** Unlinking is the pin barrier. Once an item is out of the MM container,
    and as long as nobody links it again, no run of the other operations by
    any number of threads can create a handle: a reader that still holds the
    raw pointer cannot pin an item that may be reclaimed. *)
Theorem pin_barrier w g w' g' :
  reachable w g -> isInMMContainer w = false -> pruns no_relink (w, g) (w', g') ->
  isInMMContainer w' = false /\ handles g' <= handles g /\
  (exists r, atomic IncRef w' = (RInc r, w') /\ r <> kIncOk).
Proof.
  intros Hre Hu Hp. pose proof (reachable_inv _ _ Hre) as Hi.
  destruct (unlinked_stays _ _ Hp Hi Hu) as [Hu' Hle]. split; [done|]. split; [done|].
  unfold atomic, body, incRef. unfold isInMMContainer in Hu'. simpl in Hu'. rewrite Hu'. simpl.
  destruct (bit w' kExclusiveBit); eexists; split; try done. by destruct (access_ref w' =? 0).
Qed.

Lemma pin_barrier_witness : exists r, atomic IncRef 0 = (RInc r, 0) /\ r <> kIncOk.
Proof. apply (pin_barrier 0 (Owners 0 false false) 0 (Owners 0 false false)); [apply PRefl|reflexivity|apply PRefl]. Defined.

(** No operation leaks into a user flag: in a reachable state a flag
    changes only by [setFlag]/[unSetFlag] of that very flag, so in particular
    no increment, decrement or mark carries out of its own field. *)
Theorem flags_isolated o w g r w' g' f :
  reachable w g -> atomic o w = (r, w') -> effect o r g = Some g' ->
  isFlagSet f w' = match o with
                   | SetFlag f' => (flag_bit f =? flag_bit f') || isFlagSet f w
                   | UnSetFlag f' => negb (flag_bit f =? flag_bit f') && isFlagSet f w
                   | _ => isFlagSet f w
                   end.
Proof.
  intros Hre Ha He. destruct (keeps_all _ _ _ _ _ _ (reachable_inv _ _ Hre) Ha He) as [_ Hb].
  unfold isFlagSet. pose proof (flag_bit_range f). rewrite Hb by (unfold kExclusiveBit; lia).
  destruct o; simpl; try done; (rewrite (proj2 (Z.eqb_neq _ _)); [done|]);
    unfold kLinkedBit, kAccessibleBit; lia.
Qed.

Lemma flags_isolated_witness : isFlagSet kMMFlag1 (2 ^ 36 + 2 ^ 32) = true.
Proof.
  assert (reachable (2 ^ 36) (Owners 0 false false)) as Hre.
  { eapply (PTrans _ (SetFlag kMMFlag1)); [done|apply PRefl|by apply (PStep _ _ _ RVoid)]. }
  rewrite (flags_isolated MarkLinked (2 ^ 36) (Owners 0 false false) RVoid (2 ^ 36 + 2 ^ 32) (Owners 0 false false) kMMFlag1 Hre);
    reflexivity.
Defined.

(** The backoff never shifts by the width of the type and never pauses more
    than its cap. *)
Lemma backoff_bounded spin : 0 <= spin < 2 ^ 32 ->
  0 <= (refcount_cas_backoff spin).1 <= kCasBackoffMaxPause /\
  (10 <= spin -> (refcount_cas_backoff spin).1 = kCasBackoffMaxPause).
Proof.
  intros Hs. unfold refcount_cas_backoff, kCasBackoffThreshold, kCasBackoffMaxPause.
  destruct (spin <? 4) eqn:E; bool_to_Z; simpl; [lia|]. rewrite (wrap_small 32 (spin - 4)) by lia.
  set (sh := if 31 <? spin - 4 then 31 else spin - 4).
  assert (0 <= sh <= 31 /\ (10 <= spin -> 6 <= sh)) as [Hsh H6] by (unfold sh; destruct (31 <? spin - 4) eqn:?; bool_to_Z; lia).
  rewrite Z.shiftl_1_l, wrap_small by (split; [lia|apply Z.pow_lt_mono_r; lia]).
  pose proof (Z.pow_pos_nonneg 2 sh ltac:(lia) ltac:(lia)).
  destruct (64 <? 2 ^ sh) eqn:E2; bool_to_Z; split; try lia.
  intros H10. assert (2 ^ 6 <= 2 ^ sh) by (apply Z.pow_le_mono_r; lia). lia.
Qed.
