(* ===== verification/StdHeap.v ===== *)
(** The part of the C++ standard library the program's priority queues use:
    [std::push_heap], [std::pop_heap] and [std::priority_queue] on a vector,
    ordered by a numeric key with the smallest key on top. The interface
    [StdHeap] states what the standard guarantees; the clients are proved
    against it, and a binary heap discharges it. *)

From S2P Require Import Prelude.

(** * Interface *)

(** [push_heap v] restores the heap after [push_back]; [pop_heap v] moves the
    top to the back and leaves a heap in front of it. *)
Class StdHeap (A : Type) (key : A -> Z) := {
  is_heap : list A -> Prop;
  push_heap : list A -> list A;
  pop_heap : list A -> list A;
  heap_nil : is_heap [];
  heap_top : forall x v y, is_heap (x :: v) -> y ∈ v -> key x <= key y;
  push_heap_perm : forall v x, is_heap v -> push_heap (v ++ [x]) ≡ₚ x :: v;
  push_heap_heap : forall v x, is_heap v -> is_heap (push_heap (v ++ [x]));
  pop_heap_spec : forall x v, is_heap (x :: v) ->
    exists w, pop_heap (x :: v) = w ++ [x] /\ is_heap w /\ w ≡ₚ v
}.

(** [std::priority_queue]: [push] and [pop]. *)
Definition pq_push `{StdHeap A key} (v : list A) (x : A) : list A := push_heap (v ++ [x]).
Definition pq_pop `{StdHeap A key} (v : list A) : list A := removelast (pop_heap v).

Section interface.
Context {A : Type} {key : A -> Z} {HH : StdHeap A key}.

Lemma pq_push_perm v x : is_heap v -> pq_push v x ≡ₚ x :: v.
Proof. apply push_heap_perm. Qed.

Lemma pq_push_heap v x : is_heap v -> is_heap (pq_push v x).
Proof. apply push_heap_heap. Qed.

Lemma pq_pop_spec x v : is_heap (x :: v) -> is_heap (pq_pop (x :: v)) /\ pq_pop (x :: v) ≡ₚ v.
Proof.
  intros Hh. unfold pq_pop. destruct (pop_heap_spec x v Hh) as (w & -> & Hw & Hp).
  by rewrite removelast_last.
Qed.

Lemma pq_pop_length x v : is_heap (x :: v) -> length (pq_pop (x :: v)) = length v.
Proof. intros Hh. by apply Permutation_length, pq_pop_spec. Qed.

(** The top has the smallest key of all. *)
Lemma heap_top_all x v y : is_heap (x :: v) -> y ∈ x :: v -> key x <= key y.
Proof. intros Hh [->|Hy]%elem_of_cons; [lia|]. by eapply heap_top. Qed.
End interface.

#[export] Hint Resolve heap_nil pq_push_heap : lru.

(** * A binary heap *)

Module BinaryHeap.
Section heap.
Context {A : Type} (key : A -> Z).
Local Open Scope nat_scope.

Definition parent (i : nat) : nat := (i - 1) / 2.

Definition swap (i j : nat) (v : list A) : list A :=
  match v !! i, v !! j with
  | Some x, Some y => <[i := y]> (<[j := x]> v)
  | _, _ => v
  end.

(** Sift the element at [i] up while its parent's key is larger. *)
Fixpoint sift_up (fuel i : nat) (v : list A) : list A :=
  match fuel, i with
  | S fuel, S _ =>
      match v !! parent i, v !! i with
      | Some p, Some x => if (key x <? key p)%Z then sift_up fuel (parent i) (swap (parent i) i v) else v
      | _, _ => v
      end
  | _, _ => v
  end.

(** The child of [i] with the smaller key, when there is one. *)
Definition min_child (i : nat) (v : list A) : option (nat * A) :=
  match v !! (2 * i + 1), v !! (2 * i + 2) with
  | Some l, Some r => Some (if (key r <? key l)%Z then (2 * i + 2, r) else (2 * i + 1, l))
  | Some l, None => Some (2 * i + 1, l)
  | None, _ => None
  end.

Fixpoint sift_down (fuel i : nat) (v : list A) : list A :=
  match fuel with
  | O => v
  | S fuel =>
      match v !! i, min_child i v with
      | Some x, Some (c, y) => if (key y <? key x)%Z then sift_down fuel c (swap i c v) else v
      | _, _ => v
      end
  end.

Definition push (v : list A) : list A := sift_up (length v) (length v - 1) v.

(** Front to the back, last element sifted down from the root. *)
Definition pop (v : list A) : list A :=
  match v with
  | [] => []
  | x :: v' =>
      match last v' with
      | None => [x]
      | Some z => sift_down (length v') 0 (z :: removelast v') ++ [x]
      end
  end.

(** ** Heap order *)

Definition le_at (v : list A) (i j : nat) : Prop :=
  forall x y, v !! i = Some x -> v !! j = Some y -> (key x <= key y)%Z.

Definition heap (v : list A) : Prop := forall j, 0 < j -> le_at v (parent j) j.

(** All edges in order but the one above [i], whose children are in order
    with the parent of [i]. *)
Definition heap_but_up (v : list A) (i : nat) : Prop :=
  (forall j, 0 < j -> j <> i -> le_at v (parent j) j) /\
  (forall c, 0 < i -> 0 < c -> parent c = i -> le_at v (parent i) c).

(** All edges in order but those below [i]. *)
Definition heap_but_down (v : list A) (i : nat) : Prop :=
  (forall j, 0 < j -> parent j <> i -> le_at v (parent j) j) /\
  (forall c, 0 < i -> 0 < c -> parent c = i -> le_at v (parent i) c).

Lemma lookup_swap v i j k : i < length v -> j < length v ->
  swap i j v !! k = if decide (k = i) then v !! j else if decide (k = j) then v !! i else v !! k.
Proof.
  intros [x Hx]%lookup_lt_is_Some [y Hy]%lookup_lt_is_Some. unfold swap. rewrite Hx, Hy.
  pose proof (lookup_lt_Some _ _ _ Hx). pose proof (lookup_lt_Some _ _ _ Hy).
  destruct (decide (k = i)) as [->|Hi]; [by rewrite list_lookup_insert_eq by (rewrite length_insert; lia)|].
  rewrite list_lookup_insert_ne by done.
  destruct (decide (k = j)) as [->|Hj]; [by rewrite list_lookup_insert_eq|by rewrite list_lookup_insert_ne].
Qed.

Lemma length_swap v i j : length (swap i j v) = length v.
Proof. unfold swap. repeat case_match; by rewrite ?length_insert. Qed.

Lemma swap_perm v i j : i < length v -> j < length v -> swap i j v ≡ₚ v.
Proof.
  intros Hi Hj. apply Permutation_inj. split; [apply length_swap|].
  exists (fun k => if decide (k = i) then j else if decide (k = j) then i else k). split.
  - intros a b. repeat case_decide; lia.
  - intros k. rewrite lookup_swap by done. repeat case_decide; done.
Qed.

Lemma le_at_swap v i j a b : i < length v -> j < length v ->
  let f k := if decide (k = i) then j else if decide (k = j) then i else k in
  le_at v (f a) (f b) -> le_at (swap i j v) a b.
Proof.
  intros Hi Hj f H x y. rewrite !lookup_swap by done. unfold f in H.
  repeat case_decide; apply H.
Qed.

Lemma parent_spec j : 0 < j -> j = 2 * parent j + 1 \/ j = 2 * parent j + 2.
Proof.
  intros Hj. unfold parent. pose proof (Nat.div_mod_eq (j - 1) 2).
  pose proof (Nat.mod_upper_bound (j - 1) 2 ltac:(done)). lia.
Qed.

Lemma sift_up_heap fuel i v : i <= fuel -> i < length v -> heap_but_up v i -> heap (sift_up fuel i v).
Proof.
  revert i v; induction fuel as [|fuel IH]; intros i v Hf Hl [H1 H2].
  { assert (i = 0) as -> by lia. intros j Hj. apply H1; lia. }
  destruct (decide (i = 0)) as [->|Hi0]; [intros j Hj; apply H1; lia|].
  pose proof (parent_spec i ltac:(lia)) as Hpi.
  destruct (lookup_lt_is_Some_2 v (parent i)) as [p Hp]; [lia|]. destruct (lookup_lt_is_Some_2 v i Hl) as [x Hx].
  assert (sift_up (S fuel) i v = if (key x <? key p)%Z then sift_up fuel (parent i) (swap (parent i) i v) else v) as ->.
  { destruct i; [done|]. simpl. by rewrite Hp, Hx. }
  destruct (key x <? key p)%Z eqn:E; bool_to_Z.
  - apply IH; [lia|rewrite length_swap; lia|]. split.
    + intros j Hj Hne. pose proof (parent_spec j Hj). apply le_at_swap; [lia..|]. simpl.
      repeat case_decide; try lia.
      * (* the edge above [i] *) intros a b Ha Hb. simplify_eq. lia.
      * (* the sibling of [i] *) intros a b Ha Hb. pose proof (H1 j Hj ltac:(lia) p b) as L.
        assert (a = x) as -> by congruence. assert (key p <= key b)%Z by (apply L; congruence). lia.
      * (* a child of [i] *) replace (parent j) with i by lia. apply H2; lia.
      * apply H1; lia.
    + intros c Hp0 Hc Hcp. pose proof (parent_spec c Hc). pose proof (parent_spec (parent i) Hp0).
      apply le_at_swap; [lia..|]. simpl. rewrite (decide_False (P := parent (parent i) = parent i)) by lia.
      rewrite (decide_False (P := parent (parent i) = i)) by lia.
      pose proof (H1 (parent i) Hp0 ltac:(lia)) as L1. repeat case_decide; try lia; [done|].
      intros a b Ha Hb. pose proof (L1 a p Ha Hp). pose proof (H1 c Hc ltac:(lia) p b) as L2.
      rewrite Hcp in L2. specialize (L2 Hp Hb). lia.
  - intros j Hj. destruct (decide (j = i)) as [->|]; [|apply H1; lia].
    intros a b Ha Hb. simplify_eq. lia.
Qed.

Lemma min_child_spec i v c y : min_child i v = Some (c, y) ->
  v !! c = Some y /\ (c = 2 * i + 1 \/ c = 2 * i + 2) /\
  (forall d z, 0 < d -> parent d = i -> v !! d = Some z -> (key y <= key z)%Z).
Proof.
  unfold min_child. intros H. destruct (v !! (2 * i + 1)) as [l|] eqn:Hl; [|done].
  assert (forall d z, 0 < d -> parent d = i -> v !! d = Some z -> z = l \/ v !! (2 * i + 2) = Some z) as Hd.
  { intros d z Hd Hp Hz. destruct (parent_spec d Hd) as [E|E]; rewrite Hp in E; subst d; [left; congruence|by right]. }
  destruct (v !! (2 * i + 2)) as [r|] eqn:Hr.
  - destruct (key r <? key l)%Z eqn:E; bool_to_Z; simplify_eq; (split; [done|]); (split; [auto|]);
      intros d z H0 Hp Hz; destruct (Hd d z H0 Hp Hz) as [->|?]; simplify_eq; lia.
  - simplify_eq. split; [done|]. split; [auto|]. intros d z H0 Hp Hz.
    destruct (Hd d z H0 Hp Hz) as [->|?]; [lia|done].
Qed.

Lemma min_child_None i v d : min_child i v = None -> 0 < d -> parent d = i -> v !! d = None.
Proof.
  unfold min_child. intros H Hd Hp. destruct (v !! (2 * i + 1)) as [l|] eqn:Hl.
  { by destruct (v !! (2 * i + 2)). }
  apply lookup_ge_None in Hl. apply lookup_ge_None. pose proof (parent_spec d Hd). lia.
Qed.

Lemma sift_down_step i c x y v :
  heap_but_down v i -> v !! i = Some x -> min_child i v = Some (c, y) -> (key y < key x)%Z ->
  heap_but_down (swap i c v) c.
Proof.
  intros [H1 H2] Hx Hc E. destruct (min_child_spec _ _ _ _ Hc) as (Hy & Hci & Hmin).
  pose proof (lookup_lt_Some _ _ _ Hx). pose proof (lookup_lt_Some _ _ _ Hy).
  pose proof (parent_spec c ltac:(lia)) as Hpc. split.
  - intros j Hj Hne. pose proof (parent_spec j Hj). apply le_at_swap; [lia..|]. simpl.
    repeat case_decide; try lia.
    + (* the child swapped up *) intros a b Ha Hb. simplify_eq. lia.
    + (* its sibling *) intros a b Ha Hb. simplify_eq. eapply (Hmin j); [lia|done|done].
    + (* the edge above [i] *) subst j. apply H2; lia.
    + apply H1; lia.
  - intros d _ Hd Hpd. pose proof (parent_spec d Hd). apply le_at_swap; [lia..|]. simpl.
    replace (parent c) with i by lia. rewrite decide_True by done. repeat case_decide; try lia.
    rewrite <- Hpd. apply H1; lia.
Qed.

Lemma sift_down_heap fuel i v : length v - i <= fuel -> heap_but_down v i -> heap (sift_down fuel i v).
Proof.
  revert i v; induction fuel as [|fuel IH]; intros i v Hf Hb; pose proof Hb as [H1 H2].
  - intros j Hj. destruct (decide (parent j = i)); [|by apply H1].
    intros a b Ha%lookup_lt_Some. simpl in Ha. exfalso. lia.
  - simpl. destruct (v !! i) as [x|] eqn:Hx.
    2:{ intros j Hj. destruct (decide (parent j = i)); [|by apply H1].
        intros a b Ha. congruence. }
    destruct (min_child i v) as [[c y]|] eqn:Hc.
    2:{ intros j Hj. destruct (decide (parent j = i)); [|by apply H1].
        intros a b _ Hb'. rewrite (min_child_None i v j) in Hb'; done. }
    destruct (min_child_spec _ _ _ _ Hc) as (Hy & Hci & Hmin). destruct (key y <? key x)%Z eqn:E; bool_to_Z.
    + apply IH; [rewrite length_swap; lia|]. by eapply sift_down_step.
    + intros j Hj. destruct (decide (parent j = i)) as [Ep|]; [|by apply H1].
      intros a b Ha Hb'. assert (a = x) as -> by congruence. pose proof (Hmin j b Hj Ep Hb'). lia.
Qed.

Lemma sift_up_perm fuel i v : i < length v -> sift_up fuel i v ≡ₚ v.
Proof.
  revert i v; induction fuel as [|fuel IH]; intros i v Hi; [done|]. simpl. destruct i as [|i']; [done|].
  pose proof (parent_spec (S i') ltac:(lia)).
  destruct (v !! parent (S i')) as [p|]; [|done]. destruct (v !! S i') as [x|]; [|done].
  destruct (key x <? key p)%Z; [|done]. rewrite IH by (rewrite length_swap; lia). apply swap_perm; lia.
Qed.

Lemma sift_down_perm fuel i v : sift_down fuel i v ≡ₚ v.
Proof.
  revert i v; induction fuel as [|fuel IH]; intros i v; [done|]. simpl.
  destruct (v !! i) as [x|] eqn:Hx; [|done]. destruct (min_child i v) as [[c y]|] eqn:Hc; [|done].
  destruct (key y <? key x)%Z; [|done]. rewrite IH. destruct (min_child_spec _ _ _ _ Hc) as (Hy & _).
  apply swap_perm; by eapply lookup_lt_Some.
Qed.

Lemma heap_le_top x v : heap (x :: v) -> forall i y, (x :: v) !! i = Some y -> (key x <= key y)%Z.
Proof.
  intros Hh i. induction (lt_wf i) as [i _ IH]. intros y Hy. destruct (decide (i = 0)) as [->|Hi].
  { simplify_eq/=. lia. }
  pose proof (parent_spec i ltac:(lia)). pose proof (lookup_lt_Some _ _ _ Hy).
  destruct (lookup_lt_is_Some_2 (x :: v) (parent i)) as [p Hp]; [lia|].
  pose proof (IH (parent i) ltac:(lia) p Hp). pose proof (Hh i ltac:(lia) p y Hp Hy). lia.
Qed.

Lemma push_spec v x : heap v -> push (v ++ [x]) ≡ₚ x :: v /\ heap (push (v ++ [x])).
Proof.
  intros Hh. unfold push. rewrite length_app. simpl. split.
  - rewrite sift_up_perm by (rewrite length_app; simpl; lia). symmetry. apply Permutation_cons_append.
  - apply sift_up_heap; [lia|rewrite length_app; simpl; lia|]. replace (length v + 1 - 1) with (length v) by lia. split.
    + intros j Hj Hne a b Ha Hb. pose proof (parent_spec j Hj). pose proof (lookup_lt_Some _ _ _ Hb) as Hl.
      rewrite length_app in Hl. simpl in Hl. rewrite lookup_app_l in Ha, Hb by lia. by apply (Hh j).
    + intros c _ Hc Hp a b _ Hb%lookup_lt_Some. rewrite length_app in Hb. simpl in Hb.
      pose proof (parent_spec c Hc). lia.
Qed.

Lemma pop_spec x v : heap (x :: v) -> exists w, pop (x :: v) = w ++ [x] /\ heap w /\ w ≡ₚ v.
Proof.
  intros Hh. unfold pop. destruct (last v) as [z|] eqn:Hz.
  2:{ apply last_None in Hz as ->. exists []. split; [done|]. split; [|done]. intros j _ a b Ha. done. }
  apply last_Some in Hz as [v' ->]. rewrite removelast_last.
  exists (sift_down (length (v' ++ [z])) 0 (z :: v')). split; [done|]. split.
  - apply sift_down_heap; [rewrite length_app; simpl; lia|]. split; [|intros c; lia].
    intros j Hj Hp a b Ha Hb. pose proof (parent_spec j Hj). pose proof (lookup_lt_Some _ _ _ Hb) as Hl. simpl in Hl.
    apply (Hh j Hj); (destruct j as [|j]; [lia|]); (destruct (parent (S j)) as [|pj] eqn:Ep; [done|]);
      simpl in *; (rewrite lookup_app_l by lia); done.
  - rewrite sift_down_perm. apply Permutation_cons_append.
Qed.

Lemma heap_empty : heap [].
Proof. intros j _ a b Ha. done. Qed.
End heap.

(** The binary heap meets the standard's contract. *)
#[export] Instance std_heap (A : Type) (key : A -> Z) : StdHeap A key.
Proof.
  refine {| is_heap := heap key; push_heap := push key; pop_heap := pop key |}.
  - apply heap_empty.
  - intros x v y Hh [i Hi]%list_elem_of_lookup. by apply (heap_le_top key x v Hh (S i)).
  - intros v x Hh. by apply push_spec.
  - intros v x Hh. by apply push_spec.
  - intros x v Hh. by apply pop_spec.
Defined.
End BinaryHeap.

Example binary_heap_sorts :
  let key := fun z : Z => z in let _ := BinaryHeap.std_heap Z key in
  let v := foldl pq_push [] [5; 3; 8; 1; 9; 2] in
  (head v, head (pq_pop v), head (pq_pop (pq_pop v))) = (Some 1, Some 2, Some 3).
Proof. vm_compute. reflexivity. Qed.
