(* ===== verification/TtlHeap.v ===== *)
(** The strategy-agnostic TTL index of detail/ttl_heap.hpp: the min-heap of
    (expiry, key) entries with lazy stale entries, the sweep with its deferred
    queue for pinned entries, and the mixin that gives an eviction strategy
    item-level expiry. *)

From Stdlib Require Import Sorted.
From S2P Require Import Prelude StdHeap.

(** Classification of a heap entry, supplied by the owning strategy. *)
Inductive probe_result := absent | stale | pinned | ready.

Record entry (Key : Type) := Entry { expiry_ns : Z; ekey : Key }.
Arguments Entry {Key} _ _.
Arguments expiry_ns {Key} _.
Arguments ekey {Key} _.

Record ttl_heap (Key : Type) := TtlHeap { heap_ : list (entry Key); deferred_ : list (entry Key) }.
Arguments TtlHeap {Key} _ _.
Arguments heap_ {Key} _.
Arguments deferred_ {Key} _.

(** * Operations *)

Section ops.
Context {Key : Type} `{HH : !StdHeap (entry Key) expiry_ns}.
(** The strategy the index belongs to: its state and the two callbacks. *)
Context {St : Type} (probe : St -> Key -> Z -> probe_result) (erase : St -> Key -> St).

Definition push (key : Key) (expiry : Z) (t : ttl_heap Key) : ttl_heap Key :=
  if expiry =? 0 then t else TtlHeap (pq_push (heap_ t) (Entry expiry key)) (deferred_ t).

(** The [while] loop of [sweep]; every iteration pops one entry, so the
    length of the heap is enough fuel. *)
Fixpoint sweep_loop (fuel : nat) (now_ns budget : Z) (st : St) (h d : list (entry Key)) (evicted : Z)
    : St * list (entry Key) * list (entry Key) * Z :=
  match fuel, h with
  | S fuel, top :: _ =>
      if negb (budget =? 0) && (budget <=? evicted) then (st, h, d, evicted)
      else if now_ns <? expiry_ns top then (st, h, d, evicted)
      else
        let h' := pq_pop h in
        match probe st (ekey top) (expiry_ns top) with
        | absent | stale => sweep_loop fuel now_ns budget st h' d evicted
        | pinned => sweep_loop fuel now_ns budget st h' (d ++ [top]) evicted
        | ready => sweep_loop fuel now_ns budget (erase st (ekey top)) h' d (evicted + 1)
        end
  | _, _ => (st, h, d, evicted)
  end.

Definition reinsert_deferred (h d : list (entry Key)) : ttl_heap Key :=
  TtlHeap (foldl pq_push h d) [].

Definition sweep (now_ns budget : Z) (st : St) (t : ttl_heap Key) : Z * St * ttl_heap Key :=
  let '(st', h, d, evicted) := sweep_loop (length (heap_ t)) now_ns budget st (heap_ t) [] 0 in
  (evicted, st', reinsert_deferred h d).

Definition needs_rebuild (live_items multiplier : Z) (t : ttl_heap Key) : bool :=
  u64 (multiplier * live_items) <? Z.of_nat (length (heap_ t)).

Definition clear (t : ttl_heap Key) : ttl_heap Key := TtlHeap [] [].

(** [rebuild(push_live)], the live items given as what [push_live] emits. *)
Definition rebuild (live : list (Key * Z)) (t : ttl_heap Key) : ttl_heap Key :=
  foldl (fun t '(k, e) => push k e t) (clear t) live.

Definition size_ (t : ttl_heap Key) : Z := Z.of_nat (length (heap_ t)).
Definition deferred_count (t : ttl_heap Key) : Z := Z.of_nat (length (deferred_ t)).

(** * What a sweep means *)

(** Handling a sequence of entries in order, without any heap: the strategy's
    final state, the entries found pinned, the number erased. *)
Fixpoint process (st : St) (l : list (entry Key)) : St * list (entry Key) * Z :=
  match l with
  | [] => (st, [], 0)
  | e :: l =>
      match probe st (ekey e) (expiry_ns e) with
      | absent | stale => process st l
      | pinned => let '(st', p, n) := process st l in (st', e :: p, n)
      | ready => let '(st', p, n) := process (erase st (ekey e)) l in (st', p, n + 1)
      end
  end.

Definition by_expiry (e f : entry Key) : Prop := expiry_ns e <= expiry_ns f.

Lemma process_nonneg st l : 0 <= (process st l).2.
Proof.
  revert st; induction l as [|e l IH]; intros st; simpl; [lia|].
  destruct (probe st (ekey e) (expiry_ns e)); [apply IH|apply IH| |].
  - specialize (IH st). by destruct (process st l) as [[? ?] ?].
  - specialize (IH (erase st (ekey e))). destruct (process _ l) as [[? ?] ?]. simpl in *. lia.
Qed.

Lemma foldl_pq_push h d : is_heap h -> is_heap (foldl pq_push h d) /\ foldl pq_push h d ≡ₚ h ++ d.
Proof.
  revert h; induction d as [|e d IH]; intros h Hh; simpl; [by rewrite app_nil_r|].
  destruct (IH (pq_push h e)) as [H1 H2]; [by apply pq_push_heap|]. split; [done|].
  rewrite H2, pq_push_perm by done. simpl. apply Permutation_middle.
Qed.

(** The loop handles the expired entries in expiry order, as [process] does,
    and stops only at its exit conditions. *)
Definition loop_post now budget st h d ev st' h' d' ev' : Prop :=
  exists l p n, h ≡ₚ l ++ h' /\ StronglySorted by_expiry l /\ Forall (fun e => expiry_ns e <= now) l /\
    (forall e f, e ∈ l -> f ∈ h' -> by_expiry e f) /\ process st l = (st', p, n) /\
    d' = d ++ p /\ ev' = ev + n /\ is_heap h' /\
    (0 < budget -> ev <= budget -> ev' <= budget) /\
    (budget = 0 \/ ev' < budget -> Forall (fun e => now < expiry_ns e) h').

Lemma loop_post_stop now budget st h d ev :
  is_heap h -> (budget = 0 \/ ev < budget -> Forall (fun e => now < expiry_ns e) h) ->
  loop_post now budget st h d ev st h d ev.
Proof.
  intros Hh Hs. exists [], [], 0. rewrite app_nil_r. simpl.
  split_and!; try done; try constructor; try lia. set_solver.
Qed.

(** One popped entry in front of what the rest of the loop does. *)
Lemma loop_post_pop now budget st top v d ev st1 p1 n1 st' h' d' ev' :
  is_heap (top :: v) -> expiry_ns top <= now ->
  (forall l, process st (top :: l) = let '(s, p, n) := process st1 l in (s, p1 ++ p, n + n1)) ->
  (0 < budget -> ev <= budget -> ev + n1 <= budget) ->
  loop_post now budget st1 (pq_pop (top :: v)) (d ++ p1) (ev + n1) st' h' d' ev' ->
  loop_post now budget st (top :: v) d ev st' h' d' ev'.
Proof.
  intros Hh Hnow Hp Hb (l & p & n & H1 & H2 & H3 & H4 & H5 & H6 & H7 & H8 & H9 & H10).
  destruct (pq_pop_spec _ _ Hh) as [_ Hpop]. rewrite Hpop in H1.
  exists (top :: l), (p1 ++ p), (n + n1). rewrite Hp, H5, H6, H7, app_assoc.
  split_and!; try done; try lia.
  - by rewrite H1.
  - constructor; [done|]. apply Forall_forall. intros f Hf. eapply heap_top; [done|]. rewrite H1. set_solver.
  - by constructor.
  - intros e f [->|He]%elem_of_cons Hf; [|by apply H4]. eapply heap_top; [done|]. rewrite H1. set_solver.
  - intros. apply H10. lia.
Qed.

Lemma sweep_loop_spec fuel now budget st h d ev st' h' d' ev' :
  is_heap h -> (length h <= fuel)%nat ->
  sweep_loop fuel now budget st h d ev = (st', h', d', ev') ->
  loop_post now budget st h d ev st' h' d' ev'.
Proof.
  revert st h d ev; induction fuel as [|fuel IH]; intros st h d ev Hh Hf Hs;
    (destruct h as [|top v]; [simpl in Hs; simplify_eq; apply loop_post_stop; [done|by constructor]|]).
  { simpl in Hf. lia. }
  cbn [sweep_loop] in Hs. simpl in Hf. destruct (negb (budget =? 0) && (budget <=? ev)) eqn:Eb.
  { simplify_eq. apply loop_post_stop; [done|]. bool_to_Z. lia. }
  destruct (now <? expiry_ns top) eqn:En.
  { simplify_eq. apply loop_post_stop; [done|]. intros _. bool_to_Z. apply Forall_forall. intros e He.
    pose proof (heap_top_all _ _ _ Hh He). lia. }
  pose proof (pq_pop_spec _ _ Hh) as [Hh' _]. pose proof (pq_pop_length _ _ Hh) as Hl.
  apply andb_false_iff in Eb. rewrite negb_false_iff, Z.eqb_eq, Z.leb_gt in Eb. bool_to_Z.
  destruct (probe st (ekey top) (expiry_ns top)) eqn:Epr.
  1,2: apply (loop_post_pop _ _ _ _ _ _ _ st [] 0); rewrite ?app_nil_r, ?Z.add_0_r; auto with lia;
    intros l; simpl; rewrite Epr; destruct (process st l) as [[??]?]; by rewrite Z.add_0_r.
  - apply (loop_post_pop _ _ _ _ _ _ _ st [top] 0); rewrite ?Z.add_0_r; auto with lia.
    intros l; simpl; rewrite Epr; destruct (process st l) as [[??]?]; by rewrite Z.add_0_r.
  - apply (loop_post_pop _ _ _ _ _ _ _ (erase st (ekey top)) [] 1); rewrite ?app_nil_r; auto with lia.
    intros l; simpl; by rewrite Epr.
Qed.
End ops.

(** * The mixin *)

(** What an eviction strategy supplies to the mixin ([ttl_probe_entry],
    [ttl_erase_expired], [ttl_live_count], [ttl_for_each_live]) and what the
    mixin relies on, stated on the strategy's live items: a map from each
    resident key to its expiry and whether a handle pins it. [strategy_ok] is
    the strategy's own invariant, which an erase keeps. *)
Class TtlStrategy (Key St : Type) `{Countable Key} := {
  strategy_ok : St -> Prop;
  live_items : St -> gmap Key (Z * bool);
  ttl_probe_entry : St -> Key -> Z -> probe_result;
  ttl_erase_expired : St -> Key -> St;
  ttl_live_count : St -> Z;
  ttl_for_each_live : St -> list (Key * Z);
  probe_law : forall st k e, strategy_ok st ->
    ttl_probe_entry st k e =
      match live_items st !! k with
      | None => absent
      | Some (x, p) => if decide (x = e) then (if p : bool then pinned else ready) else stale
      end;
  erase_law : forall st k e, strategy_ok st -> live_items st !! k = Some (e, false) ->
    strategy_ok (ttl_erase_expired st k) /\ live_items (ttl_erase_expired st k) = delete k (live_items st);
  for_each_live_law : forall st k e, strategy_ok st ->
    (k, e) ∈ ttl_for_each_live st <-> e <> 0 /\ exists p, live_items st !! k = Some (e, p);
  live_count_law : forall st, strategy_ok st -> Z.of_nat (length (ttl_for_each_live st)) <= ttl_live_count st
}.

Definition kMaxTtlHeapMultiplier : Z := 4.

Section mixin.
Context {Key St : Type} `{Countable Key} {HH : StdHeap (entry Key) expiry_ns} {TS : TtlStrategy Key St}.
Implicit Types (st : St) (t : ttl_heap Key).

Definition ttl_index_rebuild (st : St) (t : ttl_heap Key) : ttl_heap Key :=
  rebuild (ttl_for_each_live st) t.

Definition ttl_index_push (st : St) (key : Key) (expiry : Z) (t : ttl_heap Key) : ttl_heap Key :=
  let t := push key expiry t in
  if needs_rebuild (ttl_live_count st) kMaxTtlHeapMultiplier t then ttl_index_rebuild st t else t.

Definition ttl_index_clear (t : ttl_heap Key) : ttl_heap Key := clear t.

(** [now_ns] is the reading of the steady clock. *)
Definition ttl_index_sweep (now_ns budget : Z) (st : St) (t : ttl_heap Key) : Z * St * ttl_heap Key :=
  sweep ttl_probe_entry ttl_erase_expired now_ns budget st t.

Definition evict_expired (now_ns : Z) (st : St) (t : ttl_heap Key) : Z * St * ttl_heap Key :=
  ttl_index_sweep now_ns 0 st t.

Definition evict_expired_n (now_ns batch_size : Z) (st : St) (t : ttl_heap Key) : Z * St * ttl_heap Key :=
  if batch_size =? 0 then evict_expired now_ns st t else ttl_index_sweep now_ns batch_size st t.

(** ** The index invariant *)

(** The heap is in heap order, holds no zero expiry, and has an entry for
    every live item that carries an expiry. *)
Record index_ok (st : St) (t : ttl_heap Key) : Prop := {
  index_strategy : strategy_ok st;
  index_heap : is_heap (heap_ t);
  index_nonzero : forall e, e ∈ heap_ t -> expiry_ns e <> 0;
  index_complete : forall k x p, live_items st !! k = Some (x, p) -> x <> 0 -> Entry x k ∈ heap_ t
}.

(** An item the sweep is to remove. *)
Definition expired_unpinned (now : Z) (st : St) (k : Key) (e : Z) : Prop :=
  live_items st !! k = Some (e, false) /\ e <> 0 /\ e <= now.

(** The keys a list of entries makes ready. *)
Definition ready_set (m : gmap Key (Z * bool)) (l : list (entry Key)) : gset Key :=
  list_to_set (ekey <$> filter (fun e => m !! ekey e = Some (expiry_ns e, false)) l).

Lemma elem_of_ready_set m l k :
  k ∈ ready_set m l <-> exists e, Entry e k ∈ l /\ m !! k = Some (e, false).
Proof.
  unfold ready_set. rewrite elem_of_list_to_set, list_elem_of_fmap. split.
  - intros ([e k'] & -> & [Hm Hl]%list_elem_of_filter). eauto.
  - intros (e & Hl & Hm). exists (Entry e k). split; [done|]. by apply list_elem_of_filter.
Qed.

Lemma ready_set_delete m l k : ready_set (delete k m) l = ready_set m l ∖ {[k]}.
Proof.
  apply set_eq. intros k'. rewrite elem_of_difference, !elem_of_ready_set, elem_of_singleton.
  destruct (decide (k = k')) as [->|Hne]; [rewrite lookup_delete_eq|rewrite lookup_delete_ne by done]; naive_solver.
Qed.

Lemma ready_set_cons m e l :
  ready_set m (e :: l) =
    (if decide (m !! ekey e = Some (expiry_ns e, false)) then {[ekey e]} else ∅) ∪ ready_set m l.
Proof. unfold ready_set. rewrite filter_cons. case_decide; simpl; set_solver. Qed.

(** What handling a list of entries does to the live items. *)
Lemma process_live st l st' p n :
  strategy_ok st -> process ttl_probe_entry ttl_erase_expired st l = (st', p, n) ->
  let V := ready_set (live_items st) l in
  strategy_ok st' /\ n = Z.of_nat (size V) /\
  (forall k, live_items st' !! k = if decide (k ∈ V) then None else live_items st !! k) /\
  (forall e, e ∈ p <-> e ∈ l /\ live_items st !! ekey e = Some (expiry_ns e, true)).
Proof.
  revert st st' p n; induction l as [|e l IH]; intros st st' p n Hst Hp; simpl in Hp.
  { simplify_eq. change (ready_set (live_items st') []) with (∅ : gset Key).
    split_and!; [done|by rewrite size_empty| |set_solver]. intros k. by rewrite decide_False by set_solver. }
  rewrite ready_set_cons. destruct e as [x k0]. cbn [ekey expiry_ns] in *. rewrite probe_law in Hp by done.
  destruct (live_items st !! k0) as [[x' pin]|] eqn:Em.
  2:{ rewrite decide_False by done. rewrite (left_id_L ∅ _). destruct (IH _ _ _ _ Hst Hp) as (Hst' & -> & H2 & H3).
      split_and!; [done|done|done|]. intros e. rewrite H3, elem_of_cons. split; [tauto|]. intros [[->|] ?]; [|done].
      simpl in *. congruence. }
  destruct (decide (x' = x)) as [->|Hx].
  2:{ rewrite decide_False by congruence. rewrite (left_id_L ∅ _). destruct (IH _ _ _ _ Hst Hp) as (Hst' & -> & H2 & H3).
      split_and!; [done|done|done|]. intros e. rewrite H3, elem_of_cons. split; [tauto|]. intros [[->|] ?]; [|done].
      simpl in *. congruence. }
  destruct pin.
  - rewrite decide_False by congruence. rewrite (left_id_L ∅ _).
    destruct (process _ _ st l) as [[s1 p1] n1] eqn:El. simplify_eq.
    destruct (IH _ _ _ _ Hst El) as (Hst' & -> & H2 & H3). split_and!; [done|done|done|].
    intros e. rewrite !elem_of_cons, H3. split; [|tauto]. intros [->|?]; [|tauto]. simpl. tauto.
  - rewrite decide_True by done.
    destruct (process _ _ (ttl_erase_expired st k0) l) as [[s1 p1] n1] eqn:El. simplify_eq.
    destruct (erase_law _ _ _ Hst Em) as [Hst1 Hd].
    destruct (IH _ _ _ _ Hst1 El) as (Hst' & -> & H2 & H3).
    rewrite Hd in *. rewrite ready_set_delete in *. split_and!.
    + done.
    + pose proof (size_union_alt (C := gset Key) {[k0]} (ready_set (live_items st) l)) as ->.
      rewrite size_singleton. lia.
    + intros k. rewrite H2. destruct (decide (k = k0)) as [->|Hne].
      * rewrite lookup_delete_eq. rewrite (decide_True (P := k0 ∈ {[k0]} ∪ _)) by set_solver. by case_decide.
      * rewrite lookup_delete_ne by done. do 2 case_decide; set_solver.
    + intros e. rewrite H3, elem_of_cons. destruct e as [x2 k2]. cbn [ekey expiry_ns].
      destruct (decide (k0 = k2)) as [->|Hne].
      * rewrite lookup_delete_eq, Em. naive_solver.
      * rewrite lookup_delete_ne by done. naive_solver.
Qed.

(** What a sweep removes: the set [V] of [n] keys. *)
Definition sweep_post (now budget : Z) st t (n : Z) st' t' : Prop :=
  exists V : gset Key, n = Z.of_nat (size V) /\
    (forall k, live_items st' !! k = if decide (k ∈ V) then None else live_items st !! k) /\
    (forall k, k ∈ V -> exists e, expired_unpinned now st k e) /\
    (forall k e k' e', k ∈ V -> expired_unpinned now st k e -> k' ∉ V -> expired_unpinned now st k' e' -> e <= e') /\
    (budget <> 0 -> n <= budget) /\
    (budget = 0 \/ n < budget -> forall k e, expired_unpinned now st k e -> k ∈ V) /\
    index_ok st' t' /\ deferred_ t' = [].

Lemma ttl_index_sweep_spec now budget st t n st' t' :
  0 <= budget -> index_ok st t ->
  ttl_index_sweep now budget st t = (n, st', t') -> sweep_post now budget st t n st' t'.
Proof.
  intros Hb [Hst Hh Hnz Hc] Hs. unfold ttl_index_sweep, sweep in Hs.
  destruct (sweep_loop _ _ _ _ _ _ _ _ _) as [[[st1 h] d] ev] eqn:El. simplify_eq.
  destruct (sweep_loop_spec _ _ _ _ _ _ _ _ _ _ _ _ _ Hh (le_n _) El)
    as (l & p & m & Hperm & _ & Hnow & Hord & Hp & -> & -> & Hh' & Hbud & Hall).
  destruct (process_live _ _ _ _ _ Hst Hp) as (Hst' & -> & Hl & Hpin).
  assert (forall e, e ∈ l -> expiry_ns e <> 0 /\ expiry_ns e <= now) as Hl0.
  { intros e He. split; [apply Hnz; rewrite Hperm; set_solver|]. by eapply Forall_forall in Hnow. }
  exists (ready_set (live_items st) l). rewrite Z.add_0_l in *. split; [done|]. split; [done|]. split.
  { intros k (e & He & Hm)%elem_of_ready_set. exists e. destruct (Hl0 _ He). done. }
  assert (forall k e, expired_unpinned now st k e -> k ∈ ready_set (live_items st) l \/ Entry e k ∈ h) as Hx.
  { intros k e (Hm & H0 & Hn). pose proof (Hc k e false Hm H0) as He. rewrite Hperm in He.
    apply elem_of_app in He as [He|He]; [left|by right]. apply elem_of_ready_set. eauto. }
  split.
  { intros k e k' e' (x & Hx1 & Hx2)%elem_of_ready_set (Hm & _) Hk' He'. assert (x = e) as -> by congruence.
    destruct (Hx k' e' He') as [|Hin]; [done|]. apply (Hord _ _ Hx1 Hin). }
  split; [intros; apply Hbud; lia|]. split.
  { intros Hdone k e He. destruct (Hx k e He) as [|Hin]; [done|].
    specialize (Hall Hdone). eapply Forall_forall in Hall; [|done]. destruct He as (_ & _ & ?). simpl in Hall. lia. }
  split; [|done]. destruct (foldl_pq_push h p Hh') as [Hf1 Hf2]. split; simpl; [done|done| |].
  - intros e. rewrite Hf2. intros [He|He]%elem_of_app; [apply Hnz; rewrite Hperm; set_solver|].
    apply Hpin in He as [He _]. by apply Hl0.
  - intros k x pin. rewrite Hl. case_decide as HV; [done|]. intros Hm H0. rewrite Hf2.
    pose proof (Hc k x pin Hm H0) as He. rewrite Hperm in He. apply elem_of_app in He as [He|He]; [|set_solver].
    apply elem_of_app. right. apply Hpin. split; [done|]. destruct pin; [done|].
    exfalso. apply HV, elem_of_ready_set. eauto.
Qed.

Lemma push_ok st st' k e t :
  index_ok st t -> strategy_ok st' -> (forall k' x p, live_items st' !! k' = Some (x, p) -> x <> 0 -> (k' = k /\ x = e) \/ exists p', live_items st !! k' = Some (x, p')) ->
  index_ok st' (push k e t).
Proof.
  intros [_ Hh Hnz Hc] Hst Hl. unfold push. destruct (e =? 0) eqn:E; bool_to_Z.
  - split; [done|done|done|]. intros k' x p Hm Hx. destruct (Hl _ _ _ Hm Hx) as [[-> ->]|[p' Hm']]; [done|eauto].
  - split; cbn [heap_]; [done|by apply pq_push_heap| |]; setoid_rewrite pq_push_perm; try done.
    + intros f [->|?]%elem_of_cons; [done|eauto].
    + intros k' x p Hm Hx. apply elem_of_cons. destruct (Hl _ _ _ Hm Hx) as [[-> ->]|[p' Hm']]; [by left|right; eauto].
Qed.

Lemma foldl_push_spec l t : is_heap (heap_ t) ->
  let t' := foldl (fun t '(k, e) => push k e t) t l in
  is_heap (heap_ t') /\
  heap_ t' ≡ₚ heap_ t ++ ((fun '(k, e) => Entry e k) <$> filter (fun '(k, e) => e <> 0) l).
Proof.
  revert t; induction l as [|[k e] l IH]; intros t Hh; simpl; [by rewrite app_nil_r|].
  rewrite filter_cons. unfold push at 2 4. destruct (e =? 0) eqn:E; bool_to_Z.
  - rewrite decide_False by tauto. by apply IH.
  - rewrite decide_True by done. destruct (IH (TtlHeap (pq_push (heap_ t) (Entry e k)) (deferred_ t))) as [H1 H2];
      [by apply pq_push_heap|]. split; [done|]. rewrite H2. simpl. rewrite pq_push_perm by done.
    simpl. apply Permutation_middle.
Qed.

Lemma ttl_index_rebuild_spec st t :
  strategy_ok st ->
  index_ok st (ttl_index_rebuild st t) /\ size_ (ttl_index_rebuild st t) <= ttl_live_count st.
Proof.
  intros Hst. destruct (foldl_push_spec (ttl_for_each_live st) (clear t) heap_nil) as [H1 H2].
  unfold ttl_index_rebuild, rebuild. simpl in H2. split; [split; [done|done| |]|].
  - intros e. rewrite H2, list_elem_of_fmap. intros ([k x] & -> & [Hx _]%list_elem_of_filter). done.
  - intros k x p Hm Hx. rewrite H2, list_elem_of_fmap. exists (k, x). split; [done|].
    apply list_elem_of_filter. split; [done|]. apply for_each_live_law; eauto.
  - unfold size_. rewrite H2, length_fmap. pose proof (live_count_law st Hst).
    pose proof (length_filter (fun '(k, e) => e <> 0) (ttl_for_each_live st)). lia.
Qed.

Lemma ttl_index_push_spec st st' k e t :
  index_ok st t -> strategy_ok st' -> (forall k' x p, live_items st' !! k' = Some (x, p) -> x <> 0 -> (k' = k /\ x = e) \/ exists p', live_items st !! k' = Some (x, p')) ->
  0 <= ttl_live_count st' < 2 ^ 62 ->
  index_ok st' (ttl_index_push st' k e t) /\
  size_ (ttl_index_push st' k e t) <= kMaxTtlHeapMultiplier * ttl_live_count st'.
Proof.
  intros Hok Hst Hl Hb. unfold ttl_index_push. destruct (needs_rebuild _ _ _) eqn:E.
  - destruct (ttl_index_rebuild_spec st' (push k e t) Hst). unfold kMaxTtlHeapMultiplier. split; [done|lia].
  - split; [by eapply push_ok|]. unfold needs_rebuild, kMaxTtlHeapMultiplier in E.
    rewrite wrap_small in E by lia. unfold size_, kMaxTtlHeapMultiplier. bool_to_Z. lia.
Qed.
End mixin.

(** * A strategy that is just its map *)

Module MapStrategy.
Definition st := gmap Z (Z * bool).

Definition probe (m : st) (k e : Z) : probe_result :=
  match m !! k with
  | None => absent
  | Some (x, p) => if decide (x = e) then (if p : bool then pinned else ready) else stale
  end.

Definition live (m : st) : list (Z * Z) :=
  (fun '(k, (e, _)) => (k, e)) <$> filter (fun '(_, (e, _)) => e <> 0) (map_to_list m).

#[export] Instance map_strategy : TtlStrategy Z st.
Proof.
  refine {| strategy_ok := fun _ => True; live_items := fun m => m; ttl_probe_entry := probe; ttl_erase_expired := fun m k => delete k m;
            ttl_live_count := fun m => Z.of_nat (size m); ttl_for_each_live := live |}; [done|done| |].
  - intros m k e _. unfold live. rewrite list_elem_of_fmap. split.
    + intros ([k' [e' p]] & ? & [He Hm]%list_elem_of_filter). apply elem_of_map_to_list in Hm. naive_solver.
    + intros (He & p & Hm). exists (k, (e, p)). split; [done|]. apply list_elem_of_filter.
      split; [done|]. by apply elem_of_map_to_list.
  - intros m _. unfold live. rewrite length_fmap. apply Nat2Z.inj_le. etrans; [apply length_filter|].
    apply Nat.eq_le_incl, (length_map_to_list (M := gmap Z)).
Defined.
End MapStrategy.

(** * Claims *)

(** For every strategy that meets the mixin's contract, one call of
    [evict_expired_n(batch)] (and [evict_expired], the batch 0) on a complete
    index removes exactly [n] keys, all of them expired and unpinned, and
    returns [n]; every other item, pinned ones included, is untouched; no
    removed item expires later than an expired item left behind; at most
    [batch] are removed, and unless the batch is used up no expired unpinned
    item remains, however many pinned or stale entries sit in front of it; the
    index is again complete, with nothing left in the deferred queue. *)
Theorem evict_expired_n_correct {Key St : Type} `{Countable Key} {HH : StdHeap (entry Key) expiry_ns}
    {TS : TtlStrategy Key St} (now batch : Z) (st : St) (t : ttl_heap Key) n st' t' :
  0 <= batch -> index_ok st t ->
  evict_expired_n now batch st t = (n, st', t') ->
  sweep_post now batch st t n st' t'.
Proof.
  intros Hb Hok. unfold evict_expired_n, evict_expired. destruct (batch =? 0) eqn:E; bool_to_Z; [subst|];
    apply ttl_index_sweep_spec; done.
Qed.

Module TtlExample.
Import MapStrategy.
#[export] Existing Instance BinaryHeap.std_heap.

(** Keys 1 (pinned), 2 and 3 expired at 100, 4 due at 200; key 2 was
    refreshed and left a stale entry. *)
Definition items : st :=
  list_to_map [(1, (5, true)); (2, (30, false)); (3, (40, false)); (4, (200, false)); (5, (0, false))].

Definition index : ttl_heap Z :=
  foldl (fun t '(k, e) => push k e t) (TtlHeap [] []) [(3, 40); (2, 10); (4, 200); (1, 5); (2, 30)].

Lemma items_index_ok : index_ok items index.
Proof.
  destruct (foldl_push_spec [(3, 40); (2, 10); (4, 200); (1, 5); (2, 30)] (TtlHeap [] []) heap_nil) as [Hh Hp].
  cbn [heap_] in Hp. rewrite app_nil_l in Hp. split; [exact I|exact Hh| |].
  - intros e. unfold index. rewrite Hp, list_elem_of_fmap. intros ([k x] & -> & [Hx _]%list_elem_of_filter). done.
  - intros k x p Hm Hx. unfold index. rewrite Hp, list_elem_of_fmap. exists (k, x). split; [done|].
    apply list_elem_of_filter. split; [done|]. apply elem_of_list_to_map_2 in Hm. set_unfold. intuition congruence.
Qed.
End TtlExample.

Import MapStrategy TtlExample.

Lemma evict_expired_n_correct_witness :
  let r := evict_expired_n 100 1 TtlExample.items TtlExample.index in
  r.1.1 = 1 /\ r.1.2 !! 2 = None /\ r.1.2 !! 3 = Some (40, false) /\
  sweep_post 100 1 TtlExample.items TtlExample.index r.1.1 r.1.2 r.2.
Proof.
  split_and!; [vm_compute; reflexivity..|].
  destruct (evict_expired_n 100 1 TtlExample.items TtlExample.index) as [[n st'] t'] eqn:E.
  exact (evict_expired_n_correct 100 1 TtlExample.items TtlExample.index n st' t' ltac:(lia) TtlExample.items_index_ok E).
Defined.

(** Recording a key's expiry keeps the index complete for the strategy's
    new live items (those it had, and the key with its new expiry), and never
    lets the index hold more than [kMaxTtlHeapMultiplier] entries per live
    item, whichever way the rebuild test goes. *)
Theorem ttl_index_push_bounded {Key St : Type} `{Countable Key} {HH : StdHeap (entry Key) expiry_ns}
    {TS : TtlStrategy Key St} (st st' : St) (k : Key) (e : Z) (t : ttl_heap Key) :
  index_ok st t -> strategy_ok st' ->
  (forall k' x p, live_items st' !! k' = Some (x, p) -> x <> 0 ->
     (k' = k /\ x = e) \/ exists p', live_items st !! k' = Some (x, p')) ->
  0 <= ttl_live_count st' < 2 ^ 62 ->
  index_ok st' (ttl_index_push st' k e t) /\
  size_ (ttl_index_push st' k e t) <= kMaxTtlHeapMultiplier * ttl_live_count st'.
Proof. apply ttl_index_push_spec. Qed.

Lemma ttl_index_push_bounded_witness :
  let st' := <[3 := (60, false)]> TtlExample.items in
  index_ok st' (ttl_index_push st' 3 60 TtlExample.index) /\
  size_ (ttl_index_push st' 3 60 TtlExample.index) <= kMaxTtlHeapMultiplier * ttl_live_count st'.
Proof.
  refine (ttl_index_push_bounded TtlExample.items _ 3 60 TtlExample.index TtlExample.items_index_ok I _ _).
  - intros k' x p Hm Hx. simpl in Hm. apply lookup_insert_Some in Hm as [[<- [= <- <-]]|[_ Hm]]; [by left|].
    right. by exists p.
  - vm_compute. split; [discriminate|reflexivity].
Defined.
