(* ===== verification/SpaceSaving.v ===== *)
(** The streaming top-K tracker of detail/space_saving.hpp: the counter map
    with its lazily refreshed min-heap, and the guarantees of the Space-Saving
    algorithm for every stream of observations. *)

From Stdlib Require Import Sorted.
From S2P Require Import Prelude StdHeap.

Section space_saving.
Context {Key : Type} `{Countable Key} {HH : StdHeap (Z * Key) fst}.

(** [ankerl::unordered_dense::map] as a finite map, with the order of its
    iteration left open: any enumeration of its entries. *)
Context (map_order : gmap Key Z -> list (Key * Z)).
Hypothesis map_order_perm : forall m, map_order m ≡ₚ map_to_list m.

Record space_saving_top_k := SpaceSavingTopK {
  capacity_ : Z;
  total_ : Z;
  map_ : gmap Key Z;
  heap_ : list (Z * Key)
}.

(** ** Operations *)

Definition space_saving_new (capacity : Z) : space_saving_top_k :=
  SpaceSavingTopK (if capacity =? 0 then 1 else capacity) 0 ∅ [].

(** The loop that pops the heap until its top is current; every iteration
    removes one stale entry. *)
Fixpoint find_min (fuel : nat) (m : gmap Key Z) (h : list (Z * Key)) : option (Z * Key) * list (Z * Key) :=
  match fuel, h with
  | S fuel, (top_count, top_key) :: _ =>
      match m !! top_key with
      | None => find_min fuel m (pq_pop h)
      | Some c =>
          if c =? top_count then (Some (top_count, top_key), h)
          else find_min fuel m (pq_push (pq_pop h) (c, top_key))
      end
  | _, _ => (None, h)
  end.

(** [std::min_element] by count: the first minimum. *)
Fixpoint min_element (l : list (Key * Z)) : option (Key * Z) :=
  match l with
  | [] => None
  | x :: l =>
      match min_element l with
      | None => Some x
      | Some y => if y.2 <? x.2 then Some y else Some x
      end
  end.

Definition rebuild_heap (m : gmap Key Z) : list (Z * Key) :=
  foldl (fun h '(k, c) => pq_push h (c, k)) [] (map_order m).

(** [None] is the dereference of [end()] in the defensive fallback. *)
Definition add (key : Key) (count : Z) (s : space_saving_top_k) : option space_saving_top_k :=
  let total := u64 (total_ s + count) in
  let m := map_ s in
  match m !! key with
  | Some c => Some (SpaceSavingTopK (capacity_ s) total (<[key := u64 (c + count)]> m) (heap_ s))
  | None =>
      if Z.of_nat (size m) <? capacity_ s then
        Some (SpaceSavingTopK (capacity_ s) total (<[key := count]> m) (pq_push (heap_ s) (count, key)))
      else
        let '(found, h) := find_min (S (length (heap_ s))) m (heap_ s) in
        match (match found with
               | Some (c, k) => Some (c, k, pq_pop h)
               | None => '(k, c) ← min_element (map_order m); Some (c, k, h)
               end) with
        | None => None
        | Some (min_count, min_key, h) =>
            let new_count := u64 (min_count + count) in
            let m := <[key := new_count]> (delete min_key m) in
            let h := pq_push h (new_count, key) in
            let h := if u64 (capacity_ s * 4) <? Z.of_nat (length h) then rebuild_heap m else h in
            Some (SpaceSavingTopK (capacity_ s) total m h)
        end
  end.

Definition add1 (key : Key) : space_saving_top_k -> option space_saving_top_k := add key 1.

Definition reset (s : space_saving_top_k) : space_saving_top_k := SpaceSavingTopK (capacity_ s) 0 ∅ [].

Definition error_bound (s : space_saving_top_k) : Z := if 0 <? capacity_ s then total_ s / capacity_ s else 0.

(** A stream of observations. *)
Definition run (s : space_saving_top_k) (l : list (Key * Z)) : option space_saving_top_k :=
  foldl (fun o '(k, c) => o ≫= add k c) (Some s) l.

(** ** The stream's true counts *)

Definition freq (k : Key) (l : list (Key * Z)) : Z :=
  foldr (fun '(k', c) n => if decide (k = k') then c + n else n) 0 l.

Definition volume (l : list (Key * Z)) : Z := foldr (fun '(_, c) n => c + n) 0 l.

Definition map_sum (m : gmap Key Z) : Z := map_fold (fun _ c n => c + n) 0 m.

Lemma map_sum_insert m k c : m !! k = None -> map_sum (<[k := c]> m) = c + map_sum m.
Proof. intros. unfold map_sum. rewrite map_fold_insert_L; [done|lia|done]. Qed.

Lemma map_sum_delete m k c : m !! k = Some c -> map_sum m = c + map_sum (delete k m).
Proof. intros. unfold map_sum. rewrite (map_fold_delete_L _ _ k c m); [done|lia|done]. Qed.

Lemma map_sum_update m k c d : m !! k = Some c -> map_sum (<[k := c + d]> m) = map_sum m + d.
Proof.
  intros Hk. rewrite (map_sum_delete m k c Hk), <- insert_delete_eq, map_sum_insert; [lia|apply lookup_delete_eq].
Qed.

Lemma map_sum_lower m c : (forall k x, m !! k = Some x -> c <= x) -> c * Z.of_nat (size m) <= map_sum m.
Proof.
  induction m as [|k x m Hk IH] using map_ind; intros Hc.
  - unfold map_sum. rewrite map_fold_empty, map_size_empty. lia.
  - rewrite map_sum_insert, map_size_insert_None by done. pose proof (Hc k x (lookup_insert_eq _ _ _)).
    assert (c * Z.of_nat (size m) <= map_sum m); [|lia]. apply IH. intros k' x' Hm.
    apply (Hc k'). rewrite lookup_insert_ne; [done|]. congruence.
Qed.

(** ** The heap invariant *)

(** One heap entry per tracked key, never ahead of the key's count. *)
Record heap_ok (m : gmap Key Z) (h : list (Z * Key)) : Prop := {
  ho_heap : is_heap h;
  ho_keys : h.*2 ≡ₚ (map_to_list m).*1;
  ho_le : forall c k, (c, k) ∈ h -> exists c', m !! k = Some c' /\ c <= c'
}.

Lemma heap_ok_entry m h k c : heap_ok m h -> m !! k = Some c -> exists c0, (c0, k) ∈ h /\ c0 <= c.
Proof.
  intros [_ Hk Hle] Hm. assert (k ∈ h.*2) as Hin.
  { rewrite Hk. apply list_elem_of_fmap. exists (k, c). split; [done|]. by apply elem_of_map_to_list. }
  apply list_elem_of_fmap in Hin as ([c0 k0] & -> & Hin). exists c0. split; [done|].
  destruct (Hle _ _ Hin) as (c' & Hc & ?). simpl in *. congruence.
Qed.

Lemma heap_ok_pop m c k h : heap_ok m ((c, k) :: h) -> heap_ok (delete k m) (pq_pop ((c, k) :: h)).
Proof.
  intros Hok. pose proof Hok as [Hh Hk Hle]. destruct (pq_pop_spec _ _ Hh) as [Hh' Hp].
  destruct (Hle c k ltac:(set_solver)) as (c' & Hm & _).
  assert (NoDup (k :: h.*2)) as Hnd by (change (k :: h.*2) with (((c, k) :: h).*2); rewrite Hk; apply NoDup_fst_map_to_list).
  apply NoDup_cons in Hnd as [Hni _]. split; [done| |].
  - rewrite Hp. rewrite <- (map_to_list_delete m k c' Hm) in Hk. simpl in Hk. by apply Permutation_cons_inv in Hk.
  - intros c0 k0. rewrite Hp. intros Hin. assert (k0 <> k).
    { intros ->. apply Hni. apply list_elem_of_fmap. by exists (c0, k). }
    rewrite lookup_delete_ne by done. apply Hle. by right.
Qed.

Lemma heap_ok_push m k c h : heap_ok m h -> m !! k = None -> heap_ok (<[k := c]> m) (pq_push h (c, k)).
Proof.
  intros [Hh Hk Hle] Hm. split; [by apply pq_push_heap| |].
  - rewrite pq_push_perm, map_to_list_insert by done. simpl. by rewrite Hk.
  - intros c0 k0. rewrite pq_push_perm by done. intros [[= -> ->]|Hin]%elem_of_cons.
    + exists c. rewrite lookup_insert_eq. split; [done|lia].
    + destruct (Hle _ _ Hin) as (c' & Hc & ?). exists c'. rewrite lookup_insert_ne; [done|congruence].
Qed.

Lemma heap_ok_incr m k c d h : heap_ok m h -> m !! k = Some c -> 0 <= d -> heap_ok (<[k := c + d]> m) h.
Proof.
  intros [Hh Hk Hle] Hm Hd. split; [done| |].
  - rewrite Hk. pose proof (map_to_list_delete m k c Hm) as <-.
    rewrite <- insert_delete_eq, map_to_list_insert by apply lookup_delete_eq. done.
  - intros c0 k0 Hin. destruct (Hle _ _ Hin) as (c' & Hc & Hc0).
    destruct (decide (k = k0)) as [->|Hne]; [|rewrite lookup_insert_ne by done; eauto].
    rewrite lookup_insert_eq. exists (c + d). split; [done|]. assert (c' = c) by congruence. lia.
Qed.

(** ** The minimum search *)

Definition is_stale (m : gmap Key Z) (e : Z * Key) : Prop := m !! e.2 <> Some e.1.
#[local] Instance is_stale_dec m e : Decision (is_stale m e).
Proof. unfold is_stale. apply _. Defined.

Definition stale_count (m : gmap Key Z) (h : list (Z * Key)) : nat := length (filter (is_stale m) h).

Lemma stale_count_perm m h h' : h ≡ₚ h' -> stale_count m h = stale_count m h'.
Proof. intros Hp. unfold stale_count. by rewrite Hp. Qed.

Lemma find_min_spec fuel m h :
  heap_ok m h -> m <> ∅ -> (stale_count m h < fuel)%nat ->
  exists c k h', find_min fuel m h = (Some (c, k), (c, k) :: h') /\ heap_ok m ((c, k) :: h') /\
    m !! k = Some c /\ (forall k' c', m !! k' = Some c' -> c <= c').
Proof.
  revert h; induction fuel as [|fuel IH]; intros h Hok Hm Hf; [lia|]. pose proof Hok as [Hh Hk Hle].
  destruct h as [|[tc tk] h].
  { simpl in Hk. symmetry in Hk. apply Permutation_nil_r in Hk. apply fmap_nil_inv in Hk. by apply map_to_list_empty_iff in Hk. }
  destruct (Hle tc tk ltac:(set_solver)) as (c & Hc & Htc). cbn [find_min]. rewrite Hc.
  destruct (c =? tc) eqn:E; bool_to_Z.
  - subst. exists tc, tk, h. split; [done|]. split; [done|]. split; [done|]. intros k' c' Hk'.
    destruct (heap_ok_entry _ _ _ _ Hok Hk') as (c0 & Hin & ?). pose proof (heap_top_all _ _ _ Hh Hin). simpl in *. lia.
  - pose proof (heap_ok_push _ tk c _ (heap_ok_pop _ _ _ _ Hok) (lookup_delete_eq _ _)) as Hok'.
    rewrite insert_delete_eq, insert_id in Hok' by done. apply IH; [done|done|].
    destruct (pq_pop_spec _ _ Hh) as [Hh' Hp].
    rewrite (stale_count_perm _ _ ((c, tk) :: h)) by (rewrite pq_push_perm, Hp by done; done).
    unfold stale_count in *. rewrite filter_cons in Hf. rewrite decide_True in Hf by (unfold is_stale; simpl; congruence).
    rewrite filter_cons, decide_False by (unfold is_stale; simpl; tauto). simpl in Hf. lia.
Qed.

Lemma rebuild_heap_ok m : heap_ok m (rebuild_heap m).
Proof.
  unfold rebuild_heap.
  assert (forall l h, is_heap h -> is_heap (foldl (fun h '(k, c) => pq_push h (c, k)) h l) /\
    foldl (fun h '(k, c) => pq_push h (c, k)) h l ≡ₚ h ++ (prod_swap <$> l)) as Hf.
  { induction l as [|[k c] l IH]; intros h Hh; simpl; [by rewrite app_nil_r|].
    destruct (IH (pq_push h (c, k))) as [H1 H2]; [by apply pq_push_heap|]. split; [done|].
    rewrite H2, pq_push_perm by done. simpl. apply Permutation_middle. }
  destruct (Hf (map_order m) [] heap_nil) as [H1 H2]. simpl in H2.
  pose proof (Permutation_trans H2 (fmap_Permutation prod_swap _ _ (map_order_perm m))) as H3. clear H2. split; [done| |].
  - rewrite H3, <- list_fmap_compose. apply reflexive_eq, list_fmap_ext. by intros ? [].
  - intros c k. rewrite H3, list_elem_of_fmap. intros ([k0 c0] & [= -> ->] & Hin%elem_of_map_to_list).
    exists c0. split; [done|lia].
Qed.

(** ** The guarantees, as an invariant of the stream *)

Record ss_inv (s : space_saving_top_k) (l : list (Key * Z)) : Prop := {
  si_cap : 0 < capacity_ s;
  si_heap : heap_ok (map_ s) (heap_ s);
  si_size : Z.of_nat (size (map_ s)) <= capacity_ s;
  si_total : total_ s = volume l;
  si_sum : map_sum (map_ s) = volume l;
  si_tracked : forall k c, map_ s !! k = Some c ->
    freq k l <= c /\ (c - freq k l) * capacity_ s <= volume l;
  si_untracked : forall k, map_ s !! k = None ->
    freq k l = 0 \/ (Z.of_nat (size (map_ s)) = capacity_ s /\ forall k' c, map_ s !! k' = Some c -> freq k l <= c)
}.

Definition counts_ok (l : list (Key * Z)) : Prop := Forall (fun kc => 0 <= kc.2) l.

Lemma freq_app k l1 l2 : freq k (l1 ++ l2) = freq k l1 + freq k l2.
Proof. induction l1 as [|[k' c] l1 IH]; simpl; [done|]. case_decide; lia. Qed.

Lemma volume_app l1 l2 : volume (l1 ++ l2) = volume l1 + volume l2.
Proof. induction l1 as [|[k' c] l1 IH]; simpl; lia. Qed.

Lemma freq_nonneg k l : counts_ok l -> 0 <= freq k l.
Proof. induction 1 as [|[k' c] l Hc _ IH]; simpl in *; [lia|]. case_decide; lia. Qed.

Lemma volume_nonneg l : counts_ok l -> 0 <= volume l.
Proof. induction 1 as [|[k' c] l Hc _ IH]; simpl in *; lia. Qed.

Lemma freq_snoc k k' c l : freq k (l ++ [(k', c)]) = freq k l + (if decide (k = k') then c else 0).
Proof. rewrite freq_app. simpl. case_decide; lia. Qed.

Lemma volume_snoc k c l : volume (l ++ [(k, c)]) = volume l + c.
Proof. rewrite volume_app. simpl. lia. Qed.

(** No counter exceeds the volume of the stream, so none wraps around. *)
Lemma ss_count_bound s l k c :
  ss_inv s l -> counts_ok l -> map_ s !! k = Some c -> 0 <= c <= volume l.
Proof.
  intros Hi Hl Hk. assert (forall k c, map_ s !! k = Some c -> 0 <= c) as Hnn.
  { intros k' c' Hk'. destruct (si_tracked _ _ Hi _ _ Hk'). pose proof (freq_nonneg k' l Hl). lia. }
  split; [by eapply Hnn|]. rewrite <- (si_sum _ _ Hi), (map_sum_delete _ _ _ Hk).
  pose proof (map_sum_lower (delete k (map_ s)) 0) as H0.
  assert (0 * Z.of_nat (size (delete k (map_ s))) <= map_sum (delete k (map_ s))); [|lia].
  apply H0. intros k' x [_ Hx]%lookup_delete_Some. by eapply Hnn.
Qed.

(** The error terms only relax as the stream grows. *)
Lemma error_mono c f d cap v : 0 <= d -> (c - f) * cap <= v -> (c - f) * cap <= v + d.
Proof. lia. Qed.

Section step.
Context (s : space_saving_top_k) (l : list (Key * Z)) (key : Key) (count : Z).
Hypothesis Hinv : ss_inv s l.
Hypothesis Hl : counts_ok l.
Hypothesis Hcount : 0 <= count.
Hypothesis Hvol : volume l + count < 2 ^ 64.

Lemma total_step : u64 (total_ s + count) = volume (l ++ [(key, count)]).
Proof. rewrite (si_total _ _ Hinv), volume_snoc. apply wrap_small. pose proof (volume_nonneg l Hl). lia. Qed.

(** A tracked key: its counter grows. *)
Lemma add_tracked c : map_ s !! key = Some c ->
  exists s', add key count s = Some s' /\ ss_inv s' (l ++ [(key, count)]).
Proof.
  intros Hk. unfold add. rewrite Hk, total_step. eexists. split; [reflexivity|].
  pose proof (ss_count_bound _ _ _ _ Hinv Hl Hk). rewrite (wrap_small 64 (c + count)) by lia.
  pose proof Hinv as [Hcap Hheap Hsize Htot Hsum Htr Hun]. split; cbn [capacity_ total_ map_ heap_].
  - done.
  - by apply heap_ok_incr.
  - rewrite map_size_insert_Some by done. done.
  - done.
  - by rewrite map_sum_update, volume_snoc, Hsum.
  - intros k x Hx. rewrite freq_snoc, volume_snoc. apply lookup_insert_Some in Hx as [[<- <-]|[Hne Hx]].
    + rewrite decide_True by done. destruct (Htr _ _ Hk). split; [lia|].
      replace (c + count - (freq key l + count)) with (c - freq key l) by lia. by apply error_mono.
    + rewrite decide_False by done. rewrite Z.add_0_r. destruct (Htr _ _ Hx). split; [done|]. by apply error_mono.
  - intros k [Hne Hx]%lookup_insert_None. rewrite freq_snoc, decide_False, Z.add_0_r by congruence.
    rewrite map_size_insert_Some by done. destruct (Hun k) as [?|[? Hmin]]; [done|by left|right].
    split; [done|]. intros k' x [[<- <-]|[? ?]]%lookup_insert_Some; [|by eapply Hmin].
    specialize (Hmin _ _ Hk). lia.
Qed.

(** A new key while there is room. *)
Lemma add_room : map_ s !! key = None -> Z.of_nat (size (map_ s)) < capacity_ s ->
  exists s', add key count s = Some s' /\ ss_inv s' (l ++ [(key, count)]).
Proof.
  intros Hk Hroom. unfold add. rewrite Hk, total_step, (proj2 (Z.ltb_lt _ _) Hroom). eexists. split; [reflexivity|].
  pose proof Hinv as [Hcap Hheap Hsize Htot Hsum Htr Hun]. split; cbn [capacity_ total_ map_ heap_].
  - done.
  - by apply heap_ok_push.
  - rewrite map_size_insert_None by done. lia.
  - done.
  - rewrite map_sum_insert, volume_snoc by done. lia.
  - pose proof (volume_nonneg l Hl).
    intros k x [[<- <-]|[Hne Hx]]%lookup_insert_Some; rewrite freq_snoc, volume_snoc.
    + rewrite decide_True by done. destruct (Hun _ Hk) as [->|[? _]]; [|lia]. split; lia.
    + rewrite decide_False, Z.add_0_r by done. destruct (Htr _ _ Hx). split; [done|]. by apply error_mono.
  - intros k [Hne Hx]%lookup_insert_None. rewrite freq_snoc, decide_False, Z.add_0_r by congruence.
    destruct (Hun k) as [?|[? _]]; [done|by left|lia].
Qed.

(** A new key in a full summary replaces a minimum of it. *)
Lemma add_replace_inv c k h :
  map_ s !! key = None -> Z.of_nat (size (map_ s)) = capacity_ s -> map_ s !! k = Some c ->
  (forall k' c', map_ s !! k' = Some c' -> c <= c') ->
  heap_ok (<[key := c + count]> (delete k (map_ s))) h ->
  ss_inv (SpaceSavingTopK (capacity_ s) (volume (l ++ [(key, count)])) (<[key := c + count]> (delete k (map_ s))) h)
    (l ++ [(key, count)]).
Proof.
  intros Hk Hfull Hc Hmin Hh. pose proof Hinv as [Hcap Hheap Hsize Htot Hsum Htr Hun].
  assert (delete k (map_ s) !! key = None) as Hd by (apply lookup_delete_None; by right).
  assert (size (<[key := c + count]> (delete k (map_ s))) = size (map_ s)) as Hsz.
  { rewrite map_size_insert_None by done. rewrite map_size_delete, Hc. simpl.
    assert (size (map_ s) <> 0%nat); [|lia]. intros E%map_size_empty_inv. rewrite E in Hc. done. }
  assert (freq key l <= c) as Hf by (destruct (Hun _ Hk) as [->|[_ Hu]]; [|by eapply Hu]; by eapply ss_count_bound).
  assert (c * capacity_ s <= volume l) as Hcv by (rewrite <- Hfull, <- Hsum; by apply map_sum_lower).
  split; cbn [capacity_ total_ map_ heap_]; rewrite ?Hsz; try done.
  - rewrite map_sum_insert, volume_snoc by done. rewrite (map_sum_delete _ _ _ Hc) in Hsum. lia.
  - pose proof (freq_nonneg key l Hl).
    intros k' x [[<- <-]|[Hne [_ Hx]%lookup_delete_Some]]%lookup_insert_Some; rewrite freq_snoc, volume_snoc.
    + rewrite decide_True by done. split; [lia|]. nia.
    + rewrite decide_False, Z.add_0_r by done. destruct (Htr _ _ Hx). split; [done|]. by apply error_mono.
  - intros k' [Hx Hne]%lookup_insert_None. rewrite freq_snoc, decide_False, Z.add_0_r by congruence.
    assert (forall k0 x, <[key := c + count]> (delete k (map_ s)) !! k0 = Some x -> c <= x) as Hge.
    { intros k0 x [[<- <-]|[_ [_ ?]%lookup_delete_Some]]%lookup_insert_Some; [lia|by eapply Hmin]. }
    apply lookup_delete_None in Hx as [->|Hx].
    + right. split; [done|]. intros k0 x Hk0. destruct (Htr _ _ Hc). specialize (Hge _ _ Hk0). lia.
    + destruct (Hun _ Hx) as [?|[_ Hu]]; [by left|]. right. split; [done|]. intros k0 x Hk0.
      specialize (Hge _ _ Hk0). specialize (Hu _ _ Hc). lia.
Qed.

Lemma add_evict : map_ s !! key = None -> capacity_ s <= Z.of_nat (size (map_ s)) ->
  exists s', add key count s = Some s' /\ ss_inv s' (l ++ [(key, count)]).
Proof.
  intros Hk Hfull. pose proof (si_cap _ _ Hinv). pose proof (si_size _ _ Hinv). pose proof (si_heap _ _ Hinv) as Hh.
  destruct (find_min_spec (S (length (heap_ s))) (map_ s) (heap_ s)) as (c & k & h & Hf & Hh' & Hc & Hmin); [done| | |].
  { intros E. rewrite E, map_size_empty in Hfull. lia. }
  { unfold stale_count. pose proof (length_filter (is_stale (map_ s)) (heap_ s)). lia. }
  unfold add. rewrite Hk, total_step, (proj2 (Z.ltb_ge _ _) Hfull), Hf. cbv zeta beta iota.
  pose proof (ss_count_bound _ _ _ _ Hinv Hl Hc). rewrite (wrap_small 64 (c + count)) by lia.
  eexists. split; [reflexivity|]. apply add_replace_inv; [done|lia|done|done|].
  case_match; [apply rebuild_heap_ok|]. apply heap_ok_push; [by apply heap_ok_pop|].
  apply lookup_delete_None. by right.
Qed.

Lemma add_inv : exists s', add key count s = Some s' /\ ss_inv s' (l ++ [(key, count)]).
Proof.
  destruct (map_ s !! key) as [c|] eqn:Hk; [by eapply add_tracked|].
  destruct (Z.lt_ge_cases (Z.of_nat (size (map_ s))) (capacity_ s)); [by apply add_room|by apply add_evict].
Qed.
End step.

Lemma new_inv capacity : 0 <= capacity -> ss_inv (space_saving_new capacity) [].
Proof.
  intros Hc. unfold space_saving_new. split; cbn [capacity_ total_ map_ heap_]; try done.
  - destruct (capacity =? 0) eqn:E; bool_to_Z; lia.
  - split; [apply heap_nil| |]; [by rewrite map_to_list_empty|set_solver].
  - rewrite map_size_empty. destruct (capacity =? 0) eqn:E; bool_to_Z; lia.
  - by left.
Qed.

Lemma run_inv s l0 l :
  ss_inv s l0 -> counts_ok l0 -> counts_ok l -> volume (l0 ++ l) < 2 ^ 64 ->
  exists s', run s l = Some s' /\ ss_inv s' (l0 ++ l).
Proof.
  revert s l0; induction l as [|[k c] l IH]; intros s l0 Hi Hl0 Hl Hv; [exists s; by rewrite app_nil_r|].
  apply Forall_cons in Hl as [Hc Hl]. simpl in Hc. rewrite cons_middle, app_assoc in *.
  pose proof (volume_nonneg l Hl). rewrite volume_app, volume_snoc in Hv.
  destruct (add_inv s l0 k c Hi Hl0 Hc ltac:(lia)) as (s1 & Ha & Hi1).
  destruct (IH s1 (l0 ++ [(k, c)])) as (s' & Hr & Hi'); [done| |done| |].
  - apply Forall_app. split; [done|]. by constructor.
  - rewrite volume_app, volume_snoc. lia.
  - exists s'. split; [|done]. unfold run in *. simpl. by rewrite Ha.
Qed.

Lemma run_capacity s l s' : run s l = Some s' -> capacity_ s' = capacity_ s.
Proof.
  unfold run. revert s. induction l as [|[k c] l IH]; intros s; simpl; [by intros [= ->]|].
  destruct (add k c s) as [s1|] eqn:Ea; simpl.
  - intros Hr. rewrite (IH _ Hr). unfold add in Ea. repeat case_match; by simplify_eq/=.
  - clear IH Ea. by induction l as [|[] ? IH].
Qed.

(** ** Reading the summary *)

(** [std::partial_sort] by descending count: the first [n] places of some
    rearrangement. *)
Class PartialSort := {
  partial_sort : nat -> list (Key * Z) -> list (Key * Z);
  partial_sort_perm : forall n v, partial_sort n v ≡ₚ v;
  partial_sort_sorted : forall n v, StronglySorted (fun x y => y.2 <= x.2) (take n (partial_sort n v));
  partial_sort_rest : forall n v x y, x ∈ take n (partial_sort n v) -> y ∈ drop n (partial_sort n v) -> y.2 <= x.2
}.

Definition top_k {PS : PartialSort} (k : nat) (s : space_saving_top_k) : list (Key * Z) :=
  let result := map_order (map_ s) in
  let limit := Nat.min k (length result) in
  let result := partial_sort limit result in
  if (k <? length result)%nat then take k result else result.

Lemma top_k_spec {PS : PartialSort} k s :
  let r := top_k k s in
  length r = Nat.min k (size (map_ s)) /\
  StronglySorted (fun x y => y.2 <= x.2) r /\
  NoDup r.*1 /\
  (forall x c, (x, c) ∈ r -> map_ s !! x = Some c) /\
  (forall x c y d, (x, c) ∈ r -> map_ s !! y = Some d -> y ∉ r.*1 -> d <= c).
Proof.
  simpl. unfold top_k. cbv zeta.
  set (v := map_order (map_ s)). set (n := Nat.min k (length v)).
  pose proof (Permutation_trans (partial_sort_perm n v) (map_order_perm (map_ s))) as Hp.
  assert (length v = size (map_ s)) as Hlen by (unfold v; by rewrite map_order_perm, length_map_to_list).
  assert (length (partial_sort n v) = length v) as Hl by (by rewrite partial_sort_perm).
  assert ((if (k <? length (partial_sort n v))%nat then take k (partial_sort n v) else partial_sort n v)
          = take n (partial_sort n v)) as ->.
  { rewrite Hl. unfold n. destruct (k <? length v)%nat eqn:E.
    - apply Nat.ltb_lt in E. by rewrite Nat.min_l by lia.
    - apply Nat.ltb_ge in E. rewrite Nat.min_r by lia. rewrite take_ge by (rewrite partial_sort_perm; lia). done. }
  set (w := partial_sort n v) in *. pose proof (take_drop n w) as Htd.
  split_and!.
  - rewrite length_take, Hl. unfold n. lia.
  - apply partial_sort_sorted.
  - assert (NoDup w.*1) as Hnd by (rewrite Hp; apply NoDup_fst_map_to_list).
    rewrite <- Htd, fmap_app in Hnd. by apply NoDup_app in Hnd as (? & _).
  - intros x c Hx. apply elem_of_map_to_list. rewrite <- Hp, <- Htd. set_solver.
  - intros x c y d Hx Hy Hni. apply elem_of_map_to_list in Hy. rewrite <- Hp, <- Htd in Hy.
    apply elem_of_app in Hy as [Hy|Hy]; [|by apply (partial_sort_rest n v (x, c) (y, d))].
    exfalso. apply Hni, list_elem_of_fmap. by exists (y, d).
Qed.

Lemma tracked_error s l k c : ss_inv s l -> map_ s !! k = Some c ->
  freq k l <= c <= freq k l + error_bound s.
Proof.
  intros Hi Hk. destruct (si_tracked _ _ Hi _ _ Hk) as [Hlo Hhi]. split; [done|].
  unfold error_bound. rewrite (proj2 (Z.ltb_lt _ _) (si_cap _ _ Hi)), (si_total _ _ Hi).
  assert (c - freq k l <= volume l / capacity_ s); [|lia].
  apply Z.div_le_lower_bound; [apply (si_cap _ _ Hi)|]. lia.
Qed.

Lemma untracked_error s l k : ss_inv s l -> counts_ok l -> map_ s !! k = None -> freq k l <= error_bound s.
Proof.
  intros Hi Hl Hk. pose proof (si_cap _ _ Hi). unfold error_bound.
  rewrite (proj2 (Z.ltb_lt _ _) (si_cap _ _ Hi)), (si_total _ _ Hi). apply Z.div_le_lower_bound; [done|].
  destruct (si_untracked _ _ Hi _ Hk) as [->|[Hfull Hmin]]; [pose proof (volume_nonneg l Hl); lia|].
  pose proof (map_sum_lower (map_ s) (freq k l) Hmin). rewrite (si_sum _ _ Hi), Hfull in *. lia.
Qed.
End space_saving.

Arguments PartialSort : clear implicits.

(** * Claims *)

(** C37: on every stream of at most [2^64 - 1] observations, whatever the map's
    iteration order and the priority queue behind it, the tracker never fails
    (its defensive fallback included), keeps at most [max(capacity, 1)] keys,
    reports the exact volume, and meets the documented error bound: a tracked
    count is at least the true count and exceeds it by at most
    [total() / capacity()], and every key seen more often than that is tracked. *)
Theorem space_saving_guarantees {Key : Type} `{Countable Key} {HH : StdHeap (Z * Key) fst}
    (map_order : gmap Key Z -> list (Key * Z)) (capacity : Z) (l : list (Key * Z)) :
  (forall m, map_order m ≡ₚ map_to_list m) ->
  0 <= capacity -> counts_ok l -> volume l < 2 ^ 64 ->
  exists s, run map_order (space_saving_new capacity) l = Some s /\
    Z.of_nat (size (map_ s)) <= Z.max capacity 1 /\ total_ s = volume l /\
    (forall k c, map_ s !! k = Some c -> freq k l <= c <= freq k l + error_bound s) /\
    (forall k, error_bound s < freq k l -> is_Some (map_ s !! k)).
Proof.
  intros Hmo Hc Hl Hv.
  destruct (run_inv map_order Hmo (space_saving_new capacity) [] l) as (s & Hr & Hi); try done.
  { by eapply new_inv. }
  { constructor. }
  exists s. split; [done|]. split_and!.
  - pose proof (si_size _ _ Hi) as Hs. rewrite (run_capacity _ _ _ _ Hr) in Hs. simpl in Hs.
    destruct (capacity =? 0) eqn:E; bool_to_Z; lia.
  - apply (si_total _ _ Hi).
  - intros k c. by apply tracked_error.
  - intros k Hk. destruct (map_ s !! k) eqn:E; [done|]. pose proof (untracked_error _ _ _ Hi Hl E). simpl in *. lia.
Qed.

Lemma space_saving_guarantees_witness :
  let _ := BinaryHeap.std_heap (Z * Z) fst in
  let l := [(1, 5); (2, 1); (1, 2); (3, 1); (1, 4); (4, 1); (2, 3)] in
  exists s, run map_to_list (space_saving_new 2) l = Some s /\
    Z.of_nat (size (map_ s)) <= Z.max 2 1 /\ total_ s = volume l /\
    (forall k c, map_ s !! k = Some c -> freq k l <= c <= freq k l + error_bound s) /\
    (forall k, error_bound s < freq k l -> is_Some (map_ s !! k)).
Proof.
  intros HH l.
  refine (space_saving_guarantees map_to_list 2 l _ _ _ _); [done|lia| |vm_compute; reflexivity].
  unfold counts_ok, l. repeat constructor; simpl; lia.
Defined.

(** [top_k(k)] returns [min(k, size())] distinct tracked keys with their
    counts in descending order, and no tracked key it leaves out has a larger
    count than one it returns. *)
Theorem top_k_correct {Key : Type} `{Countable Key} (map_order : gmap Key Z -> list (Key * Z))
    {PS : PartialSort Key} (k : nat) (s : space_saving_top_k) :
  (forall m, map_order m ≡ₚ map_to_list m) ->
  let r := top_k map_order k s in
  length r = Nat.min k (size (map_ s)) /\
  StronglySorted (fun x y => y.2 <= x.2) r /\
  NoDup r.*1 /\
  (forall x c, (x, c) ∈ r -> map_ s !! x = Some c) /\
  (forall x c y d, (x, c) ∈ r -> map_ s !! y = Some d -> y ∉ r.*1 -> d <= c).
Proof. intros Hmo. by apply top_k_spec. Qed.

(** Sorting everything is a partial sort. *)
Module FullSort.
Definition ge (x y : Z * Z) : Prop := y.2 <= x.2.
#[export] Instance ge_dec x y : Decision (ge x y).
Proof. unfold ge. apply _. Defined.
#[export] Instance ge_total : Total ge.
Proof. intros x y. unfold ge. lia. Qed.
#[export] Instance ge_trans : Transitive ge.
Proof. intros x y z. unfold ge. lia. Qed.

(** Insertion sort by descending count. *)
Fixpoint insert_desc (x : Z * Z) (l : list (Z * Z)) : list (Z * Z) :=
  match l with
  | [] => [x]
  | y :: l' => if decide (ge x y) then x :: l else y :: insert_desc x l'
  end.
Definition sort (l : list (Z * Z)) : list (Z * Z) := foldr insert_desc [] l.

Lemma insert_desc_perm x l : insert_desc x l ≡ₚ x :: l.
Proof. induction l as [|y l IH]; simpl; [done|]. case_decide; [done|]. rewrite IH. apply perm_swap. Qed.

Lemma sort_perm l : sort l ≡ₚ l.
Proof. induction l as [|x l IH]; simpl; [done|]. by rewrite insert_desc_perm, IH. Qed.

Lemma insert_desc_sorted x l : StronglySorted ge l -> StronglySorted ge (insert_desc x l).
Proof.
  induction 1 as [|y l Hs IH Hy]; simpl; [by repeat constructor|]. case_decide as Hxy.
  - constructor; [by constructor|]. constructor; [done|]. eapply Forall_impl; [done|]. intros z. by apply ge_trans.
  - constructor; [done|]. rewrite insert_desc_perm. constructor; [unfold ge in *; lia|done].
Qed.

Lemma sort_sorted l : StronglySorted ge (sort l).
Proof. induction l; simpl; [constructor|]. by apply insert_desc_sorted. Qed.

Lemma sorted_app l1 l2 : StronglySorted ge (l1 ++ l2) ->
  StronglySorted ge l1 /\ forall x y, x ∈ l1 -> y ∈ l2 -> ge x y.
Proof.
  induction l1 as [|x l1 IH]; simpl; [split; [constructor|set_solver]|]. intros Hs. apply StronglySorted_inv in Hs as [Hs Hx].
  destruct (IH Hs) as [H1 H2]. rewrite Forall_app, !Forall_forall in Hx. split.
  - constructor; [done|]. apply Forall_forall, Hx.
  - intros a b [->|Ha]%elem_of_cons Hb; [by apply Hx|by apply H2].
Qed.

#[export] Instance full_sort : PartialSort Z.
Proof.
  refine {| partial_sort := fun _ v => sort v |}.
  - intros _. apply sort_perm.
  - intros n v. eapply (proj1 (sorted_app _ (drop n (sort v)) _)). Unshelve. rewrite take_drop. apply sort_sorted.
  - intros n v. eapply (proj2 (sorted_app _ (drop n (sort v)) _)). Unshelve. rewrite take_drop. apply sort_sorted.
Defined.
End FullSort.

Lemma top_k_correct_witness :
  let s := SpaceSavingTopK 4 17 (list_to_map [(1, 11); (2, 4); (3, 2)] : gmap Z Z) [] in
  let r := top_k (PS := FullSort.full_sort) map_to_list 2 s in
  r = [(1, 11); (2, 4)] /\ length r = Nat.min 2 (size (map_ s)).
Proof.
  intros s r. split; [vm_compute; reflexivity|].
  exact (proj1 (top_k_correct map_to_list (PS := FullSort.full_sort) 2 s (fun m => Permutation_refl _))).
Defined.
