(* ===== verification/CountMinSketch.v ===== *)
(** The frequency sketch of detail/count_min_sketch.hpp: its table of saturating
    32-bit counters, the ageing that halves it, the seeds and per-row hashing,
    and its serialization. The model is the sketch under its lock, one
    operation at a time. *)

From S2P Require Import Prelude.

Definition kDefaultWindowMultiplier : Z := 32.
Definition kDefaultCapacity : Z := 1000.
Definition kDefaultHashCount : Z := 4.
Definition kMinWindowSize : Z := 256.

(** * Data *)

(** [table_size_] is the length of [table_]. *)
Record count_min_sketch := CountMinSketch {
  table_ : list Z;
  hash_seeds_ : list Z;
  width_ : Z;
  depth_ : Z;
  total_accesses_ : Z;
  max_window_size_ : Z;
  window_size_ : Z;
  decay_step_ : Z;
  saturated_ : Z;
  structure_version_ : Z
}.

(** A load either consumes words or fails; [short_input] is reading past the
    end of the iterator's range. *)
Inductive load_result := loaded (consumed : Z) (s : count_min_sketch) | malformed (s : count_min_sketch) | short_input.

(** * Operations *)

(** [p <<= 1] on a 64-bit word until [p >= v]. *)
Fixpoint next_pow2_loop (fuel : nat) (p v : Z) : option Z :=
  if p <? v then match fuel with O => None | S fuel => next_pow2_loop fuel (u64 (Z.shiftl p 1)) v end
  else Some p.

Definition next_pow2 (v : Z) : option Z := next_pow2_loop 64 1 v.

Definition seeds : list Z := [0xc3a7c8e5; 0x5bd1e995; 0x1b873593; 0x27d4eb2f].

Definition init_hash_seeds (depth : Z) : list Z :=
  (fun i : nat => Z.lxor (nth (i mod 4) seeds 0) (u64 (Z.of_nat i * 0x9e3779b9))) <$> seq 0 (Z.to_nat depth).

Definition resize_table (new_size : Z) : list Z := replicate (Z.to_nat new_size) 0.

Definition recount_saturated (table : list Z) : Z := Z.of_nat (length (filter (fun c => c = U32_MAX) table)).

(** The guard's two increments around a structural change. *)
Definition structure_change_guard (v : Z) : Z := u64 (u64 (v + 1) + 1).

(** [raw] is the double [e * capacity * window_multiplier / error_threshold]
    truncated to an integer. *)
Definition cms_new (raw : Z -> Z -> Z) (capacity window_multiplier hash_count : Z) : option count_min_sketch :=
  let capacity := if capacity =? 0 then kDefaultCapacity else capacity in
  let window := u64 (capacity * window_multiplier) in
  let r := raw capacity window_multiplier in
  counters ← next_pow2 (if r <? 1 then 1 else r);
  let depth := Z.max hash_count 1 in
  let width := Z.max (counters / depth) 4 in
  let table := resize_table (u64 (depth * width)) in
  Some (CountMinSketch table (init_hash_seeds depth) width depth 0 window window 0 (recount_saturated table) 0).

Section sketch.
Context {Key : Type} (Hash : Key -> Z).

Definition splitmix64 (x : Z) : Z :=
  let x := u64 (x + 0x9e3779b97f4a7c15) in
  let x := u64 (Z.lxor x (Z.shiftr x 30) * 0xbf58476d1ce4e5b9) in
  let x := u64 (Z.lxor x (Z.shiftr x 27) * 0x94d049bb133111eb) in
  Z.lxor x (Z.shiftr x 31).

Definition index_for (s : count_min_sketch) (key : Key) (hash_num : nat) : Z :=
  let h := Hash key in
  let x := u64 (h + nth hash_num (hash_seeds_ s) 0 + Z.of_nat hash_num) in
  u64 (u64 (Z.of_nat hash_num * width_ s) + splitmix64 x mod width_ s).

(** One row of [record]: the saturating increment of the row's cell; [None]
    is an access outside the table. *)
Definition record_row (s : count_min_sketch) (key : Key) (t : list Z * Z) (i : nat) : option (list Z * Z) :=
  let '(table, saturated) := t in
  let idx := Z.to_nat (index_for s key i) in
  old ← table !! idx;
  let table := if old <? U32_MAX then <[idx := old + 1]> table else table in
  Some (table, if old =? U32_MAX - 1 then u64 (saturated + 1) else saturated).

Definition halve_table (table : list Z) : list Z := (fun c => Z.shiftr c 1) <$> table.

Definition shrink_window (w : Z) : Z :=
  if kMinWindowSize <? w then Z.max (Z.shiftr w 1) kMinWindowSize else w.

Definition step_decay_shared (s : count_min_sketch) : count_min_sketch :=
  let table := halve_table (table_ s) in
  CountMinSketch table (hash_seeds_ s) (width_ s) (depth_ s) (total_accesses_ s) (max_window_size_ s)
    (shrink_window (window_size_ s)) (decay_step_ s) (recount_saturated table) (structure_version_ s).

Definition record (key : Key) (s : count_min_sketch) : option count_min_sketch :=
  '(table, saturated) ← foldl (fun o i => t ← o; record_row s key t i) (Some (table_ s, saturated_ s)) (seq 0 (Z.to_nat (depth_ s)));
  let old_total := u64 (total_accesses_ s + 1) in
  let s' total := CountMinSketch table (hash_seeds_ s) (width_ s) (depth_ s) total (max_window_size_ s)
    (window_size_ s) (decay_step_ s) saturated (structure_version_ s) in
  if old_total <? window_size_ s then Some (s' old_total)
  else Some (step_decay_shared (s' 0)).

(** The minimum over the rows; both the optimistic path and the fallback
    under the lock read the same cells when no change is in progress. *)
Definition estimate (key : Key) (s : count_min_sketch) : option Z :=
  if depth_ s =? 0 then Some 0
  else foldl (fun o i => min_val ← o; c ← table_ s !! Z.to_nat (index_for s key i); Some (Z.min min_val c))
         (Some U32_MAX) (seq 0 (Z.to_nat (depth_ s))).

(** [scale c] is the double product [c * factor] truncated to 32 bits. *)
Definition decay (scale : Z -> Z) (s : count_min_sketch) : count_min_sketch :=
  let table := scale <$> table_ s in
  CountMinSketch table (hash_seeds_ s) (width_ s) (depth_ s) 0 (max_window_size_ s) (max_window_size_ s) 0
    (recount_saturated table) (structure_change_guard (structure_version_ s)).

Definition step_decay_locked (s : count_min_sketch) : count_min_sketch :=
  let table := halve_table (table_ s) in
  CountMinSketch table (hash_seeds_ s) (width_ s) (depth_ s) 0 (max_window_size_ s)
    (shrink_window (window_size_ s)) (decay_step_ s) (recount_saturated table)
    (structure_change_guard (structure_version_ s)).

Definition step_decay (s : count_min_sketch) : count_min_sketch := step_decay_locked s.

Definition reset (s : count_min_sketch) : count_min_sketch :=
  let table := (fun _ => 0) <$> table_ s in
  CountMinSketch table (hash_seeds_ s) (width_ s) (depth_ s) 0 (max_window_size_ s) (window_size_ s) 0
    (recount_saturated table) (structure_change_guard (structure_version_ s)).

Definition set_max_window_size (size : Z) (s : count_min_sketch) : count_min_sketch :=
  CountMinSketch (table_ s) (hash_seeds_ s) (width_ s) (depth_ s) (total_accesses_ s) size size
    (decay_step_ s) (saturated_ s) (structure_version_ s).

Definition serialized_state_words (s : count_min_sketch) : Z := u64 (5 + Z.of_nat (length (table_ s))).

(** The words written, [None] for [std::overflow_error]; the version moves
    either way. *)
Definition save_state (s : count_min_sketch) : option (list Z) :=
  if (U32_MAX <? width_ s) || (U32_MAX <? depth_ s) || (U32_MAX <? serialized_state_words s) then None
  else Some (u32 (width_ s) :: u32 (depth_ s) :: u32 (total_accesses_ s) :: u32 (decay_step_ s) ::
             u32 (saturated_ s) :: table_ s).

Definition k_max_width : Z := 1000000.
Definition k_max_depth : Z := 64.

Definition load_state (words : list Z) (s : count_min_sketch) : load_result :=
  match words with
  | new_width :: new_depth :: new_total :: new_decay_step :: new_saturated :: rest =>
      let version := structure_change_guard (structure_version_ s) in
      if (new_width =? 0) || (new_depth =? 0) || (k_max_width <? new_width) || (k_max_depth <? new_depth) then
        malformed (CountMinSketch (table_ s) (hash_seeds_ s) (width_ s) (depth_ s) (total_accesses_ s)
          (max_window_size_ s) (window_size_ s) (decay_step_ s) (saturated_ s) version)
      else
        let size := Z.to_nat (u64 (new_depth * new_width)) in
        if (length rest <? size)%nat then short_input
        else
          let table := take size rest in
          loaded (u64 (5 + u64 (new_depth * new_width)))
            (CountMinSketch table (init_hash_seeds new_depth) new_width new_depth new_total
              (max_window_size_ s) (window_size_ s) new_decay_step (recount_saturated table) version)
  | _ => short_input
  end.

(** * Invariant *)

Record cms_ok (s : count_min_sketch) : Prop := {
  ok_width : 1 <= width_ s;
  ok_depth : 1 <= depth_ s;
  ok_size : depth_ s * width_ s < 2 ^ 64;
  ok_len : Z.of_nat (length (table_ s)) = depth_ s * width_ s;
  ok_seeds : hash_seeds_ s = init_hash_seeds (depth_ s);
  ok_cells : Forall (fun c => 0 <= c <= U32_MAX) (table_ s);
  ok_sat : saturated_ s = recount_saturated (table_ s)
}.

Definition sat_incr (c : Z) : Z := if c <? U32_MAX then c + 1 else c.

(** The cell a key reads in a row. *)
Definition cell (s : count_min_sketch) (i : nat) (k : Key) : Z := default 0 (table_ s !! Z.to_nat (index_for s k i)).

(** Rows do not overlap and stay inside the table. *)
Lemma index_for_row s k i : cms_ok s -> (i < Z.to_nat (depth_ s))%nat ->
  Z.of_nat i * width_ s <= index_for s k i < Z.of_nat i * width_ s + width_ s.
Proof.
  intros [Hw Hd Hsz _ _ _ _] Hi. unfold index_for.
  set (x := splitmix64 _). pose proof (Z.mod_pos_bound x (width_ s) ltac:(lia)).
  assert (Z.of_nat i * width_ s + width_ s <= depth_ s * width_ s) by nia.
  rewrite (wrap_small 64 (_ * _)) by nia. rewrite wrap_small; nia.
Qed.

Lemma index_for_lt s k i : cms_ok s -> (i < Z.to_nat (depth_ s))%nat ->
  (Z.to_nat (index_for s k i) < length (table_ s))%nat.
Proof.
  intros Hok Hi. pose proof (index_for_row s k i Hok Hi). destruct Hok as [Hw Hd Hsz Hl _ _ _].
  assert (Z.of_nat i * width_ s + width_ s <= depth_ s * width_ s) by nia. nia.
Qed.

Lemma index_for_inj s k i k' j : cms_ok s -> (i < Z.to_nat (depth_ s))%nat -> (j < Z.to_nat (depth_ s))%nat ->
  Z.to_nat (index_for s k i) = Z.to_nat (index_for s k' j) -> i = j.
Proof.
  intros Hok Hi Hj E. pose proof (index_for_row s k i Hok Hi). pose proof (index_for_row s k' j Hok Hj).
  destruct Hok as [Hw Hd Hsz Hl _ _ _]. assert (index_for s k i = index_for s k' j) by (apply Z2Nat.inj; nia). nia.
Qed.

(** ** Saturation accounting *)

Lemma recount_insert (t : list Z) p old v : t !! p = Some old ->
  recount_saturated (<[p := v]> t) =
    recount_saturated t - (if decide (old = U32_MAX) then 1 else 0) + (if decide (v = U32_MAX) then 1 else 0).
Proof.
  intros Hp. unfold recount_saturated. rewrite insert_take_drop by (by eapply lookup_lt_Some).
  rewrite <- (take_drop_middle t p old Hp) at 3. rewrite !filter_app, !length_app, !filter_cons.
  repeat case_decide; simpl; lia.
Qed.

Lemma recount_bound t : 0 <= recount_saturated t <= Z.of_nat (length t).
Proof. unfold recount_saturated. pose proof (length_filter (fun c => c = U32_MAX) t). lia. Qed.

Definition rows_ok (s : count_min_sketch) (t : list Z * Z) : Prop :=
  length t.1 = length (table_ s) /\ Forall (fun c => 0 <= c <= U32_MAX) t.1 /\ t.2 = recount_saturated t.1.

Lemma record_row_spec s k t i : cms_ok s -> rows_ok s t -> (i < Z.to_nat (depth_ s))%nat ->
  exists t', record_row s k t i = Some t' /\ rows_ok s t' /\
    forall p, t'.1 !! p = if decide (p = Z.to_nat (index_for s k i)) then sat_incr <$> t.1 !! p else t.1 !! p.
Proof.
  intros Hok (Hl & Hc & Hs) Hi. destruct t as [t n]. simpl in *. unfold record_row.
  pose proof (index_for_lt s k i Hok Hi) as Hlt. set (idx := Z.to_nat (index_for s k i)) in *.
  destruct (lookup_lt_is_Some_2 t idx) as [old Hold]; [lia|]. rewrite Hold. simpl. eexists. split; [reflexivity|].
  assert (0 <= old <= U32_MAX) as Ho by (by eapply Forall_lookup_1 in Hc).
  pose proof (recount_insert t idx old (old + 1) Hold) as Hri. pose proof (recount_bound t).
  assert (Z.of_nat (length t) < 2 ^ 64) by (rewrite Hl, (ok_len _ Hok); apply (ok_size _ Hok)).
  unfold rows_ok. simpl. destruct (old <? U32_MAX) eqn:E; bool_to_Z.
  - rewrite decide_False in Hri by lia. split; [split_and!|].
    + by rewrite length_insert.
    + apply Forall_insert; [done|lia].
    + rewrite Hri. pose proof (recount_bound (<[idx:=old + 1]> t)) as Hb. rewrite length_insert in Hb.
      destruct (old =? U32_MAX - 1) eqn:E2; bool_to_Z.
      * rewrite decide_True in * by lia. rewrite wrap_small; lia.
      * rewrite decide_False by lia. lia.
    + intros p. destruct (decide (p = idx)) as [Hp|Hp]; [rewrite Hp|by apply list_lookup_insert_ne].
      rewrite list_lookup_insert_eq by lia. rewrite Hold. simpl. unfold sat_incr. by rewrite (proj2 (Z.ltb_lt _ _) E).
  - destruct (old =? U32_MAX - 1) eqn:E2; bool_to_Z; [lia|]. split; [done|].
    intros p. destruct (decide (p = idx)) as [Hp|Hp]; [rewrite Hp|done]. rewrite Hold. simpl. unfold sat_incr. by rewrite (proj2 (Z.ltb_ge _ _) E).
Qed.

Lemma record_rows_spec s k l t : cms_ok s -> rows_ok s t -> NoDup l -> (forall i, i ∈ l -> (i < Z.to_nat (depth_ s))%nat) ->
  exists t', foldl (fun o i => t ← o; record_row s k t i) (Some t) l = Some t' /\ rows_ok s t' /\
    forall p, t'.1 !! p =
      if decide (p ∈ (fun i => Z.to_nat (index_for s k i)) <$> l) then sat_incr <$> t.1 !! p else t.1 !! p.
Proof.
  intros Hok. revert t; induction l as [|i l IH]; intros t Ht Hnd Hl.
  { exists t. split; [done|]. split; [done|]. intros p. by rewrite decide_False by set_solver. }
  apply NoDup_cons in Hnd as [Hni Hnd].
  destruct (record_row_spec s k t i Hok Ht) as (t1 & E1 & Ht1 & Hp1); [by apply Hl; left|].
  destruct (IH t1 Ht1 Hnd) as (t2 & E2 & Ht2 & Hp2); [intros; apply Hl; by right|].
  exists t2. simpl. rewrite E1. split; [done|]. split; [done|]. intros p. rewrite Hp2, Hp1.
  destruct (decide (p = Z.to_nat (index_for s k i))) as [->|Hne].
  - rewrite (decide_False (P := _ ∈ (fun i => Z.to_nat (index_for s k i)) <$> l)).
    { rewrite decide_True; [done|]. by left. }
    intros (j & E & Hj)%list_elem_of_fmap. apply index_for_inj in E; [|done|apply Hl; by left|apply Hl; by right].
    by subst.
  - do 2 case_decide; set_solver.
Qed.

Lemma halve_ok t : Forall (fun c => 0 <= c <= U32_MAX) t -> Forall (fun c => 0 <= c <= U32_MAX) (halve_table t).
Proof.
  intros Hc. apply Forall_fmap. eapply Forall_impl; [done|]. intros c [H1 H2]. simpl.
  rewrite Z.shiftr_div_pow2 by lia. change (2 ^ 1) with 2. split; [apply Z.div_pos; lia|].
  apply Z.div_le_upper_bound; lia.
Qed.

Lemma fmap_ok (f : Z -> Z) t :
  (forall c, 0 <= c <= U32_MAX -> 0 <= f c <= U32_MAX) ->
  Forall (fun c => 0 <= c <= U32_MAX) t -> Forall (fun c => 0 <= c <= U32_MAX) (f <$> t).
Proof. intros Hf Hc. apply Forall_fmap. eapply Forall_impl; [done|]. intros c Hc'. by apply Hf. Qed.

(** ** The operations on cells *)

Definition same_shape (s s' : count_min_sketch) : Prop :=
  hash_seeds_ s' = hash_seeds_ s /\ width_ s' = width_ s /\ depth_ s' = depth_ s.

Lemma index_for_shape s s' k i : same_shape s s' -> index_for s' k i = index_for s k i.
Proof. intros (E1 & E2 & _). unfold index_for. by rewrite E1, E2. Qed.

Lemma cell_lookup s i k : cms_ok s -> (i < Z.to_nat (depth_ s))%nat ->
  table_ s !! Z.to_nat (index_for s k i) = Some (cell s i k).
Proof.
  intros Hok Hi. destruct (lookup_lt_is_Some_2 _ _ (index_for_lt s k i Hok Hi)) as [c Hc].
  unfold cell. by rewrite Hc.
Qed.

Lemma cell_range s i k : cms_ok s -> (i < Z.to_nat (depth_ s))%nat -> 0 <= cell s i k <= U32_MAX.
Proof. intros Hok Hi. pose proof (cell_lookup s i k Hok Hi). by eapply (Forall_lookup_1 _ _ _ _ (ok_cells _ Hok)). Qed.

(** A whole-table update by [f]. *)
Lemma table_map_spec (f : Z -> Z) s s' :
  cms_ok s -> (forall c, 0 <= c <= U32_MAX -> 0 <= f c <= U32_MAX) -> same_shape s s' ->
  table_ s' = f <$> table_ s -> saturated_ s' = recount_saturated (f <$> table_ s) ->
  cms_ok s' /\ forall k i, (i < Z.to_nat (depth_ s))%nat -> cell s' i k = f (cell s i k).
Proof.
  intros Hok Hf Hsh Ht Hs. pose proof Hok as [Hw Hd Hsz Hl Hse Hc Hsat]. pose proof Hsh as (E1 & E2 & E3). split.
  - split; rewrite ?E1, ?E2, ?E3, ?Ht, ?length_fmap; try done. by apply fmap_ok.
  - intros k i Hi. unfold cell at 1. rewrite Ht, list_lookup_fmap, (index_for_shape s s'), cell_lookup by done. done.
Qed.

Lemma shiftr1_range c : 0 <= c <= U32_MAX -> 0 <= Z.shiftr c 1 <= U32_MAX.
Proof.
  intros [H1 H2]. rewrite Z.shiftr_div_pow2 by lia. change (2 ^ 1) with 2.
  split; [apply Z.div_pos; lia|]. apply Z.div_le_upper_bound; lia.
Qed.

Lemma record_spec k s : cms_ok s ->
  exists s', record k s = Some s' /\ cms_ok s' /\ same_shape s s' /\
    max_window_size_ s' = max_window_size_ s /\
    let total := u64 (total_accesses_ s + 1) in
    let aged := negb (total <? window_size_ s) in
    total_accesses_ s' = (if aged then 0 else total) /\
    window_size_ s' = (if aged then shrink_window (window_size_ s) else window_size_ s) /\
    forall k' i, (i < Z.to_nat (depth_ s))%nat ->
      let c := if decide (index_for s k' i = index_for s k i) then sat_incr (cell s i k') else cell s i k' in
      cell s' i k' = if aged then Z.shiftr c 1 else c.
Proof.
  intros Hok. unfold record.
  destruct (record_rows_spec s k (seq 0 (Z.to_nat (depth_ s))) (table_ s, saturated_ s)) as ([t n] & -> & Ht & Hp);
    [done|split_and!; [done|apply (ok_cells _ Hok)|apply (ok_sat _ Hok)]|apply NoDup_seq| |].
  { intros i Hi%elem_of_seq. lia. }
  destruct Ht as (Hl & Hc & Hs). simpl in *.
  set (mid total := CountMinSketch t (hash_seeds_ s) (width_ s) (depth_ s) total (max_window_size_ s)
    (window_size_ s) (decay_step_ s) n (structure_version_ s)).
  assert (forall total, cms_ok (mid total)) as Hmid.
  { intros total. pose proof Hok as [Hw Hd Hsz Hlen Hse _ _]. split; simpl; try done. by rewrite Hl. }
  assert (forall total k' i, (i < Z.to_nat (depth_ s))%nat -> cell (mid total) i k' =
    if decide (index_for s k' i = index_for s k i) then sat_incr (cell s i k') else cell s i k') as Hcell.
  { intros total k' i Hi. unfold cell at 1. rewrite (index_for_shape s) by done. simpl. rewrite Hp, cell_lookup by done.
    destruct (decide (index_for s k' i = index_for s k i)) as [E|E].
    - rewrite decide_True; [done|]. apply list_elem_of_fmap. exists i. rewrite E. split; [done|]. apply elem_of_seq. lia.
    - rewrite decide_False; [done|]. intros (j & Ej & Hj%elem_of_seq)%list_elem_of_fmap.
      pose proof (index_for_inj s k' i k j Hok Hi ltac:(lia) Ej). subst j.
      pose proof (index_for_row s k' i Hok Hi). pose proof (index_for_row s k i Hok Hi).
      pose proof (ok_width _ Hok). apply E, Z2Nat.inj; [nia|nia|done]. }
  destruct (u64 (total_accesses_ s + 1) <? window_size_ s) eqn:E.
  - exists (mid (u64 (total_accesses_ s + 1))). split_and!; try done. intros k' i Hi. by apply Hcell.
  - exists (step_decay_shared (mid 0)). split; [done|].
    destruct (table_map_spec (fun c => Z.shiftr c 1) (mid 0) (step_decay_shared (mid 0)) (Hmid 0)) as [Hok' Hc'];
      [apply shiftr1_range|done..|]. split_and!; try done.
    intros k' i Hi. cbv zeta. simpl. by rewrite Hc', Hcell.
Qed.

Lemma estimate_spec k s : cms_ok s ->
  estimate k s = Some (foldl (fun m i => Z.min m (cell s i k)) U32_MAX (seq 0 (Z.to_nat (depth_ s)))).
Proof.
  intros Hok. unfold estimate. pose proof (ok_depth _ Hok). destruct (depth_ s =? 0) eqn:E; bool_to_Z; [lia|].
  assert (forall l m, (forall i, i ∈ l -> (i < Z.to_nat (depth_ s))%nat) ->
    foldl (fun o i => min_val ← o; c ← table_ s !! Z.to_nat (index_for s k i); Some (Z.min min_val c)) (Some m) l
    = Some (foldl (fun m i => Z.min m (cell s i k)) m l)) as Hf.
  { induction l as [|i l IH]; intros m Hl; [done|]. simpl. rewrite cell_lookup; [|done|apply Hl; by left]. simpl.
    apply IH. intros j Hj. apply Hl. by right. }
  apply Hf. intros i Hi%elem_of_seq. lia.
Qed.

Lemma foldl_min_spec (f : nat -> Z) l m a :
  a <= m -> (forall i, i ∈ l -> a <= f i) ->
  a <= foldl (fun m i => Z.min m (f i)) m l /\ (forall i, i ∈ l -> foldl (fun m i => Z.min m (f i)) m l <= f i) /\
  foldl (fun m i => Z.min m (f i)) m l <= m.
Proof.
  revert m; induction l as [|j l IH]; intros m Hm Hl; simpl; [split_and!; [done|set_solver|lia]|].
  destruct (IH (Z.min m (f j))) as (H1 & H2 & H3); [pose proof (Hl j ltac:(by left)); lia|intros; apply Hl; by right|].
  split_and!; [done| |lia]. intros i [->|Hi]%elem_of_cons; [lia|by apply H2].
Qed.

(** * The exact, ageing counters the sketch approximates *)

Inductive cms_op := Record_ (k : Key) | Decay (scale : Z -> Z) | StepDecay | Reset_ | SetMaxWindow (n : Z).

(** The truncated product by a factor in [0, 1] keeps the 32-bit range and
    the order. *)
Definition op_ok (o : cms_op) : Prop :=
  match o with
  | Decay scale => (forall c, 0 <= c <= U32_MAX -> 0 <= scale c <= U32_MAX) /\
                   (forall c d, 0 <= c <= d -> d <= U32_MAX -> scale c <= scale d)
  | _ => True
  end.

Definition run_op (o : cms_op) (s : count_min_sketch) : option count_min_sketch :=
  match o with
  | Record_ k => record k s
  | Decay scale => Some (decay scale s)
  | StepDecay => Some (step_decay s)
  | Reset_ => Some (reset s)
  | SetMaxWindow n => Some (set_max_window_size n s)
  end.

(** One counter per key, with the sketch's window. *)
Record ageing := Ageing { acount : Key -> Z; atotal : Z; amax : Z; awindow : Z }.

Context `{EqDecision Key}.

Definition spec_op (o : cms_op) (a : ageing) : ageing :=
  match o with
  | Record_ k =>
      let total := u64 (atotal a + 1) in
      let count k' := if decide (k' = k) then sat_incr (acount a k') else acount a k' in
      if total <? awindow a then Ageing count total (amax a) (awindow a)
      else Ageing (fun k' => Z.shiftr (count k') 1) 0 (amax a) (shrink_window (awindow a))
  | Decay scale => Ageing (fun k => scale (acount a k)) 0 (amax a) (amax a)
  | StepDecay => Ageing (fun k => Z.shiftr (acount a k) 1) 0 (amax a) (shrink_window (awindow a))
  | Reset_ => Ageing (fun _ => 0) 0 (amax a) (awindow a)
  | SetMaxWindow n => Ageing (acount a) (atotal a) n n
  end.

Definition recorded (o : cms_op) : list Key := match o with Record_ k => [k] | _ => [] end.

(** No other recorded key shares the cell of [k] in row [i]. *)
Definition no_collision (s : count_min_sketch) (hist : list Key) (i : nat) (k : Key) : Prop :=
  forall k', k' ∈ hist -> k' <> k -> index_for s k' i <> index_for s k i.

Record approximates (s : count_min_sketch) (a : ageing) (hist : list Key) : Prop := {
  ap_ok : cms_ok s;
  ap_total : total_accesses_ s = atotal a;
  ap_max : max_window_size_ s = amax a;
  ap_window : window_size_ s = awindow a;
  ap_range : forall k, 0 <= acount a k <= U32_MAX;
  ap_cells : forall k i, (i < Z.to_nat (depth_ s))%nat ->
    acount a k <= cell s i k /\ (no_collision s hist i k -> cell s i k = acount a k)
}.

Lemma sat_incr_range c : 0 <= c <= U32_MAX -> 0 <= sat_incr c <= U32_MAX.
Proof. unfold sat_incr. destruct (c <? U32_MAX) eqn:E; bool_to_Z; lia. Qed.

Lemma sat_incr_mono c d : c <= d <= U32_MAX -> sat_incr c <= sat_incr d.
Proof. unfold sat_incr. destruct (c <? U32_MAX) eqn:E, (d <? U32_MAX) eqn:E'; bool_to_Z; lia. Qed.

Lemma sat_incr_ge c : c <= sat_incr c.
Proof. unfold sat_incr. destruct (c <? U32_MAX); lia. Qed.

Lemma shiftr1_mono c d : c <= d -> Z.shiftr c 1 <= Z.shiftr d 1.
Proof. intros. rewrite !Z.shiftr_div_pow2 by lia. by apply Z.div_le_mono. Qed.

(** Updates of every counter and cell by one monotone function. *)
Lemma approximates_map (f : Z -> Z) s a hist s' a' :
  approximates s a hist -> (forall c, 0 <= c <= U32_MAX -> 0 <= f c <= U32_MAX) ->
  (forall c d, 0 <= c <= d -> d <= U32_MAX -> f c <= f d) ->
  same_shape s s' -> table_ s' = f <$> table_ s -> saturated_ s' = recount_saturated (f <$> table_ s) ->
  total_accesses_ s' = atotal a' -> max_window_size_ s' = amax a' -> window_size_ s' = awindow a' ->
  (forall k, acount a' k = f (acount a k)) -> approximates s' a' hist.
Proof.
  intros [Hok _ _ _ Hr Hc] Hf Hm Hsh Ht Hs E1 E2 E3 Ha.
  destruct (table_map_spec f s s' Hok Hf Hsh Ht Hs) as [Hok' Hc'].
  split; try done; [intros k; rewrite Ha; auto|]. pose proof Hsh as (_ & _ & Ed). intros k i Hi. rewrite Ed in Hi.
  rewrite Hc', Ha by done. destruct (Hc k i Hi) as [H1 H2]. pose proof (cell_range s i k Hok Hi). split.
  - apply Hm; [split; [apply Hr|done]|lia].
  - intros Hn. rewrite H2; [done|]. intros k' Hk' Hne. rewrite <- !(index_for_shape s s') by done. by apply Hn.
Qed.

Lemma approximates_record k s a hist :
  approximates s a hist ->
  exists s', record k s = Some s' /\ same_shape s s' /\ approximates s' (spec_op (Record_ k) a) (k :: hist).
Proof.
  intros [Hok Ht Hm Hw Hr Hc]. destruct (record_spec k s Hok) as (s' & E & Hok' & Hsh & Em & Et & Ew & Hcell).
  exists s'. split; [done|]. split; [done|]. rewrite Ht, Hw in *. pose proof Hsh as (_ & _ & Ed).
  assert (forall k' i, (i < Z.to_nat (depth_ s))%nat ->
    let c := if decide (index_for s k' i = index_for s k i) then sat_incr (cell s i k') else cell s i k' in
    let n := if decide (k' = k) then sat_incr (acount a k') else acount a k' in
    0 <= n <= U32_MAX /\ n <= c /\ (no_collision s' (k :: hist) i k' -> c = n)) as Hstep.
  { intros k' i Hi. destruct (Hc k' i Hi) as [H1 H2]. pose proof (cell_range s i k' Hok Hi). cbv zeta.
    pose proof (sat_incr_ge (cell s i k')). pose proof (sat_incr_range (acount a k') (Hr k')).
    assert (no_collision s' (k :: hist) i k' -> no_collision s hist i k') as Hnc.
    { intros Hn k0 Hk0 Hne. rewrite <- !(index_for_shape s s') by done. apply Hn; [by right|done]. }
    destruct (decide (k' = k)) as [->|Hne].
    - rewrite decide_True by done. split_and!; [lia|lia|apply sat_incr_mono; lia|].
      intros Hn. by rewrite H2 by auto.
    - split; [apply Hr|]. split; [case_decide; lia|]. intros Hn. rewrite decide_False; [auto|].
      intros Ei. apply (Hn k); [by left|congruence|]. rewrite !(index_for_shape s s') by done. done. }
  simpl in *. destruct (u64 (atotal a + 1) <? awindow a); simpl in *; (split; simpl; try congruence).
  - intros k'. pose proof (ok_depth _ Hok). by apply (Hstep k' 0%nat); lia.
  - intros k' i Hi. rewrite Ed in Hi. rewrite Hcell by done. by apply Hstep.
  - intros k'. pose proof (ok_depth _ Hok). apply shiftr1_range. by apply (Hstep k' 0%nat); lia.
  - intros k' i Hi. rewrite Ed in Hi. rewrite Hcell by done. destruct (Hstep k' i Hi) as (_ & H1 & H2).
    split; [by apply shiftr1_mono|]. intros Hn. by rewrite H2.
Qed.

Lemma approximates_op o s a hist :
  approximates s a hist -> op_ok o ->
  exists s', run_op o s = Some s' /\ same_shape s s' /\ approximates s' (spec_op o a) (recorded o ++ hist).
Proof.
  intros Hap Ho. destruct o as [k|scale| | |n]; simpl in *; [by apply approximates_record|..];
    (eexists; split; [reflexivity|]; split; [done|]); pose proof Hap as [Hok Ht Hm Hw Hr Hc].
  - eapply (approximates_map scale); try done; [apply Ho..].
  - eapply (approximates_map (fun c => Z.shiftr c 1)); try done; [apply shiftr1_range|intros; apply shiftr1_mono; lia|].
    simpl. by rewrite Hw.
  - eapply (approximates_map (fun _ => 0)); done.
  - split; simpl; try done. destruct Hok. by split.
Qed.

Fixpoint run_ops (os : list cms_op) (s : count_min_sketch) : option count_min_sketch :=
  match os with [] => Some s | o :: os => s ← run_op o s; run_ops os s end.

Fixpoint spec_ops (os : list cms_op) (a : ageing) : ageing :=
  match os with [] => a | o :: os => spec_ops os (spec_op o a) end.

(** The keys recorded so far, latest first. *)
Fixpoint history (os : list cms_op) (hist : list Key) : list Key :=
  match os with [] => hist | o :: os => history os (recorded o ++ hist) end.

Lemma approximates_ops os s a hist :
  approximates s a hist -> Forall op_ok os ->
  exists s', run_ops os s = Some s' /\ same_shape s s' /\ approximates s' (spec_ops os a) (history os hist).
Proof.
  revert s a hist; induction os as [|o os IH]; intros s a hist Hap Hos; simpl; [by exists s|].
  apply Forall_cons in Hos as [Ho Hos]. destruct (approximates_op o s a hist Hap Ho) as (s1 & E1 & Hs1 & Hap1).
  destruct (IH s1 _ _ Hap1 Hos) as (s2 & E2 & Hs2 & Hap2). exists s2. rewrite E1. simpl. split; [done|].
  split; [unfold same_shape in *; intuition congruence|done].
Qed.

(** What an approximating sketch reports. *)
Lemma approximates_estimate s a hist k :
  approximates s a hist ->
  exists n, estimate k s = Some n /\ acount a k <= n <= U32_MAX /\
    ((exists i, (i < Z.to_nat (depth_ s))%nat /\ no_collision s hist i k) -> n = acount a k).
Proof.
  intros [Hok _ _ _ Hr Hc]. rewrite (estimate_spec k s Hok). eexists. split; [reflexivity|].
  destruct (foldl_min_spec (fun i => cell s i k) (seq 0 (Z.to_nat (depth_ s))) U32_MAX (acount a k)) as (H1 & H2 & H3).
  { apply Hr. }
  { intros i Hi%elem_of_seq. apply Hc. lia. }
  split; [lia|]. intros (i & Hi & Hn). destruct (Hc k i Hi) as [_ He]. specialize (He Hn).
  pose proof (H2 i ltac:(apply elem_of_seq; lia)). simpl in *. lia.
Qed.

(** ** Construction *)

Lemma recount_zeros n : recount_saturated (replicate n 0) = 0.
Proof. unfold recount_saturated. induction n as [|n IH]; [done|]. simpl. rewrite filter_cons, decide_False by done. done. Qed.

Lemma next_pow2_loop_spec fuel e v :
  0 <= e -> e + Z.of_nat fuel = 64 -> v <= 2 ^ 63 -> 2 ^ e <= 2 ^ 63 ->
  exists e', next_pow2_loop fuel (2 ^ e) v = Some (2 ^ e') /\ e <= e' <= 63 /\ v <= 2 ^ e' /\ (e < e' -> 2 ^ e' < 2 * v).
Proof.
  revert e; induction fuel as [|fuel IH]; intros e He Hf Hv H63.
  { assert (63 < e) by lia. pose proof (Z.pow_lt_mono_r 2 63 e). lia. }
  simpl. assert (e <= 63) as Hle by (apply (Z.pow_le_mono_r_iff 2); lia). destruct (2 ^ e <? v) eqn:E; bool_to_Z.
  - assert (e < 63) as Hlt by (destruct (Z.eq_dec e 63); [subst; lia|lia]).
    assert (u64 (Z.shiftl (2 ^ e) 1) = 2 ^ (e + 1)) as ->.
    { rewrite Z.shiftl_mul_pow2, <- Z.pow_add_r by lia. apply wrap_small. split; [lia|]. apply Z.pow_lt_mono_r; lia. }
    destruct (IH (e + 1)) as (e' & -> & H1 & H2 & H3); [lia|lia|lia|apply Z.pow_le_mono_r; lia|].
    exists e'. split; [done|]. split; [lia|]. split; [done|]. intros _.
    destruct (Z.eq_dec e' (e + 1)) as [->|]; [rewrite Z.pow_add_r by lia; lia|]. apply H3. lia.
  - exists e. split; [done|]. split; [lia|]. split; lia.
Qed.

Lemma next_pow2_spec v : 1 <= v <= 2 ^ 63 ->
  exists e, next_pow2 v = Some (2 ^ e) /\ 0 <= e <= 63 /\ v <= 2 ^ e < 2 * v.
Proof.
  intros Hv. destruct (next_pow2_loop_spec 64 0 v) as (e & He & H1 & H2 & H3); [lia..|]. exists e. split; [done|].
  split; [done|]. split; [done|]. destruct (Z.eq_dec e 0) as [->|]; [lia|]. apply H3. lia.
Qed.

(** Above [2^63] the doubling wraps to zero and never ends. *)
Lemma next_pow2_diverges v fuel : 2 ^ 63 < v < 2 ^ 64 -> next_pow2_loop fuel 1 v = None.
Proof.
  intros Hv. assert (forall fuel e, 0 <= e <= 63 -> next_pow2_loop fuel (2 ^ e) v = None /\ next_pow2_loop fuel 0 v = None) as Hd.
  { clear fuel. induction fuel as [|fuel IH]; intros e He; simpl; pose proof (Z.pow_le_mono_r 2 e 63);
      rewrite !(proj2 (Z.ltb_lt _ _)) by lia; [done|]. destruct (IH e He) as [_ H0]. split; [|by rewrite Z.shiftl_0_l].
    destruct (Z.eq_dec e 63) as [->|]; [done|].
    assert (u64 (Z.shiftl (2 ^ e) 1) = 2 ^ (e + 1)) as ->; [|by apply IH; lia].
    rewrite Z.shiftl_mul_pow2, <- Z.pow_add_r by lia. apply wrap_small. split; [lia|]. apply Z.pow_lt_mono_r; lia. }
  apply (Hd fuel 0). lia.
Qed.

Lemma cms_new_spec raw capacity mult hash_count :
  let cap := if capacity =? 0 then kDefaultCapacity else capacity in
  raw cap mult <= 2 ^ 61 -> 0 <= hash_count < 2 ^ 32 ->
  exists s, cms_new raw capacity mult hash_count = Some s /\ 4 <= width_ s /\ depth_ s = Z.max hash_count 1 /\
    approximates s (Ageing (fun _ => 0) 0 (u64 (cap * mult)) (u64 (cap * mult))) [].
Proof.
  intros cap Hraw Hh. unfold cms_new. fold cap.
  destruct (next_pow2_spec (if raw cap mult <? 1 then 1 else raw cap mult)) as (e & -> & He & Hv).
  { destruct (raw cap mult <? 1) eqn:E; bool_to_Z; lia. }
  simpl. eexists. split; [reflexivity|]. cbn [width_ depth_]. set (d := Z.max hash_count 1). set (w := Z.max (2 ^ e / d) 4).
  assert (1 <= d < 2 ^ 32) as Hd by lia. assert (2 ^ e <= 2 ^ 62) as He62.
  { destruct (raw cap mult <? 1) eqn:E; bool_to_Z; lia. }
  assert (d * w < 2 ^ 64) as Hdw.
  { pose proof (Z.mul_div_le (2 ^ e) d ltac:(lia)). pose proof (Z.div_pos (2 ^ e) d ltac:(lia) ltac:(lia)). unfold w. nia. }
  assert (4 <= w) as Hw by lia. split; [lia|]. split; [done|].
  split; cbn [total_accesses_ max_window_size_ window_size_ atotal amax awindow acount]; try done.
  - split; cbn [width_ depth_ table_ hash_seeds_ saturated_]; try done; try lia.
    + unfold resize_table. rewrite length_replicate, wrap_small by nia. nia.
    + apply Forall_replicate. lia.
  - intros k i Hi. unfold cell. cbn [table_]. unfold resize_table.
    set (x := Z.to_nat (index_for _ k i)). destruct (replicate _ 0 !! x) as [c|] eqn:Ec; simpl; [|done].
    apply lookup_replicate in Ec as [-> _]. done.
Qed.

(** ** Save and load *)

Lemma save_state_spec s : cms_ok s ->
  width_ s <= U32_MAX -> depth_ s <= U32_MAX -> depth_ s * width_ s <= U32_MAX - 5 ->
  save_state s = Some (width_ s :: depth_ s :: u32 (total_accesses_ s) :: u32 (decay_step_ s) :: saturated_ s :: table_ s).
Proof.
  intros [Hw Hd Hsz Hl Hse Hc Hsat] Hw2 Hd2 Hs. unfold save_state, serialized_state_words. rewrite Hl.
  rewrite (wrap_small 64) by nia. rewrite !(proj2 (Z.ltb_ge _ _)) by lia. simpl. do 2 f_equal; [apply wrap_small; lia|].
  do 2 f_equal; [apply wrap_small; lia|]. do 2 f_equal. f_equal. apply wrap_small. rewrite Hsat.
  pose proof (recount_bound (table_ s)). lia.
Qed.
End sketch.

(** The rows of a default-shaped sketch for a large cache. *)
Lemma default_width (raw : Z -> Z -> Z) capacity s :
  capacity <> 0 -> 2 ^ 21 < raw capacity kDefaultWindowMultiplier <= 2 ^ 31 ->
  cms_new raw capacity kDefaultWindowMultiplier kDefaultHashCount = Some s -> 2 ^ 20 <= width_ s <= 2 ^ 29.
Proof.
  intros Hcap Hraw E0. unfold cms_new in E0. rewrite (proj2 (Z.eqb_neq _ _) Hcap), (proj2 (Z.ltb_ge _ _)) in E0 by lia.
  destruct (next_pow2_spec (raw capacity kDefaultWindowMultiplier)) as (e & En & He & Hv); [lia|]. rewrite En in E0.
  simpl in E0. injection E0 as <-. cbn [width_]. change (Z.max kDefaultHashCount 1) with (2 ^ 2).
  assert (2 ^ 21 < 2 ^ e) as Hlo by lia. apply Z.pow_lt_mono_r_iff in Hlo; [|lia|lia].
  assert (2 ^ e < 2 ^ 32) as Hhi by lia. apply Z.pow_lt_mono_r_iff in Hhi; [|lia|lia].
  rewrite <- Z.pow_sub_r by lia. pose proof (Z.pow_le_mono_r 2 20 (e - 2)). pose proof (Z.pow_le_mono_r 2 (e - 2) 29). lia.
Qed.

(** * Claims *)

(** C38: the sketch built from any configuration whose size formula stays below
    [2^61] never reads or writes outside its table, whatever operations
    (records with their automatic ageing, decays, resets, window changes)
    follow; afterwards its estimate of every key is at least the exact ageing
    count of that key, is that count when some row has no collision with
    another recorded key, and the saturation counter is exactly the number of
    saturated cells. *)
Theorem cms_never_underestimates {Key : Type} `{EqDecision Key} (Hash : Key -> Z)
    (raw : Z -> Z -> Z) (capacity mult hash_count : Z) (os : list cms_op) :
  let cap := if capacity =? 0 then kDefaultCapacity else capacity in
  raw cap mult <= 2 ^ 61 -> 0 <= hash_count < 2 ^ 32 -> Forall op_ok os ->
  exists s, (cms_new raw capacity mult hash_count ≫= run_ops Hash os) = Some s /\
    saturated_ s = recount_saturated (table_ s) /\
    let a := spec_ops os (Ageing (fun _ => 0) 0 (u64 (cap * mult)) (u64 (cap * mult))) in
    window_size_ s = awindow a /\
    forall k, exists n, estimate Hash k s = Some n /\ acount a k <= n <= U32_MAX /\
      ((exists i, (i < Z.to_nat (depth_ s))%nat /\ no_collision Hash s (history os []) i k) -> n = acount a k).
Proof.
  intros cap Hraw Hh Hos. destruct (cms_new_spec Hash raw capacity mult hash_count Hraw Hh) as (s0 & -> & _ & _ & Hap).
  destruct (approximates_ops Hash os s0 _ [] Hap Hos) as (s & E & _ & Hap'). exists s. simpl. split; [done|].
  split; [apply (ok_sat _ (ap_ok _ _ _ _ Hap'))|]. split; [apply (ap_window _ _ _ _ Hap')|].
  intros k. by apply approximates_estimate.
Qed.

Lemma cms_never_underestimates_witness :
  let os := [Record_ 7; Record_ 9; Record_ 7; SetMaxWindow 4; Record_ 7; Record_ 3; Decay (fun c => c * 3 / 4)] in
  exists s, (cms_new (fun c m => c * m * 27182 / 50000) 2 2 2 ≫= run_ops (fun k : Z => k) os) = Some s /\
    saturated_ s = recount_saturated (table_ s) /\
    let a := spec_ops os (Ageing (fun _ => 0) 0 (u64 (2 * 2)) (u64 (2 * 2))) in
    window_size_ s = awindow a /\
    forall k, exists n, estimate (fun k => k) k s = Some n /\ acount a k <= n <= U32_MAX /\
      ((exists i, (i < Z.to_nat (depth_ s))%nat /\ no_collision (fun k => k) s (history os []) i k) -> n = acount a k).
Proof.
  intros os.
  refine (cms_never_underestimates (fun k : Z => k) (fun c m => c * m * 27182 / 50000) 2 2 2 os _ _ _).
  - vm_compute. discriminate.
  - lia.
  - unfold os. repeat apply Forall_cons_2; try exact I; [|apply Forall_nil_2]. split.
    + intros c Hc. split; [apply Z.div_pos; lia|]. apply Z.div_le_upper_bound; lia.
    + intros c d Hcd Hd. apply Z.div_le_mono; lia.
Defined.

(** [load_state] of the words [save_state] wrote, into any sketch, consumes
    exactly those words and restores the table, the dimensions, the seeds and
    the saturation count, so that every key has the estimate it had; the access
    and step counters come back modulo [2^32]. *)
Theorem cms_save_load {Key : Type} (Hash : Key -> Z) (s t : count_min_sketch) (rest : list Z) :
  cms_ok s -> width_ s <= k_max_width -> depth_ s <= k_max_depth ->
  exists ws s', save_state s = Some ws /\
    load_state (ws ++ rest) t = loaded (Z.of_nat (length ws)) s' /\ cms_ok s' /\
    table_ s' = table_ s /\ same_shape s s' /\ saturated_ s' = saturated_ s /\
    total_accesses_ s' = u32 (total_accesses_ s) /\ decay_step_ s' = u32 (decay_step_ s) /\
    forall k, estimate Hash k s' = estimate Hash k s.
Proof.
  intros Hok Hw Hd. unfold k_max_width, k_max_depth in *.
  pose proof Hok as [Hw1 Hd1 Hsz Hl Hse Hc Hsat].
  rewrite (save_state_spec s Hok) by (try lia; nia). eexists _, _. split; [reflexivity|].
  cbn [load_state app]. unfold k_max_width, k_max_depth.
  rewrite !(proj2 (Z.eqb_neq _ _)), !(proj2 (Z.ltb_ge _ _)) by lia. cbn [orb].
  rewrite (wrap_small 64 (_ * _)) by nia. rewrite <- Hl, Nat2Z.id, length_app.
  assert ((length (table_ s) + length rest <? length (table_ s))%nat = false) as -> by (apply Nat.ltb_ge; lia).
  rewrite take_app_length, (wrap_small 64) by nia. split.
  { f_equal. simpl. lia. }
  split; [split; cbn [width_ depth_ table_ hash_seeds_ saturated_]; done|].
  split; [done|]. split; [done|]. split; [by rewrite Hsat|]. split; [done|]. split; [done|].
  intros k. unfold estimate, index_for. cbn [depth_ width_ hash_seeds_ table_]. by rewrite Hse.
Qed.

Lemma cms_save_load_witness :
  let s := CountMinSketch [1; 0; U32_MAX; 5; 0; 0; 2; 0] (init_hash_seeds 2) 4 2 (2 ^ 32 + 6) 100 50 0 1 8 in
  exists ws s', save_state s = Some ws /\ load_state (ws ++ [42]) s = loaded (Z.of_nat (length ws)) s' /\
    total_accesses_ s' = 6 /\ forall k, estimate (fun k => k) k s' = estimate (fun k => k) k s.
Proof.
  intros s.
  destruct (cms_save_load (fun k => k) s s [42]) as (ws & s' & H1 & H2 & _ & _ & _ & _ & H3 & _ & H4).
  - unfold s. split; cbn [width_ depth_ table_ hash_seeds_ saturated_]; try done; try lia.
    repeat (apply Forall_cons_2; [lia|]). apply Forall_nil_2.
  - vm_compute. discriminate.
  - vm_compute. discriminate.
  - exists ws, s'. split; [exact H1|]. split; [exact H2|]. split; [|exact H4]. rewrite H3. vm_compute. reflexivity.
Defined.

(** [load_state] refuses what [save_state] writes for every default-shaped
    sketch (multiplier 32, four rows) whose size formula is between [2^21] and
    [2^31], which is any cache of more than about 120,550 items: after any
    operations the save succeeds and loading it into any sketch reports
    malformed dimensions. *)
Theorem large_sketch_not_restorable {Key : Type} `{EqDecision Key} (Hash : Key -> Z)
    (raw : Z -> Z -> Z) (capacity : Z) (os : list cms_op) :
  capacity <> 0 -> 2 ^ 21 < raw capacity kDefaultWindowMultiplier <= 2 ^ 31 -> Forall op_ok os ->
  exists s ws, (cms_new raw capacity kDefaultWindowMultiplier kDefaultHashCount ≫= run_ops Hash os) = Some s /\
    save_state s = Some ws /\ forall t, exists t', load_state ws t = malformed t'.
Proof.
  intros Hcap Hraw Hos.
  destruct (cms_new_spec Hash raw capacity kDefaultWindowMultiplier kDefaultHashCount) as (s0 & E0 & _ & Hd & Hap).
  { rewrite (proj2 (Z.eqb_neq _ _) Hcap). lia. }
  { unfold kDefaultHashCount. lia. }
  pose proof (default_width raw capacity s0 Hcap Hraw E0) as Hw.
  destruct (approximates_ops Hash os s0 _ [] Hap Hos) as (s & E & (_ & Ew & Ed) & Hap').
  change (Z.max kDefaultHashCount 1) with 4 in Hd. rewrite Hd in Ed.
  exists s. eexists. rewrite E0. split; [done|]. split.
  - apply save_state_spec; [apply (ap_ok _ _ _ _ Hap')|rewrite ?Ew, ?Ed; lia..].
  - intros t. eexists. cbn [load_state]. unfold k_max_width.
    rewrite (proj2 (Z.ltb_lt 1000000 (width_ s))) by lia. rewrite !orb_true_r. reflexivity.
Qed.

Lemma large_sketch_not_restorable_witness :
  exists s ws, (cms_new (fun c m => c * m * 2718281 / 5000000) 200000 kDefaultWindowMultiplier kDefaultHashCount
      ≫= run_ops (fun k : Z => k) [Record_ 7]) = Some s /\
    save_state s = Some ws /\ forall t, exists t', load_state ws t = malformed t'.
Proof.
  refine (large_sketch_not_restorable (fun k : Z => k) (fun c m => c * m * 2718281 / 5000000) 200000 [Record_ 7] _ _ _).
  - discriminate.
  - vm_compute. split; [reflexivity|discriminate].
  - apply Forall_cons_2; [exact I|apply Forall_nil_2].
Defined.
