(* ===== verification/LatencyHistogram.v ===== *)
(** The log-linear latency histogram of detail/latency_histogram.hpp: bucket
    layout, sampled recording, percentiles with interpolation, and merging. *)

From Stdlib Require Import Sorted.
From S2P Require Import Prelude.

Definition kLatencyBucketCount : Z := 512.
Definition bucket_count : Z := kLatencyBucketCount.
Definition kSentinel : Z := U64_MAX.

(** * Data *)

Record latency_histogram := LatencyHistogram {
  buckets_ : list Z;
  min_ : Z;
  max_ : Z;
  sum_ : Z;
  sample_rate_ : Z
}.

Definition histogram_new : latency_histogram :=
  LatencyHistogram (replicate (Z.to_nat bucket_count) 0) kSentinel kSentinel 0 1.

(** * Bucket layout *)

(** The leading zeros, by the portable loop from bit 63 down. *)
Fixpoint clz_loop (bits : nat) (n x : Z) : Z :=
  match bits with
  | O => 64
  | S b => if negb (Z.land x (Z.shiftl 1 (Z.of_nat b)) =? 0) then n else clz_loop b (n + 1) x
  end.

Definition countl_zero64 (x : Z) : Z := if x =? 0 then 64 else clz_loop 64 0 x.

Definition bucket_index (latency_ns : Z) : Z :=
  if latency_ns =? 0 then 0
  else if latency_ns <? 16 then latency_ns
  else
    let clz := countl_zero64 latency_ns in
    let k := 63 - clz in
    let sub := Z.land (Z.shiftr latency_ns (k - 4)) 0xF in
    let idx := (k - 3) * 16 + sub in
    if bucket_count <=? idx then bucket_count - 1 else idx.

Definition bucket_lower_bound (i : Z) : Z :=
  if i =? 0 then 0
  else if i <=? 15 then i
  else
    let i := if bucket_count <=? i then bucket_count - 1 else i in
    let k := i / 16 + 3 in
    let sub := i mod 16 in
    u64 (u64 (Z.shiftl 1 k) + u64 (Z.shiftl sub (k - 4))).

Definition bucket_upper_bound (i : Z) : Z :=
  if bucket_count - 1 <=? i then U64_MAX else bucket_lower_bound (i + 1).

(** * Recording *)

(** The increment of one bucket. *)
Definition bump (idx : Z) (delta : Z) (b : list Z) : list Z := alter (fun c => u64 (c + delta)) (Z.to_nat idx) b.

(** The compare-and-swap loops, run without interference. *)
Definition update_min (cur latency_ns : Z) : Z := if latency_ns <? cur then latency_ns else cur.
Definition update_max (cur latency_ns : Z) : Z :=
  if (cur =? kSentinel) || (cur <? latency_ns) then latency_ns else cur.

Definition record_sample (latency_ns : Z) (h : latency_histogram) : latency_histogram :=
  LatencyHistogram (bump (bucket_index latency_ns) 1 (buckets_ h))
    (update_min (min_ h) latency_ns) (update_max (max_ h) latency_ns)
    (u64 (sum_ h + latency_ns)) (sample_rate_ h).

(** [counter] is the calling thread's slot of [per_thread_counter]. *)
Definition record (latency_ns : Z) (counter : Z) (h : latency_histogram) : Z * latency_histogram :=
  let rate := sample_rate_ h in
  if 1 <? rate then
    let n := u64 (counter + 1) in
    if negb (n mod rate =? 0) then (n, h) else (n, record_sample latency_ns h)
  else (counter, record_sample latency_ns h).

Definition set_latency_sample_rate (rate : Z) (h : latency_histogram) : latency_histogram :=
  LatencyHistogram (buckets_ h) (min_ h) (max_ h) (sum_ h) (if rate =? 0 then 1 else rate).

(** * Queries *)

Definition count (h : latency_histogram) : Z := foldl (fun total c => u64 (total + c)) 0 (buckets_ h).

Definition min (h : latency_histogram) : Z := if min_ h =? kSentinel then 0 else min_ h.
Definition max (h : latency_histogram) : Z := if max_ h =? kSentinel then 0 else max_ h.
Definition sum (h : latency_histogram) : Z := sum_ h.

Definition bucket (idx : Z) (h : latency_histogram) : Z :=
  if bucket_count <=? idx then 0 else default 0 (buckets_ h !! Z.to_nat idx).

(** What is returned for a target inside bucket [i]. *)
Definition interpolate (i target prev_cumulative bucket_count_i : Z) : Z :=
  let lower := bucket_lower_bound i in
  let upper := bucket_upper_bound i in
  if (bucket_count_i =? 0) || (upper <=? lower) then lower
  else
    let into := u64 (target - prev_cumulative) in
    let into := if bucket_count_i <=? into then bucket_count_i - 1 else into in
    if bucket_count - 1 <=? i then lower
    else
      let width := u64 (upper - lower) in
      let offset := u64 (width * u64 (2 * into + 1)) / u64 (2 * bucket_count_i) in
      u64 (lower + offset).

(** The scan over the buckets from index [i]. *)
Fixpoint percentile_loop (bs : list Z) (i cumulative target : Z) : Z :=
  match bs with
  | [] => bucket_lower_bound (bucket_count - 1)
  | c :: bs =>
      let cumulative' := u64 (cumulative + c) in
      if target <? cumulative' then interpolate i target cumulative c
      else percentile_loop bs (i + 1) cumulative' target
  end.

(** [rank total] is the double product of [total] and the clamped [p],
    truncated. *)
Definition percentile (rank : Z -> Z) (h : latency_histogram) : Z :=
  let total := count h in
  if total =? 0 then 0
  else
    let target := rank total in
    let target := if total <=? target then total - 1 else target in
    percentile_loop (buckets_ h) 0 0 target.

Definition reset (h : latency_histogram) : latency_histogram :=
  LatencyHistogram ((fun _ => 0) <$> buckets_ h) kSentinel kSentinel 0 (sample_rate_ h).

Definition release_memory (h : latency_histogram) : latency_histogram := reset h.

Definition merge_from (other h : latency_histogram) : latency_histogram :=
  LatencyHistogram
    (zip_with (fun c delta => if negb (delta =? 0) then u64 (c + delta) else c) (buckets_ h) (buckets_ other))
    (if negb (min_ other =? kSentinel) then
       if (min_ h =? kSentinel) || (min_ other <? min_ h) then min_ other else min_ h
     else min_ h)
    (if negb (max_ other =? kSentinel) then
       if (max_ h =? kSentinel) || (max_ h <? max_ other) then max_ other else max_ h
     else max_ h)
    (if negb (sum_ other =? 0) then u64 (sum_ h + sum_ other) else sum_ h)
    (sample_rate_ h).

(** * Bucket geometry *)

Lemma clz_loop_spec bits n x : 0 < x < 2 ^ Z.of_nat bits -> n + Z.of_nat bits = 64 -> clz_loop bits n x = 63 - Z.log2 x.
Proof.
  revert n; induction bits as [|b IH]; intros n Hx Hn; [simpl in Hx; lia|]. cbn [clz_loop].
  assert (Z.land x (Z.shiftl 1 (Z.of_nat b)) = if Z.testbit x (Z.of_nat b) then 2 ^ Z.of_nat b else 0) as ->.
  { rewrite Z.shiftl_mul_pow2, Z.mul_1_l by lia. destruct (Z.testbit x (Z.of_nat b)) eqn:E; apply Z.bits_inj'; intros i Hi;
      rewrite Z.land_spec, Z.pow2_bits_eqb by lia; destruct (Z.eqb_spec (Z.of_nat b) i) as [<-|];
      rewrite ?E, ?andb_false_r, ?Z.bits_0; done. }
  destruct (Z.testbit x (Z.of_nat b)) eqn:E.
  - rewrite (proj2 (Z.eqb_neq _ _)) by (pose proof (Z.pow_pos_nonneg 2 (Z.of_nat b)); lia). simpl.
    assert (Z.log2 x = Z.of_nat b); [|lia]. apply Z.log2_unique; [lia|]. replace (Z.succ (Z.of_nat b)) with (Z.of_nat (S b)) by lia. split; [|lia].
    destruct (Z.lt_ge_cases x (2 ^ Z.of_nat b)) as [Hlt|]; [|done].
    rewrite (testbit_high x (Z.of_nat b)) in E; [done|lia|lia].
  - simpl. apply IH; [|lia]. split; [lia|]. apply bits_bounded; [lia|lia|]. intros i Hi.
    destruct (Z.eq_dec i (Z.of_nat b)) as [->|]; [done|]. apply (testbit_high x (Z.of_nat (S b))); lia.
Qed.

Lemma countl_zero64_spec x : 0 < x < 2 ^ 64 -> countl_zero64 x = 63 - Z.log2 x.
Proof.
  intros Hx. unfold countl_zero64. rewrite (proj2 (Z.eqb_neq _ _)) by lia. by apply clz_loop_spec.
Qed.

(** The lower bound without the machine arithmetic. *)
Lemma lower_bound_eq i : 16 <= i < 512 -> bucket_lower_bound i = 2 ^ (i / 16 - 1) * (16 + i mod 16).
Proof.
  intros Hi. unfold bucket_lower_bound, bucket_count, kLatencyBucketCount.
  rewrite (proj2 (Z.eqb_neq _ _)), (proj2 (Z.leb_gt _ _)), (proj2 (Z.leb_gt 512 i)) by lia. cbv zeta.
  pose proof (Z.mod_pos_bound i 16 ltac:(lia)). assert (1 <= i / 16 <= 31) as Hq by (split; [apply Z.div_le_lower_bound|apply Z.lt_succ_r, Z.div_lt_upper_bound]; lia).
  rewrite !Z.shiftl_mul_pow2 by lia. replace (i / 16 + 3 - 4) with (i / 16 - 1) by lia.
  replace (i / 16 + 3) with ((i / 16 - 1) + 4) by lia. rewrite Z.pow_add_r by lia.
  pose proof (Z.pow_le_mono_r 2 (i / 16 - 1) 30 ltac:(lia) ltac:(lia)). pose proof (Z.pow_pos_nonneg 2 (i / 16 - 1)).
  set (P := 2 ^ (i / 16 - 1)) in *. assert (0 <= i mod 16 * P <= 15 * P) by nia.
  change (2 ^ 4) with 16. rewrite (wrap_small 64 (1 * _)), (wrap_small 64 (_ mod _ * _)), wrap_small; lia.
Qed.

(** Adjacent buckets. *)
Lemma lower_bound_step i : 16 <= i < 511 -> bucket_lower_bound (i + 1) = bucket_lower_bound i + 2 ^ (i / 16 - 1).
Proof.
  intros Hi. rewrite !lower_bound_eq by lia. pose proof (Z.mod_pos_bound i 16 ltac:(lia)).
  pose proof (Z.div_mod i 16 ltac:(lia)) as Hdm. set (q := i / 16) in *. set (r := i mod 16) in *.
  assert (1 <= q) by lia. destruct (Z.eq_dec r 15) as [E|E].
  - assert ((i + 1) / 16 = q + 1) as -> by (symmetry; apply (Z.div_unique_pos _ _ _ 0); lia).
    assert ((i + 1) mod 16 = 0) as -> by (symmetry; apply (Z.mod_unique_pos _ _ (q + 1)); lia).
    replace (q + 1 - 1) with ((q - 1) + 1) by lia. rewrite Z.pow_add_r by lia. lia.
  - assert ((i + 1) / 16 = q) as -> by (symmetry; apply (Z.div_unique_pos _ _ _ (r + 1)); lia).
    assert ((i + 1) mod 16 = r + 1) as -> by (symmetry; apply (Z.mod_unique_pos _ _ q); lia). lia.
Qed.

Lemma lower_bound_small i : 0 <= i <= 16 -> bucket_lower_bound i = i.
Proof.
  intros Hi. destruct (Z.eq_dec i 16) as [->|]; [done|]. unfold bucket_lower_bound.
  destruct (i =? 0) eqn:E; bool_to_Z; [lia|]. by rewrite (proj2 (Z.leb_le _ _)) by lia.
Qed.

Lemma width_pos i : 16 <= i -> 0 < 2 ^ (i / 16 - 1).
Proof. intros. assert (1 <= i / 16) by (apply Z.div_le_lower_bound; lia). apply Z.pow_pos_nonneg; lia. Qed.

Lemma lower_bound_next i : 0 <= i < 511 -> bucket_lower_bound i < bucket_lower_bound (i + 1).
Proof.
  intros Hi. destruct (Z.lt_ge_cases i 16).
  - rewrite !lower_bound_small by lia. lia.
  - rewrite lower_bound_step by lia. pose proof (width_pos i). lia.
Qed.

Lemma lower_bound_mono i j : 0 <= i < j -> j <= 511 -> bucket_lower_bound i < bucket_lower_bound j.
Proof.
  intros Hi Hj. assert (forall n : nat, i + 1 + Z.of_nat n <= 511 -> bucket_lower_bound i < bucket_lower_bound (i + 1 + Z.of_nat n)) as Hn.
  { induction n as [|n IH]; intros H.
    - rewrite Z.add_0_r. apply lower_bound_next. lia.
    - rewrite Nat2Z.inj_succ in *. replace (i + 1 + Z.succ (Z.of_nat n)) with (i + 1 + Z.of_nat n + 1) by lia.
      pose proof (lower_bound_next (i + 1 + Z.of_nat n)). lia. }
  specialize (Hn (Z.to_nat (j - i - 1))). replace (i + 1 + Z.of_nat (Z.to_nat (j - i - 1))) with j in Hn by lia. auto.
Qed.

(** The bucket of a latency holds it. *)
Lemma bucket_index_spec L : 0 <= L < 2 ^ 64 ->
  let i := bucket_index L in
  0 <= i <= 511 /\ bucket_lower_bound i <= L /\ (i < 511 -> L < bucket_lower_bound (i + 1)).
Proof.
  intros HL. cbv zeta. unfold bucket_index. destruct (L =? 0) eqn:E0; bool_to_Z.
  { subst. rewrite !lower_bound_small by lia. lia. }
  destruct (L <? 16) eqn:E16; bool_to_Z.
  { rewrite !lower_bound_small by lia. lia. }
  rewrite countl_zero64_spec by lia. replace (63 - (63 - Z.log2 L)) with (Z.log2 L) by lia.
  destruct (Z.log2_spec L ltac:(lia)) as [Hlo Hhi]. pose proof (Z.log2_le_mono 16 L ltac:(lia)) as Hk.
  change (Z.log2 16) with 4 in Hk. set (k := Z.log2 L) in *.
  set (P := 2 ^ (k - 4)). assert (0 < P) as HP by (apply Z.pow_pos_nonneg; lia).
  assert (2 ^ k = P * 16) as Ek by (unfold P; change 16 with (2 ^ 4); rewrite <- Z.pow_add_r by lia; f_equal; lia).
  rewrite Z.pow_succ_r, Ek in Hhi by lia. rewrite Ek in Hlo.
  assert (16 <= L / P < 32) as HLP by (split; [apply Z.div_le_lower_bound|apply Z.div_lt_upper_bound]; lia).
  assert (Z.land (Z.shiftr L (k - 4)) 0xF = L / P - 16) as ->.
  { rewrite Z.shiftr_div_pow2 by lia. change 0xF with (Z.ones 4). rewrite Z.land_ones by lia. fold P. change (2 ^ 4) with 16.
    symmetry. apply (Z.mod_unique_pos _ _ 1); lia. }
  pose proof (Z.div_mod L P ltac:(lia)) as Hdm. pose proof (Z.mod_pos_bound L P HP).
  unfold bucket_count, kLatencyBucketCount. destruct (512 <=? _) eqn:E; bool_to_Z.
  - split; [lia|]. split; [|lia]. change (512 - 1) with 511. rewrite lower_bound_eq by lia.
    change (2 ^ (511 / 16 - 1) * (16 + 511 mod 16)) with (2 ^ 30 * 31).
    assert (35 <= k) as H35 by lia. pose proof (Z.pow_le_mono_r 2 31 (k - 4) ltac:(lia) ltac:(lia)). fold P in H0. lia.
  - set (i := (k - 3) * 16 + (L / P - 16)) in *.
    assert (i / 16 = k - 3) as Hq by (symmetry; apply (Z.div_unique_pos _ _ _ (L / P - 16)); lia).
    assert (i mod 16 = L / P - 16) as Hr by (symmetry; apply (Z.mod_unique_pos _ _ (k - 3)); lia).
    assert (bucket_lower_bound i = P * (L / P)) as Hl.
    { rewrite lower_bound_eq, Hq, Hr by lia. replace (k - 3 - 1) with (k - 4) by lia. fold P. f_equal. lia. }
    split; [lia|]. split; [lia|]. intros. rewrite lower_bound_step, Hl, Hq by lia.
    replace (k - 3 - 1) with (k - 4) by lia. fold P. lia.
Qed.

(** Buckets of at most 1/16 of their lower bound. *)
Lemma width_relative i : 16 <= i < 511 -> 16 * (bucket_upper_bound i - bucket_lower_bound i) <= bucket_lower_bound i.
Proof.
  intros Hi. unfold bucket_upper_bound, bucket_count, kLatencyBucketCount.
  rewrite (proj2 (Z.leb_gt _ _)), lower_bound_step, lower_bound_eq by lia.
  pose proof (width_pos i). pose proof (Z.mod_pos_bound i 16). nia.
Qed.

Lemma upper_bound_next i : i < 511 -> bucket_upper_bound i = bucket_lower_bound (i + 1).
Proof. intros. unfold bucket_upper_bound, bucket_count, kLatencyBucketCount. by rewrite (proj2 (Z.leb_gt _ _)) by lia. Qed.

(** A latency is in the bucket whose bounds enclose it. *)
Lemma bucket_index_unique L i : 0 <= L < 2 ^ 64 -> 0 <= i <= 511 -> bucket_lower_bound i <= L ->
  (i < 511 -> L < bucket_lower_bound (i + 1)) -> bucket_index L = i.
Proof.
  intros HL Hi Hlo Hhi. destruct (bucket_index_spec L HL) as (Hj & Hjlo & Hjhi). set (j := bucket_index L) in *.
  destruct (Z.lt_trichotomy i j) as [H|[->|H]]; [|done|]; exfalso.
  - assert (bucket_lower_bound (i + 1) <= bucket_lower_bound j).
    { destruct (Z.eq_dec (i + 1) j) as [->|]; [lia|]. apply Z.lt_le_incl, lower_bound_mono; lia. } lia.
  - assert (bucket_lower_bound (j + 1) <= bucket_lower_bound i).
    { destruct (Z.eq_dec (j + 1) i) as [->|]; [lia|]. apply Z.lt_le_incl, lower_bound_mono; lia. } lia.
Qed.

Lemma bucket_index_mono L M : 0 <= L <= M -> M < 2 ^ 64 -> bucket_index L <= bucket_index M.
Proof.
  intros HL HM. destruct (bucket_index_spec L ltac:(lia)) as (Hi & Hlo & Hhi). destruct (bucket_index_spec M ltac:(lia)) as (Hj & Hlo' & Hhi').
  destruct (Z.lt_ge_cases (bucket_index M) (bucket_index L)) as [H|]; [exfalso|done].
  assert (bucket_lower_bound (bucket_index M + 1) <= bucket_lower_bound (bucket_index L)).
  { destruct (Z.eq_dec (bucket_index M + 1) (bucket_index L)) as [->|]; [lia|]. apply Z.lt_le_incl, lower_bound_mono; lia. }
  lia.
Qed.

(** * The samples a histogram stands for *)

Definition n_at (i : Z) (l : list Z) : Z := Z.of_nat (length (filter (fun x => bucket_index x = i) l)).
Definition n_below (i : Z) (l : list Z) : Z := Z.of_nat (length (filter (fun x => bucket_index x < i) l)).
Definition total_of (l : list Z) : Z := foldr Z.add 0 l.
Definition min_of (l : list Z) : Z := foldr Z.min kSentinel l.
Definition max_of (l : list Z) : Z := match l with [] => kSentinel | _ => foldr Z.max 0 l end.

Definition sample_ok (x : Z) : Prop := 0 <= x < kSentinel.

(** Counters, sum and extremes are those of the samples [l]. *)
Record represents (h : latency_histogram) (l : list Z) : Prop := {
  re_ok : Forall sample_ok l;
  re_size : Z.of_nat (length l) < 2 ^ 64;
  re_buckets : buckets_ h = (fun i => n_at i l) <$> seqZ 0 512;
  re_sum : sum_ h = u64 (total_of l);
  re_min : min_ h = min_of l;
  re_max : max_ h = max_of l
}.

Lemma n_at_cons i x l : n_at i (x :: l) = n_at i l + (if decide (bucket_index x = i) then 1 else 0).
Proof. unfold n_at. rewrite filter_cons. case_decide; simpl; lia. Qed.

Lemma n_at_app i l1 l2 : n_at i (l1 ++ l2) = n_at i l1 + n_at i l2.
Proof. unfold n_at. rewrite filter_app, length_app. lia. Qed.

Lemma n_at_bound i l : 0 <= n_at i l <= Z.of_nat (length l).
Proof. unfold n_at. pose proof (length_filter (fun x => bucket_index x = i) l). lia. Qed.

Lemma n_below_bound i l : 0 <= n_below i l <= Z.of_nat (length l).
Proof. unfold n_below. pose proof (length_filter (fun x => bucket_index x < i) l). lia. Qed.

Lemma n_below_succ i l : n_below (i + 1) l = n_below i l + n_at i l.
Proof.
  unfold n_below, n_at. induction l as [|x l IH]; [done|]. rewrite !filter_cons. repeat case_decide; simpl; lia.
Qed.

Lemma sample_index x : sample_ok x -> 0 <= bucket_index x <= 511.
Proof. intros [H1 H2]. unfold kSentinel in H2. apply bucket_index_spec. lia. Qed.

Lemma n_below_0 l : Forall sample_ok l -> n_below 0 l = 0.
Proof.
  induction 1 as [|x l Hx _ IH]; [done|]. unfold n_below in *. rewrite filter_cons.
  pose proof (sample_index x Hx). rewrite decide_False by lia. done.
Qed.

Lemma n_below_512 l : Forall sample_ok l -> n_below 512 l = Z.of_nat (length l).
Proof.
  induction 1 as [|x l Hx _ IH]; [done|]. unfold n_below in *. rewrite filter_cons.
  pose proof (sample_index x Hx). rewrite decide_True by lia. simpl. lia.
Qed.

Lemma extremes_ok l : Forall sample_ok l ->
  0 <= min_of l <= kSentinel /\ (l <> [] -> 0 <= min_of l < kSentinel /\ 0 <= foldr Z.max 0 l < kSentinel).
Proof.
  induction 1 as [|x l [Hx1 Hx2] _ IH]; [done|]. destruct IH as [H1 H2]. unfold min_of in *. simpl.
  split; [lia|]. intros _. split; [lia|]. destruct l; [simpl; lia|]. destruct (H2 ltac:(done)). lia.
Qed.

Lemma max_of_cons x l : sample_ok x -> Forall sample_ok l -> max_of (x :: l) = update_max (max_of l) x.
Proof.
  intros [Hx1 Hx2] Hl. unfold update_max. destruct l as [|y l].
  { cbn [max_of foldr]. rewrite Z.eqb_refl. simpl. lia. }
  destruct (extremes_ok (y :: l) Hl) as [_ [_ Hm]]; [done|]. cbn [max_of] in *. cbn [foldr]. cbn [foldr] in Hm.
  set (m := Z.max y _) in *. rewrite (proj2 (Z.eqb_neq _ _)) by lia. simpl. destruct (m <? x) eqn:E; bool_to_Z; lia.
Qed.

Lemma max_of_app l1 l2 : Forall sample_ok l1 -> Forall sample_ok l2 ->
  max_of (l1 ++ l2) = (if negb (max_of l2 =? kSentinel) then
       if (max_of l1 =? kSentinel) || (max_of l1 <? max_of l2) then max_of l2 else max_of l1
     else max_of l1).
Proof.
  intros H1 H2. destruct (extremes_ok _ H1) as [_ E1]. destruct (extremes_ok _ H2) as [_ E2].
  assert (forall l a, foldr Z.max a l = Z.max a (foldr Z.max a l)) as Hm.
  { induction l as [|x l IH]; intros a; simpl; [lia|]. rewrite IH. lia. }
  destruct l1 as [|x l1].
  { simpl. destruct l2 as [|y l2]; [done|]. destruct (E2 ltac:(done)) as [_ ?].
    unfold max_of at 2. by rewrite (proj2 (Z.eqb_neq _ _)) by lia. }
  destruct l2 as [|y l2]; [by rewrite app_nil_r|]. destruct (E1 ltac:(done)) as [_ ?], (E2 ltac:(done)) as [_ ?].
  unfold max_of. rewrite !(proj2 (Z.eqb_neq _ _)) by lia. simpl negb. cbv iota. rewrite orb_false_l.
  change ((x :: l1) ++ y :: l2) with (x :: l1 ++ y :: l2).
  assert (foldr Z.max 0 (x :: l1 ++ y :: l2) = Z.max (foldr Z.max 0 (x :: l1)) (foldr Z.max 0 (y :: l2))) as ->.
  { change (x :: l1 ++ y :: l2) with ((x :: l1) ++ (y :: l2)). generalize (y :: l2) as m. intros m.
    rewrite foldr_app. generalize (x :: l1) as k. intros k. clear. induction k as [|z k IH]; simpl; [|lia].
    induction m; simpl; lia. }
  destruct (_ <? _) eqn:E; bool_to_Z; lia.
Qed.

Lemma min_of_app l1 l2 : Forall sample_ok l1 -> Forall sample_ok l2 -> min_of (l1 ++ l2) = Z.min (min_of l1) (min_of l2).
Proof.
  intros H1 H2. destruct (extremes_ok _ H2) as [? _]. unfold min_of in *. induction H1 as [|x l Hx _ IH]; simpl; lia.
Qed.

Lemma total_of_app l1 l2 : total_of (l1 ++ l2) = total_of l1 + total_of l2.
Proof. induction l1; simpl; lia. Qed.

(** ** Recording and merging *)

Lemma new_represents : represents histogram_new [].
Proof. by split; try constructor. Qed.

Lemma record_sample_represents x h l :
  represents h l -> sample_ok x -> Z.of_nat (length l) + 1 < 2 ^ 64 -> represents (record_sample x h) (x :: l).
Proof.
  intros [Hl Hs Hb Hsum Hmin Hmax] Hx Hn. pose proof (sample_index x Hx). split; unfold record_sample; cbn [buckets_ sum_ min_ max_].
  - by constructor.
  - simpl length. lia.
  - rewrite Hb. unfold bump. apply list_eq. intros j.
    destruct (decide (j = Z.to_nat (bucket_index x))) as [->|Hj].
    + rewrite list_lookup_alter_eq, !list_lookup_fmap, lookup_seqZ_lt by lia. simpl. rewrite n_at_cons.
      rewrite Z2Nat.id, Z.add_0_l, decide_True by lia. f_equal. apply wrap_small.
      pose proof (n_at_bound (bucket_index x) l). lia.
    + rewrite list_lookup_alter_ne, !list_lookup_fmap by done.
      destruct (seqZ 0 512 !! j) as [z|] eqn:Ez; [|done]. apply lookup_seqZ in Ez as [-> ?]. simpl.
      rewrite n_at_cons, decide_False by lia. by rewrite Z.add_0_r.
  - rewrite Hsum, wrap_add_l by lia. f_equal. simpl. lia.
  - rewrite Hmin. unfold update_min, min_of. simpl. destruct (_ <? _) eqn:E; bool_to_Z; lia.
  - rewrite Hmax. symmetry. by apply max_of_cons.
Qed.

Lemma merge_represents h1 h2 l1 l2 :
  represents h1 l1 -> represents h2 l2 -> Z.of_nat (length l1 + length l2) < 2 ^ 64 ->
  represents (merge_from h2 h1) (l1 ++ l2).
Proof.
  intros [Hl1 Hs1 Hb1 Hsum1 Hmin1 Hmax1] [Hl2 Hs2 Hb2 Hsum2 Hmin2 Hmax2] Hn.
  split; unfold merge_from; cbn [buckets_ sum_ min_ max_].
  - by apply Forall_app.
  - by rewrite length_app.
  - rewrite Hb1, Hb2, zip_with_fmap_l, zip_with_fmap_r. rewrite zip_with_diag.
    apply list_fmap_ext. intros _ i _. pose proof (n_at_bound i l1). pose proof (n_at_bound i l2).
    rewrite n_at_app. destruct (n_at i l2 =? 0) eqn:E; bool_to_Z; simpl; [lia|]. apply wrap_small. lia.
  - rewrite Hsum1, Hsum2, total_of_app. destruct (_ =? 0) eqn:E; bool_to_Z; simpl.
    + rewrite Z.add_comm, <- wrap_add_l, E by lia. by rewrite Z.add_0_l.
    + rewrite wrap_add_l, Z.add_comm, wrap_add_l by lia. f_equal. lia.
  - rewrite Hmin1, Hmin2, min_of_app by done. destruct (extremes_ok l1 Hl1) as [? _], (extremes_ok l2 Hl2) as [? _].
    destruct (min_of l2 =? kSentinel) eqn:E; bool_to_Z; simpl; [lia|].
    destruct (min_of l1 =? kSentinel) eqn:E1; bool_to_Z; simpl; [lia|]. destruct (_ <? _) eqn:E2; bool_to_Z; lia.
  - rewrite Hmax1, Hmax2. symmetry. by apply max_of_app.
Qed.

(** The samples that pass the rate, the thread's counter starting at [c]. *)
Fixpoint sampled (rate c : Z) (l : list Z) : list Z :=
  match l with
  | [] => []
  | x :: l => if (c + 1) mod rate =? 0 then x :: sampled rate (c + 1) l else sampled rate (c + 1) l
  end.

Lemma sampled_length rate c l : 1 < rate -> 0 <= c ->
  Z.of_nat (length (sampled rate c l)) = (c + Z.of_nat (length l)) / rate - c / rate.
Proof.
  intros Hr. revert c; induction l as [|x l IH]; intros c Hc; simpl sampled; [simpl; rewrite Z.add_0_r; lia|].
  assert ((c + 1) / rate = c / rate + if (c + 1) mod rate =? 0 then 1 else 0) as Hd.
  { pose proof (Z.div_mod c rate ltac:(lia)). pose proof (Z.mod_pos_bound c rate ltac:(lia)).
    destruct (Z.eq_dec (c mod rate) (rate - 1)).
    - assert ((c + 1) mod rate = 0) as -> by (symmetry; apply (Z.mod_unique_pos _ _ (c / rate + 1)); lia).
      rewrite Z.eqb_refl. symmetry. apply (Z.div_unique_pos _ _ _ 0); lia.
    - assert ((c + 1) mod rate = c mod rate + 1) as -> by (symmetry; apply (Z.mod_unique_pos _ _ (c / rate)); lia).
      rewrite (proj2 (Z.eqb_neq _ _)) by lia. symmetry. apply (Z.div_unique_pos _ _ _ (c mod rate + 1)); lia. }
  simpl length. rewrite Nat2Z.inj_succ. replace (c + Z.succ (Z.of_nat (length l))) with (c + 1 + Z.of_nat (length l)) by lia.
  revert Hd. destruct ((c + 1) mod rate =? 0); intros Hd; simpl length; rewrite ?Nat2Z.inj_succ, IH by lia; lia.
Qed.

(** A sequence of [record] calls of one thread. *)
Fixpoint record_all (l : list Z) (counter : Z) (h : latency_histogram) : Z * latency_histogram :=
  match l with
  | [] => (counter, h)
  | x :: l => let '(counter, h) := record x counter h in record_all l counter h
  end.

Lemma record_rate x c h : sample_rate_ (record x c h).2 = sample_rate_ h.
Proof. unfold record. repeat case_match; done. Qed.

Lemma record_all_sampled l c h l0 :
  1 < sample_rate_ h -> 0 <= c -> c + Z.of_nat (length l) < 2 ^ 64 -> Z.of_nat (length l0 + length l) < 2 ^ 64 ->
  Forall sample_ok l -> represents h l0 ->
  represents (record_all l c h).2 (rev (sampled (sample_rate_ h) c l) ++ l0).
Proof.
  revert c h l0; induction l as [|x l IH]; intros c h l0 Hr Hc Hw Hn Hl Hrep; [done|].
  apply Forall_cons in Hl as [Hx Hl]. simpl length in *. simpl. unfold record.
  rewrite (proj2 (Z.ltb_lt _ _) Hr), (wrap_small 64 (c + 1)) by lia.
  destruct ((c + 1) mod sample_rate_ h =? 0) eqn:E; simpl.
  - pose proof (record_sample_represents x h l0 Hrep Hx ltac:(lia)) as Hrep'.
    specialize (IH (c + 1) (record_sample x h) (x :: l0)). simpl in IH. rewrite <- app_assoc. apply IH; try done; lia.
  - apply IH; try done; lia.
Qed.

Lemma record_all_unsampled l c h l0 :
  sample_rate_ h <= 1 -> Z.of_nat (length l0 + length l) < 2 ^ 64 -> Forall sample_ok l -> represents h l0 ->
  represents (record_all l c h).2 (rev l ++ l0).
Proof.
  revert h l0; induction l as [|x l IH]; intros h l0 Hr Hn Hl Hrep; [done|].
  apply Forall_cons in Hl as [Hx Hl]. simpl length in *. simpl. unfold record. rewrite (proj2 (Z.ltb_ge _ _) Hr).
  pose proof (record_sample_represents x h l0 Hrep Hx ltac:(lia)) as Hrep'. rewrite <- app_assoc.
  apply IH; try done. simpl. lia.
Qed.

(** ** Reading back *)

Lemma count_spec h l : represents h l -> count h = Z.of_nat (length l).
Proof.
  intros [Hl Hs Hb _ _ _]. unfold count. rewrite Hb, <- (n_below_512 l Hl).
  assert (forall n i, 0 <= i -> foldl (fun total c => u64 (total + c)) (n_below i l) ((fun i => n_at i l) <$> seqZ i (Z.of_nat n))
    = n_below (i + Z.of_nat n) l) as Hf.
  { induction n as [|n IH]; intros i Hi; [simpl; by rewrite Z.add_0_r|].
    rewrite seqZ_cons, fmap_cons by lia. cbn [foldl percentile_loop]. cbv zeta. rewrite <- n_below_succ. pose proof (n_below_bound (i + 1) l).
    rewrite wrap_small by lia. replace (Z.pred (Z.of_nat (S n))) with (Z.of_nat n) by lia.
    replace (Z.succ i) with (i + 1) by lia. rewrite IH by lia. f_equal. lia. }
  specialize (Hf 512%nat 0 ltac:(lia)). by rewrite n_below_0 in Hf.
Qed.

Lemma interpolate_spec i target prev c :
  0 <= i <= 511 -> 0 <= prev <= target -> target < prev + c -> c <= 2 ^ 33 -> prev + c < 2 ^ 64 ->
  bucket_lower_bound i <= interpolate i target prev c /\
  (i < 511 -> interpolate i target prev c < bucket_lower_bound (i + 1)) /\
  (i = 511 -> interpolate i target prev c = bucket_lower_bound 511).
Proof.
  intros Hi Hp Ht Hc Hs. unfold interpolate. rewrite (proj2 (Z.eqb_neq c 0)) by lia. simpl orb.
  destruct (Z.eq_dec i 511) as [->|Hne]; [done|]. rewrite upper_bound_next by lia.
  pose proof (lower_bound_next i ltac:(lia)) as Hn. rewrite (proj2 (Z.leb_gt _ _)) by lia.
  rewrite (wrap_small 64 (target - prev)), (proj2 (Z.leb_gt c _)) by lia.
  unfold bucket_count, kLatencyBucketCount. rewrite (proj2 (Z.leb_gt _ i)) by lia.
  set (lo := bucket_lower_bound i) in *. set (hi := bucket_lower_bound (i + 1)) in *.
  assert (0 <= lo /\ hi <= 2 ^ 30 * 31 /\ hi - lo <= 2 ^ 30) as (Hlo & Hhi & Hw).
  { split; [|split].
    - unfold lo. destruct (Z.eq_dec i 0) as [->|]; [done|]. pose proof (lower_bound_mono 0 i). change (bucket_lower_bound 0) with 0 in *. lia.
    - unfold hi. destruct (Z.eq_dec i 510) as [->|]; [vm_compute; discriminate|].
      pose proof (lower_bound_mono (i + 1) 511). change (bucket_lower_bound 511) with (2 ^ 30 * 31) in *. lia.
    - unfold hi, lo. destruct (Z.lt_ge_cases i 16).
      + rewrite !lower_bound_small by lia. lia.
      + rewrite lower_bound_step by lia. pose proof (Z.pow_le_mono_r 2 (i / 16 - 1) 30).
        assert (i / 16 <= 31) by (apply Z.lt_succ_r, Z.div_lt_upper_bound; lia). lia. }
  set (into := target - prev). assert (0 <= into < c) as Hin by lia.
  rewrite (wrap_small 64 (hi - lo)), (wrap_small 64 (2 * into + 1)), (wrap_small 64 (2 * c)) by lia.
  rewrite (wrap_small 64 (_ * _)) by nia.
  assert (0 <= (hi - lo) * (2 * into + 1) / (2 * c) < hi - lo) as Hoff.
  { split; [apply Z.div_pos; nia|apply Z.div_lt_upper_bound; nia]. }
  rewrite wrap_small by lia. lia.
Qed.

(** The scan stops at the bucket that holds the target. *)
Lemma percentile_loop_spec l i n target b :
  Forall sample_ok l -> Z.of_nat (length l) <= 2 ^ 33 -> 0 <= i -> i + Z.of_nat n = 512 ->
  i <= b <= 511 -> n_below b l <= target < n_below (b + 1) l ->
  percentile_loop ((fun i => n_at i l) <$> seqZ i (Z.of_nat n)) i (n_below i l) target
    = interpolate b target (n_below b l) (n_at b l).
Proof.
  intros Hl Hs. revert i; induction n as [|n IH]; intros i Hi Hin Hb Ht; [lia|].
  rewrite seqZ_cons, fmap_cons by lia. cbn [foldl percentile_loop]. cbv zeta. rewrite <- n_below_succ. pose proof (n_below_bound (i + 1) l).
  rewrite wrap_small by lia. destruct (Z.eq_dec i b) as [->|Hne].
  - by rewrite (proj2 (Z.ltb_lt _ _)) by lia.
  - assert (n_below (i + 1) l <= n_below b l) as Hm.
    { unfold n_below. apply Nat2Z.inj_le. assert (i + 1 <= b) by lia. clear -H0. induction l as [|x l IHl]; [done|].
      rewrite !filter_cons. repeat case_decide; simpl; lia. }
    rewrite (proj2 (Z.ltb_ge _ _)) by lia. replace (Z.pred (Z.of_nat (S n))) with (Z.of_nat n) by lia.
    replace (Z.succ i) with (i + 1) by lia. apply IH; lia.
Qed.

(** In a sorted list the element at position [t] fixes the counts below and up
    to its bucket. *)
Lemma rank_bucket ls t x : Forall sample_ok ls -> StronglySorted Z.le ls -> ls !! t = Some x ->
  n_below (bucket_index x) ls <= Z.of_nat t < n_below (bucket_index x + 1) ls.
Proof.
  intros Hok Hs. revert t Hok; induction Hs as [|y ls Hs IH Hy]; intros t Hok Hx; [done|].
  apply Forall_cons in Hok as [Hyok Hok]. assert (forall z, z ∈ ls -> sample_ok z) as Hmem by (by apply Forall_forall).
  unfold n_below in *. rewrite !filter_cons. destruct t as [|t]; simpl in Hx.
  - injection Hx as ->. rewrite decide_False, decide_True by lia. simpl length. split; [|lia].
    assert (filter (fun z => bucket_index z < bucket_index x) ls = []) as ->; [|done].
    apply filter_none. intros z Hz. pose proof (bucket_index_mono x z) as Hm.
    destruct Hyok. destruct (Hmem z Hz). unfold kSentinel in *. eapply Forall_forall in Hy; [|done]. lia.
  - specialize (IH t Hok Hx). apply list_elem_of_lookup_2 in Hx.
    pose proof (bucket_index_mono y x) as Hm. destruct Hyok. destruct (Hmem x Hx). unfold kSentinel in *.
    eapply Forall_forall in Hy; [|done]. rewrite (decide_True (P := bucket_index y < bucket_index x + 1)) by lia.
    simpl length. case_decide; simpl length; lia.
Qed.

(** The percentile of a represented sample list. *)
Lemma percentile_in_bucket rank h l ls t x :
  represents h l -> StronglySorted Z.le ls -> ls ≡ₚ l -> Z.of_nat (length l) <= 2 ^ 33 ->
  0 <= rank (Z.of_nat (length l)) ->
  Z.of_nat t = Z.min (rank (Z.of_nat (length l))) (Z.of_nat (length l) - 1) -> ls !! t = Some x ->
  let r := percentile rank h in
  let i := bucket_index x in
  sample_ok x /\ bucket_lower_bound i <= r /\ (i < 511 -> r < bucket_lower_bound (i + 1)) /\
  (i = 511 -> r = bucket_lower_bound 511).
Proof.
  intros Hrep Hsort Hperm Hlen Hrank Ht Hx r i. pose proof Hrep as [Hl Hsz Hb _ _ _].
  assert (Forall sample_ok ls) as Hls by (by rewrite Hperm).
  assert (sample_ok x) as Hxok by (eapply Forall_forall; [exact Hls|]; by eapply list_elem_of_lookup_2).
  pose proof (rank_bucket ls t x Hls Hsort Hx) as Hrk.
  assert (forall b, n_below b ls = n_below b l) as Hnb by (intros; unfold n_below; by rewrite Hperm). rewrite !Hnb in Hrk. fold i in Hrk.
  pose proof (lookup_lt_Some _ _ _ Hx) as Htlen. rewrite Hperm in Htlen.
  pose proof (sample_index x Hxok) as Hi. fold i in Hi.
  assert (r = interpolate i (Z.of_nat t) (n_below i l) (n_at i l)) as Hr.
  { unfold r, percentile. rewrite (count_spec h l Hrep), (proj2 (Z.eqb_neq _ _)) by lia. cbv zeta.
    assert ((if Z.of_nat (length l) <=? rank (Z.of_nat (length l)) then Z.of_nat (length l) - 1 else rank (Z.of_nat (length l))) = Z.of_nat t) as ->.
    { destruct (_ <=? _) eqn:E; bool_to_Z; lia. }
    rewrite Hb. pose proof (percentile_loop_spec l 0 512 (Z.of_nat t) i) as Hp. rewrite n_below_0 in Hp by done.
    apply Hp; try done; lia. }
  rewrite Hr. rewrite n_below_succ in Hrk. pose proof (n_below_bound (i + 1) l). rewrite n_below_succ in *.
  pose proof (n_at_bound i l). pose proof (n_below_bound i l).
  split; [done|]. apply interpolate_spec; lia.
Qed.

(** * Claims *)

(** Every 64-bit latency falls in exactly one of the 512 buckets, the one
    whose bounds enclose it; a larger latency never falls in an earlier bucket;
    below 16 ns a bucket is one nanosecond wide and above it at most a
    sixteenth of its lower bound. *)
Theorem bucket_layout_correct (L : Z) :
  0 <= L < 2 ^ 64 ->
  let i := bucket_index L in
  (0 <= i < bucket_count /\ bucket_lower_bound i <= L /\ (L < bucket_upper_bound i \/ i = bucket_count - 1)) /\
  (forall j, 0 <= j < bucket_count -> bucket_lower_bound j <= L -> (L < bucket_upper_bound j \/ j = bucket_count - 1) -> j = i) /\
  (forall M, L <= M < 2 ^ 64 -> i <= bucket_index M) /\
  (L < 16 -> bucket_lower_bound i = L /\ bucket_upper_bound i = L + 1) /\
  (16 <= L -> i < bucket_count - 1 -> 16 * (bucket_upper_bound i - bucket_lower_bound i) <= bucket_lower_bound i).
Proof.
  intros HL i. pose proof (bucket_index_spec L HL) as (Hi & Hlo & Hhi). fold i in Hi, Hlo, Hhi.
  change bucket_count with 512. change (512 - 1) with 511. split_and!.
  - lia.
  - lia.
  - done.
  - destruct (Z.eq_dec i 511); [by right|left]. rewrite upper_bound_next by lia. apply Hhi. lia.
  - intros j Hj Hjl Hju. symmetry. apply bucket_index_unique; [done|lia|done|]. intros Hlt.
    rewrite <- upper_bound_next by lia. lia.
  - intros M HM. apply bucket_index_mono; lia.
  - intros H16. assert (i = L) as ->.
    { apply bucket_index_unique; [done|lia|rewrite lower_bound_small by lia; lia|]. intros. rewrite lower_bound_small by lia. lia. }
    rewrite upper_bound_next, !lower_bound_small by lia. lia.
  - intros H16 Hlt. apply width_relative. split; [|done].
    destruct (Z.lt_ge_cases i 16); [|done]. rewrite lower_bound_small in Hhi by lia. lia.
Qed.

Lemma bucket_layout_correct_witness :
  bucket_index 1000 = 111 /\ bucket_lower_bound 111 = 992 /\ bucket_upper_bound 111 = 1024 /\
  16 * (bucket_upper_bound (bucket_index 1000) - bucket_lower_bound (bucket_index 1000)) <= bucket_lower_bound (bucket_index 1000).
Proof.
  split_and!; [vm_compute; reflexivity..|].
  pose proof (bucket_layout_correct 1000 ltac:(lia)) as (_ & _ & _ & _ & H). apply H; [lia|]. vm_compute. reflexivity.
Defined.

(** C39: recording keeps exact books. With sampling off, every sample is
    counted; with rate [r] the samples kept are those at which the thread's
    counter is a multiple of [r], [(c + n) / r - c / r] of [n] calls; the
    bucket counters, [count()], the sum modulo [2^64] and the extremes are
    those of the kept samples, and merging two histograms gives the histogram
    of both sample lists. *)
Theorem histogram_books_exact (l : list Z) (c : Z) (h other : latency_histogram) (l0 l1 : list Z) :
  represents h l0 -> represents other l1 -> Forall sample_ok l -> 0 <= c -> c + Z.of_nat (length l) < 2 ^ 64 ->
  Z.of_nat (length l1 + length l0 + length l) < 2 ^ 64 ->
  let h' := (record_all l c h).2 in
  let kept := if 1 <? sample_rate_ h then sampled (sample_rate_ h) c l else l in
  let all := rev kept ++ l0 in
  represents h' all /\ count h' = Z.of_nat (length kept + length l0) /\
  (1 < sample_rate_ h -> Z.of_nat (length kept) = (c + Z.of_nat (length l)) / sample_rate_ h - c / sample_rate_ h) /\
  represents (merge_from other h') (all ++ l1).
Proof.
  intros Hh Ho Hl Hc Hw Hn h' kept all.
  assert (length kept <= length l)%nat as Hk.
  { unfold kept. destruct (1 <? _); [|done]. clear. revert c. induction l as [|x l IH]; intros c; simpl; [done|].
    specialize (IH (c + 1)). destruct (_ =? 0); simpl; lia. }
  assert (represents h' all) as Hr.
  { unfold h', all, kept. destruct (1 <? sample_rate_ h) eqn:E; bool_to_Z.
    - apply record_all_sampled; try done. lia.
    - apply record_all_unsampled; try done. lia. }
  assert (length all = (length kept + length l0)%nat) as Hla by (unfold all; by rewrite length_app, length_rev).
  split_and!; [done|by rewrite (count_spec _ _ Hr), Hla| |].
  - intros E. unfold kept. rewrite (proj2 (Z.ltb_lt _ _) E). by apply sampled_length.
  - apply merge_represents; [done|done|lia].
Qed.

Lemma histogram_books_exact_witness :
  let h := set_latency_sample_rate 3 histogram_new in
  let h' := (record_all [5; 100; 7; 9; 11; 2000; 3] 0 h).2 in
  count h' = 2 /\ min h' = 7 /\ max h' = 2000 /\ represents (merge_from histogram_new h') [2000; 7].
Proof.
  intros h h'. split_and!; [vm_compute; reflexivity..|].
  pose proof (histogram_books_exact [5; 100; 7; 9; 11; 2000; 3] 0 h histogram_new [] []) as H.
  apply H; [by split; try constructor|apply new_represents| |lia|simpl; lia|simpl; lia].
  repeat (apply Forall_cons_2; [split; vm_compute; [discriminate|reflexivity]|]). apply Forall_nil_2.
Defined.

(** For up to [2^33] samples, [percentile] answers from the bucket of the
    sample of that rank: exactly, below 16 ns; within a sixteenth of the true
    sample up to the overflow bucket, whose lower bound it reports for every
    sample above. *)
Theorem percentile_accurate (rank : Z -> Z) (h : latency_histogram) (l ls : list Z) (t : nat) (x : Z) :
  represents h l -> StronglySorted Z.le ls -> ls ≡ₚ l -> Z.of_nat (length l) <= 2 ^ 33 ->
  0 <= rank (Z.of_nat (length l)) ->
  Z.of_nat t = Z.min (rank (Z.of_nat (length l))) (Z.of_nat (length l) - 1) -> ls !! t = Some x ->
  let r := percentile rank h in
  (x < 16 -> r = x) /\
  (16 <= x < bucket_lower_bound 511 -> 16 * Z.abs (r - x) <= x) /\
  (bucket_lower_bound 511 <= x -> r = bucket_lower_bound 511).
Proof.
  intros Hrep Hsort Hperm Hlen Hrank Ht Hx r.
  destruct (percentile_in_bucket rank h l ls t x Hrep Hsort Hperm Hlen Hrank Ht Hx) as (Hok & H1 & H2 & H3). fold r in H1, H2, H3.
  destruct Hok as [Hx0 Hx1]. unfold kSentinel in Hx1.
  pose proof (bucket_index_spec x ltac:(lia)) as (Hi & Hlo & Hhi). set (i := bucket_index x) in *. split_and!.
  - intros H16. assert (i = x) as E.
    { unfold i. apply bucket_index_unique; [lia|lia|rewrite lower_bound_small by lia; lia|].
      intros. rewrite lower_bound_small by lia. lia. }
    rewrite E in *. rewrite lower_bound_small in H1, H2 by lia. lia.
  - intros [H16 H511]. assert (16 <= i) as Hi16.
    { destruct (Z.lt_ge_cases i 16); [|done]. rewrite lower_bound_small in Hhi by lia. lia. }
    assert (i < 511) as Hi511 by (destruct (Z.eq_dec i 511) as [E|]; [rewrite E in Hlo; lia|lia]).
    pose proof (width_relative i ltac:(lia)) as Hw. rewrite upper_bound_next in Hw by lia. lia.
  - intros H511. apply H3. unfold i. apply bucket_index_unique; lia.
Qed.

Lemma percentile_accurate_witness :
  let l := [120; 3; 1000; 500; 45] in
  let h := (record_all l 0 histogram_new).2 in
  percentile (fun n => n / 2) h = 122 /\ 16 * Z.abs (percentile (fun n => n / 2) h - 120) <= 120.
Proof.
  intros l h. split; [vm_compute; reflexivity|].
  assert (represents h (rev l ++ [])) as Hr.
  { apply record_all_unsampled; [vm_compute; discriminate|vm_compute; reflexivity| |apply new_represents].
    unfold l. repeat (apply Forall_cons_2; [split; vm_compute; [discriminate|reflexivity]|]). apply Forall_nil_2. }
  refine (proj1 (proj2 (percentile_accurate (fun n => n / 2) h (rev l ++ []) [3; 45; 120; 500; 1000] 2 120 Hr _ _ _ _ _ _)) _).
  - repeat (constructor; [|repeat (apply Forall_cons_2; [lia|]); apply Forall_nil_2]). constructor.
  - simpl. apply (bool_decide_unpack _). vm_compute. exact I.
  - vm_compute. discriminate.
  - vm_compute. discriminate.
  - vm_compute. reflexivity.
  - reflexivity.
  - vm_compute. split; [discriminate|reflexivity].
Defined.

(** The interpolation can be off by more than half a bucket: sixteen samples of
    128 ns report a last percentile of 135 ns, an error above 1/32. *)
Example interpolation_error_above_half_bucket :
  let h := (record_all (replicate 16 128) 0 histogram_new).2 in
  percentile (fun n => n) h = 135 /\ 128 < 32 * Z.abs (135 - 128).
Proof. split; vm_compute; reflexivity. Qed.

(** The overflow bucket starts below [2^35]. *)
Example overflow_bucket_bound : bucket_lower_bound 511 = 2 ^ 34 + 15 * 2 ^ 30 /\ bucket_index (2 ^ 35 - 1) = 511.
Proof. split; vm_compute; reflexivity. Qed.
