(* ===== verification/Admission.v ===== *)
(** The admission layer of admission.hpp: the bounded "seen before" tracker, the
    policy interface with its reject-first and always-admit implementations,
    and the decorator that filters the insertions of a cache. *)

From S2P Require Import Prelude.

Set Default Proof Using "Type".

(** * The tracker *)

Module SplitSet.
Section split_set.
(** [begin()] of a hash set: an element of a non-empty set, which one is not
    specified. *)
Context (begin_ : gset Z -> Z).
Hypothesis begin_in : forall s : gset Z, s <> ∅ -> begin_ s ∈ s.

Record approx_split_set := ApproxSplitSet {
  num_splits_ : Z;
  max_per_split_ : Z;
  splits_ : list (gset Z);
  total_inserts_ : Z
}.

(** [None] is the division by [num_splits == 0]. *)
Definition approx_split_set_new (max_entries num_splits : Z) : option approx_split_set :=
  if num_splits =? 0 then None
  else Some (ApproxSplitSet num_splits (Z.max 1 (max_entries / num_splits)) (replicate (Z.to_nat num_splits) ∅) 0).

Definition split_idx (t : approx_split_set) (key_hash : Z) : nat := Z.to_nat (key_hash mod num_splits_ t).
Definition split_of (t : approx_split_set) (key_hash : Z) : gset Z := default ∅ (splits_ t !! split_idx t key_hash).

Definition insert_and_check (key_hash : Z) (t : approx_split_set) : bool * approx_split_set :=
  let i := split_idx t key_hash in
  let sp := split_of t key_hash in
  if decide (key_hash ∈ sp) then (true, t)
  else
    let sp := {[key_hash]} ∪ sp in
    let sp := if max_per_split_ t <? Z.of_nat (size sp) then sp ∖ {[begin_ sp]} else sp in
    (false, ApproxSplitSet (num_splits_ t) (max_per_split_ t) (<[i := sp]> (splits_ t)) (u64 (total_inserts_ t + 1))).

Definition insert_hash (key_hash : Z) (t : approx_split_set) : approx_split_set := (insert_and_check key_hash t).2.

Definition contains_hash (key_hash : Z) (t : approx_split_set) : bool := bool_decide (key_hash ∈ split_of t key_hash).

Definition remove_hash (key_hash : Z) (t : approx_split_set) : approx_split_set :=
  ApproxSplitSet (num_splits_ t) (max_per_split_ t)
    (<[split_idx t key_hash := split_of t key_hash ∖ {[key_hash]}]> (splits_ t)) (total_inserts_ t).

Definition size_ (t : approx_split_set) : Z := foldl (fun total (sp : gset Z) => u64 (total + Z.of_nat (size sp))) 0 (splits_ t).

Definition clear (t : approx_split_set) : approx_split_set :=
  ApproxSplitSet (num_splits_ t) (max_per_split_ t) ((fun _ => ∅) <$> splits_ t) 0.

Definition max_entries (t : approx_split_set) : Z := u64 (max_per_split_ t * num_splits_ t).

(** ** Invariant: every split within its bound *)

Record split_ok (t : approx_split_set) : Prop := {
  so_splits : 0 < num_splits_ t;
  so_max : 1 <= max_per_split_ t;
  so_total : max_per_split_ t * num_splits_ t < 2 ^ 64;
  so_len : Z.of_nat (length (splits_ t)) = num_splits_ t;
  so_bound : Forall (fun sp : gset Z => Z.of_nat (size sp) <= max_per_split_ t) (splits_ t)
}.

Definition tracked (t : approx_split_set) (h : Z) : Prop := h ∈ split_of t h.

Lemma split_idx_lt t h : split_ok t -> (split_idx t h < length (splits_ t))%nat.
Proof. intros [Hn _ _ Hl _]. unfold split_idx. pose proof (Z.mod_pos_bound h (num_splits_ t) Hn). lia. Qed.

(** Replacing the split of [h]. *)
Lemma split_of_insert t h sp n h' : split_ok t ->
  split_of (ApproxSplitSet (num_splits_ t) (max_per_split_ t) (<[split_idx t h := sp]> (splits_ t)) n) h'
    = if decide (split_idx t h' = split_idx t h) then sp else split_of t h'.
Proof.
  intros Hok. unfold split_of at 1. change (split_idx (ApproxSplitSet _ _ _ _) h') with (split_idx t h').
  cbn [splits_]. destruct (decide (split_idx t h' = split_idx t h)) as [->|Hne].
  - by rewrite list_lookup_insert_eq by (by apply split_idx_lt).
  - by rewrite list_lookup_insert_ne by done.
Qed.

Lemma split_ok_insert t h sp n : split_ok t -> Z.of_nat (size sp) <= max_per_split_ t ->
  split_ok (ApproxSplitSet (num_splits_ t) (max_per_split_ t) (<[split_idx t h := sp]> (splits_ t)) n).
Proof.
  intros [H1 H2 H5 H3 H4] Hsp. split; cbn [num_splits_ max_per_split_ splits_]; [done|done|done|by rewrite length_insert|].
  by apply Forall_insert.
Qed.

Lemma split_size t h : split_ok t -> Z.of_nat (size (split_of t h)) <= max_per_split_ t.
Proof.
  intros Hok. pose proof (split_idx_lt t h Hok) as [sp Hsp]%lookup_lt_is_Some.
  unfold split_of. rewrite Hsp. by eapply (Forall_lookup_1 _ _ _ _ (so_bound _ Hok)).
Qed.

Lemma insert_and_check_spec h t : split_ok t ->
  let '(seen, t') := insert_and_check h t in
  split_ok t' /\ num_splits_ t' = num_splits_ t /\ max_per_split_ t' = max_per_split_ t /\
  (seen = true <-> tracked t h) /\ (seen = true -> t' = t) /\
  (forall h', tracked t' h' -> h' = h \/ tracked t h') /\
  (forall h', tracked t h' -> tracked t' h' \/ (Z.of_nat (size (split_of t h)) = max_per_split_ t /\ split_idx t h' = split_idx t h)).
Proof using begin_in.
  intros Hok. unfold insert_and_check, tracked. case_decide as Hin; [split_and!; try done; auto|].
  pose proof (split_size t h Hok) as Hsz. set (sp := split_of t h) in *.
  assert (size ({[h]} ∪ sp) = S (size sp)) as Hs1 by (rewrite size_union, size_singleton by set_solver; done).
  set (sp' := if max_per_split_ t <? Z.of_nat (size ({[h]} ∪ sp)) then ({[h]} ∪ sp) ∖ {[begin_ ({[h]} ∪ sp)]} else {[h]} ∪ sp).
  assert (Z.of_nat (size sp') <= max_per_split_ t /\ sp' ⊆ {[h]} ∪ sp /\
    (Z.of_nat (size sp) < max_per_split_ t -> sp' = {[h]} ∪ sp)) as (Hb & Hsub & Hroom).
  { unfold sp'. destruct (_ <? _) eqn:E; bool_to_Z; [|split; [lia|]; split; [done|done]].
    assert (begin_ ({[h]} ∪ sp) ∈ {[h]} ∪ sp) as Hbeg by (apply begin_in; set_solver).
    rewrite size_difference by set_solver. rewrite size_singleton, Hs1. split; [lia|]. split; [set_solver|lia]. }
  split_and!; try done.
  - by apply split_ok_insert.
  - intros h'. rewrite split_of_insert by done. destruct (decide _) as [E|E]; [|by right].
    unfold split_of. rewrite E. fold (split_of t h). fold sp. set_solver.
  - intros h' Hh'. rewrite split_of_insert by done. destruct (decide _) as [E|E]; [|by left].
    destruct (Z.lt_ge_cases (Z.of_nat (size sp)) (max_per_split_ t)) as [Hlt|Hge]; [left|right; split; [lia|done]].
    rewrite (Hroom Hlt). unfold split_of in Hh'. rewrite E in Hh'. fold (split_of t h) in Hh'. fold sp in Hh'. set_solver.
Qed.

Lemma remove_hash_spec h t : split_ok t ->
  split_ok (remove_hash h t) /\ forall h', tracked (remove_hash h t) h' <-> h' <> h /\ tracked t h'.
Proof.
  clear begin_in begin_. intros Hok. unfold remove_hash, tracked. split.
  - apply split_ok_insert; [done|]. etrans; [|apply (split_size t h Hok)]. apply Nat2Z.inj_le, subseteq_size. set_solver.
  - intros h'. rewrite split_of_insert by done. destruct (decide _) as [E|E].
    + unfold split_of at 2. rewrite E. fold (split_of t h). set_solver.
    + split; [intros Hh'; split; [|done]|by intros []]. by intros ->.
Qed.

Lemma clear_spec t : split_ok t -> split_ok (clear t) /\ forall h, ~ tracked (clear t) h.
Proof.
  clear begin_in begin_. intros Hok. pose proof Hok as [H1 H2 H5 H3 H4]. split.
  - split; cbn [clear num_splits_ max_per_split_ splits_]; [done|done|done|by rewrite length_fmap|].
    apply Forall_fmap, Forall_forall. intros sp _.
    change (Z.of_nat (size (∅ : gset Z)) <= max_per_split_ t). rewrite size_empty. lia.
  - intros h. unfold tracked, split_of. cbn [clear splits_]. rewrite list_lookup_fmap.
    destruct (splits_ t !! _); simpl; set_solver.
Qed.

Lemma new_spec m n t : approx_split_set_new m n = Some t -> 0 <= m < 2 ^ 64 -> 0 < n < 2 ^ 32 -> split_ok t /\ forall h, ~ tracked t h.
Proof.
  clear begin_in begin_. unfold approx_split_set_new. intros E Hm Hn. rewrite (proj2 (Z.eqb_neq _ _)) in E by lia. injection E as <-. split.
  - split; cbn [num_splits_ max_per_split_ splits_]; [lia|lia| |rewrite length_replicate; lia|].
    { pose proof (Z.mul_div_le m n ltac:(lia)). destruct (Z.max_spec 1 (m / n)) as [[_ ->]|[_ ->]]; lia. }
    apply Forall_replicate. rewrite size_empty. lia.
  - intros h. unfold tracked, split_of. cbn [splits_]. destruct (replicate _ _ !! _) as [sp|] eqn:E; simpl; [|set_solver].
    apply lookup_replicate in E as [-> _]. set_solver.
Qed.

Lemma size_bound t : split_ok t -> 0 <= size_ t <= max_entries t.
Proof.
  intros [H1 H2 Hm H3 H4]. unfold size_, max_entries. rewrite wrap_small by lia. rewrite <- H3 in *. clear H3.
  assert (forall l acc, Forall (fun sp : gset Z => Z.of_nat (size sp) <= max_per_split_ t) l ->
    0 <= acc -> acc + max_per_split_ t * Z.of_nat (length l) < 2 ^ 64 ->
    0 <= foldl (fun total (sp : gset Z) => u64 (total + Z.of_nat (size sp))) acc l <= acc + max_per_split_ t * Z.of_nat (length l)) as Hf.
  { induction l as [|sp l IH]; intros acc Hl Ha Hb; cbn [foldl length] in *; [lia|]. apply Forall_cons in Hl as [Hsp Hl].
    rewrite Nat2Z.inj_succ in *. rewrite (wrap_small 64 (acc + _)) by nia.
    rewrite Z.mul_succ_r in *.
    assert (forall n, Z.of_nat n <= max_per_split_ t -> acc + Z.of_nat n + max_per_split_ t * Z.of_nat (length l) < 2 ^ 64) as Hn by lia.
    specialize (IH (acc + Z.of_nat (size sp)) Hl ltac:(lia) (Hn _ Hsp)).
    split; [apply IH|]. etrans; [apply IH|]. set (M := max_per_split_ t * Z.of_nat (length l)).
    assert (forall n, n <= max_per_split_ t -> acc + n + M <= acc + (M + max_per_split_ t)) as Hm' by lia. by apply Hm'. }
  specialize (Hf (splits_ t) 0 H4). lia.
Qed.
End split_set.
End SplitSet.

(** * Policies *)

(** The virtual interface [admission_policy<Key>]; every handler may change the
    policy's state. *)
Class AdmissionPolicy (P Key : Type) := {
  should_admit : Key -> P -> bool * P;
  on_access : Key -> P -> P;
  on_evict : Key -> P -> P;
  on_remove : Key -> P -> P;
  on_insert : Key -> P -> P;
  policy_reset : P -> P
}.

Module AlwaysAdmit.
Inductive always_admit_ap := always_admit.

#[export] Instance always_admit_policy Key : AdmissionPolicy always_admit_ap Key := {|
  should_admit _ p := (true, p);
  on_access _ p := p;
  on_evict _ p := p;
  on_remove _ p := p;
  on_insert _ p := p;
  policy_reset p := p
|}.
End AlwaysAdmit.

Module RejectFirst.
Import SplitSet.
Section reject_first.
Context {Key : Type} (hash_key : Key -> Z).
Context (begin_ : gset Z -> Z).
Hypothesis begin_in : forall s : gset Z, s <> ∅ -> begin_ s ∈ s.

Definition kMaxHitSignals : Z := 8192.

Record reject_first_ap := RejectFirstAp {
  tracker_ : approx_split_set;
  use_hit_signal_ : bool;
  hit_signals_ : gmap Z bool;
  admitted_seen_ : Z;
  admitted_by_dram_hit_ : Z;
  rejected_ : Z;
  total_admitted_ : Z
}.

Definition reject_first_new (max_entries num_splits : Z) (use_hit_signal : bool) : option reject_first_ap :=
  t ← approx_split_set_new max_entries num_splits;
  Some (RejectFirstAp t use_hit_signal ∅ 0 0 0 0).

Definition rf_should_admit (key : Key) (p : reject_first_ap) : bool * reject_first_ap :=
  let key_hash := hash_key key in
  let '(seen_before, tracker) := insert_and_check begin_ key_hash (tracker_ p) in
  if seen_before then
    (true, RejectFirstAp tracker (use_hit_signal_ p) (hit_signals_ p) (u64 (admitted_seen_ p + 1))
             (admitted_by_dram_hit_ p) (rejected_ p) (total_admitted_ p))
  else
    let reject := (false, RejectFirstAp tracker (use_hit_signal_ p) (hit_signals_ p) (admitted_seen_ p)
                            (admitted_by_dram_hit_ p) (u64 (rejected_ p + 1)) (total_admitted_ p)) in
    if use_hit_signal_ p then
      match hit_signals_ p !! key_hash with
      | Some true =>
          (true, RejectFirstAp tracker (use_hit_signal_ p) (delete key_hash (hit_signals_ p)) (admitted_seen_ p)
                   (u64 (admitted_by_dram_hit_ p + 1)) (rejected_ p) (total_admitted_ p))
      | _ => reject
      end
    else reject.

Definition rf_on_access (key : Key) (p : reject_first_ap) : reject_first_ap :=
  if use_hit_signal_ p then
    let signals := if kMaxHitSignals <=? Z.of_nat (size (hit_signals_ p)) then ∅ else hit_signals_ p in
    RejectFirstAp (tracker_ p) (use_hit_signal_ p) (<[hash_key key := true]> signals) (admitted_seen_ p)
      (admitted_by_dram_hit_ p) (rejected_ p) (total_admitted_ p)
  else p.

Definition rf_on_evict (key : Key) (p : reject_first_ap) : reject_first_ap :=
  RejectFirstAp (remove_hash (hash_key key) (tracker_ p)) (use_hit_signal_ p) (hit_signals_ p) (admitted_seen_ p)
    (admitted_by_dram_hit_ p) (rejected_ p) (total_admitted_ p).

Definition rf_on_remove (key : Key) (p : reject_first_ap) : reject_first_ap :=
  RejectFirstAp (remove_hash (hash_key key) (tracker_ p)) (use_hit_signal_ p) (hit_signals_ p) (admitted_seen_ p)
    (admitted_by_dram_hit_ p) (rejected_ p) (total_admitted_ p).

Definition rf_on_insert (key : Key) (p : reject_first_ap) : reject_first_ap :=
  RejectFirstAp (tracker_ p) (use_hit_signal_ p) (hit_signals_ p) (admitted_seen_ p)
    (admitted_by_dram_hit_ p) (rejected_ p) (u64 (total_admitted_ p + 1)).

Definition rf_reset (p : reject_first_ap) : reject_first_ap :=
  RejectFirstAp (clear (tracker_ p)) (use_hit_signal_ p) ∅ 0 0 0 0.

Definition reject_first_policy : AdmissionPolicy reject_first_ap Key := {|
  should_admit := rf_should_admit;
  on_access := rf_on_access;
  on_evict := rf_on_evict;
  on_remove := rf_on_remove;
  on_insert := rf_on_insert;
  policy_reset := rf_reset
|}.

(** ** What the policy remembers *)

Record rf_ok (p : reject_first_ap) : Prop := {
  rf_split : split_ok (tracker_ p);
  rf_signals : Z.of_nat (size (hit_signals_ p)) <= kMaxHitSignals
}.

(** A hash the policy would let in. *)
Definition admissible (p : reject_first_ap) (h : Z) : Prop :=
  tracked (tracker_ p) h \/ (use_hit_signal_ p = true /\ hit_signals_ p !! h = Some true).

Lemma should_admit_spec k p : rf_ok p ->
  let '(b, p') := rf_should_admit k p in
  rf_ok p' /\ use_hit_signal_ p' = use_hit_signal_ p /\ (b = true <-> admissible p (hash_key k)) /\
  (forall h, admissible p' h -> h = hash_key k \/ admissible p h).
Proof using begin_in.
  intros [Hs Hh]. unfold rf_should_admit. set (h := hash_key k).
  pose proof (insert_and_check_spec begin_ begin_in h (tracker_ p) Hs) as Hi.
  destruct (insert_and_check begin_ h (tracker_ p)) as [seen t]. destruct Hi as (Hok & _ & _ & Hseen & _ & Hold & _).
  unfold admissible. destruct seen.
  - split_and!; [by split|done|naive_solver|]. cbn [tracker_ hit_signals_ use_hit_signal_].
    intros h' [Ht|?]; [destruct (Hold _ Ht); tauto|tauto].
  - assert (~ tracked (tracker_ p) h) as Hn by (intros Ht; by apply Hseen in Ht).
    destruct (use_hit_signal_ p) eqn:Eu; [destruct (hit_signals_ p !! h) as [[]|] eqn:Eh|];
      cbn [tracker_ hit_signals_ use_hit_signal_]; (split_and!; [|done|naive_solver|]).
    all: try (split; [done|]; cbn [hit_signals_]; done).
    + split; [done|]. cbn [hit_signals_]. rewrite map_size_delete, Eh. lia.
    + intros h' [Ht|[_ Hd]]; [destruct (Hold _ Ht); tauto|]. apply lookup_delete_Some in Hd. tauto.
    + intros h' [Ht|?]; [destruct (Hold _ Ht); tauto|tauto].
    + intros h' [Ht|?]; [destruct (Hold _ Ht); tauto|tauto].
    + intros h' [Ht|?]; [destruct (Hold _ Ht); tauto|tauto].
Qed.

Lemma on_access_spec k p : rf_ok p ->
  rf_ok (rf_on_access k p) /\ (forall h, admissible (rf_on_access k p) h -> h = hash_key k \/ admissible p h).
Proof.
  intros [Hs Hh]. unfold rf_on_access, admissible. destruct (use_hit_signal_ p) eqn:Eu; [|split; [by split|rewrite Eu; auto]].
  split.
  - split; cbn [tracker_ hit_signals_]; [done|]. destruct (kMaxHitSignals <=? _) eqn:E; bool_to_Z.
    + rewrite map_size_insert_None, map_size_empty by done. unfold kMaxHitSignals. lia.
    + rewrite map_size_insert. case_match; simpl; lia.
  - cbn [tracker_ hit_signals_ use_hit_signal_]. intros h [?|[_ Hl]]; [tauto|].
    apply lookup_insert_Some in Hl as [[-> _]|[_ Hl]]; [by left|]. destruct (_ <=? _); [done|tauto].
Qed.

Lemma on_remove_spec k p : rf_ok p ->
  rf_ok (rf_on_remove k p) /\ (forall h, admissible (rf_on_remove k p) h -> admissible p h).
Proof.
  intros [Hs Hh]. destruct (remove_hash_spec (hash_key k) _ Hs) as [Hs' Ht]. split; [by split|].
  intros h [Hh'|?]; [left; apply Ht in Hh' as [_ ?]; done|by right].
Qed.

Lemma reset_spec p : rf_ok p -> rf_ok (rf_reset p) /\ forall h, ~ admissible (rf_reset p) h.
Proof.
  intros [Hs Hh]. destruct (clear_spec _ Hs) as [Hs' Ht]. split.
  - split; [done|]. cbn [rf_reset hit_signals_]. rewrite map_size_empty. unfold kMaxHitSignals. lia.
  - intros h [H|[_ H]]; [by apply Ht in H|]. cbn [rf_reset hit_signals_] in H. by rewrite lookup_empty in H.
Qed.

Lemma reject_first_new_spec m n b p : 0 <= m < 2 ^ 64 -> 0 < n < 2 ^ 32 -> reject_first_new m n b = Some p -> rf_ok p /\ forall h, ~ admissible p h.
Proof.
  intros Hm Hn. unfold reject_first_new. intros (t & Ht & [= <-])%bind_Some. destruct (new_spec _ _ _ Ht Hm Hn) as [Hs Hno]. split.
  - split; [done|]. cbn [hit_signals_]. rewrite map_size_empty. unfold kMaxHitSignals. lia.
  - intros h [H|[_ H]]; [by apply Hno in H|]. cbn [hit_signals_] in H. by rewrite lookup_empty in H.
Qed.

(** ** Histories *)

Inductive rf_op := ShouldAdmit (k : Key) | OnAccess (k : Key) | OnEvict (k : Key) | OnRemove (k : Key) | OnInsert (k : Key) | Reset.

Definition run_op (o : rf_op) (p : reject_first_ap) : reject_first_ap :=
  match o with
  | ShouldAdmit k => (rf_should_admit k p).2
  | OnAccess k => rf_on_access k p
  | OnEvict k => rf_on_evict k p
  | OnRemove k => rf_on_remove k p
  | OnInsert k => rf_on_insert k p
  | Reset => rf_reset p
  end.

(** Since the last reset: the hashes offered or accessed, and the number of
    admission checks. *)
Definition seen_step (l : list Z) (o : rf_op) : list Z :=
  match o with ShouldAdmit k | OnAccess k => hash_key k :: l | Reset => [] | _ => l end.
Definition checks_step (n : Z) (o : rf_op) : Z :=
  match o with ShouldAdmit _ => n + 1 | Reset => 0 | _ => n end.

Record history_ok (p : reject_first_ap) (seen : list Z) (checks : Z) : Prop := {
  hi_ok : rf_ok p;
  hi_seen : forall h, admissible p h -> h ∈ seen;
  hi_counts : u64 (admitted_seen_ p + admitted_by_dram_hit_ p + rejected_ p) = u64 checks
}.

Lemma wrap_bump a b n : u64 (a + b) = u64 n -> u64 (u64 (a + 1) + b) = u64 (n + 1).
Proof.
  intros E. rewrite wrap_add_l by lia. rewrite <- (wrap_add_l 64 n 1), <- E, wrap_add_l by lia. f_equal. lia.
Qed.

Lemma should_admit_counts k p n :
  u64 (admitted_seen_ p + admitted_by_dram_hit_ p + rejected_ p) = u64 n ->
  let p' := (rf_should_admit k p).2 in
  u64 (admitted_seen_ p' + admitted_by_dram_hit_ p' + rejected_ p') = u64 (n + 1).
Proof.
  intros E. unfold rf_should_admit. destruct (insert_and_check _ _ _) as [[] t].
  - simpl. rewrite <- Z.add_assoc. apply wrap_bump. by rewrite Z.add_assoc.
  - assert (u64 (admitted_seen_ p + admitted_by_dram_hit_ p + u64 (rejected_ p + 1)) = u64 (n + 1)) as Hr.
    { rewrite Z.add_comm. apply wrap_bump. rewrite <- E. f_equal. lia. }
    repeat case_match; try exact Hr. simpl.
    replace (admitted_seen_ p + u64 (admitted_by_dram_hit_ p + 1) + rejected_ p)
      with (u64 (admitted_by_dram_hit_ p + 1) + (admitted_seen_ p + rejected_ p)) by lia.
    apply wrap_bump. rewrite <- E. f_equal. lia.
Qed.

Lemma run_op_history o p seen n :
  history_ok p seen n -> history_ok (run_op o p) (seen_step seen o) (checks_step n o).
Proof using begin_in.
  intros [Hok Hseen Hn]. destruct o as [k|k|k|k|k|]; simpl.
  - pose proof (should_admit_spec k p Hok) as Hs. pose proof (should_admit_counts k p n Hn).
    destruct (rf_should_admit k p) as [b p']. destruct Hs as (Hok' & _ & _ & Hadm). split; [done| |done].
    intros h Hh. destruct (Hadm h Hh) as [->|?]; [by left|right; auto].
  - destruct (on_access_spec k p Hok) as [Hok' Hadm]. split; [done| |].
    + intros h Hh. destruct (Hadm h Hh) as [->|?]; [by left|right; auto].
    + unfold rf_on_access. by destruct (use_hit_signal_ p).
  - destruct (on_remove_spec k p Hok) as [Hok' Hadm]. split; [done| |done]. intros h Hh. by apply Hseen, Hadm.
  - destruct (on_remove_spec k p Hok) as [Hok' Hadm]. split; [done| |done]. intros h Hh. by apply Hseen, Hadm.
  - split; [by destruct Hok|by apply Hseen|done].
  - destruct (reset_spec p Hok) as [Hok' Hadm]. split; [done| |done]. intros h Hh. by apply Hadm in Hh.
Qed.

Lemma run_ops_history os p seen n :
  history_ok p seen n ->
  history_ok (foldl (fun p o => run_op o p) p os) (foldl seen_step seen os) (foldl checks_step n os).
Proof using begin_in.
  revert p seen n; induction os as [|o os IH]; intros p seen n Hh; simpl; [done|]. by apply IH, run_op_history.
Qed.
(** ** The memory the history calls for *)

(** The hashes offered and not evicted or removed since, and those with a
    pending access signal. *)
Record rf_memory := RfMemory { remembered : gset Z; signalled : gset Z }.

Definition rf_admits (use_hit : bool) (h : Z) (m : rf_memory) : bool :=
  bool_decide (h ∈ remembered m) || (use_hit && bool_decide (h ∈ signalled m)).

Definition memory_step (use_hit : bool) (m : rf_memory) (o : rf_op) : rf_memory :=
  match o with
  | ShouldAdmit k =>
      let h := hash_key k in
      if decide (h ∈ remembered m) then m
      else RfMemory ({[h]} ∪ remembered m) (if use_hit then signalled m ∖ {[h]} else signalled m)
  | OnAccess k =>
      if use_hit
      then RfMemory (remembered m) ({[hash_key k]} ∪ (if kMaxHitSignals <=? Z.of_nat (size (signalled m)) then ∅ else signalled m))
      else m
  | OnEvict k | OnRemove k => RfMemory (remembered m ∖ {[hash_key k]}) (signalled m)
  | OnInsert k => m
  | Reset => RfMemory ∅ ∅
  end.

(** All the hashes a sequence of calls offers. *)
Definition offered (os : list rf_op) : gset Z :=
  list_to_set (omap (fun o => match o with ShouldAdmit k => Some (hash_key k) | _ => None end) os).

(** The hashes of [s] that share the split of [h]. *)
Definition in_split (n : Z) (s : gset Z) (h : Z) : gset Z := filter (fun x => x mod n = h mod n) s.

Definition splits_hold (n : Z) (s : gset Z) (limit : Z) : Prop := forall h, Z.of_nat (size (in_split n s h)) <= limit.

Record remembers (p : reject_first_ap) (m : rf_memory) : Prop := {
  re_ok : rf_ok p;
  re_splits : forall h, split_of (tracker_ p) h = in_split (num_splits_ (tracker_ p)) (remembered m) h;
  re_signals : hit_signals_ p = gset_to_gmap true (signalled m)
}.

Lemma split_idx_eq t h h' : split_ok t -> split_idx t h' = split_idx t h <-> h' mod num_splits_ t = h mod num_splits_ t.
Proof.
  intros Hok. unfold split_idx. pose proof (so_splits _ Hok) as Hn.
  pose proof (Z.mod_pos_bound h _ Hn). pose proof (Z.mod_pos_bound h' _ Hn). lia.
Qed.

Lemma in_split_own n s h : h ∈ in_split n s h <-> h ∈ s.
Proof. unfold in_split. rewrite elem_of_filter. tauto. Qed.

Lemma in_split_empty n h : in_split n ∅ h = ∅.
Proof. clear begin_in begin_. apply set_eq. intros x. unfold in_split. rewrite elem_of_filter. set_solver. Qed.

Lemma remembers_tracked p m h : remembers p m -> tracked (tracker_ p) h <-> h ∈ remembered m.
Proof. intros Hr. unfold tracked. rewrite (re_splits _ _ Hr). apply in_split_own. Qed.

Lemma remembers_signal p m h : remembers p m -> hit_signals_ p !! h = Some true <-> h ∈ signalled m.
Proof. intros Hr. rewrite (re_signals _ _ Hr), lookup_gset_to_gmap_Some. tauto. Qed.

Lemma signal_true p m h b : remembers p m -> hit_signals_ p !! h = Some b -> b = true.
Proof. intros Hr. rewrite (re_signals _ _ Hr), lookup_gset_to_gmap_Some. by intros [_ ->]. Qed.

Ltac split_sets :=
  apply set_eq; intros x; unfold in_split;
  rewrite ?elem_of_difference, ?elem_of_union, ?elem_of_filter, ?elem_of_difference, ?elem_of_union, ?elem_of_singleton; naive_solver congruence.

(** Recording a hash in a split with room. *)
Lemma record_split h t s : split_ok t -> (forall h', split_of t h' = in_split (num_splits_ t) s h') -> h ∉ s ->
  Z.of_nat (size (in_split (num_splits_ t) ({[h]} ∪ s) h)) <= max_per_split_ t ->
  exists t', insert_and_check begin_ h t = (false, t') /\ num_splits_ t' = num_splits_ t /\
    max_per_split_ t' = max_per_split_ t /\ (forall h', split_of t' h' = in_split (num_splits_ t) ({[h]} ∪ s) h').
Proof using.
  intros Hok Hs Hh Hroom. unfold insert_and_check. rewrite Hs, decide_False by (by rewrite in_split_own).
  assert ({[h]} ∪ in_split (num_splits_ t) s h = in_split (num_splits_ t) ({[h]} ∪ s) h) as E by split_sets.
  rewrite E. rewrite (proj2 (Z.ltb_ge _ _)) by lia. eexists. split; [reflexivity|]. split; [done|]. split; [done|].
  intros h'. rewrite split_of_insert by done. destruct (decide _) as [Ei|Ei].
  - apply split_idx_eq in Ei; [|done]. unfold in_split. by rewrite Ei.
  - rewrite (split_idx_eq t) in Ei by done. rewrite Hs. split_sets.
Qed.

Lemma forget_split h t s : split_ok t -> (forall h', split_of t h' = in_split (num_splits_ t) s h') ->
  forall h', split_of (remove_hash h t) h' = in_split (num_splits_ t) (s ∖ {[h]}) h'.
Proof using.
  intros Hok Hs h'. unfold remove_hash. rewrite split_of_insert by done. rewrite !Hs. destruct (decide _) as [E|E];
    rewrite (split_idx_eq t) in E by done; split_sets.
Qed.

Lemma should_admit_remembers k p m : remembers p m ->
  splits_hold (num_splits_ (tracker_ p)) ({[hash_key k]} ∪ remembered m) (max_per_split_ (tracker_ p)) ->
  let '(b, p') := rf_should_admit k p in
  b = rf_admits (use_hit_signal_ p) (hash_key k) m /\ remembers p' (memory_step (use_hit_signal_ p) m (ShouldAdmit k)) /\
  use_hit_signal_ p' = use_hit_signal_ p /\ num_splits_ (tracker_ p') = num_splits_ (tracker_ p) /\ max_per_split_ (tracker_ p') = max_per_split_ (tracker_ p).
Proof using begin_in.
  intros Hr Hroom. pose proof (should_admit_spec k p (re_ok _ _ Hr)) as Hspec. pose proof (rf_split _ (re_ok _ _ Hr)) as Hok.
  unfold rf_should_admit, rf_admits, memory_step in *. set (h := hash_key k) in *. destruct (decide (h ∈ remembered m)) as [Hin|Hin].
  - assert (insert_and_check begin_ h (tracker_ p) = (true, tracker_ p)) as E.
    { unfold insert_and_check. rewrite decide_True; [done|]. by apply (remembers_tracked p m). }
    rewrite E in *. rewrite bool_decide_true by done. destruct Hspec as (Hok' & _). split; [done|]. split; [|done]. destruct Hr. by split.
  - destruct (record_split h (tracker_ p) (remembered m) Hok (re_splits _ _ Hr) Hin (Hroom h)) as (t' & E & En & Em & Es).
    rewrite E in *. rewrite (bool_decide_false (h ∈ remembered m)) by done. cbn [orb].
    destruct (use_hit_signal_ p) eqn:Eu; [destruct (hit_signals_ p !! h) as [b|] eqn:Eh|]; [pose proof (signal_true _ _ _ _ Hr Eh) as ->| |];
      destruct Hspec as (Hok' & _); (split; [|split; [|done]]); cbn [andb]; try done.
    + rewrite bool_decide_true by (by apply (remembers_signal p m)). done.
    + split; [done|intros h'; cbn [tracker_ remembered]; by rewrite En|]. cbn [hit_signals_ signalled].
      by rewrite (re_signals _ _ Hr), gset_to_gmap_difference_singleton.
    + rewrite bool_decide_false; [done|]. intros Hs. apply (remembers_signal p m) in Hs; [congruence|done].
    + split; [done|intros h'; cbn [tracker_ remembered]; by rewrite En|]. cbn [hit_signals_ signalled].
      rewrite gset_to_gmap_difference_singleton, <- (re_signals _ _ Hr). by rewrite delete_id.
    + split; [done|intros h'; cbn [tracker_ remembered]; by rewrite En|]. apply Hr.
Qed.

(** What a run keeps: the memory, the configuration, and that only offered
    hashes are remembered. *)
Lemma run_op_remembers o p m all : remembers p m -> remembered m ⊆ all -> offered [o] ⊆ all ->
  splits_hold (num_splits_ (tracker_ p)) all (max_per_split_ (tracker_ p)) ->
  let m' := memory_step (use_hit_signal_ p) m o in
  remembers (run_op o p) m' /\ remembered m' ⊆ all /\ use_hit_signal_ (run_op o p) = use_hit_signal_ p /\
  num_splits_ (tracker_ (run_op o p)) = num_splits_ (tracker_ p) /\ max_per_split_ (tracker_ (run_op o p)) = max_per_split_ (tracker_ p).
Proof using begin_in.
  intros Hr Hsub Hoff Hroom. pose proof (re_ok _ _ Hr) as Hok. destruct o as [k|k|k|k|k|]; cbn [run_op].
  - assert (hash_key k ∈ all) as Hk by (apply Hoff; cbn; set_solver).
    pose proof (should_admit_remembers k p m Hr) as Hs. destruct (rf_should_admit k p) as [b p']. destruct Hs as (_ & Hr' & Hu & Hn & Hm).
    + intros h. etrans; [|apply (Hroom h)]. apply Nat2Z.inj_le, subseteq_size. unfold in_split. set_solver.
    + split; [done|]. split; [|done]. cbn [memory_step]. destruct (decide _); cbn [remembered]; set_solver.
  - destruct (on_access_spec k p Hok) as [Hok' _]. unfold rf_on_access, memory_step in *. destruct (use_hit_signal_ p) eqn:Eu; [|rewrite Eu; done].
    split; [|done]. split; [done|apply Hr|]. cbn [hit_signals_ signalled]. rewrite gset_to_gmap_union_singleton. f_equal.
    assert (size (hit_signals_ p) = size (signalled m)) as -> by (by rewrite (re_signals _ _ Hr), <- size_dom, dom_gset_to_gmap).
    destruct (kMaxHitSignals <=? Z.of_nat (size (signalled m))); [by rewrite gset_to_gmap_empty|apply Hr].
  - destruct (on_remove_spec k p Hok) as [Hok' _]. split; [|split; [cbn; set_solver|done]].
    split; [exact Hok'|exact (forget_split (hash_key k) _ _ (rf_split _ Hok) (re_splits _ _ Hr))|apply Hr].
  - destruct (on_remove_spec k p Hok) as [Hok' _]. split; [|split; [cbn; set_solver|done]].
    split; [exact Hok'|exact (forget_split (hash_key k) _ _ (rf_split _ Hok) (re_splits _ _ Hr))|apply Hr].
  - split; [|done]. destruct Hr as [[R1 R2] R3 R4]. split; [by split|done|done].
  - destruct (reset_spec p Hok) as [Hok' Hno]. split; [|split; [cbn; set_solver|done]]. split; [done| |done].
    intros h. cbn [rf_reset tracker_]. unfold split_of. cbn [clear splits_]. rewrite list_lookup_fmap.
    cbn [memory_step remembered]. rewrite in_split_empty. by destruct (splits_ (tracker_ p) !! _).
Qed.

Lemma run_ops_remember os : forall p m all, remembers p m -> remembered m ⊆ all -> offered os ⊆ all ->
  splits_hold (num_splits_ (tracker_ p)) all (max_per_split_ (tracker_ p)) ->
  let p' := foldl (fun p o => run_op o p) p os in
  remembers p' (foldl (memory_step (use_hit_signal_ p)) m os) /\ remembered (foldl (memory_step (use_hit_signal_ p)) m os) ⊆ all /\
  use_hit_signal_ p' = use_hit_signal_ p /\ num_splits_ (tracker_ p') = num_splits_ (tracker_ p) /\ max_per_split_ (tracker_ p') = max_per_split_ (tracker_ p).
Proof using begin_in.
  induction os as [|o os IH]; intros p m all Hr Hsub Hoff Hroom; cbn [foldl]; [done|].
  assert (offered (o :: os) = offered [o] ∪ offered os) as Eo.
  { unfold offered. cbn [omap list_omap]. destruct o; cbn; set_solver. }
  destruct (run_op_remembers o p m all Hr Hsub) as (Hr' & Hsub' & Hu & Hn & Hm); [set_solver|done|].
  destruct (IH (run_op o p) _ all Hr' Hsub') as (A & B & C & D & E); [set_solver|by rewrite Hn, Hm|].
  rewrite Hu in *. rewrite Hn, Hm in *. done.
Qed.

Lemma new_remembers m n b p : 0 <= m < 2 ^ 64 -> 0 < n < 2 ^ 32 -> reject_first_new m n b = Some p ->
  remembers p (RfMemory ∅ ∅) /\ use_hit_signal_ p = b /\ num_splits_ (tracker_ p) = n /\ max_per_split_ (tracker_ p) = Z.max 1 (m / n).
Proof.
  intros Hm Hn E. destruct (reject_first_new_spec m n b p Hm Hn E) as [Hok Hno]. unfold reject_first_new, approx_split_set_new in E.
  rewrite (proj2 (Z.eqb_neq _ _)) in E by lia. cbn in E. injection E as <-. split; [|done]. split; [done| |done].
  intros h. cbn [tracker_ remembered]. rewrite in_split_empty. unfold split_of. cbn [splits_].
  destruct (replicate _ _ !! _) as [sp|] eqn:El; [|done]. apply lookup_replicate in El as [-> _]. done.
Qed.
End reject_first.
End RejectFirst.

(** * The filter *)

(** What the decorator needs of the cache it wraps; [resident] is the set of
    keys it holds. Insertions may evict; nothing appears by itself. *)
Class FilteredCache (C Key V : Type) := {
  resident : C -> Key -> Prop;
  cache_set : Key -> V -> C -> C;
  cache_add : Key -> V -> C -> bool * C;
  cache_get : Key -> C -> option V * C;
  cache_del : Key -> C -> bool * C;
  cache_flush : C -> C;
  collect_reject : Key -> V -> C -> C;
  set_law : forall k v c k', resident (cache_set k v c) k' -> k' = k \/ resident c k';
  add_law : forall k v c k', resident (cache_add k v c).2 k' -> k' = k \/ resident c k';
  get_law : forall k c k', resident (cache_get k c).2 k' -> resident c k';
  get_hit_law : forall k c v, (cache_get k c).1 = Some v -> resident c k;
  del_law : forall k c k', resident (cache_del k c).2 k' -> resident c k';
  flush_law : forall c k', ~ resident (cache_flush c) k';
  reject_law : forall k v c k', resident (collect_reject k v c) k' -> resident c k'
}.

Module FilterCache.
Section filter.
Context {P C Key V : Type} {AP : AdmissionPolicy P Key} {FC : FilteredCache C Key V}.

Record admission_filter_cache := AdmissionFilterCache { policy_ : P; cache_ : C; hits_ : Z; misses_ : Z }.

Definition set (key : Key) (value : V) (f : admission_filter_cache) : bool * admission_filter_cache :=
  let '(admit_ok, p) := should_admit key (policy_ f) in
  if negb admit_ok then (false, AdmissionFilterCache p (collect_reject key value (cache_ f)) (hits_ f) (misses_ f))
  else (true, AdmissionFilterCache (on_insert key p) (cache_set key value (cache_ f)) (hits_ f) (misses_ f)).

Definition add (key : Key) (value : V) (f : admission_filter_cache) : bool * admission_filter_cache :=
  let '(admit_ok, p) := should_admit key (policy_ f) in
  if negb admit_ok then (false, AdmissionFilterCache p (collect_reject key value (cache_ f)) (hits_ f) (misses_ f))
  else
    let '(added, c) := cache_add key value (cache_ f) in
    (added, AdmissionFilterCache (if added : bool then on_insert key p else on_access key p) c (hits_ f) (misses_ f)).

Definition get (key : Key) (f : admission_filter_cache) : option V * admission_filter_cache :=
  let '(result, c) := cache_get key (cache_ f) in
  match result with
  | Some v => (Some v, AdmissionFilterCache (on_access key (policy_ f)) c (u64 (hits_ f + 1)) (misses_ f))
  | None => (None, AdmissionFilterCache (policy_ f) c (hits_ f) (u64 (misses_ f + 1)))
  end.

Definition del (key : Key) (f : admission_filter_cache) : bool * admission_filter_cache :=
  let '(result, c) := cache_del key (cache_ f) in
  (result, AdmissionFilterCache (if result : bool then on_remove key (policy_ f) else policy_ f) c (hits_ f) (misses_ f)).

Definition flush (f : admission_filter_cache) : admission_filter_cache :=
  AdmissionFilterCache (policy_reset (policy_ f)) (cache_flush (cache_ f)) (hits_ f) (misses_ f).

Inductive filter_op := Set_ (k : Key) (v : V) | Add_ (k : Key) (v : V) | Get_ (k : Key) | Del_ (k : Key) | Flush_.

Definition run_op (o : filter_op) (f : admission_filter_cache) : admission_filter_cache :=
  match o with
  | Set_ k v => (set k v f).2
  | Add_ k v => (add k v f).2
  | Get_ k => (get k f).2
  | Del_ k => (del k f).2
  | Flush_ => flush f
  end.
End filter.
Arguments admission_filter_cache : clear implicits.
Arguments filter_op : clear implicits.
End FilterCache.

(** * The filter over the reject-first policy *)

Module ScanResistance.
Import SplitSet RejectFirst FilterCache.
Section scan.
Context {Key C V : Type} (hash_key : Key -> Z) {FC : FilteredCache C Key V}.
Context (begin_ : gset Z -> Z).
Hypothesis begin_in : forall s : gset Z, s <> ∅ -> begin_ s ∈ s.

Let policy := reject_first_policy hash_key begin_.
#[local] Existing Instance policy.
Abbreviation cache := (admission_filter_cache reject_first_ap C).

(** Since the last flush: the hashes offered for insertion. *)
Definition offers_step (l : list Z) (o : filter_op Key V) : list Z :=
  match o with Set_ k _ | Add_ k _ => hash_key k :: l | Flush_ => [] | _ => l end.

Definition times (h : Z) (l : list Z) : nat := length (filter (fun x => x = h) l).

Record filtered (f : cache) (l : list Z) : Prop := {
  fi_policy : rf_ok (policy_ f);
  fi_seen : forall h, admissible (policy_ f) h -> (1 <= times h l)%nat;
  fi_resident : forall k, resident (cache_ f) k -> (2 <= times (hash_key k) l)%nat
}.

Lemma times_cons h x l : times h (x :: l) = ((if decide (x = h) then 1 else 0) + times h l)%nat.
Proof. unfold times. rewrite filter_cons. by case_decide. Qed.

(** The admission check of an offered key. *)
Lemma offer_step k (f : cache) l :
  filtered f l ->
  let '(b, p) := rf_should_admit hash_key begin_ k (policy_ f) in
  rf_ok p /\ (forall h, admissible p h -> (1 <= times h (hash_key k :: l))%nat) /\
  (b = true -> (2 <= times (hash_key k) (hash_key k :: l))%nat) /\
  (forall k', resident (cache_ f) k' -> (2 <= times (hash_key k') (hash_key k :: l))%nat).
Proof using begin_in.
  intros [Hok Hseen Hres]. pose proof (should_admit_spec hash_key begin_ begin_in k _ Hok) as Hs.
  destruct (rf_should_admit hash_key begin_ k (policy_ f)) as [b p]. destruct Hs as (Hok' & _ & Hb & Hadm).
  split; [done|]. split_and!.
  - intros h Hh. rewrite times_cons. destruct (Hadm h Hh) as [->|Ha]; [rewrite decide_True by done; lia|].
    specialize (Hseen h Ha). lia.
  - intros Hb'. apply Hb in Hb'. specialize (Hseen _ Hb'). rewrite times_cons, decide_True by done. lia.
  - intros k' Hk'. specialize (Hres k' Hk'). rewrite times_cons. lia.
Qed.

Lemma access_step k p l :
  rf_ok p -> (forall h, admissible p h -> (1 <= times h l)%nat) -> (1 <= times (hash_key k) l)%nat ->
  rf_ok (rf_on_access hash_key k p) /\ forall h, admissible (rf_on_access hash_key k p) h -> (1 <= times h l)%nat.
Proof.
  intros Hok Hseen Hk. destruct (on_access_spec hash_key k p Hok) as [Hok' Hadm]. split; [done|].
  intros h Hh. destruct (Hadm h Hh) as [->|?]; auto.
Qed.

Lemma run_op_filtered o (f : cache) l : filtered f l -> filtered (FilterCache.run_op o f) (offers_step l o).
Proof using begin_in.
  intros Hf. destruct o as [k v|k v|k|k|]; simpl.
  - unfold set. pose proof (offer_step k f l Hf) as Ho. cbn [should_admit policy reject_first_policy].
    destruct (rf_should_admit hash_key begin_ k (policy_ f)) as [[] p]; destruct Ho as (Hok & Hs & Ha & Hr); simpl.
    + split; cbn [policy_ cache_]; [by destruct Hok|done|]. intros k' Hk'. destruct (set_law _ _ _ _ Hk') as [->|?]; auto.
    + split; cbn [policy_ cache_]; [done|done|]. intros k' Hk'. by eapply Hr, reject_law.
  - unfold add. pose proof (offer_step k f l Hf) as Ho. cbn [should_admit policy reject_first_policy].
    destruct (rf_should_admit hash_key begin_ k (policy_ f)) as [[] p]; destruct Ho as (Hok & Hs & Ha & Hr); simpl.
    + pose proof (add_law k v (cache_ f)) as Hal. destruct (cache_add k v (cache_ f)) as [added c]. simpl in Hal.
      destruct (access_step k p (hash_key k :: l) Hok Hs) as [Hok' Hs']; [by specialize (Ha eq_refl); lia|].
      destruct added; (split; cbn [policy_ cache_ snd]; [done || by destruct Hok|done|]);
        intros k' Hk'; destruct (Hal _ Hk') as [->|?]; auto.
    + split; cbn [policy_ cache_]; [done|done|]. intros k' Hk'. by eapply Hr, reject_law.
  - destruct Hf as [Hok Hs Hr]. unfold get. pose proof (get_law k (cache_ f)) as Hg. pose proof (get_hit_law k (cache_ f)) as Hh.
    destruct (cache_get k (cache_ f)) as [[v|] c]; simpl in *; [|split; cbn [policy_ cache_]; [done|done|by intros k' Hk'; apply Hr, Hg]].
    destruct (access_step k (policy_ f) l Hok Hs) as [Hok' Hs'].
    { specialize (Hr k (Hh v eq_refl)). lia. }
    split; cbn [policy_ cache_]; [done|done|]. intros k' Hk'. by apply Hr, Hg.
  - destruct Hf as [Hok Hs Hr]. unfold del. pose proof (del_law k (cache_ f)) as Hg.
    destruct (cache_del k (cache_ f)) as [[] c]; simpl in *; (split; cbn [policy_ cache_]; [|..|by intros k' Hk'; apply Hr, Hg]); try done.
    + by apply on_remove_spec.
    + intros h Hh. eapply Hs, on_remove_spec; [done|exact Hh].
  - destruct Hf as [Hok Hs Hr]. destruct (reset_spec (policy_ f) Hok) as [Hok' Hno].
    split; cbn [policy_ cache_]; [done| |].
    + intros h Hh. by apply Hno in Hh.
    + intros k Hk. by apply flush_law in Hk.
Qed.

Lemma run_ops_filtered os (f : cache) l :
  filtered f l -> filtered (foldl (fun f o => FilterCache.run_op o f) f os) (foldl offers_step l os).
Proof using begin_in.
  revert f l; induction os as [|o os IH]; intros f l Hf; simpl; [done|]. by apply IH, run_op_filtered.
Qed.
End scan.
End ScanResistance.

(** * Claims *)

Import SplitSet RejectFirst FilterCache ScanResistance.

(** C40: after any sequence of handler calls on a fresh reject-first policy,
    whichever element the tracker's evictions pick, the tracker holds at most
    [max_entries()] hashes and the signal map at most its cap; a key whose hash
    was neither offered nor accessed since the last reset is rejected; the three
    decision counters add up to the checks made since then; and as long as no
    split is offered more hashes than it can track, the next [should_admit] says
    yes exactly when the history calls for it: the hash was offered since the
    last reset and not evicted or removed since, or, with hit signals on, it was
    accessed and the signal neither used up nor cleared by the cap. *)
Theorem reject_first_correct {Key : Type} (hash_key : Key -> Z) (begin_ : gset Z -> Z)
    (max num_splits : Z) (use_hit : bool) (p0 : reject_first_ap) (os : list rf_op) (k : Key) :
  (forall s : gset Z, s <> ∅ -> begin_ s ∈ s) ->
  0 <= max < 2 ^ 64 -> 0 < num_splits < 2 ^ 32 -> reject_first_new max num_splits use_hit = Some p0 ->
  let p := foldl (fun p o => RejectFirst.run_op hash_key begin_ o p) p0 os in
  let admit_ok := (rf_should_admit hash_key begin_ k p).1 in
  0 <= size_ (tracker_ p) <= max_entries (tracker_ p) /\
  Z.of_nat (size (hit_signals_ p)) <= kMaxHitSignals /\
  (hash_key k ∉ foldl (seen_step hash_key) [] os -> admit_ok = false) /\
  u64 (admitted_seen_ p + admitted_by_dram_hit_ p + rejected_ p) = u64 (foldl checks_step 0 os) /\
  (splits_hold num_splits ({[hash_key k]} ∪ offered hash_key os) (Z.max 1 (max / num_splits)) ->
   admit_ok = rf_admits use_hit (hash_key k) (foldl (memory_step hash_key use_hit) (RfMemory ∅ ∅) os)).
Proof.
  intros Hb Hm Hn Hp0 p admit_ok.
  destruct (reject_first_new_spec max num_splits use_hit p0 Hm Hn Hp0) as [Hok0 Hno].
  assert (history_ok p (foldl (seen_step hash_key) [] os) (foldl checks_step 0 os)) as [Hok Hseen Hcnt].
  { apply run_ops_history; [done|]. split; [done| |].
    - intros h Hh. by apply Hno in Hh.
    - unfold reject_first_new in Hp0. apply bind_Some in Hp0 as (t & _ & [= <-]). done. }
  pose proof (should_admit_spec hash_key begin_ Hb k p Hok) as Hs.
  split; [by apply size_bound, Hok|]. split; [apply Hok|]. split; [|split; [done|]].
  - intros Hni. unfold admit_ok. destruct (rf_should_admit hash_key begin_ k p) as [b p']. destruct Hs as (_ & _ & Hadm & _). cbn [fst].
    destruct b; [|done]. exfalso. apply Hni, Hseen, Hadm. done.
  - intros Hroom. destruct (new_remembers max num_splits use_hit p0 Hm Hn Hp0) as (Hr0 & Hu & Hns & Hmx).
    destruct (run_ops_remember hash_key begin_ Hb os p0 (RfMemory ∅ ∅) ({[hash_key k]} ∪ offered hash_key os) Hr0)
      as (Hr & Hsub & Hu' & Hns' & Hmx'); [set_solver|set_solver|by rewrite Hns, Hmx|]. fold p in Hr, Hu', Hns', Hmx'. rewrite Hu in *.
    pose proof (should_admit_remembers hash_key begin_ Hb k p _ Hr) as Ha. unfold admit_ok.
    destruct (rf_should_admit hash_key begin_ k p) as [b p']. destruct Ha as [Ha _]; [|by rewrite Ha, Hu'].
    intros h. rewrite Hns', Hns, Hmx', Hmx. etrans; [|apply (Hroom h)]. apply Nat2Z.inj_le, subseteq_size. unfold in_split. set_solver.
Qed.

(** An arbitrary choice: the first element listed. *)
Definition first_element (s : gset Z) : Z := hd 0 (elements s).

Lemma first_element_in (s : gset Z) : s <> ∅ -> first_element s ∈ s.
Proof.
  intros Hs. unfold first_element. destruct (elements s) as [|x l] eqn:E.
  - exfalso. apply Hs. apply elements_empty_inv in E. by apply leibniz_equiv.
  - apply elem_of_elements. rewrite E. by left.
Qed.

Lemma splits_hold_small n s limit : Z.of_nat (size s) <= limit -> splits_hold n s limit.
Proof. intros Hs h. etrans; [|exact Hs]. apply Nat2Z.inj_le, subseteq_size. unfold in_split. set_solver. Qed.

(** An offered key is admitted the next time, a new one and an evicted one are
    not, and an access signal stands in for an offer. *)
Lemma reject_first_correct_witness :
  exists p0, reject_first_new 64 4 true = Some p0 /\
  let os := [ShouldAdmit 42; ShouldAdmit 7; OnAccess 9; OnEvict 7] in
  let p := foldl (fun p o => RejectFirst.run_op (fun k : Z => k) first_element o p) p0 os in
  (rf_should_admit (fun k => k) first_element 42 p).1 = true /\
  (rf_should_admit (fun k => k) first_element 9 p).1 = true /\
  (rf_should_admit (fun k => k) first_element 7 p).1 = false.
Proof.
  eexists. split; [reflexivity|]. intros os p.
  assert (forall k, k = 42 \/ k = 9 \/ k = 7 -> (rf_should_admit (fun k => k) first_element k p).1 =
    rf_admits true k (foldl (memory_step (fun k => k) true) (RfMemory ∅ ∅) os)) as Hall.
  { intros k Hk. eapply (reject_first_correct (fun k : Z => k) first_element 64 4 true _ os k); [exact first_element_in|lia|lia|reflexivity|].
    apply splits_hold_small. destruct Hk as [-> | [-> | ->]]; vm_compute; discriminate. }
  split; [|split]; (rewrite Hall; [vm_compute; reflexivity|tauto]).
Defined.

(** Scan resistance of the filter: whatever the wrapped cache's own
    evictions, and with or without hit signals, a key is resident after any
    sequence of [set], [add], [get], [del] and [flush] only if it (its hash)
    was offered for insertion at least twice since the last flush. *)
Theorem filter_admits_second_offer {Key C V : Type} (hash_key : Key -> Z) {FC : FilteredCache C Key V}
    (begin_ : gset Z -> Z) (max num_splits : Z) (use_hit : bool) (p0 : reject_first_ap) (c0 : C)
    (os : list (filter_op Key V)) (k : Key) :
  (forall s : gset Z, s <> ∅ -> begin_ s ∈ s) ->
  0 <= max < 2 ^ 64 -> 0 < num_splits < 2 ^ 32 -> reject_first_new max num_splits use_hit = Some p0 ->
  (forall k, ~ resident c0 k) ->
  let f := foldl (fun f o => FilterCache.run_op (AP := reject_first_policy hash_key begin_) o f)
             (AdmissionFilterCache p0 c0 0 0) os in
  resident (cache_ f) k -> (2 <= times (hash_key k) (foldl (offers_step hash_key) [] os))%nat.
Proof.
  intros Hb Hm Hn Hp0 Hc0 f Hk.
  destruct (reject_first_new_spec max num_splits use_hit p0 Hm Hn Hp0) as [Hok0 Hno].
  eapply (fi_resident hash_key f); [|exact Hk]. apply run_ops_filtered; [done|]. split; cbn [policy_ cache_]; [done| |].
  - intros h Hh. by apply Hno in Hh.
  - intros k' Hk'. by apply Hc0 in Hk'.
Qed.

(** An unbounded cache, enough to meet the filter's contract. *)
Module MapCache.
#[export] Instance map_cache : FilteredCache (gmap Z Z) Z Z.
Proof.
  refine {| resident := fun c k => is_Some (c !! k); cache_set := fun k v c => <[k := v]> c;
            cache_add := fun k v c => match c !! k with Some _ => (false, c) | None => (true, <[k := v]> c) end;
            cache_get := fun k c => (c !! k, c);
            cache_del := fun k c => (bool_decide (is_Some (c !! k)), delete k c);
            cache_flush := fun _ => ∅; collect_reject := fun _ _ c => c |}.
  - intros k v c k'. rewrite lookup_insert_is_Some. naive_solver.
  - intros k v c k'. destruct (c !! k); simpl; [auto|]. rewrite lookup_insert_is_Some. naive_solver.
  - done.
  - simpl. eauto.
  - intros k c k'. simpl. rewrite lookup_delete_is_Some. tauto.
  - intros c k'. rewrite lookup_empty. by intros [].
  - done.
Defined.
End MapCache.

Lemma filter_admits_second_offer_witness :
  exists p0, reject_first_new 8 4 false = Some p0 /\
  let os := [Set_ 1 10; Set_ 2 20; Set_ 1 11; Add_ 3 30; Get_ 1] in
  let f := foldl (fun f o => FilterCache.run_op (FC := MapCache.map_cache) (AP := reject_first_policy (fun k : Z => k) first_element) o f)
             (AdmissionFilterCache p0 (∅ : gmap Z Z) 0 0) os in
  cache_ f !! 1 = Some 11 /\ cache_ f !! 2 = None /\
  (2 <= times 1 (foldl (offers_step (fun k => k)) [] os))%nat.
Proof.
  eexists. split; [reflexivity|]. intros os f. split_and!; [vm_compute; reflexivity..|].
  eapply (filter_admits_second_offer (fun k : Z => k) (FC := MapCache.map_cache) first_element 8 4 false _ (∅ : gmap Z Z) os 1);
    [exact first_element_in|lia|lia|reflexivity| |].
  - intros k [x Hx]. discriminate Hx.
  - exists 11. vm_compute. reflexivity.
Defined.
