(* ===== verification/MmLruList.v ===== *)
(** The LRU list of mm_lru (mm.hpp) with its insertion point: the sequence of
    linked items, the tail region its kTailFlag bits mark, and the routines that
    keep the region in step with the list. The list operations are those of the
    sequence specification that the intrusive list refines. *)

From S2P Require Import Prelude IntrusiveList ListRefine.

(** [npos] and [lru::unlimited] are the largest [size_t]. *)
Definition unlimited : Z := U64_MAX.
Definition npos : Z := unlimited.

(** The list and insertion-point members of [mm_lru]; [tail_bits_] is the set
    of items whose hook has kTailFlag. *)
Record lru_list := LruList {
  items_ : list loc;
  tail_bits_ : gset loc;
  insertion_point_ : ptr;
  tail_size_ : Z;
  insertion_point_pos_ : Z
}.

(** * List queries *)

Fixpoint next_of (xs : list loc) (p : loc) : ptr :=
  match xs with
  | [] => None
  | x :: xs => if decide (x = p) then head xs else next_of xs p
  end.

Fixpoint prev_from (before : ptr) (xs : list loc) (p : loc) : ptr :=
  match xs with
  | [] => None
  | x :: xs => if decide (x = p) then before else prev_from (Some x) xs p
  end.

Definition prev_of (xs : list loc) (p : loc) : ptr := prev_from None xs p.

Definition list_head (q : lru_list) : ptr := head (items_ q).
Definition list_tail (q : lru_list) : ptr := last (items_ q).
Definition list_size (q : lru_list) : Z := Z.of_nat (length (items_ q)).
Definition list_empty (q : lru_list) : bool := list_size q =? 0.
Definition list_get_next (q : lru_list) (p : loc) : ptr := next_of (items_ q) p.
Definition list_get_prev (q : lru_list) (p : loc) : ptr := prev_of (items_ q) p.

(** * Single steps *)

Definition with_items (xs : list loc) (q : lru_list) : lru_list :=
  LruList xs (tail_bits_ q) (insertion_point_ q) (tail_size_ q) (insertion_point_pos_ q).
Definition with_point (p : ptr) (q : lru_list) : lru_list :=
  LruList (items_ q) (tail_bits_ q) p (tail_size_ q) (insertion_point_pos_ q).
Definition with_tail_size (n : Z) (q : lru_list) : lru_list :=
  LruList (items_ q) (tail_bits_ q) (insertion_point_ q) n (insertion_point_pos_ q).
Definition with_pos (n : Z) (q : lru_list) : lru_list :=
  LruList (items_ q) (tail_bits_ q) (insertion_point_ q) (tail_size_ q) n.

(** [p->hook.set_tail(); ++tail_size_] and its inverse. *)
Definition mark_tail (p : loc) (q : lru_list) : lru_list :=
  LruList (items_ q) ({[p]} ∪ tail_bits_ q) (insertion_point_ q) (u64 (tail_size_ q + 1)) (insertion_point_pos_ q).
Definition unmark_tail (p : loc) (q : lru_list) : lru_list :=
  LruList (items_ q) (tail_bits_ q ∖ {[p]}) (insertion_point_ q) (u64 (tail_size_ q - 1)) (insertion_point_pos_ q).

Definition is_tail (p : loc) (q : lru_list) : bool := bool_decide (p ∈ tail_bits_ q).

(** [if (item->hook.is_tail()) { clear_tail(); --tail_size_; }] *)
Definition drop_tail (p : loc) (q : lru_list) : lru_list := if is_tail p q then unmark_tail p q else q.

(** A list operation; [None] is a failed assertion of the list. *)
Definition list_do (o : list_op) (q : lru_list) : option lru_list :=
  '(_, xs) ← spec_op o (items_ q); Some (with_items xs q).

(** * The insertion point *)

(** [while (tail_size_ < expected_size && curr != list_head())] *)
Fixpoint grow_tail (fuel : nat) (expected : Z) (curr : ptr) (q : lru_list) : option (ptr * lru_list) :=
  if (tail_size_ q <? expected) && negb (bool_decide (curr = list_head q)) then
    match fuel, curr with
    | S fuel, Some c =>
        let curr := list_get_prev q c in
        grow_tail fuel expected curr (match curr with Some x => mark_tail x q | None => q end)
    | _, _ => None
    end
  else Some (curr, q).

(** [while (tail_size_ > expected_size && curr != list_tail())] *)
Fixpoint shrink_tail (fuel : nat) (expected : Z) (curr : ptr) (q : lru_list) : option (ptr * lru_list) :=
  if (expected <? tail_size_ q) && negb (bool_decide (curr = list_tail q)) then
    match fuel, curr with
    | S fuel, Some c => let q := unmark_tail c q in shrink_tail fuel expected (list_get_next q c) q
    | _, _ => None
    end
  else Some (curr, q).

Definition point_position (q : lru_list) : Z :=
  match insertion_point_ q with Some _ => u64 (list_size q - tail_size_ q) | None => npos end.

Definition update_lru_insertion_point (spec : Z) (q : lru_list) : option lru_list :=
  if spec =? 0 then Some (with_pos npos q)
  else if negb (tail_size_ q <=? list_size q) then None
  else
    let q :=
      match insertion_point_ q with
      | Some _ => q
      | None =>
          let q := with_tail_size 0 (with_point (list_tail q) q) in
          match insertion_point_ q with Some p => mark_tail p q | None => q end
      end in
    if list_size q <=? 1 then Some (with_pos (point_position q) q)
    else
      match insertion_point_ q with
      | None => None
      | Some _ =>
          let expected := Z.shiftr (list_size q) spec in
          let fuel := length (items_ q) in
          '(curr, q) ← grow_tail fuel expected (insertion_point_ q) q;
          '(curr, q) ← shrink_tail fuel expected curr q;
          let q := with_point curr q in
          Some (with_pos (point_position q) q)
      end.

Definition ensure_not_insertion_point (item : loc) (q : lru_list) : option lru_list :=
  if bool_decide (insertion_point_ q = Some item) then
    let point := list_get_prev q item in
    let q := with_point point q in
    let q := match point with Some x => mark_tail x q | None => q end in
    if bool_decide (point <> None) || (list_size q =? 1) then Some q else None
  else Some q.

(** The link step of [insert_new]. *)
Definition link_new (spec : Z) (item : loc) (q : lru_list) : option lru_list :=
  match insertion_point_ q with
  | Some p => if spec =? 0 then list_do (LinkAtHead item) q else list_do (InsertBefore p item) q
  | None => list_do (LinkAtHead item) q
  end.

(** The [promote] and [promote_bookkeeping] steps on the list. *)
Definition promote_item (spec : Z) (item : loc) (q : lru_list) : option lru_list :=
  q ← ensure_not_insertion_point item q;
  q ← list_do (MoveToHead item) q;
  if is_tail item q then update_lru_insertion_point spec (unmark_tail item q) else Some q.

(** The list steps of [remove_from_list]. *)
Definition unlink_item (spec : Z) (item : loc) (q : lru_list) : option lru_list :=
  if negb (tail_size_ q <=? list_size q) then None
  else
    q ← ensure_not_insertion_point item q;
    q ← list_do (Remove item) (drop_tail item q);
    update_lru_insertion_point spec q.

(** [set_config]'s loop over the tail region when the insertion point is
    switched off. *)
Fixpoint clear_region (fuel : nat) (curr : ptr) (q : lru_list) : option lru_list :=
  if tail_size_ q =? 0 then Some q
  else
    match fuel, curr with
    | S fuel, Some c => let q := unmark_tail c q in clear_region fuel (list_get_next q c) q
    | _, _ => None
    end.

Definition reconfigure_point (spec : Z) (q : lru_list) : option lru_list :=
  q ← match insertion_point_ q with
      | Some p => if spec =? 0 then q ← clear_region (length (items_ q)) (Some p) q; Some (with_point None q) else Some q
      | None => Some q
      end;
  q ← (if negb (spec =? 0) && negb (list_empty q) then update_lru_insertion_point spec q else Some q);
  if (spec =? 0) || bool_decide (insertion_point_ q <> None) || (tail_size_ q =? 0) then Some q else None.

(** * The tail region *)

(** The list is [xs1 ++ xs2], and [xs2] is what the tail bits and the tail
    counter describe. *)
Record span (q : lru_list) (xs1 xs2 : list loc) : Prop := {
  sp_items : items_ q = xs1 ++ xs2;
  sp_nodup : NoDup (items_ q);
  sp_bits : tail_bits_ q = list_to_set xs2;
  sp_size : tail_size_ q = Z.of_nat (length xs2);
  sp_fits : list_size q < 2 ^ 64
}.

(** The insertion point is the first item of the region. *)
Definition region (q : lru_list) (xs1 xs2 : list loc) : Prop :=
  span q xs1 xs2 /\ insertion_point_ q = head xs2.

(** Between operations the region is empty without an insertion point, and
    never the whole of a list of two or more. *)
Definition list_ok (spec : Z) (q : lru_list) : Prop :=
  exists xs1 xs2, region q xs1 xs2 /\ (spec = 0 -> xs2 = []) /\ (xs1 = [] -> (length xs2 <= 1)%nat).

Lemma next_of_split xs1 p xs2 : p ∉ xs1 -> next_of (xs1 ++ p :: xs2) p = head xs2.
Proof.
  induction xs1 as [|x xs1 IH]; intros Hp; simpl; [by rewrite decide_True|].
  rewrite decide_False by set_solver. apply IH. set_solver.
Qed.

Lemma prev_from_split b xs1 p xs2 : p ∉ xs1 ->
  prev_from b (xs1 ++ p :: xs2) p = match last xs1 with Some x => Some x | None => b end.
Proof.
  revert b; induction xs1 as [|x xs1 IH]; intros b Hp; cbn [app prev_from]; [by rewrite decide_True|].
  rewrite decide_False by set_solver. rewrite IH by set_solver. rewrite last_cons. by destruct (last xs1).
Qed.

Lemma prev_of_split xs1 p xs2 : p ∉ xs1 -> prev_of (xs1 ++ p :: xs2) p = last xs1.
Proof. intros Hp. unfold prev_of. rewrite prev_from_split by done. by destruct (last xs1). Qed.

(** The sequence queries are what the hooks of the intrusive list hold. *)
Lemma get_prev_refines s xs p : dll s xs -> p ∈ xs -> get_prev p s.1 = Some (prev_of xs p).
Proof.
  intros Hd Hp. destruct (split_at xs p (dll_nodup _ _ Hd) Hp) as (l1 & l2 & -> & H1 & _).
  rewrite prev_of_split by done. pose proof (dll_seg _ _ Hd) as Hs. clear Hd Hp.
  assert (forall pp l1, dseg s.1 pp (l1 ++ p :: l2) None ->
    get_prev p s.1 = Some (match last l1 with Some x => Some x | None => pp end)) as Hg.
  { clear. intros pp l1. revert pp. induction l1 as [|x l1 IH]; intros pp; cbn [app dseg].
    - intros [(hk & E & Ep & _) _]. unfold get_prev. rewrite E. simpl. by rewrite Ep.
    - intros [_ Hs]. rewrite (IH _ Hs), last_cons. by destruct (last l1). }
  rewrite (Hg _ _ Hs). by destruct (last l1).
Qed.

Lemma get_next_refines s xs p : dll s xs -> p ∈ xs -> get_next p s.1 = Some (next_of xs p).
Proof.
  intros Hd Hp. destruct (split_at xs p (dll_nodup _ _ Hd) Hp) as (l1 & l2 & -> & H1 & _).
  rewrite next_of_split by done. pose proof (dll_seg _ _ Hd) as Hs.
  assert (forall pp l1, dseg s.1 pp (l1 ++ p :: l2) None -> get_next p s.1 = Some (head l2)) as Hg.
  { clear. intros pp l1. revert pp. induction l1 as [|x l1 IH]; intros pp; simpl.
    - intros [(hk & E & _ & En & _) _]. unfold get_next. rewrite E. simpl. rewrite En. by destruct l2.
    - intros [_ Hs]. by apply (IH _ Hs). }
  by eapply Hg.
Qed.

(** ** The two loops *)

Lemma span_bound q xs1 xs2 : span q xs1 xs2 -> Z.of_nat (length xs1 + length xs2) < 2 ^ 64.
Proof. intros [Hi _ _ _ Hf]. unfold list_size in Hf. rewrite Hi, length_app in Hf. lia. Qed.

Lemma span_mark q xs1 x xs2 : span q (xs1 ++ [x]) xs2 -> span (mark_tail x q) xs1 (x :: xs2).
Proof.
  intros Hs. pose proof (span_bound _ _ _ Hs) as Hb. destruct Hs as [Hi Hn Hbits Hsz Hf]. rewrite length_app in Hb. simpl in Hb.
  split; unfold mark_tail; cbn [items_ tail_bits_ tail_size_]; try done.
  - by rewrite Hi, <- app_assoc.
  - by rewrite Hbits.
  - rewrite Hsz. simpl length. rewrite wrap_small; lia.
Qed.

Lemma span_unmark q xs1 x xs2 : span q xs1 (x :: xs2) -> span (unmark_tail x q) (xs1 ++ [x]) xs2.
Proof.
  intros Hs. pose proof (span_bound _ _ _ Hs) as Hb. destruct Hs as [Hi Hn Hbits Hsz Hf]. simpl in Hb.
  split; unfold unmark_tail; cbn [items_ tail_bits_ tail_size_]; try done.
  - by rewrite Hi, <- app_assoc.
  - rewrite Hi in Hn. apply NoDup_app_mid in Hn as (_ & Hx & _). rewrite Hbits. simpl.
    apply set_eq. intros y. rewrite elem_of_difference, elem_of_union, !elem_of_singleton, elem_of_list_to_set.
    split; [tauto|]. intros Hy. split; [by right|]. by intros ->.
  - rewrite Hsz. simpl length. rewrite wrap_small; lia.
Qed.

Lemma span_not_in q xs1 x xs2 : span q xs1 (x :: xs2) -> x ∉ xs1.
Proof. intros [Hi Hn _ _ _]. rewrite Hi in Hn. by apply NoDup_app_mid in Hn as (? & _). Qed.

Lemma grow_tail_spec fuel e q xs1 x xs2 :
  span q xs1 (x :: xs2) -> (length xs1 <= fuel)%nat ->
  exists ys1 y ys2 q', grow_tail fuel e (Some x) q = Some (Some y, q') /\ span q' ys1 (y :: ys2) /\
    items_ q' = items_ q /\ Z.of_nat (length (y :: ys2)) <= Z.max (Z.of_nat (length (x :: xs2))) e /\
    (e <= Z.of_nat (length (y :: ys2)) \/ ys1 = []).
Proof.
  revert q xs1 x xs2; induction fuel as [|fuel IH]; intros q xs1 x xs2 Hs Hf;
    pose proof (span_not_in _ _ _ _ Hs) as Hni; pose proof Hs as [Hi Hn _ Hsz _].
  - destruct xs1; [|simpl in Hf; lia]. exists [], x, xs2, q. cbn [grow_tail]. unfold list_head. rewrite Hi. simpl head.
    rewrite bool_decide_true by done. rewrite andb_false_r. split; [done|]. split; [done|]. split; [done|]. split; [lia|by right].
  - cbn [grow_tail]. destruct (_ && _) eqn:E.
    + apply andb_true_iff in E as [E1 E2]. bool_to_Z. apply bool_decide_eq_false in E2.
      unfold list_get_prev. rewrite Hi, prev_of_split by done.
      destruct (last xs1) as [y|] eqn:Ey; [|apply last_None in Ey; subst; unfold list_head in E2; by rewrite Hi in E2].
      apply last_Some in Ey as [xs1' ->]. rewrite length_app in Hf. simpl in Hf.
      destruct (IH _ _ _ _ (span_mark _ _ _ _ Hs)) as (ys1 & z & ys2 & q' & -> & Hs' & Hi' & Hl & Hg); [lia|].
      exists ys1, z, ys2, q'. split; [done|]. split; [done|]. split; [exact (eq_trans Hi' Hi)|]. split; [|done].
      rewrite Hsz in E1. cbn [length] in *. lia.
    + exists xs1, x, xs2, q. split; [done|]. split; [done|]. split; [done|]. split; [lia|].
      apply andb_false_iff in E as [E|E]; bool_to_Z; [left; lia|right]. apply bool_decide_eq_true in E. unfold list_head in E. rewrite Hi in E.
      destruct xs1 as [|y xs1]; [done|]. cbn in E. injection E as ->. exfalso. apply Hni. by left.
Qed.

Lemma shrink_tail_spec fuel e q xs1 x xs2 :
  span q xs1 (x :: xs2) -> (length xs2 <= fuel)%nat ->
  exists ys1 y ys2 q', shrink_tail fuel e (Some x) q = Some (Some y, q') /\ span q' ys1 (y :: ys2) /\
    items_ q' = items_ q /\ (Z.of_nat (length (y :: ys2)) <= e \/ ys2 = []) /\
    Z.min (Z.of_nat (length (x :: xs2))) e <= Z.of_nat (length (y :: ys2)).
Proof.
  revert q xs1 x xs2; induction fuel as [|fuel IH]; intros q xs1 x xs2 Hs Hf; pose proof Hs as [Hi Hn _ Hsz _].
  - destruct xs2; [|simpl in Hf; lia]. exists xs1, x, [], q. cbn [shrink_tail]. unfold list_tail.
    rewrite Hi, last_snoc. rewrite bool_decide_true by done. rewrite andb_false_r. split; [done|]. split; [done|]. split; [done|]. split; [by right|lia].
  - cbn [shrink_tail]. destruct (_ && _) eqn:E.
    + apply andb_true_iff in E as [E1 E2]. bool_to_Z. apply bool_decide_eq_false in E2.
      destruct xs2 as [|z xs2]; [unfold list_tail in E2; by rewrite Hi, last_snoc in E2|].
      pose proof (span_unmark _ _ _ _ Hs) as Hs1. cbv zeta.
      assert (list_get_next (unmark_tail x q) x = Some z) as ->.
      { unfold list_get_next. cbn [unmark_tail items_]. rewrite Hi. by rewrite next_of_split by (by eapply span_not_in). }
      simpl in Hf. destruct (IH _ _ _ _ Hs1) as (ys1 & y & ys2 & q' & -> & Hs' & Hi' & Hl & Hg); [lia|].
      exists ys1, y, ys2, q'. split; [done|]. split; [done|]. split; [done|]. split; [done|]. rewrite Hsz in E1. cbn [length] in *. lia.
    + exists xs1, x, xs2, q. split; [done|]. split; [done|]. split; [done|]. split; [|lia].
      apply andb_false_iff in E as [E|E]; bool_to_Z.
      * left. rewrite Hsz in E. done.
      * right. apply bool_decide_eq_true in E. unfold list_tail in E. rewrite Hi in E.
        destruct xs2 as [|z xs2 _] using rev_ind; [done|]. exfalso.
        rewrite app_comm_cons, app_assoc, last_snoc in E. injection E as ->.
        rewrite Hi, app_comm_cons, app_assoc, NoDup_app in Hn. destruct Hn as (_ & Hn & _).
        apply (Hn z); [|by left]. apply elem_of_app. right. by left.
Qed.

(** ** The refresh *)

(** The length of the region the insertion point heads. *)
Definition tail_length (spec n : Z) : Z := if n =? 0 then 0 else Z.max 1 (Z.shiftr n spec).

Lemma update_spec_exact spec q xs1 xs2 :
  0 <= spec -> region q xs1 xs2 -> (spec = 0 -> xs2 = []) ->
  exists q' ws1 ws2, update_lru_insertion_point spec q = Some q' /\ region q' ws1 ws2 /\ (spec = 0 -> ws2 = []) /\
    (ws1 = [] -> (length ws2 <= 1)%nat) /\ items_ q' = items_ q /\ (spec <> 0 -> Z.of_nat (length ws2) = tail_length spec (list_size q)).
Proof.
  intros Hspec [Hs Hp] H0. pose proof Hs as [Hi Hn Hb Hsz Hf]. pose proof (span_bound _ _ _ Hs) as Hlt.
  unfold update_lru_insertion_point. destruct (spec =? 0) eqn:E0; bool_to_Z.
  { eexists _, xs1, xs2. split; [reflexivity|]. split; [by split; [split|]|]. split; [done|]. split; [|done].
    rewrite (H0 E0). simpl. lia. }
  assert (tail_size_ q <=? list_size q = true) as ->.
  { apply Z.leb_le. unfold list_size. rewrite Hi, length_app, Hsz. lia. }
  cbn [negb].
  set (q1 := match insertion_point_ q with Some _ => q | None => _ end).
  assert (items_ q1 = items_ q /\ exists ys1 ys2, region q1 ys1 ys2 /\ (ys2 = [] -> items_ q = [])) as (Hi1 & ys1 & ys2 & [Hs1 Hp1] & He).
  { unfold q1. destruct xs2 as [|x xs2].
    - rewrite app_nil_r in Hi. rewrite Hp. cbn [head insertion_point_ with_point with_tail_size]. unfold list_tail. rewrite Hi.
      destruct (last xs1) as [y|] eqn:Ey.
      + apply last_Some in Ey as [xs1' ->]. split; [done|]. exists xs1', [y]. split; [|done].
        split; [|done]. split; unfold mark_tail; cbn [items_ tail_bits_ tail_size_ with_point with_tail_size]; try done.
        rewrite Hb. done.
      + apply last_None in Ey. subst. split; [done|]. exists [], []. split; [|done]. split; [|done].
        split; cbn [items_ tail_bits_ tail_size_ with_point with_tail_size]; done.
    - rewrite Hp. cbn [head]. split; [done|]. exists xs1, (x :: xs2). split; [|done]. by split. }
  clearbody q1. assert (list_size q1 = list_size q) as Hls by (unfold list_size; by rewrite Hi1).
  pose proof Hs1 as [Hii Hnn Hbb Hss Hff].
  destruct (list_size q1 <=? 1) eqn:E1; bool_to_Z.
  { eexists _, ys1, ys2. split; [reflexivity|]. split; [by split; [split|]|]. split; [done|].
    unfold list_size in E1, Hls. rewrite Hii, length_app in E1. split; [intros _; lia|]. split; [done|]. intros _.
    assert (list_size q = Z.of_nat (length ys1 + length ys2)) as Hq by (unfold list_size; by rewrite <- Hi1, Hii, length_app).
    unfold tail_length. destruct (list_size q =? 0) eqn:Ez; bool_to_Z; [lia|].
    destruct ys2 as [|y ys2]; [exfalso; apply Ez; unfold list_size; by rewrite (He eq_refl)|]. cbn [length] in *.
    assert (list_size q = 1) as -> by lia. rewrite Z.shiftr_div_pow2, Z.div_small; [lia| |lia]. split; [lia|]. apply Z.pow_gt_1; lia. }
  destruct ys2 as [|x ys2]; [exfalso; unfold list_size in E1; rewrite Hi1, (He eq_refl) in E1; simpl in E1; lia|].
  rewrite Hp1. cbn [head]. set (e := Z.shiftr (list_size q1) spec).
  assert (length (items_ q1) = length ys1 + S (length ys2))%nat as Hlen by (rewrite Hii, length_app; done).
  destruct (grow_tail_spec (length (items_ q1)) e q1 ys1 x ys2 Hs1) as (zs1 & z & zs2 & q2 & -> & Hs2 & Hi2 & Hl2 & Hg2); [lia|].
  simpl. pose proof Hs2 as [Hii2 _ _ _ _].
  destruct (shrink_tail_spec (length (items_ q1)) e q2 zs1 z zs2 Hs2) as (ws1 & w & ws2 & q3 & -> & Hs3 & Hi3 & Hl3 & Hg3).
  { rewrite <- Hi2, Hii2, length_app. simpl. lia. }
  assert (0 < list_size q1 / 2 < list_size q1) as Hlt2 by (split; [apply Z.div_str_pos; lia|apply Z.div_lt; lia]).
  assert (e <= list_size q1 / 2) as Hhalf.
  { unfold e. rewrite Z.shiftr_div_pow2 by lia. apply Z.div_le_compat_l; [unfold list_size; lia|]. split; [lia|].
    change 2 with (2 ^ 1) at 1. apply Z.pow_le_mono_r; lia. }
  assert (list_size q1 = Z.of_nat (length ws1 + length (w :: ws2))) as Hls1.
  { pose proof Hs3 as [Hii3 _ _ _ _]. unfold list_size. by rewrite <- Hi2, <- Hi3, Hii3, length_app. }
  assert (list_size q1 = Z.of_nat (length zs1 + length (z :: zs2))) as Hls2 by (unfold list_size; by rewrite <- Hi2, Hii2, length_app).
  assert (Z.of_nat (length (w :: ws2)) = Z.max 1 e) as Hexact.
  { assert (e <= Z.of_nat (length (z :: zs2))) as Hz by (destruct Hg2 as [?| ->]; [done|cbn [length] in *; lia]).
    destruct Hl3 as [?| ->]; cbn [length] in *; lia. }
  simpl. eexists _, ws1, (w :: ws2). split; [reflexivity|]. pose proof Hs3 as [Hii3 Hn3 Hb3 Hsz3 Hf3]. split; [by split; [split|]|]. split; [done|].
  split; [intros ->; cbn [length] in *; lia|]. split; [cbn [items_ with_pos with_point]; congruence|]. intros _.
  unfold tail_length. rewrite (proj2 (Z.eqb_neq _ _)) by lia. rewrite <- Hls. exact Hexact.
Qed.

Lemma update_spec spec q xs1 xs2 :
  0 <= spec -> region q xs1 xs2 -> (spec = 0 -> xs2 = []) ->
  exists q', update_lru_insertion_point spec q = Some q' /\ list_ok spec q' /\ items_ q' = items_ q.
Proof.
  intros Hspec Hr H0. destruct (update_spec_exact spec q xs1 xs2 Hspec Hr H0) as (q' & ws1 & ws2 & E & Hr' & Hz & Hw & Hi & _).
  exists q'. split; [done|]. split; [by exists ws1, ws2|done].
Qed.

(** ** Removing, promoting, linking *)

(** A consistent region, possibly due for a refresh. *)
Definition list_mid (spec : Z) (q : lru_list) : Prop :=
  exists xs1 xs2, region q xs1 xs2 /\ (spec = 0 -> xs2 = []).

Lemma list_ok_mid spec q : list_ok spec q -> list_mid spec q.
Proof. intros (xs1 & xs2 & Hr & H0 & _). by exists xs1, xs2. Qed.

Lemma update_ok spec q : 0 <= spec -> list_mid spec q ->
  exists q', update_lru_insertion_point spec q = Some q' /\ list_ok spec q' /\ items_ q' = items_ q.
Proof. intros Hs (xs1 & xs2 & Hr & H0). by eapply update_spec. Qed.

Lemma list_mid_nodup spec q : list_mid spec q -> NoDup (items_ q).
Proof. intros (xs1 & xs2 & [[_ Hn _ _ _] _] & _). done. Qed.

Lemma tail_size_le spec q : list_mid spec q -> (tail_size_ q <=? list_size q) = true.
Proof.
  intros (xs1 & xs2 & [[Hi _ _ Hsz _] _] & _). apply Z.leb_le. unfold list_size. rewrite Hi, Hsz, length_app. lia.
Qed.

Lemma is_tail_span q xs1 xs2 p : span q xs1 xs2 -> is_tail p q = bool_decide (p ∈ xs2).
Proof. intros [_ _ Hb _ _]. unfold is_tail. rewrite Hb. apply bool_decide_ext. apply elem_of_list_to_set. Qed.

Lemma unmark_bits (l1 l2 : list loc) p : p ∉ l1 -> p ∉ l2 ->
  (list_to_set (l1 ++ p :: l2) : gset loc) ∖ {[p]} = list_to_set (l1 ++ l2).
Proof.
  intros H1 H2. apply set_eq. intros y.
  rewrite elem_of_difference, elem_of_singleton, !elem_of_list_to_set, !elem_of_app, elem_of_cons.
  destruct (decide (y = p)) as [->|]; naive_solver.
Qed.

(** What is left of list and region when [p] is taken out of both. *)
Record detached (spec : Z) (p : loc) (q q1 : lru_list) (ys1 ys2 : list loc) : Prop := {
  de_items : items_ q1 = items_ q;
  de_rest : without p (items_ q) = ys1 ++ ys2;
  de_bits : tail_bits_ (drop_tail p q1) = list_to_set ys2;
  de_size : tail_size_ (drop_tail p q1) = Z.of_nat (length ys2);
  de_point : insertion_point_ q1 = head ys2;
  de_zero : spec = 0 -> ys2 = []
}.

Lemma ensure_keep spec q xs1 xs2 p ys1 ys2 :
  region q xs1 xs2 -> (spec = 0 -> ys2 = []) -> head xs2 <> Some p -> without p (items_ q) = ys1 ++ ys2 ->
  tail_bits_ (drop_tail p q) = list_to_set ys2 -> tail_size_ (drop_tail p q) = Z.of_nat (length ys2) -> head xs2 = head ys2 ->
  ensure_not_insertion_point p q = Some q /\ detached spec p q q ys1 ys2.
Proof.
  intros [Hs Hp] H0 Hne Hw Hb Hsz Hh. unfold ensure_not_insertion_point. rewrite bool_decide_false by congruence.
  split; [done|]. split; try done. congruence.
Qed.

(** Taking out the insertion point itself: the item in front of it becomes the
    insertion point, unless the list ends. *)
Lemma ensure_at_point spec q xs1 p b :
  region q xs1 (p :: b) -> (spec = 0 -> p :: b = []) -> (xs1 = [] -> (length (p :: b) <= 1)%nat) ->
  exists q1 ys1 ys2, ensure_not_insertion_point p q = Some q1 /\ detached spec p q q1 ys1 ys2.
Proof.
  intros [Hs Hpt] H0 Hwide. pose proof (span_bound _ _ _ Hs) as Hlt. pose proof Hs as [Hi Hn Hb Hsz Hf]. rewrite Hi in Hn.
  simpl in *. pose proof (span_not_in _ _ _ _ Hs) as Hx1. apply NoDup_app_mid in Hn as (_ & Hb' & Hn').
  unfold ensure_not_insertion_point. rewrite Hpt. rewrite bool_decide_true by done.
  unfold list_get_prev. rewrite Hi, prev_of_split by done.
  destruct (last xs1) as [y|] eqn:Ey.
  - apply last_Some in Ey as [us ->]. rewrite bool_decide_true by done. simpl.
    eexists _, us, (y :: b). split; [reflexivity|].
    assert (y <> p) as Hyp by set_solver.
    assert (drop_tail p (mark_tail y (with_point (Some y) q)) = unmark_tail p (mark_tail y (with_point (Some y) q))) as Hd'.
    { unfold drop_tail, is_tail. cbn [tail_bits_ mark_tail with_point]. rewrite Hb. rewrite bool_decide_true; [done|]. set_solver. }
    split; rewrite ?Hd'; cbn [items_ tail_bits_ tail_size_ insertion_point_ unmark_tail mark_tail with_point]; try done.
    + rewrite Hi, without_split by set_solver. by rewrite <- app_assoc.
    + rewrite Hb. apply set_eq. intros z. simpl.
       rewrite elem_of_difference, !elem_of_union, !elem_of_singleton, elem_of_list_to_set.
       destruct (decide (z = p)) as [->|]; naive_solver.
    + rewrite Hsz, length_app in *. cbn [length] in *. rewrite (wrap_small 64 (_ + 1)), wrap_small; lia.
    + intros E. by apply H0 in E.
  - apply last_None in Ey. subst xs1. specialize (Hwide eq_refl). destruct b; [|simpl in Hwide; lia].
    unfold list_size. cbn [items_ with_point]. rewrite Hi. simpl.
    eexists _, [], []. split; [reflexivity|].
    assert (drop_tail p (with_point None q) = unmark_tail p (with_point None q)) as Hd'.
    { unfold drop_tail, is_tail. cbn [tail_bits_ with_point]. rewrite Hb. rewrite bool_decide_true; [done|]. set_solver. }
    split; rewrite ?Hd'; cbn [items_ tail_bits_ tail_size_ insertion_point_ unmark_tail with_point]; try done.
    + rewrite Hi. simpl. unfold without. by rewrite filter_cons_False by naive_solver.
    + rewrite Hb. simpl. set_solver.
    + rewrite Hsz. done.
Qed.

Lemma ensure_spec spec q p : list_ok spec q -> p ∈ items_ q ->
  exists q1 ys1 ys2, ensure_not_insertion_point p q = Some q1 /\ detached spec p q q1 ys1 ys2.
Proof.
  intros (xs1 & xs2 & [Hs Hpt] & H0 & Hwide) Hp. pose proof (is_tail_span _ _ _ p Hs) as Ht.
  pose proof (span_bound _ _ _ Hs) as Hlt. pose proof Hs as [Hi Hn Hb Hsz Hf]. rewrite Hi in Hp, Hn.
  apply elem_of_app in Hp as [Hp|Hp].
  - (* in front of the region *)
    apply list_elem_of_split in Hp as (a & b & ->). rewrite <- app_assoc in Hn. simpl in Hn.
    apply NoDup_app_mid in Hn as (Ha & Hb' & _).
    assert (p ∉ xs2) as Hx2 by set_solver. rewrite bool_decide_false in Ht by done.
    assert (drop_tail p q = q) as Hd by (unfold drop_tail; by rewrite Ht).
    exists q, (a ++ b), xs2. eapply ensure_keep; rewrite ?Hd; try done.
    + destruct xs2; [done|]. simpl. set_solver.
    + rewrite Hi, <- !app_assoc. simpl. rewrite without_split by set_solver. by rewrite app_assoc.
  - rewrite bool_decide_true in Ht by done. assert (drop_tail p q = unmark_tail p q) as Hd by (unfold drop_tail; by rewrite Ht).
    apply list_elem_of_split in Hp as ([|x a] & b & ->).
    + (* the insertion point itself *)
      eapply ensure_at_point; [by split|done|done].
    + (* behind the insertion point *)
      simpl in *. rewrite app_comm_cons in Hn. rewrite app_assoc in Hn. apply NoDup_app_mid in Hn as (Ha & Hb' & Hn').
      exists q, xs1, (x :: a ++ b). eapply ensure_keep; rewrite ?Hd; cbn [tail_bits_ tail_size_ unmark_tail]; try done.
      * intros E. discriminate (H0 E).
      * set_solver.
      * rewrite Hi, app_comm_cons, app_assoc, without_split by set_solver. by rewrite <- app_assoc.
      * rewrite Hb. change ({[x]} ∪ list_to_set (a ++ p :: b)) with (list_to_set ((x :: a) ++ p :: b) : gset loc).
        by rewrite unmark_bits by set_solver.
      * rewrite Hsz. cbn [length] in *. rewrite !length_app in *. cbn [length] in *. rewrite wrap_small; lia.
Qed.

Lemma without_length p xs : NoDup xs -> p ∈ xs -> S (length (without p xs)) = length xs.
Proof.
  intros Hn Hp. destruct (split_at xs p Hn Hp) as (l1 & l2 & -> & H1 & H2).
  rewrite without_split, !length_app by done. simpl. lia.
Qed.

Lemma without_elem p x xs : x ∈ without p xs <-> x <> p /\ x ∈ xs.
Proof. unfold without. by rewrite list_elem_of_filter. Qed.

Lemma without_nodup p xs : NoDup xs -> NoDup (without p xs).
Proof. apply NoDup_filter. Qed.

Lemma list_do_remove p q : p ∈ items_ q -> list_do (Remove p) q = Some (with_items (without p (items_ q)) q).
Proof. intros Hp. unfold list_do, spec_op. by rewrite bool_decide_true. Qed.

Lemma list_do_move p q : p ∈ items_ q -> list_do (MoveToHead p) q = Some (with_items (p :: without p (items_ q)) q).
Proof. intros Hp. unfold list_do, spec_op. by rewrite bool_decide_true. Qed.

Lemma drop_items p q : items_ (drop_tail p q) = items_ q.
Proof. unfold drop_tail. by destruct (is_tail p q). Qed.

Lemma drop_point p q : insertion_point_ (drop_tail p q) = insertion_point_ q.
Proof. unfold drop_tail. by destruct (is_tail p q). Qed.

Lemma unlink_item_spec spec p q : 0 <= spec -> list_ok spec q -> p ∈ items_ q ->
  exists q', unlink_item spec p q = Some q' /\ list_ok spec q' /\ items_ q' = without p (items_ q).
Proof.
  intros Hspec Hok Hp. unfold unlink_item. rewrite (tail_size_le spec) by (by apply list_ok_mid). cbn [negb].
  destruct (ensure_spec spec q p Hok Hp) as (q1 & ys1 & ys2 & -> & [Hi Hrest Hb Hsz Hpt H0]). simpl.
  rewrite list_do_remove by (rewrite drop_items; congruence). simpl. rewrite drop_items, Hi.
  pose proof (list_mid_nodup _ _ (list_ok_mid _ _ Hok)) as Hn. destruct (list_ok_mid _ _ Hok) as (? & ? & [[_ _ _ _ Hf] _] & _).
  destruct (update_ok spec (with_items (without p (items_ q)) (drop_tail p q1)) Hspec) as (q' & E & Hok' & Hi').
  { exists ys1, ys2. split; [|done]. split; [|cbn [insertion_point_ with_items]; by rewrite drop_point].
    split; cbn [items_ tail_bits_ tail_size_ with_items]; try done; [by apply without_nodup|].
    unfold list_size in *. cbn [items_ with_items]. pose proof (without_length p (items_ q) Hn Hp). lia. }
  exists q'. split; [done|]. split; [done|]. by rewrite Hi'.
Qed.

Lemma promote_item_spec spec p q : 0 <= spec -> list_ok spec q -> p ∈ items_ q ->
  exists q', promote_item spec p q = Some q' /\ list_ok spec q' /\ items_ q' = p :: without p (items_ q).
Proof.
  intros Hspec Hok Hp. unfold promote_item.
  destruct (ensure_spec spec q p Hok Hp) as (q1 & ys1 & ys2 & -> & [Hi Hrest Hb Hsz Hpt H0]). simpl.
  rewrite list_do_move by congruence. simpl. rewrite Hi.
  pose proof (list_mid_nodup _ _ (list_ok_mid _ _ Hok)) as Hn. destruct (list_ok_mid _ _ Hok) as (? & ? & [[_ _ _ _ Hf] _] & _).
  set (q2 := with_items (p :: without p (items_ q)) q1). change (is_tail p q2) with (is_tail p q1).
  assert (forall q3, items_ q3 = items_ q2 -> tail_bits_ q3 = list_to_set ys2 -> tail_size_ q3 = Z.of_nat (length ys2) ->
    insertion_point_ q3 = insertion_point_ q1 -> region q3 (p :: ys1) ys2) as Hr.
  { intros q3 E1 E2 E3 E4. split; [|by rewrite E4]. split; [|..]; rewrite ?E1; cbn [q2 items_ with_items]; try done.
    - by rewrite Hrest.
    - apply NoDup_cons. split; [|by apply without_nodup]. rewrite without_elem. tauto.
    - unfold list_size in *. rewrite E1. cbn [q2 items_ with_items length]. rewrite without_length by done. done. }
  unfold drop_tail in *. destruct (is_tail p q1).
  - destruct (update_ok spec (unmark_tail p q2) Hspec) as (q' & E & Hok' & Hi').
    { exists (p :: ys1), ys2. split; [|done]. by apply Hr. }
    exists q'. by rewrite Hi'.
  - exists q2. split; [done|]. split; [|done]. exists (p :: ys1), ys2. split; [by apply Hr|]. split; [done|done].
Qed.

(** Linking a new item: at the head, or in front of the insertion point. *)
Lemma link_new_spec spec p q : list_ok spec q -> p ∉ items_ q -> list_size q + 1 < 2 ^ 64 ->
  exists q' l1 l2, link_new spec p q = Some q' /\ list_mid spec q' /\ items_ q = l1 ++ l2 /\ items_ q' = l1 ++ p :: l2 /\
    (spec = 0 -> l1 = []).
Proof.
  intros (xs1 & xs2 & [Hs Hpt] & H0 & _) Hp Hsz. pose proof Hs as [Hi Hn Hb Hts Hf]. unfold link_new.
  assert (list_do (LinkAtHead p) q = Some (with_items (p :: items_ q) q)) as Hhead.
  { unfold list_do, spec_op. by rewrite bool_decide_false. }
  assert (NoDup (p :: items_ q)) as Hn' by (by apply NoDup_cons).
  destruct xs2 as [|x xs2]; simpl in Hpt; rewrite Hpt.
  - rewrite Hhead. eexists _, [], (items_ q). split; [reflexivity|]. split; [|done].
    exists (p :: xs1), []. split; [|done]. split; [|done]. rewrite app_nil_r in Hi.
    split; cbn [items_ tail_bits_ tail_size_ with_items]; try done; [by rewrite Hi, app_nil_r|].
    unfold list_size in *. cbn [items_ with_items length]. lia.
  - destruct (spec =? 0) eqn:E; bool_to_Z; [by apply H0 in E|]. pose proof (span_not_in _ _ _ _ Hs) as Hx.
    assert (list_do (InsertBefore x p) q = Some (with_items (xs1 ++ p :: x :: xs2) q)) as ->.
    { unfold list_do, spec_op. rewrite bool_decide_true by (rewrite Hi; set_solver). rewrite bool_decide_false by done. simpl.
      by rewrite Hi, put_before_split by done. }
    eexists _, xs1, (x :: xs2). split; [reflexivity|]. split; [|done].
    exists (xs1 ++ [p]), (x :: xs2). split; [|done]. split; [|done].
    split; cbn [items_ tail_bits_ tail_size_ with_items]; try done.
    + by rewrite <- app_assoc.
    + rewrite Hi in Hn'. apply NoDup_cons in Hn' as [Hni Hn']. apply NoDup_app_mid. set_solver.
    + unfold list_size in *. cbn [items_ with_items]. rewrite Hi in Hsz. rewrite !length_app in *. cbn [length] in *. lia.
Qed.

Lemma clear_region_spec fuel q xs1 xs2 :
  span q xs1 xs2 -> (length xs2 <= fuel)%nat ->
  exists q', clear_region fuel (head xs2) q = Some q' /\ span q' (xs1 ++ xs2) [] /\ items_ q' = items_ q.
Proof.
  revert q xs1 xs2; induction fuel as [|fuel IH]; intros q xs1 xs2 Hs Hf; pose proof Hs as [Hi Hn Hb Hsz Hfit].
  - destruct xs2; [|simpl in Hf; lia]. exists q. cbn [clear_region]. rewrite Hsz. simpl. by rewrite app_nil_r.
  - cbn [clear_region]. destruct xs2 as [|x xs2].
    + rewrite Hsz. simpl. exists q. by rewrite app_nil_r.
    + rewrite (proj2 (Z.eqb_neq _ _)) by (rewrite Hsz; simpl; lia). cbn [head]. cbv zeta.
      assert (list_get_next (unmark_tail x q) x = head xs2) as ->.
      { unfold list_get_next. cbn [unmark_tail items_]. rewrite Hi. by rewrite next_of_split by (by eapply span_not_in). }
      simpl in Hf. destruct (IH _ _ _ (span_unmark _ _ _ _ Hs)) as (q' & -> & Hs' & Hi'); [lia|].
      exists q'. by rewrite <- app_assoc in Hs'.
Qed.

Lemma reconfigure_point_spec spec0 spec q : 0 <= spec -> list_ok spec0 q ->
  exists q', reconfigure_point spec q = Some q' /\ list_ok spec q' /\ items_ q' = items_ q.
Proof.
  intros Hspec Hok. pose proof Hok as (xs1 & xs2 & [Hs Hpt] & H0 & Hw). pose proof Hs as [Hi Hn Hb Hsz Hf].
  unfold reconfigure_point.
  assert (exists q1, (match insertion_point_ q with
      | Some p => if spec =? 0 then q ← clear_region (length (items_ q)) (Some p) q; Some (with_point None q) else Some q
      | None => Some q end) = Some q1 /\ list_mid spec q1 /\ items_ q1 = items_ q /\ (spec = 0 -> list_ok spec q1)) as (q1 & -> & Hmid & Hi1 & Hz).
  { rewrite Hpt. destruct xs2 as [|x xs2]; cbn [head].
    - exists q. split; [done|]. assert (list_ok spec q) by (exists xs1, []; done). split; [by apply list_ok_mid|done].
    - destruct (spec =? 0) eqn:E; bool_to_Z.
      + destruct (clear_region_spec (length (items_ q)) q xs1 (x :: xs2) Hs) as (q' & Ec & Hs' & Hi').
        { rewrite Hi, length_app. lia. }
        cbn [head] in Ec. rewrite Ec. simpl. eexists. split; [reflexivity|].
        assert (list_ok spec (with_point None q')) as Hok'.
        { exists (xs1 ++ x :: xs2), []. pose proof Hs' as [? ? ? ? ?]. split; [by split; [split|]|]. split; [done|].
          simpl. lia. }
        split; [by apply list_ok_mid|]. split; [done|]. by intros _.
      + exists q. split; [done|]. split; [|done]. exists xs1, (x :: xs2). split; [by split|]. intros; lia. }
  simpl. destruct (negb (spec =? 0) && negb (list_empty q1)) eqn:E.
  - apply andb_true_iff in E as [E _]. bool_to_Z. destruct (update_ok spec q1 Hspec Hmid) as (q2 & -> & Hok2 & Hi2). simpl.
    exists q2. split; [|split; [done|congruence]]. destruct Hok2 as (zs1 & zs2 & [[_ _ _ Hsz2 _] Hpt2] & _).
    destruct zs2; [|rewrite Hpt2; by rewrite bool_decide_true, orb_true_r].
    rewrite Hsz2. simpl. by rewrite orb_true_r.
  - simpl. assert (list_ok spec q1 /\ ((spec =? 0) || bool_decide (insertion_point_ q1 <> None) || (tail_size_ q1 =? 0) = true)) as [Hok1 ->].
    { apply andb_false_iff in E as [E|E]; bool_to_Z.
      - split; [by apply Hz|]. by rewrite (proj2 (Z.eqb_eq _ _) E).
      - destruct Hmid as (zs1 & zs2 & [[Hzi ? ? Hzs ?] ?] & ?). unfold list_empty, list_size in E. bool_to_Z.
        assert (items_ q1 = []) as En by (destruct (items_ q1); [done|simpl in E; lia]).
        rewrite En in Hzi. symmetry in Hzi. apply app_eq_nil in Hzi as [-> ->]. split.
        + exists [], []. split; [by split; [split|]|]. split; [done|simpl; lia].
        + rewrite Hzs. simpl. by rewrite orb_true_r. }
    exists q1. done.
Qed.

(** With an insertion point, [set_config] leaves the region its length calls for. *)
Lemma reconfigure_length spec q xs1 xs2 q' : 0 < spec -> region q xs1 xs2 -> reconfigure_point spec q = Some q' ->
  exists ws1 ws2, region q' ws1 ws2 /\ Z.of_nat (length ws2) = tail_length spec (list_size q).
Proof.
  intros Hspec Hr. pose proof Hr as [[Hi _ _ _ _] _]. unfold reconfigure_point. rewrite (proj2 (Z.eqb_neq spec 0)) by lia. cbn [negb andb].
  assert ((match insertion_point_ q with Some _ => Some q | None => Some q end) = Some q) as -> by (by destruct (insertion_point_ q)).
  cbn [mbind option_bind]. unfold list_empty. destruct (list_size q =? 0) eqn:E; cbn [negb]; bool_to_Z.
  - cbn [mbind option_bind]. destruct (_ || _); [|done]. intros [= <-]. exists xs1, xs2. split; [done|].
    unfold tail_length. rewrite E. cbn. unfold list_size in E. rewrite Hi, length_app in E. lia.
  - destruct (update_spec_exact spec q xs1 xs2) as (q2 & ws1 & ws2 & -> & Hr2 & _ & _ & _ & Hlen); [lia|done|lia|].
    cbn [mbind option_bind]. destruct (_ || _); [|done]. intros [= <-]. exists ws1, ws2. split; [done|]. apply Hlen. lia.
Qed.
