(* ===== verification/MmLru.v ===== *)
(** The LRU eviction strategy mm_lru of mm.hpp: items with their refcount,
    expiry and promotion data, the hash index, the list with its insertion
    point, capacity and memory accounting, pinned items with deferred deletion,
    and the item-level TTL index. The object is used under the cache's write
    lock, so the model runs one operation at a time.

    The items live in a store split by field, one map per member of
    [cache_item]; an item is retired, not freed, so the store only grows, and
    every later use of a retired item is recorded. *)

From S2P Require Import Prelude IntrusiveList ListRefine Refcount StdHeap TtlHeap MmLruList.

(** * Data *)

(** The members of [mm_lru_config] that decide behaviour; the refresh ratio is
    the function from an age to the truncated product of age and ratio. *)
Record mm_lru_config := MmLruConfig {
  lru_insertion_point_spec : Z;
  default_lru_refresh_time : Z;
  lru_refresh_ratio : Z -> Z;
  update_on_write : bool;
  update_on_read : bool;
  try_lock_update : bool;
  eviction_search_tries : Z;
  max_pending_deletion : Z;
  mm_reconfigure_interval_secs : Z
}.

Definition k_lru_refresh_time_cap : Z := 900.

(** [validate()]; the ratio and tolerance checks concern members outside the
    model. *)
Definition validate (c : mm_lru_config) : bool := negb (7 <? lru_insertion_point_spec c).

Inductive access_mode := read | write.

Inductive counter :=
  | hits | misses | insertions | evictions | evictions_capacity | evictions_ttl
  | ttl_expired_count | ttl_checked_count | eviction_failed | try_lock_fail_count
  | eviction_search_steps | pinned_skip_count | pending_deletion_skipped_count
  | current_size | current_memory | stat_max_size | stat_max_memory.

#[global] Instance counter_dec : EqDecision counter.
Proof. solve_decision. Defined.

(** The callback manager's collected events. *)
Inductive event (Key Value : Type) :=
  | EvHit (k : Key) (v : Value) | EvMiss (k : Key) | EvInsert (k : Key) (v : Value)
  | EvUpdate (k : Key) (v : Value) | EvEvict (k : Key) (v : Value) | EvExpire (k : Key) (v : Value).
Arguments EvHit {Key Value} _ _.
Arguments EvMiss {Key Value} _.
Arguments EvInsert {Key Value} _ _.
Arguments EvUpdate {Key Value} _ _.
Arguments EvEvict {Key Value} _ _.
Arguments EvExpire {Key Value} _ _.

Inductive event_kind := KHit | KMiss | KInsert | KUpdate | KEvict | KExpire.

Definition kind {Key Value} (e : event Key Value) : event_kind :=
  match e with
  | EvHit _ _ => KHit | EvMiss _ => KMiss | EvInsert _ _ => KInsert
  | EvUpdate _ _ => KUpdate | EvEvict _ _ => KEvict | EvExpire _ _ => KExpire
  end.

(** What a call reads from outside: the coarse clock, the steady clock, and
    whether the update lock could be taken. *)
Record env := Env { now_sec : Z; now_ns : Z; lock_ok : bool }.

(** The parameters of the template: the fixed cost of an item, the optional
    size functions, and the state a moved-from value or key is left in. *)
Class mm_params (Key Value : Type) := MmParams {
  item_overhead : Z;
  key_size_fn : option (Key -> Z);
  value_size_fn : option (Value -> Z);
  moved_from : Value -> Value;
  moved_key : Key -> Key
}.

Section mm_lru.
Context {Key Value : Type} `{Countable Key}.

Record mm_lru := MmLru {
  heap_ : gmap loc (Key * Value);
  update_time_ : gmap loc Z;
  expiry_ : gmap loc Z;
  refcount_ : gmap loc Z;
  accessed_bits_ : gset loc;
  brk_ : loc;
  q_ : lru_list;
  map_ : gmap Key loc;
  max_size_ : Z;
  max_memory_ : Z;
  config_ : mm_lru_config;
  unpinned_tail_ : ptr;
  lru_refresh_time_ : Z;
  next_reconfigure_time_ : Z;
  pending_deletion_ : list loc;
  retired_ : list loc;
  stats_ : counter -> Z;
  log_ : list (event Key Value);
  index_ : ttl_heap Key;
  eviction_predicate_ : option (Key -> Value -> bool);
  has_callbacks_ : event_kind -> bool;
  stale_uses_ : list loc
}.

Definition set_heap (x : gmap loc (Key * Value)) (s : mm_lru) : mm_lru :=
  MmLru x (update_time_ s) (expiry_ s) (refcount_ s) (accessed_bits_ s) (brk_ s) (q_ s) (map_ s) (max_size_ s) (max_memory_ s) (config_ s) (unpinned_tail_ s) (lru_refresh_time_ s) (next_reconfigure_time_ s) (pending_deletion_ s) (retired_ s) (stats_ s) (log_ s) (index_ s) (eviction_predicate_ s) (has_callbacks_ s) (stale_uses_ s).
Definition set_update_time (x : gmap loc Z) (s : mm_lru) : mm_lru :=
  MmLru (heap_ s) x (expiry_ s) (refcount_ s) (accessed_bits_ s) (brk_ s) (q_ s) (map_ s) (max_size_ s) (max_memory_ s) (config_ s) (unpinned_tail_ s) (lru_refresh_time_ s) (next_reconfigure_time_ s) (pending_deletion_ s) (retired_ s) (stats_ s) (log_ s) (index_ s) (eviction_predicate_ s) (has_callbacks_ s) (stale_uses_ s).
Definition set_expiry (x : gmap loc Z) (s : mm_lru) : mm_lru :=
  MmLru (heap_ s) (update_time_ s) x (refcount_ s) (accessed_bits_ s) (brk_ s) (q_ s) (map_ s) (max_size_ s) (max_memory_ s) (config_ s) (unpinned_tail_ s) (lru_refresh_time_ s) (next_reconfigure_time_ s) (pending_deletion_ s) (retired_ s) (stats_ s) (log_ s) (index_ s) (eviction_predicate_ s) (has_callbacks_ s) (stale_uses_ s).
Definition set_refcount (x : gmap loc Z) (s : mm_lru) : mm_lru :=
  MmLru (heap_ s) (update_time_ s) (expiry_ s) x (accessed_bits_ s) (brk_ s) (q_ s) (map_ s) (max_size_ s) (max_memory_ s) (config_ s) (unpinned_tail_ s) (lru_refresh_time_ s) (next_reconfigure_time_ s) (pending_deletion_ s) (retired_ s) (stats_ s) (log_ s) (index_ s) (eviction_predicate_ s) (has_callbacks_ s) (stale_uses_ s).
Definition set_accessed_bits (x : gset loc) (s : mm_lru) : mm_lru :=
  MmLru (heap_ s) (update_time_ s) (expiry_ s) (refcount_ s) x (brk_ s) (q_ s) (map_ s) (max_size_ s) (max_memory_ s) (config_ s) (unpinned_tail_ s) (lru_refresh_time_ s) (next_reconfigure_time_ s) (pending_deletion_ s) (retired_ s) (stats_ s) (log_ s) (index_ s) (eviction_predicate_ s) (has_callbacks_ s) (stale_uses_ s).
Definition set_brk (x : loc) (s : mm_lru) : mm_lru :=
  MmLru (heap_ s) (update_time_ s) (expiry_ s) (refcount_ s) (accessed_bits_ s) x (q_ s) (map_ s) (max_size_ s) (max_memory_ s) (config_ s) (unpinned_tail_ s) (lru_refresh_time_ s) (next_reconfigure_time_ s) (pending_deletion_ s) (retired_ s) (stats_ s) (log_ s) (index_ s) (eviction_predicate_ s) (has_callbacks_ s) (stale_uses_ s).
Definition set_q (x : lru_list) (s : mm_lru) : mm_lru :=
  MmLru (heap_ s) (update_time_ s) (expiry_ s) (refcount_ s) (accessed_bits_ s) (brk_ s) x (map_ s) (max_size_ s) (max_memory_ s) (config_ s) (unpinned_tail_ s) (lru_refresh_time_ s) (next_reconfigure_time_ s) (pending_deletion_ s) (retired_ s) (stats_ s) (log_ s) (index_ s) (eviction_predicate_ s) (has_callbacks_ s) (stale_uses_ s).
Definition set_map (x : gmap Key loc) (s : mm_lru) : mm_lru :=
  MmLru (heap_ s) (update_time_ s) (expiry_ s) (refcount_ s) (accessed_bits_ s) (brk_ s) (q_ s) x (max_size_ s) (max_memory_ s) (config_ s) (unpinned_tail_ s) (lru_refresh_time_ s) (next_reconfigure_time_ s) (pending_deletion_ s) (retired_ s) (stats_ s) (log_ s) (index_ s) (eviction_predicate_ s) (has_callbacks_ s) (stale_uses_ s).
Definition set_max_size (x : Z) (s : mm_lru) : mm_lru :=
  MmLru (heap_ s) (update_time_ s) (expiry_ s) (refcount_ s) (accessed_bits_ s) (brk_ s) (q_ s) (map_ s) x (max_memory_ s) (config_ s) (unpinned_tail_ s) (lru_refresh_time_ s) (next_reconfigure_time_ s) (pending_deletion_ s) (retired_ s) (stats_ s) (log_ s) (index_ s) (eviction_predicate_ s) (has_callbacks_ s) (stale_uses_ s).
Definition set_max_memory (x : Z) (s : mm_lru) : mm_lru :=
  MmLru (heap_ s) (update_time_ s) (expiry_ s) (refcount_ s) (accessed_bits_ s) (brk_ s) (q_ s) (map_ s) (max_size_ s) x (config_ s) (unpinned_tail_ s) (lru_refresh_time_ s) (next_reconfigure_time_ s) (pending_deletion_ s) (retired_ s) (stats_ s) (log_ s) (index_ s) (eviction_predicate_ s) (has_callbacks_ s) (stale_uses_ s).
Definition set_config_ (x : mm_lru_config) (s : mm_lru) : mm_lru :=
  MmLru (heap_ s) (update_time_ s) (expiry_ s) (refcount_ s) (accessed_bits_ s) (brk_ s) (q_ s) (map_ s) (max_size_ s) (max_memory_ s) x (unpinned_tail_ s) (lru_refresh_time_ s) (next_reconfigure_time_ s) (pending_deletion_ s) (retired_ s) (stats_ s) (log_ s) (index_ s) (eviction_predicate_ s) (has_callbacks_ s) (stale_uses_ s).
Definition set_unpinned_tail (x : ptr) (s : mm_lru) : mm_lru :=
  MmLru (heap_ s) (update_time_ s) (expiry_ s) (refcount_ s) (accessed_bits_ s) (brk_ s) (q_ s) (map_ s) (max_size_ s) (max_memory_ s) (config_ s) x (lru_refresh_time_ s) (next_reconfigure_time_ s) (pending_deletion_ s) (retired_ s) (stats_ s) (log_ s) (index_ s) (eviction_predicate_ s) (has_callbacks_ s) (stale_uses_ s).
Definition set_lru_refresh_time (x : Z) (s : mm_lru) : mm_lru :=
  MmLru (heap_ s) (update_time_ s) (expiry_ s) (refcount_ s) (accessed_bits_ s) (brk_ s) (q_ s) (map_ s) (max_size_ s) (max_memory_ s) (config_ s) (unpinned_tail_ s) x (next_reconfigure_time_ s) (pending_deletion_ s) (retired_ s) (stats_ s) (log_ s) (index_ s) (eviction_predicate_ s) (has_callbacks_ s) (stale_uses_ s).
Definition set_next_reconfigure_time (x : Z) (s : mm_lru) : mm_lru :=
  MmLru (heap_ s) (update_time_ s) (expiry_ s) (refcount_ s) (accessed_bits_ s) (brk_ s) (q_ s) (map_ s) (max_size_ s) (max_memory_ s) (config_ s) (unpinned_tail_ s) (lru_refresh_time_ s) x (pending_deletion_ s) (retired_ s) (stats_ s) (log_ s) (index_ s) (eviction_predicate_ s) (has_callbacks_ s) (stale_uses_ s).
Definition set_pending_deletion (x : list loc) (s : mm_lru) : mm_lru :=
  MmLru (heap_ s) (update_time_ s) (expiry_ s) (refcount_ s) (accessed_bits_ s) (brk_ s) (q_ s) (map_ s) (max_size_ s) (max_memory_ s) (config_ s) (unpinned_tail_ s) (lru_refresh_time_ s) (next_reconfigure_time_ s) x (retired_ s) (stats_ s) (log_ s) (index_ s) (eviction_predicate_ s) (has_callbacks_ s) (stale_uses_ s).
Definition set_retired (x : list loc) (s : mm_lru) : mm_lru :=
  MmLru (heap_ s) (update_time_ s) (expiry_ s) (refcount_ s) (accessed_bits_ s) (brk_ s) (q_ s) (map_ s) (max_size_ s) (max_memory_ s) (config_ s) (unpinned_tail_ s) (lru_refresh_time_ s) (next_reconfigure_time_ s) (pending_deletion_ s) x (stats_ s) (log_ s) (index_ s) (eviction_predicate_ s) (has_callbacks_ s) (stale_uses_ s).
Definition set_stats (x : counter -> Z) (s : mm_lru) : mm_lru :=
  MmLru (heap_ s) (update_time_ s) (expiry_ s) (refcount_ s) (accessed_bits_ s) (brk_ s) (q_ s) (map_ s) (max_size_ s) (max_memory_ s) (config_ s) (unpinned_tail_ s) (lru_refresh_time_ s) (next_reconfigure_time_ s) (pending_deletion_ s) (retired_ s) x (log_ s) (index_ s) (eviction_predicate_ s) (has_callbacks_ s) (stale_uses_ s).
Definition set_log (x : list (event Key Value)) (s : mm_lru) : mm_lru :=
  MmLru (heap_ s) (update_time_ s) (expiry_ s) (refcount_ s) (accessed_bits_ s) (brk_ s) (q_ s) (map_ s) (max_size_ s) (max_memory_ s) (config_ s) (unpinned_tail_ s) (lru_refresh_time_ s) (next_reconfigure_time_ s) (pending_deletion_ s) (retired_ s) (stats_ s) x (index_ s) (eviction_predicate_ s) (has_callbacks_ s) (stale_uses_ s).
Definition set_index (x : ttl_heap Key) (s : mm_lru) : mm_lru :=
  MmLru (heap_ s) (update_time_ s) (expiry_ s) (refcount_ s) (accessed_bits_ s) (brk_ s) (q_ s) (map_ s) (max_size_ s) (max_memory_ s) (config_ s) (unpinned_tail_ s) (lru_refresh_time_ s) (next_reconfigure_time_ s) (pending_deletion_ s) (retired_ s) (stats_ s) (log_ s) x (eviction_predicate_ s) (has_callbacks_ s) (stale_uses_ s).
Definition set_stale_uses (x : list loc) (s : mm_lru) : mm_lru :=
  MmLru (heap_ s) (update_time_ s) (expiry_ s) (refcount_ s) (accessed_bits_ s) (brk_ s) (q_ s) (map_ s) (max_size_ s) (max_memory_ s) (config_ s) (unpinned_tail_ s) (lru_refresh_time_ s) (next_reconfigure_time_ s) (pending_deletion_ s) (retired_ s) (stats_ s) (log_ s) (index_ s) (eviction_predicate_ s) (has_callbacks_ s) x.

(** ** The error and state monad: [None] is a failed assertion or the
    dereference of a null pointer. *)

Definition M (A : Type) : Type := mm_lru -> option (A * mm_lru).

#[global] Instance M_ret : MRet M := fun A x s => Some (x, s).
#[global] Instance M_bind : MBind M := fun A B f m s => match m s with Some (x, s') => f x s' | None => None end.

Definition gets {A} (f : mm_lru -> A) : M A := fun s => Some (f s, s).
Definition modify (f : mm_lru -> mm_lru) : M unit := fun s => Some (tt, f s).
Definition fail {A} : M A := fun _ => None.
Definition skip : M unit := fun s => Some (tt, s).
Definition on_list (f : lru_list -> option lru_list) : M unit :=
  fun s => match f (q_ s) with Some q => Some (tt, set_q q s) | None => None end.

(** ** Items *)

Definition ref_word (s : mm_lru) (p : loc) : Z := default 0 (refcount_ s !! p).
Definition has_active_handle (s : mm_lru) (p : loc) : bool := 0 <? getAccessRef (ref_word s p).
Definition item_update_time (s : mm_lru) (p : loc) : Z := default 0 (update_time_ s !! p).
Definition expiry_of (s : mm_lru) (p : loc) : Z := default 0 (expiry_ s !! p).
Definition is_accessed (s : mm_lru) (p : loc) : bool := bool_decide (p ∈ accessed_bits_ s).

(** An item handed to the reclaimer may be freed at any time, so a later use of
    it is undefined. The store keeps what the item held; [stale_uses_] records
    every use of a retired item. *)
Definition note_use (p : loc) (s : mm_lru) : mm_lru :=
  if decide (p ∈ retired_ s) then set_stale_uses (p :: stale_uses_ s) s else s.

Definition deref (p : loc) : M (Key * Value) :=
  fun s => match heap_ s !! p with Some kv => Some (kv, note_use p s) | None => None end.

(** [ptr->expiry_ns = expiry_ns] *)
Definition store_expiry (p : loc) (x : Z) : M unit :=
  fun s => match heap_ s !! p with Some _ => Some (tt, set_expiry (<[p := x]> (expiry_ s)) (note_use p s)) | None => None end.

(** [map_.find] and [map_.erase]: the chains run through the items, so an
    entry answers to the key its item holds now. *)
Definition map_find (s : mm_lru) (key : Key) : ptr :=
  p ← map_ s !! key;
  '(k, _) ← heap_ s !! p;
  if decide (k = key) then Some p else None.
Definition map_erase (key : Key) (s : mm_lru) : mm_lru :=
  match map_find s key with Some _ => set_map (delete key (map_ s)) s | None => s end.

(** An operation on the item's refcount word. *)
Definition rc (o : rc_op) (p : loc) : M rc_res := fun s =>
  let '(r, w) := atomic o (ref_word s p) in Some (r, set_refcount (<[p := w]> (refcount_ s)) s).

Definition size (s : mm_lru) : Z := list_size (q_ s).

Definition stat_add (c : counter) (n : Z) (s : mm_lru) : mm_lru :=
  set_stats (fun c' => if decide (c' = c) then u64 (stats_ s c + n) else stats_ s c') s.
Definition stat_sub (c : counter) (n : Z) (s : mm_lru) : mm_lru :=
  set_stats (fun c' => if decide (c' = c) then u64 (stats_ s c - n) else stats_ s c') s.
Definition stat_store (c : counter) (n : Z) (s : mm_lru) : mm_lru :=
  set_stats (fun c' => if decide (c' = c) then n else stats_ s c') s.
Definition store_size (s : mm_lru) : mm_lru := stat_store current_size (size s) s.

(** [collect_*]: kept only when a callback of the kind is registered. *)
Definition collect (e : event Key Value) (s : mm_lru) : mm_lru :=
  if has_callbacks_ s (kind e) then set_log (log_ s ++ [e]) s else s.

(** ** Parameters of the template *)

Context {TP : mm_params Key Value}.
Context {HH : StdHeap (entry Key) expiry_ns}.

Definition calc_item_memory (key : Key) (value : Value) : Z :=
  let mem := item_overhead in
  let mem := match key_size_fn with Some f => u64 (mem + u64 (f key * 2)) | None => mem end in
  match value_size_fn with Some f => u64 (mem + f value) | None => mem end.

(** [collect_evict] and [collect_expire] take the value by move. *)
Definition collect_moving (mk : Key -> Value -> event Key Value) (p : loc) : M unit :=
  '(k, v) ← deref p;
  s ← gets id;
  if has_callbacks_ s (kind (mk k v)) then
    modify (fun s => set_heap (<[p := (k, moved_from v)]> (heap_ s)) (collect (mk k v) s))
  else skip.

Definition retire_item (p : loc) (s : mm_lru) : mm_lru := set_retired (p :: retired_ s) s.

Definition pending_deletion_at_cap (s : mm_lru) : bool :=
  (0 <? max_pending_deletion (config_ s)) && (max_pending_deletion (config_ s) <=? Z.of_nat (length (pending_deletion_ s))).

(** The items still held stay, in order; the others are reported and retired. *)
Fixpoint cleanup_loop (todo : list loc) : M (list loc) :=
  match todo with
  | [] => mret []
  | p :: todo =>
      held ← gets (fun s => has_active_handle s p);
      if held : bool then kept ← cleanup_loop todo; mret (p :: kept)
      else collect_moving EvEvict p;; modify (retire_item p);; cleanup_loop todo
  end.

Definition cleanup_pending_deletion : M unit :=
  todo ← gets pending_deletion_;
  kept ← cleanup_loop todo;
  modify (set_pending_deletion kept).

(** ** List maintenance *)

Definition spec_of (s : mm_lru) : Z := lru_insertion_point_spec (config_ s).

Definition refresh_point : M unit := spec ← gets spec_of; on_list (update_lru_insertion_point spec).

Definition remove_from_list (item : loc) : M unit :=
  linked ← gets (fun s => isInMMContainer (ref_word s item));
  if negb linked then skip
  else
    q ← gets q_;
    if negb (tail_size_ q <=? list_size q) then fail
    else
      on_list (ensure_not_insertion_point item);;
      modify (fun s => set_q (drop_tail item (q_ s)) s);;
      modify (fun s => set_accessed_bits (accessed_bits_ s ∖ {[item]}) s);;
      rc UnmarkLinked item;;
      on_list (list_do (Remove item));;
      refresh_point.

(** ** Promotion *)

Definition oldest_element_age (curr : Z) (s : mm_lru) : Z :=
  match list_tail (q_ s) with Some p => u32 (curr - item_update_time s p) | None => 0 end.

Definition reconfigure_locked (curr : Z) (s : mm_lru) : mm_lru :=
  if curr <? next_reconfigure_time_ s then s
  else
    let s := set_next_reconfigure_time (u32 (curr + mm_reconfigure_interval_secs (config_ s))) s in
    let age := oldest_element_age curr s in
    set_lru_refresh_time
      (Z.min (Z.max (default_lru_refresh_time (config_ s)) (lru_refresh_ratio (config_ s) age)) k_lru_refresh_time_cap) s.

Definition promote_locked (item : loc) (curr : Z) : M unit :=
  modify (reconfigure_locked curr);;
  on_list (ensure_not_insertion_point item);;
  on_list (list_do (MoveToHead item));;
  modify (fun s => set_update_time (<[item := curr]> (update_time_ s)) s);;
  tail ← gets (fun s => is_tail item (q_ s));
  if tail : bool then modify (fun s => set_q (unmark_tail item (q_ s)) s);; refresh_point else skip.

Definition record_access_at (item : loc) (mode : access_mode) (curr : Z) (locked : bool) : M bool :=
  s ← gets id;
  if (match mode with write => negb (update_on_write (config_ s)) | read => negb (update_on_read (config_ s)) end) then mret false
  else if negb (isInMMContainer (ref_word s item)) then mret false
  else if is_accessed s item && (curr <? u32 (item_update_time s item + lru_refresh_time_ s)) then mret false
  else
    (if is_accessed s item then skip else modify (fun s => set_accessed_bits ({[item]} ∪ accessed_bits_ s) s));;
    if try_lock_update (config_ s) && negb locked then modify (stat_add try_lock_fail_count 1);; mret false
    else promote_locked item curr;; mret true.

Definition record_access (e : env) (item : loc) (mode : access_mode) : M bool :=
  record_access_at item mode (now_sec e) (lock_ok e).

(** ** Eviction *)

Definition should_evict (s : mm_lru) : bool :=
  (negb (max_size_ s =? unlimited) && (max_size_ s <? size s)) ||
  (negb (max_memory_ s =? unlimited) && (max_memory_ s <? stats_ s current_memory)).

Definition set_hint (p : ptr) : M unit := modify (set_unpinned_tail p).

(** The scan towards the head from [curr]. *)
Fixpoint victim_loop (fuel : nat) (curr : ptr) (tries : Z) (first_unpinned : ptr) (saw_pinned : bool) : M ptr :=
  match curr with
  | None =>
      tail ← gets (fun s => list_tail (q_ s));
      set_hint (if saw_pinned then tail else first_unpinned);; mret None
  | Some c =>
      match fuel with
      | O => fail
      | S fuel =>
          modify (stat_add eviction_search_steps 1);;
          s ← gets id;
          if has_active_handle s c then
            modify (stat_add pinned_skip_count 1);;
            victim_loop fuel (list_get_prev (q_ s) c) tries first_unpinned true
          else
            let first_unpinned := match first_unpinned with Some _ => first_unpinned | None => Some c end in
            '(k, v) ← deref c;
            let vetoed := match eviction_predicate_ s with Some pred => negb (pred k v) | None => false end in
            if vetoed then
              if eviction_search_tries (config_ s) <=? tries + 1 then
                set_hint (if saw_pinned then list_tail (q_ s) else first_unpinned);; mret None
              else victim_loop fuel (list_get_prev (q_ s) c) (tries + 1) first_unpinned saw_pinned
            else
              set_hint (list_get_prev (q_ s) c);;
              (if saw_pinned then set_hint (list_tail (q_ s)) else skip);;
              mret (Some c)
      end
  end.

Definition find_eviction_victim : M ptr :=
  s ← gets id;
  let curr := match unpinned_tail_ s with
              | Some p => if has_active_handle s p then list_tail (q_ s) else Some p
              | None => list_tail (q_ s)
              end in
  match curr with
  | None => mret None
  | Some _ => victim_loop (length (items_ (q_ s))) curr 0 None false
  end.

(** The victim is claimed through its refcount word before it goes. *)
Definition evict_victim (p : loc) : M unit :=
  r ← rc MarkForEviction p;
  match r with
  | RMark kSuccess =>
      '(k, v) ← deref p;
      let mem := calc_item_memory k v in
      modify (stat_sub current_memory mem);;
      modify (stat_add evictions 1);;
      modify (stat_add evictions_capacity 1);;
      collect_moving EvEvict p;;
      modify (map_erase k);;
      remove_from_list p;;
      s ← gets id;
      (match unpinned_tail_ s with None => set_hint (list_tail (q_ s)) | Some _ => skip end);;
      rc UnmarkForEviction p;;
      modify (retire_item p);;
      modify store_size
  | _ => modify store_size
  end.

Definition evict_lru : M unit :=
  cleanup_pending_deletion;;
  victim ← find_eviction_victim;
  match victim with None => modify store_size | Some p => evict_victim p end.

(** [while (cond()) { old = size(); evict_lru(); if (size() == old) stop; }];
    the result says whether the loop ended because nothing could be evicted. *)
Fixpoint evict_while (fuel : nat) (cond : mm_lru -> bool) : M bool :=
  s ← gets id;
  if cond s then
    match fuel with
    | O => fail
    | S fuel =>
        evict_lru;;
        s' ← gets id;
        if size s' =? size s then mret true else evict_while fuel cond
    end
  else mret false.

Definition eviction_fuel (s : mm_lru) : nat := S (length (items_ (q_ s))).

Definition shrink_to_fit : M unit :=
  fuel ← gets eviction_fuel;
  _ ← evict_while fuel should_evict;
  skip.

(** ** TTL hooks *)

Definition ttl_probe (s : mm_lru) (key : Key) (heap_expiry : Z) : probe_result :=
  match map_find s key with
  | None => absent
  | Some p => if negb (expiry_of s p =? heap_expiry) then stale
              else if has_active_handle s p then pinned else ready
  end.

Definition erase_expired_impl (key : Key) : M unit :=
  ptr ← gets (fun s => map_find s key);
  match ptr with
  | None => skip
  | Some item =>
      held ← gets (fun s => has_active_handle s item);
      if held : bool then skip
      else
        '(k, v) ← deref item;
        modify (stat_sub current_memory (calc_item_memory k v));;
        modify (stat_add ttl_expired_count 1);;
        modify (stat_add evictions_ttl 1);;
        collect_moving EvExpire item;;
        modify (map_erase key);;
        remove_from_list item;;
        set_hint None;;
        modify (retire_item item);;
        modify store_size
  end.

Definition ttl_erase (s : mm_lru) (key : Key) : mm_lru :=
  match erase_expired_impl key s with Some (_, s') => s' | None => s end.

(** The live items that carry an expiry, head to tail. *)
Definition ttl_live (s : mm_lru) : list (Key * Z) :=
  omap (fun p => if expiry_of s p =? 0 then None else (fun kv : Key * Value => (kv.1, expiry_of s p)) <$> heap_ s !! p)
    (items_ (q_ s)).

(** [ttl_index_push] of the mixin, on this strategy's hooks. *)
Definition ttl_heap_push (key : Key) (expiry : Z) (s : mm_lru) : mm_lru :=
  let t := TtlHeap.push key expiry (index_ s) in
  set_index (if needs_rebuild (size s) kMaxTtlHeapMultiplier t then TtlHeap.rebuild (ttl_live s) t else t) s.

Definition sweep_index (now_ns budget : Z) : M Z := fun s =>
  let '(n, s', t) := TtlHeap.sweep ttl_probe ttl_erase now_ns budget s (index_ s) in Some (n, set_index t s').

Definition mm_evict_expired (e : env) : M Z := cleanup_pending_deletion;; sweep_index (now_ns e) 0.

Definition mm_evict_expired_n (e : env) (batch_size : Z) : M Z :=
  if batch_size =? 0 then mm_evict_expired e
  else cleanup_pending_deletion;; sweep_index (now_ns e) batch_size.

(** ** Insertion and update *)

Definition allocate_item (key : Key) (value : Value) : M loc := fun s =>
  let p := brk_ s in
  Some (p, set_brk (Pos.succ p) (set_heap (<[p := (key, value)]> (heap_ s)) s)).

(** The evictions before an insertion; [false] is a rejected insertion. *)
Definition make_room (mem : Z) : M bool :=
  s ← gets id;
  ok ← (if negb (max_size_ s =? unlimited) && (max_size_ s <=? size s) then
          evict_lru;;
          s ← gets id;
          if max_size_ s <=? size s then modify (stat_add eviction_failed 1);; mret false else mret true
        else mret true);
  if negb ok then mret false
  else
    fuel ← gets eviction_fuel;
    stuck ← evict_while fuel should_evict;
    if stuck : bool then modify (stat_add eviction_failed 1);; mret false
    else if max_memory_ s =? unlimited then mret true
    else
      fuel ← gets eviction_fuel;
      stuck ← evict_while fuel (fun s => negb (list_empty (q_ s)) && (max_memory_ s <? u64 (stats_ s current_memory + mem)));
      mret (negb stuck).

Definition insert_new (e : env) (key : Key) (value : Value) (expiry : Z) : M unit :=
  s ← gets id;
  if (max_size_ s =? 0) || (max_memory_ s =? 0) then skip
  else
    cleanup_pending_deletion;;
    let mem := calc_item_memory key value in
    room ← make_room mem;
    if negb room then skip
    else
      item ← allocate_item key value;
      modify (fun s => set_update_time (<[item := now_sec e]> (update_time_ s)) s);;
      (if expiry =? 0 then skip else modify (fun s => set_expiry (<[item := expiry]> (expiry_ s)) s));;
      spec ← gets spec_of;
      on_list (link_new spec item);;
      rc MarkLinked item;;
      modify (fun s => set_map (<[key := item]> (map_ s)) s);;
      (if expiry =? 0 then skip else modify (ttl_heap_push key expiry));;
      modify store_size;;
      modify (stat_add current_memory mem);;
      modify (stat_add insertions 1);;
      modify (collect (EvInsert key value));;
      refresh_point.

Definition update_existing (e : env) (item : loc) (value : Value) (mode : access_mode) : M unit :=
  '(k, old) ← deref item;
  let old_mem := calc_item_memory k old in
  modify (fun s => set_heap (<[item := (k, value)]> (heap_ s)) s);;
  _ ← record_access e item mode;
  let new_mem := calc_item_memory k value in
  (if old_mem <? new_mem then modify (stat_add current_memory (new_mem - old_mem))
   else if new_mem <? old_mem then modify (stat_sub current_memory (old_mem - new_mem))
   else skip);;
  over ← gets should_evict;
  (if over : bool then shrink_to_fit else skip);;
  '(k, v) ← deref item;
  modify (collect (EvUpdate k v)).

(** ** The public operations *)

Definition find (key : Key) : M ptr := gets (fun s => map_find s key).

Definition set (e : env) (key : Key) (value : Value) : M unit :=
  ptr ← find key;
  match ptr with None => insert_new e key value 0 | Some p => update_existing e p value write end.

Definition set_with_expiry (e : env) (key : Key) (value : Value) (expiry : Z) : M unit :=
  ptr ← find key;
  match ptr with
  | None => insert_new e key value expiry
  | Some p =>
      update_existing e p value write;;
      store_expiry p expiry;;
      if expiry =? 0 then skip else modify (ttl_heap_push key expiry)
  end.

Definition add (e : env) (key : Key) (value : Value) : M bool :=
  ptr ← find key;
  match ptr with
  | None => insert_new e key value 0;; mret true
  | Some p => _ ← record_access e p read; mret false
  end.

Definition replace (e : env) (key : Key) (value : Value) : M bool :=
  cleanup_pending_deletion;;
  ptr ← find key;
  match ptr with None => mret false | Some p => update_existing e p value write;; mret true end.

(** The handle constructor: pins the item, or gives the empty handle. *)
Definition make_handle (p : loc) : M ptr :=
  r ← rc IncRef p;
  match r with RInc kIncOk => mret (Some p) | _ => mret None end.

Definition get (e : env) (key : Key) : M ptr :=
  ptr ← find key;
  match ptr with
  | None => modify (stat_add misses 1);; modify (collect (EvMiss key));; mret None
  | Some p =>
      _ ← record_access e p read;
      modify (stat_add hits 1);;
      '(_, v) ← deref p;
      modify (collect (EvHit key v));;
      make_handle p
  end.

Definition peek (key : Key) : M ptr :=
  ptr ← find key;
  match ptr with None => mret None | Some p => make_handle p end.

(** [read_handle::release]. *)
Definition release (p : loc) : M unit := rc DecRef p;; skip.

Definition promote (e : env) (key : Key) : M bool :=
  ptr ← find key;
  match ptr with None => mret false | Some p => record_access e p read end.

Definition erase_impl (key : Key) : M unit :=
  ptr ← find key;
  match ptr with
  | None => skip
  | Some item =>
      held ← gets (fun s => has_active_handle s item);
      if held : bool then skip
      else
        '(k, v) ← deref item;
        modify (stat_sub current_memory (calc_item_memory k v));;
        collect_moving EvEvict item;;
        modify (map_erase key);;
        remove_from_list item;;
        set_hint None;;
        modify (retire_item item);;
        modify store_size
  end.

Definition del (key : Key) : M bool :=
  cleanup_pending_deletion;;
  ptr ← find key;
  match ptr with
  | None => mret false
  | Some p =>
      held ← gets (fun s => has_active_handle s p);
      if held : bool then mret false else erase_impl key;; mret true
  end.

Definition force_del (key : Key) : M bool :=
  cleanup_pending_deletion;;
  ptr ← find key;
  match ptr with
  | None => mret false
  | Some item =>
      s ← gets id;
      if has_active_handle s item && pending_deletion_at_cap s then
        modify (stat_add pending_deletion_skipped_count 1);; mret false
      else
        '(k, v) ← deref item;
        let mem := calc_item_memory k v in
        modify (map_erase key);;
        remove_from_list item;;
        set_hint None;;
        modify (stat_sub current_memory mem);;
        modify store_size;;
        held ← gets (fun s => has_active_handle s item);
        (if held : bool then modify (fun s => set_pending_deletion (pending_deletion_ s ++ [item]) s)
         else collect_moving EvEvict item;; modify (retire_item item));;
        mret true
  end.

(** Taking an unpinned item out and returning its value; [mk] is what becomes
    of the item's key. *)
Definition take_item (mk : Key -> Key) (item : loc) : M (Key * Value) :=
  '(k, v) ← deref item;
  modify (fun s => set_heap (<[item := (mk k, moved_from v)]> (heap_ s)) s);;
  modify (stat_sub current_memory (calc_item_memory k v));;
  remove_from_list item;;
  set_hint None;;
  modify (map_erase k);;
  modify (retire_item item);;
  modify store_size;;
  mret (k, v).

Definition pop (key : Key) : M (option Value) :=
  cleanup_pending_deletion;;
  ptr ← find key;
  match ptr with
  | None => mret None
  | Some item =>
      held ← gets (fun s => has_active_handle s item);
      if held : bool then mret None else kv ← take_item id item; mret (Some kv.2)
  end.

Definition pop_lru : M (option (Key * Value)) :=
  cleanup_pending_deletion;;
  s ← gets id;
  match list_tail (q_ s) with
  | None => mret None
  | Some tail =>
      if has_active_handle s tail then mret None
      else
        '(k, _) ← deref tail;
        if bool_decide (map_find s k = None) then mret None
        else kv ← take_item moved_key tail; mret (Some kv)
  end.

Definition max_size (new_max : Z) : M unit :=
  modify (set_max_size new_max);;
  modify (stat_store stat_max_size new_max);;
  if new_max =? npos then skip else shrink_to_fit.

Definition max_memory (new_max : Z) : M unit :=
  modify (set_max_memory new_max);;
  modify (stat_store stat_max_memory new_max);;
  if new_max =? npos then skip else shrink_to_fit.

(** [check_expiry]: [true] when the item may be used. An expired item that the
    caller has pinned is released. *)
Definition check_expiry (e : env) (item : loc) (key : Key) (ttl_held_ref : bool) : M bool :=
  x ← gets (fun s => expiry_of s item);
  if x =? 0 then mret true
  else
    modify (stat_add ttl_checked_count 1);;
    if now_ns e <? x then mret true
    else
      modify (stat_add ttl_expired_count 1);;
      modify (stat_add evictions_ttl 1);;
      (if ttl_held_ref then rc DecRef item;; skip else skip);;
      modify (stat_add misses 1);;
      modify (collect (EvMiss key));;
      mret false.

(** The read path of the caches: pin, then check the expiry. *)
Definition peek_for_get (e : env) (key : Key) : M ptr :=
  ptr ← find key;
  match ptr with
  | None => mret None
  | Some p =>
      h ← make_handle p;
      match h with
      | None => mret None
      | Some p =>
          x ← gets (fun s => expiry_of s p);
          if x =? 0 then mret (Some p)
          else live ← check_expiry e p key true; mret (if live : bool then Some p else None)
      end
  end.

Definition contains (e : env) (key : Key) : M bool :=
  ptr ← find key;
  match ptr with None => mret false | Some p => check_expiry e p key false end.

Definition ttl_remaining_ns (e : env) (key : Key) (s : mm_lru) : option Z :=
  p ← map_find s key;
  let x := expiry_of s p in
  if x =? 0 then None else if x <=? now_ns e then None else Some (x - now_ns e).

(** One unpinned item of [flush]; [false] when it could not be claimed. *)
Definition flush_item (c : loc) : M bool :=
  r ← rc MarkForEviction c;
  match r with
  | RMark kSuccess =>
      '(k, v) ← deref c;
      modify (stat_sub current_memory (calc_item_memory k v));;
      collect_moving EvEvict c;;
      modify (map_erase k);;
      remove_from_list c;;
      rc UnmarkForEviction c;;
      mret true
  | _ => mret false
  end.

(** The walk of [flush]: unpinned items leave, pinned ones lose their tail
    bit; the result lists the items to retire. *)
Fixpoint flush_loop (fuel : nat) (curr : ptr) (to_retire : list loc) : M (list loc) :=
  match curr with
  | None => mret to_retire
  | Some c =>
      match fuel with
      | O => fail
      | S fuel =>
          next ← gets (fun s => list_get_next (q_ s) c);
          held ← gets (fun s => has_active_handle s c);
          if held : bool then
            modify (fun s => let q := q_ s in
              set_q (LruList (items_ q) (tail_bits_ q ∖ {[c]}) (insertion_point_ q) (tail_size_ q) (insertion_point_pos_ q)) s);;
            flush_loop fuel next to_retire
          else
            taken ← flush_item c;
            flush_loop fuel next (if taken : bool then to_retire ++ [c] else to_retire)
      end
  end.

Definition flush : M unit :=
  s ← gets id;
  to_retire ← flush_loop (length (items_ (q_ s))) (list_head (q_ s)) [];
  modify (fun s => foldl (fun s p => retire_item p s) s to_retire);;
  modify (fun s => set_q (with_pos npos (with_tail_size 0 (with_point None (q_ s)))) s);;
  set_hint None;;
  modify store_size;;
  cleanup_pending_deletion.

(** [None] is the exception of [validate()]. *)
Definition set_config (e : env) (c : mm_lru_config) : M unit :=
  if negb (validate c) then fail
  else
    modify (set_config_ c);;
    on_list (reconfigure_point (lru_insertion_point_spec c));;
    modify (set_lru_refresh_time (default_lru_refresh_time c));;
    modify (set_next_reconfigure_time
      (if mm_reconfigure_interval_secs c =? 0 then U32_MAX else u32 (now_sec e + mm_reconfigure_interval_secs c))).

(** ** Construction *)

Definition validate_capacity (max_size max_memory : Z) : bool :=
  negb ((max_size =? 0) && negb (max_memory =? 0) && negb (max_memory =? unlimited)).

Definition initial_stats (max_size max_memory : Z) (c : counter) : Z :=
  match c with stat_max_size => max_size | stat_max_memory => max_memory | _ => 0 end.

(** The constructor with both limits; the one with a size only leaves the
    memory limit at [unlimited]. *)
Definition mm_lru_new (e : env) (max_size max_memory : Z) (c : mm_lru_config)
    (pred : option (Key -> Value -> bool)) (cbs : event_kind -> bool) : option mm_lru :=
  if negb (validate c) || negb (validate_capacity max_size max_memory) then None
  else Some (MmLru ∅ ∅ ∅ ∅ ∅ 1%positive (LruList [] ∅ None 0 npos) ∅ max_size max_memory c None
    (default_lru_refresh_time c)
    (if mm_reconfigure_interval_secs c =? 0 then U32_MAX else u32 (now_sec e + mm_reconfigure_interval_secs c))
    [] [] (initial_stats max_size max_memory) [] (TtlHeap [] []) pred cbs []).
End mm_lru.
