(* ===== verification/MmLruInv.v ===== *)
(** The invariant of mm_lru and the proof rules for its operations: list,
    index, refcount words, pending and retired items and the size and memory
    accounting agree, and no operation fails an assertion or follows a bad
    pointer. *)

From S2P Require Import Prelude IntrusiveList ListRefine Refcount StdHeap TtlHeap MmLruList MmLru.

(** * Total-correctness rules *)

Section wp.
Context {Key Value : Type} `{Countable Key}.
Implicit Types (s : mm_lru (Key := Key) (Value := Value)).

(** The operation succeeds, with a result and state that satisfy [Q]. *)
Definition wp {A} (m : M A) (Q : A -> mm_lru -> Prop) (s : mm_lru (Key := Key) (Value := Value)) : Prop :=
  match m s with Some (a, s') => Q a s' | None => False end.

Lemma wp_bind {A B} (m : M A) (f : A -> M B) Q s : wp (x ← m; f x) Q s = wp m (fun a s' => wp (f a) Q s') s.
Proof. unfold wp, mbind, M_bind. by destruct (m s) as [[]|]. Qed.

Lemma wp_ret {A} (x : A) Q s : wp (mret x) Q s = Q x s.
Proof. done. Qed.

Lemma wp_gets {A} (f : mm_lru -> A) Q s : wp (gets f) Q s = Q (f s) s.
Proof. done. Qed.

Lemma wp_modify f Q s : wp (modify f) Q s = Q tt (f s).
Proof. done. Qed.

Lemma wp_skip Q s : wp skip Q s = Q tt s.
Proof. done. Qed.

Lemma wp_rc o p Q s :
  wp (rc o p) Q s = Q (atomic o (ref_word s p)).1 (set_refcount (<[p := (atomic o (ref_word s p)).2]> (refcount_ s)) s).
Proof. unfold wp, rc. by destruct (atomic o (ref_word s p)). Qed.

Lemma wp_deref_any p kv Q s : heap_ s !! p = Some kv -> wp (deref p) Q s = Q kv (note_use p s).
Proof. intros E. unfold wp, deref. by rewrite E. Qed.

Lemma note_use_live p s : p ∉ retired_ s -> note_use p s = s.
Proof. intros Hp. unfold note_use. by rewrite decide_False. Qed.

Lemma wp_deref p kv Q s : heap_ s !! p = Some kv -> p ∉ retired_ s -> wp (deref p) Q s = Q kv s.
Proof. intros E Hp. by rewrite (wp_deref_any p kv), note_use_live. Qed.

Lemma wp_store_expiry p x Q s : is_Some (heap_ s !! p) ->
  wp (store_expiry p x) Q s = Q tt (set_expiry (<[p := x]> (expiry_ s)) (note_use p s)).
Proof. intros [kv E]. unfold wp, store_expiry. by rewrite E. Qed.

Lemma wp_on_list f q Q s : f (q_ s) = Some q -> wp (on_list f) Q s = Q tt (set_q q s).
Proof. intros E. unfold wp, on_list. by rewrite E. Qed.

Lemma wp_allocate key value Q s : wp (allocate_item key value) Q s =
  Q (brk_ s) (set_brk (Pos.succ (brk_ s)) (set_heap (<[brk_ s := (key, value)]> (heap_ s)) s)).
Proof. done. Qed.

Lemma wp_sweep {HH : StdHeap (entry Key) expiry_ns} {TP : mm_params Key Value} now budget Q s : wp (sweep_index now budget) Q s =
  Q (TtlHeap.sweep ttl_probe ttl_erase now budget s (index_ s)).1.1
    (set_index (TtlHeap.sweep ttl_probe ttl_erase now budget s (index_ s)).2 (TtlHeap.sweep ttl_probe ttl_erase now budget s (index_ s)).1.2).
Proof. unfold wp, sweep_index. by destruct (TtlHeap.sweep _ _ _ _ _ _) as [[? ?] ?]. Qed.

Lemma wp_mono {A} (m : M A) (P Q : A -> mm_lru -> Prop) s :
  wp m P s -> (forall a s', P a s' -> Q a s') -> wp m Q s.
Proof. unfold wp. destruct (m s) as [[]|]; auto. Qed.

Lemma wp_elim {A} (m : M A) Q s : wp m Q s -> exists a s', m s = Some (a, s') /\ Q a s'.
Proof. unfold wp. destruct (m s) as [[a s']|]; [eauto|done]. Qed.
End wp.

#[global] Opaque wp.

Create Rewrite HintDb wp.
#[export] Hint Rewrite @wp_bind @wp_ret @wp_gets @wp_modify @wp_skip @wp_rc @wp_allocate : wp.

(** Runs the monad up to the next step that needs a lemma. *)
Ltac wp_run := autorewrite with wp; cbv beta.

(** * Refcount words *)

Definition linked_word (b : bool) (w : Z) : Prop :=
  0 <= w < 2 ^ 64 /\ bit w kExclusiveBit = false /\ bit w kLinkedBit = b.

Lemma mark_word w : linked_word true w -> access_ref w = 0 ->
  atomic MarkForEviction w = (RMark kSuccess, Z.lor w (Z.shiftl 1 kExclusiveBit)).
Proof. intros (Hr & He & Hl) Ha. unfold atomic, body, markForEviction. rewrite Hl, He, Ha. done. Qed.

Lemma marked_linked w : linked_word true w -> isInMMContainer (Z.lor w (Z.shiftl 1 kExclusiveBit)) = true.
Proof.
  intros (Hr & He & Hl). unfold isInMMContainer. destruct (word_set_bit w kExclusiveBit Hr) as (_ & Hb & _); [done|].
  rewrite Hb by done. by rewrite Hl, orb_true_r.
Qed.

(** Mark, unlink, unmark: the words of an evicted item. *)
Lemma evict_word w : linked_word true w ->
  let w3 := (atomic UnmarkForEviction (atomic UnmarkLinked (Z.lor w (Z.shiftl 1 kExclusiveBit))).2).2 in
  linked_word false w3 /\ access_ref w3 = access_ref w.
Proof.
  intros (Hr & He & Hl). destruct (word_set_bit w kExclusiveBit Hr) as (A1 & B1 & R1); [done|].
  destruct (word_clear_bit _ kLinkedBit R1) as (A2 & B2 & R2); [done|].
  destruct (word_clear_bit _ kExclusiveBit R2) as (A3 & B3 & R3); [done|].
  cbv zeta. unfold atomic, body, unmarkForEviction, unmarkInMMContainer. cbn [attempt_map snd].
  split; [|by rewrite A3, A2, A1]. split; [done|]. rewrite !B3, !B2 by done. done.
Qed.

Lemma unlink_word w b : linked_word b w ->
  linked_word false (atomic UnmarkLinked w).2 /\ access_ref (atomic UnmarkLinked w).2 = access_ref w.
Proof.
  intros (Hr & He & Hl). destruct (word_clear_bit w kLinkedBit Hr) as (A & B & R); [done|].
  unfold atomic, body, unmarkInMMContainer. cbn [attempt_map snd]. split; [|done]. split; [done|].
  rewrite !B by done. by rewrite He.
Qed.

Lemma link_word w b : linked_word b w ->
  linked_word true (atomic MarkLinked w).2 /\ access_ref (atomic MarkLinked w).2 = access_ref w.
Proof.
  intros (Hr & He & Hl). destruct (word_set_bit w kLinkedBit Hr) as (A & B & R); [done|].
  unfold atomic, body, markInMMContainer. cbn [attempt_map snd]. split; [|done]. split; [done|].
  rewrite !B by done. by rewrite He.
Qed.

Lemma inc_word w : linked_word true w ->
  (access_ref w < kAccessRefMax /\ (atomic IncRef w).1 = RInc kIncOk /\
     linked_word true (atomic IncRef w).2 /\ access_ref (atomic IncRef w).2 = access_ref w + 1) \/
  (access_ref w = kAccessRefMax /\ atomic IncRef w = (RInc kIncFailedOverflow, w)).
Proof.
  intros (Hr & He & Hl). unfold atomic, body, incRef. rewrite He, Hl. cbn [negb].
  assert (access_ref w <= kAccessRefMax) as Hm.
  { rewrite access_ref_mod. pose proof (Z.mod_pos_bound w (2 ^ 32)). change kAccessRefMax with (2 ^ 32 - 1). lia. }
  destruct (kAccessRefMax <=? access_ref w) eqn:E; bool_to_Z; [right; split; [lia|done]|left].
  destruct (word_inc w Hr E) as (A & B & R). cbn [attempt_map fst snd].
  split; [done|]. split; [done|]. split; [|done]. split; [done|]. by rewrite !B.
Qed.

Lemma dec_word w b : linked_word b w -> 0 < access_ref w ->
  linked_word b (atomic DecRef w).2 /\ access_ref (atomic DecRef w).2 = access_ref w - 1.
Proof.
  intros (Hr & He & Hl) Ha. unfold atomic, body, decRef. rewrite (proj2 (Z.eqb_neq _ _)) by lia.
  destruct (word_dec w Hr Ha) as (A & B & R). cbn [attempt_map snd]. split; [|done]. split; [done|]. by rewrite !B.
Qed.

Lemma access_nonneg w b : linked_word b w -> 0 <= access_ref w.
Proof. intros _. rewrite access_ref_mod. by apply Z.mod_pos_bound. Qed.

Lemma zero_word : linked_word false 0.
Proof. done. Qed.

(** * The invariant *)

Section inv.
Context {Key Value : Type} `{Countable Key} {TP : mm_params Key Value}.
Abbreviation mm := (mm_lru (Key := Key) (Value := Value)).
Implicit Types (s : mm) (p : loc) (k : Key) (v : Value).

Definition linked_items (s : mm) : list loc := items_ (q_ s).

Definition item_mem (s : mm) (p : loc) : Z :=
  match heap_ s !! p with Some (k, v) => calc_item_memory k v | None => 0 end.
Definition mem_sum (s : mm) (l : list loc) : Z := foldr (fun p n => item_mem s p + n) 0 l.

Record inv (s : mm) : Prop := {
  iv_spec : 0 <= spec_of s;
  iv_list : list_ok (spec_of s) (q_ s);
  iv_items : forall p, p ∈ linked_items s -> exists k v, heap_ s !! p = Some (k, v) /\ map_ s !! k = Some p;
  iv_map : forall k p, map_ s !! k = Some p -> p ∈ linked_items s /\ exists v, heap_ s !! p = Some (k, v);
  iv_word : forall p, linked_word (bool_decide (p ∈ linked_items s)) (ref_word s p);
  iv_hint : forall p, unpinned_tail_ s = Some p -> p ∈ linked_items s;
  iv_fresh : forall p, (brk_ s <= p)%positive ->
    heap_ s !! p = None /\ refcount_ s !! p = None /\ expiry_ s !! p = None /\ p ∉ accessed_bits_ s;
  iv_pending : forall p, p ∈ pending_deletion_ s -> p ∉ linked_items s /\ is_Some (heap_ s !! p);
  iv_pending_nodup : NoDup (pending_deletion_ s);
  iv_retired : forall p, p ∈ retired_ s -> p ∉ linked_items s /\ p ∉ pending_deletion_ s /\ is_Some (heap_ s !! p) /\
    access_ref (ref_word s p) = 0;
  iv_retired_nodup : NoDup (retired_ s);
  iv_size : stats_ s current_size = size s;
  iv_memory : stats_ s current_memory = u64 (mem_sum s (linked_items s))
}.

Lemma handle_access s p : inv s -> has_active_handle s p = (0 <? access_ref (ref_word s p)).
Proof.
  intros Hi. destruct (iv_word _ Hi p) as (_ & He & _). unfold has_active_handle, getAccessRef. by rewrite He.
Qed.

Lemma linked_live s p : inv s -> p ∈ linked_items s -> p ∉ retired_ s.
Proof. intros Hi Hp Hr. by destruct (iv_retired _ Hi _ Hr). Qed.

Lemma inv_nodup s : inv s -> NoDup (linked_items s).
Proof. intros Hi. by eapply list_mid_nodup, list_ok_mid, iv_list. Qed.

Lemma map_find_spec s k : inv s -> map_find s k = map_ s !! k.
Proof.
  intros Hi. unfold map_find. destruct (map_ s !! k) as [p|] eqn:E; [|done]. simpl.
  destruct (iv_map _ Hi _ _ E) as (_ & v & ->). simpl. by rewrite decide_True.
Qed.

Lemma mem_sum_app s l1 l2 : mem_sum s (l1 ++ l2) = mem_sum s l1 + mem_sum s l2.
Proof. induction l1; simpl; lia. Qed.

Lemma mem_sum_ext s s' l : (forall p, p ∈ l -> heap_ s' !! p = heap_ s !! p) -> mem_sum s' l = mem_sum s l.
Proof.
  induction l as [|p l IH]; intros Hl; simpl; [done|]. rewrite IH by (intros; apply Hl; by right).
  f_equal. unfold item_mem. by rewrite Hl by (by left).
Qed.

Lemma mem_sum_perm s l l' : l ≡ₚ l' -> mem_sum s l = mem_sum s l'.
Proof. induction 1; simpl; lia. Qed.

Lemma mem_sum_without s p l k v : NoDup l -> p ∈ l -> heap_ s !! p = Some (k, v) ->
  mem_sum s l = calc_item_memory k v + mem_sum s (without p l).
Proof.
  intros Hn Hp Hh. destruct (split_at l p Hn Hp) as (l1 & l2 & -> & H1 & H2).
  rewrite without_split, !mem_sum_app by done. simpl. unfold item_mem at 1. rewrite Hh. lia.
Qed.

(** ** What evictions and promotions leave alone *)

Record keeps (s s' : mm) : Prop := {
  kp_items : forall p, p ∈ linked_items s' -> p ∈ linked_items s;
  kp_size : size s' <= size s;
  kp_heap : forall p, heap_ s' !! p = heap_ s !! p \/ (access_ref (ref_word s p) = 0 /\ p ∉ linked_items s');
  kp_alloc : forall p, is_Some (heap_ s !! p) -> is_Some (heap_ s' !! p);
  kp_expiry : expiry_ s' = expiry_ s;
  kp_access : forall p, access_ref (ref_word s' p) = access_ref (ref_word s p);
  kp_index : index_ s' = index_ s;
  kp_params : (max_size_ s', max_memory_ s', config_ s', eviction_predicate_ s', has_callbacks_ s', brk_ s', stale_uses_ s') =
              (max_size_ s, max_memory_ s, config_ s, eviction_predicate_ s, has_callbacks_ s, brk_ s, stale_uses_ s)
}.

Lemma keeps_refl s : keeps s s.
Proof. split; auto; lia. Qed.

Lemma keeps_trans s1 s2 s3 : keeps s1 s2 -> keeps s2 s3 -> keeps s1 s3.
Proof.
  intros [A1 A2 A3 A4 A5 A6 A7 A8] [B1 B2 B3 B4 B5 B6 B7 B8]. split; try congruence; eauto; [lia|].
  intros p. destruct (B3 p) as [E|[E Hp]]; [|right; split; [by rewrite <- A6|done]].
  destruct (A3 p) as [E'|[E' Hp]]; [left; congruence|right; split; [done|]]. intros Hp'. by apply Hp, B1.
Qed.

Lemma keeps_spec s s' : keeps s s' -> spec_of s' = spec_of s.
Proof. intros Hk. unfold spec_of. pose proof (kp_params _ _ Hk). congruence. Qed.

(** ** Taking an item out *)

Record removed (p : loc) (k : Key) (v : Value) (s s' : mm) : Prop := {
  rm_items : linked_items s' = without p (linked_items s);
  rm_list : list_ok (spec_of s) (q_ s');
  rm_map : map_ s' = delete k (map_ s);
  rm_heap : forall r, r <> p -> heap_ s' !! r = heap_ s !! r;
  rm_alloc : is_Some (heap_ s' !! p);
  rm_words : forall r, r <> p -> refcount_ s' !! r = refcount_ s !! r;
  rm_word : linked_word false (ref_word s' p) /\ access_ref (ref_word s' p) = access_ref (ref_word s p);
  rm_expiry : expiry_ s' = expiry_ s;
  rm_accessed : forall r, r ∈ accessed_bits_ s' -> r ∈ accessed_bits_ s;
  rm_hint : forall r, unpinned_tail_ s' = Some r -> r ∈ without p (linked_items s);
  rm_size : stats_ s' current_size = size s';
  rm_memory : stats_ s' current_memory = u64 (stats_ s current_memory - calc_item_memory k v);
  rm_index : index_ s' = index_ s;
  rm_params : (max_size_ s', max_memory_ s', config_ s', eviction_predicate_ s', has_callbacks_ s', brk_ s', stale_uses_ s') =
              (max_size_ s, max_memory_ s, config_ s, eviction_predicate_ s, has_callbacks_ s, brk_ s, stale_uses_ s);
  rm_where :
    (access_ref (ref_word s p) = 0 /\ retired_ s' = p :: retired_ s /\ pending_deletion_ s' = pending_deletion_ s) \/
    (heap_ s' !! p = heap_ s !! p /\ retired_ s' = retired_ s /\ pending_deletion_ s' = pending_deletion_ s ++ [p])
}.

Lemma inv_removed p k v s s' :
  inv s -> map_ s !! k = Some p -> heap_ s !! p = Some (k, v) -> removed p k v s s' -> inv s'.
Proof.
  intros Hi Hm Hh R. pose proof (inv_nodup s Hi) as Hn. destruct (iv_map _ Hi _ _ Hm) as [Hp _].
  assert (spec_of s' = spec_of s) as Hspec by (unfold spec_of; pose proof (rm_params _ _ _ _ _ R); congruence).
  assert (forall r, r ∈ linked_items s' <-> r <> p /\ r ∈ linked_items s) as Hl by (intros r; rewrite (rm_items _ _ _ _ _ R); apply without_elem).
  assert (forall r, is_Some (heap_ s !! r) -> is_Some (heap_ s' !! r)) as Hsome.
  { intros r Hr. destruct (decide (r = p)) as [->|]; [by apply (rm_alloc _ _ _ _ _ R)|]. by rewrite (rm_heap _ _ _ _ _ R). }
  assert (forall r, access_ref (ref_word s' r) = access_ref (ref_word s r)) as Hacc.
  { intros r. destruct (decide (r = p)) as [->|]; [by apply (rm_word _ _ _ _ _ R)|]. unfold ref_word. by rewrite (rm_words _ _ _ _ _ R). }
  assert (p ∉ pending_deletion_ s) as Hpp by (intros Hx; by apply (iv_pending _ Hi) in Hx as [? _]).
  assert (p ∉ retired_ s) as Hpr by (intros Hx; by apply (iv_retired _ Hi) in Hx as [? _]).
  split.
  - rewrite Hspec. apply (iv_spec _ Hi).
  - rewrite Hspec. apply (rm_list _ _ _ _ _ R).
  - intros r [Hr Hr']%Hl. destruct (iv_items _ Hi _ Hr') as (k' & v' & E & Em). exists k', v'.
    rewrite (rm_heap _ _ _ _ _ R), (rm_map _ _ _ _ _ R) by done. split; [done|]. rewrite lookup_delete_ne; [done|]. intros ->. congruence.
  - intros k' r. rewrite (rm_map _ _ _ _ _ R), lookup_delete_Some, Hl. intros [Hk Hr].
    destruct (iv_map _ Hi _ _ Hr) as [Hr' [v' E]]. assert (r <> p) as Hrp by (intros ->; congruence).
    rewrite (rm_heap _ _ _ _ _ R) by done. eauto.
  - intros r. destruct (decide (r = p)) as [->|Hr].
    + rewrite bool_decide_false by (rewrite Hl; tauto). apply (rm_word _ _ _ _ _ R).
    + rewrite (bool_decide_ext _ (r ∈ linked_items s)) by (rewrite Hl; tauto). unfold ref_word. rewrite (rm_words _ _ _ _ _ R) by done. apply (iv_word _ Hi).
  - intros r Hr. rewrite (rm_items _ _ _ _ _ R). by apply (rm_hint _ _ _ _ _ R).
  - intros r Hr. assert (brk_ s' = brk_ s) as Hb by (pose proof (rm_params _ _ _ _ _ R); congruence). rewrite Hb in Hr.
    destruct (iv_fresh _ Hi _ Hr) as (A & B & C & D). assert (r <> p) as Hrp by (intros ->; congruence).
    rewrite (rm_heap _ _ _ _ _ R), (rm_words _ _ _ _ _ R), (rm_expiry _ _ _ _ _ R) by done. split_and!; try done.
    intros Hx. by apply D, (rm_accessed _ _ _ _ _ R).
  - intros r Hr. rewrite Hl. destruct (rm_where _ _ _ _ _ R) as [(_ & _ & E)|(_ & _ & E)]; rewrite E in Hr.
    + destruct (iv_pending _ Hi _ Hr) as [? ?]. split; [tauto|auto].
    + apply elem_of_app in Hr as [Hr|Hr%list_elem_of_singleton]; [destruct (iv_pending _ Hi _ Hr) as [? ?]; split; [tauto|auto]|].
      subst r. split; [tauto|]. apply (rm_alloc _ _ _ _ _ R).
  - destruct (rm_where _ _ _ _ _ R) as [(_ & _ & ->)|(_ & _ & ->)]; [apply (iv_pending_nodup _ Hi)|].
    apply NoDup_app. split; [apply (iv_pending_nodup _ Hi)|]. split; [|apply NoDup_singleton]. set_solver.
  - intros r Hr. rewrite Hl, Hacc. destruct (rm_where _ _ _ _ _ R) as [(Ha & E & ->)|(_ & E & ->)]; rewrite E in Hr.
    + apply elem_of_cons in Hr as [->|Hr]; [split; [tauto|]; split; [done|]; split; [apply (rm_alloc _ _ _ _ _ R)|done]|].
      destruct (iv_retired _ Hi _ Hr) as (? & ? & ? & ?). split_and!; auto. tauto.
    + destruct (iv_retired _ Hi _ Hr) as (? & ? & ? & ?). split_and!; auto; [tauto|]. rewrite elem_of_app, list_elem_of_singleton. intros [?| ->]; tauto.
  - destruct (rm_where _ _ _ _ _ R) as [(_ & -> & _)|(_ & -> & _)]; [|apply (iv_retired_nodup _ Hi)].
    apply NoDup_cons. split; [done|apply (iv_retired_nodup _ Hi)].
  - apply (rm_size _ _ _ _ _ R).
  - rewrite (rm_memory _ _ _ _ _ R), (iv_memory _ Hi), (rm_items _ _ _ _ _ R).
    rewrite (mem_sum_without s p _ k v Hn Hp Hh), (mem_sum_ext s s'); [|intros r [Hr _]%without_elem; by apply (rm_heap _ _ _ _ _ R)].
    autorewrite with wraps. f_equal. lia.
Qed.

Lemma removed_keeps p k v s s' : inv s -> p ∈ linked_items s -> removed p k v s s' ->
  access_ref (ref_word s p) = 0 -> keeps s s'.
Proof.
  intros Hi Hp R Ha. pose proof (inv_nodup s Hi) as Hn. split.
  - intros r. rewrite (rm_items _ _ _ _ _ R), without_elem. tauto.
  - unfold size, list_size. change (items_ (q_ s')) with (linked_items s'). rewrite (rm_items _ _ _ _ _ R).
    pose proof (without_length p _ Hn Hp). unfold linked_items in *. lia.
  - intros r. destruct (decide (r = p)) as [->|]; [right; split; [done|]|left; by apply (rm_heap _ _ _ _ _ R)].
    rewrite (rm_items _ _ _ _ _ R), without_elem. tauto.
  - intros r Hr. destruct (decide (r = p)) as [->|]; [by apply (rm_alloc _ _ _ _ _ R)|]. by rewrite (rm_heap _ _ _ _ _ R).
  - apply (rm_expiry _ _ _ _ _ R).
  - intros r. destruct (decide (r = p)) as [->|]; [by apply (rm_word _ _ _ _ _ R)|]. unfold ref_word. by rewrite (rm_words _ _ _ _ _ R).
  - apply (rm_index _ _ _ _ _ R).
  - apply (rm_params _ _ _ _ _ R).
Qed.
End inv.
