(* ===== verification/MmLruOps.v ===== *)
(** What each operation of mm_lru does, as total-correctness lemmas over the
    invariant: the operation succeeds, keeps the invariant, and changes only
    what it is meant to change. *)

From S2P Require Import Prelude IntrusiveList ListRefine Refcount StdHeap TtlHeap MmLruList MmLru MmLruInv.

(** Projections of updated states. *)
Ltac mm_cbn :=
  unfold store_size, stat_store, stat_add, stat_sub, retire_item, linked_items, spec_of, size, ref_word in *;
  cbn [heap_ update_time_ expiry_ refcount_ accessed_bits_ brk_ q_ map_ max_size_ max_memory_ config_ unpinned_tail_
       lru_refresh_time_ next_reconfigure_time_ pending_deletion_ retired_ stats_ log_ index_ eviction_predicate_ has_callbacks_ stale_uses_
       set_heap set_update_time set_expiry set_refcount set_accessed_bits set_brk set_q set_map set_max_size set_max_memory
       set_config_ set_unpinned_tail set_lru_refresh_time set_next_reconfigure_time set_pending_deletion set_retired
       set_stats set_log set_index set_stale_uses fst snd] in *.

(** Closes the fields of [removed] for a state the operations built. *)
Ltac removed_tac :=
  mm_cbn; rewrite ?lookup_insert_eq, ?insert_insert_eq; cbn [default from_option];
  first
    [ done
    | assumption
    | by (intros r Hr; rewrite ?lookup_insert_ne by done)
    | by (eexists; reflexivity)
    | by (intros r [? ?]%elem_of_difference)
    | by auto ].

Section ops.
Context {Key Value : Type} `{Countable Key} {TP : mm_params Key Value}.
Context {HH : StdHeap (entry Key) expiry_ns}.
Abbreviation mm := (mm_lru (Key := Key) (Value := Value)).
Implicit Types (s : mm) (p : loc) (k : Key) (v : Value).

(** ** Steps *)

Lemma wp_collect_moving mk p k v Q s : heap_ s !! p = Some (k, v) -> p ∉ retired_ s ->
  (forall v' lg, Q tt (set_heap (<[p := (k, v')]> (heap_ s)) (set_log lg s))) -> wp (collect_moving mk p) Q s.
Proof.
  intros Hh Hr HQ. unfold collect_moving. rewrite wp_bind, (wp_deref _ _ _ _ Hh Hr). wp_run. unfold id.
  destruct (has_callbacks_ s (kind (mk k v))) eqn:E; wp_run.
  - unfold collect. rewrite E. apply (HQ (moved_from v)).
  - specialize (HQ v (log_ s)). rewrite insert_id in HQ by done. by destruct s.
Qed.

Lemma map_erase_spec k p v s : map_ s !! k = Some p -> heap_ s !! p = Some (k, v) ->
  map_erase k s = set_map (delete k (map_ s)) s.
Proof. intros Hm Hh. unfold map_erase, map_find. rewrite Hm. simpl. rewrite Hh. simpl. by rewrite decide_True. Qed.

Lemma map_erase_absent k s : map_find s k = None -> map_erase k s = s.
Proof. intros Hm. unfold map_erase. by rewrite Hm. Qed.

Lemma wp_remove p Q s :
  0 <= spec_of s -> list_ok (spec_of s) (q_ s) -> p ∈ linked_items s -> isInMMContainer (ref_word s p) = true ->
  (forall q, list_ok (spec_of s) q -> items_ q = without p (linked_items s) ->
    Q tt (set_q q (set_refcount (<[p := (atomic UnmarkLinked (ref_word s p)).2]> (refcount_ s))
           (set_accessed_bits (accessed_bits_ s ∖ {[p]}) s)))) ->
  wp (remove_from_list p) Q s.
Proof.
  intros Hspec Hok Hp Hl HQ. destruct (unlink_item_spec _ _ _ Hspec Hok Hp) as (q' & E & Hok' & Hi').
  unfold unlink_item in E. unfold remove_from_list, refresh_point. wp_run. rewrite Hl. cbn [negb]. wp_run.
  destruct (tail_size_ (q_ s) <=? list_size (q_ s)); [|done]. cbn [negb] in *. wp_run.
  apply bind_Some in E as (q1 & E1 & E). apply bind_Some in E as (q2 & E2 & E).
  rewrite (wp_on_list _ _ _ _ E1). wp_run.
  rewrite (wp_on_list _ q2) by exact E2. wp_run.
  rewrite (wp_on_list _ q') by exact E. apply (HQ q' Hok' Hi').
Qed.

Lemma word_linked s p : inv s -> p ∈ linked_items s -> linked_word true (ref_word s p).
Proof. intros Hi Hp. pose proof (iv_word _ Hi p) as Hw. by rewrite bool_decide_true in Hw. Qed.

Lemma word_in_container b w : linked_word b w -> isInMMContainer w = b.
Proof. intros (_ & He & Hl). unfold isInMMContainer. rewrite Hl. done. Qed.

Lemma plain_access b w : linked_word b w -> getAccessRef w = access_ref w.
Proof. intros (_ & He & _). unfold getAccessRef. by rewrite He. Qed.

Lemma not_held s p : inv s -> has_active_handle s p = false -> access_ref (ref_word s p) = 0.
Proof. intros Hi Ha. rewrite handle_access in Ha by done. bool_to_Z. pose proof (access_nonneg _ _ (iv_word _ Hi p)). lia. Qed.

(** ** Deferred deletions *)

(** The members a deferred deletion or a failed search leaves alone. *)
Definition same_list (s s' : mm) : Prop :=
  (q_ s', map_ s', unpinned_tail_ s', stats_ s' current_memory, index_ s') = (q_ s, map_ s, unpinned_tail_ s, stats_ s current_memory, index_ s).

Lemma inv_cleanup_kept s p v' lg kept :
  inv s -> pending_deletion_ s = kept -> p ∈ kept -> access_ref (ref_word s p) = 0 ->
  forall k v, heap_ s !! p = Some (k, v) ->
  inv (set_pending_deletion (without p kept) (retire_item p (set_heap (<[p := (k, v')]> (heap_ s)) (set_log lg s)))) /\
  keeps s (set_pending_deletion (without p kept) (retire_item p (set_heap (<[p := (k, v')]> (heap_ s)) (set_log lg s)))).
Proof.
  intros Hi <- Hp Ha k v Hh. destruct (iv_pending _ Hi _ Hp) as [Hnl _].
  set (s' := set_pending_deletion _ _).
  assert (forall r, r <> p -> heap_ s' !! r = heap_ s !! r) as Hne by (intros r Hr; by apply lookup_insert_ne).
  assert (forall r, is_Some (heap_ s !! r) -> is_Some (heap_ s' !! r)) as Hsome.
  { intros r Hr. destruct (decide (r = p)) as [->|]; [|by rewrite Hne]. unfold s'. mm_cbn. rewrite lookup_insert_eq. by eexists. }
  assert (pending_deletion_ s' = without p (pending_deletion_ s)) as Hpd by done. assert (retired_ s' = p :: retired_ s) as Hrt by done.
  split.
  - destruct Hi as [I1 I2 I3 I4 I5 I6 I7 I8 I9 I10 I11 I12 I13]. split; try assumption.
    + intros r Hr. destruct (I3 r Hr) as (k' & v0 & E & Em). exists k', v0. rewrite Hne; [done|]. by intros ->.
    + intros k' r Hr. destruct (I4 _ _ Hr) as [Hr' [v0 E]]. split; [done|]. exists v0. rewrite Hne; [done|]. by intros ->.
    + intros r Hr. destruct (I7 r Hr) as (? & ? & ? & ?). rewrite Hne; [done|]. intros ->. congruence.
    + rewrite Hpd. intros r [Hr Hr']%without_elem. destruct (I8 r Hr') as [? ?]. auto.
    + by apply without_nodup.
    + rewrite Hpd, Hrt. intros r [->|Hr]%elem_of_cons.
      * split; [done|]. split; [rewrite without_elem; tauto|]. split; [|done]. apply Hsome. by eexists.
      * destruct (I10 r Hr) as (? & ? & ? & ?). split; [done|]. split; [rewrite without_elem; tauto|]. auto.
    + apply NoDup_cons. split; [|done]. intros Hx. by apply I10 in Hx as (_ & ? & _).
    + rewrite (mem_sum_ext s s'); [done|]. intros r Hr. apply Hne. by intros ->.
  - split; try done. intros r. destruct (decide (r = p)) as [->|]; [by right|left; by apply Hne].
Qed.

Lemma keeps_pending x y s s' : keeps (set_pending_deletion x s) (set_pending_deletion y s') -> keeps s s'.
Proof. intros [A1 A2 A3 A4 A5 A6 A7 A8]. by split. Qed.

Lemma wp_cleanup_loop todo acc s :
  inv (set_pending_deletion (acc ++ todo) s) ->
  wp (cleanup_loop todo) (fun kept s' =>
    inv (set_pending_deletion (acc ++ kept) s') /\ keeps s s' /\ same_list s s') s.
Proof.
  revert acc s. induction todo as [|p todo IH]; intros acc s Hi; cbn [cleanup_loop]; wp_run.
  { split; [done|]. split; [apply keeps_refl|done]. }
  destruct (has_active_handle s p) eqn:Ha; wp_run.
  - eapply wp_mono; [apply (IH (acc ++ [p])); by rewrite <- app_assoc|]. intros kept s' (Hi' & Hk & Hs). wp_run.
    rewrite <- app_assoc in Hi'. done.
  - set (s0 := set_pending_deletion (acc ++ p :: todo) s) in *.
    assert (p ∈ pending_deletion_ s0) as Hp by (cbn; set_solver).
    destruct (iv_pending _ Hi _ Hp) as [_ [[k v] Hh]]. pose proof (not_held s0 p Hi Ha) as Ha0.
    pose proof (iv_pending_nodup _ Hi) as Hn. cbn in Hn. apply NoDup_app_mid in Hn as (Hn1 & Hn2 & _).
    eapply wp_collect_moving; [exact Hh|intros Hr; by apply (iv_retired _ Hi) in Hr as (_ & ? & _)|]. intros v' lg. wp_run.
    destruct (inv_cleanup_kept s0 p v' lg _ Hi eq_refl Hp Ha0 k v Hh) as [Hi' Hk'].
    cbn [s0 pending_deletion_ set_pending_deletion] in Hi', Hk'. rewrite without_split in Hi', Hk' by done.
    eapply wp_mono; [apply (IH acc); exact Hi'|]. intros kept s' (Hi2 & Hk2 & Hs2). split; [done|]. split; [|done].
    eapply keeps_trans; [|exact Hk2]. eapply keeps_pending. exact Hk'.
Qed.

Lemma wp_cleanup s : inv s ->
  wp cleanup_pending_deletion (fun _ s' => inv s' /\ keeps s s' /\ same_list s s') s.
Proof.
  intros Hi. unfold cleanup_pending_deletion. wp_run. eapply wp_mono; [apply (wp_cleanup_loop _ [])|].
  { destruct s; exact Hi. }
  intros kept s' (Hi' & Hk & Hs). wp_run. split; [done|]. split; [|done].
  eapply keeps_trans; [exact Hk|]. split; try done; auto.
Qed.

(** ** Removals *)

Lemma find_spec s k : inv s ->
  match map_find s k with
  | Some p => map_ s !! k = Some p /\ p ∈ linked_items s /\ exists v, heap_ s !! p = Some (k, v)
  | None => map_ s !! k = None
  end.
Proof.
  intros Hi. rewrite map_find_spec by done. destruct (map_ s !! k) as [p|] eqn:E; [|done]. split; [done|]. by apply (iv_map _ Hi).
Qed.

Lemma wp_erase_impl k p v s :
  inv s -> map_ s !! k = Some p -> p ∈ linked_items s -> heap_ s !! p = Some (k, v) -> access_ref (ref_word s p) = 0 ->
  wp (erase_impl k) (fun _ s' => removed p k v s s') s.
Proof.
  intros Hi Hm Hp Hh Ha. pose proof (word_linked s p Hi Hp) as Hw. unfold erase_impl, find. wp_run.
  rewrite map_find_spec, Hm by done. wp_run. rewrite handle_access, Ha by done. cbn [Z.ltb Z.compare].
  wp_run. rewrite (wp_deref _ (k, v)) by (done || by apply (linked_live s)). wp_run.
  eapply wp_collect_moving; [exact Hh|exact (linked_live s p Hi Hp)|]. intros v' lg. wp_run.
  rewrite (map_erase_spec k p v') by (mm_cbn; by rewrite ?lookup_insert_eq).
  eapply wp_remove; mm_cbn; [apply (iv_spec _ Hi)|apply (iv_list _ Hi)|done|by apply (word_in_container true)|].
  intros q Hq Hqi. unfold set_hint. wp_run. destruct (unlink_word _ _ Hw) as [Hw1 Hw2].
  split; removed_tac.
Qed.

Lemma wp_erase_expired k p v s :
  inv s -> map_ s !! k = Some p -> p ∈ linked_items s -> heap_ s !! p = Some (k, v) -> access_ref (ref_word s p) = 0 ->
  wp (erase_expired_impl k) (fun _ s' => removed p k v s s') s.
Proof.
  intros Hi Hm Hp Hh Ha. pose proof (word_linked s p Hi Hp) as Hw. unfold erase_expired_impl. wp_run.
  rewrite map_find_spec, Hm by done. wp_run. rewrite handle_access, Ha by done. cbn [Z.ltb Z.compare].
  wp_run. rewrite (wp_deref _ (k, v)) by (done || by apply (linked_live s)). wp_run.
  eapply wp_collect_moving; [exact Hh|exact (linked_live s p Hi Hp)|]. intros v' lg. wp_run.
  rewrite (map_erase_spec k p v') by (mm_cbn; by rewrite ?lookup_insert_eq).
  eapply wp_remove; mm_cbn; [apply (iv_spec _ Hi)|apply (iv_list _ Hi)|done|by apply (word_in_container true)|].
  intros q Hq Hqi. unfold set_hint. wp_run. destruct (unlink_word _ _ Hw) as [Hw1 Hw2].
  split; removed_tac.
Qed.

Lemma wp_take_item mk k p v s :
  inv s -> map_ s !! k = Some p -> p ∈ linked_items s -> heap_ s !! p = Some (k, v) -> access_ref (ref_word s p) = 0 ->
  mk k = k -> wp (take_item mk p) (fun kv s' => kv = (k, v) /\ removed p k v s s') s.
Proof.
  intros Hi Hm Hp Hh Ha Hk. pose proof (word_linked s p Hi Hp) as Hw. unfold take_item. wp_run.
  rewrite (wp_deref _ (k, v)) by (done || by apply linked_live). wp_run. rewrite Hk.
  eapply wp_remove; mm_cbn; [apply (iv_spec _ Hi)|apply (iv_list _ Hi)|done|by apply (word_in_container true)|].
  intros q Hq Hqi. unfold set_hint. wp_run.
  rewrite (map_erase_spec k p (moved_from v)) by (mm_cbn; by rewrite ?lookup_insert_eq).
  destruct (unlink_word _ _ Hw) as [Hw1 Hw2]. split; [done|]. split; removed_tac.
Qed.

(** [del], [force_del], [pop] and [pop_lru]: what they report and remove. *)
Definition gone (s s' : mm) (p : loc) (k : Key) (v : Value) : Prop :=
  exists s1, keeps s s1 /\ same_list s s1 /\ inv s1 /\ map_ s1 !! k = Some p /\ p ∈ linked_items s1 /\
    heap_ s1 !! p = Some (k, v) /\ removed p k v s1 s'.

Lemma gone_inv s s' p k v : gone s s' p k v -> inv s'.
Proof. intros (s1 & _ & _ & Hi & Hm & _ & Hh & R). by eapply inv_removed. Qed.

Lemma wp_del k s : inv s ->
  wp (del k) (fun r s' =>
    if r : bool then exists p v, gone s s' p k v /\ access_ref (ref_word s p) = 0
    else inv s' /\ keeps s s' /\ same_list s s' /\
         match map_ s !! k with Some p => 0 < access_ref (ref_word s p) | None => True end) s.
Proof.
  intros Hi. unfold del, find. wp_run. eapply wp_mono; [by apply wp_cleanup|]. intros _ s1 (Hi1 & Hk & Hs). wp_run.
  pose proof (find_spec s1 k Hi1) as Hf. assert (map_ s1 = map_ s) as Hmm by (unfold same_list in Hs; congruence).
  destruct (map_find s1 k) as [p|]; wp_run; [|rewrite <- Hmm, Hf; done].
  destruct Hf as (Hm & Hp & v & Hh). destruct (has_active_handle s1 p) eqn:Ha; wp_run.
  { rewrite handle_access in Ha by done. bool_to_Z. rewrite <- Hmm, Hm, <- (kp_access _ _ Hk). done. }
  pose proof (not_held _ _ Hi1 Ha) as Ha0. eapply wp_mono; [by eapply wp_erase_impl|]. intros ? s' R. cbv beta in R. wp_run.
  exists p, v. split; [|by rewrite <- (kp_access _ _ Hk)]. by exists s1.
Qed.

Lemma wp_pop k s : inv s ->
  wp (pop k) (fun r s' =>
    match r with
    | Some v => exists p, gone s s' p k v /\ access_ref (ref_word s p) = 0
    | None => inv s' /\ keeps s s' /\ same_list s s' /\
              match map_ s !! k with Some p => 0 < access_ref (ref_word s p) | None => True end
    end) s.
Proof.
  intros Hi. unfold pop, find. wp_run. eapply wp_mono; [by apply wp_cleanup|]. intros _ s1 (Hi1 & Hk & Hs). wp_run.
  pose proof (find_spec s1 k Hi1) as Hf. assert (map_ s1 = map_ s) as Hmm by (unfold same_list in Hs; congruence).
  destruct (map_find s1 k) as [p|]; wp_run; [|rewrite <- Hmm, Hf; done].
  destruct Hf as (Hm & Hp & v & Hh). destruct (has_active_handle s1 p) eqn:Ha; wp_run.
  { rewrite handle_access in Ha by done. bool_to_Z. rewrite <- Hmm, Hm, <- (kp_access _ _ Hk). done. }
  pose proof (not_held _ _ Hi1 Ha) as Ha0. eapply wp_mono; [eapply (wp_take_item _ k p v); done|]. intros kv s' [-> R]. wp_run.
  exists p. split; [|by rewrite <- (kp_access _ _ Hk)]. by exists s1.
Qed.

Lemma wp_pop_lru s : inv s -> (forall k, moved_key k = k) ->
  wp pop_lru (fun r s' =>
    match r with
    | Some (k, v) => exists p, gone s s' p k v /\ access_ref (ref_word s p) = 0 /\ list_tail (q_ s) = Some p
    | None => inv s' /\ keeps s s' /\ same_list s s'
    end) s.
Proof.
  intros Hi Hmk. unfold pop_lru. wp_run. eapply wp_mono; [by apply wp_cleanup|]. intros _ s1 (Hi1 & Hk & Hs). wp_run. unfold id.
  assert (q_ s1 = q_ s) as Hq by (unfold same_list in Hs; congruence). rewrite <- Hq.
  destruct (list_tail (q_ s1)) as [p|] eqn:Et; wp_run; [|done].
  assert (p ∈ linked_items s1) as Hp by (unfold list_tail in Et; by apply last_Some_elem_of in Et).
  destruct (iv_items _ Hi1 _ Hp) as (k & v & Hh & Hm). destruct (has_active_handle s1 p) eqn:Ha; wp_run; [done|].
  pose proof (not_held _ _ Hi1 Ha) as Ha0. rewrite (wp_deref _ _ _ _ Hh (linked_live _ _ Hi1 Hp)). rewrite map_find_spec, Hm by done.
  rewrite bool_decide_false by done. wp_run.
  eapply wp_mono; [eapply (wp_take_item _ k p v); done|]. intros kv s' [-> R]. wp_run.
  exists p. split; [by exists s1|]. split; [|done]. by rewrite <- (kp_access _ _ Hk).
Qed.

Lemma wp_force_del k s : inv s ->
  wp (force_del k) (fun r s' =>
    if r : bool then exists p v, gone s s' p k v
    else inv s' /\ keeps s s' /\ q_ s' = q_ s /\ map_ s' = map_ s /\
         (map_ s !! k = None \/ pending_deletion_at_cap s' = true)) s.
Proof.
  intros Hi. unfold force_del, find. wp_run. eapply wp_mono; [by apply wp_cleanup|]. intros _ s1 (Hi1 & Hk & Hs). wp_run. unfold id.
  pose proof (find_spec s1 k Hi1) as Hf. assert (map_ s1 = map_ s /\ q_ s1 = q_ s) as [Hmm Hqq] by (unfold same_list in Hs; split; congruence).
  destruct (map_find s1 k) as [p|]; wp_run; [|rewrite <- Hmm, Hf; split_and!; auto].
  destruct Hf as (Hm & Hp & v & Hh). pose proof (word_linked s1 p Hi1 Hp) as Hw.
  destruct (has_active_handle s1 p && pending_deletion_at_cap s1) eqn:Ec; wp_run.
  { apply andb_true_iff in Ec as [_ Ec]. split; [|split; [|by auto]].
    - destruct Hi1 as [I1 I2 I3 I4 I5 I6 I7 I8 I9 I10 I11 I12 I13]. by split.
    - eapply keeps_trans; [exact Hk|]. split; try done; auto. }
  rewrite (wp_deref _ _ _ _ Hh (linked_live _ _ Hi1 Hp)). wp_run.
  rewrite (map_erase_spec k p v) by done.
  eapply wp_remove; mm_cbn; [apply (iv_spec _ Hi1)|apply (iv_list _ Hi1)|done|by apply (word_in_container true)|].
  intros q Hq Hqi. unfold set_hint. wp_run. destruct (unlink_word _ _ Hw) as [Hw1 Hw2].
  match goal with |- context [has_active_handle ?x p] => destruct (has_active_handle x p) eqn:Ha end; wp_run.
  - exists p, v. exists s1. split_and!; try done. split; removed_tac; rewrite ?Hh; by auto.
  - assert (access_ref (ref_word s1 p) = 0) as Ha0.
    { unfold has_active_handle in Ha. mm_cbn. rewrite lookup_insert_eq in Ha. cbn [default from_option] in Ha.
      pose proof (access_nonneg _ _ Hw) as H0. unfold id in H0, Hw1, Hw2, Ha |- *. rewrite (plain_access _ _ Hw1) in Ha. bool_to_Z. lia. }
    eapply wp_collect_moving; [exact Hh|exact (linked_live s1 p Hi1 Hp)|]. intros v' lg. wp_run.
    exists p, v. exists s1. split_and!; try done. split; removed_tac.
Qed.

(** ** Eviction *)

(** The eviction predicate refuses the item. *)
Definition vetoed (s : mm) (p : loc) : bool :=
  match eviction_predicate_ s, heap_ s !! p with Some pred, Some (k, v) => negb (pred k v) | _, _ => false end.

(** A search only moves the hint and counts its steps. *)
Definition searched (s s' : mm) : Prop :=
  exists h st, s' = set_unpinned_tail h (set_stats st s) /\ st current_size = stats_ s current_size /\
    st current_memory = stats_ s current_memory.

Lemma searched_trans s1 s2 s3 : searched s1 s2 -> searched s2 s3 -> searched s1 s3.
Proof.
  intros (h1 & st1 & -> & A1 & B1) (h2 & st2 & -> & A2 & B2). exists h2, st2. split; [done|]. mm_cbn. split; congruence.
Qed.

Lemma searched_keeps s s' : searched s s' -> keeps s s'.
Proof. intros (h & st & -> & _). split; try done; auto. Qed.

Lemma searched_inv s s' : inv s -> searched s s' ->
  (forall p, unpinned_tail_ s' = Some p -> p ∈ linked_items s) -> inv s'.
Proof.
  intros Hi (h & st & -> & A & B) Hh. destruct Hi as [I1 I2 I3 I4 I5 I6 I7 I8 I9 I10 I11 I12 I13].
  split; try done; [exact (eq_trans A I12)|exact (eq_trans B I13)].
Qed.

Lemma step_searched s c n : c <> current_size -> c <> current_memory -> searched s (stat_add c n s).
Proof.
  intros H1 H2. exists (unpinned_tail_ s), (stats_ (stat_add c n s)). split; [by destruct s|]. mm_cbn.
  by rewrite !decide_False by congruence.
Qed.

Lemma searched_held s s' p : searched s s' -> has_active_handle s' p = has_active_handle s p.
Proof. by intros (h & st & -> & _). Qed.
Lemma searched_vetoed s s' p : searched s s' -> vetoed s' p = vetoed s p.
Proof. by intros (h & st & -> & _). Qed.
Lemma searched_q s s' : searched s s' -> q_ s' = q_ s.
Proof. by intros (h & st & -> & _). Qed.

Lemma hint_searched s h : searched s (set_unpinned_tail h s).
Proof. exists h, (stats_ s). by destruct s. Qed.

(** What a search over the items [scan], tail end last, finds. *)
Definition found (s : mm) (scan : list loc) (r : ptr) : Prop :=
  match r with
  | Some p => has_active_handle s p = false /\ vetoed s p = false /\
      exists l1 l2, scan = l1 ++ p :: l2 /\ Forall (fun x => has_active_handle s x = true \/ vetoed s x = true) l2
  | None => eviction_predicate_ s = None -> Forall (fun x => has_active_handle s x = true) scan
  end.

Lemma found_snoc s scan c r : found s scan r -> has_active_handle s c = true \/ vetoed s c = true -> found s (scan ++ [c]) r.
Proof.
  intros Hf Hc. destruct r as [p|]; simpl in *.
  - destruct Hf as (? & ? & l1 & l2 & -> & Hl). split; [done|]. split; [done|]. exists l1, (l2 ++ [c]).
    rewrite <- app_assoc. split; [done|]. by apply Forall_app; split; [|apply Forall_singleton].
  - intros E. specialize (Hf E). apply Forall_app. split; [done|]. apply Forall_singleton. destruct Hc as [?|Hc]; [done|].
    unfold vetoed in Hc. by rewrite E in Hc.
Qed.

Lemma found_ext s s' scan r : searched s s' -> found s' scan r -> found s scan r.
Proof. by intros (h & st & -> & _). Qed.

Definition search_post (s : mm) (scan : list loc) (r : ptr) (s' : mm) : Prop :=
  searched s s' /\ found s scan r /\
  forall x, unpinned_tail_ s' = Some x -> x ∈ linked_items s /\ r <> Some x.

Lemma wp_victim_loop fuel s l1 l2 curr tries fu saw :
  inv s -> linked_items s = l1 ++ l2 -> curr = last l1 -> (length l1 <= fuel)%nat ->
  (forall x, fu = Some x -> x ∈ linked_items s) -> (saw = true -> l2 <> []) ->
  wp (victim_loop fuel curr tries fu saw) (search_post s l1) s.
Proof.
  revert s l1 l2 curr tries fu saw. induction fuel as [|fuel IH]; intros s l1 l2 curr tries fu saw Hi Hl -> Hf Hfu Hsaw.
  all: pose proof (inv_nodup s Hi) as Hn; rewrite Hl in Hn.
  all: assert (forall x, list_tail (q_ s) = Some x -> x ∈ linked_items s) as Htail by (intros x Hx; by apply last_Some_elem_of in Hx).
  all: assert (forall x, (if saw then list_tail (q_ s) else fu) = Some x -> x ∈ linked_items s) as Hend by (destruct saw; auto).
  all: destruct l1 as [|c l1 _] using rev_ind; cbn [victim_loop last].
  1,3: unfold set_hint; wp_run; split; [apply hint_searched|]; split; [intros _; by apply Forall_nil|]; intros x Hx; split; [by apply Hend|done].
  { rewrite length_app in Hf. simpl in Hf. lia. }
  rewrite last_snoc, length_app in *. simpl in Hf. wp_run. unfold id.
  set (s1 := stat_add eviction_search_steps 1 s). assert (searched s s1) as Hs1 by (by apply step_searched).
  rewrite (searched_held _ _ c Hs1). change (q_ s1) with (q_ s). change (config_ s1) with (config_ s).
  rewrite <- app_assoc in Hl, Hn. simpl in Hl, Hn. apply NoDup_app_mid in Hn as (Hn1 & Hn2 & Hn).
  assert (c ∈ linked_items s) as Hc by (rewrite Hl; set_solver).
  assert (list_get_prev (q_ s) c = last l1) as Hprev by (unfold list_get_prev; fold (linked_items s); by rewrite Hl, prev_of_split).
  assert (forall x, last l1 = Some x -> x ∈ linked_items s /\ x <> c) as Hlast.
  { intros x Hx%last_Some_elem_of. rewrite Hl. split; [set_solver|]. by intros ->. }
  destruct (has_active_handle s c) eqn:Ha; wp_run.
  - set (s2 := stat_add pinned_skip_count 1 s1). assert (searched s s2) as Hs2 by (eapply searched_trans; [exact Hs1|by apply step_searched]).
    eapply wp_mono.
    + apply (IH s2 l1 (c :: l2)); try done; [|lia]. eapply searched_inv; [exact Hi|exact Hs2|apply (iv_hint _ Hi)].
    + intros r s' (Hs' & Hfd & Hx). split; [exact (searched_trans _ _ _ Hs2 Hs')|]. split; [|exact Hx].
      apply found_snoc; [exact (found_ext _ _ _ _ Hs2 Hfd)|]. auto.
  - destruct (iv_items _ Hi _ Hc) as (k & v & Hh & _). rewrite (wp_deref _ (k, v)) by (done || by apply (linked_live s)). wp_run.
    assert (match eviction_predicate_ s1 with Some pred => negb (pred k v) | None => false end = vetoed s c) as ->.
    { unfold vetoed. rewrite Hh. done. }
    set (fu' := match fu with Some _ => fu | None => Some c end).
    assert (forall x, fu' = Some x -> x ∈ linked_items s) as Hfu' by (intros x; unfold fu'; destruct fu; naive_solver).
    destruct (vetoed s c) eqn:Hv.
    + destruct (_ <=? _); unfold set_hint; wp_run.
      * split; [eapply searched_trans; [exact Hs1|apply hint_searched]|]. split.
        -- intros E. unfold vetoed in Hv. by rewrite E in Hv.
        -- intros x Hx. split; [|done]. cbn in Hx. destruct saw; auto.
      * eapply wp_mono; [apply (IH s1 l1 (c :: l2)); try done|].
        -- eapply searched_inv; [exact Hi|exact Hs1|apply (iv_hint _ Hi)].
        -- lia.
        -- intros r s' (Hs' & Hfd & Hx). split; [exact (searched_trans _ _ _ Hs1 Hs')|]. split; [|exact Hx].
           apply found_snoc; [exact (found_ext _ _ _ _ Hs1 Hfd)|]. auto.
    + assert (found s (l1 ++ [c]) (Some c)) as Hfd by (split; [done|]; split; [done|]; by exists l1, []).
      unfold set_hint. destruct saw; wp_run.
      * split; [eapply searched_trans; [exact Hs1|]; eapply searched_trans; apply hint_searched|]. split; [done|].
        intros x Hx. cbn in Hx. split; [by apply Htail|]. intros [= <-]. unfold list_tail in Hx. fold (linked_items s) in Hx.
        rewrite Hl in Hx. destruct l2 as [|y l2 _] using rev_ind; [by apply Hsaw|].
        rewrite app_comm_cons, app_assoc, last_snoc in Hx. injection Hx as ->. set_solver.
      * split; [eapply searched_trans; [exact Hs1|apply hint_searched]|]. split; [done|].
        intros x Hx. cbn in Hx. rewrite Hprev in Hx. apply Hlast in Hx as [? ?]. split; [done|congruence].
Qed.

(** Where the search starts. *)
Definition search_start (s : mm) : ptr :=
  match unpinned_tail_ s with
  | Some p => if has_active_handle s p then list_tail (q_ s) else Some p
  | None => list_tail (q_ s)
  end.

Lemma search_start_split s : inv s ->
  exists scan rest, linked_items s = scan ++ rest /\ last scan = search_start s.
Proof.
  intros Hi. assert (exists scan rest, linked_items s = scan ++ rest /\ last scan = list_tail (q_ s)) as Htail.
  { exists (linked_items s), []. by rewrite app_nil_r. }
  unfold search_start. destruct (unpinned_tail_ s) as [p|] eqn:E; [|done].
  destruct (has_active_handle s p); [done|]. apply (iv_hint _ Hi), list_elem_of_split in E as (a & b & E).
  exists (a ++ [p]), b. rewrite E, <- app_assoc, last_snoc. done.
Qed.

Lemma wp_find_victim s : inv s ->
  exists scan rest, linked_items s = scan ++ rest /\ last scan = search_start s /\
    wp find_eviction_victim (search_post s scan) s.
Proof.
  intros Hi. destruct (search_start_split s Hi) as (scan & rest & Hl & Hs). exists scan, rest. split; [done|]. split; [done|].
  unfold find_eviction_victim. wp_run. unfold id. fold (search_start s).
  destruct (search_start s) as [c|] eqn:E; wp_run.
  - eapply wp_victim_loop; [done|exact Hl|by rewrite Hs|fold (linked_items s); rewrite Hl, length_app; lia|done|done].
  - apply last_None in Hs as ->. split; [exists (unpinned_tail_ s), (stats_ s); by destruct s|].
    split; [intros _; by apply Forall_nil|]. intros x Hx. split; [by apply (iv_hint _ Hi)|done].
Qed.

Lemma wp_evict_victim p k v s :
  inv s -> map_ s !! k = Some p -> p ∈ linked_items s -> heap_ s !! p = Some (k, v) -> access_ref (ref_word s p) = 0 ->
  (forall x, unpinned_tail_ s = Some x -> x <> p) ->
  wp (evict_victim p) (fun _ s' => removed p k v s s') s.
Proof.
  intros Hi Hm Hp Hh Ha Hne. pose proof (word_linked s p Hi Hp) as Hw. unfold evict_victim. wp_run.
  rewrite (mark_word _ Hw Ha). cbn [fst snd]. wp_run. rewrite (wp_deref _ (k, v)) by (done || by apply (linked_live s)). wp_run.
  eapply wp_collect_moving; [exact Hh|exact (linked_live s p Hi Hp)|]. intros v' lg. wp_run.
  rewrite (map_erase_spec k p v') by (mm_cbn; by rewrite ?lookup_insert_eq).
  eapply wp_remove; mm_cbn; [apply (iv_spec _ Hi)|apply (iv_list _ Hi)|done|rewrite lookup_insert_eq; by apply marked_linked|].
  intros q Hq Hqi. rewrite lookup_insert_eq, insert_insert_eq. cbn [from_option]. unfold id at 2. destruct (evict_word _ Hw) as [Hw1 Hw2]. wp_run. mm_cbn.
  assert (forall r, (match unpinned_tail_ s with Some x => Some x | None => list_tail q end) = Some r -> r ∈ without p (items_ (q_ s))) as Hhint.
  { intros r Hr. destruct (unpinned_tail_ s) as [x|] eqn:Ex.
    - injection Hr as <-. apply without_elem. split; [by apply Hne|]. by apply (iv_hint _ Hi).
    - unfold list_tail in Hr. apply last_Some_elem_of in Hr. by rewrite <- Hqi. }
  unfold id. destruct (unpinned_tail_ s) as [x|] eqn:Ex; unfold set_hint; wp_run; mm_cbn; rewrite ?Ex; split; first [removed_tac | by (mm_cbn; rewrite Ex in *; auto)].
Qed.

Lemma inv_store_size s : inv s -> inv (store_size s).
Proof.
  intros [I1 I2 I3 I4 I5 I6 I7 I8 I9 I10 I11 I12 I13]. by split.
Qed.

Lemma linked_heap s s1 p : keeps s s1 -> p ∈ linked_items s1 -> heap_ s1 !! p = heap_ s !! p.
Proof. intros Hk Hp. by destruct (kp_heap _ _ Hk p) as [E|[_ E]]. Qed.

Lemma keeps_held s s1 p : inv s -> inv s1 -> keeps s s1 -> has_active_handle s1 p = has_active_handle s p.
Proof. intros Hi Hi1 Hk. by rewrite !handle_access, (kp_access _ _ Hk). Qed.

Lemma found_keeps s s1 scan r : inv s -> inv s1 -> keeps s s1 -> (forall x, x ∈ scan -> x ∈ linked_items s1) ->
  found s1 scan r -> found s scan r.
Proof.
  intros Hi Hi1 Hk Hsc. pose proof (kp_params _ _ Hk) as Hpar.
  assert (forall x, x ∈ scan -> vetoed s1 x = vetoed s x) as Hv.
  { intros x Hx. unfold vetoed. rewrite (linked_heap s s1 x Hk) by auto. by replace (eviction_predicate_ s1) with (eviction_predicate_ s) by congruence. }
  assert (forall x, has_active_handle s1 x = has_active_handle s x) as Hh by (intros x; by apply keeps_held).
  destruct r as [p|]; simpl.
  - intros (A & B & l1 & l2 & -> & Hl). rewrite Hh in A. rewrite Hv in B by set_solver. split_and!; [done..|].
    exists l1, l2. split; [done|]. rewrite Forall_forall in Hl |- *. intros x Hx. rewrite <- Hh, <- Hv by set_solver. by apply Hl.
  - intros Hl E. rewrite Forall_forall in Hl |- *. intros x Hx. rewrite <- Hh. apply Hl; [congruence|done].
Qed.

(** One eviction: at most the item the search found leaves. *)
Definition evicted (s s' : mm) : Prop :=
  exists scan rest r, linked_items s = scan ++ rest /\ last scan = search_start s /\ found s scan r /\
    linked_items s' = match r with Some p => without p (linked_items s) | None => linked_items s end.

Lemma wp_evict_lru s : inv s -> wp evict_lru (fun _ s' => inv s' /\ keeps s s' /\ evicted s s') s.
Proof.
  intros Hi. unfold evict_lru. wp_run. eapply wp_mono; [by apply wp_cleanup|]. intros _ s1 (Hi1 & Hk & Hs). wp_run.
  destruct (wp_find_victim s1 Hi1) as (scan & rest & Hl & Hst & Hwp).
  assert (linked_items s1 = linked_items s) as Hll by (unfold linked_items, same_list in *; congruence).
  assert (search_start s1 = search_start s) as Hss.
  { unfold search_start. unfold same_list in Hs. replace (unpinned_tail_ s1) with (unpinned_tail_ s) by congruence.
    replace (q_ s1) with (q_ s) by congruence. destruct (unpinned_tail_ s); [|done]. by rewrite (keeps_held s s1). }
  eapply wp_mono; [exact Hwp|]. intros r s2 (Hs2 & Hfd & Hhint).
  assert (inv s2) as Hi2 by (eapply searched_inv; [exact Hi1|exact Hs2|]; intros x Hx; by apply Hhint).
  pose proof (keeps_trans _ _ _ Hk (searched_keeps _ _ Hs2)) as Hk2.
  assert (linked_items s2 = linked_items s) as Hll2 by (unfold linked_items in *; by rewrite (searched_q _ _ Hs2)).
  assert (found s scan r) as Hfd0 by (apply (found_keeps s s1); try done; rewrite Hl; set_solver).
  rewrite Hll in Hl. rewrite Hss in Hst. assert (forall s3, linked_items s3 = match r with Some p => without p (linked_items s) | None => linked_items s end -> evicted s s3) as Hev by (intros; by exists scan, rest, r).
  destruct r as [p|]; wp_run.
  - simpl in Hfd. destruct Hfd as (Ha & _ & l1 & l2 & E & _).
    assert (p ∈ linked_items s2) as Hp by (rewrite Hll2, Hl, E; set_solver).
    rewrite <- (searched_held _ _ _ Hs2) in Ha. apply (not_held _ _ Hi2) in Ha.
    destruct (iv_items _ Hi2 _ Hp) as (k & v & Hh & Hm).
    eapply wp_mono; [apply (wp_evict_victim p k v); try done; intros x Hx ->; by apply (Hhint p)|].
    intros ? s' R. cbv beta in R. split; [by eapply inv_removed|]. split.
    + eapply keeps_trans; [exact Hk2|]. by eapply removed_keeps.
    + apply Hev. by rewrite (rm_items _ _ _ _ _ R), Hll2.
  - split; [by apply inv_store_size|]. split; [|by apply Hev]. eapply keeps_trans; [exact Hk2|]. split; try done; auto.
Qed.

(** Nothing stands in the way of an eviction. *)
Definition unobstructed (s : mm) : Prop :=
  eviction_predicate_ s = None /\ forall p, p ∈ linked_items s -> has_active_handle s p = false.

Lemma unobstructed_keeps s s' : inv s -> inv s' -> keeps s s' -> unobstructed s -> unobstructed s'.
Proof.
  intros Hi Hi' Hk [Hp Hh]. split; [pose proof (kp_params _ _ Hk); congruence|]. intros p Hl.
  rewrite (keeps_held s s') by done. by apply Hh, (kp_items _ _ Hk).
Qed.

Lemma evicted_size s s' : inv s -> evicted s s' -> size s' = size s \/ size s' = size s - 1.
Proof.
  intros Hi (scan & rest & [p|] & Hl & _ & Hf & E); unfold size, list_size; fold (linked_items s) (linked_items s'); rewrite E; [|by left].
  destruct Hf as (_ & _ & l1 & l2 & -> & _). right.
  assert (p ∈ linked_items s) as Hp by (rewrite Hl; set_solver). pose proof (without_length p _ (inv_nodup s Hi) Hp). lia.
Qed.

Lemma evicted_stuck s s' : inv s -> evicted s s' -> size s' = size s -> unobstructed s -> linked_items s = [].
Proof.
  intros Hi (scan & rest & [p|] & Hl & Hst & Hf & E) Hsz [Hpr Hun].
  - destruct Hf as (_ & _ & l1 & l2 & -> & _). assert (p ∈ linked_items s) as Hp by (rewrite Hl; set_solver).
    pose proof (without_length p _ (inv_nodup s Hi) Hp). unfold size, list_size in Hsz. fold (linked_items s) (linked_items s') in Hsz.
    rewrite E in Hsz. lia.
  - specialize (Hf Hpr). destruct scan as [|x scan].
    + unfold search_start in Hst. simpl in Hst. assert (list_tail (q_ s) = None) as Ht.
      { destruct (unpinned_tail_ s) as [y|] eqn:Ey; [|done]. by rewrite (Hun y (iv_hint _ Hi _ Ey)) in Hst. }
      by apply last_None in Ht.
    + inversion Hf as [|? ? Hx]; subst. rewrite Hun in Hx; [done|]. rewrite Hl. set_solver.
Qed.

Lemma wp_evict_while fuel cond s : inv s -> (length (linked_items s) < fuel)%nat ->
  wp (evict_while fuel cond) (fun r s' => inv s' /\ keeps s s' /\
    (if r : bool then exists s2, inv s2 /\ keeps s s2 /\ cond s2 = true /\ (unobstructed s -> linked_items s2 = [])
     else cond s' = false)) s.
Proof.
  revert s. induction fuel as [|fuel IH]; intros s Hi Hf; [lia|]. cbn [evict_while]. wp_run. unfold id.
  destruct (cond s) eqn:Hc; wp_run; [|split; [done|]; split; [apply keeps_refl|done]].
  eapply wp_mono; [by apply wp_evict_lru|]. intros _ s1 (Hi1 & Hk & He). wp_run.
  destruct (size s1 =? size s) eqn:E; bool_to_Z; wp_run.
  { split; [done|]. split; [done|]. exists s. split_and!; try done; [apply keeps_refl|]. by apply (evicted_stuck s s1). }
  destruct (evicted_size s s1 Hi He) as [?|Hsz]; [done|].
  eapply wp_mono; [apply IH; [done|]|].
  { unfold size, list_size in Hsz. fold (linked_items s) (linked_items s1) in Hsz. lia. }
  intros r s' (Hi' & Hk' & Hr). split; [done|]. split; [by eapply keeps_trans|]. destruct r; [|done].
  destruct Hr as (s2 & Hi2 & Hk2 & Hc2 & Hu2). exists s2. split; [done|]. split; [exact (keeps_trans _ _ _ Hk Hk2)|].
  split; [done|]. intros Hu. apply Hu2. by apply (unobstructed_keeps s).
Qed.

Lemma empty_fits s : inv s -> 0 <= max_size_ s -> 0 <= max_memory_ s -> linked_items s = [] -> should_evict s = false.
Proof.
  intros Hi H1 H2 E. unfold should_evict. rewrite (iv_memory _ Hi), E. unfold size, list_size. fold (linked_items s). rewrite E.
  cbn [length Z.of_nat mem_sum foldr]. change (u64 0) with 0. rewrite !(proj2 (Z.ltb_ge _ _)) by lia. by rewrite !andb_false_r.
Qed.

(** Within its budgets, or nothing may be evicted. *)
Lemma wp_shrink_to_fit s : inv s ->
  wp shrink_to_fit (fun _ s' => inv s' /\ keeps s s' /\
    (unobstructed s -> 0 <= max_size_ s -> 0 <= max_memory_ s -> should_evict s' = false)) s.
Proof.
  intros Hi. unfold shrink_to_fit. wp_run. eapply wp_mono; [apply wp_evict_while; [done|unfold eviction_fuel, linked_items; lia]|].
  intros r s' (Hi' & Hk & Hr). wp_run. split; [done|]. split; [done|]. intros Hu H1 H2. destruct r; [|done].
  destruct Hr as (s2 & Hi2 & Hk2 & Hc2 & Hl2). pose proof (kp_params _ _ Hk2).
  rewrite empty_fits in Hc2; [done|done|..|by apply Hl2]; congruence.
Qed.

(** ** Promotion *)

(** The recency order, the accessed bits and the clocks may change. *)
Definition reordered (s s' : mm) : Prop :=
  keeps s s' /\ linked_items s' ≡ₚ linked_items s /\ map_ s' = map_ s /\ heap_ s' = heap_ s /\ refcount_ s' = refcount_ s /\
  stats_ s' current_memory = stats_ s current_memory /\ pending_deletion_ s' = pending_deletion_ s /\ retired_ s' = retired_ s /\
  unpinned_tail_ s' = unpinned_tail_ s /\ index_ s' = index_ s.

Lemma reordered_refl s : reordered s s.
Proof. split; [apply keeps_refl|]. done. Qed.

Lemma reordered_trans s1 s2 s3 : reordered s1 s2 -> reordered s2 s3 -> reordered s1 s3.
Proof.
  intros (A1 & A2 & A3 & A4 & A5 & A6 & A7 & A8 & A9 & A10) (B1 & B2 & B3 & B4 & B5 & B6 & B7 & B8 & B9 & B10).
  split; [by eapply keeps_trans|]. split; [by etrans|]. split_and!; congruence.
Qed.

Lemma inv_reordered s s' : inv s -> reordered s s' -> list_ok (spec_of s) (q_ s') ->
  stats_ s' current_size = stats_ s current_size ->
  (forall r, r ∈ accessed_bits_ s' -> r ∈ accessed_bits_ s \/ r ∈ linked_items s) -> inv s'.
Proof.
  intros [I1 I2 I3 I4 I5 I6 I7 I8 I9 I10 I11 I12 I13] (Hk & Hl & Hm & Hh & Hr & Hmem & Hpd & Hrt & Hu & _) Hok Hsz Hacc.
  pose proof (kp_params _ _ Hk) as Hpar. assert (spec_of s' = spec_of s) as Hspec by (by apply keeps_spec).
  assert (forall p, ref_word s' p = ref_word s p) as Hw by (intros p; unfold ref_word; by rewrite Hr).
  split; rewrite ?Hspec, ?Hm, ?Hh, ?Hpd, ?Hrt, ?Hu; try done.
  - intros p Hp. rewrite Hl in Hp. by apply I3.
  - intros k p Hp. rewrite Hl. by apply I4.
  - intros p. rewrite Hw, (bool_decide_ext _ (p ∈ linked_items s)) by (by rewrite Hl). done.
  - intros p Hp. rewrite Hl. by apply I6.
  - intros p Hp. replace (brk_ s') with (brk_ s) in Hp by congruence. destruct (I7 p Hp) as (? & ? & ? & ?).
    rewrite Hr, (kp_expiry _ _ Hk). split_and!; try done. intros [Hx|Hx]%Hacc; [done|].
    destruct (I3 p Hx) as (? & ? & ? & _). congruence.
  - intros p Hp. rewrite Hl. by apply I8.
  - intros p Hp. rewrite Hl, Hw. by apply I10.
  - rewrite Hsz, I12. unfold size, list_size. fold (linked_items s) (linked_items s'). by rewrite Hl.
  - rewrite Hmem, I13. rewrite (mem_sum_perm s' _ _ Hl). f_equal. symmetry. apply mem_sum_ext. by rewrite Hh.
Qed.

Lemma reconfigure_spec curr s :
  exists a b, reconfigure_locked curr s = set_lru_refresh_time a (set_next_reconfigure_time b s).
Proof.
  unfold reconfigure_locked. destruct (curr <? _).
  - exists (lru_refresh_time_ s), (next_reconfigure_time_ s). by destruct s.
  - eexists _, _. reflexivity.
Qed.

Lemma wp_promote_locked p curr Q s : 0 <= spec_of s -> list_ok (spec_of s) (q_ s) -> p ∈ linked_items s ->
  (forall q a b ut, list_ok (spec_of s) q -> items_ q = p :: without p (linked_items s) ->
    Q tt (set_q q (set_update_time ut (set_lru_refresh_time a (set_next_reconfigure_time b s))))) ->
  wp (promote_locked p curr) Q s.
Proof.
  intros Hspec Hok Hp HQ. destruct (promote_item_spec _ _ _ Hspec Hok Hp) as (q' & E & Hok' & Hi').
  unfold promote_item in E. unfold promote_locked, refresh_point. wp_run.
  destruct (reconfigure_spec curr s) as (a & b & ->).
  apply bind_Some in E as (q1 & E1 & E). apply bind_Some in E as (q2 & E2 & E).
  rewrite (wp_on_list _ q1) by exact E1. wp_run. rewrite (wp_on_list _ q2) by exact E2. wp_run.
  cbn [q_ set_q set_update_time]. destruct (is_tail p q2); wp_run.
  - rewrite (wp_on_list _ q') by exact E. apply (HQ q' a b _ Hok' Hi').
  - injection E as <-. apply (HQ q2 a b _ Hok' Hi').
Qed.

Lemma reordered_queue s q ut a b acc st : inv s -> items_ q ≡ₚ linked_items s -> st current_memory = stats_ s current_memory ->
  reordered s (set_q q (set_update_time ut (set_lru_refresh_time a (set_next_reconfigure_time b (set_accessed_bits acc (set_stats st s)))))).
Proof.
  intros Hi Hq Hm. split; [|done]. split; try done; mm_cbn.
  - intros r Hr. by rewrite <- Hq.
  - unfold list_size. cbn [items_]. by rewrite Hq.
  - by left.
Qed.

Lemma front_perm p l : NoDup l -> p ∈ l -> p :: without p l ≡ₚ l.
Proof.
  intros Hn Hp. destruct (split_at l p Hn Hp) as (l1 & l2 & -> & H1 & H2). rewrite without_split by done.
  by rewrite Permutation_middle.
Qed.

(** What an access may do to the state: requeue the item, set its accessed
    bit, move the clocks and count a failed lock. *)
Record touch (p : loc) (s s' : mm) (promoted : bool) : Prop := {
  to_state : exists q ut a b acc st,
    s' = set_q q (set_update_time ut (set_lru_refresh_time a (set_next_reconfigure_time b (set_accessed_bits acc (set_stats st s))))) /\
    list_ok (spec_of s) q /\ items_ q = (if promoted then p :: without p (linked_items s) else linked_items s) /\
    (forall r, r ∈ acc -> r ∈ accessed_bits_ s \/ r = p) /\
    st current_size = stats_ s current_size /\ st current_memory = stats_ s current_memory
}.

Lemma touch_refl p s : list_ok (spec_of s) (q_ s) -> touch p s s false.
Proof.
  intros Hok. split. exists (q_ s), (update_time_ s), (lru_refresh_time_ s), (next_reconfigure_time_ s), (accessed_bits_ s), (stats_ s).
  split; [by destruct s|]. split; [done|]. split; [done|]. split; [by auto|done].
Qed.

Lemma wp_record_access_raw e p mode s :
  0 <= spec_of s -> list_ok (spec_of s) (q_ s) -> p ∈ linked_items s -> isInMMContainer (ref_word s p) = true ->
  wp (record_access e p mode) (fun r s' => touch p s s' r) s.
Proof.
  intros Hspec Hok Hp Hw. unfold record_access, record_access_at. wp_run. unfold id. rewrite Hw. cbn [negb].
  destruct (match mode with write => _ | read => _ end); wp_run; [by apply touch_refl|].
  destruct (is_accessed s p && _); wp_run; [by apply touch_refl|].
  match goal with |- wp ?m ?Q s => set (rest := Q) end.
  assert (exists acc, (acc = accessed_bits_ s \/ acc = {[p]} ∪ accessed_bits_ s) /\ forall Q,
    Q tt (set_accessed_bits acc s) -> wp (if is_accessed s p then skip else modify (fun s => set_accessed_bits ({[p]} ∪ accessed_bits_ s) s)) Q s) as (acc & Hacc & Hstep).
  { destruct (is_accessed s p).
    - exists (accessed_bits_ s). split; [by left|]. intros Q HQ. wp_run. by destruct s.
    - eexists. split; [by right|]. intros Q HQ. by wp_run. }
  apply Hstep. unfold rest. cbv beta.
  assert (forall r, r ∈ acc -> r ∈ accessed_bits_ s \/ r = p) as Hacc' by (destruct Hacc as [->| ->]; set_solver).
  destruct (try_lock_update (config_ s) && negb (lock_ok e)); wp_run.
  - split. exists (q_ s), (update_time_ s), (lru_refresh_time_ s), (next_reconfigure_time_ s), acc, (stats_ (stat_add try_lock_fail_count 1 s)).
    split; [done|]. done.
  - eapply wp_promote_locked; [done|exact Hok|exact Hp|]. intros q a b ut Hok' Hq. wp_run. split.
    exists q, ut, a, b, acc, (stats_ s). split; [by destruct s|]. done.
Qed.

Lemma touch_reordered p s s' r : inv s -> p ∈ linked_items s -> touch p s s' r -> inv s' /\ reordered s s' /\
  linked_items s' = if r then p :: without p (linked_items s) else linked_items s.
Proof.
  intros Hi Hp [(q & ut & a & b & acc & st & -> & Hok & Hq & Hacc & Hs1 & Hs2)].
  assert (items_ q ≡ₚ linked_items s) as Hqp.
  { rewrite Hq. destruct r; [|done]. by apply front_perm; [apply inv_nodup|]. }
  pose proof (reordered_queue s q ut a b acc st Hi Hqp Hs2) as Hr. split; [|split; [exact Hr|exact Hq]].
  eapply inv_reordered; [exact Hi|exact Hr|exact Hok|exact Hs1|]. intros x [Hx| ->]%Hacc; auto.
Qed.

Lemma wp_record_access e p mode s : inv s -> p ∈ linked_items s ->
  wp (record_access e p mode) (fun r s' => inv s' /\ reordered s s' /\
    linked_items s' = if r : bool then p :: without p (linked_items s) else linked_items s) s.
Proof.
  intros Hi Hp. eapply wp_mono; [apply wp_record_access_raw; [apply (iv_spec _ Hi)|apply (iv_list _ Hi)|done|]|].
  - apply (word_in_container true). by apply word_linked.
  - intros r s' Ht. by eapply touch_reordered.
Qed.
End ops.
