(* ===== verification/MmLruSet.v ===== *)
(** Insertion, update and lookup of mm_lru over its invariant, the TTL hooks,
    flush and reconfiguration. *)

From S2P Require Import Prelude IntrusiveList ListRefine Refcount StdHeap TtlHeap MmLruList MmLru MmLruInv MmLruOps.

Section set.
Context {Key Value : Type} `{Countable Key} {TP : mm_params Key Value}.
Context {HH : StdHeap (entry Key) expiry_ns}.
Abbreviation mm := (mm_lru (Key := Key) (Value := Value)).
Implicit Types (s : mm) (p : loc) (k : Key) (v : Value).

(** ** Insertion *)

Definition within_size (s : mm) : Prop := max_size_ s = unlimited \/ size s <= max_size_ s.

Lemma inv_stats c n s : inv s -> c <> current_size -> c <> current_memory -> inv (stat_add c n s) /\ keeps s (stat_add c n s).
Proof.
  intros Hi H1 H2. pose proof (step_searched s c n H1 H2) as Hs. split; [|by apply searched_keeps].
  eapply searched_inv; [exact Hi|exact Hs|]. apply (iv_hint _ Hi).
Qed.

(** Room is made, or something stood in the way. *)
Lemma wp_make_room mem s : inv s -> 0 < max_size_ s -> 0 <= max_memory_ s ->
  wp (make_room mem) (fun r s' => inv s' /\ keeps s s' /\
    (if r : bool then max_size_ s = unlimited \/ size s' < max_size_ s
     else ~ (unobstructed s /\ within_size s))) s.
Proof.
  intros Hi Hms Hmm. unfold make_room. wp_run. unfold id.
  match goal with |- wp ?m ?Q s => set (rest := Q) end.
  assert (forall s1, inv s1 -> keeps s s1 -> max_size_ s = unlimited \/ size s1 < max_size_ s -> rest true s1) as Hrest.
  { intros s1 Hi1 Hk1 Hsz1. unfold rest. cbn [negb]. wp_run. pose proof (kp_params _ _ Hk1) as Hp1.
    eapply wp_mono; [apply wp_evict_while; [done|unfold eviction_fuel, linked_items; lia]|].
    intros r s2 (Hi2 & Hk2 & Hr). pose proof (keeps_trans _ _ _ Hk1 Hk2) as Hk12. destruct r; wp_run.
    { destruct (inv_stats eviction_failed 1 s2 Hi2) as [Hi3 Hk3]; [done..|]. split; [done|]. split; [by eapply keeps_trans|].
      intros [Hu _]. destruct Hr as (s4 & Hi4 & Hk4 & Hc4 & Hl4). pose proof (kp_params _ _ Hk4) as Hp4.
      rewrite empty_fits in Hc4; [done|done|replace (max_size_ s4) with (max_size_ s) by congruence; lia|
        replace (max_memory_ s4) with (max_memory_ s) by congruence; lia|apply Hl4; by apply (unobstructed_keeps s)]. }
    pose proof (kp_size _ _ Hk2) as Hsz2.
    destruct (max_memory_ s =? unlimited); wp_run; [split; [done|]; split; [done|]; destruct Hsz1; [by left|right; lia]|].
    eapply wp_mono; [apply wp_evict_while; [done|unfold eviction_fuel, linked_items; lia]|].
    intros r s3 (Hi3 & Hk3 & Hr3). wp_run. split; [done|]. split; [by eapply keeps_trans|].
    pose proof (kp_size _ _ Hk3) as Hsz3. destruct r; cbn [negb]; [|destruct Hsz1; [by left|right; lia]].
    intros [Hu _]. destruct Hr3 as (s4 & _ & _ & Hc4 & Hl4). apply andb_true_iff in Hc4 as [Hc4 _].
    unfold list_empty, list_size in Hc4. fold (linked_items s4) in Hc4. rewrite Hl4 in Hc4; [done|].
    by apply (unobstructed_keeps s). }
  destruct (negb (max_size_ s =? unlimited) && (max_size_ s <=? size s)) eqn:E; wp_run.
  - apply andb_true_iff in E as [E1 E2]. bool_to_Z.
    eapply wp_mono; [by apply wp_evict_lru|]. intros _ s1 (Hi1 & Hk1 & He1). wp_run. unfold id. pose proof (kp_params _ _ Hk1) as Hp1.
    replace (max_size_ s1) with (max_size_ s) by congruence. destruct (max_size_ s <=? size s1) eqn:E3; wp_run; bool_to_Z.
    + unfold rest. cbn [negb]. wp_run.
      destruct (inv_stats eviction_failed 1 s1 Hi1) as [Hi3 Hk3]; [done..|]. split; [done|]. split; [by eapply keeps_trans|].
      intros [Hu [Hw|Hw]]; [done|]. destruct (evicted_size s s1 Hi He1) as [Hs|Hs]; [|lia].
      pose proof (evicted_stuck s s1 Hi He1 Hs Hu) as Hnil. unfold size, list_size in E2. fold (linked_items s) in E2.
      rewrite Hnil in E2. simpl in E2. lia.
    + apply Hrest; [done|done|by right].
  - apply Hrest; [done|apply keeps_refl|]. apply andb_false_iff in E as [E|E]; bool_to_Z; auto.
Qed.

(** A new item at the head, or in front of the insertion point. *)
(** A new item [p] somewhere in the list; [added] is the insertion of [insert_new]. *)
Record inserted (p : loc) (k : Key) (v : Value) (x : Z) (s s' : mm) : Prop := {
  in_items : exists l1 l2, linked_items s = l1 ++ l2 /\ linked_items s' = l1 ++ p :: l2;
  in_list : list_ok (spec_of s) (q_ s');
  in_fresh : p = brk_ s /\ brk_ s' = Pos.succ p;
  in_heap : heap_ s' = <[p := (k, v)]> (heap_ s);
  in_map : map_ s' = <[k := p]> (map_ s);
  in_words : refcount_ s' = <[p := (atomic MarkLinked (ref_word s p)).2]> (refcount_ s);
  in_expiry : expiry_ s' = if x =? 0 then expiry_ s else <[p := x]> (expiry_ s);
  in_accessed : forall r, r ∈ accessed_bits_ s' -> r = p \/ r ∈ accessed_bits_ s;
  in_rest : (unpinned_tail_ s', pending_deletion_ s', retired_ s') = (unpinned_tail_ s, pending_deletion_ s, retired_ s);
  in_size : stats_ s' current_size = size s';
  in_memory : stats_ s' current_memory = u64 (stats_ s current_memory + calc_item_memory k v);
  in_params : (max_size_ s', max_memory_ s', config_ s', eviction_predicate_ s', has_callbacks_ s', stale_uses_ s') =
              (max_size_ s, max_memory_ s, config_ s, eviction_predicate_ s, has_callbacks_ s, stale_uses_ s)
}.

Record added (p : loc) (k : Key) (v : Value) (x : Z) (s s' : mm) : Prop := {
  ad_items : exists l1 l2, linked_items s = l1 ++ l2 /\ linked_items s' = l1 ++ p :: l2 /\ (spec_of s = 0 -> l1 = []);
  ad_list : list_ok (spec_of s) (q_ s');
  ad_fresh : p = brk_ s /\ brk_ s' = Pos.succ p;
  ad_heap : heap_ s' = <[p := (k, v)]> (heap_ s);
  ad_map : map_ s' = <[k := p]> (map_ s);
  ad_words : refcount_ s' = <[p := (atomic MarkLinked (ref_word s p)).2]> (refcount_ s);
  ad_expiry : expiry_ s' = if x =? 0 then expiry_ s else <[p := x]> (expiry_ s);
  ad_accessed : accessed_bits_ s' = accessed_bits_ s;
  ad_rest : (unpinned_tail_ s', pending_deletion_ s', retired_ s') = (unpinned_tail_ s, pending_deletion_ s, retired_ s);
  ad_size : stats_ s' current_size = size s';
  ad_memory : stats_ s' current_memory = u64 (stats_ s current_memory + calc_item_memory k v);
  ad_index : index_ s' = if x =? 0 then index_ s else index_ (ttl_heap_push k x (set_index (index_ s) s'));
  ad_params : (max_size_ s', max_memory_ s', config_ s', eviction_predicate_ s', has_callbacks_ s', stale_uses_ s') =
              (max_size_ s, max_memory_ s, config_ s, eviction_predicate_ s, has_callbacks_ s, stale_uses_ s)
}.

Lemma new_word s : inv s -> linked_word true (atomic MarkLinked (ref_word s (brk_ s))).2 /\
  access_ref (atomic MarkLinked (ref_word s (brk_ s))).2 = access_ref (ref_word s (brk_ s)).
Proof. intros Hi. eapply link_word. apply (iv_word _ Hi). Qed.

Lemma inserted_access p k v x s s' r : inv s -> inserted p k v x s s' -> access_ref (ref_word s' r) = access_ref (ref_word s r).
Proof.
  intros Hi A. destruct (in_fresh _ _ _ _ _ _ A) as [-> _]. unfold ref_word. rewrite (in_words _ _ _ _ _ _ A).
  destruct (decide (r = brk_ s)) as [->|Hr]; [|by rewrite lookup_insert_ne]. rewrite lookup_insert_eq. cbn [default from_option].
  by apply new_word.
Qed.

Lemma inv_inserted p k v x s s' : inv s -> map_ s !! k = None -> inserted p k v x s s' -> inv s'.
Proof.
  intros Hi Hmk A. destruct (in_items _ _ _ _ _ _ A) as (l1 & l2 & El & El'). destruct (in_fresh _ _ _ _ _ _ A) as [Hp Hb].
  pose proof (in_rest _ _ _ _ _ _ A) as Hrest. injection Hrest as Hu Hpd Hrt.
  assert (spec_of s' = spec_of s) as Hspec by (unfold spec_of; pose proof (in_params _ _ _ _ _ _ A); congruence).
  assert (forall r, r ∈ linked_items s' <-> r = p \/ r ∈ linked_items s) as Hl by (intros r; rewrite El, El'; set_solver).
  destruct (iv_fresh _ Hi (brk_ s)) as (Hf1 & Hf2 & Hf3 & Hf4); [lia|]. rewrite <- Hp in Hf1, Hf2, Hf3, Hf4.
  assert (forall r, is_Some (heap_ s !! r) -> r <> p) as Hne by (intros r [? Hr] ->; congruence).
  assert (forall r, r <> p -> heap_ s' !! r = heap_ s !! r) as Hh by (intros r Hr; rewrite (in_heap _ _ _ _ _ _ A); by apply lookup_insert_ne).
  assert (p ∉ linked_items s) as Hpl by (intros Hx; destruct (iv_items _ Hi _ Hx) as (? & ? & ? & _); congruence).
  split; rewrite ?Hspec, ?Hu, ?Hpd, ?Hrt; try apply Hi; try apply A.
  - intros r [->|Hr]%Hl; rewrite (in_map _ _ _ _ _ _ A).
    + exists k, v. rewrite (in_heap _ _ _ _ _ _ A), !lookup_insert_eq. done.
    + destruct (iv_items _ Hi _ Hr) as (k' & v' & E & Em). exists k', v'. rewrite Hh by (apply Hne; by eexists). split; [done|].
      rewrite lookup_insert_ne; [done|]. intros ->. congruence.
  - intros k' r. rewrite (in_map _ _ _ _ _ _ A), Hl. intros [[<- <-]|[Hk Hr]]%lookup_insert_Some.
    + split; [by left|]. exists v. by rewrite (in_heap _ _ _ _ _ _ A), lookup_insert_eq.
    + destruct (iv_map _ Hi _ _ Hr) as [? [v' E]]. split; [by right|]. exists v'. rewrite Hh; [done|]. apply Hne. by eexists.
  - intros r. unfold ref_word. rewrite (in_words _ _ _ _ _ _ A). destruct (decide (r = p)) as [->|Hr].
    + rewrite lookup_insert_eq, bool_decide_true by (apply Hl; by left). rewrite Hp. by apply new_word.
    + rewrite lookup_insert_ne by done. rewrite (bool_decide_ext _ (r ∈ linked_items s)) by (rewrite Hl; tauto). apply (iv_word _ Hi).
  - intros r Hr. apply Hl. right. by apply (iv_hint _ Hi).
  - intros r Hr. rewrite Hb in Hr. assert (r <> p) as Hrp by lia. destruct (iv_fresh _ Hi r) as (A1 & A2 & A3 & A4); [lia|].
    rewrite Hh, (in_words _ _ _ _ _ _ A), (in_expiry _ _ _ _ _ _ A), lookup_insert_ne by done. split_and!; try done.
    + destruct (x =? 0); [done|]. by rewrite lookup_insert_ne.
    + by intros [?|?]%(in_accessed _ _ _ _ _ _ A).
  - intros r Hr. destruct (iv_pending _ Hi _ Hr) as [? Hs]. pose proof (Hne _ Hs). rewrite Hl, Hh by done. tauto.
  - intros r Hr. destruct (iv_retired _ Hi _ Hr) as (? & ? & Hs & Ha). pose proof (Hne _ Hs). rewrite Hl, Hh by done.
    rewrite (inserted_access p k v x s s') by done. tauto.
  - rewrite (in_memory _ _ _ _ _ _ A), (iv_memory _ Hi), El, El', !mem_sum_app. cbn [mem_sum foldr]. autorewrite with wraps.
    assert (item_mem s' p = calc_item_memory k v) as Hm by (unfold item_mem; by rewrite (in_heap _ _ _ _ _ _ A), lookup_insert_eq).
    rewrite !(mem_sum_ext s s'); [|intros r Hr; apply Hh; intros ->; apply Hpl; rewrite El; set_solver..].
    unfold mem_sum in *. rewrite Hm. f_equal. fold (mem_sum s' l2). rewrite (mem_sum_ext s s'); [unfold mem_sum; lia|].
    intros r Hr; apply Hh; intros ->; apply Hpl; rewrite El; set_solver.
Qed.

Lemma added_inserted p k v x s s' : added p k v x s s' -> inserted p k v x s s'.
Proof.
  intros A. destruct (ad_items _ _ _ _ _ _ A) as (l1 & l2 & ? & ? & _). split; try apply A; [by exists l1, l2|]. intros r Hr. right.
  by rewrite <- (ad_accessed _ _ _ _ _ _ A).
Qed.

Lemma added_access p k v x s s' r : inv s -> added p k v x s s' -> access_ref (ref_word s' r) = access_ref (ref_word s r).
Proof. intros Hi A. by eapply inserted_access, added_inserted. Qed.

Lemma inv_added p k v x s s' : inv s -> map_ s !! k = None -> added p k v x s s' -> inv s'.
Proof. intros Hi Hm A. by eapply inv_inserted, added_inserted. Qed.

Definition insert_outcome (k : Key) (v : Value) (x : Z) (s s' : mm) : Prop :=
  (inv s' /\ keeps s s' /\ (max_size_ s = 0 \/ max_memory_ s = 0 \/ ~ (unobstructed s /\ within_size s))) \/
  (exists s1 p, inv s1 /\ keeps s s1 /\ (max_size_ s = unlimited \/ size s1 < max_size_ s) /\ map_ s1 !! k = None /\ added p k v x s1 s').

Lemma keeps_map s s' k p : inv s -> inv s' -> keeps s s' -> map_ s' !! k = Some p -> map_ s !! k = Some p.
Proof.
  intros Hi Hi' Hk Hm. destruct (iv_map _ Hi' _ _ Hm) as [Hp [v Hh]]. rewrite (linked_heap s s') in Hh by done.
  apply (kp_items _ _ Hk) in Hp. destruct (iv_items _ Hi _ Hp) as (k' & v' & Hh' & Hm'). congruence.
Qed.

Definition bounded (s : mm) : Prop := 0 <= max_size_ s < 2 ^ 64 /\ 0 <= max_memory_ s < 2 ^ 64.

Lemma collect_spec ev s : exists lg, collect ev s = set_log lg s.
Proof. unfold collect. destruct (has_callbacks_ s _); [by eexists|]. exists (log_ s). by destruct s. Qed.

Lemma ttl_push_spec k x s : exists t, ttl_heap_push k x s = set_index t s /\
  forall s', items_ (q_ s') = items_ (q_ s) -> (heap_ s', expiry_ s', index_ s') = (heap_ s, expiry_ s, index_ s) ->
    index_ (ttl_heap_push k x s') = t.
Proof.
  eexists. split; [reflexivity|]. intros s' Hq [= E1 E2 E3]. unfold ttl_heap_push, ttl_live, expiry_of, size, list_size.
  cbn [index_ set_index]. by rewrite Hq, E1, E2, E3.
Qed.

Lemma wp_insert_new e k v x s : inv s -> bounded s -> size s + 1 < 2 ^ 64 -> map_ s !! k = None ->
  wp (insert_new e k v x) (fun _ s' => insert_outcome k v x s s') s.
Proof.
  intros Hi [Hb1 Hb2] Hsz Hmk. unfold insert_new. wp_run. unfold id.
  destruct ((max_size_ s =? 0) || (max_memory_ s =? 0)) eqn:E0; wp_run.
  { left. split; [done|]. split; [apply keeps_refl|]. apply orb_true_iff in E0 as [E0|E0]; bool_to_Z; auto. }
  bool_to_Z. eapply wp_mono; [by apply wp_cleanup|]. intros _ s0 (Hi0 & Hk0 & _). wp_run. pose proof (kp_params _ _ Hk0) as Hp0.
  assert (max_size_ s0 = max_size_ s /\ max_memory_ s0 = max_memory_ s) as [Em0 Ez0] by (split; congruence).
  eapply wp_mono; [apply wp_make_room; [done|lia..]|]. intros r s1 (Hi1 & Hk1 & Hr). pose proof (keeps_trans _ _ _ Hk0 Hk1) as Hk.
  rewrite Em0 in Hr. destruct r; cbn [negb]; wp_run.
  2:{ left. split; [done|]. split; [done|]. right. right. intros [Hu Hw]. apply Hr. split; [by apply (unobstructed_keeps s)|].
      unfold within_size in *. rewrite Em0. pose proof (kp_size _ _ Hk0). destruct Hw; [by left|right; lia]. }
  assert (map_ s1 !! k = None) as Hmk1.
  { destruct (map_ s1 !! k) as [p|] eqn:E; [|done]. apply (keeps_map s s1) in E; [congruence|done..]. }
  destruct (iv_fresh _ Hi1 (brk_ s1)) as (Hf1 & Hf2 & Hf3 & Hf4); [lia|].
  assert (brk_ s1 ∉ items_ (q_ s1)) as Hni by (intros Hx; destruct (iv_items _ Hi1 _ Hx) as (? & ? & ? & _); congruence).
  destruct (link_new_spec _ _ _ (iv_list _ Hi1) Hni) as (q1 & l1 & l2 & E1 & Hmid & El & El' & Hl0).
  { pose proof (kp_size _ _ Hk). unfold size in *. lia. }
  destruct (update_ok _ _ (iv_spec _ Hi1) Hmid) as (q2 & E2 & Hok2 & Ei2).
  assert (forall s2, added (brk_ s1) k v x s1 (set_q q2 s2) -> q_ s2 = q1 -> spec_of s2 = spec_of s1 ->
    wp refresh_point (fun _ s' => insert_outcome k v x s s') s2) as Hend.
  { intros s2 HP Hq2 Hs2. unfold refresh_point. wp_run. rewrite (wp_on_list _ q2) by (by rewrite Hs2, Hq2).
    right. exists s1, (brk_ s1). done. }
  destruct (x =? 0) eqn:Ex; wp_run; rewrite (wp_on_list _ q1) by exact E1; wp_run;
    try (match goal with |- context [ttl_heap_push ?k ?x ?st] => destruct (ttl_push_spec k x st) as (ti & -> & Hti) end);
    match goal with |- context [collect ?ev ?st] => destruct (collect_spec ev st) as [lg ->] end;
    (apply Hend; [split|done|done]); mm_cbn; rewrite ?Ex; try done.
  1,3: exists l1, l2; rewrite Ei2; done.
  3: symmetry; by apply Hti.
  all: change (list_size q1 = list_size q2); unfold list_size; by rewrite Ei2.
Qed.

(** ** Update *)

Definition revalued (p : loc) (k : Key) (v : Value) (st : counter -> Z) (s : mm) : mm :=
  set_stats st (set_heap (<[p := (k, v)]> (heap_ s)) s).

Lemma inv_revalued p k old v st s : inv s -> p ∈ linked_items s -> heap_ s !! p = Some (k, old) ->
  st current_size = stats_ s current_size ->
  st current_memory = u64 (stats_ s current_memory - calc_item_memory k old + calc_item_memory k v) -> inv (revalued p k v st s).
Proof.
  intros Hi Hp Hh Hs Hm. pose proof (inv_nodup s Hi) as Hn.
  set (s' := revalued p k v st s).
  assert (forall r, r <> p -> heap_ s' !! r = heap_ s !! r) as Hne by (intros r Hr; by apply lookup_insert_ne).
  assert (heap_ s' !! p = Some (k, v)) as Heq by (by apply lookup_insert_eq).
  assert (forall r, is_Some (heap_ s !! r) -> is_Some (heap_ s' !! r)) as Hsome.
  { intros r Hr. destruct (decide (r = p)) as [->|]; [by rewrite Heq|by rewrite Hne]. }
  destruct (iv_items _ Hi _ Hp) as (k0 & v0 & E & Em). rewrite Hh in E. injection E as <- <-.
  pose proof (mem_sum_without s' p (linked_items s) k v Hn Hp Heq) as M1. pose proof (mem_sum_without s p (linked_items s) k old Hn Hp Hh) as M2.
  rewrite (mem_sum_ext s s' (without p _)) in M1 by (intros r [Hr _]%without_elem; by apply Hne).
  destruct Hi as [I1 I2 I3 I4 I5 I6 I7 I8 I9 I10 I11 I12 I13]. split; try done.
  - intros r Hr. destruct (decide (r = p)) as [->|Hrp]; [by exists k, v|]. rewrite Hne by done. by apply I3.
  - intros k' r Hr. destruct (I4 _ _ Hr) as [Hr' [v' E]]. split; [done|]. destruct (decide (r = p)) as [->|Hrp]; [|exists v'; by rewrite Hne].
    rewrite Heq. exists v. congruence.
  - intros r Hr. destruct (I7 r Hr) as (? & ? & ? & ?). rewrite Hne; [done|]. intros ->. congruence.
  - intros r Hr. destruct (I8 r Hr). auto.
  - intros r Hr. destruct (I10 r Hr) as (? & ? & ? & ?). auto.
  - exact (eq_trans Hs I12).
  - change (st current_memory = u64 (mem_sum s' (linked_items s))). rewrite Hm, I13, M1.
    replace (u64 (mem_sum s (linked_items s)) - calc_item_memory k old + calc_item_memory k v)
      with (u64 (mem_sum s (linked_items s)) + (calc_item_memory k v - calc_item_memory k old)) by lia.
    autorewrite with wraps. f_equal. lia.
Qed.

(** An update that leaves its own item alone: the item is held, or the cache
    stays within its budgets with the new value. *)
Definition update_fits (p : loc) (k : Key) (old v : Value) (s : mm) : Prop :=
  0 < access_ref (ref_word s p) \/
  (within_size s /\ (max_memory_ s = unlimited \/
     u64 (stats_ s current_memory - calc_item_memory k old + calc_item_memory k v) <= max_memory_ s)).

(** The item's value is replaced and its position refreshed; what follows
    only shrinks the cache, and the item is used after it was retired only if
    the update does not fit. *)
Definition update_outcome (p : loc) (k : Key) (old v : Value) (s s' : mm) : Prop :=
  inv s' /\ (exists st s1 r, inv (revalued p k v st s) /\ touch p (revalued p k v st s) s1 r /\ keeps s1 (set_stale_uses (stale_uses_ s1) s')) /\
  (stale_uses_ s' = stale_uses_ s \/ (p ∈ retired_ s' /\ stale_uses_ s' = p :: stale_uses_ s)) /\
  (update_fits p k old v s -> p ∉ retired_ s').

Lemma note_use_spec p s : exists l, note_use p s = set_stale_uses l s /\ (l = stale_uses_ s \/ (p ∈ retired_ s /\ l = p :: stale_uses_ s)).
Proof.
  unfold note_use. destruct (decide (p ∈ retired_ s)).
  - exists (p :: stale_uses_ s). split; [done|by right].
  - exists (stale_uses_ s). split; [by destruct s|by left].
Qed.

Lemma inv_stale l s : inv s -> inv (set_stale_uses l s).
Proof. intros [I1 I2 I3 I4 I5 I6 I7 I8 I9 I10 I11 I12 I13]. by split. Qed.

Lemma fits_no_eviction s s' : within_size s -> size s' = size s -> max_size_ s' = max_size_ s ->
  max_memory_ s' = unlimited \/ stats_ s' current_memory <= max_memory_ s' -> should_evict s' = false.
Proof.
  intros Hw Hs Hm Hf. unfold should_evict, within_size in *. rewrite Hs, Hm. apply orb_false_iff. split.
  - destruct Hw as [->|?]; [by rewrite Z.eqb_refl|]. rewrite (proj2 (Z.ltb_ge _ _)) by lia. by rewrite andb_false_r.
  - destruct Hf as [->|?]; [by rewrite Z.eqb_refl|]. rewrite (proj2 (Z.ltb_ge _ _)) by lia. by rewrite andb_false_r.
Qed.

Lemma wp_update_existing e p k old v mode s : inv s -> p ∈ linked_items s -> heap_ s !! p = Some (k, old) ->
  wp (update_existing e p v mode) (fun _ s' => update_outcome p k old v s s') s.
Proof.
  intros Hi Hp Hh. unfold update_existing. wp_run. rewrite (wp_deref _ _ _ _ Hh (linked_live _ _ Hi Hp)). wp_run.
  eapply wp_mono.
  { apply wp_record_access_raw; [apply (iv_spec _ Hi)|apply (iv_list _ Hi)|done|].
    apply (word_in_container true). exact (word_linked s p Hi Hp). }
  intros r s1 [(q & ut & a & b & acc & st & -> & Hok & Hq & Hacc & Hs1 & Hs2)]. wp_run.
  match goal with |- wp ?m ?Q ?st0 => set (rest := Q); set (s1 := st0) end.
  assert (forall st', st' current_size = stats_ s current_size ->
    st' current_memory = u64 (stats_ s current_memory - calc_item_memory k old + calc_item_memory k v) ->
    rest tt (set_stats st' s1)) as Hrest.
  { intros st' E1 E2. pose proof (inv_revalued p k old v st' s Hi Hp Hh E1 E2) as Hi1. set (s2 := set_stats st' s1).
    assert (touch p (revalued p k v st' s) s2 r) as Ht.
    { split. exists q, ut, a, b, acc, st'. split; [done|]. split; [done|]. split; [done|]. split; [done|]. done. }
    destruct (touch_reordered p _ _ r Hi1 Hp Ht) as (Hi2 & Hr2 & _).
    assert (p ∈ linked_items s2) as Hp2 by (destruct Hr2 as (_ & -> & _); exact Hp).
    assert (size s2 = size s) as Hsz by (destruct Hr2 as (_ & Hl & _); unfold size, list_size; f_equal; exact (Permutation_length Hl)).
    assert (forall s3, inv s3 -> keeps s2 s3 -> (update_fits p k old v s -> p ∉ retired_ s3) ->
      wp ('(k, v) ← deref p; modify (collect (EvUpdate k v))) (fun _ s' => update_outcome p k old v s s') s3) as Hend.
    { intros s3 Hi3 Hk3 Hfit. destruct (kp_alloc _ _ Hk3 p) as [[k3 v3] E3]; [exists (k, v); by apply lookup_insert_eq|].
      wp_run. rewrite (wp_deref_any _ _ _ _ E3). wp_run. destruct (note_use_spec p s3) as (l & -> & Hl).
      destruct (collect_spec (EvUpdate k3 v3) (set_stale_uses l s3)) as [lg ->].
      assert (stale_uses_ s3 = stale_uses_ s) as Hst by (pose proof (kp_params _ _ Hk3) as Hpar; change (stale_uses_ s) with (stale_uses_ s2); congruence).
      split; [destruct Hi3 as [I1 I2 I3 I4 I5 I6 I7 I8 I9 I10 I11 I12 I13]; by split|]. rewrite Hst in Hl. split; [|done].
      exists st', s2, r. split; [done|]. split; [done|]. eapply keeps_trans; [exact Hk3|].
      split; try done; [by auto|]. cbn. change (stale_uses_ s2) with (stale_uses_ s). by rewrite Hst. }
    unfold rest. rewrite wp_bind, wp_gets, wp_bind. fold s2. destruct (should_evict s2) eqn:Eo.
    2:{ rewrite wp_skip. apply Hend; [done|apply keeps_refl|]. intros _. by apply linked_live. }
    eapply wp_mono; [by apply wp_shrink_to_fit|]. intros _ s3 (Hi3 & Hk3 & _). apply Hend; [done|done|].
    intros [Ha|[Hw Hm]] Hr.
    + destruct (iv_retired _ Hi3 _ Hr) as (_ & _ & _ & Hz). rewrite (kp_access _ _ Hk3) in Hz. change (access_ref (ref_word s p) = 0) in Hz. lia.
    + rewrite (fits_no_eviction s s2) in Eo; [done|done|done|done|]. rewrite <- E2 in Hm. exact Hm. }
  pose proof (iv_memory _ Hi) as Hmem. assert (stats_ s1 current_memory = stats_ s current_memory) as Em by exact Hs2.
  destruct (_ <? _) eqn:E1; [|destruct (calc_item_memory k v <? calc_item_memory k old) eqn:E2]; wp_run.
  - apply Hrest; [exact Hs1|]. change (u64 (stats_ s1 current_memory + (calc_item_memory k v - calc_item_memory k old)) =
      u64 (stats_ s current_memory - calc_item_memory k old + calc_item_memory k v)). rewrite Em. f_equal. lia.
  - apply Hrest; [exact Hs1|]. change (u64 (stats_ s1 current_memory - (calc_item_memory k old - calc_item_memory k v)) =
      u64 (stats_ s current_memory - calc_item_memory k old + calc_item_memory k v)). rewrite Em. f_equal. lia.
  - bool_to_Z. apply (Hrest (stats_ s1)); [exact Hs1|]. rewrite Em, Hmem.
    replace (u64 (mem_sum s (linked_items s)) - _ + _) with (u64 (mem_sum s (linked_items s))) by lia.
    symmetry. by apply wrap_small, wrap_range.
Qed.
End set.
