(* ===== verification/MmLruTtl.v ===== *)
(** mm_lru as a strategy of the TTL mixin: its hooks meet the mixin's contract,
    and the index stays complete through every kind of state change. *)

From S2P Require Import Prelude IntrusiveList ListRefine Refcount StdHeap TtlHeap MmLruList MmLru MmLruInv MmLruOps MmLruSet.

(** What a sweep does is built from erases of ready entries. *)
Lemma sweep_invariant {Key St : Type} {HH : StdHeap (entry Key) expiry_ns} probe erase (P : St -> Prop) now budget st t :
  (forall st k x, P st -> probe st k x = ready -> P (erase st k)) -> P st ->
  P (TtlHeap.sweep (Key := Key) probe erase now budget st t).1.2.
Proof.
  intros Herase HP. unfold TtlHeap.sweep.
  assert (forall fuel st h d ev, P st -> P (sweep_loop probe erase fuel now budget st h d ev).1.1.1) as Hl.
  { clear st t HP. induction fuel as [|fuel IH]; intros st h d ev HP; [done|]. destruct h as [|top h]; [done|]. cbn [sweep_loop].
    destruct (_ && _); [done|]. destruct (now <? _); [done|]. cbv zeta.
    destruct (probe st (ekey top) (expiry_ns top)) eqn:E; try apply IH; eauto. }
  specialize (Hl (length (TtlHeap.heap_ t)) st (TtlHeap.heap_ t) [] 0 HP). by destruct (sweep_loop _ _ _ _ _ _ _ _ _) as [[[? ?] ?] ?].
Qed.

Lemma omap_shorter {A B} (f : A -> option B) (l : list A) : (length (omap f l) <= length l)%nat.
Proof. induction l as [|x l IH]; [done|]. cbn [omap list_omap length]. destruct (f x); cbn [length]; lia. Qed.

Section ttl.
Context {Key Value : Type} `{Countable Key} {TP : mm_params Key Value}.
Context {HH : StdHeap (entry Key) expiry_ns}.
Abbreviation mm := (mm_lru (Key := Key) (Value := Value)).
Implicit Types (s : mm) (p : loc) (k : Key) (v : Value).

Definition live_of (s : mm) : gmap Key (Z * bool) := (fun p => (expiry_of s p, has_active_handle s p)) <$> map_ s.

Lemma live_of_lookup s k x b : live_of s !! k = Some (x, b) <->
  exists p, map_ s !! k = Some p /\ expiry_of s p = x /\ has_active_handle s p = b.
Proof. unfold live_of. rewrite lookup_fmap, fmap_Some. naive_solver. Qed.

Lemma ttl_erase_spec s k p v : inv s -> map_ s !! k = Some p -> heap_ s !! p = Some (k, v) -> access_ref (ref_word s p) = 0 ->
  removed p k v s (ttl_erase s k).
Proof.
  intros Hi Hm Hh Ha. destruct (iv_map _ Hi _ _ Hm) as [Hp _].
  pose proof (wp_erase_expired k p v s Hi Hm Hp Hh Ha) as Hwp. apply wp_elim in Hwp as (u & s' & E & R).
  unfold ttl_erase. by rewrite E.
Qed.

Lemma live_removed s s' p k v : inv s -> map_ s !! k = Some p -> removed p k v s s' -> live_of s' = delete k (live_of s).
Proof.
  intros Hi Hm R. unfold live_of. rewrite (rm_map _ _ _ _ _ R), fmap_delete. apply map_eq. intros k'. rewrite !lookup_delete. case_decide; [done|].
  rewrite !lookup_fmap. destruct (map_ s !! k') as [r|] eqn:E; [|done]. simpl. f_equal.
  assert (r <> p) as Hr. { intros ->. destruct (iv_map _ Hi _ _ Hm) as [_ [? ?]], (iv_map _ Hi _ _ E) as [_ [? ?]]. congruence. }
  unfold expiry_of, has_active_handle, ref_word. by rewrite (rm_expiry _ _ _ _ _ R), (rm_words _ _ _ _ _ R).
Qed.

Lemma ttl_ready_spec s k x : inv s -> ttl_probe s k x = ready ->
  exists p v, map_ s !! k = Some p /\ heap_ s !! p = Some (k, v) /\ access_ref (ref_word s p) = 0 /\ p ∈ linked_items s.
Proof.
  intros Hi. unfold ttl_probe. pose proof (find_spec s k Hi) as Hf. destruct (map_find s k) as [p|]; [|done].
  destruct Hf as (Hm & Hp & v & Hh). destruct (negb _); [done|]. destruct (has_active_handle s p) eqn:Ha; [done|].
  intros _. exists p, v. split_and!; try done. by apply not_held.
Qed.

#[export] Instance mm_lru_ttl : TtlStrategy Key mm.
Proof.
  refine {| strategy_ok := inv; live_items := live_of; ttl_probe_entry := ttl_probe; ttl_erase_expired := ttl_erase;
            ttl_live_count := size; ttl_for_each_live := ttl_live |}.
  - intros s k e Hi. unfold ttl_probe. rewrite map_find_spec by done. unfold live_of. rewrite lookup_fmap.
    destruct (map_ s !! k) as [p|]; [|done]. simpl. case_decide as E.
    + rewrite (proj2 (Z.eqb_eq _ _) E). done.
    + by rewrite (proj2 (Z.eqb_neq _ _) E).
  - intros s k e Hi (p & Hm & _ & Ha)%live_of_lookup. destruct (iv_map _ Hi _ _ Hm) as [_ [v Hh]].
    apply not_held in Ha; [|done]. pose proof (ttl_erase_spec s k p v Hi Hm Hh Ha) as R.
    split; [by eapply inv_removed|]. by eapply live_removed.
  - intros s k e Hi. unfold ttl_live. rewrite list_elem_of_omap. split.
    + intros (p & Hp & E). destruct (expiry_of s p =? 0) eqn:E0; [done|]. bool_to_Z.
      destruct (iv_items _ Hi _ Hp) as (k' & v & Hh & Hm). rewrite Hh in E. simpl in E. injection E as <- <-.
      split; [done|]. exists (has_active_handle s p). apply live_of_lookup. eauto.
    + intros (He & b & (p & Hm & Hx & _)%live_of_lookup). destruct (iv_map _ Hi _ _ Hm) as [Hp [v Hh]].
      exists p. split; [done|]. rewrite (proj2 (Z.eqb_neq _ _)) by congruence. rewrite Hh. simpl. by rewrite Hx.
  - intros s Hi. unfold ttl_live, size, list_size. apply Nat2Z.inj_le, omap_shorter.
Defined.

(** The sweep of this strategy: it keeps the invariant and everything that
    is not an expired item. *)
Lemma wp_sweep_index now budget s : inv s ->
  wp (sweep_index now budget) (fun _ s' => inv s' /\ keeps s (set_index (index_ s) s')) s.
Proof.
  intros Hi. rewrite wp_sweep. set (r := TtlHeap.sweep _ _ _ _ _ _).
  assert (inv r.1.2 /\ keeps s r.1.2) as [Hi' Hk'].
  { apply (sweep_invariant ttl_probe ttl_erase (fun s' => inv s' /\ keeps s s')); [|split; [done|apply keeps_refl]].
    intros s1 k x [Hi1 Hk1] Hp. destruct (ttl_ready_spec s1 k x Hi1 Hp) as (p & v & Hm & Hh & Ha & Hl).
    pose proof (ttl_erase_spec s1 k p v Hi1 Hm Hh Ha) as R. split; [by eapply inv_removed|].
    eapply keeps_trans; [exact Hk1|]. by eapply removed_keeps. }
  clearbody r. destruct r as [[n s'] t]. cbn [fst snd] in *. split.
  - destruct Hi' as [I1 I2 I3 I4 I5 I6 I7 I8 I9 I10 I11 I12 I13]. by split.
  - destruct Hk' as [A1 A2 A3 A4 A5 A6 A7 A8]. by split.
Qed.

(** ** The index stays complete *)

Definition indexed (s : mm) : Prop := index_ok s (index_ s).

Lemma indexed_mono s s' : indexed s -> inv s' -> index_ s' = index_ s ->
  (forall k p, map_ s' !! k = Some p -> map_ s !! k = Some p /\ expiry_of s' p = expiry_of s p) -> indexed s'.
Proof.
  intros [I1 I2 I3 I4] Hi' E Hm. unfold indexed. rewrite E. split; [done..|].
  intros k x b (p & Hp & Hx & _)%live_of_lookup Hnz. destruct (Hm _ _ Hp) as [Hp' Hx'].
  apply (I4 k x (has_active_handle s p)); [|done]. apply live_of_lookup. exists p. split_and!; congruence.
Qed.

Lemma indexed_keeps s s' : indexed s -> inv s' -> keeps s s' -> indexed s'.
Proof.
  intros Hx Hi' Hk. eapply indexed_mono; [done..|apply (kp_index _ _ Hk)|]. intros k p Hm.
  split; [eapply keeps_map; [apply Hx|done..]|]. unfold expiry_of. by rewrite (kp_expiry _ _ Hk).
Qed.

Lemma push_indexed s k x : inv s -> (forall p, map_ s !! k = Some p -> expiry_of s p = x) ->
  is_heap (TtlHeap.heap_ (index_ s)) -> (forall e, e ∈ TtlHeap.heap_ (index_ s) -> expiry_ns e <> 0) ->
  (forall k' x' b, k' <> k -> live_of s !! k' = Some (x', b) -> x' <> 0 -> Entry x' k' ∈ TtlHeap.heap_ (index_ s)) ->
  indexed (ttl_heap_push k x s).
Proof.
  intros Hi Hk Hh Hnz Hc. assert (inv (ttl_heap_push k x s)) as Hi'.
  { destruct Hi as [I1 I2 I3 I4 I5 I6 I7 I8 I9 I10 I11 I12 I13]. by split. }
  assert (index_ok s (index_ (ttl_heap_push k x s))) as [_ J2 J3 J4]; [|by split].
  unfold ttl_heap_push. cbn [index_ set_index]. destruct (needs_rebuild _ _ _).
  { exact (proj1 (ttl_index_rebuild_spec s (TtlHeap.push k x (index_ s)) Hi)). }
  unfold TtlHeap.push. destruct (x =? 0) eqn:E; bool_to_Z.
  - split; [done..|]. intros k' x' b Hl Hx'. destruct (decide (k' = k)) as [->|]; [|by eapply Hc].
    apply live_of_lookup in Hl as (p' & Hp' & Hx & _). rewrite (Hk _ Hp') in Hx. congruence.
  - split; cbn [TtlHeap.heap_]; [done|by apply pq_push_heap| |]; setoid_rewrite pq_push_perm; try done.
    + intros f [->|?]%elem_of_cons; [done|eauto].
    + intros k' x' b Hl Hx'. apply elem_of_cons. destruct (decide (k' = k)) as [->|]; [|right; by eapply Hc].
      left. apply live_of_lookup in Hl as (p' & Hp' & Hx & _). rewrite (Hk _ Hp') in Hx. by subst.
Qed.
End ttl.
