(* ===== verification/MmLruFlush.v ===== *)
(** flush of mm_lru over its invariant: every unpinned item leaves, in list
    order, and the pinned ones stay. *)

From S2P Require Import Prelude IntrusiveList ListRefine Refcount StdHeap TtlHeap MmLruList MmLru MmLruInv MmLruOps MmLruSet.

Section flush.
Context {Key Value : Type} `{Countable Key} {TP : mm_params Key Value}.
Context {HH : StdHeap (entry Key) expiry_ns}.
Abbreviation mm := (mm_lru (Key := Key) (Value := Value)).
Implicit Types (s : mm) (p : loc) (k : Key) (v : Value).

(** The state the walk stands for: the collected items retired, the hint
    dropped and the size recorded. *)
Definition settled (s : mm) (to_retire : list loc) : mm :=
  store_size (set_unpinned_tail None (set_retired (reverse to_retire ++ retired_ s) s)).

Lemma foldl_retire l s : foldl (fun s p => retire_item p s) s l = set_retired (reverse l ++ retired_ s) s.
Proof.
  revert s; induction l as [|p l IH]; intros s; simpl; [by destruct s|]. rewrite IH.
  rewrite reverse_cons, <- app_assoc. done.
Qed.

(** Without an insertion point, or with nothing pinned, the walk leaves the
    tail region consistent. *)
Definition flushable (s : mm) (l : list loc) : Prop :=
  spec_of s = 0 \/ forall p, p ∈ l -> has_active_handle s p = false.

Lemma untail_same spec q c : spec = 0 -> list_ok spec q ->
  LruList (items_ q) (tail_bits_ q ∖ {[c]}) (insertion_point_ q) (tail_size_ q) (insertion_point_pos_ q) = q.
Proof.
  intros H0 (xs1 & xs2 & [[_ _ Hb _ _] _] & Hz & _). rewrite (Hz H0) in Hb. destruct q. simpl in *. f_equal. rewrite Hb. set_solver.
Qed.

Lemma wp_flush_item c k v s acc : let s0 := settled s acc in
  inv s0 -> map_ s !! k = Some c -> c ∈ linked_items s -> heap_ s !! c = Some (k, v) -> access_ref (ref_word s c) = 0 ->
  wp (flush_item c) (fun r s' => r = true /\ removed c k v s0 (settled s' (acc ++ [c]))) s.
Proof.
  intros s0 Hi Hm Hp Hh Ha. pose proof (word_linked s0 c Hi Hp) as Hw. change (ref_word s0 c) with (ref_word s c) in Hw.
  unfold flush_item. wp_run. rewrite (mark_word _ Hw Ha). cbn [fst snd]. wp_run. pose proof (linked_live s0 c Hi Hp) as Hlive.
  assert (c ∉ retired_ s) as Hnr by (intros Hx; apply Hlive; cbn; set_solver). clear Hlive. rewrite (wp_deref _ (k, v)) by done. wp_run.
  eapply wp_collect_moving; [exact Hh|exact Hnr|]. intros v' lg. wp_run.
  rewrite (map_erase_spec k c v') by (mm_cbn; by rewrite ?lookup_insert_eq).
  eapply wp_remove; [apply (iv_spec _ Hi)|apply (iv_list _ Hi)|done|mm_cbn; rewrite lookup_insert_eq; by apply marked_linked|].
  intros q Hq Hqi. wp_run. split; [done|]. mm_cbn. rewrite ?lookup_insert_eq, ?insert_insert_eq. cbn [from_option]. unfold id.
  destruct (evict_word _ Hw) as [Hw1 Hw2].
  split; unfold settled in *; first [removed_tac | by (left; mm_cbn; rewrite reverse_app)].
Qed.

Definition flush_post (s : mm) (acc kept rest : list loc) (acc' : list loc) (s' : mm) : Prop :=
  inv (settled s' acc') /\ keeps (settled s acc) (settled s' acc') /\
  linked_items s' = kept ++ filter (fun p => has_active_handle s p = true) rest.

Lemma wp_flush_loop fuel s acc kept rest :
  inv (settled s acc) -> linked_items s = kept ++ rest -> flushable s rest -> (length rest <= fuel)%nat ->
  wp (flush_loop fuel (head rest) acc) (flush_post s acc kept rest) s.
Proof.
  revert s acc kept rest. induction fuel as [|fuel IH]; intros s acc kept rest Hi Hl Hfl Hf;
    (destruct rest as [|c rest]; cbn [head flush_loop]; wp_run; [split; [done|]; split; [apply keeps_refl|]; by rewrite Hl|]).
  { simpl in Hf. lia. }
  simpl in Hf. pose proof (inv_nodup _ Hi) as Hn. change (linked_items (settled s acc)) with (linked_items s) in Hn. rewrite Hl in Hn.
  apply NoDup_app_mid in Hn as (Hn1 & Hn2 & _).
  assert (list_get_next (q_ s) c = head rest) as Hnext by (unfold list_get_next; fold (linked_items s); by rewrite Hl, next_of_split).
  rewrite Hnext. assert (c ∈ linked_items s) as Hc by (rewrite Hl; set_solver).
  destruct (has_active_handle s c) eqn:Ha; wp_run.
  - assert (spec_of s = 0) as H0.
    { destruct Hfl as [?|Hfl]; [done|]. rewrite Hfl in Ha by (by left). done. }
    rewrite (untail_same (spec_of s) (q_ s) c H0 (iv_list _ Hi)). replace (set_q (q_ s) s) with s by (by destruct s).
    eapply wp_mono; [apply (IH s acc (kept ++ [c])); [done|by rewrite <- app_assoc|by left|lia]|].
    intros acc' s' (Hi' & Hk' & Hl'). split; [done|]. split; [done|]. rewrite filter_cons_True by done. by rewrite <- app_assoc in Hl'.
  - destruct (iv_items _ Hi _ Hc) as (k & v & Hh & Hm). pose proof (not_held _ _ Hi Ha) as Ha0.
    eapply wp_mono; [by eapply wp_flush_item|]. intros r s1 [-> R].
    pose proof (removed_keeps _ _ _ _ _ Hi Hc R Ha0) as Hk1.
    assert (inv (settled s1 (acc ++ [c]))) as Hi1 by (by eapply inv_removed).
    pose proof (rm_items _ _ _ _ _ R) as Hr. change (linked_items s1 = without c (linked_items s)) in Hr.
    rewrite Hl, without_split in Hr by done.
    assert (forall p, has_active_handle s1 p = has_active_handle s p) as Hh1 by (exact (fun p => keeps_held _ _ p Hi Hi1 Hk1)).
    eapply wp_mono; [apply (IH s1 (acc ++ [c]) kept rest); [done|done| |lia]|].
    { destruct Hfl as [H0|Hfl]; [left; exact (eq_trans (keeps_spec _ _ Hk1) H0)|right; intros p Hp; rewrite Hh1; apply Hfl; by right]. }
    intros acc' s' (Hi' & Hk' & Hl'). split; [done|]. split; [by eapply keeps_trans|].
    rewrite filter_cons_False by congruence. rewrite Hl'. f_equal. apply list_filter_iff. intros p. by rewrite Hh1.
Qed.

(** The reset of the tail region at the end of [flush]. *)
Lemma flush_reset spec q : list_ok spec q -> spec = 0 \/ items_ q = [] ->
  list_ok spec (with_pos npos (with_tail_size 0 (with_point None q))).
Proof.
  intros (xs1 & xs2 & [[Hi Hn Hb Hsz Hf] Hp] & H0 & Hw) Hc. assert (xs2 = []) as ->.
  { destruct Hc as [Hc|Hc]; [auto|]. rewrite Hc in Hi. by destruct xs1, xs2. }
  exists xs1, []. split; [|done]. split; [|done]. by split.
Qed.

Lemma wp_flush s : inv s -> flushable s (linked_items s) ->
  wp flush (fun _ s' => inv s' /\ keeps s s' /\ linked_items s' = filter (fun p => has_active_handle s p = true) (linked_items s)) s.
Proof.
  intros Hi Hfl. unfold flush. wp_run. unfold id.
  assert (inv (settled s [])) as Hi0.
  { destruct Hi as [I1 I2 I3 I4 I5 I6 I7 I8 I9 I10 I11 I12 I13]. by split. }
  eapply wp_mono; [apply (wp_flush_loop _ s [] [] (linked_items s)); [done|done|done|unfold linked_items; lia]|].
  intros acc s1 (Hi1 & Hk1 & Hl1). simpl in Hl1. unfold set_hint. wp_run. rewrite foldl_retire.
  set (s2 := store_size _). set (s2' := settled s1 acc) in *.
  assert (list_ok (spec_of s2') (q_ s2)) as Hok2.
  { apply (flush_reset _ _ (iv_list _ Hi1)). rewrite (keeps_spec _ _ Hk1). destruct Hfl as [Hfl|Hfl]; [by left|right].
    change (items_ (q_ s2')) with (linked_items s1). rewrite Hl1. apply filter_none. intros p Hp. by rewrite Hfl. }
  assert (inv s2) as Hi2.
  { destruct Hi1 as [I1 I2 I3 I4 I5 I6 I7 I8 I9 I10 I11 I12 I13]. by split. }
  assert (keeps s s2) as Hk2.
  { destruct Hk1 as [A1 A2 A3 A4 A5 A6 A7 A8]. by split. }
  eapply wp_mono; [by apply wp_cleanup|]. intros _ s' (Hi' & Hk' & Hs'). split; [done|]. split; [by eapply keeps_trans|].
  rewrite <- Hl1. unfold linked_items, same_list in *. replace (q_ s') with (q_ s2) by congruence. done.
Qed.
End flush.
