(* ===== verification/MmLruRun.v ===== *)
(** mm_lru as a sequence of calls: every call succeeds, keeps the invariant,
    and refines a lossy map; handles stay valid, the size bound holds and the
    TTL index stays complete. *)

From S2P Require Import Prelude IntrusiveList ListRefine Refcount StdHeap TtlHeap MmLruList MmLru MmLruInv MmLruOps MmLruSet MmLruTtl MmLruFlush.

(** * Calls *)

Inductive mm_op (Key Value : Type) :=
  | Set_ (k : Key) (v : Value) | SetWithExpiry (k : Key) (v : Value) (expiry : Z) | Add (k : Key) (v : Value)
  | Replace (k : Key) (v : Value) | Get (k : Key) | Peek (k : Key) | PeekForGet (k : Key) | Release (p : loc) | Promote (k : Key)
  | Del (k : Key) | ForceDel (k : Key) | Pop (k : Key) | PopLru | Flush | Contains (k : Key)
  | MaxSize (n : Z) | MaxMemory (n : Z) | ShrinkToFit | EvictLru | EvictExpired (n : Z) | SetConfig (c : mm_lru_config).
Arguments Set_ {Key Value} _ _.
Arguments SetWithExpiry {Key Value} _ _ _.
Arguments Add {Key Value} _ _.
Arguments Replace {Key Value} _ _.
Arguments Get {Key Value} _.
Arguments Peek {Key Value} _.
Arguments PeekForGet {Key Value} _.
Arguments Release {Key Value} _.
Arguments Promote {Key Value} _.
Arguments Del {Key Value} _.
Arguments ForceDel {Key Value} _.
Arguments Pop {Key Value} _.
Arguments PopLru {Key Value}.
Arguments Flush {Key Value}.
Arguments Contains {Key Value} _.
Arguments MaxSize {Key Value} _.
Arguments MaxMemory {Key Value} _.
Arguments ShrinkToFit {Key Value}.
Arguments EvictLru {Key Value}.
Arguments EvictExpired {Key Value} _.
Arguments SetConfig {Key Value} _.

Inductive mm_res (Key Value : Type) :=
  | RUnit | RBool (b : bool) | RHandle (h : option (loc * Value)) | RValue (v : option Value)
  | RPair (kv : option (Key * Value)) | RCount (n : Z).
Arguments RUnit {Key Value}.
Arguments RBool {Key Value} _.
Arguments RHandle {Key Value} _.
Arguments RValue {Key Value} _.
Arguments RPair {Key Value} _.
Arguments RCount {Key Value} _.

Section run.
Context {Key Value : Type} `{Countable Key} {TP : mm_params Key Value}.
Context {HH : StdHeap (entry Key) expiry_ns}.
Abbreviation mm := (mm_lru (Key := Key) (Value := Value)).
Abbreviation MM := (M (Key := Key) (Value := Value)).
Implicit Types (s : mm) (p : loc) (k : Key) (v : Value).

(** A handle together with the value it shows. *)
Definition read_handle (h : ptr) : MM (mm_res Key Value) :=
  match h with
  | Some p => '(_, v) ← deref p; mret (RHandle (Some (p, v)))
  | None => mret (RHandle None)
  end.

Definition run_op (e : env) (o : mm_op Key Value) : MM (mm_res Key Value) :=
  match o with
  | Set_ k v => set e k v;; mret RUnit
  | SetWithExpiry k v x => set_with_expiry e k v x;; mret RUnit
  | Add k v => b ← add e k v; mret (RBool b)
  | Replace k v => b ← replace e k v; mret (RBool b)
  | Get k => h ← get e k; read_handle h
  | Peek k => h ← peek k; read_handle h
  | PeekForGet k => h ← peek_for_get e k; read_handle h
  | Release p => release p;; mret RUnit
  | Promote k => b ← promote e k; mret (RBool b)
  | Del k => b ← del k; mret (RBool b)
  | ForceDel k => b ← force_del k; mret (RBool b)
  | Pop k => v ← pop k; mret (RValue v)
  | PopLru => kv ← pop_lru; mret (RPair kv)
  | Flush => flush;; mret RUnit
  | Contains k => b ← contains e k; mret (RBool b)
  | MaxSize n => max_size n;; mret RUnit
  | MaxMemory n => max_memory n;; mret RUnit
  | ShrinkToFit => shrink_to_fit;; mret RUnit
  | EvictLru => evict_lru;; mret RUnit
  | EvictExpired n => n ← mm_evict_expired_n e n; mret (RCount n)
  | SetConfig c => set_config e c;; mret RUnit
  end.

Fixpoint run (tr : list (env * mm_op Key Value)) : MM (list (mm_res Key Value)) :=
  match tr with
  | [] => mret []
  | (e, o) :: tr => r ← run_op e o; rs ← run tr; mret (r :: rs)
  end.

(** What a caller owes: a release matches a handle, an item has fewer than
    2^32 - 1 handles, the items fit in the address space, a popped key
    survives the move, a flush with an insertion point has nothing pinned,
    and a new configuration is valid. *)
Definition op_ok (s : mm) (o : mm_op Key Value) : Prop :=
  match o with
  | Set_ _ _ | SetWithExpiry _ _ _ | Add _ _ => size s + 1 < 2 ^ 64
  | Get k | Peek k | PeekForGet k => match map_ s !! k with Some p => access_ref (ref_word s p) < kAccessRefMax | None => True end
  | Release p => 0 < access_ref (ref_word s p)
  | PopLru => forall k, moved_key k = k
  | Flush => flushable s (linked_items s)
  | MaxSize n | MaxMemory n => 0 <= n < 2 ^ 64
  | EvictExpired n => 0 <= n
  | SetConfig c => validate c = true /\ 0 <= lru_insertion_point_spec c
  | _ => True
  end.

(** No update of an existing key evicts its own item. *)
Definition op_fits (s : mm) (o : mm_op Key Value) : Prop :=
  match o with
  | Set_ k v | SetWithExpiry k v _ | Replace k v =>
      forall p old, map_ s !! k = Some p -> heap_ s !! p = Some (k, old) -> update_fits p k old v s
  | _ => True
  end.

(** * The lossy map *)

Definition contents (s : mm) : gmap Key Value := omap (fun p => snd <$> heap_ s !! p) (map_ s).

(** The entries with the time they expire at, 0 for never. *)
Definition timed (s : mm) : gmap Key (Value * Z) :=
  omap (fun p => (fun kv : Key * Value => (kv.2, expiry_of s p)) <$> heap_ s !! p) (map_ s).

Definition deadline (m : gmap Key (Value * Z)) (k : Key) : Z := default 0 (snd <$> m !! k).

(** What a reader may see at the time of the call: an expired entry is absent,
    swept or not. *)
Definition visible (e : env) (m : gmap Key (Value * Z)) (k : Key) : option Value :=
  '(v, x) ← m !! k; if (x =? 0) || (now_ns e <? x) then Some v else None.

(** [get] and [peek] are bound only where an entry is absent or not expired: a
    handle shows the stored value, and a visible entry is found. *)
Definition lossy_step (e : env) (o : mm_op Key Value) (r : mm_res Key Value) (m m' : gmap Key (Value * Z)) : Prop :=
  match o, r with
  | Set_ k v, RUnit => m' ⊆ <[k := (v, deadline m k)]> m
  | SetWithExpiry k v x, RUnit => m' ⊆ <[k := (v, x)]> m
  | Add k v, RBool true => m !! k = None /\ m' ⊆ <[k := (v, 0)]> m
  | Add k v, RBool false => is_Some (m !! k) /\ m' = m
  | Replace k v, RBool true => is_Some (m !! k) /\ m' ⊆ <[k := (v, deadline m k)]> m
  | Replace k v, RBool false => m !! k = None /\ m' = m
  | Get k, RHandle h | Peek k, RHandle h =>
      (forall v, snd <$> h = Some v -> fst <$> m !! k = Some v) /\ (forall v, visible e m k = Some v -> snd <$> h = Some v) /\ m' = m
  | PeekForGet k, RHandle h => snd <$> h = visible e m k /\ m' = m
  | Contains k, RBool b => b = bool_decide (is_Some (visible e m k)) /\ m' = m
  | Del k, RBool true | ForceDel k, RBool true => is_Some (m !! k) /\ m' = delete k m
  | Pop k, RValue (Some v) | PopLru, RPair (Some (k, v)) => fst <$> m !! k = Some v /\ m' = delete k m
  | Promote k, RBool true => is_Some (m !! k) /\ m' = m
  | Flush, RUnit | MaxSize _, RUnit | MaxMemory _, RUnit | ShrinkToFit, RUnit | EvictLru, RUnit | EvictExpired _, RCount _ => m' ⊆ m
  | Release _, RUnit | SetConfig _, RUnit | Del _, RBool false | ForceDel _, RBool false
  | Promote _, RBool false | Pop _, RValue None | PopLru, RPair None => m' = m
  | _, _ => False
  end.

(** The key whose value a call may write. *)
Definition written (o : mm_op Key Value) : option Key :=
  match o with Set_ k _ | SetWithExpiry k _ _ | Replace k _ => Some k | _ => None end.

(** How many handles on [p] a call makes or drops. *)
Definition handle_delta (o : mm_op Key Value) (r : mm_res Key Value) (p : loc) : Z :=
  match o, r with
  | Get _, RHandle (Some (q, _)) | Peek _, RHandle (Some (q, _)) | PeekForGet _, RHandle (Some (q, _)) => if decide (p = q) then 1 else 0
  | Release q, _ => if decide (p = q) then -1 else 0
  | _, _ => 0
  end.

(** An item someone holds keeps its key and, unless its key is written, its
    value. *)
Definition handles_stable (w : option Key) (s s' : mm) : Prop :=
  forall p k v, heap_ s !! p = Some (k, v) -> 0 < access_ref (ref_word s p) ->
    heap_ s' !! p = Some (k, v) \/ (w = Some k /\ exists v', heap_ s' !! p = Some (k, v')).

Definition full_inv (s : mm) : Prop := inv s /\ bounded s /\ indexed s.

Record step_post (e : env) (o : mm_op Key Value) (s : mm) (r : mm_res Key Value) (s' : mm) : Prop := {
  st_inv : full_inv s';
  st_map : lossy_step e o r (timed s) (timed s');
  st_stable : handles_stable (written o) s s';
  st_handles : forall p, access_ref (ref_word s' p) = access_ref (ref_word s p) + handle_delta o r p;
  st_size : (forall n, o <> MaxSize n) -> max_size_ s' = max_size_ s /\ (within_size s -> within_size s');
  st_stale : op_fits s o -> stale_uses_ s' = stale_uses_ s
}.

(** * Contents *)

Lemma contents_lookup s k v : inv s ->
  contents s !! k = Some v <-> exists p, map_ s !! k = Some p /\ heap_ s !! p = Some (k, v).
Proof.
  intros Hi. unfold contents. rewrite lookup_omap, bind_Some. split; intros (p & Hm & Hh); exists p; (split; [done|]).
  - destruct (iv_map _ Hi _ _ Hm) as (_ & v' & E). rewrite E in Hh |- *. simpl in Hh. congruence.
  - by rewrite Hh.
Qed.

Lemma contents_some s k p : inv s -> map_ s !! k = Some p -> is_Some (contents s !! k).
Proof. intros Hi Hm. destruct (iv_map _ Hi _ _ Hm) as (_ & v & Hh). exists v. apply contents_lookup; eauto. Qed.

Lemma contents_added s s' p k v x : inv s -> map_ s !! k = None -> added p k v x s s' -> contents s' = <[k := v]> (contents s).
Proof.
  intros Hi Hm A. destruct (ad_fresh _ _ _ _ _ _ A) as [-> _].
  destruct (iv_fresh _ Hi (brk_ s)) as (Hf & _); [lia|]. apply map_eq. intros k'. unfold contents.
  rewrite (ad_map _ _ _ _ _ _ A), (ad_heap _ _ _ _ _ _ A), lookup_omap, !lookup_insert. case_decide as E.
  - cbn [mbind option_bind]. by rewrite lookup_insert_eq.
  - rewrite lookup_omap. destruct (map_ s !! k') as [q|] eqn:Eq; [|done]. cbn [mbind option_bind].
    rewrite lookup_insert_ne; [done|]. intros <-. destruct (iv_map _ Hi _ _ Eq) as (_ & ? & ?). congruence.
Qed.

Lemma timed_lookup s k v x : inv s ->
  timed s !! k = Some (v, x) <-> exists p, map_ s !! k = Some p /\ heap_ s !! p = Some (k, v) /\ expiry_of s p = x.
Proof.
  intros Hi. unfold timed. rewrite lookup_omap, bind_Some. split.
  - intros (p & Hm & (kv & Hh & E)%fmap_Some). exists p. destruct (iv_map _ Hi _ _ Hm) as (_ & v' & E'). split; [done|].
    rewrite E' in Hh |- *. injection Hh as <-. injection E as -> ->. done.
  - intros (p & Hm & Hh & <-). exists p. split; [done|]. by rewrite Hh.
Qed.

Lemma timed_at s k p v : inv s -> map_ s !! k = Some p -> heap_ s !! p = Some (k, v) -> timed s !! k = Some (v, expiry_of s p).
Proof. intros Hi Hm Hh. apply timed_lookup; eauto. Qed.

Lemma timed_some s k p : inv s -> map_ s !! k = Some p -> is_Some (timed s !! k).
Proof. intros Hi Hm. destruct (iv_map _ Hi _ _ Hm) as (_ & v & Hh). eexists. by apply (timed_at s k p v). Qed.

Lemma timed_none s k : map_ s !! k = None -> timed s !! k = None.
Proof. intros Hm. unfold timed. by rewrite lookup_omap, Hm. Qed.

Lemma timed_keeps s s' : inv s -> inv s' -> keeps s s' -> timed s' ⊆ timed s.
Proof.
  intros Hi Hi' Hk. apply map_subseteq_spec. intros k [v x]. rewrite !timed_lookup by done.
  intros (p & Hm & Hh & Hx). exists p. split; [by eapply keeps_map|]. destruct (iv_map _ Hi' _ _ Hm) as [Hp _].
  rewrite <- (linked_heap s s') by done. split; [done|]. rewrite <- Hx. unfold expiry_of. by rewrite (kp_expiry _ _ Hk).
Qed.

Lemma timed_same s s' : inv s -> inv s' -> keeps s s' -> map_ s' = map_ s -> timed s' = timed s.
Proof.
  intros Hi Hi' Hk Hm. apply (anti_symm (⊆)); [by apply timed_keeps|]. apply map_subseteq_spec. intros k [v x].
  rewrite !timed_lookup, Hm by done. intros (p & Hp & Hh & Hx). exists p. split; [done|].
  assert (p ∈ linked_items s') as Hl by (apply (iv_map _ Hi' k); by rewrite Hm). rewrite (linked_heap s s') by done. split; [done|].
  unfold expiry_of in *. by rewrite (kp_expiry _ _ Hk).
Qed.

Lemma timed_removed s s' p k v : inv s -> map_ s !! k = Some p -> heap_ s !! p = Some (k, v) -> removed p k v s s' ->
  fst <$> timed s !! k = Some v /\ timed s' = delete k (timed s).
Proof.
  intros Hi Hm Hh R. pose proof (inv_removed _ _ _ _ _ Hi Hm Hh R) as Hi'. split; [by rewrite (timed_at s k p v)|].
  assert (forall q, expiry_of s' q = expiry_of s q) as Hx by (intros q; unfold expiry_of; by rewrite (rm_expiry _ _ _ _ _ R)).
  apply map_eq. intros k'. apply option_eq. intros [v' x']. rewrite lookup_delete_Some, !timed_lookup by done.
  rewrite (rm_map _ _ _ _ _ R). setoid_rewrite lookup_delete_Some. setoid_rewrite Hx. split.
  - intros (q & (Hk & Hq) & Hh' & Hx'). split; [done|]. exists q. split; [done|]. split; [|done]. rewrite <- (rm_heap _ _ _ _ _ R); [done|]. intros ->.
    destruct (iv_map _ Hi _ _ Hq) as (_ & ? & ?). congruence.
  - intros (Hk & q & Hq & Hh' & Hx'). exists q. split; [done|]. split; [|done]. rewrite (rm_heap _ _ _ _ _ R); [done|]. congruence.
Qed.

Lemma timed_added s s' p k v x : inv s -> map_ s !! k = None -> added p k v x s s' -> timed s' = <[k := (v, x)]> (timed s).
Proof.
  intros Hi Hm A. pose proof (ad_map _ _ _ _ _ _ A) as Am. destruct (ad_fresh _ _ _ _ _ _ A) as [-> _].
  destruct (iv_fresh _ Hi (brk_ s)) as (Hf & _ & Hfx & _); [lia|]. apply map_eq. intros k'. unfold timed, expiry_of.
  rewrite Am, (ad_heap _ _ _ _ _ _ A), (ad_expiry _ _ _ _ _ _ A), lookup_omap, !lookup_insert. case_decide as E.
  - cbn [mbind option_bind]. rewrite lookup_insert_eq. cbn. destruct (x =? 0) eqn:Ex; bool_to_Z; [subst x; by rewrite Hfx|by rewrite lookup_insert_eq].
  - rewrite lookup_omap. destruct (map_ s !! k') as [q|] eqn:Eq; [|done]. cbn [mbind option_bind].
    assert (brk_ s <> q) as Hq by (intros <-; destruct (iv_map _ Hi _ _ Eq) as (_ & ? & ?); congruence).
    rewrite lookup_insert_ne by done. destruct (x =? 0); [done|]. by rewrite lookup_insert_ne.
Qed.

Lemma timed_revalued s p k old v st : inv s -> map_ s !! k = Some p -> heap_ s !! p = Some (k, old) ->
  timed (revalued p k v st s) = <[k := (v, deadline (timed s) k)]> (timed s).
Proof.
  intros Hi Hm Hh. unfold deadline. rewrite (timed_at s k p old) by done. cbn [fmap option_fmap option_map default from_option snd id].
  apply map_eq. intros k'. unfold timed, revalued. cbn [map_ heap_ set_stats set_heap].
  rewrite lookup_omap, lookup_insert, lookup_omap. case_decide as E.
  - subst k'. rewrite Hm. cbn [mbind option_bind]. by rewrite lookup_insert_eq.
  - destruct (map_ s !! k') as [q|] eqn:Eq; [|done]. cbn [mbind option_bind]. rewrite lookup_insert_ne; [done|]. intros <-.
    destruct (iv_map _ Hi _ _ Eq) as (_ & ? & ?). congruence.
Qed.

(** * Effects *)

(** Everything but the timed and the result. *)
Record effect (w : option Key) (s s' : mm) : Prop := {
  ef_inv : full_inv s';
  ef_stable : handles_stable w s s';
  ef_access : forall p, access_ref (ref_word s' p) = access_ref (ref_word s p);
  ef_size : max_size_ s' = max_size_ s /\ (within_size s -> within_size s');
  ef_stale : w = None -> stale_uses_ s' = stale_uses_ s
}.

Lemma effect_refl w s : full_inv s -> effect w s s.
Proof. intros Hi. split; [done| |done|done|done]. intros p k v Hh _. by left. Qed.

Lemma effect_trans w1 w2 w s1 s2 s3 : w1 = None \/ w1 = w -> w2 = None \/ w2 = w ->
  effect w1 s1 s2 -> effect w2 s2 s3 -> effect w s1 s3.
Proof.
  intros W1 W2 [A1 A2 A3 [A4 A5] A6] [B1 B2 B3 [B4 B5] B6]. split; [done| |congruence|split; [congruence|auto]|].
  2:{ intros ->. rewrite B6, A6; [done|by destruct W1|by destruct W2]. }
  intros p k v Hh Ha. assert (0 < access_ref (ref_word s2 p)) as Ha2 by (by rewrite A3).
  destruct (A2 p k v Hh Ha) as [Hh2|(E1 & v2 & Hh2)]; destruct (B2 p k _ Hh2 Ha2) as [?|(E2 & v3 & ?)]; [by left|right|right..].
  - split; [|eauto]. destruct W2; congruence.
  - split; [|eauto]. destruct W1; congruence.
  - split; [|eauto]. destruct W1; congruence.
Qed.

Lemma keeps_effect w s s' : full_inv s -> inv s' -> keeps s s' -> effect w s s'.
Proof.
  intros (Hi & Hb & Hx) Hi' Hk. pose proof (kp_params _ _ Hk) as Hp. split.
  - split; [done|]. split; [|by eapply indexed_keeps]. unfold bounded in *.
    by replace (max_size_ s') with (max_size_ s) by congruence; replace (max_memory_ s') with (max_memory_ s) by congruence.
  - intros p k v Hh Ha. left. destruct (kp_heap _ _ Hk p) as [->|[E _]]; [done|lia].
  - apply (kp_access _ _ Hk).
  - split; [congruence|]. unfold within_size. replace (max_size_ s') with (max_size_ s) by congruence. pose proof (kp_size _ _ Hk). intros [?|?]; [by left|right; lia].
  - congruence.
Qed.

Lemma removed_effect s s' p k v : full_inv s -> map_ s !! k = Some p -> p ∈ linked_items s -> heap_ s !! p = Some (k, v) ->
  removed p k v s s' -> effect None s s'.
Proof.
  intros Hf Hm Hp Hh R. pose proof Hf as (Hi & Hb & Hx). pose proof (inv_removed _ _ _ _ _ Hi Hm Hh R) as Hi'.
  destruct (decide (access_ref (ref_word s p) = 0)) as [Ha|Ha].
  { apply keeps_effect; [done|done|]. by eapply removed_keeps. }
  pose proof (rm_params _ _ _ _ _ R) as Hpar. split.
  - split; [done|]. split.
    + unfold bounded in *. by replace (max_size_ s') with (max_size_ s) by congruence; replace (max_memory_ s') with (max_memory_ s) by congruence.
    + eapply indexed_mono; [done..|apply (rm_index _ _ _ _ _ R)|]. intros k' q. rewrite (rm_map _ _ _ _ _ R).
      intros [_ Hq]%lookup_delete_Some. split; [done|]. unfold expiry_of. by rewrite (rm_expiry _ _ _ _ _ R).
  - intros q k' v' Hh' Ha'. left. destruct (decide (q = p)) as [->|]; [|by rewrite (rm_heap _ _ _ _ _ R)].
    destruct (rm_where _ _ _ _ _ R) as [(? & _)|(-> & _)]; [lia|done].
  - intros q. destruct (decide (q = p)) as [->|]; [by apply (rm_word _ _ _ _ _ R)|]. unfold ref_word. by rewrite (rm_words _ _ _ _ _ R).
  - split; [congruence|]. unfold within_size. replace (max_size_ s') with (max_size_ s) by congruence. intros [?|Hs]; [by left|right].
    unfold size, list_size in *. fold (linked_items s) in Hs. fold (linked_items s'). rewrite (rm_items _ _ _ _ _ R).
    pose proof (without_length p _ (inv_nodup s Hi) Hp). lia.
  - congruence.
Qed.

Lemma gone_effect s s' p k v : full_inv s -> gone s s' p k v ->
  effect None s s' /\ fst <$> timed s !! k = Some v /\ timed s' = delete k (timed s).
Proof.
  intros Hf (s1 & Hk & Hs & Hi1 & Hm & Hp & Hh & R). pose proof (keeps_effect None s s1 Hf Hi1 Hk) as E1.
  destruct (timed_removed _ _ _ _ _ Hi1 Hm Hh R) as [Hc1 Hc2].
  assert (timed s1 = timed s) as Hc.
  { apply timed_same; [apply Hf|done|done|]. unfold same_list in Hs. congruence. }
  rewrite Hc in Hc1, Hc2. split; [|done]. eapply effect_trans; [by left|by left|exact E1|].
  apply (removed_effect _ _ p k v); try done. apply (ef_inv _ _ _ E1).
Qed.

Lemma added_effect s s' p k v x : full_inv s -> map_ s !! k = None -> added p k v x s s' ->
  max_size_ s = unlimited \/ size s < max_size_ s -> effect None s s'.
Proof.
  intros (Hi & Hb & Hx) Hm A Hsz. pose proof (inv_added _ _ _ _ _ _ Hi Hm A) as Hi'. pose proof (ad_params _ _ _ _ _ _ A) as Hpar.
  destruct (ad_fresh _ _ _ _ _ _ A) as [Hp _]. destruct (iv_fresh _ Hi (brk_ s)) as (Hf & _ & Hfx & _); [lia|]. rewrite <- Hp in Hf, Hfx.
  assert (forall k' q, k' <> k -> map_ s' !! k' = Some q -> map_ s !! k' = Some q /\ expiry_of s' q = expiry_of s q) as Hold.
  { intros k' q Hk'. rewrite (ad_map _ _ _ _ _ _ A), lookup_insert_ne by done. intros Hq. split; [done|].
    assert (q <> p) as Hqp by (intros ->; destruct (iv_map _ Hi _ _ Hq) as (_ & ? & ?); congruence).
    unfold expiry_of. rewrite (ad_expiry _ _ _ _ _ _ A). destruct (x =? 0); [done|]. by rewrite lookup_insert_ne. }
  assert (forall q, map_ s' !! k = Some q -> expiry_of s' q = x) as Hnew.
  { intros q. rewrite (ad_map _ _ _ _ _ _ A), lookup_insert_eq. intros [= <-]. unfold expiry_of. rewrite (ad_expiry _ _ _ _ _ _ A).
    destruct (x =? 0) eqn:E; bool_to_Z; [by rewrite Hfx|by rewrite lookup_insert_eq]. }
  split.
  - split; [done|]. split.
    + unfold bounded in *. by replace (max_size_ s') with (max_size_ s) by congruence; replace (max_memory_ s') with (max_memory_ s) by congruence.
    + pose proof Hx as [_ X2 X3 X4]. pose proof (ad_index _ _ _ _ _ _ A) as Hix.
      assert (forall k' x' b, k' <> k -> live_of s' !! k' = Some (x', b) -> x' <> 0 -> Entry x' k' ∈ TtlHeap.heap_ (index_ s)) as Hc.
      { intros k' x' b Hk' (q & Hq & Hqx & _)%live_of_lookup Hx'. destruct (Hold _ _ Hk' Hq) as [Hq' E].
        apply (X4 k' x' (has_active_handle s q)); [|done]. apply live_of_lookup. exists q. split_and!; congruence. }
      destruct (x =? 0) eqn:E; bool_to_Z.
      * unfold indexed. rewrite Hix. split; [done..|]. intros k' x' b Hl Hx'. destruct (decide (k' = k)) as [->|]; [|by eapply Hc].
        apply live_of_lookup in Hl as (q & Hq & Hqx & _). rewrite (Hnew _ Hq) in Hqx. congruence.
      * assert (indexed (ttl_heap_push k x (set_index (index_ s) s'))) as [_ J2 J3 J4].
        { apply push_indexed; try done. destruct Hi' as [I1 I2 I3 I4 I5 I6 I7 I8 I9 I10 I11 I12 I13]. by split. }
        unfold indexed. rewrite Hix. by split.
  - intros q k' v' Hh' _. left. rewrite (ad_heap _ _ _ _ _ _ A), lookup_insert_ne; [done|]. congruence.
  - intros q. by apply (added_access p k v x).
  - split; [congruence|]. intros _. unfold within_size. replace (max_size_ s') with (max_size_ s) by congruence. destruct Hsz as [?|Hsz]; [by left|right].
    destruct (ad_items _ _ _ _ _ _ A) as (l1 & l2 & E & E' & _). unfold size, list_size in *. fold (linked_items s) in Hsz. fold (linked_items s').
    rewrite E in Hsz. rewrite E'. rewrite length_app in *. cbn [length]. lia.
  - congruence.
Qed.

Lemma insert_effect k v x s s' : full_inv s -> map_ s !! k = None -> insert_outcome k v x s s' ->
  effect None s s' /\ timed s' ⊆ <[k := (v, x)]> (timed s).
Proof.
  intros Hf Hm [(Hi' & Hk & _)|(s1 & p & Hi1 & Hk & Hsz & Hm1 & A)].
  - split; [by apply keeps_effect|]. etrans; [apply (timed_keeps s s'); try done; apply Hf|]. apply insert_subseteq, timed_none, Hm.
  - pose proof (keeps_effect None s s1 Hf Hi1 Hk) as E1. pose proof (kp_params _ _ Hk) as Hpar. split.
    + eapply effect_trans; [by left|by left|exact E1|]. apply (added_effect _ _ p k v x); try done; [apply (ef_inv _ _ _ E1)|].
      by replace (max_size_ s1) with (max_size_ s) by congruence.
    + rewrite (timed_added s1 s' p k v x) by done. apply insert_mono, timed_keeps; [apply Hf|done..].
Qed.

Lemma map_inj s k k' p : inv s -> map_ s !! k = Some p -> map_ s !! k' = Some p -> k = k'.
Proof. intros Hi H1 H2. destruct (iv_map _ Hi _ _ H1) as (_ & ? & ?), (iv_map _ Hi _ _ H2) as (_ & ? & ?). congruence. Qed.

Lemma revalued_effect p k old v st s : full_inv s -> map_ s !! k = Some p -> heap_ s !! p = Some (k, old) ->
  inv (revalued p k v st s) -> effect (Some k) s (revalued p k v st s).
Proof.
  intros (Hi & Hb & Hx) Hm Hh Hi'. split.
  - split; [done|]. split; [done|]. by eapply indexed_mono.
  - intros q k' v' Hq _. destruct (decide (q = p)) as [->|Hne].
    + assert (k' = k) as -> by congruence. right. split; [done|]. exists v. by apply lookup_insert_eq.
    + left. cbn [heap_ revalued set_stats set_heap]. by rewrite lookup_insert_ne.
  - done.
  - done.
  - done.
Qed.

Lemma reordered_effect w s s' : full_inv s -> inv s' -> reordered s s' -> effect w s s' /\ timed s' = timed s.
Proof.
  intros Hf Hi' (Hk & _ & Hm & _). split; [by apply keeps_effect|]. apply timed_same; [apply Hf|done..].
Qed.

(** The record of stale uses is of no account to the other members. *)
Lemma effect_stale k l s s' : effect (Some k) s s' -> effect (Some k) s (set_stale_uses l s').
Proof.
  intros [(A1 & A2 & A3) B C D _]. split; [|done|done|done|done]. split; [by apply inv_stale|]. split; [done|].
  eapply indexed_mono; [exact A3|by apply inv_stale|done|]. intros k' p Hp. done.
Qed.

Lemma update_effect p k old v s s' : full_inv s -> map_ s !! k = Some p -> heap_ s !! p = Some (k, old) -> update_outcome p k old v s s' ->
  effect (Some k) s s' /\ timed s' ⊆ <[k := (v, deadline (timed s) k)]> (timed s).
Proof.
  intros Hf Hm Hh (Hi' & (st & s1 & r & Hiu & Ht & Hk) & _). destruct (iv_map _ (proj1 Hf) _ _ Hm) as [Hp _].
  pose proof (revalued_effect p k old v st s Hf Hm Hh Hiu) as E0.
  destruct (touch_reordered p _ _ r Hiu Hp Ht) as (Hi1 & Hr & _).
  destruct (reordered_effect None _ _ (ef_inv _ _ _ E0) Hi1 Hr) as [E1 C1]. set (s2 := set_stale_uses (stale_uses_ s1) s').
  assert (inv s2) as Hi2 by (by apply inv_stale).
  pose proof (keeps_effect None s1 s2 (ef_inv _ _ _ E1) Hi2 Hk) as E2. split.
  - assert (effect (Some k) s s2) as E3.
    { eapply effect_trans; [by right|by left|exact E0|]. eapply effect_trans; [by left|by left|exact E1|exact E2]. }
    apply (effect_stale k (stale_uses_ s')) in E3. by destruct s'.
  - rewrite <- (timed_revalued s p k old v st) by (done || apply Hf). rewrite <- C1. by apply (timed_keeps s1 s2).
Qed.

Lemma update_stale p k old v s s' : update_outcome p k old v s s' -> update_fits p k old v s -> stale_uses_ s' = stale_uses_ s /\ p ∉ retired_ s'.
Proof. intros (_ & _ & [->|[Hr _]] & Hn) Hfit; specialize (Hn Hfit); done. Qed.

(** A fresh expiry for an item that answers to no other key. *)
Lemma expire_effect p k x s : full_inv s -> is_Some (heap_ s !! p) -> (forall q, map_ s !! k = Some q -> q = p) ->
  (forall k', map_ s !! k' = Some p -> k' = k) ->
  let s1 := set_expiry (<[p := x]> (expiry_ s)) s in
  let s2 := if x =? 0 then s1 else ttl_heap_push k x s1 in
  effect None s s2 /\ forall k', timed s2 !! k' = if decide (k' = k) then (fun vx => (vx.1, x)) <$> timed s !! k else timed s !! k'.
Proof.
  intros (Hi & Hb & Hx) Ha Hk1 Hk2 s1 s2.
  assert (inv s1) as Hi1.
  { destruct Hi as [I1 I2 I3 I4 I5 I6 I7 I8 I9 I10 I11 I12 I13]. split; try done.
    intros r Hr. destruct (I7 r Hr) as (? & ? & ? & ?). split_and!; try done. unfold s1. cbn [expiry_ set_expiry].
    rewrite lookup_insert_ne; [done|]. intros ->. destruct Ha. congruence. }
  assert (forall k' q, k' <> k -> map_ s !! k' = Some q -> expiry_of s1 q = expiry_of s q) as Hold.
  { intros k' q Hk' Hq. unfold expiry_of, s1. cbn [expiry_ set_expiry]. rewrite lookup_insert_ne; [done|]. intros <-. by apply Hk', Hk2. }
  assert (forall q, map_ s !! k = Some q -> expiry_of s1 q = x) as Hnew.
  { intros q ->%Hk1. unfold expiry_of, s1. cbn [expiry_ set_expiry]. by rewrite lookup_insert_eq. }
  pose proof Hx as [_ X2 X3 X4].
  assert (forall k' x' b, k' <> k -> live_of s1 !! k' = Some (x', b) -> x' <> 0 -> Entry x' k' ∈ TtlHeap.heap_ (index_ s)) as Hc.
  { intros k' x' b Hk' (q & Hq & Hqx & _)%live_of_lookup Hx'. apply (X4 k' x' (has_active_handle s q)); [|done].
    apply live_of_lookup. exists q. rewrite <- (Hold k' q) by done. done. }
  assert (indexed s2) as Hx2.
  { unfold s2. destruct (x =? 0) eqn:E; bool_to_Z; [|by apply push_indexed].
    split; [done..|]. intros k' x' b Hl Hx'. destruct (decide (k' = k)) as [->|]; [|by eapply Hc].
    apply live_of_lookup in Hl as (q & Hq & Hqx & _). rewrite (Hnew _ Hq) in Hqx. congruence. }
  assert (inv s2) as Hi2 by apply Hx2. split.
  { unfold s2 in *. destruct (x =? 0); (split; [done| |done|done|done]); intros q k' v' Hq _; by left. }
  assert (timed s2 = timed s1) as -> by (unfold s2; by destruct (x =? 0)).
  intros k'. unfold timed. cbn [map_ heap_ set_expiry s1]. rewrite !lookup_omap. case_decide as E.
  - subst k'. destruct (map_ s !! k) as [q|] eqn:Eq; [|done]. cbn [mbind option_bind]. rewrite (Hnew q eq_refl). by destruct (heap_ s !! q).
  - destruct (map_ s !! k') as [q|] eqn:Eq; [|done]. cbn [mbind option_bind]. by rewrite (Hold k' q E Eq).
Qed.

(** * Handles *)

Lemma alloc_below p kv s : inv s -> heap_ s !! p = Some kv -> (p < brk_ s)%positive.
Proof.
  intros Hi Hh. destruct (decide (p < brk_ s)%positive) as [|Hge]; [done|].
  destruct (iv_fresh _ Hi p) as (? & _); [lia|]. congruence.
Qed.

Lemma inv_set_word p w s : inv s -> linked_word (bool_decide (p ∈ linked_items s)) w -> (p < brk_ s)%positive ->
  (p ∈ retired_ s -> access_ref w = 0) -> inv (set_refcount (<[p := w]> (refcount_ s)) s).
Proof.
  intros [I1 I2 I3 I4 I5 I6 I7 I8 I9 I10 I11 I12 I13] Hw Ha Hr. set (s' := set_refcount _ s).
  assert (ref_word s' p = w) as Hp by (unfold ref_word, s'; cbn [refcount_ set_refcount]; by rewrite lookup_insert_eq).
  assert (forall q, q <> p -> refcount_ s' !! q = refcount_ s !! q) as Hne by (intros q Hq; by apply lookup_insert_ne).
  split; try done.
  - intros q. destruct (decide (q = p)) as [->|Hq]; [by rewrite Hp|]. unfold ref_word. rewrite Hne by done. apply I5.
  - intros q Hq. change (brk_ s <= q)%positive in Hq. destruct (I7 q Hq) as (? & ? & ? & ?). rewrite Hne; [done|]. intros ->. lia.
  - intros q Hq. destruct (I10 q Hq) as (? & ? & ? & ?). split_and!; try done. destruct (decide (q = p)) as [->|Hqp].
    + rewrite Hp. by apply Hr.
    + unfold ref_word. by rewrite Hne.
Qed.

Lemma word_effect p w s : full_inv s -> inv (set_refcount (<[p := w]> (refcount_ s)) s) ->
  let s' := set_refcount (<[p := w]> (refcount_ s)) s in
  full_inv s' /\ handles_stable None s s' /\ (max_size_ s' = max_size_ s /\ (within_size s -> within_size s')) /\ timed s' = timed s /\ stale_uses_ s' = stale_uses_ s /\
  forall q, access_ref (ref_word s' q) = if decide (q = p) then access_ref w else access_ref (ref_word s q).
Proof.
  intros (Hi & Hb & Hx) Hi' s'. split_and!; try done.
  - split; [done|]. split; [done|]. by eapply indexed_mono.
  - intros q k v Hq _. by left.
  - intros q. unfold ref_word, s'. cbn [refcount_ set_refcount]. rewrite lookup_insert. destruct (decide (p = q)) as [->|]; [by rewrite decide_True|].
    by rewrite decide_False by congruence.
Qed.

(** What a lookup that pins ends with. *)
Lemma wp_pin p k v s : full_inv s -> map_ s !! k = Some p -> heap_ s !! p = Some (k, v) -> access_ref (ref_word s p) < kAccessRefMax ->
  wp (h ← make_handle p; read_handle h) (fun r s' => r = RHandle (Some (p, v)) /\ full_inv s' /\ handles_stable None s s' /\
    (max_size_ s' = max_size_ s /\ (within_size s -> within_size s')) /\ timed s' = timed s /\ stale_uses_ s' = stale_uses_ s /\
    forall q, access_ref (ref_word s' q) = access_ref (ref_word s q) + if decide (q = p) then 1 else 0) s.
Proof.
  intros Hf Hm Hh Hlt. destruct (iv_map _ (proj1 Hf) _ _ Hm) as [Hp _]. pose proof (word_linked s p (proj1 Hf) Hp) as Hw.
  destruct (inc_word _ Hw) as [(_ & Hr & Hw' & Ha)|[E _]]; [|lia]. unfold make_handle. wp_run. rewrite Hr. wp_run. cbn [read_handle].
  wp_run. rewrite (wp_deref _ (k, v)) by (done || by apply (linked_live s); [apply Hf|]). wp_run. split; [done|].
  destruct (word_effect p (atomic IncRef (ref_word s p)).2 s Hf) as (A & B & C & D & D' & E).
  { apply inv_set_word; [apply Hf|by rewrite bool_decide_true|by eapply alloc_below, Hh; apply Hf|]. intros Hx. by apply (iv_retired _ (proj1 Hf)) in Hx as [? _]. }
  split; [done|]. split; [done|]. split; [done|]. split; [done|]. split; [done|]. intros q. rewrite E. destruct (decide (q = p)) as [->|]; lia.
Qed.

(** * Each call *)

(** A call that writes no value. *)
Lemma effect_post e o r s s' : written o = None -> effect (written o) s s' -> (forall p, handle_delta o r p = 0) ->
  lossy_step e o r (timed s) (timed s') -> step_post e o s r s'.
Proof.
  intros Hw [E1 E2 E3 E4 E5] Hd Hl. split; [done|done|done| |auto|]; [intros p; rewrite E3, Hd; lia|]. intros _. by apply E5.
Qed.

Ltac read_post := apply effect_post; [exact eq_refl| | |].

(** Counters other than the two sizes, and reported events. *)
Definition noted (s s' : mm) : Prop :=
  exists st lg, s' = set_log lg (set_stats st s) /\ st current_size = stats_ s current_size /\
    st current_memory = stats_ s current_memory.

Lemma noted_refl s : noted s s.
Proof. exists (stats_ s), (log_ s). by destruct s. Qed.

Lemma noted_trans s1 s2 s3 : noted s1 s2 -> noted s2 s3 -> noted s1 s3.
Proof. intros (st1 & lg1 & -> & A1 & B1) (st2 & lg2 & -> & A2 & B2). exists st2, lg2. split; [done|]. cbn in *. split; congruence. Qed.

Lemma noted_stat c n s : c <> current_size -> c <> current_memory -> noted s (stat_add c n s).
Proof.
  intros H1 H2. exists (stats_ (stat_add c n s)), (log_ s). split; [by destruct s|]. mm_cbn. by rewrite !decide_False by congruence.
Qed.

Ltac noted_stats :=
  repeat match goal with |- noted _ (stat_add ?c ?n ?x) => apply (noted_trans _ x); [|by apply noted_stat] end; apply noted_refl.

Lemma noted_collect ev s : noted s (collect ev s).
Proof. destruct (collect_spec ev s) as [lg ->]. exists (stats_ s), lg. by destruct s. Qed.

Lemma noted_effect s s' : full_inv s -> noted s s' -> effect None s s' /\ timed s' = timed s.
Proof.
  intros Hf (st & lg & -> & A & B). assert (inv (set_log lg (set_stats st s))) as Hi'.
  { destruct (proj1 Hf) as [I1 I2 I3 I4 I5 I6 I7 I8 I9 I10 I11 I12 I13]. split; try done; [exact (eq_trans A I12)|exact (eq_trans B I13)]. }
  split; [|done]. apply keeps_effect; [done|done|]. split; try done; auto.
Qed.

(** What [get] and [peek] may return. *)
Definition seen (e : env) (k : Key) (h : option (loc * Value)) (m m' : gmap Key (Value * Z)) : Prop :=
  (forall v, snd <$> h = Some v -> fst <$> m !! k = Some v) /\ (forall v, visible e m k = Some v -> snd <$> h = Some v) /\ m' = m.

Lemma seen_absent e k m : m !! k = None -> seen e k None m m.
Proof. intros Hm. split; [done|]. split; [|done]. intros v. unfold visible. by rewrite Hm. Qed.

Lemma visible_at e s k p v : inv s -> map_ s !! k = Some p -> heap_ s !! p = Some (k, v) ->
  visible e (timed s) k = if (expiry_of s p =? 0) || (now_ns e <? expiry_of s p) then Some v else None.
Proof. intros Hi Hm Hh. unfold visible. by rewrite (timed_at s k p v). Qed.

Lemma seen_found e s k p v : inv s -> map_ s !! k = Some p -> heap_ s !! p = Some (k, v) -> seen e k (Some (p, v)) (timed s) (timed s).
Proof.
  intros Hi Hm Hh. split; [|split; [|done]]; intros v'.
  - intros [= <-]. by rewrite (timed_at s k p v).
  - rewrite (visible_at e s k p v) by done. destruct (_ || _); [|done]. by intros [= <-].
Qed.

Lemma step_get e k s : full_inv s -> op_ok s (Get k) -> wp (run_op e (Get k)) (step_post e (Get k) s) s.
Proof.
  intros Hf Hok. pose proof (find_spec s k (proj1 Hf)) as Hfd. cbn [run_op]. rewrite wp_bind. unfold get, find. wp_run.
  destruct (map_find s k) as [p|]; wp_run.
  - destruct Hfd as (Hm & Hp & v & Hh). eapply wp_mono; [apply wp_record_access; [apply Hf|done]|]. intros b s1 (Hi1 & Hr & _). wp_run.
    destruct (reordered_effect None s s1 Hf Hi1 Hr) as [E1 C1]. destruct Hr as (_ & Hl1 & Hm1 & Hh1 & Hrc1 & _).
    assert (p ∉ retired_ s1) as Hnr by (apply linked_live; [done|]; by rewrite Hl1).
    rewrite (wp_deref _ (k, v)) by (exact Hnr || exact (eq_trans (f_equal (.!! p) Hh1) Hh)). wp_run.
    set (s2 := collect (EvHit k v) (stat_add hits 1 s1)).
    assert (noted s1 s2) as Hn by (eapply noted_trans; [by apply (noted_stat hits 1 s1)|apply noted_collect]).
    destruct (noted_effect s1 s2 (ef_inv _ _ _ E1) Hn) as [E2 C2]. destruct Hn as (st & lg & Hs2 & _).
    rewrite <- (wp_bind (make_handle p) read_handle). eapply wp_mono.
    + apply (wp_pin p k v); [apply (ef_inv _ _ _ E2)|rewrite Hs2; cbn; congruence|rewrite Hs2; cbn; congruence|].
      rewrite (ef_access _ _ _ E2), (ef_access _ _ _ E1). cbn [op_ok] in Hok. by rewrite Hm in Hok.
    + intros r s' (-> & A & B & C & D & D' & E). pose proof (effect_trans None None None s s1 s2 ltac:(by left) ltac:(by left) E1 E2) as E12. split.
      * exact A.
      * rewrite D, C2, C1. apply (seen_found _ s k p v); [apply Hf|done..].
      * intros q k' v' Hq Ha. left. destruct (ef_stable _ _ _ E12 q k' v' Hq Ha) as [Hq2|[? _]]; [|done].
        destruct (B q k' v' Hq2) as [?|[? _]]; [by rewrite (ef_access _ _ _ E12)|done..].
      * intros q. rewrite E, (ef_access _ _ _ E12). done.
      * intros _. destruct C as [C0 C], (ef_size _ _ _ E12) as [C2' C3]. split; [congruence|auto].
      * intros _. rewrite D'. by apply (ef_stale _ _ _ E12).
  - cbn [read_handle]. wp_run. set (s2 := collect (EvMiss k) (stat_add misses 1 s)).
    assert (noted s s2) as Hn by (eapply noted_trans; [by apply (noted_stat misses 1 s)|apply noted_collect]).
    destruct (noted_effect s s2 Hf Hn) as [E2 C2]. read_post; [done|done|]. rewrite C2. by apply seen_absent, timed_none.
Qed.

Lemma step_peek e k s : full_inv s -> op_ok s (Peek k) -> wp (run_op e (Peek k)) (step_post e (Peek k) s) s.
Proof.
  intros Hf Hok. pose proof (find_spec s k (proj1 Hf)) as Hfd. cbn [run_op]. rewrite wp_bind. unfold peek, find. wp_run.
  destruct (map_find s k) as [p|]; wp_run.
  - destruct Hfd as (Hm & Hp & v & Hh). rewrite <- (wp_bind (make_handle p) read_handle).
    eapply wp_mono; [apply (wp_pin p k v); try done; cbn [op_ok] in Hok; by rewrite Hm in Hok|]. intros r s' (-> & A & B & C & D & D' & E). split; [done| |done|done|auto|done].
    rewrite D. apply (seen_found _ s k p v); [apply Hf|done..].
  - cbn [read_handle]. wp_run. read_post; [by apply effect_refl|done|]. by apply seen_absent, timed_none.
Qed.

Lemma step_release e p s : full_inv s -> op_ok s (Release p) -> wp (run_op e (Release p)) (step_post e (Release p) s) s.
Proof.
  intros Hf Hok. cbn [run_op op_ok] in *. unfold release. wp_run. pose proof Hf as (Hi & _).
  destruct (dec_word _ _ (iv_word _ Hi p) Hok) as [Hw Ha].
  destruct (word_effect p (atomic DecRef (ref_word s p)).2 s Hf) as (A & B & C & D & D' & E).
  { apply inv_set_word; [done|done| |intros Hr; destruct (iv_retired _ Hi _ Hr) as (_ & _ & _ & ?); lia].
    destruct (decide (p < brk_ s)%positive) as [|Hge]; [done|]. destruct (iv_fresh _ Hi p) as (_ & Hn & _); [lia|].
    unfold ref_word in Hok. rewrite Hn in Hok. done. }
  split; [done|done|done| |auto|done]. intros q. rewrite E. cbn [handle_delta]. destruct (decide (q = p)) as [->|]; lia.
Qed.

Lemma effect_write e o w r s s' : effect w s s' -> w = None \/ w = written o -> (forall p, handle_delta o r p = 0) ->
  lossy_step e o r (timed s) (timed s') -> (op_fits s o -> stale_uses_ s' = stale_uses_ s) -> step_post e o s r s'.
Proof.
  intros E Hw Hd Hl Hst. pose proof (effect_refl None s' (ef_inv _ _ _ E)) as Hr.
  destruct (effect_trans w None (written o) s s' s' Hw (or_introl eq_refl) E Hr) as [E1 E2 E3 E4 _].
  split; [done|done|done| |auto|done]. intros p. rewrite E3, Hd. lia.
Qed.

Lemma step_set e k v s : full_inv s -> op_ok s (Set_ k v) -> wp (run_op e (Set_ k v)) (step_post e (Set_ k v) s) s.
Proof.
  intros Hf Hok. cbn [run_op op_ok] in *. rewrite wp_bind. unfold set, find. wp_run.
  pose proof (find_spec s k (proj1 Hf)) as Hfd. destruct (map_find s k) as [p|].
  - destruct Hfd as (Hm & Hp & old & Hh). eapply wp_mono; [eapply wp_update_existing; [apply Hf|done..]|]. intros ? s' Hu. wp_run.
    destruct (update_effect p k old v s s' Hf Hm Hh Hu) as [E C]. eapply effect_write; [exact E|by right|done|done|].
    intros Hfit. by apply (update_stale p k old v s s' Hu), Hfit.
  - eapply wp_mono; [apply wp_insert_new; [apply Hf|apply Hf|done|done]|]. intros ? s' Hu. wp_run.
    destruct (insert_effect k v 0 s s' Hf Hfd Hu) as [E C]. eapply effect_write; [exact E|by left|done| |intros _; by apply (ef_stale _ _ _ E)].
    simpl. unfold deadline. by rewrite (timed_none s k Hfd).
Qed.

Lemma expire_subseteq (m m1 m2 : gmap Key (Value * Z)) k v x y :
  (forall k', m2 !! k' = if decide (k' = k) then (fun vx => (vx.1, x)) <$> m1 !! k else m1 !! k') ->
  m1 ⊆ <[k := (v, y)]> m -> m2 ⊆ <[k := (v, x)]> m.
Proof.
  intros H2 Hs. apply map_subseteq_spec. intros k' vx. rewrite H2, lookup_insert. rewrite map_subseteq_spec in Hs. case_decide as E.
  - subst k'. intros ([v' x'] & E & ->)%fmap_Some. apply Hs in E. rewrite lookup_insert_eq in E. rewrite decide_True by done. by injection E as -> ->.
  - intros Hx%Hs. rewrite decide_False by congruence. by rewrite lookup_insert_ne in Hx.
Qed.

Lemma step_set_expiry e k v x s : full_inv s -> op_ok s (SetWithExpiry k v x) ->
  wp (run_op e (SetWithExpiry k v x)) (step_post e (SetWithExpiry k v x) s) s.
Proof.
  intros Hf Hok. cbn [run_op op_ok] in *. rewrite wp_bind. unfold set_with_expiry, find. wp_run.
  pose proof (find_spec s k (proj1 Hf)) as Hfd. destruct (map_find s k) as [p|].
  2:{ eapply wp_mono; [apply wp_insert_new; [apply Hf|apply Hf|done|done]|]. intros ? s' Hu. wp_run.
      destruct (insert_effect k v x s s' Hf Hfd Hu) as [E C]. eapply effect_write; [exact E|by left|done|done|intros _; by apply (ef_stale _ _ _ E)]. }
  destruct Hfd as (Hm & Hp & old & Hh). rewrite wp_bind. eapply wp_mono; [eapply wp_update_existing; [apply Hf|done..]|]. intros ? s1 Hu. wp_run.
  destruct (update_effect p k old v s s1 Hf Hm Hh Hu) as [E C]. pose proof (update_stale _ _ _ _ _ _ Hu) as Hst.
  destruct Hu as (Hi1 & (st & s0 & b & Hiu & Ht & Hk) & _).
  destruct (touch_reordered p _ _ b Hiu Hp Ht) as (Hi0 & Hr & _).
  assert (keeps (revalued p k v st s) (set_stale_uses (stale_uses_ s0) s1)) as Hk1 by (eapply keeps_trans; [apply Hr|exact Hk]).
  assert (forall k' q, map_ s1 !! k' = Some q -> map_ s !! k' = Some q) as Hmap.
  { intros k' q. by apply (keeps_map _ _ _ _ Hiu (inv_stale _ _ Hi1) Hk1). }
  assert (is_Some (heap_ s1 !! p)) as Hal by (apply (kp_alloc _ _ Hk1 p); exists (k, v); by apply lookup_insert_eq).
  destruct (note_use_spec p s1) as (l & El & Hl). rewrite (wp_store_expiry _ _ _ _ Hal), El.
  pose proof (effect_stale k l s s1 E) as E1.
  destruct (expire_effect p k x (set_stale_uses l s1) (ef_inv _ _ _ E1)) as [E2 C2]; [done| | |].
  { intros q Hq%Hmap. congruence. }
  { intros k' Hq%Hmap. by eapply map_inj; [apply Hf|..]. }
  assert (op_fits s (SetWithExpiry k v x) -> stale_uses_ (set_stale_uses l s1) = stale_uses_ s) as Hfin.
  { intros Hfit. destruct (Hst (Hfit p old Hm Hh)) as [<- Hn]. by destruct Hl as [->|[? _]]. }
  destruct (x =? 0); wp_run; (eapply effect_write; [eapply effect_trans; [by right|by left|exact E1|exact E2]|by right|done| |];
    [by eapply expire_subseteq; [exact C2|exact C]|intros Hfit; exact (eq_trans (ef_stale _ _ _ E2 eq_refl) (Hfin Hfit))]).
Qed.

Lemma step_add e k v s : full_inv s -> op_ok s (Add k v) -> wp (run_op e (Add k v)) (step_post e (Add k v) s) s.
Proof.
  intros Hf Hok. cbn [run_op op_ok] in *. rewrite wp_bind. unfold add, find. wp_run.
  pose proof (find_spec s k (proj1 Hf)) as Hfd. destruct (map_find s k) as [p|]; wp_run.
  - destruct Hfd as (Hm & Hp & old & Hh). eapply wp_mono; [apply wp_record_access; [apply Hf|done]|]. intros b s1 (Hi1 & Hr & _). wp_run.
    destruct (reordered_effect None s s1 Hf Hi1 Hr) as [E1 C1]. read_post; [done|done|].
    split; [by eapply timed_some; [apply Hf|]|done].
  - eapply wp_mono; [apply wp_insert_new; [apply Hf|apply Hf|done|done]|]. intros ? s' Hu. wp_run.
    destruct (insert_effect k v 0 s s' Hf Hfd Hu) as [E C]. read_post; [done|done|]. split; [by apply timed_none|done].
Qed.

Lemma step_replace e k v s : full_inv s -> wp (run_op e (Replace k v)) (step_post e (Replace k v) s) s.
Proof.
  intros Hf. cbn [run_op]. rewrite wp_bind. unfold replace, find. wp_run.
  eapply wp_mono; [apply wp_cleanup, Hf|]. intros _ s1 (Hi1 & Hk1 & Hs1). wp_run.
  pose proof (keeps_effect None s s1 Hf Hi1 Hk1) as E1. assert (timed s1 = timed s) as C1.
  { apply timed_same; [apply Hf|done|done|]. unfold same_list in Hs1. congruence. }
  pose proof (find_spec s1 k Hi1) as Hfd. destruct (map_find s1 k) as [p|]; wp_run.
  - destruct Hfd as (Hm & Hp & old & Hh). eapply wp_mono; [eapply wp_update_existing; done|]. intros ? s' Hu. wp_run.
    destruct (update_effect p k old v s1 s' (ef_inv _ _ _ E1) Hm Hh Hu) as [E C].
    eapply effect_write; [eapply effect_trans; [by left|by right|exact E1|exact E]|by right|done| |].
    + simpl. rewrite <- C1. split; [by eapply timed_some|done].
    + intros Hfit. rewrite <- (ef_stale _ _ _ E1) by done. apply (update_stale p k old v s1 s' Hu). unfold update_fits, within_size in *.
      assert (map_ s1 = map_ s /\ stats_ s1 current_memory = stats_ s current_memory /\ q_ s1 = q_ s) as (Em & Es & Eq) by (unfold same_list in Hs1; split_and!; congruence).
      pose proof (kp_params _ _ Hk1) as Hpar. rewrite (kp_access _ _ Hk1), Es. unfold size. rewrite Eq.
      replace (max_size_ s1) with (max_size_ s) by congruence. replace (max_memory_ s1) with (max_memory_ s) by congruence.
      apply (Hfit p old); [by rewrite <- Em|]. by rewrite <- (linked_heap s s1).
  - eapply effect_write; [exact E1|by left|done| |intros _; by apply (ef_stale _ _ _ E1)]. split; [|done]. rewrite <- C1. by apply timed_none.
Qed.

Lemma step_promote e k s : full_inv s -> wp (run_op e (Promote k)) (step_post e (Promote k) s) s.
Proof.
  intros Hf. cbn [run_op]. rewrite wp_bind. unfold promote, find. wp_run.
  pose proof (find_spec s k (proj1 Hf)) as Hfd. destruct (map_find s k) as [p|]; wp_run.
  - destruct Hfd as (Hm & Hp & old & Hh). eapply wp_mono; [apply wp_record_access; [apply Hf|done]|]. intros b s1 (Hi1 & Hr & _). wp_run.
    destruct (reordered_effect None s s1 Hf Hi1 Hr) as [E1 C1]. read_post; [done|done|].
    destruct b; [split; [by eapply timed_some; [apply Hf|]|done]|done].
  - read_post; [by apply effect_refl|done|done].
Qed.

Lemma idle_effect s s' : full_inv s -> inv s' /\ keeps s s' /\ same_list s s' -> effect None s s' /\ timed s' = timed s.
Proof.
  intros Hf (Hi & Hk & Hs). split; [by apply keeps_effect|]. apply timed_same; [apply Hf|done|done|]. unfold same_list in Hs. congruence.
Qed.

Lemma step_del e k s : full_inv s -> wp (run_op e (Del k)) (step_post e (Del k) s) s.
Proof.
  intros Hf. cbn [run_op]. rewrite wp_bind. eapply wp_mono; [apply wp_del, Hf|]. intros [|] s' Hr; wp_run.
  - destruct Hr as (p & v & Hg & _). destruct (gone_effect s s' p k v Hf Hg) as (E & C1 & C2). read_post; [done|done|]. simpl. split; [|done]. apply (fmap_is_Some fst). by rewrite C1.
  - destruct Hr as (A & B & C & _). destruct (idle_effect s s' Hf) as [E C1]; [done|]. by read_post.
Qed.

Lemma step_force_del e k s : full_inv s -> wp (run_op e (ForceDel k)) (step_post e (ForceDel k) s) s.
Proof.
  intros Hf. cbn [run_op]. rewrite wp_bind. eapply wp_mono; [apply wp_force_del, Hf|]. intros [|] s' Hr; wp_run.
  - destruct Hr as (p & v & Hg). destruct (gone_effect s s' p k v Hf Hg) as (E & C1 & C2). read_post; [done|done|]. simpl. split; [|done]. apply (fmap_is_Some fst). by rewrite C1.
  - destruct Hr as (A & B & _ & Hm & _). read_post; [by apply keeps_effect|done|]. apply timed_same; [apply Hf|done..].
Qed.

Lemma step_pop e k s : full_inv s -> wp (run_op e (Pop k)) (step_post e (Pop k) s) s.
Proof.
  intros Hf. cbn [run_op]. rewrite wp_bind. eapply wp_mono; [apply wp_pop, Hf|]. intros [v|] s' Hr; wp_run.
  - destruct Hr as (p & Hg & _). destruct (gone_effect s s' p k v Hf Hg) as (E & C1 & C2). by read_post.
  - destruct Hr as (A & B & C & _). destruct (idle_effect s s' Hf) as [E C1]; [done|]. by read_post.
Qed.

Lemma step_pop_lru e s : full_inv s -> op_ok s PopLru -> wp (run_op e PopLru) (step_post e PopLru s) s.
Proof.
  intros Hf Hok. cbn [run_op]. rewrite wp_bind. eapply wp_mono; [by apply wp_pop_lru; [apply Hf|]|]. intros [[k v]|] s' Hr; wp_run.
  - destruct Hr as (p & Hg & _). destruct (gone_effect s s' p k v Hf Hg) as (E & C1 & C2). by read_post.
  - destruct (idle_effect s s' Hf) as [E C1]; [done|]. by read_post.
Qed.

(** The calls that may only drop entries. *)
Lemma drop_post e o r s s' : written o = None -> full_inv s -> inv s' /\ keeps s s' -> (forall p, handle_delta o r p = 0) ->
  (timed s' ⊆ timed s -> lossy_step e o r (timed s) (timed s')) -> step_post e o s r s'.
Proof.
  intros Hw Hf [Hi Hk] Hd Hl. apply effect_post; [done|by apply keeps_effect|done|]. apply Hl, timed_keeps; [apply Hf|done..].
Qed.

Lemma step_drops e o s : full_inv s -> op_ok s o -> o = Flush \/ o = ShrinkToFit \/ o = EvictLru -> wp (run_op e o) (step_post e o s) s.
Proof.
  intros Hf Hok [->|[->| ->]]; cbn [run_op]; rewrite wp_bind; (eapply wp_mono; [first [apply wp_flush; [apply Hf|exact Hok]|apply wp_shrink_to_fit, Hf|apply wp_evict_lru, Hf]|]);
    intros ? s' (A & B & _); wp_run; apply drop_post; try exact eq_refl; done.
Qed.

Lemma step_contains e k s : full_inv s -> wp (run_op e (Contains k)) (step_post e (Contains k) s) s.
Proof.
  intros Hf. cbn [run_op]. rewrite wp_bind. unfold contains, find, check_expiry. wp_run.
  pose proof (find_spec s k (proj1 Hf)) as Hfd. destruct (map_find s k) as [p|]; wp_run.
  2:{ read_post; [by apply effect_refl|done|]. simpl. unfold visible. by rewrite (timed_none s k Hfd). }
  destruct Hfd as (Hm & _ & v & Hh). pose proof (visible_at e s k p v (proj1 Hf) Hm Hh) as Hc.
  destruct (expiry_of s p =? 0); wp_run; [read_post; [by apply effect_refl|done|]; cbn [lossy_step]; by rewrite Hc|].
  destruct (now_ns e <? expiry_of s p); wp_run.
  - destruct (noted_effect s (stat_add ttl_checked_count 1 s) Hf) as [E C]; [by apply noted_stat|]. read_post; [done|done|]. cbn [lossy_step]. by rewrite C, Hc.
  - match goal with |- step_post _ _ _ _ ?x => assert (noted s x) as Hn end.
    { eapply noted_trans; [|apply noted_collect]. noted_stats. }
    destruct (noted_effect _ _ Hf Hn) as [E C]. read_post; [done|done|]. cbn [lossy_step]. by rewrite C, Hc.
Qed.

(** ** Pinned reads *)

(** Only handles, counters and reported events change; [d] counts the handles
    made and dropped. *)
Record pins (d : loc -> Z) (s s' : mm) : Prop := {
  pn_inv : full_inv s';
  pn_stable : handles_stable None s s';
  pn_size : max_size_ s' = max_size_ s /\ (within_size s -> within_size s');
  pn_timed : timed s' = timed s;
  pn_stale : stale_uses_ s' = stale_uses_ s;
  pn_access : forall q, access_ref (ref_word s' q) = access_ref (ref_word s q) + d q
}.

Lemma pins_trans d1 d2 s1 s2 s3 : (forall q, 0 <= d1 q) -> pins d1 s1 s2 -> pins d2 s2 s3 -> pins (fun q => d1 q + d2 q) s1 s3.
Proof.
  intros Hd [A1 A2 [A3 A4] A5 A6 A7] [B1 B2 [B3 B4] B5 B6 B7]. split; [done| |split; [congruence|auto]|congruence|congruence|].
  - intros p k v Hh Ha. left. destruct (A2 p k v Hh Ha) as [Hh2|[? _]]; [|done].
    destruct (B2 p k v Hh2) as [?|[? _]]; [|done|done]. rewrite A7. specialize (Hd p). lia.
  - intros q. rewrite B7, A7. lia.
Qed.

Lemma noted_pins s s' : full_inv s -> noted s s' -> pins (fun _ => 0) s s'.
Proof.
  intros Hf Hn. destruct (noted_effect s s' Hf Hn) as [[E1 E2 E3 E4 E5] C]. split; auto. intros q. rewrite E3. lia.
Qed.

Definition at_item (p : loc) (n : Z) (q : loc) : Z := if decide (q = p) then n else 0.

Lemma word_pins p w n s : full_inv s -> inv (set_refcount (<[p := w]> (refcount_ s)) s) -> access_ref w = access_ref (ref_word s p) + n ->
  pins (at_item p n) s (set_refcount (<[p := w]> (refcount_ s)) s).
Proof.
  intros Hf Hi Hw. destruct (word_effect p w s Hf Hi) as (A & B & C & D & D' & E). split; try done.
  intros q. rewrite E. unfold at_item. destruct (decide (q = p)) as [->|]; lia.
Qed.

Lemma inc_pins p k v s : full_inv s -> map_ s !! k = Some p -> heap_ s !! p = Some (k, v) -> access_ref (ref_word s p) < kAccessRefMax ->
  (atomic IncRef (ref_word s p)).1 = RInc kIncOk /\
  pins (at_item p 1) s (set_refcount (<[p := (atomic IncRef (ref_word s p)).2]> (refcount_ s)) s).
Proof.
  intros Hf Hm Hh Hlt. destruct (iv_map _ (proj1 Hf) _ _ Hm) as [Hp _]. pose proof (word_linked s p (proj1 Hf) Hp) as Hw.
  destruct (inc_word _ Hw) as [(_ & Hr & Hw' & Ha)|[E _]]; [|lia]. split; [done|]. apply word_pins; [done| |done].
  apply inv_set_word; [apply Hf|by rewrite bool_decide_true|by eapply alloc_below, Hh; apply Hf|].
  intros Hx. by apply (iv_retired _ (proj1 Hf)) in Hx as [? _].
Qed.

Lemma dec_pins p s : full_inv s -> 0 < access_ref (ref_word s p) ->
  pins (at_item p (-1)) s (set_refcount (<[p := (atomic DecRef (ref_word s p)).2]> (refcount_ s)) s).
Proof.
  intros Hf Ha. destruct (dec_word _ _ (iv_word _ (proj1 Hf) p) Ha) as [Hw E]. apply word_pins; [done| |lia].
  apply inv_set_word; [apply Hf|done| |intros Hr; destruct (iv_retired _ (proj1 Hf) _ Hr) as (_ & _ & _ & ?); lia].
  destruct (decide (p < brk_ s)%positive) as [|Hge]; [done|]. destruct (iv_fresh _ (proj1 Hf) p) as (_ & Hn & _); [lia|].
  unfold ref_word in Ha. rewrite Hn in Ha. done.
Qed.

Lemma pins_post e o r d s s' : written o = None -> pins d s s' -> (forall q, handle_delta o r q = d q) ->
  lossy_step e o r (timed s) (timed s) -> step_post e o s r s'.
Proof.
  intros Hw [A B C D E F] Hd Hl. split; [done|by rewrite D|by rewrite Hw| |auto|done]. intros q. by rewrite F, Hd.
Qed.

Lemma step_peek_for_get e k s : full_inv s -> op_ok s (PeekForGet k) -> wp (run_op e (PeekForGet k)) (step_post e (PeekForGet k) s) s.
Proof.
  intros Hf Hok. cbn [run_op op_ok] in *. rewrite wp_bind. unfold peek_for_get, find, make_handle. wp_run.
  pose proof (find_spec s k (proj1 Hf)) as Hfd. destruct (map_find s k) as [p|]; wp_run.
  2:{ cbn [read_handle]. wp_run. read_post; [by apply effect_refl|done|]. simpl. unfold visible. by rewrite (timed_none s k Hfd). }
  destruct Hfd as (Hm & Hp & v & Hh). rewrite Hm in Hok. destruct (inc_pins p k v s Hf Hm Hh Hok) as [-> P1]. wp_run.
  set (s1 := set_refcount _ s) in *. pose proof (visible_at e s k p v (proj1 Hf) Hm Hh) as Hv. change (expiry_of s1 p) with (expiry_of s p).
  assert (forall q, 0 <= at_item p 1 q) as Hpos by (intros q; unfold at_item; destruct (decide _); lia).
  assert (forall s2, pins (fun _ => 0) s1 s2 -> noted s1 s2 -> visible e (timed s) k = Some v ->
    wp (read_handle (Some p)) (step_post e (PeekForGet k) s) s2) as Hlive.
  { intros s2 P2 (st & lg & -> & _) Hvis. cbn [read_handle]. wp_run.
    rewrite (wp_deref _ (k, v)); [|exact Hh|exact (linked_live s p (proj1 Hf) Hp)]. wp_run.
    eapply pins_post; [exact eq_refl|exact (pins_trans _ _ _ _ _ Hpos P1 P2)| |split; [by rewrite Hvis|done]].
    intros q. cbn [handle_delta]. unfold at_item. lia. }
  destruct (expiry_of s p =? 0) eqn:Ex; wp_run; [apply Hlive; [by apply noted_pins; [apply P1|apply noted_refl]|apply noted_refl|done]|].
  unfold check_expiry. wp_run. change (expiry_of s1 p) with (expiry_of s p). rewrite Ex. wp_run.
  destruct (now_ns e <? expiry_of s p); wp_run.
  { assert (noted s1 (stat_add ttl_checked_count 1 s1)) as Hn by (by apply noted_stat). apply Hlive; [by apply noted_pins; [apply P1|]|done|done]. }
  cbn [read_handle]. wp_run. match goal with |- context [set_refcount _ ?x] => set (s2 := x) end.
  assert (noted s1 s2) as Hn by (unfold s2; noted_stats).
  pose proof (noted_pins s1 s2 (pn_inv _ _ _ P1) Hn) as P2. pose proof (pins_trans _ _ _ _ _ Hpos P1 P2) as P12.
  assert (pins (at_item p (-1)) s2 (set_refcount (<[p := (atomic DecRef (ref_word s2 p)).2]> (refcount_ s2)) s2)) as P3.
  { apply dec_pins; [apply P2|]. rewrite (pn_access _ _ _ P12). pose proof (access_nonneg _ _ (iv_word _ (proj1 Hf) p)). unfold at_item.
    rewrite decide_True by done. lia. }
  set (s3 := set_refcount _ s2) in *. match goal with |- step_post _ _ _ _ ?x => set (s4 := x) end.
  assert (noted s3 s4) as Hn4 by (unfold s4; eapply noted_trans; [|apply noted_collect]; noted_stats).
  pose proof (noted_pins s3 s4 (pn_inv _ _ _ P3) Hn4) as P4.
  assert (pins (fun q => at_item p 1 q + 0 + at_item p (-1) q) s s3) as P13 by (eapply pins_trans; [|exact P12|exact P3]; intros q; specialize (Hpos q); lia).
  assert (forall q, 0 <= at_item p 1 q + 0 + at_item p (-1) q) as Hz by (intros q; unfold at_item; destruct (decide _); lia).
  eapply pins_post; [exact eq_refl|exact (pins_trans _ _ _ _ _ Hz P13 P4)| |split; [by rewrite Hv|done]].
  intros q. cbn [handle_delta]. unfold at_item. destruct (decide _); lia.
Qed.

Lemma step_max_memory e n s : full_inv s -> op_ok s (MaxMemory n) -> wp (run_op e (MaxMemory n)) (step_post e (MaxMemory n) s) s.
Proof.
  intros Hf Hn. cbn [run_op op_ok] in *. rewrite wp_bind. unfold max_memory. wp_run. set (s1 := stat_store stat_max_memory n (set_max_memory n s)).
  assert (effect None s s1) as E1.
  { destruct Hf as (Hi & [Hb1 Hb2] & Hx). assert (inv s1) as Hi1 by (destruct Hi as [I1 I2 I3 I4 I5 I6 I7 I8 I9 I10 I11 I12 I13]; by split).
    split; [|by intros p k v Hh _; left|done|done|done]. split; [done|]. split; [done|]. by eapply indexed_mono. }
  destruct (n =? npos); wp_run; [read_post; [done|done|]; change (timed s ⊆ timed s); reflexivity|].
  eapply wp_mono; [apply wp_shrink_to_fit, (ef_inv _ _ _ E1)|]. intros ? s' (A & B & _). wp_run.
  read_post; [|done|apply (timed_keeps s1 s'); [apply (ef_inv _ _ _ E1)|done..]].
  eapply effect_trans; [by left|by left|exact E1|]. apply keeps_effect; [apply (ef_inv _ _ _ E1)|done..].
Qed.

Lemma step_max_size e n s : full_inv s -> op_ok s (MaxSize n) -> wp (run_op e (MaxSize n)) (step_post e (MaxSize n) s) s.
Proof.
  intros Hf Hn. cbn [run_op op_ok] in *. rewrite wp_bind. unfold max_size. wp_run. set (s1 := stat_store stat_max_size n (set_max_size n s)).
  assert (full_inv s1) as Hf1.
  { destruct Hf as (Hi & [Hb1 Hb2] & Hx). assert (inv s1) as Hi1 by (destruct Hi as [I1 I2 I3 I4 I5 I6 I7 I8 I9 I10 I11 I12 I13]; by split).
    split; [done|]. split; [done|]. by eapply indexed_mono. }
  assert (forall s', inv s' -> keeps s1 s' -> step_post e (MaxSize n) s RUnit s') as Hend.
  { intros s' Hi' Hk. destruct (keeps_effect None s1 s' Hf1 Hi' Hk) as [E1 E2 E3 _ E5]. split; [done| |exact E2| |intros Hx; by destruct (Hx n)|intros _; by apply E5].
    - apply (timed_keeps s1 s'); [apply Hf1|done..].
    - intros p. rewrite E3. cbn [handle_delta]. rewrite Z.add_0_r. done. }
  destruct (n =? npos); wp_run; [apply Hend; [apply Hf1|apply keeps_refl]|].
  eapply wp_mono; [apply wp_shrink_to_fit, Hf1|]. intros ? s' (A & B & _). wp_run. by apply Hend.
Qed.

Lemma step_set_config e c s : full_inv s -> op_ok s (SetConfig c) -> wp (run_op e (SetConfig c)) (step_post e (SetConfig c) s) s.
Proof.
  intros Hf [Hv Hspec]. cbn [run_op]. rewrite wp_bind. unfold set_config. rewrite Hv. cbn [negb]. wp_run.
  destruct (reconfigure_point_spec (spec_of s) _ (q_ s) Hspec (iv_list _ (proj1 Hf))) as (q & Eq & Hok & Hqi).
  rewrite (wp_on_list _ q) by exact Eq. wp_run.
  match goal with |- step_post _ _ _ _ ?x => set (s' := x) end.
  assert (linked_items s' = linked_items s) as Hl by exact Hqi.
  assert (inv s') as Hi'.
  { destruct (proj1 Hf) as [I1 I2 I3 I4 I5 I6 I7 I8 I9 I10 I11 I12 I13]. split; rewrite ?Hl; try done.
    change (size s') with (list_size q). unfold list_size. rewrite Hqi. exact I12. }
  read_post; [|done|done]. destruct Hf as (Hi & Hb & Hx). split.
  - split; [done|]. split; [done|]. by eapply indexed_mono.
  - intros p k v Hh _. by left.
  - done.
  - split; [done|]. unfold within_size. change (size s') with (list_size q). unfold size, list_size. by rewrite Hqi.
  - done.
Qed.

Lemma sweep_step now budget s : full_inv s -> 0 <= budget ->
  wp (sweep_index now budget) (fun n s' => effect None s s' /\ timed s' ⊆ timed s /\
    sweep_post now budget s (index_ s) n s' (index_ s')) s.
Proof.
  intros Hf Hb. pose proof (wp_sweep_index now budget s (proj1 Hf)) as Hk. rewrite wp_sweep in Hk |- *. set (r := TtlHeap.sweep _ _ _ _ _ _) in *.
  assert (sweep_post now budget s (index_ s) r.1.1 r.1.2 r.2) as Hs.
  { apply ttl_index_sweep_spec; [done|apply Hf|]. change (r = (r.1.1, r.1.2, r.2)). by destruct r as [[? ?] ?]. }
  clearbody r. destruct r as [[n s1] t]. cbn [fst snd] in *. destruct Hk as [Hi' Hk]. set (s' := set_index t s1) in *.
  destruct Hs as (V & V1 & V2 & V3 & V4 & V5 & V6 & V7 & V8).
  assert (index_ok s' t) as Hx' by (destruct V7 as [X1 X2 X3 X4]; by split).
  assert (inv (set_index (index_ s) s')) as Hi1 by (destruct Hi' as [I1 I2 I3 I4 I5 I6 I7 I8 I9 I10 I11 I12 I13]; by split).
  pose proof (keeps_effect None s _ Hf Hi1 Hk) as [(F1 & F2 & F3) E2 E3 E4 E5].
  split; [|split].
  - split; [|done|done|done|done]. split; [done|]. by split.
  - apply (timed_keeps s (set_index (index_ s) s')); [apply Hf|done..].
  - exists V. done.
Qed.

Lemma step_evict_expired e n s : full_inv s -> op_ok s (EvictExpired n) -> wp (run_op e (EvictExpired n)) (step_post e (EvictExpired n) s) s.
Proof.
  intros Hf Hn. cbn [run_op op_ok] in *. rewrite wp_bind.
  assert (forall b, 0 <= b -> wp (cleanup_pending_deletion;; sweep_index (now_ns e) b) (fun r s' => step_post e (EvictExpired n) s (RCount r) s') s) as Hall.
  { intros b Hb. wp_run. eapply wp_mono; [apply wp_cleanup, Hf|]. intros ? s1 Hs1. cbv beta in Hs1. destruct (idle_effect s s1 Hf Hs1) as [E1 C1].
    eapply wp_mono; [by apply sweep_step; [apply (ef_inv _ _ _ E1)|]|]. intros r s' (E2 & C2 & _). read_post; [|done|].
    - eapply effect_trans; [by left|by left|exact E1|exact E2].
    - simpl. by rewrite <- C1. }
  unfold mm_evict_expired_n, mm_evict_expired. destruct (n =? 0); (eapply wp_mono; [apply Hall; lia|]); intros r s' Hr; by wp_run.
Qed.

(** Every call. *)
Lemma run_op_ok e o s : full_inv s -> op_ok s o -> wp (run_op e o) (step_post e o s) s.
Proof.
  intros Hf Hok. destruct o; try (apply step_drops; [done|done|by auto]);
    eauto using step_set, step_set_expiry, step_add, step_replace, step_get, step_peek, step_peek_for_get, step_release, step_promote, step_del,
      step_force_del, step_pop, step_pop_lru, step_contains, step_max_size, step_max_memory, step_evict_expired, step_set_config.
Qed.

(** * Sequences of calls *)

(** The caller meets its obligations all along the run. *)
Fixpoint legal (s : mm) (tr : list (env * mm_op Key Value)) : Prop :=
  match tr with
  | [] => True
  | (e, o) :: tr => op_ok s o /\ match run_op e o s with Some (_, s') => legal s' tr | None => True end
  end.

(** A run of the lossy map. *)
Inductive lossy_run : list (env * mm_op Key Value) -> list (mm_res Key Value) -> gmap Key (Value * Z) -> gmap Key (Value * Z) -> Prop :=
  | lossy_nil m : lossy_run [] [] m m
  | lossy_cons e o r tr rs m1 m2 m3 :
      lossy_step e o r m1 m2 -> lossy_run tr rs m2 m3 -> lossy_run ((e, o) :: tr) (r :: rs) m1 m3.

(** Along the run no update of an existing key evicts its own item. *)
Fixpoint updates_fit (s : mm) (tr : list (env * mm_op Key Value)) : Prop :=
  match tr with
  | [] => True
  | (e, o) :: tr => op_fits s o /\ match run_op e o s with Some (_, s') => updates_fit s' tr | None => True end
  end.

Lemma run_cons e o tr r rs s1 s2 s3 :
  run_op e o s1 = Some (r, s2) -> run tr s2 = Some (rs, s3) -> run ((e, o) :: tr) s1 = Some (r :: rs, s3).
Proof. intros H1 H2. cbn [run]. unfold mbind, M_bind. by rewrite H1, H2. Qed.

Lemma run_ok tr s : full_inv s -> legal s tr ->
  exists rs s', run tr s = Some (rs, s') /\ full_inv s' /\ lossy_run tr rs (timed s) (timed s') /\
    (Forall (fun eo => forall n, eo.2 <> MaxSize n) tr -> max_size_ s' = max_size_ s /\ (within_size s -> within_size s')) /\
    (updates_fit s tr -> stale_uses_ s' = stale_uses_ s).
Proof.
  revert s. induction tr as [|[e o] tr IH]; intros s Hf Hl.
  { exists [], s. split; [done|]. split; [done|]. split; [constructor|]. done. }
  destruct Hl as [Hok Hl]. destruct (wp_elim _ _ _ (run_op_ok e o s Hf Hok)) as (r & s1 & E1 & P). rewrite E1 in Hl.
  destruct (IH s1 (st_inv _ _ _ _ _ P) Hl) as (rs & s' & E2 & Hf' & Hr & Hw & Hst). exists (r :: rs), s'.
  split; [by eapply run_cons|]. split; [done|]. split; [econstructor; [apply P|done]|]. split.
  2:{ cbn [updates_fit]. rewrite E1. intros [Hfit Hfits]. rewrite (Hst Hfits). by apply (st_stale _ _ _ _ _ P). }
  intros [Hn Hns]%Forall_cons. destruct (Hw Hns) as [W1 W2], (st_size _ _ _ _ _ P Hn) as [W3 W4]. split; [congruence|auto].
Qed.

Lemma mm_lru_new_ok e n m c pred cbs s :
  mm_lru_new e n m c pred cbs = Some s -> 0 <= n < 2 ^ 64 -> 0 <= m < 2 ^ 64 -> 0 <= lru_insertion_point_spec c ->
  full_inv s /\ timed s = ∅ /\ within_size s /\ stale_uses_ s = [].
Proof.
  intros E Hn Hm Hc. unfold mm_lru_new in E. destruct (_ || _); [done|]. injection E as <-.
  assert (inv (MmLru (Key := Key) (Value := Value) ∅ ∅ ∅ ∅ ∅ 1%positive (LruList [] ∅ None 0 npos) ∅ n m c None (default_lru_refresh_time c)
    (if mm_reconfigure_interval_secs c =? 0 then U32_MAX else u32 (now_sec e + mm_reconfigure_interval_secs c)) [] [] (initial_stats n m) [] (TtlHeap [] []) pred cbs [])) as Hi.
  { split; mm_cbn; try done; try set_solver.
    - exists [], []. split; [|split; [done|simpl; lia]]. split; [|done]. split; try done. constructor.
    - constructor.
    - constructor. }
  split; [|split; [done|split; [right; mm_cbn; unfold list_size; simpl; lia|done]]].
  split; [done|]. split; [done|]. split; [done|apply heap_nil|set_solver|]. intros k x b Hx. done.
Qed.

(** ** Deciding legality *)

Definition op_okb (plain_keys : bool) (s : mm) (o : mm_op Key Value) : bool :=
  match o with
  | Set_ _ _ | SetWithExpiry _ _ _ | Add _ _ => size s + 1 <? 2 ^ 64
  | Get k | Peek k | PeekForGet k => match map_ s !! k with Some p => access_ref (ref_word s p) <? kAccessRefMax | None => true end
  | Release p => 0 <? access_ref (ref_word s p)
  | PopLru => plain_keys
  | Flush => (spec_of s =? 0) || forallb (fun p => negb (has_active_handle s p)) (linked_items s)
  | MaxSize n | MaxMemory n => (0 <=? n) && (n <? 2 ^ 64)
  | EvictExpired n => 0 <=? n
  | SetConfig c => validate c && (0 <=? lru_insertion_point_spec c)
  | _ => true
  end.

Fixpoint legalb (plain_keys : bool) (s : mm) (tr : list (env * mm_op Key Value)) : bool :=
  match tr with
  | [] => true
  | (e, o) :: tr => op_okb plain_keys s o && match run_op e o s with Some (_, s') => legalb plain_keys s' tr | None => true end
  end.

Lemma op_okb_sound b s o : (b = true -> forall k, moved_key k = k) -> op_okb b s o = true -> op_ok s o.
Proof.
  intros Hb. destruct o; cbn [op_okb op_ok]; try done; try (intros; bool_to_Z; lia); auto.
  1,2,3: destruct (map_ s !! k); [apply Z.ltb_lt|done].
  - intros [E|E]%orb_true_iff; bool_to_Z; [by left|right]. intros p Hp. rewrite forallb_forall in E.
    apply negb_true_iff, E. by apply list_elem_of_In.
  - intros [? ?]%andb_true_iff. bool_to_Z. done.
Qed.

Lemma legalb_sound b s tr : (b = true -> forall k, moved_key k = k) -> legalb b s tr = true -> legal s tr.
Proof.
  intros Hb. revert s; induction tr as [|[e o] tr IH]; intros s; cbn [legalb legal]; [done|].
  intros [Ho Ht]%andb_true_iff. split; [by eapply op_okb_sound|]. destruct (run_op e o s) as [[r s']|]; auto.
Qed.
Definition op_fitsb (s : mm) (o : mm_op Key Value) : bool :=
  match o with
  | Set_ k v | SetWithExpiry k v _ | Replace k v =>
      match map_ s !! k with
      | None => true
      | Some p =>
          match heap_ s !! p with
          | None => true
          | Some (k', old) =>
              (0 <? access_ref (ref_word s p)) ||
              (((max_size_ s =? unlimited) || (size s <=? max_size_ s)) && ((max_memory_ s =? unlimited) ||
                (u64 (stats_ s current_memory - calc_item_memory k old + calc_item_memory k v) <=? max_memory_ s)))
          end
      end
  | _ => true
  end.

Fixpoint updates_fitb (s : mm) (tr : list (env * mm_op Key Value)) : bool :=
  match tr with
  | [] => true
  | (e, o) :: tr => op_fitsb s o && match run_op e o s with Some (_, s') => updates_fitb s' tr | None => true end
  end.

Lemma op_fitsb_sound s o : op_fitsb s o = true -> op_fits s o.
Proof.
  destruct o; cbn [op_fitsb op_fits]; try done; intros E p old Hm Hh; rewrite Hm, Hh in E;
    (apply orb_true_iff in E as [E|[E1 E2]%andb_true_iff]; [left; by apply Z.ltb_lt|right]);
    (apply orb_true_iff in E1, E2; split; [destruct E1|destruct E2]; bool_to_Z; by (left + right)).
Qed.

Lemma updates_fitb_sound s tr : updates_fitb s tr = true -> updates_fit s tr.
Proof.
  revert s; induction tr as [|[e o] tr IH]; intros s; cbn [updates_fitb updates_fit]; [done|].
  intros [Ho Ht]%andb_true_iff. split; [by apply op_fitsb_sound|]. destruct (run_op e o s) as [[r s']|]; auto.
Qed.
End run.
