(* ===== verification/MmLruClaims.v ===== *)
(** The properties of mm_lru: safety and invariant over every run, refinement
    of a lossy map, handles, capacity, admission, eviction order, expiry, and
    the behaviours the code does not mean to have. *)

From S2P Require Import Prelude IntrusiveList ListRefine Refcount StdHeap TtlHeap MmLruList MmLru MmLruInv MmLruOps MmLruSet MmLruTtl MmLruFlush MmLruRun.

(** * A concrete cache *)

Module Demo.
#[export] Existing Instance BinaryHeap.std_heap.

(** Integer keys and values, 10 bytes per item and the value as its size;
    [moved] says what a moved-from key is left as. *)
Definition params (moved : Z -> Z) : mm_params Z Z := MmParams Z Z 10 None (Some (fun v => v)) (fun _ => 0) moved.

Definition config (spec : Z) : mm_lru_config := MmLruConfig spec 60 (fun _ => 0) false true false 50 0 0.
Definition at_ (t : Z) : env := Env t (t * 1000000000) true.
Definition no_callbacks : event_kind -> bool := fun _ => false.
Definition all_callbacks : event_kind -> bool := fun _ => true.

Definition cache (n m spec : Z) (cbs : event_kind -> bool) : mm_lru (Key := Z) (Value := Z) :=
  match mm_lru_new (at_ 0) n m (config spec) None cbs with
  | Some s => s
  | None => MmLru ∅ ∅ ∅ ∅ ∅ 1%positive (LruList [] ∅ None 0 npos) ∅ 0 0 (config 0) None 0 0 [] [] (fun _ => 0) [] (TtlHeap [] []) None cbs []
  end.

Lemma cache_new n m spec cbs : 0 < n -> 0 <= spec <= 7 ->
  mm_lru_new (at_ 0) n m (config spec) None cbs = Some (cache n m spec cbs).
Proof.
  intros Hn Hs. unfold cache, mm_lru_new, validate, validate_capacity, config. cbn [lru_insertion_point_spec].
  rewrite (proj2 (Z.ltb_ge 7 spec)), (proj2 (Z.eqb_neq n 0)) by lia. done.
Qed.

Definition trace (ops : list (mm_op Z Z)) : list (env * mm_op Z Z) := (fun o => (at_ 1, o)) <$> ops.

(** The keys on the list, most recent first. *)
Definition keys (s : mm_lru (Key := Z) (Value := Z)) : list Z := omap (fun p => fst <$> heap_ s !! p) (items_ (q_ s)).

(** A run that touches every kind of state: an update, an expiry, a pinned
    item that is force-deleted, evictions and a flush. *)
Definition busy : list (env * mm_op Z Z) := trace
  [Set_ 1 5; SetWithExpiry 2 6 2000000000; Add 3 7; Get 2; Set_ 4 8; ForceDel 2; Set_ 1 9; Peek 3; PeekForGet 1; Release 5%positive; Del 3; Release 2%positive; Release 3%positive;
   EvictExpired 0; Pop 4; PopLru; Contains 1; Replace 1 4; Flush].
End Demo.

Section claims.
Context {Key Value : Type} `{Countable Key} {TP : mm_params Key Value} {HH : StdHeap (entry Key) expiry_ns}.
Abbreviation mm := (mm_lru (Key := Key) (Value := Value)).

(** C1: from construction on, every sequence of calls that meets the
    callers' obligations runs to its end: no assertion fails, no null or
    unlinked pointer is followed, every loop ends; and afterwards the list,
    the index, the refcount words, the insertion point, the eviction hint,
    the deferred and retired items and the size and memory counters agree.
    If moreover every update of an existing key fits (its item is held, or the
    cache stays within its budgets with the new value), no item is used after
    it was handed to the reclaimer. Without that condition update_existing and
    set_with_expiry do use the item they have just evicted:
    [mm_lru_update_uses_retired_item]. *)
Theorem mm_lru_runs_safely e n m c pred cbs (s0 : mm) tr :
  mm_lru_new e n m c pred cbs = Some s0 -> 0 <= n < 2 ^ 64 -> 0 <= m < 2 ^ 64 -> 0 <= lru_insertion_point_spec c ->
  legal s0 tr -> exists rs s, run tr s0 = Some (rs, s) /\ inv s /\ (updates_fit s0 tr -> stale_uses_ s = []).
Proof.
  intros E Hn Hm Hc Hl. destruct (mm_lru_new_ok e n m c pred cbs s0 E Hn Hm Hc) as (Hf & _ & _ & Hz).
  destruct (run_ok tr s0 Hf Hl) as (rs & s & Hr & Hi & _ & _ & Hst). exists rs, s. split; [done|]. split; [apply Hi|].
  intros Hfit. by rewrite (Hst Hfit).
Qed.

(** C2: mm_lru refines a lossy map whose entries expire. Along every legal run
    from an empty cache, an entry past its expiry is absent for contains and
    for peek_for_get, the read path of the caches, whether or not it was swept,
    and both find every other entry; get and peek find every entry that has not
    expired, and show only stored values (the specification leaves open what
    they do with an expired entry); writes store the value and the expiry
    written, an update without an expiry keeps the old one; deletions and pops
    report and remove what was there; and entries disappear only where the
    specification lets a cache drop them. *)
Theorem mm_lru_refines_lossy_map e n m c pred cbs (s0 : mm) tr :
  mm_lru_new e n m c pred cbs = Some s0 -> 0 <= n < 2 ^ 64 -> 0 <= m < 2 ^ 64 -> 0 <= lru_insertion_point_spec c ->
  legal s0 tr -> exists rs s, run tr s0 = Some (rs, s) /\ lossy_run tr rs ∅ (timed s).
Proof.
  intros E Hn Hm Hc Hl. destruct (mm_lru_new_ok e n m c pred cbs s0 E Hn Hm Hc) as (Hf & Hz & _).
  destruct (run_ok tr s0 Hf Hl) as (rs & s & Hr & _ & Hlr & _). exists rs, s. rewrite Hz in Hlr. done.
Qed.

(** C3: until the limit is changed, the cache never holds more than
    [max_size] items, and after every run the size counter is the number of
    items and the memory counter the sum of their sizes. *)
Theorem mm_lru_capacity e n m c pred cbs (s0 : mm) tr :
  mm_lru_new e n m c pred cbs = Some s0 -> 0 <= n < 2 ^ 64 -> 0 <= m < 2 ^ 64 -> 0 <= lru_insertion_point_spec c ->
  legal s0 tr -> Forall (fun eo => forall k, eo.2 <> MaxSize k) tr ->
  exists rs s, run tr s0 = Some (rs, s) /\ (n = unlimited \/ size s <= n) /\ stats_ s current_size = size s /\
    stats_ s current_memory = u64 (mem_sum s (items_ (q_ s))).
Proof.
  intros E Hn Hm Hc Hl Hns. destruct (mm_lru_new_ok e n m c pred cbs s0 E Hn Hm Hc) as (Hf & _ & Hw & _).
  destruct (run_ok tr s0 Hf Hl) as (rs & s & Hr & (Hi & _) & _ & Hcap & _). exists rs, s. split; [done|].
  destruct (Hcap Hns) as [Hmax Hws]. specialize (Hws Hw). unfold within_size in Hws.
  assert (max_size_ s0 = n) as E0 by (unfold mm_lru_new in E; destruct (_ || _); [done|]; by injection E as <-).
  rewrite Hmax, E0 in Hws. split; [done|]. split; [apply (iv_size _ Hi)|apply (iv_memory _ Hi)].
Qed.

(** C4: handles are safe. In any state a run reaches, a call leaves every
    held item allocated with its key, and with its value unless that key is
    written; it makes and drops exactly the handles it reports; and no item
    that is still held is ever handed to the reclaimer. *)
Theorem mm_lru_handles_safe e o (s : mm) r s' : full_inv s -> op_ok s o -> run_op e o s = Some (r, s') ->
  handles_stable (written o) s s' /\
  (forall p, access_ref (ref_word s' p) = access_ref (ref_word s p) + handle_delta o r p) /\
  (forall p, 0 < access_ref (ref_word s' p) -> p ∉ retired_ s').
Proof.
  intros Hf Hok E. destruct (wp_elim _ _ _ (run_op_ok e o s Hf Hok)) as (r' & s1 & E1 & P). rewrite E in E1. injection E1 as <- <-.
  split; [apply P|]. split; [apply P|]. intros p Ha Hr. destruct (iv_retired _ (proj1 (st_inv _ _ _ _ _ P)) _ Hr) as (_ & _ & _ & ?). lia.
Qed.

(** C5: admission. When the cache is within its size limit, has no eviction
    predicate and no pinned items, and neither limit is zero, a new key is
    always stored, whatever has to be evicted for it. *)
Theorem mm_lru_set_stores e k v (s : mm) s' : full_inv s -> size s + 1 < 2 ^ 64 ->
  max_size_ s <> 0 -> max_memory_ s <> 0 -> unobstructed s -> within_size s -> contents s !! k = None ->
  set e k v s = Some (tt, s') -> contents s' !! k = Some v.
Proof.
  intros Hf Hsz H1 H2 Hu Hw Hc E. assert (map_ s !! k = None) as Hm.
  { destruct (map_ s !! k) as [p|] eqn:Em; [|done]. destruct (contents_some s k p (proj1 Hf) Em). congruence. }
  pose proof (wp_insert_new e k v 0 s (proj1 Hf) (proj1 (proj2 Hf)) Hsz Hm) as Hwp. apply wp_elim in Hwp as (u & s1 & E1 & Ho).
  assert (s1 = s') as ->.
  { unfold set, find, mbind, M_bind, gets in E. rewrite map_find_spec, Hm in E by apply Hf. congruence. }
  destruct Ho as [(_ & _ & [?|[?|Hn]])|(s2 & p & Hi2 & Hk & _ & Hm2 & A)]; [done|done|by destruct Hn|].
  rewrite (contents_added s2 s' p k v 0) by done. by rewrite lookup_insert_eq.
Qed.

(** Lowering a limit. When nothing obstructs eviction, [max_size(n)]
    ends with the cache within both budgets. *)
Theorem mm_lru_shrinks_to_fit (s : mm) s' n : full_inv s -> 0 <= n < npos -> unobstructed s ->
  max_size n s = Some (tt, s') ->
  size s' <= n /\ (max_memory_ s = unlimited \/ stats_ s' current_memory <= max_memory_ s).
Proof.
  intros (Hi & [Hb1 Hb2] & Hx) Hn Hu E. set (s1 := stat_store stat_max_size n (set_max_size n s)).
  assert (inv s1) as Hi1 by (destruct Hi as [I1 I2 I3 I4 I5 I6 I7 I8 I9 I10 I11 I12 I13]; by split).
  destruct (wp_elim _ _ _ (wp_shrink_to_fit s1 Hi1)) as ([] & s2 & E2 & _ & Hk & Hfit).
  assert (s2 = s') as ->.
  { unfold max_size, mbind, M_bind, modify in E. fold s1 in E. rewrite (proj2 (Z.eqb_neq n npos)) in E by lia. congruence. }
  specialize (Hfit Hu (proj1 Hn) (proj1 Hb2)). pose proof (kp_params _ _ Hk) as Hp. unfold should_evict in Hfit.
  assert (max_size_ s' = n) as En by (change n with (max_size_ s1); congruence).
  assert (max_memory_ s' = max_memory_ s) as Em by (change (max_memory_ s) with (max_memory_ s1); congruence).
  rewrite En, Em in Hfit. apply orb_false_iff in Hfit as [F1 F2]. apply andb_false_iff in F1, F2. unfold npos in Hn.
  destruct F1, F2; bool_to_Z; split; auto; lia.
Qed.

(** C6: eviction order. When the search starts at the tail, [evict_lru]
    removes the least recently used item that is not held and that the
    eviction predicate does not protect: every item behind it is held or
    protected. Without a predicate nothing leaves only if every item is
    held. *)
Theorem mm_lru_evicts_lru (s : mm) s' : inv s -> search_start s = list_tail (q_ s) -> evict_lru s = Some (tt, s') ->
  (exists l1 p l2, items_ (q_ s) = l1 ++ p :: l2 /\ items_ (q_ s') = l1 ++ l2 /\ has_active_handle s p = false /\
     vetoed s p = false /\ Forall (fun x => has_active_handle s x = true \/ vetoed s x = true) l2) \/
  (items_ (q_ s') = items_ (q_ s) /\
     (eviction_predicate_ s = None -> Forall (fun x => has_active_handle s x = true) (items_ (q_ s)))).
Proof.
  intros Hi Hst E. destruct (wp_elim _ _ _ (wp_evict_lru s Hi)) as (u & s1 & E1 & _ & _ & Hev). rewrite E in E1. injection E1 as _ <-.
  pose proof (inv_nodup s Hi) as Hn. destruct Hev as (scan & rest & r & Hl & Hls & Hf & Hl'). unfold linked_items in *.
  assert (rest = []) as ->.
  { rewrite Hst in Hls. unfold list_tail in Hls. destruct rest as [|y rest _] using rev_ind; [done|]. exfalso.
    rewrite Hl, app_assoc, last_snoc in Hls. apply last_Some_elem_of in Hls. rewrite Hl, app_assoc, NoDup_app in Hn.
    destruct Hn as (_ & Hn & _). apply (Hn y); set_solver. }
  rewrite app_nil_r in Hl. destruct r as [p|]; simpl in Hf.
  - left. destruct Hf as (A & B & l1 & l2 & -> & C). exists l1, p, l2. rewrite Hl', Hl. split; [done|]. split; [|done].
    rewrite Hl in Hn. apply NoDup_app_mid in Hn as (? & ? & _). by apply without_split.
  - right. split; [done|]. by rewrite Hl.
Qed.

(** C7: expiry. [evict_expired_n] on mm_lru removes exactly the expired
    unpinned items (at most the batch, earliest first), returns their number,
    leaves every other item alone and keeps the index complete. *)
Theorem mm_lru_evict_expired e batch (s : mm) n s' : full_inv s -> 0 <= batch ->
  mm_evict_expired_n e batch s = Some (n, s') -> sweep_post (now_ns e) batch s (index_ s) n s' (index_ s').
Proof.
  intros Hf Hb E.
  assert (forall b, 0 <= b -> wp (cleanup_pending_deletion;; sweep_index (now_ns e) b)
    (fun n s' => sweep_post (now_ns e) b s (index_ s) n s' (index_ s')) s) as Hall.
  { intros b Hb'. rewrite wp_bind. eapply wp_mono; [apply wp_cleanup, Hf|]. intros ? s1 Hs1. cbv beta in Hs1.
    destruct (idle_effect s s1 Hf Hs1) as [E1 _]. destruct Hs1 as (Hi1 & Hk1 & Hs1).
    eapply wp_mono; [by apply sweep_step; [apply (ef_inv _ _ _ E1)|]|]. intros r s2 (_ & _ & Hsp).
    assert (live_of s1 = live_of s) as Hlive.
    { apply map_eq. intros k. unfold live_of. rewrite !lookup_fmap. unfold same_list in Hs1. replace (map_ s1) with (map_ s) by congruence.
      destruct (map_ s !! k) as [p|]; [|done]. simpl. unfold expiry_of. rewrite (kp_expiry _ _ Hk1), (keeps_held s s1 p) by (done || apply Hf). done. }
    unfold sweep_post, expired_unpinned in *. cbn [live_items mm_lru_ttl] in *. rewrite Hlive in Hsp. exact Hsp. }
  unfold mm_evict_expired_n, mm_evict_expired in E. destruct (batch =? 0) eqn:E0; bool_to_Z; [subst batch|];
    (destruct (wp_elim _ _ _ (Hall _ Hb)) as (n1 & s1 & E1 & Hs); rewrite E in E1; by injection E1 as <- <-).
Qed.
End claims.

(** * Witnesses *)

Module DemoStates.
Import Demo.
#[export] Instance demo_params : mm_params Z Z := params id.

Lemma demo_legal n m spec cbs tr : legalb true (cache n m spec cbs) tr = true -> legal (cache n m spec cbs) tr.
Proof. apply legalb_sound. done. Qed.

(** The state a trace leads to. *)
Definition after (n m spec : Z) (ops : list (mm_op Z Z)) : mm_lru (Key := Z) (Value := Z) :=
  match run (trace ops) (cache n m spec no_callbacks) with Some (_, s) => s | None => cache n m spec no_callbacks end.

Lemma after_inv n m spec ops : 0 < n < 2 ^ 64 -> 0 <= m < 2 ^ 64 -> 0 <= spec <= 7 ->
  legalb true (cache n m spec no_callbacks) (trace ops) = true -> full_inv (after n m spec ops).
Proof.
  intros Hn Hm Hs Hl. destruct (mm_lru_new_ok (at_ 0) n m (config spec) None no_callbacks (cache n m spec no_callbacks)) as (Hf & _); [apply cache_new; lia|lia|lia|cbn; lia|].
  destruct (run_ok (trace ops) _ Hf (demo_legal _ _ _ _ _ Hl)) as (rs & s & E & Hi & _). unfold after. by rewrite E.
Qed.

Lemma unobstructed_check (s : mm_lru (Key := Z) (Value := Z)) : eviction_predicate_ s = None ->
  forallb (fun p => negb (has_active_handle s p)) (linked_items s) = true -> unobstructed s.
Proof.
  intros Hp Hf. split; [done|]. intros p Hl. rewrite forallb_forall in Hf. apply negb_true_iff, Hf. by apply list_elem_of_In.
Qed.
End DemoStates.

Import Demo DemoStates.

Lemma mm_lru_runs_safely_witness : exists rs s, run busy (cache 3 1000 1 all_callbacks) = Some (rs, s) /\ inv s /\ stale_uses_ s = [].
Proof.
  destruct (mm_lru_runs_safely (at_ 0) 3 1000 (config 1) None all_callbacks _ busy (cache_new 3 1000 1 all_callbacks ltac:(lia) ltac:(lia))
    ltac:(lia) ltac:(lia) ltac:(cbn; lia)) as (rs & s & E & Hi & Hst).
  - apply demo_legal. vm_compute. reflexivity.
  - exists rs, s. split; [exact E|]. split; [exact Hi|]. apply Hst, updates_fitb_sound. vm_compute. reflexivity.
Defined.

Lemma mm_lru_refines_lossy_map_witness :
  exists rs s, run busy (cache 3 1000 1 all_callbacks) = Some (rs, s) /\ lossy_run busy rs ∅ (timed s).
Proof.
  apply (mm_lru_refines_lossy_map (at_ 0) 3 1000 (config 1) None all_callbacks _ busy (cache_new 3 1000 1 all_callbacks ltac:(lia) ltac:(lia))
    ltac:(lia) ltac:(lia) ltac:(cbn; lia)).
  apply demo_legal. vm_compute. reflexivity.
Defined.

Lemma mm_lru_capacity_witness :
  exists rs s, run busy (cache 3 1000 1 all_callbacks) = Some (rs, s) /\ (3 = unlimited \/ size s <= 3) /\ stats_ s current_size = size s /\
    stats_ s current_memory = u64 (mem_sum s (items_ (q_ s))).
Proof.
  apply (mm_lru_capacity (at_ 0) 3 1000 (config 1) None all_callbacks _ busy (cache_new 3 1000 1 all_callbacks ltac:(lia) ltac:(lia))
    ltac:(lia) ltac:(lia) ltac:(cbn; lia)).
  - apply demo_legal. vm_compute. reflexivity.
  - repeat constructor; discriminate.
Defined.

(** A held item is force-deleted and then survives another call. *)
Lemma mm_lru_handles_safe_witness :
  let s := after 3 1000 0 [Set_ 1 5; Get 1; Set_ 2 6] in
  exists s', run_op (at_ 1) (ForceDel 1) s = Some (RBool true, s') /\
    handles_stable None s s' /\ (0 < access_ref (ref_word s' 1%positive) -> 1%positive ∉ retired_ s').
Proof.
  intros s. assert (full_inv s) as Hf by (apply after_inv; [lia..|vm_compute; reflexivity]).
  destruct (run_op (at_ 1) (ForceDel 1) s) as [[r s']|] eqn:E; [|vm_compute in E; discriminate].
  assert (r = RBool true) as ->.
  { assert (fst <$> run_op (at_ 1) (ForceDel 1) s = Some (RBool true)) as Hb by (vm_compute; reflexivity). rewrite E in Hb. simpl in Hb. congruence. }
  exists s'. split; [reflexivity|]. destruct (mm_lru_handles_safe (at_ 1) (ForceDel 1) s (RBool true) s' Hf I E) as (A & _ & C).
  split; [exact A|apply C].
Defined.

Lemma mm_lru_set_stores_witness :
  let s := after 2 1000 0 [Set_ 1 5; Set_ 2 6] in
  exists s', set (at_ 1) 3 7 s = Some (tt, s') /\ contents s' !! 3 = Some 7.
Proof.
  intros s. assert (full_inv s) as Hf by (apply after_inv; [lia..|vm_compute; reflexivity]).
  destruct (set (at_ 1) 3 7 s) as [[[] s']|] eqn:E; [|vm_compute in E; discriminate].
  exists s'. split; [reflexivity|]. apply (mm_lru_set_stores (at_ 1) 3 7 s s' Hf).
  - vm_compute. reflexivity.
  - vm_compute. discriminate.
  - vm_compute. discriminate.
  - apply unobstructed_check; vm_compute; reflexivity.
  - right. vm_compute. discriminate.
  - vm_compute. reflexivity.
  - exact E.
Defined.

Lemma mm_lru_shrinks_to_fit_witness :
  let s := after 2 1000 0 [Set_ 1 5; Set_ 2 6] in
  exists s', max_size 1 s = Some (tt, s') /\ size s' <= 1.
Proof.
  intros s. assert (full_inv s) as Hf by (apply after_inv; [lia..|vm_compute; reflexivity]).
  destruct (max_size 1 s) as [[[] s']|] eqn:E; [|vm_compute in E; discriminate].
  exists s'. split; [reflexivity|]. apply (mm_lru_shrinks_to_fit s s' 1 Hf).
  - vm_compute. split; [discriminate|reflexivity].
  - apply unobstructed_check; vm_compute; reflexivity.
  - exact E.
Defined.

(** The tail is held: the item in front of it goes. *)
Lemma mm_lru_evicts_lru_witness :
  let s := after 3 1000 0 [Set_ 1 5; Set_ 2 6; Set_ 3 7; Peek 1] in
  exists s', evict_lru s = Some (tt, s') /\ items_ (q_ s') = [3%positive; 1%positive] /\
    exists l1 p l2, items_ (q_ s) = l1 ++ p :: l2 /\ items_ (q_ s') = l1 ++ l2.
Proof.
  intros s. assert (full_inv s) as Hf by (apply after_inv; [lia..|vm_compute; reflexivity]).
  assert (search_start s = list_tail (q_ s)) as Hst by (vm_compute; reflexivity).
  destruct (evict_lru s) as [[[] s']|] eqn:E; [|vm_compute in E; discriminate].
  assert (items_ (q_ s') = [3%positive; 1%positive]) as Hl.
  { assert ((fun x => items_ (q_ x.2)) <$> evict_lru s = Some [3%positive; 1%positive]) as Hl by (vm_compute; reflexivity).
    rewrite E in Hl. simpl in Hl. congruence. }
  exists s'. split; [reflexivity|]. split; [exact Hl|].
  destruct (mm_lru_evicts_lru s s' (proj1 Hf) Hst E) as [(l1 & p & l2 & A & B & _)|[A _]].
  { exists l1, p, l2. split; [exact A|exact B]. }
  rewrite Hl in A. vm_compute in A. discriminate.
Defined.

Lemma mm_lru_evict_expired_witness :
  let s := after 5 1000 0 [SetWithExpiry 1 5 500; SetWithExpiry 2 6 2000000000; Set_ 3 7] in
  exists s', mm_evict_expired_n (at_ 1) 0 s = Some (1, s') /\ sweep_post 1000000000 0 s (index_ s) 1 s' (index_ s').
Proof.
  intros s. assert (full_inv s) as Hf by (apply after_inv; [lia..|vm_compute; reflexivity]).
  destruct (mm_evict_expired_n (at_ 1) 0 s) as [[n s']|] eqn:E; [|vm_compute in E; discriminate].
  assert (n = 1) as ->.
  { assert (fst <$> mm_evict_expired_n (at_ 1) 0 s = Some 1) as Hn by (vm_compute; reflexivity). rewrite E in Hn. simpl in Hn. congruence. }
  exists s'. split; [reflexivity|]. exact (mm_lru_evict_expired (at_ 1) 0 s 1 s' Hf ltac:(lia) E).
Defined.

(** * Behaviours the code does not mean to have *)

(** A promotion does not move the eviction hint. After an eviction the
    hint names the new tail; when a read promotes that item to the front, the
    next insertion still starts its search there and evicts the most recently
    used item, while both older items stay. *)
Example mm_lru_evicts_promoted_item :
  (fun rs => (rs.1, keys rs.2)) <$> run (trace [Set_ 1 0; Set_ 2 0; Set_ 3 0; Set_ 4 0; Promote 2]) (cache 3 1000 0 no_callbacks) =
    Some ([RUnit; RUnit; RUnit; RUnit; RBool true], [2; 4; 3]) /\
  (fun rs => keys rs.2) <$> run (trace [Set_ 1 0; Set_ 2 0; Set_ 3 0; Set_ 4 0; Promote 2; Set_ 5 0]) (cache 3 1000 0 no_callbacks) =
    Some [5; 4; 3].
Proof. split; vm_compute; reflexivity. Qed.

(** With an insertion point, a flush that meets pinned items leaves a tail
    bit behind while it resets the tail counter; the next removal of that item
    takes the counter below zero and fails the assertion in
    update_lru_insertion_point. *)
Example mm_lru_flush_breaks_insertion_point :
  let pinned_flush := [Set_ 1 0; Set_ 2 0; Set_ 3 0; Set_ 4 0; Get 1; Get 2; Flush] in
  (fun rs => (keys rs.2, tail_size_ (q_ rs.2), is_tail 1%positive (q_ rs.2))) <$> run (trace pinned_flush) (cache 8 1000 1 no_callbacks) =
    Some ([2; 1], 0, true) /\
  run (trace (pinned_flush ++ [Release 1%positive; Del 1])) (cache 8 1000 1 no_callbacks) = None.
Proof. split; vm_compute; reflexivity. Qed.

(** Pop_lru moves the key out of the item before it erases the map entry,
    and the map finds its entry through the item's key: for keys that a move
    empties, the entry stays and points to an item handed to the reclaimer. *)
Example mm_lru_pop_lru_dangles :
  (fun rs => (rs.1, keys rs.2, map_ rs.2 !! 1, retired_ rs.2)) <$>
    run (TP := params (fun _ => 0)) (trace [Set_ 1 7; PopLru]) (cache 3 1000 0 no_callbacks) =
  Some ([RUnit; RPair (Some (1, 7))], [], Some 1%positive, [1%positive]).
Proof. vm_compute. reflexivity. Qed.

(** An update that takes the cache over its memory limit may evict and retire
    the updated item itself, since a write does not promote it. update_existing
    then reads the retired item for its callback, whose value the eviction
    callback has moved away, and set_with_expiry writes the retired item's
    expiry: with the reclaimer free to delete it, both are uses after free. *)
Example mm_lru_update_uses_retired_item :
  (fun rs => (keys rs.2, log_ rs.2, retired_ rs.2, stale_uses_ rs.2)) <$> run (trace [Set_ 1 5; Set_ 1 500]) (cache 8 100 0 all_callbacks) =
  Some ([], [EvInsert 1 5; EvEvict 1 500; EvUpdate 1 0], [1%positive], [1%positive]) /\
  (fun rs => (keys rs.2, retired_ rs.2, stale_uses_ rs.2)) <$>
    run (trace [Set_ 1 5; Set_ 2 5; SetWithExpiry 1 80 2000000000]) (cache 8 100 0 no_callbacks) =
  Some ([2], [1%positive], [1%positive; 1%positive]).
Proof. split; vm_compute; reflexivity. Qed.

(** An expired item that no sweep has reached is absent for contains and for
    peek_for_get, while get and peek, which check no expiry, return it. *)
Example mm_lru_get_returns_expired :
  fst <$> run (trace [SetWithExpiry 1 5 500; Contains 1; PeekForGet 1; Get 1; Peek 1]) (cache 3 1000 0 no_callbacks) =
  Some [RUnit; RBool false; RHandle None; RHandle (Some (1%positive, 5)); RHandle (Some (1%positive, 5))].
Proof. vm_compute. reflexivity. Qed.
