(* ===== verification/HashBucket.v ===== *)
(** Buckets of detail/concurrent_hash_table.hpp: the memory of the items that
    carry the embedded chain link, the loops over a chain, the interface between
    the table and its probing style ([Probing], the [if constexpr (kIsF14)] of
    the source) with its laws, and the chain-mode bucket that meets them. *)

From S2P Require Import Prelude.

(** * Items *)

(** An item is its address; [None] is [nullptr]. *)
Definition node := positive.
Bind Scope positive_scope with node.
Abbreviation node_ptr := (option node).

Section items.
Context {Key : Type}.

(** The fields of the items the table reads and writes. *)
Record hmem := HMem {
  keys : gmap node Key;
  links : gmap node node_ptr;
  hashes : gmap node Z
}.

(** An access to an item that does not exist fails; a link that was never set is
    the null pointer. *)
Definition hash_chain_next (m : hmem) (p : node) : option node_ptr :=
  _ ← keys m !! p; Some (default None (links m !! p)).
Definition cached_hash (m : hmem) (p : node) : option Z := hashes m !! p.
Definition set_hash_chain_next (p : node) (q : node_ptr) (m : hmem) : hmem :=
  HMem (keys m) (<[p := q]> (links m)) (hashes m).
Definition set_cached_hash (p : node) (h : Z) (m : hmem) : hmem :=
  HMem (keys m) (links m) (<[p := h]> (hashes m)).

(** Enough rounds for a walk over distinct items. *)
Definition walk_fuel (m : hmem) : nat := size (keys m).

End items.
#[global] Arguments hmem : clear implicits.

(** * Chains *)

(** The list of items a head pointer leads to. *)
Fixpoint chain (L : gmap node node_ptr) (h : node_ptr) (l : list node) : Prop :=
  match l with
  | [] => h = None
  | p :: l => h = Some p /\ chain L (default None (L !! p)) l
  end.

Lemma chain_frame L L' h l : (forall p, p ∈ l -> L' !! p = L !! p) -> chain L h l -> chain L' h l.
Proof.
  revert h. induction l as [|p l IH]; intros h Hf; [done|]. intros (-> & Hl).
  split; [done|]. rewrite Hf by left. apply IH; [|done]. intros q Hq. apply Hf. by right.
Qed.

Lemma chain_update L h l p q : p ∉ l -> chain L h l -> chain (<[p := q]> L) h l.
Proof. intros Hp. apply chain_frame. intros x Hx. rewrite lookup_insert_ne; [done|]. by intros ->. Qed.

Lemma chain_cons L h l p : p ∉ l -> chain L h l -> chain (<[p := h]> L) (Some p) (p :: l).
Proof.
  intros Hp Hl. split; [done|]. rewrite lookup_insert_eq. by apply chain_update.
Qed.

(** Redirecting the last link of a prefix. *)
Lemma chain_relink L h l1 q l2 r l3 :
  chain L h (l1 ++ q :: l2) -> q ∉ l1 -> q ∉ l3 -> (forall p, p ∈ l1 -> p ∉ l3) ->
  chain (<[q := r]> L) r l3 -> chain (<[q := r]> L) h (l1 ++ q :: l3).
Proof.
  revert h. induction l1 as [|p l1 IH]; intros h; cbn [app].
  - intros (-> & _) _ _ _ Hr. split; [done|]. by rewrite lookup_insert_eq.
  - intros (-> & Hl) Hq1 Hq3 Hd Hr. split; [done|].
    rewrite lookup_insert_ne by (intros ->; apply Hq1; left).
    apply IH; [done|..|done]; [set_solver|done|set_solver].
Qed.

(** * Loops over a chain *)

Section loops.
Context {Key : Type} `{EqDecision Key}.
Implicit Types (m : hmem Key) (key : Key).

(** [while (node) { if (equal_(node->key, key)) return node; node = next; }] *)
Fixpoint chain_find (fuel : nat) m key (curr : node_ptr) : option node_ptr :=
  match curr, fuel with
  | None, _ => Some None
  | Some _, O => None
  | Some c, S fuel =>
      k ← keys m !! c;
      if decide (k = key) then Some (Some c)
      else next ← hash_chain_next m c; chain_find fuel m key next
  end.

(** The erasing walk: unlinks the item with the key and returns it with the new
    head. *)
Fixpoint chain_erase (fuel : nat) m key (head prev curr : node_ptr) : option (node_ptr * node_ptr * hmem Key) :=
  match curr, fuel with
  | None, _ => Some (None, head, m)
  | Some _, O => None
  | Some c, S fuel =>
      k ← keys m !! c;
      next ← hash_chain_next m c;
      if decide (k = key) then
        let '(head, m) :=
          match prev with
          | Some p => (head, set_hash_chain_next p next m)
          | None => (next, m)
          end in
        Some (Some c, head, set_hash_chain_next c None m)
      else chain_erase fuel m key head (Some c) next
  end.

(** The assigning walk: puts [value] in the place of the item with the key. *)
Fixpoint chain_assign (fuel : nat) m key (h : Z) (value : node) (head prev curr : node_ptr)
  : option (node_ptr * node_ptr * hmem Key) :=
  match curr, fuel with
  | None, _ => Some (None, head, m)
  | Some _, O => None
  | Some c, S fuel =>
      k ← keys m !! c;
      next ← hash_chain_next m c;
      if decide (k = key) then
        let m := set_hash_chain_next value next (set_cached_hash value h m) in
        let '(head, m) :=
          match prev with
          | Some p => (head, set_hash_chain_next p (Some value) m)
          | None => (Some value, m)
          end in
        Some (Some c, head, set_hash_chain_next c None m)
      else chain_assign fuel m key h value head (Some c) next
  end.

(** The clearing walk. *)
Fixpoint chain_clear (fuel : nat) m (curr : node_ptr) : option (hmem Key) :=
  match curr, fuel with
  | None, _ => Some m
  | Some _, O => None
  | Some c, S fuel => next ← hash_chain_next m c; chain_clear fuel (set_hash_chain_next c None m) next
  end.

(** The migrating walk: the next link is read before [f] moves the item. *)
Fixpoint chain_drain {X : Type} (f : node -> hmem Key -> X -> option (hmem Key * X))
    (fuel : nat) m (x : X) (curr : node_ptr) : option (hmem Key * X) :=
  match curr, fuel with
  | None, _ => Some (m, x)
  | Some _, O => None
  | Some c, S fuel =>
      next ← hash_chain_next m c;
      '(m, x) ← f c m x;
      chain_drain f fuel m x next
  end.

End loops.

(** * What the loops do *)

Section loop_lemmas.
Context {Key : Type} `{EqDecision Key}.
Implicit Types (m : hmem Key) (key : Key).

(** Only links of items in [S] change. *)
Definition relinks (S : gset node) m m' : Prop :=
  keys m' = keys m /\ hashes m' = hashes m /\ forall p, p ∉ S -> links m' !! p = links m !! p.

#[global] Instance relinks_refl S : Reflexive (relinks S).
Proof. by intros m. Qed.

#[global] Instance relinks_trans S : Transitive (relinks S).
Proof.
  intros m1 m2 m3 (K1 & H1 & L1) (K2 & H2 & L2). repeat split; [congruence..|].
  intros p Hp. by rewrite L2, L1.
Qed.

Lemma relinks_mono S S' m m' : S ⊆ S' -> relinks S m m' -> relinks S' m m'.
Proof. intros HS (? & ? & HL). repeat split; [done..|]. set_solver. Qed.

Lemma relinks_set S p q m : p ∈ S -> relinks S m (set_hash_chain_next p q m).
Proof. intros Hp. repeat split. intros x Hx. cbn. rewrite lookup_insert_ne; [done|]. by intros ->. Qed.

Lemma chain_relinks S m m' h l : relinks S m m' -> (forall p, p ∈ l -> p ∉ S) -> chain (links m) h l -> chain (links m') h l.
Proof. intros (_ & _ & HL) Hl. apply chain_frame. auto. Qed.

Lemma chain_find_spec fuel m key h l :
  chain (links m) h l -> (forall p, p ∈ l -> is_Some (keys m !! p)) -> (length l <= fuel)%nat ->
  exists r, chain_find fuel m key h = Some r /\
    match r with
    | Some p => p ∈ l /\ keys m !! p = Some key
    | None => forall p, p ∈ l -> keys m !! p <> Some key
    end.
Proof.
  revert fuel h. induction l as [|c l IH]; intros fuel h Hc Hk Hf.
  - cbn in Hc. subst h. exists None. split; [by destruct fuel|]. set_solver.
  - destruct Hc as (-> & Hc). destruct fuel as [|fuel]; [cbn in Hf; lia|].
    destruct (Hk c ltac:(left)) as [k Ek]. cbn [chain_find]. unfold hash_chain_next. rewrite !Ek. cbn [mbind option_bind].
    destruct (decide (k = key)) as [->|Hne].
    + exists (Some c). split; [done|]. split; [left|done].
    + destruct (IH fuel _ Hc) as (r & Er & Hr); [set_solver|cbn in Hf; lia|].
      exists r. split; [done|]. destruct r as [p|]; [set_solver|].
      intros p [->|Hp]%elem_of_cons; [congruence|auto].
Qed.

(** The link of the last item before the one removed, or the head. *)
Lemma chain_bypass m head l1 c l2 r l3 :
  chain (links m) head (l1 ++ c :: l2) -> NoDup (l1 ++ c :: l2) ->
  chain (links m) r l3 -> (forall p, p ∈ l1 -> p ∉ l3) ->
  let '(head', m') := match last l1 with Some p => (head, set_hash_chain_next p r m) | None => (r, m) end in
  chain (links m') head' (l1 ++ l3) /\ relinks (list_to_set l1) m m'.
Proof.
  intros Hc Hnd Hr Hd. destruct l1 as [|q l1 _] using rev_ind; [done|].
  rewrite last_snoc. rewrite <- app_assoc in *. cbn [app] in *. apply NoDup_app_mid in Hnd as (Hq1 & Hq2 & _).
  split; [|apply relinks_set; set_solver].
  apply (chain_relink _ _ l1 q (c :: l2)); [done|done|set_solver|set_solver|].
  apply chain_update; [set_solver|done].
Qed.

Lemma chain_erase_spec fuel m key head l1 curr l2 :
  chain (links m) head (l1 ++ l2) -> NoDup (l1 ++ l2) -> chain (links m) curr l2 ->
  (forall p, p ∈ l2 -> is_Some (keys m !! p)) -> (length l2 <= fuel)%nat ->
  exists r head' m', chain_erase fuel m key head (last l1) curr = Some (r, head', m') /\
    relinks (list_to_set (l1 ++ l2)) m m' /\
    match r with
    | Some c => keys m !! c = Some key /\ exists la lb, l1 ++ l2 = la ++ c :: lb /\ chain (links m') head' (la ++ lb)
    | None => head' = head /\ m' = m /\ forall p, p ∈ l2 -> keys m !! p <> Some key
    end.
Proof.
  revert fuel l1 curr. induction l2 as [|c l2 IH]; intros fuel l1 curr Hh Hnd Hc Hk Hf.
  - cbn in Hc. subst curr. exists None, head, m. split; [by destruct fuel|]. split; [done|]. set_solver.
  - destruct Hc as (-> & Hc). destruct fuel as [|fuel]; [cbn in Hf; lia|].
    destruct (Hk c ltac:(left)) as [k Ek]. cbn [chain_erase]. unfold hash_chain_next. rewrite !Ek.
    cbn [mbind option_bind]. destruct (decide (k = key)) as [->|Hne].
    + assert (forall p, p ∈ l1 -> p ∉ l2) as Hd.
      { apply NoDup_app in Hnd as (_ & Hd & _). set_solver. }
      pose proof (chain_bypass m head l1 c l2 _ l2 Hh Hnd Hc Hd) as Hb.
      destruct (match last l1 with Some p => _ | None => _ end) as [head' m'] eqn:E. destruct Hb as [Hb Hr].
      apply NoDup_app_mid in Hnd as (Hc1 & Hc2 & Hnd).
      exists (Some c), head', (set_hash_chain_next c None m'). split; [done|]. split.
      { transitivity m'; [revert Hr; apply relinks_mono; set_solver|apply relinks_set; set_solver]. }
      split; [done|]. exists l1, l2. split; [done|]. apply chain_update; [set_solver|done].
    + destruct (IH fuel (l1 ++ [c]) (default None (links m !! c))) as (r & head' & m' & E & Hr & Hres);
        [by rewrite <- app_assoc|by rewrite <- app_assoc|done|set_solver|cbn in Hf; lia|].
      rewrite last_snoc in E. rewrite <- app_assoc in Hr, Hres. exists r, head', m'. split; [done|]. split; [done|].
      destruct r as [p|]; [done|]. destruct Hres as (? & ? & Hp). split; [done|]. split; [done|].
      intros p [->|?]%elem_of_cons; [congruence|auto].
Qed.

Lemma chain_assign_spec fuel m key h value head l1 curr l2 :
  chain (links m) head (l1 ++ l2) -> NoDup (l1 ++ l2) -> chain (links m) curr l2 -> value ∉ l1 ++ l2 ->
  (forall p, p ∈ l2 -> is_Some (keys m !! p)) -> (length l2 <= fuel)%nat ->
  exists r head' m', chain_assign fuel m key h value head (last l1) curr = Some (r, head', m') /\
    match r with
    | Some c => keys m !! c = Some key /\ relinks ({[value]} ∪ list_to_set (l1 ++ l2)) (set_cached_hash value h m) m' /\
        exists la lb, l1 ++ l2 = la ++ c :: lb /\ chain (links m') head' (la ++ value :: lb)
    | None => head' = head /\ m' = m /\ forall p, p ∈ l2 -> keys m !! p <> Some key
    end.
Proof.
  revert fuel l1 curr. induction l2 as [|c l2 IH]; intros fuel l1 curr Hh Hnd Hc Hv Hk Hf.
  - cbn in Hc. subst curr. exists None, head, m. split; [by destruct fuel|]. set_solver.
  - destruct Hc as (-> & Hc). destruct fuel as [|fuel]; [cbn in Hf; lia|].
    destruct (Hk c ltac:(left)) as [k Ek]. cbn [chain_assign]. unfold hash_chain_next. rewrite !Ek.
    cbn [mbind option_bind]. destruct (decide (k = key)) as [->|Hne].
    + set (m1 := set_hash_chain_next value (default None (links m !! c)) (set_cached_hash value h m)).
      assert (chain (links m1) (Some value) (value :: l2)) as Hc1.
      { apply (chain_cons (links m)); [set_solver|done]. }
      assert (chain (links m1) head (l1 ++ c :: l2)) as Hh1 by (apply chain_update; [set_solver|done]).
      assert (forall p, p ∈ l1 -> p ∉ value :: l2) as Hd.
      { apply NoDup_app in Hnd as (_ & Hd & _). set_solver. }
      pose proof (chain_bypass m1 head l1 c l2 (Some value) (value :: l2) Hh1 Hnd Hc1 Hd) as Hb.
      destruct (match last l1 with Some p => _ | None => _ end) as [head' m'] eqn:E. destruct Hb as [Hb Hr].
      apply NoDup_app_mid in Hnd as (Hc2 & Hc3 & Hnd).
      exists (Some c), head', (set_hash_chain_next c None m'). split; [done|]. split; [done|]. split.
      { transitivity m1; [apply relinks_set; set_solver|].
        transitivity m'; [revert Hr; apply relinks_mono; set_solver|apply relinks_set; set_solver]. }
      exists l1, l2. split; [done|]. apply chain_update; [set_solver|done].
    + destruct (IH fuel (l1 ++ [c]) (default None (links m !! c))) as (r & head' & m' & E & Hres);
        [by rewrite <- app_assoc|by rewrite <- app_assoc|done|set_solver|set_solver|cbn in Hf; lia|].
      rewrite last_snoc in E. rewrite <- app_assoc in Hres. exists r, head', m'. split; [done|].
      destruct r as [p|]; [done|]. destruct Hres as (? & ? & Hp). split; [done|]. split; [done|].
      intros p [->|?]%elem_of_cons; [congruence|auto].
Qed.

Lemma chain_clear_spec fuel m h l :
  chain (links m) h l -> NoDup l -> (forall p, p ∈ l -> is_Some (keys m !! p)) -> (length l <= fuel)%nat ->
  exists m', chain_clear fuel m h = Some m' /\ relinks (list_to_set l) m m'.
Proof.
  revert fuel m h. induction l as [|c l IH]; intros fuel m h Hc Hnd Hk Hf.
  - cbn in Hc. subst h. exists m. split; [by destruct fuel|done].
  - destruct Hc as (-> & Hc). destruct fuel as [|fuel]; [cbn in Hf; lia|].
    apply NoDup_cons in Hnd as [Hcl Hnd]. destruct (Hk c ltac:(left)) as [k Ek].
    cbn [chain_clear]. unfold hash_chain_next. rewrite Ek. cbn [mbind option_bind].
    destruct (IH fuel (set_hash_chain_next c None m) (default None (links m !! c))) as (m' & E & Hr);
      [by apply chain_update|done|set_solver|cbn in Hf; lia|].
    exists m'. split; [done|]. transitivity (set_hash_chain_next c None m); [apply relinks_set; set_solver|].
    revert Hr. apply relinks_mono. set_solver.
Qed.

(** [R] holds the items still to be moved. *)
Lemma chain_drain_spec {X} (f : node -> hmem Key -> X -> option (hmem Key * X)) (P : gset node -> hmem Key -> X -> Prop) :
  (forall R p m x, p ∈ R -> P R m x ->
     exists m' x', f p m x = Some (m', x') /\ relinks {[p]} m m' /\ P (R ∖ {[p]}) m' x') ->
  forall l fuel m x h, chain (links m) h l -> NoDup l -> (forall p, p ∈ l -> is_Some (keys m !! p)) -> (length l <= fuel)%nat ->
  forall R, (forall p, p ∈ l -> p ∈ R) -> P R m x ->
  exists m' x', chain_drain f fuel m x h = Some (m', x') /\ relinks (list_to_set l) m m' /\ P (R ∖ list_to_set l) m' x'.
Proof.
  intros Hf l. induction l as [|c l IH]; intros fuel m x h Hc Hnd Hk Hl R HR HP.
  - cbn in Hc. subst h. exists m, x. split; [by destruct fuel|]. split; [done|].
    replace (R ∖ list_to_set []) with R by set_solver. done.
  - destruct Hc as (-> & Hc). destruct fuel as [|fuel]; [cbn in Hl; lia|].
    apply NoDup_cons in Hnd as [Hcl Hnd]. destruct (Hk c ltac:(left)) as [k Ek].
    cbn [chain_drain]. unfold hash_chain_next. rewrite Ek. cbn [mbind option_bind].
    destruct (Hf R c m x) as (m1 & x1 & E1 & Hr1 & HP1); [apply HR; left|done|]. rewrite E1. cbn [mbind option_bind].
    destruct (IH fuel m1 x1 (default None (links m !! c))) with (R := R ∖ {[c]}) as (m2 & x2 & E2 & Hr2 & HP2); [|done|rewrite (proj1 Hr1); set_solver|cbn in Hl; lia|set_solver|done|].
    { revert Hc. apply (chain_relinks {[c]} m m1); [done|set_solver]. }
    exists m2, x2. split; [done|]. split.
    { transitivity m1; [revert Hr1|revert Hr2]; apply relinks_mono; set_solver. }
    replace (R ∖ list_to_set (c :: l)) with (R ∖ {[c]} ∖ list_to_set l) by set_solver. done.
Qed.

End loop_lemmas.

(** * The interface of a probing style *)

(** The operations the table performs on one bucket or chunk. *)
Class Probing (Key : Type) := {
  bucket : Type;
  (** [kIsF14] *)
  kIsF14 : bool;
  empty_bucket : bucket;
  version : bucket -> Z;
  (** [version.fetch_add(n)] *)
  bump : Z -> bucket -> bucket;
  bucket_find : hmem Key -> bucket -> Key -> option node_ptr;
  (** The hazard-pointer walk; the fuel bounds its restarts. *)
  bucket_find_hazptr : nat -> hmem Key -> bucket -> Key -> option node_ptr;
  (** Insertion of a new item with its hash into the current array. *)
  bucket_insert : hmem Key -> bucket -> node -> Z -> option (bucket * hmem Key);
  (** Insertion into the array a rehash fills, with the tag of the item; the
      flag says that the item comes from a chain. *)
  bucket_place : bool -> hmem Key -> bucket -> node -> Z -> option (bucket * hmem Key);
  (** The tag an item with a hash is placed under. *)
  place_tag : Z -> Z;
  bucket_erase : hmem Key -> bucket -> Key -> option (node_ptr * bucket * hmem Key);
  (** The item replaced by the new one, with its hash. *)
  bucket_assign : hmem Key -> bucket -> Key -> Z -> node -> option (node_ptr * bucket * hmem Key);
  (** The same while an incremental rehash is in flight. *)
  bucket_assign_rehash : hmem Key -> bucket -> Key -> Z -> node -> option (node_ptr * bucket * hmem Key);
  bucket_clear : hmem Key -> bucket -> option (bucket * hmem Key);
  (** Moves every item with [f], which gets its tag and whether it was chained. *)
  bucket_drain : forall {X : Type}, (bool -> node -> Z -> hmem Key -> X -> option (hmem Key * X)) ->
    hmem Key -> X -> bucket -> option (hmem Key * X * bucket)
}.

Section contract.
Context {Key : Type}.
Context (hash : Key -> Z).
Implicit Types (m : hmem Key) (S : gset node).

(** The items of a bucket carry their key and its hash, and no two share a key. *)
Definition items_ok m S : Prop :=
  (forall p, p ∈ S -> exists k, keys m !! p = Some k /\ hashes m !! p = Some (hash k)) /\
  (forall p q k, p ∈ S -> q ∈ S -> keys m !! p = Some k -> keys m !! q = Some k -> p = q).

Lemma items_ok_mono m S S' : S' ⊆ S -> items_ok m S -> items_ok m S'.
Proof. intros HS [H1 H2]. split; [set_solver|]. intros p q k Hp Hq. apply H2; set_solver. Qed.

Lemma items_ok_relinks T m m' S : relinks T m m' -> items_ok m S -> items_ok m' S.
Proof. intros (HK & HH & _). unfold items_ok. by rewrite HK, HH. Qed.

(** A result of a search: the item with the key, or its absence. *)
Definition found m S (key : Key) (r : node_ptr) : Prop :=
  match r with
  | Some p => p ∈ S /\ keys m !! p = Some key
  | None => forall p, p ∈ S -> keys m !! p <> Some key
  end.

(** What a probing style promises to the table: [holds m b S] says that the
    bucket [b] stores exactly the items [S]. *)
Class ProbingLaws `{P : Probing Key} := {
  holds : hmem Key -> bucket -> gset node -> Prop;
  (** Whether an assignment during a rehash installs the new item. *)
  assign_rehash_installs : bool;
  holds_empty m : holds m empty_bucket ∅;
  holds_bump m b n S : holds m b S -> holds m (bump n b) S;
  holds_relinks T m m' b S : relinks T m m' -> (forall p, p ∈ S -> p ∉ T) -> holds m b S -> holds m' b S;
  holds_hash m b S p h : p ∉ S -> holds m b S -> holds (set_cached_hash p h m) b S;
  version_empty : version empty_bucket = 0;
  version_bump n b : version (bump n b) = u64 (version b + n);
  find_ok m b S key : holds m b S -> items_ok m S ->
    exists r, bucket_find m b key = Some r /\ found m S key r;
  insert_ok m b S p h : holds m b S -> items_ok m S -> p ∉ S -> hashes m !! p = Some h -> is_Some (keys m !! p) ->
    exists b' m', bucket_insert m b p h = Some (b', m') /\ relinks {[p]} m m' /\ version b' = version b /\
      holds m' b' ({[p]} ∪ S);
  place_ok c m b S p h : holds m b S -> items_ok m S -> p ∉ S -> hashes m !! p = Some h -> is_Some (keys m !! p) ->
    exists b' m', bucket_place c m b p (place_tag h) = Some (b', m') /\ relinks {[p]} m m' /\ version b' = version b /\
      holds m' b' ({[p]} ∪ S);
  erase_ok m b S key : holds m b S -> items_ok m S ->
    exists r b' m', bucket_erase m b key = Some (r, b', m') /\ found m S key r /\ relinks S m m' /\ version b' = version b /\
      match r with Some p => holds m' b' (S ∖ {[p]}) | None => b' = b /\ m' = m end;
  assign_ok m b S key v : holds m b S -> items_ok m S -> v ∉ S ->
    exists r b' m', bucket_assign m b key (hash key) v = Some (r, b', m') /\ found m S key r /\ version b' = version b /\
      match r with
      | Some p => relinks ({[v]} ∪ S) (set_cached_hash v (hash key) m) m' /\ holds m' b' ({[v]} ∪ S ∖ {[p]})
      | None => b' = b /\ m' = m
      end;
  assign_rehash_ok m b S key v : holds m b S -> items_ok m S -> v ∉ S ->
    exists r b' m', bucket_assign_rehash m b key (hash key) v = Some (r, b', m') /\ found m S key r /\ version b' = version b /\
      match r with
      | Some p =>
          if assign_rehash_installs
          then relinks ({[v]} ∪ S) (set_cached_hash v (hash key) m) m' /\ holds m' b' ({[v]} ∪ S ∖ {[p]})
          else relinks {[v]} (set_cached_hash v (hash key) m) m' /\ holds m' b' S
      | None => b' = b /\ m' = m
      end;
  clear_ok m b S : holds m b S -> items_ok m S ->
    exists b' m', bucket_clear m b = Some (b', m') /\ relinks S m m' /\ holds m' b' ∅ /\
      version b' = version b;
  drain_ok X (f : bool -> node -> Z -> hmem Key -> X -> option (hmem Key * X)) (Q : gset node -> hmem Key -> X -> Prop) m x b S :
    (forall c R p h m x, p ∈ R -> hashes m !! p = Some h -> Q R m x ->
       exists m' x', f c p (place_tag h) m x = Some (m', x') /\ relinks {[p]} m m' /\ Q (R ∖ {[p]}) m' x') ->
    holds m b S -> items_ok m S -> Q S m x ->
    exists m' x' b', bucket_drain f m x b = Some (m', x', b') /\ relinks S m m' /\ Q ∅ m' x' /\ holds m' b' ∅ /\
      version b' = version b
}.

End contract.

(** * The hazard-pointer walk *)

Section hazptr_walk.
Context {Key : Type} `{EqDecision Key}.
Implicit Types (m : hmem Key) (key : Key).

(** Bounded by 64 steps, as the code is. *)
Fixpoint is_reachable (steps : nat) m (head : node_ptr) (target : node) : option bool :=
  match head, steps with
  | None, _ | _, O => Some false
  | Some h, S steps =>
      if decide (h = target) then Some true
      else next ← hash_chain_next m h; is_reachable steps m next target
  end.

(** A walk that restarts from the head whenever the current item cannot be
    reached from it any more. *)
Fixpoint hazptr_walk (fuel : nat) m key (head curr : node_ptr) : option node_ptr :=
  match curr, fuel with
  | None, _ => Some None
  | Some _, O => None
  | Some c, S fuel =>
      k ← keys m !! c;
      if decide (k = key) then Some (Some c)
      else
        next ← hash_chain_next m c;
        match next with
        | None => Some None
        | Some _ =>
            ok ← (if decide (head = Some c) then Some true else is_reachable 64 m head c);
            if ok : bool then hazptr_walk fuel m key head next else hazptr_walk fuel m key head head
        end
  end.
End hazptr_walk.

(** * The chain-mode bucket *)

Section chain_mode.
Context {Key : Type} `{EqDecision Key}.
Implicit Types (m : hmem Key) (key : Key).

(** [bucket_type]; the spinlock is modelled on its own. *)
Record bucket_type := BucketType { embed_head : node_ptr; bucket_version : Z }.

Definition with_head (h : node_ptr) (b : bucket_type) : bucket_type := BucketType h (bucket_version b).

Definition find_node_embedded m (b : bucket_type) key : option node_ptr :=
  chain_find (walk_fuel m) m key (embed_head b).

Definition find_hazptr_embedded (fuel : nat) m (b : bucket_type) key : option node_ptr :=
  hazptr_walk fuel m key (embed_head b) (embed_head b).

Definition chain_push m (b : bucket_type) (value : node) : bucket_type * hmem Key :=
  (with_head (Some value) b, set_hash_chain_next value (embed_head b) m).

Definition chain_bucket_erase m (b : bucket_type) key : option (node_ptr * bucket_type * hmem Key) :=
  '(r, head, m) ← chain_erase (walk_fuel m) m key (embed_head b) None (embed_head b);
  Some (r, with_head head b, m).

Definition chain_bucket_assign m (b : bucket_type) key (h : Z) (value : node) : option (node_ptr * bucket_type * hmem Key) :=
  '(r, head, m) ← chain_assign (walk_fuel m) m key h value (embed_head b) None (embed_head b);
  Some (r, with_head head b, m).

Definition chain_bucket_clear m (b : bucket_type) : option (bucket_type * hmem Key) :=
  m ← chain_clear (walk_fuel m) m (embed_head b); Some (with_head None b, m).

Definition chain_bucket_drain {X} (f : bool -> node -> Z -> hmem Key -> X -> option (hmem Key * X))
    m (x : X) (b : bucket_type) : option (hmem Key * X * bucket_type) :=
  '(m, x) ← chain_drain (fun p => f true p 0) (walk_fuel m) m x (embed_head b);
  Some (m, x, with_head None b).

Definition chain_probing_tag : Probing Key := {|
  bucket := bucket_type;
  kIsF14 := false;
  empty_bucket := BucketType None 0;
  version := bucket_version;
  bump n b := BucketType (embed_head b) (u64 (bucket_version b + n));
  bucket_find := find_node_embedded;
  bucket_find_hazptr := find_hazptr_embedded;
  bucket_insert m b value _ := Some (chain_push m b value);
  bucket_place _ m b value _ := Some (chain_push m b value);
  place_tag _ := 0;
  bucket_erase := chain_bucket_erase;
  bucket_assign := chain_bucket_assign;
  bucket_assign_rehash := chain_bucket_assign;
  bucket_clear := chain_bucket_clear;
  bucket_drain := @chain_bucket_drain
|}.

Definition chain_holds m (b : bucket_type) (S : gset node) : Prop :=
  exists l, chain (links m) (embed_head b) l /\ NoDup l /\ S = list_to_set l.

Lemma chain_holds_nil m v : chain_holds m (BucketType None v) ∅.
Proof. exists []. split; [done|]. split; [constructor|done]. Qed.

Context (hash : Key -> Z).

(** A list of distinct items fits the fuel of the walks. *)
Lemma walk_fuel_enough m l : NoDup l -> (forall p, p ∈ l -> is_Some (keys m !! p)) -> (length l <= walk_fuel m)%nat.
Proof.
  intros Hnd Hk. unfold walk_fuel. rewrite <- size_dom.
  rewrite <- (size_list_to_set (C := gset node) l Hnd). apply subseteq_size. intros p Hp.
  apply elem_of_list_to_set in Hp. by apply elem_of_dom, Hk.
Qed.

Lemma items_keys m l : items_ok hash m (list_to_set l) -> forall p, p ∈ l -> is_Some (keys m !! p).
Proof. intros [Hk _] p Hp. destruct (Hk p) as (k & -> & _); [by apply elem_of_list_to_set|eauto]. Qed.

Lemma chain_found m l key r :
  (match r with Some p => p ∈ l /\ keys m !! p = Some key | None => forall p, p ∈ l -> keys m !! p <> Some key end) ->
  found m (list_to_set l) key r.
Proof. destruct r; cbn; set_solver. Qed.

Lemma chain_push_ok m b S p : chain_holds m b S -> p ∉ S ->
  relinks {[p]} m (chain_push m b p).2 /\ chain_holds (chain_push m b p).2 (chain_push m b p).1 ({[p]} ∪ S).
Proof.
  intros (l & Hc & Hnd & ->) Hp. split; [apply relinks_set; set_solver|].
  exists (p :: l). split; [apply chain_cons; [set_solver|done]|]. split; [|done]. apply NoDup_cons. set_solver.
Qed.

Lemma chain_erase_ok m b S key : chain_holds m b S -> items_ok hash m S ->
  exists r b' m', chain_bucket_erase m b key = Some (r, b', m') /\ found m S key r /\ relinks S m m' /\
    bucket_version b' = bucket_version b /\
    match r with Some p => chain_holds m' b' (S ∖ {[p]}) | None => b' = b /\ m' = m end.
Proof.
  intros (l & Hc & Hnd & ->) Hi. pose proof (items_keys _ _ Hi) as Hk.
  destruct (chain_erase_spec (walk_fuel m) m key (embed_head b) [] (embed_head b) l Hc Hnd Hc Hk) as (r & h' & m' & E & Hr & Hres);
    [by apply walk_fuel_enough|]. cbn [last app] in *.
  exists r, (with_head h' b), m'. unfold chain_bucket_erase. rewrite E. split; [done|].
  destruct r as [c|].
  - destruct Hres as (Hck & la & lb & -> & Hc'). apply NoDup_app_mid in Hnd as (? & ? & Hnd).
    split; [split; [set_solver|done]|]. split; [done|]. split; [done|]. exists (la ++ lb). split; [done|]. split; [done|]. set_solver.
  - destruct Hres as (-> & -> & Hn). split; [set_solver|]. split; [done|]. split; [done|]. by destruct b.
Qed.

Lemma chain_assign_ok m b S key v : chain_holds m b S -> items_ok hash m S -> v ∉ S ->
  exists r b' m', chain_bucket_assign m b key (hash key) v = Some (r, b', m') /\ found m S key r /\
    bucket_version b' = bucket_version b /\
    match r with
    | Some p => relinks ({[v]} ∪ S) (set_cached_hash v (hash key) m) m' /\ chain_holds m' b' ({[v]} ∪ S ∖ {[p]})
    | None => b' = b /\ m' = m
    end.
Proof.
  intros (l & Hc & Hnd & ->) Hi Hv. pose proof (items_keys _ _ Hi) as Hk.
  destruct (chain_assign_spec (walk_fuel m) m key (hash key) v (embed_head b) [] (embed_head b) l Hc Hnd Hc) as (r & h' & m' & E & Hres);
    [set_solver|done|by apply walk_fuel_enough|]. cbn [last app] in *.
  exists r, (with_head h' b), m'. unfold chain_bucket_assign. rewrite E. split; [done|].
  destruct r as [c|].
  - destruct Hres as (Hck & Hr & la & lb & -> & Hc'). apply NoDup_app_mid in Hnd as (? & ? & Hnd).
    split; [split; [set_solver|done]|]. split; [done|]. split; [done|]. exists (la ++ v :: lb). split; [done|].
    split; [apply NoDup_app_mid; set_solver|set_solver].
  - destruct Hres as (-> & -> & Hn). split; [set_solver|]. split; [done|]. by destruct b.
Qed.

Lemma chain_drain_ok X (f : bool -> node -> Z -> hmem Key -> X -> option (hmem Key * X)) (Q : gset node -> hmem Key -> X -> Prop) m x b S :
  (forall c R p h m x, p ∈ R -> hashes m !! p = Some h -> Q R m x ->
     exists m' x', f c p 0 m x = Some (m', x') /\ relinks {[p]} m m' /\ Q (R ∖ {[p]}) m' x') ->
  chain_holds m b S -> items_ok hash m S -> Q S m x ->
  exists m' x' b', chain_bucket_drain f m x b = Some (m', x', b') /\ relinks S m m' /\ Q ∅ m' x' /\ chain_holds m' b' ∅ /\
    bucket_version b' = bucket_version b.
Proof.
  intros Hf (l & Hc & Hnd & ->) Hi HQ. pose proof (items_keys _ _ Hi) as Hk.
  destruct (chain_drain_spec (fun p => f true p 0) (fun R m x => R ⊆ list_to_set l /\ items_ok hash m (list_to_set l) /\ Q R m x))
    with (l := l) (fuel := walk_fuel m) (m := m) (x := x) (h := embed_head b) (R := list_to_set l (C := gset node))
    as (m' & x' & E & Hr & HR & _ & HQ'); [|done|done|done|by apply walk_fuel_enough|set_solver|done|].
  - intros R p m1 x1 Hp (HR & Hi1 & HQ1). destruct (proj1 Hi1 p) as (k & _ & Hh); [set_solver|].
    destruct (Hf true R p _ m1 x1 Hp Hh HQ1) as (m' & x' & E & Hr & HQ'). exists m', x'. split; [done|]. split; [done|].
    split; [set_solver|]. split; [by apply (items_ok_relinks hash {[p]} m1)|done].
  - exists m', x', (with_head None b). unfold chain_bucket_drain. rewrite E. split; [done|]. split; [done|].
    replace (list_to_set l ∖ list_to_set l) with (∅ : gset node) in HQ' by set_solver. split; [done|].
    split; [apply chain_holds_nil|done].
Qed.

#[global] Instance chain_probing_laws : ProbingLaws hash (P := chain_probing_tag).
Proof.
  refine {| holds := chain_holds : hmem Key -> @bucket Key chain_probing_tag -> gset node -> Prop; assign_rehash_installs := true |}.
  - intros m. apply chain_holds_nil.
  - intros m b n S (l & ? & ? & ?). by exists l.
  - intros T m m' b S Hr Hd (l & Hc & Hnd & ->). exists l. split; [|done]. apply (chain_relinks T m); [done|set_solver|done].
  - intros m b S p h _ (l & ? & ? & ?). by exists l.
  - done.
  - done.
  - intros m b S key (l & Hc & Hnd & ->) Hi. pose proof (items_keys _ _ Hi) as Hk.
    destruct (chain_find_spec (walk_fuel m) m key (embed_head b) l Hc Hk) as (r & E & Hr); [by apply walk_fuel_enough|].
    exists r. split; [done|]. by apply chain_found.
  - intros m b S p h Hb _ Hp _ _. destruct (chain_push_ok m b S p Hb Hp). eexists _, _. by split.
  - intros c m b S p h Hb _ Hp _ _. destruct (chain_push_ok m b S p Hb Hp). eexists _, _. by split.
  - intros m b S key. apply chain_erase_ok.
  - intros m b S key v. apply chain_assign_ok.
  - intros m b S key v. apply chain_assign_ok.
  - intros m b S (l & Hc & Hnd & ->) Hi. pose proof (items_keys _ _ Hi) as Hk.
    destruct (chain_clear_spec (walk_fuel m) m (embed_head b) l Hc Hnd Hk) as (m' & E & Hr); [by apply walk_fuel_enough|].
    eexists _, m'. cbn. unfold chain_bucket_clear. rewrite E. split; [done|]. split; [done|]. split; [apply chain_holds_nil|done].
  - intros X f Q m x b S Hf. apply chain_drain_ok, Hf.
Defined.

End chain_mode.
