(* ===== verification/HashF14.v ===== *)
(** The F14 chunk of detail/concurrent_hash_table.hpp: 14 slots filtered by
    8-bit tags with an occupancy mask, and an overflow chain. The SIMD tag
    match, the bit loops, the chunk operations, and the chunk as an instance of
    the probing interface. *)

From S2P Require Import Prelude HashBucket.

(** * Tags and bit loops *)

Definition f14_tag (h : Z) : Z := u8 (Z.lor (Z.land (Z.shiftr h 57) 0x7E) 0x80).

Definition kChunkCapacity : nat := 14.
Definition kFullMask : Z := Z.shiftl 1 (Z.of_nat kChunkCapacity) - 1.
Definition kTagEmpty : Z := 0x00.
Definition kTagTombstone : Z := 0x01.

(** The scalar match: bit [i] is set when [tags[i]] is the target. *)
Fixpoint f14_match_from (i : Z) (tags : list Z) (target_tag : Z) : Z :=
  match tags with
  | [] => 0
  | t :: tags => Z.lor (if t =? target_tag then Z.shiftl 1 i else 0) (f14_match_from (i + 1) tags target_tag)
  end.
Definition f14_match_tags (tags : list Z) (target_tag : Z) : Z := f14_match_from 0 tags target_tag.

(** The SSE2 match: one 16-byte load that also covers the two bytes of the
    occupancy mask stored behind the tags. *)
Definition f14_match_tags_sse2 (tags : list Z) (occupied_mask target_tag : Z) : Z :=
  f14_match_from 0 (tags ++ [u8 occupied_mask; u8 (Z.shiftr occupied_mask 8)]) target_tag.

(** [while (!(mask & (1u << idx))) ++idx;] on a 16-bit word. *)
Fixpoint ctz_from (fuel : nat) (mask idx : Z) : Z :=
  match fuel with
  | O => idx
  | S fuel => if Z.testbit mask idx then idx else ctz_from fuel mask (idx + 1)
  end.
Definition ctz16 (mask : Z) : Z := ctz_from 16 mask 0.

(** [mask & (mask - 1)] *)
Definition drop_lowest (mask : Z) : Z := Z.land mask (mask - 1).

(** * The chunk *)

Record f14_chunk_type := Chunk {
  tags : list Z;
  occupied_mask : Z;
  chunk_version : Z;
  slots : list node_ptr;
  overflow_head : node_ptr
}.

Definition empty_chunk : f14_chunk_type :=
  Chunk (replicate kChunkCapacity kTagEmpty) 0 0 (replicate kChunkCapacity None) None.

Definition set_occupied_bit (slot : Z) (mask : Z) : Z := Z.lor mask (Z.shiftl 1 slot).
Definition clear_occupied_bit (slot : Z) (mask : Z) : Z := clear_bits mask (Z.shiftl 1 slot).

Definition set_slot (slot : Z) (tag : Z) (value : node_ptr) (occ : Z -> Z) (c : f14_chunk_type) : f14_chunk_type :=
  Chunk (<[Z.to_nat slot := tag]> (tags c)) (occ (occupied_mask c)) (chunk_version c)
    (<[Z.to_nat slot := value]> (slots c)) (overflow_head c).
Definition with_overflow (h : node_ptr) (c : f14_chunk_type) : f14_chunk_type :=
  Chunk (tags c) (occupied_mask c) (chunk_version c) (slots c) h.

(** [find_f14_empty_slot] *)
Definition find_f14_empty_slot (c : f14_chunk_type) : option Z :=
  let empty_mask := Z.land (Z.lnot (occupied_mask c)) kFullMask in
  if empty_mask =? 0 then None else Some (ctz16 empty_mask).

(** [find_empty_slot_in_chunk] *)
Fixpoint empty_tag_from (i : Z) (ts : list Z) : option Z :=
  match ts with
  | [] => None
  | t :: ts => if t =? kTagEmpty then Some i else empty_tag_from (i + 1) ts
  end.
Definition find_empty_slot_in_chunk (c : f14_chunk_type) : option Z := empty_tag_from 0 (tags c).

Section f14.
Context {Key : Type} `{EqDecision Key}.
Context (hash : Key -> Z).
Implicit Types (m : hmem Key) (key : Key) (c : f14_chunk_type).

Definition match_mask c (tag : Z) : Z := Z.land (f14_match_tags (tags c) tag) (occupied_mask c).

(** The loop over the matching slots: the first whose item has the key. *)
Fixpoint match_loop (fuel : nat) m key (ss : list node_ptr) (mask : Z) : option (option (Z * node)) :=
  if mask =? 0 then Some None
  else
    match fuel with
    | O => None
    | S fuel =>
        let slot := ctz16 mask in
        n ← ss !! Z.to_nat slot;
        p ← n;
        k ← keys m !! p;
        if decide (k = key) then Some (Some (slot, p)) else match_loop fuel m key ss (drop_lowest mask)
    end.

Definition search_slots m c key : option (option (Z * node)) :=
  match_loop 16 m key (slots c) (match_mask c (f14_tag (hash key))).

Definition find_f14_embedded m c key : option node_ptr :=
  r ← search_slots m c key;
  match r with
  | Some (_, p) => Some (Some p)
  | None => chain_find (walk_fuel m) m key (overflow_head c)
  end.

(** The slots are searched again only when the version is even; a sequential
    run sees the same version and slot twice. *)
Definition find_f14_hazptr_embedded (fuel : nat) m c key : option node_ptr :=
  r ← (if chunk_version c mod 2 =? 0 then search_slots m c key else Some None);
  match r with
  | Some (_, p) => Some (Some p)
  | None => hazptr_walk fuel m key (overflow_head c) (overflow_head c)
  end.

Definition overflow_push m c (value : node) : f14_chunk_type * hmem Key :=
  (with_overflow (Some value) c, set_hash_chain_next value (overflow_head c) m).

Definition f14_insert m c (value : node) (h : Z) : f14_chunk_type * hmem Key :=
  match find_f14_empty_slot c with
  | Some slot => (set_slot slot (f14_tag h) (Some value) (set_occupied_bit slot) c, m)
  | None => overflow_push m c value
  end.

(** Placement into a chunk a rehash fills; an item that leaves a chain for a
    slot has its link reset. *)
Definition f14_place (chained : bool) m c (value : node) (tag : Z) : f14_chunk_type * hmem Key :=
  match find_empty_slot_in_chunk c with
  | Some slot =>
      (set_slot slot tag (Some value) (set_occupied_bit slot) c,
       if chained then set_hash_chain_next value None m else m)
  | None => overflow_push m c value
  end.

Definition f14_erase m c key : option (node_ptr * f14_chunk_type * hmem Key) :=
  r ← search_slots m c key;
  match r with
  | Some (slot, p) =>
      Some (Some p, set_slot slot kTagTombstone None (clear_occupied_bit slot) c, set_hash_chain_next p None m)
  | None =>
      '(r, head, m) ← chain_erase (walk_fuel m) m key (overflow_head c) None (overflow_head c);
      Some (r, with_overflow head c, m)
  end.

Definition f14_assign m c key (h : Z) (value : node) : option (node_ptr * f14_chunk_type * hmem Key) :=
  r ← search_slots m c key;
  match r with
  | Some (slot, p) =>
      next ← hash_chain_next m p;
      let m := set_hash_chain_next value next (set_cached_hash value h m) in
      Some (Some p, set_slot slot (f14_tag h) (Some value) id c, set_hash_chain_next p None m)
  | None =>
      '(r, head, m) ← chain_assign (walk_fuel m) m key h value (overflow_head c) None (overflow_head c);
      Some (r, with_overflow head c, m)
  end.

(** While a rehash is in flight only the fields of the new item are written. *)
Definition f14_assign_rehash m c key (h : Z) (value : node) : option (node_ptr * f14_chunk_type * hmem Key) :=
  existing ← find_f14_embedded m c key;
  match existing with
  | Some p =>
      next ← hash_chain_next m p;
      Some (Some p, c, set_hash_chain_next value next (set_cached_hash value h m))
  | None => Some (None, c, m)
  end.

Fixpoint clear_slots (i : Z) (occ : Z) (ts : list Z) (ss : list node_ptr) : list Z * list node_ptr :=
  match ts, ss with
  | t :: ts, s :: ss =>
      let '(ts, ss) := clear_slots (i + 1) occ ts ss in
      if Z.testbit occ i then (kTagEmpty :: ts, None :: ss) else (t :: ts, s :: ss)
  | _, _ => (ts, ss)
  end.

Definition f14_clear m c : option (f14_chunk_type * hmem Key) :=
  let '(ts, ss) := clear_slots 0 (occupied_mask c) (tags c) (slots c) in
  m ← chain_clear (walk_fuel m) m (overflow_head c);
  Some (Chunk ts 0 (chunk_version c) ss None, m).

(** The migration of the occupied slots, in order. *)
Fixpoint drain_slots {X} (f : bool -> node -> Z -> hmem Key -> X -> option (hmem Key * X))
    (i occ : Z) (ts : list Z) (ss : list node_ptr) m (x : X) : option (hmem Key * X) :=
  match ts, ss with
  | t :: ts, s :: ss =>
      '(m, x) ← (if Z.testbit occ i then p ← s; f false p t m x else Some (m, x));
      drain_slots f (i + 1) occ ts ss m x
  | _, _ => Some (m, x)
  end.

(** Slots of the old chunk: emptied where occupied; every tag is reset. *)
Fixpoint drained_slots (i occ : Z) (ss : list node_ptr) : list node_ptr :=
  match ss with
  | [] => []
  | s :: ss => (if Z.testbit occ i then None else s) :: drained_slots (i + 1) occ ss
  end.

Definition f14_drain {X} (f : bool -> node -> Z -> hmem Key -> X -> option (hmem Key * X))
    m (x : X) c : option (hmem Key * X * f14_chunk_type) :=
  '(m, x) ← drain_slots f 0 (occupied_mask c) (tags c) (slots c) m x;
  '(m, x) ← chain_drain (fun p m x => h ← cached_hash m p; f true p (f14_tag h) m x) (walk_fuel m) m x (overflow_head c);
  Some (m, x,
    Chunk (replicate (length (tags c)) kTagEmpty) 0 (chunk_version c) (drained_slots 0 (occupied_mask c) (slots c)) None).

Definition f14_probing_tag : Probing Key := {|
  bucket := f14_chunk_type;
  kIsF14 := true;
  empty_bucket := empty_chunk;
  version := chunk_version;
  bump n c := Chunk (tags c) (occupied_mask c) (u64 (chunk_version c + n)) (slots c) (overflow_head c);
  bucket_find := find_f14_embedded;
  bucket_find_hazptr := find_f14_hazptr_embedded;
  bucket_insert m c value h := Some (f14_insert m c value h);
  bucket_place chained m c value tag := Some (f14_place chained m c value tag);
  place_tag := f14_tag;
  bucket_erase := f14_erase;
  bucket_assign := f14_assign;
  bucket_assign_rehash := f14_assign_rehash;
  bucket_clear := f14_clear;
  bucket_drain := @f14_drain
|}.

End f14.

(** * Bits *)

Lemma match_from_bit i ts tg j : 0 <= i ->
  Z.testbit (f14_match_from i ts tg) j =
  match (if i <=? j then ts !! Z.to_nat (j - i) else None) with Some t => t =? tg | None => false end.
Proof.
  revert i. induction ts as [|t ts IH]; intros i Hi; cbn [f14_match_from].
  - rewrite Z.testbit_0_l. by destruct (i <=? j).
  - rewrite Z.lor_spec, IH by lia. destruct (Z.leb_spec i j) as [Hj|Hj].
    + destruct (decide (j = i)) as [->|Hne].
      * rewrite Z.sub_diag. change ((t :: ts) !! Z.to_nat 0) with (Some t).
        destruct (Z.leb_spec (i + 1) i); [lia|]. rewrite orb_false_r.
        destruct (t =? tg); [|apply Z.testbit_0_l]. rewrite Z.shiftl_1_l. by apply Z.pow2_bits_true.
      * destruct (Z.leb_spec (i + 1) j); [|lia].
        replace (Z.to_nat (j - i)) with (S (Z.to_nat (j - (i + 1)))) by lia.
        rewrite lookup_cons_ne_0 by done. cbn [pred].
        replace (Z.testbit (if t =? tg then Z.shiftl 1 i else 0) j) with false; [done|].
        destruct (t =? tg); [|by rewrite Z.testbit_0_l]. rewrite Z.shiftl_1_l, Z.pow2_bits_false; [done|lia].
    + destruct (Z.leb_spec (i + 1) j); [lia|]. rewrite orb_false_r.
      destruct (t =? tg); [|by rewrite Z.testbit_0_l]. rewrite Z.shiftl_1_l, Z.pow2_bits_false; [done|lia].
Qed.

Lemma ctz_from_spec fuel mask idx :
  (exists j, idx <= j < idx + Z.of_nat fuel /\ Z.testbit mask j = true) ->
  idx <= ctz_from fuel mask idx < idx + Z.of_nat fuel /\ Z.testbit mask (ctz_from fuel mask idx) = true /\
  forall j, idx <= j < ctz_from fuel mask idx -> Z.testbit mask j = false.
Proof.
  revert idx. induction fuel as [|fuel IH]; intros idx (j & Hj & Hb); [lia|]. cbn [ctz_from].
  destruct (Z.testbit mask idx) eqn:E; [split; [lia|]; split; [done|]; intros; lia|].
  assert (j <> idx) by congruence. destruct (IH (idx + 1)) as (H1 & H2 & H3); [exists j; split; [lia|done]|].
  split; [lia|]. split; [done|]. intros i Hi. destruct (decide (i = idx)) as [->|]; [done|]. apply H3. lia.
Qed.

Lemma testbit_ones_small i j : 0 <= i -> 0 <= j -> Z.testbit (Z.ones i) j = (j <? i).
Proof.
  intros Hi Hj. destruct (Z.ltb_spec j i); [apply Z.ones_spec_low; lia|apply Z.ones_spec_high; lia].
Qed.

(** [mask & (mask - 1)] clears the lowest set bit. *)
Lemma drop_lowest_bits mask i j : 0 < mask -> 0 <= i -> Z.testbit mask i = true ->
  (forall j, 0 <= j < i -> Z.testbit mask j = false) -> 0 <= j ->
  Z.testbit (drop_lowest mask) j = Z.testbit mask j && negb (j =? i).
Proof.
  intros Hm Hi Hb Hlow Hj. set (m' := Z.clearbit mask i).
  assert (forall j, Z.testbit m' j = Z.testbit mask j && negb (i =? j)) as Hm'.
  { intros k. unfold m'. by rewrite Z.clearbit_eqb. }
  assert (mask = m' + 2 ^ i) as Em.
  { rewrite Z.add_nocarry_lxor.
    - apply Z.bits_inj'. intros k Hk. rewrite Z.lxor_spec, Hm', Z.pow2_bits_eqb by done.
      destruct (Z.eqb_spec i k) as [<-|]; [by rewrite Hb|]. by rewrite andb_true_r, xorb_false_r.
    - apply Z.bits_inj'. intros k Hk. rewrite Z.land_spec, Hm', Z.pow2_bits_eqb, Z.bits_0 by done.
      destruct (i =? k); [by rewrite andb_false_r|by rewrite andb_false_r]. }
  assert (mask - 1 = Z.lor m' (Z.ones i)) as Ep.
  { assert (Z.land m' (Z.ones i) = 0) as E0.
    { apply Z.bits_inj'; intros k Hk; rewrite Z.land_spec, Hm', testbit_ones_small, Z.bits_0 by done.
      destruct (Z.ltb_spec k i); rewrite ?andb_false_r; [by rewrite Hlow by lia|done]. }
    rewrite <- Z.lxor_lor, <- Z.add_nocarry_lxor by done. rewrite Z.ones_equiv. lia. }
  unfold drop_lowest. rewrite Z.land_spec, Ep, Z.lor_spec, Hm', testbit_ones_small, (Z.eqb_sym i j) by done.
  destruct (Z.ltb_spec j i); [rewrite Hlow by lia; done|]. rewrite orb_false_r.
  by destruct (Z.testbit mask j), (j =? i).
Qed.

(** One round of the loop [slot = ctz16(mask); mask &= mask - 1]. *)
Lemma lowest_spec mask : 0 < mask < 2 ^ 16 ->
  0 <= ctz16 mask < 16 /\ Z.testbit mask (ctz16 mask) = true /\
  (forall j, 0 <= j < ctz16 mask -> Z.testbit mask j = false) /\
  (forall j, 0 <= j -> Z.testbit (drop_lowest mask) j = Z.testbit mask j && negb (j =? ctz16 mask)).
Proof.
  intros Hm. destruct (ctz_from_spec 16 mask 0) as (H1 & H2 & H3).
  { exists (Z.log2 mask). split; [|apply Z.bit_log2; lia]. split; [apply Z.log2_nonneg|]. apply Z.log2_lt_pow2; lia. }
  fold (ctz16 mask) in *. split; [lia|]. split; [done|]. split; [done|]. intros j Hj. apply drop_lowest_bits; (done || lia).
Qed.

Lemma drop_lowest_range mask : 0 <= mask < 2 ^ 16 -> 0 <= drop_lowest mask < 2 ^ 16.
Proof.
  intros Hm. assert (0 <= drop_lowest mask) by (apply Z.land_nonneg; lia). split; [done|].
  apply bits_bounded; [lia|done|]. intros i Hi. unfold drop_lowest. rewrite Z.land_spec, (testbit_high mask 16) by lia. done.
Qed.

Lemma mask_zero mask : 0 <= mask < 2 ^ 16 -> (forall j, 0 <= j < 16 -> Z.testbit mask j = false) -> mask = 0.
Proof.
  intros Hm Hb. apply Z.bits_inj'. intros j Hj. rewrite Z.bits_0.
  destruct (Z.lt_ge_cases j 16); [apply Hb; lia|apply (testbit_high mask 16); lia].
Qed.

#[global] Opaque ctz16 drop_lowest.

(** * The matching loop *)

Section match_lemmas.
Context {Key : Type} `{EqDecision Key}.
Implicit Types (m : hmem Key) (key : Key).

Lemma match_loop_spec fuel m key ss mask :
  0 <= mask < 2 ^ 16 -> (forall j, 0 <= j < 16 - Z.of_nat fuel -> Z.testbit mask j = false) ->
  (forall i, 0 <= i < 16 -> Z.testbit mask i = true ->
     exists p, ss !! Z.to_nat i = Some (Some p) /\ is_Some (keys m !! p)) ->
  exists r, match_loop fuel m key ss mask = Some r /\
    match r with
    | Some (i, p) => 0 <= i < 16 /\ Z.testbit mask i = true /\ ss !! Z.to_nat i = Some (Some p) /\ keys m !! p = Some key
    | None => forall i p, 0 <= i < 16 -> Z.testbit mask i = true -> ss !! Z.to_nat i = Some (Some p) -> keys m !! p <> Some key
    end.
Proof.
  assert (forall mask, mask = 0 -> forall i p, 0 <= i < 16 -> Z.testbit mask i = true ->
    ss !! Z.to_nat i = Some (Some p) -> keys m !! p <> Some key) as Hz.
  { intros ? -> i p _ Hb. by rewrite Z.testbit_0_l in Hb. }
  revert mask. induction fuel as [|fuel IH]; intros mask Hm Hp Hs.
  - rewrite (mask_zero mask Hm) by (intros; apply Hp; lia). exists None. split; [done|]. by apply Hz.
  - cbn [match_loop]. destruct (Z.eqb_spec mask 0) as [->|Hne]; [exists None; split; [done|]; by apply Hz|].
    destruct (lowest_spec mask ltac:(lia)) as (Hi & Hbi & Hlow & Hbits).
    destruct (Hs (ctz16 mask) Hi Hbi) as (p & Ep & [k Ek]). rewrite Ep. cbn [mbind option_bind]. rewrite Ek. cbn [mbind option_bind].
    destruct (decide (k = key)) as [->|Hk]; [by exists (Some (ctz16 mask, p))|].
    destruct (IH (drop_lowest mask)) as (r & Er & Hr); [by apply drop_lowest_range|..].
    { intros j Hj. rewrite Hbits by lia. destruct (Z.eqb_spec j (ctz16 mask)); [by rewrite andb_false_r|].
      destruct (Z.lt_ge_cases j (ctz16 mask)); [by rewrite Hlow by lia|]. destruct (Z.lt_ge_cases j (16 - Z.of_nat (S fuel))); [by rewrite Hp by lia|].
      assert (~ ctz16 mask < 16 - Z.of_nat (S fuel)); [|lia]. intros Hc. rewrite Hp in Hbi by lia. done. }
    { intros i H16. rewrite Hbits by lia. intros Hb. bool_to_Z. eauto. }
    exists r. split; [done|]. destruct r as [[i q]|].
    + destruct Hr as (? & Hb & ?). rewrite Hbits in Hb by lia. by bool_to_Z.
    + intros i q H16 Hb Eq. destruct (Z.eqb_spec i (ctz16 mask)) as [->|Hni]; [congruence|].
      apply (Hr i); [done| |done]. rewrite Hbits, Hb by lia. cbn. by apply negb_true_iff, Z.eqb_neq.
Qed.

End match_lemmas.

(** * The invariant of a chunk *)

Definition in_slot (c : f14_chunk_type) (i : Z) (p : node) : Prop :=
  0 <= i < 14 /\ Z.testbit (occupied_mask c) i = true /\ slots c !! Z.to_nat i = Some (Some p).

(** An occupied slot has its item under its tag; a free one has a tag no item has. *)
Definition slot_ok {Key} (m : hmem Key) (c : f14_chunk_type) (i : Z) : Prop :=
  if Z.testbit (occupied_mask c) i
  then exists p h, slots c !! Z.to_nat i = Some (Some p) /\ hashes m !! p = Some h /\ tags c !! Z.to_nat i = Some (f14_tag h)
  else tags c !! Z.to_nat i = Some kTagEmpty \/ tags c !! Z.to_nat i = Some kTagTombstone.

Definition chunk_ok {Key} (m : hmem Key) (c : f14_chunk_type) : Prop :=
  length (tags c) = 14%nat /\ length (slots c) = 14%nat /\ 0 <= occupied_mask c < 2 ^ 14 /\
  (forall i, 0 <= i < 14 -> slot_ok m c i) /\
  (forall i j p, in_slot c i p -> in_slot c j p -> i = j).

Definition f14_holds {Key} (m : hmem Key) (c : f14_chunk_type) (S : gset node) : Prop :=
  chunk_ok m c /\ exists l, chain (links m) (overflow_head c) l /\ NoDup l /\
    (forall i p, in_slot c i p -> p ∉ l) /\ (forall p, p ∈ S <-> p ∈ l \/ exists i, in_slot c i p).

Lemma f14_tag_range h : 0x80 <= f14_tag h < 2 ^ 8.
Proof.
  unfold f14_tag. rewrite wrap_small.
  - set (x := Z.land (Z.shiftr h 57) 0x7E). assert (0 <= x) by (apply Z.land_nonneg; lia).
    assert (0 <= x < 2 ^ 7) as Hx.
    { split; [done|]. apply bits_bounded; [lia|done|]. intros i Hi. unfold x. rewrite Z.land_spec, (testbit_high 0x7E 7) by lia. apply andb_false_r. }
    split; [|apply lor_bounded; lia].
    assert (Z.land x 0x80 = 0) as E0.
    { apply Z.bits_inj'. intros i Hi. rewrite Z.land_spec, Z.bits_0. change 0x80 with (2 ^ 7). rewrite Z.pow2_bits_eqb by lia.
      destruct (Z.eqb_spec 7 i) as [<-|]; [rewrite (testbit_high x 7) by lia; done|apply andb_false_r]. }
    rewrite <- Z.lxor_lor, <- Z.add_nocarry_lxor by done. lia.
  - apply lor_bounded; [lia| |lia]. split; [apply Z.land_nonneg; lia|].
    apply (Z.lt_le_trans _ (2 ^ 7)); [|lia]. apply bits_bounded; [lia|apply Z.land_nonneg; lia|].
    intros i Hi. rewrite Z.land_spec, (testbit_high 0x7E 7) by lia. apply andb_false_r.
Qed.

Section chunk.
Context {Key : Type} `{EqDecision Key}.
Context (hash : Key -> Z).
Implicit Types (m : hmem Key) (key : Key) (c : f14_chunk_type) (S : gset node).

Lemma in_slot_lookup m c i p : chunk_ok m c -> in_slot c i p ->
  exists h, hashes m !! p = Some h /\ tags c !! Z.to_nat i = Some (f14_tag h).
Proof.
  intros (_ & _ & _ & Hs & _) (Hi & Ho & Hp). specialize (Hs i Hi). unfold slot_ok in Hs. rewrite Ho in Hs.
  destruct Hs as (q & h & Hq & Hh & Ht). exists h. split; [|done]. congruence.
Qed.

Lemma occupied_in_slot m c i : chunk_ok m c -> 0 <= i < 14 -> Z.testbit (occupied_mask c) i = true -> exists p, in_slot c i p.
Proof.
  intros (_ & _ & _ & Hs & _) Hi Ho. specialize (Hs i Hi). unfold slot_ok in Hs. rewrite Ho in Hs.
  destruct Hs as (p & h & Hp & _). exists p. done.
Qed.

Lemma match_mask_bit c tag i : 0 <= i ->
  Z.testbit (match_mask c tag) i =
  match tags c !! Z.to_nat i with Some t => t =? tag | None => false end && Z.testbit (occupied_mask c) i.
Proof.
  intros Hi. unfold match_mask, f14_match_tags. rewrite Z.land_spec, match_from_bit by lia.
  destruct (Z.leb_spec 0 i); [|lia]. by rewrite Z.sub_0_r.
Qed.

(** The vector compare and the scalar loop select the same slots. *)
Lemma sse2_match m c tag : chunk_ok m c ->
  Z.land (f14_match_tags_sse2 (tags c) (occupied_mask c) tag) (occupied_mask c) = match_mask c tag.
Proof.
  intros (Ht & _ & Hr & _). apply Z.bits_inj'. intros i Hi. rewrite match_mask_bit by done.
  unfold f14_match_tags_sse2. rewrite Z.land_spec, match_from_bit by lia.
  destruct (Z.leb_spec 0 i); [|lia]. rewrite Z.sub_0_r. destruct (Z.lt_ge_cases i 14).
  - rewrite lookup_app_l by lia. done.
  - rewrite (testbit_high (occupied_mask c) 14) by lia. by rewrite !andb_false_r.
Qed.

Lemma search_slots_spec m c S key : chunk_ok m c -> items_ok hash m S -> (forall i p, in_slot c i p -> p ∈ S) ->
  exists r, search_slots hash m c key = Some r /\
    match r with
    | Some (i, p) => in_slot c i p /\ keys m !! p = Some key
    | None => forall i p, in_slot c i p -> keys m !! p <> Some key
    end.
Proof.
  intros Hc Hi HS. pose proof Hc as (Ht & Hsl & Hr & Hs & Hinj).
  assert (0 <= match_mask c (f14_tag (hash key)) < 2 ^ 14) as Hm.
  { assert (0 <= match_mask c (f14_tag (hash key))) by (apply Z.land_nonneg; lia). split; [done|].
    apply bits_bounded; [lia|done|]. intros i H14. rewrite match_mask_bit by lia.
    rewrite (testbit_high (occupied_mask c) 14) by lia. apply andb_false_r. }
  destruct (match_loop_spec 16 m key (slots c) (match_mask c (f14_tag (hash key)))) as (r & Er & Hres).
  - lia.
  - intros; lia.
  - intros i H16 Hb. rewrite match_mask_bit in Hb by lia. bool_to_Z.
    destruct (Z.lt_ge_cases i 14); [|rewrite (testbit_high (occupied_mask c) 14) in * by lia; done].
    destruct (occupied_in_slot m c i Hc) as (p & Hp); [lia|done|]. exists p. split; [apply Hp|].
    destruct (proj1 Hi p) as (k & -> & _); [by apply (HS i)|]. eauto.
  - exists r. split; [done|]. destruct r as [[i p]|].
    + destruct Hres as (H16 & Hb & Hp & Hk). rewrite match_mask_bit in Hb by lia. bool_to_Z. split; [|done].
      split; [|done]. destruct (Z.lt_ge_cases i 14); [lia|]. rewrite (testbit_high (occupied_mask c) 14) in * by lia. done.
    + intros i p Hp Hk. destruct (in_slot_lookup m c i p Hc Hp) as (h & Hh & Htg).
      destruct (proj1 Hi p) as (k & Hk' & Hh'); [by apply (HS i)|].
      assert (h = hash key) as -> by congruence. destruct Hp as (H14 & Ho & Hp).
      apply (Hres i p); [lia| |done|done]. rewrite match_mask_bit, Htg, Z.eqb_refl, Ho by lia. done.
Qed.

Lemma set_slot_ok m c slot tag v occf (b : bool) : chunk_ok m c -> 0 <= slot < 14 -> 0 <= occf (occupied_mask c) < 2 ^ 14 ->
  (forall i, 0 <= i < 14 -> Z.testbit (occf (occupied_mask c)) i = if i =? slot then b else Z.testbit (occupied_mask c) i) ->
  (if b then exists p h, v = Some p /\ hashes m !! p = Some h /\ tag = f14_tag h /\ forall i, in_slot c i p -> i = slot
   else tag = kTagEmpty \/ tag = kTagTombstone) ->
  chunk_ok m (set_slot slot tag v occf c) /\
  forall i p, in_slot (set_slot slot tag v occf c) i p <-> (i = slot /\ b = true /\ v = Some p) \/ (i <> slot /\ in_slot c i p).
Proof.
  intros (Ht & Hsl & Hr & Hs & Hinj) Hslot Hr' Hbits Hv.
  assert (forall i p, in_slot (set_slot slot tag v occf c) i p <->
    (i = slot /\ b = true /\ v = Some p) \/ (i <> slot /\ in_slot c i p)) as Hin.
  { intros i p. unfold in_slot. cbn. split.
    - intros (H14 & Ho & Hp). rewrite Hbits in Ho by done. destruct (Z.eqb_spec i slot) as [->|Hne].
      + rewrite list_lookup_insert_eq in Hp by lia. left. split; [done|]. split; [done|congruence].
      + rewrite list_lookup_insert_ne in Hp by lia. by right.
    - intros [(-> & Hb & ->)|(Hne & H14 & Ho & Hp)].
      + split; [done|]. rewrite Hbits, Z.eqb_refl, list_lookup_insert_eq by lia. by rewrite Hb.
      + split; [done|]. rewrite Hbits by done. destruct (Z.eqb_spec i slot); [done|]. by rewrite list_lookup_insert_ne by lia. }
  split; [|done]. split; [by cbn; rewrite length_insert|]. split; [by cbn; rewrite length_insert|]. split; [done|]. split.
  - intros i Hi. unfold slot_ok. cbn. rewrite Hbits by done. destruct (Z.eqb_spec i slot) as [->|Hne].
    + rewrite !list_lookup_insert_eq by lia. destruct b; [|destruct Hv as [->| ->]; auto].
      destruct Hv as (p & h & -> & Hh & -> & _). eauto.
    + rewrite !list_lookup_insert_ne by lia. by apply Hs.
  - intros i j p Hi Hj. rewrite Hin in Hi, Hj.
    destruct Hi as [(-> & Hb & ->)|(Hi & Hpi)], Hj as [(-> & Hb' & E)|(Hj & Hpj)]; [done|..].
    + rewrite Hb in Hv. destruct Hv as (q & h & [= <-] & _ & _ & Hq). symmetry. by apply Hq.
    + rewrite Hb' in Hv. destruct Hv as (q & h & Eq & _ & _ & Hq). rewrite E in Eq. injection Eq as <-. by apply Hq.
    + by apply (Hinj i j p).
Qed.

Lemma occ_set_bits slot mask : 0 <= slot < 14 -> 0 <= mask < 2 ^ 14 ->
  0 <= set_occupied_bit slot mask < 2 ^ 14 /\
  forall i, 0 <= i < 14 -> Z.testbit (set_occupied_bit slot mask) i = if i =? slot then true else Z.testbit mask i.
Proof.
  intros Hs Hm. unfold set_occupied_bit. rewrite Z.shiftl_1_l. split.
  - apply lor_bounded; [lia|done|]. split; [lia|]. apply Z.pow_lt_mono_r; lia.
  - intros i Hi. rewrite Z.lor_spec, Z.pow2_bits_eqb, (Z.eqb_sym slot) by lia. destruct (i =? slot); [apply orb_true_r|apply orb_false_r].
Qed.

Lemma occ_clear_bits slot mask : 0 <= slot < 14 -> 0 <= mask < 2 ^ 14 ->
  0 <= clear_occupied_bit slot mask < 2 ^ 14 /\
  forall i, 0 <= i < 14 -> Z.testbit (clear_occupied_bit slot mask) i = if i =? slot then false else Z.testbit mask i.
Proof.
  intros Hs Hm. unfold clear_occupied_bit, clear_bits. rewrite Z.shiftl_1_l. split; [apply ldiff_bounded; lia|].
  intros i Hi. rewrite Z.ldiff_spec, Z.pow2_bits_eqb, (Z.eqb_sym slot) by lia.
  destruct (i =? slot); [apply andb_false_r|apply andb_true_r].
Qed.

End chunk.

(** * The chunk meets the contract *)

Section chunk_laws.
Context {Key : Type} `{EqDecision Key}.
Context (hash : Key -> Z).
Implicit Types (m : hmem Key) (key : Key) (c : f14_chunk_type) (S : gset node).

Lemma holds_slot m c S i p : f14_holds m c S -> in_slot c i p -> p ∈ S.
Proof. intros (_ & l & _ & _ & _ & HS) Hp. apply HS. eauto. Qed.

Lemma chunk_ok_hashes m m' c : (forall i p, in_slot c i p -> hashes m' !! p = hashes m !! p) -> chunk_ok m c -> chunk_ok m' c.
Proof.
  intros Hh (? & ? & ? & Hs & ?). split_and!; [done|done|lia|lia| |done]. intros i Hi. specialize (Hs i Hi). unfold slot_ok in *.
  destruct (Z.testbit (occupied_mask c) i) eqn:Ho; [|done]. destruct Hs as (p & h & Hp & Hph & Ht).
  exists p, h. rewrite (Hh i p); done.
Qed.

(** The link of an item in a slot does not matter. *)
Lemma f14_holds_mem m m' c S :
  (forall p, p ∈ S -> hashes m' !! p = hashes m !! p /\ ((exists i, in_slot c i p) \/ links m' !! p = links m !! p)) ->
  f14_holds m c S -> f14_holds m' c S.
Proof.
  intros Hf H. pose proof H as (Hc & l & Hl & Hnd & Hd & HS). split.
  - apply (chunk_ok_hashes m); [|done]. intros i p Hp. apply Hf. by apply (holds_slot m c S i).
  - exists l. split; [|done]. apply (chain_frame (links m)); [|done]. intros p Hp.
    destruct (Hf p) as [_ [[i Hi]|?]]; [apply HS; by left| |done]. by destruct (Hd i p Hi).
Qed.

Lemma f14_holds_relinks T m m' c S : relinks T m m' -> (forall p, p ∈ S -> p ∉ T) -> f14_holds m c S -> f14_holds m' c S.
Proof. intros (_ & Hh & Hl) Hd. apply f14_holds_mem. intros p Hp. rewrite Hh. split; [done|]. right. by rewrite Hl by auto. Qed.

Lemma f14_holds_empty m v ts ss : length ts = 14%nat -> length ss = 14%nat -> (forall i, (i < 14)%nat -> ts !! i = Some kTagEmpty \/ ts !! i = Some kTagTombstone) ->
  f14_holds m (Chunk ts 0 v ss None) ∅.
Proof.
  intros Ht Hs He. assert (forall i p, ~ in_slot (Chunk ts 0 v ss None) i p) as Hn.
  { intros i p (_ & Ho & _). cbn in Ho. by rewrite Z.testbit_0_l in Ho. }
  split.
  - split; [done|]. split; [done|]. split; [cbn; lia|]. split; [|intros i j p Hi; by destruct (Hn i p)].
    intros i Hi. unfold slot_ok. cbn. rewrite Z.testbit_0_l. apply He. lia.
  - exists []. split; [done|]. split; [constructor|]. split; [intros i p Hi; by destruct (Hn i p)|].
    intros p. split; [set_solver|]. intros [?|[i Hi]]; [set_solver|by destruct (Hn i p)].
Qed.

(** An item enters a free slot. *)
Lemma fill_slot_ok m c S slot p h : f14_holds m c S -> p ∉ S -> hashes m !! p = Some h -> 0 <= slot < 14 ->
  Z.testbit (occupied_mask c) slot = false ->
  f14_holds m (set_slot slot (f14_tag h) (Some p) (set_occupied_bit slot) c) ({[p]} ∪ S).
Proof.
  intros H Hp Hh Hslot Hfree. pose proof H as (Hc & l & Hl & Hnd & Hd & HS).
  destruct (occ_set_bits slot (occupied_mask c) Hslot) as [Hr Hb]; [apply Hc|].
  destruct (set_slot_ok m c slot (f14_tag h) (Some p) (set_occupied_bit slot) true Hc Hslot Hr Hb) as [Hc' Hin].
  { exists p, h. split; [done|]. split; [done|]. split; [done|]. intros i Hi. by destruct Hp; apply (holds_slot m c S i). }
  split; [done|]. exists l. split; [done|]. split; [done|]. split.
  - intros i q Hq. rewrite Hin in Hq. destruct Hq as [(_ & _ & [= ->])|(_ & Hq)]; [|by apply (Hd i)].
    intros Hpl. apply Hp, HS. by left.
  - intros q. rewrite elem_of_union, elem_of_singleton, HS. setoid_rewrite Hin. split.
    + intros [->|[?|[i Hi]]]; [right; exists slot; by left|by left|]. right. exists i. right. split; [|done].
      intros ->. destruct Hi as (_ & Ho & _). congruence.
    + intros [?|[i [(-> & _ & [= ->])|(_ & ?)]]]; [right; by left|by left|right; right; eauto].
Qed.

Lemma overflow_push_ok m c S p : f14_holds m c S -> p ∉ S ->
  relinks {[p]} m (overflow_push m c p).2 /\ f14_holds (overflow_push m c p).2 (overflow_push m c p).1 ({[p]} ∪ S).
Proof.
  intros H Hp. pose proof H as (Hc & l & Hl & Hnd & Hd & HS). split; [apply relinks_set; set_solver|]. split; [done|].
  assert (p ∉ l) by (intros ?; apply Hp, HS; by left).
  exists (p :: l). split; [by apply chain_cons|]. split; [by apply NoDup_cons|]. split.
  - intros i q Hq. apply not_elem_of_cons. split; [|by apply (Hd i)]. intros ->. apply Hp. by apply (holds_slot m c S i).
  - intros q. cbn. rewrite elem_of_union, elem_of_singleton, elem_of_cons, HS. tauto.
Qed.

Lemma empty_slot_free c slot : 0 <= occupied_mask c < 2 ^ 14 -> find_f14_empty_slot c = Some slot ->
  0 <= slot < 14 /\ Z.testbit (occupied_mask c) slot = false.
Proof.
  intros Hr. unfold find_f14_empty_slot. set (em := Z.land (Z.lnot (occupied_mask c)) kFullMask).
  destruct (Z.eqb_spec em 0) as [|Hne]; [done|]. intros [= <-].
  assert (forall i, 0 <= i -> Z.testbit em i = negb (Z.testbit (occupied_mask c) i) && (i <? 14)) as Hb.
  { intros i Hi. unfold em. rewrite Z.land_spec, Z.lnot_spec by done. f_equal. change kFullMask with (Z.ones 14). apply testbit_ones_small; lia. }
  assert (0 <= em) by (apply Z.land_nonneg; right; by compute). assert (em < 2 ^ 14).
  { apply bits_bounded; [lia|done|]. intros i Hi. rewrite Hb by lia. destruct (Z.ltb_spec i 14); [lia|apply andb_false_r]. }
  destruct (lowest_spec em ltac:(lia)) as (Hi & Hbi & _). rewrite Hb in Hbi by lia. bool_to_Z. by split; [lia|].
Qed.

Lemma empty_tag_lookup i ts j : empty_tag_from i ts = Some j -> i <= j /\ ts !! Z.to_nat (j - i) = Some kTagEmpty.
Proof.
  revert i. induction ts as [|t ts IH]; intros i; cbn [empty_tag_from]; [done|].
  destruct (Z.eqb_spec t kTagEmpty) as [->|]; [intros [= <-]; split; [lia|]; by rewrite Z.sub_diag|].
  intros [Hj Ht]%IH. split; [lia|]. replace (Z.to_nat (j - i)) with (S (Z.to_nat (j - (i + 1)))) by lia. done.
Qed.

Lemma empty_slot_in_chunk_free m c slot : chunk_ok m c -> find_empty_slot_in_chunk c = Some slot ->
  0 <= slot < 14 /\ Z.testbit (occupied_mask c) slot = false.
Proof.
  intros (Ht & Hsl & Hr & Hs & _) [H0 E]%empty_tag_lookup. rewrite Z.sub_0_r in E.
  assert (0 <= slot < 14) as Hslot by (apply lookup_lt_Some in E; lia). split; [done|].
  specialize (Hs slot Hslot). unfold slot_ok in Hs. destruct (Z.testbit (occupied_mask c) slot); [|done].
  destruct Hs as (p & h & _ & _ & E'). rewrite E in E'. injection E' as E'. pose proof (f14_tag_range h). unfold kTagEmpty in *. lia.
Qed.

Lemma f14_insert_ok m c S p h : f14_holds m c S -> p ∉ S -> hashes m !! p = Some h ->
  relinks {[p]} m (f14_insert m c p h).2 /\ chunk_version (f14_insert m c p h).1 = chunk_version c /\
  f14_holds (f14_insert m c p h).2 (f14_insert m c p h).1 ({[p]} ∪ S).
Proof.
  intros H Hp Hh. unfold f14_insert. destruct (find_f14_empty_slot c) as [slot|] eqn:E.
  - apply empty_slot_free in E as [? ?]; [|apply H]. split; [done|]. split; [done|]. by apply fill_slot_ok.
  - destruct (overflow_push_ok m c S p H Hp). done.
Qed.

Lemma f14_place_ok b m c S p h : f14_holds m c S -> p ∉ S -> hashes m !! p = Some h ->
  relinks {[p]} m (f14_place b m c p (f14_tag h)).2 /\ chunk_version (f14_place b m c p (f14_tag h)).1 = chunk_version c /\
  f14_holds (f14_place b m c p (f14_tag h)).2 (f14_place b m c p (f14_tag h)).1 ({[p]} ∪ S).
Proof.
  intros H Hp Hh. unfold f14_place. destruct (find_empty_slot_in_chunk c) as [slot|] eqn:E.
  - apply (empty_slot_in_chunk_free m) in E as [? ?]; [|apply H]. cbn [fst snd]. destruct b.
    + split; [apply relinks_set; set_solver|]. split; [done|]. apply fill_slot_ok; [|done..].
      apply (f14_holds_relinks {[p]} m); [apply relinks_set; set_solver|set_solver|done].
    + split; [done|]. split; [done|]. by apply fill_slot_ok.
  - destruct (overflow_push_ok m c S p H Hp). done.
Qed.

(** A slot is emptied, or its item replaced. *)
Lemma drop_slot_ok m c S slot p : f14_holds m c S -> in_slot c slot p ->
  f14_holds m (set_slot slot kTagTombstone None (clear_occupied_bit slot) c) (S ∖ {[p]}).
Proof.
  intros H Hp. pose proof H as (Hc & l & Hl & Hnd & Hd & HS). pose proof Hp as (Hslot & _).
  destruct (occ_clear_bits slot (occupied_mask c) Hslot) as [Hr Hb]; [apply Hc|].
  destruct (set_slot_ok m c slot kTagTombstone None (clear_occupied_bit slot) false Hc Hslot Hr Hb) as [Hc' Hin]; [by right|].
  split; [done|]. exists l. split; [done|]. split; [done|]. split.
  - intros i q Hq. rewrite Hin in Hq. destruct Hq as [(_ & ? & _)|(_ & Hq)]; [done|]. by apply (Hd i).
  - intros q. rewrite elem_of_difference, elem_of_singleton, HS. setoid_rewrite Hin. split.
    + intros [[?|[i Hi]] Hne]; [by left|]. right. exists i. right. split; [|done]. intros ->.
      destruct Hi as (_ & _ & Hi), Hp as (_ & _ & Hp). congruence.
    + intros [Hq|[i [(_ & ? & _)|(Hne & Hi)]]]; [|done|].
      * split; [by left|]. intros ->. by apply (Hd slot p).
      * split; [right; eauto|]. intros ->. apply Hne. by apply (proj2 (proj2 (proj2 (proj2 Hc))) i slot p).
Qed.

Lemma replace_slot_ok m c S slot p v h : f14_holds m c S -> in_slot c slot p -> v ∉ S -> hashes m !! v = Some h ->
  f14_holds m (set_slot slot (f14_tag h) (Some v) id c) ({[v]} ∪ S ∖ {[p]}).
Proof.
  intros H Hp Hv Hh. pose proof (drop_slot_ok m c S slot p H Hp) as Hd. pose proof Hp as (Hslot & Ho & _).
  destruct (occ_clear_bits slot (occupied_mask c) Hslot) as [Hr Hb]; [apply H|].
  assert (Z.testbit (clear_occupied_bit slot (occupied_mask c)) slot = false) as Hf by (rewrite Hb, Z.eqb_refl by done; done).
  pose proof (fill_slot_ok m _ _ slot v h Hd ltac:(set_solver) Hh Hslot Hf) as Hr'.
  unfold set_slot in Hr'. cbn in Hr'. rewrite !list_insert_insert_eq in Hr'.
  replace (set_occupied_bit slot (clear_occupied_bit slot (occupied_mask c))) with (id (occupied_mask c)) in Hr'; [done|].
  apply Z.bits_inj'. intros i Hi. unfold set_occupied_bit, clear_occupied_bit, clear_bits, id. rewrite Z.shiftl_1_l.
  rewrite Z.lor_spec, Z.ldiff_spec, Z.pow2_bits_eqb by lia. destruct (Z.eqb_spec slot i) as [<-|]; [by rewrite Ho|].
  by rewrite orb_false_r, andb_true_r.
Qed.

Lemma with_overflow_ok m m' c h l S : chunk_ok m c -> hashes m' = hashes m -> chain (links m') h l -> NoDup l ->
  (forall i p, in_slot c i p -> p ∉ l) -> (forall p, p ∈ S <-> p ∈ l \/ exists i, in_slot c i p) ->
  f14_holds m' (with_overflow h c) S.
Proof.
  intros Hc Hh Hl Hnd Hd HS. split; [|by exists l]. apply (chunk_ok_hashes m); [by rewrite Hh|done].
Qed.

Lemma overflow_items m S (l : list node) : items_ok hash m S -> (forall p, p ∈ l -> p ∈ S) -> forall p, p ∈ l -> is_Some (keys m !! p).
Proof. intros [Hk _] Hl p Hp. destruct (Hk p) as (k & -> & _); eauto. Qed.

Lemma f14_find_ok m c S key : f14_holds m c S -> items_ok hash m S ->
  exists r, find_f14_embedded hash m c key = Some r /\ found m S key r.
Proof.
  intros H Hi. pose proof H as (Hc & l & Hl & Hnd & Hd & HS).
  destruct (search_slots_spec hash m c S key Hc Hi) as (r & Er & Hr); [intros i p; by apply (holds_slot m)|].
  unfold find_f14_embedded. rewrite Er. cbn [mbind option_bind]. destruct r as [[i p]|].
  - destruct Hr as [Hp Hk]. exists (Some p). split; [done|]. split; [by apply (holds_slot m c S i)|done].
  - pose proof (overflow_items m S l Hi ltac:(intros p Hp; apply HS; by left)) as Hk.
    destruct (chain_find_spec (walk_fuel m) m key (overflow_head c) l Hl Hk) as (r & E & Hres); [by apply walk_fuel_enough|].
    exists r. split; [done|]. destruct r as [p|]; [split; [apply HS; left|]; apply Hres|].
    intros p [Hp|[i Hp]]%HS; [by apply Hres|by apply (Hr i)].
Qed.

Lemma f14_erase_ok m c S key : f14_holds m c S -> items_ok hash m S ->
  exists r c' m', f14_erase hash m c key = Some (r, c', m') /\ found m S key r /\ relinks S m m' /\
    chunk_version c' = chunk_version c /\
    match r with Some p => f14_holds m' c' (S ∖ {[p]}) | None => c' = c /\ m' = m end.
Proof.
  intros H Hi. pose proof H as (Hc & l & Hl & Hnd & Hd & HS).
  destruct (search_slots_spec hash m c S key Hc Hi) as (r & Er & Hr); [intros i p; by apply (holds_slot m)|].
  unfold f14_erase. rewrite Er. cbn [mbind option_bind]. destruct r as [[i p]|].
  - destruct Hr as [Hp Hk]. pose proof (holds_slot m c S i p H Hp) as HpS. eexists _, _, _. split; [done|].
    split; [done|]. split; [by apply relinks_set|]. split; [done|]. apply drop_slot_ok; [|done].
    apply (f14_holds_mem m); [|done]. intros q Hq. split; [done|]. destruct (decide (q = p)) as [->|]; [left; eauto|].
    right. cbn. by rewrite lookup_insert_ne.
  - pose proof (overflow_items m S l Hi ltac:(intros p Hp; apply HS; by left)) as Hk.
    destruct (chain_erase_spec (walk_fuel m) m key (overflow_head c) [] (overflow_head c) l Hl Hnd Hl Hk) as (r & h' & m' & E & Hre & Hres);
      [by apply walk_fuel_enough|]. cbn [last app] in *. rewrite E. cbn [mbind option_bind].
    exists r, (with_overflow h' c), m'. split; [done|].
    assert (relinks S m m') by (revert Hre; apply relinks_mono; intros p Hp%elem_of_list_to_set; apply HS; by left).
    destruct r as [p|].
    + destruct Hres as (Hpk & la & lb & -> & Hl'). apply NoDup_app_mid in Hnd as (? & ? & Hnd).
      split; [split; [apply HS; set_solver|done]|]. split; [done|]. split; [done|].
      apply (with_overflow_ok m m' c h' (la ++ lb)); [done|apply Hre|done|done|set_solver|].
      intros q. rewrite elem_of_difference, elem_of_singleton, HS. split; [set_solver|].
      intros [Hq|[i Hq]]; [set_solver|]. split; [right; eauto|]. intros ->. apply (Hd i p Hq). set_solver.
    + destruct Hres as (-> & -> & Hn). split; [|split; [done|]; split; [done|]; by destruct c].
      intros p [Hp|[i Hp]]%HS; [by apply Hn|by apply (Hr i)].
Qed.

Lemma f14_assign_ok m c S key v : f14_holds m c S -> items_ok hash m S -> v ∉ S ->
  exists r c' m', f14_assign hash m c key (hash key) v = Some (r, c', m') /\ found m S key r /\
    chunk_version c' = chunk_version c /\
    match r with
    | Some p => relinks ({[v]} ∪ S) (set_cached_hash v (hash key) m) m' /\ f14_holds m' c' ({[v]} ∪ S ∖ {[p]})
    | None => c' = c /\ m' = m
    end.
Proof.
  intros H Hi Hv. pose proof H as (Hc & l & Hl & Hnd & Hd & HS).
  destruct (search_slots_spec hash m c S key Hc Hi) as (r & Er & Hr); [intros i p; by apply (holds_slot m)|].
  unfold f14_assign. rewrite Er. cbn [mbind option_bind]. destruct r as [[i p]|].
  - destruct Hr as [Hp Hk]. pose proof (holds_slot m c S i p H Hp) as HpS. unfold hash_chain_next. rewrite Hk. cbn [mbind option_bind].
    eexists _, _, _. split; [done|]. split; [done|]. split; [done|]. split.
    { etransitivity; apply relinks_set; set_solver. }
    apply replace_slot_ok; [|done|done|cbn; by rewrite lookup_insert_eq].
    apply (f14_holds_mem m); [|done]. intros q Hq. assert (q <> v) by set_solver. cbn.
    split; [by rewrite lookup_insert_ne|]. destruct (decide (q = p)) as [->|]; [left; eauto|]. right. by rewrite !lookup_insert_ne.
  - pose proof (overflow_items m S l Hi ltac:(intros p Hp; apply HS; by left)) as Hk.
    destruct (chain_assign_spec (walk_fuel m) m key (hash key) v (overflow_head c) [] (overflow_head c) l Hl Hnd Hl)
      as (r & h' & m' & E & Hres); [intros Hvl; apply Hv, HS; by left|done|by apply walk_fuel_enough|].
    cbn [last app] in *. rewrite E. cbn [mbind option_bind]. exists r, (with_overflow h' c), m'. split; [done|].
    destruct r as [p|].
    + destruct Hres as (Hpk & Hre & la & lb & -> & Hl'). apply NoDup_app_mid in Hnd as (? & ? & Hnd).
      assert (v ∉ la ++ p :: lb) as Hvl by (intros Hvl; apply Hv, HS; by left).
      split; [split; [apply HS; set_solver|done]|]. split; [done|]. split.
      { revert Hre. apply relinks_mono. intros q [?|Hq%elem_of_list_to_set]%elem_of_union; [set_solver|]. apply elem_of_union_r, HS. by left. }
      apply (with_overflow_ok (set_cached_hash v (hash key) m) m' c h' (la ++ v :: lb)); [|apply Hre|done|apply NoDup_app_mid; set_solver|..].
      * apply (chunk_ok_hashes m); [|done]. intros i q Hq. cbn. rewrite lookup_insert_ne; [done|]. intros ->. apply Hv, HS. eauto.
      * intros i q Hq. assert (q <> v) by (intros ->; apply Hv, HS; eauto). specialize (Hd i q Hq). set_solver.
      * intros q. rewrite elem_of_union, elem_of_difference, !elem_of_singleton, HS. split; [set_solver|].
        intros [Hq|[i Hq]]; [set_solver|]. right. split; [right; eauto|]. intros ->. apply (Hd i p Hq). set_solver.
    + destruct Hres as (-> & -> & Hn). split; [|split; [done|]; by destruct c].
      intros p [Hp|[i Hp]]%HS; [by apply Hn|by apply (Hr i)].
Qed.

Lemma f14_assign_rehash_ok m c S key v : f14_holds m c S -> items_ok hash m S -> v ∉ S ->
  exists r c' m', f14_assign_rehash hash m c key (hash key) v = Some (r, c', m') /\ found m S key r /\
    chunk_version c' = chunk_version c /\
    match r with
    | Some p => relinks {[v]} (set_cached_hash v (hash key) m) m' /\ f14_holds m' c' S
    | None => c' = c /\ m' = m
    end.
Proof.
  intros H Hi Hv. destruct (f14_find_ok m c S key H Hi) as (r & Er & Hr).
  unfold f14_assign_rehash. rewrite Er. cbn [mbind option_bind]. destruct r as [p|]; [|by eexists _, _, _].
  destruct Hr as [Hp Hk]. unfold hash_chain_next. rewrite Hk. cbn [mbind option_bind]. eexists _, _, _. split; [done|].
  split; [done|]. split; [done|]. split; [apply relinks_set; set_solver|].
  apply (f14_holds_mem m); [|done]. intros q Hq. assert (q <> v) by set_solver. cbn.
  split; [by rewrite lookup_insert_ne|right; by rewrite lookup_insert_ne].
Qed.

Lemma clear_slots_spec i occ ts ss : length ts = length ss ->
  length (clear_slots i occ ts ss).1 = length ts /\ length (clear_slots i occ ts ss).2 = length ss /\
  forall j t, ts !! j = Some t ->
    (clear_slots i occ ts ss).1 !! j = Some (if Z.testbit occ (i + Z.of_nat j) then kTagEmpty else t).
Proof.
  revert i ss. induction ts as [|t ts IH]; intros i [|s ss] Hl; try done. injection Hl as Hl.
  destruct (IH (i + 1) ss Hl) as (H1 & H2 & H3). cbn [clear_slots].
  destruct (clear_slots (i + 1) occ ts ss) as [ts' ss']. cbn [fst snd] in *.
  split; [destruct (Z.testbit occ i); cbn; lia|]. split; [destruct (Z.testbit occ i); cbn; lia|].
  intros [|j] t' Ht; cbn in Ht.
  - injection Ht as ->. rewrite Z.add_0_r. by destruct (Z.testbit occ i).
  - apply H3 in Ht. replace (i + 1 + Z.of_nat j) with (i + Z.of_nat (S j)) in Ht by lia. by destruct (Z.testbit occ i).
Qed.

Lemma f14_clear_ok m c S : f14_holds m c S -> items_ok hash m S ->
  exists c' m', f14_clear m c = Some (c', m') /\ relinks S m m' /\ f14_holds m' c' ∅ /\ chunk_version c' = chunk_version c.
Proof.
  intros ((Ht & Hsl & Hr & Hs & _) & l & Hl & Hnd & Hd & HS) Hi. unfold f14_clear.
  destruct (clear_slots_spec 0 (occupied_mask c) (tags c) (slots c)) as (H1 & H2 & H3); [lia|].
  destruct (clear_slots _ _ _ _) as [ts ss]. cbn [fst snd] in *.
  pose proof (overflow_items m S l Hi ltac:(intros p Hp; apply HS; by left)) as Hk.
  destruct (chain_clear_spec (walk_fuel m) m (overflow_head c) l Hl Hnd Hk) as (m' & E & Hre); [by apply walk_fuel_enough|].
  rewrite E. cbn [mbind option_bind]. eexists _, m'. split; [done|]. split.
  { revert Hre. apply relinks_mono. intros p Hp%elem_of_list_to_set. apply HS. by left. }
  split; [|done]. apply f14_holds_empty; [lia..|]. intros i Hi14. specialize (Hs (Z.of_nat i) ltac:(lia)).
  destruct (lookup_lt_is_Some_2 (tags c) i) as [t Et]; [lia|]. rewrite (H3 i t Et). rewrite Z.add_0_l.
  unfold slot_ok in Hs. rewrite Nat2Z.id in Hs. destruct (Z.testbit (occupied_mask c) (Z.of_nat i)); [by left|]. by rewrite <- Et.
Qed.

(** Draining the slots from the [i]th on, before the overflow chain [l]. *)
Lemma drain_slots_spec {X} (f : bool -> node -> Z -> hmem Key -> X -> option (hmem Key * X)) (Q : gset node -> hmem Key -> X -> Prop) m0 c (l : list node) T :
  (forall b R p h m x, p ∈ R -> hashes m !! p = Some h -> Q R m x ->
     exists m' x', f b p (f14_tag h) m x = Some (m', x') /\ relinks {[p]} m m' /\ Q (R ∖ {[p]}) m' x') ->
  chunk_ok m0 c -> (forall i p, in_slot c i p -> p ∉ l /\ p ∈ T) ->
  forall n i m x R, 0 <= i -> i + Z.of_nat n = 14 -> relinks T m0 m ->
  (forall p, p ∈ R <-> p ∈ l \/ exists j, i <= j /\ in_slot c j p) -> Q R m x ->
  exists m' x' R', drain_slots f i (occupied_mask c) (drop (Z.to_nat i) (tags c)) (drop (Z.to_nat i) (slots c)) m x = Some (m', x') /\
    relinks T m0 m' /\ (forall p, p ∈ R' <-> p ∈ l) /\ Q R' m' x'.
Proof.
  intros Hf Hc Hd n. pose proof Hc as (Ht & Hsl & Hr & Hs & Hinj).
  induction n as [|n IH]; intros i m x R H0 Hi Hre HR HQ.
  - rewrite !drop_ge by lia. exists m, x, R. split; [done|]. split; [done|]. split; [|done]. intros p. rewrite HR.
    split; [|by left]. intros [?|(j & Hj & (? & _))]; [done|lia].
  - destruct (lookup_lt_is_Some_2 (tags c) (Z.to_nat i)) as [t Et]; [lia|].
    destruct (lookup_lt_is_Some_2 (slots c) (Z.to_nat i)) as [s Es]; [lia|].
    rewrite (drop_S _ t), (drop_S _ s) by done. cbn [drain_slots].
    replace (S (Z.to_nat i)) with (Z.to_nat (i + 1)) by lia.
    destruct (Z.testbit (occupied_mask c) i) eqn:Ho.
    + destruct (occupied_in_slot m0 c i Hc) as [p Hp]; [lia|done|].
      destruct (in_slot_lookup m0 c i p Hc Hp) as (h & Hh & Htg). assert (t = f14_tag h) as -> by congruence.
      assert (s = Some p) as -> by (destruct Hp as (_ & _ & Hp); congruence). cbn [mbind option_bind].
      destruct (Hf false R p h m x) as (m' & x' & E & Hre' & HQ'); [apply HR; right; exists i; done|by rewrite (proj1 (proj2 Hre))|done|].
      rewrite E. cbn [mbind option_bind]. apply (IH (i + 1) m' x' (R ∖ {[p]})); [lia|lia| | |done].
      * etransitivity; [done|]. revert Hre'. apply relinks_mono. destruct (Hd i p Hp). set_solver.
      * intros q. rewrite elem_of_difference, elem_of_singleton, HR. split.
        -- intros [[?|(j & Hj & Hq)] Hne]; [by left|]. right. exists j. split; [|done].
           assert (j <> i); [|lia]. intros ->. destruct Hq as (_ & _ & Hq), Hp as (_ & _ & Hp). congruence.
        -- intros [Hq|(j & Hj & Hq)].
           ++ split; [by left|]. intros ->. by destruct (Hd i p Hp).
           ++ split; [right; exists j; split; [lia|done]|]. intros ->. specialize (Hinj i j p Hp Hq). lia.
    + cbn [mbind option_bind]. apply (IH (i + 1) m x R); [lia|lia|done| |done]. intros q. rewrite HR. split.
      * intros [?|(j & Hj & Hq)]; [by left|]. right. exists j. split; [|done]. assert (j <> i); [|lia]. intros ->.
        destruct Hq as (_ & Hq & _). congruence.
      * intros [?|(j & Hj & Hq)]; [by left|]. right. exists j. split; [lia|done].
Qed.

Lemma f14_drain_ok X (f : bool -> node -> Z -> hmem Key -> X -> option (hmem Key * X)) (Q : gset node -> hmem Key -> X -> Prop) m x c S :
  (forall b R p h m x, p ∈ R -> hashes m !! p = Some h -> Q R m x ->
     exists m' x', f b p (f14_tag h) m x = Some (m', x') /\ relinks {[p]} m m' /\ Q (R ∖ {[p]}) m' x') ->
  f14_holds m c S -> items_ok hash m S -> Q S m x ->
  exists m' x' c', f14_drain f m x c = Some (m', x', c') /\ relinks S m m' /\ Q ∅ m' x' /\ f14_holds m' c' ∅ /\
    chunk_version c' = chunk_version c.
Proof.
  intros Hf H Hi HQ. pose proof H as (Hc & l & Hl & Hnd & Hd & HS). pose proof Hc as (Ht & Hsl & _).
  assert (forall p, p ∈ l -> p ∈ S) as HlS by (intros p Hp; apply HS; by left).
  pose proof (overflow_items m S l Hi HlS) as Hk.
  destruct (drain_slots_spec f Q m c l (S ∖ list_to_set l) Hf Hc) with (n := 14%nat) (i := 0) (m := m) (x := x) (R := S)
    as (m1 & x1 & R1 & E1 & Hre1 & HR1 & HQ1); [|lia|lia|done| |done|].
  { intros i p Hp. split; [by apply (Hd i)|]. specialize (Hd i p Hp). pose proof (holds_slot m c S i p H Hp). set_solver. }
  { intros p. rewrite HS. split; (intros [?|[i Hp]]; [by left|right; exists i]); [|apply Hp].
    split; [apply Hp|done]. }
  unfold f14_drain. cbn [Z.to_nat drop] in E1. rewrite !drop_0 in E1. rewrite E1. cbn [mbind option_bind].
  assert (R1 = list_to_set l) as -> by (apply set_eq; intros p; rewrite elem_of_list_to_set; apply HR1).
  destruct (chain_drain_spec (fun p m x => h ← cached_hash m p; f true p (f14_tag h) m x)
      (fun R m x => R ⊆ list_to_set l /\ items_ok hash m S /\ Q R m x))
    with (l := l) (fuel := walk_fuel m1) (m := m1) (x := x1) (h := overflow_head c) (R := list_to_set l (C := gset node))
    as (m2 & x2 & E2 & Hre2 & _ & _ & HQ2).
  - intros R p m' x' Hp (HR & Hi' & HQ'). destruct (proj1 Hi' p) as (k & _ & Hh); [apply HlS; set_solver|].
    destruct (Hf true R p _ m' x' Hp Hh HQ') as (m'' & x'' & E & Hre & HQ''). exists m'', x''. unfold cached_hash. rewrite Hh.
    split; [done|]. split; [done|]. split; [set_solver|]. split; [by apply (items_ok_relinks hash {[p]} m')|done].
  - apply (chain_relinks _ m m1 _ l Hre1); [set_solver|done].
  - done.
  - by rewrite (proj1 Hre1).
  - apply walk_fuel_enough; [done|]. by rewrite (proj1 Hre1).
  - set_solver.
  - split; [done|]. split; [|done]. by apply (items_ok_relinks hash _ m m1 _ Hre1).
  - rewrite E2. cbn [mbind option_bind]. eexists m2, x2, _. split; [done|]. split.
    { transitivity m1; [revert Hre1|revert Hre2]; apply relinks_mono; set_solver. }
    replace (list_to_set l ∖ list_to_set l) with (∅ : gset node) in HQ2 by set_solver. split; [done|]. split; [|done].
    apply f14_holds_empty; [by rewrite length_replicate| |].
    + clear -Hsl. generalize 0. generalize dependent (slots c). generalize 14%nat. intros n ss. revert n.
      induction ss as [|s ss IH]; intros n Hn i; cbn in *; [done|]. destruct n; [done|]. f_equal. apply IH. lia.
    + intros i Hi14. left. rewrite lookup_replicate. split; [done|lia].
Qed.

#[global] Instance f14_probing_laws : ProbingLaws hash (P := f14_probing_tag hash).
Proof.
  refine {| holds := f14_holds (Key := Key) : hmem Key -> @bucket Key (f14_probing_tag hash) -> gset node -> Prop;
            assign_rehash_installs := false |}.
  - intros m. apply f14_holds_empty; [done..|]. intros i Hi. left. rewrite lookup_replicate. split; [done|]. unfold kChunkCapacity. lia.
  - intros m c n S H. exact H.
  - intros T m m' c S. apply f14_holds_relinks.
  - intros m c S p h Hp. apply f14_holds_mem. intros q Hq. cbn. assert (q <> p) by set_solver.
    split; [by rewrite lookup_insert_ne|by right].
  - done.
  - done.
  - intros m c S key. apply f14_find_ok.
  - intros m c S p h Hb _ Hp Hh _. destruct (f14_insert_ok m c S p h Hb Hp Hh) as (? & ? & ?). eexists _, _. cbn.
    rewrite <- surjective_pairing. done.
  - intros b m c S p h Hb _ Hp Hh _. destruct (f14_place_ok b m c S p h Hb Hp Hh) as (? & ? & ?). eexists _, _. cbn.
    rewrite <- surjective_pairing. done.
  - intros m c S key. apply f14_erase_ok.
  - intros m c S key v. apply f14_assign_ok.
  - intros m c S key v. apply f14_assign_rehash_ok.
  - intros m c S. apply f14_clear_ok.
  - intros X f Q m x c S Hf. apply f14_drain_ok, Hf.
Defined.

End chunk_laws.
