(* ===== verification/HashTable.v ===== *)
(** The hash table of detail/concurrent_hash_table.hpp over a probing style, with
    embedded chains, as the strategies use it under the cache's write lock:
    lookup, insertion, assignment, erasure, clearing, blocking and incremental
    rehash with the dual-array protocol, and the overload bookkeeping. An
    operation fails ([None]) on an index out of range, a missing array or a bad
    pointer. *)

From Stdlib Require Import SpecFloat.
From S2P Require Import Prelude HashBucket.

(** * Arithmetic *)

Definition next_power_of_two (n : Z) : Z :=
  if n =? 0 then 1
  else
    let n := n - 1 in
    let n := Z.lor n (Z.shiftr n 1) in
    let n := Z.lor n (Z.shiftr n 2) in
    let n := Z.lor n (Z.shiftr n 4) in
    let n := Z.lor n (Z.shiftr n 8) in
    let n := Z.lor n (Z.shiftr n 16) in
    let n := Z.lor n (Z.shiftr n 32) in
    u64 (n + 1).

(** [float] is IEEE binary32. *)
Definition float32 := spec_float.
Definition f32_of_Z (z : Z) : float32 := binary_normalize 24 128 z 0 false.
Definition f32_div : float32 -> float32 -> float32 := SFdiv 24 128.
Definition f32_mul : float32 -> float32 -> float32 := SFmul 24 128.
Definition f32_gtb (x y : float32) : bool := SFltb y x.
(** [0.8f] *)
Definition f32_0_8 : float32 := S754_finite false 13421773 (-24).

Definition kRehashFinishMaxBucketsPerCall : Z := 64.
Definition kMaxOverloadQueue : nat := 1024.

(** * State *)

(** The counters and the overload notifications. *)
Record rehash_diag := RehashDiag {
  rehash_count_ : Z;
  rehash_migrated_items_ : Z;
  rehash_blocked_writes_count_ : Z;
  rehash_finish_stall_count_ : Z;
  rehash_finish_max_backlog_ : Z;
  hash_overload_events_ : Z;
  hash_overload_warned_ : bool;
  hash_overload_callback_ : bool;
  overload_callback_async_ : bool;
  overload_queue_ : list (float32 * float32);
  (** The calls of the user's callback, most recent last. *)
  callback_log : list (float32 * float32)
}.

Section table.
Context {Key : Type} {PB : Probing Key}.

Record table := Table {
  mem : hmem Key;
  buckets_ : list bucket;
  bucket_mask_ : Z;
  size_ : Z;
  seqlock_ : Z;
  enable_optimistic_read_ : bool;
  enable_hazptr_read_ : bool;
  max_load_factor_ : float32;
  hash_overload_threshold_ : float32;
  incremental_rehash_ : bool;
  rehash_in_progress_ : bool;
  rehash_new_buckets_ : option (list bucket);
  rehash_new_bucket_count_ : Z;
  rehash_progress_ : Z;
  rehash_migrating_ : bool;
  diag : rehash_diag
}.

End table.
#[global] Arguments table _ {_}.

(** Field updates. *)
Section setters.
Context {Key : Type} {PB : Probing Key}.
Implicit Types (t : table Key).

Definition set_arrays (m : hmem Key) (bs : list bucket) (ns : option (list bucket)) (sz : Z) t : table Key :=
  Table m bs (bucket_mask_ t) sz (seqlock_ t) (enable_optimistic_read_ t) (enable_hazptr_read_ t)
    (max_load_factor_ t) (hash_overload_threshold_ t) (incremental_rehash_ t) (rehash_in_progress_ t)
    ns (rehash_new_bucket_count_ t) (rehash_progress_ t) (rehash_migrating_ t) (diag t).
Definition set_rehash (ip : bool) (ns : option (list bucket)) (cnt prog : Z) (mig : bool) t : table Key :=
  Table (mem t) (buckets_ t) (bucket_mask_ t) (size_ t) (seqlock_ t) (enable_optimistic_read_ t) (enable_hazptr_read_ t)
    (max_load_factor_ t) (hash_overload_threshold_ t) (incremental_rehash_ t) ip ns cnt prog mig (diag t).
Definition set_primary (bs : list bucket) (mask : Z) t : table Key :=
  Table (mem t) bs mask (size_ t) (seqlock_ t) (enable_optimistic_read_ t) (enable_hazptr_read_ t)
    (max_load_factor_ t) (hash_overload_threshold_ t) (incremental_rehash_ t) (rehash_in_progress_ t)
    (rehash_new_buckets_ t) (rehash_new_bucket_count_ t) (rehash_progress_ t) (rehash_migrating_ t) (diag t).
Definition bump_seqlock (n : Z) t : table Key :=
  Table (mem t) (buckets_ t) (bucket_mask_ t) (size_ t) (u64 (seqlock_ t + n)) (enable_optimistic_read_ t) (enable_hazptr_read_ t)
    (max_load_factor_ t) (hash_overload_threshold_ t) (incremental_rehash_ t) (rehash_in_progress_ t)
    (rehash_new_buckets_ t) (rehash_new_bucket_count_ t) (rehash_progress_ t) (rehash_migrating_ t) (diag t).
Definition set_config (opt haz inc : bool) (mlf thr : float32) t : table Key :=
  Table (mem t) (buckets_ t) (bucket_mask_ t) (size_ t) (seqlock_ t) opt haz mlf thr inc (rehash_in_progress_ t)
    (rehash_new_buckets_ t) (rehash_new_bucket_count_ t) (rehash_progress_ t) (rehash_migrating_ t) (diag t).
Definition set_diag (d : rehash_diag) t : table Key :=
  Table (mem t) (buckets_ t) (bucket_mask_ t) (size_ t) (seqlock_ t) (enable_optimistic_read_ t) (enable_hazptr_read_ t)
    (max_load_factor_ t) (hash_overload_threshold_ t) (incremental_rehash_ t) (rehash_in_progress_ t)
    (rehash_new_buckets_ t) (rehash_new_bucket_count_ t) (rehash_progress_ t) (rehash_migrating_ t) d.

End setters.

(** Counter updates. *)
Definition count_rehash (d : rehash_diag) : rehash_diag :=
  RehashDiag (u64 (rehash_count_ d + 1)) (rehash_migrated_items_ d) (rehash_blocked_writes_count_ d)
    (rehash_finish_stall_count_ d) (rehash_finish_max_backlog_ d) (hash_overload_events_ d) (hash_overload_warned_ d)
    (hash_overload_callback_ d) (overload_callback_async_ d) (overload_queue_ d) (callback_log d).
Definition count_migrated (n : Z) (d : rehash_diag) : rehash_diag :=
  RehashDiag (rehash_count_ d) (u64 (rehash_migrated_items_ d + n)) (rehash_blocked_writes_count_ d)
    (rehash_finish_stall_count_ d) (rehash_finish_max_backlog_ d) (hash_overload_events_ d) (hash_overload_warned_ d)
    (hash_overload_callback_ d) (overload_callback_async_ d) (overload_queue_ d) (callback_log d).
Definition count_blocked (d : rehash_diag) : rehash_diag :=
  RehashDiag (rehash_count_ d) (rehash_migrated_items_ d) (u64 (rehash_blocked_writes_count_ d + 1))
    (rehash_finish_stall_count_ d) (rehash_finish_max_backlog_ d) (hash_overload_events_ d) (hash_overload_warned_ d)
    (hash_overload_callback_ d) (overload_callback_async_ d) (overload_queue_ d) (callback_log d).
(** A stalled finish and the backlog it leaves. *)
Definition count_stall (backlog : Z) (d : rehash_diag) : rehash_diag :=
  RehashDiag (rehash_count_ d) (rehash_migrated_items_ d) (rehash_blocked_writes_count_ d)
    (u64 (rehash_finish_stall_count_ d + 1)) (Z.max (rehash_finish_max_backlog_ d) backlog) (hash_overload_events_ d)
    (hash_overload_warned_ d) (hash_overload_callback_ d) (overload_callback_async_ d) (overload_queue_ d) (callback_log d).

(** [enqueue_overload_event]: the oldest event is dropped at capacity. *)
Definition enqueue_overload_event (ev : float32 * float32) (q : list (float32 * float32)) : list (float32 * float32) :=
  (if (kMaxOverloadQueue <=? length q)%nat then tail q else q) ++ [ev].

(** The overload bookkeeping of [rehash_if_needed]. *)
Definition note_overload (overloaded : bool) (ev : float32 * float32) (d : rehash_diag) : rehash_diag :=
  if overloaded then
    let async := overload_callback_async_ d in
    RehashDiag (rehash_count_ d) (rehash_migrated_items_ d) (rehash_blocked_writes_count_ d)
      (rehash_finish_stall_count_ d) (rehash_finish_max_backlog_ d) (u64 (hash_overload_events_ d + 1)) true
      (hash_overload_callback_ d) async
      (if async then enqueue_overload_event ev (overload_queue_ d) else overload_queue_ d)
      (if negb async && hash_overload_callback_ d then callback_log d ++ [ev] else callback_log d)
  else
    RehashDiag (rehash_count_ d) (rehash_migrated_items_ d) (rehash_blocked_writes_count_ d)
      (rehash_finish_stall_count_ d) (rehash_finish_max_backlog_ d) (hash_overload_events_ d) false
      (hash_overload_callback_ d) (overload_callback_async_ d) (overload_queue_ d) (callback_log d).

(** [drain_overload_callbacks] *)
Definition drain_overload (d : rehash_diag) : Z * rehash_diag :=
  (Z.of_nat (length (overload_queue_ d)),
   RehashDiag (rehash_count_ d) (rehash_migrated_items_ d) (rehash_blocked_writes_count_ d)
     (rehash_finish_stall_count_ d) (rehash_finish_max_backlog_ d) (hash_overload_events_ d) (hash_overload_warned_ d)
     (hash_overload_callback_ d) (overload_callback_async_ d) []
     (if hash_overload_callback_ d then callback_log d ++ overload_queue_ d else callback_log d)).

(** * Operations *)

Section ops.
Context {Key : Type} {PB : Probing Key}.
Context (hash : Key -> Z).
Implicit Types (t : table Key) (m : hmem Key) (key : Key).

(** ** Sizes and positions *)

Definition size t : Z := size_ t.
Definition bucket_count t : Z := u64 (bucket_mask_ t + 1).
Definition bucket_for_hash t (h : Z) : Z := Z.land h (bucket_mask_ t).
Definition incremental_rehash_active t : bool := incremental_rehash_ t && rehash_in_progress_ t.

Definition load_factor t : float32 :=
  let bc := bucket_count t in
  if bc =? 0 then f32_of_Z 0 else f32_div (f32_of_Z (size t)) (f32_of_Z bc).

Definition buckets_for_items (expected_items : Z) : Z :=
  if kIsF14 then
    let chunks := expected_items / 10 in
    next_power_of_two (if 0 <? chunks then chunks else 1)
  else next_power_of_two (u64 (expected_items * 4)).

(** The array that owns a hash while a migration is in flight, and the index in
    it: buckets below the progress have moved to the new array. *)
Inductive side := Old | New.

Definition owner t (h : Z) : side * Z :=
  let old_idx := Z.land h (bucket_mask_ t) in
  if old_idx <? rehash_progress_ t then (New, Z.land h (u64 (rehash_new_bucket_count_ t - 1)))
  else (Old, old_idx).

(** The side and index an operation works on. *)
Definition position t (h : Z) : side * Z :=
  if incremental_rehash_active t then owner t h else (Old, bucket_for_hash t h).

Definition get_bucket t (s : side) (idx : Z) : option bucket :=
  match s with
  | Old => buckets_ t !! Z.to_nat idx
  | New => ns ← rehash_new_buckets_ t; ns !! Z.to_nat idx
  end.

Definition put_bucket t (s : side) (idx : Z) (b : bucket) (m : hmem Key) (sz : Z) : table Key :=
  match s with
  | Old => set_arrays m (<[Z.to_nat idx := b]> (buckets_ t)) (rehash_new_buckets_ t) sz t
  | New => set_arrays m (buckets_ t) (fmap (M := option) (<[Z.to_nat idx := b]>) (rehash_new_buckets_ t)) sz t
  end.

(** ** Lookup *)

Definition even (x : Z) : bool := x mod 2 =? 0.

(** [find]: the optimistic read succeeds when both counters are even, which no
    writer disturbs here; otherwise the hazard-pointer walk answers a hit, and
    the locked lookup everything else. *)
Definition find (fuel : nat) t key : option node_ptr :=
  let '(s, idx) := position t (hash key) in
  b ← get_bucket t s idx;
  if incremental_rehash_active t then bucket_find (mem t) b key
  else if enable_optimistic_read_ t && even (seqlock_ t) && even (version b) then bucket_find (mem t) b key
  else
    hit ← (if enable_hazptr_read_ t && even (seqlock_ t) then bucket_find_hazptr fuel (mem t) b key else Some None);
    match hit with
    | Some p => Some (Some p)
    | None => bucket_find (mem t) b key
    end.

(** [find_embedded_shared]: the lookup under the bucket's shared lock. *)
Definition find_embedded_shared t key : option node_ptr :=
  let '(s, idx) := position t (hash key) in
  b ← get_bucket t s idx;
  bucket_find (mem t) b key.

Definition contains t key : option bool :=
  r ← find_embedded_shared t key; Some (bool_decide (r <> None)).

(** [find_and_pin_with_hash]: the item, when [pin_fn] pins it. *)
Definition find_and_pin_with_hash t key (pin_fn : node -> bool) : option node_ptr :=
  r ← find_embedded_shared t key;
  match r with
  | Some p => Some (if pin_fn p then Some p else None)
  | None => Some None
  end.

(** ** Migration *)

(** Places an item into the array that a rehash fills. *)
Definition place (new_mask : Z) (chained : bool) (p : node) (tag : Z) (m : hmem Key) (ns : list bucket)
  : option (hmem Key * list bucket) :=
  h ← cached_hash m p;
  let new_idx := Z.land h new_mask in
  nb ← ns !! Z.to_nat new_idx;
  '(nb, m) ← bucket_place chained m nb p tag;
  Some (m, <[Z.to_nat new_idx := nb]> ns).

(** The migrating loop of [rehash_step]. *)
Fixpoint step_loop (n : nat) (old_count new_mask migrated : Z) t : option (Z * table Key) :=
  match n with
  | O => Some (migrated, t)
  | S n =>
      let current := rehash_progress_ t in
      if old_count <=? current then Some (migrated, t)
      else
        b ← buckets_ t !! Z.to_nat current;
        ns ← rehash_new_buckets_ t;
        '(m, ns, b) ← bucket_drain (place new_mask) (mem t) ns b;
        let t := set_arrays m (<[Z.to_nat current := bump 2 b]> (buckets_ t)) (Some ns) (size_ t) t in
        let t := set_rehash (rehash_in_progress_ t) (rehash_new_buckets_ t) (rehash_new_bucket_count_ t) (current + 1)
                   (rehash_migrating_ t) t in
        step_loop n old_count new_mask (migrated + 1) t
  end.

Definition set_migrating (b : bool) t : table Key :=
  set_rehash (rehash_in_progress_ t) (rehash_new_buckets_ t) (rehash_new_bucket_count_ t) (rehash_progress_ t) b t.

(** [rehash_step] over the [rehash_finish] it calls when nothing is left. *)
Definition rehash_step_with (finish : table Key -> option (table Key)) (batch_size : Z) t : option (Z * table Key) :=
  if negb (rehash_in_progress_ t) then Some (0, t)
  else if rehash_migrating_ t then Some (0, t)
  else
    let old_count := bucket_count t in
    let new_mask := u64 (rehash_new_bucket_count_ t - 1) in
    '(migrated, t) ← step_loop (Z.to_nat batch_size) old_count new_mask 0 (set_migrating true t);
    let t := set_migrating false t in
    if old_count <=? rehash_progress_ t then t ← finish t; Some (migrated, t) else Some (migrated, t).

(** The loop of [rehash_finish]: [true] when it gave up on its budget. The chain
    mode counts every round, the F14 mode only rounds that migrated. *)
Fixpoint finish_loop (fuel : nat) (step : table Key -> option (Z * table Key)) (old_count migrated : Z) t
  : option (bool * table Key) :=
  if rehash_progress_ t <? old_count then
    match fuel with
    | O => None
    | S fuel =>
        if kRehashFinishMaxBucketsPerCall <=? migrated then
          Some (true, set_diag (count_stall (old_count - rehash_progress_ t) (diag t)) t)
        else
          '(n, t) ← step t;
          finish_loop fuel step old_count (if kIsF14 && (n =? 0) then migrated else migrated + 16) t
    end
  else Some (false, t).

(** The installation of the new array. *)
Definition install t : option (table Key) :=
  if negb (rehash_in_progress_ t) then Some t
  else
    ns ← rehash_new_buckets_ t;
    let t := bump_seqlock 1 t in
    let t := set_primary ns (u64 (rehash_new_bucket_count_ t - 1)) t in
    let t := set_rehash false None 0 0 (rehash_migrating_ t) t in
    Some (bump_seqlock 1 t).

(** [rehash_finish]; [depth] bounds its recursion through [rehash_step]. *)
Fixpoint rehash_finish (fuel depth : nat) t : option (table Key) :=
  match depth with
  | O => None
  | S depth =>
      if negb (rehash_in_progress_ t) then Some t
      else
        '(stalled, t) ← finish_loop fuel (rehash_step_with (rehash_finish fuel depth) 16) (bucket_count t) 0 t;
        if stalled : bool then Some t else install t
  end.

(** [rehash_step]: the finish it calls has nothing left to migrate. *)
Definition rehash_step : Z -> table Key -> option (Z * table Key) := rehash_step_with (rehash_finish 0 1).

(** ** Rehash *)

Fixpoint drain_all (new_mask : Z) (bs : list bucket) m (ns : list bucket) : option (hmem Key * list bucket) :=
  match bs with
  | [] => Some (m, ns)
  | b :: bs => '(m, ns, _) ← bucket_drain (place new_mask) m ns b; drain_all new_mask bs m ns
  end.

(** Starting an incremental rehash; the F14 mode restores the parity of the
    seqlock, the chain mode does not. *)
Definition rehash_begin (new_count : Z) t : table Key :=
  bump_seqlock (if kIsF14 then 2 else 1)
    (set_rehash true (Some (replicate (Z.to_nat new_count) empty_bucket)) new_count 0 (rehash_migrating_ t) t).

Definition rehash (new_bucket_count : Z) t : option (table Key) :=
  let n := next_power_of_two new_bucket_count in
  if n <=? bucket_count t then Some t
  else
    let items_before := size_ t in
    let t := set_diag (count_rehash (diag t)) t in
    if incremental_rehash_ t then
      if rehash_in_progress_ t then
        Some (if kIsF14 then set_diag (count_migrated items_before (diag t)) t else t)
      else
        let t := rehash_begin n t in
        Some (set_diag (count_migrated items_before (diag t)) t)
    else if rehash_migrating_ t then Some t
    else
      let t := set_diag (count_blocked (diag t)) (set_migrating true t) in
      let t := bump_seqlock 1 t in
      '(m, ns) ← drain_all (n - 1) (buckets_ t) (mem t) (replicate (Z.to_nat n) empty_bucket);
      let t := set_arrays m ns (rehash_new_buckets_ t) (size_ t) t in
      let t := set_primary ns (n - 1) t in
      let t := bump_seqlock 1 t in
      Some (set_migrating false (set_diag (count_migrated items_before (diag t)) t)).

Definition rehash_if_needed t : option (table Key) :=
  let current_lf := load_factor t in
  let threshold := hash_overload_threshold_ t in
  let overloaded := f32_gtb current_lf threshold in
  let t := set_diag (note_overload overloaded (current_lf, threshold) (diag t)) t in
  if incremental_rehash_active t then '(_, t) ← rehash_step 1 t; Some t
  else
    let mandatory_rehash := f32_gtb current_lf (max_load_factor_ t) in
    if negb overloaded && negb mandatory_rehash then Some t
    else rehash (u64 (bucket_count t * 2)) t.

Definition reserve (expected_items : Z) t : option (table Key) :=
  let target := buckets_for_items expected_items in
  if target <=? bucket_count t then Some t else rehash target t.

(** ** Insertion, assignment, erasure *)

(** The common end of an operation during a migration. *)
Definition step_if (active : bool) t : option (table Key) :=
  if active then '(_, t) ← rehash_step 1 t; Some t else Some t.

(** A new item enters the bucket at a position. *)
Definition insert_at t (s : side) (idx : Z) (b : bucket) (value : node) (h : Z) : option (table Key) :=
  let b := bump 1 b in
  let m := set_cached_hash value h (mem t) in
  '(b, m) ←
    match s with
    | New => bucket_place false m b value (place_tag h)
    | Old => bucket_insert m b value h
    end;
  Some (put_bucket t s idx (bump 1 b) m (u64 (size_ t + 1))).

(** The result is the item found or inserted, and whether it is new. *)
Definition insert t key (value : node) : option (node * bool * table Key) :=
  let h := hash key in
  t ← rehash_if_needed t;
  let active := incremental_rehash_active t in
  let '(s, idx) := position t h in
  b ← get_bucket t s idx;
  existing ← bucket_find (mem t) b key;
  match existing with
  | Some p => Some (p, false, t)
  | None =>
      t ← insert_at t s idx b value h;
      t ← step_if active t;
      Some (value, true, t)
  end.

Definition insert_or_assign t key (value : node) : option (node * bool * table Key) :=
  let h := hash key in
  t ← rehash_if_needed t;
  let active := incremental_rehash_active t in
  let '(s, idx) := position t h in
  b ← get_bucket t s idx;
  '(existing, b', m) ← (if active then bucket_assign_rehash else bucket_assign) (mem t) b key h value;
  match existing with
  | Some _ => Some (value, false, put_bucket t s idx (bump 1 (bump 1 b')) m (size_ t))
  | None =>
      t ← insert_at t s idx b value h;
      t ← step_if active t;
      Some (value, true, t)
  end.

Definition erase t key : option (bool * table Key) :=
  let h := hash key in
  let active := incremental_rehash_active t in
  let '(s, idx) := position t h in
  b ← get_bucket t s idx;
  '(r, b', m) ← bucket_erase (mem t) b key;
  match r with
  | Some _ =>
      let t := put_bucket t s idx (bump 1 (bump 1 b')) m (u64 (size_ t - 1)) in
      t ← step_if active t;
      Some (true, t)
  | None =>
      t ← step_if (active && kIsF14) t;
      Some (false, t)
  end.

(** ** Clearing *)

Fixpoint clear_all (bs : list bucket) m : option (list bucket * hmem Key) :=
  match bs with
  | [] => Some ([], m)
  | b :: bs =>
      '(b, m) ← bucket_clear m (bump 1 b);
      '(bs, m) ← clear_all bs m;
      Some (bump 1 b :: bs, m)
  end.

Definition clear t : option (table Key) :=
  t ←
    (if rehash_in_progress_ t then
       m ← match rehash_new_buckets_ t with
           | Some ns => '(_, m) ← clear_all ns (mem t); Some m
           | None => Some (mem t)
           end;
       Some (set_rehash false None 0 0 false (set_arrays m (buckets_ t) None (size_ t) t))
     else Some t);
  '(bs, m) ← clear_all (buckets_ t) (mem t);
  Some (set_arrays m bs (rehash_new_buckets_ t) 0 t).

(** ** Configuration and construction *)

Definition set_incremental_rehash (enabled : bool) t : table Key :=
  set_config (enable_optimistic_read_ t) (enable_hazptr_read_ t) enabled (max_load_factor_ t) (hash_overload_threshold_ t) t.
Definition set_optimistic_read (enabled : bool) t : table Key :=
  set_config enabled (enable_hazptr_read_ t) (incremental_rehash_ t) (max_load_factor_ t) (hash_overload_threshold_ t) t.
Definition set_hazptr_read (enabled : bool) t : table Key :=
  set_config (enable_optimistic_read_ t) enabled (incremental_rehash_ t) (max_load_factor_ t) (hash_overload_threshold_ t) t.
(** The overload threshold follows the mandatory one. *)
Definition set_max_load_factor (ml : float32) t : table Key :=
  set_config (enable_optimistic_read_ t) (enable_hazptr_read_ t) (incremental_rehash_ t) ml (f32_mul ml f32_0_8) t.
Definition set_hash_overload_threshold (threshold : float32) t : table Key :=
  let threshold := if SFleb threshold (f32_of_Z 0) then f32_of_Z 2 else threshold in
  set_config (enable_optimistic_read_ t) (enable_hazptr_read_ t) (incremental_rehash_ t) (max_load_factor_ t) threshold t.
Definition drain_overload_callbacks t : Z * table Key :=
  let '(n, d) := drain_overload (diag t) in (n, set_diag d t).

(** [concurrent_hash_table(num_buckets)] over items [m]. *)
Definition hash_table_new (num_buckets : Z) m : table Key :=
  let count := next_power_of_two num_buckets in
  let mlf := f32_of_Z (if kIsF14 then 10 else 4) in
  Table m (replicate (Z.to_nat count) empty_bucket) (u64 (count - 1)) 0 0 true true mlf (f32_mul mlf f32_0_8)
    false false None 0 0 false
    (RehashDiag 0 0 0 0 0 0 false false false [] []).

End ops.
