(* ===== verification/HashTableInv.v ===== *)
(** The invariant of the hash table: which items each array stores, where a key
    lives during a migration, and what the migration steps do to it. *)

From S2P Require Import Prelude HashBucket HashTable.

(** * Powers of two *)

(** [y] has the bits of [x] and of its shifts by less than [k]. *)
Definition smeared (k x y : Z) : Prop :=
  forall i, 0 <= i -> Z.testbit y i = true <-> exists d, 0 <= d < k /\ Z.testbit x (i + d) = true.

Lemma smear_step k x y : 0 < k -> smeared k x y -> smeared (2 * k) x (Z.lor y (Z.shiftr y k)).
Proof.
  intros Hk Hy i Hi. rewrite Z.lor_spec, Z.shiftr_spec, orb_true_iff, (Hy i), (Hy (i + k)) by lia. split.
  - intros [(d & Hd & Hb)|(d & Hd & Hb)]; [exists d; split; [lia|done]|]. exists (k + d). split; [lia|]. by rewrite Z.add_assoc.
  - intros (d & Hd & Hb). destruct (Z.lt_ge_cases d k); [left; exists d; split; [lia|done]|].
    right. exists (d - k). split; [lia|]. by replace (i + k + (d - k)) with (i + d) by lia.
Qed.

Lemma smeared_ones x y : 0 < x < 2 ^ 64 -> 0 <= y -> smeared 64 x y -> y = Z.ones (Z.log2 x + 1).
Proof.
  intros Hx Hy Hs. pose proof (Z.log2_nonneg x). assert (Z.log2 x < 64) by (apply Z.log2_lt_pow2; lia).
  apply Z.bits_inj'. intros i Hi. destruct (Z.lt_ge_cases i (Z.log2 x + 1)).
  - rewrite Z.ones_spec_low by lia. apply Hs; [done|]. exists (Z.log2 x - i). split; [lia|].
    replace (i + (Z.log2 x - i)) with (Z.log2 x) by lia. apply Z.bit_log2. lia.
  - rewrite Z.ones_spec_high by lia. apply not_true_iff_false. rewrite (Hs i Hi). intros (d & Hd & Hb).
    rewrite Z.bits_above_log2 in Hb by lia. done.
Qed.

(** The least power of two at or above [n]; beyond [2^63] the sum wraps to 0. *)
Lemma next_power_of_two_spec n : 0 <= n < 2 ^ 64 ->
  next_power_of_two n = if n <=? 2 ^ 63 then 2 ^ Z.log2_up n else 0.
Proof.
  intros Hn. unfold next_power_of_two. destruct (Z.eqb_spec n 0) as [->|Hne]; [done|].
  destruct (decide (n = 1)) as [->|Hn1]; [done|]. cbv zeta.
  set (x := n - 1). assert (0 < x < 2 ^ 64) as Hx by lia.
  assert (smeared 1 x x) as S0.
  { intros i Hi. split; [intros Hb; exists 0; split; [lia|by rewrite Z.add_0_r]|]. intros (d & Hd & Hb). by replace (i + d) with i in Hb by lia. }
  pose proof (smear_step 1 _ _ eq_refl S0) as S1. pose proof (smear_step 2 _ _ eq_refl S1) as S2.
  pose proof (smear_step 4 _ _ eq_refl S2) as S3. pose proof (smear_step 8 _ _ eq_refl S3) as S4.
  pose proof (smear_step 16 _ _ eq_refl S4) as S5. pose proof (smear_step 32 _ _ eq_refl S5) as S6.
  cbn [Z.mul Pos.mul] in S1, S2, S3, S4, S5, S6. apply smeared_ones in S6; [|done|].
  2: { repeat (apply Z.lor_nonneg; split; [|apply Z.shiftr_nonneg]; try (apply Z.lor_nonneg; split; [|apply Z.shiftr_nonneg])); lia. }
  rewrite S6, Z.ones_equiv. replace (Z.pred (2 ^ (Z.log2 x + 1)) + 1) with (2 ^ (Z.log2 x + 1)) by lia.
  pose proof (Z.log2_nonneg x). assert (Z.log2 x < 64) by (apply Z.log2_lt_pow2; lia).
  assert (Z.log2_up n = Z.log2 x + 1) as ->.
  { unfold Z.log2_up. destruct (Z.compare_spec 1 n); [lia|fold x; by rewrite Z.add_1_r|lia]. }
  destruct (Z.leb_spec n (2 ^ 63)).
  - apply wrap_small. split; [lia|]. apply Z.pow_lt_mono_r; [lia|lia|]. assert (Z.log2 x < 63); [|lia]. apply Z.log2_lt_pow2; lia.
  - assert (63 <= Z.log2 x) by (apply Z.log2_le_pow2; lia). replace (Z.log2 x + 1) with 64 by lia. done.
Qed.

Lemma land_mask_range h j : 0 <= j -> 0 <= Z.land h (2 ^ j - 1) < 2 ^ j.
Proof.
  intros Hj. replace (2 ^ j - 1) with (Z.ones j) by (rewrite Z.ones_equiv; lia).
  rewrite Z.land_ones by done. apply Z.mod_pos_bound, Z.pow_pos_nonneg; lia.
Qed.

(** * Arrays *)

Section rows.
Context {Key : Type} {PB : Probing Key} (hash : Key -> Z) {PL : ProbingLaws hash}.
Implicit Types (t : table Key) (m : hmem Key) (key : Key) (S T : gset node) (bs : list bucket).

(** The index of an item under a mask, and the items of one index. *)
Definition slot_of m (mask : Z) (p : node) : nat := Z.to_nat (Z.land (default 0 (hashes m !! p)) mask).
Definition part m (mask : Z) (i : nat) S : gset node := filter (fun p => slot_of m mask p = i) S.

(** An array stores the items [S], each at its index; its versions are even. *)
Definition rows m bs (mask : Z) S : Prop :=
  forall i b, bs !! i = Some b -> holds hash m b (part m mask i S) /\ version b mod 2 = 0.

Lemma elem_of_part m mask i S p : p ∈ part m mask i S <-> slot_of m mask p = i /\ p ∈ S.
Proof. unfold part. by rewrite elem_of_filter. Qed.

Lemma part_sub m mask i S : part m mask i S ⊆ S.
Proof. intros p. rewrite elem_of_part. tauto. Qed.

Lemma part_hashes m m' mask i S : hashes m' = hashes m -> part m' mask i S = part m mask i S.
Proof. intros E. apply set_eq. intros p. rewrite !elem_of_part. unfold slot_of. by rewrite E. Qed.

Lemma even_bump2 (b : bucket) : version b mod 2 = 0 -> version (bump 2 b) mod 2 = 0.
Proof.
  intros Hv. rewrite (version_bump hash). unfold wrap.
  rewrite <- Znumtheory.Zmod_div_mod; [|lia|lia|by exists (2 ^ 63)]. rewrite Z.add_mod, Hv by lia. done.
Qed.

Lemma even_bump11 (b b' : bucket) : version b mod 2 = 0 -> version b' = version (bump 1 b) -> version (bump 1 b') mod 2 = 0.
Proof.
  intros Hv E. rewrite (version_bump hash), E, (version_bump hash). autorewrite with wraps. unfold wrap.
  rewrite <- Znumtheory.Zmod_div_mod; [|lia|lia|by exists (2 ^ 63)].
  replace (version b + 1 + 1) with (version b + 2) by lia. rewrite Z.add_mod, Hv by lia. done.
Qed.

Lemma rows_relinks T m m' bs mask S : relinks T m m' -> S ## T -> rows m bs mask S -> rows m' bs mask S.
Proof.
  intros Hr Hd Hb i b E. destruct (Hb i b E) as [Hh Hv]. split; [|done].
  rewrite (part_hashes m m') by apply Hr. apply (holds_relinks hash T m); [done| |done].
  intros p Hp%part_sub. set_solver.
Qed.

Lemma rows_hash m bs mask S p h : p ∉ S -> rows m bs mask S -> rows (set_cached_hash p h m) bs mask S.
Proof.
  intros Hp Hb i b E. destruct (Hb i b E) as [Hh Hv]. split; [|done].
  replace (part (set_cached_hash p h m) mask i S) with (part m mask i S).
  - apply holds_hash; [|done]. intros ?%part_sub. done.
  - apply set_eq. intros q. rewrite !elem_of_part. unfold slot_of. cbn.
    destruct (decide (q = p)) as [->|]; [tauto|]. by rewrite lookup_insert_ne.
Qed.

Lemma rows_bump m bs mask S i b n : rows m bs mask S -> bs !! i = Some b -> version (bump n b) mod 2 = 0 ->
  rows m (<[i := bump n b]> bs) mask S.
Proof.
  intros Hb E Hv j c Ec. destruct (decide (j = i)) as [->|].
  - rewrite list_lookup_insert_eq in Ec by by eapply lookup_lt_Some. injection Ec as <-. split; [|done].
    apply holds_bump. by apply Hb.
  - rewrite list_lookup_insert_ne in Ec by done. by apply Hb.
Qed.

(** One bucket changes, and the items of the other indices stay. *)
Lemma rows_update T m m' bs mask S S' i b' : rows m bs mask S -> relinks T m m' ->
  (forall p, p ∈ S -> slot_of m mask p <> i -> p ∉ T) ->
  (forall p, slot_of m mask p <> i -> p ∈ S' <-> p ∈ S) ->
  holds hash m' b' (part m' mask i S') -> version b' mod 2 = 0 -> rows m' (<[i := b']> bs) mask S'.
Proof.
  intros Hb Hr HT HS Hh Hv j c Ec. destruct (decide (j = i)) as [->|Hne].
  - apply lookup_lt_Some in Ec as Hl. rewrite length_insert in Hl. rewrite list_lookup_insert_eq in Ec by done.
    injection Ec as <-. done.
  - rewrite list_lookup_insert_ne in Ec by done. destruct (Hb j c Ec) as [Hc Hvc]. split; [|done].
    replace (part m' mask j S') with (part m mask j S).
    + apply (holds_relinks hash T m); [done| |done]. intros p Hp%elem_of_part. apply HT; [tauto|]. destruct Hp as [-> _]. done.
    + apply set_eq. intros p. rewrite (part_hashes m m') by apply Hr. rewrite !elem_of_part.
      split; (intros [Hp HpS]; split; [done|]; apply HS; [congruence|done]).
Qed.

(** An item enters the bucket of its index. *)
Lemma rows_add m m' bs mask S p b' : rows m bs mask S -> relinks {[p]} m m' ->
  holds hash m' b' ({[p]} ∪ part m mask (slot_of m mask p) S) -> version b' mod 2 = 0 ->
  rows m' (<[slot_of m mask p := b']> bs) mask ({[p]} ∪ S).
Proof.
  intros Hb Hr Hh Hv. apply (rows_update {[p]} m m' bs mask S); [done|done|set_solver|set_solver| |done].
  rewrite (part_hashes m m') by apply Hr.
  replace (part m mask (slot_of m mask p) ({[p]} ∪ S)) with ({[p]} ∪ part m mask (slot_of m mask p) S); [done|].
  apply set_eq. intros q. rewrite elem_of_union, !elem_of_part, elem_of_union, elem_of_singleton.
  split; [|tauto]. intros [->|?]; [tauto|tauto].
Qed.

(** The fresh array. *)
Lemma rows_fresh m n mask : rows m (replicate n empty_bucket) mask ∅.
Proof.
  intros i b [-> _]%lookup_replicate. rewrite (version_empty hash). split; [|done].
  replace (part m mask i ∅) with (∅ : gset node); [apply holds_empty|]. apply set_eq. intros p. rewrite elem_of_part. set_solver.
Qed.

(** * Migration *)

Lemma place_row j c m ns S p h : 0 <= j -> Z.of_nat (length ns) = 2 ^ j -> rows m ns (2 ^ j - 1) S -> items_ok hash m ({[p]} ∪ S) ->
  p ∉ S -> hashes m !! p = Some h ->
  exists m' ns', place (2 ^ j - 1) c p (place_tag h) m ns = Some (m', ns') /\ relinks {[p]} m m' /\ length ns' = length ns /\
    rows m' ns' (2 ^ j - 1) ({[p]} ∪ S).
Proof.
  intros Hj Hl Hb Hi Hp Hh. unfold place, cached_hash. rewrite Hh. cbn [mbind option_bind].
  assert (slot_of m (2 ^ j - 1) p = Z.to_nat (Z.land h (2 ^ j - 1))) as Es by (unfold slot_of; by rewrite Hh).
  pose proof (land_mask_range h j Hj). destruct (lookup_lt_is_Some_2 ns (Z.to_nat (Z.land h (2 ^ j - 1)))) as [b Eb]; [lia|].
  rewrite Eb. cbn [mbind option_bind]. destruct (Hb _ _ Eb) as [Hh' Hv].
  destruct (place_ok hash c m b (part m (2 ^ j - 1) (Z.to_nat (Z.land h (2 ^ j - 1))) S) p h) as (b' & m' & E & Hr & Hv' & Hh'');
    [done| |intros ?%part_sub; done|done| |].
  - apply (items_ok_mono hash _ ({[p]} ∪ S)); [|done]. intros q ?%part_sub. set_solver.
  - destruct (proj1 Hi p) as (k & -> & _); [set_solver|eauto].
  - rewrite E. cbn [mbind option_bind]. eexists m', _. split; [done|]. split; [done|]. split; [by rewrite length_insert|].
    rewrite <- Es in *. apply (rows_add m); [done|done|done|]. by rewrite Hv'.
Qed.

(** All items of a bucket move to the new array. *)
Lemma drain_bucket j m ns T b S : 0 <= j -> Z.of_nat (length ns) = 2 ^ j -> rows m ns (2 ^ j - 1) T -> holds hash m b S ->
  items_ok hash m (S ∪ T) -> S ## T ->
  exists m' ns' b', bucket_drain (place (2 ^ j - 1)) m ns b = Some (m', ns', b') /\ relinks S m m' /\
    length ns' = length ns /\ rows m' ns' (2 ^ j - 1) (S ∪ T) /\ holds hash m' b' ∅ /\ version b' = version b.
Proof.
  intros Hj Hl Hb Hh Hi Hd.
  destruct (drain_ok hash (list bucket) (place (2 ^ j - 1))
    (fun R m' ns' => R ⊆ S /\ relinks S m m' /\ length ns' = length ns /\ rows m' ns' (2 ^ j - 1) (S ∖ R ∪ T)) m ns b S)
    as (m' & ns' & b' & E & Hr & (_ & _ & Hl' & Hb') & Hh' & Hv).
  - intros c R p h m1 ns1 Hp Hph (HR & Hr1 & Hl1 & Hb1).
    destruct (place_row j c m1 ns1 (S ∖ R ∪ T) p h) as (m2 & ns2 & E & Hr2 & Hl2 & Hb2);
      [done|lia|done| |set_solver|done|].
    { apply (items_ok_relinks hash S m); [done|]. apply (items_ok_mono hash _ (S ∪ T)); [set_solver|done]. }
    exists m2, ns2. split; [done|]. split; [done|]. split; [set_solver|]. split; [|split; [lia|]].
    { etransitivity; [done|]. revert Hr2. apply relinks_mono. set_solver. }
    replace (S ∖ (R ∖ {[p]}) ∪ T) with ({[p]} ∪ (S ∖ R ∪ T)); [done|]. apply set_eq. intros q.
    rewrite !elem_of_union, !elem_of_difference, !elem_of_singleton. destruct (decide (q = p)) as [->|]; [|tauto].
    split; [|tauto]. intros _. left. split; [set_solver|tauto].
  - done.
  - apply (items_ok_mono hash _ (S ∪ T)); [set_solver|done].
  - split; [done|]. split; [done|]. split; [done|]. by replace (S ∖ S ∪ T) with T by set_solver.
  - exists m', ns', b'. replace (S ∖ ∅ ∪ T) with (S ∪ T) in Hb' by set_solver. done.
Qed.

(** The blocking migration of an array, from index [o] on. *)
Lemma drain_all_rows j mask bs : 0 <= j -> forall o m ns S T,
  (forall i b, bs !! i = Some b -> holds hash m b (part m mask (o + i) S)) ->
  (forall p, p ∈ S -> (o <= slot_of m mask p < o + length bs)%nat) ->
  Z.of_nat (length ns) = 2 ^ j -> rows m ns (2 ^ j - 1) T -> items_ok hash m (S ∪ T) -> S ## T ->
  exists m' ns', drain_all (2 ^ j - 1) bs m ns = Some (m', ns') /\ relinks S m m' /\
    length ns' = length ns /\ rows m' ns' (2 ^ j - 1) (S ∪ T).
Proof.
  intros Hj. induction bs as [|b bs IH]; intros o m ns S T Hh Hs Hl Hb Hi Hd; cbn [drain_all].
  - assert (S = ∅) as ->.
    { apply set_eq. intros p. split; [|set_solver]. intros Hp%Hs. cbn in Hp. lia. }
    exists m, ns. split; [done|]. split; [done|]. split; [done|]. by replace (∅ ∪ T) with T by set_solver.
  - set (P := part m mask o S). assert (P ⊆ S) as HP by apply part_sub.
    destruct (drain_bucket j m ns T b P) as (m1 & ns1 & b1 & E1 & Hr1 & Hl1 & Hb1 & _);
      [done|done|done|specialize (Hh 0%nat b eq_refl); by rewrite Nat.add_0_r in Hh| |set_solver|].
    { apply (items_ok_mono hash _ (S ∪ T)); [set_solver|done]. }
    rewrite E1. cbn [mbind option_bind].
    destruct (IH (Datatypes.S o) m1 ns1 (S ∖ P) (P ∪ T)) as (m2 & ns2 & E2 & Hr2 & Hl2 & Hb2).
    + intros i c Ec. replace (part m1 mask (Datatypes.S o + i) (S ∖ P)) with (part m mask (o + Datatypes.S i) S).
      * apply (holds_relinks hash P m); [done| |by apply Hh]. intros p Hp%elem_of_part HpP%elem_of_part. lia.
      * apply set_eq. intros p. rewrite (part_hashes m m1) by apply Hr1. unfold P. rewrite !elem_of_part, elem_of_difference, elem_of_part.
        split; intros Hp; destruct_and!; split_and?; try done; try lia.
    + intros p [Hp HnP]%elem_of_difference. specialize (Hs p Hp). unfold P in HnP. rewrite elem_of_part in HnP.
      unfold slot_of in *. rewrite (proj1 (proj2 Hr1)). cbn [length] in Hs. assert (slot_of m mask p <> o) by (unfold slot_of; tauto).
      unfold slot_of in *. lia.
    + lia.
    + done.
    + apply (items_ok_relinks hash P m); [done|]. apply (items_ok_mono hash _ (S ∪ T)); [set_solver|done].
    + set_solver.
    + exists m2, ns2. split; [done|]. split; [|split; [lia|]].
      * transitivity m1; [revert Hr1|revert Hr2]; apply relinks_mono; set_solver.
      * replace (S ∪ T) with (S ∖ P ∪ (P ∪ T)); [done|]. apply set_eq. intros p.
        rewrite !elem_of_union, elem_of_difference. destruct (decide (p ∈ P)); [|tauto]. set_solver.
Qed.

End rows.

(** * The invariant *)

Section invariant.
Context {Key : Type} `{Countable Key} {PB : Probing Key} (hash : Key -> Z) {PL : ProbingLaws hash}.
Implicit Types (t : table Key) (M : gmap Key node) (A B : gset node).

(** The migration in flight: the new array stores [B], whose buckets are below
    the progress; [A] are the items still in the old array. *)
Definition migration t A B : Prop :=
  incremental_rehash_ t = true /\
  (exists j ns, rehash_new_buckets_ t = Some ns /\ 0 <= j <= 63 /\ rehash_new_bucket_count_ t = 2 ^ j /\
     Z.of_nat (length ns) = 2 ^ j /\ rows hash (mem t) ns (2 ^ j - 1) B) /\
  0 <= rehash_progress_ t <= bucket_mask_ t + 1 /\
  (forall p, p ∈ A -> rehash_progress_ t <= Z.of_nat (slot_of (mem t) (bucket_mask_ t) p)) /\
  (forall p, p ∈ B -> Z.of_nat (slot_of (mem t) (bucket_mask_ t) p) < rehash_progress_ t).

(** The arrays store the items of the map [M], [A] in the current array. *)
Record tcore t M A B : Prop := {
  tc_mask : exists j, 0 <= j <= 63 /\ bucket_mask_ t = 2 ^ j - 1 /\ Z.of_nat (length (buckets_ t)) = 2 ^ j;
  tc_items : items_ok hash (mem t) (A ∪ B);
  tc_disj : A ## B;
  tc_map : forall k p, M !! k = Some p <-> p ∈ A ∪ B /\ keys (mem t) !! p = Some k;
  tc_size : size_ t = Z.of_nat (base.size M);
  tc_space : Z.of_nat (base.size (keys (mem t))) < 2 ^ 64;
  tc_old : rows hash (mem t) (buckets_ t) (bucket_mask_ t) A;
  tc_new : if rehash_in_progress_ t then migration t A B else B = ∅
}.

Definition inv t M : Prop :=
  (exists A B, tcore t M A B) /\ rehash_migrating_ t = false /\
  (rehash_in_progress_ t = true -> rehash_progress_ t < bucket_count t).

(** What no operation on the entries changes. *)
Definition same_setup t t' : Prop :=
  keys (mem t') = keys (mem t) /\ incremental_rehash_ t' = incremental_rehash_ t /\
  enable_optimistic_read_ t' = enable_optimistic_read_ t /\ enable_hazptr_read_ t' = enable_hazptr_read_ t.

#[global] Instance same_setup_refl : Reflexive same_setup.
Proof. by intros t. Qed.
#[global] Instance same_setup_trans : Transitive same_setup.
Proof. intros t1 t2 t3 (? & ? & ? & ?) (? & ? & ? & ?). repeat split; congruence. Qed.

Lemma core_count t M A B : tcore t M A B -> bucket_count t = bucket_mask_ t + 1 /\ 0 <= bucket_mask_ t.
Proof.
  intros C. unfold bucket_count. destruct (tc_mask _ _ _ _ C) as (j & Hj & -> & _). rewrite wrap_small.
  - split; [lia|]. pose proof (Z.pow_pos_nonneg 2 j ltac:(lia) ltac:(lia)). lia.
  - split; [lia|]. assert (2 ^ j <= 2 ^ 63) by (apply Z.pow_le_mono_r; lia). lia.
Qed.

Lemma core_slot t M A B p : tcore t M A B -> Z.of_nat (slot_of (mem t) (bucket_mask_ t) p) < bucket_mask_ t + 1.
Proof.
  intros C. destruct (tc_mask _ _ _ _ C) as (j & Hj & -> & _). unfold slot_of.
  pose proof (land_mask_range (default 0 (hashes (mem t) !! p)) j ltac:(lia)). lia.
Qed.

Lemma pow_mask j : 0 <= j <= 63 -> u64 (2 ^ j - 1) = 2 ^ j - 1.
Proof.
  intros Hj. apply wrap_small. assert (2 ^ j <= 2 ^ 63) by (apply Z.pow_le_mono_r; lia).
  pose proof (Z.pow_pos_nonneg 2 j ltac:(lia) ltac:(lia)). lia.
Qed.

(** One bucket is migrated. *)
Lemma migrate_one t M A B : tcore t M A B -> rehash_in_progress_ t = true -> rehash_progress_ t < bucket_mask_ t + 1 ->
  exists b ns m ns' b', buckets_ t !! Z.to_nat (rehash_progress_ t) = Some b /\ rehash_new_buckets_ t = Some ns /\
    bucket_drain (place (u64 (rehash_new_bucket_count_ t - 1))) (mem t) ns b = Some (m, ns', b') /\
    let t1 := set_arrays m (<[Z.to_nat (rehash_progress_ t) := bump 2 b']> (buckets_ t)) (Some ns') (size_ t) t in
    let t' := set_rehash true (Some ns') (rehash_new_bucket_count_ t) (rehash_progress_ t + 1) (rehash_migrating_ t) t1 in
    exists A' B', tcore t' M A' B' /\ same_setup t t'.
Proof.
  intros C Hip Hprog. pose proof C as [(j & Hj & Hmask & Hlen) Hi Hd HM Hsz Hsp Ho Hn]. rewrite Hip in Hn.
  destruct Hn as (Hinc & (j' & ns & Ens & Hj' & Hcnt & Hlns & Hb) & Hp & HA & HB).
  destruct (lookup_lt_is_Some_2 (buckets_ t) (Z.to_nat (rehash_progress_ t))) as [b Eb]; [lia|].
  set (P := part (mem t) (bucket_mask_ t) (Z.to_nat (rehash_progress_ t)) A). assert (P ⊆ A) as HPA by apply part_sub.
  destruct (Ho _ _ Eb) as [Hh Hv]. fold P in Hh.
  destruct (drain_bucket hash j' (mem t) ns B b P) as (m' & ns' & b' & E & Hr & Hl' & Hb' & Hh' & Hv');
    [lia|lia|done|done|apply (items_ok_mono hash _ (A ∪ B)); [set_solver|done]|set_solver|].
  exists b, ns, m', ns', b'. split; [done|]. split; [done|]. rewrite Hcnt, pow_mask by done. split; [done|].
  intros t1 t'. exists (A ∖ P), (P ∪ B).
  assert (keys (mem t') = keys (mem t)) as Ek by apply Hr. assert (hashes (mem t') = hashes (mem t)) as Ehs by apply Hr.
  assert (A ∖ P ∪ (P ∪ B) = A ∪ B) as EAB.
  { apply set_eq. intros p. rewrite !elem_of_union, elem_of_difference. destruct (decide (p ∈ P)); [|tauto]. set_solver. }
  assert (forall p, slot_of (mem t') (bucket_mask_ t') p = slot_of (mem t) (bucket_mask_ t) p) as Esl.
  { intros p. unfold slot_of. by rewrite Ehs. }
  split; [|split; [done|done]]. split; rewrite ?EAB, ?Ek.
  - exists j. split; [done|]. split; [done|]. cbn. by rewrite length_insert.
  - by apply (items_ok_relinks hash P (mem t)).
  - set_solver.
  - done.
  - done.
  - done.
  - apply (rows_update hash P (mem t) m' (buckets_ t) (bucket_mask_ t) A); [done|done| | | |].
    + intros p Hp' Hne ?%elem_of_part. tauto.
    + intros p Hne. rewrite elem_of_difference. unfold P. rewrite elem_of_part. tauto.
    + apply holds_bump. replace (part m' _ _ _) with (∅ : gset node); [done|]. apply set_eq. intros p.
      rewrite (part_hashes (mem t) m') by apply Hr. unfold P. rewrite elem_of_part, elem_of_difference, elem_of_part. set_solver.
    + apply (even_bump2 hash). by rewrite Hv'.
  - split; [done|]. split; [exists j', ns'; split; [done|]; split; [done|]; split; [done|]; split; [by rewrite Hl'|done]|].
    split; [cbn; lia|]. split; intros p Hp'; rewrite Esl; cbn.
    + apply elem_of_difference in Hp' as [HpA HnP]. specialize (HA p HpA). unfold P in HnP. rewrite elem_of_part in HnP.
      assert (slot_of (mem t) (bucket_mask_ t) p <> Z.to_nat (rehash_progress_ t)) by tauto. lia.
    + apply elem_of_union in Hp' as [[Es _]%elem_of_part|HpB]; [lia|]. specialize (HB p HpB). lia.
Qed.

Lemma step_loop_ok k t M A B c : tcore t M A B -> rehash_in_progress_ t = true ->
  exists n t' A' B',
    step_loop k (bucket_mask_ t + 1) (u64 (rehash_new_bucket_count_ t - 1)) c t = Some (n, t') /\
    tcore t' M A' B' /\ same_setup t t' /\ rehash_in_progress_ t' = true /\ rehash_migrating_ t' = rehash_migrating_ t /\
    bucket_mask_ t' = bucket_mask_ t /\ diag t' = diag t /\
    rehash_progress_ t' = Z.min (rehash_progress_ t + Z.of_nat k) (bucket_mask_ t + 1) /\
    n = c + (rehash_progress_ t' - rehash_progress_ t).
Proof.
  revert t A B c. induction k as [|k IH]; intros t A B c C Hip; cbn [step_loop];
    pose proof (tc_new _ _ _ _ C) as Hn; rewrite Hip in Hn; destruct Hn as (_ & _ & Hp & _).
  - exists c, t, A, B. split_and!; try done; lia.
  - destruct (Z.leb_spec (bucket_mask_ t + 1) (rehash_progress_ t)).
    { exists c, t, A, B. split_and!; try done; lia. }
    destruct (migrate_one t M A B C Hip) as (b & ns & m & ns' & b' & Eb & Ens & E & Ht); [lia|].
    rewrite Eb, Ens. cbn [mbind option_bind]. rewrite E. cbn [mbind option_bind].
    destruct Ht as (A' & B' & C' & Hs').
    destruct (IH _ A' B' (c + 1) C' eq_refl) as (n & t' & A'' & B'' & E' & C'' & Hs'' & ? & ? & ? & ? & Hpr & Hn').
    cbn in E', Hpr, Hn'. cbn. rewrite Hip. exists n, t', A'', B''. split; [done|]. split; [done|].
    split; [by transitivity (set_rehash true (Some ns') (rehash_new_bucket_count_ t) (rehash_progress_ t + 1) (rehash_migrating_ t)
      (set_arrays m (<[Z.to_nat (rehash_progress_ t) := bump 2 b']> (buckets_ t)) (Some ns') (size_ t) t))|].
    split_and!; try done; lia.
Qed.

(** The counters, the seqlock and the settings of the rehash trigger do not matter. *)
Definition same_entries t t' : Prop :=
  mem t' = mem t /\ buckets_ t' = buckets_ t /\ bucket_mask_ t' = bucket_mask_ t /\ size_ t' = size_ t /\
  incremental_rehash_ t' = incremental_rehash_ t /\ rehash_in_progress_ t' = rehash_in_progress_ t /\
  rehash_new_buckets_ t' = rehash_new_buckets_ t /\ rehash_new_bucket_count_ t' = rehash_new_bucket_count_ t /\
  rehash_progress_ t' = rehash_progress_ t.

Lemma core_entries t t' M A B : same_entries t t' -> tcore t M A B -> tcore t' M A B.
Proof.
  destruct t, t'. unfold same_entries. cbn. intros (-> & -> & -> & -> & -> & -> & -> & -> & ->) [????????]. by split.
Qed.

Lemma inv_entries t t' M : same_entries t t' -> rehash_migrating_ t' = false -> inv t M -> inv t' M.
Proof.
  intros Hs Hm ((A & B & C) & _ & Hp). split; [exists A, B; by apply (core_entries t)|]. split; [done|].
  destruct Hs as (_ & _ & E & _ & _ & -> & _ & _ & ->). unfold bucket_count in *. by rewrite E.
Qed.

(** The new array becomes the table. *)
Lemma install_ok t M A B : tcore t M A B -> rehash_in_progress_ t = true -> rehash_progress_ t = bucket_mask_ t + 1 ->
  rehash_migrating_ t = false ->
  exists t', install t = Some t' /\ inv t' M /\ same_setup t t' /\ rehash_in_progress_ t' = false /\ diag t' = diag t /\
    rehash_progress_ t' = 0 /\ bucket_count t' = rehash_new_bucket_count_ t.
Proof.
  intros C Hip Hpr Hm. pose proof C as [Hmask Hi Hd HM Hsz Hsp Ho Hn]. rewrite Hip in Hn.
  destruct Hn as (Hinc & (j' & ns & Ens & Hj' & Hcnt & Hlns & Hb) & Hp & HA & HB).
  assert (A = ∅) as ->.
  { apply set_eq. intros p. split; [|set_solver]. intros HpA. specialize (HA p HpA). pose proof (core_slot t M A B p C). lia. }
  unfold install. rewrite Hip, Ens. cbn [negb mbind option_bind]. eexists. split; [done|].
  assert (bucket_count (bump_seqlock 1 (set_rehash false None 0 0 (rehash_migrating_ t)
    (set_primary ns (u64 (rehash_new_bucket_count_ t - 1)) (bump_seqlock 1 t)))) = rehash_new_bucket_count_ t) as Ebc.
  { unfold bucket_count. cbn. rewrite Hcnt, pow_mask by done. replace (2 ^ j' - 1 + 1) with (2 ^ j') by lia.
    apply wrap_small. split; [lia|]. apply Z.pow_lt_mono_r; lia. }
  split; [|done]. split; [|split; [done|]; intros [=]]. exists B, ∅. split; cbn.
  - exists j'. rewrite Hcnt, pow_mask by done. done.
  - by replace (B ∪ ∅) with (∅ ∪ B) by set_solver.
  - set_solver.
  - intros k p. rewrite HM. set_solver.
  - done.
  - done.
  - rewrite Hcnt, pow_mask by done. done.
  - done.
Qed.

(** [rehash_step]: the map is unchanged; the progress advances, and the migration
    that reaches the end is installed. *)
Lemma step_with_ok finish batch t M : inv t M -> 0 <= batch ->
  (forall t1 A B, tcore t1 M A B -> rehash_in_progress_ t1 = true -> rehash_progress_ t1 = bucket_mask_ t1 + 1 ->
     rehash_migrating_ t1 = false -> finish t1 = install t1) ->
  exists n t', rehash_step_with finish batch t = Some (n, t') /\ inv t' M /\ same_setup t t' /\ diag t' = diag t /\
    if rehash_in_progress_ t
    then n = Z.min batch (bucket_count t - rehash_progress_ t) /\
         if rehash_progress_ t + batch <? bucket_count t
         then rehash_in_progress_ t' = true /\ bucket_count t' = bucket_count t /\ rehash_progress_ t' = rehash_progress_ t + batch
         else rehash_in_progress_ t' = false /\ rehash_progress_ t' = 0
    else n = 0 /\ t' = t.
Proof.
  intros ((A & B & C) & Hm & Hp) Hb Hfin. unfold rehash_step_with. destruct (rehash_in_progress_ t) eqn:Hip; cbn [negb].
  2: { exists 0, t. split_and!; try done. split; [eauto|]. split; [done|]. intros ?; congruence. }
  rewrite Hm. destruct (core_count t M A B C) as [Ebc Hm0]. rewrite Ebc.
  assert (tcore (set_migrating true t) M A B) as C1 by (apply (core_entries t); [by repeat split|done]).
  destruct (step_loop_ok (Z.to_nat batch) _ M A B 0 C1 Hip) as (n & t1 & A1 & B1 & E & C2 & Hs & Hip1 & Hm1 & Hmask & Hdg & Hpr & Hn).
  cbn in E, Hpr, Hn, Hmask, Hdg. change (rehash_new_bucket_count_ (set_migrating true t)) with (rehash_new_bucket_count_ t) in E.
  change (bucket_mask_ (set_migrating true t)) with (bucket_mask_ t) in E. rewrite E. cbn [mbind option_bind].
  assert (tcore (set_migrating false t1) M A1 B1) as C3 by (apply (core_entries t1); [by repeat split|done]).
  specialize (Hp eq_refl). rewrite Ebc in Hp.
  change (rehash_progress_ (set_migrating false t1)) with (rehash_progress_ t1).
  destruct (Z.ltb_spec (rehash_progress_ t + batch) (bucket_mask_ t + 1)).
  - destruct (Z.leb_spec (bucket_mask_ t + 1) (rehash_progress_ t1)); [lia|].
    eexists n, _. split; [done|]. assert (bucket_count (set_migrating false t1) = bucket_mask_ t + 1) as Ebc1.
    { rewrite <- Hmask. apply (core_count _ M A1 B1 C3). }
    split; [split; [eauto|]; split; [done|]; intros _; rewrite Ebc1; cbn; lia|].
    split; [by transitivity t1|]. split; [done|]. split; [lia|]. split; [done|]. split; [done|]. cbn. lia.
  - destruct (Z.leb_spec (bucket_mask_ t + 1) (rehash_progress_ t1)); [|lia].
    assert (rehash_progress_ (set_migrating false t1) = bucket_mask_ (set_migrating false t1) + 1) as Hfull by (cbn; lia).
    rewrite (Hfin _ A1 B1 C3 Hip1 Hfull eq_refl).
    destruct (install_ok _ M A1 B1 C3 Hip1 Hfull eq_refl) as (t2 & E2 & Hi2 & Hs2 & Hip2 & Hd2 & Hp2 & _). rewrite E2. cbn [mbind option_bind].
    exists n, t2. split; [done|]. split; [done|]. split; [by do 2 (etransitivity; [done|])|]. split; [by rewrite Hd2|].
    split; [lia|]. done.
Qed.

Lemma finish_full fuel d t M A B : tcore t M A B -> rehash_in_progress_ t = true -> rehash_progress_ t = bucket_mask_ t + 1 ->
  rehash_finish fuel (S d) t = install t.
Proof.
  intros C Hip Hpr. cbn [rehash_finish]. rewrite Hip. cbn [negb]. destruct (core_count t M A B C) as [-> _].
  assert (forall step, finish_loop fuel step (bucket_mask_ t + 1) 0 t = Some (false, t)) as ->; [|done].
  intros step. destruct fuel; cbn [finish_loop]; destruct (Z.ltb_spec (rehash_progress_ t) (bucket_mask_ t + 1)); done || lia.
Qed.

Lemma rehash_step_ok batch t M : inv t M -> 0 <= batch ->
  exists n t', rehash_step batch t = Some (n, t') /\ inv t' M /\ same_setup t t' /\
    if rehash_in_progress_ t
    then n = Z.min batch (bucket_count t - rehash_progress_ t)
    else n = 0 /\ t' = t.
Proof.
  intros Hi Hb. destruct (step_with_ok (rehash_finish 0 1) batch t M Hi Hb) as (n & t' & E & Hi' & Hs & _ & Hr).
  - intros t1 A B C Hip Hpr _. by apply (finish_full 0 0 t1 M A B).
  - exists n, t'. split; [done|]. split; [done|]. split; [done|]. destruct (rehash_in_progress_ t); [|done]. by destruct Hr.
Qed.

End invariant.
