(* ===== verification/HashTableOps.v ===== *)
(** One lemma per operation of the hash table: it returns, keeps the invariant,
    and acts on the map the table stores. *)

From S2P Require Import Prelude HashBucket HashTable HashTableInv.

Section ops.
Context {Key : Type} `{Countable Key} {PB : Probing Key} (hash : Key -> Z) {PL : ProbingLaws hash}.
Implicit Types (t : table Key) (M : gmap Key node) (A B S : gset node).

Abbreviation tcore := (tcore hash).
Abbreviation inv := (inv hash).

(** * Positions *)

Definition side_set (s : side) A B : gset node := match s with Old => A | New => B end.
Definition side_mask t (s : side) : Z :=
  match s with Old => bucket_mask_ t | New => u64 (rehash_new_bucket_count_ t - 1) end.

Lemma core_active t M A B : tcore t M A B -> incremental_rehash_active t = rehash_in_progress_ t.
Proof.
  intros C. pose proof (tc_new _ _ _ _ _ C) as Hn. unfold incremental_rehash_active.
  destruct (rehash_in_progress_ t); [|apply andb_false_r]. destruct Hn as (-> & _). done.
Qed.

(** The side a hash is sent to, when a migration is in flight. *)
Definition sided t (h : Z) (s : side) : Prop :=
  if rehash_in_progress_ t then
    match s with
    | Old => rehash_progress_ t <= Z.land h (bucket_mask_ t)
    | New => Z.land h (bucket_mask_ t) < rehash_progress_ t
    end
  else s = Old.

Lemma position_sided t M A B h s idx : tcore t M A B -> position t h = (s, idx) ->
  sided t h s /\ idx = Z.land h (side_mask t s) /\ 0 <= idx.
Proof.
  intros C. unfold position, sided. rewrite (core_active t M A B C).
  destruct (tc_mask _ _ _ _ _ C) as (j & Hj & Hm & _). pose proof (tc_new _ _ _ _ _ C) as Hn.
  destruct (rehash_in_progress_ t).
  - unfold owner. destruct (Z.ltb_spec (Z.land h (bucket_mask_ t)) (rehash_progress_ t)); intros [= <- <-]; (split; [done|]; split; [done|]).
    + destruct Hn as (_ & (j' & ns & _ & Hj' & -> & _) & _). rewrite pow_mask by done. apply land_mask_range. lia.
    + rewrite Hm. apply land_mask_range. lia.
  - intros [= <- <-]. split; [done|]. split; [done|]. unfold bucket_for_hash. rewrite Hm. apply land_mask_range. lia.
Qed.

(** The bucket at the position of a hash holds every stored item with the hash. *)
Lemma position_bucket t M A B h s idx : tcore t M A B -> position t h = (s, idx) ->
  exists b, get_bucket t s idx = Some b /\ version b mod 2 = 0 /\
    holds hash (mem t) b (part (mem t) (side_mask t s) (Z.to_nat idx) (side_set s A B)) /\
    forall p, p ∈ A ∪ B -> hashes (mem t) !! p = Some h -> p ∈ part (mem t) (side_mask t s) (Z.to_nat idx) (side_set s A B).
Proof.
  intros C Hpos. destruct (position_sided t M A B h s idx C Hpos) as (Hs & Hidx & H0).
  destruct (tc_mask _ _ _ _ _ C) as (j & Hj & Hm & Hl). pose proof (tc_new _ _ _ _ _ C) as Hn. unfold sided in Hs.
  assert (forall p mask, hashes (mem t) !! p = Some h -> slot_of (mem t) mask p = Z.to_nat (Z.land h mask)) as Hslot.
  { intros p mask E. unfold slot_of. by rewrite E. }
  destruct s; cbn [get_bucket side_set side_mask] in *.
  - pose proof (land_mask_range h j ltac:(lia)). rewrite <- Hm in *. destruct (lookup_lt_is_Some_2 (buckets_ t) (Z.to_nat idx)) as [b Eb]; [lia|].
    exists b. destruct (tc_old _ _ _ _ _ C _ _ Eb) as [Hh Hv]. split; [done|]. split; [done|]. split; [done|].
    intros p Hp Ep. apply elem_of_part. rewrite (Hslot p _ Ep). subst idx. split; [done|].
    apply elem_of_union in Hp as [?|HpB]; [done|]. destruct (rehash_in_progress_ t); [|set_solver].
    destruct Hn as (_ & _ & _ & _ & HB). specialize (HB p HpB). rewrite (Hslot p _ Ep) in HB. lia.
  - destruct (rehash_in_progress_ t); [|done]. destruct Hn as (_ & (j' & ns & -> & Hj' & Hc & Hlns & Hb) & _ & HA & _).
    rewrite Hc, pow_mask in * by done. pose proof (land_mask_range h j' ltac:(lia)). cbn [mbind option_bind].
    destruct (lookup_lt_is_Some_2 ns (Z.to_nat idx)) as [b Eb]; [lia|]. exists b. destruct (Hb _ _ Eb) as [Hh Hv].
    split; [done|]. split; [done|]. split; [done|]. intros p Hp Ep. apply elem_of_part. rewrite (Hslot p _ Ep). subst idx. split; [done|].
    apply elem_of_union in Hp as [HpA|?]; [|done]. specialize (HA p HpA). rewrite (Hslot p _ Ep) in HA.
    pose proof (land_mask_range h j ltac:(lia)) as Hr. rewrite <- Hm in Hr. lia.
Qed.

Lemma side_sub s A B : side_set s A B ⊆ A ∪ B.
Proof. destruct s; cbn; set_solver. Qed.

Lemma part_items t M A B s mask idx : tcore t M A B -> items_ok hash (mem t) (part (mem t) mask idx (side_set s A B)).
Proof.
  intros C. apply (items_ok_mono hash _ (A ∪ B)); [|apply C]. intros p Hp%part_sub. by apply (side_sub s A B).
Qed.

(** A search at the position of a key answers from the map. *)
Lemma found_map t M A B s idx key r : tcore t M A B ->
  (forall p, p ∈ A ∪ B -> hashes (mem t) !! p = Some (hash key) ->
     p ∈ part (mem t) (side_mask t s) (Z.to_nat idx) (side_set s A B)) ->
  found (mem t) (part (mem t) (side_mask t s) (Z.to_nat idx) (side_set s A B)) key r -> r = M !! key.
Proof.
  intros C Hin Hf. destruct r as [p|]; cbn in Hf.
  - destruct Hf as [Hp Hk]. symmetry. apply (tc_map _ _ _ _ _ C). split; [|done]. by apply part_sub, side_sub in Hp.
  - destruct (M !! key) as [p|] eqn:E; [|done]. apply (tc_map _ _ _ _ _ C) in E as [Hp Hk]. exfalso. apply (Hf p); [|done].
    apply Hin; [done|]. destruct (proj1 (tc_items _ _ _ _ _ C) p Hp) as (k & Hk' & Hh). congruence.
Qed.

Lemma find_embedded_shared_ok t M key : inv t M -> find_embedded_shared hash t key = Some (M !! key).
Proof.
  intros ((A & B & C) & _). unfold find_embedded_shared. destruct (position t (hash key)) as [s idx] eqn:Hpos.
  destruct (position_bucket t M A B _ s idx C Hpos) as (b & -> & _ & Hh & Hin). cbn [mbind option_bind].
  destruct (find_ok hash (mem t) b _ key Hh) as (r & -> & Hr); [by apply (part_items t M)|]. f_equal. by apply (found_map t M A B s idx).
Qed.

(** The hazard-pointer walk is not reached when optimistic reads are on. *)
Lemma find_ok_map fuel t M key : inv t M -> enable_optimistic_read_ t = true \/ enable_hazptr_read_ t = false ->
  find hash fuel t key = Some (M !! key).
Proof.
  intros Hi Hopt. rewrite <- (find_embedded_shared_ok t M key Hi). destruct Hi as ((A & B & C) & _).
  unfold find, find_embedded_shared. destruct (position t (hash key)) as [s idx] eqn:Hpos.
  destruct (position_bucket t M A B _ s idx C Hpos) as (b & -> & Hv & _). cbn [mbind option_bind].
  destruct (incremental_rehash_active t); [done|]. assert (even (version b) = true) as -> by (unfold even; by rewrite Hv).
  rewrite andb_true_r. destruct (enable_optimistic_read_ t), (even (seqlock_ t)); cbn [andb]; try done.
  all: try rewrite andb_false_r; try done. destruct Hopt as [?| ->]; done.
Qed.

(** * Changing one bucket *)

(** The hash of an item outside the table is written. *)
Definition with_mem (m : hmem Key) t : table Key := set_arrays m (buckets_ t) (rehash_new_buckets_ t) (size_ t) t.

Lemma core_hash t M A B v h : tcore t M A B -> v ∉ A ∪ B -> tcore (with_mem (set_cached_hash v h (mem t)) t) M A B.
Proof.
  intros [Hmask Hi Hd HM Hsz Hsp Ho Hn] Hv.
  assert (forall p, p ∈ A ∪ B -> hashes (set_cached_hash v h (mem t)) !! p = hashes (mem t) !! p) as Eh.
  { intros p Hp. cbn. rewrite lookup_insert_ne; [done|]. by intros ->. }
  split; try done; change (mem (with_mem (set_cached_hash v h (mem t)) t)) with (set_cached_hash v h (mem t)).
  - split; [|apply Hi]. intros p Hp. rewrite (Eh p Hp). by apply Hi.
  - apply rows_hash; [set_solver|done].
  - cbn [rehash_in_progress_ with_mem set_arrays]. destruct (rehash_in_progress_ t); [|done].
    destruct Hn as (Hinc & (j' & ns & ? & ? & ? & ? & Hb) & Hp & HA & HB).
    split; [done|]. split; [exists j', ns; split_and!; try done; try lia; apply rows_hash; [set_solver|done]|]. split; [done|].
    split; intros p Hp'; unfold slot_of; change (mem (with_mem (set_cached_hash v h (mem t)) t)) with (set_cached_hash v h (mem t));
      rewrite Eh by set_solver; [by apply HA|by apply HB].
Qed.

(** The new contents [S] of the side [s]. *)
Definition new_sides (s : side) S A B : gset node * gset node := match s with Old => (S, B) | New => (A, S) end.

Lemma put_ok t M A B h s idx T m b S sz M' : tcore t M A B -> position t h = (s, idx) -> relinks T (mem t) m ->
  (forall p, p ∈ A ∪ B -> p ∈ T -> p ∈ part (mem t) (side_mask t s) (Z.to_nat idx) (side_set s A B)) ->
  (forall p, p ∈ S -> p ∈ side_set s A B \/ (hashes (mem t) !! p = Some h /\ p ∉ A ∪ B)) ->
  (forall p, p ∈ side_set s A B -> slot_of (mem t) (side_mask t s) p <> Z.to_nat idx -> p ∈ S) ->
  holds hash m b (part m (side_mask t s) (Z.to_nat idx) S) -> version b mod 2 = 0 ->
  let '(A', B') := new_sides s S A B in
  items_ok hash m (A' ∪ B') -> (forall k p, M' !! k = Some p <-> p ∈ A' ∪ B' /\ keys m !! p = Some k) ->
  sz = Z.of_nat (base.size M') -> tcore (put_bucket t s idx b m sz) M' A' B'.
Proof.
  intros C Hpos Hr HT HS1 HS2 Hh Hv. destruct (position_sided t M A B h s idx C Hpos) as (Hs & Hidx & H0).
  pose proof C as [Hmask Hi Hd HM Hsz Hsp Ho Hn].
  assert (forall mask p, slot_of m mask p = slot_of (mem t) mask p) as Esl by (intros; unfold slot_of; by rewrite (proj1 (proj2 Hr))).
  assert (forall p mask, hashes (mem t) !! p = Some h -> slot_of (mem t) mask p = Z.to_nat (Z.land h mask)) as Hslot.
  { intros p mask E. unfold slot_of. by rewrite E. }
  assert (forall p, p ∈ S -> slot_of (mem t) (side_mask t s) p <> Z.to_nat idx -> p ∈ side_set s A B) as HS3.
  { intros p Hp Hne. destruct (HS1 p Hp) as [?|[E _]]; [done|]. rewrite (Hslot p _ E) in Hne. by subst idx. }
  assert (forall p, p ∈ side_set s A B -> slot_of (mem t) (side_mask t s) p <> Z.to_nat idx -> p ∉ T) as HTn.
  { intros p Hp Hne HpT. apply Hne. specialize (HT p (side_sub s A B p Hp) HpT). by apply elem_of_part in HT as [? _]. }
  assert (Z.of_nat (base.size (keys m)) < 2 ^ 64) as Hsp' by by rewrite (proj1 Hr).
  unfold sided in Hs. destruct s; cbn [side_set side_mask new_sides put_bucket] in *; intros Hi' HM' ->.
  - split; [destruct Hmask as (j & ? & ? & ?); exists j; cbn; by rewrite length_insert|done| |done|done|exact Hsp'| |].
    + intros p Hp HpB. destruct (HS1 p Hp) as [?|[_ ?]]; set_solver.
    + apply (rows_update hash T (mem t) m _ _ A); [done|done|done|intros p Hne; split; auto|done|done].
    + cbn. destruct (rehash_in_progress_ t); [|done]. destruct Hn as (Hinc & (j' & ns & ? & ? & ? & ? & Hb) & Hp & HA & HB).
      split; [done|]. split; [exists j', ns; split_and!; try done; try lia|].
      * apply (rows_relinks hash T (mem t)); [done| |done]. intros p HpB HpT.
        specialize (HT p ltac:(set_solver) HpT). apply part_sub in HT. set_solver.
      * split; [done|]. split; intros p Hp'; cbn; rewrite Esl; [|by apply HB].
        destruct (HS1 p Hp') as [?|[E _]]; [by apply HA|]. rewrite (Hslot p _ E). lia.
  - destruct (rehash_in_progress_ t) eqn:Hip; [|done].
    destruct Hn as (Hinc & (j' & ns & Ens & Hj' & Hc & Hlns & Hb) & Hp & HA & HB). rewrite Hc, pow_mask in * by done.
    split; [done|done| |done|done|exact Hsp'| |].
    + intros p HpA Hp'. destruct (HS1 p Hp') as [?|[_ ?]]; set_solver.
    + cbn. apply (rows_relinks hash T (mem t)); [done| |done]. intros p HpA HpT.
      specialize (HT p ltac:(set_solver) HpT). apply part_sub in HT. set_solver.
    + cbn. rewrite Hip. split; [done|]. split.
      * exists j', (<[Z.to_nat idx := b]> ns). cbn. rewrite Ens. split; [done|]. split; [done|]. split; [done|].
        split; [by rewrite length_insert|]. apply (rows_update hash T (mem t) m _ _ B); [done|done|done|intros p Hne; split; auto|done|done].
      * split; [done|]. split; intros p Hp'; cbn; rewrite Esl; [by apply HA|].
        destruct (HS1 p Hp') as [?|[E _]]; [by apply HB|]. rewrite (Hslot p _ E). destruct Hmask as (j & Hj & Hm & _).
        pose proof (land_mask_range h j ltac:(lia)) as Hr'. rewrite <- Hm in Hr'. lia.
Qed.

(** * Insertion *)

(** Distinct keys have distinct items. *)
Lemma map_fits (K : gmap node Key) M : (forall k p, M !! k = Some p -> K !! p = Some k) -> (base.size M <= base.size K)%nat.
Proof.
  intros HK. set (l := (map_to_list M).*2).
  assert (NoDup l) as Hnd.
  { apply NoDup_fmap_2_strong; [|apply NoDup_map_to_list]. intros [k1 p1] [k2 p2] H1%elem_of_map_to_list H2%elem_of_map_to_list E.
    cbn in E. subst p2. apply HK in H1, H2. congruence. }
  replace (base.size M) with (length l) by (unfold l; by rewrite length_fmap, length_map_to_list).
  rewrite <- (size_list_to_set (C := gset node) l Hnd), <- size_dom. apply subseteq_size. intros p Hp%elem_of_list_to_set.
  apply list_elem_of_fmap in Hp as ([k q] & -> & Hq%elem_of_map_to_list). apply elem_of_dom. cbn. rewrite (HK k q Hq). eauto.
Qed.

(** The rehash state, untouched by a change of one bucket. *)
Definition same_rehash t t' : Prop :=
  bucket_mask_ t' = bucket_mask_ t /\ rehash_in_progress_ t' = rehash_in_progress_ t /\
  rehash_progress_ t' = rehash_progress_ t /\ rehash_migrating_ t' = rehash_migrating_ t.

Lemma inv_core t t' M M' A B : inv t M -> tcore t' M' A B -> same_rehash t t' -> inv t' M'.
Proof.
  intros (_ & Hm & Hp) C (E1 & E2 & E3 & E4). split; [eauto|]. rewrite E4. split; [done|].
  unfold bucket_count in *. by rewrite E1, E2, E3.
Qed.

Lemma put_same t s idx b m sz : keys m = keys (mem t) ->
  same_rehash t (put_bucket t s idx b m sz) /\ same_setup t (put_bucket t s idx b m sz).
Proof. intros E. by destruct s. Qed.

Lemma insert_at_ok t M A B key value s idx b : tcore t M A B -> position t (hash key) = (s, idx) -> get_bucket t s idx = Some b ->
  M !! key = None -> keys (mem t) !! value = Some key ->
  exists t' A' B', insert_at t s idx b value (hash key) = Some t' /\ tcore t' (<[key := value]> M) A' B' /\
    same_rehash t t' /\ same_setup t t'.
Proof.
  intros C Hpos Hget HM Hk. assert (value ∉ A ∪ B) as Hv.
  { intros Hv. assert (M !! key = Some value) by by apply (tc_map _ _ _ _ _ C). congruence. }
  set (t1 := with_mem (set_cached_hash value (hash key) (mem t)) t).
  pose proof (core_hash t M A B value (hash key) C Hv) as C1. fold t1 in C1.
  destruct (position_bucket t1 M A B (hash key) s idx C1 Hpos) as (b1 & Eb & Hev & Hh & _).
  assert (b1 = b) as -> by (assert (get_bucket t1 s idx = get_bucket t s idx) by (by destruct s); congruence).
  destruct (position_sided t1 M A B (hash key) s idx C1 Hpos) as (_ & Hidx & _).
  set (P := part (mem t1) (side_mask t1 s) (Z.to_nat idx) (side_set s A B)) in *.
  assert (value ∉ P) as HvP by (intros ?%part_sub%side_sub; done).
  assert (hashes (mem t1) !! value = Some (hash key)) as Hhv by (cbn; by rewrite lookup_insert_eq).
  assert (exists b' m', match s with New => bucket_place false (mem t1) (bump 1 b) value (place_tag (hash key))
                                   | Old => bucket_insert (mem t1) (bump 1 b) value (hash key) end = Some (b', m') /\
      relinks {[value]} (mem t1) m' /\ version b' = version (bump 1 b) /\ holds hash m' b' ({[value]} ∪ P)) as (b' & m' & E & Hr & Hvb & Hh').
  { apply (holds_bump hash _ _ 1) in Hh. pose proof (part_items t1 M A B s (side_mask t1 s) (Z.to_nat idx) C1) as Hpi.
    destruct s; [apply insert_ok|apply place_ok]; eauto. }
  unfold insert_at. change (set_cached_hash value (hash key) (mem t)) with (mem t1). rewrite E. cbn [mbind option_bind].
  pose proof (put_ok t1 M A B (hash key) s idx {[value]} m' (bump 1 b') ({[value]} ∪ side_set s A B) (u64 (size_ t + 1)) (<[key := value]> M)
    C1 Hpos Hr) as Hput.
  destruct (new_sides s ({[value]} ∪ side_set s A B) A B) as [A' B'] eqn:Ens.
  assert (A' ∪ B' = {[value]} ∪ (A ∪ B)) as EAB by (destruct s; injection Ens as <- <-; cbn; set_solver).
  assert (keys m' = keys (mem t)) as Ek by apply Hr.
  eexists _, A', B'. split; [done|]. split; [|by apply put_same].
  replace (put_bucket t s idx (bump 1 b') m' (u64 (size_ t + 1))) with (put_bucket t1 s idx (bump 1 b') m' (u64 (size_ t + 1))) by by destruct s.
  assert (forall k p, <[key := value]> M !! k = Some p <-> p ∈ A' ∪ B' /\ keys m' !! p = Some k) as HM'.
  { intros k p. rewrite EAB, Ek. rewrite elem_of_union, elem_of_singleton. destruct (decide (k = key)) as [->|Hne].
    - rewrite lookup_insert_eq. split; [intros [= <-]; tauto|]. intros [[->|Hp] Hpk]; [done|].
      assert (M !! key = Some p) by by apply (tc_map _ _ _ _ _ C). congruence.
    - rewrite lookup_insert_ne by done. rewrite (tc_map _ _ _ _ _ C). split; [tauto|]. intros [[->|?] ?]; [congruence|tauto]. }
  apply Hput; [set_solver| | | | | |done|].
  - intros p [->%elem_of_singleton|?]%elem_of_union; [by right|by left].
  - set_solver.
  - apply holds_bump. replace (part m' (side_mask t1 s) (Z.to_nat idx) ({[value]} ∪ side_set s A B)) with ({[value]} ∪ P); [done|].
    apply set_eq. intros p. rewrite (part_hashes (mem t1) m') by apply Hr. unfold P.
    rewrite elem_of_union, !elem_of_part, elem_of_union, elem_of_singleton. split; [|tauto].
    intros [->|?]; [|tauto]. split; [|tauto]. unfold slot_of. rewrite Hhv. by subst idx.
  - apply (even_bump11 hash b); [done|done].
  - rewrite EAB. apply (items_ok_relinks hash {[value]} (mem t1)); [done|]. pose proof (tc_items _ _ _ _ _ C1) as [Hi1 Hi2]. split.
    + intros p [->%elem_of_singleton|?]%elem_of_union; [eauto|by apply Hi1].
    + intros p q k [->%elem_of_singleton|Hp]%elem_of_union [->%elem_of_singleton|Hq]%elem_of_union Hpk Hqk; [done|..|by apply (Hi2 p q k)].
      * cbn in Hpk. assert (M !! key = Some q); [|congruence]. apply (tc_map _ _ _ _ _ C). cbn in Hqk. split; [done|congruence].
      * cbn in Hqk. assert (M !! key = Some p); [|congruence]. apply (tc_map _ _ _ _ _ C). cbn in Hpk. split; [done|congruence].
  - rewrite map_size_insert_None by done. rewrite (tc_size _ _ _ _ _ C).
    pose proof (map_fits (keys (mem t)) (<[key := value]> M)) as Hf. rewrite map_size_insert_None in Hf by done.
    pose proof (tc_space _ _ _ _ _ C). rewrite wrap_small; [lia|]. split; [lia|].
    assert (S (base.size M) <= base.size (keys (mem t)))%nat; [|lia]. apply Hf. intros k p Hkp%HM'. rewrite Ek in Hkp. tauto.
Qed.

(** * Rehash *)

Lemma npo2_pow n x : 0 <= n < 2 ^ 64 -> 0 < x < next_power_of_two n -> exists j, 0 <= j <= 63 /\ next_power_of_two n = 2 ^ j.
Proof.
  intros Hn. rewrite next_power_of_two_spec by done. destruct (Z.leb_spec n (2 ^ 63)); [|lia]. intros _.
  exists (Z.log2_up n). split; [|done]. split; [apply Z.log2_up_nonneg|]. apply (Z.le_trans _ (Z.log2_up (2 ^ 63))); [|by compute].
  by apply Z.log2_up_le_mono.
Qed.

Lemma rehash_begin_ok t M j : inv t M -> rehash_in_progress_ t = false -> incremental_rehash_ t = true -> 0 <= j <= 63 ->
  inv (rehash_begin (2 ^ j) t) M.
Proof.
  intros ((A & B & C) & Hm & _) Hip Hinc Hj. destruct (core_count hash t M A B C) as [Ebc H0].
  pose proof C as [Hmask Hi Hd HM Hsz Hsp Ho Hn]. rewrite Hip in Hn. subst B.
  split; [|split; [done|]; intros _; change (bucket_count (rehash_begin (2 ^ j) t)) with (bucket_count t); cbn; lia].
  exists A, ∅. split; try done. cbn. split; [done|]. split.
  - exists j, (replicate (Z.to_nat (2 ^ j)) empty_bucket). split; [done|]. split; [done|]. split; [done|].
    split; [rewrite length_replicate; lia|]. apply rows_fresh.
  - split; [cbn; lia|]. split; intros p Hp; [cbn; lia|set_solver].
Qed.

Lemma rehash_ok n t M : inv t M -> 0 <= n < 2 ^ 64 ->
  exists t', rehash n t = Some t' /\ inv t' M /\ same_setup t t'.
Proof.
  intros Hi Hn. unfold rehash. pose proof Hi as ((A & B & C) & Hm & Hp). destruct (core_count hash t M A B C) as [Ebc H0].
  destruct (Z.leb_spec (next_power_of_two n) (bucket_count t)) as [|Hlt]; [by exists t|].
  destruct (npo2_pow n (bucket_count t)) as (j & Hj & Ej); [done|lia|]. rewrite Ej. cbv zeta.
  assert (forall d t, inv t M -> inv (set_diag d t) M) as Hdiag.
  { intros d t0 Hi0. apply (inv_entries hash t0); [by repeat split|apply Hi0|done]. }
  set (t1 := set_diag (count_rehash (diag t)) t). assert (inv t1 M) as Hi1 by by apply Hdiag.
  change (incremental_rehash_ t1) with (incremental_rehash_ t). change (rehash_in_progress_ t1) with (rehash_in_progress_ t).
  change (rehash_migrating_ t1) with (rehash_migrating_ t). destruct (incremental_rehash_ t) eqn:Hinc.
  - destruct (rehash_in_progress_ t) eqn:Hip.
    + eexists. split; [done|]. destruct kIsF14; (split; [by try apply Hdiag|done]).
    + eexists. split; [done|]. split; [|done]. by apply Hdiag, rehash_begin_ok.
  - assert (rehash_in_progress_ t = false) as Hip.
    { pose proof (tc_new _ _ _ _ _ C) as Hn'. destruct (rehash_in_progress_ t); [|done]. destruct Hn' as (? & _). congruence. }
    rewrite Hm. pose proof C as [(j0 & Hj0 & Hmask & Hlen) Hit Hd HM Hsz Hsp Ho Hnw]. rewrite Hip in Hnw. subst B.
    destruct (drain_all_rows hash j (bucket_mask_ t) (buckets_ t) ltac:(lia) 0 (mem t) (replicate (Z.to_nat (2 ^ j)) empty_bucket) A ∅)
      as (m' & ns' & E & Hr & Hl & Hb).
    + intros i b Eb. by apply Ho.
    + intros p Hp'. pose proof (core_slot hash t M A ∅ p C). lia.
    + rewrite length_replicate. lia.
    + apply rows_fresh.
    + done.
    + set_solver.
    + match goal with |- context [drain_all ?a ?b ?c ?d] => change (drain_all a b c d) with (drain_all (2 ^ j - 1) (buckets_ t) (mem t) d) end.
      rewrite E. cbn [mbind option_bind]. eexists. split; [done|].
      rewrite length_replicate in Hl. replace (A ∪ ∅) with A in * by set_solver.
      split; [|split; [apply Hr|done]]. split; [|split; [done|]; cbn; intros; congruence]. exists A, ∅. split; cbn.
      * exists j. split; [done|]. split; [done|]. lia.
      * replace (A ∪ ∅) with A by set_solver. by apply (items_ok_relinks hash A (mem t)).
      * set_solver.
      * rewrite (proj1 Hr). intros k p. rewrite HM. by replace (A ∪ ∅) with A by set_solver.
      * done.
      * by rewrite (proj1 Hr).
      * done.
      * by rewrite Hip.
Qed.

Lemma step_if_ok b t M : inv t M -> exists t', step_if b t = Some t' /\ inv t' M /\ same_setup t t'.
Proof.
  intros Hi. unfold step_if. destruct b; [|by exists t].
  destruct (rehash_step_ok hash 1 t M Hi) as (n & t' & -> & Hi' & Hs & _); [lia|]. by exists t'.
Qed.

Lemma rehash_if_needed_ok t M : inv t M -> exists t', rehash_if_needed t = Some t' /\ inv t' M /\ same_setup t t'.
Proof.
  intros Hi. unfold rehash_if_needed. set (t1 := set_diag _ t).
  assert (inv t1 M) as Hi1 by (apply (inv_entries hash t); [by repeat split|apply Hi|done]).
  assert (same_setup t t1) as Hs1 by done. destruct (incremental_rehash_active t1).
  - destruct (rehash_step_ok hash 1 t1 M Hi1) as (n & t' & -> & Hi' & Hs & _); [lia|]. by exists t'.
  - destruct (negb _ && negb _); [by exists t1|].
    destruct (rehash_ok (u64 (bucket_count t1 * 2)) t1 M Hi1) as (t' & -> & Hi' & Hs); [apply wrap_range; lia|]. by exists t'.
Qed.

(** * The operations on entries *)

Lemma insert_ok_map t M key value : inv t M -> keys (mem t) !! value = Some key ->
  exists t', insert hash t key value =
      Some (match M !! key with Some p => (p, false, t') | None => (value, true, t') end) /\
    inv t' (match M !! key with Some _ => M | None => <[key := value]> M end) /\ same_setup t t'.
Proof.
  intros Hi Hk. unfold insert. destruct (rehash_if_needed_ok t M Hi) as (t1 & -> & Hi1 & Hs1). cbn [mbind option_bind].
  pose proof Hi1 as ((A & B & C) & _). destruct (position t1 (hash key)) as [s idx] eqn:Hpos.
  destruct (position_bucket t1 M A B _ s idx C Hpos) as (b & Eb & _ & Hh & Hin). rewrite Eb. cbn [mbind option_bind].
  destruct (find_ok hash (mem t1) b _ key Hh) as (r & -> & Hr); [by apply (part_items t1 M)|]. cbn [mbind option_bind].
  apply (found_map t1 M A B s idx) in Hr; [|done|done]. subst r. destruct (M !! key) as [p|] eqn:EM; [by exists t1|].
  destruct (insert_at_ok t1 M A B key value s idx b C Hpos Eb EM) as (t2 & A2 & B2 & -> & C2 & Hrs & Hs2); [by rewrite (proj1 Hs1)|].
  cbn [mbind option_bind]. pose proof (inv_core t1 t2 M _ A2 B2 Hi1 C2 Hrs) as Hi2.
  destruct (step_if_ok (incremental_rehash_active t1) t2 _ Hi2) as (t3 & -> & Hi3 & Hs3). cbn [mbind option_bind].
  exists t3. split; [done|]. split; [done|]. by do 2 (etransitivity; [done|]).
Qed.

(** An erased item leaves its bucket. *)
Lemma erase_ok_map t M key : inv t M ->
  exists t', erase hash t key = Some (bool_decide (is_Some (M !! key)), t') /\ inv t' (delete key M) /\ same_setup t t'.
Proof.
  intros Hi. unfold erase. pose proof Hi as ((A & B & C) & _). destruct (position t (hash key)) as [s idx] eqn:Hpos.
  destruct (position_bucket t M A B _ s idx C Hpos) as (b & Eb & Hev & Hh & Hin). rewrite Eb. cbn [mbind option_bind].
  destruct (erase_ok hash (mem t) b _ key Hh) as (r & b' & m' & -> & Hr & Hre & Hvb & Hres); [by apply (part_items t M)|].
  cbn [mbind option_bind]. pose proof (found_map t M A B s idx key r C Hin Hr) as Er. destruct r as [p|].
  - symmetry in Er. rewrite (bool_decide_true (is_Some (M !! key))) by (rewrite Er; eauto).
    set (P := part (mem t) (side_mask t s) (Z.to_nat idx) (side_set s A B)) in *. destruct Hr as [HpP Hpk].
    pose proof (put_ok t M A B (hash key) s idx P m' (bump 1 (bump 1 b')) (side_set s A B ∖ {[p]}) (u64 (size_ t - 1)) (delete key M) C Hpos Hre) as Hput.
    destruct (new_sides s (side_set s A B ∖ {[p]}) A B) as [A' B'] eqn:Ens.
    assert (p ∈ side_set s A B) as Hps by by apply part_sub in HpP.
    assert (A' ∪ B' = (A ∪ B) ∖ {[p]}) as EAB.
    { pose proof (tc_disj _ _ _ _ _ C). destruct s; injection Ens as <- <-; cbn in *; set_solver. }
    assert (tcore (put_bucket t s idx (bump 1 (bump 1 b')) m' (u64 (size_ t - 1))) (delete key M) A' B') as C'.
    { apply Hput; [done|set_solver| | | | | |].
      - intros q Hq Hne. apply elem_of_difference. split; [done|]. intros ->%elem_of_singleton. apply elem_of_part in HpP as [? _]. done.
      - apply holds_bump, holds_bump. replace (part m' _ _ _) with (P ∖ {[p]}); [done|]. apply set_eq. intros q.
        rewrite (part_hashes (mem t) m') by apply Hre. unfold P. rewrite elem_of_difference, !elem_of_part, elem_of_difference. tauto.
      - apply (even_bump11 hash b'); [by rewrite Hvb|done].
      - rewrite EAB. apply (items_ok_relinks hash P (mem t)); [done|]. apply (items_ok_mono hash _ (A ∪ B)); [set_solver|apply C].
      - intros k q. rewrite EAB, (proj1 Hre), elem_of_difference, elem_of_singleton. destruct (decide (k = key)) as [->|Hne].
        + rewrite lookup_delete_eq. split; [done|]. intros [[Hq Hnq] Hqk]. exfalso. apply Hnq.
          assert (M !! key = Some q) by by apply (tc_map _ _ _ _ _ C). congruence.
        + rewrite lookup_delete_ne by done. rewrite (tc_map _ _ _ _ _ C). split; [|tauto]. intros [Hq Hqk]. split; [|done]. split; [done|]. congruence.
      - rewrite map_size_delete, Er, (tc_size _ _ _ _ _ C). assert (base.size M <> 0%nat).
        { intros Hz%map_size_empty_inv. by subst M. }
        pose proof (tc_space _ _ _ _ _ C). pose proof (map_fits (keys (mem t)) M) as Hf.
        assert (base.size M <= base.size (keys (mem t)))%nat by (apply Hf; intros k q Hq%(tc_map _ _ _ _ _ C); tauto).
        rewrite wrap_small; lia. }
    destruct (put_same t s idx (bump 1 (bump 1 b')) m' (u64 (size_ t - 1)) (proj1 Hre)) as [Hrs Hs].
    pose proof (inv_core t _ M _ A' B' Hi C' Hrs) as Hi'.
    destruct (step_if_ok (incremental_rehash_active t) _ _ Hi') as (t3 & -> & Hi3 & Hs3). cbn [mbind option_bind].
    exists t3. split; [done|]. split; [done|]. by etransitivity.
  - destruct Hres as [-> ->]. symmetry in Er. rewrite (bool_decide_false (is_Some (M !! key))) by (rewrite Er; intros [? ?]; done).
    rewrite delete_id by done. destruct (step_if_ok (incremental_rehash_active t && kIsF14) t M Hi) as (t3 & -> & Hi3 & Hs3).
    by exists t3.
Qed.

(** * Assignment *)

Lemma part_set_hash (m : hmem Key) mask i S v h : v ∉ S -> part (set_cached_hash v h m) mask i S = part m mask i S.
Proof.
  intros Hv. apply set_eq. intros q. rewrite !elem_of_part. unfold slot_of. cbn.
  destruct (decide (q = v)) as [->|]; [tauto|]. by rewrite lookup_insert_ne.
Qed.

(** The item of a key is replaced in its bucket. *)
Lemma replace_core t M A B key v p s idx m b T : tcore t M A B -> position t (hash key) = (s, idx) -> v ∉ A ∪ B ->
  keys (mem t) !! v = Some key -> M !! key = Some p ->
  p ∈ part (mem t) (side_mask t s) (Z.to_nat idx) (side_set s A B) ->
  T = {[v]} ∪ part (mem t) (side_mask t s) (Z.to_nat idx) (side_set s A B) ->
  relinks T (set_cached_hash v (hash key) (mem t)) m -> version b mod 2 = 0 ->
  holds hash m b ({[v]} ∪ part (mem t) (side_mask t s) (Z.to_nat idx) (side_set s A B) ∖ {[p]}) ->
  exists A' B', tcore (put_bucket t s idx b m (size_ t)) (<[key := v]> M) A' B'.
Proof.
  intros C Hpos Hv Hk EM HpP -> Hr Hev Hh. set (P := part (mem t) (side_mask t s) (Z.to_nat idx) (side_set s A B)) in *.
  set (t1 := with_mem (set_cached_hash v (hash key) (mem t)) t).
  pose proof (core_hash t M A B v (hash key) C Hv) as C1. fold t1 in C1.
  assert (v ∉ side_set s A B) as Hvs by (intros ?%side_sub; done).
  assert (part (mem t1) (side_mask t1 s) (Z.to_nat idx) (side_set s A B) = P) as EP by by apply part_set_hash.
  destruct (position_sided t1 M A B (hash key) s idx C1 Hpos) as (_ & Hidx & _).
  pose proof (put_ok t1 M A B (hash key) s idx ({[v]} ∪ P) m b ({[v]} ∪ side_set s A B ∖ {[p]}) (size_ t) (<[key := v]> M) C1 Hpos Hr) as Hput.
  rewrite EP in Hput. destruct (new_sides s ({[v]} ∪ side_set s A B ∖ {[p]}) A B) as [A' B'] eqn:Ens.
  assert (p ∈ side_set s A B) as Hps by by apply part_sub in HpP.
  assert (A' ∪ B' = {[v]} ∪ (A ∪ B) ∖ {[p]}) as EAB.
  { pose proof (tc_disj _ _ _ _ _ C). destruct s; injection Ens as <- <-; cbn in *; set_solver. }
  exists A', B'. replace (put_bucket t s idx b m (size_ t)) with (put_bucket t1 s idx b m (size_ t)) by by destruct s.
  assert (hashes (mem t1) !! v = Some (hash key)) as Hhv by (cbn; by rewrite lookup_insert_eq).
  assert (keys (mem t) !! p = Some key) as Hpk by by apply (tc_map _ _ _ _ _ C) in EM as [_ ?].
  apply Hput; [set_solver| | | |done| | |].
  - intros q [->%elem_of_singleton|[? _]%elem_of_difference]%elem_of_union; [by right|by left].
  - intros q Hq Hne. apply elem_of_union_r, elem_of_difference. split; [done|]. intros ->%elem_of_singleton.
    rewrite <- EP in HpP. apply elem_of_part in HpP as [? _]. done.
  - replace (part m _ _ _) with ({[v]} ∪ P ∖ {[p]}); [done|]. rewrite <- EP. apply set_eq. intros q.
    rewrite (part_hashes (mem t1) m) by apply Hr.
    rewrite elem_of_union, elem_of_difference, !elem_of_part, elem_of_union, elem_of_difference, elem_of_singleton. split; [|tauto].
    intros [->|?]; [|tauto]. split; [|tauto]. unfold slot_of. rewrite Hhv. by subst idx.
  - rewrite EAB. apply (items_ok_relinks hash ({[v]} ∪ P) (mem t1)); [done|]. pose proof (tc_items _ _ _ _ _ C1) as [Hi1 Hi2]. split.
    + intros q [->%elem_of_singleton|[? _]%elem_of_difference]%elem_of_union; [eauto|by apply Hi1].
    + assert (forall q, q ∈ (A ∪ B) ∖ {[p]} -> keys (mem t1) !! q <> Some key) as Hno.
      { intros q [Hq Hne]%elem_of_difference Hqk. apply Hne, elem_of_singleton. by apply (Hi2 q p key); [|apply (side_sub s A B)|..]. }
      intros q r k [->%elem_of_singleton|Hq]%elem_of_union [->%elem_of_singleton|Hr']%elem_of_union Hqk Hrk; [done|..].
      * cbn in Hqk. exfalso. apply (Hno r Hr'). congruence.
      * cbn in Hrk. exfalso. apply (Hno q Hq). congruence.
      * apply (Hi2 q r k); set_solver.
  - intros k q. rewrite EAB, (proj1 Hr), elem_of_union, elem_of_difference, !elem_of_singleton. cbn.
    destruct (decide (k = key)) as [->|Hne].
    + rewrite lookup_insert_eq. split; [intros [= <-]; tauto|]. intros [[->|[Hq Hnp]] Hqk]; [done|]. exfalso. apply Hnp.
      assert (M !! key = Some q) by by apply (tc_map _ _ _ _ _ C). congruence.
    + rewrite lookup_insert_ne by done. rewrite (tc_map _ _ _ _ _ C). split.
      * intros [Hq Hqk]. split; [|done]. right. split; [done|]. congruence.
      * intros [[->|[? _]] ?]; [congruence|done].
  - rewrite map_size_insert_Some by eauto. apply C.
Qed.

(** The map after an assignment: during a migration some probing styles leave
    the old item in place. *)
Definition assigned (installs active : bool) M key (v : node) : gmap Key node :=
  match M !! key with
  | Some _ => if active && negb installs then M else <[key := v]> M
  | None => <[key := v]> M
  end.

Lemma assign_core t M A B key v s idx b r b' m' : tcore t M A B -> position t (hash key) = (s, idx) -> v ∉ A ∪ B ->
  keys (mem t) !! v = Some key -> version b mod 2 = 0 -> version b' = version b ->
  (forall p, p ∈ A ∪ B -> hashes (mem t) !! p = Some (hash key) ->
     p ∈ part (mem t) (side_mask t s) (Z.to_nat idx) (side_set s A B)) ->
  found (mem t) (part (mem t) (side_mask t s) (Z.to_nat idx) (side_set s A B)) key (Some r) ->
  forall ins : bool,
  (if ins
   then relinks ({[v]} ∪ part (mem t) (side_mask t s) (Z.to_nat idx) (side_set s A B)) (set_cached_hash v (hash key) (mem t)) m' /\
        holds hash m' b' ({[v]} ∪ part (mem t) (side_mask t s) (Z.to_nat idx) (side_set s A B) ∖ {[r]})
   else relinks {[v]} (set_cached_hash v (hash key) (mem t)) m' /\
        holds hash m' b' (part (mem t) (side_mask t s) (Z.to_nat idx) (side_set s A B))) ->
  exists A' B', tcore (put_bucket t s idx (bump 1 (bump 1 b')) m' (size_ t)) (if ins then <[key := v]> M else M) A' B'.
Proof.
  intros C Hpos Hv Hk Hev Hvb Hin Hr ins Hres. pose proof (found_map t M A B s idx key (Some r) C Hin Hr) as EM. symmetry in EM.
  assert (version (bump 1 (bump 1 b')) mod 2 = 0) as Hev' by (apply (even_bump11 hash b'); [by rewrite Hvb|done]).
  destruct ins; destruct Hres as [Hre Hh].
  - apply (replace_core t M A B key v r s idx _ _ _ C Hpos Hv Hk EM (proj1 Hr) eq_refl Hre Hev'). by apply holds_bump, holds_bump.
  - set (t1 := with_mem (set_cached_hash v (hash key) (mem t)) t).
    pose proof (core_hash t M A B v (hash key) C Hv) as C1. fold t1 in C1.
    assert (v ∉ side_set s A B) as Hvs by (intros ?%side_sub; done).
    pose proof (put_ok t1 M A B (hash key) s idx {[v]} m' (bump 1 (bump 1 b')) (side_set s A B) (size_ t) M C1 Hpos Hre) as Hput.
    exists A, B. replace (put_bucket t s idx _ m' (size_ t)) with (put_bucket t1 s idx (bump 1 (bump 1 b')) m' (size_ t)) by by destruct s.
    assert (new_sides s (side_set s A B) A B = (A, B)) as Ens by by destruct s. rewrite Ens in Hput.
    apply Hput; [set_solver|tauto|tauto| |done| | |].
    + rewrite (part_hashes (mem t1) m') by apply Hre. apply holds_bump, holds_bump. change (side_mask t1 s) with (side_mask t s).
      unfold t1. cbn [mem with_mem set_arrays]. by rewrite part_set_hash.
    + apply (items_ok_relinks hash {[v]} (mem t1)); [done|apply C1].
    + intros k q. rewrite (proj1 Hre). apply (tc_map _ _ _ _ _ C).
    + apply C.
Qed.

Lemma assign_ok_map t M key value : inv t M -> keys (mem t) !! value = Some key -> M !! key <> Some value ->
  exists t' t1, insert_or_assign hash t key value = Some (value, bool_decide (M !! key = None), t') /\
    rehash_if_needed t = Some t1 /\ same_setup t t1 /\
    inv t' (assigned (assign_rehash_installs hash) (incremental_rehash_active t1) M key value) /\ same_setup t t'.
Proof.
  intros Hi Hk Hnv. unfold insert_or_assign. destruct (rehash_if_needed_ok t M Hi) as (t1 & E1 & Hi1 & Hs1). rewrite E1. cbn [mbind option_bind].
  pose proof Hi1 as ((A & B & C) & _). destruct (position t1 (hash key)) as [s idx] eqn:Hpos.
  destruct (position_bucket t1 M A B _ s idx C Hpos) as (b & Eb & Hev & Hh & Hin). rewrite Eb. cbn [mbind option_bind].
  assert (keys (mem t1) !! value = Some key) as Hk1 by by rewrite (proj1 Hs1).
  assert (value ∉ A ∪ B) as Hv by (intros Hv; apply Hnv; by apply (tc_map _ _ _ _ _ C)).
  set (P := part (mem t1) (side_mask t1 s) (Z.to_nat idx) (side_set s A B)) in *.
  assert (value ∉ P) as HvP by (intros ?%part_sub%side_sub; done).
  pose proof (part_items t1 M A B s (side_mask t1 s) (Z.to_nat idx) C) as Hpi. fold P in Hpi.
  set (active := incremental_rehash_active t1).
  assert (exists r b' m', (if active then bucket_assign_rehash else bucket_assign) (mem t1) b key (hash key) value = Some (r, b', m') /\
    found (mem t1) P key r /\ version b' = version b /\
    match r with
    | Some p => if negb (active && negb (assign_rehash_installs hash))
        then relinks ({[value]} ∪ P) (set_cached_hash value (hash key) (mem t1)) m' /\ holds hash m' b' ({[value]} ∪ P ∖ {[p]})
        else relinks {[value]} (set_cached_hash value (hash key) (mem t1)) m' /\ holds hash m' b' P
    | None => b' = b /\ m' = mem t1
    end) as (r & b' & m' & -> & Hr & Hvb & Hres).
  { destruct active; [|by apply assign_ok]. destruct (assign_rehash_ok hash (mem t1) b P key value Hh Hpi HvP) as (r & b' & m' & E & Hr & Hvb & Hres).
    exists r, b', m'. split; [done|]. split; [done|]. split; [done|]. destruct r; [|done]. by destruct (assign_rehash_installs hash). }
  cbn [mbind option_bind]. pose proof (found_map t1 M A B s idx key r C Hin Hr) as EM. destruct r as [p|].
  - destruct (assign_core t1 M A B key value s idx b p b' m' C Hpos Hv Hk1 Hev Hvb Hin Hr (negb (active && negb (assign_rehash_installs hash))) Hres)
      as (A' & B' & C').
    assert (keys m' = keys (mem t1)) as Ekm by (destruct (negb _) in Hres; apply Hres).
    destruct (put_same t1 s idx (bump 1 (bump 1 b')) m' (size_ t1) Ekm) as [Hrs Hs].
    eexists _, t1. rewrite bool_decide_false by congruence. split; [done|]. split; [done|]. split; [done|].
    split; [|by etransitivity]. unfold assigned. rewrite <- EM. apply (inv_core t1 _ M _ A' B' Hi1); [|done].
    fold active. by destruct (active && negb (assign_rehash_installs hash)).
  - destruct Hres as [-> ->]. symmetry in EM. rewrite bool_decide_true by done.
    destruct (insert_at_ok t1 M A B key value s idx b C Hpos Eb EM Hk1) as (t2 & A2 & B2 & -> & C2 & Hrs & Hs2).
    cbn [mbind option_bind]. pose proof (inv_core t1 t2 M _ A2 B2 Hi1 C2 Hrs) as Hi2.
    destruct (step_if_ok active t2 _ Hi2) as (t3 & -> & Hi3 & Hs3). cbn [mbind option_bind].
    exists t3, t1. split; [done|]. split; [done|]. split; [done|]. split; [|by do 2 (etransitivity; [done|])]. unfold assigned. by rewrite EM.
Qed.

(** * Clearing and reserving *)

(** Clearing an array, from index [o] on. *)
Lemma clear_all_rows mask bs : forall o (m : hmem Key) S,
  (forall i b, bs !! i = Some b -> holds hash m b (part m mask (o + i) S) /\ version b mod 2 = 0) ->
  (forall p, p ∈ S -> (o <= slot_of m mask p < o + length bs)%nat) -> items_ok hash m S ->
  exists bs' m', clear_all bs m = Some (bs', m') /\ relinks S m m' /\ length bs' = length bs /\
    forall i b, bs' !! i = Some b -> holds hash m' b ∅ /\ version b mod 2 = 0.
Proof.
  induction bs as [|b bs IH]; intros o m S Hh Hs Hi; cbn [clear_all]; [by exists [], m|].
  set (P := part m mask o S). assert (P ⊆ S) as HP by apply part_sub.
  destruct (Hh 0%nat b eq_refl) as [Hb Hev]. rewrite Nat.add_0_r in Hb. fold P in Hb.
  destruct (clear_ok hash m (bump 1 b) P) as (b1 & m1 & E1 & Hr1 & Hb1 & Hv1);
    [by apply holds_bump|by apply (items_ok_mono hash _ S)|]. rewrite E1. cbn [mbind option_bind].
  destruct (IH (Datatypes.S o) m1 (S ∖ P)) as (bs2 & m2 & E2 & Hr2 & Hl2 & Hb2).
  - intros i c Ec. destruct (Hh (Datatypes.S i) c Ec) as [Hc Hevc]. split; [|done].
    replace (part m1 mask (Datatypes.S o + i) (S ∖ P)) with (part m mask (o + Datatypes.S i) S).
    + apply (holds_relinks hash P m); [done| |done]. intros p Hp%elem_of_part HpP%elem_of_part. lia.
    + apply set_eq. intros p. rewrite (part_hashes m m1) by apply Hr1. unfold P. rewrite !elem_of_part, elem_of_difference, elem_of_part.
      split; intros Hp; destruct_and!; split_and?; try done; try lia.
  - intros p [Hp HnP]%elem_of_difference. specialize (Hs p Hp). unfold P in HnP. rewrite elem_of_part in HnP.
    unfold slot_of in *. rewrite (proj1 (proj2 Hr1)). cbn [length] in Hs. assert (slot_of m mask p <> o) by (unfold slot_of; tauto).
    unfold slot_of in *. lia.
  - apply (items_ok_relinks hash P m); [done|]. apply (items_ok_mono hash _ S); [set_solver|done].
  - rewrite E2. cbn [mbind option_bind]. exists (bump 1 b1 :: bs2), m2. split; [done|]. split; [|split; [cbn; lia|]].
    + transitivity m1; [revert Hr1|revert Hr2]; apply relinks_mono; set_solver.
    + intros [|i] c Ec; [|by apply (Hb2 i)]. injection Ec as <-. split; [|by apply (even_bump11 hash b)].
      apply holds_bump, (holds_relinks hash (S ∖ P) m1); [done|set_solver|done].
Qed.

Lemma part_empty (m : hmem Key) mask i : part m mask i ∅ = ∅.
Proof. apply set_eq. intros p. rewrite elem_of_part. set_solver. Qed.

(** Items outside the table after the new array is dropped. *)
Lemma clear_ok_map t M : inv t M -> exists t', clear t = Some t' /\ inv t' ∅ /\ same_setup t t' /\ rehash_in_progress_ t' = false.
Proof.
  intros Hi. pose proof Hi as ((A & B & C) & Hmig & _). pose proof C as [(j & Hj & Hm & Hl) Hit Hd HM Hsz Hsp Ho Hn].
  assert (exists m1 t1, (if rehash_in_progress_ t then
       m ← match rehash_new_buckets_ t with Some ns => '(_, m) ← clear_all ns (mem t); Some m | None => Some (mem t) end;
       Some (set_rehash false None 0 0 false (set_arrays m (buckets_ t) None (size_ t) t))
     else Some t) = Some t1 /\ mem t1 = m1 /\ relinks B (mem t) m1 /\ buckets_ t1 = buckets_ t /\ bucket_mask_ t1 = bucket_mask_ t /\
     same_setup t t1 /\ rehash_in_progress_ t1 = false /\ rehash_migrating_ t1 = false) as (m1 & t1 & E1 & Em1 & Hr1 & Ebs & Emask & Hs1 & Hip1 & Hmig1).
  { destruct (rehash_in_progress_ t) eqn:Hip.
    - destruct Hn as (_ & (j' & ns & -> & Hj' & Hc & Hlns & Hb) & _ & HA & HB).
      destruct (clear_all_rows (2 ^ j' - 1) ns 0 (mem t) B) as (bs' & m' & -> & Hr' & _).
      + intros i b Eb. by apply Hb.
      + intros p Hp. unfold slot_of. pose proof (land_mask_range (default 0 (hashes (mem t) !! p)) j' ltac:(lia)). lia.
      + apply (items_ok_mono hash _ (A ∪ B)); [set_solver|done].
      + cbn [mbind option_bind]. eexists m', _. split; [done|]. split; [done|]. split; [done|]. split_and!; try done. split; [apply Hr'|done].
    - subst B. exists (mem t), t. split_and!; try done. }
  unfold clear. rewrite E1. cbn [mbind option_bind]. rewrite Ebs, Em1.
  destruct (clear_all_rows (bucket_mask_ t) (buckets_ t) 0 m1 A) as (bs' & m' & -> & Hr' & Hl' & Hb').
  - intros i b Eb. destruct (Ho i b Eb) as [Hh Hv]. split; [|done]. cbn. rewrite (part_hashes (mem t) m1) by apply Hr1.
    apply (holds_relinks hash B (mem t)); [done| |done]. intros p Hp%part_sub. set_solver.
  - intros p Hp. unfold slot_of. rewrite (proj1 (proj2 Hr1)). pose proof (core_slot hash t M A B p C) as Hsl. unfold slot_of in Hsl. lia.
  - apply (items_ok_relinks hash B (mem t)); [done|]. apply (items_ok_mono hash _ (A ∪ B)); [set_solver|done].
  - cbn [mbind option_bind]. eexists. split; [done|]. assert (keys m' = keys (mem t)) as Ek by (rewrite (proj1 Hr'); apply Hr1).
    split; [|split; [split; [done|apply Hs1]|done]]. split; [|split; [done|]; cbn; intros; congruence].
    exists ∅, ∅. split; cbn.
    + exists j. rewrite Emask. split; [done|]. split; [done|]. lia.
    + split; set_solver.
    + set_solver.
    + intros k p. rewrite lookup_empty. set_solver.
    + done.
    + by rewrite Ek.
    + intros i b Eb. rewrite part_empty. by apply Hb' in Eb.
    + by rewrite Hip1.
Qed.

Lemma reserve_ok_map n t M : inv t M -> exists t', reserve n t = Some t' /\ inv t' M /\ same_setup t t'.
Proof.
  intros Hi. unfold reserve. destruct (buckets_for_items n <=? bucket_count t); [by exists t|]. apply rehash_ok; [done|].
  unfold buckets_for_items, next_power_of_two. destruct kIsF14; destruct (_ =? 0); try lia; apply wrap_range; lia.
Qed.

(** A setting other than the incremental mode. *)
Lemma config_ok t M opt haz mlf thr : inv t M -> inv (set_config opt haz (incremental_rehash_ t) mlf thr t) M.
Proof. intros Hi. apply (inv_entries hash t); [by repeat split|apply Hi|done]. Qed.

(** The incremental mode may change when no migration is in flight. *)
Lemma set_incremental_ok b t M : inv t M -> rehash_in_progress_ t = false -> inv (set_incremental_rehash b t) M.
Proof.
  intros ((A & B & C) & Hm & Hp) Hip. split; [|by split]. exists A, B. destruct C as [? ? ? ? ? ? ? Hn]. split; try done.
  rewrite Hip in Hn. change (rehash_in_progress_ (set_incremental_rehash b t)) with (rehash_in_progress_ t). by rewrite Hip.
Qed.

(** The table starts empty. *)
Lemma new_ok n (m : hmem Key) : 0 <= n <= 2 ^ 63 -> Z.of_nat (base.size (keys m)) < 2 ^ 64 -> inv (hash_table_new n m) ∅.
Proof.
  intros Hn Hsp. assert (exists j, 0 <= j <= 63 /\ next_power_of_two n = 2 ^ j) as (j & Hj & Ej).
  { rewrite next_power_of_two_spec by lia. destruct (Z.leb_spec n (2 ^ 63)); [|lia]. exists (Z.log2_up n). split; [|done].
    split; [apply Z.log2_up_nonneg|]. apply (Z.le_trans _ (Z.log2_up (2 ^ 63))); [by apply Z.log2_up_le_mono|by compute]. }
  split; [|by split]. exists ∅, ∅. split; cbn; try done.
  - exists j. rewrite Ej, pow_mask, length_replicate by done. split; [done|]. split; [done|]. lia.
  - split; set_solver.
  - apply rows_fresh.
Qed.

End ops.
