(* ===== verification/HashTableRefine.v ===== *)
(** Sequences of calls on the hash table, the map they implement, and the
    behaviour of [rehash_finish] in both modes. *)

From S2P Require Import Prelude HashBucket HashTable HashTableInv HashTableOps.

(** * Calls *)

Inductive call (Key : Type) :=
| CFind (key : Key)
| CFindShared (key : Key)
| CContains (key : Key)
| CFindAndPin (key : Key) (pin_fn : node -> bool)
| CInsert (key : Key) (value : node)
| CAssign (key : Key) (value : node)
| CErase (key : Key)
| CClear
| CSize
| CReserve (n : Z)
| CRehash (n : Z)
| CRehashStep (batch : Z)
| CRehashFinish
| CSetIncremental (b : bool)
| CSetOptimistic (b : bool)
| CSetHazptr (b : bool)
| CSetMaxLoad (f : float32)
| CSetOverload (f : float32)
| CDrainCallbacks.
Arguments CFind {_} _.
Arguments CFindShared {_} _.
Arguments CContains {_} _.
Arguments CFindAndPin {_} _ _.
Arguments CInsert {_} _ _.
Arguments CAssign {_} _ _.
Arguments CErase {_} _.
Arguments CClear {_}.
Arguments CSize {_}.
Arguments CReserve {_} _.
Arguments CRehash {_} _.
Arguments CRehashStep {_} _.
Arguments CRehashFinish {_}.
Arguments CSetIncremental {_} _.
Arguments CSetOptimistic {_} _.
Arguments CSetHazptr {_} _.
Arguments CSetMaxLoad {_} _.
Arguments CSetOverload {_} _.
Arguments CDrainCallbacks {_}.

(** What a caller sees of the entries. *)
Inductive result :=
| RUnit
| RNode (p : node_ptr)
| RBool (b : bool)
| RSize (z : Z)
| RInserted (p : node) (inserted : bool).

Section calls.
Context {Key : Type} `{Countable Key} {PB : Probing Key} (hash : Key -> Z).
Implicit Types (t : table Key) (M : gmap Key node).

Definition exec (c : call Key) t : option (result * table Key) :=
  match c with
  | CFind k => r ← find hash 0 t k; Some (RNode r, t)
  | CFindShared k => r ← find_embedded_shared hash t k; Some (RNode r, t)
  | CContains k => r ← contains hash t k; Some (RBool r, t)
  | CFindAndPin k pin => r ← find_and_pin_with_hash hash t k pin; Some (RNode r, t)
  | CInsert k v => '(p, b, t) ← insert hash t k v; Some (RInserted p b, t)
  | CAssign k v => '(p, b, t) ← insert_or_assign hash t k v; Some (RInserted p b, t)
  | CErase k => '(b, t) ← erase hash t k; Some (RBool b, t)
  | CClear => t ← clear t; Some (RUnit, t)
  | CSize => Some (RSize (size t), t)
  | CReserve n => t ← reserve n t; Some (RUnit, t)
  | CRehash n => t ← rehash n t; Some (RUnit, t)
  | CRehashStep n => '(_, t) ← rehash_step n t; Some (RUnit, t)
  | CRehashFinish => t ← rehash_finish 5 2 t; Some (RUnit, t)
  | CSetIncremental b => Some (RUnit, set_incremental_rehash b t)
  | CSetOptimistic b => Some (RUnit, set_optimistic_read b t)
  | CSetHazptr b => Some (RUnit, set_hazptr_read b t)
  | CSetMaxLoad f => Some (RUnit, set_max_load_factor f t)
  | CSetOverload f => Some (RUnit, set_hash_overload_threshold f t)
  | CDrainCallbacks => Some (RUnit, snd (drain_overload_callbacks t))
  end.

(** The map: the operations of a dictionary from keys to items. *)
Definition spec_exec (c : call Key) M : result * gmap Key node :=
  match c with
  | CFind k | CFindShared k => (RNode (M !! k), M)
  | CContains k => (RBool (bool_decide (is_Some (M !! k))), M)
  | CFindAndPin k pin => (RNode (p ← M !! k; if pin p then Some p else None), M)
  | CInsert k v =>
      match M !! k with
      | Some p => (RInserted p false, M)
      | None => (RInserted v true, <[k := v]> M)
      end
  | CAssign k v => (RInserted v (bool_decide (M !! k = None)), <[k := v]> M)
  | CErase k => (RBool (bool_decide (is_Some (M !! k))), delete k M)
  | CClear => (RUnit, ∅)
  | CSize => (RSize (Z.of_nat (base.size M)), M)
  | _ => (RUnit, M)
  end.

Definition spec_run (cs : list (call Key)) : gmap Key node -> list result * gmap Key node :=
  fold_right (fun c k M => let '(r, M) := spec_exec c M in let '(rs, M) := k M in (r :: rs, M)) (fun M => ([], M)) cs.

Fixpoint run (cs : list (call Key)) t : option (list result * table Key) :=
  match cs with
  | [] => Some ([], t)
  | c :: cs => '(r, t) ← exec c t; '(rs, t) ← run cs t; Some (r :: rs, t)
  end.

Context {PL : ProbingLaws hash}.

(** What a caller has to respect: an inserted item carries its key, an assigned
    one is not the stored one; arguments are 64-bit; lookups stay off the
    hazard-pointer walk; the incremental mode does not change during a migration;
    a probing style whose assignment can lose the new item is not asked to assign
    a stored key in incremental mode; the F14 mode does not call [rehash_finish]
    during a migration. *)
Definition legal (c : call Key) t M : Prop :=
  match c with
  | CFind _ => enable_optimistic_read_ t || negb (enable_hazptr_read_ t)
  | CInsert k v => keys (mem t) !! v = Some k
  | CAssign k v => keys (mem t) !! v = Some k /\ M !! k <> Some v /\
      (assign_rehash_installs hash || negb (incremental_rehash_ t) \/ M !! k = None)
  | CReserve n | CRehash n => 0 <= n < 2 ^ 64
  | CRehashStep n => 0 <= n
  | CSetIncremental _ => rehash_in_progress_ t = false
  | CRehashFinish => negb kIsF14 || negb (rehash_in_progress_ t)
  | _ => True
  end.

Fixpoint legal_run (cs : list (call Key)) t M : Prop :=
  match cs with
  | [] => True
  | c :: cs => legal c t M /\
      match exec c t with
      | Some (_, t') => legal_run cs t' (snd (spec_exec c M))
      | None => True
      end
  end.

(** * [rehash_finish] *)

Lemma finish_loop_S fuel step oc migrated t : rehash_progress_ t < oc -> migrated < 64 ->
  finish_loop (S fuel) step oc migrated t =
    ('(n, t) ← step t; finish_loop fuel step oc (if kIsF14 && (n =? 0) then migrated else migrated + 16) t).
Proof.
  intros Hp Hm. cbn [finish_loop]. rewrite (proj2 (Z.ltb_lt _ _) Hp).
  unfold kRehashFinishMaxBucketsPerCall. by destruct (Z.leb_spec 64 migrated); [lia|].
Qed.

Lemma rehash_finish_S fuel depth t : rehash_in_progress_ t = true ->
  rehash_finish fuel (S depth) t =
    ('(stalled, t) ← finish_loop fuel (rehash_step_with (rehash_finish fuel depth) 16) (bucket_count t) 0 t;
     if stalled : bool then Some t else install t).
Proof. intros Hip. cbn [rehash_finish]. by rewrite Hip. Qed.

(** Rounds of the loop in chain mode: [k] of them are left before the budget is
    spent, which then ends the call as a stall. *)
Lemma finish_rounds step oc k : kIsF14 = false -> 0 < oc -> (k <= 4)%nat ->
  (forall t M, inv hash t M -> exists n t', step t = Some (n, t') /\ inv hash t' M /\ same_setup t t' /\ diag t' = diag t /\
     if rehash_in_progress_ t
     then n = Z.min 16 (bucket_count t - rehash_progress_ t) /\
          if rehash_progress_ t + 16 <? bucket_count t
          then rehash_in_progress_ t' = true /\ bucket_count t' = bucket_count t /\ rehash_progress_ t' = rehash_progress_ t + 16
          else rehash_in_progress_ t' = false /\ rehash_progress_ t' = 0
     else n = 0 /\ t' = t) ->
  forall t M, inv hash t M ->
  (if rehash_in_progress_ t then bucket_count t = oc /\ rehash_progress_ t < oc else rehash_progress_ t = 0) ->
  exists t' backlog, finish_loop (S k) step oc (64 - 16 * Z.of_nat k) t = Some (true, t') /\ inv hash t' M /\ same_setup t t' /\
    diag t' = count_stall backlog (diag t) /\
    if rehash_in_progress_ t && (rehash_progress_ t + 16 * Z.of_nat k <? oc)
    then rehash_in_progress_ t' = true /\ bucket_count t' = oc /\ rehash_progress_ t' = rehash_progress_ t + 16 * Z.of_nat k
    else rehash_in_progress_ t' = false.
Proof.
  intros HF Hoc Hk Hstep. induction k as [|k IH]; intros t M Hi Ht.
  - assert (rehash_progress_ t < oc) as Hlt by (destruct (rehash_in_progress_ t); lia).
    cbn [finish_loop]. rewrite (proj2 (Z.ltb_lt _ _) Hlt). eexists _, _. split; [done|].
    split; [apply (inv_entries hash t); [by repeat split|apply Hi|done]|]. split; [done|]. split; [done|].
    cbn. rewrite Z.add_0_r, (proj2 (Z.ltb_lt _ _) Hlt), andb_true_r. destruct (rehash_in_progress_ t) eqn:E; [|done].
    split; [done|]. by destruct Ht.
  - assert (rehash_progress_ t < oc) as Hlt by (destruct (rehash_in_progress_ t); lia).
    rewrite finish_loop_S by lia.
    destruct (Hstep t M Hi) as (n & t1 & -> & Hi1 & Hs1 & Hd1 & Hn). cbn [mbind option_bind]. rewrite HF. cbn [andb].
    replace (64 - 16 * Z.of_nat (S k) + 16) with (64 - 16 * Z.of_nat k) by lia.
    destruct (IH ltac:(lia) t1 M Hi1) as (t2 & bl & E2 & Hi2 & Hs2 & Hd2 & Hp2).
    { destruct (rehash_in_progress_ t) eqn:Hip; [|destruct Hn as [_ ->]; by rewrite Hip]. destruct Ht as [Ebc _], Hn as [_ Hn].
      rewrite Ebc in Hn. destruct (Z.ltb_spec (rehash_progress_ t + 16) oc); destruct Hn as [-> Hn]; lia. }
    exists t2, bl. split; [done|]. split; [done|]. split; [by etransitivity|]. split; [by rewrite Hd2, Hd1|].
    destruct (rehash_in_progress_ t) eqn:Hip; cbn [andb].
    2: { destruct Hn as [_ ->]. by rewrite Hip in Hp2. }
    destruct Ht as [Ebc _], Hn as [_ Hn]. rewrite Ebc in Hn.
    destruct (Z.ltb_spec (rehash_progress_ t + 16) oc).
    + destruct Hn as (Hip1 & _ & Hp1). rewrite Hip1, Hp1 in Hp2. cbn [andb] in Hp2.
      replace (rehash_progress_ t + 16 * Z.of_nat (S k)) with (rehash_progress_ t + 16 + 16 * Z.of_nat k) by lia. done.
    + destruct Hn as [Hip1 _]. rewrite Hip1 in Hp2. cbn [andb] in Hp2.
      destruct (Z.ltb_spec (rehash_progress_ t + 16 * Z.of_nat (S k)) oc); [lia|done].
Qed.

(** One call in chain mode: 64 buckets, or the end of the migration; both count
    as a stall. *)
Lemma finish_chain t M : kIsF14 = false -> inv hash t M ->
  exists t', rehash_finish 5 2 t = Some t' /\ inv hash t' M /\ same_setup t t' /\
    if rehash_in_progress_ t
    then (exists backlog, diag t' = count_stall backlog (diag t)) /\
      if rehash_progress_ t + 64 <? bucket_count t
      then rehash_in_progress_ t' = true /\ bucket_count t' = bucket_count t /\ rehash_progress_ t' = rehash_progress_ t + 64
      else rehash_in_progress_ t' = false
    else t' = t.
Proof.
  intros HF Hi. destruct (rehash_in_progress_ t) eqn:Hip; [|exists t; cbn [rehash_finish]; by rewrite Hip].
  rewrite rehash_finish_S by done.
  pose proof Hi as ((A & B & C) & _ & Hp). specialize (Hp Hip). destruct (core_count hash t M A B C) as [Ebc H0].
  destruct (finish_rounds (rehash_step_with (rehash_finish 5 1) 16) (bucket_count t) 4 HF ltac:(lia) ltac:(lia)) with (t := t) (M := M)
    as (t' & bl & E & Hi' & Hs' & Hd' & Hp'); [|done|by rewrite Hip|].
  - intros t1 M1 Hi1. apply (step_with_ok hash); [done|lia|]. intros t2 A2 B2 C2 Hip2 Hpr2 _. by apply (finish_full hash 5 0 t2 M1 A2 B2).
  - change (64 - 16 * Z.of_nat 4) with 0 in E. rewrite E. cbn [mbind option_bind].
    exists t'. split; [done|]. split; [done|]. split; [done|]. split; [by exists bl|]. by rewrite Hip in Hp'.
Qed.

(** In F14 mode a step that installs the new array resets the progress; from then
    on the loop of the outer call migrates nothing and never ends. *)
Lemma finish_spin fuel step oc migrated t : kIsF14 = true -> migrated < 64 -> rehash_progress_ t < oc ->
  step t = Some (0, t) -> finish_loop fuel step oc migrated t = None.
Proof.
  intros HF Hm Hp Hs. induction fuel as [|fuel IH]; [cbn [finish_loop]; by rewrite (proj2 (Z.ltb_lt _ _) Hp)|].
  rewrite finish_loop_S by done. rewrite Hs. cbn [mbind option_bind]. by rewrite HF.
Qed.

Lemma finish_f14_loop fuel depth t M migrated : kIsF14 = true -> inv hash t M -> rehash_in_progress_ t = true -> 0 <= migrated ->
  migrated + (bucket_count t - rehash_progress_ t) <= 48 ->
  finish_loop fuel (rehash_step_with (rehash_finish fuel (S depth)) 16) (bucket_count t) migrated t = None.
Proof.
  intros HF. generalize fuel at 2. intros f2. revert t migrated. induction fuel as [|fuel IH]; intros t migrated Hi Hip Hm Hle.
  - pose proof Hi as (_ & _ & Hp). specialize (Hp Hip). cbn [finish_loop]. by rewrite (proj2 (Z.ltb_lt _ _) Hp).
  - pose proof Hi as (_ & _ & Hp). specialize (Hp Hip). rewrite finish_loop_S by lia.
    destruct (step_with_ok hash (rehash_finish f2 (S depth)) 16 t M Hi ltac:(lia)) as (n & t1 & -> & Hi1 & _ & _ & Hn).
    { intros t1 A B C Hip1 Hpr1 _. by apply (finish_full hash f2 depth t1 M A B). }
    cbn [mbind option_bind]. rewrite Hip in Hn. destruct Hn as [Hn Hr].
    destruct (Z.eqb_spec n 0); [lia|]. rewrite andb_false_r.
    destruct (Z.ltb_spec (rehash_progress_ t + 16) (bucket_count t)).
    + destruct Hr as (Hip1 & Ebc & Hp1). rewrite <- Ebc. apply IH; [done|done|lia|]. rewrite Ebc, Hp1. lia.
    + destruct Hr as [Hip1 Hp1]. destruct Hi as ((A & B & C) & _). destruct (core_count hash t M A B C) as [Ebc Hm0].
      apply finish_spin; [done|lia|lia|]. unfold rehash_step_with. by rewrite Hip1.
Qed.

(** * Refinement *)

Lemma exec_ok c t M : inv hash t M -> legal c t M ->
  exists t', exec c t = Some (fst (spec_exec c M), t') /\ inv hash t' (snd (spec_exec c M)).
Proof.
  intros Hi. destruct c; cbn [exec spec_exec legal]; intros Hl.
  - rewrite (find_ok_map hash 0 t M) by (done || destruct (enable_optimistic_read_ t), (enable_hazptr_read_ t); eauto). by exists t.
  - rewrite (find_embedded_shared_ok hash t M) by done. by exists t.
  - unfold contains. rewrite (find_embedded_shared_ok hash t M) by done. cbn [mbind option_bind]. exists t. split; [|done]. cbn [fst]. do 3 f_equal.
    apply bool_decide_ext. by rewrite <- not_eq_None_Some.
  - unfold find_and_pin_with_hash. rewrite (find_embedded_shared_ok hash t M) by done. cbn [mbind option_bind].
    exists t. split; [|done]. by destruct (M !! key).
  - destruct (insert_ok_map hash t M key value Hi Hl) as (t' & -> & Hi' & _). exists t'. by destruct (M !! key).
  - destruct Hl as (Hk & Hv & Hst). destruct (assign_ok_map hash t M key value Hi Hk Hv) as (t' & t1 & -> & _ & Hs1 & Hi' & _).
    exists t'. split; [done|]. replace (<[key:=value]> M) with (assigned (assign_rehash_installs hash) (incremental_rehash_active t1) M key value); [done|].
    unfold assigned, incremental_rehash_active. rewrite (proj1 (proj2 Hs1)). destruct (M !! key); [|done].
    destruct Hst as [Hst|]; [|done]. by destruct (assign_rehash_installs hash), (incremental_rehash_ t), (rehash_in_progress_ t1).
  - destruct (erase_ok_map hash t M key Hi) as (t' & -> & Hi' & _). by exists t'.
  - destruct (clear_ok_map hash t M Hi) as (t' & -> & Hi' & _). by exists t'.
  - exists t. split; [|done]. destruct Hi as ((A & B & C) & _). unfold size. by rewrite (tc_size hash _ _ _ _ C).
  - destruct (reserve_ok_map hash n t M Hi) as (t' & -> & Hi' & _). by exists t'.
  - destruct (rehash_ok hash n t M Hi Hl) as (t' & -> & Hi' & _). by exists t'.
  - destruct (rehash_step_ok hash batch t M Hi Hl) as (n & t' & -> & Hi' & _). by exists t'.
  - destruct kIsF14 eqn:HF.
    + cbn [negb orb] in Hl. assert (rehash_in_progress_ t = false) as Hip by by destruct (rehash_in_progress_ t).
      cbn [rehash_finish]. rewrite Hip. by exists t.
    + destruct (finish_chain t M HF Hi) as (t' & -> & Hi' & _). by exists t'.
  - eexists. split; [done|]. by apply set_incremental_ok.
  - eexists. split; [done|]. by apply config_ok.
  - eexists. split; [done|]. by apply config_ok.
  - eexists. split; [done|]. by apply config_ok.
  - eexists. split; [done|]. by apply config_ok.
  - eexists. split; [done|]. apply (inv_entries hash t); [by repeat split|apply Hi|done].
Qed.

Lemma table_run_ok cs : forall t M, inv hash t M -> legal_run cs t M ->
  exists t', run cs t = Some (fst (spec_run cs M), t') /\ inv hash t' (snd (spec_run cs M)).
Proof.
  induction cs as [|c cs IH]; intros t M Hi Hl; [by exists t|]. destruct Hl as [Hl Hr].
  destruct (exec_ok c t M Hi Hl) as (t1 & E & Hi1). rewrite E in Hr. cbn [run spec_run fold_right]. rewrite E. cbn [mbind option_bind].
  destruct (spec_exec c M) as [r M1]. cbn [fst snd] in *. destruct (IH t1 M1 Hi1 Hr) as (t2 & -> & Hi2). cbn [mbind option_bind].
  exists t2. fold (spec_run cs). by destruct (spec_run cs M1).
Qed.

End calls.
