(* ===== verification/HashTableClaims.v ===== *)
(** The properties of the hash table: it implements a map in both probing modes
    under every legal sequence of calls; [rehash_finish] completes in chain mode
    and spins in F14 mode; the hazard-pointer walk agrees with the plain walk on
    chains of up to 65 items; what an F14 assignment does during a migration. *)

From S2P Require Import Prelude HashBucket HashF14 HashTable HashTableInv HashTableOps HashTableRefine.

(** * The two tables *)

Abbreviation chain_table Key := (@table Key chain_probing_tag).
Abbreviation f14_table hash := (@table _ (f14_probing_tag hash)).

Section claims.
Context {Key : Type} `{Countable Key} (hash : Key -> Z).

(** The states a legal sequence of calls leads to, with the map they store. *)
Definition reaches {PB : Probing Key} {PL : ProbingLaws hash} (n : Z) (m : hmem Key) (cs : list (call Key)) (t : table Key) : Prop :=
  0 <= n <= 2 ^ 63 /\ Z.of_nat (base.size (keys m)) < 2 ^ 64 /\ legal_run hash cs (hash_table_new n m) ∅ /\
  exists rs, run hash cs (hash_table_new n m) = Some (rs, t).

Lemma reaches_inv {PB : Probing Key} {PL : ProbingLaws hash} n m cs t : reaches n m cs t -> inv hash t (snd (spec_run cs ∅)).
Proof.
  intros (Hn & Hsp & Hl & rs & E). destruct (table_run_ok hash cs (hash_table_new n m) ∅) as (t' & E' & Hi); [by apply new_ok|done|].
  rewrite E in E'. injection E' as -> ->. done.
Qed.

Lemma table_refines_map {PB : Probing Key} {PL : ProbingLaws hash} n m cs : let t := hash_table_new n m in
  0 <= n <= 2 ^ 63 -> Z.of_nat (base.size (keys m)) < 2 ^ 64 -> legal_run hash cs t ∅ ->
  exists t', run hash cs t = Some (fst (spec_run cs ∅), t') /\
    (forall key, find_embedded_shared hash t' key = Some (snd (spec_run cs ∅) !! key)) /\
    size t' = Z.of_nat (base.size (snd (spec_run cs ∅))).
Proof.
  intros t Hn Hsp Hl. destruct (table_run_ok hash cs t ∅) as (t' & E & Hi); [by apply new_ok|done|].
  exists t'. split; [done|]. split; [intros key; by apply (find_embedded_shared_ok hash)|]. destruct Hi as ((A & B & C) & _). apply C.
Qed.

(** Repeated calls of [rehash_finish]. *)
Fixpoint finish_calls {PB : Probing Key} (n : nat) (t : table Key) : option (table Key) :=
  match n with
  | O => Some t
  | S n => t ← rehash_finish 5 2 t; finish_calls n t
  end.

Lemma finish_calls_ok {PB : Probing Key} {PL : ProbingLaws hash} n : kIsF14 = false ->
  forall t M, inv hash t M -> rehash_in_progress_ t = true ->
  (64 * (Z.of_nat n - 1) < bucket_count t - rehash_progress_ t <= 64 * Z.of_nat n) ->
  exists t', finish_calls n t = Some t' /\ inv hash t' M /\ rehash_in_progress_ t' = false /\
    rehash_finish_stall_count_ (diag t') mod 2 ^ 64 = (rehash_finish_stall_count_ (diag t) + Z.of_nat n) mod 2 ^ 64.
Proof.
  intros HF. induction n as [|n IH]; intros t M Hi Hip Hn; [pose proof Hi as (_ & _ & Hp); specialize (Hp Hip); lia|].
  cbn [finish_calls]. destruct (finish_chain hash t M HF Hi) as (t1 & -> & Hi1 & _ & Hr). rewrite Hip in Hr.
  cbn [mbind option_bind]. destruct Hr as [[bl Hd] Hr]. destruct (Z.ltb_spec (rehash_progress_ t + 64) (bucket_count t)).
  - destruct Hr as (Hip1 & Ebc & Hp1). destruct (IH t1 M Hi1 Hip1) as (t2 & E2 & Hi2 & Hip2 & Hs2); [rewrite Ebc, Hp1; lia|].
    exists t2. split; [done|]. split; [done|]. split; [done|]. rewrite Hs2, Hd. cbn [rehash_finish_stall_count_ count_stall].
    unfold u64, wrap. rewrite Zplus_mod_idemp_l. f_equal. lia.
  - assert (n = O) as -> by lia. exists t1. split; [done|]. split; [done|]. split; [done|]. rewrite Hd.
    cbn [rehash_finish_stall_count_ count_stall]. unfold u64, wrap. by rewrite Z.mod_mod.
Qed.

Lemma active_stays {PB : Probing Key} {PL : ProbingLaws hash} t t1 M : inv hash t M -> rehash_in_progress_ t = true ->
  rehash_progress_ t + 1 < bucket_count t -> rehash_if_needed t = Some t1 -> incremental_rehash_active t1 = true.
Proof.
  intros Hi Hip Hp. pose proof Hi as ((A & B & C) & _). pose proof (core_active hash t M A B C) as Hact. rewrite Hip in Hact.
  unfold rehash_if_needed. set (t0 := set_diag _ t). assert (inv hash t0 M) as Hi0 by (apply (inv_entries hash t); [by repeat split|apply Hi|done]).
  change (incremental_rehash_active t0) with (incremental_rehash_active t). rewrite Hact.
  destruct (step_with_ok hash (rehash_finish 0 1) 1 t0 M Hi0 ltac:(lia)) as (n & t' & E & Hi' & _ & _ & Hr).
  { intros t2 A2 B2 C2 Hip2 Hpr2 _. by apply (finish_full hash 0 0 t2 M A2 B2). }
  unfold rehash_step. rewrite E. cbn [mbind option_bind]. intros [= <-]. change (rehash_in_progress_ t0) with (rehash_in_progress_ t) in Hr.
  rewrite Hip in Hr. destruct Hr as [_ Hr]. change (rehash_progress_ t0) with (rehash_progress_ t) in Hr.
  change (bucket_count t0) with (bucket_count t) in Hr. rewrite (proj2 (Z.ltb_lt _ _) Hp) in Hr.
  destruct Hi' as ((A' & B' & C') & _). rewrite (core_active hash t' M A' B' C'). tauto.
Qed.

(** * Properties *)

(** C8: in chain mode, with blocking and incremental rehash, the table is a map:
    every legal sequence of lookups, insertions, assignments, erasures, clears,
    reservations, rehash steps and settings on a fresh table runs to its end, and
    every answer is the one the map gives. *)
Theorem chain_table_refines_map (n : Z) (m : hmem Key) (cs : list (call Key)) :
  let t := hash_table_new n m : chain_table Key in
  0 <= n <= 2 ^ 63 -> Z.of_nat (base.size (keys m)) < 2 ^ 64 -> legal_run hash cs t ∅ ->
  exists t', run hash cs t = Some (fst (spec_run cs ∅), t') /\
    (forall key, find_embedded_shared hash t' key = Some (snd (spec_run cs ∅) !! key)) /\
    size t' = Z.of_nat (base.size (snd (spec_run cs ∅))).
Proof. apply (table_refines_map (PL := chain_probing_laws hash)). Qed.

(** C9: in F14 mode, with chunks of tagged slots and an overflow chain, the table
    is a map under every legal sequence of calls. *)
Theorem f14_table_refines_map (n : Z) (m : hmem Key) (cs : list (call Key)) :
  let t := hash_table_new n m : f14_table hash in
  0 <= n <= 2 ^ 63 -> Z.of_nat (base.size (keys m)) < 2 ^ 64 -> legal_run hash cs t ∅ ->
  exists t', run hash cs t = Some (fst (spec_run cs ∅), t') /\
    (forall key, find_embedded_shared hash t' key = Some (snd (spec_run cs ∅) !! key)) /\
    size t' = Z.of_nat (base.size (snd (spec_run cs ∅))).
Proof. apply (table_refines_map (PL := f14_probing_laws hash)). Qed.

(** C13: in chain mode a migration in flight is completed by one call of
    [rehash_finish] per 64 buckets left, with every entry kept. *)
Theorem rehash_finish_chain_completes (n : Z) (m : hmem Key) (cs : list (call Key)) (t : chain_table Key) :
  reaches n m cs t -> rehash_in_progress_ t = true ->
  let calls := Z.to_nat ((bucket_count t - rehash_progress_ t + 63) / 64) in
  exists t', finish_calls calls t = Some t' /\ rehash_in_progress_ t' = false /\
    (forall key, find_embedded_shared hash t' key = find_embedded_shared hash t key).
Proof.
  intros Hr Hip calls. pose proof (reaches_inv n m cs t Hr) as Hi. pose proof Hi as (_ & _ & Hp). specialize (Hp Hip).
  destruct (finish_calls_ok (PL := chain_probing_laws hash) calls eq_refl t _ Hi Hip) as (t' & E & Hi' & Hip' & Hs).
  - unfold calls. pose proof (Z.div_mod (bucket_count t - rehash_progress_ t + 63) 64 ltac:(lia)).
    pose proof (Z.mod_pos_bound (bucket_count t - rehash_progress_ t + 63) 64 ltac:(lia)). lia.
  - exists t'. split; [done|]. split; [done|]. intros key. by rewrite !(find_embedded_shared_ok hash _ (snd (spec_run cs ∅))).
Qed.

(** In F14 mode [rehash_finish] never returns when between 1 and 48 chunks
    are left to migrate: the step that migrates the last one installs the new array
    and resets the progress that the loop is waiting for. *)
Theorem rehash_finish_f14_diverges (n : Z) (m : hmem Key) (cs : list (call Key)) (t : f14_table hash) :
  reaches n m cs t -> rehash_in_progress_ t = true -> bucket_count t - rehash_progress_ t <= 48 ->
  forall fuel depth, rehash_finish fuel (S (S depth)) t = None.
Proof.
  intros Hr Hip Hle fuel depth. pose proof (reaches_inv n m cs t Hr) as Hi. rewrite rehash_finish_S by done.
  rewrite (finish_f14_loop hash (PL := f14_probing_laws hash) fuel depth t (snd (spec_run cs ∅)) 0 eq_refl Hi Hip); [done|lia|lia].
Qed.

(** In F14 mode an assignment to a stored key while a migration is in flight
    reports success, but the table keeps the old item and later lookups return it. *)
Theorem f14_assign_during_rehash_is_lost (n : Z) (m : hmem Key) (cs : list (call Key)) (t : f14_table hash) (key : Key) (old value : node) :
  reaches n m cs t -> rehash_in_progress_ t = true -> rehash_progress_ t + 1 < bucket_count t ->
  find_embedded_shared hash t key = Some (Some old) -> keys (mem t) !! value = Some key -> value <> old ->
  exists t', insert_or_assign hash t key value = Some (value, false, t') /\ find_embedded_shared hash t' key = Some (Some old).
Proof.
  intros Hr Hip Hp Hf Hk Hne. pose proof (reaches_inv n m cs t Hr) as Hi. set (M := snd (spec_run cs ∅)) in *.
  rewrite (find_embedded_shared_ok hash t M) in Hf by done. injection Hf as Hf.
  destruct (assign_ok_map hash t M key value Hi Hk) as (t' & t1 & -> & E1 & _ & Hi' & _); [congruence|].
  rewrite (active_stays t t1 M Hi Hip Hp E1) in Hi'. unfold assigned in Hi'. rewrite Hf in Hi'.
  exists t'. rewrite bool_decide_false by congruence. split; [done|]. rewrite (find_embedded_shared_ok hash t' M) by done. by f_equal.
Qed.

End claims.

(** * The hazard-pointer walk *)

Section hazptr_walk.
Context {Key : Type} `{Countable Key}.

Lemma is_reachable_spec (m : hmem Key) l1 c l2 : forall n h, chain (links m) h (l1 ++ c :: l2) -> c ∉ l1 ->
  (forall p, p ∈ l1 -> is_Some (keys m !! p)) ->
  is_reachable n m h c = Some (bool_decide (length l1 < n)%nat).
Proof.
  induction l1 as [|q l1 IH]; intros n h Hc Hn Hk; destruct Hc as [-> Hc].
  - destruct n as [|n]; [done|]. cbn [is_reachable]. by rewrite decide_True.
  - destruct n as [|n]; [done|]. cbn [is_reachable]. rewrite decide_False by set_solver. unfold hash_chain_next.
    destruct (Hk q ltac:(left)) as [k ->]. cbn [mbind option_bind]. rewrite (IH n _ Hc) by set_solver.
    f_equal. apply bool_decide_ext. cbn [length]. lia.
Qed.

Lemma chain_find_fuel (m : hmem Key) key l : forall h f1 f2, chain (links m) h l -> (length l <= f1)%nat -> (length l <= f2)%nat ->
  chain_find f1 m key h = chain_find f2 m key h.
Proof.
  induction l as [|c l IH]; intros h f1 f2 Hc H1 H2; [cbn in Hc; subst h; by destruct f1, f2|]. destruct Hc as [-> Hc].
  destruct f1 as [|f1], f2 as [|f2]; cbn in H1, H2; try lia. cbn [chain_find]. unfold hash_chain_next.
  destruct (keys m !! c) as [k|]; [|done]. cbn [mbind option_bind]. destruct (decide (k = key)); [done|]. apply IH; [done|lia|lia].
Qed.

(** The test the walk makes at an item that has a successor. *)
Lemma walk_test (m : hmem Key) h l1 c l2 : chain (links m) h (l1 ++ c :: l2) -> NoDup (l1 ++ c :: l2) ->
  (forall p, p ∈ l1 ++ c :: l2 -> is_Some (keys m !! p)) ->
  (if decide (h = Some c) then Some true else is_reachable 64 m h c) = Some (bool_decide (length l1 < 64)%nat).
Proof.
  intros Hc Hnd Hk. pose proof (proj1 (NoDup_app_mid _ _ _) Hnd) as (Hc1 & _). destruct (decide (h = Some c)) as [E|].
  - destruct l1 as [|q l1]; [done|]. destruct Hc as [Hq _]. rewrite E in Hq. injection Hq as <-. set_solver.
  - apply (is_reachable_spec m l1 c l2); [done|done|set_solver].
Qed.

Lemma chain_split (L : gmap node node_ptr) h l1 c l2 : chain L h (l1 ++ c :: l2) -> chain L (default None (L !! c)) l2.
Proof. revert h. induction l1 as [|q l1 IH]; intros h [-> Hc]; [done|by apply (IH _ Hc)]. Qed.

Lemma walk_agrees (m : hmem Key) key h l2 : forall l1 c fuel,
  let l := l1 ++ c :: l2 in
  chain (links m) h l -> NoDup l -> (forall p, p ∈ l -> is_Some (keys m !! p)) ->
  (forall p, p ∈ l1 -> keys m !! p <> Some key) ->
  (length l <= 65)%nat \/ Exists (fun p => keys m !! p = Some key) (take 65 l) ->
  (length (c :: l2) <= fuel)%nat -> hazptr_walk fuel m key h (Some c) = chain_find fuel m key (Some c).
Proof.
  induction l2 as [|d l2 IH]; intros l1 c fuel l Hc Hnd Hk Hno Hor Hf; (destruct fuel as [|fuel]; [cbn in Hf; lia|]);
    pose proof (chain_split _ _ _ _ _ Hc) as Hd; cbn [hazptr_walk chain_find]; unfold hash_chain_next;
    destruct (Hk c ltac:(unfold l; set_solver)) as [k Ek]; rewrite !Ek; cbn [mbind option_bind];
    destruct (decide (k = key)) as [->|Hne]; try done.
  - cbn in Hd. rewrite Hd. by destruct fuel.
  - rewrite (walk_test m h l1 c (d :: l2)) by done. destruct Hd as [Hd _]. rewrite Hd.
    rewrite bool_decide_true; cbn [mbind option_bind].
    + apply (IH (l1 ++ [c]) d); rewrite <- ?app_assoc; cbn [app]; [done..| |done|cbn [length] in *; lia].
      intros p [?| ->%list_elem_of_singleton]%elem_of_app; [auto|]. congruence.
    + destruct Hor as [Hle|Hex]; [unfold l in Hle; rewrite length_app in Hle; cbn in Hle; lia|].
      destruct (decide (length l1 < 64)%nat) as [|Hge]; [done|]. exfalso. apply Exists_exists in Hex as (p & Hp & Epk).
      assert (p ∈ l1 ++ [c]) as Hp1.
      { unfold l in Hp. replace (l1 ++ c :: d :: l2) with ((l1 ++ [c]) ++ d :: l2) in Hp by (by rewrite <- app_assoc).
        rewrite take_app_le in Hp by (rewrite length_app; cbn; lia). by apply subseteq_take in Hp. }
      apply elem_of_app in Hp1 as [?| ->%list_elem_of_singleton]; [by eapply Hno|congruence].
Qed.

Lemma walk_diverges (m : hmem Key) key h fuel : forall l1 c l2,
  let l := l1 ++ c :: l2 in
  chain (links m) h l -> NoDup l -> (forall p, p ∈ l -> is_Some (keys m !! p)) -> (length l1 <= 64)%nat -> (66 <= length l)%nat ->
  Forall (fun p => keys m !! p <> Some key) (take 65 l) -> hazptr_walk fuel m key h (Some c) = None.
Proof.
  induction fuel as [|fuel IH]; intros l1 c l2 l Hc Hnd Hk Hl1 Hl Hno; [done|].
  pose proof (chain_split _ _ _ _ _ Hc) as Hd. cbn [hazptr_walk]. unfold hash_chain_next.
  destruct (Hk c ltac:(unfold l; set_solver)) as [k Ek]. rewrite !Ek. cbn [mbind option_bind].
  assert (k <> key) as Hne.
  { intros ->. apply (proj1 (Forall_forall _ _) Hno c); [|done]. unfold l. rewrite take_app_ge by lia.
    replace (65 - length l1)%nat with (S (64 - length l1)) by lia. cbn. set_solver. }
  rewrite decide_False by done. destruct l2 as [|d l2]; [unfold l in Hl; rewrite length_app in Hl; cbn in Hl; lia|].
  destruct Hd as [Hd _]. rewrite Hd, (walk_test m h l1 c (d :: l2)) by done. cbn [mbind option_bind].
  destruct (decide (length l1 < 64)%nat).
  - rewrite bool_decide_true by done. apply (IH (l1 ++ [c]) d l2); rewrite <- ?app_assoc; cbn [app]; try done.
    rewrite length_app. cbn. lia.
  - rewrite bool_decide_false by done. destruct l1 as [|q l1]; [cbn in *; lia|]. destruct Hc as [-> Hc].
    apply (IH [] q (l1 ++ c :: d :: l2)); try done; cbn; lia.
Qed.

(** On a chain of at most 65 items, or when the key is among the first 65,
    the hazard-pointer walk returns what the plain walk returns; on a longer chain
    without the key there it restarts forever, since its reachability test stops
    after 64 items. *)
Theorem hazptr_walk_characterised (m : hmem Key) (b : bucket_type) (key : Key) (l : list node) (fuel : nat) :
  chain (links m) (embed_head b) l -> NoDup l -> (forall p, p ∈ l -> is_Some (keys m !! p)) ->
  if decide ((length l <= 65)%nat \/ Exists (fun p => keys m !! p = Some key) (take 65 l))
  then (length l <= fuel)%nat -> find_hazptr_embedded fuel m b key = find_node_embedded m b key
  else find_hazptr_embedded fuel m b key = None.
Proof.
  intros Hc Hnd Hk. unfold find_hazptr_embedded, find_node_embedded. destruct (decide _) as [Hor|Hnor].
  - intros Hf. destruct l as [|c l]; [cbn in Hc; rewrite Hc; by destruct fuel, (walk_fuel m)|]. pose proof Hc as [Hh _]. rewrite Hh.
    rewrite (walk_agrees m key (Some c) l [] c fuel); [|by rewrite <- Hh|done|done|set_solver|done|done].
    assert (length (c :: l) <= walk_fuel m)%nat as Hw.
    { unfold walk_fuel. rewrite <- size_dom, <- (size_list_to_set (C := gset node) _ Hnd). apply subseteq_size.
      intros p Hp%elem_of_list_to_set. by apply elem_of_dom, Hk. }
    rewrite Hh in Hc. by apply (chain_find_fuel m key (c :: l)).
  - destruct l as [|c l]; [cbn in Hnor; lia|]. pose proof Hc as [Hh _]. rewrite Hh.
    apply (walk_diverges m key (Some c) fuel [] c l); [by rewrite <- Hh|done|done|cbn; lia|cbn in *; lia|].
    apply Forall_forall. intros p Hp E. apply Hnor. right. apply Exists_exists. eauto.
Qed.

End hazptr_walk.

(** * Witnesses *)

(** Items 1 to 4 and 6 carry the keys 1 to 4 and 6; item 5 carries the key 1 too. *)
Definition some_items : hmem nat :=
  HMem (list_to_map [(1%positive, 1%nat); (2%positive, 2%nat); (3%positive, 3%nat); (4%positive, 4%nat); (5%positive, 1%nat); (6%positive, 6%nat)]) ∅ ∅.

(** Insertions, a migration with work on both arrays, and its end. *)
Definition some_calls : list (call nat) :=
  [CSetIncremental true; CInsert 1%nat 1%positive; CInsert 2%nat 2%positive; CInsert 1%nat 5%positive; CRehash 8; CInsert 3%nat 3%positive;
   CFind 1%nat; CAssign 4%nat 4%positive; CErase 2%nat; CContains 2%nat; CFindAndPin 3%nat (fun _ => true); CRehashStep 16; CSize;
   CInsert 6%nat 6%positive; CReserve 100; CClear; CSize; CFindShared 1%nat].

Lemma chain_table_refines_map_witness : exists t',
  run Z.of_nat some_calls (hash_table_new 2 some_items : chain_table nat) =
    Some ([RUnit; RInserted 1 true; RInserted 2 true; RInserted 1 false; RUnit; RInserted 3 true; RNode (Some 1%positive);
           RInserted 4 true; RBool true; RBool false; RNode (Some 3%positive); RUnit; RSize 3; RInserted 6 true; RUnit; RUnit; RSize 0; RNode None], t').
Proof.
  destruct (chain_table_refines_map Z.of_nat 2 some_items some_calls) as (t' & E & _);
    [lia|vm_compute; reflexivity|vm_compute; intuition congruence|]. exists t'. exact E.
Defined.

Lemma f14_table_refines_map_witness : exists t',
  run Z.of_nat some_calls (hash_table_new 2 some_items : f14_table Z.of_nat) =
    Some ([RUnit; RInserted 1 true; RInserted 2 true; RInserted 1 false; RUnit; RInserted 3 true; RNode (Some 1%positive);
           RInserted 4 true; RBool true; RBool false; RNode (Some 3%positive); RUnit; RSize 3; RInserted 6 true; RUnit; RUnit; RSize 0; RNode None], t').
Proof.
  destruct (f14_table_refines_map Z.of_nat 2 some_items some_calls) as (t' & E & _);
    [lia|vm_compute; reflexivity|vm_compute; intuition congruence|]. exists t'. exact E.
Defined.

(** A migration from 8 to 16 buckets. *)
Definition migrating : list (call nat) := [CSetIncremental true; CInsert 1%nat 1%positive; CInsert 2%nat 2%positive; CRehash 16].
Definition after_migrating {PB : Probing nat} : table nat :=
  match run Z.of_nat migrating (hash_table_new 8 some_items) with Some (_, t) => t | None => hash_table_new 8 some_items end.

Lemma migrating_reaches {PB : Probing nat} {PL : ProbingLaws Z.of_nat} : legal_run Z.of_nat migrating (hash_table_new 8 some_items) ∅ ->
  reaches Z.of_nat 8 some_items migrating after_migrating.
Proof.
  intros Hl. assert (Z.of_nat (base.size (keys some_items)) < 2 ^ 64) as Hsp by (vm_compute; reflexivity).
  destruct (table_refines_map Z.of_nat 8 some_items migrating ltac:(lia) Hsp Hl) as (t' & E & _).
  split; [lia|]. split; [done|]. split; [done|]. unfold after_migrating. rewrite E. eauto.
Qed.

Lemma rehash_finish_chain_completes_witness : exists t' : chain_table nat,
  rehash_finish 5 2 after_migrating = Some t' /\ rehash_in_progress_ t' = false /\ find_embedded_shared Z.of_nat t' 2%nat = Some (Some 2%positive).
Proof.
  destruct (rehash_finish_chain_completes Z.of_nat 8 some_items migrating after_migrating) as (t' & E & Hip & Hf).
  - apply migrating_reaches. vm_compute. intuition congruence.
  - vm_compute. reflexivity.
  - exists t'. split; [|split; [done|]].
    + revert E. replace (Z.to_nat _) with 1%nat by (vm_compute; reflexivity). cbn [finish_calls]. by destruct (rehash_finish 5 2 after_migrating).
    + rewrite Hf. vm_compute. reflexivity.
Defined.

(** The counter of stalled calls is documented to count the calls that returned
    before the migration was complete; the call that completes it is counted
    too. *)
Example rehash_finish_counts_completing_call :
  (fun t : chain_table nat => (rehash_in_progress_ t, rehash_finish_stall_count_ (diag t))) <$> rehash_finish 5 2 after_migrating = Some (false, 1) /\
  rehash_finish_stall_count_ (diag (after_migrating : chain_table nat)) = 0.
Proof. split; vm_compute; reflexivity. Qed.

Lemma rehash_finish_f14_diverges_witness : rehash_finish 1000 2 (after_migrating : f14_table Z.of_nat) = None.
Proof.
  apply (rehash_finish_f14_diverges Z.of_nat 8 some_items migrating after_migrating).
  - apply migrating_reaches. vm_compute. intuition congruence.
  - vm_compute. reflexivity.
  - vm_compute. discriminate.
Defined.

Lemma f14_assign_during_rehash_is_lost_witness : exists t',
  insert_or_assign Z.of_nat (after_migrating : f14_table Z.of_nat) 1%nat 5%positive = Some (5%positive, false, t') /\
  find_embedded_shared Z.of_nat t' 1%nat = Some (Some 1%positive).
Proof.
  apply (f14_assign_during_rehash_is_lost Z.of_nat 8 some_items migrating after_migrating); [|vm_compute; reflexivity..|done].
  apply migrating_reaches. vm_compute. intuition congruence.
Defined.

(** A chain of the items 1 to 66 with the keys 1 to 66. *)
Definition long_chain : hmem nat :=
  HMem (list_to_map ((fun i => (Pos.of_nat i, i)) <$> seq 1 66)) (list_to_map ((fun i => (Pos.of_nat i, Some (Pos.of_nat (S i)))) <$> seq 1 65)) ∅.

Lemma hazptr_walk_characterised_witness : find_hazptr_embedded 1000 long_chain (BucketType (Some 1%positive) 0) 66%nat = None.
Proof.
  pose proof (hazptr_walk_characterised long_chain (BucketType (Some 1%positive) 0) 66%nat (Pos.of_nat <$> seq 1 66) 1000) as Hw.
  rewrite decide_False in Hw by (apply (bool_decide_eq_false_1 _); vm_compute; reflexivity). apply Hw.
  - vm_compute. tauto.
  - apply (bool_decide_eq_true_1 _). vm_compute. reflexivity.
  - apply Forall_forall, (bool_decide_eq_true_1 _). vm_compute. reflexivity.
Defined.

(** * Concrete behaviours *)

(** Turning the incremental mode off during a migration: lookups return to the old
    array and miss the items that have moved. *)
Example toggle_hides_items :
  let moved := '(_, t) ← rehash_step 4 (after_migrating : chain_table nat); Some t in
  (t ← moved; find_embedded_shared Z.of_nat t 1%nat) = Some (Some 1%positive) /\
  (t ← moved; find_embedded_shared Z.of_nat (set_incremental_rehash false t) 1%nat) = Some None.
Proof. split; vm_compute; reflexivity. Qed.

(** A complete incremental rehash leaves the seqlock odd in chain mode, where
    optimistic reads fail until the next one begins, and even in F14 mode. *)
Example chain_seqlock_stays_odd :
  ('(_, t) ← rehash_step 16 (after_migrating : chain_table nat); Some (rehash_in_progress_ t, seqlock_ t)) = Some (false, 3) /\
  ('(_, t) ← rehash_step 16 (after_migrating : f14_table Z.of_nat); Some (rehash_in_progress_ t, seqlock_ t)) = Some (false, 4).
Proof. split; vm_compute; reflexivity. Qed.
