(* ===== verification/SharedSpinlock.v ===== *)
(** The reader-writer spinlock of detail/concurrent_hash_table.hpp, as a step
    system: every thread has a program counter, and one step is one atomic access
    to the lock (or a wait or wake call) with the local code around it. The native
    wait is compare-and-wait: it parks the thread when the word still has the
    expected value, and a parked thread runs again when a wake picks it or, as the
    operating system may do, spuriously. The interleavings are sequentially
    consistent; the condition-variable fallback is not modelled. *)

From S2P Require Import Prelude.

(** * The word *)

Definition kWriterFlag : Z := 1.
Definition kReaderInc : Z := 2.
Definition kReaderMask : Z := 0x7FFFFFFE.
Definition kWriterWaitFlag : Z := 0x80000000.
Definition kSpinThreshold : nat := 100.

Definition u32 (x : Z) : Z := wrap 32 x.
Definition lnot32 (x : Z) : Z := 2 ^ 32 - 1 - x.
(** [s & f] as a condition. *)
Definition has (s f : Z) : bool := negb (Z.land s f =? 0).

(** * State *)

(** The fields of the lock. *)
Record shared_spinlock := SharedSpinlock {
  state_ : Z;
  (** [fairness_ == writer_fair] *)
  writer_fair_ : bool;
  writer_wait_start_ns_ : Z;
  writer_starvation_timeout_ns_ : Z;
  writer_starvation_events_ : Z;
  wait_count_ : Z;
  try_fail_count_ : Z
}.

Definition set_word (s : Z) (k : shared_spinlock) : shared_spinlock :=
  SharedSpinlock s (writer_fair_ k) (writer_wait_start_ns_ k) (writer_starvation_timeout_ns_ k)
    (writer_starvation_events_ k) (wait_count_ k) (try_fail_count_ k).
Definition set_wait_start (ns : Z) (k : shared_spinlock) : shared_spinlock :=
  SharedSpinlock (state_ k) (writer_fair_ k) ns (writer_starvation_timeout_ns_ k)
    (writer_starvation_events_ k) (wait_count_ k) (try_fail_count_ k).
Definition set_fairness_mode (b : bool) (k : shared_spinlock) : shared_spinlock :=
  SharedSpinlock (state_ k) b (writer_wait_start_ns_ k) (writer_starvation_timeout_ns_ k)
    (writer_starvation_events_ k) (wait_count_ k) (try_fail_count_ k).
Definition set_writer_starvation_timeout (ns : Z) (k : shared_spinlock) : shared_spinlock :=
  SharedSpinlock (state_ k) (writer_fair_ k) (writer_wait_start_ns_ k) ns
    (writer_starvation_events_ k) (wait_count_ k) (try_fail_count_ k).
Definition count (events waits fails : Z) (k : shared_spinlock) : shared_spinlock :=
  SharedSpinlock (state_ k) (writer_fair_ k) (writer_wait_start_ns_ k) (writer_starvation_timeout_ns_ k)
    (wrap 64 (writer_starvation_events_ k + events)) (wrap 64 (wait_count_ k + waits)) (wrap 64 (try_fail_count_ k + fails)).

Definition is_locked (k : shared_spinlock) : bool := has (state_ k) kWriterFlag.
Definition is_lock_shared (k : shared_spinlock) : bool := has (state_ k) kReaderMask.

(** Who waits: [lock_slow], [lock_shared_slow], [lock_shared_writer_fair_slow]. *)
Inductive waiter := WLock | WSlow | WFair.
(** Who asks whether a writer is starved. *)
Inductive asker := ByLockShared | ByTryLockShared.

(** Where a thread is: the access it makes next. *)
Inductive pc :=
| Idle
| HoldW
| HoldR
(** [lock], [lock_slow] *)
| LockCas
| LsLoad (spins : nat)
| LsAcquire (s : Z) (spins : nat)
| LsMark (s : Z) (spins : nat)
| LsTimer (s : Z) (spins : nat)
| LsStamp (s ns : Z) (spins : nat)
(** [do_wait]: the load, the compare-and-wait, the wait *)
| WaitLoad (w : waiter) (s : Z)
| WaitEnter (w : waiter) (s : Z)
| Parked (w : waiter)
(** [lock_shared] *)
| ShMode
| ShFairCheck
| ShAdd
| ShUndo
(** [writer_starved] *)
| StTimeout (a : asker)
| StStart (a : asker) (timeout : Z)
(** [lock_shared_slow], [lock_shared_writer_fair_slow] *)
| SlUndo
| SlLoad (spins : nat)
| SlCas (s : Z)
| FaLoad (spins : nat)
| FaCas (s : Z)
(** [try_lock], [try_lock_shared] *)
| TryCas
| TsAdd
| TsUndo
(** [unlock], [unlock_shared] *)
| UnAnd
| UnTimer
| UnWake
| UsSub
| UsWake.

Inductive wake := NoWake | WakeOne | WakeAll.

(** * One access *)

(** The end of the loop body of [lock_slow], and of the readers' loops. *)
Definition spin_or_wait (w : waiter) (again : nat -> pc) (s : Z) (spins : nat) : pc :=
  if (spins <? kSpinThreshold)%nat then again (S spins) else WaitLoad w s.

(** The pc after [do_wait] returns: the loop starts over with [spins = 0]. *)
Definition resume (w : waiter) : pc :=
  match w with WLock => LsLoad 0 | WSlow => SlLoad 0 | WFair => FaLoad 0 end.

Definition starved (now start timeout : Z) : bool :=
  negb (start =? 0) && (start <? now) && (timeout <? now - start).

(** The withdrawal of a reader that a starved writer holds up. *)
Definition undo (a : asker) : pc := match a with ByLockShared => ShUndo | ByTryLockShared => TsUndo end.

(** [now] is the clock; [weak_fail] makes a weak compare-exchange fail. *)
Definition access (now : Z) (weak_fail : bool) (k : shared_spinlock) (p : pc) : option (shared_spinlock * pc * wake) :=
  let s0 := state_ k in
  let go k p := Some (k, p, NoWake) in
  match p with
  | Idle | HoldW | HoldR | Parked _ => None
  | LockCas => if s0 =? 0 then go (set_word kWriterFlag k) HoldW else go (count 0 1 0 k) (LsLoad 0)
  | LsLoad spins =>
      if (Z.land s0 kReaderMask =? 0) && negb (has s0 kWriterFlag) then go k (LsAcquire s0 spins)
      else if negb (has s0 kWriterWaitFlag) then go k (LsMark s0 spins)
      else go k (spin_or_wait WLock LsLoad s0 spins)
  | LsAcquire s spins =>
      if (s0 =? s) && negb weak_fail then go (set_word kWriterFlag k) HoldW else go k (LsLoad spins)
  | LsMark s spins =>
      let desired := Z.lor s kWriterWaitFlag in
      if (s0 =? s) && negb weak_fail then go (set_word desired k) (LsTimer desired spins) else go k (LsLoad spins)
  | LsTimer s spins =>
      if writer_wait_start_ns_ k =? 0 then go k (LsStamp s now spins) else go k (spin_or_wait WLock LsLoad s spins)
  | LsStamp s ns spins => go (set_wait_start ns k) (spin_or_wait WLock LsLoad s spins)
  | WaitLoad w s => if s0 =? s then go k (WaitEnter w s) else go k (resume w)
  | WaitEnter w s => if s0 =? s then go k (Parked w) else go k (resume w)
  | ShMode => if writer_fair_ k then go k ShFairCheck else go k ShAdd
  | ShFairCheck => if has s0 (Z.lor kWriterFlag kWriterWaitFlag) then go k (FaLoad 0) else go k ShAdd
  | ShAdd =>
      let k := set_word (u32 (s0 + kReaderInc)) k in
      if negb (has s0 kWriterFlag) then
        if has s0 kWriterWaitFlag then go k (StTimeout ByLockShared) else go k HoldR
      else go k SlUndo
  | StTimeout a =>
      if writer_starvation_timeout_ns_ k =? 0 then go k HoldR else go k (StStart a (writer_starvation_timeout_ns_ k))
  | StStart a timeout =>
      if starved now (writer_wait_start_ns_ k) timeout then go (count 1 0 0 k) (undo a) else go k HoldR
  | ShUndo => go (set_word (u32 (s0 - kReaderInc)) k) (FaLoad 0)
  | SlUndo => go (set_word (u32 (s0 - kReaderInc)) k) (SlLoad 0)
  | SlLoad spins =>
      if has s0 kWriterFlag then go k (spin_or_wait WSlow SlLoad s0 spins) else go k (SlCas s0)
  | SlCas s =>
      if (s0 =? s) && negb weak_fail then go (set_word (u32 (s + kReaderInc)) k) HoldR else go k (SlLoad 0)
  | FaLoad spins =>
      if has s0 kWriterFlag then go k (spin_or_wait WFair FaLoad s0 spins)
      else if has s0 kWriterWaitFlag then go k (spin_or_wait WFair FaLoad s0 spins)
      else go k (FaCas s0)
  | FaCas s =>
      if (s0 =? s) && negb weak_fail then go (set_word (u32 (s + kReaderInc)) k) HoldR else go k (FaLoad 0)
  | TryCas => if s0 =? 0 then go (set_word kWriterFlag k) HoldW else go (count 0 0 1 k) Idle
  | TsAdd =>
      let k := set_word (u32 (s0 + kReaderInc)) k in
      if negb (has s0 kWriterFlag) then
        if has s0 kWriterWaitFlag then go k (StTimeout ByTryLockShared) else go k HoldR
      else go k TsUndo
  | TsUndo => go (count 0 0 1 (set_word (u32 (s0 - kReaderInc)) k)) Idle
  | UnAnd => go (set_word (Z.land s0 (lnot32 (Z.lor kWriterFlag kWriterWaitFlag))) k) UnTimer
  | UnTimer => go (set_wait_start 0 k) UnWake
  | UnWake => Some (k, Idle, WakeAll)
  | UsSub =>
      let k := set_word (u32 (s0 - kReaderInc)) k in
      if (Z.land s0 kReaderMask =? kReaderInc) && has s0 kWriterWaitFlag then go k UsWake else go k Idle
  | UsWake => Some (k, Idle, WakeOne)
  end.

(** * The system *)

Record system := System { lock_ : shared_spinlock; threads : list pc }.

Inductive operation := Lock | LockShared | TryLock | TryLockShared | Unlock | UnlockShared.

(** An idle thread starts an acquisition, a holder its release. *)
Definition begin_op (o : operation) (p : pc) : option pc :=
  match o, p with
  | Lock, Idle => Some LockCas
  | LockShared, Idle => Some ShMode
  | TryLock, Idle => Some TryCas
  | TryLockShared, Idle => Some TsAdd
  | Unlock, HoldW => Some UnAnd
  | UnlockShared, HoldR => Some UsSub
  | _, _ => None
  end.

Definition wake_pc (p : pc) : pc := match p with Parked w => resume w | _ => p end.
Definition parked (p : pc) : bool := match p with Parked _ => true | _ => false end.

(** A wake of one thread picks a parked one if there is one. *)
Definition do_wake (w : wake) (woken : option nat) (ts : list pc) : option (list pc) :=
  match w with
  | NoWake => Some ts
  | WakeAll => Some (wake_pc <$> ts)
  | WakeOne =>
      match woken with
      | Some j => p ← ts !! j; if parked p then Some (<[j := wake_pc p]> ts) else None
      | None => if existsb parked ts then None else Some ts
      end
  end.

Inductive event :=
| Begin (i : nat) (o : operation)
| Run (i : nat) (now : Z) (weak_fail : bool) (woken : option nat)
| Spurious (i : nat)
| SetFairness (b : bool)
| SetTimeout (ns : Z).

Definition fire (e : event) (y : system) : option system :=
  match e with
  | Begin i o => p ← threads y !! i; q ← begin_op o p; Some (System (lock_ y) (<[i := q]> (threads y)))
  | Run i now weak_fail woken =>
      p ← threads y !! i;
      '(k, q, w) ← access now weak_fail (lock_ y) p;
      ts ← do_wake w woken (<[i := q]> (threads y));
      Some (System k ts)
  | Spurious i => p ← threads y !! i; if parked p then Some (System (lock_ y) (<[i := wake_pc p]> (threads y))) else None
  | SetFairness b => Some (System (set_fairness_mode b (lock_ y)) (threads y))
  | SetTimeout ns => Some (System (set_writer_starvation_timeout ns (lock_ y)) (threads y))
  end.

Fixpoint fire_all (es : list event) (y : system) : option system :=
  match es with
  | [] => Some y
  | e :: es => y ← fire e y; fire_all es y
  end.

Definition initial (n : nat) : system := System (SharedSpinlock 0 false 0 100000000 0 0 0) (replicate n Idle).

(** * The fields of the word *)

(** A writer flag, a reader count and a wait flag. *)
Definition word (a r q : Z) : Z := a + 2 * r + 2 ^ 31 * q.

Lemma land_field w lo n : 0 <= lo -> 0 <= n -> Z.land w (Z.shiftl (Z.ones n) lo) = ((w / 2 ^ lo) mod 2 ^ n) * 2 ^ lo.
Proof.
  intros Hlo Hn. apply Z.bits_inj'. intros i Hi. rewrite Z.land_spec, Z.shiftl_spec, Z.mul_pow2_bits by lia.
  destruct (Z.ltb_spec (i - lo) 0).
  - rewrite !(Z.testbit_neg_r _ (i - lo)) by lia. apply andb_false_r.
  - rewrite <- Z.land_ones, Z.land_spec, Z.div_pow2_bits by lia. by replace (i - lo + lo) with i by lia.
Qed.

Section fields.
Context (a r q : Z) (Ha : 0 <= a <= 1) (Hr : 0 <= r < 2 ^ 30) (Hq : 0 <= q <= 1).

Lemma word_writer : Z.land (word a r q) kWriterFlag = a.
Proof. change kWriterFlag with (Z.shiftl (Z.ones 1) 0). rewrite land_field by lia. unfold word. Z.to_euclidean_division_equations; lia. Qed.

Lemma word_readers : Z.land (word a r q) kReaderMask = 2 * r.
Proof. change kReaderMask with (Z.shiftl (Z.ones 30) 1). rewrite land_field by lia. unfold word. Z.to_euclidean_division_equations; lia. Qed.

Lemma word_waiting : Z.land (word a r q) kWriterWaitFlag = 2 ^ 31 * q.
Proof. change kWriterWaitFlag with (Z.shiftl (Z.ones 1) 31). rewrite land_field by lia. unfold word. Z.to_euclidean_division_equations; lia. Qed.

Lemma has_writer : has (word a r q) kWriterFlag = (a =? 1).
Proof. unfold has. rewrite word_writer. destruct (Z.eqb_spec a 0), (Z.eqb_spec a 1); lia || done. Qed.

Lemma has_waiting : has (word a r q) kWriterWaitFlag = (q =? 1).
Proof. unfold has. rewrite word_waiting. destruct (Z.eqb_spec (2 ^ 31 * q) 0), (Z.eqb_spec q 1); lia || done. Qed.

Lemma word_mark : q = 0 -> Z.lor (word a r q) kWriterWaitFlag = word a r 1.
Proof.
  intros Eq. pose proof (Z.add_lor_land (word a r q) kWriterWaitFlag) as E. rewrite word_waiting in E.
  unfold word, kWriterWaitFlag in *. lia.
Qed.

Lemma word_unlock : Z.land (word a r q) (lnot32 (Z.lor kWriterFlag kWriterWaitFlag)) = word 0 r 0.
Proof. change (lnot32 (Z.lor kWriterFlag kWriterWaitFlag)) with kReaderMask. rewrite word_readers. unfold word. lia. Qed.

Lemma word_add : r + 1 < 2 ^ 30 -> u32 (word a r q + kReaderInc) = word a (r + 1) q.
Proof. intros Hr1. unfold u32, word, kReaderInc. rewrite wrap_small; lia. Qed.

Lemma word_sub : 0 < r -> u32 (word a r q - kReaderInc) = word a (r - 1) q.
Proof. intros Hr1. unfold u32, word, kReaderInc. rewrite wrap_small; lia. Qed.

End fields.

Lemma word_inj a r q a' r' q' : 0 <= a <= 1 -> 0 <= r < 2 ^ 30 -> 0 <= a' <= 1 -> 0 <= r' < 2 ^ 30 ->
  word a r q = word a' r' q' -> a = a' /\ r = r' /\ q = q'.
Proof. unfold word. intros. lia. Qed.

(** * The invariant *)

(** The writer flag belongs to a thread; so does every reader increment, of an
    admitted reader or of one that will withdraw. *)
Definition owns (p : pc) : Z := match p with HoldW | UnAnd => 1 | _ => 0 end.
Definition admitted (p : pc) : Z := match p with HoldR | UsSub | StTimeout _ | StStart _ _ => 1 | _ => 0 end.
Definition incs (p : pc) : Z := match p with ShUndo | TsUndo | SlUndo => 1 | p => admitted p end.
(** A release that has cleared the flags and has not woken the waiters yet. *)
Definition releasing (p : pc) : Z := match p with UnTimer | UnWake => 1 | _ => 0 end.

(** What a waiter saw in the word it waits on. *)
Definition saw (w : waiter) (s : Z) : bool :=
  match w with
  | WLock => has s kWriterWaitFlag
  | WSlow => has s kWriterFlag
  | WFair => has s kWriterFlag || has s kWriterWaitFlag
  end.

(** What a thread knows of a word it read before. *)
Definition pc_ok (p : pc) : bool :=
  match p with
  | LsAcquire s _ => (Z.land s kReaderMask =? 0) && negb (has s kWriterFlag)
  | LsMark s _ => negb (has s kWriterWaitFlag)
  | LsTimer s _ | LsStamp s _ _ => has s kWriterWaitFlag
  | WaitLoad w s | WaitEnter w s => saw w s
  | SlCas s | FaCas s => negb (has s kWriterFlag)
  | _ => true
  end.

(** [woken] excuses the waiters that a wake in the same step will release. *)
Record sys_body (woken : Prop) (k : shared_spinlock) (ts : list pc) : Prop := {
  si_threads : Z.of_nat (length ts) < 2 ^ 30 - 1;
  si_pcs : Forall (fun p => pc_ok p) ts;
  si_writer : total owns ts <= 1;
  si_excl : total owns ts = 0 \/ total admitted ts = 0;
  si_word : exists q, 0 <= q <= 1 /\ state_ k = word (total owns ts) (total incs ts) q /\
    (Exists (fun p => parked p) ts -> total owns ts = 1 \/ q = 1 \/ 0 < total releasing ts \/ woken)
}.
Definition sys_inv (y : system) : Prop := sys_body False (lock_ y) (threads y).

(** One access, in terms of the fields of the word and the thread's own part. *)
Lemma access_ok now wf k p k' p' w a r d n q :
  access now wf k p = Some (k', p', w) -> state_ k = word a r q -> owns p <= a <= 1 -> 0 <= admitted p <= d -> incs p <= r ->
  0 <= d <= r -> r - incs p + 1 < 2 ^ 30 -> 0 <= q <= 1 -> a = 0 \/ d = 0 -> pc_ok p -> 0 <= releasing p <= n ->
  let a' := a - owns p + owns p' in let r' := r - incs p + incs p' in
  exists q', 0 <= q' <= 1 /\ state_ k' = word a' r' q' /\ a' <= 1 /\ (a' = 0 \/ d - admitted p + admitted p' = 0) /\ pc_ok p' /\
    (parked p' -> a' = 1 \/ q' = 1) /\
    (a = 1 \/ q = 1 \/ 0 < n -> a' = 1 \/ q' = 1 \/ 0 < n - releasing p + releasing p' \/ w = WakeAll).
Proof.
  intros E Hs Ha Hd Hi Hdr Hr Hq Hx Hok Hn a' r'. subst a' r'. apply Is_true_true in Hok.
  assert (0 <= owns p /\ 0 <= incs p <= 1) as [Ho Hi1] by (by destruct p).
  assert (0 <= a <= 1) as Ha' by lia. assert (0 <= r < 2 ^ 30) as Hr' by lia.
  pose proof (has_writer a r q Ha' Hr') as HW. pose proof (has_waiting a r q Ha' Hr' Hq) as HQ.
  pose proof (word_readers a r q Ha' Hr') as HR.
  destruct k as [s0 wfair start tmo ev wc tf]. cbn [state_] in Hs. subst s0.
  destruct p; cbn [access state_ writer_fair_ writer_wait_start_ns_ writer_starvation_timeout_ns_] in E; unfold spin_or_wait in E; try done;
    rewrite ?HW, ?HQ, ?HR in E.
  all: repeat match type of E with context [if ?b then _ else _] => destruct b eqn:? end; injection E as <- <- <-.
  all: try match goal with w0 : waiter |- _ => destruct w0 | a0 : asker |- _ => destruct a0 end.
  all: cbn [owns incs admitted releasing pc_ok parked saw resume undo state_ set_word count set_wait_start] in *.
  all: try match goal with H : (_ =? ?s) && negb _ = true |- _ => is_var s; apply andb_true_iff in H as [H%Z.eqb_eq _]; subst s end.
  all: try match goal with H : (_ =? ?s) = true |- _ => is_var s; apply Z.eqb_eq in H; subst s end.
  all: rewrite ?HW, ?HQ, ?HR in Hok; bool_to_Z.
  all: match goal with
       | |- context [kWriterFlag = word _ _ _] => exists 0; unfold kWriterFlag, word in *
       | |- context [Z.lor _ _ = word _ _ _] => exists 1; rewrite word_mark by lia; rewrite (has_waiting a r 1) by lia
       | |- context [lnot32 _] => exists 0; rewrite word_unlock by lia; unfold word
       | |- context [u32 (_ + _)] => exists q; rewrite word_add by lia
       | |- context [u32 (_ - _)] => exists q; rewrite word_sub by lia
       | _ => exists q
       end; rewrite ?HW, ?HQ, ?HR, ?Is_true_true, ?andb_true_iff, ?negb_true_iff, ?Z.eqb_eq, ?Z.eqb_neq; try done.
  all: split_and!; try done; try lia; try (f_equal; lia).
  all: try (destruct (Z.eqb_spec a 1), (Z.eqb_spec q 1); done || lia).
  all: try tauto.
  all: try (destruct (Z.eqb_spec a 1); lia).
Qed.

Lemma class_range p : 0 <= owns p <= 1 /\ 0 <= admitted p <= incs p /\ incs p <= 1 /\ 0 <= releasing p <= 1.
Proof. by destruct p. Qed.

(** A thread of a system that keeps the invariant makes an access. *)
Lemma access_inv now wf k ts i p k' p' w : sys_body False k ts -> ts !! i = Some p -> access now wf k p = Some (k', p', w) ->
  sys_body (w = WakeAll) k' (<[i := p']> ts).
Proof.
  intros [Hlen Hpcs Hw Hx (q & Hq & Hs & Hg)] Hi E.
  assert (forall p, 0 <= owns p <= 1) as C1 by apply class_range. assert (forall p, 0 <= releasing p <= 1) as C4 by apply class_range.
  assert (forall p, 0 <= incs p <= 1) as C2 by (intros x; pose proof (class_range x); lia).
  assert (forall p, 0 <= admitted p <= 1) as C3 by (intros x; pose proof (class_range x); lia).
  pose proof (total_pos owns ts i p C1 Hi). pose proof (total_pos incs ts i p C2 Hi). pose proof (total_pos admitted ts i p C3 Hi).
  pose proof (total_pos releasing ts i p C4 Hi). pose proof (total_bound admitted ts C3).
  assert (total admitted ts <= total incs ts) by (apply total_le; intros x; pose proof (class_range x); lia).
  pose proof (total_bound incs ts C2). pose proof (C2 p).
  destruct (access_ok now wf k p k' p' w (total owns ts) (total incs ts) (total admitted ts) (total releasing ts) q E Hs)
    as (q' & Hq' & Hs' & Hw' & Hx' & Hok' & Hp' & Hg'); try done; try (pose proof (C1 p); pose proof (C3 p); pose proof (C4 p); lia).
  { rewrite Forall_lookup in Hpcs. by apply (Hpcs i). }
  split; rewrite ?length_insert, ?(total_insert _ ts i p p' Hi); try done.
  - by apply Forall_insert.
  - exists q'. split; [done|]. split; [done|]. intros Hpk. apply Exists_exists in Hpk as (x & Hx1 & Hx2).
    apply list_elem_of_lookup in Hx1 as (j & Hj). destruct (decide (j = i)) as [->|Hji].
    + rewrite list_lookup_insert_eq in Hj by (by eapply lookup_lt_Some). injection Hj as <-. specialize (Hp' Hx2). tauto.
    + rewrite list_lookup_insert_ne in Hj by done. apply Hg'. destruct Hg as [|[|[|[]]]]; [|tauto..]. apply Exists_exists.
      exists x. split; [by eapply list_elem_of_lookup_2|done].
Qed.

(** Threads that change without touching the word: a start of an operation, or a
    return from a wait. *)
Lemma thread_inv k ts i p p' : sys_body False k ts -> ts !! i = Some p -> owns p' = owns p -> incs p' = incs p -> admitted p' = admitted p ->
  releasing p' = releasing p -> pc_ok p' -> parked p' = false -> sys_body False k (<[i := p']> ts).
Proof.
  intros [Hlen Hpcs Hw Hx (q & Hq & Hs & Hg)] Hi E1 E2 E3 E4 Hok Hpk.
  assert (forall f, f p' = f p -> total f (<[i := p']> ts) = total f ts) as Ht by (intros f Ef; rewrite (total_insert f ts i p p' Hi); lia).
  split; rewrite ?length_insert, ?(Ht owns E1), ?(Ht incs E2), ?(Ht admitted E3), ?(Ht releasing E4); try done.
  - by apply Forall_insert.
  - exists q. split; [done|]. split; [done|]. intros Hex. apply Hg. apply Exists_exists in Hex as (x & Hx1 & Hx2).
    apply list_elem_of_lookup in Hx1 as (j & Hj). apply Exists_exists. exists x. split; [|done]. destruct (decide (j = i)) as [->|Hji].
    + rewrite list_lookup_insert_eq in Hj by (by eapply lookup_lt_Some). injection Hj as <-. by rewrite Hpk in Hx2.
    + rewrite list_lookup_insert_ne in Hj by done. by eapply list_elem_of_lookup_2.
Qed.

Lemma wake_class p : owns (wake_pc p) = owns p /\ incs (wake_pc p) = incs p /\ admitted (wake_pc p) = admitted p /\
  releasing (wake_pc p) = releasing p /\ (pc_ok p -> pc_ok (wake_pc p)) /\ parked (wake_pc p) = false.
Proof. destruct p; try done. by destruct w. Qed.

Lemma wake_one_inv k ts i p : sys_body False k ts -> ts !! i = Some p -> sys_body False k (<[i := wake_pc p]> ts).
Proof.
  intros Hb Hi. destruct (wake_class p) as (? & ? & ? & ? & Hok & ?). apply (thread_inv k ts i p); try done.
  apply Hok. pose proof (si_pcs _ _ _ Hb) as Hp. rewrite Forall_lookup in Hp. by apply (Hp i).
Qed.

Lemma wake_all_inv woken k ts : sys_body woken k ts -> sys_body False k (wake_pc <$> ts).
Proof.
  intros [Hlen Hpcs Hw Hx (q & Hq & Hs & Hg)].
  split; rewrite ?length_fmap, ?(total_map _ wake_pc) by apply wake_class; try done.
  - apply Forall_fmap. apply (Forall_impl _ _ _ Hpcs). intros p. apply wake_class.
  - exists q. split; [done|]. split; [done|]. intros Hex. apply Exists_exists in Hex as (x & Hx1 & Hx2).
    apply list_elem_of_fmap in Hx1 as (p & -> & _). destruct (wake_class p) as (_ & _ & _ & _ & _ & E). by rewrite E in Hx2.
Qed.

Lemma waived k ts (P : Prop) : sys_body P k ts -> ~ P -> sys_body False k ts.
Proof.
  intros [Hlen Hpcs Hw Hx (q & Hq & Hs & Hg)] HP. split; try done. exists q. split; [done|]. split; [done|]. intros He. specialize (Hg He). tauto.
Qed.

Lemma begin_class o p q : begin_op o p = Some q -> owns q = owns p /\ incs q = incs p /\ admitted q = admitted p /\
  releasing q = releasing p /\ pc_ok q /\ parked q = false.
Proof. by destruct o, p; intros [= <-]. Qed.

Lemma fire_inv e y y' : sys_inv y -> fire e y = Some y' -> sys_inv y'.
Proof.
  intros Hb. unfold sys_inv in *. destruct e as [i o|i now wf woken|i|b|ns]; cbn [fire].
  - intros (p & Hi & (q & Eq & [= <-])%bind_Some)%bind_Some. destruct (begin_class o p q Eq) as (? & ? & ? & ? & ? & ?). by apply (thread_inv _ _ i p).
  - intros (p & Hi & ([[k q] w] & Ea & (ts & Ew & [= <-])%bind_Some)%bind_Some)%bind_Some.
    pose proof (access_inv now wf _ _ i p k q w Hb Hi Ea) as Hb'. destruct w; cbn [do_wake] in Ew.
    + injection Ew as <-. by apply (waived _ _ _ Hb').
    + apply waived in Hb'; [|done]. destruct woken as [j|].
      * apply bind_Some in Ew as (x & Hj & Ew). destruct (parked x); [|done]. injection Ew as <-. by apply wake_one_inv.
      * destruct (existsb parked _); [done|]. by injection Ew as <-.
    + injection Ew as <-. by apply (wake_all_inv (WakeAll = WakeAll)).
  - intros (p & Hi & E)%bind_Some. destruct (parked p); [|done]. injection E as <-. by apply wake_one_inv.
  - intros [= <-]. destruct Hb. by split.
  - intros [= <-]. destruct Hb. by split.
Qed.

Lemma fire_all_inv es : forall y y', sys_inv y -> fire_all es y = Some y' -> sys_inv y'.
Proof.
  induction es as [|e es IH]; intros y y' Hy; cbn [fire_all]; [by intros [= <-]|].
  intros (y1 & E1 & E2)%bind_Some. apply (IH y1); [by apply (fire_inv e y)|done].
Qed.

Lemma initial_inv n : Z.of_nat n < 2 ^ 30 - 1 -> sys_inv (initial n).
Proof.
  intros Hn. assert (forall f, f Idle = 0 -> total f (replicate n Idle) = 0) as Ht by (intros f Hf; clear Hn; induction n; cbn; lia).
  split; cbn; rewrite ?length_replicate, ?Ht by done; try done; try tauto.
  - by apply Forall_replicate.
  - exists 0. split; [done|]. split; [done|]. intros He. apply Exists_exists in He as (x & Hx1 & Hx2).
    apply elem_of_replicate in Hx1 as [-> _]. done.
Qed.

(** * A stranded writer *)

(** Where threads can be while a starved writer sleeps on a free lock. *)
Definition stranded_pc (timeout : Z) (p : pc) : bool :=
  match p with
  | Idle | ShMode | ShFairCheck | ShAdd | ShUndo | StTimeout _ | FaLoad _ | TryCas | TsAdd | TsUndo | Parked WFair | Parked WLock => true
  | StStart _ t => t =? timeout
  | WaitLoad WFair s | WaitEnter WFair s => has s kWriterWaitFlag
  | _ => false
  end.

Record stranded (start timeout : Z) (y : system) : Prop := {
  st_inv : sys_inv y;
  st_pcs : Forall (fun p => stranded_pc timeout p) (threads y);
  st_wait : has (state_ (lock_ y)) kWriterWaitFlag;
  st_start : writer_wait_start_ns_ (lock_ y) = start;
  st_timeout : writer_starvation_timeout_ns_ (lock_ y) = timeout
}.

(** Events other than a new blocking writer, a spurious wake-up and a change of the
    timeout, after the writer has waited longer than the timeout. *)
Definition patient (start timeout : Z) (e : event) : bool :=
  match e with
  | Begin _ Lock | Spurious _ | SetTimeout _ => false
  | Run _ now _ _ => start + timeout <? now
  | _ => true
  end.

Lemma stranded_access start timeout now wf k p k' p' w r : 0 < start -> 0 < timeout -> start + timeout < now ->
  access now wf k p = Some (k', p', w) -> stranded_pc timeout p -> state_ k = word 0 r 1 -> incs p <= r < 2 ^ 30 - 1 ->
  writer_wait_start_ns_ k = start -> writer_starvation_timeout_ns_ k = timeout ->
  has (state_ k') kWriterWaitFlag /\ stranded_pc timeout p' /\ w = NoWake /\ writer_wait_start_ns_ k' = start /\ writer_starvation_timeout_ns_ k' = timeout.
Proof.
  intros H1 H2 H3 E Hp Hs Hr1 Est Etm. apply Is_true_true in Hp.
  assert (0 <= r < 2 ^ 30) as Hr by (destruct (class_range p) as (_ & ? & _); lia). pose proof (has_writer 0 r 1 ltac:(lia) Hr) as HW.
  pose proof (has_waiting 0 r 1 ltac:(lia) Hr ltac:(lia)) as HQ. cbn in HW, HQ.
  assert (starved now start timeout = true) as Hst.
  { unfold starved. destruct (Z.eqb_spec start 0), (Z.ltb_spec start now), (Z.ltb_spec timeout (now - start)); lia || done. }
  destruct k as [s0 wfair st tmo ev wc tf]. cbn [state_ writer_wait_start_ns_ writer_starvation_timeout_ns_] in *. subst s0 st tmo.
  assert (word 0 r 1 =? 0 = false) as H0 by (apply Z.eqb_neq; unfold word; lia).
  destruct p; try done; try destruct w0; try done; cbn [access state_ writer_fair_ writer_wait_start_ns_ writer_starvation_timeout_ns_] in E;
    unfold spin_or_wait in E; rewrite ?HW, ?HQ, ?H0 in E; cbn [negb] in E.
  all: try match type of Hp with stranded_pc _ (StStart _ _) = true => cbn in Hp; apply Z.eqb_eq in Hp; subst; rewrite Hst in E end.
  all: repeat match type of E with context [if ?b then _ else _] => destruct b eqn:? end; injection E as <- <- <-.
  all: try match goal with a0 : asker |- _ => destruct a0 end.
  all: bool_to_Z; subst; cbn [incs admitted] in Hr1; cbn; rewrite ?word_add, ?word_sub, ?has_waiting, ?Z.eqb_refl by lia; try done; try lia.
Qed.

Lemma stranded_owns timeout ts : Forall (fun p => stranded_pc timeout p) ts -> total owns ts = 0.
Proof.
  induction 1 as [|p ts Hp _ IH]; cbn; [done|]. rewrite IH. by destruct p.
Qed.

Lemma stranded_word start timeout y : stranded start timeout y ->
  state_ (lock_ y) = word 0 (total incs (threads y)) 1 /\ 0 <= total incs (threads y) < 2 ^ 30 - 1.
Proof.
  intros [[Hlen _ _ _ (q & Hq & Hs & _)] Hp Hw _ _]. rewrite (stranded_owns timeout _ Hp) in Hs.
  assert (0 <= total incs (threads y) <= Z.of_nat (length (threads y))) by (apply total_bound; intros x; pose proof (class_range x); lia).
  split; [|lia]. rewrite Hs in Hw. apply Is_true_true in Hw. rewrite has_waiting in Hw by lia. apply Z.eqb_eq in Hw. by subst q.
Qed.

Lemma stranded_fire start timeout e y y' : 0 < start -> 0 < timeout -> stranded start timeout y -> patient start timeout e ->
  fire e y = Some y' -> stranded start timeout y' /\ forall i w, threads y !! i = Some (Parked w) -> threads y' !! i = Some (Parked w).
Proof.
  intros H1 H2 Hst Hpa E. destruct (stranded_word start timeout y Hst) as [Hs Hr]. pose proof Hst as [Hi Hp Hw Hb Ht].
  pose proof (fire_inv e y y' Hi E) as Hi'. rewrite Forall_lookup in Hp.
  assert (forall i p q, threads y !! i = Some p -> parked p = false -> forall j w, threads y !! j = Some (Parked w) ->
    <[i := q]> (threads y) !! j = Some (Parked w)) as Hkeep.
  { intros i p q Hip Hpp j w Hj. rewrite list_lookup_insert_ne; [done|]. intros ->. rewrite Hip in Hj. injection Hj as ->. done. }
  destruct e as [i o|i now wf woken|i|b|ns]; cbn [fire] in E; try done.
  - apply bind_Some in E as (p & Hip & (q & Eq & [= <-])%bind_Some). split; [|apply (Hkeep i p); [done|by destruct o, p]].
    split; try done. apply Forall_insert; [by apply Forall_lookup|]. specialize (Hp i p Hip). destruct o, p; try done; by injection Eq as <-.
  - apply bind_Some in E as (p & Hip & ([[k q] w] & Ea & (ts & Ew & [= <-])%bind_Some)%bind_Some).
    apply Is_true_true, Z.ltb_lt in Hpa. specialize (Hp i p Hip).
    pose proof (total_pos incs (threads y) i p ltac:(intros x; pose proof (class_range x); lia) Hip).
    destruct (stranded_access start timeout now wf _ p k q w _ H1 H2 Hpa Ea Hp Hs ltac:(lia) Hb Ht) as (Hw' & Hq & -> & Hb' & Ht').
    injection Ew as <-. split; [|apply (Hkeep i p); [done|by destruct p]]. split; try done. apply Forall_insert; [|done]. by destruct Hst.
  - injection E as <-. split; [|done]. split; try done. by destruct Hst.
Qed.

Lemma stranded_forever start timeout es : 0 < start -> 0 < timeout -> forall y y', stranded start timeout y ->
  Forall (fun e => patient start timeout e) es -> fire_all es y = Some y' ->
  stranded start timeout y' /\ forall i w, threads y !! i = Some (Parked w) -> threads y' !! i = Some (Parked w).
Proof.
  intros H1 H2. induction es as [|e es IH]; intros y y' Hst Hpa; cbn [fire_all]; [by intros [= <-]|].
  apply Forall_cons in Hpa as [He Hes]. intros (y1 & E1 & E2)%bind_Some.
  destruct (stranded_fire start timeout e y y1 H1 H2 Hst He E1) as [Hst1 Hk1]. destruct (IH y1 y' Hst1 Hes E2) as [Hst2 Hk2]. split; auto.
Qed.

(** * Properties *)

(** C10: under every interleaving of any number of threads below 2^30 - 1, with
    weak compare-exchange failures and spurious wake-ups, no two threads hold the
    write lock, no reader is inside with a writer, and the queries see the
    holders. *)
Theorem spinlock_mutual_exclusion n es y : Z.of_nat n < 2 ^ 30 - 1 -> fire_all es (initial n) = Some y ->
  (forall i j, threads y !! i = Some HoldW -> threads y !! j = Some HoldW -> i = j) /\
  (forall i j, threads y !! i = Some HoldW -> threads y !! j <> Some HoldR) /\
  (forall i, threads y !! i = Some HoldW -> is_locked (lock_ y) = true) /\
  (forall i, threads y !! i = Some HoldR -> is_lock_shared (lock_ y) = true /\ is_locked (lock_ y) = false).
Proof.
  intros Hn E. destruct (fire_all_inv es _ y (initial_inv n Hn) E) as [Hlen _ Hw Hx (q & Hq & Hs & _)].
  assert (forall p, 0 <= owns p <= 1) as C1 by apply class_range.
  assert (forall p, 0 <= incs p <= 1) as C2 by (intros x; pose proof (class_range x); lia).
  assert (forall p, 0 <= admitted p <= 1) as C3 by (intros x; pose proof (class_range x); lia).
  pose proof (total_bound owns (threads y) C1). pose proof (total_bound incs (threads y) C2).
  assert (forall i, threads y !! i = Some HoldW -> total owns (threads y) = 1) as HW by (intros i Hi; pose proof (total_pos owns _ i _ C1 Hi) as Hp; cbn in Hp; lia).
  assert (forall i, threads y !! i = Some HoldR -> total admitted (threads y) <> 0) as HR by (intros i Hi; pose proof (total_pos admitted _ i _ C3 Hi) as Hp; cbn in Hp; lia).
  unfold is_locked, is_lock_shared. rewrite Hs, has_writer by lia. split_and!.
  - intros i j Hi Hj. destruct (decide (i = j)) as [|Hij]; [done|]. pose proof (total_two owns _ i j _ _ Idle C1 eq_refl Hi Hj Hij) as Ht. cbn in Ht. lia.
  - intros i j Hi%HW Hj%HR. lia.
  - intros i ->%HW. done.
  - intros i Hi. pose proof (total_pos incs _ i _ C2 Hi) as Hp. cbn in Hp. pose proof (HR i Hi). split.
    + unfold has. rewrite word_readers by lia. destruct (Z.eqb_spec (2 * total incs (threads y)) 0); [lia|done].
    + apply Z.eqb_neq. lia.
Qed.

(** A parked thread waits for something: a writer is inside or on its way out
    with its wake-up to come, or the wait flag is set; and the last step of a
    writer's release always runs and leaves no thread parked. *)
Theorem spinlock_release_wakes_everyone n es y : Z.of_nat n < 2 ^ 30 - 1 -> fire_all es (initial n) = Some y ->
  (forall i w, threads y !! i = Some (Parked w) ->
     has (state_ (lock_ y)) kWriterWaitFlag = true \/
     exists j p, threads y !! j = Some p /\ p ∈ [HoldW; UnAnd; UnTimer; UnWake]) /\
  (forall j now wf, threads y !! j = Some UnWake ->
     exists y', fire (Run j now wf None) y = Some y' /\ forall i w, threads y' !! i <> Some (Parked w)).
Proof.
  intros Hn E. destruct (fire_all_inv es _ y (initial_inv n Hn) E) as [Hlen _ Hw _ (q & Hq & Hs & Hg)].
  assert (forall p, 0 <= owns p <= 1) as C1 by apply class_range.
  assert (forall p, 0 <= incs p <= 1) as C2 by (intros x; pose proof (class_range x); lia).
  pose proof (total_bound owns (threads y) C1). pose proof (total_bound incs (threads y) C2). split.
  - intros i w Hi. destruct Hg as [Ho|[->|[Hr|[]]]].
    + apply Exists_exists. exists (Parked w). split; [by eapply list_elem_of_lookup_2|done].
    + right. destruct (total_some owns (threads y)) as (j & p & Hj & Hp); [lia|]. exists j, p. split; [done|]. destruct p; cbn in Hp; try lia; rewrite !elem_of_cons; tauto.
    + left. rewrite Hs, has_waiting by lia. done.
    + right. destruct (total_some releasing (threads y)) as (j & p & Hj & Hp); [lia|]. exists j, p. split; [done|]. destruct p; cbn in Hp; try lia; rewrite !elem_of_cons; tauto.
  - intros j now wf Hj. cbn [fire]. rewrite Hj. cbn. eexists. split; [done|]. intros i w. cbn. rewrite list_lookup_fmap.
    destruct (_ !! i) as [p|]; [|done]. cbn. intros [= Ep]. destruct (wake_class p) as (_ & _ & _ & _ & _ & Hp). by rewrite Ep in Hp.
Qed.

(** The steps of the threads 0 (a writer), 1 and 2 (readers). Thread 1 reads; the
    writer queues and parks; thread 2 adds its increment, thread 1 leaves and sees
    two readers, thread 2 finds the writer starved and withdraws. *)
Definition lost_wakeup : list event :=
  let r i now := Run i now false None in
  [Begin 1 LockShared; r 1%nat 1; r 1%nat 1; Begin 0 Lock] ++ replicate 107 (r 0%nat 1) ++
  [Begin 2 TryLockShared; r 2%nat 2; r 2%nat 2; Begin 1 UnlockShared; r 1%nat 3; r 2%nat 200000000; r 2%nat 200000000].

(** In writer-fair mode thread 2 parks behind the queued writer before the writer
    itself parks; when thread 1 leaves, its wake of one waiter picks thread 2, which
    finds the writer still queued and parks again. *)
Definition wrong_wakeup : list event :=
  let r i := Run i 1 false None in
  [SetFairness true; Begin 1 LockShared] ++ replicate 3 (r 1%nat) ++ [Begin 0 Lock] ++ replicate 5 (r 0%nat) ++
  [Begin 2 LockShared] ++ replicate 105 (r 2%nat) ++ replicate 102 (r 0%nat) ++
  [Begin 1 UnlockShared; r 1%nat; Run 1 1 false (Some 2%nat)] ++ replicate 103 (r 2%nat).

(** The run leaves the writer, thread 0, parked on a free lock, and every patient
    continuation leaves it there and lets nobody in. *)
Definition strands (run : list event) (ts : list pc) : Prop :=
  exists y, fire_all run (initial 3) = Some y /\ threads y = ts /\ ts !! 0%nat = Some (Parked WLock) /\
    state_ (lock_ y) = kWriterWaitFlag /\
    forall es y', Forall (fun e => patient 1 100000000 e) es -> fire_all es y = Some y' ->
      threads y' !! 0%nat = Some (Parked WLock) /\ forall i, threads y' !! i <> Some HoldW /\ threads y' !! i <> Some HoldR.

Lemma strands_intro run k ts : fire_all run (initial 3) = Some (System k ts) -> ts !! 0%nat = Some (Parked WLock) ->
  state_ k = kWriterWaitFlag -> writer_wait_start_ns_ k = 1 -> writer_starvation_timeout_ns_ k = 100000000 ->
  Forall (fun p => stranded_pc 100000000 p) ts -> strands run ts.
Proof.
  intros E H0 Hw Hs Ht Hp. exists (System k ts). split; [done|]. split; [done|]. split; [done|]. split; [done|].
  pose proof (fire_all_inv _ _ _ (initial_inv 3 ltac:(lia)) E) as Hi. intros es y' Hpa Ey.
  destruct (stranded_forever 1 100000000 es) with (y := System k ts) (y' := y') as [Hst Hk]; [lia|lia| |done|done|].
  - split; try done. cbn. by rewrite Hw.
  - split; [by apply Hk|]. intros i. destruct Hst as [_ Hp' _ _ _]. rewrite Forall_lookup in Hp'. split; intros Hx; by specialize (Hp' i _ Hx).
Qed.

(** A wake-up is lost in two ways: a reader leaves while a second reader that
    will withdraw has its increment in the word, and the departing reader's wake
    picks a waiting reader instead of the writer. The writer then sleeps on a free
    lock. Until another thread calls [lock], the timeout is changed or the
    operating system wakes the writer on its own, every attempt to take the lock
    fails or blocks. *)
Theorem spinlock_loses_wakeup :
  strands lost_wakeup [Parked WLock; Idle; Idle] /\ strands wrong_wakeup [Parked WLock; Idle; Parked WFair].
Proof.
  split; (eapply strands_intro; [vm_compute; reflexivity|reflexivity..|by repeat constructor]).
Qed.

(** * Witnesses *)

Lemma spinlock_mutual_exclusion_witness : exists y,
  fire_all [Begin 0 Lock; Run 0 0 false None] (initial 2) = Some y /\ threads y !! 1%nat <> Some HoldR /\ is_locked (lock_ y) = true.
Proof.
  destruct (fire_all [Begin 0 Lock; Run 0 0 false None] (initial 2)) as [y|] eqn:E; [|vm_compute in E; discriminate].
  destruct (spinlock_mutual_exclusion 2 [Begin 0 Lock; Run 0 0 false None] y ltac:(lia) E) as (_ & H1 & H2 & _).
  vm_compute in E. injection E as <-. eexists. split; [reflexivity|]. split; [by apply (H1 0%nat)|by apply (H2 0%nat)].
Defined.

(** Thread 0 writes, thread 1 parks behind it, thread 0 leaves up to its wake-up. *)
Definition release_run : list event :=
  let r i := Run i 1 false None in
  [Begin 0 Lock; r 0%nat; Begin 1 LockShared] ++ replicate 106 (r 1%nat) ++ [Begin 0 Unlock; r 0%nat; r 0%nat].

Lemma spinlock_release_wakes_everyone_witness : exists y y', fire_all release_run (initial 2) = Some y /\ threads y = [UnWake; Parked WSlow] /\
  fire (Run 0 1 false None) y = Some y' /\ forall i w, threads y' !! i <> Some (Parked w).
Proof.
  destruct (fire_all release_run (initial 2)) as [y|] eqn:E; [|vm_compute in E; discriminate].
  destruct (spinlock_release_wakes_everyone 2 release_run y ltac:(lia) E) as [_ Hw]. specialize (Hw 0%nat 1 false).
  exists y. vm_compute in E. injection E as <-. destruct Hw as (y' & E' & Hp); [reflexivity|]. exists y'. by split_and!.
Defined.
