(* ===== verification/CompactCache.v ===== *)
(** The compact cache (compact_cache.hpp): slots from a block allocator, a recency
    list and a map, with the rollback of insertions that throw. The list is the
    sequence that the intrusive list refines; the third-party map is a finite map
    with a load factor. [None] is a failed assertion or a bad pointer. *)

From Stdlib Require Import SpecFloat.
From S2P Require Import Prelude IntrusiveList ListRefine.

(** * State *)

(** [npos] is [unlimited], the largest [size_t]. *)
Definition npos : Z := U64_MAX.
Definition kSlotsPerBlock : nat := 4096.

(** What a throwing insertion threw; a throwing assignment to an existing value
    and a failing block allocation are not modelled. *)
Inductive fault := KeyThrows | ValueThrows | MapThrows.
Inductive outcome := Done | LogicError | Threw (f : fault).

Section cache.
Context {Key Value : Type} `{Countable Key}.
(** [sizeof(slot_type)], and the load factor of the third-party map. *)
Context (slot_size : Z) (map_load_factor : gmap Key loc -> spec_float).

(** A slot; [contents] is the constructed key and value, if any. *)
Record compact_slot := CompactSlot {
  contents : option (Key * Value);
  occupied : bool;
  update_time : Z;
  accessed : bool
}.

(** [compact_slot_allocator] *)
Record allocator := Allocator {
  free_list_ : list loc;
  total_slots_ : nat;
  used_slots_ : Z
}.

(** The collected callbacks, oldest first. *)
Inductive cb_event :=
| EvInsert (k : Key) (v : Value)
| EvEvict (k : Key) (v : Value)
| EvHit (k : Key) (v : Value)
| EvMiss (k : Key).

(** The counters of the statistics that the cache changes, with the overload
    counter of the cache. *)
Record cache_stats := CacheStats {
  st_current_size : Z;
  st_current_memory : Z;
  st_max_size : Z;
  st_insertions : Z;
  st_evictions : Z;
  st_hits : Z;
  st_misses : Z;
  hash_overload_events_ : Z;
  st_max_memory : Z
}.

Record compact_cache := CompactCache {
  slots_ : gmap loc compact_slot;
  lru_list_ : list loc;
  map_ : gmap Key loc;
  allocator_ : allocator;
  current_memory_ : Z;
  stats_ : cache_stats;
  log_ : list cb_event;
  max_size_ : Z;
  max_memory_ : Z;
  refresh_time_ : Z;
  shutdown_ : bool;
  hash_overload_threshold_ : spec_float
}.
Implicit Types (c : compact_cache) (p : loc).

(** Updates of the parts of the state. *)
Definition set_slots (f : gmap loc compact_slot -> gmap loc compact_slot) c : compact_cache :=
  CompactCache (f (slots_ c)) (lru_list_ c) (map_ c) (allocator_ c) (current_memory_ c) (stats_ c) (log_ c)
    (max_size_ c) (max_memory_ c) (refresh_time_ c) (shutdown_ c) (hash_overload_threshold_ c).
Definition set_lru (l : list loc) c : compact_cache :=
  CompactCache (slots_ c) l (map_ c) (allocator_ c) (current_memory_ c) (stats_ c) (log_ c)
    (max_size_ c) (max_memory_ c) (refresh_time_ c) (shutdown_ c) (hash_overload_threshold_ c).
Definition set_map (m : gmap Key loc) c : compact_cache :=
  CompactCache (slots_ c) (lru_list_ c) m (allocator_ c) (current_memory_ c) (stats_ c) (log_ c)
    (max_size_ c) (max_memory_ c) (refresh_time_ c) (shutdown_ c) (hash_overload_threshold_ c).
Definition set_allocator (a : allocator) c : compact_cache :=
  CompactCache (slots_ c) (lru_list_ c) (map_ c) a (current_memory_ c) (stats_ c) (log_ c)
    (max_size_ c) (max_memory_ c) (refresh_time_ c) (shutdown_ c) (hash_overload_threshold_ c).
Definition set_memory (m : Z) c : compact_cache :=
  CompactCache (slots_ c) (lru_list_ c) (map_ c) (allocator_ c) m (stats_ c) (log_ c)
    (max_size_ c) (max_memory_ c) (refresh_time_ c) (shutdown_ c) (hash_overload_threshold_ c).
Definition set_stats (f : cache_stats -> cache_stats) c : compact_cache :=
  CompactCache (slots_ c) (lru_list_ c) (map_ c) (allocator_ c) (current_memory_ c) (f (stats_ c)) (log_ c)
    (max_size_ c) (max_memory_ c) (refresh_time_ c) (shutdown_ c) (hash_overload_threshold_ c).
Definition collect (e : cb_event) c : compact_cache :=
  CompactCache (slots_ c) (lru_list_ c) (map_ c) (allocator_ c) (current_memory_ c) (stats_ c) (log_ c ++ [e])
    (max_size_ c) (max_memory_ c) (refresh_time_ c) (shutdown_ c) (hash_overload_threshold_ c).
Definition set_settings (ms mm rt : Z) (sd : bool) (th : spec_float) c : compact_cache :=
  CompactCache (slots_ c) (lru_list_ c) (map_ c) (allocator_ c) (current_memory_ c) (stats_ c) (log_ c) ms mm rt sd th.

Definition store_size (n : Z) (s : cache_stats) : cache_stats :=
  CacheStats n (st_current_memory s) (st_max_size s) (st_insertions s) (st_evictions s) (st_hits s) (st_misses s) (hash_overload_events_ s) (st_max_memory s).
Definition store_memory (n : Z) (s : cache_stats) : cache_stats :=
  CacheStats (st_current_size s) n (st_max_size s) (st_insertions s) (st_evictions s) (st_hits s) (st_misses s) (hash_overload_events_ s) (st_max_memory s).
Definition store_max_size (n : Z) (s : cache_stats) : cache_stats :=
  CacheStats (st_current_size s) (st_current_memory s) n (st_insertions s) (st_evictions s) (st_hits s) (st_misses s) (hash_overload_events_ s) (st_max_memory s).
Definition count_events (ins ev hit miss ov : Z) (s : cache_stats) : cache_stats :=
  CacheStats (st_current_size s) (st_current_memory s) (st_max_size s) (u64 (st_insertions s + ins)) (u64 (st_evictions s + ev))
    (u64 (st_hits s + hit)) (u64 (st_misses s + miss)) (u64 (hash_overload_events_ s + ov)) (st_max_memory s).

(** * The allocator *)

Definition blank : compact_slot := CompactSlot None false 0 false.

(** The addresses of a new block; it is filled with unoccupied slots. *)
Definition block_slots (total : nat) : list loc := Pos.of_succ_nat <$> seq total kSlotsPerBlock.

Definition allocate_block c : compact_cache :=
  let a := allocator_ c in
  let block := block_slots (total_slots_ a) in
  set_slots (fun sl => foldr (fun p sl => <[p := blank]> sl) sl block)
    (set_allocator (Allocator (free_list_ a ++ block) (total_slots_ a + kSlotsPerBlock) (used_slots_ a)) c).

Fixpoint reserve_loop (fuel : nat) (count : Z) c : option compact_cache :=
  if Z.of_nat (total_slots_ (allocator_ c)) <? count then
    match fuel with
    | O => None
    | S fuel => reserve_loop fuel count (allocate_block c)
    end
  else Some c.
Definition reserve (count : Z) c : option compact_cache := reserve_loop (Z.to_nat count) count c.

Definition allocate c : option (loc * compact_cache) :=
  let c := if bool_decide (free_list_ (allocator_ c) = []) then allocate_block c else c in
  let a := allocator_ c in
  p ← last (free_list_ a);
  sl ← slots_ c !! p;
  Some (p, set_slots <[p := CompactSlot (contents sl) false 0 false]>
         (set_allocator (Allocator (reverse (tail (reverse (free_list_ a)))) (total_slots_ a) (u64 (used_slots_ a + 1))) c)).

Definition deallocate p c : option compact_cache :=
  sl ← slots_ c !! p;
  let c := if occupied sl then set_slots <[p := CompactSlot None false (update_time sl) (accessed sl)]> c else c in
  let a := allocator_ c in
  Some (set_allocator (Allocator (free_list_ a ++ [p]) (total_slots_ a) (u64 (used_slots_ a - 1))) c).

(** The destructors of the key and value run: the slot must hold them. *)
Definition destroy p c : option compact_cache :=
  sl ← slots_ c !! p;
  _ ← contents sl;
  Some (set_slots <[p := CompactSlot None false (update_time sl) (accessed sl)]> c).

(** * Helpers *)

Definition size_unlocked c : Z := Z.of_nat (size (map_ c)).
Definition calc_item_memory : Z := slot_size.
Definition should_evict_memory c : bool := negb (max_memory_ c =? npos) && (max_memory_ c <? current_memory_ c).

Definition list_do (o : list_op) c : option compact_cache :=
  '(_, l) ← spec_op o (lru_list_ c); Some (set_lru l c).

Definition record_access (now : Z) p c : option compact_cache :=
  sl ← slots_ c !! p;
  if now <? wrap 32 (update_time sl + refresh_time_ c) then Some c
  else
    c ← list_do (MoveToHead p) c;
    Some (set_slots <[p := CompactSlot (contents sl) (occupied sl) now true]> c).

Definition erase_slot (key : Key) c : option compact_cache :=
  p ← map_ c !! key;
  sl ← slots_ c !! p;
  '(k, v) ← contents sl;
  let c := set_memory (u64 (current_memory_ c - calc_item_memory)) c in
  let c := set_stats (store_memory (current_memory_ c)) c in
  let c := collect (EvEvict k v) c in
  c ← destroy p c;
  c ← list_do (Remove p) c;
  let c := set_map (delete key (map_ c)) c in
  c ← deallocate p c;
  Some (set_stats (store_size (size_unlocked c)) c).

Definition evict_lru c : option compact_cache :=
  match last (lru_list_ c) with
  | None => Some c
  | Some victim =>
      sl ← slots_ c !! victim;
      '(k, _) ← contents sl;
      _ ← map_ c !! k;
      c ← erase_slot k c;
      Some (set_stats (count_events 0 1 0 0 0) c)
  end.

Definition destroy_slot p c : option compact_cache := c ← destroy p c; deallocate p c.

(** [check_hash_overload_locked]; the user's callback is not modelled. *)
Definition check_hash_overload_locked c : compact_cache :=
  let threshold := hash_overload_threshold_ c in
  if SFleb threshold (S754_zero false) then c
  else if SFleb (map_load_factor (map_ c)) threshold then c
  else set_stats (count_events 0 0 0 0 1) c.

(** [while (size_unlocked() >= max_size_ && max_size_ != npos)] *)
Fixpoint evict_for_size (fuel : nat) c : option compact_cache :=
  if (max_size_ c <=? size_unlocked c) && negb (max_size_ c =? npos) then
    match fuel with
    | O => None
    | S fuel =>
        let before := size_unlocked c in
        c ← evict_lru c;
        if before <=? size_unlocked c then Some c else evict_for_size fuel c
    end
  else Some c.

(** [while (should_evict_memory() && !map_.empty())] *)
Fixpoint evict_for_memory (fuel : nat) c : option compact_cache :=
  if should_evict_memory c && negb (size_unlocked c =? 0) then
    match fuel with
    | O => None
    | S fuel => c ← evict_lru c; evict_for_memory fuel c
    end
  else Some c.

(** [while (size_unlocked() > max_size_ && max_size_ != npos)] *)
Fixpoint shrink_loop (fuel : nat) c : option compact_cache :=
  if (max_size_ c <? size_unlocked c) && negb (max_size_ c =? npos) then
    match fuel with
    | O => None
    | S fuel => c ← evict_lru c; shrink_loop fuel c
    end
  else Some c.
Definition shrink_to_fit_unlocked c : option compact_cache := shrink_loop (length (lru_list_ c)) c.

(** Construction of the new slot, with the rollback of every throwing step. *)
Definition construct (now : Z) (key : Key) (value : Value) (fl : option fault) c : option (outcome * compact_cache) :=
  '(p, c) ← allocate c;
  match fl with
  | Some KeyThrows | Some ValueThrows =>
      c ← deallocate p c; Some (match fl with Some f => Threw f | None => Done end, c)
  | _ =>
      let c := set_slots <[p := CompactSlot (Some (key, value)) true now false]> c in
      match fl with
      | Some MapThrows => c ← destroy p c; c ← deallocate p c; Some (Threw MapThrows, c)
      | _ =>
          let c := set_map (<[key := p]> (map_ c)) c in
          c ← list_do (LinkAtHead p) c;
          let c := set_stats (store_size (size_unlocked c)) c in
          let c := set_memory (u64 (current_memory_ c + calc_item_memory)) c in
          let c := set_stats (store_memory (current_memory_ c)) c in
          let c := set_stats (count_events 1 0 0 0 0) c in
          let c := collect (EvInsert key value) c in
          Some (Done, check_hash_overload_locked c)
      end
  end.

(** [set_unlocked], the body of [set] and [add]. *)
Definition set_unlocked (now : Z) (key : Key) (value : Value) (fl : option fault) c : option (outcome * compact_cache) :=
  match map_ c !! key with
  | Some p =>
      sl ← slots_ c !! p;
      '(k, _) ← contents sl;
      let c := set_slots <[p := CompactSlot (Some (k, value)) (occupied sl) (update_time sl) (accessed sl)]> c in
      c ← record_access now p c;
      Some (Done, c)
  | None =>
      if max_size_ c =? 0 then Some (Done, c)
      else
        let fuel := length (lru_list_ c) in
        c ← evict_for_size fuel c;
        c ← evict_for_memory fuel c;
        construct now key value fl c
  end.

(** * The interface *)

Definition set (now : Z) (key : Key) (value : Value) (fl : option fault) c : option (outcome * compact_cache) :=
  if shutdown_ c then Some (LogicError, c) else set_unlocked now key value fl c.

Definition add (now : Z) (key : Key) (value : Value) (fl : option fault) c : option (outcome * bool * compact_cache) :=
  if shutdown_ c then Some (LogicError, false, c)
  else if bool_decide (is_Some (map_ c !! key)) then Some (Done, false, c)
  else '(o, c) ← set_unlocked now key value fl c; Some (o, match o with Done => true | _ => false end, c).

Definition get (now : Z) (key : Key) c : option (option Value * compact_cache) :=
  match map_ c !! key with
  | None => Some (None, collect (EvMiss key) (set_stats (count_events 0 0 0 1 0) c))
  | Some p =>
      c ← record_access now p c;
      sl ← slots_ c !! p;
      '(_, v) ← contents sl;
      Some (Some v, collect (EvHit key v) (set_stats (count_events 0 0 1 0 0) c))
  end.

Definition peek (key : Key) c : option (option Value) :=
  match map_ c !! key with
  | None => Some None
  | Some p => sl ← slots_ c !! p; '(_, v) ← contents sl; Some (Some v)
  end.

Definition del (key : Key) c : option (outcome * bool * compact_cache) :=
  if shutdown_ c then Some (LogicError, false, c)
  else
    match map_ c !! key with
    | None => Some (Done, false, c)
    | Some _ => c ← erase_slot key c; Some (Done, true, c)
    end.

Definition contains (key : Key) c : bool := bool_decide (is_Some (map_ c !! key)).

(** [while (auto* slot = lru_list_.pop_tail()) destroy_slot(slot);] *)
Fixpoint drain (fuel : nat) c : option compact_cache :=
  '(r, l) ← spec_op PopTail (lru_list_ c);
  match r, fuel with
  | None, _ => Some c
  | Some _, O => None
  | Some p, S fuel => c ← destroy_slot p (set_lru l c); drain fuel c
  end.

Definition flush c : option (outcome * compact_cache) :=
  if shutdown_ c then Some (LogicError, c)
  else
    c ← drain (length (lru_list_ c)) c;
    let c := set_memory 0 (set_map ∅ c) in
    Some (Done, set_stats (store_memory 0) (set_stats (store_size 0) c)).

Definition set_max_size (new_max : Z) c : option compact_cache :=
  let c := set_settings new_max (max_memory_ c) (refresh_time_ c) (shutdown_ c) (hash_overload_threshold_ c) c in
  shrink_to_fit_unlocked (set_stats (store_max_size new_max) c).
Definition set_refresh_time (seconds : Z) c : compact_cache :=
  set_settings (max_size_ c) (max_memory_ c) seconds (shutdown_ c) (hash_overload_threshold_ c) c.
Definition shutdown c : compact_cache :=
  set_settings (max_size_ c) (max_memory_ c) (refresh_time_ c) true (hash_overload_threshold_ c) c.
Definition set_hash_overload_threshold (th : spec_float) c : compact_cache :=
  set_settings (max_size_ c) (max_memory_ c) (refresh_time_ c) (shutdown_ c) th c.

(** [compact_cache(max_size, max_memory)] *)
Definition compact_cache_new (max_size max_memory : Z) : option compact_cache :=
  reserve (Z.min max_size 4096)
    (CompactCache ∅ [] ∅ (Allocator [] 0 0) 0 (CacheStats 0 0 max_size 0 0 0 0 0 max_memory) [] max_size max_memory 60 false
       (S754_finite false 8388608 (-22))).

End cache.

#[global] Arguments compact_cache _ _ {_ _}.
#[global] Arguments cb_event : clear implicits.

(** * The specification *)

(** A list of entries, most recent first, with the time of their last promotion. *)
Section spec.
Context {Key Value : Type} `{Countable Key}.
Context (slot_size : Z).

Definition ent : Type := Key * Value * Z.
Definition ekey (e : ent) : Key := e.1.1.
Implicit Types (l : list ent).

Record spec := Spec {
  ents : list ent;
  slog : list (cb_event Key Value);
  smax : Z;
  smemory : Z;
  srefresh : Z;
  sshut : bool
}.

Definition with_ents l log (a : spec) : spec := Spec l log (smax a) (smemory a) (srefresh a) (sshut a).

Fixpoint s_find (k : Key) l : option (Value * Z) :=
  match l with
  | [] => None
  | (k', v, t) :: l => if decide (k' = k) then Some (v, t) else s_find k l
  end.
Definition s_without (k : Key) l : list ent := filter (fun e => ekey e <> k) l.
Definition s_assign (k : Key) (v : Value) l : list ent := (fun e => if decide (ekey e = k) then (k, v, e.2) else e) <$> l.

(** A promotion that is due moves the entry to the front. *)
Definition s_touch (now refresh : Z) (k : Key) l : list ent :=
  match s_find k l with
  | Some (v, t) => if now <? wrap 32 (t + refresh) then l else (k, v, now) :: s_without k l
  | None => l
  end.

(** The least recent entries leave, oldest first, until [n] are left. *)
Definition evictions l : list (cb_event Key Value) := (fun e => EvEvict (ekey e) e.1.2) <$> reverse l.
Definition evict_to (n : nat) (a : spec) : spec := with_ents (take n (ents a)) (slog a ++ evictions (drop n (ents a))) a.

(** The entries that fit the memory limit. *)
Fixpoint memory_keep (limit : Z) (n : nat) : nat :=
  match n with
  | O => O
  | S n' => if negb (limit =? npos) && (limit <? u64 (slot_size * Z.of_nat n)) then memory_keep limit n' else n
  end.

Definition room (n : Z) (a : spec) : nat := if smax a =? npos then length (ents a) else Z.to_nat n.

Definition s_make_room (a : spec) : spec :=
  let a := evict_to (room (smax a - 1) a) a in
  evict_to (memory_keep (smemory a) (length (ents a))) a.

Definition s_set (now : Z) (k : Key) (v : Value) (fl : option fault) (a : spec) : outcome * spec :=
  match s_find k (ents a) with
  | Some _ => (Done, with_ents (s_touch now (srefresh a) k (s_assign k v (ents a))) (slog a) a)
  | None =>
      if smax a =? 0 then (Done, a)
      else
        let a := s_make_room a in
        match fl with
        | Some f => (Threw f, a)
        | None => (Done, with_ents ((k, v, now) :: ents a) (slog a ++ [EvInsert k v]) a)
        end
  end.

End spec.
#[global] Arguments ent : clear implicits.
#[global] Arguments spec : clear implicits.
