(* ===== verification/CompactRefine.v ===== *)
(** The compact cache refines its specification: the slots, the map and the block
    allocator implement a list of entries in recency order. *)

From Stdlib Require Import SpecFloat.
From S2P Require Import Prelude IntrusiveList ListRefine CompactCache.

Section refine.
Context {Key Value : Type} `{Countable Key} (slot_size : Z) (map_load_factor : gmap Key loc -> spec_float).
Abbreviation cache := (compact_cache Key Value).
Abbreviation row := (loc * ent Key Value)%type.
Abbreviation rkey r := (ekey r.2).
Implicit Types (c : cache) (a : spec Key Value) (rows : list row) (k : Key) (v : Value).

(** * The relation *)

(** The slot of a row holds its entry. *)
Definition holds_row (sl : gmap loc compact_slot) (r : row) : Prop :=
  exists acc, sl !! r.1 = Some (CompactSlot (Some (ekey r.2, r.2.1.2)) true r.2.2 acc).

(** Slots in use and slots on the free list. *)
Record slots_ok c rows : Prop := {
  so_rows : Forall (holds_row (slots_ c)) rows;
  so_locs : NoDup (rows.*1 ++ free_list_ (allocator_ c));
  so_free : forall p, p ∈ free_list_ (allocator_ c) -> exists t acc, slots_ c !! p = Some (CompactSlot None false t acc);
  so_total : (length rows + length (free_list_ (allocator_ c)) = total_slots_ (allocator_ c))%nat;
  so_addr : forall p, p ∈ rows.*1 ++ free_list_ (allocator_ c) -> (Pos.to_nat p <= total_slots_ (allocator_ c))%nat;
  so_used : used_slots_ (allocator_ c) = u64 (Z.of_nat (length rows))
}.

(** The map points every key to its slot. *)
Record map_ok (m : gmap Key loc) rows : Prop := {
  mo_keys : NoDup ((fun r => rkey r) <$> rows);
  mo_map : forall k p, m !! k = Some p <-> exists r, r ∈ rows /\ r.1 = p /\ rkey r = k;
  mo_size : size m = length rows
}.

Record refines c a rows : Prop := {
  rf_lru : lru_list_ c = rows.*1;
  rf_ents : ents a = rows.*2;
  rf_slots : slots_ok c rows;
  rf_map : map_ok (map_ c) rows;
  rf_memory : current_memory_ c = u64 (slot_size * Z.of_nat (length rows));
  rf_stats : st_current_size (stats_ c) = Z.of_nat (length rows) /\ st_current_memory (stats_ c) = current_memory_ c;
  rf_log : log_ c = slog a;
  rf_settings : max_size_ c = smax a /\ max_memory_ c = smemory a /\ refresh_time_ c = srefresh a /\ shutdown_ c = sshut a
}.

(** * Rows *)

Lemma row_unique rows r r' : NoDup (rows.*1) -> r ∈ rows -> r' ∈ rows -> r.1 = r'.1 -> r = r'.
Proof.
  intros Hnd [i Hi]%list_elem_of_lookup [j Hj]%list_elem_of_lookup E.
  assert (i = j) as ->; [|congruence].
  apply (NoDup_lookup _ i j r.1 Hnd); rewrite list_lookup_fmap; [by rewrite Hi|rewrite Hj; cbn; congruence].
Qed.

Lemma find_row rows r : NoDup ((fun r => rkey r) <$> rows) -> r ∈ rows -> s_find (rkey r) (rows.*2) = Some (r.2.1.2, r.2.2).
Proof.
  intros Hnd Hr. induction rows as [|[q [[k v] t]] rows IH]; [by apply not_elem_of_nil in Hr|]. cbn in *. apply NoDup_cons in Hnd as [Hk Hnd].
  apply elem_of_cons in Hr as [->|Hr]; [cbn; by rewrite decide_True|].
  rewrite decide_False; [by apply IH|]. intros ->. apply Hk. apply (list_elem_of_fmap_2 (fun r => rkey r)) in Hr. done.
Qed.

Lemma find_none rows k : (forall r, r ∈ rows -> rkey r <> k) -> s_find k (rows.*2) = None.
Proof.
  induction rows as [|[q [[k' v] t]] rows IH]; intros Hr; [done|]. cbn. rewrite decide_False; [apply IH|].
  - intros r Hin. apply Hr. by right.
  - apply (Hr (q, (k', v, t))). left.
Qed.

(** Removing a row: by its slot in the list, by its key in the entries. *)
Definition drop_row (p : loc) rows : list row := filter (fun r => r.1 <> p) rows.

Lemma drop_row_locs p rows : (drop_row p rows).*1 = without p (rows.*1).
Proof. unfold drop_row, without. induction rows as [|r rows IH]; [done|]. rewrite filter_cons, fmap_cons, filter_cons. by destruct (decide (r.1 <> p)); cbn; rewrite IH. Qed.

(** A row is known by its slot and by its key. *)
Lemma loc_key rows r : NoDup (rows.*1) -> NoDup ((fun r => rkey r) <$> rows) -> r ∈ rows ->
  forall x, x ∈ rows -> (x.1 <> r.1 <-> rkey x <> rkey r).
Proof.
  intros Hl Hk Hr x Hx. split; intros Hne E; apply Hne.
  - apply list_elem_of_lookup in Hx as [i Hi], Hr as [j Hj]. assert (i = j) as ->; [|congruence].
    apply (NoDup_lookup _ i j (rkey r) Hk); rewrite list_lookup_fmap; [by rewrite Hi; cbn; f_equal|by rewrite Hj].
  - by rewrite (row_unique rows x r Hl Hx Hr E).
Qed.

Lemma drop_row_ents r rows : NoDup (rows.*1) -> NoDup ((fun r => rkey r) <$> rows) -> r ∈ rows ->
  (drop_row r.1 rows).*2 = s_without (rkey r) (rows.*2).
Proof.
  intros Hl Hk Hr. unfold drop_row, s_without. pose proof (loc_key rows r Hl Hk Hr) as Heq.
  clear Hl Hk Hr. induction rows as [|x rows IH]; [done|]. rewrite filter_cons, fmap_cons, filter_cons.
  assert (forall y, y ∈ rows -> (y.1 <> r.1 <-> rkey y <> rkey r)) as Heq' by (intros y Hy; apply Heq; by right).
  specialize (Heq x ltac:(left)). destruct (decide (x.1 <> r.1)), (decide (rkey x <> rkey r)); try tauto; cbn; by rewrite IH.
Qed.

Lemma elem_of_drop_row p rows r : r ∈ drop_row p rows <-> r.1 <> p /\ r ∈ rows.
Proof. unfold drop_row. by rewrite list_elem_of_filter. Qed.

Lemma drop_row_perm r rows : NoDup (rows.*1) -> r ∈ rows -> rows ≡ₚ r :: drop_row r.1 rows.
Proof.
  intros Hnd Hr. apply list_elem_of_split in Hr as (r1 & r2 & ->). rewrite fmap_app, fmap_cons in Hnd.
  apply NoDup_app_mid in Hnd as (H1 & H2 & _). unfold drop_row. rewrite filter_app, filter_cons_False by tauto.
  rewrite !filter_all; [by rewrite Permutation_middle|..]; intros x Hx E.
  - apply H2. rewrite <- E. by apply list_elem_of_fmap_2.
  - apply H1. rewrite <- E. by apply list_elem_of_fmap_2.
Qed.

(** Where a key is. *)
Lemma map_row c rows k p : map_ok (map_ c) rows -> map_ c !! k = Some p -> exists r, r ∈ rows /\ r.1 = p /\ rkey r = k.
Proof. intros Hm. apply (mo_map _ _ Hm). Qed.

Lemma locs_nodup c rows : slots_ok c rows -> NoDup (rows.*1).
Proof. intros Hs. by apply so_locs, NoDup_app in Hs as (? & _). Qed.

Lemma row_slot c rows r : slots_ok c rows -> r ∈ rows -> holds_row (slots_ c) r.
Proof. intros Hs. apply Forall_forall, Hs. Qed.

(** Slots of other rows do not change. *)
Lemma holds_other sl p x rows : Forall (holds_row sl) rows -> p ∉ rows.*1 -> Forall (holds_row (<[p := x]> sl)) rows.
Proof.
  intros Hf Hp. apply Forall_forall. intros r Hin. destruct (proj1 (Forall_forall _ _) Hf r Hin) as [acc Hr].
  exists acc. rewrite lookup_insert_ne; [done|]. intros ->. apply Hp. by apply list_elem_of_fmap_2.
Qed.

Lemma drop_row_notin p rows : p ∉ (drop_row p rows).*1.
Proof. intros (r & -> & [Hr _]%elem_of_drop_row)%list_elem_of_fmap. done. Qed.

Lemma drop_row_sub p rows : Forall (fun r => r ∈ rows) (drop_row p rows).
Proof. apply Forall_forall. by intros r [_ ?]%elem_of_drop_row. Qed.

Lemma forall_drop (P : row -> Prop) p rows : Forall P rows -> Forall P (drop_row p rows).
Proof. intros HP. apply Forall_forall. intros r [_ Hr]%elem_of_drop_row. by apply (proj1 (Forall_forall _ _) HP). Qed.

(** * The map *)

Lemma map_ok_perm m rows rows' : rows ≡ₚ rows' -> map_ok m rows -> map_ok m rows'.
Proof.
  intros Hp [Hk Hm Hs]. split.
  - by rewrite <- Hp.
  - intros k p. rewrite Hm. by setoid_rewrite Hp.
  - by rewrite <- Hp.
Qed.

Lemma map_ok_delete m rows r : map_ok m (r :: rows) -> map_ok (delete (rkey r) m) rows.
Proof.
  intros [Hk Hm Hs]. cbn in Hk. apply NoDup_cons in Hk as [Hr Hk]. split; [done|..].
  - intros k p. destruct (decide (k = rkey r)) as [->|Hne].
    + rewrite lookup_delete_eq. split; [done|]. intros (x & Hx & _ & E). exfalso. apply Hr. rewrite <- E. by apply (list_elem_of_fmap_2 (fun r => rkey r)).
    + rewrite lookup_delete_ne, Hm by done. split; intros (x & Hx & E1 & E2); exists x; (split; [|done]); [|by right].
      apply elem_of_cons in Hx as [->|]; [by destruct Hne|done].
  - rewrite map_size_delete. assert (is_Some (m !! rkey r)) as [p Hp] by (exists r.1; apply Hm; exists r; split; [left|done]).
    rewrite Hp, Hs. cbn. lia.
Qed.

Lemma map_ok_insert m rows r : map_ok m rows -> m !! rkey r = None -> map_ok (<[rkey r := r.1]> m) (r :: rows).
Proof.
  intros [Hk Hm Hs] Hn. assert (forall x, x ∈ rows -> rkey x <> rkey r) as Hno.
  { intros x Hx E. assert (m !! rkey r = Some x.1) by (apply Hm; by exists x). congruence. }
  split.
  - cbn. apply NoDup_cons. split; [|done]. intros (x & E & Hx)%list_elem_of_fmap. by apply (Hno x).
  - intros k p. destruct (decide (k = rkey r)) as [->|Hne].
    + rewrite lookup_insert_eq. split; [intros [= <-]; exists r; split; [left|done]|]. intros (x & Hx & <- & E).
      apply elem_of_cons in Hx as [->|Hx]; [done|]. by destruct (Hno x Hx).
    + rewrite lookup_insert_ne, Hm by done. split; intros (x & Hx & E1 & E2); exists x; (split; [|done]); [by right|].
      apply elem_of_cons in Hx as [->|]; [by destruct Hne|done].
  - rewrite map_size_insert_None by done. cbn. by rewrite Hs.
Qed.

(** * Promotion *)

Lemma record_access_ok now c a rows r : refines c a rows -> r ∈ rows ->
  exists c' rows', record_access now r.1 c = Some c' /\
    refines c' (with_ents (s_touch now (srefresh a) (rkey r) (ents a)) (slog a) a) rows' /\
    map_ c' = map_ c /\ exists t', (r.1, (rkey r, r.2.1.2, t')) ∈ rows'.
Proof.
  intros R Hr. pose proof R as [Hl He Hs Hm Hmem Hst Hlog Hset]. destruct (row_slot c rows r Hs Hr) as [acc Hsl].
  unfold record_access. rewrite Hsl. cbn [mbind option_bind update_time]. destruct Hset as (E1 & E2 & E3 & E4). rewrite E3.
  unfold s_touch. rewrite He, (find_row rows r (mo_keys _ _ Hm) Hr). destruct (now <? wrap 32 (r.2.2 + srefresh a)).
  - exists c, rows. split; [done|]. split; [by destruct a|]. split; [done|]. exists r.2.2. by destruct r as [p [[k v] t]].
  - pose proof (locs_nodup c rows Hs) as Hnd. unfold list_do. cbn [spec_op]. rewrite bool_decide_true by (rewrite Hl; by apply list_elem_of_fmap_2).
    cbn [mbind option_bind]. set (r' := (r.1, (rkey r, r.2.1.2, now)) : row). eexists _, (r' :: drop_row r.1 rows). split; [done|].
    pose proof (drop_row_perm r rows Hnd Hr) as Hperm.
    split; [|split; [done|exists now; left]]. destruct Hs as [Hrows Hlocs Hfree Htot Haddr Hused].
    assert (r.1 ∉ free_list_ (allocator_ c)) as Hnf.
    { apply NoDup_app in Hlocs as (_ & Hd & _). apply Hd. by apply list_elem_of_fmap_2. }
    assert ((r' :: drop_row r.1 rows).*1 ≡ₚ rows.*1) as Hpl by (symmetry; exact (fmap_Permutation fst _ _ Hperm)).
    assert (length (r' :: drop_row r.1 rows) = length rows) as Hlen by (apply Permutation_length in Hpl; by rewrite !length_fmap in Hpl).
    split; rewrite ?Hlen; try done.
    + cbn. by rewrite drop_row_locs, Hl.
    + cbn. by rewrite (drop_row_ents r rows Hnd (mo_keys _ _ Hm) Hr).
    + split; cbn [slots_ set_slots set_lru allocator_]; rewrite ?Hlen; try done.
      * constructor; [exists true; cbn; by rewrite lookup_insert_eq|]. apply holds_other; [by apply forall_drop|apply drop_row_notin].
      * by rewrite Hpl.
      * intros p Hp. rewrite lookup_insert_ne; [by apply Hfree|]. intros E; apply Hnf; by rewrite E.
      * intros p Hp. apply Haddr. by rewrite Hpl in Hp.
    + cbn. apply (map_ok_perm _ _ _ Hperm) in Hm. destruct Hm as [Hk Hmm Hsz]. split; [done| |done]. intros k p. rewrite Hmm.
      split; intros (x & Hx & Ex1 & Ex2); apply elem_of_cons in Hx as [->|Hx].
      * exists r'. split; [left|done].
      * exists x. split; [by right|done].
      * exists r. split; [left|done].
      * exists x. split; [by right|done].
Qed.

(** * Removal *)

Lemma u64_pred n : u64 (u64 (Z.of_nat (S n)) - 1) = u64 (Z.of_nat n).
Proof. rewrite wrap_sub_l by lia. f_equal. lia. Qed.

Lemma drop_length r rows : NoDup (rows.*1) -> r ∈ rows -> length rows = S (length (drop_row r.1 rows)).
Proof. intros Hnd Hr. by rewrite (drop_row_perm r rows Hnd Hr) at 1. Qed.

(** A slot goes back to the free list. *)
Lemma free_row c c' rows r t acc : slots_ok c rows -> r ∈ rows -> slots_ c' = <[r.1 := CompactSlot None false t acc]> (slots_ c) ->
  allocator_ c' = Allocator (free_list_ (allocator_ c) ++ [r.1]) (total_slots_ (allocator_ c)) (u64 (used_slots_ (allocator_ c) - 1)) ->
  slots_ok c' (drop_row r.1 rows).
Proof.
  intros Hs Hr E1 E2. pose proof (locs_nodup c rows Hs) as Hnd. destruct Hs as [Hrows Hlocs Hfree Htot Haddr Hused].
  pose proof (drop_length r rows Hnd Hr) as Hlen. pose proof (fmap_Permutation fst _ _ (drop_row_perm r rows Hnd Hr)) as Hp. cbn in Hp.
  assert ((drop_row r.1 rows).*1 ++ free_list_ (allocator_ c) ++ [r.1] ≡ₚ rows.*1 ++ free_list_ (allocator_ c)) as Hpl.
  { rewrite Hp. rewrite (Permutation_app_comm (free_list_ (allocator_ c)) [r.1]). cbn. by rewrite Permutation_middle. }
  split; rewrite ?E1, ?E2; cbn [free_list_ total_slots_ used_slots_].
  - apply holds_other; [by apply forall_drop|apply drop_row_notin].
  - by rewrite Hpl.
  - intros p Hp'. destruct (decide (p = r.1)) as [->|Hne]; [rewrite lookup_insert_eq; eauto|]. rewrite lookup_insert_ne by done.
    apply Hfree. apply elem_of_app in Hp' as [?|Hp']; [done|]. apply list_elem_of_singleton in Hp'. done.
  - rewrite length_app. cbn. lia.
  - intros p Hp'. apply Haddr. by rewrite Hpl in Hp'.
  - rewrite Hused, Hlen. apply u64_pred.
Qed.

Lemma destroy_ok c rows r : slots_ok c rows -> r ∈ rows ->
  exists t acc, destroy r.1 c = Some (set_slots <[r.1 := CompactSlot None false t acc]> c).
Proof. intros Hs Hr. destruct (row_slot c rows r Hs Hr) as [acc Hsl]. unfold destroy. rewrite Hsl. cbn. eauto. Qed.

Lemma deallocate_ok c p t acc : slots_ c !! p = Some (CompactSlot None false t acc) ->
  deallocate p c = Some (set_allocator (Allocator (free_list_ (allocator_ c) ++ [p]) (total_slots_ (allocator_ c)) (u64 (used_slots_ (allocator_ c) - 1))) c).
Proof. intros E. unfold deallocate. by rewrite E. Qed.

Lemma memory_pred n : u64 (u64 (slot_size * Z.of_nat (S n)) - calc_item_memory slot_size) = u64 (slot_size * Z.of_nat n).
Proof. unfold calc_item_memory. rewrite wrap_sub_l by lia. f_equal. lia. Qed.

Lemma erase_ok c a rows r : refines c a rows -> r ∈ rows ->
  exists c', erase_slot slot_size (rkey r) c = Some c' /\
    refines c' (with_ents (s_without (rkey r) (ents a)) (slog a ++ [EvEvict (rkey r) r.2.1.2]) a) (drop_row r.1 rows).
Proof.
  intros R Hr. pose proof R as [Hl He Hs Hm Hmem Hst Hlog Hset]. pose proof (locs_nodup c rows Hs) as Hnd.
  destruct (row_slot c rows r Hs Hr) as [acc Hsl]. unfold erase_slot.
  rewrite (proj2 (mo_map _ _ Hm (rkey r) r.1)) by (by exists r). cbn [mbind option_bind]. rewrite Hsl. cbn [mbind option_bind contents].
  set (c1 := collect _ _). destruct (destroy_ok c1 rows r) as (t & acc' & ->); [by destruct Hs|done|]. cbn [mbind option_bind].
  unfold list_do. cbn [spec_op]. rewrite bool_decide_true by (cbn; rewrite Hl; by apply list_elem_of_fmap_2). cbn [mbind option_bind].
  erewrite deallocate_ok; [|cbn; apply lookup_insert_eq]. cbn [mbind option_bind]. eexists. split; [done|].
  pose proof (drop_length r rows Hnd Hr) as Hlen.
  split; try done.
  - cbn. by rewrite drop_row_locs, Hl.
  - cbn. by rewrite (drop_row_ents r rows Hnd (mo_keys _ _ Hm) Hr), He.
  - by apply (free_row c _ rows r t acc').
  - cbn. apply map_ok_delete. by apply (map_ok_perm _ rows); [apply drop_row_perm|].
  - cbn. rewrite Hmem, Hlen. apply memory_pred.
  - cbn. split; [|done]. unfold size_unlocked. cbn. rewrite map_size_delete, (proj2 (mo_map _ _ Hm (rkey r) r.1)) by (by exists r).
    rewrite (mo_size _ _ Hm), Hlen. lia.
  - cbn. by rewrite Hlog.
Qed.

Lemma drop_last r rows : NoDup ((rows ++ [r]).*1) -> drop_row r.1 (rows ++ [r]) = rows.
Proof.
  rewrite fmap_app. intros (_ & Hd & _)%NoDup_app. unfold drop_row. rewrite filter_app, (filter_none _ [r]).
  - rewrite app_nil_r. apply filter_all. intros x Hx E. apply (Hd x.1); [by apply list_elem_of_fmap_2|]. rewrite E. cbn. left.
  - intros x ->%list_elem_of_singleton. tauto.
Qed.

Lemma evict_ok c a rows r : refines c a (rows ++ [r]) ->
  exists c', evict_lru slot_size c = Some c' /\
    refines c' (with_ents (rows.*2) (slog a ++ [EvEvict (rkey r) r.2.1.2]) a) rows.
Proof.
  intros R. pose proof R as [Hl He Hs Hm _ _ _ _]. assert (r ∈ rows ++ [r]) as Hr by (apply elem_of_app; right; left).
  pose proof (locs_nodup _ _ Hs) as Hnd. destruct (row_slot _ _ r Hs Hr) as [acc Hsl].
  unfold evict_lru. rewrite Hl, fmap_app. change ([r].*1) with [r.1]. rewrite last_snoc, Hsl. cbn [mbind option_bind contents].
  rewrite (proj2 (mo_map _ _ Hm (rkey r) r.1)) by (by exists r). cbn [mbind option_bind].
  destruct (erase_ok c a _ r R Hr) as (c1 & -> & R1). cbn [mbind option_bind]. eexists. split; [done|].
  rewrite (drop_last r rows Hnd) in R1. rewrite He, <- (drop_row_ents r _ Hnd (mo_keys _ _ Hm) Hr), (drop_last r rows Hnd) in R1.
  destruct R1 as [? ? [] ? ? ? ? ?]. by split.
Qed.

(** * Eviction loops *)

Lemma memory_keep_le limit n : (memory_keep slot_size limit n <= n)%nat.
Proof. induction n as [|n IH]; [done|]. cbn [memory_keep]. destruct (_ && _); lia. Qed.

Lemma evict_to_all n a : (length (ents a) <= n)%nat -> evict_to n a = a.
Proof. intros Hn. destruct a as [l lg mx mm rt sd]. unfold evict_to, with_ents. cbn in *. by rewrite take_ge, drop_ge, app_nil_r by done. Qed.

Lemma evict_to_step n a rows r : ents a = (rows ++ [r]).*2 -> (n <= length rows)%nat ->
  evict_to n (with_ents (rows.*2) (slog a ++ [EvEvict (rkey r) r.2.1.2]) a) = evict_to n a.
Proof.
  intros E Hn. unfold evict_to, with_ents. cbn. rewrite E, fmap_app. cbn. f_equal.
  - by rewrite take_app_le by (by rewrite length_fmap).
  - rewrite drop_app_le by (by rewrite length_fmap). unfold evictions. rewrite reverse_snoc, fmap_cons. by rewrite <- app_assoc.
Qed.

Lemma rows_last rows : (0 < length rows)%nat -> exists rows' r, rows = rows' ++ [r].
Proof. destruct rows as [|r rows' _] using rev_ind; [cbn; lia|]. eauto. Qed.

Lemma size_rows c a rows : refines c a rows -> size_unlocked c = Z.of_nat (length rows).
Proof. intros [_ _ _ Hm _ _ _ _]. unfold size_unlocked. by rewrite (mo_size _ _ Hm). Qed.

Lemma ents_rows c a rows : refines c a rows -> length (ents a) = length rows.
Proof. intros [_ -> _ _ _ _ _ _]. apply length_fmap. Qed.

Lemma evict_for_size_ok fuel : forall c a rows, refines c a rows -> (length rows <= fuel)%nat -> 0 < smax a ->
  exists c' rows', evict_for_size slot_size fuel c = Some c' /\ refines c' (evict_to (room (smax a - 1) a) a) rows'.
Proof.
  induction fuel as [|fuel IH]; intros c a rows R Hf Hmax; pose proof (size_rows c a rows R) as Hsz; pose proof (ents_rows c a rows R) as Hlen;
    pose proof R as [_ He _ _ _ _ _ (Emax & _)]; cbn [evict_for_size]; rewrite Hsz, Emax;
    destruct (Z.leb_spec (smax a) (Z.of_nat (length rows))), (Z.eqb_spec (smax a) npos) as [En|En]; cbn [andb negb].
  all: try (exists c, rows; split; [done|]; rewrite evict_to_all; [done|]; unfold room; destruct (Z.eqb_spec (smax a) npos); lia).
  - lia.
  - destruct (rows_last rows ltac:(lia)) as (rows0 & r & ->). rewrite length_app in *. cbn [length] in *.
    destruct (evict_ok c a rows0 r R) as (c1 & -> & R1). cbn [mbind option_bind]. rewrite (size_rows _ _ _ R1).
    destruct (Z.leb_spec (Z.of_nat (length rows0 + 1)) (Z.of_nat (length rows0))); [lia|].
    destruct (IH c1 _ rows0 R1) as (c2 & rows2 & E2 & R2); [lia|done|]. exists c2, rows2. split; [done|].
    revert R2. unfold room. cbn [smax with_ents]. destruct (Z.eqb_spec (smax a) npos); [done|]. rewrite evict_to_step by (done || lia). done.
Qed.

Lemma evict_for_memory_ok fuel : forall c a rows, refines c a rows -> (length rows <= fuel)%nat ->
  exists c' rows', evict_for_memory slot_size fuel c = Some c' /\ refines c' (evict_to (memory_keep slot_size (smemory a) (length (ents a))) a) rows'.
Proof.
  induction fuel as [|fuel IH]; intros c a rows R Hf; pose proof (size_rows c a rows R) as Hsz; pose proof (ents_rows c a rows R) as Hlen;
    pose proof R as [_ He _ _ Hmem _ _ (_ & Emem & _)]; cbn [evict_for_memory]; unfold should_evict_memory; rewrite Hsz, Emem, Hmem, Hlen.
  - destruct rows; [|cbn in Hf; lia]. rewrite andb_false_r. exists c, []. split; [done|]. by rewrite evict_to_all by (rewrite Hlen; cbn; lia).
  - destruct (decide (rows = [])) as [->|Hne].
    + rewrite andb_false_r. exists c, []. split; [done|]. by rewrite evict_to_all by (rewrite Hlen; cbn; lia).
    + destruct (rows_last rows) as (rows0 & r & ->); [destruct rows; [done|cbn; lia]|].
      rewrite length_app in *. cbn [length] in *. replace (length rows0 + 1)%nat with (S (length rows0)) in * by lia. cbn [memory_keep].
      destruct (Z.eqb_spec (Z.of_nat (S (length rows0))) 0); [lia|]. cbn [negb]. rewrite andb_true_r.
      destruct (negb (smemory a =? npos) && _) eqn:Eover.
      * destruct (evict_ok c a rows0 r R) as (c1 & -> & R1). cbn [mbind option_bind].
        destruct (IH c1 _ rows0 R1) as (c2 & rows2 & E2 & R2); [lia|]. exists c2, rows2. split; [done|]. revert R2.
        cbn [smemory with_ents ents]. rewrite length_fmap. rewrite evict_to_step; [done|done|]. apply memory_keep_le.
      * exists c, (rows0 ++ [r]). split; [done|]. by rewrite evict_to_all by lia.
Qed.

Lemma shrink_ok fuel : forall c a rows, refines c a rows -> (length rows <= fuel)%nat -> 0 <= smax a ->
  exists c' rows', shrink_loop slot_size fuel c = Some c' /\ refines c' (evict_to (room (smax a) a) a) rows'.
Proof.
  induction fuel as [|fuel IH]; intros c a rows R Hf Hmax; pose proof (size_rows c a rows R) as Hsz; pose proof (ents_rows c a rows R) as Hlen;
    pose proof R as [_ He _ _ _ _ _ (Emax & _)]; cbn [shrink_loop]; rewrite Hsz, Emax;
    destruct (Z.ltb_spec (smax a) (Z.of_nat (length rows))), (Z.eqb_spec (smax a) npos) as [En|En]; cbn [andb negb].
  all: try (exists c, rows; split; [done|]; rewrite evict_to_all; [done|]; unfold room; destruct (Z.eqb_spec (smax a) npos); lia).
  - lia.
  - destruct (rows_last rows ltac:(lia)) as (rows0 & r & ->). rewrite length_app in *. cbn [length] in *.
    destruct (evict_ok c a rows0 r R) as (c1 & -> & R1). cbn [mbind option_bind].
    destruct (IH c1 _ rows0 R1) as (c2 & rows2 & E2 & R2); [lia|done|]. exists c2, rows2. split; [done|].
    revert R2. unfold room. cbn [smax with_ents]. destruct (Z.eqb_spec (smax a) npos); [done|]. rewrite evict_to_step by (done || lia). done.
Qed.

(** * Allocation *)

(** The state outside the slots and the allocator. *)
Definition same_rest c c' : Prop :=
  lru_list_ c' = lru_list_ c /\ map_ c' = map_ c /\ current_memory_ c' = current_memory_ c /\ stats_ c' = stats_ c /\ log_ c' = log_ c /\
  max_size_ c' = max_size_ c /\ max_memory_ c' = max_memory_ c /\ refresh_time_ c' = refresh_time_ c /\ shutdown_ c' = shutdown_ c.

Lemma refines_rest c c' a rows : same_rest c c' -> refines c a rows -> slots_ok c' rows -> refines c' a rows.
Proof.
  intros (E1 & E2 & E3 & E4 & E5 & E6 & E7 & E8 & E9) [? ? ? ? ? ? ? ?] Hs.
  split; try congruence; try done; by rewrite ?E2, ?E3, ?E4, ?E6, ?E7, ?E8, ?E9.
Qed.

Lemma fill_lookup block (sl : gmap loc (@compact_slot Key Value)) p :
  foldr (fun p sl => <[p := blank]> sl) sl block !! p = if decide (p ∈ block) then Some blank else sl !! p.
Proof.
  induction block as [|q block IH]; [done|]. cbn [foldr]. destruct (decide (p = q)) as [->|Hne].
  - rewrite lookup_insert_eq, decide_True; [done|left].
  - rewrite lookup_insert_ne, IH by done. destruct (decide (p ∈ block)) as [Hp|Hp]; [by rewrite decide_True by (by right)|].
    rewrite decide_False; [done|]. by intros [?|?]%elem_of_cons.
Qed.

Lemma block_addr total p : p ∈ block_slots total <-> (total < Pos.to_nat p <= total + kSlotsPerBlock)%nat.
Proof.
  unfold block_slots. rewrite list_elem_of_fmap. split.
  - intros (i & -> & Hi%elem_of_seq). rewrite SuccNat2Pos.id_succ. lia.
  - intros Hp. exists (Nat.pred (Pos.to_nat p)). rewrite elem_of_seq. split; [|lia].
    rewrite <- (Pos2Nat.id p) at 1. destruct (Pos.to_nat p) as [|n] eqn:E; [lia|]. cbn [Nat.pred]. by rewrite Pos.of_nat_succ.
Qed.

Lemma block_nodup total : NoDup (block_slots total).
Proof. apply NoDup_fmap_2; [intros x y E; by apply SuccNat2Pos.inj in E|apply NoDup_seq]. Qed.

Lemma block_nonempty c : free_list_ (allocator_ (allocate_block c)) <> [].
Proof.
  unfold allocate_block. cbn [allocator_ set_slots set_allocator free_list_]. intros [_ E]%app_eq_nil.
  apply (f_equal length) in E. unfold block_slots in E. rewrite length_fmap, length_seq in E. discriminate E.
Qed.

Lemma allocate_block_ok c rows : slots_ok c rows -> slots_ok (allocate_block c) rows /\ same_rest c (allocate_block c).
Proof.
  intros [Hrows Hlocs Hfree Htot Haddr Hused]. split; [|done]. set (T := total_slots_ (allocator_ c)) in *.
  assert (forall p, p ∈ rows.*1 ++ free_list_ (allocator_ c) -> p ∉ block_slots T) as Hnew by (intros p Hp%Haddr Hb%block_addr; lia).
  unfold allocate_block. fold T. split; cbn [slots_ set_slots set_allocator allocator_ free_list_ total_slots_ used_slots_].
  - apply Forall_forall. intros r Hr. destruct (proj1 (Forall_forall _ _) Hrows r Hr) as [acc Hsl]. exists acc.
    rewrite fill_lookup, decide_False; [done|]. apply Hnew, elem_of_app. left. by apply list_elem_of_fmap_2.
  - rewrite app_assoc. apply NoDup_app. split; [done|]. split; [done|apply block_nodup].
  - intros p Hp. rewrite fill_lookup. destruct (decide (p ∈ block_slots T)) as [Hb|Hb]; [by exists 0, false|].
    apply Hfree. apply elem_of_app in Hp as [?|?]; done.
  - rewrite length_app. unfold block_slots. rewrite length_fmap, length_seq. lia.
  - intros p Hp. rewrite app_assoc in Hp. apply elem_of_app in Hp as [Hp%Haddr|Hp%block_addr]; lia.
  - done.
Qed.

(** A slot is taken from the free list. *)
Record taken c p rows : Prop := {
  tk_rows : Forall (holds_row (slots_ c)) rows;
  tk_locs : NoDup (p :: rows.*1 ++ free_list_ (allocator_ c));
  tk_slot : slots_ c !! p = Some (CompactSlot None false 0 false);
  tk_free : forall q, q ∈ free_list_ (allocator_ c) -> exists t acc, slots_ c !! q = Some (CompactSlot None false t acc);
  tk_total : (S (length rows) + length (free_list_ (allocator_ c)) = total_slots_ (allocator_ c))%nat;
  tk_addr : forall q, q ∈ p :: rows.*1 ++ free_list_ (allocator_ c) -> (Pos.to_nat q <= total_slots_ (allocator_ c))%nat;
  tk_used : used_slots_ (allocator_ c) = u64 (Z.of_nat (S (length rows)))
}.

Lemma take_free c rows free p : slots_ok c rows -> free_list_ (allocator_ c) = free ++ [p] ->
  exists sl, slots_ c !! p = Some sl /\
    taken (set_slots <[p := CompactSlot (contents sl) false 0 false]>
      (set_allocator (Allocator free (total_slots_ (allocator_ c)) (u64 (used_slots_ (allocator_ c) + 1))) c)) p rows.
Proof.
  intros [Hrows Hlocs Hfree Htot Haddr Hused] E. rewrite E in *.
  assert (rows.*1 ++ free ++ [p] ≡ₚ p :: rows.*1 ++ free) as Hp by (rewrite app_assoc; by rewrite Permutation_app_comm).
  rewrite Hp in Hlocs. pose proof Hlocs as [Hnp _]%NoDup_cons. destruct (Hfree p) as (t & acc & Hsl); [apply elem_of_app; right; left|].
  exists (CompactSlot None false t acc). split; [done|]. split; cbn [slots_ set_slots set_allocator allocator_ free_list_ total_slots_ used_slots_ contents].
  - apply holds_other; [done|]. intros Hin. apply Hnp, elem_of_app. by left.
  - done.
  - apply lookup_insert_eq.
  - intros q Hq. rewrite lookup_insert_ne; [apply Hfree, elem_of_app; by left|]. intros ->. apply Hnp, elem_of_app. by right.
  - rewrite length_app in Htot. cbn in Htot. lia.
  - intros q Hq. apply Haddr. by rewrite Hp.
  - rewrite Hused, wrap_add_l by lia. f_equal. lia.
Qed.

Lemma allocate_ok c rows : slots_ok c rows -> exists p c', allocate c = Some (p, c') /\ taken c' p rows /\ same_rest c c'.
Proof.
  intros Hs. unfold allocate. set (c0 := if bool_decide _ then allocate_block c else c).
  assert (slots_ok c0 rows /\ same_rest c c0 /\ free_list_ (allocator_ c0) <> []) as (Hs0 & Hr0 & Hne).
  { unfold c0. destruct (bool_decide_reflect (free_list_ (allocator_ c) = [])) as [E|]; [|done].
    destruct (allocate_block_ok c rows Hs) as [Hb Hr]. split; [done|]. split; [done|]. apply block_nonempty. }
  destruct (free_list_ (allocator_ c0)) as [|p free _] eqn:Ef using rev_ind; [done|]. rewrite last_snoc. cbn [mbind option_bind].
  destruct (take_free c0 rows free p Hs0 Ef) as (sl & -> & Ht). cbn [mbind option_bind]. eexists p, _. split; [done|].
  rewrite reverse_snoc. cbn [tail]. rewrite reverse_involutive. split; [done|]. destruct Hr0 as (? & ? & ? & ? & ? & ? & ? & ? & ?). by repeat split.
Qed.

(** The taken slot becomes a row, or goes back. *)
Lemma taken_row c c' p rows (e : ent Key Value) : taken c p rows ->
  slots_ c' = <[p := CompactSlot (Some (ekey e, e.1.2)) true e.2 false]> (slots_ c) -> allocator_ c' = allocator_ c -> slots_ok c' ((p, e) :: rows).
Proof.
  intros [Hrows Hlocs Hsl Hfree Htot Haddr Hused] E1 E2. pose proof Hlocs as [Hnp _]%NoDup_cons. split; rewrite ?E1, ?E2; try done.
  - constructor; [exists false; cbn; by rewrite lookup_insert_eq|]. apply holds_other; [done|]. intros Hin. apply Hnp, elem_of_app. by left.
  - intros q Hq. rewrite lookup_insert_ne; [by apply Hfree|]. intros ->. apply Hnp, elem_of_app. by right.
Qed.

Lemma taken_back c c' p rows t acc : taken c p rows -> slots_ c' = <[p := CompactSlot None false t acc]> (slots_ c) ->
  allocator_ c' = Allocator (free_list_ (allocator_ c) ++ [p]) (total_slots_ (allocator_ c)) (u64 (used_slots_ (allocator_ c) - 1)) -> slots_ok c' rows.
Proof.
  intros [Hrows Hlocs Hsl Hfree Htot Haddr Hused] E1 E2. pose proof Hlocs as [Hnp _]%NoDup_cons.
  assert (rows.*1 ++ free_list_ (allocator_ c) ++ [p] ≡ₚ p :: rows.*1 ++ free_list_ (allocator_ c)) as Hp by (rewrite app_assoc; by rewrite Permutation_app_comm).
  split; rewrite ?E1, ?E2; cbn [free_list_ total_slots_ used_slots_].
  - apply holds_other; [done|]. intros Hin. apply Hnp, elem_of_app. by left.
  - by rewrite Hp.
  - intros q Hq. destruct (decide (q = p)) as [->|Hne]; [rewrite lookup_insert_eq; eauto|]. rewrite lookup_insert_ne by done.
    apply Hfree. apply elem_of_app in Hq as [?|Hq]; [done|]. by apply list_elem_of_singleton in Hq.
  - rewrite length_app. cbn. lia.
  - intros q Hq. apply Haddr. by rewrite Hp in Hq.
  - rewrite Hused. apply u64_pred.
Qed.

(** * Insertion *)

Lemma memory_succ n : u64 (u64 (slot_size * Z.of_nat n) + calc_item_memory slot_size) = u64 (slot_size * Z.of_nat (S n)).
Proof. unfold calc_item_memory. rewrite wrap_add_l by lia. f_equal. lia. Qed.

(** Counters do not matter. *)
Lemma refines_count i1 i2 i3 i4 i5 c a rows : refines c a rows -> refines (set_stats (count_events i1 i2 i3 i4 i5) c) a rows.
Proof. intros [? ? [] ? ? ? ? ?]. by split. Qed.

Lemma overload_ok c a rows : refines c a rows -> refines (check_hash_overload_locked map_load_factor c) a rows.
Proof.
  intros R. unfold check_hash_overload_locked. destruct (SFleb _ _); [done|]. destruct (SFleb _ _); [done|]. by apply refines_count.
Qed.

Lemma insert_row c0 c p a rows key v now : refines c0 a rows -> same_rest c0 c -> taken c p rows -> map_ c0 !! key = None ->
  exists c', (let c := set_slots <[p := CompactSlot (Some (key, v)) true now false]> c in
    let c := set_map (<[key := p]> (map_ c)) c in
    c ← list_do (LinkAtHead p) c;
    let c := set_stats (store_size (size_unlocked c)) c in
    let c := set_memory (u64 (current_memory_ c + calc_item_memory slot_size)) c in
    let c := set_stats (store_memory (current_memory_ c)) c in
    let c := set_stats (count_events 1 0 0 0 0) c in
    let c := collect (EvInsert key v) c in
    Some (Done, check_hash_overload_locked map_load_factor c)) = Some (Done, c') /\
    refines c' (with_ents ((key, v, now) :: ents a) (slog a ++ [EvInsert key v]) a) ((p, (key, v, now)) :: rows).
Proof.
  intros [Hl He Hs Hm Hmem Hst Hlog Hset] (E1 & E2 & E3 & E4 & E5 & E6 & E7 & E8 & E9) Ht Hn. cbv zeta. unfold list_do. cbn [spec_op].
  assert (p ∉ rows.*1) as Hp by (pose proof (tk_locs _ _ _ Ht) as [Hnp _]%NoDup_cons; intros Hin; apply Hnp, elem_of_app; by left).
  rewrite bool_decide_false by (cbn; by rewrite E1, Hl). cbn [negb mbind option_bind]. eexists. split; [done|]. apply overload_ok.
  split; try done.
  - cbn. by rewrite E1, Hl.
  - cbn. by rewrite He.
  - by apply (taken_row c).
  - cbn. rewrite E2. by apply (map_ok_insert (map_ c0) rows (p, (key, v, now))).
  - cbn. rewrite E3, Hmem. apply memory_succ.
  - cbn. split; [|done]. unfold size_unlocked. cbn. rewrite E2, map_size_insert_None by done. by rewrite (mo_size _ _ Hm).
  - cbn. by rewrite E5, Hlog.
  - cbn. by rewrite E6, E7, E8, E9.
Qed.

Lemma construct_ok now key v fl c a rows : refines c a rows -> map_ c !! key = None ->
  exists c' rows', construct slot_size map_load_factor now key v fl c =
      Some (match fl with Some f => Threw f | None => Done end, c') /\
    refines c' (match fl with Some _ => a | None => with_ents ((key, v, now) :: ents a) (slog a ++ [EvInsert key v]) a end) rows'.
Proof.
  intros R Hn. unfold construct. pose proof R as [_ _ Hs _ _ _ _ _]. destruct (allocate_ok c rows Hs) as (p & c1 & -> & Ht & Hr). cbn [mbind option_bind].
  assert (forall c2, same_rest c1 c2 -> slots_ok c2 rows -> refines c2 a rows) as Hback.
  { intros c2 Hr2 Hs2. apply (refines_rest c c2); [|done|done]. unfold same_rest in *. intuition congruence. }
  destruct fl as [[]|].
  - erewrite deallocate_ok by apply Ht. cbn [mbind option_bind]. eexists _, rows. split; [done|]. apply Hback; [done|].
    apply (taken_back c1 _ p rows 0 false Ht); [cbn; by rewrite insert_id by apply Ht|done].
  - erewrite deallocate_ok by apply Ht. cbn [mbind option_bind]. eexists _, rows. split; [done|]. apply Hback; [done|].
    apply (taken_back c1 _ p rows 0 false Ht); [cbn; by rewrite insert_id by apply Ht|done].
  - unfold destroy. cbn [slots_ set_slots]. rewrite lookup_insert_eq. cbn [mbind option_bind contents].
    erewrite deallocate_ok; [|cbn; apply lookup_insert_eq]. cbn [mbind option_bind]. eexists _, rows. split; [done|]. apply Hback; [done|].
    apply (taken_back c1 _ p rows now false Ht); [cbn; by rewrite insert_insert_eq|done].
  - destruct (insert_row c c1 p a rows key v now R Hr Ht Hn) as (c' & E & R'). exists c', ((p, (key, v, now)) :: rows). by split.
Qed.

(** * Update *)

Definition upd_row (p : loc) (v : Value) rows : list row := (fun r => if decide (r.1 = p) then (r.1, (rkey r, v, r.2.2)) else r) <$> rows.

Lemma upd_row_locs p v rows : (upd_row p v rows).*1 = rows.*1.
Proof. unfold upd_row. rewrite <- list_fmap_compose. apply list_fmap_ext. intros i r _. cbn. by destruct (decide (r.1 = p)). Qed.

Lemma upd_row_keys p v rows : (fun r => rkey r) <$> upd_row p v rows = (fun r => rkey r) <$> rows.
Proof. unfold upd_row. rewrite <- list_fmap_compose. apply list_fmap_ext. intros i r _. cbn. by destruct (decide (r.1 = p)). Qed.

Lemma upd_row_ents r v rows : NoDup (rows.*1) -> NoDup ((fun r => rkey r) <$> rows) -> r ∈ rows ->
  (upd_row r.1 v rows).*2 = s_assign (rkey r) v (rows.*2).
Proof.
  intros Hl Hk Hr. pose proof (loc_key rows r Hl Hk Hr) as Heq. clear Hl Hk Hr. unfold upd_row, s_assign.
  induction rows as [|x rows IH]; [done|]. rewrite !fmap_cons. f_equal; [|apply IH; intros y Hy; apply Heq; by right].
  specialize (Heq x ltac:(left)). destruct (decide (x.1 = r.1)), (decide (ekey x.2 = rkey r)) as [E|]; cbn; try tauto. by rewrite E.
Qed.

Lemma upd_row_elem r v rows : r ∈ rows -> (r.1, (rkey r, v, r.2.2)) ∈ upd_row r.1 v rows.
Proof. intros Hr. apply list_elem_of_fmap. exists r. by rewrite decide_True. Qed.

Lemma elem_of_upd p v rows x : x ∈ upd_row p v rows ->
  exists y, y ∈ rows /\ y.1 = x.1 /\ rkey y = rkey x /\ x = if decide (y.1 = p) then (y.1, (rkey y, v, y.2.2)) else y.
Proof. intros (y & -> & Hy)%list_elem_of_fmap. exists y. by destruct (decide (y.1 = p)). Qed.

Lemma slot_update_ok c a rows r v sl : refines c a rows -> r ∈ rows -> slots_ c !! r.1 = Some sl ->
  refines (set_slots <[r.1 := CompactSlot (Some (rkey r, v)) (occupied sl) (update_time sl) (accessed sl)]> c)
    (with_ents (s_assign (rkey r) v (ents a)) (slog a) a) (upd_row r.1 v rows).
Proof.
  intros R Hr Hsl. pose proof R as [Hl He Hs Hm Hmem Hst Hlog Hset]. pose proof (locs_nodup c rows Hs) as Hnd.
  assert (length (upd_row r.1 v rows) = length rows) as Hlen by apply length_fmap.
  destruct (row_slot c rows r Hs Hr) as [acc Hsl']. rewrite Hsl in Hsl'. injection Hsl' as ->. cbn [occupied update_time accessed].
  split; rewrite ?Hlen; try done.
  - cbn. by rewrite upd_row_locs.
  - cbn. by rewrite (upd_row_ents r v rows Hnd (mo_keys _ _ Hm) Hr), He.
  - destruct Hs as [Hrows Hlocs Hfree Htot Haddr Hused]. split; rewrite ?upd_row_locs, ?Hlen; try done; cbn [slots_ set_slots allocator_].
    + apply Forall_forall. intros x Hx. destruct (elem_of_upd _ _ _ _ Hx) as (y & Hy & _ & _ & ->). unfold holds_row.
      destruct (proj1 (Forall_forall _ _) Hrows y Hy) as [acc' Hy']. destruct (decide (y.1 = r.1)) as [E|Hne].
      * exists acc. cbn. rewrite E, lookup_insert_eq. by rewrite (row_unique rows y r Hnd Hy Hr E).
      * exists acc'. by rewrite lookup_insert_ne.
    + intros q Hq. rewrite lookup_insert_ne; [by apply Hfree|]. intros <-. apply NoDup_app in Hlocs as (_ & Hd & _). apply (Hd r.1); [|done].
      by apply list_elem_of_fmap_2.
  - destruct Hm as [Hk Hmm Hsz]. split; [by rewrite upd_row_keys| |by rewrite Hlen]. intros k p. cbn. rewrite Hmm. split.
    + intros (x & Hx & <- & <-). destruct (decide (x.1 = r.1)) as [E|Hne].
      * assert (x = r) as -> by by apply (row_unique rows). eexists. split; [by apply upd_row_elem|done].
      * exists x. split; [|done]. apply list_elem_of_fmap. exists x. by rewrite decide_False.
    + intros (x & Hx & <- & <-). destruct (elem_of_upd _ _ _ _ Hx) as (y & Hy & E1 & E2 & _). by exists y.
Qed.

(** * The operations *)

Lemma key_row c a rows k : refines c a rows ->
  match map_ c !! k with
  | Some p => exists r, r ∈ rows /\ r.1 = p /\ rkey r = k
  | None => s_find k (ents a) = None
  end.
Proof.
  intros [_ He _ Hm _ _ _ _]. destruct (map_ c !! k) as [p|] eqn:E; [by apply (mo_map _ _ Hm)|].
  rewrite He. apply find_none. intros r Hr <-. assert (map_ c !! rkey r = Some r.1) by (apply (mo_map _ _ Hm); by exists r). congruence.
Qed.

Lemma find_some c a rows r : refines c a rows -> r ∈ rows -> s_find (rkey r) (ents a) = Some (r.2.1.2, r.2.2).
Proof. intros [_ He _ Hm _ _ _ _] Hr. rewrite He. by apply find_row; [apply (mo_keys _ _ Hm)|]. Qed.

Lemma evict_to_find n k a : s_find k (ents a) = None -> s_find k (ents (evict_to n a)) = None.
Proof.
  cbn. generalize (ents a). clear a. intros l. revert n. induction l as [|[[k' v] t] l IH]; intros n; [by destruct n|]. cbn.
  destruct (decide (k' = k)); [done|]. intros Hn. destruct n as [|n]; [done|]. cbn. rewrite decide_False by done. by apply IH.
Qed.

Lemma find_none_map c a rows k : refines c a rows -> s_find k (ents a) = None -> map_ c !! k = None.
Proof.
  intros R Hn. pose proof (key_row c a rows k R) as Hk. destruct (map_ c !! k); [|done]. destruct Hk as (r & Hr & _ & <-).
  by rewrite (find_some c a rows r R Hr) in Hn.
Qed.

Lemma set_unlocked_ok now k v fl c a rows : refines c a rows -> 0 <= smax a ->
  exists c' rows', set_unlocked slot_size map_load_factor now k v fl c = Some (fst (s_set slot_size now k v fl a), c') /\
    refines c' (snd (s_set slot_size now k v fl a)) rows'.
Proof.
  intros R Hmax. pose proof (key_row c a rows k R) as Hk. unfold set_unlocked, s_set. destruct (map_ c !! k) as [p|] eqn:Em.
  - destruct Hk as (r & Hr & <- & <-). rewrite (find_some c a rows r R Hr). pose proof R as [_ _ Hs _ _ _ _ _].
    destruct (row_slot c rows r Hs Hr) as [acc Hsl]. rewrite Hsl. cbn [mbind option_bind contents].
    pose proof (slot_update_ok c a rows r v _ R Hr Hsl) as R1. cbn [occupied update_time accessed] in *.
    destruct (record_access_ok now _ _ _ _ R1 (upd_row_elem r v rows Hr)) as (c2 & rows2 & E2 & R2 & _). cbn in E2, R2. rewrite E2. cbn [mbind option_bind].
    exists c2, rows2. by split.
  - rewrite Hk. pose proof R as [Hl _ _ _ _ _ _ (Emax & Emem & _)]. rewrite Emax. destruct (Z.eqb_spec (smax a) 0); [by exists c, rows|].
    rewrite Hl, length_fmap. destruct (evict_for_size_ok (length rows) c a rows R) as (c1 & rows1 & -> & R1); [lia|lia|]. cbn [mbind option_bind].
    assert (length rows1 <= length rows)%nat as Hle.
    { rewrite <- (ents_rows _ _ _ R1), <- (ents_rows _ _ _ R). cbn. rewrite length_take. lia. }
    destruct (evict_for_memory_ok (length rows) c1 _ rows1 R1 Hle) as (c2 & rows2 & -> & R2). cbn [mbind option_bind].
    assert (map_ c2 !! k = None) as Hn by (apply (find_none_map _ _ _ _ R2); by apply evict_to_find, evict_to_find).
    destruct (construct_ok now k v fl c2 _ rows2 R2 Hn) as (c3 & rows3 & -> & R3). exists c3, rows3. unfold s_make_room. destruct fl; by split.
Qed.

Lemma drain_ok fuel : forall c a rows, refines c a rows -> (length rows <= fuel)%nat ->
  exists c', drain fuel c = Some c' /\ lru_list_ c' = [] /\ slots_ok c' [] /\ log_ c' = log_ c /\
    max_size_ c' = max_size_ c /\ max_memory_ c' = max_memory_ c /\ refresh_time_ c' = refresh_time_ c /\ shutdown_ c' = shutdown_ c.
Proof.
  assert (forall fuel c rows, lru_list_ c = rows.*1 -> slots_ok c rows -> (length rows <= fuel)%nat ->
    exists c', drain fuel c = Some c' /\ lru_list_ c' = [] /\ slots_ok c' [] /\ log_ c' = log_ c /\
      max_size_ c' = max_size_ c /\ max_memory_ c' = max_memory_ c /\ refresh_time_ c' = refresh_time_ c /\ shutdown_ c' = shutdown_ c) as Hgen.
  2: { intros c a rows [Hl _ Hs _ _ _ _ _] Hf. by apply (Hgen fuel c rows). }
  clear fuel. induction fuel as [|fuel IH]; intros c rows Hl Hs Hf; cbn [drain spec_op]; rewrite Hl; cbn [mbind option_bind].
  - destruct rows; [|cbn in Hf; lia]. by exists c.
  - destruct rows as [|r rows _] using rev_ind; [by exists c|]. rewrite fmap_app. change ([r].*1) with [r.1]. rewrite last_snoc, reverse_snoc.
    cbn [tail]. rewrite reverse_involutive. unfold destroy_slot. set (c0 := set_lru _ c).
    assert (slots_ok c0 (rows ++ [r])) as Hs0 by (by destruct Hs). assert (r ∈ rows ++ [r]) as Hr by (apply elem_of_app; right; left).
    destruct (destroy_ok c0 _ r Hs0 Hr) as (t & acc & ->). cbn [mbind option_bind]. erewrite deallocate_ok; [|cbn; apply lookup_insert_eq].
    cbn [mbind option_bind]. rewrite length_app in Hf. cbn in Hf.
    match goal with |- context [drain fuel ?x] => destruct (IH x rows) as (c' & E & H1 & H2 & H3) end; [done| |lia|by exists c'].
    rewrite <- (drop_last r rows) by (by apply (locs_nodup c)). by apply (free_row c0 _ _ r t acc).
Qed.

Lemma flush_ok c a rows : refines c a rows -> shutdown_ c = false ->
  exists c', flush c = Some (Done, c') /\ refines c' (with_ents [] (slog a) a) [].
Proof.
  intros R Hsd. unfold flush. rewrite Hsd. pose proof R as [Hl _ _ _ _ _ Hlog (E1 & E2 & E3 & E4)]. rewrite Hl, length_fmap.
  destruct (drain_ok (length rows) c a rows R) as (c1 & -> & H1 & H2 & H3 & H4 & H5 & H6 & H7); [lia|]. cbn [mbind option_bind].
  eexists. split; [done|]. split; try done; cbn.
  - by destruct H2.
  - split; [constructor| |done]. intros k p. rewrite lookup_empty. split; [done|]. by intros (r & ?%not_elem_of_nil & _).
  - by rewrite Z.mul_0_r.
  - congruence.
  - split_and!; congruence.
Qed.

End refine.
