(* ===== verification/CompactClaims.v ===== *)
(** Sequences of calls on the compact cache, and its properties: it answers as a
    list of entries in recency order does, throwing insertions included, and it
    keeps its limits. *)

From Stdlib Require Import SpecFloat.
From S2P Require Import Prelude IntrusiveList ListRefine CompactCache CompactRefine.

Section calls.
Context {Key Value : Type} `{Countable Key} (slot_size : Z) (map_load_factor : gmap Key loc -> spec_float).
Abbreviation cache := (compact_cache Key Value).
Implicit Types (c : cache) (a : spec Key Value).

(** [now] is the clock of the call; a fault is what throws during construction. *)
Inductive cc_call :=
| CcSet (now : Z) (k : Key) (v : Value) (fl : option fault)
| CcAdd (now : Z) (k : Key) (v : Value) (fl : option fault)
| CcGet (now : Z) (k : Key)
| CcPeek (k : Key)
| CcContains (k : Key)
| CcDel (k : Key)
| CcFlush
| CcSize
| CcMemory
| CcMaxSize (n : Z)
| CcShrink
| CcRefresh (seconds : Z)
| CcShutdown
| CcThreshold (f : spec_float).

Inductive cc_result :=
| CrUnit
| CrOutcome (o : outcome)
| CrChanged (o : outcome) (b : bool)
| CrValue (v : option Value)
| CrBool (b : bool)
| CrZ (z : Z).

Definition cc_exec (x : cc_call) c : option (cc_result * cache) :=
  match x with
  | CcSet now k v fl => '(o, c) ← set slot_size map_load_factor now k v fl c; Some (CrOutcome o, c)
  | CcAdd now k v fl => '(o, b, c) ← add slot_size map_load_factor now k v fl c; Some (CrChanged o b, c)
  | CcGet now k => '(r, c) ← get now k c; Some (CrValue r, c)
  | CcPeek k => r ← peek k c; Some (CrValue r, c)
  | CcContains k => Some (CrBool (contains k c), c)
  | CcDel k => '(o, b, c) ← del slot_size k c; Some (CrChanged o b, c)
  | CcFlush => '(o, c) ← flush c; Some (CrOutcome o, c)
  | CcSize => Some (CrZ (size_unlocked c), c)
  | CcMemory => Some (CrZ (current_memory_ c), c)
  | CcMaxSize n => c ← set_max_size slot_size n c; Some (CrUnit, c)
  | CcShrink => c ← shrink_to_fit_unlocked slot_size c; Some (CrUnit, c)
  | CcRefresh n => Some (CrUnit, set_refresh_time n c)
  | CcShutdown => Some (CrUnit, shutdown c)
  | CcThreshold f => Some (CrUnit, set_hash_overload_threshold f c)
  end.

(** The same calls on the list of entries. *)
Definition s_exec (x : cc_call) a : cc_result * spec Key Value :=
  let guard r := if sshut a then (CrChanged LogicError false, a) else r in
  match x with
  | CcSet now k v fl =>
      if sshut a then (CrOutcome LogicError, a)
      else let '(o, a) := s_set slot_size now k v fl a in (CrOutcome o, a)
  | CcAdd now k v fl =>
      guard (match s_find k (ents a) with
             | Some _ => (CrChanged Done false, a)
             | None => let '(o, a) := s_set slot_size now k v fl a in (CrChanged o (match o with Done => true | _ => false end), a)
             end)
  | CcGet now k =>
      match s_find k (ents a) with
      | Some (v, _) => (CrValue (Some v), with_ents (s_touch now (srefresh a) k (ents a)) (slog a ++ [EvHit k v]) a)
      | None => (CrValue None, with_ents (ents a) (slog a ++ [EvMiss k]) a)
      end
  | CcPeek k => (CrValue (fst <$> s_find k (ents a)), a)
  | CcContains k => (CrBool (bool_decide (is_Some (s_find k (ents a)))), a)
  | CcDel k =>
      guard (match s_find k (ents a) with
             | Some (v, _) => (CrChanged Done true, with_ents (s_without k (ents a)) (slog a ++ [EvEvict k v]) a)
             | None => (CrChanged Done false, a)
             end)
  | CcFlush => if sshut a then (CrOutcome LogicError, a) else (CrOutcome Done, with_ents [] (slog a) a)
  | CcSize => (CrZ (Z.of_nat (length (ents a))), a)
  | CcMemory => (CrZ (u64 (slot_size * Z.of_nat (length (ents a)))), a)
  | CcMaxSize n =>
      let a := Spec (ents a) (slog a) n (smemory a) (srefresh a) (sshut a) in (CrUnit, evict_to (room (smax a) a) a)
  | CcShrink => (CrUnit, evict_to (room (smax a) a) a)
  | CcRefresh n => (CrUnit, Spec (ents a) (slog a) (smax a) (smemory a) n (sshut a))
  | CcShutdown => (CrUnit, Spec (ents a) (slog a) (smax a) (smemory a) (srefresh a) true)
  | CcThreshold _ => (CrUnit, a)
  end.

Fixpoint cc_run (xs : list cc_call) c : option (list cc_result * cache) :=
  match xs with
  | [] => Some ([], c)
  | x :: xs => '(r, c) ← cc_exec x c; '(rs, c) ← cc_run xs c; Some (r :: rs, c)
  end.

Fixpoint s_run (xs : list cc_call) a : list cc_result * spec Key Value :=
  match xs with
  | [] => ([], a)
  | x :: xs => let '(r, a) := s_exec x a in let '(rs, a) := s_run xs a in (r :: rs, a)
  end.

(** Sizes are unsigned. *)
Definition cc_legal (x : cc_call) : bool := match x with CcMaxSize n => 0 <=? n | _ => true end.

(** * One call *)

Abbreviation refines := (refines (Key := Key) (Value := Value) slot_size).

Lemma settings_ok c a rows ms rt sd th : refines c a rows ->
  refines (set_settings ms (max_memory_ c) rt sd th c) (Spec (ents a) (slog a) ms (smemory a) rt sd) rows.
Proof. intros [? ? [] ? ? ? ? (E1 & E2 & E3 & E4)]. by split. Qed.

Lemma collect_ok e c a rows : refines c a rows -> refines (collect e c) (with_ents (ents a) (slog a ++ [e]) a) rows.
Proof. intros [? ? [] ? ? ? Hl ?]. split; try done; try (by split). cbn. by rewrite Hl. Qed.

Lemma shut_ok c a rows : refines c a rows -> shutdown_ c = sshut a /\ smax a = max_size_ c.
Proof. by intros [_ _ _ _ _ _ _ (? & ? & ? & ?)]. Qed.

Lemma shrink_fit_ok c a rows : refines c a rows -> 0 <= smax a ->
  exists c' rows', shrink_to_fit_unlocked slot_size c = Some c' /\ refines c' (evict_to (room (smax a) a) a) rows'.
Proof.
  intros R Hm. unfold shrink_to_fit_unlocked. pose proof R as [Hl _ _ _ _ _ _ _]. rewrite Hl, length_fmap. by apply (shrink_ok slot_size (length rows) c a rows).
Qed.

Lemma get_ok now k c a rows : refines c a rows ->
  exists r c' rows', get now k c = Some (r, c') /\ s_exec (CcGet now k) a = (CrValue r, snd (s_exec (CcGet now k) a)) /\
    refines c' (snd (s_exec (CcGet now k) a)) rows'.
Proof.
  intros R. pose proof (key_row slot_size c a rows k R) as Hk. unfold get. cbn [s_exec]. destruct (map_ c !! k) as [p|].
  - destruct Hk as (r & Hr & <- & <-). rewrite (find_some slot_size c a rows r R Hr).
    destruct (record_access_ok slot_size now c a rows r R Hr) as (c1 & rows1 & -> & R1 & _ & t & Ht). cbn [mbind option_bind].
    pose proof R1 as [_ _ Hs _ _ _ _ _]. destruct (row_slot c1 rows1 _ Hs Ht) as [acc Hsl]. cbn in Hsl. rewrite Hsl. cbn [mbind option_bind contents].
    eexists _, _, rows1. split; [done|]. split; [done|]. apply (collect_ok _ _ (with_ents _ (slog a) a)). by apply refines_count.
  - rewrite Hk. eexists _, _, rows. split; [done|]. split; [done|]. apply collect_ok. by apply refines_count.
Qed.

(** Storing leaves the settings alone. *)
Lemma s_set_settings now k v fl a : smax (snd (s_set slot_size now k v fl a)) = smax a /\ smemory (snd (s_set slot_size now k v fl a)) = smemory a.
Proof. unfold s_set. destruct (s_find k (ents a)); [done|]. destruct (smax a =? 0); [done|]. by destruct fl. Qed.

Lemma cc_exec_ok x c a rows : refines c a rows -> 0 <= smax a -> cc_legal x ->
  exists c' rows', cc_exec x c = Some (fst (s_exec x a), c') /\ refines c' (snd (s_exec x a)) rows' /\ 0 <= smax (snd (s_exec x a)).
Proof.
  intros R Hmax Hleg. destruct (shut_ok c a rows R) as [Esh Emx].
  destruct x; cbn [cc_exec s_exec].
  - unfold set. rewrite Esh. destruct (sshut a); [by exists c, rows|].
    destruct (set_unlocked_ok slot_size map_load_factor now k v fl c a rows R Hmax) as (c' & rows' & -> & R'). cbn [mbind option_bind].
    destruct (s_set_settings now k v fl a) as [Hsm _]. destruct (s_set slot_size now k v fl a) as [o a']. cbn in *. exists c', rows'. rewrite Hsm. by split_and!.
  - unfold add. rewrite Esh. destruct (sshut a); [by exists c, rows|]. pose proof (key_row slot_size c a rows k R) as Hk.
    destruct (map_ c !! k) as [p|] eqn:Em.
    + destruct Hk as (r & Hr & <- & <-). rewrite (find_some slot_size c a rows r R Hr), bool_decide_true by eauto. by exists c, rows.
    + rewrite Hk, bool_decide_false by (by intros [? ?]).
      destruct (set_unlocked_ok slot_size map_load_factor now k v fl c a rows R Hmax) as (c' & rows' & -> & R'). cbn [mbind option_bind].
      destruct (s_set_settings now k v fl a) as [Hsm _]. destruct (s_set slot_size now k v fl a) as [o a']. cbn in *. exists c', rows'. rewrite Hsm. by split_and!.
  - destruct (get_ok now k c a rows R) as (r & c' & rows' & -> & E & R'). cbn [mbind option_bind]. cbn [s_exec] in E, R'. rewrite E. cbn [fst].
    exists c', rows'. split; [done|]. split; [done|]. by destruct (s_find k (ents a)) as [[]|].
  - pose proof (key_row slot_size c a rows k R) as Hk. unfold peek. destruct (map_ c !! k) as [p|] eqn:Em.
    + destruct Hk as (r & Hr & <- & <-). rewrite (find_some slot_size c a rows r R Hr). pose proof R as [_ _ Hs _ _ _ _ _].
      destruct (row_slot c rows r Hs Hr) as [acc Hsl]. rewrite Hsl. by exists c, rows.
    + rewrite Hk. by exists c, rows.
  - pose proof (key_row slot_size c a rows k R) as Hk. unfold contains. exists c, rows. split; [|done]. cbn. do 3 f_equal.
    destruct (map_ c !! k) as [p|]; [|by rewrite Hk]. destruct Hk as (r & Hr & _ & <-). by rewrite (find_some slot_size c a rows r R Hr), !bool_decide_true.
  - unfold del. rewrite Esh. destruct (sshut a); [by exists c, rows|]. pose proof (key_row slot_size c a rows k R) as Hk.
    destruct (map_ c !! k) as [p|] eqn:Em; [|rewrite Hk; by exists c, rows].
    destruct Hk as (r & Hr & <- & <-). rewrite (find_some slot_size c a rows r R Hr).
    destruct (erase_ok slot_size c a rows r R Hr) as (c' & -> & R'). by exists c', (drop_row r.1 rows).
  - destruct (sshut a) eqn:E; [unfold flush; rewrite Esh; by exists c, rows|].
    destruct (flush_ok slot_size c a rows R) as (c' & -> & R'); [by rewrite Esh|]. by exists c', [].
  - exists c, rows. rewrite (size_rows slot_size c a rows R), (ents_rows slot_size c a rows R). by split_and!.
  - exists c, rows. pose proof R as [_ _ _ _ -> _ _ _]. rewrite (ents_rows slot_size c a rows R). by split_and!.
  - unfold set_max_size. set (c1 := set_stats _ _).
    assert (refines c1 (Spec (ents a) (slog a) n (smemory a) (srefresh a) (sshut a)) rows) as R1.
    { pose proof (settings_ok c a rows n (srefresh a) (sshut a) (hash_overload_threshold_ c) R) as [? ? [] ? ? ? ? (E1 & E2 & E3 & E4)].
      pose proof R as [_ _ _ _ _ _ _ (_ & _ & F3 & F4)]. by split. }
    apply Is_true_true, Z.leb_le in Hleg. destruct (shrink_fit_ok c1 _ rows R1) as (c' & rows' & -> & R'); [done|]. cbn [mbind option_bind]. by exists c', rows'.
  - destruct (shrink_fit_ok c a rows R Hmax) as (c' & rows' & -> & R'). cbn [mbind option_bind]. by exists c', rows'.
  - eexists _, rows. split; [done|]. split; [|done]. rewrite Emx, <- Esh. by apply settings_ok.
  - eexists _, rows. split; [done|]. split; [|done]. pose proof R as [_ _ _ _ _ _ _ (_ & _ & <- & _)]. rewrite Emx. by apply settings_ok.
  - eexists _, rows. split; [done|]. split; [|done]. pose proof (settings_ok c a rows (max_size_ c) (refresh_time_ c) (shutdown_ c) f R) as R'.
    destruct R as [_ _ _ _ _ _ _ (F1 & F2 & F3 & F4)]. rewrite F1, F3, F4 in R'. unfold set_hash_overload_threshold. rewrite F1, F3, F4. by destruct a.
Qed.

Lemma cc_run_ok xs : forall c a rows, refines c a rows -> 0 <= smax a -> Forall (fun x => cc_legal x) xs ->
  exists c' rows', cc_run xs c = Some (fst (s_run xs a), c') /\ refines c' (snd (s_run xs a)) rows'.
Proof.
  induction xs as [|x xs IH]; intros c a rows R Hm Hl; [by exists c, rows|]. apply Forall_cons in Hl as [Hx Hxs].
  destruct (cc_exec_ok x c a rows R Hm Hx) as (c1 & rows1 & E1 & R1 & Hm1). cbn [cc_run s_run]. rewrite E1. cbn [mbind option_bind].
  destruct (s_exec x a) as [r a1]. cbn [fst snd] in *. destruct (IH c1 a1 rows1 R1 Hm1 Hxs) as (c2 & rows2 & -> & R2). cbn [mbind option_bind].
  exists c2, rows2. by destruct (s_run xs a1).
Qed.

(** * Construction *)

Definition fresh (max_size max_memory : Z) : spec Key Value := Spec [] [] max_size max_memory 60 false.

Lemma reserve_ok fuel count : forall c, slots_ok c [] -> count - Z.of_nat (total_slots_ (allocator_ c)) <= Z.of_nat fuel ->
  exists c', reserve_loop fuel count c = Some c' /\ slots_ok c' [] /\ same_rest c c'.
Proof.
  induction fuel as [|fuel IH]; intros c Hs Hf; cbn [reserve_loop]; destruct (Z.ltb_spec (Z.of_nat (total_slots_ (allocator_ c))) count);
    try (by exists c); [lia|].
  destruct (allocate_block_ok c [] Hs) as [Hs1 Hr1]. destruct (IH (allocate_block c) Hs1) as (c' & E & Hs' & Hr').
  - unfold allocate_block. cbn [allocator_ set_slots set_allocator total_slots_]. assert (1 <= kSlotsPerBlock)%nat by (unfold kSlotsPerBlock; lia). lia.
  - exists c'. split; [done|]. split; [done|]. unfold same_rest in *. intuition congruence.
Qed.

Lemma new_refines ms mm : exists c, compact_cache_new ms mm = Some c /\ refines c (fresh ms mm) [].
Proof.
  unfold compact_cache_new, reserve. set (c0 := CompactCache _ _ _ _ _ _ _ _ _ _ _ _).
  assert (slots_ok c0 []) as Hs by (split; cbn; try done; try constructor; set_solver).
  destruct (reserve_ok (Z.to_nat (Z.min ms 4096)) (Z.min ms 4096) c0 Hs) as (c & E & Hs' & Hr'); [lia|].
  exists c. split; [done|]. apply (refines_rest slot_size c0); [done| |done]. split; try done; cbn.
  - split; [constructor| |done]. intros k p. rewrite lookup_empty. split; [done|]. by intros (r & ?%not_elem_of_nil & _).
  - by rewrite Z.mul_0_r.
Qed.

(** * Limits of the specification *)

Record within (b : nat) a : Prop := {
  wi_count : (length (ents a) <= b)%nat;
  wi_size : smax a = npos \/ Z.of_nat (length (ents a)) <= smax a;
  wi_memory : smemory a = npos \/ slot_size * Z.of_nat (length (ents a)) <= Z.max 0 (smemory a) + slot_size
}.

(** Fewer entries under the same limits. *)
Lemma within_less b a a' : 0 < slot_size -> within b a -> smax a' = smax a -> smemory a' = smemory a -> (length (ents a') <= length (ents a))%nat ->
  within (S b) a'.
Proof.
  intros Hs [H1 H2 H3] E1 E2 Hl. split; [lia|rewrite E1; lia|]. rewrite E2. destruct H3 as [?|H3]; [by left|]. right.
  apply (Z.le_trans _ (slot_size * Z.of_nat (length (ents a)))); [|done]. apply Z.mul_le_mono_nonneg_l; lia.
Qed.

Lemma without_less (k : Key) (l : list (ent Key Value)) v t : s_find k l = Some (v, t) -> (length (s_without k l) < length l)%nat.
Proof.
  induction l as [|[[k' v'] t'] l IH]; [done|]. cbn [s_find]. unfold s_without. rewrite filter_cons. cbn [ekey fst].
  assert (length (s_without k l) <= length l)%nat by apply length_filter. destruct (decide (k' = k)) as [->|Hne].
  - rewrite decide_False by tauto. unfold s_without in *. cbn. lia.
  - rewrite decide_True by done. intros Hf%IH. unfold s_without in *. cbn. lia.
Qed.

Lemma touch_less now rt (k : Key) (l : list (ent Key Value)) : (length (s_touch now rt k l) <= length l)%nat.
Proof.
  unfold s_touch. destruct (s_find k l) as [[v t]|] eqn:E; [|lia]. destruct (now <? _); [lia|]. apply without_less in E. cbn. lia.
Qed.

Lemma memory_keep_fits limit n : memory_keep slot_size limit n = 0%nat \/ limit = npos \/
  u64 (slot_size * Z.of_nat (memory_keep slot_size limit n)) <= limit.
Proof.
  induction n as [|n IH]; [by left|]. cbn [memory_keep]. destruct (Z.eqb_spec limit npos); [tauto|]. cbn [negb andb].
  destruct (Z.ltb_spec limit (u64 (slot_size * Z.of_nat (S n)))); tauto.
Qed.

Lemma set_within b now k v fl a : 0 < slot_size -> slot_size * Z.of_nat (S b) < 2 ^ 64 -> 0 <= smax a -> within b a ->
  within (S b) (snd (s_set slot_size now k v fl a)).
Proof.
  intros Hs Hb Hmax Hw. unfold s_set. destruct (s_find k (ents a)) as [[v' t]|] eqn:Ef.
  - apply (within_less b a); try done. cbn. etransitivity; [apply touch_less|]. unfold s_assign. by rewrite length_fmap.
  - destruct (Z.eqb_spec (smax a) 0); [by apply (within_less b a)|]. unfold s_make_room. set (a1 := evict_to (room (smax a - 1) a) a).
    set (n2 := memory_keep slot_size (smemory a1) (length (ents a1))).
    assert (smax a = npos \/ Z.of_nat (length (ents a1)) <= smax a - 1) as H1.
    { unfold a1, room. cbn. destruct (Z.eqb_spec (smax a) npos); [by left|]. right. rewrite length_take. lia. }
    assert (n2 <= length (ents a1))%nat as H2 by apply memory_keep_le.
    assert (length (ents a1) <= length (ents a))%nat as H3 by (cbn; rewrite length_take; lia).
    assert (length (ents (evict_to n2 a1)) = n2) as H4 by (cbn; rewrite length_take; unfold a1 in H2; cbn in H2; lia).
    destruct Hw as [W1 W2 W3]. destruct fl; cbn [snd].
    + apply (within_less b a); [done|by split|done|done|lia].
    + assert (length (ents (with_ents ((k, v, now) :: ents (evict_to n2 a1)) (slog (evict_to n2 a1) ++ [EvInsert k v]) (evict_to n2 a1))) = S n2) as H5.
      { cbn [ents with_ents length]. by rewrite <- H4 at 2. }
      split; rewrite ?H5; [lia| |]; cbn [smax smemory with_ents evict_to a1]; [clear -H1 H2; lia|].
      destruct (memory_keep_fits (smemory a1) (length (ents a1))) as [Hk|[Hk|Hk]]; fold n2 in Hk.
      * right. rewrite Hk. clear; lia.
      * by left.
      * right. assert (slot_size * Z.of_nat n2 <= slot_size * Z.of_nat (S b)) as Hn by (apply Z.mul_le_mono_nonneg_l; lia).
        rewrite wrap_small in Hk by (split; [apply Z.mul_nonneg_nonneg; lia|lia]). change (smemory a1) with (smemory a) in Hk.
        rewrite Nat2Z.inj_succ, Z.mul_succ_r. clear -Hk; lia.
Qed.

Lemma exec_within b x a : 0 < slot_size -> slot_size * Z.of_nat (S b) < 2 ^ 64 -> 0 <= smax a -> cc_legal x -> within b a ->
  within (S b) (snd (s_exec x a)) /\ 0 <= smax (snd (s_exec x a)).
Proof.
  intros Hs Hb Hmax Hleg Hw.
  assert (forall a', smax a' = smax a -> smemory a' = smemory a -> (length (ents a') <= length (ents a))%nat -> within (S b) a' /\ 0 <= smax a') as Hless.
  { intros a' E1 E2 El. split; [by apply (within_less b a)|by rewrite E1]. }
  destruct x; cbn [s_exec]; try (apply Hless; done).
  - destruct (sshut a); [by apply Hless|]. destruct (s_set_settings now k v fl a) as [Hsm _]. pose proof (set_within b now k v fl a Hs Hb Hmax Hw) as Hset.
    destruct (s_set slot_size now k v fl a) as [o a']. cbn in *. by rewrite Hsm.
  - destruct (sshut a); [by apply Hless|]. destruct (s_find k (ents a)); [by apply Hless|]. destruct (s_set_settings now k v fl a) as [Hsm _].
    pose proof (set_within b now k v fl a Hs Hb Hmax Hw) as Hset. destruct (s_set slot_size now k v fl a) as [o a']. cbn in *. by rewrite Hsm.
  - destruct (s_find k (ents a)) as [[v t]|]; apply Hless; try done. cbn. apply touch_less.
  - destruct (sshut a); [by apply Hless|]. destruct (s_find k (ents a)) as [[v t]|]; apply Hless; try done. cbn. apply length_filter.
  - destruct (sshut a); apply Hless; try done. cbn. lia.
  - apply Is_true_true, Z.leb_le in Hleg. cbn [snd]. split; [|done]. destruct Hw as [W1 W2 W3].
    set (a1 := Spec (ents a) (slog a) n (smemory a) (srefresh a) (sshut a)).
    assert (length (ents (evict_to (room (smax a1) a1) a1)) <= length (ents a))%nat as Hle by (cbn; rewrite length_take; lia).
    split; [lia| |].
    + cbn. unfold room. cbn. destruct (Z.eqb_spec n npos); [by left|]. right. rewrite length_take. lia.
    + destruct W3 as [?|W3]; [by left|]. right. cbn [smemory evict_to with_ents a1]. nia.
  - apply Hless; try done. cbn. rewrite length_take. lia.
Qed.

Lemma run_within xs : forall b a, 0 < slot_size -> slot_size * Z.of_nat (b + length xs) < 2 ^ 64 -> 0 <= smax a ->
  Forall (fun x => cc_legal x) xs -> within b a -> within (b + length xs) (snd (s_run xs a)).
Proof.
  induction xs as [|x xs IH]; intros b a Hs Hb Hm Hl Hw; cbn [s_run length] in *; [by rewrite Nat.add_0_r|]. apply Forall_cons in Hl as [Hx Hxs].
  destruct (exec_within b x a Hs ltac:(nia) Hm Hx Hw) as [Hw1 Hm1]. destruct (s_exec x a) as [r a1]. cbn [snd] in *.
  specialize (IH (S b) a1 Hs ltac:(replace (S b + length xs)%nat with (b + S (length xs))%nat by lia; done) Hm1 Hxs Hw1).
  destruct (s_run xs a1) as [rs a2]. cbn [snd] in *. by replace (b + S (length xs))%nat with (S b + length xs)%nat by lia.
Qed.

Lemma s_exec_memory x a : smemory (snd (s_exec x a)) = smemory a.
Proof.
  destruct x; cbn [s_exec]; try done.
  - destruct (sshut a); [done|]. destruct (s_set_settings now k v fl a) as [_ Hsm]. by destruct (s_set slot_size now k v fl a).
  - destruct (sshut a); [done|]. destruct (s_find k (ents a)); [done|]. destruct (s_set_settings now k v fl a) as [_ Hsm]. by destruct (s_set slot_size now k v fl a).
  - by destruct (s_find k (ents a)) as [[v t]|].
  - destruct (sshut a); [done|]. by destruct (s_find k (ents a)) as [[v t]|].
  - by destruct (sshut a).
Qed.

Lemma s_run_memory xs : forall a, smemory (snd (s_run xs a)) = smemory a.
Proof.
  induction xs as [|x xs IH]; intros a; [done|]. cbn [s_run]. pose proof (s_exec_memory x a) as Hx. destruct (s_exec x a) as [r a1].
  specialize (IH a1). destruct (s_run xs a1). cbn in *. congruence.
Qed.

(** * Properties *)

(** C14: every sequence of calls on a fresh compact cache, throwing insertions
    included, runs to its end with the answers and the callbacks of a list of
    entries in recency order; no slot is lost: every slot is on the free list or
    holds an entry, and the allocator's count is the cache's size. *)
Theorem compact_cache_refines (max_size max_memory : Z) (xs : list cc_call) : 0 <= max_size -> Forall (fun x => cc_legal x) xs ->
  let a := snd (s_run xs (fresh max_size max_memory)) in
  exists c0 c, compact_cache_new max_size max_memory = Some c0 /\
    cc_run xs c0 = Some (fst (s_run xs (fresh max_size max_memory)), c) /\ log_ c = slog a /\
    size_unlocked c = Z.of_nat (length (ents a)) /\
    (length (ents a) + length (free_list_ (allocator_ c)) = total_slots_ (allocator_ c))%nat /\
    NoDup (lru_list_ c ++ free_list_ (allocator_ c)) /\ used_slots_ (allocator_ c) = u64 (size_unlocked c).
Proof.
  intros Hm Hl a. destruct (new_refines max_size max_memory) as (c0 & E0 & R0).
  destruct (cc_run_ok xs c0 _ [] R0 Hm Hl) as (c & rows & E & R). fold a in R. exists c0, c. split; [done|]. split; [done|].
  rewrite (size_rows slot_size c a rows R), (ents_rows slot_size c a rows R). destruct R as [Hlru _ [] _ _ _ Hlog _]. rewrite Hlru. by split_and!.
Qed.

(** C15: after any sequence of calls the cache holds at most [max_size] entries,
    and its memory is the entries' and at most the limit plus one slot. *)
Theorem compact_cache_limits (max_size max_memory : Z) (xs : list cc_call) (c0 c : cache) (rs : list cc_result) :
  0 < slot_size -> slot_size * Z.of_nat (length xs) < 2 ^ 64 -> 0 <= max_size -> 0 <= max_memory -> Forall (fun x => cc_legal x) xs ->
  compact_cache_new max_size max_memory = Some c0 -> cc_run xs c0 = Some (rs, c) ->
  (max_size_ c = npos \/ size_unlocked c <= max_size_ c) /\
  current_memory_ c = slot_size * size_unlocked c /\
  (max_memory = npos \/ current_memory_ c <= max_memory + slot_size).
Proof.
  intros Hs Hb Hm Hmm Hl E0 E. destruct (new_refines max_size max_memory) as (c0' & E0' & R0). rewrite E0 in E0'. injection E0' as <-.
  destruct (cc_run_ok xs c0 _ [] R0 Hm Hl) as (c' & rows & E' & R). rewrite E in E'. injection E' as -> <-.
  assert (within 0 (fresh max_size max_memory)) as Hw by (split; cbn; lia).
  destruct (run_within xs 0 (fresh max_size max_memory) Hs Hb Hm Hl Hw) as [W1 W2 W3]. rewrite (size_rows slot_size c _ rows R).
  rewrite s_run_memory in W3. cbn [fresh smemory] in W3. rewrite (ents_rows slot_size c _ rows R) in *.
  destruct R as [_ _ _ _ Hmem _ _ (F1 & _)]. rewrite F1, Hmem.
  assert (slot_size * Z.of_nat (length rows) <= slot_size * Z.of_nat (0 + length xs)) by (apply Z.mul_le_mono_nonneg_l; lia).
  rewrite wrap_small by (split; [apply Z.mul_nonneg_nonneg; lia|cbn in *; lia]). rewrite Z.max_r in W3 by done. by split_and!.
Qed.

End calls.

(** * Concrete runs *)

(** A cache of two entries: the third insertion evicts the entry that was not
    read, a throwing insertion makes room and stores nothing, a zero limit drops
    everything. *)
Definition cc_demo : list (@cc_call Z Z) :=
  [CcSet 100 1 10 None; CcSet 101 2 20 None; CcGet 200 1; CcSet 201 3 30 None; CcPeek 2; CcContains 1;
   CcSet 202 4 40 (Some MapThrows); CcSize; CcMemory; CcAdd 203 3 31 None; CcMaxSize 0; CcSize; CcShutdown; CcDel 3].

Lemma compact_cache_refines_witness : exists c0 c : compact_cache Z Z,
  compact_cache_new 2 npos = Some c0 /\
  cc_run 64 (fun _ => S754_zero false) cc_demo c0 =
    Some ([CrOutcome Done; CrOutcome Done; CrValue (Some 10); CrOutcome Done; CrValue None; CrBool true;
           CrOutcome (Threw MapThrows); CrZ 1; CrZ 64; CrChanged Done false; CrUnit; CrZ 0; CrUnit; CrChanged LogicError false], c) /\
  log_ c = [EvInsert 1 10; EvInsert 2 20; EvHit 1 10; EvEvict 2 20; EvInsert 3 30; EvEvict 1 10; EvEvict 3 30].
Proof.
  destruct (compact_cache_refines 64 (fun _ => S754_zero false) 2 npos cc_demo) as (c0 & c & E0 & E & L & _); [lia|by repeat constructor|].
  exists c0, c. split; [exact E0|]. split; [rewrite E; vm_compute; reflexivity|rewrite L; vm_compute; reflexivity].
Defined.

Lemma compact_cache_limits_witness : exists (c0 c : compact_cache Z Z) rs,
  compact_cache_new 2 100 = Some c0 /\ cc_run 64 (fun _ => S754_zero false) cc_demo c0 = Some (rs, c) /\
  (max_size_ c = npos \/ size_unlocked c <= max_size_ c) /\ current_memory_ c = 64 * size_unlocked c /\
  (100 = npos \/ current_memory_ c <= 100 + 64).
Proof.
  assert (Forall (fun x => cc_legal x) cc_demo) as Hl by (by repeat constructor).
  destruct (new_refines (Key := Z) (Value := Z) 64 2 100) as (c0 & E0 & R0).
  destruct (cc_run_ok 64 (fun _ => S754_zero false) cc_demo c0 _ [] R0 ltac:(cbn; lia) Hl) as (c & rows & E & _).
  exists c0, c, (fst (s_run 64 cc_demo (fresh 2 100))). split; [exact E0|]. split; [exact E|].
  apply (compact_cache_limits 64 (fun _ => S754_zero false) 2 100 cc_demo c0 c (fst (s_run 64 cc_demo (fresh 2 100)))); try done; cbn; lia.
Defined.
