(* ===== verification/Singleflight.v ===== *)
(** Stampede protection (detail/singleflight.hpp) and the fetch path of
    [unified_cache] that uses it (cache_trait.hpp, [get_or_fetch] and
    [try_get_or_fetch] with a provider), as a step system of threads: the first
    miss of a key leads and calls the provider, the others wait for its outcome.

    A critical section is one step. The cache itself is a finite map that the
    environment may change between any two steps. *)

From S2P Require Import Prelude.

Definition NumShards : nat := 16.

Section flight.
Context {Key Value Exc : Type} `{Countable Key}.
(** [std::hash<Key>], and the two exceptions the fetch path itself throws. *)
Context (hash : Key -> Z) (closed oom : Exc).

(** * The tracker *)

(** [singleflight_state]: the fields behind its mutex. *)
Record flight := Flight {
  done : bool;
  value : option Value;
  exception : option Exc
}.

Definition flight_new : flight := Flight false None None.

(** [singleflight_tracker]; the states are numbered in the order of their
    creation, since followers keep a state that has left the shard. *)
Record tracker := Tracker {
  shards_ : list (gmap Key nat);
  flights : list flight;
  coalesced_ : Z
}.

Definition tracker_new : tracker := Tracker (replicate NumShards ∅) [] 0.

Definition shard_for (k : Key) : nat := Z.to_nat (hash k mod Z.of_nat NumShards).
Definition inflight (k : Key) (t : tracker) : option nat := s ← shards_ t !! shard_for k; s !! k.

(** The shared state and whether the caller leads. *)
Definition acquire (k : Key) (t : tracker) : nat * bool * tracker :=
  match inflight k t with
  | Some id => (id, false, t)
  | None =>
      let id := length (flights t) in
      (id, true, Tracker (alter <[k := id]> (shard_for k) (shards_ t)) (flights t ++ [flight_new]) (coalesced_ t))
  end.

(** [complete] is three steps: the outcome is stored, the waiters are notified,
    the entry is removed. *)
Definition complete (id : nat) (v : option Value) (exc : option Exc) (t : tracker) : tracker :=
  Tracker (shards_ t) (<[id := Flight true v exc]> (flights t)) (coalesced_ t).
Definition remove_entry (k : Key) (t : tracker) : tracker :=
  Tracker (alter (delete k) (shard_for k) (shards_ t)) (flights t) (coalesced_ t).

Definition record_coalesced (t : tracker) : tracker := Tracker (shards_ t) (flights t) (u64 (coalesced_ t + 1)).
Definition coalesced_count (t : tracker) : Z := coalesced_ t.
Definition inflight_count (t : tracker) : nat := sum_list (size <$> shards_ t).

(** What [wait_and_get] finds: still waiting, or the outcome; [None] reads an
    empty optional. *)
Definition wait_and_get (f : flight) : option (option (Value + Exc)) :=
  if done f then
    match exception f with
    | Some e => Some (Some (inr e))
    | None => v ← value f; Some (Some (inl v))
    end
  else Some None.

(** * The threads *)

(** A leader has a state; with the protection disabled a thread fetches alone. *)
Inductive role := Alone | Leader (id : nat).
(** How a finished thread got its result; a follower may have found the key in
    the cache. *)
Inductive origin := Hit | ByItself | AsLeader (id : nat) | AsFollower (id : nat) (cached : bool).

Inductive pc :=
| Lookup
| Acquire
| Call (r : role)
| Insert (r : role) (v : Value)
| Signal (id : nat) (res : Value + Exc)
| Notify (id : nat) (res : Value + Exc)
| Erase (id : nat) (res : Value + Exc)
| Wait (id : nat)
| Parked (id : nat)
| Recheck (id : nat) (v : Value)
| Finished (o : origin) (res : Value + Exc).

(** The insertion under the write lock, with what the monitors say. *)
Inductive insertion := MemoryCritical | ShutDown | Rejected | SetThrows (e : Exc) | Store.

(** What the thread reads from outside in a step. *)
Record oracle := Oracle {
  shutdown_ : bool;
  singleflight_enabled_ : bool;
  provider : Value + Exc;
  insertion_of : insertion
}.

Record system := System {
  cache : gmap Key Value;
  singleflight_ : tracker;
  threads : list (Key * pc)
}.

(** The result of a thread that holds role [r]: a leader publishes it first. *)
Definition conclude (r : role) (res : Value + Exc) : pc :=
  match r with
  | Alone => Finished ByItself res
  | Leader id => Signal id res
  end.

(** The double-checked insertion. *)
Definition insert_fetched (k : Key) (v : Value) (o : insertion) (c : gmap Key Value) : (Value + Exc) * gmap Key Value :=
  match o with
  | MemoryCritical => (inl v, c)
  | ShutDown => (inr closed, c)
  | Rejected => match c !! k with Some w => (inl w, c) | None => (inr oom, c) end
  | SetThrows e => match c !! k with Some w => (inl w, c) | None => (inr e, c) end
  | Store => match c !! k with Some w => (inl w, c) | None => (inl v, <[k := v]> c) end
  end.

(** [notify_all] *)
Definition notify (id : nat) (x : Key * pc) : Key * pc :=
  match x.2 with
  | Parked id' => if decide (id' = id) then (x.1, Wait id) else x
  | _ => x
  end.

Definition move (i : nat) (k : Key) (p : pc) (s : system) : system :=
  System (cache s) (singleflight_ s) (<[i := (k, p)]> (threads s)).
Definition with_tracker (t : tracker) (s : system) : system := System (cache s) t (threads s).

(** One step of thread [i]; a parked or finished thread has none. *)
Definition sf_step (i : nat) (o : oracle) (s : system) : option system :=
  '(k, p) ← threads s !! i;
  let t := singleflight_ s in
  match p with
  | Lookup =>
      Some (move i k (if shutdown_ o then Finished ByItself (inr closed)
                      else match cache s !! k with Some v => Finished Hit (inl v) | None => Acquire end) s)
  | Acquire =>
      if singleflight_enabled_ o then
        let '(id, is_leader, t) := acquire k t in
        Some (if is_leader then move i k (Call (Leader id)) (with_tracker t s)
              else move i k (Wait id) (with_tracker (record_coalesced t) s))
      else Some (move i k (Call Alone) s)
  | Call r =>
      Some (move i k (match provider o with inl v => Insert r v | inr e => conclude r (inr e) end) s)
  | Insert r v =>
      let '(res, c) := insert_fetched k v (insertion_of o) (cache s) in
      Some (move i k (conclude r res) (System c t (threads s)))
  | Signal id res =>
      let t := match res with inl v => complete id (Some v) None t | inr e => complete id None (Some e) t end in
      Some (move i k (Notify id res) (with_tracker t s))
  | Notify id res => Some (move i k (Erase id res) (System (cache s) t (notify id <$> threads s)))
  | Erase id res => Some (move i k (Finished (AsLeader id) res) (with_tracker (remove_entry k t) s))
  | Wait id =>
      f ← flights t !! id;
      r ← wait_and_get f;
      Some (move i k (match r with
                      | None => Parked id
                      | Some (inl v) => Recheck id v
                      | Some (inr e) => Finished (AsFollower id false) (inr e)
                      end) s)
  | Recheck id v =>
      Some (move i k (match cache s !! k with
                      | Some w => Finished (AsFollower id true) (inl w)
                      | None => Finished (AsFollower id false) (inl v)
                      end) s)
  | Parked _ | Finished _ _ => None
  end.

(** A step of a thread, a spurious wake-up, or a change of the cache by others. *)
Inductive sf_label := Run (i : nat) (o : oracle) | Spurious (i : nat) | Env (c : gmap Key Value).

Definition sf_exec (l : sf_label) (s : system) : option system :=
  match l with
  | Run i o => sf_step i o s
  | Spurious i =>
      '(k, p) ← threads s !! i;
      match p with Parked id => Some (move i k (Wait id) s) | _ => None end
  | Env c => Some (System c (singleflight_ s) (threads s))
  end.

Fixpoint sf_run (ls : list sf_label) (s : system) : option system :=
  match ls with
  | [] => Some s
  | l :: ls => s ← sf_exec l s; sf_run ls s
  end.

(** Threads that call [get_or_fetch] on the keys. *)
Definition sf_start (c : gmap Key Value) (ks : list Key) : system := System c tracker_new ((fun k => (k, Lookup)) <$> ks).

(** * The invariant *)

(** The state a thread leads until it has removed the entry, and the steps at
    which its outcome is still to be stored, or its waiters still to be notified. *)
Definition leads (p : pc) : option nat :=
  match p with
  | Call (Leader id) | Insert (Leader id) _ | Signal id _ | Notify id _ | Erase id _ => Some id
  | _ => None
  end.
Definition before_signal (p : pc) : option nat :=
  match p with Call (Leader id) | Insert (Leader id) _ | Signal id _ => Some id | _ => None end.
Definition will_notify (p : pc) : option nat :=
  match p with Call (Leader id) | Insert (Leader id) _ | Signal id _ | Notify id _ => Some id | _ => None end.

Definition outcome_of (p : pc) : option (nat * (Value + Exc)) :=
  match p with Notify id res | Erase id res | Finished (AsLeader id) res => Some (id, res) | _ => None end.

Definition published (res : Value + Exc) : flight :=
  match res with inl v => Flight true (Some v) None | inr e => Flight true None (Some e) end.

(** What a follower may return when the leader's outcome is [pub]. *)
Definition agrees (cached : bool) (res pub : Value + Exc) : Prop :=
  match res, pub with
  | inl v, inl w => cached = true \/ v = w
  | inr e, inr e' => e = e'
  | _, _ => False
  end.

(** [L] lists the key and the leading thread of every state. *)
Implicit Types (L : list (Key * nat)) (t : tracker) (T : list (Key * pc)).

Definition thread_ok L t T (i : nat) (x : Key * pc) : Prop :=
  match x.2 with
  | Lookup | Acquire | Call Alone | Insert Alone _ | Finished Hit _ | Finished ByItself _ => True
  | Call (Leader id) | Insert (Leader id) _ | Signal id _ =>
      L !! id = Some (x.1, i) /\ flights t !! id = Some flight_new /\ inflight x.1 t = Some id
  | Notify id res | Erase id res =>
      L !! id = Some (x.1, i) /\ flights t !! id = Some (published res) /\ inflight x.1 t = Some id
  | Wait id => exists j, L !! id = Some (x.1, j)
  | Parked id => exists j p, L !! id = Some (x.1, j) /\ T !! j = Some (x.1, p) /\ will_notify p = Some id
  | Recheck id v => (exists j, L !! id = Some (x.1, j)) /\ flights t !! id = Some (published (inl v))
  | Finished (AsLeader id) res => L !! id = Some (x.1, i) /\ flights t !! id = Some (published res)
  | Finished (AsFollower id cached) res =>
      exists j pub, L !! id = Some (x.1, j) /\ flights t !! id = Some (published pub) /\ agrees cached res pub
  end.

Record sf_inv L t T : Prop := {
  si_length : length L = length (flights t);
  si_shards : length (shards_ t) = NumShards;
  si_threads : forall i x, T !! i = Some x -> thread_ok L t T i x;
  si_entry : forall k id, inflight k t = Some id -> exists i p, L !! id = Some (k, i) /\ T !! i = Some (k, p) /\ leads p = Some id;
  si_flight : forall id f, flights t !! id = Some f ->
    (f = flight_new /\ exists k i p, L !! id = Some (k, i) /\ T !! i = Some (k, p) /\ before_signal p = Some id) \/
    exists res k i p, f = published res /\ L !! id = Some (k, i) /\ T !! i = Some (k, p) /\ outcome_of p = Some (id, res)
}.

Lemma inflight_put k k' id t : length (shards_ t) = NumShards ->
  inflight k' (Tracker (alter <[k := id]> (shard_for k) (shards_ t)) (flights t ++ [flight_new]) (coalesced_ t)) =
  if decide (k' = k) then Some id else inflight k' t.
Proof.
  intros Hl. unfold inflight. cbn [shards_]. assert (shard_for k < length (shards_ t))%nat as Hk.
  { rewrite Hl. unfold shard_for, NumShards. pose proof (Z.mod_pos_bound (hash k) (Z.of_nat 16)). lia. }
  apply lookup_lt_is_Some in Hk as [s Hs]. destruct (decide (shard_for k' = shard_for k)) as [E|E].
  - rewrite E, list_lookup_alter_eq, Hs. cbn [fmap option_fmap option_map mbind option_bind]. destruct (decide (k' = k)) as [->|Hne]; [by rewrite lookup_insert_eq|by rewrite lookup_insert_ne].
  - rewrite list_lookup_alter_ne by done. rewrite decide_False by congruence. done.
Qed.

Lemma inflight_remove k k' t : inflight k' (remove_entry k t) = if decide (k' = k) then None else inflight k' t.
Proof.
  unfold inflight. cbn [remove_entry shards_]. destruct (decide (shard_for k' = shard_for k)) as [E|E].
  - rewrite E, list_lookup_alter_eq. destruct (shards_ t !! shard_for k) as [s|]; cbn [fmap option_fmap option_map mbind option_bind]; [|by destruct (decide _)].
    destruct (decide (k' = k)) as [->|Hne]; [by rewrite lookup_delete_eq|by rewrite lookup_delete_ne].
  - rewrite list_lookup_alter_ne by done. by rewrite decide_False by congruence.
Qed.

(** A thread that keeps its role keeps it in the moved list. *)
Lemma keep_role {A} T i k p p' (g : pc -> option A) j kj pj id : T !! i = Some (k, p) -> (g p = Some id -> g p' = Some id) ->
  T !! j = Some (kj, pj) -> g pj = Some id -> exists p2, <[i := (k, p')]> T !! j = Some (kj, p2) /\ g p2 = Some id.
Proof.
  intros Hi Hg Hj Hid. destruct (decide (j = i)) as [->|Hne].
  - rewrite Hi in Hj. injection Hj as <- <-. exists p'. rewrite list_lookup_insert_eq by by eapply lookup_lt_Some. auto.
  - exists pj. by rewrite list_lookup_insert_ne.
Qed.

(** A step that leaves the tracker's entries and states alone, and the thread's
    leadership with it. *)
Lemma inv_move L t t' T i k p p' : sf_inv L t T -> T !! i = Some (k, p) -> shards_ t' = shards_ t -> flights t' = flights t ->
  (forall id, leads p = Some id -> leads p' = Some id) ->
  (forall id, before_signal p = Some id -> before_signal p' = Some id) ->
  (forall id, will_notify p = Some id -> will_notify p' = Some id) -> (forall r, outcome_of p = Some r -> outcome_of p' = Some r) ->
  thread_ok L t T i (k, p') -> sf_inv L t' (<[i := (k, p')]> T).
Proof.
  intros [Hlen Hsh Hth Hen Hfl] Hi Es Ef Hle Hbs Hwn Hout Hok.
  assert (forall k, inflight k t' = inflight k t) as Ei by (intros ?; unfold inflight; by rewrite Es).
  assert (forall j x, thread_ok L t T j x -> thread_ok L t' (<[i := (k, p')]> T) j x) as Hmono.
  { intros j [kj pj]. unfold thread_ok. cbn [fst snd]. rewrite Ef, Ei. destruct pj; try done.
    intros (j' & pj & H1 & H2 & H3). destruct (keep_role T i k p p' will_notify j' kj pj id Hi (Hwn id) H2 H3) as (p2 & ? & ?). by exists j', p2. }
  split; try (by rewrite ?Es, ?Ef).
  - intros j x [(-> & <- & _)|[_ Hj]]%list_lookup_insert_Some; apply Hmono; auto.
  - intros k' id. rewrite Ei. intros (j & pj & H1 & H2 & H3)%Hen. destruct (keep_role T i k p p' leads j k' pj id Hi (Hle id) H2 H3) as (p2 & ? & ?). by exists j, p2.
  - intros id f. rewrite Ef. intros [[-> (kj & j & pj & H1 & H2 & H3)]|(res & kj & j & pj & -> & H1 & H2 & H3)]%Hfl; [left; split; [done|]|right].
    2: { destruct (keep_role T i k p p' outcome_of j kj pj (id, res) Hi (Hout _) H2 H3) as (p2 & ? & ?). by exists res, kj, j, p2. }
    destruct (keep_role T i k p p' before_signal j kj pj id Hi (Hbs id) H2 H3) as (p2 & ? & ?). by exists kj, j, p2.
Qed.

(** The positions of the other threads. *)
Lemma lookup_moved T i j k p x : T !! j = Some x -> j <> i -> <[i := (k, p)]> T !! j = Some x.
Proof. intros. by rewrite list_lookup_insert_ne. Qed.
Lemma lookup_self T i k p x : T !! i = Some x -> <[i := (k, p)]> T !! i = Some (k, p).
Proof. intros ?%lookup_lt_Some. by apply list_lookup_insert_eq. Qed.

(** The first miss of a key. *)
Lemma inv_lead L t T i k : sf_inv L t T -> T !! i = Some (k, Acquire) -> inflight k t = None ->
  sf_inv (L ++ [(k, i)]) (Tracker (alter <[k := length (flights t)]> (shard_for k) (shards_ t)) (flights t ++ [flight_new]) (coalesced_ t))
    (<[i := (k, Call (Leader (length (flights t))))]> T).
Proof.
  intros [Hlen Hsh Hth Hen Hfl] Hi Hk. set (n := length (flights t)). set (t' := Tracker _ _ _).
  assert (forall k', inflight k' t' = if decide (k' = k) then Some n else inflight k' t) as Ei by (intros; by apply inflight_put).
  assert (L !! n = None) as HLn by (apply lookup_ge_None; unfold n; lia).
  assert (forall id x, L !! id = Some x -> (L ++ [(k, i)]) !! id = Some x) as HL by (intros; by apply lookup_app_l_Some).
  assert (forall id f, flights t !! id = Some f -> flights t' !! id = Some f) as HF by (intros; by apply lookup_app_l_Some).
  assert ((L ++ [(k, i)]) !! n = Some (k, i)) as HLi by (unfold n; rewrite <- Hlen; by rewrite lookup_app_r, Nat.sub_diag).
  assert (forall j kj pj, T !! j = Some (kj, pj) -> pj <> Acquire -> <[i := (k, Call (Leader n))]> T !! j = Some (kj, pj)) as HT.
  { intros j kj pj Hj Hp. apply lookup_moved; [done|]. intros ->. congruence. }
  assert (forall j x, j <> i -> T !! j = Some x -> thread_ok (L ++ [(k, i)]) t' (<[i := (k, Call (Leader n))]> T) j x) as Hmono.
  { intros j [kj pj] Hne Hj. specialize (Hth j _ Hj). unfold thread_ok in *. cbn [fst snd] in *. rewrite Ei.
    destruct (decide (kj = k)) as [->|]; destruct pj as [| |[]|[]| | | | | | |[]]; try done;
      try (destruct Hth as (H1 & H2 & H3); first [congruence|by split_and!; auto]).
    all: try (destruct Hth as [j' H1]; by exists j'; auto).
    all: try (destruct Hth as (j' & p & H1 & H2 & H3); exists j', p; split_and!; auto; try done; apply HT; [done|by intros ->]).
    all: try (destruct Hth as [(j' & H1) H2]; split; [exists j'|]; by auto).
    all: try (destruct Hth as [H1 H2]; split; by auto).
    all: destruct Hth as (j' & pub & H1 & H2 & H3); exists j', pub; split_and!; auto. }
  split; cbn [shards_ flights t'].
  - rewrite !length_app. cbn. lia.
  - by rewrite length_alter.
  - intros j x [(-> & <- & _)|[Hne Hj]]%list_lookup_insert_Some; [|by apply Hmono]. unfold thread_ok. cbn [fst snd]. split_and!; [done| |].
    + cbn [flights t']. by rewrite lookup_app_r, Nat.sub_diag.
    + by rewrite Ei, decide_True.
  - intros k' id. rewrite Ei. destruct (decide (k' = k)) as [->|Hne].
    + intros [= <-]. exists i, (Call (Leader n)). split_and!; [done|by eapply lookup_self|done].
    + intros (j & p & H1 & H2 & H3)%Hen. exists j, p. split_and!; auto. apply HT; [done|by intros ->].
  - intros id f Hf. apply lookup_app_Some in Hf as [Hf|[Hge Hf]].
    + destruct (Hfl id f Hf) as [[-> (k' & j & p & H1 & H2 & H3)]|(res & k' & j & p & -> & H1 & H2 & H3)].
      * left. split; [done|]. exists k', j, p. split_and!; auto. apply HT; [done|by intros ->].
      * right. exists res, k', j, p. split_and!; auto. apply HT; [done|by intros ->].
    + apply list_lookup_singleton_Some in Hf as [? <-]. left. split; [done|]. assert (id = n) as -> by (unfold n in *; lia).
      exists k, i, (Call (Leader n)). split_and!; [done|by eapply lookup_self|done].
Qed.

(** The outcome is stored. *)
Lemma inv_signal L t T i k id res : sf_inv L t T -> T !! i = Some (k, Signal id res) ->
  sf_inv L (Tracker (shards_ t) (<[id := published res]> (flights t)) (coalesced_ t)) (<[i := (k, Notify id res)]> T).
Proof.
  intros [Hlen Hsh Hth Hen Hfl] Hi. destruct (Hth i _ Hi) as (Hl & Hf & Hin). cbn [fst snd] in *. set (t' := Tracker _ _ _).
  assert (forall id' f, flights t !! id' = Some f -> id' <> id -> flights t' !! id' = Some f) as HF by (intros; by apply list_lookup_insert_Some; right).
  assert (flights t' !! id = Some (published res)) as Hp by (apply list_lookup_insert_eq; by eapply lookup_lt_Some).
  assert (forall r, published r <> flight_new) as Hnew by (by intros []).
  assert (forall id' r, flights t !! id' = Some (published r) -> flights t' !! id' = Some (published r)) as HP.
  { intros id' r Hr. apply HF; [done|]. intros ->. rewrite Hf in Hr. injection Hr as Hr. by destruct (Hnew r). }
  assert (forall j x, j <> i -> T !! j = Some x -> thread_ok L t' (<[i := (k, Notify id res)]> T) j x) as Hmono.
  { intros j [kj pj] Hne Hj. specialize (Hth j _ Hj). unfold thread_ok in *. cbn [fst snd] in *. change (inflight kj t') with (inflight kj t).
    destruct pj as [| |[]|[]| | | | | | |[]]; try done;
      try (destruct Hth as (H1 & H2 & H3); split_and!; [done| |done]; first [by apply HP|apply HF; [done|]; intros ->; congruence]);
      try (destruct Hth as [H1 H2]; split; [done|by apply HP]).
    - destruct Hth as (j' & p & H1 & H2 & H3). destruct (keep_role T i k _ (Notify id res) will_notify j' kj p id0 Hi (fun x => x) H2 H3) as (p2 & ? & ?). by exists j', p2.
    - destruct Hth as (j' & pub & H1 & H2 & H3). exists j', pub; split_and!; [done|by apply HP|done]. }
  split; cbn [shards_ flights t']; [by rewrite length_insert|done| | |].
  - intros j x [(-> & <- & _)|[Hne Hj]]%list_lookup_insert_Some; [|by apply Hmono]. by split_and!.
  - intros k' id' (j & p & H1 & H2 & H3)%Hen. destruct (keep_role T i k _ (Notify id res) leads j k' p id' Hi (fun x => x) H2 H3) as (p2 & ? & ?). by exists j, p2.
  - intros id' f [(<- & <- & _)|[Hne Hf']]%list_lookup_insert_Some.
    { right. exists res, k, i, (Notify id res). split_and!; try done. by eapply lookup_self. }
    destruct (Hfl id' f Hf') as [[-> (k' & j & p & H1 & H2 & H3)]|(r' & k' & j & p & -> & H1 & H2 & H3)]; [left; split; [done|]|right].
    2: { destruct (keep_role T i k _ (Notify id res) outcome_of j k' p (id', r') Hi ltac:(done) H2 H3) as (p2 & ? & ?). by exists r', k', j, p2. }
    destruct (keep_role T i k _ (Notify id res) before_signal j k' p id' Hi) as (p2 & ? & ?); [by intros [= ->]|done|done|]. by exists k', j, p2.
Qed.

Lemma notify_role {A} id (g : pc -> option A) k p id' : (forall id, g (Parked id) = None) -> g p = Some id' -> notify id (k, p) = (k, p).
Proof. intros Hg Hp. unfold notify. cbn. destruct p; try done. by rewrite Hg in Hp. Qed.

(** The waiters are woken. *)
Lemma inv_notify L t T i k id res : sf_inv L t T -> T !! i = Some (k, Notify id res) -> sf_inv L t (<[i := (k, Erase id res)]> (notify id <$> T)).
Proof.
  intros [Hlen Hsh Hth Hen Hfl] Hi. pose proof (Hth i _ Hi) as Hok.
  assert ((notify id <$> T) !! i = Some (k, Notify id res)) as Hi' by (rewrite list_lookup_fmap, Hi; done).
  assert (forall A j kj pj (g : pc -> option A) id', (g (Notify id res) = Some id' -> g (Erase id res) = Some id') -> (forall id, g (Parked id) = None) ->
    T !! j = Some (kj, pj) -> g pj = Some id' -> exists p2, <[i := (k, Erase id res)]> (notify id <$> T) !! j = Some (kj, p2) /\ g p2 = Some id') as Hkeep.
  { intros A j kj pj g id' Hg HP Hj Hid. apply (keep_role _ i k _ _ g j kj pj id' Hi' Hg); [|done].
    rewrite list_lookup_fmap, Hj. cbn. by rewrite (notify_role id g kj pj id'). }
  split; try done.
  - intros j x [(-> & <- & _)|[Hne Hj]]%list_lookup_insert_Some; [done|]. rewrite list_lookup_fmap in Hj.
    destruct (T !! j) as [[kj pj]|] eqn:Ej; [|done]. injection Hj as <-. specialize (Hth j _ Ej). unfold notify. cbn [fst snd].
    destruct pj as [| | | | | | | |id'| |]; try done. unfold thread_ok in Hth. cbn [fst snd] in Hth. destruct Hth as (j' & p & H1 & H2 & H3).
    destruct (decide (id' = id)) as [->|Hid]; [by exists j'|].
    destruct (Hkeep _ j' kj p will_notify id') as (p2 & ? & ?); [by intros [= ->]|done|done|done|]. by exists j', p2.
  - intros k' id' (j & p & H1 & H2 & H3)%Hen. destruct (Hkeep _ j k' p leads id' (fun x => x)) as (p2 & ? & ?); try done. by exists j, p2.
  - intros id' f [[-> (k' & j & p & H1 & H2 & H3)]|(r' & k' & j & p & -> & H1 & H2 & H3)]%Hfl; [left; split; [done|]|right].
    2: { destruct (Hkeep _ j k' p outcome_of (id', r')) as (p2 & ? & ?); try done. by exists r', k', j, p2. }
    destruct (Hkeep _ j k' p before_signal id') as (p2 & ? & ?); try done. by exists k', j, p2.
Qed.

(** The entry is removed. *)
Lemma inv_erase L t T i k id res : sf_inv L t T -> T !! i = Some (k, Erase id res) ->
  sf_inv L (remove_entry k t) (<[i := (k, Finished (AsLeader id) res)]> T).
Proof.
  intros [Hlen Hsh Hth Hen Hfl] Hi. destruct (Hth i _ Hi) as (Hl & Hf & Hin). cbn [fst snd] in *.
  split; cbn [shards_ flights remove_entry]; [done|by rewrite length_alter| | |].
  - intros j x [(-> & <- & _)|[Hne Hj]]%list_lookup_insert_Some; [done|]. destruct x as [kj pj]. specialize (Hth j _ Hj). unfold thread_ok in *. cbn [fst snd flights remove_entry] in *.
    rewrite inflight_remove. destruct (decide (kj = k)) as [->|]; destruct pj as [| |[]|[]| | | | | | |[]]; try done.
    all: try (destruct Hth as (H1 & H2 & H3); congruence).
    all: destruct Hth as (j' & p & H1 & H2 & H3).
    all: destruct (keep_role T i k _ (Finished (AsLeader id) res) will_notify j' _ p id0 Hi ltac:(done) H2 H3) as (p2 & ? & ?); by exists j', p2.
  - intros k' id'. rewrite inflight_remove. destruct (decide (k' = k)) as [->|Hne]; [done|]. intros (j & p & H1 & H2 & H3)%Hen. exists j, p.
    split_and!; [done| |done]. apply lookup_moved; [done|]. intros ->. rewrite Hi in H2. congruence.
  - intros id' f [[-> (k' & j & p & H1 & H2 & H3)]|(r' & k' & j & p & -> & H1 & H2 & H3)]%Hfl; [left; split; [done|]|right].
    2: { destruct (keep_role T i k _ (Finished (AsLeader id) res) outcome_of j k' p (id', r') Hi (fun x => x) H2 H3) as (p2 & ? & ?). by exists r', k', j, p2. }
    destruct (keep_role T i k _ (Finished (AsLeader id) res) before_signal j k' p id' Hi) as (p2 & ? & ?); try done. by exists k', j, p2.
Qed.

(** * Steps *)

Abbreviation inv s := (exists L, sf_inv L (singleflight_ s) (threads s)).

Lemma move_keeps s i k p p' (c : gmap Key Value) t' L : sf_inv L (singleflight_ s) (threads s) -> threads s !! i = Some (k, p) ->
  shards_ t' = shards_ (singleflight_ s) -> flights t' = flights (singleflight_ s) ->
  (forall id, leads p = Some id -> leads p' = Some id) -> (forall id, before_signal p = Some id -> before_signal p' = Some id) ->
  (forall id, will_notify p = Some id -> will_notify p' = Some id) -> (forall r, outcome_of p = Some r -> outcome_of p' = Some r) ->
  thread_ok L (singleflight_ s) (threads s) i (k, p') -> inv (move i k p' (System c t' (threads s))).
Proof. intros. exists L. by apply (inv_move L (singleflight_ s) t' _ i k p p'). Qed.

(** The outcome of a completed state, and what a follower reads. *)
Lemma wait_published res : wait_and_get (published res) = Some (Some res).
Proof. by destruct res. Qed.

Lemma conclude_ok L t T i k r v res : thread_ok L t T i (k, Insert r v) -> thread_ok L t T i (k, conclude r res).
Proof. by destruct r. Qed.

Lemma inv_step i o s s' : inv s -> sf_step i o s = Some s' -> inv s'.
Proof.
  intros [L I]. unfold sf_step. destruct (threads s !! i) as [[k p]|] eqn:Ei; [|done]. cbn [mbind option_bind].
  pose proof (si_threads _ _ _ I i _ Ei) as Hok. assert (s = System (cache s) (singleflight_ s) (threads s)) as Es by (by destruct s).
  destruct p as [| |r|r v|id res|id res|id res|id|id|id v|]; try done.
  - intros [= <-]. rewrite Es. cbn [cache]. apply (move_keeps _ i k Lookup _ _ _ L); try done. destruct (shutdown_ o); [done|]. by destruct (cache s !! k).
  - destruct (singleflight_enabled_ o); [|intros [= <-]; rewrite Es; by apply (move_keeps _ i k Acquire _ _ _ L)].
    unfold acquire. destruct (inflight k (singleflight_ s)) as [id|] eqn:Ek; intros [= <-].
    + apply (move_keeps _ i k Acquire _ _ _ L); try done. apply (si_entry _ _ _ I) in Ek as (j & p & ? & _). by exists j.
    + eexists. by apply inv_lead.
  - intros [= <-]. rewrite Es. apply (move_keeps _ i k (Call r) _ _ _ L); try done; destruct (provider o); by destruct r.
  - destruct (insert_fetched _ _ _ _) as [res c] eqn:E. intros [= <-]. apply (move_keeps _ i k (Insert r v) _ _ _ L); try done; by destruct r.
  - intros [= <-]. exists L. pose proof (inv_signal L (singleflight_ s) (threads s) i k id res I Ei) as I'. by destruct res.
  - intros [= <-]. exists L. by apply inv_notify.
  - intros [= <-]. exists L. by apply inv_erase.
  - destruct Hok as [j Hj]. cbn [fst snd] in Hj. destruct (flights (singleflight_ s) !! id) as [f|] eqn:Ef; [|done]. cbn [mbind option_bind].
    destruct (si_flight _ _ _ I id f Ef) as [[-> (k' & i' & p & H1 & H2 & H3)]|(res & _ & _ & _ & -> & _)].
    + cbn. intros [= <-]. rewrite Es. apply (move_keeps _ i k (Wait id) _ _ _ L); try done. rewrite Hj in H1. injection H1 as -> ->. exists i', p. split_and!; try done.
      by destruct p as [| |[]|[]| | | | | | |].
    + rewrite wait_published. cbn [mbind option_bind]. intros [= <-]. rewrite Es. apply (move_keeps _ i k (Wait id) _ _ _ L); try done; destruct res; try done.
      * split; [by exists j|done].
      * by exists j, (inr e).
  - intros [= <-]. rewrite Es. destruct Hok as [[j Hj] Hf]. cbn [fst snd] in *. apply (move_keeps _ i k (Recheck id v) _ _ _ L); try done; cbn [cache]; destruct (cache s !! k) as [w|]; try done.
    + exists j, (inl v). split_and!; try done. by left.
    + exists j, (inl v). split_and!; try done. by right.
Qed.

Lemma inv_exec l s s' : inv s -> sf_exec l s = Some s' -> inv s'.
Proof.
  intros I. destruct l as [i o|i|c]; [by apply inv_step| |intros [= <-]; done]. destruct I as [L I]. cbn [sf_exec].
  destruct (threads s !! i) as [[k p]|] eqn:Ei; [|done]. cbn [mbind option_bind]. destruct p; try done. intros [= <-].
  destruct (si_threads _ _ _ I i _ Ei) as (j & p & Hj & _). destruct s as [c t T]. apply (move_keeps (System c t T) i k (Parked id) (Wait id) c t L); try done. by exists j.
Qed.

Lemma inv_run ls : forall s s', inv s -> sf_run ls s = Some s' -> inv s'.
Proof.
  induction ls as [|l ls IH]; intros s s' I; [by intros [= <-]|]. cbn [sf_run]. destruct (sf_exec l s) as [s1|] eqn:E; [|done]. cbn [mbind option_bind].
  apply IH. by apply (inv_exec l s).
Qed.

Lemma inv_start c ks : inv (sf_start c ks).
Proof.
  assert (forall k, inflight k tracker_new = None) as Hi.
  { intros k. unfold inflight, tracker_new. cbn [shards_]. destruct (replicate NumShards ∅ !! shard_for k) as [m|] eqn:E; [|done].
    apply lookup_replicate in E as [-> _]. cbn. apply lookup_empty. }
  exists []. split; try done.
  - intros i x Hx. cbn [sf_start threads] in Hx. rewrite list_lookup_fmap in Hx. destruct (ks !! i); [|done]. by injection Hx as <-.
  - intros k id. by rewrite Hi.
Qed.

(** * Progress *)

(** A bound on the steps a thread has left. *)
Definition landed (t : tracker) (id : nat) : bool := match flights t !! id with Some f => done f | None => false end.
Definition weight (t : tracker) (x : Key * pc) : nat :=
  match x.2 with
  | Lookup => 7
  | Acquire => 6
  | Call _ => 5
  | Insert _ _ => 4
  | Signal _ _ => 3
  | Notify _ _ => 2
  | Erase _ _ => 1
  | Wait id => if landed t id then 2 else 5
  | Parked id => if landed t id then 3 else 4
  | Recheck _ _ => 1
  | Finished _ _ => 0
  end.
Definition total (s : system) : nat := sum_list (weight (singleflight_ s) <$> threads s).

Lemma sum_list_le (f g : Key * pc -> nat) : forall l l' : list (Key * pc), length l' = length l ->
  (forall j x x', l !! j = Some x -> l' !! j = Some x' -> g x' <= f x)%nat -> (sum_list (g <$> l') <= sum_list (f <$> l))%nat.
Proof.
  induction l as [|x l IH]; intros [|x' l'] Hl Hj; cbn in *; try done. pose proof (Hj 0%nat x x' eq_refl eq_refl).
  specialize (IH l' ltac:(lia) (fun j => Hj (S j))). lia.
Qed.

Lemma sum_list_lt (f g : Key * pc -> nat) (i : nat) : forall l l' : list (Key * pc), length l' = length l -> (i < length l)%nat ->
  (forall j x x', l !! j = Some x -> l' !! j = Some x' -> if decide (j = i) then g x' < f x else g x' <= f x)%nat ->
  (sum_list (g <$> l') < sum_list (f <$> l))%nat.
Proof.
  induction i as [|i IH]; intros [|x l] [|x' l'] Hl Hi Hj; cbn in *; try (done || lia); pose proof (Hj 0%nat x x' eq_refl eq_refl) as H0; cbn in H0.
  - pose proof (sum_list_le f g l l' ltac:(lia) (fun j => Hj (S j))). case_decide; [lia|done].
  - assert (sum_list (g <$> l') < sum_list (f <$> l))%nat; [|case_decide; lia]. apply IH; [lia|lia|]. intros j y y' Hy Hy'. specialize (Hj (S j) y y' Hy Hy').
    repeat case_decide; lia.
Qed.

(** A step takes weight from its thread and gives none to the others. *)
Lemma total_move s i k p p' c t' T' : threads s !! i = Some (k, p) -> length T' = length (threads s) ->
  (forall j x x', j <> i -> threads s !! j = Some x -> T' !! j = Some x' -> weight t' x' <= weight (singleflight_ s) x)%nat ->
  (weight t' (k, p') < weight (singleflight_ s) (k, p))%nat -> (total (System c t' (<[i := (k, p')]> T')) < total s)%nat.
Proof.
  intros Hi Hl Ho Hw. apply (sum_list_lt _ _ i); cbn [threads singleflight_]; [by rewrite length_insert|by eapply lookup_lt_Some|].
  intros j x x' Hx Hx'. destruct (decide (j = i)) as [->|Hne].
  - rewrite Hi in Hx. injection Hx as <-. rewrite list_lookup_insert_eq in Hx' by (rewrite Hl; by eapply lookup_lt_Some). by injection Hx' as <-.
  - rewrite list_lookup_insert_ne in Hx' by done. by apply (Ho j).
Qed.

(** The weight of a thread when states are added or completed. *)
Lemma weight_mono t t' x : (forall id, landed t id = true -> landed t' id = true) -> (weight t' x <= weight t x)%nat.
Proof.
  intros Hm. unfold weight. destruct (x.2); try done; specialize (Hm id); destruct (landed t id), (landed t' id); try lia; by specialize (Hm eq_refl).
Qed.

Lemma flight_total_step i o s s' : inv s -> sf_step i o s = Some s' -> (total s' < total s)%nat.
Proof.
  intros [L I]. unfold sf_step. destruct (threads s !! i) as [[k p]|] eqn:Ei; [|done]. cbn [mbind option_bind].
  pose proof (si_threads _ _ _ I i _ Ei) as Hok.
  assert (forall p' c t', (forall id, landed (singleflight_ s) id = true -> landed t' id = true) ->
    (weight t' (k, p') < weight (singleflight_ s) (k, p))%nat -> (total (move i k p' (System c t' (threads s))) < total s)%nat) as Hmove.
  { intros p' c t' Hl Hw. apply (total_move s i k p); [done|done| |done]. intros j x x' _ Hx Hx'. cbn [threads] in Hx'. assert (x' = x) as -> by congruence. by apply weight_mono. }
  destruct s as [c t T]. cbn [cache singleflight_ threads] in *.
  destruct p as [| |r|r v|id res|id res|id res|id|id|id v|]; try done.
  - intros [= <-]. apply Hmove; [done|]. cbn. destruct (shutdown_ o), (c !! k); cbn; lia.
  - destruct (singleflight_enabled_ o); [|intros [= <-]; apply Hmove; [done|cbn; lia]].
    unfold acquire. destruct (inflight k t) as [id|]; intros [= <-].
    + apply Hmove; [done|]. cbn. destruct (landed _ _); lia.
    + apply Hmove; [|cbn; lia]. intros id. unfold landed. cbn [flights]. destruct (flights t !! id) eqn:E; [|done]. by rewrite (lookup_app_l_Some _ _ _ _ E).
  - intros [= <-]. apply Hmove; [done|]. destruct (provider o), r; cbn; lia.
  - destruct (insert_fetched _ _ _ _) as [res c']. intros [= <-]. apply Hmove; [done|]. destruct r; cbn; lia.
  - intros [= <-]. apply Hmove; [|cbn; lia]. intros id'. unfold landed. destruct (decide (id' = id)) as [->|Hne].
    + destruct Hok as (_ & Hf & _). by rewrite Hf.
    + destruct res; cbn [complete flights]; by rewrite list_lookup_insert_ne.
  - intros [= <-]. apply (total_move (System c t T) i k (Notify id res)); [done|by cbn; rewrite length_fmap| |cbn; lia].
    intros j x x' Hne Hx Hx'. cbn [threads] in Hx. cbn [threads] in Hx'. rewrite list_lookup_fmap, Hx in Hx'. injection Hx' as <-. unfold notify. destruct (x.2) eqn:E; try done.
    destruct (decide (id0 = id)) as [->|]; [|done]. unfold weight. cbn [snd]. rewrite E. destruct Hok as (_ & Hf & _). cbn [fst snd singleflight_] in *.
    unfold landed. rewrite Hf. destruct res; cbn; lia.
  - intros [= <-]. apply Hmove; [done|cbn; lia].
  - destruct (flights t !! id) as [f|] eqn:Ef; [|done]. cbn [mbind option_bind]. destruct (si_flight _ _ _ I id f Ef) as [[-> _]|(res & _ & _ & _ & -> & _)].
    + cbn. intros [= <-]. apply Hmove; [done|]. cbn. unfold landed. rewrite Ef. cbn. lia.
    + rewrite wait_published. intros [= <-]. apply Hmove; [done|]. destruct res; cbn; unfold landed; rewrite Ef; cbn; lia.
  - intros [= <-]. apply Hmove; [done|]. destruct (c !! k); cbn; lia.
Qed.

(** A thread that is neither parked nor finished can take its step. *)
Lemma can_step i k p s o : inv s -> threads s !! i = Some (k, p) ->
  match p with Parked _ | Finished _ _ => True | _ => is_Some (sf_step i o s) end.
Proof.
  intros [L I] Hi. pose proof (si_threads _ _ _ I i _ Hi) as Hok. unfold sf_step. rewrite Hi. cbn [mbind option_bind].
  destruct p as [| |r|r v|id res|id res|id res|id|id|id v|]; try done.
  - destruct (singleflight_enabled_ o); [|done]. by destruct (acquire k (singleflight_ s)) as [[id []] t].
  - by destruct (insert_fetched _ _ _ _).
  - destruct Hok as [j Hj%lookup_lt_Some]. rewrite (si_length _ _ _ I) in Hj. apply lookup_lt_is_Some in Hj as [f Hf]. rewrite Hf. cbn [mbind option_bind].
    destruct (si_flight _ _ _ I id f Hf) as [[-> _]|(res & _ & _ & _ & -> & _)]; [done|]. by rewrite wait_published.
Qed.

Lemma some_step s i k p o : inv s -> threads s !! i = Some (k, p) -> (exists o' res, p = Finished o' res) \/ exists j, is_Some (sf_step j o s).
Proof.
  intros I Hi. pose proof (can_step i k p s o I Hi) as Hc. destruct p; try (right; by exists i); [right|left; by eauto].
  destruct I as [L I]. destruct (si_threads _ _ _ I i _ Hi) as (j & p & _ & Hj & Hp). cbn [fst snd] in Hj. exists j.
  pose proof (can_step j k p s o (ex_intro _ L I) Hj) as Hcj. by destruct p as [| |[]|[]| | | | | | |].
Qed.

Definition is_run (l : sf_label) : bool := match l with Run _ _ => true | _ => false end.
Definition is_spurious (l : sf_label) : bool := match l with Spurious _ => true | _ => false end.
Definition count (f : sf_label -> bool) (ls : list sf_label) : nat := length (List.filter f ls).

Lemma sum_list_insert (f : Key * pc -> nat) x y : forall (l : list (Key * pc)) (i : nat), l !! i = Some x ->
  (sum_list (f <$> <[i := y]> l) + f x = sum_list (f <$> l) + f y)%nat.
Proof. induction l as [|z l IH]; intros [|i] Hi; try done; [injection Hi as ->; cbn; lia|]. specialize (IH i Hi). change (f z + sum_list (f <$> <[i := y]> l) + f x = f z + sum_list (f <$> l) + f y)%nat. lia. Qed.

Lemma total_spurious i s s' : sf_exec (Spurious i) s = Some s' -> (total s' <= S (total s))%nat.
Proof.
  cbn [sf_exec]. destruct (threads s !! i) as [[k p]|] eqn:Ei; [|done]. cbn [mbind option_bind]. destruct p; try done. intros [= <-].
  pose proof (sum_list_insert (weight (singleflight_ s)) _ (k, Wait id) _ _ Ei) as Hs. unfold total, move. cbn [threads singleflight_].
  cbn in Hs. destruct (landed _ _); lia.
Qed.

Lemma total_run ls : forall s s', inv s -> sf_run ls s = Some s' -> (count is_run ls + total s' <= total s + count is_spurious ls)%nat.
Proof.
  induction ls as [|l ls IH]; intros s s' I; [intros [= <-]; cbn; lia|]. cbn [sf_run]. destruct (sf_exec l s) as [s1|] eqn:E; [|done]. cbn [mbind option_bind].
  intros Hr. specialize (IH s1 s' (inv_exec l s s1 I E) Hr). unfold count in *. cbn [List.filter]. destruct l as [i o|i|c]; cbn [is_run is_spurious length].
  - pose proof (flight_total_step i o s s1 I E). lia.
  - pose proof (total_spurious i s s1 E). lia.
  - injection E as <-. unfold total in *. cbn [threads singleflight_] in *. lia.
Qed.

Lemma total_start c ks : total (sf_start c ks) = (7 * length ks)%nat.
Proof. unfold total, sf_start. cbn [threads]. induction ks; cbn in *; lia. Qed.

Lemma exec_length l s s' : sf_exec l s = Some s' -> length (threads s') = length (threads s).
Proof.
  destruct l as [i o|i|c]; cbn [sf_exec]; [unfold sf_step| |by intros [= <-]]; (destruct (threads s !! i) as [[k p]|]; [|done]); cbn [mbind option_bind].
  - intros E. repeat (case_hyp E; try done); simplify_option_eq; cbn [threads move with_tracker] in *; rewrite ?length_insert, ?length_fmap; done.
  - destruct p; try done. intros [= <-]. cbn. by rewrite length_insert.
Qed.

Lemma run_length ls : forall s s', sf_run ls s = Some s' -> length (threads s') = length (threads s).
Proof.
  induction ls as [|l ls IH]; intros s s'; [by intros [= <-]|]. cbn [sf_run]. destruct (sf_exec l s) as [s1|] eqn:E; [|done]. cbn [mbind option_bind].
  intros Hr. by rewrite (IH s1 s' Hr), (exec_length l s s1 E).
Qed.

(** * Properties *)

(** C16: at every moment at most one thread leads a key, from its [acquire] to
    the removal of the entry, and the in-flight entries are exactly the leaders. *)
Theorem singleflight_one_leader (c : gmap Key Value) (ks : list Key) (ls : list sf_label) (s : system) : sf_run ls (sf_start c ks) = Some s ->
  (forall i j k p q id id', threads s !! i = Some (k, p) -> threads s !! j = Some (k, q) -> leads p = Some id -> leads q = Some id' -> i = j) /\
  (forall k id, inflight k (singleflight_ s) = Some id <-> exists i p, threads s !! i = Some (k, p) /\ leads p = Some id).
Proof.
  intros Hr. destruct (inv_run ls _ _ (inv_start c ks) Hr) as [L I].
  assert (forall i k p id, threads s !! i = Some (k, p) -> leads p = Some id -> L !! id = Some (k, i) /\ inflight k (singleflight_ s) = Some id) as Hlead.
  { intros i k p id Hi Hp. pose proof (si_threads _ _ _ I i _ Hi) as Hok. destruct p as [| |[]|[]| | | | | | |]; try done; injection Hp as ->; by destruct Hok as (? & ? & ?). }
  split.
  - intros i j k p q id id' Hi Hj Hp Hq. destruct (Hlead i k p id Hi Hp), (Hlead j k q id' Hj Hq). congruence.
  - intros k id. split; [|intros (i & p & Hi & Hp); by apply (Hlead i k p)]. intros (i & p & _ & ? & ?)%(si_entry _ _ _ I). by exists i, p.
Qed.

(** C17: a follower that returns has the outcome of a leader of its key: the
    exception the leader raised, or its value unless the key was found in the
    cache; and a leader's own result is the published one. *)
Theorem singleflight_followers_agree (c : gmap Key Value) (ks : list Key) (ls : list sf_label) (s : system) (i : nat) (k : Key) (id : nat)
  (cached : bool) (res : Value + Exc) : sf_run ls (sf_start c ks) = Some s ->
  threads s !! i = Some (k, Finished (AsFollower id cached) res) ->
  exists j p pub, threads s !! j = Some (k, p) /\ outcome_of p = Some (id, pub) /\ agrees cached res pub.
Proof.
  intros Hr Hi. destruct (inv_run ls _ _ (inv_start c ks) Hr) as [L I]. destruct (si_threads _ _ _ I i _ Hi) as (j & pub & HL & Hf & Ha). cbn [fst snd] in *.
  destruct (si_flight _ _ _ I id _ Hf) as [[Hn _]|(r & k' & j' & p & Er & HL' & Hj & Hp)]; [by destruct pub|].
  rewrite HL in HL'. injection HL' as <- <-. exists j, p, r. split_and!; [done|done|]. destruct pub, r; simplify_eq/=; done.
Qed.

(** C18: nobody waits forever: a run makes at most seven steps per thread and one
    more per spurious wake-up, and as long as a thread has not returned some
    thread can step, whatever the provider and the monitors answer. *)
Theorem singleflight_completes (c : gmap Key Value) (ks : list Key) (ls : list sf_label) (s : system) : sf_run ls (sf_start c ks) = Some s ->
  (count is_run ls <= 7 * length ks + count is_spurious ls)%nat /\ length (threads s) = length ks /\
  forall i k p o, threads s !! i = Some (k, p) -> (exists o' res, p = Finished o' res) \/ exists j, is_Some (sf_step j o s).
Proof.
  intros Hr. pose proof (inv_run ls _ _ (inv_start c ks) Hr) as I. pose proof (total_run ls _ _ (inv_start c ks) Hr) as Ht. rewrite total_start in Ht.
  split; [lia|]. split; [|intros; by apply (some_step s i k)]. rewrite (run_length ls _ _ Hr). unfold sf_start. cbn. by rewrite length_fmap.
Qed.

End flight.

(** * Concrete runs *)

(** Two threads miss the same key. The second parks before the first has called
    the provider, and reads the outcome after the key has left the cache again. *)
Definition sf_answer (r : Z + Z) : oracle := Oracle false true r Store.
Definition sf_demo (r : Z + Z) : list (@sf_label Z Z Z _ _) :=
  Run 0 (sf_answer r) :: Run 1 (sf_answer r) :: Run 0 (sf_answer r) :: Run 1 (sf_answer r) :: Run 1 (sf_answer r) :: Run 0 (sf_answer r) ::
  (match r with inl _ => [Run 0 (sf_answer r)] | inr _ => [] end) ++ [Run 0 (sf_answer r); Env ∅; Run 0 (sf_answer r)].
Definition sf_demo_end (r : Z + Z) : list (@sf_label Z Z Z _ _) :=
  sf_demo r ++ Run 1 (sf_answer r) :: (match r with inl _ => [Run 1 (sf_answer r)] | inr _ => [] end).
Definition sf_demo_state (ls : list (@sf_label Z Z Z _ _)) : system :=
  default (sf_start ∅ [1; 1]) (sf_run (fun k => k) 0 0 ls (sf_start ∅ [1; 1])).

Lemma singleflight_one_leader_witness : exists s : system, sf_run (fun k => k) 0 0 (sf_demo (inl 10)) (sf_start ∅ [1; 1]) = Some s /\
  threads s !! 0%nat = Some (1, Erase 0 (inl 10)) /\ inflight (fun k => k) 1 (singleflight_ s) = Some 0%nat.
Proof.
  exists (sf_demo_state (sf_demo (inl 10))). assert (sf_run (fun k => k) 0 0 (sf_demo (inl 10)) (sf_start ∅ [1; 1]) = Some (sf_demo_state (sf_demo (inl 10)))) as E
    by (vm_compute; reflexivity).
  split; [exact E|]. split; [vm_compute; reflexivity|]. destruct (singleflight_one_leader (fun k => k) 0 0 ∅ [1; 1] _ _ E) as [_ Hin].
  apply Hin. exists 0%nat, (Erase 0 (inl 10)). split; [vm_compute; reflexivity|reflexivity].
Defined.

Lemma singleflight_followers_agree_witness : exists s : system, sf_run (fun k => k) 0 0 (sf_demo_end (inr 7)) (sf_start ∅ [1; 1]) = Some s /\
  threads s !! 1%nat = Some (1, Finished (AsFollower 0 false) (inr 7)) /\
  exists j p pub, threads s !! j = Some (1, p) /\ outcome_of p = Some (0%nat, pub) /\ agrees false (inr 7 : Z + Z) pub.
Proof.
  exists (sf_demo_state (sf_demo_end (inr 7))).
  assert (sf_run (fun k => k) 0 0 (sf_demo_end (inr 7)) (sf_start ∅ [1; 1]) = Some (sf_demo_state (sf_demo_end (inr 7)))) as E by (vm_compute; reflexivity).
  split; [exact E|]. split; [vm_compute; reflexivity|].
  apply (singleflight_followers_agree (fun k => k) 0 0 ∅ [1; 1] (sf_demo_end (inr 7)) _ 1%nat 1 0%nat false (inr 7) E). vm_compute. reflexivity.
Defined.

Lemma singleflight_completes_witness : exists s : system, sf_run (fun k => k) 0 0 (sf_demo_end (inl 10)) (sf_start ∅ [1; 1]) = Some s /\
  count is_run (sf_demo_end (inl 10)) = 11%nat /\ (count is_run (sf_demo_end (inl 10%Z)) <= 7 * 2 + 0)%nat /\
  threads s !! 1%nat = Some (1, Finished (AsFollower 0 false) (inl 10)) /\ exists j, is_Some (sf_step (fun k => k) 0 0 j (sf_answer (inl 10)) s).
Proof.
  exists (sf_demo_state (sf_demo_end (inl 10))).
  assert (sf_run (fun k => k) 0 0 (sf_demo_end (inl 10)) (sf_start ∅ [1; 1]) = Some (sf_demo_state (sf_demo_end (inl 10)))) as E by (vm_compute; reflexivity).
  destruct (singleflight_completes (fun k => k) 0 0 ∅ [1; 1] _ _ E) as (Hb & _ & Hs).
  split; [exact E|]. split; [vm_compute; reflexivity|]. split; [exact Hb|]. split; [vm_compute; reflexivity|].
  destruct (Hs 0%nat 1 (Erase 0 (inl 10)) (sf_answer (inl 10))) as [(o & r & Hf)|Hj]; [vm_compute; reflexivity|discriminate Hf|exact Hj].
Defined.
