(* ===== verification/Crc32.v ===== *)
(** The checksum of the binary format ([detail::crc32] of serialization.hpp): the
    byte-wise table lookup, the bit-wise division it stands for, and the errors
    it detects. A byte is a [Z] below 256. *)

From S2P Require Import Prelude.

(** * The code *)

Definition crc_table : list Z := [
   0x00000000; 0x77073096; 0xee0e612c; 0x990951ba; 0x076dc419; 0x706af48f; 0xe963a535; 0x9e6495a3;
   0x0edb8832; 0x79dcb8a4; 0xe0d5e91e; 0x97d2d988; 0x09b64c2b; 0x7eb17cbd; 0xe7b82d07; 0x90bf1d91;
   0x1db71064; 0x6ab020f2; 0xf3b97148; 0x84be41de; 0x1adad47d; 0x6ddde4eb; 0xf4d4b551; 0x83d385c7;
   0x136c9856; 0x646ba8c0; 0xfd62f97a; 0x8a65c9ec; 0x14015c4f; 0x63066cd9; 0xfa0f3d63; 0x8d080df5;
   0x3b6e20c8; 0x4c69105e; 0xd56041e4; 0xa2677172; 0x3c03e4d1; 0x4b04d447; 0xd20d85fd; 0xa50ab56b;
   0x35b5a8fa; 0x42b2986c; 0xdbbbc9d6; 0xacbcf940; 0x32d86ce3; 0x45df5c75; 0xdcd60dcf; 0xabd13d59;
   0x26d930ac; 0x51de003a; 0xc8d75180; 0xbfd06116; 0x21b4f4b5; 0x56b3c423; 0xcfba9599; 0xb8bda50f;
   0x2802b89e; 0x5f058808; 0xc60cd9b2; 0xb10be924; 0x2f6f7c87; 0x58684c11; 0xc1611dab; 0xb6662d3d;
   0x76dc4190; 0x01db7106; 0x98d220bc; 0xefd5102a; 0x71b18589; 0x06b6b51f; 0x9fbfe4a5; 0xe8b8d433;
   0x7807c9a2; 0x0f00f934; 0x9609a88e; 0xe10e9818; 0x7f6a0dbb; 0x086d3d2d; 0x91646c97; 0xe6635c01;
   0x6b6b51f4; 0x1c6c6162; 0x856530d8; 0xf262004e; 0x6c0695ed; 0x1b01a57b; 0x8208f4c1; 0xf50fc457;
   0x65b0d9c6; 0x12b7e950; 0x8bbeb8ea; 0xfcb9887c; 0x62dd1ddf; 0x15da2d49; 0x8cd37cf3; 0xfbd44c65;
   0x4db26158; 0x3ab551ce; 0xa3bc0074; 0xd4bb30e2; 0x4adfa541; 0x3dd895d7; 0xa4d1c46d; 0xd3d6f4fb;
   0x4369e96a; 0x346ed9fc; 0xad678846; 0xda60b8d0; 0x44042d73; 0x33031de5; 0xaa0a4c5f; 0xdd0d7cc9;
   0x5005713c; 0x270241aa; 0xbe0b1010; 0xc90c2086; 0x5768b525; 0x206f85b3; 0xb966d409; 0xce61e49f;
   0x5edef90e; 0x29d9c998; 0xb0d09822; 0xc7d7a8b4; 0x59b33d17; 0x2eb40d81; 0xb7bd5c3b; 0xc0ba6cad;
   0xedb88320; 0x9abfb3b6; 0x03b6e20c; 0x74b1d29a; 0xead54739; 0x9dd277af; 0x04db2615; 0x73dc1683;
   0xe3630b12; 0x94643b84; 0x0d6d6a3e; 0x7a6a5aa8; 0xe40ecf0b; 0x9309ff9d; 0x0a00ae27; 0x7d079eb1;
   0xf00f9344; 0x8708a3d2; 0x1e01f268; 0x6906c2fe; 0xf762575d; 0x806567cb; 0x196c3671; 0x6e6b06e7;
   0xfed41b76; 0x89d32be0; 0x10da7a5a; 0x67dd4acc; 0xf9b9df6f; 0x8ebeeff9; 0x17b7be43; 0x60b08ed5;
   0xd6d6a3e8; 0xa1d1937e; 0x38d8c2c4; 0x4fdff252; 0xd1bb67f1; 0xa6bc5767; 0x3fb506dd; 0x48b2364b;
   0xd80d2bda; 0xaf0a1b4c; 0x36034af6; 0x41047a60; 0xdf60efc3; 0xa867df55; 0x316e8eef; 0x4669be79;
   0xcb61b38c; 0xbc66831a; 0x256fd2a0; 0x5268e236; 0xcc0c7795; 0xbb0b4703; 0x220216b9; 0x5505262f;
   0xc5ba3bbe; 0xb2bd0b28; 0x2bb45a92; 0x5cb36a04; 0xc2d7ffa7; 0xb5d0cf31; 0x2cd99e8b; 0x5bdeae1d;
   0x9b64c2b0; 0xec63f226; 0x756aa39c; 0x026d930a; 0x9c0906a9; 0xeb0e363f; 0x72076785; 0x05005713;
   0x95bf4a82; 0xe2b87a14; 0x7bb12bae; 0x0cb61b38; 0x92d28e9b; 0xe5d5be0d; 0x7cdcefb7; 0x0bdbdf21;
   0x86d3d2d4; 0xf1d4e242; 0x68ddb3f8; 0x1fda836e; 0x81be16cd; 0xf6b9265b; 0x6fb077e1; 0x18b74777;
   0x88085ae6; 0xff0f6a70; 0x66063bca; 0x11010b5c; 0x8f659eff; 0xf862ae69; 0x616bffd3; 0x166ccf45;
   0xa00ae278; 0xd70dd2ee; 0x4e048354; 0x3903b3c2; 0xa7672661; 0xd06016f7; 0x4969474d; 0x3e6e77db;
   0xaed16a4a; 0xd9d65adc; 0x40df0b66; 0x37d83bf0; 0xa9bcae53; 0xdebb9ec5; 0x47b2cf7f; 0x30b5ffe9;
   0xbdbdf21c; 0xcabac28a; 0x53b39330; 0x24b4a3a6; 0xbad03605; 0xcdd70693; 0x54de5729; 0x23d967bf;
   0xb3667a2e; 0xc4614ab8; 0x5d681b02; 0x2a6f2b94; 0xb40bbe37; 0xc30c8ea1; 0x5a05df1b; 0x2d02ef8d].

(** One round of the loop; the index is at most 255. *)
Definition crc_round (crc b : Z) : Z :=
  Z.lxor (nth (Z.to_nat (Z.land (Z.lxor crc b) 255)) crc_table 0) (Z.shiftr crc 8).

(** [~crc] on 32 bits *)
Definition crc32 (data : list Z) : Z := Z.lxor (foldl crc_round U32_MAX data) U32_MAX.

(** * The reference: division by the IEEE 802.3 polynomial, one bit at a time,
    the least significant bit of each byte first *)

Definition polynomial : Z := 0xedb88320.
Definition shift_bit (c : Z) : Z := Z.lxor (Z.shiftr c 1) (if Z.odd c then polynomial else 0).
Definition feed_bit (c : Z) (b : bool) : Z := shift_bit (Z.lxor c (Z.b2z b)).

Definition byte_bits (b : Z) : list bool := (fun i => Z.testbit b (Z.of_nat i)) <$> seq 0 8.
Definition message_bits (data : list Z) : list bool := concat (byte_bits <$> data).
Definition crc32_reference (data : list Z) : Z := Z.lxor (foldl feed_bit U32_MAX (message_bits data)) U32_MAX.

Definition is_byte (b : Z) : Prop := 0 <= b < 256.

(** * Words and bits *)

(** The value of a bit string, its first bit the least significant. *)
Fixpoint bits_value (l : list bool) : Z :=
  match l with
  | [] => 0
  | b :: l => Z.lxor (Z.b2z b) (2 * bits_value l)
  end.

Lemma lxor_bounded x y p : 0 <= p -> 0 <= x < 2 ^ p -> 0 <= y < 2 ^ p -> 0 <= Z.lxor x y < 2 ^ p.
Proof.
  intros Hp Hx Hy. assert (0 <= Z.lxor x y) by (apply Z.lxor_nonneg; lia).
  split; [done|]. apply bits_bounded; [done..|]. intros i Hi.
  by rewrite Z.lxor_spec, (testbit_high x p i), (testbit_high y p i) by lia.
Qed.

Lemma odd_lxor_even x v : Z.odd (Z.lxor x (2 * v)) = Z.odd x.
Proof. rewrite <- !Z.bit0_odd, Z.lxor_spec. by rewrite Z.testbit_even_0, xorb_false_r. Qed.

(** Shifting is linear: what lies above the lowest bit moves down unchanged. *)
Lemma shiftr1_double v : Z.shiftr (2 * v) 1 = v.
Proof. rewrite Z.shiftr_div_pow2 by lia. change (2 ^ 1) with 2. rewrite Z.mul_comm. apply Z.div_mul. lia. Qed.

Lemma shift_bit_above x v : shift_bit (Z.lxor x (2 * v)) = Z.lxor (shift_bit x) v.
Proof.
  unfold shift_bit. rewrite odd_lxor_even, Z.shiftr_lxor, shiftr1_double, !Z.lxor_assoc. f_equal. apply Z.lxor_comm.
Qed.

Lemma shift_bits_above n x v : Nat.iter n shift_bit (Z.lxor x (2 ^ Z.of_nat n * v)) = Z.lxor (Nat.iter n shift_bit x) v.
Proof.
  revert x v. induction n as [|n IH]; intros x v; [change (2 ^ Z.of_nat 0) with 1; by rewrite Z.mul_1_l|].
  replace (2 ^ Z.of_nat (S n) * v) with (2 ^ Z.of_nat n * (2 * v)) by (rewrite Nat2Z.inj_succ, Z.pow_succ_r by lia; lia).
  rewrite !Nat.iter_succ, IH. apply shift_bit_above.
Qed.

(** * Equivalence *)

(** The table holds the eight shifts of every byte. *)
Lemma crc_table_ok i : (i < 256)%nat -> nth i crc_table 0 = Nat.iter 8 shift_bit (Z.of_nat i).
Proof.
  intros Hi. apply Z.eqb_eq. revert i Hi.
  assert (forallb (fun i => nth i crc_table 0 =? Nat.iter 8 shift_bit (Z.of_nat i)) (seq 0 256) = true) as Ht by (vm_compute; reflexivity).
  rewrite List.forallb_forall in Ht. intros i Hi. apply Ht, in_seq. lia.
Qed.

(** A word is its low byte and the rest. *)
Lemma split_byte x : 0 <= x -> x = Z.lxor (Z.land x 255) (2 ^ Z.of_nat 8 * Z.shiftr x 8).
Proof.
  intros Hx. change (2 ^ Z.of_nat 8) with (2 ^ 8). rewrite Z.mul_comm, <- Z.shiftl_mul_pow2 by lia. apply Z.bits_inj'. intros i Hi.
  rewrite Z.lxor_spec, Z.land_spec. change 255 with (Z.ones 8). rewrite Z.testbit_ones_nonneg by lia. destruct (Z.ltb_spec i 8).
  - rewrite Z.shiftl_spec_low by lia. by rewrite andb_true_r, xorb_false_r.
  - rewrite andb_false_r, Z.shiftl_spec, Z.shiftr_spec by lia. rewrite xorb_false_l. f_equal. lia.
Qed.

(** A round of the loop is eight shifts. *)
Lemma crc_round_shifts crc b : 0 <= crc -> is_byte b -> crc_round crc b = Nat.iter 8 shift_bit (Z.lxor crc b).
Proof.
  intros Hc Hb. unfold crc_round. assert (0 <= Z.lxor crc b) as Hx by (apply Z.lxor_nonneg; unfold is_byte in Hb; lia).
  assert (0 <= Z.land (Z.lxor crc b) 255 < 256) as Hl.
  { change 255 with (Z.ones 8). rewrite Z.land_ones by lia. apply Z.mod_pos_bound. lia. }
  rewrite crc_table_ok, Z2Nat.id by lia. rewrite (split_byte (Z.lxor crc b)) at 2 by done. rewrite shift_bits_above. f_equal.
  rewrite Z.shiftr_lxor. replace (Z.shiftr b 8) with 0; [by rewrite Z.lxor_0_r|]. symmetry. apply Z.shiftr_eq_0; [apply Hb|].
  destruct (Z.eq_dec b 0) as [->|]; [done|]. apply Z.log2_lt_pow2; unfold is_byte in Hb; lia.
Qed.

(** Feeding bits one by one is shifting the register with the bits added. *)
Lemma feed_bits_shifts l : forall c, foldl feed_bit c l = Nat.iter (length l) shift_bit (Z.lxor c (bits_value l)).
Proof.
  induction l as [|b l IH]; intros c; [by cbn; rewrite Z.lxor_0_r|]. cbn [foldl length bits_value]. rewrite IH. unfold feed_bit.
  rewrite <- shift_bit_above, Z.lxor_assoc. by rewrite Nat.iter_succ_r.
Qed.

Lemma byte_bits_value b : is_byte b -> bits_value (byte_bits b) = b.
Proof.
  intros Hb. assert (forallb (fun b => bits_value (byte_bits (Z.of_nat b)) =? Z.of_nat b) (seq 0 256) = true) as Ht by (vm_compute; reflexivity).
  rewrite List.forallb_forall in Ht. unfold is_byte in Hb. specialize (Ht (Z.to_nat b)). rewrite Z2Nat.id in Ht by lia. apply Z.eqb_eq, Ht, in_seq. lia.
Qed.

Lemma crc_round_bits crc b : 0 <= crc -> is_byte b -> crc_round crc b = foldl feed_bit crc (byte_bits b).
Proof. intros. by rewrite crc_round_shifts, feed_bits_shifts, byte_bits_value. Qed.

Lemma shift_bit_range c : 0 <= c < 2 ^ 32 -> 0 <= shift_bit c < 2 ^ 32.
Proof.
  intros Hc. unfold shift_bit. apply lxor_bounded; [lia| |destruct (Z.odd c); unfold polynomial; lia].
  rewrite Z.shiftr_div_pow2 by lia. change (2 ^ 1) with 2. pose proof (Z.div_pos c 2). pose proof (Z.div_le_upper_bound c 2 (2 ^ 32 - 1)). lia.
Qed.

Lemma feed_bit_range c b : 0 <= c < 2 ^ 32 -> 0 <= feed_bit c b < 2 ^ 32.
Proof. intros Hc. apply shift_bit_range, lxor_bounded; [lia|done|]. destruct b; cbn; lia. Qed.

Lemma feed_bits_range l : forall c, 0 <= c < 2 ^ 32 -> 0 <= foldl feed_bit c l < 2 ^ 32.
Proof. induction l as [|b l IH]; intros c Hc; [done|]. apply IH, feed_bit_range, Hc. Qed.

Lemma crc_rounds_bits data : forall c, 0 <= c < 2 ^ 32 -> Forall is_byte data -> foldl crc_round c data = foldl feed_bit c (message_bits data).
Proof.
  induction data as [|b data IH]; intros c Hc Hd; [done|]. apply Forall_cons in Hd as [Hb Hd]. unfold message_bits. cbn [fmap list_fmap concat foldl].
  rewrite foldl_app, crc_round_bits by (done || lia). apply IH; [|done]. by apply feed_bits_range.
Qed.

(** * Error detection *)

(** The polynomial's top bit makes a shift reversible. *)
Lemma shift_bit_inj x y : 0 <= x < 2 ^ 32 -> 0 <= y < 2 ^ 32 -> shift_bit x = shift_bit y -> x = y.
Proof.
  assert (forall c, 0 <= c < 2 ^ 32 -> Z.testbit (shift_bit c) 31 = Z.odd c) as Ht.
  { intros c Hc. unfold shift_bit. rewrite Z.lxor_spec, Z.shiftr_spec by lia. rewrite (testbit_high c 32) by lia. by destruct (Z.odd c). }
  intros Hx Hy E. assert (Z.odd x = Z.odd y) as Eo by (rewrite <- (Ht x), <- (Ht y) by done; by rewrite E).
  assert (Z.shiftr x 1 = Z.shiftr y 1) as Es.
  { unfold shift_bit in E. rewrite Eo in E. set (p := if Z.odd y then polynomial else 0) in E.
    apply (f_equal (fun z => Z.lxor z p)) in E. by rewrite !Z.lxor_assoc, !Z.lxor_nilpotent, !Z.lxor_0_r in E. }
  rewrite <- !Z.div2_spec in Es. rewrite (Z.div2_odd x), (Z.div2_odd y), Es, Eo. done.
Qed.

Lemma shift_bits_inj n x y : 0 <= x < 2 ^ 32 -> 0 <= y < 2 ^ 32 -> Nat.iter n shift_bit x = Nat.iter n shift_bit y -> x = y.
Proof.
  revert x y. induction n as [|n IH]; intros x y Hx Hy E; [done|]. rewrite !Nat.iter_succ_r in E. apply IH in E; [|by apply shift_bit_range..].
  by apply shift_bit_inj.
Qed.

Lemma bits_value_range l : 0 <= bits_value l < 2 ^ Z.of_nat (length l).
Proof.
  induction l as [|b l IH]; [done|]. cbn [bits_value length]. rewrite Nat2Z.inj_succ. pose proof (Z.pow_pos_nonneg 2 (Z.of_nat (length l))).
  assert (2 ^ Z.succ (Z.of_nat (length l)) = 2 * 2 ^ Z.of_nat (length l)) as E by (apply Z.pow_succ_r; lia).
  apply lxor_bounded; [lia| |lia]. rewrite E. destruct b; cbn [Z.b2z]; lia.
Qed.

Lemma bits_value_inj l l' : length l = length l' -> bits_value l = bits_value l' -> l = l'.
Proof.
  revert l'. induction l as [|b l IH]; intros [|b' l'] Hl E; try done. cbn [bits_value] in E. cbn in Hl. assert (b = b') as ->.
  { apply (f_equal Z.odd) in E. rewrite !odd_lxor_even in E. by destruct b, b'. }
  f_equal. apply IH; [lia|]. apply (f_equal (Z.lxor (Z.b2z b'))) in E. rewrite <- !Z.lxor_assoc, Z.lxor_nilpotent, !Z.lxor_0_l in E. lia.
Qed.

(** At most 32 bits from a common register leave different registers. *)
Lemma feed_window_inj c l l' : 0 <= c < 2 ^ 32 -> length l = length l' -> (length l <= 32)%nat ->
  foldl feed_bit c l = foldl feed_bit c l' -> l = l'.
Proof.
  intros Hc Hl Hn E. apply bits_value_inj; [done|]. rewrite !feed_bits_shifts, <- Hl in E.
  assert (forall k, length k = length l -> 0 <= bits_value k < 2 ^ 32) as Hr.
  { intros k Hk. pose proof (bits_value_range k). rewrite Hk in *. pose proof (Z.pow_le_mono_r 2 (Z.of_nat (length l)) 32). lia. }
  apply shift_bits_inj in E; [|apply lxor_bounded; auto; lia..].
  apply (f_equal (Z.lxor c)) in E. by rewrite <- !Z.lxor_assoc, Z.lxor_nilpotent, !Z.lxor_0_l in E.
Qed.

(** The rest of the message keeps registers apart. *)
Lemma feed_rest_inj l : forall c c', 0 <= c < 2 ^ 32 -> 0 <= c' < 2 ^ 32 -> foldl feed_bit c l = foldl feed_bit c' l -> c = c'.
Proof.
  induction l as [|b l IH]; intros c c' Hc Hc' E; [done|]. cbn [foldl] in E. apply IH in E; [|by apply feed_bit_range..]. unfold feed_bit in E.
  apply shift_bit_inj in E; [|apply lxor_bounded; try lia; destruct b; cbn; lia..].
  apply (f_equal (fun z => Z.lxor z (Z.b2z b))) in E. by rewrite !Z.lxor_assoc, !Z.lxor_nilpotent, !Z.lxor_0_r in E.
Qed.

(** Two messages that differ only inside a window of 32 bits. *)
Definition burst (data data' : list Z) : Prop :=
  length data = length data' /\ exists p : nat, forall i, ~ (p <= i < p + 32)%nat -> message_bits data !! i = message_bits data' !! i.

Lemma message_bits_length data : length (message_bits data) = (8 * length data)%nat.
Proof. induction data as [|b data IH]; [done|]. unfold message_bits in *. cbn [fmap list_fmap concat]. rewrite length_app, IH. cbn. lia. Qed.

Lemma message_bits_inj data : forall data', Forall is_byte data -> Forall is_byte data' -> message_bits data = message_bits data' -> data = data'.
Proof.
  induction data as [|b data IH]; intros [|b' data'] Hd Hd' E; try done. apply Forall_cons in Hd as [Hb Hd], Hd' as [Hb' Hd'].
  unfold message_bits in E. cbn [fmap list_fmap concat] in E. apply app_inj_1 in E as [E1 E2]; [|done].
  f_equal; [|by apply IH]. rewrite <- (byte_bits_value b), <- (byte_bits_value b') by done. by rewrite E1.
Qed.

Lemma feed_burst_inj c l l' p : 0 <= c < 2 ^ 32 -> length l = length l' -> (forall i, ~ (p <= i < p + 32)%nat -> l !! i = l' !! i) ->
  foldl feed_bit c l = foldl feed_bit c l' -> l = l'.
Proof.
  intros Hc Hl Hw E.
  assert (take p l = take p l') as E1.
  { apply list_eq. intros i. destruct (decide (i < p)%nat); [|by rewrite !lookup_take_ge by lia]. rewrite !lookup_take_lt by done. apply Hw. lia. }
  assert (drop (p + 32) l = drop (p + 32) l') as E3 by (apply list_eq; intros i; rewrite !lookup_drop; apply Hw; lia).
  assert (forall k : list bool, k = take p k ++ take 32 (drop p k) ++ drop (p + 32) k) as Hs.
  { intros k. rewrite <- (drop_drop k 32 p). by rewrite (take_drop 32), (take_drop p). }
  rewrite (Hs l), (Hs l'), !foldl_app, E1, E3 in E. apply feed_rest_inj in E; [|by do 2 apply feed_bits_range..].
  rewrite (Hs l), (Hs l'), E1, E3. do 2 f_equal. apply (feed_window_inj (foldl feed_bit c (take p l'))); [by apply feed_bits_range| | |done].
  - by rewrite !length_take, !length_drop, Hl.
  - rewrite length_take. lia.
Qed.

Lemma crc32_burst data data' : Forall is_byte data -> Forall is_byte data' -> burst data data' -> crc32 data = crc32 data' -> data = data'.
Proof.
  intros Hd Hd' [Hl [p Hp]] E. apply message_bits_inj; [done..|]. unfold crc32 in E. rewrite !crc_rounds_bits in E by (done || lia).
  apply (feed_burst_inj U32_MAX _ _ p); [lia|by rewrite !message_bits_length, Hl|done|].
  apply (f_equal (fun z => Z.lxor z U32_MAX)) in E. by rewrite !Z.lxor_assoc, !Z.lxor_nilpotent, !Z.lxor_0_r in E.
Qed.

(** The bit at a position of the message. *)
Lemma message_bits_lookup data : forall i, message_bits data !! i = b ← data !! (i / 8)%nat; byte_bits b !! (i mod 8)%nat.
Proof.
  induction data as [|b data IH]; intros i; [by rewrite !lookup_nil|]. unfold message_bits in *. cbn [fmap list_fmap concat]. destruct (decide (i < 8)%nat) as [Hi|Hi].
  - rewrite lookup_app_l by (cbn; lia). by rewrite Nat.div_small, Nat.mod_small by lia.
  - rewrite lookup_app_r by (cbn; lia). rewrite IH. change (length (byte_bits b)) with 8%nat.
    assert (exists j, i = (j + 1 * 8)%nat) as [j ->] by (exists (i - 8)%nat; lia).
    rewrite Nat.div_add, Nat.Div0.mod_add by lia. rewrite Nat.add_1_r. by replace (j + 1 * 8 - 8)%nat with j by lia.
Qed.

(** Any change of one byte is a burst. *)
Lemma burst_byte data n b : burst data (<[n := b]> data).
Proof.
  split; [by rewrite length_insert|]. exists (8 * n)%nat. intros i Hi. rewrite !message_bits_lookup. rewrite list_lookup_insert_ne; [done|].
  intros ->. pose proof (Nat.div_mod_eq i 8). pose proof (Nat.mod_upper_bound i 8). lia.
Qed.

(** * Properties *)

(** C30: the byte-wise lookup in the table of 256 constants computes the remainder
    of the bit-wise division by the IEEE 802.3 polynomial. *)
Theorem crc32_is_polynomial_division (data : list Z) : Forall is_byte data -> crc32 data = crc32_reference data.
Proof. intros Hd. unfold crc32, crc32_reference. by rewrite crc_rounds_bits by (done || lia). Qed.

(** The check value of the CRC-32 standard: the nine digits. *)
Lemma crc32_is_polynomial_division_witness : crc32 [49; 50; 51; 52; 53; 54; 55; 56; 57] = 0xcbf43926 /\
  crc32 [49; 50; 51; 52; 53; 54; 55; 56; 57] = crc32_reference [49; 50; 51; 52; 53; 54; 55; 56; 57].
Proof. split; [vm_compute; reflexivity|]. apply crc32_is_polynomial_division. repeat constructor; lia. Defined.
