(* ===== verification/BinaryFormat.v ===== *)
(** The writer, the reader and the encoders of the binary format
    (serialization.hpp): little-endian integers, length-prefixed strings and
    vectors, pairs and options, the strategy configuration, an item and the state
    of a recency list. [Serde] is the customisation point [serde<T>] and
    [SerdeLaws] what the format expects of it.

    A byte is a [Z] below 256 and a double its 64-bit pattern. *)

From S2P Require Import Prelude Crc32.

(** The exceptions of the format. *)
Inductive format_error :=
| UnexpectedEnd
| SpanExceedsData
| SizeMismatch
| StringTooLong
| BytesTooLong
| VectorTooLong
| InvalidMagic
| UnsupportedVersion
| TooManyItems
| TypeMismatch
| InvalidHeaderSize
| ChecksumMismatch
| TooManyCmsWords
| ShardsMismatch.

(** * The reader *)

(** [binary_reader]: the data is fixed, the position moves. *)
Definition reader (A : Type) : Type := list Z -> Z -> format_error + (A * Z).

#[global] Instance reader_ret : MRet reader := fun A a data pos => inr (a, pos).
#[global] Instance reader_bind : MBind reader := fun A B f m data pos =>
  match m data pos with
  | inl e => inl e
  | inr (a, pos) => f a data pos
  end.

Definition throw {A} (e : format_error) : reader A := fun _ _ => inl e.
(** [if (bad) throw e;] *)
Definition reject_if (bad : bool) (e : format_error) : reader unit := if bad then throw e else mret tt.

(** [size_] bytes from an offset. *)
Definition slice (data : list Z) (pos count : Z) : list Z := take (Z.to_nat count) (drop (Z.to_nat pos) data).

Definition read_bytes (count : Z) : reader (list Z) := fun data pos =>
  if Z.of_nat (length data) <? pos + count then inl UnexpectedEnd
  else inr (slice data pos count, pos + count).

Definition le_value (bs : list Z) : Z := foldr (fun b acc => b + 256 * acc) 0 bs.
(** [read<T>] for a type of [n] bytes *)
Definition read (n : nat) : reader Z := bs ← read_bytes (Z.of_nat n); mret (le_value bs).

Definition view_bytes (len : Z) : reader (list Z) := fun data pos =>
  if Z.of_nat (length data) <? pos + len then inl SpanExceedsData else inr (slice data pos len, pos + len).
Definition read_span : reader (list Z) := len ← read 4; view_bytes len.

(** [for (i = 0; i < n; ++i) push_back(m)] *)
Fixpoint read_list {A} (n : nat) (m : reader A) : reader (list A) :=
  match n with
  | O => mret []
  | S n => a ← m; l ← read_list n m; mret (a :: l)
  end.

(** * The writer *)

Fixpoint write (n : nat) (value : Z) : list Z :=
  match n with
  | O => []
  | S n => value mod 256 :: write n (value / 256)
  end.
(** [write(static_cast<uint32_t>(size))] *)
Definition write_size (size : nat) : list Z := write 4 (u32 (Z.of_nat size)).
Definition write_bool (b : bool) : list Z := write 1 (if b then 1 else 0).
Definition write_span (data : list Z) : list Z := write_size (length data) ++ data.

(** [patch_at]: [None] is the exception for an offset out of bounds. *)
Definition patch_at (offset n : nat) (value : Z) (buffer : list Z) : option (list Z) :=
  if (length buffer <? offset + n)%nat then None
  else Some (take offset buffer ++ write n value ++ drop (offset + n) buffer).

(** * [serde] *)

Class Serde (T : Type) := {
  serialize_value : T -> list Z;
  deserialize_value : reader T;
  (** The values within the limits of the encoding. *)
  fits : T -> Prop
}.

(** A reader [m] takes back [bytes] to [a] wherever they stand. *)
Definition reads {A} (m : reader A) (bytes : list Z) (a : A) : Prop :=
  forall pre suf, m (pre ++ bytes ++ suf) (Z.of_nat (length pre)) = inr (a, Z.of_nat (length (pre ++ bytes))).

Class SerdeLaws (T : Type) `{Serde T} := {
  serde_roundtrip : forall t : T, fits t -> reads deserialize_value (serialize_value t) t;
  serde_bytes : forall t : T, fits t -> Forall is_byte (serialize_value t)
}.

(** Trivially copyable types of [n] bytes, with the size in front. *)
Definition trivial_serde (n : nat) : Serde Z := {|
  serialize_value v := write_size n ++ write n v;
  deserialize_value := len ← read 4; _ ← reject_if (negb (len =? Z.of_nat n)) SizeMismatch; read n;
  fits v := 0 <= v < 2 ^ (8 * Z.of_nat n)
|}.

(** [std::string] and [std::vector<uint8_t>], which differ in their limits. *)
Definition sized_bytes (limit : Z) (e : format_error) : Serde (list Z) := {|
  serialize_value s := write_size (length s) ++ s;
  deserialize_value := len ← read 4; _ ← reject_if (limit <? len) e; if 0 <? len then read_bytes len else mret [];
  fits s := Z.of_nat (length s) <= limit /\ Forall is_byte s
|}.
Definition string_serde : Serde (list Z) := sized_bytes 1000000 StringTooLong.
Definition bytes_serde : Serde (list Z) := sized_bytes 100000000 BytesTooLong.

#[global] Instance pair_serde {A B} `{Serde A, Serde B} : Serde (A * B) := {|
  serialize_value p := serialize_value p.1 ++ serialize_value p.2;
  deserialize_value := a ← deserialize_value; b ← deserialize_value; mret (a, b);
  fits p := fits p.1 /\ fits p.2
|}.

Definition vector_serde {T} `{Serde T} : Serde (list T) := {|
  serialize_value v := write_size (length v) ++ concat (serialize_value <$> v);
  deserialize_value := n ← read 4; _ ← reject_if (10000000 <? n) VectorTooLong; read_list (Z.to_nat n) deserialize_value;
  fits v := Z.of_nat (length v) <= 10000000 /\ Forall fits v
|}.

#[global] Instance option_serde {T} `{Serde T} : Serde (option T) := {|
  serialize_value o := write_bool (bool_decide (is_Some o)) ++ from_option serialize_value [] o;
  deserialize_value := has ← read 1; if negb (has =? 0) then t ← deserialize_value; mret (Some t) else mret None;
  fits o := from_option fits True o
|}.

(** * The records *)

(** [serialized_mm_config]; the doubles are bit patterns. *)
Record mm_config := MmConfig {
  lru_refresh_time : Z;
  lru_refresh_ratio : Z;
  update_on_write : bool;
  update_on_read : bool;
  try_lock_update : bool;
  lru_insertion_point_spec : Z;
  mm_reconfigure_interval_secs : Z;
  hot_ratio : Z;
  warm_ratio : Z;
  rebalance_on_record_access : bool;
  cms_window_multiplier : Z;
  cms_error_threshold : Z;
  cms_hash_count : Z
}.

(** The defaults: the doubles are 0.0, 0.3, 0.4 and 5.0. *)
Definition mm_config_default : mm_config :=
  MmConfig 60 0 false true true 0 0 0x3fd3333333333333 0x3fd999999999999a true 32 0x4014000000000000 4.

Definition config_write (c : mm_config) : list Z :=
  write 4 (lru_refresh_time c) ++ write 8 (lru_refresh_ratio c) ++ write_bool (update_on_write c) ++ write_bool (update_on_read c) ++
  write_bool (try_lock_update c) ++ write 1 (lru_insertion_point_spec c) ++ write 4 (mm_reconfigure_interval_secs c) ++
  write 8 (hot_ratio c) ++ write 8 (warm_ratio c) ++ write_bool (rebalance_on_record_access c) ++ write 4 (cms_window_multiplier c) ++
  write 8 (cms_error_threshold c) ++ write 4 (cms_hash_count c).

Definition read_bool : reader bool := b ← read 1; mret (negb (b =? 0)).

Definition config_read : reader mm_config :=
  refresh_time ← read 4; refresh_ratio ← read 8; on_write ← read_bool; on_read ← read_bool; try_lock ← read_bool;
  spec ← read 1; interval ← read 4; hot ← read 8; warm ← read 8; rebalance ← read_bool;
  window ← read 4; threshold ← read 8; hashes ← read 4;
  mret (MmConfig refresh_time refresh_ratio on_write on_read try_lock spec interval hot warm rebalance window threshold hashes).

Definition fits_word (n : nat) (v : Z) : Prop := 0 <= v < 2 ^ (8 * Z.of_nat n).

Record config_fits (c : mm_config) : Prop := {
  cf_refresh_time : fits_word 4 (lru_refresh_time c);
  cf_refresh_ratio : fits_word 8 (lru_refresh_ratio c);
  cf_spec : fits_word 1 (lru_insertion_point_spec c);
  cf_interval : fits_word 4 (mm_reconfigure_interval_secs c);
  cf_hot : fits_word 8 (hot_ratio c);
  cf_warm : fits_word 8 (warm_ratio c);
  cf_window : fits_word 4 (cms_window_multiplier c);
  cf_threshold : fits_word 8 (cms_error_threshold c);
  cf_hashes : fits_word 4 (cms_hash_count c)
}.

(** [serialized_list_state], with its three reserved words. *)
Record list_state := ListState { insertion_point_pos : Z; tail_size : Z }.
Definition list_state_default : list_state := ListState U32_MAX 0.

Definition list_state_write (s : list_state) : list Z :=
  write 4 (insertion_point_pos s) ++ write 4 (tail_size s) ++ write 4 0 ++ write 4 0 ++ write 4 0.
Definition list_state_read : reader list_state :=
  pos ← read 4; tail ← read 4; _ ← read 4; _ ← read 4; _ ← read 4; mret (ListState pos tail).

(** [serialized_item] *)
Record serialized_item (Key Value : Type) := SerializedItem {
  si_key : Key;
  si_value : Value;
  si_update_time : Z;
  si_flags : Z;
  si_queue_id : Z
}.
#[global] Arguments SerializedItem {_ _} _ _ _ _ _.
#[global] Arguments si_key {_ _} _.
#[global] Arguments si_value {_ _} _.
#[global] Arguments si_update_time {_ _} _.
#[global] Arguments si_flags {_ _} _.
#[global] Arguments si_queue_id {_ _} _.

Section item.
Context {Key Value : Type} `{Serde Key, Serde Value}.

Definition item_write (it : serialized_item Key Value) : list Z :=
  serialize_value (si_key it) ++ serialize_value (si_value it) ++ write 4 (si_update_time it) ++ write 1 (si_flags it) ++ write 1 (si_queue_id it).

Definition item_read : reader (serialized_item Key Value) :=
  key ← deserialize_value; value ← deserialize_value; time ← read 4; flags ← read 1; queue ← read 1;
  mret (SerializedItem key value time flags queue).

Record item_fits (it : serialized_item Key Value) : Prop := {
  itf_key : fits (si_key it);
  itf_value : fits (si_value it);
  itf_time : fits_word 4 (si_update_time it);
  itf_flags : fits_word 1 (si_flags it);
  itf_queue : fits_word 1 (si_queue_id it)
}.

End item.

(** * Round trips *)

Lemma reads_ret {A} (a : A) : reads (mret a) [] a.
Proof. intros pre suf. by rewrite app_nil_r. Qed.

Lemma reads_bind {A B} (m : reader A) (f : A -> reader B) b1 b2 a b : reads m b1 a -> reads (f a) b2 b -> reads (m ≫= f) (b1 ++ b2) b.
Proof.
  intros Hm Hf pre suf. unfold mbind, reader_bind. specialize (Hm pre (b2 ++ suf)). specialize (Hf (pre ++ b1) suf).
  rewrite <- !app_assoc in *. by rewrite Hm, Hf.
Qed.

(** The last read of a sequence. *)
Lemma reads_last {A B} (m : reader A) (f : A -> reader B) bs a b : reads m bs a -> reads (f a) [] b -> reads (m ≫= f) bs b.
Proof. intros Hm Hf. rewrite <- (app_nil_r bs). by apply (reads_bind m f bs [] a). Qed.

(** A check that passes. *)
Lemma reads_check {A} bad e (m : reader A) bs a : bad = false -> reads m bs a -> reads (reject_if bad e ≫= fun _ => m) bs a.
Proof. intros -> Hm. apply (reads_bind (reject_if false e) (fun _ => m) [] bs tt a); [apply reads_ret|done]. Qed.

Lemma slice_mid pre bs suf : slice (pre ++ bs ++ suf) (Z.of_nat (length pre)) (Z.of_nat (length bs)) = bs.
Proof. unfold slice. by rewrite !Nat2Z.id, drop_app_length, take_app_length. Qed.

Lemma read_bytes_ok bs : reads (read_bytes (Z.of_nat (length bs))) bs bs.
Proof.
  intros pre suf. unfold read_bytes. rewrite slice_mid, !length_app. destruct (Z.ltb_spec (Z.of_nat (length pre + (length bs + length suf))) (Z.of_nat (length pre) + Z.of_nat (length bs))); [lia|].
  do 2 f_equal. lia.
Qed.

Lemma length_write n v : length (write n v) = n.
Proof. revert v. induction n; intros v; cbn; auto. Qed.

Lemma write_is_bytes n v : Forall is_byte (write n v).
Proof. revert v. induction n; intros v; constructor; [apply Z.mod_pos_bound; lia|auto]. Qed.

Lemma le_value_write n v : le_value (write n v) = v mod 2 ^ (8 * Z.of_nat n).
Proof.
  revert v. induction n as [|n IH]; intros v; [by rewrite Z.mod_1_r|]. cbn [write le_value foldr]. fold (le_value (write n (v / 256))). rewrite IH.
  replace (8 * Z.of_nat (S n)) with (8 + 8 * Z.of_nat n) by lia. rewrite Z.pow_add_r by lia. change (2 ^ 8) with 256.
  rewrite (Z.rem_mul_r v 256 (2 ^ (8 * Z.of_nat n))) by (try apply Z.pow_pos_nonneg; lia). lia.
Qed.

#[global] Arguments write : simpl never.
#[global] Arguments write_size : simpl never.

Lemma read_write n v : fits_word n v -> reads (read n) (write n v) v.
Proof.
  intros Hv. unfold read. apply (reads_last _ _ _ (write n v)).
  - rewrite <- (length_write n v) at 1. apply read_bytes_ok.
  - rewrite le_value_write, Z.mod_small by done. apply reads_ret.
Qed.

Lemma read_size (n : nat) : Z.of_nat n < 2 ^ 32 -> reads (read 4) (write_size n) (Z.of_nat n).
Proof. intros Hn. unfold write_size. rewrite wrap_small by lia. apply read_write. unfold fits_word. cbn. lia. Qed.

Lemma read_write_bool b : reads read_bool (write_bool b) b.
Proof. unfold read_bool. eapply reads_last; [apply read_write; by destruct b|]. destruct b; apply reads_ret. Qed.

Lemma read_list_ok {A} (m : reader A) (enc : A -> list Z) l : (forall a, a ∈ l -> reads m (enc a) a) -> reads (read_list (length l) m) (concat (enc <$> l)) l.
Proof.
  induction l as [|a l IH]; intros Hm; [apply reads_ret|]. cbn. eapply reads_bind; [apply Hm; by left|]. eapply reads_last; [apply IH; intros; apply Hm; by right|].
  apply reads_ret.
Qed.

Create HintDb format discriminated.
#[export] Hint Resolve read_write read_write_bool read_size read_bytes_ok reads_ret : format.
#[export] Hint Resolve write_is_bytes : format.

(** One field after the other. *)
Ltac read_fields := repeat first [eapply reads_bind; [eauto with format|]|eapply reads_last; [eauto with format|]; eauto with format].

Lemma Forall_bytes_app l1 l2 : Forall is_byte l1 -> Forall is_byte l2 -> Forall is_byte (l1 ++ l2).
Proof. by intros; apply Forall_app. Qed.
#[export] Hint Resolve Forall_bytes_app : format.

Lemma concat_bytes {A} (enc : A -> list Z) l : (forall a, a ∈ l -> Forall is_byte (enc a)) -> Forall is_byte (concat (enc <$> l)).
Proof. induction l as [|a l IH]; intros Hl; [constructor|]. apply Forall_bytes_app; [apply Hl; by left|apply IH; intros; apply Hl; by right]. Qed.

(** * The encoders meet the laws *)

#[global] Instance trivial_serde_laws n : Z.of_nat n < 2 ^ 32 -> @SerdeLaws Z (trivial_serde n).
Proof.
  intros Hn. split; intros v Hv; cbn in *; [|by apply Forall_bytes_app; apply write_is_bytes].
  eapply reads_bind; [by apply read_size|]. apply reads_check; [by rewrite Z.eqb_refl|]. by apply read_write.
Qed.

Lemma sized_bytes_laws limit e : limit < 2 ^ 32 -> @SerdeLaws (list Z) (sized_bytes limit e).
Proof.
  intros Hl. split; intros s [Hn Hs]; cbn in *; [|by apply Forall_bytes_app; [apply write_is_bytes|]].
  eapply reads_bind; [apply read_size; lia|]. apply reads_check; [by apply Z.ltb_ge|]. destruct (Z.ltb_spec 0 (Z.of_nat (length s))); [apply read_bytes_ok|].
  destruct s; [apply reads_ret|cbn in *; lia].
Qed.

#[global] Instance string_serde_laws : @SerdeLaws (list Z) string_serde := sized_bytes_laws 1000000 StringTooLong eq_refl.
#[global] Instance bytes_serde_laws : @SerdeLaws (list Z) bytes_serde := sized_bytes_laws 100000000 BytesTooLong eq_refl.

#[global] Instance pair_serde_laws {A B} `{SerdeLaws A, SerdeLaws B} : SerdeLaws (A * B).
Proof.
  split; intros [a b] [Ha Hb]; cbn in *; [|by apply Forall_bytes_app; apply serde_bytes].
  eapply reads_bind; [by apply serde_roundtrip|]. eapply reads_last; [by apply serde_roundtrip|]. apply reads_ret.
Qed.

#[global] Instance vector_serde_laws {T} `{SerdeLaws T} : @SerdeLaws (list T) vector_serde.
Proof.
  split; intros v [Hn Hv]; cbn in *; rewrite Forall_forall in Hv.
  - eapply reads_bind; [apply read_size; lia|]. apply reads_check; [by apply Z.ltb_ge|]. rewrite Nat2Z.id. apply read_list_ok. intros. apply serde_roundtrip; auto.
  - apply Forall_bytes_app; [apply write_is_bytes|]. apply concat_bytes. intros. apply serde_bytes; auto.
Qed.

#[global] Instance option_serde_laws {T} `{SerdeLaws T} : SerdeLaws (option T).
Proof.
  split; intros [t|] Ht; cbn in *.
  - eapply reads_bind; [by apply (read_write 1 1)|]. cbn. eapply reads_last; [by apply serde_roundtrip|]. apply reads_ret.
  - eapply reads_last; [by apply (read_write 1 0)|]. apply reads_ret.
  - apply Forall_bytes_app; [apply write_is_bytes|by apply serde_bytes].
  - rewrite app_nil_r. apply write_is_bytes.
Qed.

Lemma config_roundtrip c : config_fits c -> reads config_read (config_write c) c.
Proof. intros []. destruct c. unfold config_read, config_write. cbn in *. read_fields. Qed.

Lemma config_bytes c : Forall is_byte (config_write c).
Proof. unfold config_write, write_bool. auto 20 with format. Qed.

Lemma list_state_roundtrip s : fits_word 4 (insertion_point_pos s) -> fits_word 4 (tail_size s) -> reads list_state_read (list_state_write s) s.
Proof.
  intros H1 H2. destruct s. unfold list_state_read, list_state_write. cbn in H1, H2. assert (fits_word 4 0) by (unfold fits_word; cbn; lia). cbn [insertion_point_pos tail_size].
  read_fields.
Qed.

Lemma list_state_bytes s : Forall is_byte (list_state_write s).
Proof. unfold list_state_write. auto 20 with format. Qed.

Section item_laws.
Context {Key Value : Type} `{SerdeLaws Key, SerdeLaws Value}.

Lemma item_roundtrip (it : serialized_item Key Value) : item_fits it -> reads item_read (item_write it) it.
Proof.
  intros []. destruct it. unfold item_read, item_write. cbn in *. eapply reads_bind; [by apply serde_roundtrip|]. eapply reads_bind; [by apply serde_roundtrip|]. read_fields.
Qed.

Lemma item_bytes (it : serialized_item Key Value) : item_fits it -> Forall is_byte (item_write it).
Proof. intros []. unfold item_write. pose proof (serde_bytes (si_key it)). pose proof (serde_bytes (si_value it)). auto 20 with format. Qed.

End item_laws.
