(* ===== verification/Serialization.v ===== *)
(** Saving and restoring (serialization.hpp, and the save and load of lru.hpp): a
    snapshot becomes a header with a checksum, the configuration, the extra state
    of the strategy and the items, and parsing takes it back or throws. *)

From S2P Require Import Prelude Crc32 BinaryFormat.

Definition kSerializationMagic : Z := 0x5355524c.
Definition kSerializationVersion : Z := 5.
Definition kV5HeaderSize : Z := 36.

Inductive mm_type_id := TypeLru | TypeTwoQ | TypeTinyLfu | TypeWTinyLfu | TypeFifo | TypeShardedLru.
#[global] Instance mm_type_id_eq : EqDecision mm_type_id.
Proof. solve_decision. Defined.
Definition type_code (t : mm_type_id) : Z :=
  match t with
  | TypeLru => 0
  | TypeTwoQ => 1
  | TypeTinyLfu => 2
  | TypeWTinyLfu => 3
  | TypeFifo => 4
  | TypeShardedLru => 5
  end.

(** The first 36 bytes, with the checksum still to be patched. *)
Definition header (count : nat) (type : mm_type_id) (features : Z) : list Z :=
  write 4 kSerializationMagic ++ write 4 kSerializationVersion ++ write_size count ++ write 4 (type_code type) ++
  write 4 kV5HeaderSize ++ write 4 0 ++ write 8 features.

(** The checksum is written as zero and patched once the payload is there. *)
Definition with_checksum (hdr payload : list Z) : option (list Z) :=
  let buffer := hdr ++ write 4 0 ++ payload in
  let checksum_offset := length hdr in
  patch_at checksum_offset 4 (crc32 (drop (checksum_offset + 4) buffer)) buffer.

Section format.
Context {Key Value : Type} `{Serde Key, Serde Value}.

(** [cache_snapshot] *)
Record snapshot := Snapshot {
  sn_type : mm_type_id;
  sn_features : Z;
  sn_config : mm_config;
  sn_list_state : list_state;
  sn_cms_state : list Z;
  sn_items : list (serialized_item Key Value)
}.

(** [parsed_deserialization_data] *)
Record parsed := Parsed {
  pd_features : Z;
  pd_config : mm_config;
  pd_list_state : list_state;
  pd_cms_state : list Z;
  pd_items : list (serialized_item Key Value)
}.

Definition cms_write (words : list Z) : list Z := write_size (length words) ++ concat (write 4 <$> words).

(** The extra state by strategy. *)
Definition extra_write (s : snapshot) : list Z :=
  match sn_type s with
  | TypeLru | TypeShardedLru => list_state_write (sn_list_state s)
  | TypeTinyLfu | TypeWTinyLfu => cms_write (sn_cms_state s)
  | TypeTwoQ | TypeFifo => []
  end.

Definition serialize_from_snapshot (s : snapshot) : option (list Z) :=
  with_checksum (header (length (sn_items s)) (sn_type s) (sn_features s))
    (config_write (sn_config s) ++ extra_write s ++ concat (item_write <$> sn_items s)).

(** [serialize_impl]: [size] is the strategy's size, [items] what its iteration
    yields, [cfg] and [extra] what the callables of the strategy write. *)
Definition serialize_impl (size : nat) (items : list (serialized_item Key Value)) (type : mm_type_id) (features : Z)
    (cfg : mm_config -> mm_config) (extra : list Z) : option (list Z) :=
  with_checksum (header size type features) (config_write (cfg mm_config_default) ++ extra ++ concat (item_write <$> items)).

(** * Parsing *)

(** The checksum over everything from the declared header size on. *)
Definition check_payload (header_size stored : Z) : reader unit := fun data pos =>
  if crc32 (drop (Z.to_nat header_size) data) =? stored then inr (tt, pos) else inl ChecksumMismatch.
Definition check_header_size (header_size : Z) : reader unit := fun data pos =>
  if (header_size <? kV5HeaderSize) || (Z.of_nat (length data) <? header_size) then inl InvalidHeaderSize else inr (tt, pos).

Definition extra_read (type : mm_type_id) : reader (list_state * list Z) :=
  match type with
  | TypeLru | TypeShardedLru => l ← list_state_read; mret (l, [])
  | TypeTinyLfu | TypeWTinyLfu =>
      words ← read 4; _ ← reject_if (1000000 <? words) TooManyCmsWords; cms ← read_list (Z.to_nat words) (read 4); mret (list_state_default, cms)
  | TypeTwoQ | TypeFifo => mret (list_state_default, [])
  end.

Definition parse_body (expected : mm_type_id) (features count : Z) : reader parsed :=
  config ← config_read;
  extra ← extra_read expected;
  items ← read_list (Z.to_nat count) item_read;
  mret (Parsed features config extra.1 extra.2 items).

Definition parse_reader (expected : mm_type_id) : reader parsed :=
  magic ← read 4;
  _ ← reject_if (negb (magic =? kSerializationMagic)) InvalidMagic;
  version ← read 4;
  count ← read 4;
  _ ← reject_if (10000000 <? count) TooManyItems;
  type ← read 4;
  _ ← reject_if (negb (type =? type_code expected)) TypeMismatch;
  _ ← reject_if (negb (version =? kSerializationVersion)) UnsupportedVersion;
  header_size ← read 4;
  _ ← check_header_size header_size;
  flags ← read 4;
  features ← read 8;
  stored ← read 4;
  _ ← check_payload header_size stored;
  parse_body expected features count.

Definition parse_serialized_data (expected : mm_type_id) (data : list Z) : format_error + parsed :=
  match parse_reader expected data 0 with inl e => inl e | inr (p, _) => inr p end.

(** * Sharded caches *)

Definition serialize_shards (shard_data : list (list Z)) : option (list Z) :=
  with_checksum (header (length shard_data) TypeShardedLru 0) (concat (write_span <$> shard_data)).

Definition serialize_sharded (shards : list snapshot) : option (list Z) :=
  shard_data ← mapM serialize_from_snapshot shards; serialize_shards shard_data.

Definition from_result {A} (r : format_error + A) : reader A := fun _ pos => match r with inl e => inl e | inr a => inr (a, pos) end.
(** The payload of one shard is parsed on its own. *)
Definition parse_shard : reader parsed :=
  span ← read_span; from_result (parse_serialized_data TypeLru span).

(** The reader of [deserialize] for a sharded cache of [num_shards]. *)
Definition parse_sharded_reader (num_shards : nat) : reader (list parsed) :=
  magic ← read 4;
  _ ← reject_if (negb (magic =? kSerializationMagic)) InvalidMagic;
  version ← read 4;
  _ ← reject_if (negb (version =? kSerializationVersion)) UnsupportedVersion;
  count ← read 4;
  type ← read 4;
  _ ← reject_if (negb (type =? type_code TypeShardedLru)) TypeMismatch;
  header_size ← read 4;
  _ ← check_header_size header_size;
  flags ← read 4;
  features ← read 8;
  stored ← read 4;
  _ ← check_payload header_size stored;
  _ ← reject_if (negb (count =? Z.of_nat num_shards)) ShardsMismatch;
  read_list (Z.to_nat count) parse_shard.

Definition parse_sharded (num_shards : nat) (data : list Z) : format_error + list parsed :=
  match parse_sharded_reader num_shards data 0 with inl e => inl e | inr (p, _) => inr p end.

(** [parse_sharded_serialized_data] and the size check of [load] in lru.hpp: the
    type field is read and ignored, and the number of shards is compared last. *)
Definition load_sharded_reader (num_shards : nat) : reader (list parsed) :=
  magic ← read 4;
  _ ← reject_if (negb (magic =? kSerializationMagic)) InvalidMagic;
  version ← read 4;
  _ ← reject_if (negb (version =? kSerializationVersion)) UnsupportedVersion;
  count ← read 4;
  type ← read 4;
  header_size ← read 4;
  _ ← check_header_size header_size;
  flags ← read 4;
  features ← read 8;
  stored ← read 4;
  _ ← check_payload header_size stored;
  l ← read_list (Z.to_nat count) parse_shard;
  _ ← reject_if (negb (length l =? num_shards)%nat) ShardsMismatch;
  mret l.

Definition load_sharded (num_shards : nat) (data : list Z) : format_error + list parsed :=
  match load_sharded_reader num_shards data 0 with inl e => inl e | inr (p, _) => inr p end.

End format.
#[global] Arguments snapshot : clear implicits.
#[global] Arguments parsed : clear implicits.
#[global] Arguments Snapshot {_ _} _ _ _ _ _ _.
#[global] Arguments Parsed {_ _} _ _ _ _ _.

(** * Inspection *)

(** [serialization_header_info] *)
Record header_info := HeaderInfo {
  hi_magic : Z;
  hi_version : Z;
  hi_item_count : Z;
  hi_mm_type : Z;
  hi_header_size : Z;
  hi_flags : Z;
  hi_features : Z;
  hi_checksum : Z;
  hi_computed : Z;
  magic_ok : bool;
  version_supported : bool;
  checksum_ok : bool;
  payload_offset : Z
}.

Definition data_size : reader Z := fun data pos => inr (Z.of_nat (length data), pos).
Definition payload_crc (offset : Z) : reader Z := fun data pos => inr (crc32 (drop (Z.to_nat offset) data), pos).

Definition inspect_reader : reader header_info :=
  size ← data_size;
  if size <? 8 then mret (HeaderInfo 0 0 0 0 0 0 0 0 0 false false false 0)
  else
    magic ← read 4;
    version ← read 4;
    let m := magic =? kSerializationMagic in
    let v := version =? kSerializationVersion in
    if negb m || negb v || (size <? kV5HeaderSize) then mret (HeaderInfo magic version 0 0 0 0 0 0 0 m v false 0)
    else
      count ← read 4;
      if 10000000 <? count then mret (HeaderInfo magic version count 0 0 0 0 0 0 m false false 0)
      else
        type ← read 4;
        header_size ← read 4;
        flags ← read 4;
        features ← read 8;
        checksum ← read 4;
        if (header_size <? kV5HeaderSize) || (size <? header_size) then
          mret (HeaderInfo magic version count type header_size flags features checksum 0 m false false 0)
        else
          computed ← payload_crc header_size;
          mret (HeaderInfo magic version count type header_size flags features checksum computed m v (computed =? checksum) header_size).

Definition inspect_serialization_header (data : list Z) : format_error + header_info :=
  match inspect_reader data 0 with inl e => inl e | inr (i, _) => inr i end.
