(* ===== verification/SerializationClaims.v ===== *)
(** The properties of the binary format: what is saved is parsed back, the header
    inspection agrees with the parser, and a damaged payload is refused. *)

From S2P Require Import Prelude Crc32 BinaryFormat Serialization.

(** * Steps of a parse *)

Lemma read_step {A B} (m : reader A) (f : A -> reader B) pre bs suf a r :
  reads m bs a -> f a ((pre ++ bs) ++ suf) (Z.of_nat (length (pre ++ bs))) = r -> (m ≫= f) (pre ++ bs ++ suf) (Z.of_nat (length pre)) = r.
Proof. intros Hm <-. unfold mbind at 1, reader_bind. by rewrite Hm, <- app_assoc. Qed.

Lemma check_step {B} bad e (m : reader B) data pos r : bad = false -> m data pos = r -> (reject_if bad e ≫= fun _ => m) data pos = r.
Proof. by intros -> <-. Qed.

Lemma header_size_step {B} (m : reader B) data pos r : kV5HeaderSize <= Z.of_nat (length data) -> m data pos = r ->
  (check_header_size kV5HeaderSize ≫= fun _ => m) data pos = r.
Proof.
  intros Hl <-. unfold mbind at 1, reader_bind, check_header_size. rewrite Z.ltb_irrefl. destruct (Z.ltb_spec (Z.of_nat (length data)) kV5HeaderSize); [lia|done].
Qed.

Lemma payload_step {B} (m : reader B) hdr payload pos r : length hdr = 36%nat -> m (hdr ++ payload) pos = r ->
  (check_payload kV5HeaderSize (crc32 payload) ≫= fun _ => m) (hdr ++ payload) pos = r.
Proof.
  intros Hl <-. unfold mbind at 1, reader_bind, check_payload. change (Z.to_nat kV5HeaderSize) with 36%nat. rewrite <- Hl, drop_app_length, Z.eqb_refl. done.
Qed.

(** A checksum that does not match ends the parse. *)
Lemma payload_bad {B} (m : reader B) hdr payload stored pos : length hdr = 36%nat -> crc32 payload <> stored ->
  (check_payload kV5HeaderSize stored ≫= fun _ => m) (hdr ++ payload) pos = inl ChecksumMismatch.
Proof.
  intros Hl Hc. unfold mbind, reader_bind, check_payload. change (Z.to_nat kV5HeaderSize) with 36%nat. rewrite <- Hl, drop_app_length.
  by rewrite (proj2 (Z.eqb_neq _ _) Hc).
Qed.

Lemma crc32_range data : Forall is_byte data -> fits_word 4 (crc32 data).
Proof.
  intros Hd. unfold fits_word. change (8 * Z.of_nat 4) with 32. unfold crc32. rewrite crc_rounds_bits by (done || lia).
  apply lxor_bounded; [lia|apply feed_bits_range; lia|lia].
Qed.

Lemma with_checksum_eq hdr payload : with_checksum hdr payload = Some (hdr ++ write 4 (crc32 payload) ++ payload).
Proof.
  assert (drop (length hdr + 4) (hdr ++ write 4 0 ++ payload) = payload) as E.
  { rewrite <- (drop_drop _ 4 (length hdr)), drop_app_length. by change 4%nat with (length (write 4 0)); rewrite drop_app_length. }
  unfold with_checksum, patch_at. rewrite E, take_app_length, !length_app, length_write.
  destruct (Nat.ltb_spec (length hdr + (4 + length payload)) (length hdr + 4)); [lia|done].
Qed.

Lemma length_header count type features : length (header count type features) = 32%nat.
Proof. unfold header, write_size. by rewrite !length_app, !length_write. Qed.

Ltac word_fits := unfold fits_word, kSerializationMagic, kSerializationVersion, kV5HeaderSize; cbn; lia.

(** * One cache *)

Section cache.
Context {Key Value : Type} `{SerdeLaws Key, SerdeLaws Value}.
Abbreviation snapshot := (snapshot Key Value).
Abbreviation parse_serialized_data := (parse_serialized_data (Key := Key) (Value := Value)).

(** The limits the parser imposes. *)
Record snapshot_fits (s : snapshot) : Prop := {
  sf_features : fits_word 8 (sn_features s);
  sf_config : config_fits (sn_config s);
  sf_position : fits_word 4 (insertion_point_pos (sn_list_state s));
  sf_tail : fits_word 4 (tail_size (sn_list_state s));
  sf_cms_count : Z.of_nat (length (sn_cms_state s)) <= 1000000;
  sf_cms : Forall (fits_word 4) (sn_cms_state s);
  sf_count : Z.of_nat (length (sn_items s)) <= 10000000;
  sf_items : Forall item_fits (sn_items s)
}.

(** What a parse of the snapshot returns: the extra state is the strategy's own. *)
Definition parsed_of (s : snapshot) : parsed Key Value :=
  Parsed (sn_features s) (sn_config s)
    (match sn_type s with TypeLru | TypeShardedLru => sn_list_state s | _ => list_state_default end)
    (match sn_type s with TypeTinyLfu | TypeWTinyLfu => sn_cms_state s | _ => [] end)
    (sn_items s).

Definition payload (s : snapshot) : list Z := config_write (sn_config s) ++ extra_write s ++ concat (item_write <$> sn_items s).
Definition saved (s : snapshot) : list Z :=
  header (length (sn_items s)) (sn_type s) (sn_features s) ++ write 4 (crc32 (payload s)) ++ payload s.

Lemma serialize_saved s : serialize_from_snapshot s = Some (saved s).
Proof. apply with_checksum_eq. Qed.

Lemma extra_roundtrip s : snapshot_fits s -> reads (extra_read (sn_type s)) (extra_write s) (pd_list_state (parsed_of s), pd_cms_state (parsed_of s)).
Proof.
  intros []. unfold extra_read, extra_write, parsed_of. cbn [pd_list_state pd_cms_state]. destruct (sn_type s); try apply reads_ret.
  1, 4: eapply reads_last; [by apply list_state_roundtrip|apply reads_ret].
  all: unfold cms_write; eapply reads_bind; [apply read_size; lia|]; apply reads_check; [by apply Z.ltb_ge|]; rewrite Nat2Z.id.
  all: eapply reads_last; [apply (read_list_ok (read 4) (write 4)); intros a Ha; apply read_write; by eapply Forall_forall|apply reads_ret].
Qed.

Lemma body_roundtrip s : snapshot_fits s -> reads (parse_body (sn_type s) (sn_features s) (Z.of_nat (length (sn_items s)))) (payload s) (parsed_of s).
Proof.
  intros Hs. unfold parse_body, payload. eapply reads_bind; [apply config_roundtrip, Hs|]. eapply reads_bind; [by apply extra_roundtrip|].
  rewrite Nat2Z.id. eapply reads_last; [|apply reads_ret]. apply (read_list_ok item_read item_write). intros it Hi. apply item_roundtrip.
  eapply Forall_forall; [apply (sf_items s Hs)|done].
Qed.

Lemma payload_bytes s : snapshot_fits s -> Forall is_byte (payload s).
Proof.
  intros Hs. unfold payload. apply Forall_bytes_app; [apply config_bytes|]. apply Forall_bytes_app.
  - unfold extra_write, cms_write. destruct (sn_type s); try apply Forall_nil_2; try apply list_state_bytes;
      (apply Forall_bytes_app; [apply write_is_bytes|apply concat_bytes; intros; apply write_is_bytes]).
  - apply concat_bytes. intros it Hi. apply item_bytes. eapply Forall_forall; [apply (sf_items s Hs)|done].
Qed.

(** The header up to the checksum; [m] is the check that follows. *)
Lemma parse_header count type features stored rest : fits_word 8 features -> Z.of_nat count <= 10000000 -> fits_word 4 stored ->
  parse_reader (Key := Key) (Value := Value) type (header count type features ++ write 4 stored ++ rest) 0 =
  (check_payload kV5HeaderSize stored ≫= fun _ => parse_body type features (Z.of_nat count))
    ((header count type features ++ write 4 stored) ++ rest) 36.
Proof.
  intros Hf Hc Hs. unfold header. rewrite <- !app_assoc. set (data := write 4 kSerializationMagic ++ _).
  change (parse_reader type data 0) with (parse_reader (Key := Key) (Value := Value) type ([] ++ data) (Z.of_nat (length (@nil Z)))).
  unfold parse_reader, data. apply read_step with kSerializationMagic; [apply read_write; word_fits|].
  apply check_step; [done|]. apply read_step with kSerializationVersion; [apply read_write; word_fits|].
  apply read_step with (Z.of_nat count); [apply read_size; lia|]. apply check_step; [by apply Z.ltb_ge|].
  apply read_step with (type_code type); [apply read_write; destruct type; word_fits|]. apply check_step; [by rewrite Z.eqb_refl|]. apply check_step; [done|].
  apply read_step with kV5HeaderSize; [apply read_write; word_fits|]. apply header_size_step.
  { rewrite !length_app, !length_write. unfold kV5HeaderSize, write_size. rewrite ?length_write. cbn. lia. }
  apply read_step with 0; [apply read_write; word_fits|]. apply read_step with features; [by apply read_write|].
  apply read_step with stored; [by apply read_write|]. rewrite <- !app_assoc. unfold write_size. rewrite !length_app, !length_write. done.
Qed.

Lemma parse_saved s : snapshot_fits s -> parse_serialized_data (sn_type s) (saved s) = inr (parsed_of s).
Proof.
  intros Hs. unfold parse_serialized_data, saved. rewrite parse_header; [|apply Hs|apply Hs|by apply crc32_range, payload_bytes].
  pose proof (body_roundtrip s Hs (header (length (sn_items s)) (sn_type s) (sn_features s) ++ write 4 (crc32 (payload s))) []) as Hb.
  rewrite app_nil_r, length_app, length_header, length_write in Hb.
  change (Z.of_nat (32 + 4)) with 36 in Hb. rewrite (payload_step _ _ _ _ _ (ltac:(by rewrite length_app, length_header, length_write)) Hb). done.
Qed.

(** A saved header with another payload behind it. *)
Lemma parse_damaged s rest : snapshot_fits s -> Forall is_byte rest -> burst (payload s) rest -> rest <> payload s ->
  parse_serialized_data (sn_type s) (header (length (sn_items s)) (sn_type s) (sn_features s) ++ write 4 (crc32 (payload s)) ++ rest) = inl ChecksumMismatch.
Proof.
  intros Hs Hr Hb Hne. unfold parse_serialized_data. rewrite parse_header; [|apply Hs|apply Hs|by apply crc32_range, payload_bytes].
  rewrite payload_bad; [done|by rewrite length_app, length_header, length_write|]. intros E. apply Hne. symmetry.
  apply crc32_burst; [by apply payload_bytes|done..].
Qed.

(** * Shards *)

Lemma read_span_ok bs : Z.of_nat (length bs) < 2 ^ 32 -> reads read_span (write_span bs) bs.
Proof.
  intros Hl. unfold read_span, write_span. eapply reads_bind; [by apply read_size|]. intros pre suf. unfold view_bytes.
  rewrite slice_mid, !length_app. destruct (Z.ltb_spec (Z.of_nat (length pre + (length bs + length suf))) (Z.of_nat (length pre) + Z.of_nat (length bs))); [lia|].
  do 2 f_equal. lia.
Qed.

(** A shard is a snapshot of an [mm_lru] whose bytes have a 32-bit length. *)
Definition shard_fits (s : snapshot) : Prop := snapshot_fits s /\ sn_type s = TypeLru /\ Z.of_nat (length (saved s)) < 2 ^ 32.

Lemma parse_shard_ok s : shard_fits s -> reads (parse_shard (Key := Key) (Value := Value)) (write_span (saved s)) (parsed_of s).
Proof.
  intros (Hs & Ht & Hl). unfold parse_shard. eapply reads_last; [by apply read_span_ok|]. intros pre suf. unfold from_result.
  rewrite <- Ht, parse_saved by done. by rewrite app_nil_r.
Qed.

Lemma shards_payload shards : Forall shard_fits shards ->
  reads (read_list (length shards) parse_shard) (concat (write_span <$> (saved <$> shards))) (parsed_of <$> shards) /\
  Forall is_byte (concat (write_span <$> (saved <$> shards))).
Proof.
  induction shards as [|s shards IH]; intros Hs; [split; [apply reads_ret|constructor]|]. apply Forall_cons in Hs as [Hs Hss]. destruct (IH Hss) as [IH1 IH2].
  cbn. split.
  - eapply reads_bind; [by apply parse_shard_ok|]. eapply reads_last; [done|]. apply reads_ret.
  - apply Forall_bytes_app; [|done]. unfold write_span, saved. apply Forall_bytes_app; [apply write_is_bytes|].
    apply Forall_bytes_app; [unfold header, write_size; auto 20 with format|]. apply Forall_bytes_app; [apply write_is_bytes|by apply payload_bytes, Hs].
Qed.

Lemma mapM_saved shards : mapM serialize_from_snapshot shards = Some (saved <$> shards).
Proof. induction shards as [|s shards IH]; [done|]. cbn. by rewrite serialize_saved, IH. Qed.

(** Up to the checksum, with the checks of the two sharded readers. *)
Lemma sharded_header {A} (count : nat) stored rest (check : Z -> reader unit) (m : Z -> reader A) : Z.of_nat count < 2 ^ 32 -> fits_word 4 stored ->
  check (type_code TypeShardedLru) = mret tt ->
  (magic ← read 4; _ ← reject_if (negb (magic =? kSerializationMagic)) InvalidMagic; version ← read 4;
   _ ← reject_if (negb (version =? kSerializationVersion)) UnsupportedVersion; n ← read 4; type ← read 4; _ ← check type; header_size ← read 4;
   _ ← check_header_size header_size; flags ← read 4; features ← read 8; stored ← read 4; _ ← check_payload header_size stored; m n)
   (header count TypeShardedLru 0 ++ write 4 stored ++ rest) 0 =
  (check_payload kV5HeaderSize stored ≫= fun _ => m (Z.of_nat count)) ((header count TypeShardedLru 0 ++ write 4 stored) ++ rest) 36.
Proof.
  intros Hc Hs Hk. unfold header. rewrite <- !app_assoc. set (data := write 4 kSerializationMagic ++ _). change data with ([] ++ data) at 1.
  change 0 with (Z.of_nat (length (@nil Z))) at 1. unfold data.
  apply read_step with kSerializationMagic; [apply read_write; word_fits|].
  apply check_step; [done|]. apply read_step with kSerializationVersion; [apply read_write; word_fits|]. apply check_step; [done|].
  apply read_step with (Z.of_nat count); [by apply read_size|]. apply read_step with (type_code TypeShardedLru); [apply read_write; word_fits|].
  rewrite Hk. apply (check_step false ShardsMismatch); [done|]. apply read_step with kV5HeaderSize; [apply read_write; word_fits|]. apply header_size_step.
  { rewrite !length_app, !length_write. unfold kV5HeaderSize, write_size. rewrite ?length_write. cbn. lia. }
  apply read_step with 0; [apply read_write; word_fits|]. apply read_step with 0; [apply read_write; word_fits|].
  apply read_step with stored; [by apply read_write|]. rewrite <- !app_assoc. unfold write_size. rewrite !length_app, !length_write. done.
Qed.

(** * Inspection *)

Definition field (data : list Z) (pos : Z) (n : nat) : Z := le_value (slice data pos (Z.of_nat n)).

Lemma read_at {B} n (f : Z -> reader B) data pos : pos + Z.of_nat n <= Z.of_nat (length data) ->
  (read n ≫= f) data pos = f (field data pos n) data (pos + Z.of_nat n).
Proof.
  intros Hl. unfold read, read_bytes, mbind, reader_bind. destruct (Z.ltb_spec (Z.of_nat (length data)) (pos + Z.of_nat n)); [lia|done].
Qed.

Lemma bind_inr {A B} (m : reader A) (f : A -> reader B) data pos r : (m ≫= f) data pos = inr r ->
  exists a pos1, m data pos = inr (a, pos1) /\ f a data pos1 = inr r.
Proof. unfold mbind, reader_bind. destruct (m data pos) as [|[a pos1]]; [done|]. by exists a, pos1. Qed.

(** Data shorter than a header is refused. *)
Lemma parse_short type data p : Z.of_nat (length data) < 36 -> parse_serialized_data type data <> inr p.
Proof.
  intros Hl E. unfold Serialization.parse_serialized_data in E. destruct (parse_reader type data 0) as [|[p' pos]] eqn:Ep; [done|]. unfold parse_reader in Ep.
  repeat (apply bind_inr in Ep as (? & ? & ? & Ep)). unfold check_header_size, kV5HeaderSize in *.
  match goal with H : (if (?hs <? _) || _ then _ else _) = inr _ |- _ => destruct (Z.ltb_spec hs 36); [done|]; destruct (Z.ltb_spec (Z.of_nat (length data)) hs); [done|lia] end.
Qed.

(** The header of data of at least 36 bytes, field by field. *)
Definition header_good (type : mm_type_id) (i : header_info) : bool :=
  magic_ok i && version_supported i && checksum_ok i && (hi_mm_type i =? type_code type).

Definition parse_at_36 (type : mm_type_id) (i : header_info) (data : list Z) : format_error + parsed Key Value :=
  match parse_body type (hi_features i) (hi_item_count i) data 36 with inl e => inl e | inr (p, _) => inr p end.

Lemma check_at {B} bad e (m : reader B) data pos : (reject_if bad e ≫= fun _ => m) data pos = if bad then inl e else m data pos.
Proof. by destruct bad. Qed.

Lemma size_at {B} hs (m : reader B) data pos :
  (check_header_size hs ≫= fun _ => m) data pos = if (hs <? 36) || (Z.of_nat (length data) <? hs) then inl InvalidHeaderSize else m data pos.
Proof. unfold mbind at 1, reader_bind, check_header_size, kV5HeaderSize. by destruct (_ || _). Qed.

Lemma crc_at {B} hs stored (m : reader B) data pos :
  (check_payload hs stored ≫= fun _ => m) data pos = if crc32 (drop (Z.to_nat hs) data) =? stored then m data pos else inl ChecksumMismatch.
Proof. unfold mbind at 1, reader_bind, check_payload. by destruct (_ =? _). Qed.

Ltac header_fields := repeat first [rewrite read_at by (cbn; lia)|rewrite check_at|rewrite size_at|rewrite crc_at].

(** The inspection never throws, and it decides the header as the parser does:
    when it finds a supported header of the strategy with a matching checksum, the
    parse is the decoding of the body after the 36 bytes, with the count and
    features it reports; otherwise the parse throws. *)
Theorem inspection_decides_header (type : mm_type_id) (data : list Z) : exists i, inspect_serialization_header data = inr i /\
  (if header_good type i then parse_serialized_data type data = parse_at_36 type i data
   else exists e, parse_serialized_data type data = inl e).
Proof.
  assert (forall r : format_error + parsed Key Value, (forall p, r <> inr p) -> exists e, r = inl e) as Herr by (intros [e|p] Hr; [by exists e|by destruct (Hr p)]).
  unfold inspect_serialization_header, inspect_reader. change (data_size ≫= ?f) with (fun d p => f (Z.of_nat (length d)) d p). cbn beta.
  destruct (Z.ltb_spec (Z.of_nat (length data)) 36) as [Hs|Hs].
  - assert (exists e, parse_serialized_data type data = inl e) as He by (apply Herr; intros p; by apply parse_short).
    destruct (Z.ltb_spec (Z.of_nat (length data)) 8); [by eexists|]. rewrite !read_at by (cbn; lia).
    unfold kV5HeaderSize at 1. rewrite (proj2 (Z.ltb_lt _ _) Hs), orb_true_r. eexists. split; [done|]. unfold header_good. cbn. by rewrite andb_false_r.
  - destruct (Z.ltb_spec (Z.of_nat (length data)) 8); [lia|]. unfold Serialization.parse_serialized_data, parse_reader, parse_at_36. header_fields.
    unfold kV5HeaderSize at 1. rewrite (proj2 (Z.ltb_ge _ _) Hs), orb_false_r.
    destruct (field data 0 4 =? kSerializationMagic); cbn [negb orb]; [|by eexists; split; [done|]; eexists].
    destruct (field data (0 + Z.of_nat 4) 4 =? kSerializationVersion); cbn [negb].
    2: { eexists. split; [done|]. unfold header_good. cbn [magic_ok version_supported checksum_ok andb].
         destruct (10000000 <? _); [by eexists|]. destruct (_ =? type_code type); by eexists. }
    header_fields. destruct (10000000 <? _); [by eexists; split; [done|]; eexists|]. header_fields. unfold kV5HeaderSize.
    destruct ((_ <? 36) || _); cbn [negb].
    { eexists. split; [done|]. unfold header_good. cbn [magic_ok version_supported checksum_ok andb]. destruct (_ =? type_code type); by eexists. }
    unfold mbind at 1, reader_bind at 1, payload_crc. eexists. split; [done|]. unfold header_good. cbn [magic_ok version_supported checksum_ok hi_mm_type andb].
    destruct (crc32 _ =? _); destruct (_ =? type_code type); cbn [negb andb]; try (by eexists).
Qed.

(** * Properties *)

(** C28: a snapshot within the limits of the format is saved, and parsing the
    bytes as the same strategy returns its features, configuration, extra state
    and items; the direct [serialize_impl] of a strategy with these items writes
    the same bytes. *)
Theorem snapshot_roundtrip (s : snapshot) : snapshot_fits s ->
  exists bytes, serialize_from_snapshot s = Some bytes /\ parse_serialized_data (sn_type s) bytes = inr (parsed_of s) /\
    serialize_impl (length (sn_items s)) (sn_items s) (sn_type s) (sn_features s) (fun _ => sn_config s) (extra_write s) = Some bytes.
Proof.
  intros Hs. exists (saved s). split; [apply serialize_saved|]. split; [by apply parse_saved|]. apply with_checksum_eq.
Qed.

(** C29: bytes that differ from a saved snapshot only inside a window of 32 bits
    of the payload are refused with a checksum mismatch. *)
Theorem damaged_payload_refused (s : snapshot) (bytes damaged : list Z) : snapshot_fits s -> serialize_from_snapshot s = Some bytes ->
  Forall is_byte damaged -> take 36 damaged = take 36 bytes -> burst (drop 36 bytes) (drop 36 damaged) -> damaged <> bytes ->
  parse_serialized_data (sn_type s) damaged = inl ChecksumMismatch.
Proof.
  intros Hs E Hd Ht Hb Hne. rewrite serialize_saved in E. injection E as <-. set (hdr := header (length (sn_items s)) (sn_type s) (sn_features s) ++ write 4 (crc32 (payload s))).
  assert (saved s = hdr ++ payload s) as Es by apply app_assoc. assert (length hdr = 36%nat) as Hh by (unfold hdr; by rewrite length_app, length_header, length_write).
  rewrite Es, <- Hh, take_app_length in Ht. rewrite Es, <- Hh, drop_app_length in Hb.
  rewrite <- (take_drop (length hdr) damaged), Ht. unfold hdr at 1. rewrite <- app_assoc. apply parse_damaged; [done|by apply Forall_drop|done|].
  intros Hp. apply Hne. by rewrite Es, <- (take_drop (length hdr) damaged), Ht, Hp.
Qed.

(** The shards of a sharded cache are saved into one file and parsed back in
    order, by [deserialize] and by [load]; a cache with another number of shards
    refuses the file. *)
Theorem sharded_roundtrip (shards : list snapshot) (num_shards : nat) : Forall shard_fits shards -> Z.of_nat (length shards) < 2 ^ 32 ->
  exists bytes, serialize_sharded shards = Some bytes /\
    parse_sharded num_shards bytes = (if (length shards =? num_shards)%nat then inr (parsed_of <$> shards) else inl ShardsMismatch) /\
    load_sharded num_shards bytes = (if (length shards =? num_shards)%nat then inr (parsed_of <$> shards) else inl ShardsMismatch).
Proof.
  intros Hs Hl. destruct (shards_payload shards Hs) as [Hr Hb]. set (pl := concat (write_span <$> (saved <$> shards))) in *.
  set (hdr := header (length shards) TypeShardedLru 0 ++ write 4 (crc32 pl)).
  assert (length hdr = 36%nat) as Hh by (unfold hdr; by rewrite length_app, length_header, length_write).
  exists (header (length shards) TypeShardedLru 0 ++ write 4 (crc32 pl) ++ pl). split.
  { unfold serialize_sharded, serialize_shards. rewrite mapM_saved. cbn [mbind option_bind]. rewrite with_checksum_eq, length_fmap. done. }
  specialize (Hr hdr []). rewrite app_nil_r, Hh in Hr. change (Z.of_nat 36) with 36 in Hr. pose proof (crc32_range pl Hb) as Hc. split.
  - unfold parse_sharded, parse_sharded_reader.
    rewrite (sharded_header (length shards) (crc32 pl) pl (fun type => reject_if (negb (type =? type_code TypeShardedLru)) TypeMismatch)
      (fun count => _ ← reject_if (negb (count =? Z.of_nat num_shards)) ShardsMismatch; read_list (Z.to_nat count) parse_shard)) by done.
    fold hdr. erewrite payload_step by done. rewrite check_at, Nat2Z.id. destruct (Nat.eqb_spec (length shards) num_shards) as [<-|Hne].
    + rewrite Z.eqb_refl. cbn [negb]. by rewrite Hr.
    + destruct (Z.eqb_spec (Z.of_nat (length shards)) (Z.of_nat num_shards)); [lia|done].
  - set (check_count := fun l : list (parsed Key Value) => _ ← reject_if (negb (length l =? num_shards)%nat) ShardsMismatch; mret l).
    pose proof (sharded_header (length shards) (crc32 pl) pl (fun _ => mret tt) (fun count => read_list (Z.to_nat count) parse_shard ≫= check_count)
      Hl Hc eq_refl) as E. unfold load_sharded. rewrite (E : load_sharded_reader num_shards _ 0 = _). fold hdr. erewrite payload_step by done.
    unfold mbind at 1, reader_bind at 1. rewrite Nat2Z.id, Hr. unfold check_count. rewrite check_at, length_fmap.
    by destruct (Nat.eqb_spec (length shards) num_shards).
Qed.

End cache.

(** * Concrete snapshots *)

(** Strings to 32-bit integers, as an [mm_lru] saves them. *)
#[local] Instance demo_key : Serde (list Z) := string_serde.
#[local] Instance demo_value : Serde Z := trivial_serde 4.
#[local] Instance demo_key_laws : SerdeLaws (list Z) := string_serde_laws.
#[local] Instance demo_value_laws : SerdeLaws Z := trivial_serde_laws 4 eq_refl.

Definition demo_snapshot : snapshot (list Z) Z :=
  Snapshot TypeLru 0 mm_config_default (ListState 1 1) [] [SerializedItem [107; 49] 10 1700000000 0 0; SerializedItem [107; 50] 20 1700000001 2 0].

Lemma demo_fits : snapshot_fits demo_snapshot.
Proof.
  assert (forall n v, (0 <=? v) && (v <? 2 ^ (8 * Z.of_nat n)) = true -> fits_word n v) as Hw by (intros n v Hv; bool_to_Z; by split).
  assert (forall it : serialized_item (list Z) Z, Z.of_nat (length (si_key it)) <= 1000000 -> Forall is_byte (si_key it) -> fits_word 4 (si_value it) ->
    fits_word 4 (si_update_time it) -> fits_word 1 (si_flags it) -> fits_word 1 (si_queue_id it) -> item_fits it) as Hi by (intros; by split).
  split; cbn [demo_snapshot sn_features sn_config sn_list_state sn_cms_state sn_items insertion_point_pos tail_size length]; try (by apply Hw); try lia.
  - split; by apply Hw.
  - apply Forall_nil_2.
  - apply Forall_cons_2; [|apply Forall_cons_2; [|apply Forall_nil_2]]; (apply Hi; [cbn; lia| |by apply Hw..]);
      cbn; repeat (apply Forall_cons_2; [unfold is_byte; lia|]); apply Forall_nil_2.
Qed.

Definition demo_bytes : list Z := default [] (serialize_from_snapshot demo_snapshot).

Lemma snapshot_roundtrip_witness : length demo_bytes = 149%nat /\
  exists bytes, serialize_from_snapshot demo_snapshot = Some bytes /\ parse_serialized_data (sn_type demo_snapshot) bytes = inr (parsed_of demo_snapshot).
Proof.
  split; [vm_compute; reflexivity|]. destruct (snapshot_roundtrip demo_snapshot demo_fits) as (bytes & E1 & E2 & _). exists bytes. split; [exact E1|exact E2].
Defined.

Lemma damaged_payload_refused_witness : parse_serialized_data (Key := list Z) (Value := Z) TypeLru (<[40%nat := 255]> demo_bytes) = inl ChecksumMismatch.
Proof.
  apply (damaged_payload_refused demo_snapshot demo_bytes (<[40%nat := 255]> demo_bytes) demo_fits).
  - vm_compute. reflexivity.
  - vm_compute. repeat constructor; intros Hc; discriminate Hc.
  - vm_compute. reflexivity.
  - rewrite drop_insert_ge by lia. apply burst_byte.
  - vm_compute. intros Hc. discriminate Hc.
Defined.

Lemma sharded_roundtrip_witness : exists bytes, serialize_sharded [demo_snapshot; demo_snapshot] = Some bytes /\
  parse_sharded 2 bytes = inr [parsed_of demo_snapshot; parsed_of demo_snapshot] /\ load_sharded (Key := list Z) (Value := Z) 3 bytes = inl ShardsMismatch.
Proof.
  assert (shard_fits demo_snapshot) as Hs by (split; [exact demo_fits|]; split; [reflexivity|vm_compute; reflexivity]).
  destruct (sharded_roundtrip [demo_snapshot; demo_snapshot] 2) as (bytes & E1 & E2 & _); [by repeat constructor|done|].
  destruct (sharded_roundtrip [demo_snapshot; demo_snapshot] 3) as (bytes' & E1' & _ & E2'); [by repeat constructor|done|].
  rewrite E1 in E1'. injection E1' as <-. exists bytes. split; [exact E1|]. split; [exact E2|exact E2'].
Defined.
