(* ===== verification/MmLruSave.v ===== *)
(** Saving an mm_lru and restoring it: [collect_snapshot], [save] and [load] of
    lru.hpp, [rebuild_from_parsed] of serialization.hpp and
    [rebuild_from_serialized] of mm.hpp, over the binary format and the strategy.
    The refresh ratio is a double: its bit pattern is saved, and [ratio_of_bits]
    is the function from ages to seconds it stands for. *)

From S2P Require Import Prelude Crc32 BinaryFormat Serialization SerializationClaims.
From S2P Require Import IntrusiveList ListRefine Refcount StdHeap TtlHeap MmLruList MmLru MmLruInv MmLruOps MmLruSet MmLruFlush MmLruRun MmLruClaims.

Section save.
Context {Key Value : Type} `{Countable Key} {TP : mm_params Key Value}.
Context {HH : StdHeap (entry Key) expiry_ns}.
Context `{Serde Key, Serde Value}.
Context (ratio_of_bits : Z -> Z -> Z).
Abbreviation mm := (mm_lru (Key := Key) (Value := Value)).
Implicit Types (s : mm) (p : loc).

(** * Saving *)

(** [hook.flags] of a linked item *)
Definition hook_flags s p : Z :=
  Z.lor (Z.lor (if is_tail p (q_ s) then kTailFlag else 0) (if is_accessed s p then kAccessedFlag else 0)) kLinkedFlag.

Definition snapshot_item s p : option (serialized_item Key Value) :=
  '(k, v) ← heap_ s !! p;
  Some (SerializedItem k v (item_update_time s p) (hook_flags s p) 0).

(** [insertion_point_position()] and [tail_size()] *)
Definition saved_list_state s : list_state :=
  if insertion_point_pos_ (q_ s) =? npos then list_state_default
  else ListState (u32 (insertion_point_pos_ (q_ s))) (u32 (tail_size_ (q_ s))).

Definition saved_config (ratio_bits : Z) s : mm_config :=
  let c := config_ s in let d := mm_config_default in
  MmConfig (lru_refresh_time_ s) ratio_bits (update_on_write c) (update_on_read c) (try_lock_update c) (lru_insertion_point_spec c)
    (mm_reconfigure_interval_secs c) (hot_ratio d) (warm_ratio d) (rebalance_on_record_access d) (cms_window_multiplier d)
    (cms_error_threshold d) (cms_hash_count d).

Definition collect_snapshot (ratio_bits : Z) s : option (snapshot Key Value) :=
  items ← mapM (snapshot_item s) (items_ (q_ s));
  Some (Snapshot TypeLru 0 (saved_config ratio_bits s) (saved_list_state s) [] items).

Definition save (ratio_bits : Z) s : option (list Z) := snap ← collect_snapshot ratio_bits s; serialize_from_snapshot snap.

(** * Restoring *)

(** [map_.insert] keeps an entry that is there. *)
Definition map_insert (k : Key) p s : mm := match map_ s !! k with Some _ => s | None => set_map (<[k := p]> (map_ s)) s end.

Definition rebuild_item (it : serialized_item Key Value) : M unit :=
  item ← allocate_item (si_key it) (si_value it);
  modify (fun s => set_update_time (<[item := si_update_time it]> (update_time_ s)) s);;
  (if Z.land (si_flags it) kAccessedFlag =? 0 then skip else modify (fun s => set_accessed_bits ({[item]} ∪ accessed_bits_ s) s));;
  on_list (list_do (LinkAtTail item));;
  rc MarkLinked item;;
  modify (map_insert (si_key it) item);;
  modify (stat_add current_memory (calc_item_memory (si_key it) (si_value it))).

Fixpoint rebuild_items (its : list (serialized_item Key Value)) : M unit :=
  match its with
  | [] => skip
  | it :: its => rebuild_item it;; rebuild_items its
  end.

(** [for (i = 0; i < ins_pos; ++i) { curr = next(curr); if (!curr) break; }] *)
Fixpoint walk (n : nat) (curr : ptr) (q : lru_list) : ptr :=
  match n, curr with
  | S n, Some c => walk n (list_get_next q c) q
  | _, _ => curr
  end.

(** [for (i = 0; i < tail_size_ && mark; ++i) { mark->set_tail(); mark = next; }] *)
Fixpoint mark_region (n : nat) (mark : ptr) (q : lru_list) : lru_list :=
  match n, mark with
  | S n, Some c =>
      let q := LruList (items_ q) ({[c]} ∪ tail_bits_ q) (insertion_point_ q) (tail_size_ q) (insertion_point_pos_ q) in
      mark_region n (list_get_next q c) q
  | _, _ => q
  end.

Definition rebuild_point (ins_pos tail_sz : Z) (q : lru_list) : lru_list :=
  let q := with_point None (with_tail_size 0 q) in
  if negb (ins_pos =? U32_MAX) && (ins_pos <? list_size q) then
    match walk (Z.to_nat ins_pos) (list_head q) q with
    | Some c => mark_region (Z.to_nat tail_sz) (Some c) (with_tail_size tail_sz (with_point (Some c) q))
    | None => q
    end
  else q.

Definition rebuild_from_serialized (its : list (serialized_item Key Value)) (ins_pos tail_sz : Z) : M unit :=
  flush;;
  rebuild_items its;;
  modify store_size;;
  modify (fun s => set_q (rebuild_point ins_pos tail_sz (q_ s)) s).

(** The configuration of the parsed data over the one in place. *)
Definition parsed_config (c : mm_config) (old : mm_lru_config) : mm_lru_config :=
  MmLruConfig (BinaryFormat.lru_insertion_point_spec c) (lru_refresh_time c) (ratio_of_bits (BinaryFormat.lru_refresh_ratio c))
    (BinaryFormat.update_on_write c) (BinaryFormat.update_on_read c) (BinaryFormat.try_lock_update c) (eviction_search_tries old)
    (max_pending_deletion old) (BinaryFormat.mm_reconfigure_interval_secs c).

Definition rebuild_from_parsed (e : env) (d : parsed Key Value) : M unit :=
  flush;;
  new_cfg ← gets (fun s => parsed_config (pd_config d) (config_ s));
  rebuild_from_serialized (pd_items d) (insertion_point_pos (pd_list_state d)) (tail_size (pd_list_state d));;
  set_config e new_cfg.

(** Parsing comes first; an error leaves the cache as it is. *)
Definition load (e : env) (data : list Z) : M (option format_error) :=
  match parse_serialized_data TypeLru data with
  | inl err => mret (Some err)
  | inr d => rebuild_from_parsed e d;; mret None
  end.

(** * The list *)

Lemma walk_drop n : forall q i, NoDup (items_ q) -> walk n (head (drop i (items_ q))) q = head (drop (i + n) (items_ q)).
Proof.
  induction n as [|n IH]; intros q i Hn; [by rewrite Nat.add_0_r|]. destruct (drop i (items_ q)) as [|c ys] eqn:E; cbn [walk head].
  - symmetry. apply head_None. rewrite <- drop_drop, E. by rewrite drop_nil.
  - unfold list_get_next. assert (items_ q = take i (items_ q) ++ c :: ys) as Ei by (by rewrite <- E, take_drop).
    assert (c ∉ take i (items_ q)) as Hc by (rewrite Ei, NoDup_app in Hn; destruct Hn as (_ & Hd & _); intros Hc; apply (Hd c Hc); by left).
    assert (next_of (items_ q) c = head ys) as -> by (rewrite Ei; by apply next_of_split).
    assert (ys = drop (S i) (items_ q)) as -> by (replace (S i) with (i + 1)%nat by lia; by rewrite <- drop_drop, E).
    rewrite IH by done. do 2 f_equal. lia.
Qed.

Lemma mark_region_all ys : forall xs q, items_ q = xs ++ ys -> NoDup (items_ q) ->
  mark_region (length ys) (head ys) q = LruList (items_ q) (list_to_set ys ∪ tail_bits_ q) (insertion_point_ q) (tail_size_ q) (insertion_point_pos_ q).
Proof.
  induction ys as [|c ys IH]; intros xs q Hi Hn; cbn [length head mark_region].
  - destruct q. cbn. f_equal. set_solver.
  - unfold list_get_next. cbn [items_]. rewrite Hi, next_of_split.
    2: { rewrite Hi, NoDup_app in Hn. destruct Hn as (_ & Hd & _). intros Hc. apply (Hd c Hc). by left. }
    rewrite (IH (xs ++ [c])); cbn [items_ tail_bits_ insertion_point_ tail_size_ insertion_point_pos_]; [|by rewrite <- app_assoc|by rewrite <- Hi].
    rewrite <- Hi. f_equal. cbn [list_to_set]. set_solver.
Qed.

(** A list without a region gets the region that was saved. *)
Lemma mark_region_items n : forall mark q, items_ (mark_region n mark q) = items_ q.
Proof. induction n as [|n IH]; intros [c|] q; cbn [mark_region]; try done. by rewrite IH. Qed.

Lemma rebuild_point_items pos tail q : items_ (rebuild_point pos tail q) = items_ q.
Proof.
  unfold rebuild_point. destruct (_ && _); [|done]. destruct (walk _ _ _); [|done]. by rewrite mark_region_items.
Qed.

Lemma rebuild_point_region q xs1 xs2 pos tail : items_ q = xs1 ++ xs2 -> NoDup (items_ q) -> tail_bits_ q = ∅ -> list_size q < 2 ^ 32 - 1 ->
  pos = (match xs2 with [] => U32_MAX | _ => Z.of_nat (length xs1) end) -> tail = Z.of_nat (length xs2) ->
  region (rebuild_point pos tail q) xs1 xs2 /\ items_ (rebuild_point pos tail q) = items_ q.
Proof.
  intros Hi Hn Hb Hl Hp Ht. unfold rebuild_point. set (q0 := with_point None (with_tail_size 0 q)).
  assert (list_size q = Z.of_nat (length xs1 + length xs2)) as Hs by (unfold list_size; by rewrite Hi, length_app).
  change (list_size q0) with (list_size q). unfold list_head. change (items_ q0) with (items_ q). destruct xs2 as [|c ys].
  - rewrite Hp, Z.eqb_refl. cbn [negb andb]. split; [|done]. split; [|done]. split; try done. change (list_size q0) with (list_size q). lia.
  - rewrite Hp, (proj2 (Z.eqb_neq _ _)), (proj2 (Z.ltb_lt _ _)) by (cbn in *; lia). cbn [negb andb].
    pose proof (walk_drop (length xs1) q0 0 Hn) as Hw. rewrite drop_0 in Hw. change (items_ q0) with (items_ q) in Hw. rewrite Nat2Z.id, Hw.
    cbn [Nat.add]. assert (drop (length xs1) (items_ q) = c :: ys) as -> by (rewrite Hi; by rewrite drop_app_length). cbn [head]. rewrite Ht, Nat2Z.id.
    pose proof (mark_region_all (c :: ys) xs1 (with_tail_size (Z.of_nat (length (c :: ys))) (with_point (Some c) q0)) Hi Hn) as Hm. cbn [head] in Hm. rewrite Hm.
    split; [|done]. split; [|done]. split; cbn; try done; [rewrite Hb; set_solver|]. unfold list_size in *. cbn in *. lia.
Qed.

(** * The items *)

Definition entry_of s p : option (Key * Value) * Z * bool := (heap_ s !! p, item_update_time s p, is_accessed s p).
(** Key, value, promotion time and accessed bit, most recently used first. *)
Definition entries s : list (option (Key * Value) * Z * bool) := entry_of s <$> linked_items s.

Definition item_entry (it : serialized_item Key Value) : option (Key * Value) * Z * bool :=
  (Some (si_key it, si_value it), si_update_time it, negb (Z.land (si_flags it) kAccessedFlag =? 0)).

Lemma snapshot_entry s p it : snapshot_item s p = Some it -> item_entry it = entry_of s p.
Proof.
  unfold snapshot_item, entry_of. destruct (heap_ s !! p) as [[k v]|]; [|done]. intros [= <-]. unfold item_entry. cbn [si_key si_value si_update_time si_flags].
  do 2 f_equal. unfold hook_flags. by destruct (is_tail p (q_ s)), (is_accessed s p).
Qed.

Lemma snapshot_entries s its l : mapM (snapshot_item s) l = Some its -> item_entry <$> its = entry_of s <$> l.
Proof.
  revert its. induction l as [|p l IH]; intros its E; cbn in E; [by injection E as <-|].
  apply bind_Some in E as (it & Ep & E). apply bind_Some in E as (its' & El & E). injection E as <-. cbn. by rewrite (snapshot_entry s p it), (IH its').
Qed.

(** The state while the items are linked one after the other. *)
Record built s (done : list (serialized_item Key Value)) : Prop := {
  bu_inv : inv (store_size s);
  bu_entries : entries s = item_entry <$> done;
  bu_bits : tail_bits_ (q_ s) = ∅;
  bu_tail : tail_size_ (q_ s) = 0;
  bu_point : insertion_point_ (q_ s) = None
}.

Lemma built_key s done (it : serialized_item Key Value) : built s done -> si_key it ∉ (@si_key Key Value <$> done) -> map_ s !! si_key it = None.
Proof.
  intros B Hk. destruct (map_ s !! si_key it) as [p|] eqn:E; [|done]. exfalso. apply Hk.
  destruct (iv_map _ (bu_inv _ _ B) _ _ E) as [Hp [v Hv]]. change (linked_items (store_size s)) with (linked_items s) in Hp.
  assert (entry_of s p ∈ entries s) as He by (unfold entries; apply list_elem_of_fmap; eauto). rewrite (bu_entries _ _ B) in He.
  apply list_elem_of_fmap in He as (it' & Ee & Hi). unfold entry_of, item_entry in Ee. cbn in Hv. rewrite Hv in Ee. injection Ee as Ek _ _ _.
  rewrite Ek. by apply list_elem_of_fmap_2.
Qed.

(** The settings that a rebuild leaves alone. *)
Definition same_settings s s' : Prop := (max_size_ s', max_memory_ s', config_ s') = (max_size_ s, max_memory_ s, config_ s).

Lemma link_at_tail p q : p ∉ items_ q -> list_do (LinkAtTail p) q = Some (with_items (items_ q ++ [p]) q).
Proof. intros Hp. unfold list_do, spec_op. by rewrite bool_decide_false. Qed.

(** A list without a region is in order for every insertion point. *)
Lemma plain_list_ok spec q : NoDup (items_ q) -> tail_bits_ q = ∅ -> tail_size_ q = 0 -> insertion_point_ q = None -> list_size q < 2 ^ 64 -> list_ok spec q.
Proof. intros. exists (items_ q), []. split; [|split; [done|cbn; lia]]. split; [|done]. split; [by rewrite app_nil_r|done..]. Qed.

(** The state after one item, with the accessed bits [acc]. *)
Definition with_item s (it : serialized_item Key Value) (acc : gset loc) : mm :=
  let p := brk_ s in
  stat_add current_memory (calc_item_memory (si_key it) (si_value it))
    (set_map (<[si_key it := p]> (map_ s))
       (set_refcount (<[p := (atomic MarkLinked (ref_word s p)).2]> (refcount_ s))
          (set_q (with_items (items_ (q_ s) ++ [p]) (q_ s))
             (set_accessed_bits acc
                (set_update_time (<[p := si_update_time it]> (update_time_ s))
                   (set_brk (Pos.succ p) (set_heap (<[p := (si_key it, si_value it)]> (heap_ s)) s))))))).

Lemma rebuild_item_eq s it : map_ s !! si_key it = None -> brk_ s ∉ items_ (q_ s) ->
  rebuild_item it s = Some (tt, with_item s it (if Z.land (si_flags it) kAccessedFlag =? 0 then accessed_bits_ s else {[brk_ s]} ∪ accessed_bits_ s)).
Proof.
  intros Hm Hp. unfold rebuild_item, with_item. destruct (Z.land (si_flags it) kAccessedFlag =? 0);
    unfold mbind, M_bind, allocate_item, modify, skip, on_list, rc; cbn [q_ set_update_time set_brk set_heap set_accessed_bits];
    rewrite link_at_tail by done; cbn [map_insert map_ set_refcount set_q set_update_time set_brk set_heap set_accessed_bits];
    unfold map_insert, ref_word; cbn [map_ refcount_ set_refcount set_q set_update_time set_brk set_heap set_accessed_bits];
    (destruct (atomic MarkLinked (default 0 (refcount_ s !! brk_ s))) as [r w] eqn:Ew); cbn [map_ set_refcount set_q set_update_time set_brk set_heap set_accessed_bits];
    rewrite Hm; by destruct s.
Qed.

Lemma rebuild_item_step s done it : built s done -> si_key it ∉ (@si_key Key Value <$> done) -> list_size (q_ s) + 1 < 2 ^ 64 ->
  exists s', rebuild_item it s = Some (tt, s') /\ built s' (done ++ [it]) /\ same_settings s s' /\ list_size (q_ s') = list_size (q_ s) + 1.
Proof.
  intros B Hk Hl. pose proof (built_key s done it B Hk) as Hm. pose proof (bu_inv _ _ B) as Hi.
  destruct (iv_fresh _ Hi (brk_ s)) as (Hf1 & Hf2 & Hf3 & Hf4); [reflexivity|].
  assert (brk_ s ∉ items_ (q_ s)) as Hp by (intros Hx; destruct (iv_items _ Hi _ Hx) as (? & ? & ? & _); cbn in *; congruence).
  rewrite rebuild_item_eq by done. set (acc := if Z.land (si_flags it) kAccessedFlag =? 0 then accessed_bits_ s else {[brk_ s]} ∪ accessed_bits_ s). eexists. split; [done|]. split; [|split; [done|]].
  2: { unfold list_size, with_item. cbn. rewrite length_app. cbn. lia. }
  assert (NoDup (items_ (q_ s) ++ [brk_ s])) as Hn by (apply NoDup_app; split; [apply (inv_nodup _ Hi)|split; [|apply NoDup_singleton]]; set_solver).
  split; try apply B.
  - apply (inv_inserted (brk_ s) (si_key it) (si_value it) 0 (store_size s)); [done|done|]. split; try done.
    + exists (items_ (q_ s)), []. by rewrite app_nil_r.
    + apply plain_list_ok; [done|apply B..|]. unfold list_size in *. cbn. rewrite length_app. cbn. lia.
    + intros r. cbn. unfold acc. destruct (_ =? 0); set_solver.
  - unfold entries, linked_items, with_item. cbn [q_ stat_add set_stats set_map set_refcount set_q items_ with_items]. rewrite !fmap_app. f_equal.
    + rewrite <- (bu_entries _ _ B). unfold entries, linked_items. apply list_fmap_ext. intros j r Hr. apply list_elem_of_lookup_2 in Hr.
      assert (r <> brk_ s) as Hne by (intros ->; done). unfold entry_of, item_update_time, is_accessed. cbn. rewrite !lookup_insert_ne by done. do 2 f_equal.
      apply bool_decide_ext. unfold acc. destruct (_ =? 0); set_solver.
    + cbn. unfold entry_of, item_entry, item_update_time, is_accessed. cbn. rewrite !lookup_insert_eq. cbn. do 3 f_equal. unfold acc.
      destruct (_ =? 0); cbn; [by apply bool_decide_false|apply bool_decide_true; set_solver].
Qed.

Lemma rebuild_items_ok its : forall s done, built s done -> NoDup (@si_key Key Value <$> (done ++ its)) -> list_size (q_ s) + Z.of_nat (length its) < 2 ^ 64 ->
  exists s', rebuild_items its s = Some (tt, s') /\ built s' (done ++ its) /\ same_settings s s' /\ list_size (q_ s') = list_size (q_ s) + Z.of_nat (length its).
Proof.
  induction its as [|it its IH]; intros s done B Hn Hl; cbn [rebuild_items length] in *; [exists s; rewrite app_nil_r, Z.add_0_r; by split_and!|].
  rewrite fmap_app, fmap_cons, NoDup_app_mid in Hn. destruct Hn as (Hk1 & Hk2 & Hn).
  destruct (rebuild_item_step s done it B Hk1 ltac:(lia)) as (s1 & E1 & B1 & Hs1 & Hl1). unfold mbind, M_bind. rewrite E1.
  destruct (IH s1 (done ++ [it]) B1) as (s2 & E2 & B2 & Hs2 & Hl2); [|lia|].
  - rewrite <- app_assoc, fmap_app. cbn. rewrite NoDup_app_mid. split_and!; [done|done|]. by rewrite <- fmap_app in Hn |- *.
  - exists s2. rewrite <- app_assoc in B2. split_and!; [done|done|unfold same_settings in *; congruence|lia].
Qed.

(** * The restored cache *)

Lemma flush_empty s : inv s -> (forall p, p ∈ linked_items s -> has_active_handle s p = false) ->
  exists s', flush s = Some (tt, s') /\ inv s' /\ linked_items s' = [] /\ same_settings s s'.
Proof.
  intros Hi Hh. pose proof (wp_flush s Hi) as Hw.
  assert (flushable s (linked_items s)) as Hf by (right; intros p Hp; by apply Hh). destruct (wp_elim _ _ _ (Hw Hf)) as ([] & s' & E & Hi' & Hk & Hl).
  exists s'. split; [done|]. split; [done|]. split; [|unfold same_settings; pose proof (kp_params _ _ Hk); congruence].
  rewrite Hl. apply filter_none. intros p Hp. by rewrite Hh.
Qed.

Lemma empty_built s : inv s -> linked_items s = [] -> built s [].
Proof.
  intros Hi Hl. destruct (iv_list _ Hi) as (xs1 & xs2 & [[Hx _ Hb Ht _] Hp] & _). unfold linked_items in Hl. rewrite Hl in Hx. symmetry in Hx. apply app_nil in Hx as [-> ->].
  split; try done; [|by unfold entries, linked_items; rewrite Hl]. destruct Hi. by split.
Qed.

(** Switching the insertion point off needs no region. *)
Lemma reconfigure_off pos q : NoDup (items_ q) -> tail_bits_ q = ∅ -> list_size q < 2 ^ 64 ->
  exists q', reconfigure_point 0 (rebuild_point pos 0 q) = Some q' /\ list_ok 0 q' /\ items_ q' = items_ q.
Proof.
  intros Hn Hb Hl. set (q1 := rebuild_point pos 0 q).
  assert (items_ q1 = items_ q /\ tail_bits_ q1 = ∅ /\ tail_size_ q1 = 0) as (Hi & Hb1 & Ht).
  { unfold q1, rebuild_point. destruct (_ && _); [destruct (walk _ _ _)|]; done. }
  assert (list_ok 0 (with_point None q1)) as Hok by (apply plain_list_ok; try done; [by cbn; rewrite Hi|unfold list_size in *; cbn; by rewrite Hi]).
  exists (with_point None q1). split; [|done]. unfold reconfigure_point. cbn [Z.eqb negb andb orb]. destruct (insertion_point_ q1) eqn:E.
  - assert (clear_region (length (items_ q1)) (Some l) q1 = Some q1) as -> by (unfold clear_region; destruct (length _); by rewrite Ht). done.
  - cbn. f_equal. destruct q1; cbn in *. by rewrite E.
Qed.

(** The insertion point, the tail flags and the tail size stand at the same
    positions of two lists. *)
Definition same_region (q q' : lru_list) : Prop :=
  exists xs1 xs2 ys1 ys2, region q xs1 xs2 /\ region q' ys1 ys2 /\ length ys1 = length xs1 /\ length ys2 = length xs2.

(** The saved position fits the restored list. *)
Lemma rebuild_reconfigure s q : 0 <= spec_of s -> list_ok (spec_of s) (q_ s) -> list_size (q_ s) <= 10000000 ->
  (spec_of s <> 0 -> insertion_point_pos_ (q_ s) = point_position (q_ s)) ->
  list_size q = list_size (q_ s) -> NoDup (items_ q) -> tail_bits_ q = ∅ ->
  exists q', reconfigure_point (spec_of s) (rebuild_point (insertion_point_pos (saved_list_state s)) (tail_size (saved_list_state s)) q) = Some q' /\
    list_ok (spec_of s) q' /\ items_ q' = items_ q /\
    (spec_of s <> 0 -> same_region (q_ s) (rebuild_point (insertion_point_pos (saved_list_state s)) (tail_size (saved_list_state s)) q)).
Proof.
  intros Hspec (xs1 & xs2 & [[Hx Hn Hb Ht Hfit] Hpt] & Hzero & Hw) Hl Hpos Hsz Hnq Hbq.
  assert (list_size (q_ s) = Z.of_nat (length xs1) + Z.of_nat (length xs2)) as Hs by (unfold list_size; rewrite Hx, length_app; lia).
  destruct (decide (spec_of s = 0)) as [E|E].
  - rewrite E. rewrite (Hzero E) in Ht. replace (tail_size (saved_list_state s)) with 0.
    { destruct (reconfigure_off (insertion_point_pos (saved_list_state s)) q) as (q' & ? & ? & ?); [done..|lia|]. exists q'. split_and!; done. }
    unfold saved_list_state. rewrite Ht. by destruct (_ =? npos).
  - assert (exists ys1 ys2, items_ q = ys1 ++ ys2 /\ length ys1 = length xs1 /\ length ys2 = length xs2) as (ys1 & ys2 & Hy & Hy1 & Hy2).
    { exists (take (length xs1) (items_ q)), (drop (length xs1) (items_ q)). rewrite take_drop, length_take, length_drop. unfold list_size in *. split_and!; [done|lia..]. }
    destruct (rebuild_point_region q ys1 ys2 (insertion_point_pos (saved_list_state s)) (tail_size (saved_list_state s)) Hy Hnq Hbq) as [Hr Hri]; [lia|..].
    + unfold saved_list_state. rewrite Hpos by done. unfold point_position. rewrite Hpt, Ht. destruct xs2 as [|x xs2], ys2 as [|y ys2]; try done.
      cbn [head]. rewrite wrap_small by (cbn [length] in *; lia). rewrite (proj2 (Z.eqb_neq _ _)) by (unfold npos, unlimited; cbn [length] in *; lia). cbn [insertion_point_pos].
      rewrite wrap_small; cbn [length] in *; lia.
    + unfold saved_list_state. rewrite Hpos by done. unfold point_position. rewrite Hpt, Ht. destruct xs2 as [|x xs2]; [by rewrite Hy2|].
      cbn [head]. rewrite wrap_small by (cbn [length] in *; lia). rewrite (proj2 (Z.eqb_neq _ _)) by (unfold npos, unlimited; cbn [length] in *; lia). cbn [tail_size].
      rewrite wrap_small; cbn [length] in *; lia.
    + set (q1 := rebuild_point _ _ q) in *. assert (list_ok (spec_of s) q1) as Hok1.
      { exists ys1, ys2. split; [done|]. split; [done|]. intros ->. destruct xs1; [|done]. specialize (Hw eq_refl). lia. }
      destruct (reconfigure_point_spec (spec_of s) (spec_of s) q1 Hspec Hok1) as (q' & Eq & Hok & Hi).
      exists q'. split_and!; [done|done|congruence|]. intros _. exists xs1, xs2, ys1, ys2. split; [by split; [split|]|done].
Qed.

(** The invariant under another list of the same items and another
    configuration. *)
Lemma inv_reconfigured s q c t n : inv (store_size s) -> list_ok (lru_insertion_point_spec c) q -> 0 <= lru_insertion_point_spec c ->
  items_ q = linked_items s ->
  inv (set_next_reconfigure_time n (set_lru_refresh_time t (set_q q (set_config_ c (store_size s))))).
Proof.
  intros [I1 I2 I3 I4 I5 I6 I7 I8 I9 I10 I11 I12 I13] Hok Hspec Hi. set (s' := set_next_reconfigure_time _ _).
  assert (linked_items s' = linked_items (store_size s)) as Hl by exact Hi.
  split; rewrite ?Hl; try done. change (size s') with (list_size q). rewrite <- I12 || idtac. unfold size, list_size in *. cbn. by rewrite Hi.
Qed.

Lemma snapshot_keys s its l : mapM (snapshot_item s) l = Some its -> Forall2 (fun it p => exists v, heap_ s !! p = Some (si_key it, v)) its l.
Proof.
  revert its. induction l as [|p l IH]; intros its E; cbn in E; [by injection E as <-|].
  apply bind_Some in E as (it & Ep & E). apply bind_Some in E as (its' & El & E). injection E as <-. constructor; [|by apply IH].
  unfold snapshot_item in Ep. destruct (heap_ s !! p) as [[k v]|]; [|done]. injection Ep as <-. by exists v.
Qed.

Lemma snapshot_length s its l : mapM (snapshot_item s) l = Some its -> length its = length l.
Proof. intros E. by eapply Forall2_length, snapshot_keys. Qed.

Lemma snapshot_nodup s its : inv s -> mapM (snapshot_item s) (linked_items s) = Some its -> NoDup (@si_key Key Value <$> its).
Proof.
  intros Hi E. apply snapshot_keys in E. pose proof (inv_nodup s Hi) as Hn. assert (forall p, p ∈ linked_items s -> p ∈ linked_items s) as Hsub by done.
  revert E Hn Hsub. generalize (linked_items s) at 1 2 3. intros l Hf. induction Hf as [|it p its l (v & Hp) Hf IH]; intros Hn Hsub; cbn; [constructor|].
  apply NoDup_cons in Hn as [Hpl Hn]. constructor; [|apply IH; [done|]; intros r Hr; apply Hsub; by right].
  intros (it' & Ek & Hit)%list_elem_of_fmap. apply list_elem_of_lookup in Hit as [j Hj]. destruct (Forall2_lookup_l _ _ _ _ _ Hf Hj) as (r & Hr & v' & Hv').
  destruct (iv_items _ Hi p) as (k1 & v1 & Hh1 & Hm1); [apply Hsub; by left|]. apply list_elem_of_lookup_2 in Hr.
  destruct (iv_items _ Hi r) as (k2 & v2 & Hh2 & Hm2); [apply Hsub; by right|]. apply Hpl. congruence.
Qed.

(** The saved insertion point is the one the list has; with the insertion
    point off its stored position is of no account. *)
Definition position_current s : Prop := spec_of s <> 0 -> insertion_point_pos_ (q_ s) = point_position (q_ s).

(** What a restored cache has of the saved one, [s], and of the one it
    replaces, [s2]. *)
Record restored (ratio_bits : Z) s s2 s3 : Prop := {
  rs_inv : inv s3;
  rs_entries : entries s3 = entries s;
  rs_config : config_ s3 = parsed_config (saved_config ratio_bits s) (config_ s2);
  rs_refresh : lru_refresh_time_ s3 = lru_refresh_time_ s;
  rs_limits : (max_size_ s3, max_memory_ s3) = (max_size_ s2, max_memory_ s2);
  rs_rebuilt : spec_of s <> 0 -> exists its sb, mapM (snapshot_item s) (linked_items s) = Some its /\
    rebuild_from_serialized its (insertion_point_pos (saved_list_state s)) (tail_size (saved_list_state s)) s2 = Some (tt, sb) /\
    same_region (q_ s) (q_ sb);
  rs_point : exists xs1 xs2, region (q_ s3) xs1 xs2 /\
    Z.of_nat (length xs2) = if spec_of s =? 0 then 0 else tail_length (spec_of s) (size s)
}.

Lemma rebuild_from_serialized_ok s s2 its : inv s -> inv s2 -> (forall p, p ∈ linked_items s2 -> has_active_handle s2 p = false) ->
  mapM (snapshot_item s) (linked_items s) = Some its -> Z.of_nat (length its) <= 10000000 ->
  exists s3, rebuild_from_serialized its (insertion_point_pos (saved_list_state s)) (tail_size (saved_list_state s)) s2 =
      Some (tt, set_q (rebuild_point (insertion_point_pos (saved_list_state s)) (tail_size (saved_list_state s)) (q_ s3)) (store_size s3)) /\
    built s3 its /\ same_settings s2 s3 /\ list_size (q_ s3) = list_size (q_ s).
Proof.
  intros Hi Hi2 Hh Em Hl. destruct (flush_empty s2 Hi2 Hh) as (sf & Ef & Hif & Hlf & Hsf). unfold rebuild_from_serialized, mbind, M_bind. rewrite Ef.
  assert (list_size (q_ sf) = 0) as Hz by (unfold list_size; unfold linked_items in Hlf; by rewrite Hlf).
  destruct (rebuild_items_ok its sf [] (empty_built sf Hif Hlf)) as (s3 & E3 & B3 & Hs3 & Hl3); [exact (snapshot_nodup s its Hi Em)|lia|].
  rewrite E3. exists s3. split; [done|]. split; [done|]. split; [unfold same_settings in *; congruence|].
  apply snapshot_length in Em. unfold linked_items in Em. unfold list_size in *. lia.
Qed.

Lemma rebuild_from_parsed_ok e bits s s2 (d : parsed Key Value) : inv s -> inv s2 -> (forall p, p ∈ linked_items s2 -> has_active_handle s2 p = false) ->
  validate (config_ s) = true -> position_current s -> mapM (snapshot_item s) (linked_items s) = Some (pd_items d) ->
  Z.of_nat (length (pd_items d)) <= 10000000 -> pd_list_state d = saved_list_state s -> pd_config d = saved_config bits s ->
  exists s3, rebuild_from_parsed e d s2 = Some (tt, s3) /\ restored bits s s2 s3.
Proof.
  intros Hi Hi2 Hh Hv Hpos Em Hl Els Ec. destruct (flush_empty s2 Hi2 Hh) as (sf & Ef & Hif & Hlf & Hsf).
  destruct (rebuild_from_serialized_ok s sf (pd_items d) Hi Hif) as (s3 & E3 & B3 & Hs3 & Hl3); [intros p Hp; rewrite Hlf in Hp; by apply elem_of_nil in Hp|done|done|].
  unfold rebuild_from_parsed, mbind, M_bind. rewrite Ef. unfold gets. cbn [fst snd]. rewrite Els, Ec, E3. clear E3.
  set (c := parsed_config (saved_config bits s) (config_ sf)). unfold set_config.
  change (validate c) with (validate (config_ s)). rewrite Hv. cbn [negb]. unfold mbind, M_bind, modify, on_list. cbn [q_ set_q set_config_].
  change (lru_insertion_point_spec c) with (spec_of s). pose proof (iv_spec _ Hi) as Hspec.
  assert (Z.of_nat (length (pd_items d)) = list_size (q_ s)) as Hlen by (apply snapshot_length in Em; unfold linked_items in Em; unfold list_size; lia).
  destruct (rebuild_reconfigure s (q_ s3) Hspec (iv_list _ Hi)) as (q' & Eq & Hok & Hqi & Hsr); [lia|done|done|apply (inv_nodup _ (bu_inv _ _ B3))|apply B3|].
  rewrite Eq. cbn. eexists. split; [reflexivity|].
  split.
  - exact (inv_reconfigured s3 q' c _ _ (bu_inv _ _ B3) Hok Hspec Hqi).
  - transitivity (entries s3); [unfold entries, linked_items; cbn; by rewrite Hqi|]. rewrite (bu_entries _ _ B3). unfold entries. by apply snapshot_entries.
  - cbn. unfold c. unfold same_settings in *. by replace (config_ s2) with (config_ sf) by congruence.
  - done.
  - cbn. unfold same_settings in *. congruence.
  - intros Hne. destruct (rebuild_from_serialized_ok s s2 (pd_items d) Hi Hi2 Hh Em Hl) as (s4 & E4 & B4 & _ & Hl4).
    eexists _, _. split; [exact Em|]. split; [exact E4|]. cbn [q_ set_q].
    destruct (rebuild_reconfigure s (q_ s4) Hspec (iv_list _ Hi)) as (q4 & _ & _ & _ & Hsr4); [lia|done|done|apply (inv_nodup _ (bu_inv _ _ B4))|apply B4|].
    by apply Hsr4.
  - cbn [q_ set_next_reconfigure_time set_lru_refresh_time set_q]. destruct (spec_of s =? 0) eqn:E0; bool_to_Z.
    + destruct Hok as (ys1 & ys2 & Hr & Hz & _). exists ys1, ys2. rewrite (Hz E0) in Hr |- *. done.
    + destruct (Hsr E0) as (_ & _ & ys1 & ys2 & _ & Hr & _). destruct (reconfigure_length (spec_of s) _ ys1 ys2 q' ltac:(lia) Hr Eq) as (ws1 & ws2 & Hw & Hwl).
      exists ws1, ws2. split; [done|]. rewrite Hwl. f_equal. unfold size. rewrite <- Hl3. unfold list_size.
      pose proof Hr as [[Hri _ _ _ _] _]. by rewrite rebuild_point_items.
Qed.
End save.

(** * Save and load *)

Section claims.
Context {Key Value : Type} `{Countable Key} {TP : mm_params Key Value} {HH : StdHeap (entry Key) expiry_ns}.
Context `{SerdeLaws Key, SerdeLaws Value} (ratio_of_bits : Z -> Z -> Z).
Abbreviation mm := (mm_lru (Key := Key) (Value := Value)).

(** C27: a cache whose image fits the format and whose stored insertion
    position is current is restored by a load into any other cache that no
    handle pins. [load] accepts what [save] returned, and the result is a
    well-formed cache with the same keys, values, promotion times and accessed
    bits in the same recency order, the saved configuration and refresh time,
    and the limits of the cache it was loaded into. With an insertion point,
    rebuild_from_serialized puts the point, the tail flags and the tail size at
    the saved positions, and set_config then leaves the region the length that
    the list calls for; with the insertion point off there is no region. *)
Theorem mm_lru_save_load (e : env) (ratio_bits : Z) (s s2 : mm) (snap : snapshot Key Value) :
  inv s -> validate (config_ s) = true -> position_current s ->
  collect_snapshot ratio_bits s = Some snap -> snapshot_fits snap ->
  inv s2 -> (forall p, p ∈ linked_items s2 -> has_active_handle s2 p = false) ->
  exists data s3, save ratio_bits s = Some data /\ load ratio_of_bits e data s2 = Some (None, s3) /\ restored ratio_of_bits ratio_bits s s2 s3.
Proof.
  intros Hi Hv Hpos Es Hf Hi2 Hh. exists (saved snap). unfold save. rewrite Es. pose proof (parse_saved snap Hf) as Hp.
  unfold collect_snapshot in Es. apply bind_Some in Es as (its & Em & Es). injection Es as <-. cbn [sn_type] in Hp.
  destruct (rebuild_from_parsed_ok ratio_of_bits e ratio_bits s s2 (parsed_of (Snapshot TypeLru 0 (saved_config ratio_bits s) (saved_list_state s) [] its)))
    as (s3 & E3 & Hr); [done..|apply Hf|done|done|].
  exists s3. split; [apply serialize_saved|]. split; [|done]. unfold load. rewrite Hp. unfold mbind, M_bind. by rewrite E3.
Qed.
End claims.

(** * A concrete cache *)

Import Demo DemoStates.

#[local] Instance demo_word : Serde Z := trivial_serde 4.
#[local] Instance demo_word_laws : SerdeLaws Z := trivial_serde_laws 4 eq_refl.

(** A full cache with an insertion point, after a promotion. *)
Definition demo_saved : mm_lru (Key := Z) (Value := Z) := after 4 1000 1 [Set_ 1 5; Set_ 2 6; Set_ 3 7; Set_ 4 8; Promote 1].
(** The cache it is loaded into: smaller, and without an insertion point. *)
Definition demo_target : mm_lru (Key := Z) (Value := Z) := after 2 1000 0 [Set_ 9 1; Set_ 8 2].
Definition demo_ratio : Z := 0.
Definition demo_image : snapshot Z Z :=
  default (Snapshot TypeLru 0 mm_config_default list_state_default [] []) (collect_snapshot demo_ratio demo_saved).

Definition item_fitsb (it : serialized_item Z Z) : bool :=
  let fitsb n v := (0 <=? v) && (v <? 2 ^ (8 * Z.of_nat n)) in
  fitsb 4%nat (si_key it) && fitsb 4%nat (si_value it) && fitsb 4%nat (si_update_time it) && fitsb 1%nat (si_flags it) && fitsb 1%nat (si_queue_id it).

Lemma item_fitsb_ok (l : list (serialized_item Z Z)) : forallb item_fitsb l = true -> Forall item_fits l.
Proof.
  rewrite forallb_forall, Forall_forall. intros Hl it Hi. apply list_elem_of_In, Hl in Hi. unfold item_fitsb in Hi.
  repeat (apply andb_true_iff in Hi as [Hi ?]). repeat match goal with H : (_ && _) = true |- _ => apply andb_true_iff in H as [? ?] end.
  bool_to_Z. split; unfold fits_word; cbn; lia.
Qed.

Lemma demo_image_fits : snapshot_fits demo_image.
Proof.
  assert (forall n v, (0 <=? v) && (v <? 2 ^ (8 * Z.of_nat n)) = true -> fits_word n v) as Hw by (intros n v Hv; bool_to_Z; by split).
  split.
  - apply Hw. vm_compute. reflexivity.
  - split; apply Hw; vm_compute; reflexivity.
  - apply Hw. vm_compute. reflexivity.
  - apply Hw. vm_compute. reflexivity.
  - vm_compute. discriminate.
  - replace (sn_cms_state demo_image) with (@nil Z) by (vm_compute; reflexivity). apply Forall_nil_2.
  - vm_compute. discriminate.
  - apply item_fitsb_ok. vm_compute. reflexivity.
Qed.

Lemma mm_lru_save_load_witness : exists data s3, save demo_ratio demo_saved = Some data /\
  load (fun _ _ => 0) (at_ 9) data demo_target = Some (None, s3) /\ entries s3 = entries demo_saved /\ length (entries s3) = 4%nat /\ max_size_ s3 = 2 /\
  exists xs1 xs2, region (q_ s3) xs1 xs2 /\ length xs2 = 2%nat.
Proof.
  assert (full_inv demo_saved /\ full_inv demo_target) as [Hs Ht] by (split; (apply after_inv; [lia..|vm_compute; reflexivity])).
  destruct (mm_lru_save_load (fun _ _ => 0) (at_ 9) demo_ratio demo_saved demo_target demo_image (proj1 Hs)) as (data & s3 & E1 & E2 & Hr).
  - vm_compute. reflexivity.
  - intros _. vm_compute. reflexivity.
  - vm_compute. reflexivity.
  - exact demo_image_fits.
  - exact (proj1 Ht).
  - intros p Hp. assert (unobstructed demo_target) as [_ Hu] by (apply unobstructed_check; vm_compute; reflexivity). by apply Hu.
  - exists data, s3. split; [exact E1|]. split; [exact E2|]. rewrite (rs_entries _ _ _ _ _ Hr). split; [reflexivity|]. split; [vm_compute; reflexivity|].
    pose proof (rs_limits _ _ _ _ _ Hr) as Hl. injection Hl as -> _. split; [vm_compute; reflexivity|].
    destruct (rs_point _ _ _ _ _ Hr) as (xs1 & xs2 & Hreg & Hlen). exists xs1, xs2. split; [exact Hreg|].
    assert (Z.of_nat (length xs2) = 2) as E by (rewrite Hlen; vm_compute; reflexivity). lia.
Defined.
