(* ===== verification/TlsRing.v ===== *)
(** The thread-local rings of tls_ring.hpp: the circular buffer that all of them
    are, its relation to a bounded queue, the callback ring and the active item
    ring. Positions are 64-bit counters that wrap; the capacity is a power of
    two, so the slot of a position survives the wrap. *)

From S2P Require Import Prelude.

(** * The circular buffer *)

(** [head] is the next position to write, [tail] the oldest unread one. *)
Record ring (A : Type) := Ring { slots : list A; head : Z; tail : Z }.
#[global] Arguments Ring {A} _ _ _.
#[global] Arguments slots {A} _.
#[global] Arguments head {A} _.
#[global] Arguments tail {A} _.

Section ring.
Context {A : Type} `{Inhabited A}.
Implicit Types (r : ring A) (n : Z).

Definition ring_new (size : Z) : ring A := Ring (replicate (Z.to_nat size) inhabitant) 0 0.

(** [pos & mask] for capacity [n] *)
Definition slot n (pos : Z) : nat := Z.to_nat (Z.land pos (n - 1)).

Definition pending_count r : Z := u64 (head r - tail r).
Definition has_pending r : bool := negb (head r =? tail r).

Definition write_slot n (a : A) r : ring A := Ring (<[slot n (head r) := a]> (slots r)) (u64 (head r + 1)) (tail r).

(** The oldest entry gives way when the ring is full. *)
Definition collect n (a : A) r : ring A :=
  write_slot n a (if n <=? pending_count r then Ring (slots r) (head r) (u64 (u64 (head r - n) + 1)) else r).

(** [for (i = 0; i < count; ++i) push_back(slots[(start + i) & mask])], which
    leaves [moved] of the entry behind; a copy leaves the entry. *)
Fixpoint read_loop n (moved : A -> A) (count : nat) (pos : Z) (l : list A) : list A * list A :=
  match count with
  | O => ([], l)
  | S count =>
      let a := l !!! slot n pos in
      let '(rest, l) := read_loop n moved count (pos + 1) (<[slot n pos := moved a]> l) in (a :: rest, l)
  end.

Definition drain_ring n (moved : A -> A) r : list A * ring A :=
  let count := pending_count r in
  if 0 <? count then
    let '(out, l) := read_loop n moved (Z.to_nat count) (Z.land (tail r) (n - 1)) (slots r) in (out, Ring l (head r) (head r))
  else ([], r).

(** The drain that clamps a count above the capacity. *)
Definition drain_clamped n (moved : A -> A) r : list A * ring A :=
  let count := pending_count r in
  if count =? 0 then ([], r)
  else
    let '(count, tail) := if n <? count then (n, u64 (head r - n)) else (count, tail r) in
    let '(out, l) := read_loop n moved (Z.to_nat count) (Z.land tail (n - 1)) (slots r) in (out, Ring l (head r) (head r)).

(** [steal()] with its view read at once: copies, and no clamp. *)
Definition steal_ring n r : list A * ring A :=
  ((read_loop n id (Z.to_nat (pending_count r)) (Z.land (tail r) (n - 1)) (slots r)).1, Ring (slots r) (head r) (head r)).

Definition reset_ring r : ring A := Ring (slots r) (head r) (head r).

(** * The queue it stands for *)

(** A queue of at most [n] entries that drops its oldest one when it is full. *)
Definition push_bounded n (a : A) (q : list A) : list A := (if n <=? Z.of_nat (length q) then List.tl q else q) ++ [a].

Record ring_ok n r (q : list A) : Prop := {
  rg_slots : n <= Z.of_nat (length (slots r));
  rg_tail : 0 <= tail r < 2 ^ 64;
  rg_head : head r = u64 (tail r + Z.of_nat (length q));
  rg_fits : Z.of_nat (length q) <= n;
  rg_at : forall i a, q !! i = Some a -> slots r !! slot n (tail r + Z.of_nat i) = Some a
}.

Section power.
Context (n k : Z) (Hk : 0 <= k < 64) (Hn : n = 2 ^ k).

Lemma capacity_pos : 0 < n.
Proof. rewrite Hn. apply Z.pow_pos_nonneg; lia. Qed.

Lemma capacity_lt : n < 2 ^ 64.
Proof. rewrite Hn. apply Z.pow_lt_mono_r; lia. Qed.

Lemma slot_mod pos : Z.land pos (n - 1) = pos mod n.
Proof. rewrite Hn, <- Z.land_ones by lia. f_equal. rewrite Z.ones_equiv. lia. Qed.

(** The capacity divides the range of the counters. *)
Lemma wrap_mod pos : u64 pos mod n = pos mod n.
Proof.
  unfold wrap. rewrite Hn. symmetry. apply Znumtheory.Zmod_div_mod; try (apply Z.pow_pos_nonneg; lia).
  exists (2 ^ (64 - k)). rewrite <- Z.pow_add_r by lia. f_equal. lia.
Qed.

Lemma slot_wrap pos : slot n (u64 pos) = slot n pos.
Proof. unfold slot. by rewrite !slot_mod, wrap_mod. Qed.

Lemma slot_land pos i : slot n (Z.land pos (n - 1) + i) = slot n (pos + i).
Proof. unfold slot. by rewrite !slot_mod, Zplus_mod_idemp_l. Qed.

Lemma slot_lt pos (l : list A) : n <= Z.of_nat (length l) -> (slot n pos < length l)%nat.
Proof. intros Hl. unfold slot. rewrite slot_mod. pose proof (Z.mod_pos_bound pos n capacity_pos). lia. Qed.

(** Positions less than [n] apart have different slots. *)
Lemma slot_ne pos i j : 0 <= i < n -> 0 <= j < n -> i <> j -> slot n (pos + i) <> slot n (pos + j).
Proof.
  intros Hi Hj Hne E. unfold slot in E. rewrite !slot_mod in E. pose proof (Z.mod_pos_bound (pos + i) n capacity_pos). pose proof (Z.mod_pos_bound (pos + j) n capacity_pos).
  assert ((pos + i) mod n = (pos + j) mod n) as E' by lia. pose proof capacity_pos.
  pose proof (Z.div_mod (pos + i) n ltac:(lia)). pose proof (Z.div_mod (pos + j) n ltac:(lia)). rewrite E' in *.
  assert (i - j = n * ((pos + i) / n - (pos + j) / n)) as Ed by lia. destruct (Z.eq_dec ((pos + i) / n) ((pos + j) / n)) as [Eq|Eq]; [rewrite Eq in *; lia|].
  assert (1 <= Z.abs ((pos + i) / n - (pos + j) / n)) as Ha by lia. assert (Z.abs (i - j) = n * Z.abs ((pos + i) / n - (pos + j) / n)) as Hm by (rewrite Ed, Z.abs_mul; lia). nia.
Qed.

Lemma slot_full pos : slot n (pos + n) = slot n pos.
Proof. unfold slot. rewrite !slot_mod. do 1 f_equal. replace (pos + n) with (pos + 1 * n) by lia. apply Z.mod_add. pose proof capacity_pos. lia. Qed.

Lemma ring_new_ok : ring_ok n (ring_new n) [].
Proof. pose proof capacity_pos. pose proof capacity_lt. split; cbn; [rewrite length_replicate; lia|lia|done|lia|done]. Qed.

Lemma ring_count r q : ring_ok n r q -> pending_count r = Z.of_nat (length q).
Proof.
  intros []. pose proof capacity_lt. unfold pending_count. rewrite rg_head0, wrap_sub_l by lia. replace (_ - _) with (Z.of_nat (length q)) by lia. apply wrap_small. lia.
Qed.

Lemma ring_pending r q : ring_ok n r q -> has_pending r = negb (bool_decide (q = [])).
Proof.
  intros Hr. pose proof (ring_count r q Hr) as Hc. pose proof Hr as []. unfold has_pending. f_equal. apply eq_iff_eq_true. rewrite Z.eqb_eq, bool_decide_eq_true.
  unfold pending_count in Hc. split.
  - intros E. rewrite E, Z.sub_diag in Hc. apply nil_length_inv. change (u64 0) with 0 in Hc. lia.
  - intros ->. cbn in *. rewrite rg_head0, Z.add_0_r. by apply wrap_small.
Qed.

(** A write into a ring that has room. *)
Lemma write_slot_ok a r q : ring_ok n r q -> Z.of_nat (length q) < n -> ring_ok n (write_slot n a r) (q ++ [a]).
Proof.
  intros [] Hl. pose proof capacity_pos. split; cbn; rewrite ?length_insert, ?length_app; cbn; try lia.
  - rewrite rg_head0, wrap_add_l by lia. f_equal. lia.
  - intros i x Hx. assert (slot n (head r) = slot n (tail r + Z.of_nat (length q))) as Es by (by rewrite rg_head0, slot_wrap).
    apply lookup_app_Some in Hx as [Hx|[Hi Hx]].
    + pose proof (lookup_lt_Some _ _ _ Hx). rewrite list_lookup_insert_ne; [by apply rg_at0|]. rewrite Es. apply slot_ne; lia.
    + assert (i = length q) as -> by (apply list_lookup_singleton_Some in Hx; lia). rewrite Nat.sub_diag in Hx. injection Hx as ->. rewrite Es.
      apply list_lookup_insert_eq. by apply slot_lt.
Qed.

(** Dropping the oldest entry. *)
Lemma drop_oldest_ok r a q : ring_ok n r (a :: q) -> ring_ok n (Ring (slots r) (head r) (u64 (tail r + 1))) q.
Proof.
  intros []. cbn in *. split; cbn; try lia.
  - apply wrap_range. lia.
  - rewrite rg_head0, wrap_add_l by lia. f_equal. lia.
  - intros i x Hx. rewrite <- (rg_at0 (S i) x Hx). f_equal. unfold slot. rewrite !slot_mod, <- (wrap_mod (u64 (tail r + 1) + Z.of_nat i)), wrap_add_l, wrap_mod by lia. do 2 f_equal. lia.
Qed.

Lemma ring_collect_ok a r q : ring_ok n r q -> ring_ok n (collect n a r) (push_bounded n a q).
Proof.
  intros Hr. unfold collect, push_bounded. rewrite (ring_count r q Hr). pose proof capacity_pos. pose proof Hr as [].
  destruct (Z.leb_spec n (Z.of_nat (length q))); [|by apply write_slot_ok]. destruct q as [|b q]; [cbn in *; lia|].
  assert (u64 (u64 (head r - n) + 1) = u64 (tail r + 1)) as ->.
  { rewrite rg_head0, wrap_sub_l, wrap_add_l by lia. f_equal. lia. }
  cbn [List.tl]. apply write_slot_ok; [by eapply drop_oldest_ok|cbn in *; lia].
Qed.

Lemma push_bounded_length a q : Z.of_nat (length q) <= n -> Z.of_nat (length (push_bounded n a q)) <= n.
Proof.
  intros Hq. pose proof capacity_pos. unfold push_bounded. rewrite length_app. destruct (Z.leb_spec n (Z.of_nat (length q))); cbn; [|lia]. destruct q; cbn in *; lia.
Qed.

(** Reading is not disturbed by what the reads leave behind. *)
Lemma read_loop_ok moved q : forall pos l, Z.of_nat (length q) <= n -> n <= Z.of_nat (length l) ->
  (forall i a, q !! i = Some a -> l !! slot n (pos + Z.of_nat i) = Some a) ->
  (read_loop n moved (length q) pos l).1 = q /\ length (read_loop n moved (length q) pos l).2 = length l.
Proof.
  induction q as [|a q IH]; intros pos l Hq Hl Hat; [done|]. cbn [length read_loop].
  assert (l !! slot n pos = Some a) as Ha by (rewrite <- (Hat 0%nat a eq_refl); do 2 f_equal; lia). rewrite (list_lookup_total_correct _ _ _ Ha).
  destruct (IH (pos + 1) (<[slot n pos := moved a]> l)) as [H1 H2]; rewrite ?length_insert; [cbn in Hq; lia|done|..].
  - intros i x Hx. pose proof (lookup_lt_Some _ _ _ Hx). rewrite list_lookup_insert_ne.
    + rewrite <- (Hat (S i) x Hx). do 2 f_equal. lia.
    + rewrite <- (Z.add_0_r pos) at 1. rewrite <- Z.add_assoc. apply slot_ne; cbn in Hq; lia.
  - destruct (read_loop n moved (length q) (pos + 1) _) as [out l']. cbn [fst snd] in *. rewrite length_insert in H2. by rewrite H1.
Qed.

(** Either drain returns the queue, oldest first, and empties it. *)
Lemma read_all_ok moved r q : ring_ok n r q ->
  exists l, read_loop n moved (length q) (Z.land (tail r) (n - 1)) (slots r) = (q, l) /\ ring_ok n (Ring l (head r) (head r)) [].
Proof.
  intros []. destruct (read_loop_ok moved q (Z.land (tail r) (n - 1)) (slots r)) as [H1 H2]; [done|done|intros; rewrite slot_land; by apply rg_at0|].
  destruct (read_loop _ _ _ _ _) as [out l]. cbn [fst snd] in *. subst out. exists l. split; [done|]. split; cbn; try lia.
  - rewrite rg_head0. apply wrap_range. lia.
  - rewrite Z.add_0_r, rg_head0. symmetry. apply wrap_small, wrap_range. lia.
  - done.
Qed.

Lemma drain_ring_ok moved r q : ring_ok n r q -> exists r', drain_ring n moved r = (q, r') /\ ring_ok n r' [].
Proof.
  intros Hr. unfold drain_ring. rewrite (ring_count r q Hr). destruct (Z.ltb_spec 0 (Z.of_nat (length q))).
  - rewrite Nat2Z.id. destruct (read_all_ok moved r q Hr) as (l & -> & Hl). eauto.
  - destruct q; [eauto|cbn in *; lia].
Qed.

Lemma drain_clamped_ok moved r q : ring_ok n r q -> exists r', drain_clamped n moved r = (q, r') /\ ring_ok n r' [].
Proof.
  intros Hr. unfold drain_clamped. rewrite (ring_count r q Hr). destruct (Z.eqb_spec (Z.of_nat (length q)) 0).
  - destruct q; [eauto|cbn in *; lia].
  - rewrite (proj2 (Z.ltb_ge _ _) (rg_fits _ _ _ Hr)). rewrite Nat2Z.id. destruct (read_all_ok moved r q Hr) as (l & -> & Hl). eauto.
Qed.

Lemma reset_ring_ok r q : ring_ok n r q -> ring_ok n (reset_ring r) [].
Proof.
  intros []. split; cbn; try lia; try done.
  - rewrite rg_head0. apply wrap_range. lia.
  - rewrite Z.add_0_r, rg_head0. symmetry. apply wrap_small, wrap_range. lia.
Qed.

Lemma steal_ring_ok r q : ring_ok n r q -> exists r', steal_ring n r = (q, r') /\ ring_ok n r' [].
Proof.
  intros Hr. unfold steal_ring. rewrite (ring_count r q Hr), Nat2Z.id. destruct (read_all_ok id r q Hr) as (l & -> & _).
  eexists. split; [done|]. exact (reset_ring_ok r q Hr).
Qed.
End power.
End ring.

(** * The interface to the rings

    The per-thread rings use the buffer through these operations; a bounded
    queue has them too, and is the specification. *)

Class RingOps (R : Type -> Type) := {
  r_new : forall {A} `{Inhabited A}, R A;
  r_collect : forall {A}, A -> R A -> R A;
  r_drain : forall {A} `{Inhabited A}, (A -> A) -> R A -> list A * R A;
  r_steal : forall {A} `{Inhabited A}, R A -> list A * R A;
  r_reset : forall {A}, R A -> R A;
  r_count : forall {A}, R A -> Z;
  r_pending : forall {A}, R A -> bool
}.

(** Both drains of the source are the clamped one where a ring is never over its
    capacity; the callback ring has no clamp. *)
Definition circular (n : Z) (clamp : bool) : RingOps ring := {|
  r_new A _ := ring_new n;
  r_collect A := collect n;
  r_drain A _ moved r := if clamp then drain_clamped n moved r else drain_ring n moved r;
  r_steal A _ := steal_ring n;
  r_reset A := reset_ring;
  r_count A := pending_count;
  r_pending A := has_pending
|}.

Definition bounded_queue (n : Z) : RingOps list := {|
  r_new A _ := [];
  r_collect A := push_bounded n;
  r_drain A _ moved q := (q, []);
  r_steal A _ q := (q, []);
  r_reset A _ := [];
  r_count A q := Z.of_nat (length q);
  r_pending A q := match q with [] => false | _ => true end
|}.

Section latest.
Context {A : Type} (n : Z) (Hn : 0 < n).

(** The latest [n] entries of a history. *)
Definition latest (l : list A) : list A := drop (length l - Z.to_nat n) l.

Lemma push_latest l a : push_bounded n a (latest l) = latest (l ++ [a]).
Proof.
  unfold push_bounded, latest. rewrite length_drop, length_app. cbn [length]. destruct (Z.leb_spec n (Z.of_nat (length l - (length l - Z.to_nat n)))).
  - replace (length l + 1 - Z.to_nat n)%nat with (S (length l - Z.to_nat n)) by lia. rewrite drop_app_le by lia. f_equal.
    replace (S (length l - Z.to_nat n)) with ((length l - Z.to_nat n) + 1)%nat by lia. rewrite <- drop_drop. by destruct (drop _ l).
  - replace (length l - Z.to_nat n)%nat with 0%nat by lia. replace (length l + 1 - Z.to_nat n)%nat with 0%nat by lia. done.
Qed.

Lemma fold_push l : forall h, foldl (fun q a => push_bounded n a q) (latest h) l = latest (h ++ l).
Proof.
  induction l as [|a l IH]; intros h; cbn [foldl]; [by rewrite app_nil_r|]. by rewrite push_latest, IH, <- app_assoc.
Qed.
End latest.
