(* ===== verification/TlsCallback.v ===== *)
(** [tls_callback_ring] and [tls_active_item_ring] of tls_ring.hpp: per-thread
    rings of callback events and of recently used keys, kept per instance. *)

From S2P Require Import Prelude TlsRing.

(** * The callback ring *)

Section callback.
Context {Key Value : Type} `{Inhabited Key, Inhabited Value} {R : Type -> Type} {HR : RingOps R}.
(** What a move leaves of a key and of a value. *)
Context (moved_key : Key -> Key) (moved_value : Value -> Value).

Inductive event :=
  | Hit (k : Key) (v : Value) | Miss (k : Key) | Insert (k : Key) (v : Value) | Evict (k : Key) (v : Value)
  | Update (k : Key) (v : Value) | Expire (k : Key) (v : Value) | Reject (k : Key) (v : Value).

Record ring_data := RingData {
  hits : R (Key * Value);
  misses : R Key;
  inserts : R (Key * Value);
  evicts : R (Key * Value);
  updates : R (Key * Value);
  expires : R (Key * Value);
  rejects : R (Key * Value)
}.

Definition ring_data_new : ring_data := RingData r_new r_new r_new r_new r_new r_new r_new.

(** The [collect_*] methods *)
Definition collect_event (e : event) (rd : ring_data) : ring_data :=
  let '(RingData h m i v u x j) := rd in
  match e with
  | Hit k a => RingData (r_collect (k, a) h) m i v u x j
  | Miss k => RingData h (r_collect k m) i v u x j
  | Insert k a => RingData h m (r_collect (k, a) i) v u x j
  | Evict k a => RingData h m i (r_collect (k, a) v) u x j
  | Update k a => RingData h m i v (r_collect (k, a) u) x j
  | Expire k a => RingData h m i v u (r_collect (k, a) x) j
  | Reject k a => RingData h m i v u x (r_collect (k, a) j)
  end.

Record drain_result := DrainResult {
  dr_hits : list (Key * Value);
  dr_misses : list Key;
  dr_inserts : list (Key * Value);
  dr_evicts : list (Key * Value);
  dr_updates : list (Key * Value);
  dr_expires : list (Key * Value);
  dr_rejects : list (Key * Value)
}.

Definition moved_pair (p : Key * Value) : Key * Value := (moved_key p.1, moved_value p.2).

Definition drain_rings (rd : ring_data) : drain_result * ring_data :=
  let '(h, hs) := r_drain moved_pair (hits rd) in
  let '(m, ms) := r_drain moved_key (misses rd) in
  let '(i, is_) := r_drain moved_pair (inserts rd) in
  let '(v, vs) := r_drain moved_pair (evicts rd) in
  let '(u, us) := r_drain moved_pair (updates rd) in
  let '(x, xs) := r_drain moved_pair (expires rd) in
  let '(j, js) := r_drain moved_pair (rejects rd) in
  (DrainResult h m i v u x j, RingData hs ms is_ vs us xs js).

Definition rings_pending (rd : ring_data) : bool :=
  r_pending (hits rd) || r_pending (misses rd) || r_pending (inserts rd) || r_pending (evicts rd) || r_pending (updates rd) ||
  r_pending (expires rd) || r_pending (rejects rd).

Definition rings_count (rd : ring_data) : Z :=
  u64 (r_count (hits rd) + r_count (misses rd) + r_count (inserts rd) + r_count (evicts rd) + r_count (updates rd) + r_count (expires rd) +
    r_count (rejects rd)).

Definition reset_rings (rd : ring_data) : ring_data :=
  RingData (r_reset (hits rd)) (r_reset (misses rd)) (r_reset (inserts rd)) (r_reset (evicts rd)) (r_reset (updates rd)) (r_reset (expires rd))
    (r_reset (rejects rd)).

(** ** Threads and instances *)

(** Thread and instance numbers. *)
Abbreviation ring_id := (Z * Z)%type.

(** The [thread_data] maps of all threads, the registry of the live instances
    and the next instance number. *)
Record callback_state := CallbackState { rings : gmap ring_id ring_data; registry : list Z; next_instance_id : Z }.

Definition callback_init : callback_state := CallbackState ∅ [] 0.

(** [get_ring()] makes the ring on the first use by a thread. *)
Definition get_ring (id : ring_id) (s : callback_state) : ring_data := default ring_data_new (rings s !! id).
Definition put_ring (id : ring_id) (rd : ring_data) (s : callback_state) : callback_state :=
  CallbackState (<[id := rd]> (rings s)) (registry s) (next_instance_id s).

Definition construct (s : callback_state) : Z * callback_state :=
  (next_instance_id s, CallbackState (rings s) (registry s ++ [next_instance_id s]) (u64 (next_instance_id s + 1))).

(** The destructor, on thread [t]: rings of other threads stay in their maps. *)
Definition destroy (t i : Z) (s : callback_state) : callback_state :=
  CallbackState (delete (t, i) (rings s)) (filter (fun j => j <> i) (registry s)) (next_instance_id s).

Definition thread_exit (t : Z) (s : callback_state) : callback_state :=
  CallbackState (filter (fun p : ring_id * ring_data => p.1.1 <> t) (rings s)) (registry s) (next_instance_id s).

Fixpoint flush_instances (t : Z) (is_ : list Z) (s : callback_state) : callback_state :=
  match is_ with
  | [] => s
  | i :: is_ => flush_instances t is_ (put_ring (t, i) (drain_rings (get_ring (t, i) s)).2 s)
  end.

Definition flush_all_registered (t : Z) (s : callback_state) : callback_state := flush_instances t (registry s) s.

Inductive callback_op :=
  | Construct | Destroy (t i : Z) | ThreadExit (t : Z) | Collect (t i : Z) (e : event) | Drain (t i : Z) | HasPending (t i : Z)
  | PendingCount (t i : Z) | Reset_ (t i : Z) | FlushAll (t : Z).

Inductive callback_result := RUnit | RId (i : Z) | RDrained (d : drain_result) | RBool (b : bool) | RCount (n : Z).

Definition run_op (o : callback_op) (s : callback_state) : callback_result * callback_state :=
  match o with
  | Construct => let '(i, s) := construct s in (RId i, s)
  | Destroy t i => (RUnit, destroy t i s)
  | ThreadExit t => (RUnit, thread_exit t s)
  | Collect t i e => (RUnit, put_ring (t, i) (collect_event e (get_ring (t, i) s)) s)
  | Drain t i => let '(d, rd) := drain_rings (get_ring (t, i) s) in (RDrained d, put_ring (t, i) rd s)
  | HasPending t i => let rd := get_ring (t, i) s in (RBool (rings_pending rd), put_ring (t, i) rd s)
  | PendingCount t i => let rd := get_ring (t, i) s in (RCount (rings_count rd), put_ring (t, i) rd s)
  | Reset_ t i => (RUnit, put_ring (t, i) (reset_rings (get_ring (t, i) s)) s)
  | FlushAll t => (RUnit, flush_all_registered t s)
  end.

Fixpoint run (ops : list callback_op) (s : callback_state) : list callback_result * callback_state :=
  match ops with
  | [] => ([], s)
  | o :: ops => let '(r, s) := run_op o s in let '(rs, s) := run ops s in (r :: rs, s)
  end.
End callback.

#[global] Arguments event : clear implicits.
#[global] Arguments callback_op : clear implicits.
#[global] Arguments callback_result : clear implicits.
#[global] Arguments ring_data : clear implicits.
#[global] Arguments callback_state : clear implicits.
#[global] Arguments drain_result : clear implicits.

(** * The rings are bounded queues *)

Section refine.
Context {Key Value : Type} `{Inhabited Key, Inhabited Value} (moved_key : Key -> Key) (moved_value : Value -> Value).
Context (n k : Z) (Hk : 0 <= k < 64) (Hn : n = 2 ^ k).
#[local] Instance here : RingOps ring := circular n false.
#[local] Instance there : RingOps list := bounded_queue n.

Record same_rings (a : ring_data Key Value ring) (b : ring_data Key Value list) : Prop := {
  sr_hits : ring_ok n (hits a) (hits b);
  sr_misses : ring_ok n (misses a) (misses b);
  sr_inserts : ring_ok n (inserts a) (inserts b);
  sr_evicts : ring_ok n (evicts a) (evicts b);
  sr_updates : ring_ok n (updates a) (updates b);
  sr_expires : ring_ok n (expires a) (expires b);
  sr_rejects : ring_ok n (rejects a) (rejects b)
}.

Record same_state (s : callback_state Key Value ring) (q : callback_state Key Value list) : Prop := {
  ss_rings : forall id, option_Forall2 same_rings (rings s !! id) (rings q !! id);
  ss_registry : registry s = registry q;
  ss_next : next_instance_id s = next_instance_id q
}.

Lemma new_same : same_rings ring_data_new ring_data_new.
Proof. split; by eapply ring_new_ok. Qed.

Lemma collect_same e a b : same_rings a b -> same_rings (collect_event e a) (collect_event e b).
Proof. intros []. destruct a, b, e; split; cbn in *; try done; by eapply ring_collect_ok. Qed.

Lemma callback_drain_same a b : same_rings a b ->
  exists a', drain_rings moved_key moved_value a = (DrainResult (hits b) (misses b) (inserts b) (evicts b) (updates b) (expires b) (rejects b), a') /\
    same_rings a' ring_data_new.
Proof.
  intros []. unfold drain_rings. cbn [r_drain here circular].
  repeat match goal with Hr : ring_ok _ ?r ?q |- context [drain_ring n ?m ?r] =>
    let r' := fresh "r" in let E := fresh "E" in let Hr' := fresh "Hr" in
    destruct (drain_ring_ok n k Hk Hn m r q Hr) as (r' & E & Hr'); rewrite E; clear E end.
  eexists. split; [done|]. by split.
Qed.

Lemma pending_same a b : same_rings a b -> rings_pending a = rings_pending b.
Proof.
  intros []. unfold rings_pending. cbn [r_pending here there circular bounded_queue].
  repeat match goal with Hr : ring_ok _ ?r ?q |- context [has_pending ?r] => rewrite (ring_pending n k Hk Hn r q Hr); destruct q; clear Hr end; done.
Qed.

Lemma count_same a b : same_rings a b -> rings_count a = rings_count b.
Proof.
  intros []. unfold rings_count. cbn [r_count here there circular bounded_queue].
  by erewrite !(ring_count n k Hk Hn) by done.
Qed.

Lemma reset_same a b : same_rings a b -> same_rings (reset_rings a) (reset_rings b).
Proof. intros []. split; cbn; by eapply reset_ring_ok. Qed.

Lemma callback_get_same s q id : same_state s q -> same_rings (get_ring id s) (get_ring id q).
Proof. intros [Hr _ _]. specialize (Hr id). unfold get_ring. inversion Hr; cbn; [done|apply new_same]. Qed.

Lemma callback_put_same s q id a b : same_state s q -> same_rings a b -> same_state (put_ring id a s) (put_ring id b q).
Proof.
  intros [Hr ? ?] Hab. split; cbn; [|done..]. intros id'. destruct (decide (id' = id)) as [->|Hne].
  - rewrite !lookup_insert_eq. by constructor.
  - by rewrite !lookup_insert_ne by done.
Qed.

Lemma destroy_same t i s q : same_state s q -> same_state (destroy t i s) (destroy t i q).
Proof.
  intros [Hr Hg ?]. split; cbn; [|by rewrite Hg|done]. intros id. destruct (decide (id = (t, i))) as [->|Hne].
  - rewrite !lookup_delete_eq. constructor.
  - by rewrite !lookup_delete_ne by done.
Qed.

Lemma exit_same t s q : same_state s q -> same_state (thread_exit t s) (thread_exit t q).
Proof.
  intros [Hr ? ?]. split; cbn; [|done..]. intros id. rewrite !map_lookup_filter. specialize (Hr id). inversion Hr as [a b Hab Ea Eb|Ea Eb]; cbn; [|constructor].
  rewrite !option_guard_decide. cbn. destruct (decide (id.1 <> t)); by constructor.
Qed.

Lemma flush_same t is_ : forall s q, same_state s q ->
  same_state (flush_instances moved_key moved_value t is_ s) (flush_instances moved_key moved_value t is_ q).
Proof.
  induction is_ as [|i is_ IH]; intros s q Hs; [done|]. cbn [flush_instances]. apply IH. apply callback_put_same; [done|].
  destruct (callback_drain_same (get_ring (t, i) s) (get_ring (t, i) q) (callback_get_same s q (t, i) Hs)) as (a & -> & Ha). exact Ha.
Qed.

Lemma callback_run_op_same o s q : same_state s q ->
  (run_op moved_key moved_value o s).1 = (run_op moved_key moved_value o q).1 /\ same_state (run_op moved_key moved_value o s).2 (run_op moved_key moved_value o q).2.
Proof.
  intros Hs. destruct o as [|t i|t|t i e|t i|t i|t i|t i|t]; cbn [run_op fst snd].
  - destruct Hs as [Hr Hg Hi]. unfold construct. cbn. rewrite Hi, Hg. by split.
  - split; [done|by apply destroy_same].
  - split; [done|by apply exit_same].
  - split; [done|]. apply callback_put_same; [done|]. by apply collect_same, callback_get_same.
  - pose proof (callback_get_same s q (t, i) Hs) as Hg. destruct (callback_drain_same _ _ Hg) as (a & -> & Ha). cbn. split; [done|]. by apply callback_put_same.
  - pose proof (callback_get_same s q (t, i) Hs) as Hg. rewrite (pending_same _ _ Hg). split; [done|by apply callback_put_same].
  - pose proof (callback_get_same s q (t, i) Hs) as Hg. rewrite (count_same _ _ Hg). split; [done|by apply callback_put_same].
  - split; [done|]. apply callback_put_same; [done|]. by apply reset_same, callback_get_same.
  - split; [done|]. unfold flush_all_registered. rewrite (ss_registry _ _ Hs). by apply flush_same.
Qed.

Lemma callback_run_same ops : forall s q, same_state s q ->
  (run moved_key moved_value ops s).1 = (run moved_key moved_value ops q).1 /\ same_state (run moved_key moved_value ops s).2 (run moved_key moved_value ops q).2.
Proof.
  induction ops as [|o ops IH]; intros s q Hs; [done|]. cbn [run]. destruct (callback_run_op_same o s q Hs) as [H1 H2].
  destruct (run_op _ _ o s) as [r1 s1], (run_op _ _ o q) as [r2 s2]. cbn [fst snd] in *. destruct (IH s1 s2 H2) as [H3 H4].
  destruct (run _ _ ops s1), (run _ _ ops s2). cbn [fst snd] in *. split; [congruence|done].
Qed.

Lemma callback_init_same : same_state callback_init callback_init.
Proof. split; [|done..]. intros id. cbn. rewrite !lookup_empty. constructor. Qed.

(** ** What a drain returns *)

Definition hit_of (e : event Key Value) : option (Key * Value) := match e with Hit k v => Some (k, v) | _ => None end.
Definition miss_of (e : event Key Value) : option Key := match e with Miss k => Some k | _ => None end.
Definition insert_of (e : event Key Value) : option (Key * Value) := match e with Insert k v => Some (k, v) | _ => None end.
Definition evict_of (e : event Key Value) : option (Key * Value) := match e with Evict k v => Some (k, v) | _ => None end.
Definition update_of (e : event Key Value) : option (Key * Value) := match e with Update k v => Some (k, v) | _ => None end.
Definition expire_of (e : event Key Value) : option (Key * Value) := match e with Expire k v => Some (k, v) | _ => None end.
Definition reject_of (e : event Key Value) : option (Key * Value) := match e with Reject k v => Some (k, v) | _ => None end.

(** The latest [n] events of each kind, oldest first. *)
Definition latest_events (es : list (event Key Value)) : drain_result Key Value :=
  DrainResult (latest n (omap hit_of es)) (latest n (omap miss_of es)) (latest n (omap insert_of es)) (latest n (omap evict_of es))
    (latest n (omap update_of es)) (latest n (omap expire_of es)) (latest n (omap reject_of es)).

Definition as_result (rd : ring_data Key Value list) : drain_result Key Value :=
  DrainResult (hits rd) (misses rd) (inserts rd) (evicts rd) (updates rd) (expires rd) (rejects rd).

Lemma collect_latest es : as_result (foldl (fun rd e => collect_event e rd) ring_data_new es) = latest_events es.
Proof.
  pose proof (capacity_pos n k Hk Hn) as Hp. induction es as [|e es IH] using rev_ind; [done|]. rewrite foldl_snoc.
  destruct (foldl _ _ es) as [h m i v u x j]. unfold as_result, latest_events in *. cbn in IH. injection IH as -> -> -> -> -> -> ->.
  rewrite !omap_app. destruct e; cbn; rewrite ?app_nil_r, <- ?push_latest by done; done.
Qed.

Lemma get_put id rd (s : callback_state Key Value list) : get_ring id (put_ring id rd s) = rd.
Proof. unfold get_ring, put_ring. cbn. by rewrite lookup_insert_eq. Qed.

(** The state of one ring after events of its thread. *)
Lemma run_collects t i es : forall s : callback_state Key Value list,
  run moved_key moved_value ((Collect t i <$> es) ++ [Drain t i]) s =
  ((const RUnit <$> es) ++ [RDrained (as_result (foldl (fun rd e => collect_event e rd) (get_ring (t, i) s) es))],
   put_ring (t, i) ring_data_new (foldl (fun s e => put_ring (t, i) (collect_event e (get_ring (t, i) s)) s) s es)).
Proof.
  induction es as [|e es IH]; intros s; [done|]. cbn [fmap list_fmap app run run_op foldl]. rewrite IH. cbn [fst snd].
  by rewrite get_put.
Qed.

Lemma run_app ops1 ops2 (s : callback_state Key Value list) :
  (run moved_key moved_value (ops1 ++ ops2) s).1 =
  (run moved_key moved_value ops1 s).1 ++ (run moved_key moved_value ops2 (run moved_key moved_value ops1 s).2).1.
Proof.
  revert s. induction ops1 as [|o ops IH]; intros s; [done|]. cbn [app run]. destruct (run_op _ _ o s) as [r s1]. specialize (IH s1).
  destruct (run _ _ (ops ++ ops2) s1), (run _ _ ops s1). cbn [fst snd] in *. by rewrite IH.
Qed.

(** The callback rings are bounded queues. Every sequence of calls by any
    threads on any instances returns what it returns when each ring is a queue of at
    most [n] events that drops its oldest one, however often the 64-bit positions
    wrap; and a drain returns, for every kind of event, the latest [n] that its
    thread collected since the drain before, in order. *)
Theorem callback_ring_keeps_latest (ops : list (callback_op Key Value)) (t i : Z) (es : list (event Key Value)) :
  (run (R := ring) moved_key moved_value ops callback_init).1 = (run (R := list) moved_key moved_value ops callback_init).1 /\
  last (run (R := ring) moved_key moved_value (ops ++ Drain t i :: (Collect t i <$> es) ++ [Drain t i]) callback_init).1 =
    Some (RDrained (latest_events es)).
Proof.
  destruct (callback_run_same ops _ _ callback_init_same) as [Hrun _]. split; [done|]. destruct (callback_run_same (ops ++ Drain t i :: (Collect t i <$> es) ++ [Drain t i]) _ _ callback_init_same) as [-> _].
  rewrite run_app. cbn [run run_op]. set (s := (run _ _ ops callback_init).2). destruct (drain_rings _ _ _) as [d rd] eqn:Ed.
  assert (rd = ring_data_new) as -> by (unfold drain_rings in Ed; cbn in Ed; by injection Ed as _ <-).
  rewrite run_collects. cbn [fst]. rewrite get_put, app_comm_cons, app_assoc, last_snoc.
  by rewrite collect_latest.
Qed.
End refine.

(** * The active item ring *)

Section active.
Context {Key : Type} `{EqDecision Key, Inhabited Key} (n : Z).
Implicit Types (r : ring Key).

(** True when the write ends a lap of the ring. *)
Definition record (key : Key) r : bool * ring Key := (u64 (head r + 1) mod n =? 0, collect n key r).

Definition active_used r : Z := if tail r <=? head r then head r - tail r else 0.
Definition active_should_flush r : bool := n * 3 / 4 <=? active_used r.
Definition active_size r : Z := if tail r <? head r then head r - tail r else 0.

(** [if (seen.insert(k).second) func(k);] over the keys, oldest first *)
Fixpoint first_seen (seen l : list Key) : list Key :=
  match l with
  | [] => []
  | a :: l => if decide (a ∈ seen) then first_seen seen l else a :: first_seen (a :: seen) l
  end.

(** The keys the function is called on, and the ring after it. *)
Definition flush_to r : list Key * ring Key :=
  if head r =? tail r then ([], r)
  else
    let '(keys, _) := read_loop n id (Z.to_nat (active_used r)) (Z.land (tail r) (n - 1)) (slots r) in
    (first_seen [] keys, reset_ring r).

Lemma first_seen_spec l : forall seen, NoDup (first_seen seen l) /\ (forall a, a ∈ first_seen seen l <-> a ∈ l /\ a ∉ seen).
Proof.
  induction l as [|b l IH]; intros seen; cbn [first_seen]; [split; [constructor|set_solver]|]. destruct (decide (b ∈ seen)) as [Hb|Hb].
  - destruct (IH seen) as [H1 H2]. split; [done|]. intros a. rewrite H2. set_solver.
  - destruct (IH (b :: seen)) as [H1 H2]. split; [constructor; [rewrite H2; set_solver|done]|].
    intros a. rewrite elem_of_cons, H2. destruct (decide (a = b)); set_solver.
Qed.

(** A flush calls the function once per distinct pending key and empties the
    ring, as long as the positions have not wrapped between the two. *)
Lemma flush_to_distinct k r q : 0 <= k < 64 -> n = 2 ^ k -> ring_ok n r q -> tail r <= head r ->
  exists keys r', flush_to r = (keys, r') /\ NoDup keys /\ (forall a, a ∈ keys <-> a ∈ q) /\ ring_ok n r' [].
Proof.
  intros Hk Hn Hr Hle. unfold flush_to. pose proof (ring_count n k Hk Hn r q Hr) as Hc. destruct (Z.eqb_spec (head r) (tail r)) as [E|E].
  - unfold pending_count in Hc. rewrite E, Z.sub_diag in Hc. change (u64 0) with 0 in Hc. destruct q; [|cbn in Hc; lia].
    exists [], r. split_and!; [done|constructor|done|done].
  - assert (active_used r = Z.of_nat (length q)) as ->.
    { unfold active_used. rewrite (proj2 (Z.leb_le _ _) Hle). rewrite <- Hc. unfold pending_count. symmetry. apply wrap_small.
      pose proof (rg_tail _ _ _ Hr). rewrite (rg_head _ _ _ Hr) in *. pose proof (wrap_range 64 (tail r + Z.of_nat (length q)) ltac:(lia)). lia. }
    rewrite Nat2Z.id. destruct (read_all_ok n k Hk Hn id r q Hr) as (l & -> & _). destruct (first_seen_spec q []) as [H1 H2].
    exists (first_seen [] q), (reset_ring r). split_and!; [done|done|intros a; rewrite H2; set_solver|by eapply reset_ring_ok].
Qed.
End active.

(** * A concrete run *)

(** A ring of two: the oldest of three hits is dropped, the miss is kept, and
    another thread's ring is untouched. *)
Lemma callback_ring_keeps_latest_witness :
  last (run (R := ring) (HR := circular 2 false) (Key := Z) (Value := Z) id id
    [Construct; Collect 7 0 (Hit 8 8); Drain 1 0; Collect 1 0 (Hit 1 10); Collect 1 0 (Miss 4); Collect 1 0 (Hit 2 20); Collect 1 0 (Hit 3 30); Drain 1 0]
    callback_init).1 = Some (RDrained (DrainResult [(2, 20); (3, 30)] [4] [] [] [] [] [])).
Proof.
  apply (callback_ring_keeps_latest id id 2 1 ltac:(lia) eq_refl [Construct; Collect 7 0 (Hit 8 8)] 1 0 [Hit 1 10; Miss 4; Hit 2 20; Hit 3 30]).
Defined.
