(* ===== verification/TlsEvent.v ===== *)
(** [tls_event_ring] of tls_ring.hpp: per-thread event rings with the registry
    that lets one thread drain the others and the backup that keeps the events of
    threads that have exited. A call is one step; threads interleave between
    calls. *)

From S2P Require Import Prelude TlsRing.

Inductive event_type := insert | promote | demote | evict | hit.

Record event_entry := EventEntry { key_hash : Z; timestamp_ms : Z; type : event_type; queue_id : Z }.
#[global] Instance event_entry_inhabited : Inhabited event_entry := populate (EventEntry 0 0 insert 0).

Section event.
Context {R : Type -> Type} {HR : RingOps R}.

(** [rings] holds the [thread_data] maps of all threads, by thread and instance;
    [thread_ring_registry] lists instance and thread, and its weak pointer can be
    locked as long as the ring is in the map of its thread. *)
Record event_state := EventState {
  rings : gmap (Z * Z) (R event_entry);
  registry : list Z;
  thread_ring_registry : list (Z * Z);
  by_instance : gmap Z (list event_entry);
  next_instance_id : Z
}.

Definition event_init : event_state := EventState ∅ [] [] ∅ 0.

Definition construct (s : event_state) : Z * event_state :=
  let i := next_instance_id s in
  (i, EventState (rings s) (registry s ++ [i]) (thread_ring_registry s) (by_instance s) (u64 (i + 1))).

(** The destructor, on thread [t]. *)
Definition destroy (t i : Z) (s : event_state) : event_state :=
  EventState (delete (t, i) (rings s)) (filter (fun j => j <> i) (registry s)) (filter (fun e => e.1 <> i) (thread_ring_registry s)) (by_instance s)
    (next_instance_id s).

(** [get_ring()]: the ring of the thread, made and registered on first use. *)
Definition get_ring (t i : Z) (s : event_state) : R event_entry * event_state :=
  match rings s !! (t, i) with
  | Some r => (r, s)
  | None =>
      (r_new, EventState (<[(t, i) := r_new]> (rings s)) (registry s) (thread_ring_registry s ++ [(i, t)]) (by_instance s) (next_instance_id s))
  end.

Definition put_ring (t i : Z) (r : R event_entry) (s : event_state) : event_state :=
  EventState (<[(t, i) := r]> (rings s)) (registry s) (thread_ring_registry s) (by_instance s) (next_instance_id s).

(** [record_hash]; [record] hashes the key first. *)
Definition record_hash (t i : Z) (e : event_entry) (s : event_state) : event_state :=
  let '(r, s) := get_ring t i s in put_ring t i (r_collect e r) s.

Definition drain (t i : Z) (s : event_state) : list event_entry * event_state :=
  let '(r, s) := get_ring t i s in
  let '(out, r) := r_drain id r in (out, put_ring t i r s).

(** [steal()], as [event_tracker::drain_tls] uses it. *)
Definition steal (t i : Z) (s : event_state) : list event_entry * event_state :=
  let '(r, s) := get_ring t i s in
  let '(out, r) := r_steal r in (out, put_ring t i r s).

Definition has_pending_events (t i : Z) (s : event_state) : bool * event_state := let '(r, s) := get_ring t i s in (r_pending r, s).
Definition pending_events (t i : Z) (s : event_state) : Z * event_state := let '(r, s) := get_ring t i s in (r_count r, s).
Definition reset (t i : Z) (s : event_state) : event_state := let '(r, s) := get_ring t i s in put_ring t i (r_reset r) s.

(** ** The backup *)

Definition set_backup (b : gmap Z (list event_entry)) (s : event_state) : event_state :=
  EventState (rings s) (registry s) (thread_ring_registry s) b (next_instance_id s).

Definition push_to_backup (i : Z) (es : list event_entry) (s : event_state) : event_state :=
  match es with
  | [] => s
  | _ => set_backup (<[i := default [] (by_instance s !! i) ++ es]> (by_instance s)) s
  end.

Definition drain_backup (i : Z) (s : event_state) : list event_entry * event_state :=
  match by_instance s !! i with
  | None => ([], s)
  | Some es => (es, set_backup (delete i (by_instance s)) s)
  end.

Definition has_backup_entries (i : Z) (s : event_state) : bool :=
  match by_instance s !! i with Some (_ :: _) => true | _ => false end.

(** The order of a [std::unordered_map] is unspecified; here it is that of the
    finite map. *)
Definition drain_all_backups (s : event_state) : list event_entry * event_state :=
  (concat (snd <$> map_to_list (by_instance s)), set_backup ∅ s).

Definition has_any_backup_entries (s : event_state) : bool :=
  existsb (fun p => match p.2 with [] => false | _ => true end) (map_to_list (by_instance s)).

(** ** Draining other threads *)

Fixpoint flush_instances (t : Z) (is_ : list Z) (s : event_state) : list event_entry * event_state :=
  match is_ with
  | [] => ([], s)
  | i :: is_ =>
      let '(es, s) := drain t i s in
      let '(bs, s) := drain_backup i s in
      let '(rest, s) := flush_instances t is_ s in (es ++ bs ++ rest, s)
  end.

Definition flush_all_registered (t : Z) (s : event_state) : list event_entry * event_state := flush_instances t (registry s) s.

(** [for (auto& rd : rings_to_drain)], over the rings whose pointer locked *)
Fixpoint drain_each (i : Z) (ts : list Z) (s : event_state) : list event_entry * event_state :=
  match ts with
  | [] => ([], s)
  | t :: ts =>
      match rings s !! (t, i) with
      | None => drain_each i ts s
      | Some r =>
          let '(es, r) := r_drain id r in
          let '(rest, s) := drain_each i ts (put_ring t i r s) in (es ++ rest, s)
      end
  end.

Definition drain_all_threads (i : Z) (s : event_state) : list event_entry * event_state :=
  let '(bs, s) := drain_backup i s in
  let '(es, s) := drain_each i (snd <$> filter (fun e => e.1 = i) (thread_ring_registry s)) s in (bs ++ es, s).

Fixpoint flush_thread (t : Z) (is_ : list Z) (s : event_state) : event_state :=
  match is_ with
  | [] => s
  | i :: is_ =>
      match rings s !! (t, i) with
      | None => flush_thread t is_ s
      | Some r => let '(es, r) := r_drain id r in flush_thread t is_ (push_to_backup i es (put_ring t i r s))
      end
  end.

(** The exit of a thread: its sentinel takes its rings off the registry and
    saves their events; then its [thread_data] goes. *)
Definition thread_exit (t : Z) (s : event_state) : event_state :=
  let mine := fst <$> filter (fun e => e.2 = t) (thread_ring_registry s) in
  let s := EventState (rings s) (registry s) (filter (fun e => e.2 <> t) (thread_ring_registry s)) (by_instance s) (next_instance_id s) in
  let s := flush_thread t mine s in
  EventState (filter (fun p : (Z * Z) * R event_entry => p.1.1 <> t) (rings s)) (registry s) (thread_ring_registry s) (by_instance s) (next_instance_id s).

Inductive event_op :=
  | Construct | Destroy (t i : Z) | ThreadExit (t : Z) | Record_ (t i : Z) (e : event_entry) | Drain (t i : Z) | Steal (t i : Z)
  | HasPending (t i : Z) | PendingCount (t i : Z) | Reset_ (t i : Z) | FlushAll (t : Z) | DrainAll (i : Z) | DrainBackup (i : Z)
  | HasBackup (i : Z) | DrainAllBackups | HasAnyBackup.

Inductive event_result := RUnit | RNumber (n : Z) | RBool (b : bool) | REvents (es : list event_entry).

Definition run_op (o : event_op) (s : event_state) : event_result * event_state :=
  match o with
  | Construct => let '(i, s) := construct s in (RNumber i, s)
  | Destroy t i => (RUnit, destroy t i s)
  | ThreadExit t => (RUnit, thread_exit t s)
  | Record_ t i e => (RUnit, record_hash t i e s)
  | Drain t i => let '(es, s) := drain t i s in (REvents es, s)
  | Steal t i => let '(es, s) := steal t i s in (REvents es, s)
  | HasPending t i => let '(b, s) := has_pending_events t i s in (RBool b, s)
  | PendingCount t i => let '(n, s) := pending_events t i s in (RNumber n, s)
  | Reset_ t i => (RUnit, reset t i s)
  | FlushAll t => let '(es, s) := flush_all_registered t s in (REvents es, s)
  | DrainAll i => let '(es, s) := drain_all_threads i s in (REvents es, s)
  | DrainBackup i => let '(es, s) := drain_backup i s in (REvents es, s)
  | HasBackup i => (RBool (has_backup_entries i s), s)
  | DrainAllBackups => let '(es, s) := drain_all_backups s in (REvents es, s)
  | HasAnyBackup => (RBool (has_any_backup_entries s), s)
  end.

Fixpoint run (ops : list event_op) (s : event_state) : list event_result * event_state :=
  match ops with
  | [] => ([], s)
  | o :: ops => let '(r, s) := run_op o s in let '(rs, s) := run ops s in (r :: rs, s)
  end.
End event.

#[global] Arguments event_state : clear implicits.

(** * The rings are bounded queues *)

Section refine.
Context (n k : Z) (Hk : 0 <= k < 64) (Hn : n = 2 ^ k).
#[local] Instance here : RingOps ring := circular n true.
#[local] Instance there : RingOps list := bounded_queue n.

Record same_state (s : event_state ring) (q : event_state list) : Prop := {
  ss_rings : forall id, option_Forall2 (ring_ok n) (rings s !! id) (rings q !! id);
  ss_rest : (registry s, thread_ring_registry s, by_instance s, next_instance_id s) =
            (registry q, thread_ring_registry q, by_instance q, next_instance_id q)
}.

(** Calls that return the same result and keep the states alike. *)
Definition alike {X} (a : X * event_state ring) (b : X * event_state list) : Prop := a.1 = b.1 /\ same_state a.2 b.2.

Lemma same_fields s q : same_state s q ->
  registry s = registry q /\ thread_ring_registry s = thread_ring_registry q /\ by_instance s = by_instance q /\ next_instance_id s = next_instance_id q.
Proof. intros [_ E]. by injection E. Qed.

Lemma alike_bind {X Y} a b (f : X -> event_state ring -> Y * event_state ring) g :
  alike a b -> (forall x s q, same_state s q -> alike (f x s) (g x q)) -> alike (let '(x, s) := a in f x s) (let '(x, s) := b in g x s).
Proof. destruct a as [x s], b as [y q]. intros [E Hs] Hf. cbn in E, Hs. subst y. by apply Hf. Qed.

Lemma event_put_same t i r l s q : same_state s q -> ring_ok n r l -> same_state (put_ring t i r s) (put_ring t i l q).
Proof.
  intros [Hr E] Hrl. split; [|done]. intros id. cbn. destruct (decide (id = (t, i))) as [->|Hne].
  - rewrite !lookup_insert_eq. by constructor.
  - by rewrite !lookup_insert_ne by done.
Qed.

Lemma backup_same b s q : same_state s q -> same_state (set_backup b s) (set_backup b q).
Proof. intros [Hr E]. split; [done|]. cbn. congruence. Qed.

Lemma event_get_same t i s q : same_state s q -> ring_ok n (get_ring t i s).1 (get_ring t i q).1 /\ same_state (get_ring t i s).2 (get_ring t i q).2.
Proof.
  intros Hs. pose proof (ss_rings _ _ Hs (t, i)) as Hr. unfold get_ring. inversion Hr as [a b Hab Ea Eb|Ea Eb]; [done|]. cbn [fst snd].
  assert (ring_ok n (r_new : ring event_entry) (r_new : list event_entry)) as Hnew by (by eapply ring_new_ok). split; [done|].
  destruct (same_fields _ _ Hs) as (E1 & E2 & E3 & E4). split; [|cbn; congruence]. apply (event_put_same t i r_new r_new s q Hs Hnew).
Qed.

(** A call on the ring of one thread. *)
Lemma on_ring_same {X} t i s q (f : ring event_entry -> X * ring event_entry) (g : list event_entry -> X * list event_entry) : same_state s q ->
  (forall r l, ring_ok n r l -> (f r).1 = (g l).1 /\ ring_ok n (f r).2 (g l).2) ->
  alike (let '(r, s) := get_ring t i s in let '(x, r) := f r in (x, put_ring t i r s))
        (let '(r, s) := get_ring t i q in let '(x, r) := g r in (x, put_ring t i r s)).
Proof.
  intros Hs Hf. destruct (event_get_same t i s q Hs) as [Hr Hs']. destruct (get_ring t i s) as [r s1], (get_ring t i q) as [l q1]. cbn [fst snd] in *.
  destruct (Hf r l Hr) as [E Hr']. destruct (f r), (g l). cbn [fst snd] in *. split; [done|]. by apply event_put_same.
Qed.

Lemma r_drain_same r l : ring_ok n r l ->
  (r_drain (id : event_entry -> event_entry) r).1 = (r_drain (id : event_entry -> event_entry) l).1 /\
  ring_ok n (r_drain (id : event_entry -> event_entry) r).2 (r_drain (id : event_entry -> event_entry) l).2.
Proof. intros Hr. cbn. destruct (drain_clamped_ok n k Hk Hn id r l Hr) as (r' & -> & Hr'). done. Qed.

Lemma event_drain_same t i s q : same_state s q -> alike (drain t i s) (drain t i q).
Proof. intros Hs. apply (on_ring_same t i s q (r_drain id) (r_drain id) Hs). apply r_drain_same. Qed.

Lemma steal_same t i s q : same_state s q -> alike (steal t i s) (steal t i q).
Proof.
  intros Hs. apply (on_ring_same t i s q r_steal r_steal Hs). intros r l Hr. cbn [r_steal here there circular bounded_queue]. by destruct (steal_ring_ok n k Hk Hn r l Hr) as (r' & -> & Hr').
Qed.

Lemma update_same t i s q (f : ring event_entry -> ring event_entry) (g : list event_entry -> list event_entry) : same_state s q ->
  (forall r l, ring_ok n r l -> ring_ok n (f r) (g l)) ->
  same_state (let '(r, s) := get_ring t i s in put_ring t i (f r) s) (let '(r, s) := get_ring t i q in put_ring t i (g r) s).
Proof.
  intros Hs Hf. destruct (event_get_same t i s q Hs) as [Hr Hs']. destruct (get_ring t i s) as [r s1], (get_ring t i q) as [l q1].
  apply event_put_same; [done|]. by apply Hf.
Qed.

Lemma drain_backup_same i s q : same_state s q -> alike (drain_backup i s) (drain_backup i q).
Proof.
  intros Hs. destruct (same_fields _ _ Hs) as (_ & _ & E & _). unfold drain_backup. rewrite E. destruct (by_instance q !! i); [|done]. split; [done|by apply backup_same].
Qed.

Lemma push_same i es s q : same_state s q -> same_state (push_to_backup i es s) (push_to_backup i es q).
Proof.
  intros Hs. destruct (same_fields _ _ Hs) as (_ & _ & E & _). unfold push_to_backup. rewrite E. destruct es; [done|by apply backup_same].
Qed.

Lemma flush_instances_same t is_ : forall s q, same_state s q -> alike (flush_instances t is_ s) (flush_instances t is_ q).
Proof.
  induction is_ as [|i is_ IH]; intros s q Hs; [done|]. cbn [flush_instances]. apply alike_bind; [by apply event_drain_same|]. intros es s1 q1 Hs1.
  apply alike_bind; [by apply drain_backup_same|]. intros bs s2 q2 Hs2. apply alike_bind; [by apply IH|]. done.
Qed.

Lemma drain_each_same i ts : forall s q, same_state s q -> alike (drain_each i ts s) (drain_each i ts q).
Proof.
  induction ts as [|t ts IH]; intros s q Hs; [done|]. cbn [drain_each]. pose proof (ss_rings _ _ Hs (t, i)) as Hr.
  inversion Hr as [r l Hrl Er El|Er El]; [|by apply IH]. destruct (r_drain_same r l Hrl) as [E Hr'].
  destruct (r_drain id r) as [es r'], (r_drain id l) as [es' l']. cbn [fst snd] in *. subst es'. apply alike_bind; [by apply IH, event_put_same|]. done.
Qed.

Lemma flush_thread_same t is_ : forall s q, same_state s q -> same_state (flush_thread t is_ s) (flush_thread t is_ q).
Proof.
  induction is_ as [|i is_ IH]; intros s q Hs; [done|]. cbn [flush_thread]. pose proof (ss_rings _ _ Hs (t, i)) as Hr.
  inversion Hr as [r l Hrl Er El|Er El]; [|by apply IH]. destruct (r_drain_same r l Hrl) as [E Hr'].
  destruct (r_drain id r) as [es r'], (r_drain id l) as [es' l']. cbn [fst snd] in *. subst es'. by apply IH, push_same, event_put_same.
Qed.

Lemma thread_exit_same t s q : same_state s q -> same_state (thread_exit t s) (thread_exit t q).
Proof.
  intros Hs. destruct (same_fields _ _ Hs) as (E1 & E2 & E3 & E4). unfold thread_exit. rewrite E2. set (mine := fst <$> _). set (left := filter _ (thread_ring_registry q)).
  assert (same_state (EventState (rings s) (registry s) left (by_instance s) (next_instance_id s))
    (EventState (rings q) (registry q) left (by_instance q) (next_instance_id q))) as Hs1 by (split; [apply Hs|cbn; congruence]).
  pose proof (flush_thread_same t mine _ _ Hs1) as Hs2. destruct (flush_thread t mine _) as [rs ? ? ? ?], (flush_thread t mine _) as [rq ? ? ? ?].
  destruct Hs2 as [Hr E]. split; [|done]. intros id. cbn in *. rewrite !map_lookup_filter. specialize (Hr id). inversion Hr as [a b Hab Ea Eb|Ea Eb]; cbn; [|constructor].
  rewrite !option_guard_decide. cbn. destruct (decide (id.1 <> t)); by constructor.
Qed.

Lemma event_run_op_same o s q : same_state s q -> alike (run_op o s) (run_op o q).
Proof.
  intros Hs. destruct (same_fields _ _ Hs) as (E1 & E2 & E3 & E4). destruct o as [|t i|t|t i e|t i|t i|t i|t i|t i|t|i|i|i| |]; cbn [run_op].
  - unfold construct. rewrite E4. split; [done|]. split; [apply Hs|cbn; congruence].
  - split; [done|]. split; [|cbn; congruence]. intros id. cbn. destruct (decide (id = (t, i))) as [->|Hne].
    + rewrite !lookup_delete_eq. constructor.
    + rewrite !lookup_delete_ne by done. apply Hs.
  - split; [done|by apply thread_exit_same].
  - split; [done|]. apply (update_same t i s q (r_collect e) (r_collect e) Hs). intros. by eapply ring_collect_ok.
  - apply alike_bind; [by apply event_drain_same|done].
  - apply alike_bind; [by apply steal_same|done].
  - unfold has_pending_events. destruct (event_get_same t i s q Hs) as [Hr Hs']. destruct (get_ring t i s) as [r s1], (get_ring t i q) as [l q1]. cbn in *.
    split; [|done]. cbn. rewrite (ring_pending n k Hk Hn r l Hr). by destruct l.
  - unfold pending_events. destruct (event_get_same t i s q Hs) as [Hr Hs']. destruct (get_ring t i s) as [r s1], (get_ring t i q) as [l q1]. cbn in *.
    split; [|done]. cbn. by rewrite (ring_count n k Hk Hn r l Hr).
  - split; [done|]. apply (update_same t i s q r_reset r_reset Hs). intros. by eapply reset_ring_ok.
  - unfold flush_all_registered. rewrite E1. apply alike_bind; [by apply flush_instances_same|done].
  - unfold drain_all_threads. destruct (drain_backup_same i s q Hs) as [Eb Hs1]. destruct (drain_backup i s) as [bs s1], (drain_backup i q) as [bq q1].
    cbn in Eb, Hs1. subst bq. destruct (same_fields _ _ Hs1) as (_ & -> & _). apply alike_bind; [|done]. apply alike_bind; [by apply drain_each_same|done].
  - apply alike_bind; [by apply drain_backup_same|done].
  - unfold has_backup_entries. by rewrite E3.
  - unfold drain_all_backups. rewrite E3. split; [done|by apply backup_same].
  - unfold has_any_backup_entries. by rewrite E3.
Qed.

Lemma event_run_same ops : forall s q, same_state s q -> alike (run ops s) (run ops q).
Proof.
  induction ops as [|o ops IH]; intros s q Hs; [done|]. cbn [run]. apply alike_bind; [by apply event_run_op_same|]. intros r s1 q1 Hs1.
  apply alike_bind; [by apply IH|done].
Qed.

Lemma event_init_same : same_state event_init event_init.
Proof. split; [|done]. intros id. cbn. rewrite !lookup_empty. constructor. Qed.
End refine.

(** * Where the events are *)

Section conservation.
Context (n : Z).
#[local] Instance queues : RingOps list := bounded_queue n.
Implicit Types (s : event_state list) (m : gmap (Z * Z) (list event_entry)).

Definition if_instance (i j : Z) (es : list event_entry) : list event_entry := if decide (j = i) then es else [].

(** The events of instance [i] in the rings, and with those in the backup. *)
Definition in_rings (i : Z) m : list event_entry := map_to_list m ≫= fun p => if_instance i p.1.2 p.2.
Definition held (i : Z) s : list event_entry := in_rings i (rings s) ++ default [] (by_instance s !! i).

Lemma in_rings_delete i t j q m : m !! (t, j) = Some q -> in_rings i m ≡ₚ if_instance i j q ++ in_rings i (delete (t, j) m).
Proof. intros Hm. unfold in_rings. by rewrite <- (map_to_list_delete m (t, j) q Hm). Qed.

Lemma in_rings_insert i t j q m : in_rings i (<[(t, j) := q]> m) ≡ₚ if_instance i j q ++ in_rings i (delete (t, j) m).
Proof. rewrite (in_rings_delete i t j q) by apply lookup_insert_eq. by rewrite delete_insert_eq. Qed.

Lemma bind_submseteq {A B} (f : A -> list B) (l1 l2 : list A) : l1 ⊆+ l2 -> (l1 ≫= f) ⊆+ (l2 ≫= f).
Proof.
  induction 1 as [| | | |? ? ? ? IH1 ? IH2]; cbn.
  - done.
  - by apply submseteq_skips_l.
  - rewrite !app_assoc. apply submseteq_skips_r. by rewrite (Permutation_app_comm (f y)).
  - by apply submseteq_inserts_l.
  - by transitivity (l2 ≫= f).
Qed.

Lemma in_rings_subset i m1 m2 : m1 ⊆ m2 -> in_rings i m1 ⊆+ in_rings i m2.
Proof. intros Hm. by apply bind_submseteq, map_to_list_submseteq. Qed.

(** Replacing a ring's contents. *)
Lemma put_held i t j q q' s : rings s !! (t, j) = Some q ->
  held i (put_ring t j q' s) ++ if_instance i j q ≡ₚ held i s ++ if_instance i j q'.
Proof.
  intros Hq. unfold held. cbn [rings put_ring by_instance]. rewrite in_rings_insert, (in_rings_delete i t j q (rings s)) by done. solve_Permutation.
Qed.

Lemma get_held i t j s : held i (get_ring t j s).2 ≡ₚ held i s /\ rings (get_ring t j s).2 !! (t, j) = Some (get_ring t j s).1.
Proof.
  unfold get_ring. destruct (rings s !! (t, j)) as [q|] eqn:E; [done|]. cbn [fst snd]. split; [|cbn; apply lookup_insert_eq].
  unfold held. cbn [rings by_instance]. rewrite in_rings_insert, delete_id by done. unfold if_instance. by destruct (decide _).
Qed.

Lemma drain_held i t j s : held i (drain t j s).2 ++ if_instance i j (drain t j s).1 ≡ₚ held i s.
Proof.
  unfold drain. destruct (get_held i t j s) as [Hg Hq]. destruct (get_ring t j s) as [q s1]. cbn [fst snd r_drain queues bounded_queue] in *.
  rewrite (put_held i t j q []) by done. rewrite Hg. unfold if_instance. destruct (decide _); by rewrite app_nil_r.
Qed.

Lemma steal_held i t j s : held i (steal t j s).2 ++ if_instance i j (steal t j s).1 ≡ₚ held i s.
Proof. exact (drain_held i t j s). Qed.

Lemma record_held i t j e s : held i (record_hash t j e s) ⊆+ held i s ++ if_instance i j [e].
Proof.
  unfold record_hash. destruct (get_held i t j s) as [Hg Hq]. destruct (get_ring t j s) as [q s1]. cbn [fst snd r_collect queues bounded_queue] in *.
  apply (submseteq_app_inv_r _ _ (if_instance i j q)). rewrite (put_held i t j q _ s1) by done. rewrite Hg, <- app_assoc. apply submseteq_skips_l.
  unfold if_instance. destruct (decide _); [|done]. unfold push_bounded. destruct (n <=? _); [|by rewrite Permutation_app_comm].
  rewrite (Permutation_app_comm _ [e]). apply submseteq_skips_l. destruct q; [done|]. by apply submseteq_cons.
Qed.

Lemma reset_held i t j s : held i (reset t j s) ⊆+ held i s.
Proof.
  pose proof (drain_held i t j s) as Hd. unfold reset, drain in *. destruct (get_ring t j s) as [q s1]. cbn in *. rewrite <- Hd. by apply submseteq_inserts_r.
Qed.

Lemma drain_backup_held i j s : held i (drain_backup j s).2 ++ if_instance i j (drain_backup j s).1 ≡ₚ held i s.
Proof.
  unfold drain_backup, if_instance. destruct (by_instance s !! j) as [es|] eqn:E; cbn [fst snd]; [|destruct (decide _); by rewrite app_nil_r].
  unfold held. cbn [rings by_instance set_backup]. destruct (decide (j = i)) as [->|Hne].
  - rewrite lookup_delete_eq, E. cbn. by rewrite app_nil_r.
  - by rewrite lookup_delete_ne, app_nil_r by done.
Qed.

Lemma push_held i j es s : held i (push_to_backup j es s) ≡ₚ held i s ++ if_instance i j es.
Proof.
  unfold push_to_backup, if_instance. destruct es as [|e es]; [destruct (decide _); by rewrite app_nil_r|]. unfold held. cbn [rings by_instance set_backup].
  destruct (decide (j = i)) as [->|Hne].
  - rewrite lookup_insert_eq. simpl. by rewrite app_assoc.
  - by rewrite lookup_insert_ne, app_nil_r by done.
Qed.

Lemma drain_each_held i j ts : forall s, held i (drain_each j ts s).2 ++ if_instance i j (drain_each j ts s).1 ≡ₚ held i s.
Proof.
  induction ts as [|t ts IH]; intros s; cbn [drain_each]; [unfold if_instance; destruct (decide _); by rewrite app_nil_r|].
  destruct (rings s !! (t, j)) as [q|] eqn:E; [|apply IH]. cbn [r_drain queues bounded_queue]. specialize (IH (put_ring t j [] s)).
  destruct (drain_each j ts _) as [out s']. cbn [fst snd] in *. pose proof (put_held i t j q [] s E) as Hp. unfold if_instance in *.
  destruct (decide (j = i)); [|rewrite !app_nil_r in *; by rewrite IH].
  rewrite app_nil_r in Hp. rewrite <- Hp, <- IH. solve_Permutation.
Qed.

Lemma drain_all_held i j s : held i (drain_all_threads j s).2 ++ if_instance i j (drain_all_threads j s).1 ≡ₚ held i s.
Proof.
  unfold drain_all_threads. pose proof (drain_backup_held i j s) as Hb. destruct (drain_backup j s) as [bs s1]. cbn [fst snd] in *.
  pose proof (drain_each_held i j (snd <$> filter (fun e => e.1 = j) (thread_ring_registry s1)) s1) as He. destruct (drain_each j _ s1) as [es s2]. cbn [fst snd] in *.
  rewrite <- Hb, <- He. unfold if_instance. destruct (decide _); [solve_Permutation|by rewrite !app_nil_r].
Qed.

Lemma flush_instances_held i t is_ : forall s, held i (flush_instances t is_ s).2 ⊆+ held i s.
Proof.
  induction is_ as [|j is_ IH]; intros s; [done|]. cbn [flush_instances]. pose proof (drain_held i t j s) as Hd. destruct (drain t j s) as [es s1].
  pose proof (drain_backup_held i j s1) as Hb. destruct (drain_backup j s1) as [bs s2]. specialize (IH s2). destruct (flush_instances t is_ s2) as [rest s3].
  cbn [fst snd] in *. rewrite <- Hd, <- Hb, IH. rewrite <- app_assoc. by apply submseteq_inserts_r.
Qed.

Lemma flush_thread_held i t is_ : forall s, held i (flush_thread t is_ s) ≡ₚ held i s.
Proof.
  induction is_ as [|j is_ IH]; intros s; [done|]. cbn [flush_thread]. destruct (rings s !! (t, j)) as [q|] eqn:E; [|apply IH].
  cbn [r_drain queues bounded_queue]. rewrite IH, push_held, (put_held i t j q [] s E). unfold if_instance. destruct (decide _); by rewrite app_nil_r.
Qed.

Lemma held_rings i s g1 g2 m : m ⊆ rings s -> held i (EventState m g1 g2 (by_instance s) (next_instance_id s)) ⊆+ held i s.
Proof. intros Hm. unfold held. cbn. apply submseteq_skips_r. by apply in_rings_subset. Qed.

Lemma thread_exit_held i t s : held i (thread_exit t s) ⊆+ held i s.
Proof.
  unfold thread_exit. set (mine := fst <$> _). set (s1 := EventState (rings s) _ _ _ _).
  pose proof (flush_thread_held i t mine s1) as Hf. set (s2 := flush_thread t mine s1) in *. change (held i s1) with (held i s) in Hf. rewrite <- Hf.
  apply held_rings, map_filter_subseteq.
Qed.

(** What call [o] adds to instance [i] and what it hands out of it. *)
Definition recorded_by (i : Z) (o : event_op) : list event_entry :=
  match o with Record_ _ j e => if_instance i j [e] | _ => [] end.

Definition delivered_by (i : Z) (o : event_op) (r : event_result) : list event_entry :=
  match o, r with
  | Drain _ j, REvents es | Steal _ j, REvents es | DrainAll j, REvents es | DrainBackup j, REvents es => if_instance i j es
  | _, _ => []
  end.

Lemma run_op_held i o s : held i (run_op o s).2 ++ delivered_by i o (run_op o s).1 ⊆+ held i s ++ recorded_by i o.
Proof.
  assert (forall x y z : list event_entry, x ⊆+ y -> z = [] -> x ++ z ⊆+ y ++ []) as Hnil by (intros x y z ? ->; by rewrite !app_nil_r).
  assert (forall t j, held i (get_ring t j s).2 ⊆+ held i s) as Hget by (intros t j; destruct (get_held i t j s) as [-> _]; done).
  destruct o as [|t j|t|t j e|t j|t j|t j|t j|t j|t|j|j|j| |]; cbn [run_op recorded_by].
  - apply Hnil; done.
  - apply Hnil; [|done]. apply (held_rings i s), delete_subseteq.
  - apply Hnil; [apply thread_exit_held|done].
  - cbn [fst snd delivered_by]. rewrite app_nil_r. apply record_held.
  - pose proof (drain_held i t j s). destruct (drain t j s). cbn in *. rewrite app_nil_r. by apply Permutation_submseteq.
  - pose proof (steal_held i t j s). destruct (steal t j s). cbn in *. rewrite app_nil_r. by apply Permutation_submseteq.
  - apply Hnil; [|by destruct (has_pending_events t j s)]. unfold has_pending_events. specialize (Hget t j). by destruct (get_ring t j s).
  - apply Hnil; [|by destruct (pending_events t j s)]. unfold pending_events. specialize (Hget t j). by destruct (get_ring t j s).
  - apply Hnil; [apply reset_held|done].
  - apply Hnil; [|by destruct (flush_all_registered t s)]. pose proof (flush_instances_held i t (registry s) s). unfold flush_all_registered. by destruct (flush_instances _ _ _).
  - pose proof (drain_all_held i j s). destruct (drain_all_threads j s). cbn in *. rewrite app_nil_r. by apply Permutation_submseteq.
  - pose proof (drain_backup_held i j s). destruct (drain_backup j s). cbn in *. rewrite app_nil_r. by apply Permutation_submseteq.
  - apply Hnil; done.
  - apply Hnil; [|done]. unfold drain_all_backups, held. cbn. rewrite lookup_empty. cbn. rewrite app_nil_r. by apply submseteq_inserts_r.
  - apply Hnil; done.
Qed.

Definition recorded (i : Z) (ops : list event_op) : list event_entry := ops ≫= recorded_by i.
Definition delivered (i : Z) (ops : list event_op) (rs : list event_result) : list event_entry := concat (zip_with (delivered_by i) ops rs).

Lemma run_held i ops : forall s, held i (run ops s).2 ++ delivered i ops (run ops s).1 ⊆+ held i s ++ recorded i ops.
Proof.
  induction ops as [|o ops IH]; intros s; [done|]. cbn [run]. pose proof (run_op_held i o s) as Ho. destruct (run_op o s) as [r s1]. specialize (IH s1).
  destruct (run ops s1) as [rs s2]. cbn [fst snd] in *. unfold delivered, recorded in *. cbn [zip_with concat mbind list_bind].
  transitivity ((held i s1 ++ delivered_by i o r) ++ (ops ≫= recorded_by i)).
  - transitivity ((held i s1 ++ (ops ≫= recorded_by i)) ++ delivered_by i o r); [|apply Permutation_submseteq; solve_Permutation].
    transitivity ((held i s2 ++ concat (zip_with (delivered_by i) ops rs)) ++ delivered_by i o r); [apply Permutation_submseteq; solve_Permutation|].
    by apply submseteq_skips_r.
  - rewrite app_assoc. by apply submseteq_skips_r.
Qed.

(** ** The registry *)

Record registry_ok s : Prop := {
  ro_nodup : NoDup (thread_ring_registry s);
  ro_rings : forall i t, (i, t) ∈ thread_ring_registry s -> is_Some (rings s !! (t, i))
}.

Lemma event_put_ok t j q s : registry_ok s -> registry_ok (put_ring t j q s).
Proof.
  intros [Hn Hr]. split; [done|]. intros i t' Hi. cbn. destruct (decide ((t', i) = (t, j))) as [->|Hne]; [rewrite lookup_insert_eq; eauto|].
  rewrite lookup_insert_ne by done. by apply Hr.
Qed.

Lemma set_backup_ok b s : registry_ok s -> registry_ok (set_backup b s).
Proof. intros []. by split. Qed.

Lemma event_get_ok t j s : registry_ok s -> registry_ok (get_ring t j s).2.
Proof.
  intros Hs. unfold get_ring. destruct (rings s !! (t, j)) as [q|] eqn:E; [done|]. destruct (event_put_ok t j r_new s Hs) as [_ Hr]. destruct Hs as [Hn Hr']. split; cbn.
  - apply NoDup_app. split; [done|]. split; [|apply NoDup_singleton]. intros x Hx ->%list_elem_of_singleton. destruct (Hr' _ _ Hx). congruence.
  - intros i t' [Hi|Hi]%elem_of_app; [by apply Hr|]. apply list_elem_of_singleton in Hi as [= -> ->]. rewrite lookup_insert_eq. eauto.
Qed.

Lemma event_drain_ok t j s : registry_ok s -> registry_ok (drain t j s).2.
Proof. intros Hs. unfold drain. pose proof (event_get_ok t j s Hs). destruct (get_ring t j s) as [q s1]. by apply event_put_ok. Qed.

Lemma event_drain_backup_ok j s : registry_ok s -> registry_ok (drain_backup j s).2.
Proof. intros Hs. unfold drain_backup. destruct (by_instance s !! j); [by apply set_backup_ok|done]. Qed.

Lemma event_push_ok j es s : registry_ok s -> registry_ok (push_to_backup j es s).
Proof. intros Hs. unfold push_to_backup. destruct es; [done|by apply set_backup_ok]. Qed.

Lemma drain_each_ok j ts : forall s, registry_ok s -> registry_ok (drain_each j ts s).2.
Proof.
  induction ts as [|t ts IH]; intros s Hs; cbn [drain_each]; [done|]. destruct (rings s !! (t, j)) as [q|]; [|by apply IH].
  cbn [r_drain queues bounded_queue]. specialize (IH _ (event_put_ok t j [] s Hs)). by destruct (drain_each j ts _).
Qed.

Lemma flush_instances_ok t is_ : forall s, registry_ok s -> registry_ok (flush_instances t is_ s).2.
Proof.
  induction is_ as [|j is_ IH]; intros s Hs; cbn [flush_instances]; [done|]. pose proof (event_drain_ok t j s Hs) as H1. destruct (drain t j s) as [es s1].
  pose proof (event_drain_backup_ok j s1 H1) as H2. destruct (drain_backup j s1) as [bs s2]. specialize (IH s2 H2). by destruct (flush_instances t is_ s2).
Qed.

Lemma flush_thread_ok t is_ : forall s, registry_ok s -> registry_ok (flush_thread t is_ s) /\ thread_ring_registry (flush_thread t is_ s) = thread_ring_registry s.
Proof.
  induction is_ as [|j is_ IH]; intros s Hs; cbn [flush_thread]; [done|]. destruct (rings s !! (t, j)) as [q|]; [|by apply IH].
  cbn [r_drain queues bounded_queue]. destruct (IH _ (event_push_ok j q _ (event_put_ok t j [] s Hs))) as [H1 H2]. split; [done|]. rewrite H2. by destruct q.
Qed.

(** Fewer entries, and the rings of those that stay. *)
Lemma fewer_ok (P : Z * Z -> Prop) `{!forall x, Decision (P x)} s m g : registry_ok s ->
  (forall i t, P (i, t) -> m !! (t, i) = rings s !! (t, i)) ->
  registry_ok (EventState m g (filter P (thread_ring_registry s)) (by_instance s) (next_instance_id s)).
Proof.
  intros [Hn Hr] Hm. split; cbn; [by apply NoDup_filter|]. intros i t [Hp Hi]%list_elem_of_filter. rewrite Hm by done. by apply Hr.
Qed.

Lemma event_destroy_ok t j s : registry_ok s -> registry_ok (destroy t j s).
Proof. intros Hs. apply fewer_ok; [done|]. intros i t' Hne. cbn in Hne. apply lookup_delete_ne. congruence. Qed.

Lemma event_thread_exit_ok t s : registry_ok s -> registry_ok (thread_exit t s).
Proof.
  intros Hs. unfold thread_exit. set (mine := fst <$> _). set (s1 := EventState (rings s) _ _ _ _).
  assert (registry_ok s1) as H1 by (apply fewer_ok; [done|by intros]). destruct (flush_thread_ok t mine s1 H1) as [[Hn Hr] E].
  split; cbn; [done|]. intros i t' Hi. destruct (Hr _ _ Hi) as [q Hq]. exists q. apply map_lookup_filter_Some. split; [done|]. cbn.
  rewrite E in Hi. by apply list_elem_of_filter in Hi as [Hi _].
Qed.

Lemma event_run_op_ok o s : registry_ok s -> registry_ok (run_op o s).2.
Proof.
  intros Hs. destruct o as [|t j|t|t j e|t j|t j|t j|t j|t j|t|j|j|j| |]; cbn [run_op snd].
  - destruct Hs. by split.
  - by apply event_destroy_ok.
  - by apply event_thread_exit_ok.
  - unfold record_hash. pose proof (event_get_ok t j s Hs). destruct (get_ring t j s) as [q s1]. by apply event_put_ok.
  - pose proof (event_drain_ok t j s Hs). by destruct (drain t j s).
  - pose proof (event_drain_ok t j s Hs : registry_ok (steal t j s).2). by destruct (steal t j s).
  - unfold has_pending_events. pose proof (event_get_ok t j s Hs). by destruct (get_ring t j s).
  - unfold pending_events. pose proof (event_get_ok t j s Hs). by destruct (get_ring t j s).
  - unfold reset. pose proof (event_get_ok t j s Hs). destruct (get_ring t j s) as [q s1]. by apply event_put_ok.
  - pose proof (flush_instances_ok t (registry s) s Hs). unfold flush_all_registered. by destruct (flush_instances _ _ _).
  - unfold drain_all_threads. pose proof (event_drain_backup_ok j s Hs) as H1. destruct (drain_backup j s) as [bs s1].
    pose proof (drain_each_ok j (snd <$> filter (fun e => e.1 = j) (thread_ring_registry s1)) s1 H1). by destruct (drain_each _ _ _).
  - pose proof (event_drain_backup_ok j s Hs). by destruct (drain_backup j s).
  - done.
  - by apply set_backup_ok.
  - done.
Qed.

Lemma event_run_ok ops : forall s, registry_ok s -> registry_ok (run ops s).2.
Proof.
  induction ops as [|o ops IH]; intros s Hs; [done|]. cbn [run]. pose proof (event_run_op_ok o s Hs) as H1. destruct (run_op o s) as [r s1]. specialize (IH s1 H1).
  by destruct (run ops s1).
Qed.

Lemma event_init_ok : registry_ok event_init.
Proof. split; [constructor|]. intros i t Hi. by apply elem_of_nil in Hi. Qed.

(** ** Exits and drains *)

Definition queue_of (t i : Z) s : list event_entry := default [] (rings s !! (t, i)).
Definition threads_of (i : Z) s : list Z := snd <$> filter (fun e => e.1 = i) (thread_ring_registry s).

Lemma threads_nodup i s : registry_ok s -> NoDup (threads_of i s).
Proof.
  intros [Hn _]. unfold threads_of. apply NoDup_fmap_2_strong; [|by apply NoDup_filter].
  intros [i1 t1] [i2 t2] [H1 _]%list_elem_of_filter [H2 _]%list_elem_of_filter. cbn in *. congruence.
Qed.

Lemma drain_each_result j ts : forall s, NoDup ts -> (drain_each j ts s).1 = ts ≫= fun t => queue_of t j s.
Proof.
  induction ts as [|t ts IH]; intros s Hn; [done|]. apply NoDup_cons in Hn as [Ht Hn]. cbn [drain_each mbind list_bind]. unfold queue_of at 1.
  destruct (rings s !! (t, j)) as [q|] eqn:E; [|by apply IH]. cbn [r_drain queues bounded_queue]. specialize (IH (put_ring t j [] s) Hn).
  destruct (drain_each j ts _) as [out s']. cbn [fst snd] in *. cbn. f_equal. rewrite IH. clear -Ht. induction ts as [|t' ts IH]; [done|]. cbn.
  rewrite IH by set_solver. f_equal. unfold queue_of. cbn. rewrite lookup_insert_ne; [done|]. intros [= ->]. set_solver.
Qed.

(** What a drain of all threads returns. *)
Lemma drain_all_result i s : registry_ok s -> (drain_all_threads i s).1 = default [] (by_instance s !! i) ++ (threads_of i s ≫= fun t => queue_of t i s).
Proof.
  intros Hs. unfold drain_all_threads. assert (exists s1, drain_backup i s = (default [] (by_instance s !! i), s1) /\ rings s1 = rings s /\
    thread_ring_registry s1 = thread_ring_registry s) as (s1 & -> & E1 & E2) by (unfold drain_backup; destruct (by_instance s !! i); eauto).
  rewrite E2. pose proof (drain_each_result i (threads_of i s) s1 (threads_nodup i s Hs)) as He. unfold threads_of at 1 in He.
  destruct (drain_each i _ s1) as [es s2]. cbn [fst] in *. rewrite He. unfold queue_of. by rewrite E1.
Qed.

(** The sentinel moves the events of its thread to the backup. *)
Lemma flush_thread_effect t is_ i : forall s, NoDup is_ ->
  default [] (by_instance (flush_thread t is_ s) !! i) = default [] (by_instance s !! i) ++ (if decide (i ∈ is_) then queue_of t i s else []) /\
  (forall t', t' <> t -> queue_of t' i (flush_thread t is_ s) = queue_of t' i s).
Proof.
  induction is_ as [|j is_ IH]; intros s Hn; cbn [flush_thread]; [by rewrite decide_False, app_nil_r by apply not_elem_of_nil|]. apply NoDup_cons in Hn as [Hj Hn].
  destruct (rings s !! (t, j)) as [q|] eqn:E.
  - cbn [r_drain queues bounded_queue]. set (s1 := push_to_backup j q (put_ring t j [] s)). destruct (IH s1 Hn) as [H1 H2].
    assert (forall t' i', (t', i') <> (t, j) -> queue_of t' i' s1 = queue_of t' i' s) as Hq by (intros t' i' Hne; unfold queue_of, s1; destruct q; cbn; by rewrite lookup_insert_ne).
    split; [|intros t' Ht; rewrite H2 by done; apply Hq; congruence]. rewrite H1. destruct (decide (i = j)) as [->|Hne].
    + rewrite decide_False, decide_True by set_solver. rewrite app_nil_r. unfold queue_of. rewrite E. unfold s1. destruct q; cbn; [by rewrite app_nil_r|].
      by rewrite lookup_insert_eq.
    + assert (default [] (by_instance s1 !! i) = default [] (by_instance s !! i)) as -> by (unfold s1; destruct q; cbn; [done|by rewrite lookup_insert_ne]).
      rewrite Hq by congruence. f_equal. destruct (decide (i ∈ is_)); [rewrite decide_True by set_solver|rewrite decide_False by set_solver]; done.
  - destruct (IH s Hn) as [H1 H2]. split; [|done]. rewrite H1. f_equal. destruct (decide (i = j)) as [->|Hne].
    + rewrite decide_False, decide_True by set_solver. unfold queue_of. by rewrite E.
    + destruct (decide (i ∈ is_)); [rewrite decide_True by set_solver|rewrite decide_False by set_solver]; done.
Qed.

Lemma bind_without (t : Z) ts (f : Z -> list event_entry) : NoDup ts ->
  (if decide (t ∈ ts) then f t else []) ++ (filter (fun t' => t' <> t) ts ≫= f) ≡ₚ (ts ≫= f).
Proof.
  induction ts as [|x ts IH]; intros Hn; [by rewrite decide_False by apply not_elem_of_nil|]. apply NoDup_cons in Hn as [Hx Hn]. specialize (IH Hn). cbn [mbind list_bind].
  destruct (decide (x = t)) as [->|Hne].
  - rewrite decide_True by set_solver. rewrite filter_cons_False by naive_solver. rewrite filter_all; [done|]. intros y Hy ->. done.
  - rewrite filter_cons_True by done. cbn [mbind list_bind]. rewrite <- IH. destruct (decide (t ∈ ts)).
    + rewrite decide_True by set_solver. solve_Permutation.
    + rewrite decide_False by set_solver. done.
Qed.

Lemma bind_ext_in {A B} (f g : A -> list B) l : (forall x, x ∈ l -> f x = g x) -> (l ≫= f) = (l ≫= g).
Proof. induction l as [|a l IH]; intros Hf; [done|]. cbn. rewrite Hf, IH; [done| |by left]. intros x Hx. apply Hf. by right. Qed.

Lemma exit_drain i t s : registry_ok s -> (drain_all_threads i (thread_exit t s)).1 ≡ₚ (drain_all_threads i s).1.
Proof.
  intros Hs. rewrite !drain_all_result by (done || by apply event_thread_exit_ok).
  unfold thread_exit. set (mine := fst <$> _). set (s1 := EventState (rings s) (registry s) _ _ _). set (s2 := flush_thread t mine s1).
  assert (registry_ok s1) as Hs1 by (apply fewer_ok; [done|by intros]).
  assert (NoDup mine) as Hm.
  { apply NoDup_fmap_2_strong; [|by apply NoDup_filter, Hs]. intros [i1 t1] [i2 t2] [H1 _]%list_elem_of_filter [H2 _]%list_elem_of_filter. cbn in *. congruence. }
  destruct (flush_thread_effect t mine i s1 Hm) as [Hb Hq]. destruct (flush_thread_ok t mine s1 Hs1) as [_ Hreg]. fold s2 in Hb, Hq, Hreg. cbn [by_instance].
  rewrite Hb, <- app_assoc. apply Permutation_app_head. change (queue_of t i s1) with (queue_of t i s).
  assert (threads_of i (EventState (filter (fun p : Z * Z * list event_entry => p.1.1 <> t) (rings s2)) (registry s2) (thread_ring_registry s2) (by_instance s2)
    (next_instance_id s2)) = filter (fun t' => t' <> t) (threads_of i s)) as Ht.
  { unfold threads_of. cbn [thread_ring_registry]. rewrite Hreg. cbn [thread_ring_registry s1]. clear. induction (thread_ring_registry s) as [|[i' t'] l IH]; [done|].
    rewrite !filter_cons. cbn [fst snd]. destruct (decide (t' <> t)) as [Hne|Hne], (decide (i' = i)) as [Hi|Hi]; rewrite ?filter_cons, ?fmap_cons, ?filter_cons; cbn [fst snd];
      rewrite ?(decide_True _ _ Hne), ?(decide_False _ _ Hne), ?(decide_True _ _ Hi), ?(decide_False _ _ Hi), ?fmap_cons, IH; done. }
  rewrite Ht, <- (bind_without t (threads_of i s) (fun t => queue_of t i s)) by (by apply threads_nodup).
  assert ((if decide (i ∈ mine) then queue_of t i s else []) = (if decide (t ∈ threads_of i s) then queue_of t i s else [])) as ->.
  { assert (i ∈ mine <-> t ∈ threads_of i s) as Hiff; [|by destruct (decide (i ∈ mine)), (decide (t ∈ threads_of i s)); tauto].
    unfold mine, threads_of. rewrite !list_elem_of_fmap. setoid_rewrite list_elem_of_filter. split; [intros ([i' t'] & -> & <- & Hi)|intros ([i' t'] & -> & <- & Hi)]; eexists; by split_and!. }
  apply Permutation_app_head, Permutation_refl'. apply bind_ext_in. intros t' Ht'. apply list_elem_of_filter in Ht' as [Hne _].
  rewrite <- (Hq t' Hne : _ = queue_of t' i s). unfold queue_of. cbn [rings]. rewrite map_lookup_filter.
  destruct (rings s2 !! (t', i)); cbn; [|done]. by rewrite option_guard_True.
Qed.
End conservation.

(** * The theorems *)

Section claims.
Context (n k : Z) (Hk : 0 <= k < 64) (Hn : n = 2 ^ k).
Abbreviation run_rings ops := (run (HR := circular n true) ops event_init).
Abbreviation run_queues ops := (run (HR := bounded_queue n) ops event_init).

Lemma run_rings_eq ops : (run_rings ops).1 = (run_queues ops).1.
Proof. exact (proj1 (event_run_same n k Hk Hn ops _ _ (event_init_same n))). Qed.

Lemma last_result ops o : last (run_rings (ops ++ [o])).1 = Some (run_op (HR := bounded_queue n) o (run_queues ops).2).1.
Proof.
  rewrite run_rings_eq. change (bounded_queue n) with (queues n). generalize (event_init (R := list)). induction ops as [|p ops IH]; intros s; cbn [app run].
  - cbn [snd]. by destruct (run_op o s).
  - destruct (run_op p s) as [r s1]. specialize (IH s1). destruct (run (ops ++ [o]) s1) as [rs s2], (run ops s1) as [rs' s2']. cbn [fst snd] in *.
    rewrite last_cons, IH. done.
Qed.

(** C32: the event rings deliver each event at most once and to its own instance.
    Every sequence of calls by any threads, exits included, returns what bounded
    queues return, however often the positions wrap; and the events that drains,
    steals and backup drains of instance [i] return, counted with multiplicity, are
    among those recorded for [i]. *)
Theorem event_ring_delivers_once (ops : list event_op) (i : Z) :
  (run_rings ops).1 = (run_queues ops).1 /\ delivered i ops (run_rings ops).1 ⊆+ recorded i ops.
Proof.
  split; [apply run_rings_eq|]. rewrite run_rings_eq. pose proof (run_held n i ops event_init) as Hr. unfold held at 2 in Hr. cbn in Hr.
  etransitivity; [|exact Hr]. by apply submseteq_inserts_l.
Qed.

(** An exiting thread loses no events. After any calls, the events that
    [drain_all_threads] returns are the same, up to their order, whether a thread
    has exited in between or not. *)
Theorem thread_exit_keeps_events (ops : list event_op) (t i : Z) :
  exists es es', last (run_rings (ops ++ [DrainAll i])).1 = Some (REvents es) /\
    last (run_rings ((ops ++ [ThreadExit t]) ++ [DrainAll i])).1 = Some (REvents es') /\ es' ≡ₚ es.
Proof.
  rewrite !last_result. change (bounded_queue n) with (queues n). cbn [run_op]. set (s := (run (HR := queues n) ops event_init).2).
  assert ((run (HR := queues n) (ops ++ [ThreadExit t]) event_init).2 = thread_exit (HR := queues n) t s) as ->.
  { unfold s. generalize (event_init (R := list)). induction ops as [|p ops IH]; intros s0; [done|]. cbn [app run]. destruct (run_op p s0) as [r s1]. specialize (IH s1).
    destruct (run (ops ++ [ThreadExit t]) s1), (run ops s1). done. }
  pose proof (exit_drain n i t s (event_run_ok n ops event_init (event_init_ok))) as He.
  destruct (drain_all_threads i s) as [es s1], (drain_all_threads i (thread_exit t s)) as [es' s2]. cbn [fst] in *. eauto.
Qed.
End claims.

(** Two threads and two instances on rings of two: thread 1 overflows its ring
    and exits; instance 0 gets its two latest events and thread 2's, instance 1 its
    own. *)
Definition demo_entry (h : Z) : event_entry := EventEntry h 0 hit 0.
Definition demo_calls : list event_op :=
  [Construct; Construct; Record_ 1 0 (demo_entry 1); Record_ 1 0 (demo_entry 2); Record_ 2 0 (demo_entry 4); Record_ 1 1 (demo_entry 5);
   Record_ 1 0 (demo_entry 3); ThreadExit 1; DrainAll 0; DrainBackup 1].

Example demo_run : (run (HR := circular 2 true) demo_calls event_init).1 =
  [RNumber 0; RNumber 1; RUnit; RUnit; RUnit; RUnit; RUnit; RUnit; REvents [demo_entry 2; demo_entry 3; demo_entry 4]; REvents [demo_entry 5]].
Proof. vm_compute. reflexivity. Qed.

Lemma event_ring_delivers_once_witness :
  delivered 0 demo_calls (run (HR := circular 2 true) demo_calls event_init).1 ⊆+ recorded 0 demo_calls /\
  length (delivered 0 demo_calls (run (HR := circular 2 true) demo_calls event_init).1) = 3%nat.
Proof.
  split; [|vm_compute; reflexivity]. exact (proj2 (event_ring_delivers_once 2 1 ltac:(lia) eq_refl demo_calls 0)).
Defined.

Lemma thread_exit_keeps_events_witness :
  exists es es', last (run (HR := circular 2 true) (take 7 demo_calls ++ [DrainAll 0]) event_init).1 = Some (REvents es) /\
    last (run (HR := circular 2 true) ((take 7 demo_calls ++ [ThreadExit 1]) ++ [DrainAll 0]) event_init).1 = Some (REvents es') /\ es' ≡ₚ es.
Proof. exact (thread_exit_keeps_events 2 1 ltac:(lia) eq_refl (take 7 demo_calls) 1 0). Defined.
