(* ===== verification/TlsAccess.v ===== *)
(** [tls_access_ring] of tls_ring.hpp: the per-thread rings of accessed keys whose
    promotion is deferred, with their capacity, overflow policy, automatic drains,
    flush requests between threads, the backup buffer, the flush of dormant
    threads and the exit of threads. A call is one step; threads interleave
    between calls. *)

From S2P Require Import Prelude HashTable HashTableInv TlsRing.

Inductive tls_ring_full_policy := kSilentDrop | kFlushOnFull | kAssertOnFull.

(** A cache's overflow settings; [CB] stands for its flush callback. *)
Record tls_ring_config (CB : Type) := TlsRingConfig { full_policy : tls_ring_full_policy; auto_drain_threshold : Z; flush_callback : option CB }.
#[global] Arguments TlsRingConfig {CB} _ _ _.
#[global] Arguments full_policy {CB} _.
#[global] Arguments auto_drain_threshold {CB} _.
#[global] Arguments flush_callback {CB} _.

Definition kBacklogFlushBatch : Z := 64.
Definition kHeartbeatInterval : Z := 64.

Definition next_pow2 (n : Z) : Z :=
  if n <=? 1 then 1
  else
    let n := n - 1 in
    let n := Z.lor n (Z.shiftr n 1) in
    let n := Z.lor n (Z.shiftr n 2) in
    let n := Z.lor n (Z.shiftr n 4) in
    let n := Z.lor n (Z.shiftr n 8) in
    let n := Z.lor n (Z.shiftr n 16) in
    let n := Z.lor n (Z.shiftr n 32) in
    u64 (n + 1).

(** One thread: its ring with the members of [tls_access_ring] and its
    [thread_local] counters. *)
Record thread (Key : Type) := Thread {
  buf : ring Key;
  per_thread_cap : Z;
  needs_flush : bool;
  last_activity_ns : Z;
  heartbeat_skip : Z;
  dropped_count : Z;
  tls_pending_backlog : Z
}.
#[global] Arguments Thread {Key} _ _ _ _ _ _ _.
#[global] Arguments buf {Key} _.
#[global] Arguments per_thread_cap {Key} _.
#[global] Arguments needs_flush {Key} _.
#[global] Arguments last_activity_ns {Key} _.
#[global] Arguments heartbeat_skip {Key} _.
#[global] Arguments dropped_count {Key} _.
#[global] Arguments tls_pending_backlog {Key} _.

(** The members shared by all threads. [defaults] holds [full_policy_],
    [auto_drain_threshold_] and [flush_callback_]; a ring is registered as long as
    its thread is in [ring_registry]. The caches' settings are in [configs], and
    [active_config] names the one a thread has activated. *)
Record access_state (Key CB : Type) := AccessState {
  threads : gmap Z (thread Key);
  ring_registry : list Z;
  backup : list Key;
  has_backup : bool;
  total_dropped : Z;
  total_backlog : Z;
  pending_drain_count : Z;
  flush_count : Z;
  runtime_capacity : Z;
  defaults : tls_ring_config CB;
  configs : gmap Z (tls_ring_config CB);
  active_config : gmap Z Z
}.
#[global] Arguments AccessState {Key CB} _ _ _ _ _ _ _ _ _ _ _ _.
#[global] Arguments threads {Key CB} _.
#[global] Arguments ring_registry {Key CB} _.
#[global] Arguments backup {Key CB} _.
#[global] Arguments has_backup {Key CB} _.
#[global] Arguments total_dropped {Key CB} _.
#[global] Arguments total_backlog {Key CB} _.
#[global] Arguments pending_drain_count {Key CB} _.
#[global] Arguments flush_count {Key CB} _.
#[global] Arguments runtime_capacity {Key CB} _.
#[global] Arguments defaults {Key CB} _.
#[global] Arguments configs {Key CB} _.
#[global] Arguments active_config {Key CB} _.

Section access.
Context {Key CB : Type} `{Inhabited Key} (kRingSize : Z) (moved : Key -> Key).
Abbreviation st := (access_state Key CB).
Implicit Types (s : st) (th : thread Key) (t : Z).

(** What the callback of a cache does when it runs on thread [t]: the keys it
    takes out, and the state it leaves. *)
Context (run_callback : CB -> Z -> st -> list Key * st).

(** ** Fields *)

Definition set_threads m s : st :=
  AccessState m (ring_registry s) (backup s) (has_backup s) (total_dropped s) (total_backlog s) (pending_drain_count s) (flush_count s) (runtime_capacity s) (defaults s) (configs s) (active_config s).
Definition set_registry g s : st :=
  AccessState (threads s) g (backup s) (has_backup s) (total_dropped s) (total_backlog s) (pending_drain_count s) (flush_count s) (runtime_capacity s) (defaults s) (configs s) (active_config s).
Definition set_backup b f s : st :=
  AccessState (threads s) (ring_registry s) b f (total_dropped s) (total_backlog s) (pending_drain_count s) (flush_count s) (runtime_capacity s) (defaults s) (configs s) (active_config s).
Definition set_dropped d s : st :=
  AccessState (threads s) (ring_registry s) (backup s) (has_backup s) d (total_backlog s) (pending_drain_count s) (flush_count s) (runtime_capacity s) (defaults s) (configs s) (active_config s).
Definition set_backlog b s : st :=
  AccessState (threads s) (ring_registry s) (backup s) (has_backup s) (total_dropped s) b (pending_drain_count s) (flush_count s) (runtime_capacity s) (defaults s) (configs s) (active_config s).
Definition set_pending p s : st :=
  AccessState (threads s) (ring_registry s) (backup s) (has_backup s) (total_dropped s) (total_backlog s) p (flush_count s) (runtime_capacity s) (defaults s) (configs s) (active_config s).
Definition set_flush_count c s : st :=
  AccessState (threads s) (ring_registry s) (backup s) (has_backup s) (total_dropped s) (total_backlog s) (pending_drain_count s) c (runtime_capacity s) (defaults s) (configs s) (active_config s).
Definition set_settings c d s : st :=
  AccessState (threads s) (ring_registry s) (backup s) (has_backup s) (total_dropped s) (total_backlog s) (pending_drain_count s) (flush_count s) c d (configs s) (active_config s).

Definition with_buf r th : thread Key :=
  Thread r (per_thread_cap th) (needs_flush th) (last_activity_ns th) (heartbeat_skip th) (dropped_count th) (tls_pending_backlog th).
Definition with_cap c th : thread Key :=
  Thread (buf th) c (needs_flush th) (last_activity_ns th) (heartbeat_skip th) (dropped_count th) (tls_pending_backlog th).
Definition with_flush b th : thread Key :=
  Thread (buf th) (per_thread_cap th) b (last_activity_ns th) (heartbeat_skip th) (dropped_count th) (tls_pending_backlog th).
Definition with_activity a h th : thread Key :=
  Thread (buf th) (per_thread_cap th) (needs_flush th) a h (dropped_count th) (tls_pending_backlog th).
Definition with_counts d b th : thread Key :=
  Thread (buf th) (per_thread_cap th) (needs_flush th) (last_activity_ns th) (heartbeat_skip th) d b.
Definition thread_new : thread Key := Thread (ring_new kRingSize) 0 false 0 0 0 0.

(** [instance()]: the ring of the thread, made and registered on first use. *)
Definition instance t s : thread Key := default thread_new (threads s !! t).
Definition register t s : st := match threads s !! t with Some _ => s | None => set_threads (<[t := thread_new]> (threads s)) (set_registry (ring_registry s ++ [t]) s) end.
Definition put t th s : st := set_threads (<[t := th]> (threads s)) s.

(** ** Capacity and settings *)

Definition clamp_capacity (cap : Z) : Z := if (cap =? 0) || (kRingSize <? cap) then kRingSize else cap.

(** The [const] overload, and the one that stores the snapshot. *)
Definition effective_capacity th s : Z := if negb (per_thread_cap th =? 0) then per_thread_cap th else clamp_capacity (runtime_capacity s).
Definition snapshot_capacity t s : Z * st :=
  let th := instance t s in
  let cap := effective_capacity th s in (cap, put t (with_cap cap th) s).

Definition set_full_policy p s : st :=
  set_settings (runtime_capacity s) (TlsRingConfig p (auto_drain_threshold (defaults s)) (flush_callback (defaults s))) s.
Definition set_flush_callback cb s : st :=
  set_settings (runtime_capacity s) (TlsRingConfig (full_policy (defaults s)) (auto_drain_threshold (defaults s)) cb) s.
Definition set_tls_drain_threshold (threshold : Z) s : st :=
  let threshold := if (threshold =? 0) || (kRingSize <? threshold) then kRingSize / 2 else threshold in
  set_settings (runtime_capacity s) (TlsRingConfig (full_policy (defaults s)) threshold (flush_callback (defaults s))) s.
Definition set_tls_ring_capacity (cap : Z) s : st :=
  let cap :=
    if (cap =? 0) || (kRingSize <? cap) then kRingSize
    else let cap := next_pow2 cap in if kRingSize <? cap then kRingSize else cap in
  let d := defaults s in
  set_settings cap (if cap <? auto_drain_threshold d then TlsRingConfig (full_policy d) cap (flush_callback d) else d) s.

(** The settings in force on a thread. *)
Definition config_of t s : tls_ring_config CB :=
  match active_config s !! t with Some c => default (defaults s) (configs s !! c) | None => defaults s end.

(** A cache's own settings, and the activation of a cache on a thread
    ([active_config_scope] sets it and restores it). *)
Definition set_config (c : Z) (cfg : tls_ring_config CB) s : st :=
  AccessState (threads s) (ring_registry s) (backup s) (has_backup s) (total_dropped s) (total_backlog s) (pending_drain_count s) (flush_count s) (runtime_capacity s) (defaults s) (<[c := cfg]> (configs s)) (active_config s).
Definition set_active t (c : option Z) s : st :=
  AccessState (threads s) (ring_registry s) (backup s) (has_backup s) (total_dropped s) (total_backlog s) (pending_drain_count s) (flush_count s) (runtime_capacity s) (defaults s) (configs s) (partial_alter (const c) t (active_config s)).

(** ** Backup *)

Definition push_to_backup (keys : list Key) s : st := match keys with [] => s | _ => set_backup (backup s ++ keys) true s end.
Definition drain_backup s : list Key * st := (backup s, set_backup [] false s).
Definition has_backup_keys s : bool := has_backup s && negb (match backup s with [] => true | _ => false end).

(** ** Draining a ring *)

(** [drain()] on thread [t]. *)
Definition drain t s : list Key * st :=
  let '(cap, s) := snapshot_capacity t s in
  let th := instance t s in
  let count := pending_count (buf th) in
  if count =? 0 then ([], s)
  else
    let '(th, s) :=
      if cap <? count then (with_counts (u64 (dropped_count th + 1)) (tls_pending_backlog th) th, set_dropped (u64 (total_dropped s + (count - cap))) s)
      else (th, s) in
    let '(out, r) := drain_clamped cap moved (buf th) in
    let count := if cap <? count then cap else count in
    let s := if 0 <? tls_pending_backlog th then set_backlog (u64 (total_backlog s + tls_pending_backlog th)) s else s in
    let th := with_counts (dropped_count th) 0 (with_buf r th) in
    let s := set_backlog (if count <=? total_backlog s then total_backlog s - count else 0) s in
    (out, put t th s).

Definition empty t s : bool := negb (has_pending (buf (instance t s))).

(** A drop of the oldest key, when the ring is over its capacity. *)
Definition drop_oldest cap t s : st :=
  let th := instance t s in
  let r := buf th in
  put t (with_counts (u64 (dropped_count th + 1)) (tls_pending_backlog th) (with_buf (Ring (slots r) (head r) (u64 (head r - cap))) th))
    (set_dropped (u64 (total_dropped s + 1)) s).

(** [None] is the failed assertion of [kAssertOnFull]. *)
Definition apply_overflow_policy t s : option (list Key * st) :=
  let cfg := config_of t s in
  let '(cap, s) := snapshot_capacity t s in
  match full_policy cfg with
  | kSilentDrop => Some ([], drop_oldest cap t s)
  | kFlushOnFull =>
      let '(out, s) := match flush_callback cfg with Some cb => run_callback cb t s | None => ([], s) end in
      Some (out, if cap <? pending_count (buf (instance t s)) then drop_oldest cap t s else s)
  | kAssertOnFull => None
  end.

(** ** Recording *)

Definition heartbeat now t s : st :=
  let th := instance t s in
  let skip := heartbeat_skip th in
  put t (with_activity (if Z.land skip (kHeartbeatInterval - 1) =? 0 then now else last_activity_ns th) (u32 (skip + 1)) th) s.

(** A pending flush request is served first. *)
Definition serve_request t s : st :=
  let th := instance t s in
  if needs_flush th then
    let '(keys, s) := drain t (put t (with_flush false th) s) in
    let s := push_to_backup keys s in
    if 0 <? pending_drain_count s then set_pending (pending_drain_count s - 1) s else s
  else s.

Definition count_backlog t s : st :=
  let th := instance t s in
  let pending := u64 (tls_pending_backlog th + 1) in
  if Z.land pending (kBacklogFlushBatch - 1) =? 0 then
    put t (with_counts (dropped_count th) 0 th) (set_backlog (u64 (total_backlog s + pending)) s)
  else put t (with_counts (dropped_count th) pending th) s.

Definition auto_drain cap t s : st :=
  let th := instance t s in
  let raw := auto_drain_threshold (config_of t s) in
  let threshold := if cap <? raw then cap else raw in
  if (threshold <? cap) && (threshold <=? pending_count (buf th)) then
    let '(keys, s) := drain t (set_flush_count (u64 (flush_count s + 1)) s) in push_to_backup keys s
  else s.

(** [record_access], and [record_miss], which is the same; the keys are those the
    flush callback took. *)
Definition record_access now t (key : Key) s : option (list Key * st) :=
  let s := register t s in
  let '(cap, s) := snapshot_capacity t s in
  let s := serve_request t (heartbeat now t s) in
  let th := instance t s in
  let s := count_backlog t (put t (with_buf (write_slot cap key (buf th)) th) s) in
  '(out, s) ← (if cap <? pending_count (buf (instance t s)) then apply_overflow_policy t s else Some ([], s));
  Some (out, auto_drain cap t s).

Definition reset t s : st :=
  let s := register t s in
  let th := instance t s in put t (with_cap 0 (with_buf (reset_ring (buf th)) th)) s.

(** ** Other threads *)

Fixpoint request_flush t (ts : list Z) s : st :=
  match ts with
  | [] => s
  | t' :: ts =>
      request_flush t ts
        (if t' =? t then s
         else match threads s !! t' with
              | Some th => if needs_flush th then s else set_pending (u64 (pending_drain_count s + 1)) (put t' (with_flush true th) s)
              | None => s
              end)
  end.

Definition drain_all_threads t s : list Key * st :=
  let '(bs, s) := drain_backup s in
  let s := register t s in
  let '(ks, s) := if empty t s then ([], s) else drain t s in
  (bs ++ ks, request_flush t (ring_registry s) s).

(** [drain_all_threads_sync]: the requests, whose result it throws away, and one
    look at the counter; [None] is another round of the wait. *)
Definition sync_request t s : st := (drain_all_threads t s).2.
Definition sync_poll (expired : bool) s : option bool := if pending_drain_count s =? 0 then Some true else if expired then Some false else None.

(** The read of a dormant ring: its keys and the ring after it, or nothing when
    the positions do not validate. *)
Definition steal_dormant now threshold_ns th s : option (list Key * thread Key * Z) :=
  if last_activity_ns th =? 0 then None
  else if u64 (now - last_activity_ns th) <? threshold_ns then None
  else
    let r := buf th in
    let count := pending_count r in
    if count =? 0 then None
    else
      let cap := if (per_thread_cap th =? 0) || (kRingSize <? per_thread_cap th) then clamp_capacity (runtime_capacity s) else per_thread_cap th in
      let '(dropped, count, tail1) := if cap <? count then (count - cap, cap, u64 (head r - cap)) else (0, count, tail r) in
      let batch := (read_loop cap id (Z.to_nat count) (Z.land tail1 (cap - 1)) (slots r)).1 in
      if negb (tail1 =? tail r) then None
      else Some (batch, with_buf (Ring (slots r) (head r) (head r)) th, dropped).

Fixpoint flush_dormant now threshold_ns t (ts : list Z) s : Z * list Key * st :=
  match ts with
  | [] => (0, [], s)
  | t' :: ts =>
      if t' =? t then flush_dormant now threshold_ns t ts s
      else
        match threads s !! t' ≫= fun th => steal_dormant now threshold_ns th s with
        | None => flush_dormant now threshold_ns t ts s
        | Some (batch, th, dropped) =>
            let s := put t' th s in
            let s := if 0 <? dropped then set_dropped (u64 (total_dropped s + dropped)) s else s in
            let '(c, ks, s) := flush_dormant now threshold_ns t ts s in (c + 1, batch ++ ks, s)
        end
  end.

Definition force_flush_dormant_threads now idle_ms t s : Z * st :=
  let '(c, ks, s) := flush_dormant now (u64 (idle_ms * 1000000)) t (ring_registry s) s in (c, push_to_backup ks s).

(** The sentinel of a thread that has a ring: a request is answered, the keys
    that are left are saved; then the [thread_local] members go. *)
Definition clear_request t th s : st :=
  if needs_flush th then
    let s := put t (with_flush false th) s in
    if 0 <? pending_drain_count s then set_pending (pending_drain_count s - 1) s else s
  else s.
Definition save_rest t s : st := if empty t s then s else let '(keys, s) := drain t s in push_to_backup keys s.

Definition thread_exit t s : st :=
  match threads s !! t with
  | None => s
  | Some th =>
      let s := save_rest t (clear_request t th s) in
      set_active t None (set_threads (delete t (threads s)) (set_registry (filter (fun t' => t' <> t) (ring_registry s)) s))
  end.

(** ** Observers and counters *)

Definition should_flush t s : bool := let th := instance t s in effective_capacity th s * 3 / 4 <=? pending_count (buf th).
Definition backlog t s : Z := u64 (total_backlog s + tls_pending_backlog (instance t s)).

(** ** Runs *)

Definition access_init : st := AccessState ∅ [] [] false 0 0 0 0 kRingSize (TlsRingConfig kFlushOnFull (kRingSize / 2) None) ∅ ∅.

Inductive access_op :=
  | Record_ (t now : Z) (key : Key) | Drain (t : Z) | DrainBackup | HasBackup | Reset_ (t : Z) | DrainAll (t : Z) | SyncRequest (t : Z)
  | SyncPoll (expired : bool) | ForceFlush (t now idle_ms : Z) | ThreadExit (t : Z) | SetPolicy (p : tls_ring_full_policy) | SetThreshold (n : Z)
  | SetCapacity (n : Z) | SetCallback (cb : option CB) | SetConfig (c : Z) (cfg : tls_ring_config CB) | SetActive (t : Z) (c : option Z)
  | DrainDropped | DrainFlushCount | Size_ (t : Z) | ShouldFlush (t : Z) | Backlog (t : Z).

Inductive access_result := RUnit | RKeys (keys : list Key) | RBool (b : bool) | ROptBool (b : option bool) | RNumber (n : Z).

Definition run_op (o : access_op) s : option (access_result * st) :=
  match o with
  | Record_ t now key => '(keys, s) ← record_access now t key s; Some (RKeys keys, s)
  | Drain t => let '(keys, s) := drain t (register t s) in Some (RKeys keys, s)
  | DrainBackup => let '(keys, s) := drain_backup s in Some (RKeys keys, s)
  | HasBackup => Some (RBool (has_backup_keys s), s)
  | Reset_ t => Some (RUnit, reset t s)
  | DrainAll t => let '(keys, s) := drain_all_threads t s in Some (RKeys keys, s)
  | SyncRequest t => Some (RUnit, sync_request t s)
  | SyncPoll expired => Some (ROptBool (sync_poll expired s), s)
  | ForceFlush t now idle_ms => let '(c, s) := force_flush_dormant_threads now idle_ms t s in Some (RNumber c, s)
  | ThreadExit t => Some (RUnit, thread_exit t s)
  | SetPolicy p => Some (RUnit, set_full_policy p s)
  | SetThreshold n => Some (RUnit, set_tls_drain_threshold n s)
  | SetCapacity n => Some (RUnit, set_tls_ring_capacity n s)
  | SetCallback cb => Some (RUnit, set_flush_callback cb s)
  | SetConfig c cfg => Some (RUnit, set_config c cfg s)
  | SetActive t c => Some (RUnit, set_active t c s)
  | DrainDropped => Some (RNumber (total_dropped s), set_dropped 0 s)
  | DrainFlushCount => Some (RNumber (flush_count s), set_flush_count 0 s)
  | Size_ t => let s := register t s in Some (RNumber (pending_count (buf (instance t s))), s)
  | ShouldFlush t => let s := register t s in Some (RBool (should_flush t s), s)
  | Backlog t => Some (RNumber (backlog t s), s)
  end.

Fixpoint run (ops : list access_op) s : option (list access_result * st) :=
  match ops with
  | [] => Some ([], s)
  | o :: ops => '(r, s) ← run_op o s; '(rs, s) ← run ops s; Some (r :: rs, s)
  end.
End access.

#[global] Arguments access_op : clear implicits.
#[global] Arguments access_result : clear implicits.

(** What [drain_access_ring] of cache_trait.hpp, the callback a thread-safe cache
    installs, does to the rings when every promotion gets its lock: it takes the
    keys of the backup first, then those of the ring of the thread. The result is
    the keys taken; the cache removes the duplicates of a batch of more than 64
    before it promotes them. *)
Definition drain_access_ring {Key CB : Type} `{Inhabited Key} (kRingSize : Z) (moved : Key -> Key) (t : Z) (s : access_state Key CB) :
    list Key * access_state Key CB :=
  let '(bs, s) := if has_backup_keys s then drain_backup s else ([], s) in
  let s := register kRingSize t s in
  if empty kRingSize t s then (bs, s) else let '(ks, s) := drain kRingSize moved t s in (bs ++ ks, s).
