(* ===== verification/TlsAccessInv.v ===== *)
(** The invariant of the access rings and the accounting of their keys: one lemma
    per operation, the theorems, and what the code loses. *)

From S2P Require Import Prelude HashTable HashTableInv TlsRing TlsAccess.

Lemma access_next_pow2_spec n : 0 <= n <= 2 ^ 63 -> next_pow2 n = 2 ^ Z.log2_up n.
Proof.
  intros Hn. pose proof (next_power_of_two_spec n ltac:(lia)) as E. rewrite (proj2 (Z.leb_le _ _) (proj2 Hn)) in E. rewrite <- E.
  unfold next_pow2, next_power_of_two. destruct (Z.leb_spec n 1); [|by rewrite (proj2 (Z.eqb_neq _ _)) by lia].
  assert (n = 0 \/ n = 1) as [->| ->] by lia; done.
Qed.

Section access.
Context {Key CB : Type} `{Inhabited Key} (N k : Z) (Hk : 0 <= k < 63) (HN : N = 2 ^ k) (moved : Key -> Key).
Abbreviation st := (access_state Key CB).
Implicit Types (s : st) (th : thread Key) (t : Z) (r : ring Key) (q : list Key).

(** * Rings over their capacity *)

Definition cap_ok (c : Z) : Prop := exists j, 0 <= j <= k /\ c = 2 ^ j.

Lemma cap_pos c : cap_ok c -> 0 < c <= N.
Proof. intros (j & Hj & ->). rewrite HN. split; [apply Z.pow_pos_nonneg; lia|apply Z.pow_le_mono_r; lia]. Qed.

Lemma size_ok : cap_ok N.
Proof. exists k. split; [lia|done]. Qed.

(** What a drain sees: the latest [cap] entries. *)
Definition clamped cap r : ring Key := if cap <? pending_count r then Ring (slots r) (head r) (u64 (head r - cap)) else r.

Lemma clamped_same cap r q : cap_ok cap -> ring_ok cap r q -> clamped cap r = r.
Proof.
  intros (j & Hj & E) Hr. unfold clamped. rewrite (ring_count cap j ltac:(lia) E r q Hr). by rewrite (proj2 (Z.ltb_ge _ _) (rg_fits _ _ _ Hr)).
Qed.

Lemma drain_visible (mv : Key -> Key) cap r q : cap_ok cap -> ring_ok cap (clamped cap r) q ->
  exists l, drain_clamped cap mv r = (q, Ring l (head r) (if pending_count r =? 0 then tail r else head r)) /\ length l = length (slots r) /\
    ring_ok cap (Ring l (head r) (if pending_count r =? 0 then tail r else head r)) [].
Proof.
  intros Hcap Hr. pose proof (cap_pos cap Hcap) as Hc. destruct Hcap as (j & Hj & E). assert (0 <= j < 64) as Hj' by lia. unfold clamped in Hr. unfold drain_clamped.
  destruct (Z.ltb_spec cap (pending_count r)) as [Hlt|Hge].
  - rewrite !(proj2 (Z.eqb_neq (pending_count r) 0)) by lia.
    assert (Z.of_nat (length q) = cap) as Hq.
    { pose proof (ring_count cap j Hj' E _ _ Hr) as Hc'. unfold pending_count in Hc'. cbn [head tail] in Hc'. rewrite <- Hc'.
      pose proof (capacity_lt cap j Hj' E). unfold wrap. rewrite Zminus_mod_idemp_r. replace (head r - (head r - cap)) with cap by lia. apply Z.mod_small. lia. }
    destruct (read_loop_ok cap j Hj' E mv q (Z.land (u64 (head r - cap)) (cap - 1)) (slots r)) as [H1 H2]; [lia|apply Hr|intros; rewrite (slot_land cap j) by done; by apply Hr|].
    destruct (read_all_ok cap j Hj' E mv _ q Hr) as (l & Hl & Hok). cbn [slots tail head] in Hl, Hok. rewrite <- Hq, Nat2Z.id, Hq, Hl. exists l. rewrite Hl in H2. cbn in H2. done.
  - rewrite (ring_count cap j Hj' E r q Hr). destruct (Z.eqb_spec (Z.of_nat (length q)) 0) as [Hz|Hz].
    + destruct q; [|cbn in Hz; lia]. exists (slots r). destruct r as [l h tl]. cbn in *. done.
    + destruct (read_loop_ok cap j Hj' E mv q (Z.land (tail r) (cap - 1)) (slots r)) as [H1 H2]; [apply Hr|apply Hr|intros; rewrite (slot_land cap j) by done; by apply Hr|].
      destruct (read_all_ok cap j Hj' E mv r q Hr) as (l & Hl & Hok). rewrite Nat2Z.id, Hl. exists l. rewrite Hl in H2. cbn in H2. done.
Qed.

(** The keys a drain of the thread would return. *)
Definition keys_of th : list Key := if per_thread_cap th =? 0 then [] else (drain_clamped (per_thread_cap th) id (buf th)).1.
Definition pending th : Z := pending_count (buf th).
Definition requested th : Z := if needs_flush th then 1 else 0.

(** A well-formed thread; [over] allows one key too many. *)
Record wf_thread (over : bool) th : Prop := {
  wt_slots : N <= Z.of_nat (length (slots (buf th)));
  wt_zero : per_thread_cap th = 0 -> ring_ok N (buf th) [];
  wt_cap : per_thread_cap th <> 0 -> cap_ok (per_thread_cap th) /\ ring_ok (per_thread_cap th) (clamped (per_thread_cap th) (buf th)) (keys_of th) /\
    pending th <= per_thread_cap th + (if over then 1 else 0)
}.

(** A thread with capacity [c] whose drain would return [q]. *)
Lemma wf_intro (over : bool) th c q : per_thread_cap th = c -> cap_ok c -> N <= Z.of_nat (length (slots (buf th))) -> ring_ok c (clamped c (buf th)) q ->
  pending th <= c + (if over then 1 else 0) -> wf_thread over th /\ keys_of th = q.
Proof.
  intros Ec Hc Hl Hr Hp. pose proof (cap_pos c Hc). assert (keys_of th = q) as Ek.
  { unfold keys_of. rewrite Ec, (proj2 (Z.eqb_neq c 0)) by lia. destruct (drain_visible id c (buf th) q Hc Hr) as (l & -> & _). done. }
  split; [|done]. split; [done|lia|]. intros _. rewrite Ec, Ek. done.
Qed.

Lemma wf_weaken th : wf_thread false th -> forall over, wf_thread over th.
Proof. intros [H1 H2 H3] over. split; [done|done|]. intros Hne. destruct (H3 Hne) as (A & B & C). split_and!; [done|done|]. destruct over; lia. Qed.

Lemma pending_keys th : wf_thread false th -> pending th = Z.of_nat (length (keys_of th)).
Proof.
  intros [H1 H2 H3]. unfold pending. destruct (Z.eq_dec (per_thread_cap th) 0) as [E|E].
  - unfold keys_of. rewrite E. cbn. exact (ring_count N k ltac:(lia) HN _ _ (H2 E)).
  - destruct (H3 E) as (Hc & Hr & Hp). pose proof Hc as (j & Hj & Ej). unfold clamped in Hr. unfold pending in Hp. rewrite Z.add_0_r in Hp.
    rewrite (proj2 (Z.ltb_ge _ _) Hp) in Hr. exact (ring_count _ j ltac:(lia) Ej _ _ Hr).
Qed.

(** * The state *)

(** Thread [o], if any, may be over its capacity. *)
Record inv (o : option Z) s : Prop := {
  iv_threads : forall t th, threads s !! t = Some th -> wf_thread (bool_decide (o = Some t)) th;
  iv_capacity : cap_ok (runtime_capacity s);
  iv_registry : NoDup (ring_registry s) /\ forall t, t ∈ ring_registry s <-> is_Some (threads s !! t);
  iv_requests : pending_drain_count s = tsum requested (threads s);
  iv_numbers : forall t, is_Some (threads s !! t) -> 0 <= t < 2 ^ 63
}.

Definition held s : list Key := tkeys keys_of (threads s) ++ backup s.
Definition account s : Z := tsum pending (threads s) + Z.of_nat (length (backup s)) + total_dropped s.

Definition settings s := (defaults s, configs s, active_config s).

(** From [s] to [s'], [out] is handed out and [new] comes in: no key appears from
    nowhere, what is lost is counted as dropped, and the settings stay. *)
Record moves s (out : list Key) s' (new : list Key) : Prop := {
  mv_keys : held s' ++ out ⊆+ held s ++ new;
  mv_count : u64 (account s' + Z.of_nat (length out)) = u64 (account s + Z.of_nat (length new));
  mv_settings : settings s' = settings s
}.

Lemma wrap_cong a b c d : u64 a = u64 b -> u64 c = u64 d -> u64 (a + c) = u64 (b + d).
Proof. unfold wrap. intros E1 E2. by rewrite Z.add_mod, E1, E2, <- Z.add_mod by lia. Qed.

Lemma wrap_cancel x y z : u64 (x + z) = u64 (y + z) -> u64 x = u64 y.
Proof. unfold wrap. intros E. replace x with ((x + z) - z) by lia. replace y with ((y + z) - z) by lia. by rewrite Zminus_mod, E, <- Zminus_mod. Qed.

Lemma moves_refl s : moves s [] s [].
Proof. by split. Qed.

Lemma moves_same s s' : threads s' = threads s -> backup s' = backup s -> total_dropped s' = total_dropped s -> settings s' = settings s -> moves s [] s' [].
Proof. intros E1 E2 E3 E4. split; [| |done]; unfold held, account; by rewrite E1, E2, ?E3. Qed.

Lemma moves_trans s o1 s1 n1 o2 s2 n2 : moves s o1 s1 n1 -> moves s1 o2 s2 n2 -> moves s (o1 ++ o2) s2 (n1 ++ n2).
Proof.
  intros [K1 C1 S1] [K2 C2 S2]. split; [| |congruence].
  - transitivity ((held s1 ++ o1) ++ n2); [|by rewrite app_assoc; apply submseteq_skips_r].
    transitivity ((held s1 ++ n2) ++ o1); [|apply Permutation_submseteq; solve_Permutation].
    transitivity ((held s2 ++ o2) ++ o1); [apply Permutation_submseteq; solve_Permutation|by apply submseteq_skips_r].
  - rewrite !length_app. pose proof (wrap_cong _ _ _ _ C1 C2) as Hw.
    apply (wrap_cancel _ _ (account s1)). etransitivity; [|etransitivity; [exact Hw|]]; f_equal; lia.
Qed.

(** Keys that go out and come in again. *)
Lemma moves_cancel s l s' : moves s l s' l -> moves s [] s' [].
Proof.
  intros [K C S]. split; [| |done]; rewrite ?app_nil_r in *.
  - by apply submseteq_app_inv_r in K.
  - cbn. rewrite !Z.add_0_r. by eapply wrap_cancel.
Qed.

Lemma instance_eq t s th : threads s !! t = Some th -> instance N t s = th.
Proof. intros E. unfold instance. by rewrite E. Qed.

Lemma put_lookup t th s : threads (put t th s) !! t = Some th.
Proof. apply lookup_insert_eq. Qed.

Lemma put_put t th th' s : put t th' (put t th s) = put t th' s.
Proof. unfold put, set_threads. cbn. by rewrite insert_insert_eq. Qed.

(** A change of one thread. *)
Lemma moves_put s t th th' out new : threads s !! t = Some th -> keys_of th' ++ out ⊆+ keys_of th ++ new ->
  pending th' + Z.of_nat (length out) = pending th + Z.of_nat (length new) -> moves s out (put t th' s) new.
Proof.
  intros Ht Hkeys Hp. split; [| |done].
  - unfold held. cbn [threads put set_threads backup]. apply (submseteq_app_inv_l _ _ (keys_of th)).
    pose proof (tkeys_put keys_of (threads s) t th th' Ht) as Hk'.
    transitivity ((tkeys keys_of (<[t:=th']> (threads s)) ++ keys_of th) ++ backup s ++ out); [apply Permutation_submseteq; solve_Permutation|]. rewrite Hk'.
    transitivity ((tkeys keys_of (threads s) ++ backup s) ++ (keys_of th' ++ out)); [apply Permutation_submseteq; solve_Permutation|].
    transitivity ((tkeys keys_of (threads s) ++ backup s) ++ (keys_of th ++ new)); [by apply submseteq_skips_l|apply Permutation_submseteq; solve_Permutation].
  - unfold account. cbn [threads put set_threads backup total_dropped]. pose proof (tsum_put pending (threads s) t th th' Ht). f_equal. lia.
Qed.

Lemma inv_put o o' s t th th' : inv o s -> (o = None \/ o = Some t) -> (o' = None \/ o' = Some t) -> threads s !! t = Some th ->
  wf_thread (bool_decide (o' = Some t)) th' -> needs_flush th' = needs_flush th -> inv o' (put t th' s).
Proof.
  intros [I1 I2 [I3 I4] I5 I6] Ho Ho' Ht Hw Hf. split.
  - intros t' x Hx. cbn in Hx. destruct (decide (t' = t)) as [->|Hne]; [rewrite lookup_insert_eq in Hx; by injection Hx as <-|].
    rewrite lookup_insert_ne in Hx by done. specialize (I1 t' x Hx). rewrite bool_decide_false in I1 by (destruct Ho; naive_solver). by apply wf_weaken.
  - done.
  - split; [done|]. intros t'. rewrite I4. cbn. destruct (decide (t' = t)) as [->|Hne]; [rewrite lookup_insert_eq, Ht; by split; eauto|]. by rewrite lookup_insert_ne.
  - cbn. rewrite I5. pose proof (tsum_put requested (threads s) t th th' Ht) as E. unfold requested in *. rewrite Hf in E. lia.
  - intros t' [x Hx]. cbn in Hx. destruct (decide (t' = t)) as [->|Hne]; [apply I6; eauto|]. rewrite lookup_insert_ne in Hx by done. apply I6. eauto.
Qed.

(** Changes that leave the rings and the requests alone. *)
Lemma inv_same o s s' : inv o s -> threads s' = threads s -> ring_registry s' = ring_registry s -> runtime_capacity s' = runtime_capacity s ->
  pending_drain_count s' = pending_drain_count s -> inv o s'.
Proof. intros [I1 I2 I3 I4 I5] E1 E2 E3 E4. split; rewrite ?E1, ?E2, ?E3, ?E4; done. Qed.

(** A thread that changes in other members than its ring, capacity and request. *)
Lemma touch_ok o s t th th' : inv o s -> (o = None \/ o = Some t) -> threads s !! t = Some th -> buf th' = buf th -> per_thread_cap th' = per_thread_cap th ->
  needs_flush th' = needs_flush th -> inv o (put t th' s) /\ moves s [] (put t th' s) [].
Proof.
  intros Hi Ho Ht E1 E2 E3. assert (keys_of th' = keys_of th) as Ek by (unfold keys_of; by rewrite E1, E2).
  assert (pending th' = pending th) as Ep by (unfold pending; by rewrite E1). split.
  - apply (inv_put o o s t th th'); try done. destruct (iv_threads _ _ Hi t th Ht) as [W1 W2 W3]. split; rewrite ?E1, ?E2; [done..|]. by rewrite Ek, Ep.
  - apply (moves_put s t th th'); rewrite ?Ek, ?Ep; done.
Qed.

Lemma register_ok o s t : inv o s -> 0 <= t < 2 ^ 63 -> inv o (register N t s) /\ moves s [] (register N t s) [] /\ is_Some (threads (register N t s) !! t).
Proof.
  intros Hi Hb. unfold register. destruct (threads s !! t) as [th|] eqn:E; [split_and!; [done|apply moves_refl|eauto]|].
  assert (wf_thread false (thread_new N)) as Hw.
  { pose proof (cap_pos N size_ok). split; cbn; [rewrite length_replicate; lia| |done]. intros _. apply (ring_new_ok N k ltac:(lia) HN). }
  destruct Hi as [I1 I2 [I3 I4] I5 I6]. split_and!.
  - split; cbn.
    + intros t' x Hx. destruct (decide (t' = t)) as [->|Hne]; [rewrite lookup_insert_eq in Hx; injection Hx as <-; by apply wf_weaken|].
      rewrite lookup_insert_ne in Hx by done. by apply I1.
    + done.
    + split.
      * apply NoDup_app. split; [done|]. split; [|apply NoDup_singleton]. intros x Hx ->%list_elem_of_singleton. apply I4 in Hx as [? ?]. congruence.
      * intros t'. rewrite elem_of_app, I4, list_elem_of_singleton. destruct (decide (t' = t)) as [->|Hne]; [rewrite lookup_insert_eq; naive_solver|].
        rewrite lookup_insert_ne by done. naive_solver.
    + rewrite tsum_new by done. cbn. lia.
    + intros t' [x Hx]. destruct (decide (t' = t)) as [->|Hne]; [done|]. rewrite lookup_insert_ne in Hx by done. apply I6. eauto.
  - split; [| |done]; unfold held, account; cbn.
    + rewrite tkeys_new by done. cbn. done.
    + rewrite tsum_new by done. cbn. f_equal.
  - cbn. rewrite lookup_insert_eq. eauto.
Qed.

(** * Draining *)

Lemma effective_ok o s t th : inv o s -> threads s !! t = Some th -> cap_ok (effective_capacity N th s) /\ effective_capacity N th s <> 0.
Proof.
  intros Hi Ht. unfold effective_capacity. destruct (Z.eqb_spec (per_thread_cap th) 0) as [E|E]; cbn [negb].
  - pose proof (iv_capacity _ _ Hi) as Hc. pose proof (cap_pos _ Hc). unfold clamp_capacity.
    rewrite (proj2 (Z.eqb_neq (runtime_capacity s) 0)), (proj2 (Z.ltb_ge N (runtime_capacity s))) by lia. cbn [orb]. split; [done|lia].
  - destruct (iv_threads _ _ Hi t th Ht) as [_ _ W3]. destruct (W3 E) as (Hc & _). done.
Qed.

(** Storing the snapshot of the capacity. *)
Lemma snapshot_ok o s t th : inv o s -> (o = None \/ o = Some t) -> threads s !! t = Some th ->
  let c := effective_capacity N th s in
  snapshot_capacity N t s = (c, put t (with_cap c th) s) /\ inv o (put t (with_cap c th) s) /\ moves s [] (put t (with_cap c th) s) [] /\
  keys_of (with_cap c th) = keys_of th.
Proof.
  intros Hi Ho Ht c. unfold snapshot_capacity. rewrite (instance_eq t s th Ht). fold c. destruct (effective_ok o s t th Hi Ht) as [Hc Hc0]. fold c in Hc, Hc0.
  split; [done|]. destruct (Z.eq_dec (per_thread_cap th) 0) as [E|E].
  - destruct (iv_threads _ _ Hi t th Ht) as [W1 W2 _]. specialize (W2 E). pose proof (cap_pos c Hc).
    assert (ring_ok c (buf th) []) as Hr by (destruct W2 as [R1 R2 R3 R4 R5]; cbn in *; split; cbn; [lia|done|done|lia|done]).
    destruct (wf_intro (bool_decide (o = Some t)) (with_cap c th) c [] eq_refl Hc W1) as [Hw Ek].
    { cbn. by rewrite (clamped_same c (buf th) [] Hc Hr). }
    { unfold pending. cbn. destruct Hc as (j & Hj & Ej). rewrite (ring_count c j ltac:(lia) Ej _ _ Hr). cbn. destruct (bool_decide _); lia. }
    assert (keys_of th = []) as Ek' by (unfold keys_of; by rewrite E). split_and!; [|apply (moves_put s t th); rewrite ?Ek, ?Ek'; done|congruence].
    apply (inv_put o o s t th); try done.
  - assert (c = per_thread_cap th) as -> by (unfold c, effective_capacity; by rewrite (proj2 (Z.eqb_neq _ _) E)).
    destruct (touch_ok o s t th (with_cap (per_thread_cap th) th) Hi Ho Ht eq_refl eq_refl eq_refl) as [A B]. done.
Qed.

Lemma push_to_backup_ok o s l : inv o s -> inv o (push_to_backup l s) /\ moves s [] (push_to_backup l s) l.
Proof.
  intros Hi. unfold push_to_backup. destruct l as [|a l]; [split; [done|apply moves_refl]|]. split; [by eapply inv_same|].
  split; [| |done]; unfold held, account; cbn [threads backup set_backup total_dropped].
  - rewrite app_nil_r, app_assoc. done.
  - rewrite length_app. cbn [length]. f_equal. lia.
Qed.

Lemma push_threads l s : threads (push_to_backup l s) = threads s.
Proof. by destruct l. Qed.

(** The state after a drain that empties the ring to [r], with counters [d], [d']
    and [b]. *)
Lemma drained_ok o s t th c r d d' b : inv o s -> (o = None \/ o = Some t) -> threads s !! t = Some th -> cap_ok c ->
  N <= Z.of_nat (length (slots r)) -> ring_ok c r [] -> u64 d' = u64 (total_dropped s + (pending th - Z.of_nat (length (keys_of th)))) ->
  let th1 := with_cap c th in let th2 := with_counts d 0 (with_buf r th1) in let s' := put t th2 (set_backlog b (set_dropped d' (put t th1 s))) in
  inv None s' /\ moves s (keys_of th) s' [] /\ pending th2 = 0.
Proof.
  intros Hi Ho Ht Hc Hl Hok Hd th1 th2 s'. assert (pending_count r = 0) as Hr0 by (destruct Hc as (j & Hj & Ej); exact (ring_count c j ltac:(lia) Ej _ _ Hok)).
  destruct (wf_intro false th2 c [] eq_refl Hc Hl) as [Hw2 Ek2]; [cbn; by rewrite (clamped_same c r [] Hc Hok)|unfold pending; cbn; rewrite Hr0; pose proof (cap_pos c Hc); lia|].
  assert (s' = set_backlog b (set_dropped d' (put t th2 s))) as -> by (unfold s', put, set_threads, set_backlog, set_dropped; cbn; by rewrite insert_insert_eq).
  split_and!; [|split; [| |done]|unfold pending; exact Hr0].
  - eapply inv_same; [apply (inv_put o None s t th th2 Hi Ho (or_introl eq_refl) Ht Hw2 eq_refl)|done..].
  - rewrite app_nil_r. unfold held. cbn [threads set_backlog set_dropped put set_threads backup]. pose proof (tkeys_put keys_of (threads s) t th th2 Ht) as Hk'. rewrite Ek2, app_nil_r in Hk'.
    apply Permutation_submseteq. rewrite <- Hk'. solve_Permutation.
  - unfold account. cbn [threads set_backlog set_dropped put set_threads backup total_dropped length]. pose proof (tsum_put pending (threads s) t th th2 Ht) as Hp'.
    assert (pending th2 = 0) as E2 by exact Hr0.
    match goal with |- u64 ?x = u64 ?y => replace x with (d' + (x - d')) by lia;
      replace y with ((total_dropped s + (pending th - Z.of_nat (length (keys_of th)))) + (y - (total_dropped s + (pending th - Z.of_nat (length (keys_of th)))))) by lia end.
    apply wrap_cong; [done|]. f_equal. lia.
Qed.

(** [drain()] hands out what the ring holds and leaves it empty. *)
Lemma access_drain_ok o s t th : inv o s -> (o = None \/ o = Some t) -> threads s !! t = Some th ->
  exists s' th', drain N moved t s = (keys_of th, s') /\ inv None s' /\ moves s (keys_of th) s' [] /\
    threads s' = <[t := th']> (threads s) /\ needs_flush th' = needs_flush th /\ per_thread_cap th' = effective_capacity N th s /\ pending th' = 0.
Proof.
  intros Hi Ho Ht. destruct (snapshot_ok o s t th Hi Ho Ht) as (Es & Hi1 & Hm1 & Ek). destruct (effective_ok o s t th Hi Ht) as [Hc Hc0].
  set (c := effective_capacity N th s) in *. set (th1 := with_cap c th) in *. unfold drain. rewrite Es, (instance_eq t _ th1 (put_lookup t th1 s)).
  destruct (iv_threads _ _ Hi1 t th1 (put_lookup t th1 s)) as [W1 _ W3]. destruct (W3 Hc0) as (_ & Hr & Hp). change (per_thread_cap th1) with c in Hr, Hp.
  fold (pending th1). destruct (Z.eqb_spec (pending th1) 0) as [Ez|Ez].
  - assert (wf_thread false th1) as Hw by (split; [done|by intros|]; intros _; split_and!; [done|done|]; pose proof (cap_pos c Hc); change (per_thread_cap th1) with c; lia).
    assert (keys_of th = []) as E0 by (rewrite <- Ek; apply nil_length_inv; pose proof (pending_keys th1 Hw); lia).
    rewrite E0. exists (put t th1 s), th1. split_and!; try done. exact (inv_put o None s t th th1 Hi Ho (or_introl eq_refl) Ht Hw eq_refl).
  - destruct (drain_visible moved c (buf th1) (keys_of th1) Hc Hr) as (l & Ed & Hl & Hok). rewrite Ek in Ed. fold (pending th1) in Ed, Hok.
    rewrite (proj2 (Z.eqb_neq _ _) Ez) in Ed, Hok. set (r := Ring l (head (buf th1)) (head (buf th1))) in *.
    assert (Z.of_nat (length (keys_of th)) = if c <? pending th1 then c else pending th1) as Hlen.
    { rewrite <- Ek. destruct Hc as (j & Hj & Ej). rewrite <- (ring_count c j ltac:(lia) Ej _ _ Hr). unfold clamped, pending in *. destruct (Z.ltb_spec c (pending_count (buf th1))); [|done].
      unfold pending_count. cbn [head tail]. unfold wrap. rewrite Zminus_mod_idemp_r. pose proof (capacity_lt c j ltac:(lia) Ej).
      pose proof (cap_pos c (ex_intro _ j (conj Hj Ej))). replace (head (buf th1) - (head (buf th1) - c)) with c by lia. apply Z.mod_small. lia. }
    assert (N <= Z.of_nat (length (slots r))) as Hsl by (change (slots r) with l; lia).
    pose proof (fun d d' b => drained_ok o s t th c r d d' b Hi Ho Ht Hc Hsl Hok) as Hfin. cbv zeta in Hfin. fold th1 in Hfin.
    assert (pending th = pending th1) as Ep by done.
    destruct (Z.ltb_spec c (pending th1)) as [Hlt|Hge].
    + cbn [buf with_counts dropped_count tls_pending_backlog]. rewrite Ed.
      set (d := u64 (dropped_count th1 + 1)). set (d' := u64 (total_dropped (put t th1 s) + (pending th1 - c))).
      destruct (0 <? tls_pending_backlog th1); cbn [total_backlog set_backlog set_dropped];
        match goal with |- context [set_backlog (if ?z then ?x else 0) _] => set (b := if z then x else 0) end;
        (destruct (Hfin d d' b) as (A & B & C); [unfold d'; unfold wrap; rewrite Zmod_mod; f_equal; cbn; lia|]); (eexists _, _; split; [reflexivity|]; split_and!; [exact A|exact B|cbn; by rewrite insert_insert_eq|done|done|done]).
    + rewrite Ed.
      assert (put t th1 s = set_dropped (total_dropped s) (put t th1 s)) as Es' by (by destruct s).
      destruct (0 <? tls_pending_backlog th1); cbn [total_backlog set_backlog];
        match goal with |- context [set_backlog (if ?z then ?x else 0) _] => set (b := if z then x else 0) end;
        (destruct (Hfin (dropped_count th1) (total_dropped s) b) as (A & B & C); [f_equal; lia|]); (eexists _, _; split; [reflexivity|]; split_and!; [exact A|exact B|cbn; by rewrite insert_insert_eq|done|done|done]).
Qed.

(** A drain whose keys go to the backup. *)
Lemma drain_push_ok o s t th : inv o s -> (o = None \/ o = Some t) -> threads s !! t = Some th ->
  let '(keys, s1) := drain N moved t s in
  inv None (push_to_backup keys s1) /\ moves s [] (push_to_backup keys s1) [] /\
  exists th', threads (push_to_backup keys s1) = <[t := th']> (threads s) /\ needs_flush th' = needs_flush th /\
    per_thread_cap th' = effective_capacity N th s /\ pending th' = 0.
Proof.
  intros Hi Ho Ht. destruct (access_drain_ok o s t th Hi Ho Ht) as (s' & th' & -> & Hi' & Hm & Et & Ef & Ec & Ep).
  destruct (push_to_backup_ok None s' (keys_of th) Hi') as [Hi2 Hm2]. split; [done|]. split.
  - pose proof (moves_trans _ _ _ _ _ _ _ Hm Hm2) as Hall. rewrite app_nil_r in Hall. by apply moves_cancel in Hall.
  - exists th'. by rewrite push_threads.
Qed.

(** * Requests *)

(** A request that is set or served. *)
Lemma inv_request s t th (b : bool) : inv None s -> threads s !! t = Some th ->
  inv None (set_pending (pending_drain_count s + (if b then 1 else 0) - requested th) (put t (with_flush b th) s)) /\
  moves s [] (set_pending (pending_drain_count s + (if b then 1 else 0) - requested th) (put t (with_flush b th) s)) [].
Proof.
  intros [I1 I2 [I3 I4] I5 I6] Ht. split.
  - split; cbn.
    + intros t' x Hx. destruct (decide (t' = t)) as [->|Hne]; [|rewrite lookup_insert_ne in Hx by done; by apply I1].
      rewrite lookup_insert_eq in Hx. injection Hx as <-. destruct (I1 t th Ht) as [W1 W2 W3]. by split.
    + done.
    + split; [done|]. intros t'. rewrite I4. destruct (decide (t' = t)) as [->|Hne]; [rewrite lookup_insert_eq, Ht; by split; eauto|]. by rewrite lookup_insert_ne.
    + pose proof (tsum_put requested (threads s) t th (with_flush b th) Ht) as E. change (requested (with_flush b th)) with (if b then 1 else 0) in E. lia.
    + intros t' [x Hx]. destruct (decide (t' = t)) as [->|Hne]; [apply I6; eauto|]. rewrite lookup_insert_ne in Hx by done. apply I6. eauto.
  - destruct (moves_put s t th (with_flush b th) [] [] Ht) as [A B C]; [done|done|]. by split.
Qed.

Lemma requested_range th : 0 <= requested th <= 1.
Proof. unfold requested. destruct (needs_flush th); lia. Qed.

Lemma requested_pos s t th : inv None s -> threads s !! t = Some th -> needs_flush th = true -> 0 < pending_drain_count s.
Proof.
  intros Hi Ht Hf. rewrite (iv_requests _ _ Hi), (tsum_delete requested _ _ _ Ht). unfold requested at 1. rewrite Hf.
  pose proof (tsum_nonneg requested (delete t (threads s)) (fun a => proj1 (requested_range a))). lia.
Qed.

(** The requests outstanding are fewer than a word can count. *)
Lemma requests_bound s : inv None s -> 0 <= pending_drain_count s <= 2 ^ 63.
Proof.
  intros [_ _ [I3 I4] I5 I6]. rewrite I5. split; [apply tsum_nonneg; intros; apply requested_range|].
  etransitivity; [apply tsum_size; intros; apply requested_range|]. rewrite <- length_map_to_list, <- (length_fmap fst).
  assert ((map_to_list (threads s)).*1 ⊆+ seqZ 0 (2 ^ 63)) as Hsub.
  { apply NoDup_submseteq; [apply NoDup_fst_map_to_list|]. intros t Ht. apply elem_of_seqZ. apply list_elem_of_fmap in Ht as ([t' x] & -> & Hx).
    apply elem_of_map_to_list in Hx. cbn. pose proof (I6 t' ltac:(eauto)). lia. }
  apply submseteq_length in Hsub. rewrite length_seqZ in Hsub. lia.
Qed.

(** Draining and pushing do not look at the requests. *)
Lemma drain_set_pending t p s : drain N moved t (set_pending p s) = ((drain N moved t s).1, set_pending p (drain N moved t s).2).
Proof.
  unfold drain, snapshot_capacity. change (instance N t (set_pending p s)) with (instance N t s). set (th := instance N t s).
  change (effective_capacity N th (set_pending p s)) with (effective_capacity N th s). set (c := effective_capacity N th s).
  change (put t (with_cap c th) (set_pending p s)) with (set_pending p (put t (with_cap c th) s)). set (s1 := put t (with_cap c th) s).
  change (instance N t (set_pending p s1)) with (instance N t s1). set (th1 := instance N t s1). destruct (pending_count (buf th1) =? 0); [done|].
  destruct (c <? pending_count (buf th1)); cbn [buf with_counts]; (destruct (drain_clamped c moved (buf th1)) as [out r]); by destruct (0 <? tls_pending_backlog _).
Qed.

Lemma push_set_pending l p s : push_to_backup l (set_pending p s) = set_pending p (push_to_backup l s).
Proof. by destruct l. Qed.

Lemma serve_request_ok s t th : inv None s -> threads s !! t = Some th -> per_thread_cap th <> 0 ->
  exists th', inv None (serve_request N moved t s) /\ moves s [] (serve_request N moved t s) [] /\
    threads (serve_request N moved t s) !! t = Some th' /\ per_thread_cap th' = per_thread_cap th /\ pending th' <= pending th.
Proof.
  intros Hi Ht Hc. unfold serve_request. rewrite (instance_eq t s th Ht). destruct (needs_flush th) eqn:Ef; [|exists th; split_and!; [done|apply moves_refl|done..]].
  destruct (inv_request s t th false Hi Ht) as [Hi1 Hm1]. unfold requested in Hi1, Hm1. rewrite Ef in Hi1, Hm1.
  replace (pending_drain_count s + 0 - 1) with (pending_drain_count s - 1) in * by lia. set (s1 := set_pending _ _) in *.
  pose proof (requested_pos s t th Hi Ht Ef) as Hpos. set (th1 := with_flush false th) in *.
  assert (threads s1 !! t = Some th1) as Ht1 by apply lookup_insert_eq.
  pose proof (drain_push_ok None s1 t th1 Hi1 (or_introl eq_refl) Ht1) as Hd.
  change (put t th1 s) with (set_pending (pending_drain_count s) (put t th1 s)). unfold s1 in Hd. rewrite drain_set_pending in Hd. rewrite drain_set_pending.
  pose proof (push_set_pending (drain N moved t (put t th1 s)).1 (pending_drain_count s) (drain N moved t (put t th1 s)).2) as Ep1.
  pose proof (push_set_pending (drain N moved t (put t th1 s)).1 (pending_drain_count s - 1) (drain N moved t (put t th1 s)).2) as Ep2.
  rewrite Ep1. rewrite Ep2 in Hd. cbn [pending_drain_count set_pending]. rewrite (proj2 (Z.ltb_lt _ _) Hpos).
  change (set_pending ?p (set_pending _ ?x)) with (set_pending p x). destruct Hd as (A & B & th' & Et & _ & Ec & Ep). exists th'. split_and!; [done| |by rewrite Et, lookup_insert_eq| |].
  - pose proof (moves_trans _ _ _ _ _ _ _ Hm1 B). done.
  - rewrite Ec. unfold effective_capacity. cbn. by rewrite (proj2 (Z.eqb_neq _ _) Hc).
  - rewrite Ep. unfold pending, pending_count. apply wrap_range. lia.
Qed.

(** * Recording *)

Lemma heartbeat_ok now s t th : inv None s -> threads s !! t = Some th ->
  exists th', heartbeat N now t s = put t th' s /\ inv None (put t th' s) /\ moves s [] (put t th' s) [] /\
    per_thread_cap th' = per_thread_cap th /\ pending th' = pending th.
Proof.
  intros Hi Ht. unfold heartbeat. rewrite (instance_eq t s th Ht). set (th' := with_activity _ _ _). exists th'. split; [done|].
  destruct (touch_ok None s t th th' Hi (or_introl eq_refl) Ht eq_refl eq_refl eq_refl) as [A B]. split_and!; [exact A|exact B|done|done].
Qed.

Lemma count_backlog_ok o s t th : inv o s -> (o = None \/ o = Some t) -> threads s !! t = Some th ->
  exists th', inv o (count_backlog N t s) /\ moves s [] (count_backlog N t s) [] /\ threads (count_backlog N t s) !! t = Some th' /\
    per_thread_cap th' = per_thread_cap th /\ pending th' = pending th.
Proof.
  intros Hi Ho Ht. unfold count_backlog. rewrite (instance_eq t s th Ht). destruct (Z.land _ _ =? 0).
  - destruct (touch_ok o s t th (with_counts (dropped_count th) 0 th) Hi Ho Ht eq_refl eq_refl eq_refl) as [A B].
    eexists. split_and!; [by eapply inv_same| |apply lookup_insert_eq|done|done]. destruct B as [B1 B2 B3]. by split.
  - set (th' := with_counts _ _ _). exists th'. destruct (touch_ok o s t th th' Hi Ho Ht eq_refl eq_refl eq_refl) as [A B]. split_and!; [exact A|exact B|apply lookup_insert_eq|done|done].
Qed.

(** The write of a key, which may leave the ring one over. *)
Lemma write_ok s t th key : inv None s -> threads s !! t = Some th -> per_thread_cap th <> 0 ->
  let th' := with_buf (write_slot (per_thread_cap th) key (buf th)) th in
  inv (if per_thread_cap th <? pending th' then Some t else None) (put t th' s) /\ moves s [] (put t th' s) [key] /\ pending th' <= per_thread_cap th + 1.
Proof.
  intros Hi Ht Hc0 th'. set (c := per_thread_cap th) in *. destruct (iv_threads _ _ Hi t th Ht) as [W1 W2 W3]. destruct (W3 Hc0) as (Hc & Hr & Hp).
  fold c in Hc, Hr, Hp. pose proof (cap_pos c Hc) as Hpos. pose proof (pending_keys th ltac:(by split)) as Hpk. rewrite Z.add_0_r in Hp.
  assert (clamped c (buf th) = buf th) as Ecl by (unfold clamped; unfold pending in Hp; by rewrite (proj2 (Z.ltb_ge _ _) Hp)). rewrite Ecl in Hr.
  pose proof Hc as (j & Hj & Ej). assert (0 <= j < 64) as Hj' by lia.
  assert (N <= Z.of_nat (length (slots (buf th')))) as Hl by (cbn; by rewrite length_insert).
  destruct (decide (pending th = c)) as [Efull|Efull].
  - (* full: the oldest key is overwritten *)
    destruct (keys_of th) as [|a q] eqn:Eq; [cbn in Hpk; lia|].
    assert (pending th' = c + 1) as Ep'.
    { unfold pending, pending_count, th'. cbn [buf with_buf write_slot head tail]. rewrite (rg_head _ _ _ Hr), <- (Hpk : pending th = _), Efull. unfold wrap.
      rewrite Zplus_mod_idemp_l, Zminus_mod_idemp_l. pose proof (capacity_lt c j Hj' Ej). assert (c <= 2 ^ 62) by (rewrite Ej; apply Z.pow_le_mono_r; lia).
      replace (tail (buf th) + c + 1 - tail (buf th)) with (c + 1) by lia. apply Z.mod_small. lia. }
    pose proof (write_slot_ok c j Hj' Ej key _ q (drop_oldest_ok c j Hj' Ej (buf th) a q Hr) ltac:(cbn in Hpk; lia)) as Hw.
    assert (clamped c (buf th') = write_slot c key (Ring (slots (buf th)) (head (buf th)) (u64 (tail (buf th) + 1)))) as Ecl'.
    { unfold clamped. unfold pending in Ep'. rewrite Ep', (proj2 (Z.ltb_lt _ _)) by lia. unfold th', write_slot. cbn [buf with_buf slots head tail]. f_equal.
      rewrite (rg_head _ _ _ Hr), <- (Hpk : pending th = _), Efull. unfold wrap. rewrite Zplus_mod_idemp_l, Zminus_mod_idemp_l. f_equal. lia. }
    rewrite Ep', (proj2 (Z.ltb_lt _ _)) by lia.
    destruct (wf_intro true th' c (q ++ [key]) eq_refl Hc Hl) as [Hwf Ek]; [by rewrite Ecl'|cbn; lia|]. split_and!; [| |lia].
    + apply (inv_put None (Some t) s t th th' Hi (or_introl eq_refl) (or_intror eq_refl) Ht); [by rewrite bool_decide_true|done].
    + apply (moves_put s t th th'); [done| |cbn [length]; lia]. rewrite Ek, Eq, app_nil_r. cbn. by apply submseteq_cons.
  - assert (pending th < c) as Hlt by lia.
    pose proof (write_slot_ok c j Hj' Ej key (buf th) (keys_of th) Hr ltac:(lia)) as Hw.
    assert (pending th' = pending th + 1) as Ep' by (unfold pending at 1; cbn; rewrite (ring_count c j Hj' Ej _ _ Hw), length_app; cbn; lia).
    rewrite Ep', (proj2 (Z.ltb_ge c (pending th + 1))) by lia.
    destruct (wf_intro false th' c (keys_of th ++ [key]) eq_refl Hc Hl) as [Hwf Ek]; [cbn; by rewrite (clamped_same c _ _ Hc Hw)|lia|]. split_and!; [| |lia].
    + apply (inv_put None None s t th th' Hi (or_introl eq_refl) (or_introl eq_refl) Ht); done.
    + apply (moves_put s t th th'); [done| |cbn [length]; lia]. by rewrite Ek, app_nil_r.
Qed.

(** Dropping the oldest key of a ring that is one over. *)
Lemma drop_oldest_step s t th : inv (Some t) s -> threads s !! t = Some th -> per_thread_cap th <> 0 -> per_thread_cap th < pending th ->
  inv None (drop_oldest N (per_thread_cap th) t s) /\ moves s [] (drop_oldest N (per_thread_cap th) t s) [] /\
  exists th', threads (drop_oldest N (per_thread_cap th) t s) !! t = Some th' /\ per_thread_cap th' = per_thread_cap th.
Proof.
  intros Hi Ht Hc0 Hlt. unfold drop_oldest. rewrite (instance_eq t s th Ht). set (c := per_thread_cap th) in *.
  destruct (iv_threads _ _ Hi t th Ht) as [W1 W2 W3]. destruct (W3 Hc0) as (Hc & Hr & Hp). fold c in Hc, Hr, Hp. rewrite bool_decide_true in Hp by done.
  set (r := Ring (slots (buf th)) (head (buf th)) (u64 (head (buf th) - c))). set (th' := with_counts _ _ _).
  assert (clamped c (buf th) = r) as Ecl by (unfold clamped; unfold pending in Hlt; by rewrite (proj2 (Z.ltb_lt _ _) Hlt)). rewrite Ecl in Hr.
  pose proof Hc as (j & Hj & Ej). pose proof (cap_pos c Hc) as Hpos.
  assert (pending th' = c) as Ep.
  { unfold pending, pending_count, th', r. cbn [buf with_counts with_buf head tail]. unfold wrap. rewrite Zminus_mod_idemp_r. pose proof (capacity_lt c j ltac:(lia) Ej).
    replace (head (buf th) - (head (buf th) - c)) with c by lia. apply Z.mod_small. lia. }
  destruct (wf_intro false th' c (keys_of th) eq_refl Hc W1) as [Hwf Ek]; [cbn; by rewrite (clamped_same c r _ Hc Hr)|lia|].
  split_and!; [| |exists th'; split; [apply lookup_insert_eq|done]].
  - eapply inv_same; [apply (inv_put (Some t) None s t th th' Hi (or_intror eq_refl) (or_introl eq_refl) Ht Hwf eq_refl)|done..].
  - split; [| |done].
    + unfold held. cbn [threads put set_threads set_dropped backup]. rewrite !app_nil_r. apply submseteq_skips_r.
      pose proof (tkeys_put keys_of (threads s) t th th' Ht) as Hk'. rewrite Ek in Hk'. apply Permutation_submseteq. by apply Permutation_app_inv_r in Hk'.
    + unfold account. cbn [threads put set_threads set_dropped backup total_dropped length]. pose proof (tsum_put pending (threads s) t th th' Ht) as Hp'.
      match goal with |- u64 ?x = u64 ?y => replace x with (u64 (total_dropped s + 1) + (x - u64 (total_dropped s + 1))) by lia end.
      rewrite wrap_add_l by lia. f_equal. lia.
Qed.

(** * The contract of a flush callback

    It runs on a thread whose ring may be one over. It may take keys out of the
    rings and the backup, loses none without counting it, and leaves the capacity
    and the settings alone. *)
Class CallbackLaws (run_callback : CB -> Z -> st -> list Key * st) : Prop :=
  callback_ok : forall cb t s th, inv (Some t) s -> threads s !! t = Some th -> per_thread_cap th <> 0 ->
    exists out s' th', run_callback cb t s = (out, s') /\ inv (Some t) s' /\ moves s out s' [] /\ threads s' !! t = Some th' /\ per_thread_cap th' = per_thread_cap th.

Lemma inv_weaken t s : inv None s -> inv (Some t) s.
Proof. intros [I1 I2 I3 I4 I5]. split; [|done..]. intros t' th Ht. apply wf_weaken. exact (I1 t' th Ht). Qed.

Section callback.
Context (run_callback : CB -> Z -> st -> list Key * st) `{!CallbackLaws run_callback}.

(** A ring that is not over after all. *)
Lemma inv_settle s t th : inv (Some t) s -> threads s !! t = Some th -> pending th <= per_thread_cap th -> inv None s.
Proof.
  intros Hi Ht Hp. destruct Hi as [I1 I2 I3 I4 I5]. split; [|done..]. intros t' x Hx. specialize (I1 t' x Hx). destruct (decide (t' = t)) as [->|Hne].
  - assert (x = th) as -> by congruence. destruct I1 as [W1 W2 W3]. split; [done|done|]. intros Hc. destruct (W3 Hc) as (A & B & _). split_and!; [done|done|rewrite bool_decide_false by done; lia].
  - by rewrite bool_decide_false in I1 by congruence.
Qed.

Lemma overflow_ok s t th : inv (Some t) s -> threads s !! t = Some th -> per_thread_cap th <> 0 -> per_thread_cap th < pending th ->
  match apply_overflow_policy N run_callback t s with
  | Some (out, s') => inv None s' /\ moves s out s' [] /\ exists th', threads s' !! t = Some th' /\ per_thread_cap th' = per_thread_cap th
  | None => full_policy (config_of t s) = kAssertOnFull
  end.
Proof.
  intros Hi Ht Hc0 Hlt. unfold apply_overflow_policy. destruct (snapshot_ok (Some t) s t th Hi (or_intror eq_refl) Ht) as (-> & Hi1 & Hm1 & Ek).
  assert (effective_capacity N th s = per_thread_cap th) as Ec by (unfold effective_capacity; by rewrite (proj2 (Z.eqb_neq _ _) Hc0)). rewrite Ec in *.
  set (c := per_thread_cap th) in *. set (th1 := with_cap c th) in *. set (s1 := put t th1 s) in *. assert (threads s1 !! t = Some th1) as Ht1 by apply put_lookup.
  destruct (full_policy (config_of t s)); [| |done].
  - destruct (drop_oldest_step s1 t th1 Hi1 Ht1 Hc0 Hlt) as (A & B & C). split_and!; [done|exact (moves_trans _ _ _ _ _ _ _ Hm1 B)|done].
  - assert (exists out s2 th2, (match flush_callback (config_of t s) with Some cb => run_callback cb t s1 | None => ([], s1) end) = (out, s2) /\
      inv (Some t) s2 /\ moves s1 out s2 [] /\ threads s2 !! t = Some th2 /\ per_thread_cap th2 = c) as (out & s2 & th2 & -> & Hi2 & Hm2 & Ht2 & Ec2).
    { destruct (flush_callback (config_of t s)) as [cb|]; [by apply (callback_ok cb t s1 th1)|]. exists [], s1, th1. split_and!; [done|done|apply moves_refl|done|done]. }
    pose proof (moves_trans _ _ _ _ _ _ _ Hm1 Hm2) as Hm. cbn [app] in Hm. rewrite (instance_eq t s2 th2 Ht2). fold (pending th2). destruct (Z.ltb_spec c (pending th2)) as [Hover|Hfit].
    + rewrite <- Ec2. destruct (drop_oldest_step s2 t th2 Hi2 Ht2) as (A & B & C); [by rewrite Ec2|by rewrite Ec2|].
      pose proof (moves_trans _ _ _ _ _ _ _ Hm B) as Hm'. rewrite !app_nil_r in Hm'. split_and!; [done|done|by rewrite Ec2 in *].
    + split_and!; [by eapply (inv_settle s2 t th2); [..|lia]|done|eauto].
Qed.

Lemma auto_drain_ok s t th c : inv None s -> threads s !! t = Some th -> inv None (auto_drain N moved c t s) /\ moves s [] (auto_drain N moved c t s) [].
Proof.
  intros Hi Ht. unfold auto_drain. destruct (_ && _); [|split; [done|apply moves_refl]].
  assert (inv None (set_flush_count (u64 (flush_count s + 1)) s)) as Hi1 by (by eapply inv_same).
  pose proof (drain_push_ok None _ t th Hi1 (or_introl eq_refl) Ht) as Hd. destruct (drain N moved t _) as [keys s1]. destruct Hd as (A & [B1 B2 B3] & _). split; [done|by split].
Qed.

Lemma config_settings t s s' : settings s' = settings s -> config_of t s' = config_of t s.
Proof. unfold settings, config_of. intros E. injection E as E1 E2 E3. by rewrite E1, E2, E3. Qed.

Lemma access_record_access_ok now t key s : inv None s -> 0 <= t < 2 ^ 63 ->
  match record_access N moved run_callback now t key s with
  | Some (out, s') => inv None s' /\ moves s out s' [key]
  | None => full_policy (config_of t s) = kAssertOnFull
  end.
Proof.
  intros Hi Hb. unfold record_access. destruct (register_ok None s t Hi Hb) as (Hi1 & Hm1 & [th1 Ht1]). set (s1 := register N t s) in *.
  destruct (snapshot_ok None s1 t th1 Hi1 (or_introl eq_refl) Ht1) as (-> & Hi2 & Hm2 & _). destruct (effective_ok None s1 t th1 Hi1 Ht1) as [Hc Hc0].
  set (c := effective_capacity N th1 s1) in *. set (s2 := put t (with_cap c th1) s1) in *.
  destruct (heartbeat_ok now s2 t (with_cap c th1) Hi2 (put_lookup _ _ _)) as (th3 & -> & Hi3 & Hm3 & Ec3 & Ep3). set (s3 := put t th3 s2) in *. change (per_thread_cap th3 = c) in Ec3.
  destruct (serve_request_ok s3 t th3 Hi3 (put_lookup _ _ _)) as (th4 & Hi4 & Hm4 & Ht4 & Ec4 & Ep4); [by rewrite Ec3|]. set (s4 := serve_request N moved t s3) in *.
  rewrite Ec3 in Ec4. rewrite (instance_eq t s4 th4 Ht4). destruct (write_ok s4 t th4 key Hi4 Ht4) as (Hi5 & Hm5 & Hp5); [by rewrite Ec4|]. rewrite Ec4 in *.
  set (th5 := with_buf (write_slot c key (buf th4)) th4) in *. set (s5 := put t th5 s4) in *.
  assert ((if c <? pending th5 then Some t else None) = None \/ (if c <? pending th5 then Some t else None) = Some t) as Ho by (destruct (c <? _); auto).
  destruct (count_backlog_ok _ s5 t th5 Hi5 Ho (put_lookup _ _ _)) as (th6 & Hi6 & Hm6 & Ht6 & Ec6 & Ep6). set (s6 := count_backlog N t s5) in *.
  change (per_thread_cap th6 = per_thread_cap th4) in Ec6. rewrite Ec4 in Ec6.
  pose proof (moves_trans _ _ _ _ _ _ _ Hm1 (moves_trans _ _ _ _ _ _ _ Hm2 (moves_trans _ _ _ _ _ _ _ Hm3 (moves_trans _ _ _ _ _ _ _ Hm4
    (moves_trans _ _ _ _ _ _ _ Hm5 Hm6))))) as Hm. cbn [app] in Hm. rewrite (instance_eq t s6 th6 Ht6). fold (pending th6). rewrite Ep6.
  pose proof (config_settings t s s6 (mv_settings _ _ _ _ Hm)) as Ecfg.
  destruct (Z.ltb_spec c (pending th5)) as [Hlt|Hge].
  - pose proof (overflow_ok s6 t th6 Hi6 Ht6) as Hov. rewrite Ec6, Ep6 in Hov. specialize (Hov Hc0 Hlt). rewrite Ecfg in Hov.
    destruct (apply_overflow_policy N run_callback t s6) as [[out s7]|]; [|done]. destruct Hov as (Hi7 & Hm7 & th7 & Ht7 & _). cbn [mbind option_bind].
    destruct (auto_drain_ok s7 t th7 c Hi7 Ht7) as [Hi8 Hm8]. split; [done|].
    pose proof (moves_trans _ _ _ _ _ _ _ Hm (moves_trans _ _ _ _ _ _ _ Hm7 Hm8)) as Hall. cbn [app] in Hall. by rewrite !app_nil_r in Hall.
  - cbn [mbind option_bind]. destruct (auto_drain_ok s6 t th6 c Hi6 Ht6) as [Hi8 Hm8]. split; [done|]. exact (moves_trans _ _ _ _ _ _ _ Hm Hm8).
Qed.
End callback.

Abbreviation moves_trans' := (moves_trans _ _ _ _ _ _ _).

(** * Requests and drains between threads *)

Lemma request_flush_ok t ts : forall s, inv None s -> inv None (request_flush t ts s) /\ moves s [] (request_flush t ts s) [].
Proof.
  induction ts as [|t' ts IH]; intros s Hi; cbn [request_flush]; [split; [done|apply moves_refl]|]. destruct (t' =? t); [by apply IH|].
  destruct (threads s !! t') as [th|] eqn:Ht; [|by apply IH]. destruct (needs_flush th) eqn:Ef; [by apply IH|].
  destruct (inv_request s t' th true Hi Ht) as [Hi1 Hm1]. pose proof (requests_bound s Hi).
  rewrite (wrap_small 64 (pending_drain_count s + 1)) by lia. unfold requested in Hi1, Hm1. rewrite Ef in Hi1, Hm1.
  replace (pending_drain_count s + 1 - 0) with (pending_drain_count s + 1) in * by lia.
  destruct (IH _ Hi1) as [Hi2 Hm2]. split; [done|]. exact (moves_trans' Hm1 Hm2).
Qed.

Lemma access_drain_backup_ok s : inv None s -> inv None (drain_backup s).2 /\ moves s (backup s) (drain_backup s).2 [].
Proof.
  intros Hi. cbn [drain_backup snd]. split; [by eapply inv_same|]. split; [| |done]; unfold held, account; cbn [threads backup set_backup total_dropped length].
  - by rewrite !app_nil_r.
  - f_equal. lia.
Qed.

Lemma drain_if_ok s t th : inv None s -> threads s !! t = Some th ->
  exists ks s', (if empty N t s then ([], s) else drain N moved t s) = (ks, s') /\ inv None s' /\ moves s ks s' [].
Proof.
  intros Hi Ht. destruct (empty N t s); [exists [], s; split_and!; [done|done|apply moves_refl]|].
  destruct (access_drain_ok None s t th Hi (or_introl eq_refl) Ht) as (s' & th' & E & A & B & _). eauto 6.
Qed.

Lemma drain_all_ok t s : inv None s -> 0 <= t < 2 ^ 63 ->
  exists ks s', drain_all_threads N moved t s = (ks, s') /\ inv None s' /\ moves s ks s' [].
Proof.
  intros Hi Hb. unfold drain_all_threads. destruct (access_drain_backup_ok s Hi) as [Hi1 Hm1]. cbn [drain_backup snd] in Hi1, Hm1. unfold drain_backup.
  destruct (register_ok None _ t Hi1 Hb) as (Hi2 & Hm2 & [th Ht]). destruct (drain_if_ok _ t th Hi2 Ht) as (ks & s3 & -> & Hi3 & Hm3).
  destruct (request_flush_ok t (ring_registry s3) s3 Hi3) as [Hi4 Hm4]. eexists _, _. split; [done|]. split; [done|].
  pose proof (moves_trans' Hm1 (moves_trans' Hm2 (moves_trans' Hm3 Hm4))) as Hm. cbn [app] in Hm. by rewrite !app_nil_r in Hm.
Qed.

(** Reading a dormant ring takes exactly its keys. *)
Lemma steal_dormant_ok now ns s t th batch th' d : inv None s -> threads s !! t = Some th -> steal_dormant N now ns th s = Some (batch, th', d) ->
  d = 0 /\ inv None (put t th' s) /\ moves s batch (put t th' s) [].
Proof.
  intros Hi Ht E. unfold steal_dormant in E. destruct (last_activity_ns th =? 0); [done|]. destruct (_ <? ns); [done|].
  destruct (iv_threads _ _ Hi t th Ht) as [W1 W2 W3]. assert (wf_thread false th) as Hw by (by split).
  destruct (Z.eqb_spec (pending_count (buf th)) 0) as [Ez|Ez]; [done|]. destruct (Z.eq_dec (per_thread_cap th) 0) as [Ec|Ec].
  { exfalso. apply Ez. exact (ring_count N k ltac:(lia) HN _ _ (W2 Ec)). }
  destruct (W3 Ec) as (Hc & Hr & Hp). rewrite bool_decide_false, Z.add_0_r in Hp by done. pose proof (cap_pos _ Hc) as Hpos. set (c := per_thread_cap th) in *.
  rewrite (proj2 (Z.eqb_neq c 0)), (proj2 (Z.ltb_ge N c)) in E by lia. cbn [orb] in E. unfold pending in Hp. rewrite (proj2 (Z.ltb_ge c _) Hp), Z.eqb_refl in E. cbn [negb] in E.
  injection E as <- <- <-. split; [done|]. unfold clamped in Hr. rewrite (proj2 (Z.ltb_ge c _) Hp) in Hr. pose proof Hc as (j & Hj & Ej). assert (0 <= j < 64) as Hj' by lia.
  pose proof (ring_count c j Hj' Ej _ _ Hr) as Hcount. rewrite Hcount, Nat2Z.id. destruct (read_all_ok c j Hj' Ej id (buf th) (keys_of th) Hr) as (l & -> & _). cbn [fst].
  pose proof (reset_ring_ok c j Hj' Ej (buf th) (keys_of th) Hr) as Hr'. fold (reset_ring (buf th)). set (th' := with_buf (reset_ring (buf th)) th).
  assert (pending th' = 0) as Ep by exact (ring_count c j Hj' Ej _ _ Hr').
  destruct (wf_intro false th' c [] eq_refl Hc W1) as [Hw' Ek]; [cbn; by rewrite (clamped_same c _ _ Hc Hr')|lia|]. split.
  - exact (inv_put None None s t th th' Hi (or_introl eq_refl) (or_introl eq_refl) Ht Hw' eq_refl).
  - apply (moves_put s t th th'); [done|by rewrite Ek, app_nil_r|]. pose proof (pending_keys th Hw). cbn [length]. lia.
Qed.

Lemma flush_dormant_ok now ns t ts : forall s, inv None s -> exists c ks s', flush_dormant N now ns t ts s = (c, ks, s') /\ inv None s' /\ moves s ks s' [].
Proof.
  induction ts as [|t' ts IH]; intros s Hi; cbn [flush_dormant]; [exists 0, [], s; split_and!; [done|done|apply moves_refl]|]. destruct (t' =? t); [by apply IH|].
  destruct (threads s !! t') as [th|] eqn:Ht; cbn [mbind option_bind]; [|by apply IH]. destruct (steal_dormant N now ns th s) as [[[batch th'] d]|] eqn:E; [|by apply IH].
  destruct (steal_dormant_ok now ns s t' th batch th' d Hi Ht E) as (-> & Hi1 & Hm1). cbn [Z.ltb Z.compare]. destruct (IH _ Hi1) as (c & ks & s' & -> & Hi2 & Hm2).
  eexists _, _, _. split; [done|]. split; [done|]. exact (moves_trans' Hm1 Hm2).
Qed.

Lemma force_flush_ok now ms t s : inv None s -> inv None (force_flush_dormant_threads N now ms t s).2 /\ moves s [] (force_flush_dormant_threads N now ms t s).2 [].
Proof.
  intros Hi. unfold force_flush_dormant_threads. destruct (flush_dormant_ok now (u64 (ms * 1000000)) t (ring_registry s) s Hi) as (c & ks & s' & -> & Hi1 & Hm1).
  destruct (push_to_backup_ok None s' ks Hi1) as [Hi2 Hm2]. split; [done|]. pose proof (moves_trans' Hm1 Hm2) as Hm. rewrite app_nil_r in Hm. by apply moves_cancel in Hm.
Qed.

(** ** Exits and resets *)

(** A thread with an empty ring and no request goes. *)
Lemma delete_ok s t th a : inv None s -> threads s !! t = Some th -> pending th = 0 -> needs_flush th = false ->
  let s' := set_active t a (set_threads (delete t (threads s)) (set_registry (filter (fun t' => t' <> t) (ring_registry s)) s)) in
  inv None s' /\ held s' ⊆+ held s /\ account s' = account s.
Proof.
  intros [I1 I2 [I3 I4] I5 I6] Ht Hp Hf s'. split_and!.
  - split; cbn.
    + intros t' x Hx. destruct (decide (t' = t)) as [->|Hne]; [by rewrite lookup_delete_eq in Hx|]. rewrite lookup_delete_ne in Hx by done. exact (I1 t' x Hx).
    + done.
    + split; [by apply NoDup_filter|]. intros t'. rewrite list_elem_of_filter, I4. destruct (decide (t' = t)) as [->|Hne]; [rewrite lookup_delete_eq; split; [tauto|by intros [? ?]]|].
      rewrite lookup_delete_ne by done. tauto.
    + rewrite I5, (tsum_delete requested _ _ _ Ht). unfold requested at 1. rewrite Hf. lia.
    + intros t' [x Hx]. destruct (decide (t' = t)) as [->|Hne]; [by rewrite lookup_delete_eq in Hx|]. rewrite lookup_delete_ne in Hx by done. apply I6. eauto.
  - unfold held. cbn [threads backup s' set_active set_threads set_registry]. apply submseteq_skips_r. rewrite (tkeys_delete keys_of (threads s) t th Ht). by apply submseteq_inserts_l.
  - unfold account. cbn [threads backup total_dropped s' set_active set_threads set_registry]. rewrite (tsum_delete pending (threads s) t th Ht). lia.
Qed.

Lemma clear_request_ok s t th : inv None s -> threads s !! t = Some th ->
  exists th', inv None (clear_request t th s) /\ moves s [] (clear_request t th s) [] /\ threads (clear_request t th s) !! t = Some th' /\ needs_flush th' = false.
Proof.
  intros Hi Ht. unfold clear_request. destruct (needs_flush th) eqn:Ef; [|exists th; split_and!; [done|apply moves_refl|done|done]]. cbv zeta. cbn [pending_drain_count put set_threads].
  rewrite (proj2 (Z.ltb_lt _ _) (requested_pos s t th Hi Ht Ef)). destruct (inv_request s t th false Hi Ht) as [A B].
  unfold requested in A, B. rewrite Ef in A, B. replace (pending_drain_count s + 0 - 1) with (pending_drain_count s - 1) in * by lia.
  exists (with_flush false th). split_and!; [exact A|exact B|apply lookup_insert_eq|done].
Qed.

Lemma save_rest_ok s t th : inv None s -> threads s !! t = Some th ->
  exists th', inv None (save_rest N moved t s) /\ moves s [] (save_rest N moved t s) [] /\ threads (save_rest N moved t s) !! t = Some th' /\
    needs_flush th' = needs_flush th /\ pending th' = 0.
Proof.
  intros Hi Ht. unfold save_rest, empty. rewrite (instance_eq t s th Ht). destruct (has_pending (buf th)) eqn:Ep; cbn [negb].
  - pose proof (drain_push_ok None s t th Hi (or_introl eq_refl) Ht) as Hd. destruct (drain N moved t s) as [keys s2].
    destruct Hd as (A & B & th2 & E1 & E2 & _ & E3). exists th2. by rewrite E1, lookup_insert_eq.
  - exists th. split_and!; try done. unfold has_pending in Ep. apply negb_false_iff, Z.eqb_eq in Ep. unfold pending, pending_count. by rewrite Ep, Z.sub_diag.
Qed.

Lemma access_thread_exit_ok t s : inv None s -> inv None (thread_exit N moved t s) /\ held (thread_exit N moved t s) ⊆+ held s /\
  u64 (account (thread_exit N moved t s)) = u64 (account s).
Proof.
  intros Hi. unfold thread_exit. destruct (threads s !! t) as [th|] eqn:Ht; [|done]. destruct (clear_request_ok s t th Hi Ht) as (th1 & Hi1 & Hm1 & Ht1 & Hf1).
  destruct (save_rest_ok _ t th1 Hi1 Ht1) as (th2 & Hi2 & Hm2 & Ht2 & Hf2 & Hp2). rewrite Hf1 in Hf2. set (s2 := save_rest N moved t _) in *.
  destruct (delete_ok s2 t th2 None Hi2 Ht2 Hp2 Hf2) as (A & B & C). pose proof (moves_trans' Hm1 Hm2) as [M1 M2 _]. cbn [length app] in M1, M2. rewrite ?app_nil_r, ?Z.add_0_r in *.
  split; [done|]. split; [by transitivity (held s2)|]. by rewrite C.
Qed.

Lemma reset_ok t s : inv None s -> 0 <= t < 2 ^ 63 -> inv None (reset N t s) /\ held (reset N t s) ⊆+ held s.
Proof.
  intros Hi Hb. unfold reset. destruct (register_ok None s t Hi Hb) as (Hi1 & [M1 _ _] & [th Ht]). rewrite ?app_nil_r in M1. rewrite (instance_eq t _ th Ht).
  set (s1 := register N t s) in *. set (th' := with_cap 0 (with_buf (reset_ring (buf th)) th)). destruct (iv_threads _ _ Hi1 t th Ht) as [W1 W2 W3].
  assert (0 <= head (buf th) < 2 ^ 64) as Hh.
  { destruct (Z.eq_dec (per_thread_cap th) 0) as [E|E]; [rewrite (rg_head _ _ _ (W2 E)); apply wrap_range; lia|]. destruct (W3 E) as (_ & Hr & _).
    assert (head (clamped (per_thread_cap th) (buf th)) = head (buf th)) as <- by (unfold clamped; by destruct (_ <? _)). rewrite (rg_head _ _ _ Hr). apply wrap_range. lia. }
  assert (wf_thread false th') as Hw.
  { split; cbn; [done| |done]. intros _. pose proof (cap_pos N size_ok). split; cbn; [lia|done|by rewrite Z.add_0_r, wrap_small|lia|done]. }
  split; [exact (inv_put None None s1 t th th' Hi1 (or_introl eq_refl) (or_introl eq_refl) Ht Hw eq_refl)|]. transitivity (held s1); [|done].
  unfold held. cbn [threads put set_threads backup]. apply submseteq_skips_r. pose proof (tkeys_put keys_of (threads s1) t th th' Ht) as Hp. change (keys_of th') with (@nil Key) in Hp.
  rewrite app_nil_r in Hp. rewrite <- Hp. by apply submseteq_inserts_r.
Qed.

(** * Runs *)

Section runs.
Context (run_callback : CB -> Z -> st -> list Key * st) `{!CallbackLaws run_callback}.

(** Thread numbers fit a word, and nobody asks for assertions. *)
Definition op_ok (o : access_op Key CB) : Prop :=
  match o with
  | Record_ t _ _ | Drain t | Reset_ t | DrainAll t | SyncRequest t | Size_ t | ShouldFlush t => 0 <= t < 2 ^ 63
  | SetPolicy p => p <> kAssertOnFull
  | SetConfig _ cfg => full_policy cfg <> kAssertOnFull
  | _ => True
  end.

Definition never_asserts s : Prop := full_policy (defaults s) <> kAssertOnFull /\ forall c cfg, configs s !! c = Some cfg -> full_policy cfg <> kAssertOnFull.

(** Calls that discard keys or the count of the dropped ones. *)
Definition lossless (o : access_op Key CB) : bool := match o with Reset_ _ | SyncRequest _ | DrainDropped => false | _ => true end.

Definition recorded_by (o : access_op Key CB) : list Key := match o with Record_ _ _ key => [key] | _ => [] end.
Definition taken_by (o : access_op Key CB) (r : access_result Key) : list Key :=
  match o, r with
  | Record_ _ _ _, RKeys ks | Drain _, RKeys ks | DrainBackup, RKeys ks | DrainAll _, RKeys ks => ks
  | _, _ => []
  end.

Record op_post (o : access_op Key CB) s (r : access_result Key) s' : Prop := {
  op_inv : inv None s';
  op_never : never_asserts s';
  op_keys : held s' ++ taken_by o r ⊆+ held s ++ recorded_by o;
  op_count : lossless o = true -> u64 (account s' + Z.of_nat (length (taken_by o r))) = u64 (account s + Z.of_nat (length (recorded_by o)))
}.

Lemma never_settings s s' : never_asserts s -> settings s' = settings s -> never_asserts s'.
Proof. unfold settings. intros [A B] E. injection E as E1 E2 E3. split; rewrite ?E1, ?E2; done. Qed.

Lemma config_never t s : never_asserts s -> full_policy (config_of t s) <> kAssertOnFull.
Proof. intros [A B]. unfold config_of. destruct (active_config s !! t) as [c|]; [|done]. destruct (configs s !! c) eqn:E; [by eapply B|done]. Qed.

Lemma post_moves o s (r : access_result Key) s' : inv None s' -> never_asserts s -> moves s (taken_by o r) s' (recorded_by o) -> op_post o s r s'.
Proof. intros Hi Hn [M1 M2 M3]. split; [done|by eapply never_settings|done|by intros]. Qed.

(** Calls that only change settings or counters. *)
Lemma post_same o s (r : access_result Key) s' : inv None s -> never_asserts s' -> taken_by o r = [] -> recorded_by o = [] -> threads s' = threads s -> ring_registry s' = ring_registry s ->
  cap_ok (runtime_capacity s') -> pending_drain_count s' = pending_drain_count s -> backup s' = backup s -> (lossless o = true -> total_dropped s' = total_dropped s) ->
  op_post o s r s'.
Proof.
  intros [I1 I2 I3 I4 I5] Hn E1 E2 E3 E4 Hc E5 E6 E7. split; rewrite ?E1, ?E2.
  - split; rewrite ?E3, ?E4, ?E5; done.
  - done.
  - unfold held. by rewrite E3, E6.
  - intros Hl. unfold account. by rewrite E3, E6, E7.
Qed.

Lemma set_capacity_ok n s : cap_ok (runtime_capacity (set_tls_ring_capacity N n s)).
Proof.
  unfold set_tls_ring_capacity. cbn [runtime_capacity set_settings]. destruct (Z.eqb_spec n 0) as [->|Hz]; cbn [orb]; [apply size_ok|].
  destruct (Z.ltb_spec N n); [apply size_ok|]. destruct (Z.ltb_spec N (next_pow2 n)) as [Hlt|Hge]; [apply size_ok|].
  destruct (Z.le_gt_cases n 1) as [Hn|Hn]; [exists 0; split; [lia|]; unfold next_pow2; by rewrite (proj2 (Z.leb_le n 1) Hn)|].
  exists (Z.log2_up n). assert (2 ^ k <= 2 ^ 63) by (apply Z.pow_le_mono_r; lia). rewrite access_next_pow2_spec by lia. split; [|done]. split; [apply Z.log2_up_nonneg|].
  apply Z.log2_up_le_pow2; lia.
Qed.

Lemma access_run_op_ok o s : inv None s -> never_asserts s -> op_ok o -> exists (r : access_result Key) s', run_op N moved run_callback o s = Some (r, s') /\ op_post o s r s'.
Proof.
  intros Hi Hn Ho. pose proof (iv_capacity _ _ Hi) as Hcap.
  destruct o as [t now key|t| | |t|t|t|e|t now ms|t|p|n|n|cb|c cfg|t c| | |t|t|t]; cbn [run_op op_ok] in *.
  - pose proof (access_record_access_ok run_callback now t key s Hi Ho) as Hr. destruct (record_access N moved run_callback now t key s) as [[out s']|].
    + destruct Hr as [A B]. eexists _, _. split; [done|]. by apply post_moves.
    + by apply config_never in Hr.
  - destruct (register_ok None s t Hi Ho) as (Hi1 & Hm1 & [th Ht]). destruct (access_drain_ok None _ t th Hi1 (or_introl eq_refl) Ht) as (s' & th' & -> & A & B & _).
    eexists _, _. split; [done|]. apply post_moves; [done|done|]. exact (moves_trans' Hm1 B).
  - destruct (access_drain_backup_ok s Hi) as [A B]. eexists _, _. split; [done|]. by apply post_moves.
  - eexists _, _. split; [done|]. apply post_moves; [done|done|apply moves_refl].
  - destruct (reset_ok t s Hi Ho) as [A B]. eexists _, _. split; [done|]. split; [done| |by rewrite !app_nil_r|done].
    apply (never_settings s); [done|]. unfold reset. destruct (register_ok None s t Hi Ho) as (_ & [_ _ M3] & _). by rewrite <- M3.
  - destruct (drain_all_ok t s Hi Ho) as (ks & s' & -> & A & B). eexists _, _. split; [done|]. by apply post_moves.
  - unfold sync_request. destruct (drain_all_ok t s Hi Ho) as (ks & s' & -> & A & [B1 B2 B3]). eexists _, _. split; [done|]. split; [done|by eapply never_settings| |done].
    cbn. rewrite !app_nil_r in *. etransitivity; [|exact B1]. by apply submseteq_inserts_r.
  - eexists _, _. split; [done|]. apply post_moves; [done|done|apply moves_refl].
  - destruct (force_flush_ok now ms t s Hi) as [A B]. destruct (force_flush_dormant_threads N now ms t s) as [c s']. eexists _, _. split; [done|]. by apply post_moves.
  - destruct (access_thread_exit_ok t s Hi) as (A & B & C). eexists _, _. split; [done|]. split; [done| |by rewrite !app_nil_r|cbn; by rewrite !Z.add_0_r].
    unfold thread_exit in *. destruct (threads s !! t) as [th|] eqn:Ht; [|done]. destruct (clear_request_ok s t th Hi Ht) as (th1 & Hi1 & [_ _ M1] & Ht1 & _).
    destruct (save_rest_ok _ t th1 Hi1 Ht1) as (th2 & _ & [_ _ M2] & _). apply (never_settings _ _ (never_settings _ _ Hn M1)) in M2. exact M2.
  - eexists _, _. split; [done|]. apply post_same; try done. by split; [|apply Hn].
  - eexists _, _. split; [done|]. apply post_same; try done.
  - eexists _, _. split; [done|]. apply post_same; try done; [|apply set_capacity_ok]. unfold set_tls_ring_capacity. destruct Hn as [A B]. split; [|done]. cbn. by destruct (_ <? _).
  - eexists _, _. split; [done|]. apply post_same; try done.
  - eexists _, _. split; [done|]. apply post_same; try done. destruct Hn as [A B]. split; [done|]. intros c' x Hx. cbn in Hx.
    apply lookup_insert_Some in Hx as [[_ <-]|[_ Hx]]; [done|by eapply B].
  - eexists _, _. split; [done|]. apply post_same; try done.
  - eexists _, _. split; [done|]. apply post_same; try done.
  - eexists _, _. split; [done|]. apply post_same; try done.
  - destruct (register_ok None s t Hi Ho) as (Hi1 & Hm1 & _). eexists _, _. split; [done|]. by apply post_moves.
  - destruct (register_ok None s t Hi Ho) as (Hi1 & Hm1 & _). eexists _, _. split; [done|]. by apply post_moves.
  - eexists _, _. split; [done|]. apply post_moves; [done|done|apply moves_refl].
Qed.

Definition recorded (ops : list (access_op Key CB)) : list Key := ops ≫= recorded_by.
Definition taken (ops : list (access_op Key CB)) (rs : list (access_result Key)) : list Key := concat (zip_with taken_by ops rs).

Lemma access_run_ok ops : forall s, inv None s -> never_asserts s -> Forall op_ok ops ->
  exists rs s', run N moved run_callback ops s = Some (rs, s') /\ inv None s' /\ held s' ++ taken ops rs ⊆+ held s ++ recorded ops /\
    (forallb lossless ops = true -> u64 (account s' + Z.of_nat (length (taken ops rs))) = u64 (account s + Z.of_nat (length (recorded ops)))).
Proof.
  induction ops as [|o ops IH]; intros s Hi Hn Hok; [exists [], s; split_and!; done|]. apply Forall_cons in Hok as [Ho Hok]. cbn [run].
  destruct (access_run_op_ok o s Hi Hn Ho) as (r & s1 & -> & [Hi1 Hn1 K1 C1]). cbn [mbind option_bind]. destruct (IH s1 Hi1 Hn1 Hok) as (rs & s2 & -> & Hi2 & K2 & C2).
  cbn [mbind option_bind]. exists (r :: rs), s2. split; [done|]. split; [done|]. unfold taken, recorded in *. cbn [zip_with concat mbind list_bind forallb]. split.
  - transitivity ((held s1 ++ taken_by o r) ++ (ops ≫= recorded_by)); [|rewrite app_assoc; by apply submseteq_skips_r].
    transitivity ((held s1 ++ (ops ≫= recorded_by)) ++ taken_by o r); [|apply Permutation_submseteq; solve_Permutation].
    transitivity ((held s2 ++ concat (zip_with taken_by ops rs)) ++ taken_by o r); [apply Permutation_submseteq; solve_Permutation|]. by apply submseteq_skips_r.
  - intros [L1 L2]%andb_true_iff. rewrite !length_app. pose proof (wrap_cong _ _ _ _ (C1 L1) (C2 L2)) as Hw. apply (wrap_cancel _ _ (account s1)).
    etransitivity; [|etransitivity; [exact Hw|]]; f_equal; lia.
Qed.

Lemma access_init_ok : inv None (access_init N : st) /\ never_asserts (access_init N).
Proof.
  split; [|by split]. split; cbn; [done|apply size_ok| |done|]; [split; [constructor|]|]; intros t; rewrite lookup_empty; [|by intros [? ?]].
  split; [by intros ?%elem_of_nil|by intros [? ?]].
Qed.

(** Between calls every position a drain would read is a held key. *)
Lemma account_held s : inv None s -> account s = Z.of_nat (length (held s)) + total_dropped s.
Proof.
  intros Hi. unfold account, held. rewrite length_app. enough (tsum pending (threads s) = Z.of_nat (length (tkeys keys_of (threads s)))) by lia.
  unfold tsum, tkeys. assert (forall p, p ∈ map_to_list (threads s) -> pending p.2 = Z.of_nat (length (keys_of p.2))) as Hp.
  { intros [t th] Hp%elem_of_map_to_list. exact (pending_keys th (iv_threads _ _ Hi t th Hp)). }
  induction (map_to_list (threads s)) as [|p l IH]; [done|]. cbn [foldr mbind list_bind]. rewrite length_app, (Hp p) by (by left).
  rewrite IH by (intros x Hx; apply Hp; by right). lia.
Qed.

End runs.

(** [drain_access_ring] meets the contract of a callback. *)
Lemma drain_access_ring_laws : CallbackLaws (fun _ => drain_access_ring N moved).
Proof.
  intros cb t s th Hi Ht Hc. unfold drain_access_ring.
  assert (exists bs s1, (if has_backup_keys s then drain_backup s else ([], s)) = (bs, s1) /\ inv (Some t) s1 /\ moves s bs s1 [] /\ threads s1 = threads s) as (bs & s1 & -> & Hi1 & Hm1 & Et).
  { destruct (has_backup_keys s); [|exists [], s; split_and!; [done|done|apply moves_refl|done]]. exists (backup s), (set_backup [] false s). split; [done|].
    split; [by eapply inv_same|]. split; [|done]. split; [| |done]; unfold held, account; cbn [threads backup set_backup total_dropped length]; [by rewrite !app_nil_r|f_equal; lia]. }
  assert (threads s1 !! t = Some th) as Ht1 by (by rewrite Et). assert (register N t s1 = s1) as -> by (unfold register; by rewrite Ht1).
  destruct (empty N t s1); [exists bs, s1, th; split_and!; [done|done|done|done|done]|].
  destruct (access_drain_ok (Some t) s1 t th Hi1 (or_intror eq_refl) Ht1) as (s2 & th2 & -> & A & B & E1 & E2 & E3 & E4).
  exists (bs ++ keys_of th), s2, th2. split; [done|]. split; [by apply inv_weaken|]. split; [exact (moves_trans' Hm1 B)|]. split; [by rewrite E1, lookup_insert_eq|].
  rewrite E3. unfold effective_capacity. by rewrite (proj2 (Z.eqb_neq _ _) Hc).
Qed.
End access.

(** * Concrete runs *)

(** Rings of four, with the cache's callback. *)
Abbreviation demo_run ops := (run (Key := Z) (CB := unit) 4 id (fun _ => drain_access_ring 4 id) ops (access_init 4)).

(** Thread 1 overflows under two policies, thread 2 asks for a flush, thread 1
    serves it with its next access and exits. *)
Definition demo_ops : list (access_op Z unit) :=
  [SetThreshold 4; SetPolicy kSilentDrop; Record_ 1 100 1; Record_ 1 101 2; Record_ 1 102 3; Record_ 1 103 4; Record_ 1 104 5;
   Record_ 2 105 9; DrainAll 2; SetPolicy kFlushOnFull; SetCallback (Some tt); Record_ 1 106 6; Record_ 1 107 7; ThreadExit 1; DrainBackup].

Example demo_results : fst <$> demo_run demo_ops =
  Some [RUnit; RUnit; RKeys []; RKeys []; RKeys []; RKeys []; RKeys []; RKeys []; RKeys [9]; RUnit; RUnit; RKeys []; RKeys []; RUnit; RKeys [2; 3; 4; 5; 6; 7]].
Proof. vm_compute. reflexivity. Qed.


(** [drain_all_threads_sync] throws away what its request drained: the caller's
    own pending accesses are neither returned by the drain that follows nor
    counted as dropped. *)
Example sync_drain_loses_keys :
  (fun p => (p.1, total_dropped p.2, held p.2)) <$> demo_run [Record_ 1 100 7; SyncRequest 1; SyncPoll false; DrainAll 1] =
  Some ([RKeys []; RUnit; ROptBool (Some true); RKeys []], 0, []).
Proof. vm_compute. reflexivity. Qed.

(** The backlog counter keeps the accesses that were overwritten, and those that a
    dormant flush took: with every ring empty it reports one and two. *)
Example backlog_drifts :
  (fun p => (last p.1, held p.2)) <$> demo_run [SetThreshold 4; SetPolicy kSilentDrop; Record_ 1 100 1; Record_ 1 101 2; Record_ 1 102 3; Record_ 1 103 4;
    Record_ 1 104 5; Drain 1; Backlog 1] = Some (Some (RNumber 1), []) /\
  (fun p => (last p.1, held p.2)) <$> demo_run [SetThreshold 4; Record_ 1 100 1; Record_ 1 101 2; ForceFlush 2 9000000000 2000; DrainBackup; Backlog 1] =
    Some (Some (RNumber 2), []).
Proof. split; vm_compute; reflexivity. Qed.
