(* ===== verification/EpochReclamation.v ===== *)
(** * Epoch-based reclamation

    The domain of detail/epoch_reclamation.hpp: readers announce the global epoch
    in a slot, retired objects are stamped, buffered per thread and pushed onto a
    pending list, and a reclaimer frees those whose stamp is old enough for every
    announced epoch. The operations are a step system: a thread runs a stack of
    instructions, each one access to shared memory together with the thread-local
    work around it, and the steps of all threads interleave. *)
From S2P Require Import Prelude.

(** * Data *)

Definition kBatchSize : nat := 128.
Definition kMaxBatches : nat := 64.
Definition kInactiveEpoch : Z := U64_MAX.
Definition kMaxSpinRetries : Z := 1024.
Definition kMaxSyncFallbacks : Z := 64.
Definition kCapacity : nat := 16.
Definition kPendingCounterShards : Z := 8.

Inductive force_advance_policy := kFailAdvance | kForceAdvanceAfter5s | kForceAdvanceAfterNs | kNeverForceAdvance.

Abbreviation obj := Z (only parsing).

(** [epoch_slot] with its bit of [used_batches_]. *)
Record epoch_slot := Slot { used : bool; local_epoch : Z; entry_time_ns : Z }.
Definition slot_new : epoch_slot := Slot false kInactiveEpoch 0.

(** The counters that are only read for reporting. *)
Inductive counter :=
  | reclaim_total | force_advance_count | epoch_stale_count | participant_count | slot_exhaustion_count
  | sync_fallback_count | slot_degraded_count | reclaim_auto_triggered_count.
#[global] Instance counter_eq : EqDecision counter.
Proof. solve_decision. Defined.

Record settings := Settings { reclaim_threshold : Z; policy : force_advance_policy; force_timeout_ns : Z; time_advance_interval_ns : Z }.

(** A domain. The slots of the batches are one table; the pending list, which
    hangs off [pending_head_] through the [next_] links, is the list of its objects;
    the counter shards are indexed as [pending_shard_for_this_thread] does. *)
Record epoch_domain := Domain {
  global_epoch : Z;
  last_advance_time_ns : Z;
  slots : gmap nat epoch_slot;
  num_batches : nat;
  expand_mutex : option Z;
  pending : list obj;
  pending_shards : gmap Z Z;
  reclaim_in_progress : bool;
  setup : settings;
  stats : counter -> Z }.

Definition domain_new : epoch_domain := Domain 0 0 ∅ 1 None [] ∅ false (Settings 4096 kFailAdvance 5000000000 200000000) (fun _ => 0).

(** What a walk over the active slots is for: the check of
    [maybe_advance_epoch], or the minimum of [compute_min_epoch] on behalf of a
    reclaimer that holds the objects [todo]. *)
Inductive purpose :=
  | Advance (current : Z)
  | Minimum (fail : bool) (timeout_ns now_ns min_epoch : Z) (skipped_stuck : bool) (batch_size : Z) (todo : list obj).

Inductive instr :=
  | Enter (d : Z)
  | EnterLoad (d : Z)
  | EnterStore (d observed : Z)
  | EnterTime (d : Z)
  | TakeOwner (d : Z)
  | AcquireStart (d spin_retries sync_fallbacks : Z)
  | Acquire (d spin_retries sync_fallbacks : Z) (i total : nat)
  | AcquireLocked (d spin_retries sync_fallbacks : Z) (i total2 : nat)
  | Exit (d : Z)
  | ExitTime (d : Z) (i : nat)
  | ExitStore (d : Z) (i : nat)
  | ReleaseLocal (d : Z) (i : nat)
  | ReleaseTime (d : Z) (i : nat)
  | ReleaseUsed (d : Z) (i : nat)
  | Claim (d : Z) (x : obj)
  | PushRetired (d : Z) (x : obj)
  | Stamp (d : Z) (x : obj)
  | Flush (d : Z)
  | PushLoad (d : Z) (chain : list obj)
  | PushCas (d : Z) (chain : list obj) (expected : option obj)
  | PendingAdd (d : Z) (n : nat)
  | AdvanceLoad (d : Z)
  | ScanStart (d : Z) (p : purpose)
  | Scan (d : Z) (p : purpose) (i total : nat)
  | ScanLocal (d : Z) (p : purpose) (i total : nat)
  | ScanEntry (d : Z) (p : purpose) (i total : nat) (local : Z)
  | AdvanceCas (d current : Z)
  | CapacityAdvance (d : Z)
  | CasLoad (d : Z)
  | TimeAdvance (d : Z)
  | AutoReclaim (d : Z)
  | AutoCas (d : Z)
  | AutoDone (d : Z)
  | TryReclaim (d batch_size : Z)
  | Exchange (d batch_size : Z)
  | MinStart (d batch_size : Z) (todo : list obj)
  | MinGlobal (d batch_size : Z) (todo : list obj)
  | FreeLoop (d batch_size min_epoch processed reclaimed_count : Z) (todo kept : list obj)
  | AddReclaimed (d reclaimed_count : Z)
  | PendingRelease (d processed : Z)
  | DropBuffer
  | DropCache
  | DropOwner.

(** A thread: its [tls_slot_cache], its [tls_retire_buffer], the instructions it
    has to run, and the objects it has read in the critical section it is in. *)
Record thread := Thread {
  owner : option Z;
  slot_index : option nat;
  cs_depth : Z;
  entries : list obj;
  owner_domain : option Z;
  code : list instr;
  refs : list obj }.
Definition thread_new : thread := Thread None None 0 [] None [] [].

(** The whole state: [claimed] holds the objects whose [retired_] is set,
    [epoch_of] their stamps, [freed] those whose [reclaim_] was called, in order;
    [linked] are the objects readers can reach. *)
Record state := State {
  domains : gmap Z epoch_domain;
  threads : gmap Z thread;
  claimed : gset obj;
  epoch_of : gmap obj Z;
  freed : list obj;
  allocated : gset obj;
  linked : gset obj }.
Definition init : state := State ∅ ∅ ∅ ∅ [] ∅ ∅.

Section epoch.
(** The shard of a thread, [hash(this_thread) % kPendingCounterShards], and the
    domain that an object is retired to. *)
Context (shard_of : Z -> Z) (home : obj -> Z).

Definition dom_ (d : Z) (s : state) : epoch_domain := default domain_new (domains s !! d).
Definition thr (t : Z) (s : state) : thread := default thread_new (threads s !! t).
Definition set_dom (d : Z) (D : epoch_domain) (s : state) : state :=
  State (<[d := D]> (domains s)) (threads s) (claimed s) (epoch_of s) (freed s) (allocated s) (linked s).
Definition set_thr (t : Z) (th : thread) (s : state) : state :=
  State (domains s) (<[t := th]> (threads s)) (claimed s) (epoch_of s) (freed s) (allocated s) (linked s).
Definition slot (i : nat) (D : epoch_domain) : epoch_slot := default slot_new (slots D !! i).

Definition with_code (c : list instr) (th : thread) : thread :=
  Thread (owner th) (slot_index th) (cs_depth th) (entries th) (owner_domain th) c (refs th).
Definition with_cache (o : option Z) (i : option nat) (n : Z) (th : thread) : thread :=
  Thread o i n (entries th) (owner_domain th) (code th) (refs th).
Definition with_refs (l : list obj) (th : thread) : thread :=
  Thread (owner th) (slot_index th) (cs_depth th) (entries th) (owner_domain th) (code th) l.
Definition with_buffer (l : list obj) (o : option Z) (th : thread) : thread :=
  Thread (owner th) (slot_index th) (cs_depth th) l o (code th) (refs th).

Definition with_global (e last : Z) (D : epoch_domain) : epoch_domain :=
  Domain e last (slots D) (num_batches D) (expand_mutex D) (pending D) (pending_shards D) (reclaim_in_progress D) (setup D) (stats D).
Definition with_slot (i : nat) (sl : epoch_slot) (D : epoch_domain) : epoch_domain :=
  Domain (global_epoch D) (last_advance_time_ns D) (<[i := sl]> (slots D)) (num_batches D) (expand_mutex D) (pending D) (pending_shards D) (reclaim_in_progress D) (setup D) (stats D).
Definition with_mutex (nb : nat) (m : option Z) (D : epoch_domain) : epoch_domain :=
  Domain (global_epoch D) (last_advance_time_ns D) (slots D) nb m (pending D) (pending_shards D) (reclaim_in_progress D) (setup D) (stats D).
Definition with_pending (l : list obj) (D : epoch_domain) : epoch_domain :=
  Domain (global_epoch D) (last_advance_time_ns D) (slots D) (num_batches D) (expand_mutex D) l (pending_shards D) (reclaim_in_progress D) (setup D) (stats D).
Definition with_shards (m : gmap Z Z) (D : epoch_domain) : epoch_domain :=
  Domain (global_epoch D) (last_advance_time_ns D) (slots D) (num_batches D) (expand_mutex D) (pending D) m (reclaim_in_progress D) (setup D) (stats D).
Definition with_setup (busy : bool) (c : settings) (D : epoch_domain) : epoch_domain :=
  Domain (global_epoch D) (last_advance_time_ns D) (slots D) (num_batches D) (expand_mutex D) (pending D) (pending_shards D) busy c (stats D).
Definition bump (c : counter) (n : Z) (D : epoch_domain) : epoch_domain :=
  Domain (global_epoch D) (last_advance_time_ns D) (slots D) (num_batches D) (expand_mutex D) (pending D) (pending_shards D) (reclaim_in_progress D) (setup D)
    (fun c' => if decide (c' = c) then u64 (stats D c + n) else stats D c').

(** * The instructions *)

Definition pending_count (D : epoch_domain) : Z := let total := tsum id (pending_shards D) in if 0 <? total then total else 0.
Definition add_pending (t n : Z) (D : epoch_domain) : epoch_domain :=
  let k := shard_of t mod kPendingCounterShards in with_shards (<[k := default 0 (pending_shards D !! k) + n]> (pending_shards D)) D.

Definition note_local (local : Z) (p : purpose) : purpose :=
  match p with
  | Advance c => Advance c
  | Minimum f tm now min sk b todo => Minimum f tm now (if local <? min then local else min) sk b todo
  end.
Definition skip_stuck (p : purpose) : purpose :=
  match p with
  | Advance c => Advance c
  | Minimum f tm now min sk b todo => Minimum f tm now min true b todo
  end.

(** [FreeLoop] is left when [batch_size] objects are done. *)
Definition batch_done (batch_size processed : Z) : bool := (0 <? batch_size) && (batch_size <=? processed).

Definition outcome : Type := option (list instr * thread * state).

(** [enter_critical]: the nested entry, the cached slot, or the release of the slot
    held in another domain. *)
Definition enter_critical (d : Z) (th : thread) (s : state) : outcome :=
  if decide (owner th = Some d) then
    match slot_index th with
    | Some _ => if 0 <? cs_depth th then Some ([], with_cache (owner th) (slot_index th) (cs_depth th + 1) th, s) else Some ([EnterLoad d], th, s)
    | None => Some ([AcquireStart d 0 0], th, s)
    end
  else match owner th, slot_index th with
       | Some d', Some i => Some ([ReleaseLocal d' i; TakeOwner d], th, s)
       | _, _ => Some ([TakeOwner d], th, s)
       end.
Definition enter_store (d observed : Z) (th : thread) (s : state) : outcome :=
  i ← slot_index th;
  let D := dom_ d s in
  Some ([EnterTime d], th, set_dom d (with_slot i (Slot (used (slot i D)) observed (entry_time_ns (slot i D))) D) s).
Definition enter_time (now d : Z) (th : thread) (s : state) : outcome :=
  i ← slot_index th;
  let D := dom_ d s in
  Some ([], with_cache (owner th) (slot_index th) 1 th, set_dom d (with_slot i (Slot (used (slot i D)) (local_epoch (slot i D)) now) D) s).
(** The first loop of [acquire_slot], and the lock of the second. *)
Definition acquire_slot (t d spin sync : Z) (i total : nat) (th : thread) (s : state) : outcome :=
  let D := dom_ d s in
  if (i <? total)%nat then
    if used (slot i D) then Some ([Acquire d spin sync (S i) total], th, s)
    else Some ([EnterLoad d], with_cache (owner th) (Some i) (cs_depth th) th,
               set_dom d (bump participant_count 1 (with_slot i (Slot true (local_epoch (slot i D)) (entry_time_ns (slot i D))) D)) s)
  else match expand_mutex D with
       | Some _ => None
       | None => Some ([AcquireLocked d spin sync total (num_batches D * kBatchSize)], th, set_dom d (with_mutex (num_batches D) (Some t) D) s)
       end.
(** The second loop of [acquire_slot] under [expand_mutex_], the retries on
    exhaustion and the new batch. *)
Definition acquire_slot_locked (d spin sync : Z) (i total2 : nat) (th : thread) (s : state) : outcome :=
  let D := dom_ d s in
  if (i <? total2)%nat then
    if used (slot i D) then Some ([AcquireLocked d spin sync (S i) total2], th, s)
    else Some ([EnterLoad d], with_cache (owner th) (Some i) (cs_depth th) th,
               set_dom d (bump participant_count 1 (with_slot i (Slot true (local_epoch (slot i D)) (entry_time_ns (slot i D))) (with_mutex (num_batches D) None D))) s)
  else if (kMaxBatches <=? num_batches D)%nat then
    let D := bump slot_exhaustion_count 1 (with_mutex (num_batches D) None D) in
    if spin + 1 <=? kMaxSpinRetries then Some ([AcquireStart d (spin + 1) sync], th, set_dom d D s)
    else
      let D := bump sync_fallback_count 1 D in
      if kMaxSyncFallbacks <? sync + 1 then Some ([], with_cache (owner th) None 0 th, set_dom d (bump slot_degraded_count 1 D) s)
      else Some ([AcquireStart d (spin + 1) (sync + 1)], th, set_dom d D s)
  else Some ([AcquireStart d spin sync], th, set_dom d (with_mutex (S (num_batches D)) None D) s).
Definition exit_critical (d : Z) (th : thread) (s : state) : outcome :=
  if decide (owner th = Some d) then
    match slot_index th with
    | Some i =>
        if 1 <? cs_depth th then Some ([], with_cache (owner th) (slot_index th) (cs_depth th - 1) th, s)
        else Some ([ExitTime d i], with_refs [] (with_cache (owner th) (slot_index th) 0 th), s)
    | None => Some ([], th, s)
    end
  else Some ([], th, s).
Definition release_used (d : Z) (i : nat) (th : thread) (s : state) : outcome :=
  let D := dom_ d s in
  Some ([], with_cache (owner th) None (cs_depth th) th,
        set_dom d (bump participant_count (-1) (with_slot i (Slot false (local_epoch (slot i D)) (entry_time_ns (slot i D))) D)) s).
Definition claim_retired (d : Z) (x : obj) (th : thread) (s : state) : outcome :=
  if decide (x ∈ claimed s) then Some ([], th, s)
  else Some ([PushRetired d x], th, State (domains s) (threads s) ({[x]} ∪ claimed s) (epoch_of s) (freed s) (allocated s) (linked s)).
(** [push_retired] up to the stamp, the stamp, and [flush_tls_buffer]. *)
Definition push_retired (d : Z) (x : obj) (th : thread) (s : state) : outcome :=
  match entries th, owner_domain th with
  | _ :: _, Some d' => Some (if d' =? d then [Stamp d x] else [Flush d'; Stamp d x], th, s)
  | _, _ => Some ([Stamp d x], th, s)
  end.
Definition stamp_retired (d : Z) (x : obj) (th : thread) (s : state) : outcome :=
  let buf := entries th ++ [x] in
  Some (if (kCapacity <=? length buf)%nat then [Flush d] else [], with_buffer buf (Some d) th,
        State (domains s) (threads s) (claimed s) (<[x := global_epoch (dom_ d s)]> (epoch_of s)) (freed s) (allocated s) (linked s)).
Definition flush_tls_buffer (d : Z) (th : thread) (s : state) : outcome :=
  match entries th, owner_domain th with
  | [], _ => Some ([], th, s)
  | _ :: _, Some d' =>
      if d' =? d then Some ([PushLoad d (reverse (entries th)); AdvanceLoad d; CapacityAdvance d; AutoReclaim d], with_buffer [] (owner_domain th) th, s)
      else Some ([Flush d'], th, s)
  | _ :: _, None => Some ([PushLoad d (reverse (entries th)); AdvanceLoad d; CapacityAdvance d; AutoReclaim d], with_buffer [] None th, s)
  end.
Definition push_pending (spurious : bool) (d : Z) (chain : list obj) (expected : option obj) (th : thread) (s : state) : outcome :=
  let D := dom_ d s in
  if bool_decide (head (pending D) = expected) && negb spurious
  then Some ([PendingAdd d (length chain)], th, set_dom d (with_pending (chain ++ pending D) D) s)
  else Some ([PushCas d chain (head (pending D))], th, s).
(** The walk over the slots, the visitors of [maybe_advance_epoch] and
    [compute_min_epoch], and what follows the walk. *)
Definition for_each_active_slot (d : Z) (p : purpose) (i total : nat) (th : thread) (s : state) : outcome :=
  let D := dom_ d s in
  if (i <? total)%nat then Some ([if used (slot i D) then ScanLocal d p i total else Scan d p (S i) total], th, s)
  else match p with
       | Advance current => Some ([AdvanceCas d current], th, s)
       | Minimum _ _ _ min skipped b todo =>
           Some ([if min =? U64_MAX then MinGlobal d b todo else FreeLoop d b min 0 0 todo []], th,
                 if skipped then set_dom d (bump force_advance_count 1 D) s else s)
       end.
Definition visit_slot (d : Z) (p : purpose) (i total : nat) (th : thread) (s : state) : outcome :=
  let local := local_epoch (slot i (dom_ d s)) in
  if local =? kInactiveEpoch then Some ([Scan d p (S i) total], th, s)
  else match p with
       | Advance current => Some (if local <? current then [] else [Scan d p (S i) total], th, s)
       | Minimum _ timeout now0 _ _ _ _ =>
           Some ([if negb (timeout =? 0) && negb (now0 =? 0) then ScanEntry d p i total local else Scan d (note_local local p) (S i) total], th, s)
       end.
Definition visit_entry (d : Z) (p : purpose) (i total : nat) (local : Z) (th : thread) (s : state) : outcome :=
  let D := dom_ d s in
  let entry := entry_time_ns (slot i D) in
  match p with
  | Advance _ => None
  | Minimum fail timeout now0 _ _ _ _ =>
      if negb (entry =? 0) && (timeout <? u64 (now0 - entry))
      then Some ([Scan d (if fail then note_local local p else skip_stuck p) (S i) total], th, set_dom d (bump epoch_stale_count 1 D) s)
      else Some ([Scan d (note_local local p) (S i) total], th, s)
  end.
(** The three ways to advance the epoch. *)
Definition advance_cas (now d current : Z) (th : thread) (s : state) : outcome :=
  let D := dom_ d s in Some ([], th, if global_epoch D =? current then set_dom d (with_global (u64 (current + 1)) now D) s else s).
Definition maybe_capacity_advance (d : Z) (th : thread) (s : state) : outcome :=
  let D := dom_ d s in
  let threshold := reclaim_threshold (setup D) in
  Some (if (threshold =? U64_MAX) || (pending_count D <=? threshold / 4) then [] else [CasLoad d], th, s).
Definition maybe_time_advance (now d : Z) (th : thread) (s : state) : outcome :=
  let D := dom_ d s in
  let interval := time_advance_interval_ns (setup D) in
  if interval =? 0 then Some ([], th, s)
  else if last_advance_time_ns D =? 0 then Some ([], th, set_dom d (with_global (global_epoch D) now D) s)
  else Some (if u64 (now - last_advance_time_ns D) <? interval then [] else [CasLoad d], th, s).
(** [maybe_auto_reclaim] and the parts of [try_reclaim]. *)
Definition maybe_auto_reclaim (d : Z) (th : thread) (s : state) : outcome :=
  let D := dom_ d s in
  let threshold := reclaim_threshold (setup D) in
  Some (if (threshold =? U64_MAX) || (pending_count D <=? threshold) then [] else [AutoCas d], th, s).
Definition begin_auto_reclaim (d : Z) (th : thread) (s : state) : outcome :=
  let D := dom_ d s in
  if reclaim_in_progress D then Some ([], th, s)
  else Some ([TryReclaim d 0; AutoDone d], th, set_dom d (bump reclaim_auto_triggered_count 1 (with_setup true (setup D) D)) s).
Definition exchange_pending (d b : Z) (th : thread) (s : state) : outcome :=
  let D := dom_ d s in
  match pending D with
  | [] => Some ([], th, s)
  | l => Some ([MinStart d b (if 0 <? b then reverse l else l)], th, set_dom d (with_pending [] D) s)
  end.
Definition compute_min_epoch (now d b : Z) (todo : list obj) (th : thread) (s : state) : outcome :=
  let c := setup (dom_ d s) in
  let timeout := match policy c with kForceAdvanceAfter5s => 5000000000 | kNeverForceAdvance => 0 | _ => force_timeout_ns c end in
  let fail := match policy c with kFailAdvance => true | _ => false end in
  Some ([ScanStart d (Minimum fail timeout (if timeout =? 0 then 0 else now) U64_MAX false b todo)], th, s).
Definition reclaim_loop (d b min processed count : Z) (todo kept : list obj) (th : thread) (s : state) : outcome :=
  match todo with
  | x :: todo' =>
      if batch_done b processed then
        Some ([PushLoad d (kept ++ todo); AddReclaimed d count; PendingRelease d (processed + Z.of_nat (length todo))], th, s)
      else if u64 (default 0 (epoch_of s !! x) + 1) <? min then
        Some ([FreeLoop d b min (processed + 1) (count + 1) todo' kept], th,
              State (domains s) (threads s) (claimed s) (epoch_of s) (freed s ++ [x]) (allocated s) (linked s))
      else Some ([FreeLoop d b min (processed + 1) count todo' (kept ++ [x])], th, s)
  | [] => Some (match kept with [] => [] | _ => [PushLoad d kept] end ++ [AddReclaimed d count; PendingRelease d processed], th, s)
  end.

(** One access of thread [t], at time [now]; [spurious] is the spurious failure of
    a weak compare-exchange. The result is the instructions that replace it, the
    thread and the state; [None] is a mutex that is taken, or a missing slot. *)
Definition access (t now : Z) (spurious : bool) (ins : instr) (th : thread) (s : state) : outcome :=
  match ins with
  | Enter d => enter_critical d th s
  | EnterLoad d => Some ([EnterStore d (global_epoch (dom_ d s))], th, s)
  | EnterStore d observed => enter_store d observed th s
  | EnterTime d => enter_time now d th s
  | TakeOwner d => Some ([AcquireStart d 0 0], with_cache (Some d) None (cs_depth th) th, s)
  | AcquireStart d spin sync => Some ([Acquire d spin sync 0 (num_batches (dom_ d s) * kBatchSize)], th, s)
  | Acquire d spin sync i total => acquire_slot t d spin sync i total th s
  | AcquireLocked d spin sync i total2 => acquire_slot_locked d spin sync i total2 th s
  | Exit d => exit_critical d th s
  | ExitTime d i =>      let D := dom_ d s in Some ([ExitStore d i], th, set_dom d (with_slot i (Slot (used (slot i D)) (local_epoch (slot i D)) 0) D) s)
  | ExitStore d i =>      let D := dom_ d s in Some ([], th, set_dom d (with_slot i (Slot (used (slot i D)) kInactiveEpoch (entry_time_ns (slot i D))) D) s)
  | ReleaseLocal d i =>      let D := dom_ d s in Some ([ReleaseTime d i], th, set_dom d (with_slot i (Slot (used (slot i D)) kInactiveEpoch (entry_time_ns (slot i D))) D) s)
  | ReleaseTime d i =>      let D := dom_ d s in Some ([ReleaseUsed d i], th, set_dom d (with_slot i (Slot (used (slot i D)) (local_epoch (slot i D)) 0) D) s)
  | ReleaseUsed d i => release_used d i th s
  | Claim d x => claim_retired d x th s
  | PushRetired d x => push_retired d x th s
  | Stamp d x => stamp_retired d x th s
  | Flush d => flush_tls_buffer d th s
  | PushLoad d chain => Some ([PushCas d chain (head (pending (dom_ d s)))], th, s)
  | PushCas d chain expected => push_pending spurious d chain expected th s
  | PendingAdd d n => Some ([], th, set_dom d (add_pending t (Z.of_nat n) (dom_ d s)) s)
  | AdvanceLoad d => Some ([ScanStart d (Advance (global_epoch (dom_ d s)))], th, s)
  | ScanStart d p => Some ([Scan d p 0 (num_batches (dom_ d s) * kBatchSize)], th, s)
  | Scan d p i total => for_each_active_slot d p i total th s
  | ScanLocal d p i total => visit_slot d p i total th s
  | ScanEntry d p i total local => visit_entry d p i total local th s
  | AdvanceCas d current => advance_cas now d current th s
  | CapacityAdvance d => maybe_capacity_advance d th s
  | CasLoad d => Some ([AdvanceCas d (global_epoch (dom_ d s))], th, s)
  | TimeAdvance d => maybe_time_advance now d th s
  | AutoReclaim d => maybe_auto_reclaim d th s
  | AutoCas d => begin_auto_reclaim d th s
  | AutoDone d => let D := dom_ d s in Some ([], th, set_dom d (with_setup false (setup D) D) s)
  | TryReclaim d b => Some ([Flush d; Exchange d b], th, s)
  | Exchange d b => exchange_pending d b th s
  | MinStart d b todo => compute_min_epoch now d b todo th s
  | MinGlobal d b todo => Some ([FreeLoop d b (u64 (global_epoch (dom_ d s) + 1)) 0 0 todo []], th, s)
  | FreeLoop d b min processed count todo kept => reclaim_loop d b min processed count todo kept th s
  | AddReclaimed d n => Some ([], th, set_dom d (bump reclaim_total n (dom_ d s)) s)
  | PendingRelease d n => Some ([], th, set_dom d (add_pending t (- n) (dom_ d s)) s)
  | DropBuffer => Some (match entries th, owner_domain th with _ :: _, Some d => [Flush d] | _, _ => [] end, th, s)
  | DropCache => Some (match owner th, slot_index th with Some d, Some i => [ReleaseLocal d i; DropOwner] | _, _ => [] end, th, s)
  | DropOwner => Some ([], with_cache None None (cs_depth th) th, s)
  end.

(** * Calls and schedules *)

(** What an idle thread can begin: a guard, the read of a reachable object under
    a valid guard, the creation, unlinking and retirement of objects, the
    maintenance calls, its thread-exit destructors, and the setters. *)
Inductive call :=
  | CallEnter (d : Z) | CallExit (d : Z) | CallRead (x : obj) | CallNew (x : obj) | CallUnlink (x : obj) | CallRetire (x : obj)
  | CallFlush (d : Z) | CallReclaim (d batch_size : Z) | CallTimeAdvance (d : Z) | CallDropBuffer | CallDropCache | CallSet (d : Z) (c : settings).

Definition current_thread_has_slot (d : Z) (th : thread) : bool := bool_decide (owner th = Some d) && (0 <? cs_depth th).

Definition set_objects (a l : gset obj) (s : state) : state :=
  State (domains s) (threads s) (claimed s) (epoch_of s) (freed s) a l.

Definition begin_call (t : Z) (c : call) (s : state) : option state :=
  let th := thr t s in
  let start ins := Some (set_thr t (with_code [ins] th) s) in
  match code th with
  | _ :: _ => None
  | [] =>
      match c with
      | CallEnter d => start (Enter d)
      | CallExit d => start (Exit d)
      | CallRead x =>
          if current_thread_has_slot (home x) th && bool_decide (x ∈ linked s) then Some (set_thr t (with_refs (x :: refs th) th) s) else None
      | CallNew x => if bool_decide (x ∈ allocated s) then None else Some (set_objects ({[x]} ∪ allocated s) ({[x]} ∪ linked s) s)
      | CallUnlink x => if bool_decide (x ∈ linked s) then Some (set_objects (allocated s) (linked s ∖ {[x]}) s) else None
      | CallRetire x => if bool_decide (x ∈ allocated s /\ x ∉ linked s) then start (Claim (home x) x) else None
      | CallFlush d => start (Flush d)
      | CallReclaim d b => start (TryReclaim d b)
      | CallTimeAdvance d => start (TimeAdvance d)
      | CallDropBuffer => start DropBuffer
      | CallDropCache => start DropCache
      | CallSet d c => let D := dom_ d s in Some (set_dom d (with_setup (reclaim_in_progress D) c D) s)
      end
  end.

Inductive move := Begin (c : call) | Step (now : Z) (spurious : bool).

Definition step (tm : Z * move) (s : state) : option state :=
  let '(t, m) := tm in
  match m with
  | Begin c => begin_call t c s
  | Step now spurious =>
      let th := thr t s in
      match code th with
      | [] => None
      | ins :: rest => '(new, th', s') ← access t now spurious ins th s; Some (set_thr t (with_code (new ++ rest) th') s')
      end
  end.

Fixpoint run (moves : list (Z * move)) (s : state) : option state :=
  match moves with
  | [] => Some s
  | m :: moves => s' ← step m s; run moves s'
  end.

(** The discipline that the guarantees need: a thread inside a critical section
    neither enters another domain nor exits, and the policy is one of the two that
    never skip a stalled reader. *)
Definition safe_policy (p : force_advance_policy) : bool := match p with kFailAdvance | kNeverForceAdvance => true | _ => false end.

Definition disciplined (tm : Z * move) (s : state) : bool :=
  let '(t, m) := tm in
  let th := thr t s in
  match m with
  | Begin (CallEnter d) => (cs_depth th <=? 0) || bool_decide (owner th = Some d)
  | Begin CallDropCache => cs_depth th <=? 0
  | Begin (CallSet _ c) => safe_policy (policy c)
  | _ => true
  end.

Fixpoint run_disciplined (moves : list (Z * move)) (s : state) : option state :=
  match moves with
  | [] => Some s
  | m :: moves => if disciplined m s then s' ← step m s; run_disciplined moves s' else None
  end.

End epoch.
