(* ===== verification/EpochInv.v ===== *)
(** * Epoch-based reclamation: the slots

    The vocabulary of the proof, and the first group of facts with its preservation
    by every step: the slots, the announced epochs and the slot caches. *)
From S2P Require Import Prelude EpochReclamation.

(** * Vocabulary *)

(** The domain an instruction works on, and the objects it holds. *)
Definition place (ins : instr) : option Z :=
  match ins with
  | Claim d _ | PushRetired d _ | Stamp d _ | PushLoad d _ | PushCas d _ _ | ScanStart d _ | Scan d _ _ _ | ScanLocal d _ _ _ | ScanEntry d _ _ _ _
  | MinStart d _ _ | MinGlobal d _ _ | FreeLoop d _ _ _ _ _ _ => Some d
  | _ => None
  end.

Definition carried (p : purpose) : list obj := match p with Advance _ => [] | Minimum _ _ _ _ _ _ todo => todo end.

Definition held (ins : instr) : list obj :=
  match ins with
  | PushRetired _ x | Stamp _ x => [x]
  | PushLoad _ l | PushCas _ l _ | MinStart _ _ l | MinGlobal _ _ l => l
  | ScanStart _ p | Scan _ p _ _ | ScanLocal _ p _ _ | ScanEntry _ p _ _ _ => carried p
  | FreeLoop _ _ _ _ _ todo kept => todo ++ kept
  | _ => []
  end.

Definition unstamped (ins : instr) : bool := match ins with PushRetired _ _ | Stamp _ _ => true | _ => false end.

(** The reader's slot [i] announces [l]: a walk that has passed the slot has a
    minimum of at most [l]. *)
Definition passed (p : purpose) (l : Z) : Prop := match p with Advance _ => True | Minimum _ _ _ min _ _ _ => min <= l end.

Definition covered (ins : instr) (i : nat) (l : Z) : Prop :=
  match ins with
  | Scan _ p k total | ScanLocal _ p k total => (i < total)%nat /\ ((i < k)%nat -> passed p l)
  | ScanEntry _ p k total local => (i < total)%nat /\ ((i < k)%nat -> passed p l) /\ (i = k -> local <= l)
  | MinGlobal _ _ _ => False
  | FreeLoop _ _ min _ _ _ _ => min <= l
  | _ => True
  end.

(** A retirement is at the bottom of its stack, and an object is stamped into a
    buffer of its own domain. *)
Definition retiring (ins : instr) : bool := match ins with Claim _ _ | PushRetired _ _ | Stamp _ _ => true | _ => false end.
Definition bottom_ok (th : thread) (pre tail : list instr) : Prop :=
  tail = [] \/ (exists d x, tail = [Claim d x] /\ pre = []) \/ (exists d x, tail = [PushRetired d x] /\ pre = []) \/
  (exists d x, tail = [Stamp d x] /\ (entries th = [] \/ owner_domain th = Some d \/ exists d' pre', pre = Flush d' :: pre')).
Definition shape_ok (th : thread) : Prop :=
  exists pre tail, code th = pre ++ tail /\ Forall (fun ins => retiring ins = false) pre /\ bottom_ok th pre tail.

Definition purpose_ok (p : purpose) : Prop := match p with Advance _ => True | Minimum fail timeout _ _ _ _ _ => fail = true \/ timeout = 0 end.

Definition slot_of (th : thread) : option (Z * nat) := match owner th, slot_index th with Some d, Some i => Some (d, i) | _, _ => None end.

(** The instructions that touch the slot cache of their thread, and what may be
    below them on the stack. *)
Definition cache_instr (ins : instr) : bool :=
  match ins with
  | Enter _ | EnterLoad _ | EnterStore _ _ | EnterTime _ | TakeOwner _ | AcquireStart _ _ _ | Acquire _ _ _ _ _ | AcquireLocked _ _ _ _ _
  | Exit _ | ExitTime _ _ | ExitStore _ _ | ReleaseLocal _ _ | ReleaseTime _ _ | ReleaseUsed _ _ | DropCache | DropOwner => true
  | _ => false
  end.
Definition below_ok (ins : instr) (rest : list instr) : Prop :=
  match ins with
  | ReleaseLocal _ _ | ReleaseTime _ _ | ReleaseUsed _ _ => rest = [] \/ (exists d, rest = [TakeOwner d]) \/ rest = [DropOwner]
  | _ => rest = []
  end.

Definition total (D : epoch_domain) : nat := (num_batches D * kBatchSize)%nat.
Definition local (d : Z) (i : nat) (s : state) : Z := local_epoch (slot i (dom_ d s)).

Definition top_ok (s : state) (th : thread) (ins : instr) : Prop :=
  match ins with
  | Enter d => cs_depth th <= 0 \/ owner th = Some d
  | EnterLoad d => cs_depth th <= 0 /\ exists i, slot_of th = Some (d, i)
  | EnterStore d observed => cs_depth th <= 0 /\ observed <= global_epoch (dom_ d s) /\ exists i, slot_of th = Some (d, i)
  | EnterTime d => cs_depth th <= 0 /\ exists i, slot_of th = Some (d, i) /\ local d i s <= global_epoch (dom_ d s)
  | TakeOwner _ | DropOwner | DropCache => cs_depth th <= 0
  | AcquireStart d _ _ => cs_depth th <= 0 /\ owner th = Some d /\ slot_index th = None
  | Acquire d _ _ _ tot | AcquireLocked d _ _ _ tot => cs_depth th <= 0 /\ owner th = Some d /\ slot_index th = None /\ (tot <= total (dom_ d s))%nat
  | ExitTime d i | ExitStore d i | ReleaseLocal d i | ReleaseTime d i | ReleaseUsed d i => cs_depth th <= 0 /\ slot_of th = Some (d, i)
  | _ => True
  end.
Definition cache_ok (s : state) (th : thread) : Prop :=
  match code th with
  | [] => True
  | ins :: rest => if cache_instr ins then top_ok s th ins /\ below_ok ins rest else Forall (fun i => cache_instr i = false) rest
  end.

Definition scan_ok (ins : instr) : Prop :=
  match ins with
  | ScanStart _ p | Scan _ p _ _ | ScanLocal _ p _ _ => purpose_ok p
  | ScanEntry _ p _ _ _ => match p with Advance _ => False | Minimum fail _ _ _ _ _ _ => fail = true end
  | _ => True
  end.

Lemma dom_set d d' D s : dom_ d' (set_dom d D s) = if decide (d' = d) then D else dom_ d' s.
Proof. unfold dom_, set_dom. cbn. case_decide; subst; [by rewrite lookup_insert_eq|by rewrite lookup_insert_ne]. Qed.
Lemma thr_set t t' th s : thr t' (set_thr t th s) = if decide (t' = t) then th else thr t' s.
Proof. unfold thr, set_thr. cbn. case_decide; subst; [by rewrite lookup_insert_eq|by rewrite lookup_insert_ne]. Qed.
Lemma slot_with i j sl D : slot i (with_slot j sl D) = if decide (i = j) then sl else slot i D.
Proof. unfold slot, with_slot. cbn. case_decide; subst; [by rewrite lookup_insert_eq|by rewrite lookup_insert_ne]. Qed.

Lemma slot_bump i c n D : slot i (bump c n D) = slot i D.
Proof. done. Qed.
Lemma slot_mutex i nb m D : slot i (with_mutex nb m D) = slot i D.
Proof. done. Qed.

Lemma slot_of_index th d i j : slot_of th = Some (d, i) -> slot_index th = Some j -> slot_of th = Some (d, j).
Proof. unfold slot_of. intros H1 H2. rewrite H2 in *. destruct (owner th); congruence. Qed.

(** Exposes the body of an access. *)
Ltac expand_access :=
  cbv beta iota zeta delta [EpochReclamation.access enter_critical enter_store enter_time acquire_slot acquire_slot_locked
    exit_critical release_used claim_retired push_retired stamp_retired flush_tls_buffer
    push_pending for_each_active_slot visit_slot visit_entry advance_cas maybe_capacity_advance maybe_time_advance
    maybe_auto_reclaim begin_auto_reclaim exchange_pending compute_min_epoch reclaim_loop].
Ltac expand_access_in E :=
  cbv beta iota zeta delta [EpochReclamation.access enter_critical enter_store enter_time acquire_slot acquire_slot_locked
    exit_critical release_used claim_retired push_retired stamp_retired flush_tls_buffer
    push_pending for_each_active_slot visit_slot visit_entry advance_cas maybe_capacity_advance maybe_time_advance
    maybe_auto_reclaim begin_auto_reclaim exchange_pending compute_min_epoch reclaim_loop] in E.

(** Splits an access into the cases of its definition. *)
Ltac access_cases E :=
  expand_access_in E;
  repeat (match type of E with
          | context [match ?x with _ => _ end] => destruct x eqn:?
          | mbind _ _ = Some _ => apply bind_Some in E as (? & ? & E)
          end; try discriminate E);
  try (injection E as <- <- <-).

Ltac dom_case := rewrite ?dom_set; repeat match goal with |- context [decide (?a = ?b)] => destruct (decide (a = b)); subst end.
Ltac cache_eq := unfold slot_of; cbn; repeat match goal with H : slot_index _ = _ |- _ => rewrite H | H : owner _ = _ |- _ => rewrite H end; try done; try by destruct (owner _).

Section inv.
Context (shard_of : Z -> Z) (home : obj -> Z).
Implicit Types (t d x : Z) (i : nat) (ins : instr) (th : thread) (s : state).

Abbreviation access := (access shard_of).
Abbreviation step := (step shard_of home).

(** ** The slots *)

Record slots_ok (n : Z) s : Prop := {
  so_global d : 0 <= global_epoch (dom_ d s) <= n;
  so_slot t d i : slot_of (thr t s) = Some (d, i) -> used (slot i (dom_ d s)) = true /\ (i < total (dom_ d s))%nat;
  so_uniq t t' p : slot_of (thr t s) = Some p -> slot_of (thr t' s) = Some p -> t = t';
  so_active t : 0 < cs_depth (thr t s) -> exists d i, slot_of (thr t s) = Some (d, i) /\ local d i s <= global_epoch (dom_ d s);
  so_cache t : cache_ok s (thr t s);
  so_scan t : Forall scan_ok (code (thr t s));
  so_policy d : safe_policy (policy (setup (dom_ d s))) = true }.


Lemma access_threads t now sp ins th s new th' s' : access t now sp ins th s = Some (new, th', s') -> threads s' = threads s.
Proof. intros E. destruct ins; access_cases E; done. Qed.

(** What an access may change in the domains: the epoch moves by one, batches
    are added, and of the slots only the thread's own or an unused one. *)
Record dom_moves th i d s s' : Prop := {
  dm_global : global_epoch (dom_ d s) <= global_epoch (dom_ d s') <= global_epoch (dom_ d s) + 1;
  dm_total : (total (dom_ d s) <= total (dom_ d s'))%nat;
  dm_setup : setup (dom_ d s') = setup (dom_ d s);
  dm_slot : slot i (dom_ d s') = slot i (dom_ d s) \/ slot_of th = Some (d, i) \/ used (slot i (dom_ d s)) = false }.

Lemma dom_moves_slots th i d s D' : global_epoch D' = global_epoch (dom_ d s) -> num_batches D' = num_batches (dom_ d s) -> setup D' = setup (dom_ d s) ->
  (slot i D' = slot i (dom_ d s) \/ slot_of th = Some (d, i) \/ used (slot i (dom_ d s)) = false) -> dom_moves th i d s (set_dom d D' s).
Proof. intros H1 H2 H3 H4. split; rewrite dom_set, decide_True by done; unfold total; [lia|rewrite H2; lia|done|done]. Qed.

Lemma dom_moves_other th i d d' D' s : d' <> d -> dom_moves th i d s (set_dom d' D' s).
Proof. intros Hd. split; rewrite dom_set, decide_False by done; auto; lia. Qed.

Lemma dom_moves_same th i d s s' : domains s' = domains s -> dom_moves th i d s s'.
Proof. intros Hd. split; unfold dom_; rewrite Hd; auto; lia. Qed.

Lemma access_dom t now sp ins th s new th' s' d i :
  access t now sp ins th s = Some (new, th', s') -> (cache_instr ins = true -> top_ok s th ins) ->
  0 <= global_epoch (dom_ d s) < U64_MAX -> dom_moves th i d s s'.
Proof.
  intros E Htop Hg.
  destruct ins; cbn in Htop; access_cases E; try (by apply dom_moves_same);
    try (match goal with |- dom_moves _ _ _ _ (set_dom ?d' _ _) => destruct (decide (d' = d)) as [->|Hd]; [|by apply dom_moves_other] end);
    try (by apply dom_moves_slots; auto).
  all: try specialize (Htop eq_refl).
  all: try (apply dom_moves_slots; [done..|]; rewrite ?slot_bump, slot_with, ?slot_mutex; case_decide; [subst; right|by left]).
  all: destr; eauto using slot_of_index.
  - split; rewrite dom_set, decide_True by done; [cbn; lia|unfold total; cbn; lia|done|by left].
  - split; rewrite dom_set, decide_True by done; [|done|done|by left]. cbn. apply Z.eqb_eq in Heqb as <-. rewrite wrap_small by lia. lia.
Qed.

Definition own_slot_ok th th' s s' : Prop := forall d i, slot_of th' = Some (d, i) ->
  (slot_of th = Some (d, i) \/ used (slot i (dom_ d s)) = false) /\ used (slot i (dom_ d s')) = true /\ (i < total (dom_ d s'))%nat.

Lemma own_slot_same n t s s' th' : slots_ok n s -> slot_of th' = slot_of (thr t s) ->
  (forall d i, slot_of th' = Some (d, i) -> used (slot i (dom_ d s')) = used (slot i (dom_ d s))) ->
  (forall d, (total (dom_ d s) <= total (dom_ d s'))%nat) -> own_slot_ok (thr t s) th' s s'.
Proof. intros Hs E Hu Ht d i Hp. rewrite (Hu d i Hp). rewrite E in Hp. destruct (so_slot _ _ Hs _ _ _ Hp). specialize (Ht d). split_and!; [by left|done|lia]. Qed.

Lemma own_slot_none th th' s s' : slot_of th' = None -> own_slot_ok th th' s s'.
Proof. intros E d i Hp. congruence. Qed.

Lemma own_slot_acquire d i k th s D' : owner th = Some d -> used (slot i (dom_ d s)) = false -> used (slot i D') = true -> (i < total D')%nat ->
  own_slot_ok th (with_cache (owner th) (Some i) k th) s (set_dom d D' s).
Proof. intros Ho Hf Hu Ht d' i' Hp. unfold slot_of in Hp. cbn in Hp. rewrite Ho in Hp. injection Hp as <- <-. rewrite dom_set, decide_True by done. auto. Qed.

Lemma access_own n t now sp ins s new th' s' : access t now sp ins (thr t s) s = Some (new, th', s') ->
  slots_ok n s -> n < U64_MAX -> (cache_instr ins = true -> top_ok s (thr t s) ins) -> own_slot_ok (thr t s) th' s s'.
Proof.
  intros E Hs Hn Htop.
  assert (forall d, (total (dom_ d s) <= total (dom_ d s'))%nat) as Htot.
  { intros d. eapply (dm_total (thr t s) 0). eapply access_dom; [done..|]. pose proof (so_global _ _ Hs d). lia. }
  revert Htot. destruct ins; cbn in Htop; access_cases E; intros Htot; try (by apply own_slot_none; cache_eq);
    try (apply (own_slot_same n); [done|by cache_eq|intros ? ? Hp; dom_case; try reflexivity; rewrite slot_with; by case_decide; subst|done]).
  all: destruct Htop as (? & ? & ? & ?); [done|]; apply own_slot_acquire; [done..| |]; rewrite ?slot_bump, ?slot_with, ?decide_True by done; [done|].
  all: match goal with H : (_ <? _)%nat = true |- _ => apply Nat.ltb_lt in H end; unfold total in *; cbn; lia.
Qed.

(** A thread inside its critical section writes no slot. *)
Lemma access_inside t now sp ins th s new th' s' d i : access t now sp ins th s = Some (new, th', s') ->
  (cache_instr ins = true -> top_ok s th ins) -> 0 < cs_depth th -> slot i (dom_ d s') = slot i (dom_ d s).
Proof.
  intros E Htop Hd. destruct ins; cbn in Htop; access_cases E; try reflexivity; dom_case; try reflexivity.
  all: specialize (Htop eq_refl); destr; lia.
Qed.

Lemma access_slot n t now sp ins s new th' s' t' d i : access t now sp ins (thr t s) s = Some (new, th', s') ->
  slots_ok n s -> n < U64_MAX -> (cache_instr ins = true -> top_ok s (thr t s) ins) ->
  slot_of (thr t' s) = Some (d, i) -> t' <> t \/ 0 < cs_depth (thr t s) -> slot i (dom_ d s') = slot i (dom_ d s).
Proof.
  intros E Hs Hn Htop Hp [Ht|Hd]; [|by eapply access_inside].
  destruct (dm_slot _ _ _ _ _ (access_dom _ _ _ _ _ _ _ _ _ d i E Htop ltac:(pose proof (so_global _ _ Hs d); lia))) as [?|[Hq|Hq]]; [done| |].
  - destruct Ht. by eapply so_uniq.
  - destruct (so_slot _ _ Hs _ _ _ Hp). congruence.
Qed.

Definition depth_ok th s : Prop := 0 < cs_depth th -> exists d i, slot_of th = Some (d, i) /\ local d i s <= global_epoch (dom_ d s).

Lemma access_depth n t now sp ins s new th' s' : access t now sp ins (thr t s) s = Some (new, th', s') ->
  slots_ok n s -> n < U64_MAX -> (cache_instr ins = true -> top_ok s (thr t s) ins) -> depth_ok th' s'.
Proof.
  intros E Hs Hn Htop.
  assert (forall th'', slot_of th'' = slot_of (thr t s) -> (0 < cs_depth th'' -> 0 < cs_depth (thr t s)) -> depth_ok th'' s') as Hsame.
  { intros th'' Eq Hd Hp. destruct (so_active _ _ Hs t (Hd Hp)) as (d & i & Hi & Hl). exists d, i. rewrite Eq. split; [done|].
    unfold local in *. rewrite (access_slot n _ _ _ _ _ _ _ _ t d i E Hs Hn Htop Hi (or_intror (Hd Hp))).
    pose proof (dm_global _ _ _ _ _ (access_dom _ _ _ _ _ _ _ _ _ d i E Htop ltac:(pose proof (so_global _ _ Hs d); lia))). lia. }
  destruct ins; cbn in Htop; access_cases E; try (by apply Hsame); try (apply Hsame; [by cache_eq|cbn; lia]).
  all: specialize (Htop eq_refl); try (intros Hp; cbn in Hp; destr; lia).
  destruct Htop as (_ & i & Hi & Hl). intros _. exists d, i. split; [done|]. unfold local in *. rewrite dom_set, decide_True, slot_with by done. cbn.
  case_decide; [|done]. by subst.
Qed.

Lemma cache_ok_noncache s th : Forall (fun ins => cache_instr ins = false) (code th) -> cache_ok s th.
Proof. unfold cache_ok. destruct (code th) as [|ins rest]; [done|]. intros [-> H]%Forall_cons. done. Qed.

Lemma access_noncache t now sp ins th s new th' s' : access t now sp ins th s = Some (new, th', s') ->
  cache_instr ins = false -> Forall (fun ins => cache_instr ins = false) new.
Proof. intros E Hc. destruct ins; try discriminate Hc; access_cases E; repeat constructor; repeat case_match; done. Qed.

Lemma access_cache n t now sp ins rest s new th' s' : access t now sp ins (thr t s) s = Some (new, th', s') ->
  slots_ok n s -> n < U64_MAX -> code (thr t s) = ins :: rest -> cache_ok s' (with_code (new ++ rest) th').
Proof.
  intros E Hs Hn Hc. pose proof (so_cache _ _ Hs t) as Hok. unfold cache_ok in Hok. rewrite Hc in Hok.
  destruct (cache_instr ins) eqn:Hk.
  - destruct Hok as [Htop Hb]. destruct ins; try discriminate Hk; cbn in Htop, Hb; try (rewrite Hb); access_cases E; try done; destr.
    all: unfold cache_ok; cbn [app code with_code cache_instr].
    all: try (split; [cbn [top_ok]|by cbn; eauto]).
    all: repeat match goal with H : (_ <? _) = false |- _ => apply Z.ltb_ge in H end.
    all: try (split_and!; cbn; try done; eauto using slot_of_index; fail).
    all: try (unfold slot_of; cbn; repeat match goal with H : slot_index _ = _ |- _ => rewrite H | H : owner _ = _ |- _ => rewrite H end; split_and!; eauto; lia).
    + split_and!; cbn; try done. destruct (Z.lt_ge_cases 0 (cs_depth (thr t s))) as [Hd|]; [|lia].
      destruct (so_active _ _ Hs t Hd) as (d' & i & Hi & _). unfold slot_of in Hi. rewrite Heqo in Hi. by destruct (owner _).
    + destruct Htop; [|congruence]. split; [done|by cache_eq].
    + destruct Htop; [done|congruence].
    + destruct Htop; [done|congruence].
    + split; [done|]. exists x. split; [by eapply slot_of_index|]. unfold local. rewrite dom_set, decide_True, slot_with, decide_True by done. done.
    + split_and!; [done..|]. by rewrite dom_set, decide_True.
    + destruct Hb as [->|[[d' ->]| ->]]; cbn; auto.
  - apply cache_ok_noncache, Forall_app. split; [by eapply access_noncache|done].
Qed.

Lemma access_scans t now sp ins th s new th' s' : access t now sp ins th s = Some (new, th', s') ->
  (forall d, safe_policy (policy (setup (dom_ d s))) = true) -> scan_ok ins -> Forall scan_ok new.
Proof.
  intros E Hp Hi. destruct ins; access_cases E; try (by repeat constructor); cbn in Hi; repeat (case_match; subst); repeat apply Forall_cons_2; try apply Forall_nil_2; cbn; auto.
  all: try (destruct Hi as [?| ->]; [done|discriminate]).
  all: try (pose proof (Hp d) as Hd; match goal with H : policy _ = _ |- _ => rewrite H in Hd end; discriminate).
  all: try discriminate.
Qed.

(** Facts of a thread that does not move carry over to a state whose domains
    moved, when its own slot did not. *)
Lemma cache_ok_mono th s s' : cache_ok s th ->
  (forall d, global_epoch (dom_ d s) <= global_epoch (dom_ d s')) -> (forall d, (total (dom_ d s) <= total (dom_ d s'))%nat) ->
  (forall d i, slot_of th = Some (d, i) -> slot i (dom_ d s') = slot i (dom_ d s)) -> cache_ok s' th.
Proof.
  unfold cache_ok. intros Hok Hg Ht Hs. destruct (code th) as [|ins rest]; [done|]. destruct (cache_instr ins) eqn:Hk; [|done].
  destruct Hok as [Htop Hb]. split; [|done]. destruct ins; try done; cbn in *; destr; try (specialize (Hg d)); try (specialize (Ht d)); split_and!; eauto; try lia.
  eexists. split; [done|]. unfold local in *. rewrite Hs by done. lia.
Qed.

(** ** Steps keep the slots *)

Lemma step_access t now sp s s' : step (t, Step now sp) s = Some s' -> exists ins rest new th' s1,
  code (thr t s) = ins :: rest /\ access t now sp ins (thr t s) s = Some (new, th', s1) /\ s' = set_thr t (with_code (new ++ rest) th') s1.
Proof.
  cbn. destruct (code (thr t s)) as [|ins rest]; [done|]. intros E. apply bind_Some in E as ([[new th'] s1] & E & Es). injection Es as <-. eauto 10.
Qed.

Lemma top_of n t s ins rest : slots_ok n s -> code (thr t s) = ins :: rest -> cache_instr ins = true -> top_ok s (thr t s) ins.
Proof. intros Hs Hc Hk. pose proof (so_cache _ _ Hs t) as H. unfold cache_ok in H. rewrite Hc, Hk in H. apply H. Qed.

Lemma dom_set_thr d t th s : dom_ d (set_thr t th s) = dom_ d s.
Proof. done. Qed.

Lemma slots_step n t now sp s s' : slots_ok n s -> n < U64_MAX -> step (t, Step now sp) s = Some s' -> slots_ok (n + 1) s'.
Proof.
  intros Hs Hn (ins & rest & new & th' & s1 & Hc & E & ->)%step_access. pose proof (top_of _ _ _ _ _ Hs Hc) as Htop.
  assert (forall d i, dom_moves (thr t s) i d s s1) as Hm by (intros d i; eapply access_dom; [done..|]; pose proof (so_global _ _ Hs d); lia).
  assert (forall t', t' <> t -> thr t' s1 = thr t' s) as Hthr by (intros t' _; unfold thr; by rewrite (access_threads _ _ _ _ _ _ _ _ _ E)).
  pose proof (access_own n _ _ _ _ _ _ _ _ E Hs Hn Htop) as Hown.
  assert (forall t' d i, t' <> t -> slot_of (thr t' s) = Some (d, i) -> slot i (dom_ d s1) = slot i (dom_ d s)) as Hother
    by (intros t' d i Ht Hp; eapply access_slot; eauto).
  split.
  - intros d. rewrite dom_set_thr. pose proof (so_global _ _ Hs d). pose proof (dm_global _ _ _ _ _ (Hm d 0%nat)). lia.
  - intros t' d i. rewrite thr_set, dom_set_thr. case_decide as Ht; subst; [apply Hown|]. rewrite Hthr by done. intros Hp.
    destruct (so_slot _ _ Hs _ _ _ Hp). rewrite (Hother _ _ _ Ht Hp). split; [done|]. pose proof (dm_total _ _ _ _ _ (Hm d 0%nat)). lia.
  - intros t1 t2 [d i]. rewrite !thr_set. case_decide; case_decide; subst; [done| | |]; intros H1 H2; rewrite ?Hthr in * by done.
    + destruct (Hown d i H1) as [[?|Hf] _]; [by eapply so_uniq|]. destruct (so_slot _ _ Hs _ _ _ H2). congruence.
    + destruct (Hown d i H2) as [[?|Hf] _]; [by eapply so_uniq|]. destruct (so_slot _ _ Hs _ _ _ H1). congruence.
    + by eapply so_uniq.
  - intros t'. rewrite thr_set. case_decide as Ht; subst; [exact (access_depth n _ _ _ _ _ _ _ _ E Hs Hn Htop)|]. rewrite Hthr by done. intros Hd.
    destruct (so_active _ _ Hs t' Hd) as (d & i & Hi & Hl). exists d, i. split; [done|]. unfold local in *. rewrite !dom_set_thr, (Hother _ _ _ Ht Hi).
    pose proof (dm_global _ _ _ _ _ (Hm d 0%nat)). lia.
  - intros t'. rewrite thr_set. case_decide as Ht; subst; [exact (access_cache n _ _ _ _ _ _ _ _ _ E Hs Hn Hc)|]. rewrite Hthr by done.
    apply (cache_ok_mono _ s); [apply (so_cache _ _ Hs)|intros d..|intros d i Hp]; rewrite ?dom_set_thr; [apply (Hm d 0%nat)|apply (Hm d 0%nat)|eauto].
  - intros t'. rewrite thr_set. case_decide as Ht; subst; [|rewrite Hthr by done; apply (so_scan _ _ Hs)].
    pose proof (so_scan _ _ Hs t) as Hsc. rewrite Hc in Hsc. apply Forall_cons in Hsc as [H1 H2]. cbn. apply Forall_app. split; [|done].
    eapply access_scans; [done|apply (so_policy _ _ Hs)|done].
  - intros d. rewrite dom_set_thr, (dm_setup _ _ _ _ _ (Hm d 0%nat)). apply (so_policy _ _ Hs).
Qed.

Lemma slots_set_thr n t th' s : slots_ok n s -> slot_of th' = slot_of (thr t s) -> cs_depth th' = cs_depth (thr t s) ->
  cache_ok s th' -> Forall scan_ok (code th') -> slots_ok n (set_thr t th' s).
Proof.
  intros Hs Eo Ed Hc Hsc. assert (forall t', slot_of (thr t' (set_thr t th' s)) = slot_of (thr t' s)) as Ho by (intros t'; rewrite thr_set; case_decide; by subst).
  split; intros *; rewrite ?Ho, ?dom_set_thr; [apply Hs..| | | |apply Hs]; rewrite thr_set; case_decide; subst; rewrite ?Ed; try done; apply Hs.
Qed.

Lemma slots_call n t c s s' : slots_ok n s -> disciplined (t, Begin c) s = true -> begin_call home t c s = Some s' -> slots_ok n s'.
Proof.
  intros Hs Hd E. unfold begin_call in E. destruct (code (thr t s)) eqn:Hc; [|done].
  assert (forall ins, (cache_instr ins = true -> top_ok s (thr t s) ins /\ below_ok ins []) -> scan_ok ins -> slots_ok n (set_thr t (with_code [ins] (thr t s)) s)) as Hstart.
  { intros ins Htop Hsc. apply slots_set_thr; [done..| |by repeat constructor]. unfold cache_ok. cbn. destruct (cache_instr ins) eqn:Hk; [|done].
    destruct ins; try done; by apply Htop. }
  destruct c; cbn in E, Hd; repeat case_match; simplify_eq; try (by apply Hstart).
  - apply Hstart; [|done]. intros _. split; [|done]. cbn. apply orb_true_iff in Hd as [?%Z.leb_le|?%bool_decide_eq_true]; auto.
  - apply slots_set_thr; [done..| |apply Hs]. apply (so_cache _ _ Hs t).
  - split; apply Hs.
  - split; apply Hs.
  - apply Hstart; [|done]. intros _. apply Z.leb_le in Hd. done.
  - assert (forall d' i, slot i (dom_ d' (set_dom d (with_setup (reclaim_in_progress (dom_ d s)) c (dom_ d s)) s)) = slot i (dom_ d' s)) as H1 by (intros; by dom_case).
    assert (forall d', global_epoch (dom_ d' (set_dom d (with_setup (reclaim_in_progress (dom_ d s)) c (dom_ d s)) s)) = global_epoch (dom_ d' s)) as H2 by (intros; by dom_case).
    assert (forall d', total (dom_ d' (set_dom d (with_setup (reclaim_in_progress (dom_ d s)) c (dom_ d s)) s)) = total (dom_ d' s)) as H3 by (intros; by dom_case).
    split; intros *; unfold local; try setoid_rewrite H1; try setoid_rewrite H2; try setoid_rewrite H3; try apply Hs.
    + apply (cache_ok_mono _ s); [apply Hs|intros; rewrite ?H2, ?H3; lia..|intros; apply H1].
    + dom_case; [done|apply Hs].
Qed.
End inv.
