(* ===== verification/EpochObjects.v ===== *)
(** * Epoch-based reclamation: the retired objects

    The places where a retired object can be, and that every step keeps it in
    exactly one of them, with its stamp and its domain. *)
From S2P Require Import Prelude EpochReclamation EpochInv.

Section objects.
Context (shard_of : Z -> Z) (home : obj -> Z).
Implicit Types (t d x : Z) (i : nat) (ins : instr) (th : thread) (s : state).

Abbreviation access := (access shard_of).
Abbreviation step := (step shard_of home).

(** * The places of the retired objects *)

Definition places_of th : list obj := entries th ++ (code th ≫= held).
Definition places s : list obj := tkeys places_of (threads s) ++ tkeys pending (domains s) ++ freed s.

Lemma pending_update d D' s : tkeys pending (domains (set_dom d D' s)) ++ pending (dom_ d s) ≡ₚ tkeys pending (domains s) ++ pending D'.
Proof. apply (tkeys_update pending (domains s) domain_new d D' eq_refl). Qed.
Lemma places_update t th' s : tkeys places_of (threads (set_thr t th' s)) ++ places_of (thr t s) ≡ₚ tkeys places_of (threads s) ++ places_of th'.
Proof. apply (tkeys_update places_of (threads s) thread_new t th' eq_refl). Qed.

(** An access moves objects between the thread, the pending list of one domain
    and the freed ones; [ex] is what a successful claim adds. *)
Record objects_move ins new th th' s s' d (ex fx : list obj) : Prop := {
  om_freed : freed s' = freed s ++ fx;
  om_pending : tkeys pending (domains s') ++ pending (dom_ d s) ≡ₚ tkeys pending (domains s) ++ pending (dom_ d s');
  om_local : entries th' ++ (new ≫= held) ++ pending (dom_ d s') ++ fx ≡ₚ entries th ++ held ins ++ pending (dom_ d s) ++ ex;
  om_claimed : claimed s' = list_to_set ex ∪ claimed s;
  om_fresh x : x ∈ ex -> x ∉ claimed s;
  om_nodup : NoDup ex;
  om_claim x : x ∈ ex -> exists d', ins = Claim d' x }.

Lemma move_same ins new th th' s s' : domains s' = domains s -> freed s' = freed s -> claimed s' = claimed s ->
  entries th' ++ (new ≫= held) ≡ₚ entries th ++ held ins -> objects_move ins new th th' s s' 0 [] [].
Proof.
  intros Hd Hf Hc Hp. split; unfold dom_; rewrite ?Hd, ?Hf, ?Hc, ?app_nil_r; try done; [|set_solver|set_solver|constructor|set_solver].
  rewrite !app_assoc, Hp. done.
Qed.

Lemma move_dom ins new th th' s d D' : entries th' ++ (new ≫= held) ++ pending D' ≡ₚ entries th ++ held ins ++ pending (dom_ d s) ->
  objects_move ins new th th' s (set_dom d D' s) d [] [].
Proof.
  intros Hp. split; rewrite ?dom_set, ?decide_True, ?app_nil_r by done; try done; [apply pending_update|set_solver|set_solver|constructor|set_solver].
Qed.

Lemma access_places t now sp ins th s new th' s' : access t now sp ins th s = Some (new, th', s') -> scan_ok ins ->
  exists d ex fx, objects_move ins new th th' s s' d ex fx.
Proof.
  intros E Hsc. destruct ins; access_cases E;
    try (by eexists _, _, _; apply move_same; [done..|]; cbn; rewrite ?app_nil_r; repeat case_match; cbn; rewrite ?app_nil_r; auto);
    try (by eexists _, _, _; apply move_dom; cbn; rewrite ?app_nil_r; auto).
  - exists 0, [x], []. split; try done; [by rewrite app_nil_r|cbn; rewrite ?app_nil_r; solve_Permutation|set_solver|set_solver|apply NoDup_singleton|set_solver].
  - eexists _, _, _. apply move_same; [done..|]. cbn -[reverse]. by rewrite Heql, !app_nil_r, reverse_Permutation.
  - eexists _, _, _. apply move_same; [done..|]. cbn -[reverse]. by rewrite Heql, !app_nil_r, reverse_Permutation.
  - eexists _, _, _. apply move_dom. cbn -[reverse]. by rewrite Heql, !app_nil_r, reverse_Permutation.
  - eexists _, _, _. apply move_dom. cbn. by rewrite Heql, !app_nil_r.
  - eexists _, _, _. apply move_same; [done..|]. cbn. rewrite !app_nil_r. solve_Permutation.
  - exists 0, [], [z]. split; try done; [cbn; rewrite ?app_nil_r; solve_Permutation|set_solver|set_solver|constructor|set_solver].
  - eexists _, _, _. apply move_same; [done..|]. cbn. rewrite !app_nil_r. solve_Permutation.
Qed.

Record objects_ok s : Prop := {
  oo_nodup : NoDup (places s);
  oo_claimed x : x ∈ places s -> x ∈ claimed s;
  oo_kept x : x ∈ claimed s -> x ∈ places s;
  oo_linked x : x ∈ claimed s -> x ∈ allocated s /\ x ∉ linked s;
  oo_epochs x : is_Some (epoch_of s !! x) -> x ∈ claimed s;
  oo_alloc : linked s ⊆ allocated s;
  oo_claims t d x : Claim d x ∈ code (thr t s) -> home x = d /\ x ∈ allocated s /\ x ∉ linked s;
  oo_home t ins d x : ins ∈ code (thr t s) -> place ins = Some d -> x ∈ held ins -> home x = d;
  oo_stamped t ins x : ins ∈ code (thr t s) -> unstamped ins = false -> x ∈ held ins -> is_Some (epoch_of s !! x);
  oo_buffer t x : x ∈ entries (thr t s) -> owner_domain (thr t s) = Some (home x) /\ is_Some (epoch_of s !! x);
  oo_pending d x : x ∈ pending (dom_ d s) -> home x = d /\ is_Some (epoch_of s !! x);
  oo_shape t : shape_ok (thr t s) }.

Lemma step_places ins rest new t th' s s1 d ex fx : code (thr t s) = ins :: rest -> threads s1 = threads s ->
  objects_move ins new (thr t s) th' s s1 d ex fx -> places (set_thr t (with_code (new ++ rest) th') s1) ≡ₚ places s ++ ex.
Proof.
  intros Hc Ht Hm. unfold places. cbn [domains freed threads set_thr]. rewrite (om_freed _ _ _ _ _ _ _ _ _ Hm), Ht.
  pose proof (tkeys_update places_of (threads s) thread_new t (with_code (new ++ rest) th') eq_refl) as Hp. change (default thread_new _) with (thr t s) in Hp.
  unfold places_of at 2 4 in Hp. cbn [code entries with_code] in Hp. rewrite Hc, bind_app in Hp. cbn [mbind list_bind] in Hp.
  pose proof (om_pending _ _ _ _ _ _ _ _ _ Hm) as Hq. pose proof (om_local _ _ _ _ _ _ _ _ _ Hm) as Hl.
  set (A := tkeys places_of (<[t := _]> _)) in *. set (A0 := tkeys places_of (threads s)) in *.
  apply (Permutation_app_inv_r (pending (dom_ d s))), (Permutation_app_inv_r (entries (thr t s) ++ held ins ++ (rest ≫= held))).
  transitivity ((A ++ entries (thr t s) ++ held ins ++ (rest ≫= held)) ++ (tkeys pending (domains s1) ++ pending (dom_ d s)) ++ freed s ++ fx); [solve_Permutation|].
  rewrite Hp, Hq.
  transitivity ((A0 ++ tkeys pending (domains s) ++ freed s) ++ (entries th' ++ (new ≫= held) ++ pending (dom_ d s1) ++ fx) ++ (rest ≫= held)); [solve_Permutation|].
  rewrite Hl. solve_Permutation.
Qed.

Lemma access_retiring t now sp ins th s new th' s' : access t now sp ins th s = Some (new, th', s') -> retiring ins = false ->
  Forall (fun ins => retiring ins = false) new /\ owner_domain th' = owner_domain th /\
  (entries th' = entries th \/ entries th' = []) /\ (forall d, ins = Flush d -> entries th' = [] \/ exists d', new = [Flush d']).
Proof.
  intros E Hr. destruct ins; try discriminate Hr; access_cases E; split_and!; repeat apply Forall_cons_2; try apply Forall_nil_2; cbn; repeat case_match; try done; eauto.
Qed.

Lemma bottom_stamp th d x : entries th = [] \/ owner_domain th = Some d -> shape_ok (with_code [Stamp d x] th).
Proof. intros H. exists [], [Stamp d x]. split_and!; [done..|]. right. right. right. exists d, x. cbn. split; [done|tauto]. Qed.
Lemma bottom_plain th c : Forall (fun ins => retiring ins = false) c -> shape_ok (with_code c th).
Proof. intros H. exists c, []. split_and!; [by rewrite app_nil_r|done|by left]. Qed.

Lemma shape_step t now sp ins rest th s new th' s' : access t now sp ins th s = Some (new, th', s') -> code th = ins :: rest -> shape_ok th ->
  (entries th <> [] -> owner_domain th <> None) -> shape_ok (with_code (new ++ rest) th').
Proof.
  intros E Hc (pre & tail & Hcode & Hpre & Hb) Hbuf. rewrite Hc in Hcode. destruct pre as [|p pre]; cbn in Hcode.
  - destruct Hb as [->|Hb]; [done|]. assert (exists j, tail = [j] /\ retiring j = true) as (j & -> & Hj)
      by (destruct Hb as [(? & ? & -> & _)|[(? & ? & -> & _)|(? & ? & -> & _)]]; eauto).
    injection Hcode as <- ->. rewrite app_nil_r. destruct ins; try discriminate Hj; access_cases E;
      try (by apply bottom_stamp; auto); try (by apply bottom_plain; repeat constructor).
    + exists [], [PushRetired d x]. split_and!; [done..|]. right. right. left. eauto.
    + apply bottom_stamp. right. apply Z.eqb_eq in Heqb as ->. done.
    + exists [Flush z0], [Stamp d x]. split_and!; [done|by repeat constructor|]. right. right. right. exists d, x. split; [done|]. right. right. eauto.
    + by destruct Hbuf.
  - injection Hcode as <- ->. apply Forall_cons in Hpre as [Hp Hpre]. destruct (access_retiring _ _ _ _ _ _ _ _ _ E Hp) as (Hn & Ho & He & Hf).
    exists (new ++ pre), tail. cbn. split_and!; [by rewrite app_assoc|by apply Forall_app|].
    destruct Hb as [->|[(? & ? & _ & ?)|[(? & ? & _ & ?)|(d & x & -> & Hb)]]]; [by left|done..|]. right. right. right. exists d, x. split; [done|].
    cbn. rewrite Ho. destruct Hb as [Hb|[Hb|(d' & pre' & Hb)]]; [destruct He as [->| ->]; auto|auto|]. injection Hb as -> ->.
    destruct (Hf d' eq_refl) as [?|[d'' ->]]; [auto|]. right. right. cbn. eauto.
Qed.

(** Where the objects of the new instructions come from: the instruction, the
    buffer, the pending list, or a claim. *)
Inductive source ins th s (x d : Z) (ins' : instr) : Prop :=
  | FromInstr : x ∈ held ins -> place ins = Some d -> (unstamped ins' = false -> unstamped ins = false) -> source ins th s x d ins'
  | FromBuffer : x ∈ entries th -> owner_domain th = Some d \/ owner_domain th = None -> source ins th s x d ins'
  | FromPending : x ∈ pending (dom_ d s) -> source ins th s x d ins'
  | FromClaim : ins = Claim d x -> unstamped ins' = true -> source ins th s x d ins'.

Lemma access_source t now sp ins th s new th' s' ins' d x : access t now sp ins th s = Some (new, th', s') ->
  ins' ∈ new -> place ins' = Some d -> x ∈ held ins' -> source ins th s x d ins'.
Proof.
  intros E Hi Hp Hx. destruct ins; access_cases E;
    repeat match goal with H : _ ∈ _ ++ _ |- _ => apply elem_of_app in H as [H|H] | H : _ ∈ _ :: _ |- _ => apply elem_of_cons in H as [->|H] | H : _ ∈ [] |- _ => by apply not_elem_of_nil in H end;
    try discriminate Hp; cbn -[reverse] in Hp, Hx; try (injection Hp as <-); try (by apply not_elem_of_nil in Hx);
    try (by apply FromInstr; [cbn; set_solver|done|done]).
  all: try (apply Z.eqb_eq in Heqb as ->).
  all: rewrite ?elem_of_reverse in Hx; try (apply FromBuffer; [by rewrite Heql|by auto]); try (apply FromPending; by rewrite Heql).
  apply list_elem_of_singleton in Hx as ->. by apply FromClaim.
Qed.

Lemma access_buffer t now sp ins th s new th' s' x : access t now sp ins th s = Some (new, th', s') -> x ∈ entries th' ->
  (x ∈ entries th /\ owner_domain th' = owner_domain th) \/ exists d y, ins = Stamp d y /\ entries th' = entries th ++ [y] /\ owner_domain th' = Some d /\
    epoch_of s' = <[y := global_epoch (dom_ d s)]> (epoch_of s).
Proof. intros E Hx. destruct ins; access_cases E; try (by left); try (by right; eexists _, _).
  all: cbn in Hx; try rewrite Heql in Hx; first [by left|by apply not_elem_of_nil in Hx].
Qed.

Lemma access_pending t now sp ins th s new th' s' d x : access t now sp ins th s = Some (new, th', s') -> x ∈ pending (dom_ d s') ->
  x ∈ pending (dom_ d s) \/ (x ∈ held ins /\ place ins = Some d /\ unstamped ins = false).
Proof.
  intros E Hx. destruct ins; access_cases E; try (by left); rewrite dom_set in Hx; destruct (decide (d = _)); subst; cbn in Hx; try (by left).
  - apply elem_of_app in Hx as [?|?]; auto.
  - by apply not_elem_of_nil in Hx.
  - by apply not_elem_of_nil in Hx.
Qed.

Lemma access_epoch t now sp ins th s new th' s' x : access t now sp ins th s = Some (new, th', s') ->
  epoch_of s' !! x = epoch_of s !! x \/ exists d, ins = Stamp d x /\ epoch_of s' !! x = Some (global_epoch (dom_ d s)).
Proof.
  intros E. destruct ins as [| | | | | | | | | | | | | | | |d y| | | | | | | | | | | | | | | | | | | | | | | | | | ]; access_cases E; try (by left).
  all: cbn; destruct (decide (x = y)) as [->|]; [right; exists d; by rewrite lookup_insert_eq|left; by rewrite lookup_insert_ne].
Qed.

Lemma access_client t now sp ins th s new th' s' : access t now sp ins th s = Some (new, th', s') ->
  allocated s' = allocated s /\ linked s' = linked s /\ claimed s ⊆ claimed s' /\ forall d x, Claim d x ∉ new.
Proof. intros E. destruct ins; access_cases E; split_and!; try done; try set_solver; intros ? ?; repeat case_match; rewrite ?elem_of_cons, ?elem_of_nil; try naive_solver. Qed.

Lemma objects_step n t now sp s s' : objects_ok s -> slots_ok n s -> step (t, Step now sp) s = Some s' -> objects_ok s'.
Proof.
  intros Ho Hs (ins & rest & new & th' & s1 & Hc & E & ->)%step_access.
  assert (scan_ok ins) as Hsc by (pose proof (so_scan _ _ Hs t) as H; rewrite Hc in H; by apply Forall_cons in H as [H _]).
  destruct (access_places _ _ _ _ _ _ _ _ _ E Hsc) as (d0 & ex & fx & Hm). pose proof (access_threads _ _ _ _ _ _ _ _ _ _ E) as Hthr.
  pose proof (step_places _ _ _ _ _ _ _ _ _ _ Hc Hthr Hm) as Hp. destruct (access_client _ _ _ _ _ _ _ _ _ E) as (Ha & Hl & Hcl & Hnc).
  assert (ins ∈ code (thr t s)) as Hin by (rewrite Hc; by left). assert (forall ins', ins' ∈ rest -> ins' ∈ code (thr t s)) as Hrest by (rewrite Hc; by right).
  assert (forall x, is_Some (epoch_of s !! x) -> is_Some (epoch_of s1 !! x)) as Hep
    by (intros x Hx; destruct (access_epoch _ _ _ _ _ _ _ _ _ x E) as [->|(d & _ & ->)]; [done|by eexists]).
  assert (forall t', t' <> t -> thr t' s1 = thr t' s) as Hoth by (intros t' _; unfold thr; by rewrite Hthr).
  split.
  - rewrite Hp. apply NoDup_app. split_and!; [apply Ho| |apply Hm]. intros x Hx Hex. by apply (om_fresh _ _ _ _ _ _ _ _ _ Hm x Hex), (oo_claimed _ Ho).
  - intros x. rewrite Hp, elem_of_app. cbn [claimed set_thr]. rewrite (om_claimed _ _ _ _ _ _ _ _ _ Hm), elem_of_union, elem_of_list_to_set.
    intros [Hx|Hx]; [right; by apply (oo_claimed _ Ho)|by left].
  - intros x. rewrite Hp, elem_of_app. cbn [claimed set_thr]. rewrite (om_claimed _ _ _ _ _ _ _ _ _ Hm), elem_of_union, elem_of_list_to_set.
    intros [Hx|Hx]; [by right|left; by apply (oo_kept _ Ho)].
  - intros x. cbn [claimed allocated linked set_thr]. rewrite Ha, Hl, (om_claimed _ _ _ _ _ _ _ _ _ Hm), elem_of_union, elem_of_list_to_set.
    intros [(d & ->)%(om_claim _ _ _ _ _ _ _ _ _ Hm)|Hx]; [|by apply (oo_linked _ Ho)]. by destruct (oo_claims _ Ho t d x Hin) as (_ & ? & ?).
  - intros x. cbn [epoch_of claimed set_thr]. destruct (access_epoch _ _ _ _ _ _ _ _ _ x E) as [->|(d & -> & _)]; intros Hx; apply Hcl; [by apply (oo_epochs _ Ho)|].
    apply (oo_claimed _ Ho). unfold places. rewrite elem_of_app, elem_of_tkeys. left. exists t, (thr t s). split.
    + unfold thr in Hin |- *. destruct (threads s !! t); [done|by apply not_elem_of_nil in Hin].
    + unfold places_of. rewrite elem_of_app, list_elem_of_bind. right. exists (Stamp d x). split; [by left|done].
  - cbn. rewrite Ha, Hl. apply Ho.
  - intros t' d x. rewrite thr_set. cbn [allocated linked set_thr]. rewrite Ha, Hl. case_decide as Ht; subst; [|rewrite Hoth by done; apply (oo_claims _ Ho)].
    cbn. rewrite elem_of_app. intros [Hx|Hx]; [by destruct (Hnc d x)|by apply (oo_claims _ Ho t), Hrest].
  - intros t' ins' d x. rewrite thr_set. case_decide as Ht; subst; [|rewrite Hoth by done; apply (oo_home _ Ho)].
    cbn [code with_code]. rewrite elem_of_app. intros [Hi|Hi] Hpl Hx; [|exact (oo_home _ Ho t ins' d x (Hrest _ Hi) Hpl Hx)].
    destruct (access_source _ _ _ _ _ _ _ _ _ _ _ _ E Hi Hpl Hx) as [H1 H2 _|H1 H2|H1|H1 _].
    + exact (oo_home _ Ho t ins d x Hin H2 H1).
    + destruct (oo_buffer _ Ho t x H1) as [H3 _]. destruct H2; congruence.
    + by apply (oo_pending _ Ho).
    + subst. by apply (oo_claims _ Ho t).
  - intros t' ins' x. rewrite thr_set. cbn [epoch_of set_thr]. case_decide as Ht; subst; [|rewrite Hoth by done; intros; apply Hep; by eapply (oo_stamped _ Ho)].
    cbn [code with_code]. rewrite elem_of_app. intros [Hi|Hi] Hu Hx; apply Hep; [|exact (oo_stamped _ Ho t ins' x (Hrest _ Hi) Hu Hx)].
    assert (exists d, place ins' = Some d) as [d Hpl] by (destruct ins'; cbn in Hx |- *; eauto; by apply not_elem_of_nil in Hx).
    destruct (access_source _ _ _ _ _ _ _ _ _ _ _ _ E Hi Hpl Hx) as [H1 _ H2|H1 _|H1|_ H2]; [|by apply (oo_buffer _ Ho t)|by apply (oo_pending _ Ho d)|congruence].
    by apply (oo_stamped _ Ho t ins); auto.
  - intros t' x. rewrite thr_set. cbn [epoch_of set_thr].
    case_decide as Ht; subst; [|rewrite Hoth by done; intros Hx; destruct (oo_buffer _ Ho t' x Hx); auto]. cbn [entries owner_domain with_code]. intros Hx.
    destruct (access_buffer _ _ _ _ _ _ _ _ _ x E Hx) as [[H1 ->]|(d & y & -> & H1 & H2 & H3)]; [destruct (oo_buffer _ Ho t x H1); auto|].
    rewrite H2, H3. rewrite H1, elem_of_app, list_elem_of_singleton in Hx. assert (home y = d) as Hy by (by apply (oo_home _ Ho t (Stamp d y)); [| |left]).
    destruct Hx as [Hx| ->]; [|rewrite lookup_insert_eq; split; [by rewrite Hy|by eexists]]. destruct (oo_buffer _ Ho t x Hx) as [Hb1 Hb2].
    split; [|rewrite lookup_insert_is_Some; destruct (decide (y = x)); auto].
    destruct (oo_shape _ Ho t) as (pre & tail & Hcode & Hpre & Hb). rewrite Hc in Hcode. destruct pre as [|p pre]; [|injection Hcode as <- _; by apply Forall_cons in Hpre as [? _]].
    destruct Hb as [->|[(? & ? & -> & _)|[(? & ? & -> & _)|(d' & y' & -> & Hb)]]]; try discriminate Hcode. injection Hcode as <- <- _.
    destruct Hb as [Hb|[Hb|(? & ? & ?)]]; [|congruence|done]. rewrite Hb in Hx. by apply not_elem_of_nil in Hx.
  - intros d x. cbn [epoch_of set_thr]. rewrite dom_set_thr. intros Hx.
    destruct (access_pending _ _ _ _ _ _ _ _ _ d x E Hx) as [H1|(H1 & H2 & H3)]; [destruct (oo_pending _ Ho d x H1); auto|].
    split; [exact (oo_home _ Ho t ins d x Hin H2 H1)|]. apply Hep. exact (oo_stamped _ Ho t ins x Hin H3 H1).
  - intros t'. rewrite thr_set. case_decide as Ht; subst; [|rewrite Hoth by done; apply (oo_shape _ Ho)].
    eapply shape_step; [done|done|apply (oo_shape _ Ho)|]. intros He Hn. destruct (entries (thr t s)) as [|x l] eqn:El; [done|].
    destruct (oo_buffer _ Ho t x) as [H1 _]; [rewrite El; by left|congruence].
Qed.

(** ** Calls *)

Lemma places_set_thr t th' s : places_of th' = places_of (thr t s) -> places (set_thr t th' s) ≡ₚ places s.
Proof.
  intros Hp. unfold places. cbn [domains freed set_thr]. apply Permutation_app_tail. pose proof (places_update t th' s) as H. rewrite Hp in H.
  by apply Permutation_app_inv_r in H.
Qed.

Lemma objects_start t ins s : objects_ok s -> code (thr t s) = [] -> held ins = [] -> retiring ins = false \/
  (exists d x, ins = Claim d x /\ home x = d /\ x ∈ allocated s /\ x ∉ linked s) -> objects_ok (set_thr t (with_code [ins] (thr t s)) s).
Proof.
  intros Ho Hc Hh Hr. assert (places (set_thr t (with_code [ins] (thr t s)) s) ≡ₚ places s) as Hp
    by (apply places_set_thr; unfold places_of; cbn; by rewrite Hc, Hh).
  split; try apply Ho.
  - rewrite Hp. apply Ho.
  - intros x. rewrite Hp. apply (oo_claimed _ Ho).
  - intros x. rewrite Hp. apply (oo_kept _ Ho).
  - intros t' d x. rewrite thr_set. case_decide; [|apply (oo_claims _ Ho)]. cbn. intros Hx%list_elem_of_singleton; subst ins. destruct Hr as [?|(? & ? & [= <- <-] & ?)]; [done|by destr].
  - intros t' ins' d x. rewrite thr_set. case_decide; [|apply (oo_home _ Ho)]. cbn. intros ->%list_elem_of_singleton. rewrite Hh. by intros _ ?%not_elem_of_nil.
  - intros t' ins' x. rewrite thr_set. case_decide; [|apply (oo_stamped _ Ho)]. cbn. intros ->%list_elem_of_singleton. rewrite Hh. by intros _ ?%not_elem_of_nil.
  - intros t' x. rewrite thr_set. case_decide; subst; apply (oo_buffer _ Ho).
  - intros t'. rewrite thr_set. case_decide; subst; [|apply (oo_shape _ Ho)]. destruct Hr as [Hr|(d & x & -> & _)]; [apply bottom_plain; by repeat constructor|].
    exists [], [Claim d x]. split_and!; [done..|]. right. left. eauto.
Qed.

Lemma objects_call t c s s' : objects_ok s -> begin_call home t c s = Some s' -> objects_ok s'.
Proof.
  intros Ho E. unfold begin_call in E. destruct (code (thr t s)) eqn:Hc; [|done].
  destruct c; cbn in E; repeat case_match; simplify_eq; try (by apply objects_start; auto).
  - split; try apply Ho.
    + rewrite places_set_thr; [apply Ho|done].
    + intros y. rewrite places_set_thr by done. apply (oo_claimed _ Ho).
    + intros y. rewrite places_set_thr by done. apply (oo_kept _ Ho).
    + intros t' d y. rewrite thr_set. dom_case; apply (oo_claims _ Ho).
    + intros t' ins d y. rewrite thr_set. dom_case; apply (oo_home _ Ho).
    + intros t' ins y. rewrite thr_set. dom_case; apply (oo_stamped _ Ho).
    + intros t' y. rewrite thr_set. dom_case; apply (oo_buffer _ Ho).
    + intros t'. rewrite thr_set. dom_case; apply (oo_shape _ Ho).
  - apply bool_decide_eq_false in H. split; try apply Ho; cbn.
    + intros y Hy. destruct (oo_linked _ Ho y Hy). assert (y <> x) by congruence. set_solver.
    + pose proof (oo_alloc _ Ho). set_solver.
    + intros t' d y Hy. destruct (oo_claims _ Ho t' d y Hy) as (? & ? & ?). assert (y <> x) by congruence. set_solver.
  - split; try apply Ho; cbn.
    + intros y Hy. destruct (oo_linked _ Ho y Hy). set_solver.
    + pose proof (oo_alloc _ Ho). set_solver.
    + intros t' d y Hy. destruct (oo_claims _ Ho t' d y Hy) as (? & ? & ?). set_solver.
  - apply bool_decide_eq_true in H as [? ?]. apply objects_start; [done..|]. right. eauto 10.
  - assert (forall d', pending (dom_ d' (set_dom d (with_setup (reclaim_in_progress (dom_ d s)) c (dom_ d s)) s)) = pending (dom_ d' s)) as Hpd by (intros; by dom_case).
    assert (places (set_dom d (with_setup (reclaim_in_progress (dom_ d s)) c (dom_ d s)) s) ≡ₚ places s) as Hp.
    { unfold places. cbn [threads freed set_dom]. apply Permutation_app_head, Permutation_app_tail.
      pose proof (pending_update d (with_setup (reclaim_in_progress (dom_ d s)) c (dom_ d s)) s) as H. cbn [pending with_setup] in H. by apply Permutation_app_inv_r in H. }
    split; try apply Ho; [rewrite Hp; apply Ho|intros y; rewrite Hp; apply (oo_claimed _ Ho)|intros y; rewrite Hp; apply (oo_kept _ Ho)|]. intros d' y. rewrite Hpd. apply (oo_pending _ Ho).
Qed.
End objects.
