(* ===== verification/EpochClaims.v ===== *)
(** * Epoch-based reclamation: what it guarantees

    The third group of facts, which ties the objects a reader holds to the
    reclaimers that hold them too, and the theorems. *)
From S2P Require Import Prelude EpochReclamation EpochInv EpochObjects.

Section refs.
Context (shard_of : Z -> Z) (home : obj -> Z).
Implicit Types (t d x : Z) (i : nat) (ins : instr) (th : thread) (s : state).

Abbreviation access := (access shard_of).
Abbreviation step := (step shard_of home).
Abbreviation run := (run shard_of home).
Abbreviation run_disciplined := (run_disciplined shard_of home).

(** A reader's object is not freed, its stamp is not below the epoch the reader
    announced, and every reclaimer that holds it has seen that epoch or still will. *)
Record refs_ok (n : Z) s : Prop := {
  ro_refs t x : x ∈ refs (thr t s) -> 0 < cs_depth (thr t s) /\ (exists i, slot_of (thr t s) = Some (home x, i)) /\ x ∈ allocated s /\ x ∉ freed s;
  ro_bound x e : epoch_of s !! x = Some e -> 0 <= e <= n;
  ro_epoch t x i e : x ∈ refs (thr t s) -> slot_of (thr t s) = Some (home x, i) -> epoch_of s !! x = Some e -> local (home x) i s <= e;
  ro_cover t x i r ins : x ∈ refs (thr t s) -> slot_of (thr t s) = Some (home x, i) -> ins ∈ code (thr r s) -> x ∈ held ins ->
    covered ins i (local (home x) i s) }.

Lemma access_refs t now sp ins th s new th' s' x : access t now sp ins th s = Some (new, th', s') -> (cache_instr ins = true -> top_ok s th ins) ->
  x ∈ refs th' -> 0 < cs_depth th -> x ∈ refs th /\ slot_of th' = slot_of th /\ 0 < cs_depth th'.
Proof.
  intros E Htop Hx Hd. destruct ins; cbn in Htop; access_cases E; try (by split_and!); try (specialize (Htop eq_refl); by destr; lia);
    try (by apply not_elem_of_nil in Hx); try (split_and!; [done|by cache_eq|cbn; lia]).
Qed.

Lemma access_freed t now sp ins th s new th' s' : access t now sp ins th s = Some (new, th', s') ->
  freed s' = freed s \/ exists d b min processed count x todo kept, ins = FreeLoop d b min processed count (x :: todo) kept /\
    freed s' = freed s ++ [x] /\ u64 (default 0 (epoch_of s !! x) + 1) < min.
Proof.
  intros E. destruct ins; access_cases E; try (by left); right. apply Z.ltb_lt in Heqb0. by eexists _, _, _, _, _, _, _, _.
Qed.

Lemma access_cover t now sp ins th s new th' s' ins' d i x l : access t now sp ins th s = Some (new, th', s') -> scan_ok ins ->
  ins' ∈ new -> x ∈ held ins' -> place ins' = Some d -> used (slot i (dom_ d s)) = true -> (i < total (dom_ d s))%nat ->
  local_epoch (slot i (dom_ d s)) = l -> l < U64_MAX -> (x ∈ held ins -> covered ins i l) -> covered ins' i l.
Proof.
  intros E Hsc Hi Hx Hp Hu Ht Hl Hb Hc. destruct ins; cbn in Hsc; access_cases E;
    repeat match goal with H : _ ∈ _ ++ _ |- _ => apply elem_of_app in H as [H|H] | H : _ ∈ _ :: _ |- _ => apply elem_of_cons in H as [->|H] | H : _ ∈ [] |- _ => by apply not_elem_of_nil in H end;
    try done; cbn in Hp; try (injection Hp as ->); cbn in Hc, Hx |- *.
  all: try specialize (Hc ltac:(set_solver)); destr.
  all: repeat match goal with H : (_ <? _)%nat = false |- _ => apply Nat.ltb_ge in H | H : (_ =? _) = true |- _ => apply Z.eqb_eq in H | H : (_ =? _) = false |- _ => apply Z.eqb_neq in H end.
  all: unfold EpochInv.total, kInactiveEpoch in *; try done; try lia.
  all: split_and!; try done; try lia; try (intros Hk; destruct (decide (i = i0)) as [->|]; [|first [by auto with lia|repeat case_match; try lia; assert (min_epoch <= l) by auto with lia; lia]]; try congruence; try lia).
  all: repeat match goal with H : ?a = ?a -> _ |- _ => specialize (H eq_refl) end;
    match goal with |- (if ?a <? ?b then _ else _) <= _ => destruct (Z.ltb_spec a b) end; lia.
Qed.

Lemma refs_step n t now sp s s' : refs_ok n s -> slots_ok n s -> objects_ok home s -> n < U64_MAX -> step (t, Step now sp) s = Some s' -> refs_ok (n + 1) s'.
Proof.
  intros Hr Hs Ho Hn (ins & rest & new & th' & s1 & Hc & E & ->)%step_access. pose proof (top_of _ _ _ _ _ Hs Hc) as Htop.
  assert (ins ∈ code (thr t s)) as Hin by (rewrite Hc; by left).
  assert (scan_ok ins) as Hsc by (pose proof (so_scan _ _ Hs t) as H; rewrite Hc in H; by apply Forall_cons in H as [H _]).
  assert (forall t', t' <> t -> thr t' s1 = thr t' s) as Hoth by (intros t' _; unfold thr; by rewrite (access_threads _ _ _ _ _ _ _ _ _ _ E)).
  assert (allocated s1 = allocated s) as Hal by (pose proof E as E'; apply access_client in E'; [by apply E'|done]).
  (* a reader that still holds [x] is where it was *)
  assert (forall t' x, x ∈ refs (thr t' (set_thr t (with_code (new ++ rest) th') s1)) ->
    x ∈ refs (thr t' s) /\ 0 < cs_depth (thr t' (set_thr t (with_code (new ++ rest) th') s1)) /\
    slot_of (thr t' (set_thr t (with_code (new ++ rest) th') s1)) = slot_of (thr t' s) /\
    forall i, slot_of (thr t' s) = Some (home x, i) -> slot i (dom_ (home x) s1) = slot i (dom_ (home x) s)) as Hstay.
  { intros t' x. rewrite thr_set. case_decide as Ht; [subst; intros Hx; cbn in Hx |- *|rewrite Hoth by done; intros Hx].
    - assert (0 < cs_depth (thr t s)) as Hd.
      { destruct (Z.lt_ge_cases 0 (cs_depth (thr t s))) as [|Hd]; [done|]. assert (refs (thr t s) = []) as Hn0.
        { destruct (refs (thr t s)) as [|y l] eqn:El; [done|]. destruct (ro_refs _ _ Hr t y) as [? _]; [rewrite El; by left|lia]. }
        assert (refs th' = [] \/ refs th' = refs (thr t s)) as [H|H] by (clear - E; destruct ins; access_cases E; auto); rewrite H, ?Hn0 in Hx; by apply not_elem_of_nil in Hx. }
      destruct (access_refs _ _ _ _ _ _ _ _ _ x E Htop Hx Hd) as (? & ? & ?). split_and!; [done..|]. intros i _. by eapply access_inside.
    - destruct (ro_refs _ _ Hr t' x Hx) as (? & _). split_and!; [done..|]. intros i Hi. eapply (access_slot _ n); eauto. }
  split.
  - intros t' x Hx. destruct (Hstay t' x Hx) as (Hx0 & Hd & Hso & _). destruct (ro_refs _ _ Hr t' x Hx0) as (Hd0 & [i Hi] & Ha & Hf).
    split_and!; [done|rewrite Hso; eauto|cbn; by rewrite Hal|]. cbn.
    destruct (access_freed _ _ _ _ _ _ _ _ _ E) as [->|(d & b & min & pr & c & y & todo & kept & -> & -> & Hlt)]; [done|].
    rewrite elem_of_app, list_elem_of_singleton. intros [?|<-]; [done|].
    destruct (oo_stamped _ _ Ho t _ x Hin) as [e He]; [done|by left|]. pose proof (ro_bound _ _ Hr x e He). rewrite He in Hlt. cbn in Hlt.
    pose proof (ro_epoch _ _ Hr t' x i e Hx0 Hi He). pose proof (ro_cover _ _ Hr t' x i t _ Hx0 Hi Hin ltac:(by left)) as Hcv. cbn in Hcv. rewrite wrap_small in Hlt by lia. lia.
  - intros x e. cbn. destruct (access_epoch _ _ _ _ _ _ _ _ _ _ x E) as [->|(d & _ & ->)]; [intros He; pose proof (ro_bound _ _ Hr x e He); lia|].
    intros [= <-]. pose proof (so_global _ _ Hs d). lia.
  - intros t' x i e Hx Hi. destruct (Hstay t' x Hx) as (Hx0 & Hd & Hso & Hsl). rewrite Hso in Hi. unfold local. rewrite dom_set_thr, (Hsl i Hi). cbn.
    destruct (access_epoch _ _ _ _ _ _ _ _ _ _ x E) as [->|(d & -> & ->)]; [by apply (ro_epoch _ _ Hr t')|]. intros [= <-].
    assert (home x = d) as <- by (by apply (oo_home _ _ Ho t (Stamp d x)); [| |left]).
    destruct (ro_refs _ _ Hr t' x Hx0) as (Hd0 & _). destruct (so_active _ _ Hs t' Hd0) as (d' & i' & Hi' & Hl). rewrite Hi in Hi'. by injection Hi' as <- <-.
  - intros t' x i r ins' Hx Hi Hins Hh. destruct (Hstay t' x Hx) as (Hx0 & Hd & Hso & Hsl). rewrite Hso in Hi. unfold local. rewrite dom_set_thr, (Hsl i Hi).
    rewrite thr_set in Hins. destruct (decide (r = t)) as [->|Hrt]; [|rewrite Hoth in Hins by done; by eapply (ro_cover _ _ Hr t' x)].
    cbn in Hins. apply elem_of_app in Hins as [Hins|Hins]; [|eapply (ro_cover _ _ Hr t' x i t); eauto; rewrite Hc; by right].
    assert (exists d, place ins' = Some d) as [d Hpl] by (destruct ins'; cbn in Hh |- *; eauto; by apply not_elem_of_nil in Hh).
    assert (home x = d) as <-.
    { destruct (access_source _ home _ _ _ _ _ _ _ _ _ _ _ _ E Hins Hpl Hh) as [H1 H2 _|H1 H2|H1|H1 _]; [exact (oo_home _ _ Ho t ins d x Hin H2 H1)| | |subst; by apply (oo_claims _ _ Ho t)].
      - destruct (oo_buffer _ _ Ho t x H1) as [H3 _]. destruct H2; congruence.
      - by apply (oo_pending _ _ Ho). }
    destruct (so_slot _ _ Hs _ _ _ Hi). destruct (ro_refs _ _ Hr t' x Hx0) as (Hd0 & _). destruct (so_active _ _ Hs t' Hd0) as (d' & i' & Hi' & Hl).
    rewrite Hi in Hi'. injection Hi' as <- <-. pose proof (so_global _ _ Hs (home x)). unfold local in Hl.
    eapply access_cover; try done; [lia|]. intros Hx1. by eapply (ro_cover _ _ Hr t' x i t).
Qed.

Lemma refs_same n s s' : refs_ok n s -> domains s' = domains s -> epoch_of s' = epoch_of s -> freed s' = freed s -> allocated s ⊆ allocated s' ->
  (forall t, refs (thr t s') = refs (thr t s) /\ slot_of (thr t s') = slot_of (thr t s) /\ cs_depth (thr t s') = cs_depth (thr t s)) ->
  (forall t ins, ins ∈ code (thr t s') -> ins ∈ code (thr t s) \/ held ins = []) -> refs_ok n s'.
Proof.
  intros Hr Hd He Hf Ha Ht Hc. split; intros *; unfold local, dom_; rewrite ?Hd, ?He, ?Hf.
  - destruct (Ht t) as (-> & -> & ->). intros Hx. destruct (ro_refs _ _ Hr t x Hx) as (? & ? & ? & ?). split_and!; auto.
  - apply Hr.
  - destruct (Ht t) as (-> & -> & _). apply Hr.
  - destruct (Ht t) as (-> & -> & _). intros Hx Hi Hins Hh. destruct (Hc r ins Hins) as [|H0]; [by eapply (ro_cover _ _ Hr t)|]. rewrite H0 in Hh. by apply not_elem_of_nil in Hh.
Qed.

Lemma refs_call n t c s s' : refs_ok n s -> slots_ok n s -> objects_ok home s -> begin_call home t c s = Some s' -> refs_ok n s'.
Proof.
  intros Hr Hs Ho E. unfold begin_call in E. destruct (code (thr t s)) eqn:Hc; [|done].
  destruct c; cbn in E; repeat case_match; simplify_eq;
    try (apply (refs_same n s); [done..|intros t'; rewrite thr_set; by dom_case|];
         intros t' ins; rewrite thr_set; dom_case; [cbn; intros ->%list_elem_of_singleton; by right|by left]).
  - apply andb_true_iff in H as [[Hown Hd]%andb_true_iff Hl]. apply bool_decide_eq_true in Hown, Hl. apply Z.ltb_lt in Hd.
    destruct (so_active _ _ Hs t Hd) as (d & i & Hi & Hle). assert (d = home x) as -> by (unfold slot_of in Hi; rewrite Hown in Hi; destruct (slot_index _); congruence).
    assert (x ∉ claimed s) as Hnc by (intros Hx; by destruct (oo_linked _ _ Ho x Hx)). assert (x ∉ places s) as Hnp by (intros Hx; by apply Hnc, (oo_claimed _ _ Ho)).
    assert (epoch_of s !! x = None) as He by (destruct (epoch_of s !! x) eqn:He; [|done]; destruct Hnc; apply (oo_epochs _ _ Ho); by rewrite He).
    assert (forall r ins, ins ∈ code (thr r s) -> x ∉ held ins) as Hnh.
    { intros r ins Hins Hx. apply Hnp. unfold places. rewrite elem_of_app, elem_of_tkeys. left. exists r, (thr r s). split.
      - unfold thr in Hins |- *. destruct (threads s !! r); [done|by apply not_elem_of_nil in Hins].
      - unfold places_of. rewrite elem_of_app, list_elem_of_bind. right. by exists ins. }
    assert (forall t' y, y ∈ refs (thr t' (set_thr t (with_refs (x :: refs (thr t s)) (thr t s)) s)) -> (t' = t /\ y = x) \/ y ∈ refs (thr t' s)) as Hrf.
    { intros t' y. rewrite thr_set. dom_case; cbn; [|auto]. intros [->|?]%elem_of_cons; auto. }
    assert (forall t', slot_of (thr t' (set_thr t (with_refs (x :: refs (thr t s)) (thr t s)) s)) = slot_of (thr t' s)) as Hso by (intros t'; rewrite thr_set; by dom_case).
    assert (forall t', cs_depth (thr t' (set_thr t (with_refs (x :: refs (thr t s)) (thr t s)) s)) = cs_depth (thr t' s)) as Hdp by (intros t'; rewrite thr_set; by dom_case).
    assert (forall t', code (thr t' (set_thr t (with_refs (x :: refs (thr t s)) (thr t s)) s)) = code (thr t' s)) as Hcd by (intros t'; rewrite thr_set; by dom_case).
    split; intros *; rewrite ?Hso, ?Hdp, ?Hcd; unfold local; rewrite ?dom_set_thr; cbn [allocated freed epoch_of set_thr].
    + intros [[-> ->]|Hx]%Hrf; [|by apply (ro_refs _ _ Hr)]. split_and!; [done|eauto|by apply (oo_alloc _ _ Ho)|].
      intros Hf. apply Hnp. unfold places. rewrite !elem_of_app. auto.
    + apply Hr.
    + intros [[-> ->]|Hx]%Hrf; [congruence|by apply (ro_epoch _ _ Hr)].
    + intros [[-> ->]|Hx]%Hrf Hi' Hins Hh; [by destruct (Hnh r ins)|by eapply (ro_cover _ _ Hr t0)].
  - apply (refs_same n s); try done; [cbn; set_solver|by left].
  - apply (refs_same n s); try done; by left.
  - assert (forall d' i, slot i (dom_ d' (set_dom d (with_setup (reclaim_in_progress (dom_ d s)) c (dom_ d s)) s)) = slot i (dom_ d' s)) as H1 by (intros; by dom_case).
    split; intros *; unfold local; rewrite ?H1; apply Hr.
Qed.

(** ** Runs *)

Record inv (n : Z) s : Prop := { in_slots : slots_ok n s; in_objects : objects_ok home s; in_refs : refs_ok n s }.

Lemma epoch_inv_weaken n m s : inv n s -> n <= m -> inv m s.
Proof.
  intros [Hs Ho Hr] Hn. split; [split|done|split]; try apply Hs; try apply Hr.
  - intros d. pose proof (so_global _ _ Hs d). lia.
  - intros x e He. pose proof (ro_bound _ _ Hr x e He). lia.
Qed.

Lemma epoch_inv_init : inv 0 init.
Proof.
  split; split; unfold thr, dom_, places; cbn; try done; try (intros; set_solver); try (by intros ? ? ? ?%not_elem_of_nil); try (by intros ? ? ?%not_elem_of_nil);
    try (by intros ? ?%not_elem_of_nil).
  all: try (intros; apply NoDup_nil_2). all: try (intros x [e He]; by rewrite lookup_empty in He). all: try (intros x e He; by rewrite lookup_empty in He).
  intros t. exists [], []. split_and!; [done..|by left].
Qed.

Lemma epoch_inv_step n m s s' : inv n s -> n < U64_MAX -> disciplined m s = true -> step m s = Some s' -> inv (n + 1) s'.
Proof.
  intros [Hs Ho Hr] Hn Hd E. destruct m as [t [c|now sp]].
  - apply (epoch_inv_weaken n); [|lia]. split; [by eapply slots_call|by eapply objects_call|by eapply refs_call].
  - split; [by eapply slots_step|by eapply objects_step|by eapply refs_step].
Qed.

Lemma epoch_inv_run moves n s s' : inv n s -> n + Z.of_nat (length moves) <= U64_MAX -> run_disciplined moves s = Some s' -> inv (n + Z.of_nat (length moves)) s'.
Proof.
  revert n s. induction moves as [|m moves IH]; intros n s Hi Hn E; cbn in E, Hn |- *; [injection E as <-; by rewrite Z.add_0_r|].
  destruct (disciplined m s) eqn:Hd; [|done]. apply bind_Some in E as (s1 & E1 & E2).
  replace (n + Z.of_nat (S (length moves))) with (n + 1 + Z.of_nat (length moves)) by lia. eapply IH; [|lia|done]. eapply epoch_inv_step; [done|lia|done..].
Qed.

(** ** The pending counter *)

(** What the instructions of a thread still have to add to or take from the
    counter of domain [d]; positive means objects that are no longer pending. *)
Definition owed d ins : Z :=
  match ins with
  | PendingAdd d' n => if d' =? d then - Z.of_nat n else 0
  | ScanStart d' p | Scan d' p _ _ | ScanLocal d' p _ _ | ScanEntry d' p _ _ _ => if d' =? d then Z.of_nat (length (carried p)) else 0
  | MinStart d' _ todo | MinGlobal d' _ todo => if d' =? d then Z.of_nat (length todo) else 0
  | FreeLoop d' _ _ processed _ todo _ => if d' =? d then processed + Z.of_nat (length todo) else 0
  | PendingRelease d' n => if d' =? d then n else 0
  | _ => 0
  end.
Definition owed_by d (c : list instr) : Z := foldr (fun ins z => owed d ins + z) 0 c.
Definition balance (D : epoch_domain) : Z := tsum id (pending_shards D) - Z.of_nat (length (pending D)).

Lemma owed_app d c c' : owed_by d (c ++ c') = owed_by d c + owed_by d c'.
Proof. unfold owed_by. induction c as [|ins c IH]; cbn [app foldr]; [lia|]. rewrite IH. lia. Qed.

Lemma balance_add t n D : balance (add_pending shard_of t n D) = balance D + n.
Proof.
  unfold balance, add_pending. cbn [pending pending_shards with_shards]. rewrite (tsum_update id _ 0) by done.
  unfold default, id. lia.
Qed.

Lemma access_owed t now sp ins th s new th' s' d : access t now sp ins th s = Some (new, th', s') ->
  balance (dom_ d s') = balance (dom_ d s) + owed_by d new - owed d ins.
Proof.
  intros E. destruct ins; access_cases E; cbn [owed_by foldr owed]; rewrite ?dom_set; try (repeat case_match; lia);
    destruct (Z.eqb_spec d0 d) as [->|]; subst; rewrite ?decide_True, ?decide_False by done; cbn [carried note_local skip_stuck length]; rewrite ?balance_add; try lia.
  all: try (unfold balance; cbn [pending pending_shards with_slot bump with_mutex with_pending with_global with_setup];
    repeat match goal with H : pending _ = _ |- _ => rewrite H in * end; rewrite ?length_app, ?length_reverse; cbn [length]; lia).
  all: repeat case_match; cbn [carried note_local skip_stuck length owed]; rewrite ?Z.eqb_refl; subst; cbn [carried length]; try lia.
  all: unfold dom_; cbn [domains]; lia.
Qed.

Definition balanced s : Prop := forall d, balance (dom_ d s) = tsum (fun th => owed_by d (code th)) (threads s).

Lemma balanced_thr t c th' s s' : balanced s -> (forall d, balance (dom_ d s') + owed_by d (code (thr t s)) = balance (dom_ d s) + owed_by d c) ->
  threads s' = threads s -> code th' = c -> balanced (set_thr t th' s').
Proof.
  intros Hb Hd Ht Hc d. cbn [threads set_thr]. rewrite dom_set_thr, Ht, (tsum_update (fun th => owed_by d (code th)) (threads s) thread_new) by done.
  change (default thread_new _) with (thr t s). rewrite Hc. specialize (Hb d). specialize (Hd d). lia.
Qed.

Lemma balanced_step m s s' : balanced s -> step m s = Some s' -> balanced s'.
Proof.
  intros Hb E. destruct m as [t [c|now sp]].
  - cbn in E. unfold begin_call in E. destruct (code (thr t s)) eqn:Hc; [|done].
    destruct c; cbn in E; repeat case_match; simplify_eq; try exact Hb; try (match goal with |- balanced (set_thr _ (with_code ?c _) _) => apply (balanced_thr t c _ s); [done|intros d'; rewrite Hc; reflexivity|done|done] end).
    + apply (balanced_thr t [] _ s); [done|intros d'; rewrite Hc; reflexivity|done|done].
    + intros d'. cbn [threads set_dom]. rewrite <- (Hb d'). by dom_case.
  - apply step_access in E as (ins & rest & new & th' & s1 & Hc & E & ->). apply (balanced_thr t (new ++ rest) _ s); [done| |by eapply access_threads|done].
    intros d. rewrite Hc, owed_app, (access_owed _ _ _ _ _ _ _ _ _ d E). cbn [owed_by foldr]. fold (owed_by d rest). lia.
Qed.

Lemma balanced_run moves s s' : balanced s -> run moves s = Some s' -> balanced s'.
Proof.
  revert s. induction moves as [|m moves IH]; intros s Hb E; cbn in E; [by injection E as <-|].
  apply bind_Some in E as (s1 & E1 & E2). by eapply IH, E2; eapply balanced_step.
Qed.

Lemma tsum_zero {A} (f : A -> Z) (m : gmap Z A) : (forall t a, m !! t = Some a -> f a = 0) -> tsum f m = 0.
Proof.
  intros Hf. unfold tsum. assert (forall p, p ∈ map_to_list m -> f p.2 = 0) as H by (intros [t a] Hp%elem_of_map_to_list; eauto).
  induction (map_to_list m) as [|p l IH]; cbn; [done|]. rewrite H, IH; [done| |by left]. intros q Hq. apply H. by right.
Qed.

(** C19: reclamation is safe. Under every interleaving of readers, retirements,
    flushes, reclaim passes, epoch advances and thread exits, as long as no thread
    enters a second domain inside a critical section and no policy skips stalled
    readers: an object that a reader obtained in the critical section it is still in
    is not freed, no object is freed twice, a retired object is never reachable, and
    every retired object is in exactly one place: a thread's buffer, a pending list,
    the hands of a flush or reclaim pass, or freed. *)
Theorem epoch_reclaim_safe (moves : list (Z * move)) (s : state) :
  run_disciplined moves init = Some s -> Z.of_nat (length moves) <= U64_MAX ->
  (forall t x, x ∈ refs (thr t s) -> x ∉ freed s) /\ NoDup (places s) /\ (forall x, x ∈ claimed s <-> x ∈ places s) /\ (forall x, x ∈ claimed s -> x ∉ linked s).
Proof.
  intros E Hn. destruct (epoch_inv_run moves 0 init s epoch_inv_init ltac:(lia) E) as [Hs Ho Hr]. split_and!.
  - intros t x Hx. apply (ro_refs _ _ Hr t x Hx).
  - apply Ho.
  - intros x. split; apply Ho.
  - intros x Hx. by apply (oo_linked _ _ Ho).
Qed.

(** The sharded pending counter is exact. After any interleaving, when no
    thread is inside a call, [pending_count] is the number of pending objects. *)
Theorem epoch_pending_exact (moves : list (Z * move)) (s : state) (d : Z) :
  run moves init = Some s -> (forall t, code (thr t s) = []) -> pending_count (dom_ d s) = Z.of_nat (length (pending (dom_ d s))).
Proof.
  intros E Hi. assert (balanced init) as H0 by done. pose proof (balanced_run _ _ _ H0 E d) as Hb. rewrite tsum_zero in Hb.
  2: { intros t th Ht. specialize (Hi t). unfold thr in Hi. rewrite Ht in Hi. cbn in Hi. by rewrite Hi. }
  unfold balance in Hb. unfold pending_count. destruct (Z.ltb_spec 0 (tsum id (pending_shards (dom_ d s)))); lia.
Qed.
End refs.
