(* ===== verification/EpochProgress.v ===== *)
(** * Epoch-based reclamation: what a reclaim pass frees

    A pass of [try_reclaim] that runs by itself, against a direct definition of the
    minimum epoch; and concrete runs. *)
From S2P Require Import Prelude EpochReclamation EpochInv EpochObjects EpochClaims.

(** * The minimum epoch *)

Definition min_scan (D : epoch_domain) (l : list nat) (m : Z) : Z :=
  foldl (fun m i => if used (slot i D) && negb (local_epoch (slot i D) =? kInactiveEpoch) && (local_epoch (slot i D) <? m) then local_epoch (slot i D) else m) m l.
(** The least epoch of an active slot, or the next epoch when no slot is active. *)
Definition min_epoch_of (D : epoch_domain) : Z :=
  let m := min_scan D (seq 0 (total D)) U64_MAX in if m =? U64_MAX then u64 (global_epoch D + 1) else m.

Definition batch_of (b : Z) (l : list obj) : nat := if 0 <? b then Z.to_nat b else length l.

Section alone.
Context (shard_of : Z -> Z) (home : obj -> Z) (t d now : Z) (s0 : state).
Abbreviation access := (access shard_of).
Abbreviation step := (step shard_of home).
Abbreviation run := (run shard_of home).
Implicit Types (c : list instr) (D : epoch_domain) (fr : list obj).

(** The states of the pass: thread [t] has [c] to run, the domain is [D], and
    [fr] is freed. *)
Definition mk c D fr : state :=
  State (<[d := D]> (domains s0)) (<[t := with_code c (thr t s0)]> (threads s0)) (claimed s0) (epoch_of s0) fr (allocated s0) (linked s0).
Definition goes (k : nat) c D fr c' D' fr' : Prop := run (replicate k (t, Step now false)) (mk c D fr) = Some (mk c' D' fr').

Lemma dom_mk c D fr : dom_ d (mk c D fr) = D.
Proof. unfold dom_. cbn. by rewrite lookup_insert_eq. Qed.
Lemma thr_mk c D fr : thr t (mk c D fr) = with_code c (thr t s0).
Proof. unfold thr at 1. cbn. by rewrite lookup_insert_eq. Qed.

Lemma goes_trans k k' c D fr c' D' fr' c'' D'' fr'' : goes k c D fr c' D' fr' -> goes k' c' D' fr' c'' D'' fr'' -> goes (k + k') c D fr c'' D'' fr''.
Proof.
  unfold goes. rewrite replicate_add. generalize (mk c D fr). induction k as [|k IH]; cbn [replicate app EpochReclamation.run]; intros s; [by intros [= ->]|].
  destruct (step (t, Step now false) s) as [s1|]; cbn; [apply IH|done].
Qed.
Lemma goes_refl c D fr : goes 0 c D fr c D fr.
Proof. done. Qed.

(** One step: an access that changes nothing but the domain and the freed list. *)
Lemma goes_one ins c new c' D D' fr fr' :
  access t now false ins (with_code (ins :: c) (thr t s0)) (mk (ins :: c) D fr) = Some (new, with_code (ins :: c) (thr t s0), mk (ins :: c) D' fr') ->
  c' = new ++ c -> goes 1 (ins :: c) D fr c' D' fr'.
Proof.
  intros E ->. unfold goes. cbn. rewrite thr_mk. cbn [code with_code]. rewrite E. cbn. unfold set_thr, mk. cbn. by rewrite insert_insert_eq.
Qed.
Lemma mk_dom c D D' fr : set_dom d D' (mk c D fr) = mk c D' fr.
Proof. unfold set_dom, mk. cbn. by rewrite insert_insert_eq. Qed.

Definition restat (f : counter -> Z) D : epoch_domain :=
  Domain (global_epoch D) (last_advance_time_ns D) (slots D) (num_batches D) (expand_mutex D) (pending D) (pending_shards D) (reclaim_in_progress D) (setup D) f.

Ltac one_step new := eapply (goes_one _ _ new); [|reflexivity]; expand_access; rewrite ?dom_mk, ?mk_dom.

Lemma scan_slot fail timeout now0 m b todo i tot c D fr : (i < tot)%nat -> fail = true \/ timeout = 0 ->
  exists k f, goes k (Scan d (Minimum fail timeout now0 m false b todo) i tot :: c) D fr
    (Scan d (Minimum fail timeout now0 (min_scan D [i] m) false b todo) (S i) tot :: c) (restat f D) fr.
Proof.
  intros Hi Hp. apply Nat.ltb_lt in Hi. unfold min_scan. cbn [foldl].
  assert (restat (stats D) D = D) as Hre by (by destruct D).
  destruct (used (slot i D)) eqn:Hu; cbn [andb].
  2: { exists 1%nat, (stats D). rewrite Hre. one_step [Scan d (Minimum fail timeout now0 m false b todo) (S i) tot]. rewrite Hi, Hu. done. }
  assert (goes 1 (Scan d (Minimum fail timeout now0 m false b todo) i tot :: c) D fr (ScanLocal d (Minimum fail timeout now0 m false b todo) i tot :: c) D fr) as H1.
  { one_step [ScanLocal d (Minimum fail timeout now0 m false b todo) i tot]. rewrite Hi, Hu. done. }
  destruct (local_epoch (slot i D) =? kInactiveEpoch) eqn:Hl; cbn [negb andb].
  { exists (1 + 1)%nat, (stats D). rewrite Hre. eapply goes_trans; [exact H1|]. one_step [Scan d (Minimum fail timeout now0 m false b todo) (S i) tot]. rewrite Hl. done. }
  destruct (negb (timeout =? 0) && negb (now0 =? 0)) eqn:Ht.
  2: { exists (1 + 1)%nat, (stats D). rewrite Hre. eapply goes_trans; [exact H1|]. one_step [Scan d (note_local (local_epoch (slot i D)) (Minimum fail timeout now0 m false b todo)) (S i) tot]. rewrite Hl, Ht. done. }
  assert (goes (1 + 1) (Scan d (Minimum fail timeout now0 m false b todo) i tot :: c) D fr
    (ScanEntry d (Minimum fail timeout now0 m false b todo) i tot (local_epoch (slot i D)) :: c) D fr) as H2.
  { eapply goes_trans; [exact H1|]. one_step [ScanEntry d (Minimum fail timeout now0 m false b todo) i tot (local_epoch (slot i D))]. rewrite Hl, Ht. done. }
  assert (fail = true) as -> by (destruct Hp as [|Hp]; [done|]; by rewrite Hp in Ht).
  destruct (negb (entry_time_ns (slot i D) =? 0) && (timeout <? u64 (now0 - entry_time_ns (slot i D)))) eqn:He.
  - exists (1 + 1 + 1)%nat, (stats (bump epoch_stale_count 1 D)). eapply goes_trans; [exact H2|]. one_step [Scan d (note_local (local_epoch (slot i D)) (Minimum true timeout now0 m false b todo)) (S i) tot]. rewrite He. done.
  - exists (1 + 1 + 1)%nat, (stats D). rewrite Hre. eapply goes_trans; [exact H2|]. one_step [Scan d (note_local (local_epoch (slot i D)) (Minimum true timeout now0 m false b todo)) (S i) tot]. rewrite He. done.
Qed.

Lemma min_scan_restat f D l m : min_scan (restat f D) l m = min_scan D l m.
Proof. done. Qed.

Lemma scan_all fail timeout now0 b todo tot c fr : fail = true \/ timeout = 0 -> forall n i m D, (i + n = tot)%nat ->
  exists k f, goes k (Scan d (Minimum fail timeout now0 m false b todo) i tot :: c) D fr
    (Scan d (Minimum fail timeout now0 (min_scan D (seq i n) m) false b todo) tot tot :: c) (restat f D) fr.
Proof.
  intros Hp. induction n as [|n IH]; intros i m D Hn.
  - exists 0%nat, (stats D). replace i with tot by lia. assert (restat (stats D) D = D) as -> by (by destruct D). apply goes_refl.
  - destruct (scan_slot fail timeout now0 m b todo i tot c D fr ltac:(lia) Hp) as (k1 & f1 & H1).
    destruct (IH (S i) (min_scan D [i] m) (restat f1 D) ltac:(lia)) as (k2 & f2 & H2). exists (k1 + k2)%nat, f2. eapply goes_trans; [exact H1|exact H2].
Qed.

(** The test of the free loop. *)
Definition freeable (m : Z) (x : obj) : Prop := u64 (default 0 (epoch_of s0 !! x) + 1) < m.

#[global] Instance freeable_dec m x : Decision (freeable m x).
Proof. unfold freeable. apply _. Defined.

Lemma free_loop b m c D : forall l1 l2 kept p n fr, (0 < b -> p + Z.of_nat (length l1) <= b) ->
  exists n', goes (length l1) (FreeLoop d b m p n (l1 ++ l2) kept :: c) D fr
    (FreeLoop d b m (p + Z.of_nat (length l1)) n' l2 (kept ++ filter (fun x => ~ freeable m x) l1) :: c) D (fr ++ filter (freeable m) l1).
Proof.
  induction l1 as [|x l1 IH]; intros l2 kept p n fr Hb.
  - exists n. cbn [length app]. rewrite filter_nil, !app_nil_r, Z.add_0_r. apply goes_refl.
  - cbn [length] in Hb. assert (batch_done b p = false) as Hd.
    { unfold batch_done. destruct (Z.ltb_spec 0 b); [|done]. cbn. apply Z.leb_gt. lia. }
    replace (p + Z.of_nat (length (x :: l1))) with (p + 1 + Z.of_nat (length l1)) by (cbn [length]; lia). change (length (x :: l1)) with (1 + length l1)%nat.
    rewrite !filter_cons. destruct (decide (freeable m x)) as [Ho|Ho].
    + rewrite decide_False by (intros H; exact (H Ho)). destruct (IH l2 kept (p + 1) (n + 1) (fr ++ [x]) ltac:(lia)) as [n' H]. exists n'.
      eapply goes_trans; [|rewrite <- app_assoc in H; exact H]. one_step [FreeLoop d b m (p + 1) (n + 1) (l1 ++ l2) kept]. cbn [app]. rewrite Hd.
      cbn [epoch_of mk]. unfold freeable in Ho. apply Z.ltb_lt in Ho. rewrite Ho. done.
    + rewrite decide_True by done. destruct (IH l2 (kept ++ [x]) (p + 1) n fr ltac:(lia)) as [n' H]. exists n'.
      eapply goes_trans; [|rewrite <- app_assoc in H; exact H]. one_step [FreeLoop d b m (p + 1) n (l1 ++ l2) (kept ++ [x])]. cbn [app]. rewrite Hd.
      cbn [epoch_of mk]. unfold freeable in Ho. apply Z.nlt_ge, Z.ltb_ge in Ho. rewrite Ho. done.
Qed.

(** The objects that were not freed go back in front of what is pending. *)
Lemma push_back l c D fr : l <> [] -> exists k D', goes k (PushLoad d l :: c) D fr c D' fr /\ pending D' = l ++ pending D.
Proof.
  intros Hl. exists (1 + 1 + 1)%nat, (add_pending shard_of t (Z.of_nat (length l)) (with_pending (l ++ pending D) D)). split; [|done].
  eapply goes_trans; [eapply goes_trans|].
  - one_step [PushCas d l (head (pending D))]. done.
  - one_step [PendingAdd d (length l)]. rewrite bool_decide_true by done. done.
  - one_step (@nil instr). done.
Qed.

Lemma close_pass n p D fr : exists k D', goes k [AddReclaimed d n; PendingRelease d p] D fr [] D' fr /\ pending D' = pending D.
Proof.
  exists (1 + 1)%nat, (add_pending shard_of t (- p) (bump reclaim_total n D)). split; [|done]. eapply goes_trans; [one_step (@nil instr); done|one_step (@nil instr); done].
Qed.

Lemma finish_loop b m p n l2 kept D fr : l2 = [] \/ batch_done b p = true -> pending D = [] ->
  exists k D', goes k [FreeLoop d b m p n l2 kept] D fr [] D' fr /\ pending D' = kept ++ l2.
Proof.
  intros Hx Hp. assert (exists q, goes 1 [FreeLoop d b m p n l2 kept] D fr ((match kept ++ l2 with [] => [] | _ => [PushLoad d (kept ++ l2)] end) ++ [AddReclaimed d n; PendingRelease d q]) D fr) as [q H1].
  { destruct l2 as [|x l2].
    - exists p. rewrite app_nil_r. eapply (goes_one _ _ (match kept with [] => [] | _ => [PushLoad d kept] end ++ [AddReclaimed d n; PendingRelease d p])); [done|by rewrite app_nil_r].
    - destruct Hx as [|Hx]; [done|]. exists (p + Z.of_nat (length (x :: l2))). eapply (goes_one _ _ [PushLoad d (kept ++ x :: l2); AddReclaimed d n; PendingRelease d (p + Z.of_nat (length (x :: l2)))]).
      + expand_access. by rewrite Hx.
      + destruct (kept ++ x :: l2) eqn:E; [by destruct kept|done]. }
  destruct (kept ++ l2) as [|y l] eqn:E.
  - destruct (close_pass n q D fr) as (k & D' & H2 & H3). exists (1 + k)%nat, D'. split; [by eapply goes_trans|congruence].
  - destruct (push_back (y :: l) [AddReclaimed d n; PendingRelease d q] D fr ltac:(done)) as (k1 & D1 & H2 & H3).
    destruct (close_pass n q D1 fr) as (k2 & D2 & H4 & H5). exists (1 + (k1 + k2))%nat, D2.
    split; [eapply goes_trans; [exact H1|eapply goes_trans; [exact H2|exact H4]]|]. rewrite H5, H3, Hp. by rewrite app_nil_r.
Qed.

Lemma start_pass b : code (thr t s0) = [] -> step (t, Begin (CallReclaim d b)) s0 = Some (mk [TryReclaim d b] (dom_ d s0) (freed s0)) \/ domains s0 !! d = None.
Proof.
  intros Hc. destruct (domains s0 !! d) as [D|] eqn:Hd; [left|by right]. cbn. unfold begin_call. rewrite Hc. unfold set_thr, mk, dom_. rewrite Hd. cbn.
  by rewrite (insert_id (domains s0) d D Hd).
Qed.

Lemma pass_exchange b x l D fr : entries (thr t s0) = [] -> pending D = x :: l ->
  goes (1 + 1 + 1) [TryReclaim d b] D fr [MinStart d b (if 0 <? b then reverse (x :: l) else x :: l)] (with_pending [] D) fr.
Proof.
  intros He Hp. eapply goes_trans; [eapply goes_trans|].
  - one_step [Flush d; Exchange d b]. done.
  - one_step (@nil instr). cbn [entries with_code]. rewrite He. done.
  - one_step [MinStart d b (if 0 <? b then reverse (x :: l) else x :: l)]. rewrite Hp. done.
Qed.

Lemma pass_minimum b todo c D fr : safe_policy (policy (setup D)) = true ->
  exists k f, goes k (MinStart d b todo :: c) D fr (FreeLoop d b (min_epoch_of D) 0 0 todo [] :: c) (restat f D) fr.
Proof.
  intros Hpol. pose (timeout := match policy (setup D) with kForceAdvanceAfter5s => 5000000000 | kNeverForceAdvance => 0 | _ => force_timeout_ns (setup D) end).
  pose (fail := match policy (setup D) with kFailAdvance => true | _ => false end).
  assert (fail = true \/ timeout = 0) as Hp by (unfold fail, timeout; destruct (policy (setup D)); auto; discriminate).
  pose (p := Minimum fail timeout (if timeout =? 0 then 0 else now) U64_MAX false b todo).
  destruct (scan_all fail timeout (if timeout =? 0 then 0 else now) b todo (total D) c fr Hp (total D) 0 U64_MAX D eq_refl) as (k & f & Hk).
  set (m := min_scan D (seq 0 (total D)) U64_MAX) in Hk. unfold min_epoch_of. fold m.
  assert (goes (1 + 1) (MinStart d b todo :: c) D fr (Scan d p 0 (total D) :: c) D fr) as H0.
  { eapply goes_trans; [one_step [ScanStart d p]; done|]. one_step [Scan d p 0 (total D)]. done. }
  assert (goes 1 (Scan d (Minimum fail timeout (if timeout =? 0 then 0 else now) m false b todo) (total D) (total D) :: c) (restat f D) fr
    ((if m =? U64_MAX then MinGlobal d b todo else FreeLoop d b m 0 0 todo []) :: c) (restat f D) fr) as H1.
  { one_step [if m =? U64_MAX then MinGlobal d b todo else FreeLoop d b m 0 0 todo []]. rewrite Nat.ltb_irrefl. done. }
  destruct (m =? U64_MAX).
  - exists (1 + 1 + (k + (1 + 1)))%nat, f. eapply goes_trans; [exact H0|]. eapply goes_trans; [exact Hk|]. eapply goes_trans; [exact H1|].
    one_step [FreeLoop d b (u64 (global_epoch D + 1)) 0 0 todo []]. done.
  - exists (1 + 1 + (k + 1))%nat, f. eapply goes_trans; [exact H0|]. eapply goes_trans; [exact Hk|exact H1].
Qed.
End alone.

Section claims.
Context (shard_of : Z -> Z) (home : obj -> Z).

(** A step that touches nothing but the thread's own instructions. *)
Lemma quiet_step t now ins c new s : let s' := set_thr t (with_code (ins :: c) (thr t s)) s in
  access shard_of t now false ins (with_code (ins :: c) (thr t s)) s' = Some (new, with_code (ins :: c) (thr t s), s') ->
  step shard_of home (t, Step now false) s' = Some (set_thr t (with_code (new ++ c) (thr t s)) s).
Proof.
  intros s' E. cbn [step]. unfold s' at 1 2 3. rewrite thr_set, decide_True by done. cbn [code with_code]. fold s'. rewrite E. cbn. unfold s', set_thr. cbn. by rewrite insert_insert_eq.
Qed.

(** C20: a reclaim pass makes the progress it can. When an idle thread with an
    empty buffer runs [try_reclaim] by itself, the pass ends; of the pending objects,
    all of them or the [batch_size] oldest, it frees exactly those whose stamp is at
    least two below the least epoch an active reader announced (or below the global
    epoch when there is no reader), and the others stay pending. *)
Theorem try_reclaim_frees (t d now b : Z) (s : state) : code (thr t s) = [] -> entries (thr t s) = [] ->
  safe_policy (policy (setup (dom_ d s))) = true -> 0 <= b ->
  let queue := if 0 <? b then reverse (pending (dom_ d s)) else pending (dom_ d s) in
  let now_freed := filter (freeable s (min_epoch_of (dom_ d s))) (take (batch_of b queue) queue) in
  let not_yet := filter (fun x => ~ freeable s (min_epoch_of (dom_ d s)) x) (take (batch_of b queue) queue) in
  exists k s', run shard_of home ((t, Begin (CallReclaim d b)) :: replicate k (t, Step now false)) s = Some s' /\ code (thr t s') = [] /\
    freed s' = freed s ++ now_freed /\ pending (dom_ d s') = not_yet ++ drop (batch_of b queue) queue.
Proof.
  intros Hc He Hpol Hb queue now_freed not_yet. destruct (pending (dom_ d s)) as [|x l] eqn:Hp.
  - exists 3%nat. assert (queue = []) as Hq by (unfold queue; by destruct (0 <? b)). unfold now_freed, not_yet. rewrite Hq, take_nil, drop_nil, !filter_nil, app_nil_r.
    exists (set_thr t (with_code [] (thr t s)) s). split_and!; [|rewrite thr_set, decide_True; done|done|done].
    assert (step shard_of home (t, Begin (CallReclaim d b)) s = Some (set_thr t (with_code [TryReclaim d b] (thr t s)) s)) as H0 by (cbn; unfold begin_call; by rewrite Hc).
    cbn [run replicate]. rewrite H0. cbn [mbind option_bind].
    rewrite (quiet_step t now (TryReclaim d b) [] [Flush d; Exchange d b]) by done. cbn [mbind option_bind app].
    rewrite (quiet_step t now (Flush d) [Exchange d b] []) by (expand_access; cbn [entries with_code]; by rewrite He). cbn [mbind option_bind app].
    rewrite (quiet_step t now (Exchange d b) [] []); [done|]. expand_access. by rewrite dom_set_thr, Hp.
  - destruct (start_pass shard_of home t d s b Hc) as [H0|Hd]; [|unfold dom_ in Hp; by rewrite Hd in Hp].
    pose proof (pass_exchange shard_of home t d now s b x l (dom_ d s) (freed s) He Hp) as H1. fold queue in H1.
    destruct (pass_minimum shard_of home t d now s b queue [] (with_pending [] (dom_ d s)) (freed s) Hpol) as (k1 & f & H2).
    change (min_epoch_of (with_pending [] (dom_ d s))) with (min_epoch_of (dom_ d s)) in H2. set (m := min_epoch_of (dom_ d s)) in *.
    set (D1 := restat f (with_pending [] (dom_ d s))) in *. set (n := batch_of b queue) in *.
    destruct (free_loop shard_of home t d now s b m [] D1 (take n queue) (drop n queue) [] 0 0 (freed s)) as (n' & H3).
    { intros Hb0. unfold n, batch_of. rewrite (proj2 (Z.ltb_lt 0 b) Hb0). rewrite length_take. lia. }
    rewrite take_drop in H3.
    destruct (finish_loop shard_of home t d now s b m (0 + Z.of_nat (length (take n queue))) n' (drop n queue) ([] ++ not_yet) D1 (freed s ++ now_freed)) as (k2 & D2 & H4 & H5).
    { unfold n, batch_of, batch_done. destruct (Z.ltb_spec 0 b) as [H|H]; [|left; apply drop_ge; lia]. rewrite length_take.
      destruct (Z.leb_spec b (0 + Z.of_nat (Z.to_nat b `min` length queue))); [by right|]. left. apply drop_ge. lia. }
    { done. }
    exists (1 + 1 + 1 + (k1 + (length (take n queue) + k2)))%nat, (mk t d s [] D2 (freed s ++ now_freed)).
    split_and!; [|by rewrite thr_mk|done|by rewrite dom_mk]. cbn [EpochReclamation.run]. rewrite H0. cbn [mbind option_bind].
    eapply (goes_trans shard_of home t d now s); [exact H1|]. eapply goes_trans; [exact H2|]. eapply goes_trans; [exact H3|exact H4].
Qed.
End claims.

(** * Concrete runs *)

Definition demo_home (x : obj) : Z := x / 100 - 1.
Definition steps (t : Z) (k : nat) : list (Z * move) := replicate k (t, Step 7 false).

(** Thread 1 reads object 100 under a guard; thread 2 unlinks and retires it and
    runs a reclaim pass. *)
Definition demo_guarded : list (Z * move) :=
  [(1, Begin (CallNew 100)); (1, Begin (CallEnter 0))] ++ steps 1 7 ++ [(1, Begin (CallRead 100)); (2, Begin (CallUnlink 100)); (2, Begin (CallRetire 100))] ++
  steps 2 3 ++ [(2, Begin (CallReclaim 0 0))] ++ steps 2 281.
(** Then the reader leaves. *)
Definition demo_left : list (Z * move) := demo_guarded ++ [(1, Begin (CallExit 0))] ++ steps 1 3.

(** Thread 1 enters domain 1 while it reads under its guard of domain 0. *)
Definition demo_nested : list (Z * move) :=
  [(1, Begin (CallNew 100)); (1, Begin (CallEnter 0))] ++ steps 1 7 ++ [(1, Begin (CallRead 100)); (1, Begin (CallEnter 1))] ++ steps 1 10 ++
  [(2, Begin (CallUnlink 100)); (2, Begin (CallRetire 100))] ++ steps 2 3 ++ [(2, Begin (CallReclaim 0 0))] ++ steps 2 276.

Definition final (moves : list (Z * move)) : state := default init (run id demo_home moves init).

Lemma final_run moves : is_Some (run id demo_home moves init) -> run id demo_home moves init = Some (final moves).
Proof. unfold final. by intros [s ->]. Qed.

Lemma epoch_reclaim_safe_witness : let s := default init (run_disciplined id demo_home demo_guarded init) in
  refs (thr 1 s) = [100] /\ 100 ∈ claimed s /\ 100 ∉ freed s.
Proof.
  assert (run_disciplined id demo_home demo_guarded init = Some (default init (run_disciplined id demo_home demo_guarded init))) as E.
  { destruct (run_disciplined id demo_home demo_guarded init) eqn:E; [done|]. exfalso. assert (bool_decide (is_Some (run_disciplined id demo_home demo_guarded init)) = true) as H
      by (vm_compute; reflexivity). by rewrite E in H. }
  intros s. split; [vm_compute; reflexivity|]. split; [apply (bool_decide_unpack _); vm_compute; exact I|].
  refine (proj1 (epoch_reclaim_safe id demo_home demo_guarded s E _) 1 100 _).
  - vm_compute. discriminate.
  - apply (bool_decide_unpack _). vm_compute. exact I.
Defined.

Lemma epoch_pending_exact_witness : pending_count (dom_ 0 (final demo_guarded)) = 1 /\ pending (dom_ 0 (final demo_guarded)) = [100].
Proof.
  assert (pending (dom_ 0 (final demo_guarded)) = [100]) as Hp by (vm_compute; reflexivity). split; [|exact Hp].
  rewrite (epoch_pending_exact id demo_home demo_guarded (final demo_guarded) 0); [by rewrite Hp| |].
  - apply final_run. apply (bool_decide_unpack _). vm_compute. exact I.
  - assert (map_Forall (fun _ th => code th = []) (threads (final demo_guarded))) as H by (apply (bool_decide_unpack _); vm_compute; exact I).
    intros t. unfold thr. destruct (threads (final demo_guarded) !! t) as [th|] eqn:E; [exact (H t th E)|reflexivity].
Defined.

(** After the reader has left, the next pass of thread 2 frees the object. *)
Lemma try_reclaim_frees_witness : exists k s', run id demo_home ((2, Begin (CallReclaim 0 0)) :: replicate k (2, Step 7 false)) (final demo_left) = Some s' /\
  freed (final demo_left) = [] /\ freed s' = [100] /\ pending (dom_ 0 s') = [].
Proof.
  destruct (try_reclaim_frees id demo_home 2 0 7 0 (final demo_left)) as (k & s' & H1 & H2 & H3 & H4); [vm_compute; reflexivity..|discriminate|].
  exists k, s'. split; [exact H1|]. split; [vm_compute; reflexivity|]. rewrite H3, H4. split; vm_compute; reflexivity.
Defined.

(** Without the discipline the guarantee fails: entering a second domain gives up
    the slot in the first, and the object is freed under the reader. *)
Example nested_domains_free_too_early : refs (thr 1 (final demo_nested)) = [100] /\ freed (final demo_nested) = [100].
Proof. split; vm_compute; reflexivity. Qed.
