(* ===== verification/HazardPointers.v ===== *)
(** * Hazard pointers

    The domain and the holders of detail/hazptr.hpp: a holder owns a slot in which it
    publishes the pointer it protects; retired objects are buffered per thread and
    pushed onto a pending list; a reclaimer collects the published pointers and frees
    the objects that are not among them. Slots come from a cache of the thread, a
    tagged free list, a scan of the table or a new batch. The operations are a step
    system: a thread runs a stack of instructions, each one access to shared memory
    together with the thread-local work around it, and the steps of all threads
    interleave. *)
From stdpp Require Import sorting.
From S2P Require Import Prelude.
Open Scope Z_scope.

(** * Data *)

Definition kBatchSize : nat := 128.
Definition kMaxBatches : nat := 64.
Definition kAbsoluteMaxBatches : nat := 512.
Definition kMaxSpinRetries : Z := 1024.
Definition kMaxSyncFallbacks : Z := 64.
Definition kCacheSize : nat := 8.
Definition kCapacity : nat := 64.
Definition kFreeSlotNil : Z := U32_MAX.
Definition kPendingCounterShards : Z := 8.

Abbreviation obj := Z (only parsing).

(** The head of the free list: a 32-bit tag above a 32-bit slot index. *)
Definition pack_free (tag slot : Z) : Z := Z.lor (Z.shiftl tag 32) slot.
Definition free_slot_of (packed : Z) : Z := Z.land packed 4294967295.
Definition free_tag_of (packed : Z) : Z := Z.shiftr packed 32.

(** One entry of [used_batches_], [slot_batches_] and [next_free_batches_]. *)
Record cell := Cell { used : bool; ptr : option obj; next_free : Z }.
Definition cell_new : cell := Cell false None kFreeSlotNil.

(** The counters that are only read for reporting. *)
Inductive counter := slot_exhaustion_count | sync_fallback_count | reclaim_total | reclaim_auto_triggered_count.
#[global] Instance counter_eq : EqDecision counter.
Proof. solve_decision. Defined.

(** A domain. The batches are one table, whose entries past [num_batches] do not
    exist yet; the pending list, which hangs off [pending_head_] through the [next_]
    links, is the list of its objects; the counter shards are indexed as
    [pending_shard_for_this_thread] does. *)
Record hazptr_domain := Domain {
  cells : gmap nat cell;
  num_batches : nat;
  expand_mutex : option Z;
  free_list_head : Z;
  max_batches_limit : nat;
  active_slot_count : Z;
  pending : list obj;
  pending_shards : gmap Z Z;
  reclaim_in_progress : bool;
  reclaim_threshold : Z;
  drain_started : bool;
  drain_warn_emitted : bool;
  stats : counter -> Z }.

Definition batches_for (n : Z) : nat := Z.to_nat (u64 (n + Z.of_nat kBatchSize - 1) / Z.of_nat kBatchSize).
(** The constructor with [initial_slots]. *)
Definition domain_of (initial_slots : Z) : hazptr_domain :=
  let nb := batches_for initial_slots in
  let nb := if (nb =? 0)%nat then 1%nat else nb in
  let nb := if (kAbsoluteMaxBatches <? nb)%nat then kAbsoluteMaxBatches else nb in
  Domain ∅ nb None kFreeSlotNil kMaxBatches 0 [] ∅ false 4096 false false (fun _ => 0).
Definition domain_new : hazptr_domain := domain_of (Z.of_nat kBatchSize).

(** A [hazptr_holder]; [h_slot] is [None] for [npos]. [guard] is the object that the
    holder is known to protect: published, and found in its source afterwards. *)
Record holder := Holder { h_domain : Z; h_slot : option nat; guard : option obj }.

Inductive instr :=
  | AcquireSlot (d h : Z)
  | PopLoad (d h spin_retries sync_fallbacks : Z)
  | PopNext (d h spin_retries sync_fallbacks head : Z)
  | PopCas (d h spin_retries sync_fallbacks head next : Z)
  | PopClaim (d h spin_retries sync_fallbacks : Z) (idx : nat)
  | BatchLoad (d h spin_retries sync_fallbacks : Z)
  | Acquire (d h spin_retries sync_fallbacks : Z) (i total : nat)
  | AcquireLocked (d h spin_retries sync_fallbacks : Z) (i total2 : nat)
  | Count (d h : Z) (i : nat)
  | Unlock (d : Z)
  | ReleaseSlot (d : Z) (i : nat)
  | ReleaseGlobal (d : Z) (i : nat)
  | ReleaseUsed (d : Z) (i : nat)
  | ReleaseCount (d : Z) (i : nat)
  | FreeLoad (d : Z) (i : nat)
  | FreeNext (d : Z) (i : nat) (head : Z)
  | FreeCas (d : Z) (i : nat) (head : Z)
  | DropSlots (next : option Z)
  | ReloadFirst (h src : Z)
  | Publish (h : Z) (p : option obj)
  | Reload (h src : Z) (p : option obj)
  | SwapLoad (h h' : Z)
  | SwapLoadOther (h h' : Z) (mine : option obj)
  | GetLoad (h : Z)
  | Claim (d : Z) (x : obj) (deleter : bool)
  | PushRetired (d : Z) (x : obj)
  | Buffer (d : Z) (x : obj)
  | Flush (d : Z)
  | PushLoad (d : Z) (chain : list obj)
  | PushCas (d : Z) (chain : list obj) (expected : option obj)
  | PendingAdd (d : Z) (n : nat)
  | AutoReclaim (d : Z)
  | AutoCas (d : Z)
  | AutoDone (d : Z)
  | TryReclaim (d batch_size : Z)
  | Exchange (d batch_size : Z)
  | ActiveLoad (d batch_size : Z) (todo : list obj)
  | ScanStart (d batch_size : Z) (todo : list obj)
  | Scan (d batch_size : Z) (todo vec : list obj) (i total : nat)
  | ScanPtr (d batch_size : Z) (todo vec : list obj) (i total : nat)
  | FreeLoop (d batch_size : Z) (vec : option (list obj)) (processed reclaimed_count : Z) (todo kept : list obj)
  | AddReclaimed (d reclaimed_count : Z)
  | PendingRelease (d processed : Z)
  | DropBuffer
  | ExchangeAll (d : Z).

(** A thread: its [tls_slot_cache], its [tls_retire_buffer], the holders it owns by
    name, what its last [get] returned, and the instructions it has to run. *)
Record thread := Thread {
  cached : list nat;
  owner : option Z;
  entries : list obj;
  owner_domain : option Z;
  holders : gmap Z holder;
  got : option obj;
  code : list instr }.
Definition thread_new : thread := Thread [] None [] None ∅ None [].

(** The whole state: [sources] are the atomic pointers of the client; [claimed] holds
    the objects whose [retired_] is set, [reclaim_] those with a deleter, [wraps] the
    object inside a [retire_wrapper], [freed] what deleters destroyed, in order;
    [doomed] are the objects that [retire] was called for. *)
Record state := State {
  domains : gmap Z hazptr_domain;
  threads : gmap Z thread;
  sources : gmap Z obj;
  claimed : gset obj;
  reclaim_ : gset obj;
  wraps : gmap obj obj;
  freed : list obj;
  allocated : gset obj;
  doomed : gset obj }.
(** At the start there is the default domain. *)
Definition init : state := State {[0 := domain_new]} ∅ ∅ ∅ ∅ ∅ [] ∅ ∅.

Definition dom_ (d : Z) (s : state) : hazptr_domain := default domain_new (domains s !! d).
Definition thr (t : Z) (s : state) : thread := default thread_new (threads s !! t).
Definition set_dom (d : Z) (D : hazptr_domain) (s : state) : state :=
  State (<[d := D]> (domains s)) (threads s) (sources s) (claimed s) (reclaim_ s) (wraps s) (freed s) (allocated s) (doomed s).
Definition set_thr (t : Z) (th : thread) (s : state) : state :=
  State (domains s) (<[t := th]> (threads s)) (sources s) (claimed s) (reclaim_ s) (wraps s) (freed s) (allocated s) (doomed s).
Definition set_objects (src : gmap Z obj) (cl rc : gset obj) (w : gmap obj obj) (fr : list obj) (al dm : gset obj) (s : state) : state :=
  State (domains s) (threads s) src cl rc w fr al dm.
Definition at_cell (i : nat) (D : hazptr_domain) : cell := default cell_new (cells D !! i).

Definition with_code (c : list instr) (th : thread) : thread := Thread (cached th) (owner th) (entries th) (owner_domain th) (holders th) (got th) c.
Definition with_cache (l : list nat) (o : option Z) (th : thread) : thread := Thread l o (entries th) (owner_domain th) (holders th) (got th) (code th).
Definition with_buffer (l : list obj) (o : option Z) (th : thread) : thread := Thread (cached th) (owner th) l o (holders th) (got th) (code th).
Definition with_holders (m : gmap Z holder) (th : thread) : thread := Thread (cached th) (owner th) (entries th) (owner_domain th) m (got th) (code th).
Definition with_got (p : option obj) (th : thread) : thread := Thread (cached th) (owner th) (entries th) (owner_domain th) (holders th) p (code th).
Definition with_holder (h : Z) (x : holder) (th : thread) : thread := with_holders (<[h := x]> (holders th)) th.

Definition with_cell (i : nat) (c : cell) (D : hazptr_domain) : hazptr_domain :=
  Domain (<[i := c]> (cells D)) (num_batches D) (expand_mutex D) (free_list_head D) (max_batches_limit D) (active_slot_count D) (pending D) (pending_shards D) (reclaim_in_progress D) (reclaim_threshold D) (drain_started D) (drain_warn_emitted D) (stats D).
Definition with_mutex (nb : nat) (m : option Z) (D : hazptr_domain) : hazptr_domain :=
  Domain (cells D) nb m (free_list_head D) (max_batches_limit D) (active_slot_count D) (pending D) (pending_shards D) (reclaim_in_progress D) (reclaim_threshold D) (drain_started D) (drain_warn_emitted D) (stats D).
Definition with_free (fl : Z) (D : hazptr_domain) : hazptr_domain :=
  Domain (cells D) (num_batches D) (expand_mutex D) fl (max_batches_limit D) (active_slot_count D) (pending D) (pending_shards D) (reclaim_in_progress D) (reclaim_threshold D) (drain_started D) (drain_warn_emitted D) (stats D).
Definition with_limit (lim : nat) (D : hazptr_domain) : hazptr_domain :=
  Domain (cells D) (num_batches D) (expand_mutex D) (free_list_head D) lim (active_slot_count D) (pending D) (pending_shards D) (reclaim_in_progress D) (reclaim_threshold D) (drain_started D) (drain_warn_emitted D) (stats D).
Definition with_active (act : Z) (D : hazptr_domain) : hazptr_domain :=
  Domain (cells D) (num_batches D) (expand_mutex D) (free_list_head D) (max_batches_limit D) act (pending D) (pending_shards D) (reclaim_in_progress D) (reclaim_threshold D) (drain_started D) (drain_warn_emitted D) (stats D).
Definition with_pending (pn : list obj) (D : hazptr_domain) : hazptr_domain :=
  Domain (cells D) (num_batches D) (expand_mutex D) (free_list_head D) (max_batches_limit D) (active_slot_count D) pn (pending_shards D) (reclaim_in_progress D) (reclaim_threshold D) (drain_started D) (drain_warn_emitted D) (stats D).
Definition with_shards (sh : gmap Z Z) (D : hazptr_domain) : hazptr_domain :=
  Domain (cells D) (num_batches D) (expand_mutex D) (free_list_head D) (max_batches_limit D) (active_slot_count D) (pending D) sh (reclaim_in_progress D) (reclaim_threshold D) (drain_started D) (drain_warn_emitted D) (stats D).
Definition with_flags (busy : bool) (thd : Z) (dr wn : bool) (D : hazptr_domain) : hazptr_domain :=
  Domain (cells D) (num_batches D) (expand_mutex D) (free_list_head D) (max_batches_limit D) (active_slot_count D) (pending D) (pending_shards D) busy thd dr wn (stats D).
Definition bump (c : counter) (n : Z) (D : hazptr_domain) : hazptr_domain :=
  Domain (cells D) (num_batches D) (expand_mutex D) (free_list_head D) (max_batches_limit D) (active_slot_count D) (pending D) (pending_shards D) (reclaim_in_progress D) (reclaim_threshold D) (drain_started D) (drain_warn_emitted D) (fun c' => if decide (c' = c) then u64 (stats D c + n) else stats D c').

Definition set_used (i : nat) (b : bool) (D : hazptr_domain) : hazptr_domain :=
  with_cell i (Cell b (ptr (at_cell i D)) (next_free (at_cell i D))) D.
Definition store_slot (i : nat) (p : option obj) (D : hazptr_domain) : hazptr_domain :=
  with_cell i (Cell (used (at_cell i D)) p (next_free (at_cell i D))) D.
Definition load_slot (i : nat) (D : hazptr_domain) : option obj := ptr (at_cell i D).
Definition store_next_free (i : nat) (next : Z) (D : hazptr_domain) : hazptr_domain :=
  with_cell i (Cell (used (at_cell i D)) (ptr (at_cell i D)) next) D.
Definition load_next_free (i : nat) (D : hazptr_domain) : Z := next_free (at_cell i D).
Definition capacity (D : hazptr_domain) : nat := (num_batches D * kBatchSize)%nat.

(** * The instructions *)

Definition pending_count (D : hazptr_domain) : Z := let total := tsum id (pending_shards D) in if 0 <? total then total else 0.

Definition outcome : Type := option (list instr * thread * state).

(** Access to an entry of the table; past the last batch it is out of bounds. *)
Definition on_cell (i : nat) (D : hazptr_domain) (k : cell -> outcome) : outcome := if (i <? capacity D)%nat then k (at_cell i D) else None.

(** [acquire_slot] up to its loop: the cache of the thread, which a change of domain
    empties first. *)
Definition acquire_slot (d h : Z) (th : thread) (s : state) : outcome :=
  if bool_decide (owner th = Some d) && negb (length (cached th) =? 0)%nat then
    match last (cached th) with
    | Some i => Some ([], with_holder h (Holder d (Some i) None) (with_cache (removelast (cached th)) (owner th) th), s)
    | None => None
    end
  else if bool_decide (owner th <> None) && bool_decide (owner th <> Some d)
  then Some ([DropSlots (Some d); PopLoad d h 0 0], th, s)
  else Some ([PopLoad d h 0 0], with_cache (cached th) (Some d) th, s).

(** [free_list_pop_and_claim]: the load of the head, of the link, the CAS, the claim. *)
Definition pop_load (d h spin sync : Z) (th : thread) (s : state) : outcome :=
  let head := free_list_head (dom_ d s) in
  Some ([if free_slot_of head =? kFreeSlotNil then BatchLoad d h spin sync else PopNext d h spin sync head], th, s).
Definition pop_next (d h spin sync head : Z) (th : thread) (s : state) : outcome :=
  on_cell (Z.to_nat (free_slot_of head)) (dom_ d s) (fun c => Some ([PopCas d h spin sync head (next_free c)], th, s)).
Definition pop_cas (spurious : bool) (d h spin sync head next : Z) (th : thread) (s : state) : outcome :=
  let D := dom_ d s in
  if (free_list_head D =? head) && negb spurious
  then Some ([PopClaim d h spin sync (Z.to_nat (free_slot_of head))], th, set_dom d (with_free (pack_free (u32 (free_tag_of head + 1)) next) D) s)
  else Some ([PopLoad d h spin sync], th, s).
Definition pop_claim (d h spin sync : Z) (idx : nat) (th : thread) (s : state) : outcome :=
  let D := dom_ d s in
  on_cell idx D (fun c => if used c then Some ([PopLoad d h spin sync], th, s) else Some ([Count d h idx], th, set_dom d (set_used idx true D) s)).

(** The linear scan, and the lock of the expansion. *)
Definition acquire_scan (t d h spin sync : Z) (i total : nat) (th : thread) (s : state) : outcome :=
  let D := dom_ d s in
  if (i <? total)%nat then
    on_cell i D (fun c => if used c then Some ([Acquire d h spin sync (S i) total], th, s) else Some ([Count d h i], th, set_dom d (set_used i true D) s))
  else match expand_mutex D with
       | Some _ => None
       | None => Some ([AcquireLocked d h spin sync total (capacity D)], th, set_dom d (with_mutex (num_batches D) (Some t) D) s)
       end.
(** Under [expand_mutex_]: the scan of newer batches, the retries on exhaustion, of
    which the late ones reclaim, and the new batch. *)
Definition acquire_locked (d h spin sync : Z) (i total2 : nat) (th : thread) (s : state) : outcome :=
  let D := dom_ d s in
  if (i <? total2)%nat then
    on_cell i D (fun c => if used c then Some ([AcquireLocked d h spin sync (S i) total2], th, s)
                          else Some ([Count d h i; Unlock d], th, set_dom d (set_used i true D) s))
  else if (max_batches_limit D <=? num_batches D)%nat then
    let D := bump slot_exhaustion_count 1 D in
    if spin + 1 <=? kMaxSpinRetries then Some ([Unlock d; PopLoad d h (spin + 1) sync], th, set_dom d D s)
    else
      let D := bump sync_fallback_count 1 D in
      if kMaxSyncFallbacks <? sync + 1 then Some ([Unlock d], with_holder h (Holder d None None) th, set_dom d D s)
      else Some ([TryReclaim d 0; Unlock d; PopLoad d h (spin + 1) (sync + 1)], th, set_dom d D s)
  else Some ([Unlock d; PopLoad d h spin sync], th, set_dom d (with_mutex (S (num_batches D)) (expand_mutex D) D) s).
(** The slot is counted and becomes the holder's. *)
Definition count_slot (d h : Z) (i : nat) (th : thread) (s : state) : outcome :=
  let D := dom_ d s in Some ([], with_holder h (Holder d (Some i) None) th, set_dom d (with_active (u64 (active_slot_count D + 1)) D) s).

(** [release_slot], which prefers the cache, and [release_slot_global]. *)
Definition release_slot (d : Z) (i : nat) (th : thread) (s : state) : outcome :=
  let D := dom_ d s in
  on_cell i D (fun _ =>
    let s := set_dom d (store_slot i None D) s in
    if (bool_decide (owner th = None) || bool_decide (owner th = Some d)) && (length (cached th) <? kCacheSize)%nat
    then Some ([], with_cache (cached th ++ [i]) (Some d) th, s)
    else Some ([ReleaseUsed d i], th, s)).
Definition release_slot_global (d : Z) (i : nat) (th : thread) (s : state) : outcome :=
  let D := dom_ d s in on_cell i D (fun _ => Some ([ReleaseUsed d i], th, set_dom d (store_slot i None D) s)).
Definition release_used (d : Z) (i : nat) (th : thread) (s : state) : outcome :=
  let D := dom_ d s in on_cell i D (fun _ => Some ([ReleaseCount d i], th, set_dom d (set_used i false D) s)).
Definition release_count (d : Z) (i : nat) (th : thread) (s : state) : outcome :=
  let D := dom_ d s in Some ([FreeLoad d i], th, set_dom d (with_active (u64 (active_slot_count D - 1)) D) s).

(** [free_list_push]: the load of the head, the store of the link, the CAS. *)
Definition free_next (d : Z) (i : nat) (head : Z) (th : thread) (s : state) : outcome :=
  let D := dom_ d s in on_cell i D (fun _ => Some ([FreeCas d i head], th, set_dom d (store_next_free i (free_slot_of head) D) s)).
Definition free_cas (spurious : bool) (d : Z) (i : nat) (head : Z) (th : thread) (s : state) : outcome :=
  let D := dom_ d s in
  if (free_list_head D =? head) && negb spurious
  then Some ([], th, set_dom d (with_free (pack_free (u32 (free_tag_of head + 1)) (Z.of_nat i)) D) s)
  else Some ([FreeNext d i (free_list_head D)], th, s).

(** Hands the cached slots back, one by one, and passes the cache on. *)
Definition drop_slots (next : option Z) (th : thread) (s : state) : outcome :=
  match cached th, owner th with
  | i :: l, Some d => Some ([ReleaseGlobal d i; DropSlots next], with_cache l (owner th) th, s)
  | _, _ => Some ([], with_cache [] next th, s)
  end.

(** The slot of a holder: [domain_.store_slot(slot_, p)] and [domain_.load_slot(slot_)]. *)
Definition through (h : Z) (th : thread) (s : state) (k : Z -> nat -> hazptr_domain -> outcome) : outcome :=
  x ← holders th !! h; i ← h_slot x; on_cell i (dom_ (h_domain x) s) (fun _ => k (h_domain x) i (dom_ (h_domain x) s)).
Definition publish (h : Z) (p : option obj) (th : thread) (s : state) : outcome :=
  through h th s (fun d i D => Some ([], th, set_dom d (store_slot i p D) s)).
(** The loop of [protect_and_reload_with] for an atomic source. *)
Definition reload (h src : Z) (p : option obj) (th : thread) (s : state) : outcome :=
  let current := sources s !! src in
  if bool_decide (current = p)
  then x ← holders th !! h; Some ([], with_holder h (Holder (h_domain x) (h_slot x) p) th, s)
  else Some ([Publish h current; Reload h src current], th, s).
Definition swap_load (h h' : Z) (th : thread) (s : state) : outcome :=
  through h th s (fun d i D => Some ([SwapLoadOther h h' (load_slot i D)], th, s)).
Definition swap_load_other (h h' : Z) (mine : option obj) (th : thread) (s : state) : outcome :=
  through h' th s (fun d i D => Some ([Publish h (load_slot i D); Publish h' mine], th, s)).

(** [get] reads the slot without a look at [valid()]: on an empty holder the index is
    [npos], past the table. *)
Definition get_load (h : Z) (th : thread) (s : state) : outcome :=
  through h th s (fun d i D => Some ([], with_got (load_slot i D) th, s)).

(** Retirement: the claim, the warning, the buffer and its flush. *)
Definition claim_retired (d : Z) (x : obj) (deleter : bool) (th : thread) (s : state) : outcome :=
  if decide (x ∈ claimed s) then Some ([], th, s)
  else Some ([PushRetired d x], th,
             set_objects (sources s) ({[x]} ∪ claimed s) (if deleter then {[x]} ∪ reclaim_ s else reclaim_ s) (wraps s) (freed s) (allocated s) (doomed s) s).
Definition push_retired (d : Z) (x : obj) (th : thread) (s : state) : outcome :=
  let D := dom_ d s in
  let s := if drain_started D then s else set_dom d (with_flags (reclaim_in_progress D) (reclaim_threshold D) false true D) s in
  match entries th, owner_domain th with
  | _ :: _, Some d' => Some (if d' =? d then [Buffer d x] else [Flush d'; Buffer d x], th, s)
  | _, _ => Some ([Buffer d x], th, s)
  end.
Definition buffer_retired (d : Z) (x : obj) (th : thread) (s : state) : outcome :=
  let buf := entries th ++ [x] in Some (if (kCapacity <=? length buf)%nat then [Flush d] else [], with_buffer buf (Some d) th, s).
Definition flush_tls_buffer (d : Z) (th : thread) (s : state) : outcome :=
  match entries th with
  | [] => Some ([], th, s)
  | l => Some ([PushLoad d l], with_buffer [] (owner_domain th) th, s)
  end.
Definition push_pending (spurious : bool) (d : Z) (chain : list obj) (expected : option obj) (th : thread) (s : state) : outcome :=
  let D := dom_ d s in
  if bool_decide (head (pending D) = expected) && negb spurious
  then Some ([PendingAdd d (length chain); AutoReclaim d], th, set_dom d (with_pending (chain ++ pending D) D) s)
  else Some ([PushCas d chain (head (pending D))], th, s).
Definition maybe_auto_reclaim (d : Z) (th : thread) (s : state) : outcome :=
  let D := dom_ d s in
  Some (if (reclaim_threshold D =? U64_MAX) || (pending_count D <=? reclaim_threshold D) then [] else [AutoCas d], th, s).
Definition begin_auto_reclaim (d : Z) (th : thread) (s : state) : outcome :=
  let D := dom_ d s in
  if reclaim_in_progress D then Some ([], th, s)
  else Some ([TryReclaim d 0; AutoDone d], th,
             set_dom d (bump reclaim_auto_triggered_count 1 (with_flags true (reclaim_threshold D) (drain_started D) (drain_warn_emitted D) D)) s).
Definition end_auto_reclaim (d : Z) (th : thread) (s : state) : outcome :=
  let D := dom_ d s in Some ([], th, set_dom d (with_flags false (reclaim_threshold D) (drain_started D) (drain_warn_emitted D) D) s).

(** [build_protected_vector]: the used slots one after the other, then [std::sort]. *)
Definition sort (l : list obj) : list obj := merge_sort Z.le l.
Definition build_protected_vector (d b : Z) (todo vec : list obj) (i total : nat) (th : thread) (s : state) : outcome :=
  if (i <? total)%nat then
    on_cell i (dom_ d s) (fun c => Some ([if used c then ScanPtr d b todo vec i total else Scan d b todo vec (S i) total], th, s))
  else Some ([FreeLoop d b (Some (sort vec)) 0 0 todo []], th, s).
Definition scan_ptr (d b : Z) (todo vec : list obj) (i total : nat) (th : thread) (s : state) : outcome :=
  on_cell i (dom_ d s) (fun c => Some ([Scan d b todo (vec ++ option_list (ptr c)) (S i) total], th, s)).

(** [std::binary_search]: the first element that is not below [x], by halving. *)
Fixpoint lower_bound (fuel : nat) (l : list obj) (x : obj) (first count : nat) : nat :=
  match fuel with
  | O => first
  | S fuel =>
      if (count =? 0)%nat then first
      else
        let step := Nat.div count 2 in
        if default 0 (l !! (first + step)%nat) <? x then lower_bound fuel l x (first + step + 1) (count - (step + 1)) else lower_bound fuel l x first step
  end.
Definition is_in_protected_vector (vec : list obj) (x : obj) : bool :=
  let i := lower_bound (S (length vec)) vec x 0 (length vec) in
  match vec !! i with Some y => negb (x <? y) | None => false end.

(** [try_reclaim]: the exchange, the shortcut without active slots, the walk. *)
Definition exchange_pending (d b : Z) (th : thread) (s : state) : outcome :=
  let D := dom_ d s in
  match pending D with
  | [] => Some ([], th, s)
  | l => Some ([ActiveLoad d b (if 0 <? b then reverse l else l)], th, set_dom d (with_pending [] D) s)
  end.
Definition active_load (d b : Z) (todo : list obj) (th : thread) (s : state) : outcome :=
  Some ([if 0 <? active_slot_count (dom_ d s) then ScanStart d b todo else FreeLoop d b None 0 0 todo []], th, s).
(** The deleter of an object: a wrapper destroys what it wraps, then itself. *)
Definition destroys (x : obj) (s : state) : list obj := if decide (x ∈ reclaim_ s) then option_list (wraps s !! x) ++ [x] else [].
Definition batch_done (batch_size processed : Z) : bool := (0 <? batch_size) && (batch_size <=? processed).
Definition reclaim_loop (d b : Z) (vec : option (list obj)) (processed count : Z) (todo kept : list obj) (th : thread) (s : state) : outcome :=
  match todo with
  | x :: todo' =>
      if batch_done b processed then
        Some ([PushLoad d (kept ++ todo); AddReclaimed d count; PendingRelease d (processed + Z.of_nat (length todo))], th, s)
      else if match vec with None => true | Some v => negb (is_in_protected_vector v x) end then
        Some ([FreeLoop d b vec (processed + 1) (count + 1) todo' kept], th,
              set_objects (sources s) (claimed s) (reclaim_ s) (wraps s) (freed s ++ destroys x s) (allocated s) (doomed s) s)
      else Some ([FreeLoop d b vec (processed + 1) count todo' (kept ++ [x])], th, s)
  | [] => Some (match kept with [] => [] | _ => [PushLoad d kept] end ++ [AddReclaimed d count; PendingRelease d processed], th, s)
  end.
(** [reclaim_all_pending] after its flush: everything goes, whatever is published. *)
Definition reclaim_all_pending (d : Z) (th : thread) (s : state) : outcome :=
  let D := dom_ d s in
  match pending D with
  | [] => Some ([], th, s)
  | l => Some ([FreeLoop d 0 None 0 0 l []], th, set_dom d (with_pending [] D) s)
  end.

Section hazptr.
(** The shard of a thread, [hash(this_thread) % kPendingCounterShards]. *)
Context (shard_of : Z -> Z).

Definition add_pending (t n : Z) (D : hazptr_domain) : hazptr_domain :=
  let k := shard_of t mod kPendingCounterShards in with_shards (<[k := default 0 (pending_shards D !! k) + n]> (pending_shards D)) D.

(** One access of thread [t]; [spurious] is the spurious failure of a weak
    compare-exchange. The result is the instructions that replace it, the thread and
    the state; [None] is a mutex that is taken, an entry past the table, or an
    operation on a missing holder. *)
Definition access (t : Z) (spurious : bool) (ins : instr) (th : thread) (s : state) : outcome :=
  match ins with
  | AcquireSlot d h => acquire_slot d h th s
  | PopLoad d h spin sync => pop_load d h spin sync th s
  | PopNext d h spin sync head => pop_next d h spin sync head th s
  | PopCas d h spin sync head next => pop_cas spurious d h spin sync head next th s
  | PopClaim d h spin sync idx => pop_claim d h spin sync idx th s
  | BatchLoad d h spin sync => Some ([Acquire d h spin sync 0 (capacity (dom_ d s))], th, s)
  | Acquire d h spin sync i total => acquire_scan t d h spin sync i total th s
  | AcquireLocked d h spin sync i total2 => acquire_locked d h spin sync i total2 th s
  | Count d h i => count_slot d h i th s
  | Unlock d => let D := dom_ d s in Some ([], th, set_dom d (with_mutex (num_batches D) None D) s)
  | ReleaseSlot d i => release_slot d i th s
  | ReleaseGlobal d i => release_slot_global d i th s
  | ReleaseUsed d i => release_used d i th s
  | ReleaseCount d i => release_count d i th s
  | FreeLoad d i => Some ([FreeNext d i (free_list_head (dom_ d s))], th, s)
  | FreeNext d i head => free_next d i head th s
  | FreeCas d i head => free_cas spurious d i head th s
  | DropSlots next => drop_slots next th s
  | ReloadFirst h src => let p := sources s !! src in Some ([Publish h p; Reload h src p], th, s)
  | Publish h p => publish h p th s
  | Reload h src p => reload h src p th s
  | SwapLoad h h' => swap_load h h' th s
  | SwapLoadOther h h' mine => swap_load_other h h' mine th s
  | GetLoad h => get_load h th s
  | Claim d x deleter => claim_retired d x deleter th s
  | PushRetired d x => push_retired d x th s
  | Buffer d x => buffer_retired d x th s
  | Flush d => flush_tls_buffer d th s
  | PushLoad d chain => Some ([PushCas d chain (head (pending (dom_ d s)))], th, s)
  | PushCas d chain expected => push_pending spurious d chain expected th s
  | PendingAdd d n => Some ([], th, set_dom d (add_pending t (Z.of_nat n) (dom_ d s)) s)
  | AutoReclaim d => maybe_auto_reclaim d th s
  | AutoCas d => begin_auto_reclaim d th s
  | AutoDone d => end_auto_reclaim d th s
  | TryReclaim d b => Some ([Flush d; Exchange d b], th, s)
  | Exchange d b => exchange_pending d b th s
  | ActiveLoad d b todo => active_load d b todo th s
  | ScanStart d b todo => Some ([Scan d b todo [] 0 (capacity (dom_ d s))], th, s)
  | Scan d b todo vec i total => build_protected_vector d b todo vec i total th s
  | ScanPtr d b todo vec i total => scan_ptr d b todo vec i total th s
  | FreeLoop d b vec processed count todo kept => reclaim_loop d b vec processed count todo kept th s
  | AddReclaimed d n => Some ([], th, set_dom d (bump reclaim_total n (dom_ d s)) s)
  | PendingRelease d n => Some ([], th, set_dom d (add_pending t (- n) (dom_ d s)) s)
  | DropBuffer => Some (match entries th, owner_domain th with _ :: _, Some d => [Flush d] | _, _ => [] end, th, s)
  | ExchangeAll d => reclaim_all_pending d th s
  end.

(** * Calls and schedules *)

(** What an idle thread can begin: the members of a holder [h]; the creation of an
    object, a store to a source, and the ways to retire; the maintenance calls and
    setters of a domain; and the destructors, at thread exit and of the domain. *)
Inductive call :=
  | CallHolder (h d : Z) | CallDestroy (h : Z) | CallMove (h h' : Z) | CallAssign (h h' : Z)
  | CallProtect (h : Z) (p : option obj) | CallReloadWith (h : Z) (p : option obj) (src : Z) | CallReload (h src : Z) | CallClear (h : Z) | CallSwap (h h' : Z) | CallGet (h : Z)
  | CallNew (x : obj) (deleter : bool) | CallStore (src : Z) (p : option obj)
  | CallRetire (d : Z) (x : obj) | CallRetireObj (d : Z) (x : obj) | CallRetireWrapped (d : Z) (w x : obj)
  | CallFlush (d : Z) | CallReclaim (d batch_size : Z) | CallInvalidate (d : Z) | CallMaxSlots (d n : Z) | CallThreshold (d n : Z) | CallDrain (d : Z) (started : bool)
  | CallDropBuffer | CallDropCache | CallDomainEnd (d : Z).

Definition linked (x : obj) (s : state) : bool := bool_decide (x ∈ (map_to_list (sources s)).*2).
Definition unguard (x : holder) : holder := Holder (h_domain x) (h_slot x) None.

(** A member that does nothing without a slot, and otherwise drops the guard and
    runs [c]. *)
Definition if_valid (t h : Z) (c : list instr) (s : state) : option state :=
  x ← holders (thr t s) !! h;
  match h_slot x with
  | None => Some s
  | Some _ => Some (set_thr t (with_code c (with_holder h (unguard x) (thr t s))) s)
  end.
(** [~hazptr_holder]; and the move assignment, which takes the slot but keeps its
    own domain. *)
Definition destroy_holder (t h : Z) (s : state) : option state :=
  let th := thr t s in
  x ← holders th !! h;
  let c := match h_slot x with Some i => [ReleaseSlot (h_domain x) i] | None => [] end in
  Some (set_thr t (with_code c (with_holders (delete h (holders th)) th)) s).
Definition move_holder (t h h' : Z) (s : state) : option state :=
  let th := thr t s in
  x' ← holders th !! h';
  match holders th !! h with
  | Some _ => None
  | None => Some (set_thr t (with_holder h x' (with_holder h' (Holder (h_domain x') None None) th)) s)
  end.
Definition assign_holder (t h h' : Z) (s : state) : option state :=
  let th := thr t s in
  x ← holders th !! h; x' ← holders th !! h';
  if h =? h' then Some s
  else
    let c := match h_slot x with Some i => [ReleaseSlot (h_domain x) i] | None => [] end in
    Some (set_thr t (with_code c (with_holder h (Holder (h_domain x) (h_slot x') (guard x')) (with_holder h' (Holder (h_domain x') None None) th))) s).
Definition swap_holders (t h h' : Z) (s : state) : option state :=
  let th := thr t s in
  x ← holders th !! h; x' ← holders th !! h';
  match h_slot x, h_slot x' with
  | Some _, Some _ => Some (set_thr t (with_code [SwapLoad h h'] (with_holder h (unguard x) (with_holder h' (unguard x') th))) s)
  | _, _ => Some s
  end.
Definition set_max_slots (n : Z) (D : hazptr_domain) : hazptr_domain :=
  let b := batches_for n in
  let b := if (b <? kMaxBatches)%nat then kMaxBatches else b in
  with_limit (if (kAbsoluteMaxBatches <? b)%nat then kAbsoluteMaxBatches else b) D.

Definition doom (x : obj) (s : state) : state := set_objects (sources s) (claimed s) (reclaim_ s) (wraps s) (freed s) (allocated s) ({[x]} ∪ doomed s) s.

Definition begin_call (t : Z) (c : call) (s : state) : option state :=
  let th := thr t s in
  let start ins s := Some (set_thr t (with_code [ins] th) s) in
  match code th with
  | _ :: _ => None
  | [] =>
      match c with
      | CallHolder h d => match holders th !! h with Some _ => None | None => start (AcquireSlot d h) s end
      | CallDestroy h => destroy_holder t h s
      | CallMove h h' => move_holder t h h' s
      | CallAssign h h' => assign_holder t h h' s
      | CallProtect h p => if_valid t h [Publish h p] s
      | CallReloadWith h p src => if_valid t h [Publish h p; Reload h src p] s
      | CallReload h src => if_valid t h [ReloadFirst h src] s
      | CallClear h => if_valid t h [Publish h None] s
      | CallSwap h h' => swap_holders t h h' s
      | CallGet h => x ← holders th !! h; start (GetLoad h) s
      | CallNew x deleter =>
          if bool_decide (x ∈ allocated s) then None
          else Some (set_objects (sources s) (claimed s) (if deleter then {[x]} ∪ reclaim_ s else reclaim_ s) (wraps s) (freed s) ({[x]} ∪ allocated s) (doomed s) s)
      | CallStore src p =>
          Some (set_objects (match p with Some x => <[src := x]> (sources s) | None => delete src (sources s) end)
                  (claimed s) (reclaim_ s) (wraps s) (freed s) (allocated s) (doomed s) s)
      | CallRetire d x => start (Claim d x true) (doom x s)
      | CallRetireObj d x => start (Claim d x false) (doom x s)
      | CallRetireWrapped d w x =>
          if bool_decide (w ∈ allocated s) then None
          else start (Claim d w false)
                 (set_objects (sources s) (claimed s) ({[w]} ∪ reclaim_ s) (<[w := x]> (wraps s)) (freed s) ({[w]} ∪ allocated s) ({[x]} ∪ doomed s) s)
      | CallFlush d => start (Flush d) s
      | CallReclaim d b => start (TryReclaim d b) s
      | CallInvalidate d => if bool_decide (owner th = Some d) then start (DropSlots None) s else Some s
      | CallMaxSlots d n => Some (set_dom d (set_max_slots n (dom_ d s)) s)
      | CallThreshold d n => let D := dom_ d s in Some (set_dom d (with_flags (reclaim_in_progress D) n (drain_started D) (drain_warn_emitted D) D) s)
      | CallDrain d b => let D := dom_ d s in Some (set_dom d (with_flags (reclaim_in_progress D) (reclaim_threshold D) b (drain_warn_emitted D) D) s)
      | CallDropBuffer => start DropBuffer s
      | CallDropCache => match cached th, owner th with _ :: _, Some _ => start (DropSlots None) s | _, _ => Some s end
      | CallDomainEnd d =>
          let c := if bool_decide (owner th = Some d) then [DropSlots None] else [] in Some (set_thr t (with_code (c ++ [Flush d; ExchangeAll d]) th) s)
      end
  end.

Inductive move := Begin (c : call) | Step (spurious : bool).

Definition step (tm : Z * move) (s : state) : option state :=
  let '(t, m) := tm in
  match m with
  | Begin c => begin_call t c s
  | Step spurious =>
      let th := thr t s in
      match code th with
      | [] => None
      | ins :: rest => '(new, th', s') ← access t spurious ins th s; Some (set_thr t (with_code (new ++ rest) th') s')
      end
  end.

Fixpoint run (moves : list (Z * move)) (s : state) : option state :=
  match moves with
  | [] => Some s
  | m :: moves => s' ← step m s; run moves s'
  end.

(** The discipline that the guarantees need: one domain, the default one, which is
    never destroyed, objects of classes derived from [hazptr_obj_base], stored nowhere
    once they are retired, and retired when no source holds them; [get] is called on
    holders that have a slot. *)
Definition disciplined (tm : Z * move) (s : state) : bool :=
  match tm.2 with
  | Begin (CallHolder _ d | CallFlush d | CallReclaim d _ | CallInvalidate d | CallMaxSlots d _ | CallThreshold d _ | CallDrain d _) => d =? 0
  | Begin (CallStore _ (Some x)) => bool_decide (x ∈ allocated s /\ x ∉ doomed s)
  | Begin (CallRetire d x) => (d =? 0) && bool_decide (x ∈ allocated s) && negb (linked x s)
  | Begin (CallRetireObj d x) => (d =? 0) && bool_decide (x ∈ allocated s /\ x ∈ reclaim_ s) && negb (linked x s)
  | Begin (CallGet h) => match holders (thr tm.1 s) !! h with Some x => bool_decide (is_Some (h_slot x)) | None => false end
  | Begin (CallRetireWrapped _ _ _ | CallDomainEnd _) => false
  | _ => true
  end.

Fixpoint run_disciplined (moves : list (Z * move)) (s : state) : option state :=
  match moves with
  | [] => Some s
  | m :: moves => if disciplined m s then s' ← step m s; run_disciplined moves s' else None
  end.
End hazptr.
