(* ===== verification/HazardInv.v ===== *)
(** * Hazard pointers: the slots

    The vocabulary of the proof, the protected vector, and the first group of facts
    with its preservation by every step: who owns a slot, what the table and the
    free list hold, and what the counter of active slots counts. *)
From Stdlib Require Import Sorted.
From stdpp Require Import sorting.
From S2P Require Import Prelude HazardPointers.
Open Scope Z_scope.

(** * The protected vector *)

Lemma sorted_le_lookup l j k y z : StronglySorted Z.le l -> (j <= k)%nat -> l !! j = Some y -> l !! k = Some z -> y <= z.
Proof.
  intros Hl. revert j k. induction Hl as [|a l Hl IH Ha]; intros [|j] [|k] Hjk; cbn; try done; try lia.
  - intros [= ->] [= ->]. lia.
  - intros [= ->] Hz. rewrite Forall_lookup in Ha. eauto.
  - intros Hy Hz. apply (IH j k); [lia|done..].
Qed.

Lemma lower_bound_spec fuel l x first count : StronglySorted Z.le l -> (count < fuel)%nat -> (first + count <= length l)%nat ->
  (forall j y, (j < first)%nat -> l !! j = Some y -> y < x) -> (forall j y, (first + count <= j)%nat -> l !! j = Some y -> x <= y) ->
  let i := lower_bound fuel l x first count in
  (forall j y, (j < i)%nat -> l !! j = Some y -> y < x) /\ (forall j y, (i <= j)%nat -> l !! j = Some y -> x <= y).
Proof.
  intros Hl. pose proof (fun j k y z => sorted_le_lookup l j k y z Hl) as Hmono. revert first count. induction fuel as [|fuel IH]; intros first count Hf Hlen Hlo Hhi; [lia|]. cbn [lower_bound].
  destruct (Nat.eqb_spec count 0) as [->|H0]; [split; [done|intros; eapply Hhi; [|done]; lia]|].
  set (st := (count / 2)%nat). assert (st < count)%nat by (apply Nat.div_lt; lia).
  destruct (l !! (first + st)%nat) as [m|] eqn:Hm; [|apply lookup_ge_None in Hm; lia]. cbn [default from_option id].
  destruct (Z.ltb_spec m x); apply IH; try lia; try done.
  - intros j y Hj Hy. pose proof (Hmono j (first + st)%nat y m ltac:(lia) Hy Hm). lia.
  - intros j y Hj Hy. eapply Hhi; [|done]. lia.
  - intros j y Hj Hy. pose proof (Hmono (first + st)%nat j m y ltac:(lia) Hm Hy). lia.
Qed.

Lemma binary_search_mem vec x : is_in_protected_vector (sort vec) x = true <-> x ∈ vec.
Proof.
  unfold is_in_protected_vector, sort. set (l := merge_sort Z.le vec).
  assert (StronglySorted Z.le l) as Hs by (apply Sorted_StronglySorted; [intros ? ? ?; lia|apply Sorted_merge_sort; intros ? ?; lia]).
  assert (x ∈ vec <-> x ∈ l) as -> by (unfold l; by rewrite merge_sort_Permutation).
  destruct (lower_bound_spec (S (length l)) l x 0 (length l) Hs) as [Hlo Hhi]; [lia|lia|lia|intros j y Hj Hy; apply lookup_lt_Some in Hy; lia|].
  set (i := lower_bound _ _ _ _ _) in *. rewrite list_elem_of_lookup. destruct (l !! i) as [y|] eqn:Hy; split.
  - intros Hn%negb_true_iff%Z.ltb_ge. exists i. pose proof (Hhi i y ltac:(lia) Hy). rewrite Hy. f_equal. lia.
  - intros [j Hj]. apply negb_true_iff, Z.ltb_ge. destruct (Nat.lt_ge_cases j i); [pose proof (Hlo j x ltac:(lia) Hj); lia|].
    destruct (decide (i = j)) as [<-|]; [rewrite Hy in Hj; injection Hj; lia|].
    apply (sorted_le_lookup l i j); [done|lia|done..].
  - done.
  - intros [j Hj]. apply lookup_ge_None in Hy. apply lookup_lt_Some in Hj as Hj'. pose proof (Hlo j x ltac:(lia) Hj). lia.
Qed.

(** * Vocabulary *)

(** The domain an instruction works on is the default one. *)
Definition home (ins : instr) : Z :=
  match ins with
  | AcquireSlot d _ | PopLoad d _ _ _ | PopNext d _ _ _ _ | PopCas d _ _ _ _ _ | PopClaim d _ _ _ _ | BatchLoad d _ _ _ | Acquire d _ _ _ _ _
  | AcquireLocked d _ _ _ _ _ | Count d _ _ | Unlock d | ReleaseSlot d _ | ReleaseGlobal d _ | ReleaseUsed d _ | ReleaseCount d _ | FreeLoad d _ | FreeNext d _ _
  | FreeCas d _ _ | DropSlots (Some d) | Claim d _ _ | PushRetired d _ | Buffer d _ | Flush d | PushLoad d _ | PushCas d _ _ | PendingAdd d _ | AutoReclaim d
  | AutoCas d | AutoDone d | TryReclaim d _ | Exchange d _ | ActiveLoad d _ _ | ScanStart d _ _ | Scan d _ _ _ _ _ | ScanPtr d _ _ _ _ _
  | FreeLoop d _ _ _ _ _ _ | AddReclaimed d _ | PendingRelease d _ | ExchangeAll d => d
  | _ => 0
  end.

(** The slots an instruction owns, and whether it accounts for one in the counter. *)
Definition grip (ins : instr) : list nat :=
  match ins with Count _ _ i | ReleaseSlot _ i | ReleaseGlobal _ i | ReleaseUsed _ i => [i] | _ => [] end.
Definition weight (ins : instr) : Z :=
  match ins with ReleaseSlot _ _ | ReleaseGlobal _ _ | ReleaseUsed _ _ | ReleaseCount _ _ => 1 | _ => 0 end.
(** The holder under construction, and the holders an instruction works on. *)
Definition fresh (ins : instr) : list Z :=
  match ins with
  | AcquireSlot _ h | PopLoad _ h _ _ | PopNext _ h _ _ _ | PopCas _ h _ _ _ _ | PopClaim _ h _ _ _ | BatchLoad _ h _ _ | Acquire _ h _ _ _ _
  | AcquireLocked _ h _ _ _ _ | Count _ h _ => [h]
  | _ => []
  end.
Definition busy (ins : instr) : list Z :=
  match ins with Publish h _ | GetLoad h | ReloadFirst h _ | Reload h _ _ => [h] | SwapLoad h h' | SwapLoadOther h h' _ => [h; h'] | _ => [] end.

Definition slots_of (m : gmap Z holder) : list nat := tkeys (fun x => option_list (h_slot x)) m.
Definition owned (th : thread) : list nat := cached th ++ slots_of (holders th) ++ (code th ≫= grip).
Definition counted (th : thread) : Z := Z.of_nat (length (cached th ++ slots_of (holders th))) + total weight (code th).

(** A thread that has used no domain but the default one. *)
Record tame (th : thread) : Prop := {
  ta_code : Forall (fun ins => home ins = 0) (code th);
  ta_owner : owner th = None \/ owner th = Some 0;
  ta_cached : cached th <> [] -> owner th = Some 0;
  ta_buffer : owner_domain th = None \/ owner_domain th = Some 0;
  ta_holder h x : holders th !! h = Some x -> h_domain x = 0 }.

(** The indices in the free list, and those that instructions carry. *)
Definition valid (D : hazptr_domain) (z : Z) : Prop := z = kFreeSlotNil \/ 0 <= z < Z.of_nat (capacity D).
Record table_ok (D : hazptr_domain) : Prop := {
  tb_batches : (num_batches D <= kAbsoluteMaxBatches)%nat;
  tb_limit : (max_batches_limit D <= kAbsoluteMaxBatches)%nat;
  tb_head : valid D (free_slot_of (free_list_head D));
  tb_next i : valid D (next_free (at_cell i D)) }.
Definition index_ok (D : hazptr_domain) (ins : instr) : Prop :=
  match ins with
  | PopNext _ _ _ _ head => 0 <= free_slot_of head < Z.of_nat (capacity D)
  | PopCas _ _ _ _ head next => 0 <= free_slot_of head < Z.of_nat (capacity D) /\ valid D next
  | PopClaim _ _ _ _ i | ReleaseCount _ i | FreeLoad _ i => (i < capacity D)%nat
  | FreeNext _ i head | FreeCas _ i head => (i < capacity D)%nat /\ valid D (free_slot_of head)
  | Acquire _ _ _ _ _ total | AcquireLocked _ _ _ _ _ total | Scan _ _ _ _ _ total => (total <= capacity D)%nat
  | ScanPtr _ _ _ _ i total => (i < total <= capacity D)%nat
  | ExchangeAll _ => False
  | _ => True
  end.

Lemma at_cell_with i j c D : at_cell i (with_cell j c D) = if decide (i = j) then c else at_cell i D.
Proof. unfold at_cell, with_cell. cbn. case_decide; subst; [by rewrite lookup_insert_eq|by rewrite lookup_insert_ne]. Qed.
Lemma hz_dom_set d d' D s : dom_ d' (set_dom d D s) = if decide (d' = d) then D else dom_ d' s.
Proof. unfold dom_, set_dom. cbn. case_decide; subst; [by rewrite lookup_insert_eq|by rewrite lookup_insert_ne]. Qed.
Lemma hz_thr_set t t' th s : thr t' (set_thr t th s) = if decide (t' = t) then th else thr t' s.
Proof. unfold thr, set_thr. cbn. case_decide; subst; [by rewrite lookup_insert_eq|by rewrite lookup_insert_ne]. Qed.

Lemma pack_slot tag z : 0 <= z < 2 ^ 32 -> free_slot_of (pack_free tag z) = z.
Proof.
  intros Hz. unfold free_slot_of, pack_free. change 4294967295 with (Z.ones 32). rewrite Z.land_ones by lia. apply Z.bits_inj'. intros i Hi.
  destruct (Z.lt_ge_cases i 32); [|by rewrite Z.mod_pow2_bits_high, (testbit_high z 32 i) by lia].
  by rewrite Z.mod_pow2_bits_low, Z.lor_spec, Z.shiftl_spec, Z.testbit_neg_r by lia.
Qed.

(** Exposes the body of an access, and splits it into its cases. *)
Ltac hz_expand E :=
  cbv beta iota zeta delta [HazardPointers.access acquire_slot pop_load pop_next pop_cas pop_claim acquire_scan acquire_locked count_slot release_slot
    release_slot_global release_used release_count free_next free_cas drop_slots publish reload swap_load swap_load_other get_load claim_retired push_retired
    buffer_retired flush_tls_buffer push_pending maybe_auto_reclaim begin_auto_reclaim end_auto_reclaim build_protected_vector scan_ptr exchange_pending
    active_load reclaim_loop reclaim_all_pending on_cell through] in E.
Ltac hz_cases E :=
  hz_expand E;
  repeat (match type of E with
          | context [match ?x with _ => _ end] => destruct x eqn:?
          | mbind _ _ = Some _ => apply bind_Some in E as (? & ? & E)
          end; try discriminate E);
  try (injection E as <- <- <-).
Ltac hz_dom := rewrite ?hz_dom_set, ?hz_thr_set; repeat match goal with |- context [decide (?a = ?b)] => destruct (decide (a = b)); subst; try done end.

Ltac fall := repeat first [apply Forall_nil_2|apply Forall_cons_2].

Section inv.
Context (shard_of : Z -> Z).
Implicit Types (t d h x : Z) (i : nat) (ins : instr) (th : thread) (s : state) (D : hazptr_domain).

Abbreviation access := (access shard_of).
Abbreviation step := (step shard_of).

Lemma hz_access_threads t sp ins th s new th' s' : access t sp ins th s = Some (new, th', s') -> threads s' = threads s /\ code th' = code th.
Proof. intros E. destruct ins; hz_cases E; done. Qed.

Lemma tame_holder h (y : holder) th : tame th -> h_domain y = 0 -> tame (with_holder h y th).
Proof. intros [] Hx. split; try done. intros h' x'. cbn. rewrite lookup_insert_Some. naive_solver. Qed.
Lemma tame_cache l o th : tame th -> o = None \/ o = Some 0 -> (l <> [] -> o = Some 0) -> tame (with_cache l o th).
Proof. by intros []. Qed.
Lemma tame_buffer l o th : tame th -> o = None \/ o = Some 0 -> tame (with_buffer l o th).
Proof. by intros []. Qed.
Lemma tame_got p th : tame th -> tame (with_got p th).
Proof. by intros []. Qed.

Lemma tame_access t sp ins th s new th' s' : access t sp ins th s = Some (new, th', s') -> home ins = 0 -> tame th ->
  Forall (fun ins => home ins = 0) new /\ tame th'.
Proof.
  intros E Hh Ht. pose proof (ta_owner _ Ht). pose proof (ta_buffer _ Ht). destruct ins; cbn in Hh; subst; hz_cases E; try (split; [by repeat constructor|done]).
  all: split; [repeat constructor; cbn; intuition congruence|].
  all: repeat first [apply tame_holder|apply tame_cache|apply tame_buffer|apply tame_got]; try done; auto; try (cbn; intuition congruence).
  - apply andb_true_iff in Heqb as [Ho%bool_decide_eq_true _]. auto.
  - destruct next; cbn in Hh; subst; auto.
  - destruct next; cbn in Hh; subst; auto.
  - cbn. by apply (ta_holder _ Ht h).
Qed.

(** ** The slots *)

Lemma slots_new m h (y : holder) : m !! h = None -> slots_of (<[h := y]> m) ≡ₚ option_list (h_slot y) ++ slots_of m.
Proof. apply (tkeys_new (fun a : holder => option_list (h_slot a))). Qed.
Lemma slots_put m h (y z : holder) : m !! h = Some y -> h_slot z = h_slot y -> slots_of (<[h := z]> m) ≡ₚ slots_of m.
Proof. intros Hm E. pose proof (tkeys_put (fun a : holder => option_list (h_slot a)) m h y z Hm) as Hp. cbn beta in Hp. rewrite E in Hp. by apply Permutation_app_inv_r in Hp. Qed.

(** What an access does to the slots: one may be taken that was unused, one may be
    given back, and the rest stays with its owner. *)
Record slot_move ins new th th' D D' (gain lose : list nat) : Prop := {
  sm_owned : cached th' ++ slots_of (holders th') ++ (new ≫= grip) ++ lose ≡ₚ cached th ++ slots_of (holders th) ++ grip ins ++ gain;
  sm_kind : (gain = [] /\ lose = []) \/ (exists i, gain = [i] /\ lose = [] /\ used (at_cell i D) = false /\ (i < capacity D)%nat) \/ (exists i, gain = [] /\ lose = [i]);
  sm_used i : used (at_cell i D') = if decide (i ∈ gain) then true else if decide (i ∈ lose) then false else used (at_cell i D);
  sm_capacity : (capacity D <= capacity D')%nat;
  sm_counted : exists k, -1 <= k <= 1 /\ Z.of_nat (length (cached th' ++ slots_of (holders th'))) + total weight new = Z.of_nat (length (cached th ++ slots_of (holders th))) + weight ins + k /\
    (active_slot_count D' = u64 (active_slot_count D + k) \/ (k = 0 /\ active_slot_count D' = active_slot_count D)) }.

Lemma move_none ins new th th' D D' : cached th' ++ slots_of (holders th') ++ (new ≫= grip) ≡ₚ cached th ++ slots_of (holders th) ++ grip ins ->
  (forall i, used (at_cell i D') = used (at_cell i D)) -> (capacity D <= capacity D')%nat -> active_slot_count D' = active_slot_count D ->
  Z.of_nat (length (cached th' ++ slots_of (holders th'))) + total weight new = Z.of_nat (length (cached th ++ slots_of (holders th))) + weight ins ->
  slot_move ins new th th' D D' [] [].
Proof.
  intros Hp Hu Hc Ha Hw. split; [by rewrite !app_nil_r|auto|intros i; rewrite !decide_False by apply not_elem_of_nil; apply Hu|done|].
  exists 0. split_and!; [lia..|auto].
Qed.

Lemma used_set i j b D : used (at_cell i (set_used j b D)) = if decide (i = j) then b else used (at_cell i D).
Proof. unfold set_used. rewrite at_cell_with. by case_decide. Qed.
Lemma used_store i j p D : used (at_cell i (store_slot j p D)) = used (at_cell i D).
Proof. unfold store_slot. rewrite at_cell_with. by case_decide; subst. Qed.
Lemma used_next i j z D : used (at_cell i (store_next_free j z D)) = used (at_cell i D).
Proof. unfold store_next_free. rewrite at_cell_with. by case_decide; subst. Qed.

Lemma move_take ins new th s i : used (at_cell i (dom_ 0 s)) = false -> (i < capacity (dom_ 0 s))%nat -> (new ≫= grip) = [i] -> grip ins = [] ->
  total weight new = 0 -> weight ins = 0 -> slot_move ins new th th (dom_ 0 s) (dom_ 0 (set_dom 0 (set_used i true (dom_ 0 s)) s)) [i] [].
Proof.
  intros Hu Hi Hn Hg Hw Hw'. rewrite hz_dom_set, decide_True by done. split.
  - by rewrite Hn, Hg, app_nil_r.
  - right. left. eauto.
  - intros j. rewrite used_set. rewrite (decide_ext (j = i) (j ∈ [i])) by (by rewrite list_elem_of_singleton). case_decide; [done|]. by rewrite decide_False by apply not_elem_of_nil.
  - done.
  - exists 0. split_and!; [lia..|by right].
Qed.

Lemma removelast_last (l : list nat) i : last l = Some i -> removelast l ++ [i] = l.
Proof. intros H. destruct (exists_last (l := l)) as (l' & j & ->); [by intros ->|]. rewrite last_snoc in H. injection H as ->. by rewrite List.removelast_last. Qed.

Lemma access_slots t sp ins th s new th' s' : access t sp ins th s = Some (new, th', s') -> home ins = 0 -> tame th ->
  (forall h, h ∈ fresh ins -> holders th !! h = None) -> exists gain lose, slot_move ins new th th' (dom_ 0 s) (dom_ 0 s') gain lose.
Proof.
  intros E Hh Ht Hfr. destruct ins; cbn in Hh; subst; cbn in Hfr; try specialize (Hfr _ ltac:(by left)); hz_cases E; repeat match goal with H : (_ <? _)%nat = true |- _ => apply Nat.ltb_lt in H end;
    try (by eexists _, []; apply move_take);
    try (by eexists [], []; apply move_none; cbn; rewrite ?app_nil_r; try (intros i'); hz_dom; rewrite ?used_store, ?used_next; auto).
  - apply removelast_last in Heqo. assert (removelast (cached th) ++ slots_of (<[h := Holder 0 (Some n) None]> (holders th)) ≡ₚ cached th ++ slots_of (holders th)) as Hp.
    { rewrite (slots_new _ _ _ Hfr). rewrite <- Heqo at 2. cbn. solve_Permutation. }
    eexists [], []. apply move_none; cbn; rewrite ?app_nil_r; [done..|]. by rewrite Hp.
  - eexists [], []. apply move_none; cbn; rewrite ?app_nil_r; [by rewrite (slots_new _ _ _ Hfr)|intros; by hz_dom|by hz_dom|by hz_dom|by rewrite (slots_new _ _ _ Hfr)].
  - eexists [], []. apply move_none; cbn; rewrite ?app_nil_r; [done|intros; by hz_dom|hz_dom; unfold capacity; cbn; lia|by hz_dom|done].
  - eexists [], []. rewrite hz_dom_set, decide_True by done. split; [|auto|done|done|].
    + cbn. rewrite (slots_new _ _ _ Hfr). cbn. rewrite !app_nil_r. solve_Permutation.
    + exists 1. split_and!; [lia..| |by left]. cbn. rewrite (slots_new _ _ _ Hfr), !length_app. cbn. lia.
  - eexists [], []. apply move_none; cbn; rewrite ?app_nil_r; [solve_Permutation|intros; hz_dom; by rewrite used_store|by hz_dom|by hz_dom|rewrite !length_app; cbn; lia].
  - exists [], [i]. rewrite hz_dom_set, decide_True by done. split; [by rewrite !app_nil_r|eauto|intros j; rewrite used_set|done|].
    + rewrite (decide_ext (j = i) (j ∈ [i])) by (by rewrite list_elem_of_singleton). by rewrite (decide_False (P := j ∈ [])) by apply not_elem_of_nil.
    + exists 0. split_and!; [cbn; lia..|by right].
  - eexists [], []. rewrite hz_dom_set, decide_True by done. split; [done|auto|done|done|].
    exists (-1). split_and!; [lia..| |by left]. cbn. lia.
  - eexists [], []. apply move_none; cbn; rewrite ?app_nil_r; try done; by rewrite Heql.
  - eexists [], []. apply move_none; cbn; rewrite ?Heql; cbn; try done; [solve_Permutation|lia].
  - assert (cached th <> []) as Hne by (by rewrite Heql). pose proof (ta_cached _ Ht Hne). congruence.
  - eexists [], []. rewrite (ta_holder _ Ht _ _ H). apply move_none; cbn; try done; intros; hz_dom; try done. by rewrite used_store.
  - eexists [], []. apply move_none; cbn; try done; by rewrite (slots_put _ _ _ _ H).
Qed.

(** ** The table and the free list *)

Lemma valid_mono D D' z : (capacity D <= capacity D')%nat -> valid D z -> valid D' z.
Proof. intros H [->|Hz]; [by left|right; lia]. Qed.
Lemma index_mono D D' ins : (capacity D <= capacity D')%nat -> index_ok D ins -> index_ok D' ins.
Proof. intros Hc. destruct ins; cbn; try done; try lia; intros [? ?]; split; try lia; eauto using valid_mono. Qed.
Lemma valid_word D z : table_ok D -> valid D z -> 0 <= z < 2 ^ 32.
Proof.
  intros Hd [->|Hz]; [unfold kFreeSlotNil; lia|]. pose proof (tb_batches _ Hd) as Hb. unfold capacity, kAbsoluteMaxBatches, kBatchSize in *. lia.
Qed.

Lemma table_free D tag z : table_ok D -> valid D z -> table_ok (with_free (pack_free tag z) D).
Proof. intros Hd Hz. destruct Hd as [H1 H2 H3 H4] eqn:Ed. split; cbn; try done. rewrite pack_slot; [done|]. by eapply valid_word. Qed.
Lemma table_cell D i c : table_ok D -> valid D (next_free c) -> table_ok (with_cell i c D).
Proof. intros [] Hc. split; try done. intros j. rewrite at_cell_with. case_decide; [done|]. apply tb_next0. Qed.
Lemma table_same D D' : table_ok D -> num_batches D' = num_batches D -> max_batches_limit D' = max_batches_limit D ->
  free_list_head D' = free_list_head D -> cells D' = cells D -> table_ok D'.
Proof.
  intros [H1 H2 H3 H4] E1 E2 E3 E4. unfold valid, capacity, at_cell in *. split; unfold valid, capacity, at_cell; rewrite ?E1, ?E2, ?E3, ?E4; done.
Qed.

Lemma access_index t sp ins th s new th' s' : access t sp ins th s = Some (new, th', s') -> home ins = 0 -> tame th ->
  table_ok (dom_ 0 s) -> index_ok (dom_ 0 s) ins -> table_ok (dom_ 0 s') /\ Forall (index_ok (dom_ 0 s')) new.
Proof.
  intros E Hh Ht Hd Hi. pose proof (tb_head _ Hd) as Hhd. pose proof (fun j => tb_next _ Hd j) as Hnx.
  destruct ins; cbn in Hh; subst; cbn in Hi; hz_cases E; repeat match goal with H : (_ <? _)%nat = true |- _ => apply Nat.ltb_lt in H end.
  all: rewrite ?hz_dom_set, ?decide_True by done.
  all: try (split; [first [done|by apply table_cell; cbn; auto|by eapply table_same]|by fall; cbn; auto; try lia]).
  - split; [done|]. fall. cbn. apply Z.eqb_neq in Heqb. by destruct Hhd.
  - destruct Hi. split; [by apply table_free|]. fall. cbn. unfold capacity in *. cbn. lia.
  - split; [|by fall]. apply Nat.leb_gt in Heqb0. destruct Hd as [H1 H2 H3 H4]. split; cbn; [lia|done|..].
    + eapply valid_mono; [|exact H3]. unfold capacity. cbn. lia.
    + intros j. eapply valid_mono; [|apply (H4 j)]. unfold capacity. cbn. lia.
  - split; [apply table_cell; [done|by destruct Hi]|]. by fall; destruct Hi.
  - split; [|by fall]. apply table_free; [done|]. right. destruct Hi. lia.
  - split; [done|]. destruct Hi. by fall.
  - split; [|by fall]. rewrite (ta_holder _ Ht _ _ H), decide_True by done. apply table_cell; cbn; auto.
Qed.

(** ** The invariant of the slots *)

Lemma access_fresh t sp ins th s new th' s' : access t sp ins th s = Some (new, th', s') ->
  ((new ≫= fresh) = fresh ins /\ forall h, is_Some (holders th' !! h) <-> is_Some (holders th !! h)) \/
  ((new ≫= fresh) = [] /\ exists h y, fresh ins = [h] /\ holders th' = <[h := y]> (holders th)).
Proof.
  intros E. destruct ins; hz_cases E; try (by left); try (by right; eauto); left; split; try done; try by destruct kept.
  intros h'. cbn. destruct (decide (h = h')) as [<-|]; [by rewrite lookup_insert_eq, H|by rewrite lookup_insert_ne].
Qed.

Record slots_ok (n : Z) s : Prop := {
  so_tame t : tame (thr t s);
  so_fresh t : (code (thr t s) ≫= fresh) = [] \/ exists h, (code (thr t s) ≫= fresh) = [h] /\ holders (thr t s) !! h = None;
  so_nodup : NoDup (tkeys owned (threads s));
  so_used i : used (at_cell i (dom_ 0 s)) = true <-> i ∈ tkeys owned (threads s);
  so_range i : i ∈ tkeys owned (threads s) -> (i < capacity (dom_ 0 s))%nat;
  so_active : active_slot_count (dom_ 0 s) = tsum counted (threads s) /\ tsum counted (threads s) <= n;
  so_table : table_ok (dom_ 0 s);
  so_index t : Forall (index_ok (dom_ 0 s)) (code (thr t s)) }.

Lemma total_app {A} (f : A -> Z) l l' : total f (l ++ l') = total f l + total f l'.
Proof. induction l as [|a l IH]; cbn; lia. Qed.

Lemma counted_nonneg th : 0 <= counted th.
Proof. unfold counted. assert (0 <= total weight (code th)); [|lia]. induction (code th) as [|ins l IH]; cbn; [lia|]. assert (0 <= weight ins) by (by destruct ins). lia. Qed.

Lemma owned_update t th' s : tkeys owned (<[t := th']> (threads s)) ++ owned (thr t s) ≡ₚ tkeys owned (threads s) ++ owned th'.
Proof. apply (tkeys_update owned (threads s) thread_new t th' eq_refl). Qed.

(** The slots of all threads after a change of one. *)
Lemma owned_moves t th' s D' gain lose : owned th' ++ lose ≡ₚ owned (thr t s) ++ gain ->
  (gain = [] /\ lose = []) \/ (exists i, gain = [i] /\ lose = [] /\ used (at_cell i (dom_ 0 s)) = false /\ (i < capacity (dom_ 0 s))%nat) \/ (exists i, gain = [] /\ lose = [i]) ->
  (forall i, used (at_cell i D') = if decide (i ∈ gain) then true else if decide (i ∈ lose) then false else used (at_cell i (dom_ 0 s))) ->
  (capacity (dom_ 0 s) <= capacity D')%nat ->
  NoDup (tkeys owned (threads s)) -> (forall i, used (at_cell i (dom_ 0 s)) = true <-> i ∈ tkeys owned (threads s)) ->
  (forall i, i ∈ tkeys owned (threads s) -> (i < capacity (dom_ 0 s))%nat) ->
  NoDup (tkeys owned (<[t := th']> (threads s))) /\ (forall i, used (at_cell i D') = true <-> i ∈ tkeys owned (<[t := th']> (threads s))) /\
  (forall i, i ∈ tkeys owned (<[t := th']> (threads s)) -> (i < capacity D')%nat).
Proof.
  intros Ho Hk Hu Hcap Hnd Hus Hr. pose proof (owned_update t th' s) as Hp.
  set (A := tkeys owned (<[t := th']> _)) in *. set (B := tkeys owned (threads s)) in *.
  assert (A ++ lose ≡ₚ B ++ gain) as Hm.
  { apply (Permutation_app_inv_r (owned (thr t s))). transitivity ((A ++ owned (thr t s)) ++ lose); [solve_Permutation|]. rewrite Hp, <- app_assoc, Ho. solve_Permutation. }
  destruct Hk as [[-> ->]|[(i & -> & -> & Hi & Hic)|(i & -> & ->)]]; rewrite ?app_nil_r in Hm.
  - rewrite Hm. split_and!; [done|intros i; rewrite Hu, Hm, !decide_False by apply not_elem_of_nil; apply Hus|]. intros i. rewrite Hm. intros Hi. specialize (Hr i Hi). lia.
  - assert (i ∉ B) as Hn by (rewrite <- Hus, Hi; done). rewrite Hm. split_and!.
    + rewrite Permutation_app_comm. by constructor.
    + intros j. assert (j ∈ A <-> j ∈ B \/ j = i) as -> by (by rewrite Hm, elem_of_app, list_elem_of_singleton).
      rewrite Hu, (decide_False (P := j ∈ [])) by apply not_elem_of_nil. rewrite <- Hus.
      destruct (decide (j ∈ [i])) as [H%list_elem_of_singleton|H]; [tauto|]. rewrite list_elem_of_singleton in H. tauto.
    + intros j. rewrite Hm, elem_of_app, list_elem_of_singleton. intros [Hj| ->]; [specialize (Hr j Hj)|]; lia.
  - rewrite Permutation_app_comm in Hm. cbn in Hm. assert (NoDup (i :: A)) as [Hn Hnd']%NoDup_cons by (by rewrite Hm). split_and!; [done| |].
    + intros j. rewrite Hu, (decide_False (P := j ∈ [])) by apply not_elem_of_nil. pose proof (Hus j) as Hj. rewrite <- Hm, elem_of_cons in Hj.
      destruct (decide (j ∈ [i])) as [->%list_elem_of_singleton|H]; [done|]. rewrite list_elem_of_singleton in H. tauto.
    + intros j Hj. assert (j ∈ B) as Hb by (rewrite <- Hm; by right). specialize (Hr j Hb). lia.
Qed.

Lemma hz_step_access t sp s s' : step (t, Step sp) s = Some s' -> exists ins rest new th' s1, code (thr t s) = ins :: rest /\
  access t sp ins (thr t s) s = Some (new, th', s1) /\ s' = set_thr t (with_code (new ++ rest) th') s1.
Proof.
  cbn. destruct (code (thr t s)) as [|ins rest]; [done|]. intros ([[new th'] s1] & E & [= <-])%bind_Some. by eexists _, _, _, _, _.
Qed.

Lemma fresh_step t sp ins rest new th' s s1 : access t sp ins (thr t s) s = Some (new, th', s1) -> code (thr t s) = ins :: rest ->
  (code (thr t s) ≫= fresh) = [] \/ (exists h, (code (thr t s) ≫= fresh) = [h] /\ holders (thr t s) !! h = None) ->
  ((new ++ rest) ≫= fresh) = [] \/ exists h, ((new ++ rest) ≫= fresh) = [h] /\ holders th' !! h = None.
Proof.
  intros E Hc. rewrite Hc, bind_app. cbn. intros Hf. destruct (access_fresh _ _ _ _ _ _ _ _ E) as [[-> Hh]|(-> & h & y & Hi & Hh)].
  - destruct Hf as [->|(h & -> & Hn)]; [by left|]. right. exists h. split; [done|]. apply eq_None_not_Some. rewrite Hh, Hn. by intros [].
  - rewrite Hi in Hf. destruct Hf as [?|(h' & Hf & _)]; [done|]. injection Hf as -> ->. by left.
Qed.

Lemma hz_slots_step n t sp s s' : slots_ok n s -> n + 1 < 2 ^ 64 -> step (t, Step sp) s = Some s' -> slots_ok (n + 1) s'.
Proof.
  intros Hs Hn (ins & rest & new & th' & s1 & Hc & E & ->)%hz_step_access.
  pose proof (so_tame _ _ Hs t) as Ht. pose proof (ta_code _ Ht) as Hh. rewrite Hc in Hh. apply Forall_cons in Hh as [Hh Hhr].
  pose proof (so_index _ _ Hs t) as Hix. rewrite Hc in Hix. apply Forall_cons in Hix as [Hix Hixr].
  destruct (hz_access_threads _ _ _ _ _ _ _ _ E) as [Hthr Hcode]. destruct (tame_access _ _ _ _ _ _ _ _ E Hh Ht) as [Hnew Ht'].
  destruct (access_slots _ _ _ _ _ _ _ _ E Hh Ht) as (gain & lose & Hm).
  { intros h Hin. destruct (so_fresh _ _ Hs t) as [Hf|(h' & Hf & ?)]; rewrite Hc in Hf; cbn in Hf; [apply app_eq_nil in Hf as [Hf _]; rewrite Hf in Hin; by apply not_elem_of_nil in Hin|].
    assert (h ∈ [h']) as ->%list_elem_of_singleton by (rewrite <- Hf; apply elem_of_app; by left). done. }
  destruct (access_index _ _ _ _ _ _ _ _ E Hh Ht (so_table _ _ Hs) Hix) as [Htab Hnix].
  destruct (owned_moves t (with_code (new ++ rest) th') s (dom_ 0 s1) gain lose) as (Hnd & Hus & Hr); [|apply Hm|apply Hm|apply Hm|apply Hs..|].
  { unfold owned. cbn. rewrite Hc, bind_app. cbn. pose proof (sm_owned _ _ _ _ _ _ _ _ Hm) as Hp.
    transitivity ((cached th' ++ slots_of (holders th') ++ (new ≫= grip) ++ lose) ++ (rest ≫= grip)); [solve_Permutation|]. rewrite Hp. solve_Permutation. }
  assert (forall t', t' <> t -> thr t' s1 = thr t' s) as Hoth by (intros t' _; unfold thr; by rewrite Hthr).
  split; change (dom_ 0 (set_thr t (with_code (new ++ rest) th') s1)) with (dom_ 0 s1); cbn [threads set_thr]; rewrite ?Hthr; try done.
  - intros t'. rewrite hz_thr_set. case_decide; subst; [|rewrite Hoth by done; apply Hs]. destruct Ht'. split; try done. by apply Forall_app.
  - intros t'. rewrite hz_thr_set. case_decide; subst; [|rewrite Hoth by done; apply Hs]. exact (fresh_step _ _ _ _ _ _ _ _ E Hc (so_fresh _ _ Hs t)).
  - pose proof (tsum_update counted (threads s) thread_new t (with_code (new ++ rest) th') eq_refl) as Hsum. change (default thread_new _) with (thr t s) in Hsum.
    destruct (sm_counted _ _ _ _ _ _ _ _ Hm) as (k & Hk & Hcnt & Hact). destruct (so_active _ _ Hs) as [Ha Hb].
    assert (counted (with_code (new ++ rest) th') = counted (thr t s) + k) as Hck by (unfold counted; cbn; rewrite Hc, total_app; cbn; lia).
    assert (0 <= tsum counted (<[t := with_code (new ++ rest) th']> (threads s))) by apply tsum_nonneg, counted_nonneg.
    rewrite Hsum in *. split; [|lia]. destruct Hact as [->|[-> ->]]; [|lia]. rewrite Ha. rewrite wrap_small; lia.
  - intros t'. rewrite hz_thr_set. case_decide; subst; [cbn; apply Forall_app; split; [done|]|rewrite Hoth by done].
    + eapply Forall_impl; [exact Hixr|]. intros ? ?. by apply (index_mono _ _ _ (sm_capacity _ _ _ _ _ _ _ _ Hm)).
    + eapply Forall_impl; [exact (so_index _ _ Hs _)|]. intros ? ?. by apply (index_mono _ _ _ (sm_capacity _ _ _ _ _ _ _ _ Hm)).
Qed.

(** ** Calls *)

Lemma slots_same n s s' : slots_ok n s -> threads s' = threads s -> table_ok (dom_ 0 s') ->
  cells (dom_ 0 s') = cells (dom_ 0 s) -> num_batches (dom_ 0 s') = num_batches (dom_ 0 s) -> active_slot_count (dom_ 0 s') = active_slot_count (dom_ 0 s) -> slots_ok n s'.
Proof.
  intros Hs Et Htab Ec Eb Ea. assert (forall t, thr t s' = thr t s) as Hthr by (intros t; unfold thr; by rewrite Et).
  assert (forall i, at_cell i (dom_ 0 s') = at_cell i (dom_ 0 s)) as Hcell by (intros i; unfold at_cell; by rewrite Ec).
  assert (capacity (dom_ 0 s') = capacity (dom_ 0 s)) as Hcap by (unfold capacity; by rewrite Eb).
  split; intros *; rewrite ?Hthr, ?Et, ?Hcell, ?Hcap, ?Ea; try apply Hs; [done|]. eapply Forall_impl; [exact (so_index _ _ Hs t)|]. intros ins. apply index_mono. by rewrite Hcap.
Qed.

Lemma counted_owned th : total weight (code th) = Z.of_nat (length (code th ≫= grip)) -> counted th = Z.of_nat (length (owned th)).
Proof. intros H. unfold counted, owned. rewrite app_assoc, (length_app _ (_ ≫= _)). lia. Qed.

Lemma slots_begin n t th' s : slots_ok n s -> code (thr t s) = [] -> tame th' -> owned th' ≡ₚ owned (thr t s) ->
  total weight (code th') = Z.of_nat (length (code th' ≫= grip)) -> (forall D, Forall (index_ok D) (code th')) ->
  (code th' ≫= fresh) = [] \/ (exists h, (code th' ≫= fresh) = [h] /\ holders th' !! h = None) -> slots_ok n (set_thr t th' s).
Proof.
  intros Hs Hc Ht Ho Hw Hi Hf. assert (counted th' = counted (thr t s)) as Hcnt by (rewrite !counted_owned; [by rewrite Ho|by rewrite Hc|done]).
  destruct (owned_moves t th' s (dom_ 0 s) [] []) as (H1 & H2 & H3); [by rewrite !app_nil_r|by left|intros; by rewrite !decide_False by apply not_elem_of_nil|done|apply Hs..|].
  split; cbn [threads set_thr]; try done; try (intros t'; rewrite hz_thr_set; case_decide; [done|apply Hs]); [|apply Hs].
  pose proof (tsum_update counted (threads s) thread_new t th' eq_refl) as Hsum. change (default thread_new _) with (thr t s) in Hsum.
  change (dom_ 0 (set_thr t th' s)) with (dom_ 0 s). destruct (so_active _ _ Hs). lia.
Qed.

Lemma tame_code c th : tame th -> Forall (fun ins => home ins = 0) c -> tame (with_code c th).
Proof. by intros []. Qed.
Lemma slots_start n t ins s : slots_ok n s -> code (thr t s) = [] -> home ins = 0 -> grip ins = [] -> weight ins = 0 -> (forall D, index_ok D ins) ->
  (forall h, h ∈ fresh ins -> holders (thr t s) !! h = None) -> slots_ok n (set_thr t (with_code [ins] (thr t s)) s).
Proof.
  intros Hs Hc Hh Hg Hw Hi Hf. apply slots_begin; try done; cbn.
  - apply tame_code; [apply Hs|by fall].
  - unfold owned. cbn. by rewrite Hc, Hg.
  - rewrite Hw, Hg. done.
  - intros D. by fall.
  - destruct ins; cbn in Hf |- *; auto; right; eexists; (split; [done|apply Hf; by left]).
Qed.

Lemma slots_taken m h h' (y y' : holder) : m !! h = Some y -> m !! h' = Some y' -> h <> h' ->
  slots_of (<[h := Holder (h_domain y) (h_slot y') (guard y')]> (<[h' := Holder (h_domain y') None None]> m)) ++ option_list (h_slot y) ≡ₚ slots_of m.
Proof.
  intros H1 H2 Hne. set (f := fun a : holder => option_list (h_slot a)). set (z := Holder (h_domain y') None None).
  pose proof (tkeys_put f m h' y' z H2) as P1. pose proof (tkeys_put f (<[h' := z]> m) h y (Holder (h_domain y) (h_slot y') (guard y'))) as P2.
  rewrite lookup_insert_ne in P2 by done. specialize (P2 H1). rewrite app_nil_r in P1. etransitivity; [exact P2|exact P1].
Qed.

Lemma slots_members n t th' s : slots_ok n s -> code (thr t s) = [] -> cached th' = cached (thr t s) -> owner th' = owner (thr t s) ->
  owner_domain th' = owner_domain (thr t s) -> (forall h y, holders th' !! h = Some y -> h_domain y = 0) ->
  slots_of (holders th') ++ (code th' ≫= grip) ≡ₚ slots_of (holders (thr t s)) -> total weight (code th') = Z.of_nat (length (code th' ≫= grip)) ->
  Forall (fun ins => home ins = 0) (code th') -> (forall D, Forall (index_ok D) (code th')) -> (code th' ≫= fresh) = [] -> slots_ok n (set_thr t th' s).
Proof.
  intros Hs Hc E1 E2 E3 Hh Ho Hw Hp Hi Hf. pose proof (so_tame _ _ Hs t) as []. apply slots_begin; auto.
  - split; rewrite ?E1, ?E2, ?E3; done.
  - unfold owned. by rewrite E1, Hc, Ho, app_nil_r.
Qed.

Lemma holders_put (P : holder -> Prop) (m : gmap Z holder) h y : (forall h y, m !! h = Some y -> P y) -> P y -> forall h' y', <[h := y]> m !! h' = Some y' -> P y'.
Proof. intros Hm Hy h' y' [[_ <-]|[_ ?]]%lookup_insert_Some; eauto. Qed.

Lemma slots_if_valid n t h c s s' : slots_ok n s -> code (thr t s) = [] -> if_valid t h c s = Some s' -> (c ≫= grip) = [] -> total weight c = 0 ->
  Forall (fun ins => home ins = 0) c -> (forall D, Forall (index_ok D) c) -> (c ≫= fresh) = [] -> slots_ok n s'.
Proof.
  intros Hs Hc (y & Hy & E)%bind_Some Hg Hw Hh Hi Hf. pose proof (ta_holder _ (so_tame _ _ Hs t)) as Hd. destruct (h_slot y) eqn:Hsl; injection E as <-; [|done].
  apply slots_members; try done; cbn; [|by rewrite Hg, app_nil_r, (slots_put _ _ _ _ Hy)|by rewrite Hg, Hw].
  apply holders_put; [done|]. exact (Hd _ _ Hy).
Qed.

Lemma slots_objects n src cl rc w fr al dm s : slots_ok n s -> slots_ok n (set_objects src cl rc w fr al dm s).
Proof. intros Hs. split; apply Hs. Qed.

Lemma hz_slots_call n t c s s' : slots_ok n s -> disciplined (t, Begin c) s = true -> begin_call t c s = Some s' -> slots_ok n s'.
Proof.
  intros Hs Hd E. unfold begin_call in E. destruct (code (thr t s)) eqn:Hc; [|done]. pose proof (ta_holder _ (so_tame _ _ Hs t)) as Hh.
  assert (forall d D', dom_ 0 (set_dom d D' s) = dom_ 0 s \/ (d = 0 /\ dom_ 0 (set_dom d D' s) = D')) as Hdom by (intros d D'; rewrite hz_dom_set; case_decide; auto).
  destruct c; cbn in E, Hd; try discriminate Hd; try (by eapply slots_if_valid; [done|done|done|done|done|by fall|intros; by fall|done]).
  - case_match; simplify_eq. apply Z.eqb_eq in Hd as ->. apply slots_start; try done. by intros ? ->%list_elem_of_singleton.
  - apply bind_Some in E as (y & Hy & [= <-]). pose proof (Hh _ _ Hy) as H0. apply slots_members; try done; cbn.
    + intros h' y'. rewrite lookup_delete_Some. intros [_ ?]. eauto.
    + unfold slots_of. rewrite (tkeys_delete _ _ _ _ Hy). destruct (h_slot y); cbn; solve_Permutation.
    + by destruct (h_slot y).
    + destruct (h_slot y); by fall.
    + intros D. destruct (h_slot y); by fall.
    + by destruct (h_slot y).
  - apply bind_Some in E as (y & Hy & E). case_match; [done|]. injection E as <-. apply slots_members; try done; cbn.
    + apply holders_put; [apply holders_put; [done|]|]; cbn; by eapply Hh.
    + assert (h <> h') by congruence. rewrite Hc; cbn; rewrite app_nil_r, slots_new by (by rewrite lookup_insert_ne).
      pose proof (tkeys_put (fun a : holder => option_list (h_slot a)) _ h' y (Holder (h_domain y) None None) Hy) as P. rewrite app_nil_r in P.
      rewrite Permutation_app_comm. exact P.
    + by rewrite Hc.
    + by rewrite Hc.
    + intros D. rewrite Hc. by fall.
    + by rewrite Hc.
  - apply bind_Some in E as (y & Hy & (y' & Hy' & E)%bind_Some). destruct (Z.eqb_spec h h'); injection E as <-; [done|]. apply slots_members; try done; cbn.
    + apply holders_put; [apply holders_put; [done|]|]; cbn; by eapply Hh.
    + rewrite <- (slots_taken _ _ _ _ _ Hy Hy') by done. by destruct (h_slot y).
    + by destruct (h_slot y).
    + pose proof (Hh _ _ Hy). destruct (h_slot y); by fall.
    + intros D. destruct (h_slot y); by fall.
    + by destruct (h_slot y).
  - apply bind_Some in E as (y & Hy & (y' & Hy' & E)%bind_Some). destruct (h_slot y) eqn:H1, (h_slot y') eqn:H2; injection E as <-; try done. apply slots_members; try done; cbn.
    + apply holders_put; [apply holders_put; [done|]|]; cbn; by eapply Hh.
    + rewrite app_nil_r. destruct (decide (h = h')) as [<-|].
      * rewrite insert_insert_eq. by rewrite (slots_put _ _ _ _ Hy).
      * rewrite (slots_put _ h y) by (by rewrite ?lookup_insert_ne). by rewrite (slots_put _ _ _ _ Hy').
    + by fall.
    + intros D. by fall.
  - apply bind_Some in E as (y & Hy & E). injection E as <-. apply slots_start; try done. by intros ? ?%not_elem_of_nil.
  - case_match; [done|]. injection E as <-. by apply slots_objects.
  - injection E as <-. by apply slots_objects.
  - apply andb_true_iff in Hd as [[->%Z.eqb_eq _]%andb_true_iff _]. injection E as <-. apply (slots_start n t (Claim 0 x true) (doom x s)); try done; [by apply slots_objects|by intros ? ?%not_elem_of_nil].
  - apply andb_true_iff in Hd as [[->%Z.eqb_eq _]%andb_true_iff _]. injection E as <-. apply (slots_start n t (Claim 0 x false) (doom x s)); try done; [by apply slots_objects|by intros ? ?%not_elem_of_nil].
  - apply Z.eqb_eq in Hd as ->. injection E as <-. apply slots_start; try done. by intros ? ?%not_elem_of_nil.
  - apply Z.eqb_eq in Hd as ->. injection E as <-. apply slots_start; try done. by intros ? ?%not_elem_of_nil.
  - case_match; injection E as <-; [|done]. apply slots_start; try done. by intros ? ?%not_elem_of_nil.
  - apply Z.eqb_eq in Hd as ->. injection E as <-. apply (slots_same n s); try done; rewrite hz_dom_set, decide_True by done; try done.
    destruct (so_table _ _ Hs). split; try done. cbn. case_match; [done|]. apply Nat.ltb_ge. done.
  - apply Z.eqb_eq in Hd as ->. injection E as <-. apply (slots_same n s); try done; rewrite hz_dom_set, decide_True by done; try done. by eapply table_same; [apply Hs|..].
  - apply Z.eqb_eq in Hd as ->. injection E as <-. apply (slots_same n s); try done; rewrite hz_dom_set, decide_True by done; try done. by eapply table_same; [apply Hs|..].
  - injection E as <-. apply slots_start; try done. by intros ? ?%not_elem_of_nil.
  - repeat case_match; injection E as <-; try done. apply slots_start; try done. by intros ? ?%not_elem_of_nil.
Qed.
End inv.
