(* ===== verification/HazardObjects.v ===== *)
(** * Hazard pointers: the objects and their guards

    Where each retired object is, what protects an object that a holder guards, and
    the mutex of the expansion, each kept by every step. *)
From S2P Require Import Prelude HazardPointers HazardInv.

(** The objects an instruction holds. *)
Definition held (ins : instr) : list obj :=
  match ins with
  | PushRetired _ x | Buffer _ x => [x]
  | PushLoad _ l | PushCas _ l _ | ActiveLoad _ _ l | ScanStart _ _ l | Scan _ _ l _ _ _ | ScanPtr _ _ l _ _ _ => l
  | FreeLoop _ _ _ _ _ todo kept => todo ++ kept
  | _ => []
  end.
Definition places_of (th : thread) : list obj := entries th ++ (code th ≫= held).
Definition places (s : state) : list obj := tkeys places_of (threads s) ++ pending (dom_ 0 s) ++ freed s.

(** The reclaimer that holds [x] has seen slot [i], or still will. *)
Definition covered (ins : instr) (i : nat) (x : obj) : Prop :=
  match ins with
  | Scan _ _ _ vec k total | ScanPtr _ _ _ vec k total => (i < total)%nat /\ ((i < k)%nat -> x ∈ vec)
  | FreeLoop _ _ vec _ _ _ _ => match vec with Some v => is_in_protected_vector v x = true | None => False end
  | _ => True
  end.

Section objects.
Context (shard_of : Z -> Z).
Implicit Types (t d h x : Z) (i : nat) (ins : instr) (th : thread) (s : state) (D : hazptr_domain).

Abbreviation access := (access shard_of).
Abbreviation step := (step shard_of).

(** * The retired objects *)

Record objects_move ins new th th' s s' (ex fx : list obj) : Prop := {
  om_freed : freed s' = freed s ++ fx;
  om_local : entries th' ++ (new ≫= held) ++ pending (dom_ 0 s') ++ fx ≡ₚ entries th ++ held ins ++ pending (dom_ 0 s) ++ ex;
  om_claimed : claimed s' = list_to_set ex ∪ claimed s;
  om_nodup : NoDup ex;
  om_claim x : x ∈ ex -> x ∉ claimed s /\ exists d b, ins = Claim d x b;
  om_reclaim x : x ∈ reclaim_ s' <-> x ∈ reclaim_ s \/ ins = Claim 0 x true /\ x ∈ ex;
  om_rest : sources s' = sources s /\ wraps s' = wraps s /\ allocated s' = allocated s /\ doomed s' = doomed s }.

Lemma objects_same ins new th th' s s' : claimed s' = claimed s -> reclaim_ s' = reclaim_ s -> freed s' = freed s ->
  sources s' = sources s /\ wraps s' = wraps s /\ allocated s' = allocated s /\ doomed s' = doomed s ->
  entries th' ++ (new ≫= held) ++ pending (dom_ 0 s') ≡ₚ entries th ++ held ins ++ pending (dom_ 0 s) -> objects_move ins new th th' s s' [] [].
Proof.
  intros H1 H2 H3 H4 H5. split; rewrite ?app_nil_r, ?H1, ?H2; try done; [set_solver|constructor|set_solver|set_solver].
Qed.

Lemma access_objects t sp ins th s new th' s' : access t sp ins th s = Some (new, th', s') -> home ins = 0 -> tame th ->
  (forall x, x ∈ held ins -> x ∈ reclaim_ s) -> wraps s = ∅ -> exists ex fx, objects_move ins new th th' s s' ex fx.
Proof.
  intros E Hh Ht Hr Hw. destruct ins; cbn in Hh; subst; hz_cases E;
    try (by eexists _, _; apply objects_same; try done; cbn; hz_dom; rewrite ?app_nil_r; cbn; rewrite ?app_nil_r; auto).
  - eexists _, _. apply objects_same; try done. rewrite (ta_holder _ Ht _ _ H), hz_dom_set, decide_True by done. done.
  - exists [x], []. split; cbn; rewrite ?app_nil_r; try done; [solve_Permutation|set_solver|apply NoDup_singleton|set_solver|set_solver].
  - exists [x], []. split; cbn; rewrite ?app_nil_r; try done; [solve_Permutation|set_solver|apply NoDup_singleton|set_solver|naive_solver].
  - eexists _, _. apply objects_same; try done. cbn. solve_Permutation.
  - eexists _, _. apply objects_same; try done. cbn. solve_Permutation.
  - eexists _, _. apply objects_same; try done. cbn. rewrite Heql, app_nil_r. done.
  - eexists _, _. apply objects_same; try done. rewrite hz_dom_set, decide_True by done. cbn -[reverse]. by rewrite Heql, !app_nil_r, reverse_Permutation.
  - eexists _, _. apply objects_same; try done. rewrite hz_dom_set, decide_True by done. cbn. by rewrite Heql, !app_nil_r.
  - eexists _, _. apply objects_same; try done. cbn. rewrite !app_nil_r. solve_Permutation.
  - exists [], [z]. assert (z ∈ reclaim_ s) by (apply Hr; by left). unfold destroys. rewrite decide_True, Hw by done.
    split; cbn; rewrite ?app_nil_r; try done; [solve_Permutation|set_solver|constructor|set_solver|set_solver].
  - eexists _, _. apply objects_same; try done. cbn. rewrite !app_nil_r. solve_Permutation.
  - eexists _, _. apply objects_same; try done. rewrite hz_dom_set, decide_True by done. cbn. by rewrite Heql, !app_nil_r.
Qed.

Record objects_ok s : Prop := {
  oo_nodup : NoDup (places s);
  oo_claimed x : x ∈ places s <-> x ∈ claimed s;
  oo_doomed : claimed s ⊆ doomed s /\ doomed s ⊆ allocated s;
  oo_linked src x : sources s !! src = Some x -> x ∉ doomed s;
  oo_reclaim : claimed s ⊆ reclaim_ s;
  oo_wraps : wraps s = ∅;
  oo_claims t d x b : Claim d x b ∈ code (thr t s) -> x ∈ doomed s /\ (b = false -> x ∈ reclaim_ s) }.

Lemma hz_places_update t th' s : tkeys places_of (<[t := th']> (threads s)) ++ places_of (thr t s) ≡ₚ tkeys places_of (threads s) ++ places_of th'.
Proof. apply (tkeys_update places_of (threads s) thread_new t th' eq_refl). Qed.

Lemma hz_step_places ins rest new t th' s s1 ex fx : code (thr t s) = ins :: rest -> threads s1 = threads s ->
  objects_move ins new (thr t s) th' s s1 ex fx -> places (set_thr t (with_code (new ++ rest) th') s1) ≡ₚ places s ++ ex.
Proof.
  intros Hc Ht Hm. unfold places. change (dom_ 0 (set_thr _ _ s1)) with (dom_ 0 s1). cbn [freed threads set_thr]. rewrite (om_freed _ _ _ _ _ _ _ _ Hm), Ht.
  pose proof (hz_places_update t (with_code (new ++ rest) th') s) as Hp. unfold places_of at 2 4 in Hp. cbn [code entries with_code] in Hp. rewrite Hc, bind_app in Hp. cbn [mbind list_bind] in Hp.
  pose proof (om_local _ _ _ _ _ _ _ _ Hm) as Hl. set (A := tkeys places_of (<[t := _]> _)) in *. set (A0 := tkeys places_of (threads s)) in *.
  apply (Permutation_app_inv_r (entries (thr t s) ++ held ins ++ (rest ≫= held))).
  transitivity ((A ++ entries (thr t s) ++ held ins ++ (rest ≫= held)) ++ pending (dom_ 0 s1) ++ freed s ++ fx); [solve_Permutation|]. rewrite Hp.
  transitivity (A0 ++ freed s ++ (entries th' ++ (new ≫= held) ++ pending (dom_ 0 s1) ++ fx) ++ (rest ≫= held)); [solve_Permutation|]. rewrite Hl. solve_Permutation.
Qed.

Lemma held_place t ins x s : ins ∈ code (thr t s) -> x ∈ held ins -> x ∈ places s.
Proof.
  intros Hi Hx. unfold places. rewrite elem_of_app, elem_of_tkeys. left. exists t, (thr t s). split.
  - unfold thr in Hi |- *. destruct (threads s !! t); [done|by apply not_elem_of_nil in Hi].
  - unfold places_of. rewrite elem_of_app, list_elem_of_bind. right. by exists ins.
Qed.

Lemma access_no_claim t sp ins th s new th' s' d x b : access t sp ins th s = Some (new, th', s') -> Claim d x b ∉ new.
Proof. intros E. destruct ins; hz_cases E; rewrite ?elem_of_app, ?elem_of_cons, ?elem_of_nil; try naive_solver. Qed.

Lemma hz_objects_step n t sp s s' : objects_ok s -> slots_ok n s -> step (t, Step sp) s = Some s' -> objects_ok s'.
Proof.
  intros Ho Hs (ins & rest & new & th' & s1 & Hc & E & ->)%hz_step_access.
  pose proof (so_tame _ _ Hs t) as Ht. pose proof (ta_code _ Ht) as Hh. rewrite Hc in Hh. apply Forall_cons in Hh as [Hh _].
  assert (ins ∈ code (thr t s)) as Hin by (rewrite Hc; by left). destruct (hz_access_threads _ _ _ _ _ _ _ _ _ E) as [Hthr _].
  destruct (access_objects _ _ _ _ _ _ _ _ E Hh Ht) as (ex & fx & Hm); [|apply Ho|].
  { intros x Hx. apply (oo_reclaim _ Ho), (oo_claimed _ Ho). by eapply held_place. }
  pose proof (hz_step_places _ _ _ _ _ _ _ _ _ Hc Hthr Hm) as Hp. destruct (om_rest _ _ _ _ _ _ _ _ Hm) as (Hsrc & Hw & Ha & Hd).
  assert (forall x, x ∈ ex -> x ∈ doomed s /\ x ∈ reclaim_ s1) as Hex.
  { intros x Hx. destruct (om_claim _ _ _ _ _ _ _ _ Hm x Hx) as (_ & d & b & ->). cbn in Hh. subst. destruct (oo_claims _ Ho t 0 x b Hin) as [? Hb]. split; [done|].
    rewrite (om_reclaim _ _ _ _ _ _ _ _ Hm). destruct b; auto. }
  assert (claimed (set_thr t (with_code (new ++ rest) th') s1) = list_to_set ex ∪ claimed s) as Hcl by apply (om_claimed _ _ _ _ _ _ _ _ Hm).
  split; cbn [doomed allocated sources reclaim_ wraps set_thr]; rewrite ?Hcl, ?Hsrc, ?Hw, ?Ha, ?Hd; try apply Ho.
  - rewrite Hp. apply NoDup_app. split_and!; [apply Ho| |apply Hm]. intros x Hx Hy. apply (oo_claimed _ Ho) in Hx. by destruct (om_claim _ _ _ _ _ _ _ _ Hm x Hy).
  - intros x. rewrite Hp, elem_of_app, (oo_claimed _ Ho), elem_of_union, elem_of_list_to_set. tauto.
  - destruct (oo_doomed _ Ho). split; [|done]. intros x. rewrite elem_of_union, elem_of_list_to_set. intros [?|?]; [by apply Hex|set_solver].
  - intros x. rewrite elem_of_union, elem_of_list_to_set. intros [?|Hx]; [by apply Hex|]. apply (om_reclaim _ _ _ _ _ _ _ _ Hm). left. by apply (oo_reclaim _ Ho).
  - intros t' d x b. rewrite hz_thr_set. intros Hx. assert (Claim d x b ∈ code (thr t' s)) as Hx'.
    { revert Hx. case_decide; subst; [|unfold thr; by rewrite Hthr]. cbn. rewrite elem_of_app, Hc. intros [?|?]; [by edestruct access_no_claim|by right]. }
    destruct (oo_claims _ Ho t' d x b Hx') as [? Hb]. split; [done|]. intros. apply (om_reclaim _ _ _ _ _ _ _ _ Hm). auto.
Qed.

Lemma objects_begin t th' s : objects_ok s -> code (thr t s) = [] -> entries th' = entries (thr t s) -> (code th' ≫= held) = [] ->
  (forall d x b, Claim d x b ∈ code th' -> x ∈ doomed s /\ (b = false -> x ∈ reclaim_ s)) -> objects_ok (set_thr t th' s).
Proof.
  intros Ho Hc He Hh Hcl. assert (places (set_thr t th' s) ≡ₚ places s) as Hp.
  { unfold places. apply Permutation_app_tail. pose proof (hz_places_update t th' s) as H. unfold places_of at 2 4 in H. rewrite He, Hh, Hc in H. by apply Permutation_app_inv_r in H. }
  split; try apply Ho; [by rewrite Hp; apply Ho|intros x; rewrite Hp; apply Ho|]. intros t' d x b. rewrite hz_thr_set. case_decide; [apply Hcl|apply Ho].
Qed.

Lemma objects_dom D' s : objects_ok s -> pending D' = pending (dom_ 0 s) -> objects_ok (set_dom 0 D' s).
Proof.
  intros Ho E. assert (places (set_dom 0 D' s) = places s) as Hp by (unfold places; by rewrite hz_dom_set, decide_True, E by done).
  split; try apply Ho; rewrite Hp; apply Ho.
Qed.

Lemma linked_spec x s : linked x s = false <-> forall src, sources s !! src <> Some x.
Proof.
  unfold linked. rewrite bool_decide_eq_false, list_elem_of_fmap. split.
  - intros H src Hx. apply H. exists (src, x). by rewrite elem_of_map_to_list.
  - intros H ([src y] & -> & Hy%elem_of_map_to_list). by apply (H src).
Qed.

Lemma objects_doom x s : objects_ok s -> x ∈ allocated s -> linked x s = false -> objects_ok (doom x s).
Proof.
  intros Ho Hx Hl. rewrite linked_spec in Hl. split; try apply Ho; cbn.
  - pose proof (oo_doomed _ Ho). set_solver.
  - intros src y Hy. pose proof (oo_linked _ Ho src y Hy). assert (y <> x) by (by intros ->; eapply Hl). set_solver.
  - intros t d y b Hy. destruct (oo_claims _ Ho t d y b Hy). set_solver.
Qed.

Lemma hz_objects_call t c s s' : objects_ok s -> disciplined (t, Begin c) s = true -> begin_call t c s = Some s' -> objects_ok s'.
Proof.
  intros Ho Hd E. unfold begin_call, destroy_holder, move_holder, assign_holder, swap_holders in E. destruct (code (thr t s)) eqn:Hc; [|done].
  assert (forall h c, if_valid t h c s = Some s' -> (c ≫= held) = [] -> (forall d x b, Claim d x b ∉ c) -> objects_ok s') as Hif.
  { intros h c0 (y & Hy & E')%bind_Some Hh Hn. case_match; simplify_eq; [|done]. apply objects_begin; try done. intros ? ? ? ?. by edestruct Hn. }
  destruct c; cbn in E, Hd; try discriminate Hd; try (eapply Hif; [done|done|intros; rewrite ?elem_of_cons, ?elem_of_nil; naive_solver]).
  all: repeat match goal with
    | H : (_ && _)%bool = true |- _ => apply andb_true_iff in H as [? ?]
    | H : bool_decide _ = true |- _ => apply bool_decide_eq_true in H
    | H : negb _ = true |- _ => apply negb_true_iff in H
    | H : (_ =? _) = true |- _ => apply Z.eqb_eq in H as ->
    | H : mbind _ _ = Some _ |- _ => apply bind_Some in H as (? & ? & H)
    end.
  all: try (repeat case_match; simplify_eq; try done; by apply objects_begin; cbn; rewrite ?Hc; try done; intros ? ? ?; rewrite ?elem_of_cons, ?elem_of_nil; naive_solver).
  - case_match; simplify_eq. apply bool_decide_eq_false in H. split; try apply Ho; cbn.
    + pose proof (oo_doomed _ Ho). set_solver.
    + pose proof (oo_reclaim _ Ho). case_match; set_solver.
    + intros t' d y b Hy. destruct (oo_claims _ Ho t' d y b Hy) as [? Hb]. split; [done|]. intros. case_match; set_solver.
  - injection E as <-. split; try apply Ho; cbn. intros src' y. destruct p as [x|].
    + rewrite lookup_insert_Some. apply bool_decide_eq_true in Hd as [_ Hx]. intros [[_ <-]|[_ Hy]]; [done|]. by apply (oo_linked _ Ho src').
    + rewrite lookup_delete_Some. intros [_ Hy]. by apply (oo_linked _ Ho src').
  - injection E as <-. apply (objects_begin t _ (doom x s)); try done; [by apply objects_doom|]. cbn. intros ? ? ? [= -> -> ->]%list_elem_of_singleton. set_solver.
  - injection E as <-. destr. apply (objects_begin t _ (doom x s)); try done; [by apply objects_doom|]. cbn. intros ? ? ? [= -> -> ->]%list_elem_of_singleton. set_solver.
  - injection E as <-. by apply objects_dom.
  - injection E as <-. by apply objects_dom.
  - injection E as <-. by apply objects_dom.
Qed.

(** * Ownership *)

Lemma tkeys_unique {A} (g : A -> list nat) (m : gmap Z A) a b u v i : NoDup (tkeys g m) -> m !! a = Some u -> m !! b = Some v -> i ∈ g u -> i ∈ g v -> a = b.
Proof.
  intros Hn Ha Hb Hu Hv. destruct (decide (a = b)) as [|Hne]; [done|]. rewrite (tkeys_delete g m a u Ha) in Hn. apply NoDup_app in Hn as (_ & Hn & _).
  destruct (Hn i Hu). apply elem_of_tkeys. exists b, v. by rewrite lookup_delete_ne.
Qed.

Lemma slot_in (m : gmap Z holder) h y i : m !! h = Some y -> h_slot y = Some i -> i ∈ slots_of m.
Proof. intros Hy Hi. apply elem_of_tkeys. exists h, y. rewrite Hi. split; [done|by left]. Qed.

Lemma owned_lookup t i s : i ∈ owned (thr t s) -> threads s !! t = Some (thr t s).
Proof. unfold thr. destruct (threads s !! t); [done|]. by intros ?%not_elem_of_nil. Qed.
Lemma owned_in t i s : i ∈ owned (thr t s) -> i ∈ tkeys owned (threads s).
Proof. intros Hi. apply elem_of_tkeys. exists t, (thr t s). split; [by eapply owned_lookup|done]. Qed.
Lemma owner_unique n t t' i s : slots_ok n s -> i ∈ owned (thr t s) -> i ∈ owned (thr t' s) -> t = t'.
Proof. intros Hs H1 H2. eapply (tkeys_unique owned); [apply Hs|by eapply owned_lookup..|done|done]. Qed.
Lemma owned_nodup n t i s : slots_ok n s -> i ∈ owned (thr t s) -> NoDup (owned (thr t s)).
Proof.
  intros Hs Hi. pose proof (so_nodup _ _ Hs) as Hn. rewrite (tkeys_delete owned _ t (thr t s)) in Hn by (by eapply owned_lookup). by apply NoDup_app in Hn as (? & _ & _).
Qed.

(** A slot that a holder of a thread has: it is in use, counted, and nobody else's. *)
Lemma holder_owned t h y i s : holders (thr t s) !! h = Some y -> h_slot y = Some i -> i ∈ owned (thr t s).
Proof. intros Hy Hi. unfold owned. rewrite !elem_of_app. right. left. by eapply slot_in. Qed.
Lemma holder_active n t h y i s : slots_ok n s -> holders (thr t s) !! h = Some y -> h_slot y = Some i -> 0 < active_slot_count (dom_ 0 s).
Proof.
  intros Hs Hy Hi. destruct (so_active _ _ Hs) as [-> _]. pose proof (holder_owned _ _ _ _ _ Hy Hi) as Ho. apply owned_lookup in Ho.
  rewrite (tsum_delete counted _ _ _ Ho). pose proof (tsum_nonneg counted (delete t (threads s)) counted_nonneg). pose proof (slot_in _ _ _ _ Hy Hi) as Hin.
  assert (0 < counted (thr t s)); [|lia]. unfold counted. rewrite length_app. assert (0 <= total weight (code (thr t s))).
  { induction (code (thr t s)) as [|ins l IH]; cbn; [lia|]. assert (0 <= weight ins) by (by destruct ins). lia. }
  destruct (slots_of (holders (thr t s))); [by apply not_elem_of_nil in Hin|cbn; lia].
Qed.
Lemma holder_unique n t h h' y y' i s : slots_ok n s -> holders (thr t s) !! h = Some y -> holders (thr t s) !! h' = Some y' -> h_slot y = Some i -> h_slot y' = Some i -> h = h'.
Proof.
  intros Hs Hy Hy' Hi Hi'. pose proof (owned_nodup _ _ _ _ Hs (holder_owned _ _ _ _ _ Hy Hi)) as Hn. unfold owned in Hn. apply NoDup_app in Hn as (_ & _ & Hn).
  apply NoDup_app in Hn as (Hn & _ & _). eapply (tkeys_unique _ _ _ _ _ _ i Hn Hy Hy'); [rewrite Hi|rewrite Hi']; by left.
Qed.
Lemma holder_grip n t h y i ins s : slots_ok n s -> holders (thr t s) !! h = Some y -> h_slot y = Some i -> ins ∈ code (thr t s) -> i ∉ grip ins.
Proof.
  intros Hs Hy Hi Hin Hg. pose proof (owned_nodup _ _ _ _ Hs (holder_owned _ _ _ _ _ Hy Hi)) as Hn. unfold owned in Hn. apply NoDup_app in Hn as (_ & _ & Hn).
  apply NoDup_app in Hn as (_ & Hn & _). apply (Hn i); [by eapply slot_in|]. apply list_elem_of_bind. eauto.
Qed.

(** Only its owner writes the pointer of a slot. *)
Lemma access_ptr t sp ins th s new th' s' i : access t sp ins th s = Some (new, th', s') -> home ins = 0 -> tame th ->
  ptr (at_cell i (dom_ 0 s')) = ptr (at_cell i (dom_ 0 s)) \/ i ∈ grip ins \/ exists h p y, ins = Publish h p /\ holders th !! h = Some y /\ h_slot y = Some i.
Proof.
  intros E Hh Ht. destruct ins; cbn in Hh; subst; hz_cases E; try (by left); try rewrite (ta_holder _ Ht _ _ H); rewrite hz_dom_set, decide_True by done; try (by left);
    unfold set_used, store_slot, store_next_free; rewrite at_cell_with; match goal with |- context [decide (?a = ?b)] => destruct (decide (a = b)) end; subst; auto; right; first [by left; left|right; eauto 10].
Qed.

(** * Guards *)

(** The instructions of [protect_and_reload_with] stand alone on their stack, and its
    check comes after the publication of the same pointer. *)
Definition plain ins : bool := match ins with ReloadFirst _ _ | Reload _ _ _ => false | _ => true end.
Definition reload_ok D th : Prop :=
  match code th with
  | [ReloadFirst _ _] => True
  | [Publish h p; Reload h' _ p'] => h = h' /\ p = p'
  | [Reload h _ p] => exists y i, holders th !! h = Some y /\ h_slot y = Some i /\ ptr (at_cell i D) = p
  | c => Forall (fun ins => plain ins = true) c
  end.

(** [get] reads the slot of a holder, which may guard an object meanwhile. *)
Definition reading ins : bool := match ins with GetLoad _ => true | _ => false end.

Record guards_ok s : Prop := {
  go_guard t h y x : holders (thr t s) !! h = Some y -> guard y = Some x -> exists i, h_slot y = Some i /\ ptr (at_cell i (dom_ 0 s)) = Some x /\ x ∉ freed s /\
    forall r ins, ins ∈ code (thr r s) -> x ∈ held ins -> covered ins i x;
  go_busy t ins h : ins ∈ code (thr t s) -> h ∈ busy ins -> exists y i, holders (thr t s) !! h = Some y /\ h_slot y = Some i /\ (reading ins = false -> guard y = None);
  go_reload t : reload_ok (dom_ 0 s) (thr t s) }.

Lemma reload_plain D th : Forall (fun ins => plain ins = true) (code th) -> reload_ok D th.
Proof.
  unfold reload_ok. intros H. repeat case_match; try done; repeat match goal with H : Forall _ (_ :: _) |- _ => apply Forall_cons in H as [? ?] end; done.
Qed.

Lemma reload_other D D' th : reload_ok D th -> (forall h y i, holders th !! h = Some y -> h_slot y = Some i -> ptr (at_cell i D') = ptr (at_cell i D)) -> reload_ok D' th.
Proof.
  unfold reload_ok. intros Hr Hp. repeat case_match; try done. destruct Hr as (y & j & Hy & Hj & <-). exists y, j. eauto.
Qed.

(** The three shapes of a stack. *)
Lemma reload_shape D th ins rest : code th = ins :: rest -> reload_ok D th ->
  (rest = [] /\ plain ins = false) \/ (exists h p src, ins = Publish h p /\ rest = [Reload h src p]) \/ (plain ins = true /\ Forall (fun ins => plain ins = true) rest).
Proof.
  unfold reload_ok. intros ->. repeat case_match; try (by left); try (intros [? ?]%Forall_cons; by right; right). intros [-> ->]. right. left. eauto.
Qed.

Lemma access_plain t sp ins th s new th' s' : access t sp ins th s = Some (new, th', s') -> plain ins = true -> Forall (fun ins => plain ins = true) new.
Proof. intros E Hp. destruct ins; try discriminate Hp; hz_cases E; by fall. Qed.

Lemma reload_step t sp ins rest th s new th' s' : access t sp ins th s = Some (new, th', s') -> code th = ins :: rest -> tame th ->
  reload_ok (dom_ 0 s) th -> reload_ok (dom_ 0 s') (with_code (new ++ rest) th').
Proof.
  intros E Hc Ht Hr. destruct (reload_shape _ _ _ _ Hc Hr) as [[-> Hp]|[(h & p & src & -> & ->)|[Hp Hrest]]].
  - destruct ins; try discriminate Hp; hz_cases E; by cbn.
  - hz_cases E. cbn. exists x, x0. split_and!; [done..|]. rewrite (ta_holder _ Ht _ _ H), hz_dom_set, decide_True by done. unfold store_slot. by rewrite at_cell_with, decide_True.
  - apply reload_plain. cbn. apply Forall_app_2; [by eapply access_plain|done].
Qed.

(** The holders of a thread change by a construction or a successful check. *)
Lemma access_holder t sp ins th s new th' s' h y : access t sp ins th s = Some (new, th', s') -> (forall h, h ∈ fresh ins -> holders th !! h = None) ->
  holders th !! h = Some y -> holders th' !! h = Some y \/ exists src p, ins = Reload h src p /\ new = [].
Proof.
  intros E Hf Hy. destruct ins; hz_cases E; try (by left); cbn in Hf |- *; try (specialize (Hf _ ltac:(by left)); assert (h <> h0) by congruence; left; by rewrite lookup_insert_ne).
  destruct (decide (h = h0)) as [->|]; [right; eauto|left; by rewrite lookup_insert_ne].
Qed.

Lemma access_guard t sp ins th s new th' s' h y x : access t sp ins th s = Some (new, th', s') -> holders th' !! h = Some y -> guard y = Some x ->
  holders th !! h = Some y \/ exists src y0, ins = Reload h src (Some x) /\ new = [] /\ sources s !! src = Some x /\ holders th !! h = Some y0 /\ h_slot y = h_slot y0 /\ s' = s.
Proof.
  intros E Hy Hg. destruct ins; hz_cases E; try (by left); cbn in Hy; apply lookup_insert_Some in Hy as [[-> <-]|[_ ?]]; try (by left); try discriminate Hg.
  cbn in Hg. subst. apply bool_decide_eq_true in Heqb. right. eauto 10.
Qed.

Lemma access_busy t sp ins th s new th' s' ins' h : access t sp ins th s = Some (new, th', s') -> ins' ∈ new -> h ∈ busy ins' -> h ∈ busy ins /\ reading ins = false.
Proof.
  intros E Hi Hb. destruct ins; hz_cases E; rewrite ?elem_of_cons, ?elem_of_nil in Hi; repeat (destruct Hi as [->|Hi]); try done; cbn in Hb |- *; try (by apply not_elem_of_nil in Hb); set_solver.
Qed.

(** A reclaimer meets the slot [i], which publishes [x]. *)
Lemma access_covered t sp ins th s new th' s' ins' i x : access t sp ins th s = Some (new, th', s') -> home ins = 0 -> index_ok (dom_ 0 s) ins -> ins' ∈ new -> x ∈ held ins' ->
  used (at_cell i (dom_ 0 s)) = true -> ptr (at_cell i (dom_ 0 s)) = Some x -> (i < capacity (dom_ 0 s))%nat -> 0 < active_slot_count (dom_ 0 s) ->
  (x ∈ held ins -> covered ins i x) -> covered ins' i x.
Proof.
  intros E Hh Hix Hi Hx Hu Hp Hc Ha Hcov. destruct ins; cbn in Hh; subst; hz_cases E;
    repeat match goal with H : _ ∈ _ ++ _ |- _ => apply elem_of_app in H as [H|H] | H : _ ∈ _ :: _ |- _ => apply elem_of_cons in H as [->|H] | H : _ ∈ [] |- _ => by apply not_elem_of_nil in H end;
    try done; cbn in Hcov, Hx, Hix |- *; try specialize (Hcov ltac:(set_solver)).
  - apply Z.ltb_ge in Heqb. lia.
  - split; [done|lia].
  - done.
  - destruct Hcov as [? Hv]. split; [done|]. intros Hk. destruct (decide (i = i0)) as [->|]; [congruence|]. apply Hv. lia.
  - destruct Hcov as [? Hv]. apply binary_search_mem, Hv. apply Nat.ltb_ge in Heqb. lia.
  - destruct Hcov as [? Hv]. split; [done|]. intros Hk. rewrite elem_of_app. destruct (decide (i = i0)) as [->|]; [right; rewrite Hp; by left|left; apply Hv; lia].
  - done.
  - done.
Qed.

Lemma hz_access_freed t sp ins th s new th' s' i x : access t sp ins th s = Some (new, th', s') -> (x ∈ held ins -> covered ins i x) -> wraps s = ∅ -> x ∉ freed s -> x ∉ freed s'.
Proof.
  intros E Hcov Hw Hx. destruct ins; hz_cases E; try done. cbn. rewrite elem_of_app. intros [?|Hd]; [done|]. unfold destroys in Hd. rewrite Hw in Hd.
  destruct (decide (z ∈ reclaim_ s)); [|by apply not_elem_of_nil in Hd]. cbn in Hd. apply list_elem_of_singleton in Hd as ->.
  specialize (Hcov ltac:(by left)). cbn in Hcov. destruct vec; [|done]. by rewrite Hcov in *.
Qed.

Lemma unretired_absent s x src : objects_ok s -> sources s !! src = Some x -> x ∉ freed s /\ forall r ins, ins ∈ code (thr r s) -> x ∉ held ins.
Proof.
  intros Ho Hx. assert (x ∉ places s) as Hn.
  { intros Hp%(oo_claimed _ Ho). apply (oo_linked _ Ho src x Hx). destruct (oo_doomed _ Ho). set_solver. }
  split; [intros Hf; apply Hn; unfold places; rewrite !elem_of_app; auto|]. intros r ins Hi Hh. by apply Hn, (held_place r ins).
Qed.

(** The guarded object's slot keeps its pointer. *)
Lemma guard_ptr n t sp ins rest new th' s s1 t' h y x i : slots_ok n s -> guards_ok s -> code (thr t s) = ins :: rest -> access t sp ins (thr t s) s = Some (new, th', s1) ->
  holders (thr t' s) !! h = Some y -> h_slot y = Some i -> guard y = Some x \/ t' <> t -> ptr (at_cell i (dom_ 0 s1)) = ptr (at_cell i (dom_ 0 s)).
Proof.
  intros Hs Hg Hc E Hy Hi Hw. assert (ins ∈ code (thr t s)) as Hin by (rewrite Hc; by left). pose proof (so_tame _ _ Hs t) as Ht.
  assert (home ins = 0) as Hh by (pose proof (ta_code _ Ht) as H; rewrite Hc in H; by apply Forall_cons in H as [? _]).
  pose proof (holder_owned _ _ _ _ _ Hy Hi) as Ho.
  destruct (access_ptr _ _ _ _ _ _ _ _ i E Hh Ht) as [?|[Hgr|(h' & p & y' & -> & Hy' & Hi')]]; [done|exfalso..].
  - assert (i ∈ owned (thr t s)) as Ho' by (unfold owned; rewrite !elem_of_app, list_elem_of_bind; right; right; eauto).
    pose proof (owner_unique _ _ _ _ _ Hs Ho Ho') as ->. by eapply holder_grip.
  - pose proof (owner_unique _ _ _ _ _ Hs Ho (holder_owned _ _ _ _ _ Hy' Hi')) as ->. destruct Hw as [Hw|?]; [|done].
    pose proof (holder_unique _ _ _ _ _ _ _ _ Hs Hy Hy' Hi Hi') as <-. destruct (go_busy _ Hg t _ h Hin ltac:(by left)) as (y0 & i0 & Hy0 & _ & Hn). specialize (Hn eq_refl). congruence.
Qed.

Lemma guards_step n t sp s s' : guards_ok s -> slots_ok n s -> objects_ok s -> step (t, Step sp) s = Some s' -> guards_ok s'.
Proof.
  intros Hg Hs Ho (ins & rest & new & th' & s1 & Hc & E & ->)%hz_step_access. assert (ins ∈ code (thr t s)) as Hin by (rewrite Hc; by left).
  pose proof (so_tame _ _ Hs t) as Ht. assert (home ins = 0) as Hh by (pose proof (ta_code _ Ht) as H; rewrite Hc in H; by apply Forall_cons in H as [? _]).
  assert (index_ok (dom_ 0 s) ins) as Hix by (pose proof (so_index _ _ Hs t) as H; rewrite Hc in H; by apply Forall_cons in H as [? _]).
  destruct (hz_access_threads _ _ _ _ _ _ _ _ _ E) as [Hthr _]. assert (forall t', t' <> t -> thr t' s1 = thr t' s) as Hoth by (intros t' _; unfold thr; by rewrite Hthr).
  assert (forall h, h ∈ fresh ins -> holders (thr t s) !! h = None) as Hfr.
  { intros h Hin'. destruct (so_fresh _ _ Hs t) as [Hf|(h' & Hf & ?)]; rewrite Hc in Hf; cbn in Hf; [apply app_eq_nil in Hf as [Hf _]; rewrite Hf in Hin'; by apply not_elem_of_nil in Hin'|].
    assert (h ∈ [h']) as ->%list_elem_of_singleton by (rewrite <- Hf; apply elem_of_app; by left). done. }
  assert (forall t' h y x, holders (thr t' s) !! h = Some y -> guard y = Some x -> exists i, h_slot y = Some i /\ ptr (at_cell i (dom_ 0 s1)) = Some x /\ x ∉ freed s1 /\
    forall r ins0, ins0 ∈ code (thr r (set_thr t (with_code (new ++ rest) th') s1)) -> x ∈ held ins0 -> covered ins0 i x) as Hold.
  { intros t' h y x Hy Hgu. destruct (go_guard _ Hg t' h y x Hy Hgu) as (i & Hi & Hp & Hf & Hcv). pose proof (holder_owned _ _ _ _ _ Hy Hi) as Hown. exists i. split_and!; [done|..].
    - rewrite (guard_ptr n t sp ins rest new th' s s1 t' h y x i); auto.
    - eapply hz_access_freed; [done|exact (Hcv t ins Hin)|apply Ho|done].
    - intros r ins0. rewrite hz_thr_set. case_decide; [|rewrite Hoth by done; apply Hcv]. cbn. rewrite elem_of_app. intros [Hn|Hn] Hx; [|apply (Hcv t); [rewrite Hc; by right|done]].
      eapply access_covered; try done; [apply (so_used _ _ Hs); by eapply owned_in|apply (so_range _ _ Hs); by eapply owned_in|by eapply holder_active|exact (Hcv t ins Hin)]. }
  split; change (dom_ 0 (set_thr t (with_code (new ++ rest) th') s1)) with (dom_ 0 s1); cbn [freed set_thr].
  - intros t' h y x. rewrite (hz_thr_set t t'). case_decide as Htt; subst; [|rewrite Hoth by done; apply Hold]. cbn. intros Hy Hgu.
    destruct (access_guard _ _ _ _ _ _ _ _ _ _ _ E Hy Hgu) as [Hy0|(src & y0 & -> & -> & Hsrc & Hy0 & Hsl & ->)]; [by eapply Hold|].
    destruct (reload_shape _ _ _ _ Hc (go_reload _ Hg t)) as [[-> _]|[(? & ? & ? & ? & _)|[? _]]]; [|done..].
    pose proof (go_reload _ Hg t) as Hre. unfold reload_ok in Hre. rewrite Hc in Hre. destruct Hre as (y1 & i & Hy1 & Hi & Hp). assert (y1 = y0) as -> by congruence.
    destruct (unretired_absent _ _ _ Ho Hsrc) as [Hnf Hnh]. exists i. split_and!; [congruence|done|done|]. intros r ins0. rewrite hz_thr_set.
    case_decide; [by intros ?%not_elem_of_nil|]. intros Hi0 Hx0. by destruct (Hnh r ins0 Hi0).
  - intros t' ins' h. rewrite hz_thr_set. case_decide as Htt; subst; [|rewrite Hoth by done; apply Hg]. cbn. intros Hi Hb.
    assert (exists ins0, ins0 ∈ code (thr t s) /\ h ∈ busy ins0 /\ (reading ins' = false -> reading ins0 = false)) as (ins0 & H1 & H2 & H3).
    { apply elem_of_app in Hi as [Hi|Hi]; [exists ins; destruct (access_busy _ _ _ _ _ _ _ _ _ _ E Hi Hb); auto|exists ins'; split; [rewrite Hc; by right|auto]]. }
    destruct (go_busy _ Hg t ins0 h H1 H2) as (y & i & Hy & Hsl & Hn). exists y, i. split_and!; [|done|by auto].
    destruct (access_holder _ _ _ _ _ _ _ _ _ _ E Hfr Hy) as [?|(src & p & -> & ->)]; [done|]. exfalso.
    destruct (reload_shape _ _ _ _ Hc (go_reload _ Hg t)) as [[-> _]|[(? & ? & ? & ? & _)|[? _]]]; [by apply not_elem_of_nil in Hi|done..].
  - intros t'. rewrite hz_thr_set. case_decide as Htt; subst; [eapply reload_step; [done..|apply Hg]|]. rewrite Hoth by done.
    eapply reload_other; [apply Hg|]. intros h y i Hy Hi. by eapply (guard_ptr n t sp ins rest new th' s s1 t' h y 0 i); auto.
Qed.

(** ** Calls *)

Lemma guards_same s s' : guards_ok s -> threads s' = threads s -> cells (dom_ 0 s') = cells (dom_ 0 s) -> freed s' = freed s -> guards_ok s'.
Proof.
  intros Hg Et Ec Ef. assert (forall t, thr t s' = thr t s) as Hthr by (intros t; unfold thr; by rewrite Et).
  assert (forall i, at_cell i (dom_ 0 s') = at_cell i (dom_ 0 s)) as Hcell by (intros i; unfold at_cell; by rewrite Ec).
  split; intros *; rewrite ?Hthr, ?Ef.
  - intros Hy Hgu. destruct (go_guard _ Hg t h y x Hy Hgu) as (i & ? & ? & ? & Hcv). exists i. rewrite Hcell. split_and!; try done. intros r ins. rewrite Hthr. apply Hcv.
  - apply Hg.
  - eapply reload_other; [apply Hg|]. intros; by rewrite Hcell.
Qed.

(** A thread begins a call: its stack holds no object, and its guards are among those
    it had, with their slots. *)
Lemma guards_begin t th' s : guards_ok s -> (code th' ≫= held) = [] -> reload_ok (dom_ 0 s) th' ->
  (forall h y x, holders th' !! h = Some y -> guard y = Some x -> exists h0 y0, holders (thr t s) !! h0 = Some y0 /\ h_slot y0 = h_slot y /\ guard y0 = Some x) ->
  (forall ins h, ins ∈ code th' -> h ∈ busy ins -> exists y i, holders th' !! h = Some y /\ h_slot y = Some i /\ (reading ins = false -> guard y = None)) -> guards_ok (set_thr t th' s).
Proof.
  intros Hg Hh Hre Hgd Hb. assert (forall r ins x, ins ∈ code (thr r (set_thr t th' s)) -> x ∈ held ins -> ins ∈ code (thr r s)) as Hcode.
  { intros r ins x. rewrite hz_thr_set. case_decide; [|done]. intros Hi Hx. assert (x ∈ (code th' ≫= held)) as Hn by (apply list_elem_of_bind; eauto). rewrite Hh in Hn. by apply not_elem_of_nil in Hn. }
  assert (forall t' h y x, holders (thr t' s) !! h = Some y -> guard y = Some x -> exists i, h_slot y = Some i /\ ptr (at_cell i (dom_ 0 s)) = Some x /\ x ∉ freed s /\
    forall r ins, ins ∈ code (thr r (set_thr t th' s)) -> x ∈ held ins -> covered ins i x) as Hold.
  { intros t' h y x Hy Hgu. destruct (go_guard _ Hg t' h y x Hy Hgu) as (i & ? & ? & ? & Hcv). exists i. split_and!; try done. intros r ins Hi Hx. apply (Hcv r); [by eapply Hcode|done]. }
  split; change (dom_ 0 (set_thr t th' s)) with (dom_ 0 s); cbn [freed set_thr].
  - intros t' h y x. rewrite (hz_thr_set t t'). case_decide; [|apply Hold]. intros Hy Hgu. destruct (Hgd h y x Hy Hgu) as (h0 & y0 & Hy0 & <- & Hg0). by eapply Hold.
  - intros t' ins h. rewrite hz_thr_set. case_decide; [apply Hb|apply Hg].
  - intros t'. rewrite hz_thr_set. case_decide; [done|apply Hg].
Qed.

Lemma guards_start t ins s : guards_ok s -> held ins = [] -> plain ins = true -> busy ins = [] -> guards_ok (set_thr t (with_code [ins] (thr t s)) s).
Proof.
  intros Hg Hh Hp Hb. apply guards_begin; [done|cbn; by rewrite Hh|apply reload_plain; by fall|cbn; eauto|cbn].
  intros ? h ->%list_elem_of_singleton. rewrite Hb. by intros ?%not_elem_of_nil.
Qed.

Lemma guards_if_valid t h c s s' : guards_ok s -> code (thr t s) = [] -> if_valid t h c s = Some s' -> (c ≫= held) = [] -> (forall D, reload_ok D (with_code c (thr t s))) ->
  (forall ins h', ins ∈ c -> h' ∈ busy ins -> h' = h) -> (forall h' src p, c <> [Reload h' src p]) -> guards_ok s'.
Proof.
  intros Hg Hc (y & Hy & E)%bind_Some Hh Hre Hb Hn. destruct (h_slot y) as [i|] eqn:Hi; injection E as <-; [|done]. apply guards_begin; [done|done|..].
  - specialize (Hre (dom_ 0 s)). unfold reload_ok in *. cbn [code with_code holders with_holder with_holders] in *. repeat case_match; try done. by edestruct Hn.
  - cbn. intros h' y' x. rewrite lookup_insert_Some. intros [[<- <-]|[_ Hy']] Hgu; [done|eauto].
  - cbn. intros ins h' Hin Hb'. rewrite (Hb _ _ Hin Hb'). exists (unguard y), i. by rewrite lookup_insert_eq.
Qed.

Lemma guards_call t c s s' : guards_ok s -> disciplined (t, Begin c) s = true -> begin_call t c s = Some s' -> guards_ok s'.
Proof.
  intros Hg Hd E. unfold begin_call in E. destruct (code (thr t s)) eqn:Hc; [|done].
  destruct c; cbn in E, Hd; try discriminate Hd;
    try (by eapply guards_if_valid; [done|done|done|done|intros D; unfold reload_ok; cbn; try done; by fall|
      intros ins h' Hi Hb; rewrite ?elem_of_cons, ?elem_of_nil in Hi; destruct_or?; subst; cbn in Hb; try done; by apply list_elem_of_singleton in Hb|done]);
    try (injection E as <-; by apply guards_start);
    try (injection E as <-; apply Z.eqb_eq in Hd; subst; apply (guards_same s); try done; by rewrite hz_dom_set, decide_True by done).
  - case_match; [done|]. injection E as <-. by apply guards_start.
  - apply bind_Some in E as (y & Hy & [= <-]). apply guards_begin; [done|cbn; by destruct (h_slot y)|apply reload_plain; cbn; destruct (h_slot y); by fall|cbn|cbn].
    + intros h' y' x. rewrite lookup_delete_Some. intros [_ ?] ?. eauto.
    + intros ins h' Hi Hb. destruct (h_slot y); [apply list_elem_of_singleton in Hi as ->|]; by apply not_elem_of_nil in Hb || apply not_elem_of_nil in Hi.
  - apply bind_Some in E as (y & Hy & E). case_match; [done|]. injection E as <-. apply guards_begin; [done|cbn; by rewrite Hc|apply reload_plain; cbn; rewrite Hc; by fall|cbn|cbn].
    + intros h0 y0 x [[<- <-]|[_ [[<- <-]|[_ ?]]%lookup_insert_Some]]%lookup_insert_Some ?; try done; eauto.
    + rewrite Hc. by intros ? ? ?%not_elem_of_nil.
  - apply bind_Some in E as (y & Hy & (y' & Hy' & E)%bind_Some). case_match; injection E as <-; [done|].
    apply guards_begin; [done|cbn; by destruct (h_slot y)|apply reload_plain; cbn; destruct (h_slot y); by fall|cbn|cbn].
    + intros h0 y0 x [[<- <-]|[_ [[<- <-]|[_ ?]]%lookup_insert_Some]]%lookup_insert_Some ?; try done; eauto.
    + intros ins h0 Hi Hb. destruct (h_slot y); [apply list_elem_of_singleton in Hi as ->|]; by apply not_elem_of_nil in Hb || apply not_elem_of_nil in Hi.
  - apply bind_Some in E as (y & Hy & (y' & Hy' & E)%bind_Some). destruct (h_slot y) as [i|] eqn:H1, (h_slot y') as [i'|] eqn:H2; injection E as <-; try done.
    apply guards_begin; [done|done|apply reload_plain; by fall|cbn|cbn].
    + intros h0 y0 x [[<- <-]|[_ [[<- <-]|[_ ?]]%lookup_insert_Some]]%lookup_insert_Some ?; try done; eauto.
    + intros ins h0 ->%list_elem_of_singleton Hb. cbn in Hb. destruct (decide (h0 = h)) as [->|Hne]; [exists (unguard y), i; by rewrite lookup_insert_eq|].
      assert (h0 = h') as -> by set_solver. exists (unguard y'), i'. by rewrite lookup_insert_ne, lookup_insert_eq.
  - apply bind_Some in E as (y & Hy & [= <-]). rewrite Hy in Hd. apply bool_decide_eq_true in Hd as [i Hi]. apply guards_begin; [done|done|apply reload_plain; by fall|cbn|cbn].
    + intros h0 y0 x Hy0 Hx. eauto.
    + intros ins h0 ->%list_elem_of_singleton ->%list_elem_of_singleton. by exists y, i.
  - case_match; [done|]. injection E as <-. by apply (guards_same s).
  - injection E as <-. by apply (guards_same s).
  - injection E as <-. apply (guards_start t (Claim d x true) (doom x s)); try done. by apply (guards_same s).
  - injection E as <-. apply (guards_start t (Claim d x false) (doom x s)); try done. by apply (guards_same s).
  - case_match; injection E as <-; [by apply guards_start|done].
  - repeat case_match; injection E as <-; try done. by apply guards_start.
Qed.

(** * The mutex of the expansion *)

(** The loop of [acquire_slot] is the last instruction of its stack, and whoever has
    the mutex is going to release it. *)
Definition looping ins : bool :=
  match ins with
  | AcquireSlot _ _ | PopLoad _ _ _ _ | PopNext _ _ _ _ _ | PopCas _ _ _ _ _ _ | PopClaim _ _ _ _ _ | BatchLoad _ _ _ _ | Acquire _ _ _ _ _ _ | AcquireLocked _ _ _ _ _ _ => true
  | _ => false
  end.
Fixpoint loop_last (c : list instr) : Prop := match c with [] => True | ins :: rest => (looping ins = true -> rest = []) /\ loop_last rest end.
Definition unlocks ins : bool := match ins with AcquireLocked _ _ _ _ _ _ | Unlock _ => true | _ => false end.

Record mutex_ok s : Prop := {
  mx_last t : loop_last (code (thr t s));
  mx_holder t : expand_mutex (dom_ 0 s) = Some t -> exists ins, ins ∈ code (thr t s) /\ unlocks ins = true }.

Lemma loop_last_app c rest : Forall (fun ins => looping ins = false) c -> loop_last rest -> loop_last (c ++ rest).
Proof. induction 1 as [|ins c Hi _ IH]; cbn; [done|]. intros Hr. rewrite Hi. split; [done|auto]. Qed.

Lemma access_looping t sp ins th s new th' s' : access t sp ins th s = Some (new, th', s') -> if looping ins then loop_last new else Forall (fun ins => looping ins = false) new.
Proof. intros E. destruct ins; hz_cases E; cbn; try done; try by fall. Qed.

Lemma access_mutex t sp ins th s new th' s' : access t sp ins th s = Some (new, th', s') -> home ins = 0 -> tame th ->
  (expand_mutex (dom_ 0 s') = expand_mutex (dom_ 0 s) /\ (unlocks ins = true -> exists ins', ins' ∈ new /\ unlocks ins' = true)) \/
  expand_mutex (dom_ 0 s') = None \/ (expand_mutex (dom_ 0 s') = Some t /\ exists ins', ins' ∈ new /\ unlocks ins' = true).
Proof.
  intros E Hh Ht. destruct ins; cbn in Hh; subst; hz_cases E; try rewrite (ta_holder _ Ht _ _ H); rewrite ?hz_dom_set, ?decide_True by done; cbn; try (by left; split); try (by right; left);
    try (left; split; [done|]; intros _; first [by exists (Unlock 0); split; [set_solver|]|by eexists; split; [by left|]]).
  right. right. split; [done|]. eexists. split; [by left|done].
Qed.

Lemma mutex_step n t sp s s' : mutex_ok s -> slots_ok n s -> step (t, Step sp) s = Some s' -> mutex_ok s'.
Proof.
  intros [Hl Hm] Hs (ins & rest & new & th' & s1 & Hc & E & ->)%hz_step_access. pose proof (so_tame _ _ Hs t) as Ht.
  assert (home ins = 0) as Hh by (pose proof (ta_code _ Ht) as H; rewrite Hc in H; by apply Forall_cons in H as [? _]).
  destruct (hz_access_threads _ _ _ _ _ _ _ _ _ E) as [Hthr _]. assert (forall t', t' <> t -> thr t' s1 = thr t' s) as Hoth by (intros t' _; unfold thr; by rewrite Hthr).
  split; intros t'; [|change (dom_ 0 (set_thr t (with_code (new ++ rest) th') s1)) with (dom_ 0 s1)]; rewrite hz_thr_set.
  - case_decide; subst; [|rewrite Hoth by done; apply Hl]. cbn. specialize (Hl t). rewrite Hc in Hl. destruct Hl as [H1 H2].
    pose proof (access_looping _ _ _ _ _ _ _ _ E) as Hn. destruct (looping ins); [rewrite H1, app_nil_r by done; done|by apply loop_last_app].
  - intros Ht'. destruct (access_mutex _ _ _ _ _ _ _ _ E Hh Ht) as [[He Hu]|[He|[He (ins' & Hi & Hu)]]]; [|congruence|].
    + rewrite He in Ht'. destruct (Hm t' Ht') as (ins0 & Hi & Hu0). case_decide; subst; [|rewrite Hoth by done; eauto]. cbn. rewrite Hc in Hi.
      apply elem_of_cons in Hi as [->|Hi]; [destruct (Hu Hu0) as (ins' & ? & ?)|]; eexists; rewrite elem_of_app; eauto.
    + rewrite He in Ht'. injection Ht' as ->. rewrite decide_True by done. exists ins'. cbn. rewrite elem_of_app. auto.
Qed.

Lemma mutex_call n t c s s' : mutex_ok s -> slots_ok n s -> disciplined (t, Begin c) s = true -> begin_call t c s = Some s' -> mutex_ok s'.
Proof.
  intros [Hl Hm] Hs Hd E. assert (code (thr t s) = []) as Hc by (unfold begin_call in E; by destruct (code (thr t s))).
  assert (expand_mutex (dom_ 0 s) <> Some t) as Hnt by (intros (ins & Hi & _)%Hm; rewrite Hc in Hi; by apply not_elem_of_nil in Hi).
  assert (expand_mutex (dom_ 0 s') = expand_mutex (dom_ 0 s) /\ loop_last (code (thr t s')) /\ forall t', t' <> t -> thr t' s' = thr t' s) as (H1 & H2 & H3).
  { clear Hl Hm. unfold begin_call in E. rewrite Hc in E. destruct c; cbn in E, Hd; try discriminate Hd; unfold if_valid, destroy_holder, move_holder, assign_holder, swap_holders in E;
      repeat match goal with H : mbind _ _ = Some _ |- _ => apply bind_Some in H as (? & ? & H) end; repeat case_match; simplify_eq;
      try (apply Z.eqb_eq in Hd; subst);
      (split_and!; [first [done|by rewrite hz_dom_set, decide_True by done]| |intros t' Ht'; try (by rewrite hz_thr_set, decide_False by done); done]);
      try (by rewrite hz_thr_set, decide_True by done; cbn; rewrite ?Hc; repeat case_match);
      lazymatch goal with |- loop_last (code (thr ?t0 ?s2)) => lazymatch type of Hc with code ?th = [] => change (loop_last (code th)) end end; by rewrite Hc. }
  split; intros t'.
  - destruct (decide (t' = t)) as [->|]; [done|]. rewrite H3 by done. apply Hl.
  - rewrite H1. intros Ht'. assert (t' <> t) by congruence. rewrite H3 by done. by apply Hm.
Qed.
End objects.
