(* ===== verification/HazardClaims.v ===== *)
(** * Hazard pointers: what they guarantee

    The theorems about runs of the default domain, and concrete runs, among them
    those that leave the discipline and free an object that a holder guards. *)
From S2P Require Import Prelude HazardPointers HazardInv HazardObjects.

Section claims.
Context (shard_of : Z -> Z).
Implicit Types (t d h x : Z) (i : nat) (s : state).

Record hazptr_ok (n : Z) s : Prop := {
  hz_slots : slots_ok n s;
  hz_objects : objects_ok s;
  hz_guards : guards_ok s;
  hz_mutex : mutex_ok s }.

Lemma hazptr_init : hazptr_ok 0 init.
Proof.
  split.
  - split; try done; [intros t|intros t; by left|exact NoDup_nil_2|intros i|intros i Hi|].
    + split; try done; by left.
    + change (false = true <-> i ∈ @nil nat). split; [done|by intros ?%not_elem_of_nil].
    + by apply not_elem_of_nil in Hi.
    + split; try done; [by apply Nat.leb_le|by apply Nat.leb_le|by left|intros i; by left].
  - split; try done; [exact NoDup_nil_2|intros x; change (x ∈ @nil Z <-> x ∈ (∅ : gset Z)); set_solver|intros t d x b Hx; by apply not_elem_of_nil in Hx].
  - split; try done; [intros t ins h Hi; by apply not_elem_of_nil in Hi|intros t; constructor].
  - split; done.
Qed.

Lemma hazptr_step n m s s' : hazptr_ok n s -> n + 1 < 2 ^ 64 -> disciplined m s = true -> step shard_of m s = Some s' -> hazptr_ok (n + 1) s'.
Proof.
  intros [Hs Ho Hg Hm] Hn Hd E. destruct m as [t [c|sp]].
  - assert (slots_ok n s') as Hs' by (by eapply hz_slots_call). split; [|by eapply hz_objects_call|by eapply guards_call|by eapply mutex_call].
    destruct Hs'. split; try done. destruct so_active. lia.
  - split; [by eapply hz_slots_step|by eapply hz_objects_step|by eapply guards_step|by eapply mutex_step].
Qed.

Lemma hazptr_run n moves s s' : hazptr_ok n s -> n + Z.of_nat (length moves) < 2 ^ 64 -> run_disciplined shard_of moves s = Some s' ->
  hazptr_ok (n + Z.of_nat (length moves)) s'.
Proof.
  revert n s. induction moves as [|m moves IH]; cbn [run_disciplined length]; intros n s Hi Hn E; [injection E as <-; by rewrite Z.add_0_r|].
  destruct (disciplined m s) eqn:Hd; [|done]. apply bind_Some in E as (s1 & E1 & E). rewrite Nat2Z.inj_succ in *.
  replace (n + Z.succ (Z.of_nat (length moves))) with ((n + 1) + Z.of_nat (length moves)) by lia. eapply IH; [|lia|done].
  eapply hazptr_step; [done|lia|done|done].
Qed.

Lemma on_cell_in i D k : (i < capacity D)%nat -> on_cell i D k = k (at_cell i D).
Proof. intros Hi. unfold on_cell. by rewrite (proj2 (Nat.ltb_lt _ _) Hi). Qed.
Lemma through_in h th s k y i : holders th !! h = Some y -> h_domain y = 0 -> h_slot y = Some i -> (i < capacity (dom_ 0 s))%nat -> through h th s k = k 0 i (dom_ 0 s).
Proof. intros Hy Hd Hi Hc. unfold through. rewrite Hy. cbn. rewrite Hi. cbn. by rewrite Hd, on_cell_in. Qed.

(** A thread can take its next step unless it waits for the mutex. *)
Lemma access_enabled n t sp ins rest s : hazptr_ok n s -> code (thr t s) = ins :: rest -> is_Some (access shard_of t sp ins (thr t s) s) \/
  (looping ins = true /\ unlocks ins = false /\ expand_mutex (dom_ 0 s) <> None).
Proof.
  intros [Hs Ho Hg Hm] Hc. assert (ins ∈ code (thr t s)) as Hin by (rewrite Hc; by left). pose proof (so_tame _ _ Hs t) as Ht.
  assert (home ins = 0) as Hh by (pose proof (ta_code _ Ht) as H; rewrite Hc in H; by apply Forall_cons in H as [? _]).
  assert (index_ok (dom_ 0 s) ins) as Hix by (pose proof (so_index _ _ Hs t) as H; rewrite Hc in H; by apply Forall_cons in H as [? _]).
  assert (forall i, i ∈ grip ins -> (i < capacity (dom_ 0 s))%nat) as Hgr.
  { intros i Hi. apply (so_range _ _ Hs), (owned_in t). unfold owned. rewrite !elem_of_app, list_elem_of_bind. eauto. }
  assert (forall h, h ∈ busy ins -> exists y i, holders (thr t s) !! h = Some y /\ h_domain y = 0 /\ h_slot y = Some i /\ (i < capacity (dom_ 0 s))%nat) as Hbu.
  { intros h Hb. destruct (go_busy _ Hg t ins h Hin Hb) as (y & i & Hy & Hi & _). exists y, i. split_and!; [done|by apply (ta_holder _ Ht h)|done|].
    apply (so_range _ _ Hs), (owned_in t). by eapply holder_owned. }
  destruct ins; cbn in Hh; subst; cbn in Hgr, Hbu, Hix; try (by left).
  all: unfold HazardPointers.access, acquire_slot, pop_next, pop_cas, pop_claim, acquire_scan, acquire_locked, release_slot, release_slot_global, release_used,
    free_next, free_cas, drop_slots, publish, reload, swap_load, swap_load_other, get_load, claim_retired, push_retired, flush_tls_buffer, push_pending, begin_auto_reclaim,
    exchange_pending, build_protected_vector, scan_ptr, reclaim_loop.
  all: try match goal with H : forall h, h ∈ [?a] -> _ |- _ => destruct (H a ltac:(by left)) as (y & j & Hy & Hd0 & Hj & Hjc) end.
  all: try match goal with H : forall h, h ∈ [?a; ?b] -> _ |- _ => destruct (H a ltac:(by left)) as (y & j & Hy & Hd0 & Hj & Hjc); destruct (H b ltac:(by right; left)) as (y' & j' & Hy' & Hd0' & Hj' & Hjc') end.
  all: try (left; erewrite !through_in by done; eauto).
  all: rewrite ?on_cell_in by first [lia|apply Hgr; by left|by destruct Hix; lia].
  all: try (left; by repeat case_match).
  - left. case_match; [|by case_match]. apply andb_true_iff in H as [_ Hl%negb_true_iff%Nat.eqb_neq]. destruct (cached (thr t s)) as [|a l] using rev_ind; [done|]. by rewrite last_snoc.
  - destruct (Nat.ltb_spec i total); [rewrite on_cell_in by lia; left; by case_match|]. destruct (expand_mutex (dom_ 0 s)); [by right|by left].
  - left. destruct (Nat.ltb_spec i total2); [rewrite on_cell_in by lia|]; by repeat case_match.
  - left. case_match; [|done]. rewrite Hy. by eexists.
  - left. destruct (Nat.ltb_spec i total); [rewrite on_cell_in by lia|]; by repeat case_match.
Qed.

Lemma step_enabled n t sp s : hazptr_ok n s -> code (thr t s) <> [] ->
  is_Some (step shard_of (t, Step sp) s) \/ exists ins, code (thr t s) = [ins] /\ unlocks ins = false /\ expand_mutex (dom_ 0 s) <> None.
Proof.
  intros Hi Hc. destruct (code (thr t s)) as [|ins rest] eqn:E; [done|]. destruct (access_enabled n t sp ins rest s Hi E) as [[[[new th'] s'] Ha]|(Hl & Hu & Hm)].
  - left. cbn. rewrite E, Ha. by eexists.
  - right. exists ins. pose proof (mx_last _ (hz_mutex _ _ Hi) t) as H. rewrite E in H. destruct H as [H _]. by rewrite (H Hl).
Qed.

(** C21: Under every interleaving of threads that keep the discipline of the domain, in
    fewer than 2^64 moves, an object that a holder has protected and found in its
    source afterwards is not freed while the holder keeps it, and the holder's slot
    publishes it; no object is freed twice, only retired objects are freed, and every
    retired object is freed, pending, or in the hands of one thread. The discipline
    ([disciplined]): only the default domain is used and it is not destroyed; what is
    retired derives from [hazptr_obj_base], is in no source when it is retired and is
    stored in none afterwards; [get] is called on holders with a slot. A holder keeps
    an object until it publishes something else, is cleared, moved from, swapped or
    destroyed. *)
Theorem hazptr_protects (moves : list (Z * move)) (s : state) : Z.of_nat (length moves) < 2 ^ 64 -> run_disciplined shard_of moves init = Some s ->
  (forall t h y x, holders (thr t s) !! h = Some y -> guard y = Some x -> x ∉ freed s /\ exists i, h_slot y = Some i /\ load_slot i (dom_ 0 s) = Some x) /\
  NoDup (tkeys places_of (threads s) ++ pending (dom_ 0 s) ++ freed s) /\
  (forall x, x ∈ claimed s <-> x ∈ tkeys places_of (threads s) ++ pending (dom_ 0 s) ++ freed s) /\ claimed s ⊆ doomed s.
Proof.
  intros Hn E. pose proof (hazptr_run 0 moves init s hazptr_init Hn E) as [_ Ho Hg _]. split_and!.
  - intros t h y x Hy Hx. destruct (go_guard _ Hg t h y x Hy Hx) as (i & ? & ? & ? & _). eauto.
  - apply Ho.
  - intros x. symmetry. apply (oo_claimed _ Ho).
  - apply Ho.
Qed.

(** Slots are never shared or lost: a slot is marked in use exactly if some
    thread caches it, a holder of some thread has it, or a running call is taking or
    returning it, and only one of them does; it lies in the table. When no call runs,
    the counter of active slots is the number of slots that threads cache or hold. *)
Theorem hazptr_slots_exact (moves : list (Z * move)) (s : state) : Z.of_nat (length moves) < 2 ^ 64 -> run_disciplined shard_of moves init = Some s ->
  NoDup (tkeys owned (threads s)) /\ (forall i, used (at_cell i (dom_ 0 s)) = true <-> exists t, i ∈ owned (thr t s)) /\
  (forall i, used (at_cell i (dom_ 0 s)) = true -> (i < capacity (dom_ 0 s))%nat) /\
  ((forall t, code (thr t s) = []) -> active_slot_count (dom_ 0 s) = tsum (fun th => Z.of_nat (length (cached th) + length (slots_of (holders th)))) (threads s)).
Proof.
  intros Hn E. pose proof (hazptr_run 0 moves init s hazptr_init Hn E) as [Hs _ _ _]. split_and!.
  - apply Hs.
  - intros i. rewrite (so_used _ _ Hs), elem_of_tkeys. split.
    + intros (t & th & Ht & Hi). exists t. unfold thr. by rewrite Ht.
    + intros (t & Hi). exists t, (thr t s). split; [by eapply owned_lookup|done].
  - intros i Hu. by apply (so_range _ _ Hs), (so_used _ _ Hs).
  - intros Hidle. destruct (so_active _ _ Hs) as [-> _]. unfold tsum. assert (forall p, p ∈ map_to_list (threads s) -> counted p.2 = Z.of_nat (length (cached p.2) + length (slots_of (holders p.2)))) as Hp.
    { intros [t th] Ht%elem_of_map_to_list. specialize (Hidle t). unfold thr in Hidle. rewrite Ht in Hidle. cbn in *. unfold counted. rewrite Hidle, length_app. cbn. lia. }
    induction (map_to_list (threads s)) as [|p l IH]; cbn; [done|]. rewrite IH by (intros; apply Hp; by right). rewrite Hp by (by left). done.
Qed.

(** C23: Under every interleaving of threads that keep the discipline of the domain
    (the default domain only; retirement of unlinked objects that derive from
    [hazptr_obj_base]; [get] only on holders with a slot), no call faults or deadlocks:
    every access stays inside the slot table and works on live holders, so a thread
    that is inside a call can take its next step, unless it waits for the mutex of the
    expansion, and then the thread that has the mutex can take its step. *)
Theorem hazptr_no_deadlock (moves : list (Z * move)) (s : state) (t : Z) (spurious : bool) : Z.of_nat (length moves) < 2 ^ 64 -> run_disciplined shard_of moves init = Some s ->
  code (thr t s) <> [] -> is_Some (step shard_of (t, Step spurious) s) \/
  exists t', expand_mutex (dom_ 0 s) = Some t' /\ is_Some (step shard_of (t', Step spurious) s).
Proof.
  intros Hn E Hc. pose proof (hazptr_run 0 moves init s hazptr_init Hn E) as Hi. destruct (step_enabled _ t spurious s Hi Hc) as [?|(ins & _ & _ & Hm)]; [by left|]. right.
  destruct (expand_mutex (dom_ 0 s)) as [t'|] eqn:Et; [|done]. exists t'. split; [done|]. destruct (mx_holder _ (hz_mutex _ _ Hi) t' Et) as (ins' & Hin & Hu).
  destruct (step_enabled _ t' spurious s Hi) as [?|(j & Hj & Hju & _)]; [by intros H; rewrite H in Hin; apply not_elem_of_nil in Hin|done|].
  rewrite Hj in Hin. apply list_elem_of_singleton in Hin as ->. congruence.
Qed.
End claims.

(** * Concrete runs *)

Definition steps (t : Z) (k : nat) : list (Z * move) := replicate k (t, Step false).
Definition calls (t : Z) (c : call) (k : nat) : list (Z * move) := (t, Begin c) :: steps t k.

(** Thread 1 protects object 7 through its holder 1, and the object is unlinked. *)
Definition demo_protected : list (Z * move) :=
  calls 1 (CallHolder 1 0) 5 ++ calls 1 (CallNew 7 false) 0 ++ calls 1 (CallStore 1 (Some 7)) 0 ++ calls 1 (CallReload 1 1) 3 ++ calls 1 (CallStore 1 None) 0.
(** Thread 2 retires it and reclaims. *)
Definition demo_reclaim : list (Z * move) := demo_protected ++ calls 2 (CallRetire 0 7) 3 ++ calls 2 (CallReclaim 0 0) 147.
Definition final (moves : list (Z * move)) : state := default init (run id moves init).
Definition final_disciplined (moves : list (Z * move)) : state := default init (run_disciplined id moves init).

Lemma disciplined_final moves : bool_decide (is_Some (run_disciplined id moves init)) = true -> run_disciplined id moves init = Some (final_disciplined moves).
Proof. unfold final_disciplined. intros [s ->]%bool_decide_eq_true. done. Qed.

Lemma hazptr_protects_witness : holders (thr 1 (final_disciplined demo_reclaim)) !! 1 = Some (Holder 0 (Some 0%nat) (Some 7)) /\
  7 ∈ claimed (final_disciplined demo_reclaim) /\ 7 ∉ freed (final_disciplined demo_reclaim).
Proof.
  assert (holders (thr 1 (final_disciplined demo_reclaim)) !! 1 = Some (Holder 0 (Some 0%nat) (Some 7))) as Hy by (vm_compute; reflexivity).
  split; [exact Hy|]. split; [apply (bool_decide_unpack _); vm_compute; exact I|].
  refine (proj1 (proj1 (hazptr_protects id demo_reclaim (final_disciplined demo_reclaim) _ _) 1 1 _ 7 Hy eq_refl)); [vm_compute; reflexivity|].
  apply disciplined_final. vm_compute. reflexivity.
Defined.

Lemma hazptr_slots_exact_witness : active_slot_count (dom_ 0 (final_disciplined demo_reclaim)) = 1 /\ used (at_cell 0 (dom_ 0 (final_disciplined demo_reclaim))) = true.
Proof.
  destruct (hazptr_slots_exact id demo_reclaim (final_disciplined demo_reclaim)) as (_ & Hu & _ & Ha); [vm_compute; reflexivity|apply disciplined_final; vm_compute; reflexivity|].
  split.
  - rewrite Ha; [vm_compute; reflexivity|]. assert (map_Forall (fun _ th => code th = []) (threads (final_disciplined demo_reclaim))) as H by (apply (bool_decide_unpack _); vm_compute; exact I).
    intros t. unfold thr. destruct (threads (final_disciplined demo_reclaim) !! t) as [th|] eqn:E; [exact (H t th E)|reflexivity].
  - apply Hu. exists 1. apply (bool_decide_unpack _). vm_compute. exact I.
Defined.

Lemma hazptr_no_deadlock_witness : code (thr 2 (final_disciplined (demo_protected ++ calls 2 (CallRetire 0 7) 1))) <> [] /\
  exists t, is_Some (step id (t, Step true) (final_disciplined (demo_protected ++ calls 2 (CallRetire 0 7) 1))).
Proof.
  assert (code (thr 2 (final_disciplined (demo_protected ++ calls 2 (CallRetire 0 7) 1))) <> []) as Hc by (vm_compute; discriminate). split; [exact Hc|].
  destruct (hazptr_no_deadlock id (demo_protected ++ calls 2 (CallRetire 0 7) 1) (final_disciplined (demo_protected ++ calls 2 (CallRetire 0 7) 1)) 2 true) as [H|(t & _ & H)];
    [vm_compute; reflexivity|apply disciplined_final; vm_compute; reflexivity|exact Hc|exists 2; exact H|exists t; exact H].
Defined.

(** * Outside the discipline, and in it *)

(** An object of a class that is not derived from [hazptr_obj_base] is retired inside
    a wrapper, and the reclaimer looks for the wrapper among the published pointers. *)
Definition demo_wrapped : list (Z * move) := demo_protected ++ calls 2 (CallRetireWrapped 0 100 7) 3 ++ calls 2 (CallReclaim 0 0) 143.
Example wrapped_object_freed : holders (thr 1 (final demo_wrapped)) !! 1 = Some (Holder 0 (Some 0%nat) (Some 7)) /\ freed (final demo_wrapped) = [7; 100].
Proof. split; vm_compute; reflexivity. Qed.

(** A reclaim pass of another domain takes over what the thread has retired to this
    one, and does not look at the slots here. *)
Definition demo_other_domain : list (Z * move) := demo_protected ++ calls 2 (CallRetire 0 7) 3 ++ calls 2 (CallReclaim 5 0) 12.
Example other_domain_frees : holders (thr 1 (final demo_other_domain)) !! 1 = Some (Holder 0 (Some 0%nat) (Some 7)) /\ freed (final demo_other_domain) = [7].
Proof. split; vm_compute; reflexivity. Qed.

(** The move assignment takes the slot but keeps its own domain: the destructor then
    releases the slot of the same number there, which is thread 2's. *)
Definition demo_assign : list (Z * move) :=
  calls 1 (CallHolder 1 0) 5 ++ calls 1 (CallHolder 2 5) 6 ++ calls 1 (CallAssign 1 2) 6 ++ calls 2 (CallHolder 1 0) 6 ++ calls 2 (CallNew 7 false) 0 ++
  calls 2 (CallStore 1 (Some 7)) 0 ++ calls 2 (CallReload 1 1) 3 ++ calls 2 (CallStore 1 None) 0 ++ calls 1 (CallDestroy 1) 6 ++
  calls 3 (CallRetire 0 7) 3 ++ calls 3 (CallReclaim 0 0) 12.
Example assigned_holder_unprotects : holders (thr 2 (final demo_assign)) !! 1 = Some (Holder 0 (Some 0%nat) (Some 7)) /\ freed (final demo_assign) = [7].
Proof. split; vm_compute; reflexivity. Qed.

(** A swap between the two reads of a reclaimer hides a pointer that is published in
    one of the slots all the time. *)
Definition demo_two : list (Z * move) :=
  demo_protected ++ calls 1 (CallHolder 2 0) 6 ++ calls 1 (CallNew 8 false) 0 ++ calls 1 (CallStore 2 (Some 8)) 0 ++ calls 1 (CallReload 2 2) 3 ++ calls 1 (CallStore 2 None) 0 ++
  calls 2 (CallRetire 0 8) 3 ++ calls 2 (CallReclaim 0 0) 11.
Definition demo_swap : list (Z * move) := demo_two ++ calls 1 (CallSwap 1 2) 4 ++ steps 2 133.
Example swap_hides_pointer : holders (thr 1 (final_disciplined demo_two)) !! 2 = Some (Holder 0 (Some 1%nat) (Some 8)) /\
  load_slot 0 (dom_ 0 (final_disciplined demo_swap)) = Some 8 /\ freed (final_disciplined demo_swap) = [8].
Proof. split; [|split]; vm_compute; reflexivity. Qed.

(** [get] on a holder that was moved from reads past the table; [get] on the holder
    that took the slot returns the protected object. *)
Definition demo_moved : list (Z * move) := demo_protected ++ calls 1 (CallMove 2 1) 0.
Example get_on_empty_holder_faults :
  holders (thr 1 (final demo_moved)) !! 1 = Some (Holder 0 None None) /\ run id (calls 1 (CallGet 1) 0) (final demo_moved) <> None /\ run id (calls 1 (CallGet 1) 1) (final demo_moved) = None /\
  got (thr 1 (final_disciplined (demo_moved ++ calls 1 (CallGet 2) 1))) = Some 7.
Proof. split; [|split; [|split]]; vm_compute; [reflexivity|discriminate|reflexivity|reflexivity]. Qed.

(** * A free list that points to itself *)

(** The free list's first slot is its own successor, and somebody uses it. *)
Definition self_linked (t h : Z) (i : nat) (s : state) : Prop :=
  code (thr t s) = [PopLoad 0 h 0 0] /\ (i < capacity (dom_ 0 s))%nat /\ Z.of_nat i < 2 ^ 32 - 1 /\ free_slot_of (free_list_head (dom_ 0 s)) = Z.of_nat i /\
  next_free (at_cell i (dom_ 0 s)) = Z.of_nat i /\ used (at_cell i (dom_ 0 s)) = true.

Lemma one_access shard t sp ins rest new th' s s1 : code (thr t s) = ins :: rest -> access shard t sp ins (thr t s) s = Some (new, th', s1) ->
  step shard (t, Step sp) s = Some (set_thr t (with_code (new ++ rest) th') s1).
Proof. intros Hc E. cbn. by rewrite Hc, E. Qed.

Lemma self_linked_round shard t h i s : self_linked t h i s -> exists s', run shard (steps t 4) s = Some s' /\ self_linked t h i s'.
Proof.
  intros (Hc & Hi & Hi32 & Hh & Hn & Hu). set (hd := free_list_head (dom_ 0 s)) in *.
  set (s1 := set_thr t (with_code [PopNext 0 h 0 0 hd] (thr t s)) s). assert (step shard (t, Step false) s = Some s1) as E1.
  { apply (one_access shard t false _ _ [PopNext 0 h 0 0 hd] (thr t s) s s Hc). cbn. unfold pop_load. fold hd. rewrite Hh. rewrite (proj2 (Z.eqb_neq _ _)); [done|unfold kFreeSlotNil; lia]. }
  set (s2 := set_thr t (with_code [PopCas 0 h 0 0 hd (Z.of_nat i)] (thr t s)) s1). assert (step shard (t, Step false) s1 = Some s2) as E2.
  { assert (thr t s1 = with_code [PopNext 0 h 0 0 hd] (thr t s)) as Ht by (unfold s1; by rewrite hz_thr_set, decide_True).
    rewrite (one_access shard t false (PopNext 0 h 0 0 hd) [] [PopCas 0 h 0 0 hd (Z.of_nat i)] (thr t s1) s1 s1); [by rewrite Ht|by rewrite Ht|].
    cbn. unfold pop_next. change (dom_ 0 s1) with (dom_ 0 s). rewrite Hh, Nat2Z.id, on_cell_in, Hn by done. done. }
  set (D3 := with_free (pack_free (u32 (free_tag_of hd + 1)) (Z.of_nat i)) (dom_ 0 s)).
  set (s3 := set_thr t (with_code [PopClaim 0 h 0 0 i] (thr t s)) (set_dom 0 D3 s2)). assert (step shard (t, Step false) s2 = Some s3) as E3.
  { assert (thr t s2 = with_code [PopCas 0 h 0 0 hd (Z.of_nat i)] (thr t s)) as Ht by (unfold s2; by rewrite hz_thr_set, decide_True).
    rewrite (one_access shard t false (PopCas 0 h 0 0 hd (Z.of_nat i)) [] [PopClaim 0 h 0 0 i] (thr t s2) s2 (set_dom 0 D3 s2)); [by rewrite Ht|by rewrite Ht|].
    cbn. unfold pop_cas. change (dom_ 0 s2) with (dom_ 0 s). fold hd. by rewrite Z.eqb_refl, Hh, Nat2Z.id. }
  assert (thr t s3 = with_code [PopClaim 0 h 0 0 i] (thr t s)) as Ht3 by (unfold s3; by rewrite hz_thr_set, decide_True).
  assert (dom_ 0 s3 = D3) as Hd3 by (change (dom_ 0 s3) with (dom_ 0 (set_dom 0 D3 s2)); by rewrite hz_dom_set, decide_True).
  exists (set_thr t (with_code [PopLoad 0 h 0 0] (thr t s3)) s3). split.
  - cbn [steps replicate run]. rewrite E1. cbn [mbind option_bind]. rewrite E2. cbn [mbind option_bind]. rewrite E3. cbn [mbind option_bind].
    rewrite (one_access shard t false (PopClaim 0 h 0 0 i) [] [PopLoad 0 h 0 0] (thr t s3) s3 s3); [done|by rewrite Ht3|]. cbn. unfold pop_claim. rewrite Hd3, on_cell_in by done.
    change (at_cell i D3) with (at_cell i (dom_ 0 s)). by rewrite Hu.
  - unfold self_linked. change (dom_ 0 (set_thr t (with_code [PopLoad 0 h 0 0] (thr t s3)) s3)) with (dom_ 0 s3). rewrite hz_thr_set, decide_True, Hd3 by done.
    split_and!; try done. cbn. apply pack_slot. lia.
Qed.

Lemma hz_run_app shard l l' s s1 s2 : run shard l s = Some s1 -> run shard l' s1 = Some s2 -> run shard (l ++ l') s = Some s2.
Proof. revert s. induction l as [|m l IH]; cbn; intros s; [by intros [= ->]|]. intros (s3 & -> & E)%bind_Some. cbn. by apply IH. Qed.

(** Thread 1 has marked slot 0 free and not yet pushed it; thread 2 finds it by the
    scan, releases it and pushes it; then thread 1 pushes it on top of itself and takes
    it again; thread 2 asks for a slot. *)
Definition demo_self_link : list (Z * move) :=
  calls 1 (CallHolder 1 0) 5 ++ calls 1 (CallDestroy 1) 1 ++ calls 1 (CallInvalidate 0) 3 ++ calls 2 (CallHolder 1 0) 5 ++ calls 2 (CallDestroy 1) 1 ++
  calls 2 (CallInvalidate 0) 8 ++ steps 1 5 ++ calls 1 (CallHolder 1 0) 6 ++ calls 2 (CallHolder 1 0) 1.

(** Two releases of one slot that overlap leave a free list that points to itself:
    [acquire_slot] then never returns while the slot is in use, although 127 slots of
    the batch are free. *)
Theorem acquire_slot_spins (n : nat) : exists s, run_disciplined id demo_self_link init = Some s /\
  exists s', run id (steps 2 (4 * n)) s = Some s' /\ self_linked 2 1 0 s'.
Proof.
  exists (final_disciplined demo_self_link). split; [apply disciplined_final; vm_compute; reflexivity|].
  assert (self_linked 2 1 0 (final_disciplined demo_self_link)) as H by (unfold self_linked; vm_compute; repeat split; try reflexivity; apply Nat.leb_le; reflexivity).
  revert H. generalize (final_disciplined demo_self_link). induction n as [|n IH]; intros s H; [by exists s|].
  destruct (self_linked_round id 2 1 0 s H) as (s1 & E1 & H1). destruct (IH s1 H1) as (s2 & E2 & H2). exists s2. split; [|done].
  replace (4 * S n)%nat with (4 + 4 * n)%nat by lia. unfold steps in *. rewrite replicate_add. by eapply hz_run_app.
Qed.
