(* ===== verification/HazardProgress.v ===== *)
(** * Hazard pointers: what a reclaim pass frees

    A pass of [try_reclaim] that runs by itself, against a direct definition of the
    protected pointers. *)
From S2P Require Import Prelude HazardPointers HazardInv HazardObjects HazardClaims.

(** The pointers in the used slots among [l]; the reclaimer looks only when a slot is
    active. *)
Definition published (D : hazptr_domain) (l : list nat) : list obj := l ≫= fun i => if used (at_cell i D) then option_list (ptr (at_cell i D)) else [].
Definition protected_by (D : hazptr_domain) : list obj := if 0 <? active_slot_count D then published D (seq 0 (capacity D)) else [].

Definition batch_of (b : Z) (l : list obj) : nat := if 0 <? b then Z.to_nat b else length l.

Section alone.
Context (shard_of : Z -> Z) (t : Z) (s0 : state).
Abbreviation access := (access shard_of).
Abbreviation step := (step shard_of).
Abbreviation run := (run shard_of).
Implicit Types (c : list instr) (D : hazptr_domain) (fr : list obj).

(** The states of the pass: thread [t] has [c] to run, the domain is [D], and
    [fr] is freed. *)
Definition pass_state c D fr : state :=
  State (<[0 := D]> (domains s0)) (<[t := with_code c (thr t s0)]> (threads s0)) (sources s0) (claimed s0) (reclaim_ s0) (wraps s0) fr (allocated s0) (doomed s0).
Definition passes (k : nat) c D fr c' D' fr' : Prop := run (steps t k) (pass_state c D fr) = Some (pass_state c' D' fr').

Lemma dom_pass c D fr : dom_ 0 (pass_state c D fr) = D.
Proof. unfold dom_. cbn. by rewrite lookup_insert_eq. Qed.
Lemma thr_pass c D fr : thr t (pass_state c D fr) = with_code c (thr t s0).
Proof. unfold thr at 1. cbn. by rewrite lookup_insert_eq. Qed.
Lemma set_dom_pass c D D' fr : set_dom 0 D' (pass_state c D fr) = pass_state c D' fr.
Proof. unfold set_dom, pass_state. cbn. by rewrite insert_insert_eq. Qed.

Lemma passes_trans k k' c D fr c' D' fr' c'' D'' fr'' : passes k c D fr c' D' fr' -> passes k' c' D' fr' c'' D'' fr'' -> passes (k + k') c D fr c'' D'' fr''.
Proof. unfold passes, steps. rewrite replicate_add. apply hz_run_app. Qed.

(** One step: an access that changes nothing but the domain and the freed list. *)
Lemma passes_one ins c new c' D D' fr fr' :
  access t false ins (with_code (ins :: c) (thr t s0)) (pass_state (ins :: c) D fr) = Some (new, with_code (ins :: c) (thr t s0), pass_state (ins :: c) D' fr') ->
  c' = new ++ c -> passes 1 (ins :: c) D fr c' D' fr'.
Proof.
  intros E ->. unfold passes. cbn. rewrite thr_pass. cbn [code with_code]. rewrite E. cbn. unfold set_thr, pass_state. cbn. by rewrite insert_insert_eq.
Qed.

Ltac one new := eapply (passes_one _ _ new); [|reflexivity]; cbn [HazardPointers.access]; 
  unfold build_protected_vector, scan_ptr, reclaim_loop, push_pending, maybe_auto_reclaim, flush_tls_buffer, exchange_pending, active_load; rewrite ?dom_pass, ?set_dom_pass.

Lemma scan_one b todo vec i tot c D fr : (i < tot)%nat -> (tot <= capacity D)%nat ->
  exists k, passes k (Scan 0 b todo vec i tot :: c) D fr (Scan 0 b todo (vec ++ published D [i]) (S i) tot :: c) D fr.
Proof.
  intros Hi Ht. unfold published. cbn [mbind list_bind]. rewrite app_nil_r. destruct (used (at_cell i D)) eqn:Hu.
  - exists (1 + 1)%nat. eapply passes_trans.
    + one [ScanPtr 0 b todo vec i tot]. by rewrite (proj2 (Nat.ltb_lt _ _) Hi), on_cell_in, Hu by lia.
    + one [Scan 0 b todo (vec ++ option_list (ptr (at_cell i D))) (S i) tot]. by rewrite on_cell_in by lia.
  - exists 1%nat. rewrite app_nil_r. one [Scan 0 b todo vec (S i) tot]. by rewrite (proj2 (Nat.ltb_lt _ _) Hi), on_cell_in, Hu by lia.
Qed.

Lemma scan_all_slots b todo tot c D fr : (tot <= capacity D)%nat -> forall n i vec, (i + n = tot)%nat ->
  exists k, passes k (Scan 0 b todo vec i tot :: c) D fr (Scan 0 b todo (vec ++ published D (seq i n)) tot tot :: c) D fr.
Proof.
  intros Ht. induction n as [|n IH]; intros i vec Hn.
  - exists 0%nat. replace i with tot by lia. unfold published. cbn. by rewrite app_nil_r.
  - destruct (scan_one b todo vec i tot c D fr ltac:(lia) Ht) as (k1 & H1). destruct (IH (S i) (vec ++ published D [i]) ltac:(lia)) as (k2 & H2).
    exists (k1 + k2)%nat. assert (published D (seq i (S n)) = published D [i] ++ published D (seq (S i) n)) as -> by (unfold published; cbn; by rewrite app_nil_r).
    rewrite <- app_assoc in H2. eapply passes_trans; [exact H1|exact H2].
Qed.

(** What the walk has to spare. *)
Definition spared (vec : option (list obj)) (x : obj) : bool := match vec with None => false | Some v => is_in_protected_vector v x end.

Lemma pass_vector b todo c D fr : exists k vec, passes k (ActiveLoad 0 b todo :: c) D fr (FreeLoop 0 b vec 0 0 todo [] :: c) D fr /\
  forall x, spared vec x = true <-> x ∈ protected_by D.
Proof.
  unfold protected_by. destruct (0 <? active_slot_count D) eqn:Ha.
  - destruct (scan_all_slots b todo (capacity D) c D fr ltac:(lia) (capacity D) 0 [] eq_refl) as (k & Hk). cbn [app] in Hk. set (v := published D (seq 0 (capacity D))) in *.
    exists (1 + (1 + (k + 1)))%nat, (Some (sort v)). split; [|apply binary_search_mem].
    eapply passes_trans; [one [ScanStart 0 b todo]; by rewrite Ha|]. eapply passes_trans; [one [Scan 0 b todo [] 0 (capacity D)]; done|]. eapply passes_trans; [exact Hk|].
    one [FreeLoop 0 b (Some (sort v)) 0 0 todo []]. by rewrite Nat.ltb_irrefl.
  - exists 1%nat, None. split; [one [FreeLoop 0 b None 0 0 todo []]; by rewrite Ha|]. intros x. rewrite elem_of_nil. done.
Qed.

Lemma free_walk b vec c D : wraps s0 = ∅ -> forall l1 l2 kept p n fr, (forall x, x ∈ l1 -> x ∈ reclaim_ s0) -> (0 < b -> p + Z.of_nat (length l1) <= b) ->
  exists n', passes (length l1) (FreeLoop 0 b vec p n (l1 ++ l2) kept :: c) D fr
    (FreeLoop 0 b vec (p + Z.of_nat (length l1)) n' l2 (kept ++ filter (fun x => spared vec x = true) l1) :: c) D (fr ++ filter (fun x => spared vec x = false) l1).
Proof.
  intros Hw. induction l1 as [|x l1 IH]; intros l2 kept p n fr Hr Hb.
  - exists n. cbn [length app]. rewrite !filter_nil, !app_nil_r, Z.add_0_r. done.
  - cbn [length] in Hb. assert (batch_done b p = false) as Hd.
    { unfold batch_done. destruct (Z.ltb_spec 0 b); [|done]. cbn. apply Z.leb_gt. lia. }
    replace (p + Z.of_nat (length (x :: l1))) with (p + 1 + Z.of_nat (length l1)) by (cbn [length]; lia). change (length (x :: l1)) with (1 + length l1)%nat.
    rewrite !filter_cons. destruct (spared vec x) eqn:Hx.
    + rewrite decide_True, decide_False by done. destruct (IH l2 (kept ++ [x]) (p + 1) n fr ltac:(set_solver) ltac:(lia)) as [n' H]. exists n'.
      eapply passes_trans; [|rewrite <- app_assoc in H; exact H]. one [FreeLoop 0 b vec (p + 1) n (l1 ++ l2) (kept ++ [x])]. cbn [app]. rewrite Hd. destruct vec; [|done]. cbn in Hx. by rewrite Hx.
    + rewrite decide_False, decide_True by done. destruct (IH l2 kept (p + 1) (n + 1) (fr ++ [x]) ltac:(set_solver) ltac:(lia)) as [n' H]. exists n'.
      eapply passes_trans; [|rewrite <- app_assoc in H; exact H]. one [FreeLoop 0 b vec (p + 1) (n + 1) (l1 ++ l2) kept]. cbn [app]. rewrite Hd.
      assert (destroys x (pass_state (FreeLoop 0 b vec p n (x :: l1 ++ l2) kept :: c) D fr) = [x]) as Hdx by (unfold destroys; cbn; rewrite decide_True, Hw by (apply Hr; by left); done).
      destruct vec as [v|]; [cbn in Hx; rewrite Hx|]; cbn [negb]; rewrite Hdx; done.
Qed.

(** The counter of pending objects stays at or below the threshold when [n] more are
    counted, or automatic passes are off. *)
Definition below_threshold D (n : nat) : Prop := reclaim_threshold D = U64_MAX \/ pending_count D + Z.of_nat n <= reclaim_threshold D.

Lemma pending_count_add n D : 0 <= n -> pending_count (add_pending shard_of t n D) <= pending_count D + n.
Proof.
  intros Hn. unfold pending_count. cbn [pending_shards add_pending with_shards].
  set (k := shard_of t mod kPendingCounterShards). pose proof (tsum_update id (pending_shards D) 0 k (default 0 (pending_shards D !! k) + n) eq_refl) as Hs.
  unfold id in *. repeat case_match; lia.
Qed.

Lemma hz_push_back l c D fr : l <> [] -> below_threshold D (length l) ->
  exists k, passes k (PushLoad 0 l :: c) D fr c (add_pending shard_of t (Z.of_nat (length l)) (with_pending (l ++ pending D) D)) fr.
Proof.
  intros Hl Hth. exists (1 + (1 + (1 + 1)))%nat.
  eapply passes_trans; [one [PushCas 0 l (head (pending D))]; done|]. eapply passes_trans; [one [PendingAdd 0 (length l); AutoReclaim 0]; by rewrite bool_decide_true by done|].
  eapply passes_trans; [one (@nil instr); done|]. one (@nil instr). cbn [reclaim_threshold add_pending with_shards with_pending].
  pose proof (pending_count_add (Z.of_nat (length l)) (with_pending (l ++ pending D) D) ltac:(lia)) as Hc.
  change (pending_count (with_pending (l ++ pending D) D)) with (pending_count D) in Hc.
  destruct Hth as [->|Hth]; [done|]. rewrite (proj2 (Z.leb_le _ _)), orb_true_r; [done|]. etransitivity; [exact Hc|done].
Qed.

Lemma hz_close_pass n p D fr : exists k D', passes k [AddReclaimed 0 n; PendingRelease 0 p] D fr [] D' fr /\ pending D' = pending D.
Proof.
  exists (1 + 1)%nat, (add_pending shard_of t (- p) (bump reclaim_total n D)). split; [|done]. eapply passes_trans; [one (@nil instr); done|one (@nil instr); done].
Qed.

Lemma hz_finish_loop b vec p n l2 kept D fr : l2 = [] \/ batch_done b p = true -> pending D = [] -> below_threshold D (length (kept ++ l2)) ->
  exists k D', passes k [FreeLoop 0 b vec p n l2 kept] D fr [] D' fr /\ pending D' = kept ++ l2.
Proof.
  intros Hx Hp Hth. assert (exists q, passes 1 [FreeLoop 0 b vec p n l2 kept] D fr ((match kept ++ l2 with [] => [] | _ => [PushLoad 0 (kept ++ l2)] end) ++ [AddReclaimed 0 n; PendingRelease 0 q]) D fr) as [q H1].
  { destruct l2 as [|x l2].
    - exists p. rewrite app_nil_r. eapply (passes_one _ _ (match kept with [] => [] | _ => [PushLoad 0 kept] end ++ [AddReclaimed 0 n; PendingRelease 0 p])); [done|by rewrite app_nil_r].
    - destruct Hx as [|Hx]; [done|]. exists (p + Z.of_nat (length (x :: l2))). eapply (passes_one _ _ [PushLoad 0 (kept ++ x :: l2); AddReclaimed 0 n; PendingRelease 0 (p + Z.of_nat (length (x :: l2)))]).
      + cbn [HazardPointers.access]. unfold reclaim_loop. by rewrite Hx.
      + destruct (kept ++ x :: l2) eqn:E; [by destruct kept|done]. }
  destruct (kept ++ l2) as [|y l] eqn:E.
  - destruct (hz_close_pass n q D fr) as (k & D' & H2 & H3). exists (1 + k)%nat, D'. split; [by eapply passes_trans|congruence].
  - destruct (hz_push_back (y :: l) [AddReclaimed 0 n; PendingRelease 0 q] D fr ltac:(done) Hth) as (k1 & H2).
    destruct (hz_close_pass n q (add_pending shard_of t (Z.of_nat (length (y :: l))) (with_pending ((y :: l) ++ pending D) D)) fr) as (k2 & D2 & H4 & H5). exists (1 + (k1 + k2))%nat, D2.
    split; [eapply passes_trans; [exact H1|eapply passes_trans; [exact H2|exact H4]]|]. rewrite H5. cbn. by rewrite Hp, app_nil_r.
Qed.

Lemma hz_pass_exchange b x l D fr : pending D = x :: l ->
  passes 1 [Exchange 0 b] D fr [ActiveLoad 0 b (if 0 <? b then reverse (x :: l) else x :: l)] (with_pending [] D) fr.
Proof. intros Hp. one [ActiveLoad 0 b (if 0 <? b then reverse (x :: l) else x :: l)]. by rewrite Hp. Qed.
End alone.

(** The flush that begins a pass: the buffer of the thread goes in front of the
    pending objects. *)
Section flush.
Context (shard_of : Z -> Z) (t : Z) (s : state).
Definition flushed_domain : hazptr_domain :=
  match entries (thr t s) with
  | [] => dom_ 0 s
  | l => add_pending shard_of t (Z.of_nat (length l)) (with_pending (l ++ pending (dom_ 0 s)) (dom_ 0 s))
  end.
Definition flushed_state : state := set_thr t (with_buffer [] (owner_domain (thr t s)) (thr t s)) s.

Lemma flushed_pending : pending flushed_domain = entries (thr t s) ++ pending (dom_ 0 s).
Proof. unfold flushed_domain. by destruct (entries (thr t s)). Qed.
Lemma flushed_protected : protected_by flushed_domain = protected_by (dom_ 0 s).
Proof. unfold flushed_domain. by destruct (entries (thr t s)). Qed.
Lemma flushed_below n : below_threshold (dom_ 0 s) (length (entries (thr t s)) + n) -> below_threshold flushed_domain n.
Proof.
  unfold below_threshold, flushed_domain. destruct (entries (thr t s)) as [|x l]; [done|]. intros [H|H]; [by left|right]. etransitivity; [|exact H].
  pose proof (pending_count_add shard_of t (Z.of_nat (length (x :: l))) (with_pending ((x :: l) ++ pending (dom_ 0 s)) (dom_ 0 s)) ltac:(lia)) as Hc.
  change (pending_count (with_pending ((x :: l) ++ pending (dom_ 0 s)) (dom_ 0 s))) with (pending_count (dom_ 0 s)) in Hc. lia.
Qed.

Lemma hz_flush_pass b : below_threshold (dom_ 0 s) (length (entries (thr t s))) ->
  exists k, run shard_of (steps t k) (pass_state t s [TryReclaim 0 b] (dom_ 0 s) (freed s)) = Some (pass_state t flushed_state [Exchange 0 b] flushed_domain (freed s)).
Proof.
  intros Hth. assert (thr t flushed_state = with_buffer [] (owner_domain (thr t s)) (thr t s)) as Ht by (unfold flushed_state; by rewrite hz_thr_set, decide_True).
  assert (forall c, pass_state t flushed_state c (dom_ 0 s) (freed s) = set_thr t (with_code c (with_buffer [] (owner_domain (thr t s)) (thr t s))) (pass_state t s c (dom_ 0 s) (freed s))) as Hps.
  { intros c. unfold pass_state. rewrite Ht. unfold flushed_state, set_thr. cbn. by rewrite !insert_insert_eq. }
  assert (run shard_of (steps t (1 + 1)) (pass_state t s [TryReclaim 0 b] (dom_ 0 s) (freed s)) =
    Some (pass_state t flushed_state (match entries (thr t s) with [] => [] | l => [PushLoad 0 l] end ++ [Exchange 0 b]) (dom_ 0 s) (freed s))) as H1.
  { unfold steps. rewrite replicate_add. eapply hz_run_app; [apply (passes_one shard_of t s (TryReclaim 0 b) [] [Flush 0; Exchange 0 b] [Flush 0; Exchange 0 b] (dom_ 0 s) (dom_ 0 s)); done|].
    rewrite Hps. cbn. rewrite thr_pass. cbn. unfold flush_tls_buffer. cbn [entries with_code]. unfold set_thr, pass_state. cbn.
    destruct (entries (thr t s)) eqn:He; cbn; rewrite !insert_insert_eq; [|done]. do 3 f_equal. destruct (thr t s); cbn in *; by subst. }
  unfold flushed_domain. destruct (entries (thr t s)) as [|x l]; [by exists (1 + 1)%nat|].
  destruct (hz_push_back shard_of t flushed_state (x :: l) [Exchange 0 b] (dom_ 0 s) (freed s) ltac:(done) Hth) as (k & Hk).
  exists (1 + 1 + k)%nat. unfold steps. rewrite replicate_add. eapply hz_run_app; [exact H1|exact Hk].
Qed.
End flush.

(** The default domain is there from the start and stays. *)
Lemma access_default_domain shard_of t sp ins th s new th' s' : access shard_of t sp ins th s = Some (new, th', s') -> is_Some (domains s !! 0) -> is_Some (domains s' !! 0).
Proof. intros E Hd. destruct ins; hz_cases E; cbn; try done; rewrite ?lookup_insert; try match goal with |- is_Some (if ?x then _ else _) => destruct x end; done. Qed.
Lemma step_default_domain shard_of m s s' : step shard_of m s = Some s' -> is_Some (domains s !! 0) -> is_Some (domains s' !! 0).
Proof.
  intros E Hd. destruct m as [t [c|sp]].
  - cbn in E. unfold begin_call, if_valid, destroy_holder, move_holder, assign_holder, swap_holders in E. destruct (code (thr t s)); [|done].
    destruct c; repeat match type of E with
      | mbind _ _ = Some _ => apply bind_Some in E as (? & ? & E)
      | context [match ?x with _ => _ end] => destruct x eqn:?
      end; simplify_eq; try done; cbn; rewrite lookup_insert; case_decide; done.
  - apply hz_step_access in E as (ins & rest & new & th' & s1 & _ & E & ->). exact (access_default_domain _ _ _ _ _ _ _ _ _ E Hd).
Qed.
Lemma run_default_domain shard_of moves s s' : run_disciplined shard_of moves s = Some s' -> is_Some (domains s !! 0) -> is_Some (domains s' !! 0).
Proof.
  revert s. induction moves as [|m moves IH]; cbn; intros s E Hd; [by injection E as <-|]. destruct (disciplined m s); [|done]. apply bind_Some in E as (s1 & E1 & E).
  eapply IH; [done|]. by eapply step_default_domain.
Qed.

(** C22: A reclaim pass makes the progress it can. In a state of the default domain
    that the client discipline reaches, when an idle thread runs [try_reclaim] by
    itself, and the objects it counts on the way (those it has buffered, and then all
    that are pending) leave the counter of pending objects at or below the threshold
    of automatic passes, or those are off, the pass ends; of the objects that the
    thread has buffered and those that are pending, all of them or the [batch_size]
    oldest, it frees exactly those that no used slot publishes, and the others stay
    pending. *)
Theorem hazptr_reclaims (shard_of : Z -> Z) (moves : list (Z * move)) (s : state) (t b : Z) :
  Z.of_nat (length moves) < 2 ^ 64 -> run_disciplined shard_of moves init = Some s -> code (thr t s) = [] ->
  let waiting := entries (thr t s) ++ pending (dom_ 0 s) in
  below_threshold (dom_ 0 s) (length (entries (thr t s)) + length waiting) -> 0 <= b ->
  let queue := if 0 <? b then reverse waiting else waiting in
  let seen := take (batch_of b queue) queue in
  exists k s', run shard_of ((t, Begin (CallReclaim 0 b)) :: steps t k) s = Some s' /\ code (thr t s') = [] /\ entries (thr t s') = [] /\
    freed s' = freed s ++ filter (fun x => x ∉ protected_by (dom_ 0 s)) seen /\
    pending (dom_ 0 s') = filter (fun x => x ∈ protected_by (dom_ 0 s)) seen ++ drop (batch_of b queue) queue.
Proof.
  intros Hn E Hc waiting Hth Hb queue seen. pose proof (hazptr_run shard_of 0 moves init s (hazptr_init shard_of) Hn E) as [_ Ho _ _].
  assert (is_Some (domains s !! 0)) as Hdom by (eapply run_default_domain; [exact E|by eexists]).
  assert (step shard_of (t, Begin (CallReclaim 0 b)) s = Some (pass_state t s [TryReclaim 0 b] (dom_ 0 s) (freed s))) as H0.
  { cbn. unfold begin_call. rewrite Hc. unfold set_thr, pass_state. f_equal. f_equal. unfold dom_ in *. destruct Hdom as [D Hd]. rewrite Hd. by rewrite (insert_id _ _ D). }
  set (D1 := flushed_domain shard_of t s). set (s1 := flushed_state t s). assert (protected_by D1 = protected_by (dom_ 0 s)) as Hpr by apply flushed_protected.
  assert (exists k D', passes shard_of t s1 k [Exchange 0 b] D1 (freed s) [] D' (freed s ++ filter (fun x => x ∉ protected_by (dom_ 0 s)) seen) /\
    pending D' = filter (fun x => x ∈ protected_by (dom_ 0 s)) seen ++ drop (batch_of b queue) queue) as (k & D' & Hk & HD').
  2: { destruct (hz_flush_pass shard_of t s b) as (k0 & Hk0); [unfold below_threshold in *; lia|].
       exists (k0 + k)%nat, (pass_state t s1 [] D' (freed s ++ filter (fun x => x ∉ protected_by (dom_ 0 s)) seen)). split_and!; [|by rewrite thr_pass| |done|by rewrite dom_pass].
       - cbn [HazardPointers.run]. rewrite H0. cbn [mbind option_bind]. unfold steps. rewrite replicate_add. eapply hz_run_app; [exact Hk0|exact Hk].
       - rewrite thr_pass. unfold s1, flushed_state. by rewrite hz_thr_set, decide_True. }
  pose proof (flushed_pending shard_of t s) as Hp. fold D1 in Hp. fold waiting in Hp.
  assert (forall y, y ∈ waiting -> y ∈ reclaim_ s) as Hrc.
  { intros y Hy. apply (oo_reclaim _ Ho), (oo_claimed _ Ho). unfold places. rewrite !elem_of_app. apply elem_of_app in Hy as [Hy|Hy]; [left|by right; left].
    apply elem_of_tkeys. exists t, (thr t s). split; [|apply elem_of_app; by left]. unfold thr in *. by destruct (threads s !! t); [|apply not_elem_of_nil in Hy]. }
  destruct waiting as [|x l] eqn:Hw.
  - exists 1%nat, D1. assert (queue = []) as Hq by (unfold queue; by destruct (0 <? b)). unfold seen. rewrite Hq, take_nil, drop_nil, !filter_nil, app_nil_r. split; [|done].
    eapply (passes_one _ _ _ _ _ []); [|done]. cbn. unfold exchange_pending. by rewrite dom_pass, Hp.
  - pose proof (hz_pass_exchange shard_of t s1 b x l D1 (freed s) Hp) as H1. fold queue in H1.
    destruct (pass_vector shard_of t s1 b queue [] (with_pending [] D1) (freed s)) as (k1 & vec & H2 & Hv).
    change (protected_by (with_pending [] D1)) with (protected_by D1) in Hv. rewrite Hpr in Hv. set (n := batch_of b queue) in *.
    assert (forall y, y ∈ queue -> y ∈ reclaim_ s) as Hrq by (intros y; unfold queue; destruct (0 <? b); rewrite ?elem_of_reverse; apply Hrc).
    destruct (free_walk shard_of t s1 b vec [] (with_pending [] D1) (oo_wraps _ Ho) seen (drop n queue) [] 0 0 (freed s)) as (n' & H3).
    { intros y Hy. apply Hrq. by eapply subseteq_take. }
    { intros Hb0. unfold seen, n, batch_of. rewrite (proj2 (Z.ltb_lt 0 b) Hb0). rewrite length_take. lia. }
    unfold seen at 2 in H3. fold n in H3. rewrite take_drop in H3. cbn [app] in H3.
    rewrite (list_filter_iff (fun x => spared vec x = true) (fun x => x ∈ protected_by (dom_ 0 s))) in H3 by done.
    rewrite (list_filter_iff (fun x => spared vec x = false) (fun x => x ∉ protected_by (dom_ 0 s))) in H3 by (intros y; by rewrite <- Hv, not_true_iff_false).
    destruct (hz_finish_loop shard_of t s1 b vec (0 + Z.of_nat (length seen)) n' (drop n queue) (filter (fun x => x ∈ protected_by (dom_ 0 s)) seen) (with_pending [] D1)
      (freed s ++ filter (fun x => x ∉ protected_by (dom_ 0 s)) seen)) as (k2 & D2 & H4 & H5); [|done| |].
    { unfold seen, n, batch_of, batch_done. destruct (Z.ltb_spec 0 b) as [H|H]; [|left; apply drop_ge; lia]. rewrite length_take.
      destruct (Z.leb_spec b (0 + Z.of_nat (Z.to_nat b `min` length queue))); [by right|]. left. apply drop_ge. lia. }
    { assert (length (filter (fun x => x ∈ protected_by (dom_ 0 s)) seen ++ drop n queue) <= length (x :: l))%nat as Hl.
      { rewrite length_app, length_drop. pose proof (length_filter (fun x => x ∈ protected_by (dom_ 0 s)) seen) as Hf. unfold seen in Hf at 2. fold n in Hf. rewrite length_take in Hf.
        assert (length queue = length (x :: l)) as Hlq by (unfold queue; destruct (0 <? b); by rewrite ?length_reverse). lia. }
      apply (flushed_below shard_of) in Hth. change (below_threshold D1 (length (filter (fun x => x ∈ protected_by (dom_ 0 s)) seen ++ drop n queue))).
      fold D1 in Hth. unfold below_threshold in *. lia. }
    eexists _, D2. split; [|exact H5]. eapply passes_trans; [exact H1|]. eapply passes_trans; [exact H2|]. eapply passes_trans; [exact H3|exact H4].
Qed.

(** With the default threshold: thread 1 protects object 7, which is pending, and
    thread 2 has object 8 in its buffer; its pass frees 8 and keeps 7. *)
Definition demo_buffered : list (Z * move) := demo_reclaim ++ calls 2 (CallNew 8 false) 0 ++ calls 2 (CallRetire 0 8) 3.
Lemma hazptr_reclaims_witness : reclaim_threshold (dom_ 0 (final_disciplined demo_buffered)) = 4096 /\ pending (dom_ 0 (final_disciplined demo_buffered)) = [7] /\
  entries (thr 2 (final_disciplined demo_buffered)) = [8] /\ freed (final_disciplined demo_buffered) = [] /\
  exists k s', run id ((2, Begin (CallReclaim 0 0)) :: steps 2 k) (final_disciplined demo_buffered) = Some s' /\ freed s' = [8] /\ pending (dom_ 0 s') = [7].
Proof.
  split; [vm_compute; reflexivity|]. split; [vm_compute; reflexivity|]. split; [vm_compute; reflexivity|]. split; [vm_compute; reflexivity|].
  destruct (hazptr_reclaims id demo_buffered (final_disciplined demo_buffered) 2 0) as (k & s' & H1 & _ & _ & H3 & H4);
    [vm_compute; reflexivity|apply disciplined_final; vm_compute; reflexivity|vm_compute; reflexivity|right; vm_compute; discriminate|discriminate|].
  exists k, s'. split; [exact H1|]. rewrite H3, H4. split; vm_compute; reflexivity.
Defined.
