(* ===== verification/SlabAllocator.v ===== *)
(** * The slab allocator

    [allocation_class], [slab_allocator] and [numa_aware_slab_allocator] of
    memory.hpp. A size class is a lock-free stack of free blocks whose head carries a
    32-bit tag; an allocator has eleven of them, grows a class under its mutex by
    carving a slab, and frees a block by the header in front of it. As in the epoch
    domain, a thread runs a stack of instructions, each one access to shared memory
    with the local work around it, and the steps of all threads interleave. *)
From S2P Require Import Prelude.

(** * Data *)

Definition kLargeClassIndex : Z := 65535.
Definition kBlockHeaderSize : Z := 16.
Definition kBlockMagic : Z := 5499551911222788656.
Definition kMinClassSize : Z := 64.
Definition kMaxClassSize : Z := 65536.
Definition kNumClasses : Z := 11.
Definition kSharedMemHeaderSize : Z := 88.

Inductive slab_alloc_failure := no_failure | max_slabs_reached | os_allocation_failed | slab_exhausted.
Inductive slab_dealloc_reject := no_reject | unknown_block | size_class_mismatch | corrupt_header.

Record block_header := Header { magic : Z; capacity : Z; class_index : Z; owner_node : Z }.
Record tagged_ptr := Tagged { ptr : Z; tag : Z }.
#[global] Instance tagged_ptr_eq : EqDecision tagged_ptr.
Proof. solve_decision. Defined.

(** The counters of a class that are only read for reporting. *)
Record class_counters := Counters { free_count : Z; alloc_ops : Z; free_ops : Z; peak_bytes : Z; alloc_failures : Z; class_failure : slab_alloc_failure }.

Record allocation_class := Class {
  class_size : Z;
  slab_size : Z;
  items_per_slab : Z;
  num_slabs : Z;
  free_list : tagged_ptr;
  counters : class_counters }.

(** The tallies of [slab_allocator]. *)
Record tallies := Tallies {
  alloc_failures_total : Z; last_failure_class : Z; last_failure : slab_alloc_failure;
  dealloc_rejects_total : Z; last_reject : slab_dealloc_reject; reject_warned : bool }.

(** An allocator without its classes; a null [shared_mem_base] means that no file is
    mapped, and [class_slab_counts] are the counts in the header of the file.
    [slab_mutexes] maps the classes that are locked to the thread that holds the
    mutex. *)
Record slab_allocator := Allocator {
  max_slabs_per_class : gmap Z Z;
  slab_mutexes : gmap Z Z;
  all_slabs : list Z;
  aligned_slabs : gset Z;
  shared_mem_slabs : gset Z;
  shared_mem_base : Z;
  shared_mem_size : Z;
  shared_mem_next_slab_offset : Z;
  class_slab_counts : list Z;
  tally : tallies }.

(** How a region of memory was obtained. *)
Inductive origin := AlignedAlloc | SlabNew | LargeNew | Mapped.

(** A call returns a null pointer, a payload, or by an exception. *)
Inductive result := Null | Ptr (p : Z) | Thrown.

Inductive instr :=
  | PopLoad (n i : Z)
  | PopRead (n i : Z) (expected : tagged_ptr)
  | PopCas (n i : Z) (expected : tagged_ptr) (next : Z)
  | PopCount (n i head : Z)
  | PopOps (n i head : Z)
  | PopFrees (n i head allocs : Z)
  | PopPeak (n i head live_bytes : Z)
  | PopPeakCas (n i head live_bytes peak : Z)
  | FreeOps (n i p : Z)
  | PushLoad (n i p : Z)
  | PushStore (n i p : Z) (expected : tagged_ptr)
  | PushCas (n i p : Z) (expected : tagged_ptr)
  | PushCount (n i : Z)
  | AddSlab (n i : Z)
  | Obtain (n i : Z)
  | Book (n i slab : Z) (from : origin) (blocks : list Z)
  | Carve (n i : Z) (blocks : list Z)
  | Carved (n i : Z) (from_shared_mem : bool)
  | AfterFast (n i : Z)
  | Lock (n i : Z)
  | AfterLocked (n i : Z)
  | AfterAdd (n i : Z)
  | AfterGrow (n i : Z)
  | Unlock (n i : Z)
  | Large (n size : Z)
  | Deliver (size : Z)
  | Construct (todo : list (Z * Z)).

(** A thread: its stack of instructions, the result of the call in progress, and
    the result its client saw last. *)
Record thread := Thread { code : list instr; ret : result; out : result }.
Definition thread_new : thread := Thread [] Null Null.

(** The state. [links] is the first word of each payload, [headers] the sixteen
    bytes in front of each, [heap] the regions obtained from the system, [live] the
    payloads in the hands of clients with the sizes they asked for. *)
Record state := State {
  allocators : gmap Z slab_allocator;
  classes : gmap (Z * Z) allocation_class;
  links : gmap Z Z;
  headers : gmap Z block_header;
  heap : gmap Z (Z * origin);
  threads : gmap Z thread;
  live : gmap Z Z;
  constructed : bool }.

Definition thr (t : Z) (s : state) : thread := default thread_new (threads s !! t).
Definition set_thr (t : Z) (th : thread) (s : state) : state :=
  State (allocators s) (classes s) (links s) (headers s) (heap s) (<[t := th]> (threads s)) (live s) (constructed s).
Definition set_allocator (n : Z) (A : slab_allocator) (s : state) : state :=
  State (<[n := A]> (allocators s)) (classes s) (links s) (headers s) (heap s) (threads s) (live s) (constructed s).
Definition set_class (n i : Z) (c : allocation_class) (s : state) : state :=
  State (allocators s) (<[(n, i) := c]> (classes s)) (links s) (headers s) (heap s) (threads s) (live s) (constructed s).
Definition set_link (p w : Z) (s : state) : state :=
  State (allocators s) (classes s) (<[p := w]> (links s)) (headers s) (heap s) (threads s) (live s) (constructed s).
Definition set_header (p : Z) (h : block_header) (s : state) : state :=
  State (allocators s) (classes s) (links s) (<[p := h]> (headers s)) (heap s) (threads s) (live s) (constructed s).
Definition set_heap (h : gmap Z (Z * origin)) (s : state) : state :=
  State (allocators s) (classes s) (links s) (headers s) h (threads s) (live s) (constructed s).
Definition set_live (l : gmap Z Z) (s : state) : state :=
  State (allocators s) (classes s) (links s) (headers s) (heap s) (threads s) l (constructed s).

Definition with_free_list (f : tagged_ptr) (c : allocation_class) : allocation_class :=
  Class (class_size c) (slab_size c) (items_per_slab c) (num_slabs c) f (counters c).
Definition with_counters (k : class_counters) (c : allocation_class) : allocation_class :=
  Class (class_size c) (slab_size c) (items_per_slab c) (num_slabs c) (free_list c) k.
Definition with_slabs (m : Z) (c : allocation_class) : allocation_class :=
  Class (class_size c) (slab_size c) (items_per_slab c) m (free_list c) (counters c).

Definition with_mutexes (m : gmap Z Z) (A : slab_allocator) : slab_allocator :=
  Allocator (max_slabs_per_class A) m (all_slabs A) (aligned_slabs A) (shared_mem_slabs A) (shared_mem_base A) (shared_mem_size A)
    (shared_mem_next_slab_offset A) (class_slab_counts A) (tally A).
Definition with_limits (m : gmap Z Z) (A : slab_allocator) : slab_allocator :=
  Allocator m (slab_mutexes A) (all_slabs A) (aligned_slabs A) (shared_mem_slabs A) (shared_mem_base A) (shared_mem_size A)
    (shared_mem_next_slab_offset A) (class_slab_counts A) (tally A).
Definition with_books (l : list Z) (al sh : gset Z) (A : slab_allocator) : slab_allocator :=
  Allocator (max_slabs_per_class A) (slab_mutexes A) l al sh (shared_mem_base A) (shared_mem_size A)
    (shared_mem_next_slab_offset A) (class_slab_counts A) (tally A).
Definition with_offset (o : Z) (A : slab_allocator) : slab_allocator :=
  Allocator (max_slabs_per_class A) (slab_mutexes A) (all_slabs A) (aligned_slabs A) (shared_mem_slabs A) (shared_mem_base A) (shared_mem_size A)
    o (class_slab_counts A) (tally A).
Definition with_counts (l : list Z) (A : slab_allocator) : slab_allocator :=
  Allocator (max_slabs_per_class A) (slab_mutexes A) (all_slabs A) (aligned_slabs A) (shared_mem_slabs A) (shared_mem_base A) (shared_mem_size A)
    (shared_mem_next_slab_offset A) l (tally A).
Definition with_tally (k : tallies) (A : slab_allocator) : slab_allocator :=
  Allocator (max_slabs_per_class A) (slab_mutexes A) (all_slabs A) (aligned_slabs A) (shared_mem_slabs A) (shared_mem_base A) (shared_mem_size A)
    (shared_mem_next_slab_offset A) (class_slab_counts A) k.

(** * Size classes *)

Definition saturating_add (a b : Z) : Z := if U64_MAX - a <? b then U64_MAX else a + b.

(** The loop of [class_index_for]; ten rounds are enough, as [idx] is bounded. *)
Fixpoint class_loop (fuel : nat) (cls idx size : Z) : Z :=
  match fuel with
  | O => idx
  | S fuel => if (cls <? size) && (idx <? kNumClasses - 1) then class_loop fuel (u32 (Z.shiftl cls 1)) (idx + 1) size else idx
  end.
Definition class_index_for (size : Z) : Z := if size <=? kMinClassSize then 0 else class_loop 10 kMinClassSize 0 size.
Definition class_index_for_payload (size : Z) : Z :=
  let needed := saturating_add size kBlockHeaderSize in
  if kMaxClassSize <? needed then kLargeClassIndex else class_index_for needed.

Definition payload_capacity (c : allocation_class) : Z := u32 (class_size c - kBlockHeaderSize).
(** The payloads that [add_slab] carves out of a slab. *)
Definition slab_blocks (c : allocation_class) (slab : Z) : list Z :=
  (fun k => slab + k * class_size c + kBlockHeaderSize) <$> seqZ 0 (items_per_slab c).

(** * The instructions *)

Definition live_of (allocs frees : Z) : Z := if frees <? allocs then allocs - frees else 0.

Definition note_class_failure (r : slab_alloc_failure) (c : allocation_class) : allocation_class :=
  let k := counters c in with_counters (Counters (free_count k) (alloc_ops k) (free_ops k) (peak_bytes k) (u64 (alloc_failures k + 1)) r) c.
(** The failure notes of the class and of the allocator. *)
Definition note_alloc_failure (n i : Z) (r : slab_alloc_failure) (s : state) : state :=
  match allocators s !! n with
  | None => s
  | Some A =>
      let k := tally A in
      let s := match classes s !! (n, i) with Some c => if i <? kNumClasses then set_class n i (note_class_failure r c) s else s | None => s end in
      set_allocator n (with_tally (Tallies (u64 (alloc_failures_total k + 1)) i r (dealloc_rejects_total k) (last_reject k) (reject_warned k)) A) s
  end.
Definition note_dealloc_reject (n : Z) (r : slab_dealloc_reject) (s : state) : state :=
  match allocators s !! n with
  | None => s
  | Some A =>
      let k := tally A in
      set_allocator n (with_tally (Tallies (alloc_failures_total k) (last_failure_class k) (last_failure k) (u64 (dealloc_rejects_total k + 1)) r true) A) s
  end.

Definition outcome : Type := option (list instr * result * state).

(** What a step is given from outside: the spurious failure of a weak
    compare-exchange, and the answers of the aligned allocation and of
    [operator new]. *)
Record env := Env { spurious : bool; os_aligned : option Z; os_new : option Z }.

(** [allocate] of a class. A loop round begins at [PopRead] when the head is not
    null. *)
Definition pop_round (n i : Z) (e : tagged_ptr) : list instr := if ptr e =? 0 then [] else [PopRead n i e].
Definition pop_load (n i : Z) (r : result) (s : state) : outcome :=
  c ← classes s !! (n, i); Some (pop_round n i (free_list c), Null, s).
Definition pop_cas (e : env) (n i : Z) (expected : tagged_ptr) (next : Z) (r : result) (s : state) : outcome :=
  c ← classes s !! (n, i);
  if bool_decide (free_list c = expected) && negb (spurious e)
  then Some ([PopCount n i (ptr expected)], r, set_class n i (with_free_list (Tagged next (u32 (tag expected + 1))) c) s)
  else Some (pop_round n i (free_list c), r, s).
Definition pop_count (n i head : Z) (r : result) (s : state) : outcome :=
  c ← classes s !! (n, i);
  let k := counters c in
  Some ([PopOps n i head], r, set_class n i (with_counters (Counters (u32 (free_count k - 1)) (alloc_ops k) (free_ops k) (peak_bytes k) (alloc_failures k) (class_failure k)) c) s).
(** [note_allocation]. *)
Definition pop_ops (n i head : Z) (r : result) (s : state) : outcome :=
  c ← classes s !! (n, i);
  let k := counters c in
  Some ([PopFrees n i head (u64 (alloc_ops k + 1))], r,
        set_class n i (with_counters (Counters (free_count k) (u64 (alloc_ops k + 1)) (free_ops k) (peak_bytes k) (alloc_failures k) (class_failure k)) c) s).
Definition pop_frees (n i head allocs : Z) (r : result) (s : state) : outcome :=
  c ← classes s !! (n, i); Some ([PopPeak n i head (u64 (live_of allocs (free_ops (counters c)) * class_size c))], r, s).
Definition peak_round (n i head live_bytes peak : Z) (r : result) : list instr * result :=
  if peak <? live_bytes then ([PopPeakCas n i head live_bytes peak], r) else ([], Ptr head).
Definition pop_peak (n i head live_bytes : Z) (r : result) (s : state) : outcome :=
  c ← classes s !! (n, i); let '(new, r) := peak_round n i head live_bytes (peak_bytes (counters c)) r in Some (new, r, s).
Definition pop_peak_cas (e : env) (n i head live_bytes peak : Z) (r : result) (s : state) : outcome :=
  c ← classes s !! (n, i);
  let k := counters c in
  if (peak_bytes k =? peak) && negb (spurious e)
  then Some ([], Ptr head, set_class n i (with_counters (Counters (free_count k) (alloc_ops k) (free_ops k) live_bytes (alloc_failures k) (class_failure k)) c) s)
  else let '(new, r) := peak_round n i head live_bytes (peak_bytes k) r in Some (new, r, s).

(** [deallocate] of a class and [push_free]. *)
Definition count_free (n i p : Z) (r : result) (s : state) : outcome :=
  c ← classes s !! (n, i);
  let k := counters c in
  Some ([PushLoad n i p], r, set_class n i (with_counters (Counters (free_count k) (alloc_ops k) (u64 (free_ops k + 1)) (peak_bytes k) (alloc_failures k) (class_failure k)) c) s).
Definition push_cas (e : env) (n i p : Z) (expected : tagged_ptr) (r : result) (s : state) : outcome :=
  c ← classes s !! (n, i);
  if bool_decide (free_list c = expected) && negb (spurious e)
  then Some ([PushCount n i], r, set_class n i (with_free_list (Tagged p (u32 (tag expected + 1))) c) s)
  else Some ([PushStore n i p (free_list c)], r, s).
Definition push_count (n i : Z) (r : result) (s : state) : outcome :=
  c ← classes s !! (n, i);
  let k := counters c in
  Some ([], r, set_class n i (with_counters (Counters (u32 (free_count k + 1)) (alloc_ops k) (free_ops k) (peak_bytes k) (alloc_failures k) (class_failure k)) c) s).

(** [add_slab_to_class]: the limit, then the slab, from the mapped file if it has
    room, else from the aligned allocation, else from [operator new]. *)
Definition limit (A : slab_allocator) (i : Z) : Z := default 0 (max_slabs_per_class A !! i).
Definition add_slab_to_class (n i : Z) (r : result) (s : state) : outcome :=
  c ← classes s !! (n, i); A ← allocators s !! n;
  Some (if limit A i <=? num_slabs c then [] else [Obtain n i], r, s).
Definition obtain (e : env) (n i : Z) (r : result) (s : state) : outcome :=
  c ← classes s !! (n, i); A ← allocators s !! n;
  let offset := shared_mem_next_slab_offset A in
  if negb (shared_mem_base A =? 0) && (u64 (kSharedMemHeaderSize + offset + slab_size c) <=? shared_mem_size A) then
    let slab := shared_mem_base A + kSharedMemHeaderSize + offset in
    Some ([Book n i slab Mapped (slab_blocks c slab)], r, set_allocator n (with_offset (u64 (offset + slab_size c)) A) s)
  else
    match os_aligned e, os_new e with
    | Some slab, _ => Some ([Book n i slab AlignedAlloc (slab_blocks c slab)], r, set_heap (<[slab := (slab_size c, AlignedAlloc)]> (heap s)) s)
    | None, Some slab => Some ([Book n i slab SlabNew (slab_blocks c slab)], r, set_heap (<[slab := (slab_size c, SlabNew)]> (heap s)) s)
    | None, None => Some ([], Thrown, s)
    end.
Definition from_mapping (o : origin) : bool := match o with Mapped => true | _ => false end.
Definition book_slab (n i slab : Z) (from : origin) (blocks : list Z) (r : result) (s : state) : outcome :=
  A ← allocators s !! n;
  let A := match from with
           | Mapped => with_books (all_slabs A ++ [slab]) (aligned_slabs A) ({[slab]} ∪ shared_mem_slabs A) A
           | AlignedAlloc => with_books (all_slabs A ++ [slab]) ({[slab]} ∪ aligned_slabs A) (shared_mem_slabs A) A
           | _ => with_books (all_slabs A ++ [slab]) (aligned_slabs A) (shared_mem_slabs A) A
           end in
  Some ([Carve n i blocks; Carved n i (from_mapping from)], r, set_allocator n A s).
(** [add_slab] of the class: a header and a push for each block. *)
Definition add_slab (n i : Z) (blocks : list Z) (r : result) (s : state) : outcome :=
  c ← classes s !! (n, i);
  match blocks with
  | [] => Some ([], r, s)
  | p :: blocks => Some ([PushLoad n i p; Carve n i blocks], r, set_header p (Header kBlockMagic (payload_capacity c) i n) s)
  end.
Definition slab_counts (n : Z) (s : state) : list Z :=
  (fun i => match classes s !! (n, i) with Some c => num_slabs c | None => 0 end) <$> seqZ 0 kNumClasses.
Definition update_shared_memory_header (n : Z) (s : state) : state :=
  match allocators s !! n with Some A => if shared_mem_base A =? 0 then s else set_allocator n (with_counts (slab_counts n s) A) s | None => s end.
Definition slab_done (n i : Z) (from_shared_mem : bool) (r : result) (s : state) : outcome :=
  c ← classes s !! (n, i);
  let s := set_class n i (with_slabs (u32 (num_slabs c + 1)) c) s in
  Some ([], r, if from_shared_mem then update_shared_memory_header n s else s).

(** [slab_allocator::allocate] after the first, the second and the third attempt,
    with the limit and the growth between them. *)
Definition after_fast (n i : Z) (r : result) (s : state) : outcome := Some (match r with Null => [Lock n i] | _ => [] end, r, s).
Definition lock_class (t n i : Z) (r : result) (s : state) : outcome :=
  A ← allocators s !! n;
  match slab_mutexes A !! i with
  | Some _ => None
  | None => Some ([PopLoad n i; AfterLocked n i], r, set_allocator n (with_mutexes (<[i := t]> (slab_mutexes A)) A) s)
  end.
Definition after_locked (n i : Z) (r : result) (s : state) : outcome :=
  c ← classes s !! (n, i); A ← allocators s !! n;
  match r with
  | Null => if limit A i <=? num_slabs c then Some ([Unlock n i], r, note_alloc_failure n i max_slabs_reached s) else Some ([AddSlab n i; AfterAdd n i], r, s)
  | _ => Some ([Unlock n i], r, s)
  end.
Definition after_add (n i : Z) (r : result) (s : state) : outcome :=
  match r with
  | Thrown => Some ([Unlock n i], r, note_alloc_failure n i os_allocation_failed s)
  | _ => Some ([PopLoad n i; AfterGrow n i], r, s)
  end.
Definition after_grow (n i : Z) (r : result) (s : state) : outcome :=
  Some ([Unlock n i], r, match r with Null => note_alloc_failure n i slab_exhausted s | _ => s end).
(** The end of the [lock_guard]; a mutex is unlocked only by the thread that holds it. *)
Definition unlock_class (t n i : Z) (r : result) (s : state) : outcome :=
  A ← allocators s !! n;
  if bool_decide (slab_mutexes A !! i = Some t) then Some ([], r, set_allocator n (with_mutexes (delete i (slab_mutexes A)) A) s) else None.
Definition allocate_large (e : env) (n size : Z) (r : result) (s : state) : outcome :=
  let bytes := saturating_add size kBlockHeaderSize in
  match os_new e with
  | None => Some ([], Thrown, note_alloc_failure n kNumClasses os_allocation_failed s)
  | Some base =>
      Some ([], Ptr (base + kBlockHeaderSize),
            set_header (base + kBlockHeaderSize) (Header kBlockMagic (if U32_MAX <? size then U32_MAX else size) kLargeClassIndex n)
              (set_heap (<[base := (bytes, LargeNew)]> (heap s)) s))
  end.

(** [slab_allocator::deallocate] with a claimed size, and [deallocate_block]
    without. The header lies in memory of the caller, so it is read in the step that
    begins the call. *)
Definition claim_fits (recorded size : Z) : bool :=
  let claimed := class_index_for_payload size in if kNumClasses <=? recorded then claimed =? kLargeClassIndex else claimed <=? recorded.
Definition free_by_header (n p : Z) (h : block_header) (r : result) (s : state) : outcome :=
  if kNumClasses <=? class_index h then Some ([], r, set_heap (delete (p - kBlockHeaderSize) (heap s)) s)
  else Some ([FreeOps n (class_index h) p], r, s).
Definition deallocate (n p : Z) (claim : option Z) (r : result) (s : state) : outcome :=
  h ← headers s !! p;
  if negb (magic h =? kBlockMagic) then Some ([], r, note_dealloc_reject n unknown_block s)
  else match claim with
       | Some size => if claim_fits (class_index h) size then free_by_header n p h r s else Some ([], r, note_dealloc_reject n size_class_mismatch s)
       | None => free_by_header n p h r s
       end.

(** Whether the call takes the block: a refused block stays with the client, who may
    free it again with a size that fits. *)
Definition frees (p : Z) (claim : option Z) (s : state) : bool :=
  match headers s !! p with
  | Some h => (magic h =? kBlockMagic) && match claim with Some size => claim_fits (class_index h) size | None => true end
  | None => false
  end.

(** The constructor adds the initial slabs one by one. *)
Definition construct (todo : list (Z * Z)) (r : result) (s : state) : outcome :=
  match r, todo with
  | Thrown, _ => Some ([], r, s)
  | _, (n, i) :: todo => Some ([AddSlab n i; Construct todo], r, s)
  | _, [] => Some ([], r, State (allocators s) (classes s) (links s) (headers s) (heap s) (threads s) (live s) true)
  end.
Definition deliver (size : Z) (r : result) (s : state) : outcome :=
  Some ([], Null, match r with Ptr p => set_live (<[p := size]> (live s)) s | _ => s end).

Definition access (t : Z) (e : env) (ins : instr) (r : result) (s : state) : outcome :=
  match ins with
  | PopLoad n i => pop_load n i r s
  | PopRead n i x => Some ([PopCas n i x (default 0 (links s !! ptr x))], r, s)
  | PopCas n i x next => pop_cas e n i x next r s
  | PopCount n i head => pop_count n i head r s
  | PopOps n i head => pop_ops n i head r s
  | PopFrees n i head allocs => pop_frees n i head allocs r s
  | PopPeak n i head bytes => pop_peak n i head bytes r s
  | PopPeakCas n i head bytes peak => pop_peak_cas e n i head bytes peak r s
  | FreeOps n i p => count_free n i p r s
  | PushLoad n i p => c ← classes s !! (n, i); Some ([PushStore n i p (free_list c)], r, s)
  | PushStore n i p x => Some ([PushCas n i p x], r, set_link p (ptr x) s)
  | PushCas n i p x => push_cas e n i p x r s
  | PushCount n i => push_count n i r s
  | AddSlab n i => add_slab_to_class n i r s
  | Obtain n i => obtain e n i r s
  | Book n i slab from blocks => book_slab n i slab from blocks r s
  | Carve n i blocks => add_slab n i blocks r s
  | Carved n i shared => slab_done n i shared r s
  | AfterFast n i => after_fast n i r s
  | Lock n i => lock_class t n i r s
  | AfterLocked n i => after_locked n i r s
  | AfterAdd n i => after_add n i r s
  | AfterGrow n i => after_grow n i r s
  | Unlock n i => unlock_class t n i r s
  | Large n size => allocate_large e n size r s
  | Deliver size => deliver size r s
  | Construct todo => construct todo r s
  end.

(** * Calls and schedules *)

(** [numa_aware_slab_allocator] over [num_nodes] allocators, called from a thread
    on node [current]. *)
Section nodes.
Context (num_nodes : Z).

Definition node_allocator (node : Z) : Z := if (node <? 0) || (num_nodes <=? node) then 0 else node.
Definition owner_node_of (p : Z) (s : state) : Z :=
  match headers s !! p with Some h => if magic h =? kBlockMagic then owner_node h else -1 | None => -1 end.
Definition allocator_for_block (current p : Z) (s : state) : Z :=
  let node := owner_node_of p s in if (0 <=? node) && (node <? num_nodes) then node else node_allocator current.

(** Calls on one allocator, on the node-aware allocator, and what clients do to
    their own memory: [Scribble] writes the first word of a payload, [Foreign] is
    memory of the client that holds no block. *)
Inductive call :=
  | CallAllocate (n size : Z) | CallDeallocate (n p size : Z) | CallDeallocateBlock (n p : Z)
  | NodeAllocate (current size : Z) | NodeDeallocate (current p size : Z) | NodeDeallocateBlock (current p : Z)
  | CallSetMax (n i max_slabs : Z)
  | Scribble (p w : Z) | Foreign (p : Z) (h : block_header).

Definition allocate (n size : Z) : list instr :=
  let idx := class_index_for_payload size in
  if idx =? kLargeClassIndex then [Large n size; Deliver size] else [PopLoad n idx; AfterFast n idx; Deliver size].
Definition set_max_slabs_for_class (n i m : Z) (s : state) : state :=
  match allocators s !! n with
  | Some A => if kNumClasses <=? i then s else set_allocator n (with_limits (<[i := m]> (max_slabs_per_class A)) A) s
  | None => s
  end.

Definition begin_call (t : Z) (c : call) (s : state) : option state :=
  let th := thr t s in
  let start l s := Some (set_thr t (Thread l Null (out th)) s) in
  let free n p claim :=
    if p =? 0 then Some s
    else '(new, _, s') ← deallocate n p claim Null (if frees p claim s then set_live (delete p (live s)) s else s); start new s' in
  match code th, constructed s with
  | [], true =>
      match c with
      | CallAllocate n size => start (allocate n size) s
      | CallDeallocate n p size => free n p (Some size)
      | CallDeallocateBlock n p => free n p None
      | NodeAllocate current size => start (allocate (node_allocator current) size) s
      | NodeDeallocate current p size => free (allocator_for_block current p s) p (Some size)
      | NodeDeallocateBlock current p => free (allocator_for_block current p s) p None
      | CallSetMax n i m => Some (set_max_slabs_for_class n i m s)
      | Scribble p w => if bool_decide (is_Some (live s !! p)) then Some (set_link p w s) else None
      | Foreign p h => Some (set_header p h s)
      end
  | _, _ => None
  end.

Inductive move := Begin (c : call) | Step (e : env).

Definition step (tm : Z * move) (s : state) : option state :=
  let '(t, m) := tm in
  match m with
  | Begin c => begin_call t c s
  | Step e =>
      let th := thr t s in
      match code th with
      | [] => None
      | ins :: rest =>
          '(new, r, s') ← access t e ins (ret th) s;
          Some (set_thr t (Thread (new ++ rest) r (match ins with Deliver _ => ret th | _ => out th end)) s')
      end
  end.

Fixpoint run (moves : list (Z * move)) (s : state) : option state :=
  match moves with
  | [] => Some s
  | m :: moves => s' ← step m s; run moves s'
  end.

(** What the guarantees need. The system hands out memory that overlaps no region
    it has handed out before; a client frees, once, a block it holds, on the
    allocator it came from, or passes memory of its own that is not a block. *)
Definition separate (a size a' size' : Z) : Prop := a + size <= a' \/ a' + size' <= a.
Definition fresh_region (size : Z) (s : state) (a : option Z) : Prop :=
  match a with None => True | Some a => 0 < a /\ a + size <= U64_MAX /\ map_Forall (fun a' r => separate a size a' r.1) (heap s) end.
Definition foreign_header (p : Z) (s : state) : Prop :=
  match headers s !! p with Some h => magic h <> kBlockMagic | None => False end /\ p <> 0 /\ map_Forall (fun a r => p < a \/ a + r.1 <= p) (heap s).
Definition owned_by (n p : Z) (s : state) : Prop := is_Some (live s !! p) /\ owner_node_of p s = n.

#[global] Instance separate_dec a b c d : Decision (separate a b c d).
Proof. unfold separate. apply _. Defined.
#[global] Instance fresh_region_dec z s a : Decision (fresh_region z s a).
Proof. unfold fresh_region. destruct a; apply _. Defined.
#[global] Instance foreign_header_dec p s : Decision (foreign_header p s).
Proof. unfold foreign_header. destruct (headers s !! p); apply _. Defined.
#[global] Instance owned_by_dec n p s : Decision (owned_by n p s).
Proof. unfold owned_by. apply _. Defined.

Definition requested (ins : instr) (s : state) : Z :=
  match ins with
  | Obtain n i => match classes s !! (n, i) with Some c => slab_size c | None => 0 end
  | Large _ size => saturating_add size kBlockHeaderSize
  | _ => 0
  end.
Definition disciplined (tm : Z * move) (s : state) : Prop :=
  let '(t, m) := tm in
  match m with
  | Step e => match code (thr t s) with
              | [] => True
              | ins :: _ => fresh_region (requested ins s) s (os_aligned e) /\ fresh_region (requested ins s) s (os_new e)
              end
  | Begin (CallAllocate n size) => is_Some (allocators s !! n) /\ 0 <= size < 2 ^ 64
  | Begin (NodeAllocate current size) => is_Some (allocators s !! node_allocator current) /\ 0 <= size < 2 ^ 64
  | Begin (CallDeallocate n p _) | Begin (CallDeallocateBlock n p) => p = 0 \/ owned_by n p s \/ foreign_header p s
  | Begin (NodeDeallocate _ p _) | Begin (NodeDeallocateBlock _ p) => p = 0 \/ is_Some (live s !! p) /\ 0 <= owner_node_of p s < num_nodes \/ foreign_header p s
  | Begin (Foreign p h) => magic h <> kBlockMagic /\ map_Forall (fun a r => p < a \/ a + r.1 <= p) (heap s)
  | Begin (CallSetMax _ _ _) | Begin (Scribble _ _) => True
  end.
#[global] Instance disciplined_dec tm s : Decision (disciplined tm s).
Proof. destruct tm as [t [[]|e]]; cbn; try apply _. destruct (code (thr t s)); apply _. Defined.

Fixpoint run_disciplined (moves : list (Z * move)) (s : state) : option state :=
  match moves with
  | [] => Some s
  | m :: moves => if decide (disciplined m s) then s' ← step m s; run_disciplined moves s' else None
  end.
End nodes.

(** * Construction *)

(** The configuration of one allocator: a zero in the per-class arrays stands for
    the default; [mapping] is the address and size of the mapped file, if any. *)
Record config := Config {
  default_slab_size : Z;
  initial_slabs_per_class : nat;
  default_max_slabs : Z;
  per_class_slab_sizes : list Z;
  per_class_max_slabs : list Z;
  mapping : option (Z * Z) }.

Definition slab_size_of (cfg : config) (i : Z) : Z :=
  let x := nth (Z.to_nat i) (per_class_slab_sizes cfg) 0 in if x =? 0 then default_slab_size cfg else x.
Definition max_slabs_of (cfg : config) (i : Z) : Z :=
  let x := nth (Z.to_nat i) (per_class_max_slabs cfg) 0 in if x =? 0 then default_max_slabs cfg else x.
Definition new_class (cfg : config) (i : Z) : allocation_class :=
  let cs := u32 (Z.shiftl kMinClassSize i) in
  let ss := slab_size_of cfg i in
  Class cs ss (if 0 <? ss / cs then ss / cs else 1) 0 (Tagged 0 0) (Counters 0 0 0 0 0 no_failure).
Definition new_allocator (cfg : config) : slab_allocator :=
  Allocator (list_to_map ((fun i => (i, max_slabs_of cfg i)) <$> seqZ 0 kNumClasses)) ∅ [] ∅ ∅
    (from_option fst 0 (mapping cfg)) (from_option snd 0 (mapping cfg)) 0 (replicate 11 0) (Tallies 0 0 no_failure 0 no_reject false).

Definition initial_slabs (n : Z) (cfg : config) : list (Z * Z) :=
  seqZ 0 kNumClasses ≫= fun i => replicate (initial_slabs_per_class cfg) (n, i).
Definition init (cfgs : list (Z * config)) : state :=
  State (list_to_map ((fun nc => (nc.1, new_allocator nc.2)) <$> cfgs))
    (list_to_map (cfgs ≫= fun nc => (fun i => ((nc.1, i), new_class nc.2 i)) <$> seqZ 0 kNumClasses))
    ∅ ∅
    (list_to_map (cfgs ≫= fun nc => match mapping nc.2 with Some (b, sz) => [(b, (sz, Mapped))] | None => [] end))
    {[0 := Thread [Construct (cfgs ≫= fun nc => initial_slabs nc.1 nc.2)] Null Null]} ∅ false.

(** What a configuration has to satisfy: a slab holds at least one block of its
    class, and the mapped files are apart. *)
Definition mappings_apart (a b : option (Z * Z)) : Prop := match a, b with Some (a, x), Some (b, y) => separate a x b y | _, _ => True end.
#[global] Instance mappings_apart_dec a b : Decision (mappings_apart a b).
Proof. unfold mappings_apart. destruct a as [[]|], b as [[]|]; apply _. Defined.
Definition mapping_ok (m : option (Z * Z)) : Prop := match m with Some (b, z) => 0 < b /\ kSharedMemHeaderSize <= z /\ b + z <= 2 ^ 63 | None => True end.
#[global] Instance mapping_ok_dec m : Decision (mapping_ok m).
Proof. unfold mapping_ok. destruct m as [[]|]; apply _. Defined.
Definition config_ok (cfgs : list (Z * config)) : Prop :=
  NoDup cfgs.*1 /\
  Forall (fun nc => Forall (fun i => kMinClassSize * 2 ^ i <= slab_size_of nc.2 i < 2 ^ 32) (seqZ 0 kNumClasses) /\ mapping_ok (mapping nc.2)) cfgs /\
  Forall (fun nc => Forall (fun nc' => nc.1 = nc'.1 \/ mappings_apart (mapping nc.2) (mapping nc'.2)) cfgs) cfgs.
#[global] Instance config_ok_dec cfgs : Decision (config_ok cfgs).
Proof. unfold config_ok. apply _. Defined.

(** * Warm restart *)

(** The size a new file is given, and the part of the header of an existing one that
    is looked at. *)
Definition shared_memory_bytes (cfg : config) : Z := kSharedMemHeaderSize + foldr Z.add 0 ((fun i => max_slabs_of cfg i * slab_size_of cfg i) <$> seqZ 0 kNumClasses).
Record shared_memory_header := SharedHeader { shm_magic : list Z; shm_version : Z; shm_slab_size : Z; shm_counts : list Z }.
Definition header_valid (cfg : config) (h : shared_memory_header) : bool :=
  bool_decide (shm_magic h = [76; 82; 85; 83]) && (shm_version h =? 1) && (shm_slab_size h =? default_slab_size cfg).
(** The header of a running allocator. *)
Definition saved_header (cfg : config) (A : slab_allocator) : shared_memory_header := SharedHeader [76; 82; 85; 83] 1 (default_slab_size cfg) (class_slab_counts A).

(** The slabs that a warm restart carves again, class by class, with their sizes. *)
Fixpoint warm_class (n : nat) (size offset : Z) : list (Z * Z) :=
  match n with O => [] | S n => (offset, size) :: warm_class n size (offset + size) end.
Fixpoint warm_classes (cfg : config) (i : Z) (counts : list Z) (offset : Z) : list (Z * Z) :=
  match counts with
  | [] => []
  | count :: counts => warm_class (Z.to_nat count) (slab_size_of cfg i) offset ++ warm_classes cfg (i + 1) counts (offset + Z.max 0 count * slab_size_of cfg i)
  end.
Definition warm_slabs (cfg : config) (base : Z) (h : shared_memory_header) : list (Z * Z) :=
  (fun x => (base + kSharedMemHeaderSize + x.1, x.2)) <$> warm_classes cfg 0 (shm_counts h) 0.

(** * The owning handle *)

(** [slab_ptr] holds an allocator and a block. Each operation yields the handles and
    the block that is freed, if any, with the size-free call. *)
Record slab_ptr := SlabPtr { sp_owner : option Z; sp_block : Z; sp_size : Z }.
Definition slab_ptr_null : slab_ptr := SlabPtr None 0 0.
Definition sp_reset (p : slab_ptr) : slab_ptr * option (Z * Z) :=
  if sp_block p =? 0 then (p, None) else (slab_ptr_null, (fun n => (n, sp_block p)) <$> sp_owner p).
Definition sp_release (p : slab_ptr) : slab_ptr * Z := (slab_ptr_null, sp_block p).
Definition sp_move (p : slab_ptr) : slab_ptr * slab_ptr := (p, slab_ptr_null).
(** [dst = std::move(src)]; [same] is the self-assignment test. *)
Definition sp_assign (same : bool) (dst src : slab_ptr) : slab_ptr * slab_ptr * option (Z * Z) :=
  if same then (dst, src, None) else let '(_, freed) := sp_reset dst in (src, slab_ptr_null, freed).
Definition allocate_owned (n size : Z) (r : result) : slab_ptr := match r with Ptr p => SlabPtr (Some n) p size | _ => slab_ptr_null end.
