(* ===== verification/SlabInv.v ===== *)
(** * The slab allocator: who has a block

    The vocabulary of the proof and the invariant of the free lists: every block is
    on one free list, in the hands of one thread or with one client, and a tag that
    has not moved vouches for the link that was read under it. *)
From S2P Require Import Prelude SlabAllocator.

(** * Vocabulary *)

(** The blocks an instruction carries, and those it has yet to give a header. *)
Definition held (ins : instr) : list Z :=
  match ins with
  | PopCount _ _ p | PopOps _ _ p | PopFrees _ _ p _ | PopPeak _ _ p _ | PopPeakCas _ _ p _ _ => [p]
  | FreeOps _ _ p | PushLoad _ _ p | PushStore _ _ p _ | PushCas _ _ p _ => [p]
  | Book _ _ _ _ l | Carve _ _ l => l
  | _ => []
  end.
Definition uncarved (ins : instr) : list Z := match ins with Book _ _ _ _ l | Carve _ _ l => l | _ => [] end.
Definition in_ret (r : result) : list Z := match r with Ptr p => [p] | _ => [] end.
Definition transit (th : thread) : list Z := (code th ≫= held) ++ in_ret (ret th).

Inductive place := InFree (n i : Z) | InThread (t : Z) | WithClient.
#[global] Instance place_eq : EqDecision place.
Proof. solve_decision. Defined.

(** What a block was carved or allocated as: allocator, class index, bytes. *)
Record kind := Kind { k_node : Z; k_class : Z; k_bytes : Z }.
Definition bytes_of (i : Z) : Z := kMinClassSize * 2 ^ i.
Definition header_of (k : kind) : block_header :=
  Header kBlockMagic (if k_class k =? kLargeClassIndex then Z.min (k_bytes k - kBlockHeaderSize) U32_MAX else k_bytes k - kBlockHeaderSize) (k_class k) (k_node k).

Fixpoint chain (ls : gmap Z Z) (p : Z) (l : list Z) : Prop :=
  match l with
  | [] => p = 0
  | b :: l => p = b /\ b <> 0 /\ exists w, ls !! b = Some w /\ chain ls w l
  end.

Definition class_at (s : state) (n i : Z) : Prop := is_Some (classes s !! (n, i)) /\ is_Some (allocators s !! n) /\ 0 <= i < kNumClasses.
Definition of_class (kd : gmap Z kind) (b n i : Z) : Prop := kd !! b = Some (Kind n i (bytes_of i)).

(** A head read earlier: its tag tells whether it is still the head. *)
Definition stale_ok (s : state) (n i : Z) (e : tagged_ptr) : Prop :=
  exists c, classes s !! (n, i) = Some c /\ tag e <= tag (free_list c) /\ (tag e = tag (free_list c) -> e = free_list c).

Definition frame_ok (kd : gmap Z kind) (s : state) (ins : instr) : Prop :=
  match ins with
  | PopLoad n i | PushCount n i | AddSlab n i | Obtain n i | Carved n i _ | AfterFast n i | Lock n i | AfterLocked n i | AfterAdd n i | AfterGrow n i | Unlock n i => class_at s n i
  | PopRead n i e => class_at s n i /\ stale_ok s n i e /\ ptr e <> 0
  | PopCas n i e next => class_at s n i /\ stale_ok s n i e /\ ptr e <> 0 /\ forall c, classes s !! (n, i) = Some c -> free_list c = e -> links s !! ptr e = Some next
  | PopCount n i p | PopOps n i p | PopFrees n i p _ | PopPeak n i p _ | PopPeakCas n i p _ _ | FreeOps n i p | PushLoad n i p => class_at s n i /\ of_class kd p n i
  | PushStore n i p e => class_at s n i /\ of_class kd p n i /\ stale_ok s n i e
  | PushCas n i p e => class_at s n i /\ of_class kd p n i /\ stale_ok s n i e /\ links s !! p = Some (ptr e)
  | Book n i _ from l => class_at s n i /\ from <> LargeNew /\ Forall (fun b => of_class kd b n i) l
  | Carve n i l => class_at s n i /\ Forall (fun b => of_class kd b n i) l
  | Large n _ => is_Some (allocators s !! n)
  | Deliver _ => True
  | Construct todo => Forall (fun ni => class_at s ni.1 ni.2) todo
  end.

(** What waits for the result of an attempt on class [i] of allocator [n]. *)
Fixpoint waits (n i : Z) (l : list instr) : Prop :=
  match l with
  | [Deliver size] => 0 <= size /\ size + kBlockHeaderSize <= bytes_of i
  | (AfterFast n' i' | AfterLocked n' i' | AfterGrow n' i' | Unlock n' i') :: l => n' = n /\ i' = i /\ waits n i l
  | _ => False
  end.
Definition attempt (ins : instr) : option (Z * Z) :=
  match ins with
  | PopLoad n i | PopRead n i _ | PopCas n i _ _ | PopCount n i _ | PopOps n i _ | PopFrees n i _ _ | PopPeak n i _ _ | PopPeakCas n i _ _ _
  | AfterFast n i | Lock n i | AfterLocked n i | AfterAdd n i | AfterGrow n i | Unlock n i => Some (n, i)
  | _ => None
  end.
Fixpoint stack_ok (l : list instr) : Prop :=
  match l with
  | [] => True
  | ins :: l => match ins with
                | Large _ size => 0 < size < 2 ^ 64 /\ l = [Deliver size]
                | _ => match attempt ins with Some (n, i) => waits n i l | None => True end
                end /\ stack_ok l
  end.
Definition ret_ok (kd : gmap Z kind) (s : state) (th : thread) : Prop :=
  match ret th with
  | Ptr p => (exists n i, waits n i (code th) /\ class_at s n i /\ of_class kd p n i) \/
             (exists n size, code th = [Deliver size] /\ 0 <= size /\ is_Some (allocators s !! n) /\ kd !! p = Some (Kind n kLargeClassIndex (size + kBlockHeaderSize)))
  | _ => True
  end.
Definition live_ok (kd : gmap Z kind) (s : state) (b size : Z) : Prop :=
  exists k, kd !! b = Some k /\ 0 <= size /\ size + kBlockHeaderSize <= k_bytes k /\ is_Some (allocators s !! k_node k) /\
    ((class_at s (k_node k) (k_class k) /\ k_bytes k = bytes_of (k_class k)) \/ k_class k = kLargeClassIndex).

Lemma slab_thr_set t t' th s : thr t' (set_thr t th s) = if decide (t' = t) then th else thr t' s.
Proof. unfold thr, set_thr. cbn. destruct (decide (t' = t)); subst; [by rewrite lookup_insert_eq|by rewrite lookup_insert_ne]. Qed.

Lemma chain_insert ls p l b w : b ∉ l -> chain ls p l -> chain (<[b := w]> ls) p l.
Proof.
  revert p. induction l as [|x l IH]; [done|]. intros p [Hx Hl]%not_elem_of_cons (-> & Hz & w' & Hw & Hc).
  split_and!; [done|done|]. exists w'. rewrite lookup_insert_ne by done. auto.
Qed.
Lemma chain_head ls p l : chain ls p l -> p <> 0 -> exists l' w, l = p :: l' /\ ls !! p = Some w /\ chain ls w l'.
Proof. destruct l as [|b l]; [done|]. intros (-> & _ & w & Hw & Hc) _. eauto. Qed.
Lemma chain_zero ls p l : chain ls p l -> p = 0 -> l = [].
Proof. destruct l as [|b l]; [done|]. by intros (-> & Hz & _) ->. Qed.

Lemma waits_pos n i l : waits n i l -> l <> [].
Proof. by destruct l. Qed.

(** Splits an access into the cases of its definition. *)
Ltac slab_cases E :=
  cbv beta iota zeta delta [access pop_load pop_cas pop_count pop_ops pop_frees pop_peak pop_peak_cas count_free push_cas push_count
    add_slab_to_class obtain book_slab add_slab slab_done after_fast lock_class after_locked after_add after_grow unlock_class
    allocate_large construct deliver peak_round] in E;
  repeat (match type of E with
          | mbind _ _ = Some _ => apply bind_Some in E as (? & ? & E)
          | context [match ?x with _ => _ end] => destruct x eqn:?
          end; try discriminate E);
  try (injection E as <- <- <-).

(** * The invariant *)

Record core (m : Z) (own : gmap Z place) (kd : gmap Z kind) (free : Z -> Z -> list Z) (s : state) : Prop := {
  c_class n i c : classes s !! (n, i) = Some c -> 0 <= i < kNumClasses /\ class_size c = bytes_of i /\ 0 <= tag (free_list c) <= m /\
    chain (links s) (ptr (free_list c)) (free n i);
  c_free n i b : b ∈ free n i <-> own !! b = Some (InFree n i);
  c_fnodup n i : NoDup (free n i);
  c_fkind n i b : b ∈ free n i -> of_class kd b n i;
  c_thread t b : b ∈ transit (thr t s) <-> own !! b = Some (InThread t);
  c_tnodup t : NoDup (transit (thr t s));
  c_live b : is_Some (live s !! b) <-> own !! b = Some WithClient;
  c_lkind b size : live s !! b = Some size -> live_ok kd s b size;
  c_kind b : is_Some (own !! b) -> is_Some (kd !! b);
  c_null b : is_Some (kd !! b) -> b <> 0;
  c_hdr b k : kd !! b = Some k -> headers s !! b = Some (header_of k) \/ exists t, b ∈ (code (thr t s) ≫= uncarved);
  c_frame t : Forall (frame_ok kd s) (code (thr t s));
  c_stack t : stack_ok (code (thr t s));
  c_ret t : ret_ok kd s (thr t s) }.

(** What a step may do to the memory that the frames of other threads rely on. *)
Definition evolves (own : gmap Z place) (s s1 : state) : Prop :=
  (forall n i c, classes s !! (n, i) = Some c -> exists c', classes s1 !! (n, i) = Some c' /\
    (free_list c' = free_list c \/ tag (free_list c) < tag (free_list c'))) /\
  (forall n, is_Some (allocators s !! n) -> is_Some (allocators s1 !! n)) /\
  (forall b n i, own !! b = Some (InFree n i) -> links s1 !! b = links s !! b).

Lemma class_at_evolves own s s1 n i : evolves own s s1 -> class_at s n i -> class_at s1 n i.
Proof. intros (Hc & Ha & _) ([c Hk] & H2 & H3). destruct (Hc n i c Hk) as (c' & Hk' & _). split_and!; eauto; lia. Qed.
Lemma stale_evolves own s s1 n i e : evolves own s s1 -> stale_ok s n i e -> stale_ok s1 n i e.
Proof.
  intros (Hc & _ & _) (c & Hk & Ht & He). destruct (Hc n i c Hk) as (c' & Hk' & Hf). exists c'. split; [done|].
  destruct Hf as [->|Hf]; [done|]. split; lia.
Qed.

Lemma frame_evolves m own kd kd' free s s1 ins : core m own kd free s -> evolves own s s1 -> frame_ok kd s ins ->
  (forall b, b ∈ held ins -> kd' !! b = kd !! b /\ links s1 !! b = links s !! b) -> frame_ok kd' s1 ins.
Proof.
  intros Hco Hev Hf Hh.
  assert (forall n i, class_at s n i -> class_at s1 n i) as Hat by (intros n i; by apply class_at_evolves with own).
  assert (forall n i e, stale_ok s n i e -> stale_ok s1 n i e) as Hst by (intros n i e; by apply stale_evolves with own).
  assert (forall b n i, b ∈ held ins -> of_class kd b n i -> of_class kd' b n i) as Hkd by (intros b n i Hb H; unfold of_class; by rewrite (proj1 (Hh b Hb))).
  destruct ins; cbn in Hf, Hkd |- *; destr; eauto; try (split_and!; eauto; by apply Hkd; [set_solver|]).
  - (* PopCas *) split_and!; eauto. intros c Hc Hl. destruct Hev as (Hcl & _ & Hli). destruct H0 as (c0 & Hc0 & Ht & He).
    destruct (Hcl n i c0 Hc0) as (c' & Hc' & Hd). rewrite Hc in Hc'. injection Hc' as <-.
    assert (free_list c0 = expected) as E. { destruct Hd as [Hd|Hd]; [congruence|]. rewrite Hl in Hd. lia. }
    pose proof (c_class _ _ _ _ _ Hco n i c0 Hc0) as (_ & _ & _ & Hch). rewrite E in Hch.
    apply chain_head in Hch as (l' & w & Hfr & Hw & _); [|done].
    rewrite (Hli (ptr expected) n i); [eauto|]. apply (c_free _ _ _ _ _ Hco). rewrite Hfr. by left.
  - (* PushCas *) split_and!; eauto; [apply Hkd; [set_solver|done]|]. by rewrite (proj2 (Hh p ltac:(by left))).
  - (* Book *) split_and!; eauto. rewrite Forall_forall in *. intros b Hb. by apply Hkd; [|by apply H1].
  - (* Carve *) split_and!; eauto. rewrite Forall_forall in *. intros b Hb. by apply Hkd; [|by apply H0].
  - (* Large *) by apply Hev.
  - (* Construct *) eapply Forall_impl; [done|]. cbn. intros ni. apply Hat.
Qed.

Lemma ret_evolves own kd kd' s s1 th : evolves own s s1 -> ret_ok kd s th -> (forall b, b ∈ transit th -> kd' !! b = kd !! b) -> ret_ok kd' s1 th.
Proof.
  unfold ret_ok, transit. intros Hev Hr Hk. destruct (ret th) as [|p|]; [done| |done].
  assert (kd' !! p = kd !! p) as E by (apply Hk; set_solver).
  destruct Hr as [(n & i & Hw & Ha & Hc)|(n & size & Hc & Hs & Ha & Hd)]; [left|right].
  - exists n, i. split_and!; [done|by apply class_at_evolves with own s|]. unfold of_class. by rewrite E.
  - exists n, size. split_and!; [done|lia|by apply Hev|congruence].
Qed.

Lemma uncarved_held ins b : b ∈ uncarved ins -> b ∈ held ins.
Proof. destruct ins; cbn; try done; by intros ?%not_elem_of_nil. Qed.
Lemma held_transit th ins b : ins ∈ code th -> b ∈ held ins -> b ∈ transit th.
Proof. intros Hi Hb. unfold transit. apply elem_of_app. left. apply list_elem_of_bind. eauto. Qed.

Section step.
Context (m : Z) (own own' : gmap Z place) (kd kd' : gmap Z kind) (free free' : Z -> Z -> list Z) (t : Z) (s s1 : state) (th' : thread).

(** A step of thread [t] keeps the invariant if it keeps what the others rely on. *)
Lemma core_step : core m own kd free s -> threads s1 = threads s -> evolves own s s1 ->
  (forall n i c, classes s1 !! (n, i) = Some c -> 0 <= i < kNumClasses /\ class_size c = bytes_of i /\ 0 <= tag (free_list c) <= m + 1 /\
    chain (links s1) (ptr (free_list c)) (free' n i)) ->
  (forall n i b, b ∈ free' n i <-> own' !! b = Some (InFree n i)) -> (forall n i, NoDup (free' n i)) -> (forall n i b, b ∈ free' n i -> of_class kd' b n i) ->
  (forall b, b ∈ transit th' <-> own' !! b = Some (InThread t)) -> NoDup (transit th') ->
  (forall t' b, t' <> t -> own' !! b = Some (InThread t') <-> own !! b = Some (InThread t')) ->
  (forall t' b, t' <> t -> own !! b = Some (InThread t') -> kd' !! b = kd !! b /\ links s1 !! b = links s !! b) ->
  (forall b, is_Some (live s1 !! b) <-> own' !! b = Some WithClient) -> (forall b size, live s1 !! b = Some size -> live_ok kd' s1 b size) ->
  (forall b, is_Some (own' !! b) -> is_Some (kd' !! b)) -> (forall b, is_Some (kd' !! b) -> b <> 0) ->
  (forall b k, kd' !! b = Some k -> headers s1 !! b = Some (header_of k) \/ b ∈ (code th' ≫= uncarved) \/ exists t', t' <> t /\ b ∈ (code (thr t' s) ≫= uncarved)) ->
  Forall (frame_ok kd' s1) (code th') -> stack_ok (code th') -> ret_ok kd' s1 th' -> core (m + 1) own' kd' free' (set_thr t th' s1).
Proof.
  intros Hco Hth Hev Hcl Hfr Hfn Hfk Htr Htn Hot Hok Hl Hlk Hk Hn Hh Hfo Hst Hre.
  assert (forall t', thr t' s1 = thr t' s) as Eth by (intros t'; unfold thr; by rewrite Hth).
  assert (forall t' b, t' <> t -> b ∈ transit (thr t' s) -> kd' !! b = kd !! b /\ links s1 !! b = links s !! b) as Hsame.
  { intros t' b Ht' Hb. apply (Hok t'); [done|]. by apply (c_thread _ _ _ _ _ Hco). }
  split; try done.
  - intros t' b. rewrite slab_thr_set, Eth. destruct (decide (t' = t)) as [->|Ht']; [apply Htr|]. rewrite Hot by done. apply (c_thread _ _ _ _ _ Hco).
  - intros t'. rewrite slab_thr_set, Eth. destruct (decide (t' = t)) as [->|Ht']; [done|apply (c_tnodup _ _ _ _ _ Hco)].
  - intros b k Hb. destruct (Hh b k Hb) as [?|[?|(t' & Ht' & ?)]]; [by left|right|right]; [exists t|exists t']; rewrite slab_thr_set.
    + by rewrite decide_True.
    + by rewrite decide_False, Eth.
  - intros t'. rewrite slab_thr_set, Eth. destruct (decide (t' = t)) as [->|Ht']; [done|].
    pose proof (c_frame _ _ _ _ _ Hco t') as Hf. rewrite Forall_forall in *. intros ins Hi.
    apply (frame_evolves m own kd kd' free s s1); [done|done|by apply Hf|]. intros b Hb. apply (Hsame t' b Ht'), (held_transit _ _ _ Hi Hb).
  - intros t'. rewrite slab_thr_set, Eth. destruct (decide (t' = t)) as [->|Ht']; [done|apply (c_stack _ _ _ _ _ Hco)].
  - intros t'. rewrite slab_thr_set, Eth. destruct (decide (t' = t)) as [->|Ht']; [done|].
    apply ret_evolves with own kd s; [done|apply (c_ret _ _ _ _ _ Hco)|]. intros b Hb. by apply (Hsame t').
Qed.

Definition same_classes : Prop := (forall n i, match classes s !! (n, i), classes s1 !! (n, i) with
    | Some c, Some c' => free_list c' = free_list c /\ class_size c' = class_size c
    | None, None => True
    | _, _ => False
    end) /\ (forall n, is_Some (allocators s !! n) -> is_Some (allocators s1 !! n)).

Lemma same_evolves : same_classes -> links s1 = links s -> evolves own s s1.
Proof.
  intros [Hs Ha] Hl. split_and!; [|done|by rewrite Hl]. intros n i c Hc. specialize (Hs n i). rewrite Hc in Hs.
  destruct (classes s1 !! (n, i)) as [c'|]; [|done]. exists c'. destruct Hs as [? _]. auto.
Qed.
Lemma live_evolves b size : evolves own s s1 -> (forall b, is_Some (live s !! b) -> kd' !! b = kd !! b) -> live s !! b = Some size -> live_ok kd s b size -> live_ok kd' s1 b size.
Proof.
  intros Hev Hk Hb (k & H1 & H2 & H3 & H4 & H5). exists k. rewrite Hk by eauto. split_and!; try done; [by apply Hev|].
  destruct H5 as [[H5 H6]|H5]; [left|by right]. split; [by apply class_at_evolves with own s|done].
Qed.
End step.

(** Steps that move no block to another place. *)
Lemma core_quiet m own kd free t s s1 th' : core m own kd free s -> threads s1 = threads s -> same_classes s s1 -> links s1 = links s ->
  headers s1 = headers s -> live s1 = live s -> transit th' ≡ₚ transit (thr t s) -> (code th' ≫= uncarved) = (code (thr t s) ≫= uncarved) ->
  Forall (frame_ok kd s) (code th') -> stack_ok (code th') -> ret_ok kd s th' -> core (m + 1) own kd free (set_thr t th' s1).
Proof.
  intros Hco Hth Hsc Hli Hhd Hlv Htr Hun Hfo Hst Hre. pose proof (same_evolves own s s1 Hsc Hli) as Hev.
  apply (core_step m own own kd kd free free t s s1 th'); try done.
  - intros n i c Hc. destruct Hsc as [Hs _]. specialize (Hs n i). rewrite Hc in Hs. destruct (classes s !! (n, i)) as [c0|] eqn:E; [|done].
    destruct Hs as [-> ->]. rewrite Hli. pose proof (c_class _ _ _ _ _ Hco n i c0 E) as (?&?&?&?). split_and!; try done; lia.
  - apply (c_free _ _ _ _ _ Hco).
  - apply (c_fnodup _ _ _ _ _ Hco).
  - apply (c_fkind _ _ _ _ _ Hco).
  - intros b. rewrite Htr. apply (c_thread _ _ _ _ _ Hco).
  - rewrite Htr. apply (c_tnodup _ _ _ _ _ Hco).
  - intros t' b _ _. by rewrite Hli.
  - rewrite Hlv. apply (c_live _ _ _ _ _ Hco).
  - intros b size Hb. rewrite Hlv in Hb. apply (live_evolves own kd kd s s1 b size Hev); [done|done|by apply (c_lkind _ _ _ _ _ Hco)].
  - apply (c_kind _ _ _ _ _ Hco).
  - apply (c_null _ _ _ _ _ Hco).
  - intros b k Hb. rewrite Hhd. destruct (c_hdr _ _ _ _ _ Hco b k Hb) as [?|[t' Ht']]; [by left|right].
    destruct (decide (t' = t)) as [->|]; [left; by rewrite Hun|right; eauto].
  - eapply Forall_impl; [exact Hfo|]. intros ins Hi. apply (frame_evolves m own kd kd free s s1); [done|done|done|by rewrite Hli].
  - by apply ret_evolves with own kd s.
Qed.

Lemma same_refl s s1 : classes s1 = classes s -> (forall n, is_Some (allocators s !! n) -> is_Some (allocators s1 !! n)) -> same_classes s s1.
Proof. intros E Ha. split; [|done]. intros n i. rewrite E. by destruct (classes s !! (n, i)). Qed.
Lemma same_trans s s1 s2 : same_classes s s1 -> same_classes s1 s2 -> same_classes s s2.
Proof.
  intros [H1 A1] [H2 A2]. split; [|auto]. intros n i. specialize (H1 n i). specialize (H2 n i).
  destruct (classes s !! (n, i)), (classes s1 !! (n, i)), (classes s2 !! (n, i)); try done. destr. split; congruence.
Qed.
Lemma same_set_class n i c c' s : classes s !! (n, i) = Some c -> free_list c' = free_list c -> class_size c' = class_size c -> same_classes s (set_class n i c' s).
Proof.
  intros Hc Hf Hs. split; [|done]. intros n' i'. cbn. destruct (decide ((n', i') = (n, i))) as [[= -> ->]|Hne].
  - by rewrite Hc, lookup_insert_eq.
  - rewrite lookup_insert_ne by congruence. by destruct (classes s !! (n', i')).
Qed.
Lemma same_set_allocator n A s : same_classes s (set_allocator n A s).
Proof. apply same_refl; [done|]. intros n' Hn. cbn. destruct (decide (n' = n)) as [->|]; [rewrite lookup_insert_eq; eauto|by rewrite lookup_insert_ne]. Qed.
Lemma same_note_failure n i r s : same_classes s (note_alloc_failure n i r s).
Proof.
  unfold note_alloc_failure. destruct (allocators s !! n) as [A|]; [|by apply same_refl]. eapply same_trans; [|apply same_set_allocator].
  destruct (classes s !! (n, i)) eqn:E; [|by apply same_refl]. destruct (_ <? _); [|by apply same_refl]. by eapply same_set_class.
Qed.
Lemma same_note_reject n r s : same_classes s (note_dealloc_reject n r s).
Proof. unfold note_dealloc_reject. destruct (allocators s !! n); [apply same_set_allocator|by apply same_refl]. Qed.
Lemma same_shared_header n s : same_classes s (update_shared_memory_header n s).
Proof. unfold update_shared_memory_header. destruct (allocators s !! n); [|by apply same_refl]. destruct (_ =? _); [by apply same_refl|apply same_set_allocator]. Qed.

(** The parts of the state that the notes leave alone. *)
Definition same_rest (s s1 : state) : Prop :=
  threads s1 = threads s /\ links s1 = links s /\ headers s1 = headers s /\ live s1 = live s /\ heap s1 = heap s.
Lemma rest_note_failure n i r s : same_rest s (note_alloc_failure n i r s).
Proof. unfold note_alloc_failure. destruct (allocators s !! n); [|done]. by repeat case_match. Qed.
Lemma rest_note_reject n r s : same_rest s (note_dealloc_reject n r s).
Proof. unfold note_dealloc_reject. by destruct (allocators s !! n). Qed.
Lemma rest_shared_header n s : same_rest s (update_shared_memory_header n s).
Proof. unfold update_shared_memory_header. by repeat case_match. Qed.

Create HintDb slab.
#[export] Hint Resolve same_set_allocator same_note_failure same_note_reject same_shared_header rest_note_failure rest_note_reject rest_shared_header : slab.

(** Only what waits for a result is on top of a thread that has one. *)
Definition waiting (ins : instr) : bool := match ins with AfterFast _ _ | AfterLocked _ _ | AfterGrow _ _ | Unlock _ _ | Deliver _ => true | _ => false end.
Lemma ret_waiting kd s th ins rest : ret_ok kd s th -> code th = ins :: rest -> waiting ins = false -> in_ret (ret th) = [].
Proof.
  unfold ret_ok. intros Hr Hc Hw. destruct (ret th); [done| |done]. rewrite Hc in Hr.
  destruct Hr as [(n & i & H & _)|(n & size & H & _)]; [|by injection H as -> _]. exfalso. by destruct ins.
Qed.
Lemma waits_waiting n i ins l : waits n i (ins :: l) -> waiting ins = true.
Proof. by destruct ins. Qed.

Section quiet.
Context (m : Z) (own : gmap Z place) (kd : gmap Z kind) (free : Z -> Z -> list Z) (t : Z) (s : state) (ins : instr) (rest : list instr).
Hypothesis (Hco : core m own kd free s) (Hcode : code (thr t s) = ins :: rest).

Lemma top_frame : frame_ok kd s ins.
Proof. pose proof (c_frame _ _ _ _ _ Hco t) as H. rewrite Hcode in H. by apply Forall_cons in H as [H _]. Qed.
Lemma rest_frames : Forall (frame_ok kd s) rest.
Proof. pose proof (c_frame _ _ _ _ _ Hco t) as H. rewrite Hcode in H. by apply Forall_cons in H as [_ H]. Qed.
Lemma top_stack : stack_ok (ins :: rest).
Proof. rewrite <- Hcode. apply (c_stack _ _ _ _ _ Hco). Qed.

Lemma core_frames s1 new r o : same_classes s s1 -> same_rest s s1 ->
  (new ≫= held) ++ in_ret r ≡ₚ held ins ++ in_ret (ret (thr t s)) -> (new ≫= uncarved) = uncarved ins ->
  Forall (frame_ok kd s) new -> stack_ok (new ++ rest) -> ret_ok kd s (Thread (new ++ rest) r o) -> core (m + 1) own kd free (set_thr t (Thread (new ++ rest) r o) s1).
Proof.
  intros Hsc (H1 & H2 & H3 & H4 & _) Hh Hu Hf Hs Hr. eapply core_quiet; try done.
  - unfold transit. cbn. rewrite Hcode, bind_app. cbn. rewrite <- !app_assoc, (Permutation_app_comm _ (in_ret _)), app_assoc, Hh.
    rewrite <- !app_assoc. by rewrite (Permutation_app_comm (in_ret _)).
  - cbn. rewrite Hcode, bind_app. cbn. by rewrite Hu.
  - cbn. apply Forall_app. split; [done|apply rest_frames].
Qed.
End quiet.

(** The steps that move no block. *)
Definition steady (ins : instr) : bool :=
  match ins with
  | PopCas _ _ _ _ | PushStore _ _ _ _ | PushCas _ _ _ _ | Obtain _ _ | Carve _ _ _ | Large _ _ | Deliver _ => false
  | _ => true
  end.

Lemma ret_old kd s th ins rest new : ret_ok kd s th -> code th = ins :: rest -> waiting ins = false -> forall o, ret_ok kd s (Thread new (ret th) o).
Proof. intros Hr Hc Hw o. pose proof (ret_waiting _ _ _ _ _ Hr Hc Hw) as H. unfold ret_ok. cbn. by destruct (ret th). Qed.

Lemma ret_after kd s th ins rest n i o : ret_ok kd s th -> code th = ins :: rest -> waiting ins = true -> attempt ins = Some (n, i) ->
  ret_ok kd s (Thread rest (ret th) o) /\ ret_ok kd s (Thread (Unlock n i :: rest) (ret th) o).
Proof.
  unfold ret_ok. cbn. intros Hr Hc Hw Ha. destruct (ret th) as [|p|]; [done| |done]. rewrite Hc in Hr.
  destruct Hr as [(n' & i' & H & Hk)|(n' & size & H & _)]; [|injection H as -> _; by inversion Ha].
  assert (n' = n /\ i' = i /\ waits n i rest) as (-> & -> & Hl) by (destruct ins; try discriminate; destruct H as (-> & -> & H); injection Ha as -> ->; done).
  split; left; exists n, i; [done|]. split; [cbn; done|done].
Qed.

Ltac quiet_tac Hw :=
  match goal with
  | |- same_classes ?s ?s => by apply same_refl
  | |- same_classes _ _ =>
      first [by auto with slab | by eapply same_set_class | by (eapply same_trans; [|solve [auto with slab]]; by eapply same_set_class)
            | by (apply same_refl; [done|auto])]
  | |- same_rest _ _ => first [done | by auto with slab | exact (rest_shared_header _ _)]
  | |- (_ ≫= held) ++ _ ≡ₚ _ => unfold pop_round; try case_match; cbn; rewrite ?Hw, ?app_nil_r; done
  | |- (_ ≫= uncarved) = _ => unfold pop_round; try case_match; cbn; rewrite ?app_nil_r; done
  | |- stack_ok _ => unfold pop_round; try case_match; cbn; by split_and!
  end.

Lemma stale_now s n i c : classes s !! (n, i) = Some c -> stale_ok s n i (free_list c).
Proof. intros H. exists c. split_and!; [done|lia|done]. Qed.
#[export] Hint Resolve stale_now : slab.

Ltac frames_tac := destr; unfold pop_round; try case_match; repeat (apply Forall_cons; split); try apply Forall_nil; cbn; split_and!; eauto with slab.

(** The link read under a head that is still the head is the link of its block. *)
Lemma read_frame m own kd free s n i x : core m own kd free s -> class_at s n i -> stale_ok s n i x -> ptr x <> 0 ->
  frame_ok kd s (PopCas n i x (default 0 (links s !! ptr x))).
Proof.
  intros Hco Ha Hs Hx. cbn. split_and!; [done|done|done|]. intros c Hc <-. pose proof (c_class _ _ _ _ _ Hco n i c Hc) as (_ & _ & _ & Hch).
  apply chain_head in Hch as (l & w & _ & -> & _); done.
Qed.

Lemma pop_round_ok kd s n i c : class_at s n i -> classes s !! (n, i) = Some c -> Forall (frame_ok kd s) (pop_round n i (free_list c)).
Proof. intros Ha Hc. unfold pop_round. destruct (Z.eqb_spec (ptr (free_list c)) 0); [done|]. apply Forall_singleton. cbn. eauto with slab. Qed.
Lemma pop_round_stack n i e rest : waits n i rest -> stack_ok rest -> stack_ok (pop_round n i e ++ rest).
Proof. unfold pop_round. intros Hw Hs. by destruct (ptr e =? 0). Qed.
#[export] Hint Resolve pop_round_ok pop_round_stack : slab.

Lemma steady_step m own kd free t e s ins rest new r s1 o : core m own kd free s -> code (thr t s) = ins :: rest -> steady ins = true ->
  access t e ins (ret (thr t s)) s = Some (new, r, s1) -> core (m + 1) own kd free (set_thr t (Thread (new ++ rest) r o) s1).
Proof.
  intros Hco Hc Hst E. pose proof (top_frame _ _ _ _ _ _ _ _ Hco Hc) as Hf. pose proof (top_stack _ _ _ _ _ _ _ _ Hco Hc) as [Hk Hk'].
  pose proof (c_ret _ _ _ _ _ Hco t) as Hr.
  destruct ins; try discriminate Hst; cbn in Hf, Hk; slab_cases E.
  all: repeat match goal with H : (if ?b then _ else _) = (_, _) |- _ => destruct b eqn:?; injection H as <- <- end.
  all: try (pose proof (ret_waiting _ _ _ _ _ Hr Hc eq_refl) as Hw; try match goal with H : ret _ = Ptr _ |- _ => by rewrite H in Hw end).
  all: try match goal with H : waiting _ = true |- _ => idtac | H : ret _ = _ |- _ => pose proof H as Hret end.
  all: eapply core_frames; try done.
  all: try quiet_tac Hw.
  all: try (by eapply ret_old).
  all: try (by eauto with slab).
  all: try (by apply Forall_singleton; destr; eapply read_frame).
  all: try (by frames_tac).
  all: try (by match goal with H : ret _ = _ |- _ => rewrite H end).
  all: try (by (left; exists n, i; destr)).
  - destruct Hf. apply Forall_singleton. cbn. split_and!; eauto with slab.
  - destruct Hf as (Hf & _ & Hl). by repeat apply Forall_cons_2.
  - destruct Hf as (Hf & _ & Hl). by repeat apply Forall_cons_2.
  - destruct Hf as (Hf & _ & Hl). by repeat apply Forall_cons_2.
  - destruct Hf as (Hf & _ & Hl). by repeat apply Forall_cons_2.
  - rewrite <- Hret. by eapply ret_after in Hr as [? _].
  - rewrite <- Hret. by eapply ret_after in Hr as [_ ?].
  - rewrite <- Hret. by eapply ret_after in Hr as [_ ?].
  - by eapply ret_after in Hr as [? _].
  - apply Forall_cons in Hf as [? ?]. by repeat apply Forall_cons_2.
Qed.
