(* ===== verification/SlabMoves.v ===== *)
(** * The slab allocator: the steps that move a block

    A pop, a push, the link a push writes, the header a carved block gets, the
    delivery to a client, and new memory, each with its effect on the invariant. *)
From S2P Require Import Prelude SlabAllocator SlabInv.

Definition upd (free : Z -> Z -> list Z) (n i : Z) (l : list Z) : Z -> Z -> list Z := fun n' i' => if decide ((n', i') = (n, i)) then l else free n' i'.
Lemma upd_eq free n i l : upd free n i l n i = l.
Proof. unfold upd. by rewrite decide_True. Qed.
Lemma upd_ne free n i l n' i' : (n', i') <> (n, i) -> upd free n i l n' i' = free n' i'.
Proof. intros H. unfold upd. by rewrite decide_False. Qed.

Lemma chain_agree ls ls' p l : (forall b, b ∈ l -> ls' !! b = ls !! b) -> chain ls p l -> chain ls' p l.
Proof.
  revert p. induction l as [|x l IH]; [done|]. intros p Ha (-> & Hz & w & Hw & Hc). split_and!; [done|done|]. exists w.
  split; [rewrite Ha; [done|by left]|]. apply IH; [|done]. intros b Hb. apply Ha. by right.
Qed.

Lemma evolves_class own n i c c' s : classes s !! (n, i) = Some c -> tag (free_list c) < tag (free_list c') -> evolves own s (set_class n i c' s).
Proof.
  intros Hc Ht. split_and!; [|done|done]. intros n' i' c0 H0. cbn. destruct (decide ((n', i') = (n, i))) as [[= -> ->]|Hne].
  - rewrite lookup_insert_eq. exists c'. split; [done|]. right. by rewrite Hc in H0; injection H0 as <-.
  - rewrite lookup_insert_ne by congruence. eauto.
Qed.

(** One block changes its place. *)
Lemma core_move m own kd free free' t s s1 th' p x y : core m own kd free s -> threads s1 = threads s -> evolves own s s1 -> headers s1 = headers s ->
  own !! p = Some x -> (forall t', x = InThread t' \/ y = InThread t' -> t' = t) ->
  (forall n i c, classes s1 !! (n, i) = Some c -> 0 <= i < kNumClasses /\ class_size c = bytes_of i /\ 0 <= tag (free_list c) <= m + 1 /\
    chain (links s1) (ptr (free_list c)) (free' n i)) ->
  (forall n i b, b ∈ free' n i <-> b = p /\ y = InFree n i \/ b <> p /\ b ∈ free n i) -> (forall n i, NoDup (free' n i)) ->
  (forall n i, y = InFree n i -> of_class kd p n i) ->
  (forall b, b ∈ transit th' <-> b = p /\ y = InThread t \/ b <> p /\ b ∈ transit (thr t s)) -> NoDup (transit th') ->
  (forall b, b <> p -> links s1 !! b = links s !! b) ->
  (forall b, b <> p -> live s1 !! b = live s !! b) -> (is_Some (live s1 !! p) <-> y = WithClient) -> (forall size, live s1 !! p = Some size -> live_ok kd s p size) ->
  (code th' ≫= uncarved) = (code (thr t s) ≫= uncarved) ->
  Forall (frame_ok kd s1) (code th') -> stack_ok (code th') -> ret_ok kd s1 th' -> core (m + 1) (<[p := y]> own) kd free' (set_thr t th' s1).
Proof.
  intros Hco Hth Hev Hhd Hp Hxy Hcl Hfr Hfn Hfk Htr Htn Hli Hlv Hlp Hlo Hun Hfo Hst Hre.
  apply core_step with own kd free s; try done.
  - intros n i b. rewrite Hfr. destruct (decide (b = p)) as [->|Hb].
    + rewrite lookup_insert_eq. split; [intros [[_ ->]|[? _]]; done|intros [= ->]; by left].
    + rewrite lookup_insert_ne, <- (c_free _ _ _ _ _ Hco) by done. tauto.
  - intros n i b [[-> Hy]|[_ Hb]]%Hfr; [by apply Hfk|by apply (c_fkind _ _ _ _ _ Hco)].
  - intros b. rewrite Htr. destruct (decide (b = p)) as [->|Hb].
    + rewrite lookup_insert_eq. split; [intros [[_ ->]|[? _]]; done|intros [= ->]; by left].
    + rewrite lookup_insert_ne, <- (c_thread _ _ _ _ _ Hco) by done. tauto.
  - intros t' b Ht'. destruct (decide (b = p)) as [->|Hb]; [|by rewrite lookup_insert_ne].
    rewrite lookup_insert_eq, Hp. split; intros [= ->]; exfalso; apply Ht', Hxy; auto.
  - intros t' b Ht' Hb. split; [done|]. apply Hli. intros ->. rewrite Hp in Hb. injection Hb as ->. apply Ht', Hxy. by left.
  - intros b. destruct (decide (b = p)) as [->|Hb].
    + rewrite lookup_insert_eq, Hlp. split; [by intros ->|by intros [= ->]].
    + rewrite lookup_insert_ne, Hlv by done. apply (c_live _ _ _ _ _ Hco).
  - intros b size Hb. destruct (decide (b = p)) as [->|Hne].
    + destruct (Hlo size Hb) as (k & H1 & H2 & H3 & H4 & H5). exists k. split_and!; try done; [by apply Hev|].
      destruct H5 as [[? ?]|?]; [left|by right]. split; [by apply class_at_evolves with own s|done].
    + rewrite Hlv in Hb by done. by apply (live_evolves own kd kd s s1 b size Hev); [|done|apply (c_lkind _ _ _ _ _ Hco)].
  - intros b Hb. apply (c_kind _ _ _ _ _ Hco). destruct (decide (b = p)) as [->|Hne]; [eauto|by rewrite lookup_insert_ne in Hb].
  - apply (c_null _ _ _ _ _ Hco).
  - intros b k Hb. rewrite Hhd, Hun. destruct (c_hdr _ _ _ _ _ Hco b k Hb) as [?|[t' ?]]; [by left|right]. destruct (decide (t' = t)) as [->|]; eauto.
Qed.

Section moves.
Context (m : Z) (own : gmap Z place) (kd : gmap Z kind) (free : Z -> Z -> list Z) (t : Z) (s : state) (ins : instr) (rest : list instr) (o : result).
Hypothesis (Hco : core m own kd free s) (Hcode : code (thr t s) = ins :: rest).

Lemma transit_top : transit (thr t s) = held ins ++ (rest ≫= held) ++ in_ret (ret (thr t s)).
Proof. unfold transit. rewrite Hcode. cbn. by rewrite app_assoc. Qed.
Lemma held_own b : b ∈ held ins -> own !! b = Some (InThread t).
Proof. intros Hb. apply (c_thread _ _ _ _ _ Hco). rewrite transit_top. apply elem_of_app. by left. Qed.
Lemma held_once b : b ∈ held ins -> b ∉ (rest ≫= held) /\ b ∉ in_ret (ret (thr t s)).
Proof.
  intros Hb. pose proof (c_tnodup _ _ _ _ _ Hco t) as Hn. rewrite transit_top in Hn. apply NoDup_app in Hn as (_ & Hn & _).
  specialize (Hn b Hb). rewrite elem_of_app in Hn. tauto.
Qed.
Lemma rest_transit b : b ∈ (rest ≫= held) -> own !! b = Some (InThread t).
Proof. intros Hb. apply (c_thread _ _ _ _ _ Hco). rewrite transit_top. set_solver. Qed.

Lemma rest_evolves own0 kd' s1 : own0 = own -> evolves own0 s s1 -> (forall b, b ∈ (rest ≫= held) -> kd' !! b = kd !! b /\ links s1 !! b = links s !! b) ->
  Forall (frame_ok kd' s1) rest.
Proof.
  intros -> Hev Hh. pose proof (rest_frames _ _ _ _ _ _ _ _ Hco Hcode) as Hr. rewrite Forall_forall in *. intros x Hx.
  apply (frame_evolves m own kd kd' free s s1); [done|done|by apply Hr|]. intros b Hb. apply Hh, list_elem_of_bind. eauto.
Qed.
Lemma hdr_others b k : kd !! b = Some k -> headers s !! b = Some (header_of k) \/ b ∈ (code (thr t s) ≫= uncarved) \/ exists t', t' <> t /\ b ∈ (code (thr t' s) ≫= uncarved).
Proof.
  intros Hb. destruct (c_hdr _ _ _ _ _ Hco b k Hb) as [?|[t' Ht']]; [by left|right]. destruct (decide (t' = t)) as [->|]; eauto.
Qed.

Lemma class_of_top n i c : classes s !! (n, i) = Some c -> 0 <= i < kNumClasses /\ class_size c = bytes_of i /\ 0 <= tag (free_list c) <= m /\ chain (links s) (ptr (free_list c)) (free n i).
Proof. apply (c_class _ _ _ _ _ Hco). Qed.

(** The classes after the head of one of them has changed. *)
Lemma classes_after n i c f l : classes s !! (n, i) = Some c -> 0 <= tag f <= m + 1 -> chain (links s) (ptr f) l ->
  forall n' i' c', classes (set_class n i (with_free_list f c) s) !! (n', i') = Some c' ->
    0 <= i' < kNumClasses /\ class_size c' = bytes_of i' /\ 0 <= tag (free_list c') <= m + 1 /\ chain (links s) (ptr (free_list c')) (upd free n i l n' i').
Proof.
  intros Hc Ht Hl n' i' c' H. cbn in H. destruct (decide ((n', i') = (n, i))) as [[= -> ->]|Hne].
  - rewrite lookup_insert_eq in H. injection H as <-. rewrite upd_eq. cbn. pose proof (class_of_top n i c Hc) as (?&?&_). done.
  - rewrite lookup_insert_ne in H by congruence. rewrite upd_ne by done. pose proof (class_of_top n' i' c' H) as (?&?&?&?). split_and!; try done; lia.
Qed.

(** A pop that wins takes the head off the list. *)
Lemma pop_step n i e next c : ins = PopCas n i e next -> classes s !! (n, i) = Some c -> free_list c = e -> m + 1 < 2 ^ 32 ->
  exists own' free', core (m + 1) own' kd free' (set_thr t (Thread (PopCount n i (ptr e) :: rest) (ret (thr t s)) o)
    (set_class n i (with_free_list (Tagged next (u32 (tag e + 1))) c) s)).
Proof.
  intros Ei Hc He Hm. pose proof (top_frame _ _ _ _ _ _ _ _ Hco Hcode) as Hf. rewrite Ei in Hf. destruct Hf as (Ha & _ & Hz & Hn). specialize (Hn c Hc He).
  destruct (class_of_top n i c Hc) as (Hi & Hs & Ht & Hch). rewrite He in Ht, Hch.
  apply chain_head in Hch as (l & w & Hl & Hw & Hch); [|done]. assert (w = next) as -> by congruence.
  assert (u32 (tag e + 1) = tag e + 1) as Eu by (unfold wrap; rewrite Z.mod_small; lia).
  pose proof (c_free _ _ _ _ _ Hco n i) as Hin. pose proof (c_fnodup _ _ _ _ _ Hco n i) as Hnd. rewrite Hl in Hin, Hnd. apply NoDup_cons in Hnd as [Hnl Hnd].
  assert (own !! ptr e = Some (InFree n i)) as Hown by (apply Hin; by left).
  pose proof (top_stack _ _ _ _ _ _ _ _ Hco Hcode) as [Hk Hk']. rewrite Ei in Hk. cbn in Hk.
  pose proof (ret_waiting _ _ _ _ _ (c_ret _ _ _ _ _ Hco t) Hcode ltac:(by rewrite Ei)) as Hret.
  set (s1 := set_class n i (with_free_list (Tagged next (u32 (tag e + 1))) c) s).
  assert (evolves own s s1) as Hev by (apply evolves_class with c; [done|cbn; rewrite Eu, He; lia]).
  exists (<[ptr e := InThread t]> own), (upd free n i l).
  assert (ptr e ∉ transit (thr t s)) as Hnt by (rewrite (c_thread _ _ _ _ _ Hco); congruence).
  rewrite transit_top, Ei in Hnt. cbn in Hnt.
  apply core_move with free s (InFree n i); try done.
  - naive_solver.
  - apply classes_after; cbn; [done|rewrite Eu; lia|done].
  - intros n' i' b. destruct (decide ((n', i') = (n, i))) as [[= -> ->]|Hne].
    + rewrite upd_eq, Hl, elem_of_cons. destruct (decide (b = ptr e)) as [->|]; naive_solver.
    + rewrite upd_ne by done. destruct (decide (b = ptr e)) as [->|]; [|naive_solver]. rewrite (c_free _ _ _ _ _ Hco n' i'), Hown. naive_solver.
  - intros n' i'. destruct (decide ((n', i') = (n, i))) as [[= -> ->]|Hne]; [by rewrite upd_eq|]. rewrite upd_ne by done. apply (c_fnodup _ _ _ _ _ Hco).
  - intros b. rewrite transit_top, Ei. unfold transit. cbn. rewrite elem_of_cons. destruct (decide (b = ptr e)) as [->|]; naive_solver.
  - pose proof (c_tnodup _ _ _ _ _ Hco t) as Htn. rewrite transit_top, Ei in Htn. unfold transit. by apply NoDup_cons_2.
  - split; [|done]. intros H%(c_live _ _ _ _ _ Hco). congruence.
  - intros size H. exfalso. assert (own !! ptr e = Some WithClient) by (apply (c_live _ _ _ _ _ Hco); eauto). congruence.
  - rewrite Hcode, Ei. done.
  - apply Forall_cons_2; [|by apply rest_evolves with own]. split; [by apply class_at_evolves with own s|]. apply (c_fkind _ _ _ _ _ Hco). rewrite Hl. by left.
  - unfold ret_ok. cbn. by destruct (ret (thr t s)).
Qed.

(** A push that wins puts its block in front. *)
Lemma push_step n i p e c : ins = PushCas n i p e -> classes s !! (n, i) = Some c -> free_list c = e -> m + 1 < 2 ^ 32 ->
  exists own' free', core (m + 1) own' kd free' (set_thr t (Thread (PushCount n i :: rest) (ret (thr t s)) o)
    (set_class n i (with_free_list (Tagged p (u32 (tag e + 1))) c) s)).
Proof.
  intros Ei Hc He Hm. pose proof (top_frame _ _ _ _ _ _ _ _ Hco Hcode) as Hf. rewrite Ei in Hf. destruct Hf as (Ha & Hp & _ & Hlp).
  destruct (class_of_top n i c Hc) as (Hi & Hs & Ht & Hch). rewrite He in Ht, Hch.
  assert (u32 (tag e + 1) = tag e + 1) as Eu by (unfold wrap; rewrite Z.mod_small; lia).
  assert (own !! p = Some (InThread t)) as Hown by (apply held_own; rewrite Ei; by left).
  destruct (held_once p ltac:(rewrite Ei; by left)) as [Hnr Hnp].
  assert (forall n' i', p ∉ free n' i') as Hnf by (intros n' i'; rewrite (c_free _ _ _ _ _ Hco); congruence).
  pose proof (top_stack _ _ _ _ _ _ _ _ Hco Hcode) as [_ Hk'].
  pose proof (ret_waiting _ _ _ _ _ (c_ret _ _ _ _ _ Hco t) Hcode ltac:(by rewrite Ei)) as Hret.
  set (s1 := set_class n i (with_free_list (Tagged p (u32 (tag e + 1))) c) s).
  assert (evolves own s s1) as Hev by (apply evolves_class with c; [done|cbn; rewrite Eu, He; lia]).
  exists (<[p := InFree n i]> own), (upd free n i (p :: free n i)).
  apply core_move with free s (InThread t); try done.
  - naive_solver.
  - apply classes_after; cbn; [done|rewrite Eu; lia|]. split_and!; [done| |eauto]. apply (c_null _ _ _ _ _ Hco). rewrite Hp. eauto.
  - intros n' i' b. destruct (decide ((n', i') = (n, i))) as [[= -> ->]|Hne].
    + rewrite upd_eq, elem_of_cons. destruct (decide (b = p)) as [->|]; naive_solver.
    + rewrite upd_ne by done. destruct (decide (b = p)) as [->|]; naive_solver.
  - intros n' i'. destruct (decide ((n', i') = (n, i))) as [[= -> ->]|Hne]; [rewrite upd_eq; apply NoDup_cons_2; [done|]|rewrite upd_ne by done]; apply (c_fnodup _ _ _ _ _ Hco).
  - by intros ? ? [= <- <-].
  - intros b. rewrite transit_top, Ei. unfold transit. cbn. rewrite elem_of_cons. destruct (decide (b = p)) as [->|]; [|naive_solver].
    rewrite elem_of_app. naive_solver.
  - pose proof (c_tnodup _ _ _ _ _ Hco t) as Htn. rewrite transit_top, Ei in Htn. by apply NoDup_cons in Htn as [_ Htn].
  - split; [|done]. intros H%(c_live _ _ _ _ _ Hco). congruence.
  - intros size H. exfalso. assert (own !! p = Some WithClient) by (apply (c_live _ _ _ _ _ Hco); eauto). congruence.
  - by rewrite Hcode, Ei, ?Hrest.
  - apply Forall_cons_2; [by apply class_at_evolves with own s|by apply rest_evolves with own].
  - unfold ret_ok. cbn. by destruct (ret (thr t s)).
Qed.

(** The result of an allocation goes to the client. *)
Lemma deliver_step size p : ins = Deliver size -> ret (thr t s) = Ptr p ->
  exists own', core (m + 1) own' kd free (set_thr t (Thread rest Null o) (set_live (<[p := size]> (live s)) s)).
Proof.
  intros Ei Er. pose proof (c_ret _ _ _ _ _ Hco t) as Hr. unfold ret_ok in Hr. rewrite Er, Hcode, Ei in Hr.
  assert (rest = [] /\ live_ok kd s p size) as [Hrest Hlo].
  { destruct Hr as [(n & i & Hw & (Ha & Hb & Hi) & Hp)|(n & size' & Hd & Hz & Ha & Hp)].
    - cbn in Hw. destruct rest; [|done]. split; [done|]. eexists. split; [exact Hp|]. cbn. split_and!; try lia; try done; by left.
    - injection Hd as -> ->. split; [done|]. eexists. split; [exact Hp|]. cbn. split_and!; try lia; try done; by right. }
  assert (transit (thr t s) = [p]) as Htr by (rewrite transit_top, Ei, Er, Hrest; done).
  assert (own !! p = Some (InThread t)) as Hown by (apply (c_thread _ _ _ _ _ Hco); rewrite Htr; by left).
  rewrite Hrest. exists (<[p := WithClient]> own). apply core_move with free s (InThread t); try done.
  - split_and!; eauto.
  - naive_solver.
  - intros n i c Hc. destruct (class_of_top n i c Hc) as (?&?&?&?). split_and!; try done; lia.
  - intros n i b. destruct (decide (b = p)) as [->|]; [|naive_solver]. rewrite (c_free _ _ _ _ _ Hco), Hown. naive_solver.
  - apply (c_fnodup _ _ _ _ _ Hco).
  - intros b. rewrite Htr. unfold transit. cbn. rewrite list_elem_of_singleton. split; [by intros ?%not_elem_of_nil|naive_solver].
  - apply NoDup_nil_2.
  - intros b Hb. cbn. by rewrite lookup_insert_ne.
  - cbn. rewrite lookup_insert_eq. split; eauto.
  - intros z. cbn. rewrite lookup_insert_eq. by intros [= <-].
  - by rewrite Hcode, Ei, ?Hrest.
Qed.

(** The link that a push writes, and the header that carving writes. *)
Lemma link_step n i p e : ins = PushStore n i p e ->
  core (m + 1) own kd free (set_thr t (Thread (PushCas n i p e :: rest) (ret (thr t s)) o) (set_link p (ptr e) s)).
Proof.
  intros Ei. pose proof (top_frame _ _ _ _ _ _ _ _ Hco Hcode) as Hf. rewrite Ei in Hf. destruct Hf as (Ha & Hp & Hst).
  assert (own !! p = Some (InThread t)) as Hown by (apply held_own; rewrite Ei; by left).
  destruct (held_once p ltac:(rewrite Ei; by left)) as [Hnr Hnp].
  pose proof (top_stack _ _ _ _ _ _ _ _ Hco Hcode) as [_ Hk'].
  pose proof (ret_waiting _ _ _ _ _ (c_ret _ _ _ _ _ Hco t) Hcode ltac:(by rewrite Ei)) as Hret.
  assert (evolves own s (set_link p (ptr e) s)) as Hev.
  { split_and!; [eauto|done|]. intros b n' i' Hb. cbn. rewrite lookup_insert_ne; [done|congruence]. }
  apply core_step with own kd free s; try done; try apply Hco.
  - intros n' i' c Hc. destruct (class_of_top n' i' c Hc) as (?&?&?&?). split_and!; try done; try lia. apply chain_insert; [|done].
    rewrite (c_free _ _ _ _ _ Hco). congruence.
  - intros b. rewrite <- (c_thread _ _ _ _ _ Hco), transit_top, Ei. unfold transit. done.
  - pose proof (c_tnodup _ _ _ _ _ Hco t) as Htn. rewrite transit_top, Ei in Htn. done.
  - intros t' b Ht' Hb. split; [done|]. cbn. rewrite lookup_insert_ne; [done|congruence].
  - intros b k Hb. pose proof (hdr_others b k Hb) as H. by rewrite Hcode, Ei in H.
  - apply Forall_cons_2.
    + split_and!; [done|done|by apply stale_evolves with own s|]. cbn. by rewrite lookup_insert_eq.
    + apply rest_evolves with own; [done|done|]. intros b Hb. split; [done|]. cbn. rewrite lookup_insert_ne; [done|congruence].
  - unfold ret_ok. cbn. by destruct (ret (thr t s)).
Qed.

Lemma header_step n i p l c : ins = Carve n i (p :: l) -> classes s !! (n, i) = Some c ->
  core (m + 1) own kd free (set_thr t (Thread (PushLoad n i p :: Carve n i l :: rest) (ret (thr t s)) o) (set_header p (Header kBlockMagic (payload_capacity c) i n) s)).
Proof.
  intros Ei Hc. pose proof (top_frame _ _ _ _ _ _ _ _ Hco Hcode) as Hf. rewrite Ei in Hf. destruct Hf as (Ha & Hl). apply Forall_cons in Hl as [Hp Hl].
  destruct (class_of_top n i c Hc) as (Hi & Hs & _ & _).
  assert (Header kBlockMagic (payload_capacity c) i n = header_of (Kind n i (bytes_of i))) as Eh.
  { unfold header_of, payload_capacity. cbn. unfold kNumClasses in Hi. rewrite (proj2 (Z.eqb_neq i kLargeClassIndex)) by (unfold kLargeClassIndex; lia).
    f_equal. rewrite Hs. unfold wrap. apply Z.mod_small. unfold bytes_of, kMinClassSize, kBlockHeaderSize. assert (1 <= 2 ^ i <= 2 ^ 10); [|lia].
    split; [apply (Z.pow_le_mono_r 2 0); lia|apply Z.pow_le_mono_r; lia]. }
  pose proof (top_stack _ _ _ _ _ _ _ _ Hco Hcode) as [_ Hk'].
  pose proof (ret_waiting _ _ _ _ _ (c_ret _ _ _ _ _ Hco t) Hcode ltac:(by rewrite Ei)) as Hret.
  assert (evolves own s (set_header p (Header kBlockMagic (payload_capacity c) i n) s)) as Hev by (split_and!; eauto).
  apply core_step with own kd free s; try done; try apply Hco.
  - intros n' i' c' Hc'. destruct (class_of_top n' i' c' Hc') as (?&?&?&?). split_and!; try done; lia.
  - intros b. rewrite <- (c_thread _ _ _ _ _ Hco), transit_top, Ei. unfold transit. cbn. by rewrite app_assoc.
  - pose proof (c_tnodup _ _ _ _ _ Hco t) as Htn. rewrite transit_top, Ei in Htn. unfold transit. cbn. by rewrite <- app_assoc.
  - intros b k Hb. cbn. destruct (decide (b = p)) as [->|Hne].
    + left. rewrite lookup_insert_eq, Eh. unfold of_class in Hp. congruence.
    + rewrite lookup_insert_ne by done. destruct (hdr_others b k Hb) as [?|[H|?]]; [by left|right; left|right; by right].
      rewrite Hcode, Ei in H. cbn in H. rewrite elem_of_cons in H. naive_solver.
  - repeat apply Forall_cons_2; [done|done|]. by apply rest_evolves with own.
  - unfold ret_ok. cbn. by destruct (ret (thr t s)).
Qed.
End moves.

(** * New blocks, and blocks that go away *)

Definition add {A} (l : list Z) (x : A) (M : gmap Z A) : gmap Z A := foldr (fun b => insert b x) M l.
Lemma lookup_add {A} l (x : A) M b : add l x M !! b = if decide (b ∈ l) then Some x else M !! b.
Proof.
  unfold add. induction l as [|a l IH]; cbn; [by rewrite decide_False by apply not_elem_of_nil|]. destruct (decide (b = a)) as [->|Hne].
  - rewrite lookup_insert_eq, decide_True by left. done.
  - rewrite lookup_insert_ne, IH by done. destruct (decide (b ∈ l)); [by rewrite decide_True by (by right)|].
    rewrite decide_False; [done|]. by intros [?|?]%elem_of_cons.
Qed.

Lemma core_grow m own kd free t s s1 th' l k : core m own kd free s -> threads s1 = threads s -> same_classes s s1 -> links s1 = links s -> live s1 = live s ->
  NoDup l -> (forall b, b ∈ l -> kd !! b = None /\ b <> 0) -> transit th' ≡ₚ l ++ transit (thr t s) ->
  (forall b, b ∉ l -> headers s1 !! b = headers s !! b) -> (forall b, b ∈ l -> headers s1 !! b = Some (header_of k) \/ b ∈ (code th' ≫= uncarved)) ->
  (forall b, b ∈ (code (thr t s) ≫= uncarved) -> b ∈ (code th' ≫= uncarved)) ->
  Forall (frame_ok (add l k kd) s1) (code th') -> stack_ok (code th') -> ret_ok (add l k kd) s1 th' ->
  core (m + 1) (add l (InThread t) own) (add l k kd) free (set_thr t th' s1).
Proof.
  intros Hco Hth Hsc Hli Hlv Hnl Hl Htr Hh Hhl Hun Hfo Hst Hre. pose proof (same_evolves own s s1 Hsc Hli) as Hev.
  assert (forall b, b ∈ l -> own !! b = None) as Hlo.
  { intros b Hb. apply eq_None_not_Some. intros H%(c_kind _ _ _ _ _ Hco). rewrite (proj1 (Hl b Hb)) in H. by apply is_Some_None in H. }
  assert (forall b x, own !! b = Some x -> b ∉ l) as Hnot by (intros b x Hb Hin; rewrite Hlo in Hb; done).
  assert (forall b x, own !! b = Some x -> add l k kd !! b = kd !! b) as Hkd by (intros b x Hb; rewrite lookup_add, decide_False; eauto).
  apply core_step with own kd free s; try done.
  - intros n i c Hc. destruct Hsc as [Hs _]. specialize (Hs n i). rewrite Hc in Hs. destruct (classes s !! (n, i)) as [c0|] eqn:E; [|done].
    destruct Hs as [-> ->]. rewrite Hli. pose proof (c_class _ _ _ _ _ Hco n i c0 E) as (?&?&?&?). split_and!; try done; lia.
  - intros n i b. rewrite lookup_add. rewrite (c_free _ _ _ _ _ Hco). destruct (decide (b ∈ l)) as [H|]; [rewrite Hlo by done|]; done.
  - apply (c_fnodup _ _ _ _ _ Hco).
  - intros n i b Hb. unfold of_class. rewrite (Hkd b (InFree n i)); [by apply (c_fkind _ _ _ _ _ Hco)|by apply (c_free _ _ _ _ _ Hco)].
  - intros b. rewrite Htr, elem_of_app, (c_thread _ _ _ _ _ Hco), lookup_add. destruct (decide (b ∈ l)) as [H|]; [tauto|]. tauto.
  - rewrite Htr. apply NoDup_app. split_and!; [done| |apply (c_tnodup _ _ _ _ _ Hco)]. intros b Hb Ht. apply (c_thread _ _ _ _ _ Hco) in Ht. by eapply Hnot.
  - intros t' b Ht'. rewrite lookup_add. destruct (decide (b ∈ l)) as [H|]; [|done]. rewrite Hlo by done. split; [congruence|done].
  - intros t' b Ht' Hb. rewrite Hli. split; [by eapply Hkd|done].
  - intros b. rewrite Hlv, (c_live _ _ _ _ _ Hco), lookup_add. destruct (decide (b ∈ l)) as [H|]; [rewrite Hlo by done|]; done.
  - intros b size Hb. rewrite Hlv in Hb. apply (live_evolves own kd _ s s1 b size Hev); [|done|by apply (c_lkind _ _ _ _ _ Hco)].
    intros b0 H0. apply (Hkd b0 WithClient). by apply (c_live _ _ _ _ _ Hco).
  - intros b. rewrite !lookup_add. destruct (decide (b ∈ l)); [eauto|]. apply (c_kind _ _ _ _ _ Hco).
  - intros b. rewrite lookup_add. destruct (decide (b ∈ l)) as [H|]; [intros _; by apply Hl|]. apply (c_null _ _ _ _ _ Hco).
  - intros b k0. rewrite lookup_add. destruct (decide (b ∈ l)) as [H|H].
    + intros [= <-]. destruct (Hhl b H); auto.
    + intros Hb. rewrite Hh by done. destruct (c_hdr _ _ _ _ _ Hco b k0 Hb) as [?|[t' ?]]; [by left|right]. destruct (decide (t' = t)) as [->|]; eauto.
Qed.

(** The threads matter only through what each of them does. *)
Lemma core_threads m own kd free s s' : (forall t, thr t s' = thr t s) -> classes s' = classes s -> allocators s' = allocators s -> links s' = links s ->
  headers s' = headers s -> live s' = live s -> core m own kd free s -> core m own kd free s'.
Proof.
  destruct s, s'. cbn. intros Ht -> -> -> -> -> Hco.
  split; cbn; try apply Hco; try (intros t; rewrite Ht; apply Hco).
  intros b k Hb. destruct (c_hdr _ _ _ _ _ Hco b k Hb) as [?|[t ?]]; [by left|right]. exists t. by rewrite Ht.
Qed.
Lemma core_same_thread m own kd free t s1 : core m own kd free (set_thr t (thr t s1) s1) -> core m own kd free s1.
Proof. apply core_threads; try done. intros t'. rewrite slab_thr_set. by destruct (decide (t' = t)) as [->|]. Qed.

Section idle.
Context (m : Z) (own : gmap Z place) (kd : gmap Z kind) (free : Z -> Z -> list Z) (t : Z) (s : state).
Hypothesis (Hco : core m own kd free s) (Hcode : code (thr t s) = []).

Lemma idle_ret : in_ret (ret (thr t s)) = [].
Proof.
  pose proof (c_ret _ _ _ _ _ Hco t) as Hr. unfold ret_ok in Hr. rewrite Hcode in Hr. destruct (ret (thr t s)); [done| |done].
  by destruct Hr as [(n & i & [] & _)|(n & z & ? & _)].
Qed.
Lemma idle_transit : transit (thr t s) = [].
Proof. unfold transit. by rewrite Hcode, idle_ret. Qed.

(** A call that starts with code that holds no block. *)
Lemma start_step l o s1 : same_classes s s1 -> same_rest s s1 -> (l ≫= held) = [] -> (l ≫= uncarved) = [] -> Forall (frame_ok kd s) l -> stack_ok l ->
  core (m + 1) own kd free (set_thr t (Thread l Null o) s1).
Proof.
  intros Hs (H1 & H2 & H3 & H4 & _) Hh Hu Hf Hst. eapply core_quiet; try done.
  - rewrite idle_transit. unfold transit. cbn. by rewrite Hh.
  - cbn. by rewrite Hcode, Hu.
Qed.

(** A client gives a block up to a thread that frees it. *)
Lemma give_up_step p l o s1 : same_classes s s1 -> links s1 = links s -> headers s1 = headers s -> threads s1 = threads s -> live s1 = delete p (live s) ->
  is_Some (live s !! p) -> (l ≫= held) = [p] -> (l ≫= uncarved) = [] ->
  Forall (frame_ok kd s) l -> stack_ok l -> core (m + 1) (<[p := InThread t]> own) kd free (set_thr t (Thread l Null o) s1).
Proof.
  intros Hsc Hli Hhd Hth Hlv Hp Hy Hu Hf Hst. pose proof (same_evolves own s s1 Hsc Hli) as Hev.
  assert (own !! p = Some WithClient) as Hown by by apply (c_live _ _ _ _ _ Hco).
  apply core_move with free s WithClient; try done.
  - naive_solver.
  - intros n i c Hc. destruct Hsc as [Hs _]. specialize (Hs n i). rewrite Hc in Hs. destruct (classes s !! (n, i)) as [c0|] eqn:E; [|done].
    destruct Hs as [-> ->]. rewrite Hli. pose proof (c_class _ _ _ _ _ Hco n i c0 E) as (?&?&?&?). split_and!; try done; lia.
  - intros n i b. destruct (decide (b = p)) as [->|]; [|naive_solver]. rewrite (c_free _ _ _ _ _ Hco), Hown. naive_solver.
  - apply (c_fnodup _ _ _ _ _ Hco).
  - intros b. rewrite idle_transit. unfold transit. cbn. rewrite app_nil_r. rewrite Hy, list_elem_of_singleton. set_solver.
  - unfold transit. cbn. rewrite app_nil_r. rewrite Hy. apply NoDup_singleton.
  - by rewrite Hli.
  - intros b Hb. by rewrite Hlv, lookup_delete_ne.
  - rewrite Hlv, lookup_delete_eq. split; [by intros ?%is_Some_None|naive_solver].
  - intros z. by rewrite Hlv, lookup_delete_eq.
  - cbn. by rewrite Hcode, Hu.
  - eapply Forall_impl; [exact Hf|]. intros ins Hi. apply (frame_evolves m own kd kd free s s1); [done|done|done|by rewrite Hli].
Qed.

(** A large block goes back to the system. *)
Lemma drop_step p o s1 : same_classes s s1 -> links s1 = links s -> headers s1 = headers s -> threads s1 = threads s -> live s1 = delete p (live s) ->
  is_Some (live s !! p) -> core (m + 1) (delete p own) (delete p kd) free (set_thr t (Thread [] Null o) s1).
Proof.
  intros Hsc Hli Hhd Hth Hlv Hp. pose proof (same_evolves own s s1 Hsc Hli) as Hev.
  assert (own !! p = Some WithClient) as Hown by by apply (c_live _ _ _ _ _ Hco).
  assert (forall b x, own !! b = Some x -> x <> WithClient -> delete p own !! b = own !! b /\ delete p kd !! b = kd !! b) as Hne.
  { intros b x Hb Hx. rewrite !lookup_delete_ne; [done|congruence|congruence]. }
  assert (forall b x, x <> WithClient -> delete p own !! b = Some x <-> own !! b = Some x) as Hdel.
  { intros b x Hx. destruct (decide (b = p)) as [->|]; [rewrite lookup_delete_eq, Hown|by rewrite lookup_delete_ne]. split; congruence. }
  apply core_step with own kd free s; try done.
  - intros n i c Hc. destruct Hsc as [Hs _]. specialize (Hs n i). rewrite Hc in Hs. destruct (classes s !! (n, i)) as [c0|] eqn:E; [|done].
    destruct Hs as [-> ->]. rewrite Hli. pose proof (c_class _ _ _ _ _ Hco n i c0 E) as (?&?&?&?). split_and!; try done; lia.
  - intros n i b. rewrite (c_free _ _ _ _ _ Hco). symmetry. by apply Hdel.
  - apply (c_fnodup _ _ _ _ _ Hco).
  - intros n i b Hb. unfold of_class. rewrite (proj2 (Hne b (InFree n i) ltac:(by apply (c_free _ _ _ _ _ Hco)) ltac:(done))). by apply (c_fkind _ _ _ _ _ Hco).
  - intros b. rewrite Hdel, <- (c_thread _ _ _ _ _ Hco), idle_transit by done. done.
  - apply NoDup_nil_2.
  - intros t' b _. by apply Hdel.
  - intros t' b _ Hb. rewrite Hli. split; [by apply (Hne b (InThread t'))|done].
  - intros b. rewrite Hlv. destruct (decide (b = p)) as [->|]; [|rewrite !lookup_delete_ne by done; apply (c_live _ _ _ _ _ Hco)].
    rewrite !lookup_delete_eq. split; [by intros ?%is_Some_None|done].
  - intros b size Hb. rewrite Hlv in Hb. destruct (decide (b = p)) as [->|Hbp]; [by rewrite lookup_delete_eq in Hb|]. rewrite lookup_delete_ne in Hb by done.
    destruct (live_evolves own kd kd s s1 b size Hev ltac:(done) Hb (c_lkind _ _ _ _ _ Hco b size Hb)) as (k & Hk & H). exists k. by rewrite lookup_delete_ne.
  - intros b. destruct (decide (b = p)) as [->|]; [rewrite lookup_delete_eq; by intros ?%is_Some_None|]. rewrite !lookup_delete_ne by done. apply (c_kind _ _ _ _ _ Hco).
  - intros b [k Hb]. apply lookup_delete_Some in Hb as [_ Hb]. apply (c_null _ _ _ _ _ Hco). eauto.
  - intros b k Hb. apply lookup_delete_Some in Hb as [_ Hb]. rewrite Hhd. destruct (c_hdr _ _ _ _ _ Hco b k Hb) as [?|[t' Ht']]; [by left|].
    destruct (decide (t' = t)) as [->|]; [by rewrite Hcode in Ht'; apply not_elem_of_nil in Ht'|eauto].
Qed.
End idle.

(** What clients do to their own memory, and the setters. *)
Lemma core_calm m own kd free s s1 : core m own kd free s -> threads s1 = threads s -> evolves own s s1 -> same_classes s s1 ->
  (forall b, own !! b <> Some WithClient -> links s1 !! b = links s !! b) -> (forall b, is_Some (kd !! b) -> headers s1 !! b = headers s !! b) -> live s1 = live s ->
  core (m + 1) own kd free s1.
Proof.
  intros Hco Hth Hev Hsc Hli Hhd Hlv. apply core_same_thread with 0.
  assert (forall t, thr t s1 = thr t s) as Eth by (intros t; unfold thr; by rewrite Hth).
  apply core_step with own kd free s; try done; try apply Hco; rewrite ?Eth; try apply Hco.
  - intros n i c Hc. destruct Hsc as [Hs _]. specialize (Hs n i). rewrite Hc in Hs. destruct (classes s !! (n, i)) as [c0|] eqn:E; [|done].
    destruct Hs as [-> ->]. pose proof (c_class _ _ _ _ _ Hco n i c0 E) as (?&?&?&Hch). split_and!; try done; try lia.
    eapply chain_agree; [|exact Hch]. intros b Hb. apply Hli. apply (c_free _ _ _ _ _ Hco) in Hb. congruence.
  - intros t' b _ Hb. split; [done|]. apply Hli. congruence.
  - by rewrite Hlv; apply (c_live _ _ _ _ _ Hco).
  - intros b size Hb. rewrite Hlv in Hb. apply (live_evolves own kd kd s s1 b size Hev); [done|done|by apply (c_lkind _ _ _ _ _ Hco)].
  - intros b k Hb. rewrite Hhd by eauto. destruct (c_hdr _ _ _ _ _ Hco b k Hb) as [?|[t' ?]]; [by left|right]. destruct (decide (t' = 0)) as [->|]; eauto.
  - pose proof (c_frame _ _ _ _ _ Hco 0) as Hf. rewrite Forall_forall in *. intros ins Hi.
    apply (frame_evolves m own kd kd free s s1); [done|done|by apply Hf|]. intros b Hb. split; [done|]. apply Hli.
    assert (own !! b = Some (InThread 0)) as -> by (apply (c_thread _ _ _ _ _ Hco), (held_transit _ _ _ Hi Hb)). done.
  - eapply ret_evolves; [done|apply (c_ret _ _ _ _ _ Hco)|done].
Qed.

Lemma scribble_step m own kd free s p w : core m own kd free s -> is_Some (live s !! p) -> core (m + 1) own kd free (set_link p w s).
Proof.
  intros Hco Hp%(c_live _ _ _ _ _ Hco). apply core_calm with s; try done.
  - split_and!; [eauto|done|]. intros b n i Hb. cbn. rewrite lookup_insert_ne; [done|congruence].
  - by apply same_refl.
  - intros b Hb. cbn. rewrite lookup_insert_ne; [done|congruence].
Qed.
Lemma foreign_step m own kd free s p h : core m own kd free s -> kd !! p = None -> core (m + 1) own kd free (set_header p h s).
Proof.
  intros Hco Hp. apply core_calm with s; try done; [split_and!; eauto|by apply same_refl|].
  intros b [k Hb]. cbn. rewrite lookup_insert_ne; [done|congruence].
Qed.
