(* ===== verification/SlabGeo.v ===== *)
(** * The slab allocator: where the blocks are

    The invariant of the memory: the regions the system handed out are apart, every
    block lies in one of them, and no two blocks overlap. New slabs and large blocks
    keep it; with the invariant of the free lists it holds after every step. *)
From S2P Require Import Prelude SlabAllocator SlabInv SlabMoves.

Definition shape (c : allocation_class) : Z * Z * Z := (class_size c, slab_size c, items_per_slab c).
Definition arena (A : slab_allocator) : Z * Z * Z := (shared_mem_base A, shared_mem_size A, shared_mem_next_slab_offset A).

(** Where a block of kind [k] is: inside a slab, or the whole of a region. *)
Definition placed (s : state) (b : Z) (k : kind) : Prop :=
  (k_class k <> kLargeClassIndex /\ exists a size o, heap s !! a = Some (size, o) /\ o <> LargeNew /\ a <= b - kBlockHeaderSize /\ b - kBlockHeaderSize + k_bytes k <= a + size) \/
  (k_class k = kLargeClassIndex /\ heap s !! (b - kBlockHeaderSize) = Some (k_bytes k, LargeNew)).

Record geo (kd : gmap Z kind) (s : state) : Prop := {
  g_class x cs ss it : shape <$> classes s !! x = Some (cs, ss, it) -> 0 < cs <= ss /\ ss < 2 ^ 32 /\ it = ss / cs;
  g_full n i : is_Some (allocators s !! n) -> 0 <= i < kNumClasses -> is_Some (classes s !! (n, i));
  g_in b k : kd !! b = Some k -> kBlockHeaderSize < k_bytes k /\ 0 < k_bytes k /\ placed s b k;
  g_sep b b' k k' : kd !! b = Some k -> kd !! b' = Some k' -> b <> b' -> separate (b - kBlockHeaderSize) (k_bytes k) (b' - kBlockHeaderSize) (k_bytes k');
  g_heap a a' r r' : heap s !! a = Some r -> heap s !! a' = Some r' -> a <> a' -> separate a r.1 a' r'.1;
  g_pos a r : heap s !! a = Some r -> 0 < a /\ 0 < r.1;
  g_arena n base size off : arena <$> allocators s !! n = Some (base, size, off) -> base <> 0 ->
    heap s !! base = Some (size, Mapped) /\ base + size <= 2 ^ 63 /\ 0 <= off /\ kSharedMemHeaderSize + off <= size /\
    forall b k, kd !! b = Some k -> base <= b - kBlockHeaderSize < base + size -> b - kBlockHeaderSize + k_bytes k <= base + kSharedMemHeaderSize + off;
  g_apart n n' base size off size' off' : arena <$> allocators s !! n = Some (base, size, off) -> arena <$> allocators s !! n' = Some (base, size', off') -> base <> 0 -> n = n' }.

(** ** Steps that touch no region *)

Definition same_static (s s1 : state) : Prop :=
  (forall x, shape <$> classes s1 !! x = shape <$> classes s !! x) /\ (forall n, arena <$> allocators s1 !! n = arena <$> allocators s !! n) /\ heap s1 = heap s.

Lemma geo_same kd s s1 : same_static s s1 -> geo kd s -> geo kd s1.
Proof.
  intros (Hc & Ha & Hh) Hg. split.
  - intros x cs ss it. rewrite Hc. apply (g_class _ _ Hg).
  - intros n i Hn Hi. rewrite <- (fmap_is_Some shape), Hc, fmap_is_Some. apply (g_full _ _ Hg); [|done]. by rewrite <- (fmap_is_Some arena), <- Ha, fmap_is_Some.
  - unfold placed. rewrite Hh. apply (g_in _ _ Hg).
  - apply (g_sep _ _ Hg).
  - rewrite Hh. apply (g_heap _ _ Hg).
  - rewrite Hh. apply (g_pos _ _ Hg).
  - intros n base size off. rewrite Ha, Hh. apply (g_arena _ _ Hg).
  - intros n n' base size off size' off'. rewrite !Ha. apply (g_apart _ _ Hg).
Qed.

Lemma static_refl s s1 : classes s1 = classes s -> allocators s1 = allocators s -> heap s1 = heap s -> same_static s s1.
Proof. intros H1 H2 H3. unfold same_static. by rewrite H1, H2, H3. Qed.
Lemma static_trans s s1 s2 : same_static s s1 -> same_static s1 s2 -> same_static s s2.
Proof. intros (H1 & H2 & H3) (H4 & H5 & H6). split_and!; [intros x; by rewrite H4|intros n; by rewrite H5|congruence]. Qed.
Lemma static_class n i c c' s : classes s !! (n, i) = Some c -> shape c' = shape c -> same_static s (set_class n i c' s).
Proof.
  intros Hc Hs. split_and!; [|done|done]. intros x. cbn. destruct (decide (x = (n, i))) as [->|]; [|by rewrite lookup_insert_ne].
  rewrite lookup_insert_eq, Hc. cbn. by rewrite Hs.
Qed.
Lemma static_allocator n A A' s : allocators s !! n = Some A -> arena A' = arena A -> same_static s (set_allocator n A' s).
Proof.
  intros Hc Hs. split_and!; [done| |done]. intros x. cbn. destruct (decide (x = n)) as [->|]; [|by rewrite lookup_insert_ne].
  rewrite lookup_insert_eq, Hc. cbn. by rewrite Hs.
Qed.
Lemma static_note_failure n i r s : same_static s (note_alloc_failure n i r s).
Proof.
  unfold note_alloc_failure. destruct (allocators s !! n) as [A|] eqn:EA; [|by apply static_refl].
  eapply static_trans; [|eapply (static_allocator _ A); [|reflexivity]].
  - destruct (classes s !! (n, i)) as [c|] eqn:E; [|by apply static_refl]. destruct (_ <? _); [|by apply static_refl]. by eapply static_class.
  - destruct (classes s !! (n, i)); [destruct (i <? kNumClasses)|]; exact EA.
Qed.
Lemma static_note_reject n r s : same_static s (note_dealloc_reject n r s).
Proof. unfold note_dealloc_reject. destruct (allocators s !! n) eqn:E; [by eapply static_allocator|by apply static_refl]. Qed.
Lemma static_shared_header n s : same_static s (update_shared_memory_header n s).
Proof. unfold update_shared_memory_header. destruct (allocators s !! n) eqn:E; [|by apply static_refl]. destruct (_ =? _); [by apply static_refl|by eapply static_allocator]. Qed.
Lemma static_thr t th s s1 : same_static s s1 -> same_static s (set_thr t th s1).
Proof. by intros (?&?&?). Qed.
#[export] Hint Resolve static_note_failure static_note_reject static_shared_header static_thr : slab.

Definition keeps_regions (ins : instr) : bool := match ins with Obtain _ _ | Large _ _ => false | _ => true end.
Lemma access_static t e ins r s new r' s1 : access t e ins r s = Some (new, r', s1) -> keeps_regions ins = true -> same_static s s1.
Proof.
  intros E Hk. destruct ins; try discriminate Hk; slab_cases E;
    first [by apply static_refl | by auto with slab | by eapply static_class | by eapply static_allocator
          | by (eapply static_trans; [|solve [auto with slab]]; by eapply static_class)].
Qed.

(** ** New regions *)

Lemma elem_slab_blocks c a b : b ∈ slab_blocks c a <-> exists k, 0 <= k < items_per_slab c /\ b = a + k * class_size c + kBlockHeaderSize.
Proof.
  unfold slab_blocks. rewrite list_elem_of_fmap. split.
  - intros (k & -> & Hk%elem_of_seqZ). exists k. split; [lia|done].
  - intros (k & Hk & ->). exists k. split; [done|]. apply elem_of_seqZ. lia.
Qed.

Lemma slab_blocks_NoDup c a : 0 < class_size c -> NoDup (slab_blocks c a).
Proof. intros Hc. apply NoDup_fmap_2_strong; [|apply NoDup_seqZ]. intros x y _ _ H. nia. Qed.

(** A block of a slab lies inside it, and the blocks are apart. *)
Lemma slab_block_in cs ss k : 0 < cs -> 0 <= k < ss / cs -> 0 <= k * cs /\ k * cs + cs <= ss.
Proof. intros Hc Hk. pose proof (Z.mul_div_le ss cs Hc). nia. Qed.

Section region.
Context (kd : gmap Z kind) (s : state) (n i a : Z) (c : allocation_class).
Hypothesis (Hg : geo kd s) (Hc : classes s !! (n, i) = Some c) (Hcs : class_size c = bytes_of i) (Hi : 0 <= i < kNumClasses).
Hypothesis (Ha : 0 < a) (Hfree : forall b k, kd !! b = Some k -> separate (b - kBlockHeaderSize) (k_bytes k) a (slab_size c)).
Let l := slab_blocks c a.
Let k0 := Kind n i (bytes_of i).

Lemma region_shape : 0 < class_size c <= slab_size c /\ items_per_slab c = slab_size c / class_size c.
Proof. destruct (g_class _ _ Hg (n, i) (class_size c) (slab_size c) (items_per_slab c)) as (?&?&?); [by rewrite Hc|done]. Qed.
Lemma region_block b : b ∈ l -> a <= b - kBlockHeaderSize /\ b - kBlockHeaderSize + bytes_of i <= a + slab_size c.
Proof.
  intros (k & Hk & ->)%elem_slab_blocks. destruct region_shape as [Hs Hit]. rewrite Hit in Hk.
  destruct (slab_block_in (class_size c) (slab_size c) k); [lia|done|]. rewrite <- Hcs. lia.
Qed.
Lemma bytes_pos : 0 < bytes_of i.
Proof. unfold bytes_of, kMinClassSize. pose proof (Z.pow_pos_nonneg 2 i). lia. Qed.
Lemma bytes_min : kMinClassSize <= bytes_of i.
Proof. unfold bytes_of, kMinClassSize. pose proof (Z.pow_pos_nonneg 2 i). lia. Qed.
Lemma region_fresh b : b ∈ l -> kd !! b = None /\ b <> 0.
Proof.
  intros Hb. pose proof (region_block b Hb) as [H1 H2]. pose proof bytes_pos. unfold kBlockHeaderSize in *. split; [|lia].
  destruct (kd !! b) as [k|] eqn:E; [|done]. exfalso. destruct (g_in _ _ Hg b k E) as (_ & Hp & _).
  destruct (Hfree b k E); unfold kBlockHeaderSize in *; lia.
Qed.
Lemma region_NoDup : NoDup l.
Proof. apply slab_blocks_NoDup. destruct region_shape. lia. Qed.

Lemma region_sep b b' k k' : add l k0 kd !! b = Some k -> add l k0 kd !! b' = Some k' -> b <> b' ->
  separate (b - kBlockHeaderSize) (k_bytes k) (b' - kBlockHeaderSize) (k_bytes k').
Proof.
  rewrite !lookup_add. destruct (decide (b ∈ l)) as [H|H], (decide (b' ∈ l)) as [H'|H']; intros Hb Hb' Hne; simplify_eq.
  - apply elem_slab_blocks in H as (x & Hx & ->), H' as (y & Hy & ->). cbn. unfold separate. rewrite Hcs.
    assert (x <> y) by (intros ->; done). pose proof bytes_pos. nia.
  - pose proof (region_block b H). cbn. destruct (Hfree b' k' Hb'); unfold separate; lia.
  - pose proof (region_block b' H'). cbn. destruct (Hfree b k Hb); unfold separate; lia.
  - by apply (g_sep _ _ Hg).
Qed.
End region.

Lemma placed_region s b k : placed s b k -> exists a r, heap s !! a = Some r /\ a <= b - kBlockHeaderSize /\ b - kBlockHeaderSize + k_bytes k <= a + r.1.
Proof.
  intros [(_ & a & size & o & H & _ & H1 & H2)|[_ H]]; [exists a, (size, o); done|]. eexists _, _. split; [exact H|]. cbn. lia.
Qed.
Lemma fresh_apart kd s size a b k : geo kd s -> fresh_region size s (Some a) -> kd !! b = Some k -> separate (b - kBlockHeaderSize) (k_bytes k) a size.
Proof.
  intros Hg (_ & _ & Hf) Hb. destruct (g_in _ _ Hg b k Hb) as (_ & _ & Hp). apply placed_region in Hp as (a' & r & Ha' & H1 & H2).
  pose proof (Hf a' r Ha') as H. unfold separate in *. lia.
Qed.
Lemma fresh_new kd s size a : geo kd s -> 0 < size -> fresh_region size s (Some a) -> heap s !! a = None.
Proof.
  intros Hg Hz (_ & _ & Hf). destruct (heap s !! a) as [r|] eqn:E; [|done]. pose proof (g_pos _ _ Hg a r E) as Hp. pose proof (Hf a r E) as H. unfold separate in H. cbn in H. lia.
Qed.

Lemma placed_more s s1 b k : (forall a r, heap s !! a = Some r -> heap s1 !! a = Some r) -> placed s b k -> placed s1 b k.
Proof. intros H [(Hk & a & size & o & H1 & H2)|[Hk H1]]; [left|right]; eauto 10. Qed.

(** A region that is apart from all others, and that no block lies in yet. *)
Lemma geo_region kd s size a o : geo kd s -> 0 < size -> fresh_region size s (Some a) -> geo kd (set_heap (<[a := (size, o)]> (heap s)) s).
Proof.
  intros Hg Hz Hf. pose proof (fresh_new _ _ _ _ Hg Hz Hf) as Hn. destruct Hf as (Ha & _ & Hf).
  assert (forall a' r, heap s !! a' = Some r -> <[a := (size, o)]> (heap s) !! a' = Some r) as Hm by (intros a' r H; rewrite lookup_insert_ne; congruence).
  split; cbn.
  - apply (g_class _ _ Hg).
  - apply (g_full _ _ Hg).
  - intros b k Hb. destruct (g_in _ _ Hg b k Hb) as (?&?&?). split_and!; [done|done|by eapply placed_more].
  - apply (g_sep _ _ Hg).
  - intros x y r r' Hx Hy Hne. apply lookup_insert_Some in Hx as [[<- <-]|[Hx0 Hx]], Hy as [[<- <-]|[Hy0 Hy]]; [done| | |by apply (g_heap _ _ Hg)].
    + apply (Hf y r' Hy).
    + pose proof (Hf x r Hx) as H. unfold separate in *. cbn in *. lia.
  - intros x r Hx. apply lookup_insert_Some in Hx as [[<- <-]|[_ Hx]]; [done|by apply (g_pos _ _ Hg x)].
  - intros n base z off Hr Hb. destruct (g_arena _ _ Hg n base z off Hr Hb) as (H1 & H2). split; [by apply Hm|done].
  - apply (g_apart _ _ Hg).
Qed.

(** The blocks of a slab that lies in the region at [a0]. *)
Lemma geo_slab kd s n i a c a0 size o : geo kd s -> classes s !! (n, i) = Some c -> class_size c = bytes_of i -> 0 <= i < kNumClasses -> 0 < a ->
  (forall b k, kd !! b = Some k -> separate (b - kBlockHeaderSize) (k_bytes k) a (slab_size c)) ->
  heap s !! a0 = Some (size, o) -> o <> LargeNew -> a0 <= a -> a + slab_size c <= a0 + size ->
  (forall n base z off, arena <$> allocators s !! n = Some (base, z, off) -> base <> 0 -> a0 = base -> a + slab_size c <= base + kSharedMemHeaderSize + off) ->
  geo (add (slab_blocks c a) (Kind n i (bytes_of i)) kd) s.
Proof.
  intros Hg Hc Hcs Hi Ha Hfree Ha0 Ho Hlo Hhi Har. pose proof (bytes_min i Hi) as Hmin. unfold kMinClassSize in Hmin.
  pose proof (region_block kd s n i a c Hg Hc Hcs) as Hin. split; try apply Hg.
  - intros b k. rewrite lookup_add. destruct (decide (b ∈ slab_blocks c a)) as [H|]; [|apply (g_in _ _ Hg)]. intros [= <-]. cbn. unfold kBlockHeaderSize in *.
    split_and!; [lia|lia|]. left. cbn. split; [unfold kLargeClassIndex, kNumClasses in *; lia|]. exists a0, size, o. specialize (Hin b H). split_and!; try done; unfold kBlockHeaderSize in *; lia.
  - apply (region_sep kd s n i a c); done.
  - intros n' base z off Hr Hb. destruct (g_arena _ _ Hg n' base z off Hr Hb) as (H1 & H2 & H3 & H4 & H5). split_and!; try done.
    intros b k. rewrite lookup_add. destruct (decide (b ∈ slab_blocks c a)) as [H|]; [|apply H5]. intros [= <-] Hrng. cbn. specialize (Hin b H).
    destruct (decide (a0 = base)) as [E|Hne]; [specialize (Har n' base z off Hr Hb E); lia|].
    pose proof (g_heap _ _ Hg a0 base _ _ Ha0 H1 Hne) as Hs. unfold separate in Hs. cbn in Hs. lia.
Qed.

(** * The invariant *)

Lemma geo_thr kd t th s : geo kd s -> geo kd (set_thr t th s).
Proof. apply geo_same, static_thr. by apply static_refl. Qed.

Definition inv (m : Z) (s : state) : Prop := exists own kd free, core m own kd free s /\ geo kd s.

Section memory.
Context (m t : Z) (s : state) (ins : instr) (rest : list instr) (o : result) (own : gmap Z place) (kd : gmap Z kind) (free : Z -> Z -> list Z).
Hypothesis (Hco : core m own kd free s) (Hg : geo kd s) (Hcode : code (thr t s) = ins :: rest).

(** The frame of a new slab, in front of what the thread still has to do. *)
Lemma book_core n i a from c s1 : ins = Obtain n i -> classes s !! (n, i) = Some c -> 0 < a -> from <> LargeNew ->
  (forall b k, kd !! b = Some k -> separate (b - kBlockHeaderSize) (k_bytes k) a (slab_size c)) ->
  same_classes s s1 -> threads s1 = threads s -> links s1 = links s -> live s1 = live s -> headers s1 = headers s ->
  core (m + 1) (add (slab_blocks c a) (InThread t) own) (add (slab_blocks c a) (Kind n i (bytes_of i)) kd) free
    (set_thr t (Thread (Book n i a from (slab_blocks c a) :: rest) (ret (thr t s)) o) s1).
Proof.
  intros Ei Hc Ha Ho Hfree Hsc Hth Hli Hlv Hhd. pose proof (same_evolves own s s1 Hsc Hli) as Hev.
  destruct (c_class _ _ _ _ _ Hco n i c Hc) as (Hi & Hcs & _ & _).
  pose proof (top_frame _ _ _ _ _ _ _ _ Hco Hcode) as Hf. rewrite Ei in Hf.
  pose proof (top_stack _ _ _ _ _ _ _ _ Hco Hcode) as [_ Hk'].
  pose proof (ret_waiting _ _ _ _ _ (c_ret _ _ _ _ _ Hco t) Hcode ltac:(by rewrite Ei)) as Hret.
  pose proof (region_fresh kd s n i a c Hg Hc Hcs Hi Ha Hfree) as Hfr.
  apply core_grow with s; try done.
  - by apply (region_NoDup kd s n i a c).
  - rewrite (transit_top t s ins rest Hcode), Ei. unfold transit. cbn. by rewrite app_assoc.
  - intros b _. by rewrite Hhd.
  - intros b Hb. right. cbn. apply elem_of_app. by left.
  - intros b. rewrite Hcode, Ei. cbn. rewrite elem_of_app. auto.
  - apply Forall_cons_2.
    + split_and!; [by apply class_at_evolves with own s|done|]. apply Forall_forall. intros b Hb. unfold of_class. by rewrite lookup_add, decide_True.
    + apply (rest_evolves m own kd free t s ins rest Hco Hcode own); [done|done|]. intros b Hb. rewrite Hli. split; [|done]. rewrite lookup_add, decide_False; [done|].
      intros Hin. destruct (Hfr b Hin) as [Hn _]. assert (is_Some (kd !! b)) as H; [|rewrite Hn in H; by apply is_Some_None in H].
      apply (c_kind _ _ _ _ _ Hco). rewrite (rest_transit m own kd free t s ins rest Hco Hcode b Hb). eauto.
  - unfold ret_ok. cbn. by destruct (ret (thr t s)).
Qed.

Lemma obtain_inv e n i new r s1 : ins = Obtain n i -> obtain e n i (ret (thr t s)) s = Some (new, r, s1) ->
  fresh_region (requested ins s) s (os_aligned e) -> fresh_region (requested ins s) s (os_new e) -> inv (m + 1) (set_thr t (Thread (new ++ rest) r o) s1).
Proof.
  intros Ei E Hfa Hfn. unfold obtain in E. apply bind_Some in E as (c & Hc & E). apply bind_Some in E as (A & HA & E).
  destruct (c_class _ _ _ _ _ Hco n i c Hc) as (Hi & Hcs & _ & _).
  destruct (g_class _ _ Hg (n, i) (class_size c) (slab_size c) (items_per_slab c) ltac:(by rewrite Hc)) as (Hcp & Hss & _).
  assert (requested ins s = slab_size c) as Hrq by (rewrite Ei; cbn; by rewrite Hc). rewrite Hrq in Hfa, Hfn.
  assert (forall a from, from = AlignedAlloc \/ from = SlabNew -> fresh_region (slab_size c) s (Some a) ->
    inv (m + 1) (set_thr t (Thread ([Book n i a from (slab_blocks c a)] ++ rest) (ret (thr t s)) o) (set_heap (<[a := (slab_size c, from)]> (heap s)) s))) as Hheap.
  { intros a from Ho Hf. assert (0 < a) as Ha by apply Hf. assert (from <> LargeNew) by (destruct Ho as [->| ->]; done).
    assert (forall b k, kd !! b = Some k -> separate (b - kBlockHeaderSize) (k_bytes k) a (slab_size c)) as Hfree by (intros b k; by apply (fresh_apart kd s)).
    eexists _, _, _. split; [apply book_core; try done; by apply same_refl|]. apply geo_thr.
    eapply geo_slab; [apply geo_region; [done|lia|done]|done|done|done|done|done|cbn; by rewrite lookup_insert_eq|done|lia|lia|].
    intros n' base z off Hr Hb ->. exfalso. cbn in Hr. pose proof (g_arena _ _ Hg n' base z off Hr Hb) as (H1 & _).
    by rewrite (fresh_new kd s (slab_size c) base) in H1 by (done || lia). }
  destruct (negb _ && _) eqn:Ec.
  - injection E as <- <- <-. apply andb_true_iff in Ec as [Hb Hr]. apply negb_true_iff, Z.eqb_neq in Hb.
    pose proof (g_arena _ _ Hg n _ _ _ ltac:(rewrite HA; reflexivity) Hb) as (Hm & Hsz & Hoff & Hfit & Hbelow).
    pose proof (g_pos _ _ Hg _ _ Hm) as [Hbp _]. unfold kSharedMemHeaderSize in *.
    set (base := shared_mem_base A) in *. set (off := shared_mem_next_slab_offset A) in *. set (size := shared_mem_size A) in *.
    assert (u64 (88 + off + slab_size c) = 88 + off + slab_size c) as E1 by (unfold wrap; rewrite Z.mod_small; lia).
    assert (u64 (off + slab_size c) = off + slab_size c) as E2 by (unfold wrap; rewrite Z.mod_small; lia).
    rewrite E1 in Hr. apply Z.leb_le in Hr. rewrite E2.
    assert (forall b k, kd !! b = Some k -> separate (b - kBlockHeaderSize) (k_bytes k) (base + 88 + off) (slab_size c)) as Hfree.
    { intros b k Hk. unfold separate. destruct (decide (base <= b - kBlockHeaderSize < base + size)) as [Hin|Hout]; [specialize (Hbelow b k Hk Hin); lia|].
      destruct (g_in _ _ Hg b k Hk) as (_ & Hpos & Hp). apply placed_region in Hp as (a' & r' & Ha' & H1 & H2).
      destruct (decide (a' = base)) as [->|Hne]; [rewrite Hm in Ha'; injection Ha' as <-; cbn in H2; lia|].
      pose proof (g_heap _ _ Hg _ _ _ _ Ha' Hm Hne) as Hs. unfold separate in Hs. cbn in Hs. lia. }
    set (s1 := set_allocator n (with_offset (off + slab_size c) A) s).
    assert (geo kd s1) as Hg1.
    { split; try apply Hg; cbn.
      - intros n' i' Hn'. apply (g_full _ _ Hg). destruct (decide (n' = n)) as [->|]; [eauto|by rewrite lookup_insert_ne in Hn'].
      - intros n' base' size' off'. destruct (decide (n' = n)) as [->|Hne]; [|rewrite lookup_insert_ne by done; apply (g_arena _ _ Hg)].
        rewrite lookup_insert_eq. intros [= <- <- <-] _. unfold kSharedMemHeaderSize. split_and!; try done; try lia. intros b k Hk Hin.
        specialize (Hbelow b k Hk Hin). unfold off, base in *. lia.
      - intros n1 n2 b1 z1 o1 z2 o2 H1 H2. destruct (decide (n1 = n)) as [->|], (decide (n2 = n)) as [->|]; [done| | |].
        + rewrite lookup_insert_eq in H1. rewrite lookup_insert_ne in H2 by done. injection H1 as <- <- <-. eapply (g_apart _ _ Hg n n2); [by rewrite HA|done].
        + rewrite lookup_insert_eq in H2. rewrite lookup_insert_ne in H1 by done. injection H2 as <- <- <-. eapply (g_apart _ _ Hg n1 n); [done|by rewrite HA].
        + rewrite lookup_insert_ne in H1, H2 by done. by eapply (g_apart _ _ Hg). }
    eexists _, _, _. split; [apply (book_core n i _ Mapped c s1); try done; [lia|apply same_set_allocator]|].
    apply geo_thr.
    eapply (geo_slab kd s1 n i (base + 88 + off) c base size Mapped); try done; try lia.
    intros n' base' z off' Hr' Hb' <-. assert (n' = n) as ->.
    { assert (arena <$> allocators s1 !! n = Some (base, size, off + slab_size c)) as HA1 by (cbn; by rewrite lookup_insert_eq). by eapply (g_apart _ _ Hg1 n' n). }
    cbn in Hr'. rewrite lookup_insert_eq in Hr'. injection Hr' as _ <-. unfold kSharedMemHeaderSize. lia.
  - destruct (os_aligned e) as [a|]; [injection E as <- <- <-; apply Hheap; auto|].
    destruct (os_new e) as [a|]; injection E as <- <- <-; [apply Hheap; auto|].
    exists own, kd, free. split; [|by apply geo_thr].
    pose proof (top_stack _ _ _ _ _ _ _ _ Hco Hcode) as [_ Hk'].
    pose proof (ret_waiting _ _ _ _ _ (c_ret _ _ _ _ _ Hco t) Hcode ltac:(by rewrite Ei)) as Hret.
    apply (core_frames m own kd free t s ins rest Hco Hcode s []); try done; [by apply same_refl|rewrite Ei, Hret; done|by rewrite Ei].
Qed.

Lemma large_inv e n size new r s1 : ins = Large n size -> allocate_large e n size (ret (thr t s)) s = Some (new, r, s1) ->
  fresh_region (requested ins s) s (os_new e) -> inv (m + 1) (set_thr t (Thread (new ++ rest) r o) s1).
Proof.
  intros Ei E Hf. unfold allocate_large in E.
  pose proof (top_frame _ _ _ _ _ _ _ _ Hco Hcode) as Hfo. rewrite Ei in Hfo. pose proof (top_stack _ _ _ _ _ _ _ _ Hco Hcode) as Hst. rewrite Ei in Hst. cbn in Hst. destruct Hst as [[Hsz Hrest] Hk'].
  pose proof (ret_waiting _ _ _ _ _ (c_ret _ _ _ _ _ Hco t) Hcode ltac:(by rewrite Ei)) as Hret.
  destruct (os_new e) as [a|]; injection E as <- <- <-.
  - assert (requested ins s = saturating_add size kBlockHeaderSize) as Hrq by (by rewrite Ei). rewrite Hrq in Hf.
    assert (saturating_add size kBlockHeaderSize = size + kBlockHeaderSize) as Es.
    { destruct Hf as (Ha & Hu & _). unfold saturating_add, kBlockHeaderSize in *. destruct (_ <? _) eqn:E; [|done]. lia. }
    rewrite Es in Hf |- *. assert (0 < a) as Ha by apply Hf. unfold kBlockHeaderSize in *.
    set (p := a + 16). set (k := Kind n kLargeClassIndex (size + 16)).
    assert (kd !! p = None) as Hp.
    { destruct (kd !! p) as [k'|] eqn:E; [|done]. exfalso. destruct (g_in _ _ Hg p k' E) as (_ & Hpos & _).
      pose proof (fresh_apart kd s (size + 16) a p k' Hg Hf E) as H. unfold separate, kBlockHeaderSize, p in H. lia. }
    exists (add [p] (InThread t) own), (add [p] k kd), free. split.
    + apply core_grow with s; try done.
      * by apply same_refl.
      * apply NoDup_singleton.
      * intros b ->%list_elem_of_singleton. split; [done|unfold p; lia].
      * rewrite (transit_top t s ins rest Hcode), Ei, Hret, Hrest. done.
      * intros b Hb. cbn. rewrite lookup_insert_ne; [done|]. intros <-. apply Hb. by left.
      * intros b ->%list_elem_of_singleton. left. cbn. rewrite lookup_insert_eq. unfold header_of. cbn. do 2 f_equal. rewrite Z.add_simpl_r.
        destruct (Z.ltb_spec U32_MAX size); lia.
      * intros b. rewrite Hcode, Ei. done.
      * cbn. rewrite Hrest. by apply Forall_singleton.
      * right. exists n, size. cbn. rewrite Hrest. split_and!; [done|lia|done|]. by rewrite lookup_insert_eq.
    + apply geo_thr. assert (geo kd (set_heap (<[a := (size + 16, LargeNew)]> (heap s)) s)) as Hg1 by (apply geo_region; [done|lia|done]).
      assert (forall b k', kd !! b = Some k' -> separate (b - 16) (k_bytes k') a (size + 16)) as Hfree by (intros b k'; by apply (fresh_apart kd s)).
      split; try apply Hg1; cbn -[add].
      * intros b k'. cbn. destruct (decide (b = p)) as [->|]; [|rewrite lookup_insert_ne by done; apply (g_in _ _ Hg1)].
        rewrite lookup_insert_eq. intros [= <-]. cbn. unfold kBlockHeaderSize. split_and!; [lia|lia|]. right. split; [done|]. cbn. unfold p, kBlockHeaderSize.
        rewrite Z.add_simpl_r. by rewrite lookup_insert_eq.
      * intros b b' k1 k2. cbn. destruct (decide (b = p)) as [->|], (decide (b' = p)) as [->|]; rewrite ?lookup_insert_eq; rewrite ?lookup_insert_ne by done; intros H1 H2 Hne; [done| | |by apply (g_sep _ _ Hg1 b b')].
        -- injection H1 as <-. pose proof (Hfree b' k2 H2) as H. unfold separate, p, kBlockHeaderSize in *. cbn. lia.
        -- injection H2 as <-. pose proof (Hfree b k1 H1) as H. unfold separate, p, kBlockHeaderSize in *. cbn. lia.
      * intros n' base z off Hr Hb. destruct (g_arena _ _ Hg1 n' base z off Hr Hb) as (H1 & H2 & H3 & H4 & H5). split_and!; try done.
        intros b k'. cbn. destruct (decide (b = p)) as [->|]; [|rewrite lookup_insert_ne by done; apply H5]. rewrite lookup_insert_eq. intros [= <-] Hin. exfalso.
        cbn in H1, Hr. destruct (g_arena _ _ Hg n' base z off Hr Hb) as (H1' & _). pose proof (g_pos _ _ Hg _ _ H1') as [_ Hz]. cbn in Hz.
        destruct Hf as (_ & _ & Hf). specialize (Hf base _ H1'). unfold separate, p, kBlockHeaderSize in *. cbn in Hf. lia.
  - exists own, kd, free. split; [|apply geo_thr; eapply geo_same; [apply static_note_failure|done]].
    apply (core_frames m own kd free t s ins rest Hco Hcode _ []); try done; [apply same_note_failure|apply rest_note_failure|rewrite Ei, Hret; done|by rewrite Ei].
Qed.

End memory.

(** Every step of a thread keeps the invariant. *)
Lemma slab_access_inv m t s ins rest o own kd free e new r s1 : core m own kd free s -> geo kd s -> code (thr t s) = ins :: rest -> m + 1 < 2 ^ 32 -> access t e ins (ret (thr t s)) s = Some (new, r, s1) ->
  fresh_region (requested ins s) s (os_aligned e) -> fresh_region (requested ins s) s (os_new e) -> inv (m + 1) (set_thr t (Thread (new ++ rest) r o) s1).
Proof.
  intros Hco Hg Hcode Hm E Ha Hn. destruct (keeps_regions ins) eqn:Ek; [|destruct ins; try discriminate Ek; [by eapply obtain_inv|by eapply large_inv]].
  assert (same_static s (set_thr t (Thread (new ++ rest) r o) s1)) as Hst by (apply static_thr; by eapply access_static).
  cut (exists own' free', core (m + 1) own' kd free' (set_thr t (Thread (new ++ rest) r o) s1)).
  { intros (own' & free' & H). exists own', kd, free'. split; [done|by eapply geo_same]. }
  destruct (steady ins) eqn:Es; [exists own, free; by eapply steady_step|].
  destruct ins; try discriminate Ek; try discriminate Es; slab_cases E.
  - apply andb_true_iff in Heqb as [H1 H2]. apply bool_decide_eq_true in H1. by eapply (pop_step m own kd free t s _ rest o Hco Hcode n i expected next).
  - exists own, free. pose proof (top_stack _ _ _ _ _ _ _ _ Hco Hcode) as [Hw Hk']. cbn in Hw. pose proof (top_frame _ _ _ _ _ _ _ _ Hco Hcode) as [Hf _].
    pose proof (ret_waiting _ _ _ _ _ (c_ret _ _ _ _ _ Hco t) Hcode eq_refl) as Hret.
    apply (core_frames m own kd free t s _ rest Hco Hcode s); eauto with slab; try (by apply same_refl); try done; try (unfold pop_round; by case_match).
    eapply ret_old; [apply (c_ret _ _ _ _ _ Hco t)|done|done].
  - exists own, free. by eapply link_step.
  - apply andb_true_iff in Heqb as [H1 H2]. apply bool_decide_eq_true in H1. by eapply (push_step m own kd free t s _ rest o Hco Hcode n i p expected).
  - exists own, free. pose proof (top_stack _ _ _ _ _ _ _ _ Hco Hcode) as [_ Hk']. pose proof (top_frame _ _ _ _ _ _ _ _ Hco Hcode) as (Hf & Hp & _).
    apply (core_frames m own kd free t s _ rest Hco Hcode s); try done; [by apply same_refl| |].
    + apply Forall_singleton. split_and!; [done|done|by apply stale_now].
    + eapply ret_old; [apply (c_ret _ _ _ _ _ Hco t)|done|done].
  - exists own, free. pose proof (top_stack _ _ _ _ _ _ _ _ Hco Hcode) as [_ Hk'].
    apply (core_frames m own kd free t s _ rest Hco Hcode s); try done; [by apply same_refl|]. eapply ret_old; [apply (c_ret _ _ _ _ _ Hco t)|done|done].
  - exists own, free. by eapply header_step.
  - exists own, free. pose proof (top_stack _ _ _ _ _ _ _ _ Hco Hcode) as [_ Hk']. apply (core_frames m own kd free t s _ rest Hco Hcode s); try done; [by apply same_refl|by rewrite Heqr0].
  - destruct (deliver_step m own kd free t s _ rest o Hco Hcode size p) as [own' H]; [done|done|]. by exists own', free.
  - exists own, free. pose proof (top_stack _ _ _ _ _ _ _ _ Hco Hcode) as [_ Hk']. apply (core_frames m own kd free t s _ rest Hco Hcode s); try done; [by apply same_refl|by rewrite Heqr0].
Qed.
