(* ===== verification/SlabLocks.v ===== *)
(** * The slab allocator: who holds the mutex of a class

    A mutex is held by the one thread whose instruction stack still has to release
    it, and a thread that waits for a mutex holds none. *)
From S2P Require Import Prelude SlabAllocator SlabInv.

Definition holder (s : state) (n i : Z) : option Z := A ← allocators s !! n; slab_mutexes A !! i.

(** The mutex that an instruction will release, itself or through the instructions
    it leaves, and the instructions that belong to one passage through a mutex. *)
Definition releases (ins : instr) : list (Z * Z) :=
  match ins with AfterLocked n i | AfterAdd n i | AfterGrow n i | Unlock n i => [(n, i)] | _ => [] end.
Definition passage (ins : instr) : list (Z * Z) :=
  match ins with AfterFast n i | Lock n i => [(n, i)] | _ => releases ins end.

Record locks_ok (s : state) : Prop := {
  lk_holder n i t : holder s n i = Some t <-> (n, i) ∈ (code (thr t s) ≫= releases);
  lk_once t : (length (code (thr t s) ≫= passage) <= 1)%nat }.

Lemma releases_passage l x : x ∈ (l ≫= releases) -> x ∈ (l ≫= passage).
Proof. intros (ins & H & Hi)%list_elem_of_bind. apply list_elem_of_bind. exists ins. split; [|done]. destruct ins; try done; by apply not_elem_of_nil in H. Qed.
(** A thread at a lock holds no mutex. *)
Lemma waiting_holds_none s t n i rest x : locks_ok s -> code (thr t s) = Lock n i :: rest -> x ∉ (rest ≫= releases).
Proof.
  intros Hl Hc Hx%releases_passage. pose proof (lk_once _ Hl t) as Ho. rewrite Hc in Ho. cbn in Ho. destruct (rest ≫= passage); [by apply not_elem_of_nil in Hx|cbn in Ho; lia].
Qed.

(** ** Steps that leave the mutexes alone *)

Definition same_mutexes (s s' : state) : Prop := forall n, slab_mutexes <$> allocators s' !! n = slab_mutexes <$> allocators s !! n.
Lemma same_mutexes_holder s s' n i : same_mutexes s s' -> holder s' n i = holder s n i.
Proof.
  intros H. specialize (H n). unfold holder. destruct (allocators s !! n) as [A|], (allocators s' !! n) as [A'|]; try done. cbn in *. congruence.
Qed.
Lemma same_mutexes_refl s s' : allocators s' = allocators s -> same_mutexes s s'.
Proof. by intros H n; rewrite H. Qed.
Lemma same_mutexes_set n A A' s s' : allocators s' = allocators s -> allocators s !! n = Some A -> slab_mutexes A' = slab_mutexes A -> same_mutexes s (set_allocator n A' s').
Proof. intros Hs HA E n'. cbn. rewrite lookup_insert, Hs. case_decide as Hn; [subst n'; rewrite HA; cbn; by rewrite E|done]. Qed.
Lemma same_mutexes_note n i r s : same_mutexes s (note_alloc_failure n i r s).
Proof.
  unfold note_alloc_failure. destruct (allocators s !! n) as [A|] eqn:HA; [|done]. eapply same_mutexes_set; [|done|done].
  destruct (classes s !! (n, i)); [destruct (i <? kNumClasses)|]; done.
Qed.
Lemma same_mutexes_reject n r s : same_mutexes s (note_dealloc_reject n r s).
Proof. unfold note_dealloc_reject. destruct (allocators s !! n) as [A|] eqn:HA; [|done]. by eapply same_mutexes_set. Qed.
Lemma same_mutexes_header n s s' : allocators s' = allocators s -> same_mutexes s (update_shared_memory_header n s').
Proof.
  intros E. unfold update_shared_memory_header. destruct (allocators s' !! n) as [A|] eqn:HA; [|by apply same_mutexes_refl].
  destruct (shared_mem_base A =? 0); [by apply same_mutexes_refl|]. eapply same_mutexes_set; [done|by rewrite <- E|done].
Qed.
#[export] Hint Resolve same_mutexes_refl same_mutexes_set same_mutexes_note same_mutexes_reject same_mutexes_header : slab.

(** Setting the entry of one mutex. *)
Lemma holder_set s n A m n' i' : holder (set_allocator n (with_mutexes m A) s) n' i' = if decide (n = n') then m !! i' else holder s n' i'.
Proof. unfold holder. cbn. rewrite lookup_insert. by case_decide. Qed.

(** What one access does to the mutexes and to the instructions that release them. *)
Lemma access_locks t e ins r s new r' s1 : access t e ins r s = Some (new, r', s1) ->
  (length (new ≫= passage) <= length (passage ins))%nat /\
  match ins with
  | Lock n i => holder s n i = None /\ (new ≫= releases) = [(n, i)] /\ forall n' i', holder s1 n' i' = if decide ((n, i) = (n', i')) then Some t else holder s n' i'
  | Unlock n i => holder s n i = Some t /\ (new ≫= releases) = [] /\ forall n' i', holder s1 n' i' = if decide ((n, i) = (n', i')) then None else holder s n' i'
  | _ => (new ≫= releases) = releases ins /\ same_mutexes s s1
  end.
Proof.
  intros E. destruct ins; slab_cases E; simplify_eq;
    (split; [unfold pop_round; repeat case_match; simplify_eq; cbn; lia|]);
    unfold pop_round; try (split; [by repeat case_match; simplify_eq|eauto with slab; fail]).
  - split_and!; [unfold holder; by simplify_option_eq|done|]. intros n' i'. rewrite holder_set. unfold holder.
    destruct (decide (n = n')) as [<-|Hn]; [rewrite lookup_insert|by rewrite decide_False by congruence].
    destruct (decide (i = i')) as [<-|Hi]; [by rewrite decide_True|rewrite decide_False by congruence; by simplify_option_eq].
  - match goal with H : bool_decide _ = true |- _ => apply bool_decide_eq_true in H end.
    split_and!; [unfold holder; by simplify_option_eq|done|]. intros n' i'. rewrite holder_set. unfold holder.
    destruct (decide (n = n')) as [<-|Hn]; [rewrite lookup_delete|by rewrite decide_False by congruence].
    destruct (decide (i = i')) as [<-|Hi]; [by rewrite decide_True|rewrite decide_False by congruence; by simplify_option_eq].
Qed.

(** ** Every step keeps the mutexes in order *)

Lemma holder_thr t th s n i : holder (set_thr t th s) n i = holder s n i.
Proof. done. Qed.

Lemma access_keeps_locks t e ins rest r s new r' s1 o : locks_ok s -> code (thr t s) = ins :: rest -> threads s1 = threads s ->
  access t e ins r s = Some (new, r', s1) -> locks_ok (set_thr t (Thread (new ++ rest) r' o) s1).
Proof.
  intros Hl Hc Ht E. assert (forall t', thr t' s1 = thr t' s) as Hthr by (intros t'; unfold thr; by rewrite Ht).
  pose proof (access_locks _ _ _ _ _ _ _ _ E) as [Hlen Ha]. pose proof (lk_once _ Hl t) as Ho. rewrite Hc in Ho. cbn in Ho. rewrite length_app in Ho.
  split; [|intros t'; rewrite slab_thr_set, Hthr; case_decide as Et; [cbn; rewrite bind_app, length_app; lia|apply Hl]].
  intros n' i' t'. rewrite holder_thr, slab_thr_set, Hthr. pose proof (lk_holder _ Hl n' i' t') as Hh. pose proof (lk_holder _ Hl n' i' t) as Hht. rewrite Hc in Hht. cbn in Hht.
  rewrite elem_of_app in Hht.
  assert ((exists n i, ins = Lock n i) \/ (exists n i, ins = Unlock n i) \/ (new ≫= releases) = releases ins /\ same_mutexes s s1) as Hk by (destruct ins; eauto).
  destruct Hk as [(n & i & ->)|[(n & i & ->)|[Hr Hs]]].
  - destruct Ha as (Hfree & Hr & Hs). rewrite Hs. pose proof (waiting_holds_none s t n i rest (n', i') Hl Hc) as Hnone. destruct (decide (t' = t)) as [->|Hne].
    + cbn [code]. rewrite bind_app, Hr, elem_of_app, list_elem_of_singleton. destruct (decide _) as [[= <- <-]|Hd]; [tauto|]. rewrite Hht. cbn. rewrite elem_of_nil. intuition congruence.
    + destruct (decide _) as [[= <- <-]|Hd]; [|done]. rewrite Hfree in Hh. split; [intros [= ->]; done|]. by intros H%Hh.
  - destruct Ha as (Hheld & Hr & Hs). rewrite Hs. cbn in Ho.
    assert (forall x, x ∉ (rest ≫= releases)) as Hnone by (intros x Hx%releases_passage; destruct (rest ≫= passage); [by apply not_elem_of_nil in Hx|cbn in Ho; lia]).
    destruct (decide (t' = t)) as [->|Hne].
    + cbn [code]. rewrite bind_app, Hr, app_nil_l. destruct (decide _) as [[= <- <-]|Hd]; [split; [done|by intros ?%Hnone]|]. rewrite Hht. cbn. rewrite list_elem_of_singleton. intuition congruence.
    + destruct (decide _) as [[= <- <-]|Hd]; [|done]. split; [done|]. intros H%Hh. congruence.
  - rewrite (same_mutexes_holder _ _ _ _ Hs). destruct (decide (t' = t)) as [->|Hne]; [|done]. cbn [code]. by rewrite bind_app, Hr, elem_of_app.
Qed.

(** A call starts without a mutex and with at most one passage. *)
Lemma begin_keeps_locks t l r o s s1 : locks_ok s -> code (thr t s) = [] -> threads s1 = threads s -> same_mutexes s s1 ->
  (l ≫= releases) = [] -> (length (l ≫= passage) <= 1)%nat -> locks_ok (set_thr t (Thread l r o) s1).
Proof.
  intros Hl Hc Ht Hs Hr Hp. assert (forall t', thr t' s1 = thr t' s) as Hthr by (intros t'; unfold thr; by rewrite Ht). split.
  - intros n i t'. rewrite holder_thr, slab_thr_set, Hthr, (same_mutexes_holder _ _ _ _ Hs), (lk_holder _ Hl). case_decide as Et; [|done]. subst t'. cbn. by rewrite Hc, Hr.
  - intros t'. rewrite slab_thr_set, Hthr. case_decide; [done|apply Hl].
Qed.
Lemma same_keeps_locks s s1 : locks_ok s -> threads s1 = threads s -> same_mutexes s s1 -> locks_ok s1.
Proof.
  intros Hl Ht Hs. assert (forall t', thr t' s1 = thr t' s) as Hthr by (intros t'; unfold thr; by rewrite Ht).
  split; intros; rewrite ?Hthr, ?(same_mutexes_holder _ _ _ _ Hs); apply Hl.
Qed.

Lemma slab_access_threads t e ins r s new r' s1 : access t e ins r s = Some (new, r', s1) -> threads s1 = threads s.
Proof.
  intros E. destruct ins; slab_cases E; try done; unfold note_alloc_failure, update_shared_memory_header; cbn; repeat case_match; done.
Qed.
Lemma deallocate_locks n p claim r s new r' s1 : deallocate n p claim r s = Some (new, r', s1) ->
  threads s1 = threads s /\ same_mutexes s s1 /\ (new ≫= passage) = [].
Proof.
  intros E. unfold deallocate, free_by_header in E. apply bind_Some in E as (h & _ & E). repeat case_match; simplify_eq;
    split_and!; eauto with slab; unfold note_dealloc_reject; by repeat case_match.
Qed.
Lemma allocate_locks n size : (allocate n size ≫= releases) = [] /\ (length (allocate n size ≫= passage) <= 1)%nat.
Proof. unfold allocate. destruct (_ =? _); cbn; lia || (split; [done|lia]). Qed.

Section steps.
Context (num_nodes : Z).

Lemma step_locks tm s s' : locks_ok s -> step num_nodes tm s = Some s' -> locks_ok s'.
Proof.
  intros Hl E. destruct tm as [t [c|e]]; cbn in E.
  - unfold begin_call in E. destruct (code (thr t s)) as [|] eqn:Hc; [|done]. destruct (constructed s); [|done].
    assert (forall n p claim, (if p =? 0 then Some s else '(new, _, s') ← deallocate n p claim Null (if frees p claim s then set_live (delete p (live s)) s else s);
        Some (set_thr t (Thread new Null (out (thr t s))) s')) = Some s' -> locks_ok s') as Hfree.
    { intros n p claim H. destruct (p =? 0); [by injection H as <-|]. apply bind_Some in H as ([[new r] s1] & H1 & H2). injection H2 as <-.
      apply deallocate_locks in H1 as (H1 & H2 & H3). eapply begin_keeps_locks; [done|done|rewrite H1; by case_match| | |by rewrite H3; cbn; lia].
      - intros n'. rewrite H2. by case_match.
      - destruct (new ≫= releases) as [|x l] eqn:Er; [done|]. assert (x ∈ (new ≫= passage)) as Hx by (apply releases_passage; rewrite Er; by left). rewrite H3 in Hx. by apply not_elem_of_nil in Hx. }
    destruct c; try (injection E as <-); try (by eapply Hfree).
    + destruct (allocate_locks n size). by eapply begin_keeps_locks; eauto with slab.
    + destruct (allocate_locks (node_allocator num_nodes current) size). by eapply begin_keeps_locks; eauto with slab.
    + apply (same_keeps_locks s); [done| |]; unfold set_max_slabs_for_class; (destruct (allocators s !! n) eqn:HA; [destruct (kNumClasses <=? i)|]; eauto with slab; done).
    + case_bool_decide; [|done]. injection E as <-. by apply (same_keeps_locks s).
    + by apply (same_keeps_locks s).
  - destruct (code (thr t s)) as [|ins rest] eqn:Hc; [done|]. apply bind_Some in E as ([[new r] s1] & E & H). injection H as <-.
    eapply access_keeps_locks; [done|done|by eapply slab_access_threads|done].
Qed.
Lemma run_locks moves s s' : locks_ok s -> run_disciplined num_nodes moves s = Some s' -> locks_ok s'.
Proof.
  revert s. induction moves as [|tm moves IH]; cbn; intros s Hl E; [by injection E as <-|]. destruct (decide _); [|done].
  apply bind_Some in E as (s1 & E1 & E). eapply IH; [|done]. by eapply step_locks.
Qed.
End steps.

Lemma init_locks cfgs : locks_ok (init cfgs).
Proof.
  assert (forall t, (code (thr t (init cfgs)) ≫= passage) = []) as Hp.
  { intros t. unfold thr, init. cbn [threads]. destruct (decide (t = 0)) as [->|Hne]; [by rewrite lookup_singleton_eq|by rewrite lookup_singleton_ne]. }
  split; [|intros t; rewrite Hp; cbn; lia]. intros n i t. unfold holder, init. cbn [allocators]. split.
  - intros (A & ([n' cfg] & [= -> ->] & _)%elem_of_list_to_map_2%list_elem_of_fmap & H)%bind_Some. done.
  - intros H%releases_passage. rewrite Hp in H. by apply not_elem_of_nil in H.
Qed.
