(* ===== verification/SlabClaims.v ===== *)
(** * The slab allocator: what it guarantees

    The calls of clients keep the invariant; the theorems about the blocks, the size
    classes, the header checks and the node-aware allocator; concrete runs. *)
From S2P Require Import Prelude SlabAllocator SlabInv SlabMoves SlabGeo SlabLocks.

(** * Size classes *)

Lemma class_loop_spec fuel idx size : 0 <= idx <= kNumClasses - 1 -> (Z.to_nat (kNumClasses - 1 - idx) <= fuel)%nat -> size <= kMaxClassSize ->
  (idx = 0 \/ bytes_of (idx - 1) < size) ->
  let j := class_loop fuel (bytes_of idx) idx size in idx <= j <= kNumClasses - 1 /\ size <= bytes_of j /\ (j = 0 \/ bytes_of (j - 1) < size).
Proof.
  unfold kNumClasses, kMaxClassSize. revert idx. induction fuel as [|fuel IH]; intros idx Hi Hf Hs Hp; cbn [class_loop].
  - assert (idx = 10) as -> by lia. change (bytes_of 10) with 65536. lia.
  - destruct (Z.ltb_spec (bytes_of idx) size) as [H1|H1]; cbn [andb]; [|split_and!; lia].
    unfold kNumClasses. destruct (Z.ltb_spec idx (11 - 1)) as [H2|H2]; [|assert (idx = 10) as -> by lia; change (bytes_of 10) with 65536 in *; lia].
    assert (u32 (Z.shiftl (bytes_of idx) 1) = bytes_of (idx + 1)) as ->.
    { assert (0 < 2 ^ idx <= 2 ^ 9) by (split; [lia|apply Z.pow_le_mono_r; lia]).
      rewrite Z.shiftl_mul_pow2 by lia. unfold bytes_of, kMinClassSize, wrap. rewrite Z.pow_add_r, Z.mod_small by lia. lia. }
    destruct (IH (idx + 1)) as (H3 & H4 & H5); [lia|lia|lia|right; by rewrite Z.add_simpl_r|]. split_and!; [lia|lia|done|done].
Qed.

(** The class of a request: the smallest that holds it and its header, or none. *)
Lemma class_index_spec size : 0 <= size < 2 ^ 64 -> let idx := class_index_for_payload size in
  (kMaxClassSize < size + kBlockHeaderSize /\ idx = kLargeClassIndex) \/
  (0 <= idx < kNumClasses /\ size + kBlockHeaderSize <= bytes_of idx /\ (idx = 0 \/ bytes_of (idx - 1) < size + kBlockHeaderSize)).
Proof.
  intros Hs. unfold class_index_for_payload, saturating_add, kBlockHeaderSize, kMaxClassSize. cbn zeta.
  destruct (Z.ltb_spec (U64_MAX - size) 16) as [H|H]; [left; split; [lia|done]|].
  destruct (Z.ltb_spec 65536 (size + 16)) as [H1|H1]; [by left|right]. unfold class_index_for.
  destruct (Z.leb_spec (size + 16) kMinClassSize) as [H2|H2]; [unfold kMinClassSize, kNumClasses in *; change (bytes_of 0) with 64; lia|].
  pose proof (class_loop_spec 10 0 (size + 16)) as Hl. cbv zeta in Hl. destruct Hl as (H3 & H4 & H5); [unfold kNumClasses; lia|unfold kNumClasses; lia|unfold kMaxClassSize; lia|by left|].
  change (bytes_of 0) with kMinClassSize in *. unfold kNumClasses in *. split_and!; [lia|lia|lia|done].
Qed.

(** * Calls *)

Lemma core_weaken m own kd free s : core m own kd free s -> core (m + 1) own kd free s.
Proof. intros Hco. split; try apply Hco. intros n i c Hc. destruct (c_class _ _ _ _ _ Hco n i c Hc) as (?&?&?&?). split_and!; try done; lia. Qed.
Lemma inv_weaken_slab m s : inv m s -> inv (m + 1) s.
Proof. intros (own & kd & free & Hco & Hg). exists own, kd, free. split; [by apply core_weaken|done]. Qed.

Section calls.
Context (m t : Z) (s : state) (own : gmap Z place) (kd : gmap Z kind) (free : Z -> Z -> list Z).
Hypothesis (Hco : core m own kd free s) (Hg : geo kd s).

Lemma live_header p : is_Some (live s !! p) -> exists k, kd !! p = Some k /\ headers s !! p = Some (header_of k) /\ owner_node_of p s = k_node k /\
  is_Some (allocators s !! k_node k) /\ ((class_at s (k_node k) (k_class k) /\ k_bytes k = bytes_of (k_class k)) \/ k_class k = kLargeClassIndex).
Proof.
  intros Hp. pose proof (proj1 (c_live _ _ _ _ _ Hco p) Hp) as Hown. destruct Hp as [size Hp].
  destruct (c_lkind _ _ _ _ _ Hco p size Hp) as (k & Hk & _ & _ & Ha & Hc).
  assert (headers s !! p = Some (header_of k)) as Hh.
  { destruct (c_hdr _ _ _ _ _ Hco p k Hk) as [?|[t' Hu]]; [done|]. exfalso. apply list_elem_of_bind in Hu as (ins & Hu & Hi).
    pose proof (held_transit _ _ _ Hi (uncarved_held _ _ Hu)) as Ht. apply (c_thread _ _ _ _ _ Hco) in Ht. congruence. }
  exists k. split_and!; try done. unfold owner_node_of. by rewrite Hh.
Qed.

Lemma foreign_unknown p : map_Forall (fun a r => p < a \/ a + r.1 <= p) (heap s) -> kd !! p = None.
Proof.
  intros Hf. destruct (kd !! p) as [k|] eqn:E; [|done]. exfalso. destruct (g_in _ _ Hg p k E) as (H1 & H2 & Hp).
  apply placed_region in Hp as (a & r & Ha & H3 & H4). destruct (Hf a r Ha); unfold kBlockHeaderSize in *; lia.
Qed.

(** A block that is not a slab block is all of its region. *)
Lemma geo_drop p k : kd !! p = Some k -> k_class k = kLargeClassIndex -> geo (delete p kd) (set_heap (delete (p - kBlockHeaderSize) (heap s)) s).
Proof.
  intros Hp Hk. destruct (g_in _ _ Hg p k Hp) as (_ & _ & [(H & _)|[_ Hh]]); [done|].
  split; cbn; try apply Hg.
  - intros b k' Hb. apply lookup_delete_Some in Hb as [Hne Hb]. destruct (g_in _ _ Hg b k' Hb) as (H1 & H2 & H3). split_and!; try done.
    destruct H3 as [(Hkc & a & size & o & Ha & Ho & H4)|[Hkc Ha]]; [left|right]; (split; [done|]).
    + exists a, size, o. split; [|done]. cbn. rewrite lookup_delete_ne; [done|congruence].
    + cbn. rewrite lookup_delete_ne; [done|]. unfold kBlockHeaderSize. lia.
  - intros b b' k1 k2 H1 H2. apply lookup_delete_Some in H1 as [_ H1], H2 as [_ H2]. by apply (g_sep _ _ Hg).
  - intros a a' r r' H1 H2. apply lookup_delete_Some in H1 as [_ H1], H2 as [_ H2]. by apply (g_heap _ _ Hg).
  - intros a r H1. apply lookup_delete_Some in H1 as [_ H1]. by apply (g_pos _ _ Hg a).
  - intros n base size off Hr Hb. destruct (g_arena _ _ Hg n base size off Hr Hb) as (H1 & H2 & H3 & H4 & H5). split_and!; try done.
    + rewrite lookup_delete_ne; [done|congruence].
    + intros b k' Hb'. apply lookup_delete_Some in Hb' as [_ Hb']. by apply H5.
Qed.

Hypothesis (Hcode : code (thr t s) = []).

(** A deallocation: of a block that a client holds, or of memory of its own. *)
Lemma dealloc_inv n p claim new r s1 : owned_by n p s \/ foreign_header p s ->
  deallocate n p claim Null (if frees p claim s then set_live (delete p (live s)) s else s) = Some (new, r, s1) ->
  forall o, inv (m + 1) (set_thr t (Thread new Null o) s1).
Proof.
  intros Hd E o. set (s0 := set_live (delete p (live s)) s) in *.
  assert (forall x, inv (m + 1) (set_thr t (Thread [] Null o) (note_dealloc_reject n x s))) as Hrefused.
  { intros x. exists own, kd, free. split; [apply (start_step m own kd free t s Hco Hcode []); auto with slab; done|]. apply geo_thr. eapply geo_same; [apply static_note_reject|done]. }
  unfold deallocate in E. apply bind_Some in E as (h & Hh & E).
  assert (headers s !! p = Some h) as Hh' by (rewrite <- Hh; by destruct (frees p claim s)). clear Hh. unfold frees in E. rewrite Hh' in E.
  destruct Hd as [[Hp Hn]|(Hm & Hz & Hr)]; [|rewrite Hh' in Hm; rewrite (proj2 (Z.eqb_neq _ _) Hm) in E; cbn in E; by injection E as <- _ <-].
  destruct (live_header p Hp) as (k & Hk & Hk' & Hno & Ha & Hc). rewrite Hh' in Hk'. injection Hk' as ->. rewrite Hno in Hn. subst n.
  cbn -[claim_fits free_by_header note_dealloc_reject s0] in E.
  assert (forall new' r' s1', free_by_header (k_node k) p (header_of k) Null s0 = Some (new', r', s1') -> inv (m + 1) (set_thr t (Thread new' Null o) s1')) as Hfree.
  { intros new' r' s1' Hf. unfold free_by_header in Hf. cbn -[s0] in Hf. destruct (Z.leb_spec kNumClasses (k_class k)) as [Hl|Hl]; injection Hf as <- <- <-.
    - assert (k_class k = kLargeClassIndex) as Hkl by (destruct Hc as [[(_ & _ & ?) _]|?]; [lia|done]).
      eexists _, _, free. split; [apply (drop_step m own kd free t s Hco Hcode p); try done; by apply same_refl|].
      apply geo_thr. eapply geo_same; [|exact (geo_drop p k Hk Hkl)]. by apply static_refl.
    - destruct Hc as [[Hc Hb]|Hc]; [|unfold kNumClasses, kLargeClassIndex in *; lia].
      eexists _, kd, free. split; [apply (give_up_step m own kd free t s Hco Hcode p); try done|apply geo_thr; apply (geo_same _ s); [by apply static_refl|done]].
      + by apply same_refl.
      + apply Forall_singleton. split; [done|]. unfold of_class. rewrite Hk. destruct k. cbn in *. congruence. }
  destruct claim as [size|]; [destruct (claim_fits _ _); [by eapply Hfree|]|by eapply Hfree]. by injection E as <- _ <-.
Qed.

Lemma alloc_inv n size o : is_Some (allocators s !! n) -> 0 <= size < 2 ^ 64 -> inv (m + 1) (set_thr t (Thread (allocate n size) Null o) s).
Proof.
  intros Hn Hs. pose proof (class_index_spec size Hs) as Hc. cbv zeta in Hc. exists own, kd, free. split; [|by apply geo_thr]. unfold allocate.
  destruct Hc as [[Hl ->]|(Hi & Hf & _)].
  - rewrite Z.eqb_refl. apply (start_step m own kd free t s Hco Hcode); try done; [by apply same_refl|by repeat apply Forall_cons_2|].
    cbn. unfold kMaxClassSize, kBlockHeaderSize in Hl. split_and!; try done; lia.
  - unfold kNumClasses in Hi. rewrite (proj2 (Z.eqb_neq _ _)) by (unfold kLargeClassIndex; lia).
    assert (class_at s n (class_index_for_payload size)) as Ha by (split_and!; [by apply (g_full _ _ Hg)|done|unfold kNumClasses; lia|unfold kNumClasses; lia]).
    apply (start_step m own kd free t s Hco Hcode); try done; [by apply same_refl|by repeat apply Forall_cons_2|].
    cbn. split_and!; try done; lia.
Qed.
End calls.

(** * Runs *)

Section runs.
Context (num_nodes : Z).

Lemma set_max_inv m n i z s : inv m s -> inv (m + 1) (set_max_slabs_for_class n i z s).
Proof.
  intros (own & kd & free & Hco & Hg). unfold set_max_slabs_for_class. destruct (allocators s !! n) as [A|] eqn:EA; [|apply inv_weaken_slab; by exists own, kd, free].
  destruct (kNumClasses <=? i); [apply inv_weaken_slab; by exists own, kd, free|]. exists own, kd, free. split.
  - apply core_calm with s; try done; [apply same_evolves; [apply same_set_allocator|done]|apply same_set_allocator].
  - eapply geo_same; [by eapply static_allocator|done].
Qed.

Lemma step_inv m tm s s' : inv m s -> m + 1 < 2 ^ 32 -> disciplined num_nodes tm s -> step num_nodes tm s = Some s' -> inv (m + 1) s'.
Proof.
  intros Hinv Hm Hd E. destruct tm as [t [c|e]]; cbn in E.
  - unfold begin_call in E. destruct (code (thr t s)) as [|] eqn:Hc; [|done]. destruct (constructed s); [|done]. destruct Hinv as (own & kd & free & Hco & Hg).
    assert (forall n p claim, p = 0 \/ owned_by n p s \/ foreign_header p s ->
      (if p =? 0 then Some s else '(new, _, s') ← deallocate n p claim Null (if frees p claim s then set_live (delete p (live s)) s else s); Some (set_thr t (Thread new Null (out (thr t s))) s')) = Some s' ->
      inv (m + 1) s') as Hfree.
    { intros n p claim Hp H. destruct (Z.eqb_spec p 0) as [_|Hz]; [injection H as <-; apply inv_weaken_slab; by exists own, kd, free|].
      apply bind_Some in H as ([[new r] s1] & H1 & H2). injection H2 as <-. eapply dealloc_inv; [done|done|done|by destruct Hp|done]. }
    assert (forall p, is_Some (live s !! p) -> 0 <= owner_node_of p s < num_nodes -> forall cur, allocator_for_block num_nodes cur p s = owner_node_of p s) as Hnode.
    { intros p Hp Hr cur. unfold allocator_for_block. rewrite (proj2 (Z.leb_le _ _)), (proj2 (Z.ltb_lt _ _)) by lia. done. }
    destruct c; cbn in Hd; try (injection E as <-).
    + destruct Hd as [? ?]. by apply (alloc_inv m t s own kd free).
    + by eapply Hfree.
    + by eapply Hfree.
    + destruct Hd as [? ?]. by apply (alloc_inv m t s own kd free).
    + eapply Hfree; [|done]. destruct Hd as [?|[[Hp Hr]|?]]; [by left| |by right; right]. right. left. split; [done|by rewrite Hnode].
    + eapply Hfree; [|done]. destruct Hd as [?|[[Hp Hr]|?]]; [by left| |by right; right]. right. left. split; [done|by rewrite Hnode].
    + apply set_max_inv. by exists own, kd, free.
    + case_bool_decide as Hp; [|done]. injection E as <-. exists own, kd, free. split; [by apply scribble_step|]. apply (geo_same _ s); [by apply static_refl|done].
    + destruct Hd as [_ Hd]. exists own, kd, free. split; [apply foreign_step; [done|by apply (foreign_unknown s kd Hg)]|]. apply (geo_same _ s); [by apply static_refl|done].
  - cbn in Hd. destruct (code (thr t s)) as [|ins rest] eqn:Hc; [done|]. apply bind_Some in E as ([[new r] s1] & E & H). injection H as <-.
    destruct Hinv as (own & kd & free & Hco & Hg). destruct Hd. by eapply slab_access_inv.
Qed.

Lemma slab_run_inv moves m s s' : inv m s -> m + Z.of_nat (length moves) < 2 ^ 32 -> run_disciplined num_nodes moves s = Some s' -> exists m', inv m' s'.
Proof.
  revert m s. induction moves as [|tm moves IH]; cbn [length run_disciplined]; intros m s Hi Hm E; [injection E as <-; eauto|].
  destruct (decide _) as [Hd|]; [|done]. apply bind_Some in E as (s1 & E1 & E). apply (IH (m + 1) s1); [|lia|done]. apply (step_inv m tm s); [done|lia|done|done].
Qed.
End runs.

(** ** The initial state *)

Section init.
Context (cfgs : list (Z * config)).
Hypothesis (Hok : config_ok cfgs).

Lemma init_allocator n A : allocators (init cfgs) !! n = Some A -> exists cfg, (n, cfg) ∈ cfgs /\ A = new_allocator cfg.
Proof. cbn. intros ([n' cfg] & [= -> ->] & Hin)%elem_of_list_to_map_2%list_elem_of_fmap. eauto. Qed.
Lemma init_allocator_is n cfg : (n, cfg) ∈ cfgs -> is_Some (allocators (init cfgs) !! n).
Proof.
  intros Hin. cbn. apply not_eq_None_Some. intros H%not_elem_of_list_to_map. apply H. apply list_elem_of_fmap. exists (n, new_allocator cfg). split; [done|].
  apply list_elem_of_fmap. by exists (n, cfg).
Qed.
Lemma init_class n i c : classes (init cfgs) !! (n, i) = Some c -> exists cfg, (n, cfg) ∈ cfgs /\ 0 <= i < kNumClasses /\ c = new_class cfg i.
Proof.
  cbn. intros H%elem_of_list_to_map_2. apply list_elem_of_bind in H as ([n' cfg] & H & Hin). apply list_elem_of_fmap in H as (i' & [= -> -> ->] & Hi%elem_of_seqZ).
  exists cfg. split_and!; [done|lia|lia|done].
Qed.
Lemma init_class_is n cfg i : (n, cfg) ∈ cfgs -> 0 <= i < kNumClasses -> is_Some (classes (init cfgs) !! (n, i)).
Proof.
  intros Hin Hi. cbn. apply not_eq_None_Some. intros H%not_elem_of_list_to_map. apply H. apply list_elem_of_fmap. exists (n, i, new_class cfg i). split; [done|].
  apply list_elem_of_bind. exists (n, cfg). split; [|done]. cbn. apply list_elem_of_fmap. exists i. split; [done|]. apply elem_of_seqZ. lia.
Qed.
Lemma init_heap a r : heap (init cfgs) !! a = Some r -> exists n cfg, (n, cfg) ∈ cfgs /\ mapping cfg = Some (a, r.1) /\ r.2 = Mapped.
Proof.
  cbn. intros H%elem_of_list_to_map_2. apply list_elem_of_bind in H as ([n cfg] & H & Hin). cbn in H. destruct (mapping cfg) as [[b z]|] eqn:E; [|by apply not_elem_of_nil in H].
  apply list_elem_of_singleton in H as [= -> ->]. by exists n, cfg.
Qed.

Lemma cfg_classes n cfg i : (n, cfg) ∈ cfgs -> 0 <= i < kNumClasses -> bytes_of i <= slab_size_of cfg i < 2 ^ 32.
Proof.
  intros Hin Hi. destruct Hok as (_ & Hf & _). rewrite Forall_forall in Hf. destruct (Hf _ Hin) as [H _]. rewrite Forall_forall in H. apply H, elem_of_seqZ. lia.
Qed.
Lemma cfg_mapping n cfg b z : (n, cfg) ∈ cfgs -> mapping cfg = Some (b, z) -> 0 < b /\ kSharedMemHeaderSize <= z /\ b + z <= 2 ^ 63.
Proof. intros Hin Hm. destruct Hok as (_ & Hf & _). rewrite Forall_forall in Hf. destruct (Hf _ Hin) as [_ H]. cbn in H. by rewrite Hm in H. Qed.
Lemma cfg_same n cfg cfg' : (n, cfg) ∈ cfgs -> (n, cfg') ∈ cfgs -> cfg = cfg'.
Proof.
  intros H1 H2. destruct Hok as (Hn & _). apply list_elem_of_lookup in H1 as [j Hj], H2 as [j' Hj'].
  assert (j = j') as <-; [|congruence]. eapply (NoDup_lookup cfgs.*1); [done| |]; rewrite list_lookup_fmap; [by rewrite Hj|by rewrite Hj'].
Qed.
Lemma cfg_apart n n' cfg cfg' b z b' z' : (n, cfg) ∈ cfgs -> (n', cfg') ∈ cfgs -> mapping cfg = Some (b, z) -> mapping cfg' = Some (b', z') -> n = n' \/ separate b z b' z'.
Proof.
  intros H1 H2 M1 M2. destruct Hok as (_ & _ & Hp). rewrite Forall_forall in Hp. specialize (Hp _ H1). rewrite Forall_forall in Hp. specialize (Hp _ H2).
  cbn in Hp. rewrite M1, M2 in Hp. done.
Qed.
Lemma cfg_base n n' cfg cfg' b z z' : (n, cfg) ∈ cfgs -> (n', cfg') ∈ cfgs -> mapping cfg = Some (b, z) -> mapping cfg' = Some (b, z') -> n = n' /\ z = z'.
Proof.
  intros H1 H2 M1 M2. assert (n = n') as <-; [|by rewrite (cfg_same _ _ _ H1 H2), M2 in M1; injection M1]. destruct (cfg_apart _ _ _ _ _ _ _ _ H1 H2 M1 M2) as [?|Hs]; [done|].
  pose proof (cfg_mapping _ _ _ _ H1 M1). pose proof (cfg_mapping _ _ _ _ H2 M2). unfold separate, kSharedMemHeaderSize in *. lia.
Qed.

Lemma init_mapped n cfg b z : (n, cfg) ∈ cfgs -> mapping cfg = Some (b, z) -> heap (init cfgs) !! b = Some (z, Mapped).
Proof.
  intros Hin Hm. destruct (heap (init cfgs) !! b) as [r|] eqn:E.
  - destruct (init_heap b r E) as (n' & cfg' & H1 & H2 & H3). destruct (cfg_base n n' cfg cfg' b z r.1) as [_ Hz]; try done. destruct r. cbn in *. congruence.
  - exfalso. cbn in E. apply not_elem_of_list_to_map in E. apply E. apply list_elem_of_fmap. exists (b, (z, Mapped)). split; [done|]. apply list_elem_of_bind. exists (n, cfg).
    split; [|done]. cbn. rewrite Hm. by left.
Qed.

Lemma init_geo : geo ∅ (init cfgs).
Proof.
  split.
  - intros [n i] cs ss it H. apply fmap_Some in H as (c & Hc & Hs). apply init_class in Hc as (cfg & Hin & Hi & ->). pose proof (cfg_classes n cfg i Hin Hi) as Hb.
    assert (u32 (Z.shiftl kMinClassSize i) = bytes_of i) as Ecs.
    { rewrite Z.shiftl_mul_pow2 by lia. unfold bytes_of, kMinClassSize, wrap, kNumClasses in *. assert (0 < 2 ^ i <= 2 ^ 10) by (split; [lia|apply Z.pow_le_mono_r; lia]). apply Z.mod_small. lia. }
    injection Hs as -> -> ->. rewrite Ecs. pose proof (bytes_pos i Hi). split_and!; try lia.
    rewrite (proj2 (Z.ltb_lt _ _)); [done|]. apply Z.div_str_pos. lia.
  - intros n i Hn Hi. destruct Hn as [A HA]. apply init_allocator in HA as (cfg & Hin & _). by apply init_class_is with cfg.
  - done.
  - done.
  - intros a a' r r' (n & cfg & H1 & H2 & _)%init_heap (n' & cfg' & H1' & H2' & _)%init_heap Hne. destruct (cfg_apart _ _ _ _ _ _ _ _ H1 H1' H2 H2') as [<-|?]; [|done].
    exfalso. rewrite (cfg_same _ _ _ H1 H1') in H2. congruence.
  - intros a r (n & cfg & H1 & H2 & _)%init_heap. pose proof (cfg_mapping _ _ _ _ H1 H2). unfold kSharedMemHeaderSize in *. lia.
  - intros n base size off H Hb. apply fmap_Some in H as (A & HA & Hs). apply init_allocator in HA as (cfg & Hin & ->). unfold arena, new_allocator in Hs. cbn in Hs.
    destruct (mapping cfg) as [[b z]|] eqn:Em; injection Hs as -> -> ->; [|done]. pose proof (cfg_mapping _ _ _ _ Hin Em). cbn [from_option fst snd].
    split_and!; try done; try lia. by apply init_mapped with n cfg.
  - intros n n' base size off size' off' H H' Hb. apply fmap_Some in H as (A & HA & Hs), H' as (A' & HA' & Hs'). apply init_allocator in HA as (cfg & Hin & ->), HA' as (cfg' & Hin' & ->).
    unfold arena, new_allocator in Hs, Hs'. cbn in Hs, Hs'. destruct (mapping cfg) as [[b z]|] eqn:Em; injection Hs as -> -> ->; [|done].
    destruct (mapping cfg') as [[b' z']|] eqn:Em'; injection Hs' as E1 E2 E3; cbn in *; [|done]. subst. by destruct (cfg_base n n' cfg cfg' b' z z').
Qed.

Lemma init_core : core 0 ∅ ∅ (fun _ _ => []) (init cfgs).
Proof.
  assert (forall t, code (thr t (init cfgs)) = [] \/ code (thr t (init cfgs)) = [Construct (cfgs ≫= fun nc => initial_slabs nc.1 nc.2)]) as Hcode.
  { intros t. unfold thr, init. cbn. destruct (decide (t = 0)) as [->|]; [rewrite lookup_singleton_eq; by right|rewrite lookup_singleton_ne by done; by left]. }
  assert (forall t, ret (thr t (init cfgs)) = Null) as Hret.
  { intros t. unfold thr, init. cbn. destruct (decide (t = 0)) as [->|]; [by rewrite lookup_singleton_eq|by rewrite lookup_singleton_ne by done]. }
  assert (forall t, transit (thr t (init cfgs)) = []) as Htr by (intros t; unfold transit; rewrite Hret; by destruct (Hcode t) as [->| ->]).
  split; try done.
  - intros n i c (cfg & Hin & Hi & ->)%init_class. cbn. split_and!; try lia; try done. rewrite Z.shiftl_mul_pow2 by lia.
    unfold bytes_of, kMinClassSize, wrap, kNumClasses in *. assert (0 < 2 ^ i <= 2 ^ 10) by (split; [lia|apply Z.pow_le_mono_r; lia]). apply Z.mod_small. lia.
  - intros n i b. split; [by intros ?%not_elem_of_nil|done].
  - intros. apply NoDup_nil_2.
  - intros n i b ?%not_elem_of_nil. done.
  - intros t b. rewrite Htr. split; [by intros ?%not_elem_of_nil|done].
  - intros t. rewrite Htr. apply NoDup_nil_2.
  - intros b. cbn. split; [by intros ?%is_Some_None|done].
  - intros b ?%is_Some_None. done.
  - intros b ?%is_Some_None. done.
  - intros t. destruct (Hcode t) as [->| ->]; [done|]. apply Forall_singleton. cbn -[init]. apply Forall_forall. intros [n i] H. apply list_elem_of_bind in H as ([n' cfg] & H & Hin).
    unfold initial_slabs in H. apply list_elem_of_bind in H as (i' & H & Hi%elem_of_seqZ). apply elem_of_replicate in H as [H _]. injection H as -> ->. cbn -[init].
    split_and!; [apply init_class_is with cfg; [done|lia]|by apply init_allocator_is with cfg|lia|lia].
  - intros t. by destruct (Hcode t) as [->| ->].
  - intros t. unfold ret_ok. by rewrite Hret.
Qed.
End init.

(** * Theorems *)

(** A state that a disciplined run of fewer than 2^32 moves reaches. *)
Definition slab_reachable (num_nodes : Z) (cfgs : list (Z * config)) (s : state) : Prop :=
  exists moves, Z.of_nat (length moves) < 2 ^ 32 /\ run_disciplined num_nodes moves (init cfgs) = Some s.

Lemma slab_reachable_inv num_nodes cfgs s : config_ok cfgs -> slab_reachable num_nodes cfgs s -> exists m, inv m s.
Proof.
  intros Hok (moves & Hm & E). eapply (slab_run_inv num_nodes moves 0); [|lia|exact E]. eexists _, _, _. split; [by apply init_core|by apply init_geo].
Qed.

Lemma slab_reachable_locks num_nodes cfgs s : slab_reachable num_nodes cfgs s -> locks_ok s.
Proof. intros (moves & _ & E). eapply run_locks; [apply init_locks|exact E]. Qed.

Lemma free_header m own kd free s n i b : core m own kd free s -> b ∈ free n i -> headers s !! b = Some (header_of (Kind n i (bytes_of i))).
Proof.
  intros Hco Hb. pose proof (c_fkind _ _ _ _ _ Hco n i b Hb) as Hk. destruct (c_hdr _ _ _ _ _ Hco b _ Hk) as [?|[t Hu]]; [done|]. exfalso.
  apply list_elem_of_bind in Hu as (ins & Hu & Hi). pose proof (held_transit _ _ _ Hi (uncarved_held _ _ Hu)) as Ht.
  apply (c_thread _ _ _ _ _ Hco) in Ht. apply (c_free _ _ _ _ _ Hco) in Hb. congruence.
Qed.

Section claims.
Context (num_nodes : Z) (cfgs : list (Z * config)).

(** C24: whatever the interleaving of allocations, deallocations, slab growth and
    writes of clients to their own blocks, the memory of a block a client holds (its
    header and the bytes asked for) lies in one region obtained from the system and
    overlaps no other client's block; every free list is a chain without repetition,
    whose blocks no client holds and no client's memory overlaps, and which carry the
    class and the node of that list, so a block freed from any node goes back to the
    node it was carved on. The runs are shorter than the 2^32 moves after which a tag
    could repeat. *)
Theorem slab_blocks_exclusive (s : state) : config_ok cfgs -> slab_reachable num_nodes cfgs s ->
  (forall p size, live s !! p = Some size -> exists a r, heap s !! a = Some r /\ a <= p - kBlockHeaderSize /\ p + size <= a + r.1) /\
  (forall p q sp sq, live s !! p = Some sp -> live s !! q = Some sq -> p <> q ->
    separate (p - kBlockHeaderSize) (sp + kBlockHeaderSize) (q - kBlockHeaderSize) (sq + kBlockHeaderSize)) /\
  (forall n i c, classes s !! (n, i) = Some c -> exists l, chain (links s) (ptr (free_list c)) l /\ NoDup l /\
    forall b, b ∈ l -> headers s !! b = Some (Header kBlockMagic (bytes_of i - kBlockHeaderSize) i n) /\ live s !! b = None /\
      forall p sp, live s !! p = Some sp -> separate (p - kBlockHeaderSize) (sp + kBlockHeaderSize) (b - kBlockHeaderSize) (bytes_of i)).
Proof.
  intros Hok [m (own & kd & free & Hco & Hg)]%slab_reachable_inv; [|done]. split_and!.
  - intros p size Hp. destruct (c_lkind _ _ _ _ _ Hco p size Hp) as (k & Hk & _ & Hb & _). destruct (g_in _ _ Hg p k Hk) as (_ & _ & Hpl).
    apply placed_region in Hpl as (a & r & Ha & H1 & H2). exists a, r. split_and!; [done|done|lia].
  - intros p q sp sq Hp Hq Hne. destruct (c_lkind _ _ _ _ _ Hco p sp Hp) as (k & Hk & _ & Hb & _), (c_lkind _ _ _ _ _ Hco q sq Hq) as (k' & Hk' & _ & Hb' & _).
    pose proof (g_sep _ _ Hg p q k k' Hk Hk' Hne) as Hs. unfold separate in *. lia.
  - intros n i c Hc. destruct (c_class _ _ _ _ _ Hco n i c Hc) as (Hi & _ & _ & Hch). exists (free n i). split_and!; [done|apply (c_fnodup _ _ _ _ _ Hco)|].
    intros b Hb. pose proof (c_fkind _ _ _ _ _ Hco n i b Hb) as Hk. rewrite (free_header m own kd free s n i b Hco Hb).
    assert (live s !! b = None) as Hl. { apply eq_None_not_Some. intros H%(c_live _ _ _ _ _ Hco). apply (c_free _ _ _ _ _ Hco) in Hb. congruence. }
    split_and!; [|done|].
    + unfold header_of. cbn. unfold kNumClasses in Hi. rewrite (proj2 (Z.eqb_neq i kLargeClassIndex)); [done|unfold kLargeClassIndex; lia].
    + intros p sp Hp. destruct (c_lkind _ _ _ _ _ Hco p sp Hp) as (k & Hk' & _ & Hbt & _). pose proof (g_sep _ _ Hg p b k _ Hk' Hk) as Hs. cbn in Hs.
      assert (p <> b) as Hne by congruence. specialize (Hs Hne). unfold separate in *. lia.
Qed.

(** A thread takes its next step unless it is at a lock that is taken. *)
Lemma slab_step_or_wait (s : state) (t : Z) (e : env) : config_ok cfgs -> slab_reachable num_nodes cfgs s -> code (thr t s) <> [] ->
  is_Some (step num_nodes (t, Step e) s) \/ exists n i rest t', code (thr t s) = Lock n i :: rest /\ holder s n i = Some t'.
Proof.
  intros Hok Hr Hc. pose proof (slab_reachable_locks _ _ _ Hr) as Hl. destruct (slab_reachable_inv _ _ _ Hok Hr) as [m (own & kd & free & Hco & Hg)].
  cbn. destruct (code (thr t s)) as [|ins rest] eqn:Hcode; [done|].
  pose proof (top_frame _ _ _ _ _ _ _ _ Hco Hcode) as Hf. unfold is_Some.
  destruct ins; cbn in Hf; cbv beta iota zeta delta [access pop_load pop_cas pop_count pop_ops pop_frees pop_peak pop_peak_cas count_free push_cas push_count
    add_slab_to_class obtain book_slab add_slab slab_done after_fast lock_class after_locked after_add after_grow unlock_class allocate_large construct deliver peak_round];
    unfold class_at in Hf; destr; try match goal with H : is_Some (classes s !! _) |- _ => destruct H as [c Ec]; rewrite Ec end;
    try match goal with H : is_Some (allocators s !! _) |- _ => destruct H as [A EA]; rewrite ?EA end;
    cbn -[saturating_add slab_blocks]; try (left; repeat case_match; eauto; fail).
  - destruct (slab_mutexes A !! i) as [t'|] eqn:E; [right|left; eauto]. exists n, i, rest, t'. split; [done|]. unfold holder. by rewrite EA.
  - left. assert (holder s n i = Some t) as Hh by (apply (lk_holder _ Hl); rewrite Hcode; by left). unfold holder in Hh. rewrite EA in Hh. cbn in Hh.
    rewrite bool_decide_eq_true_2 by done. eauto.
Qed.

(** C25: no call gets stuck. A thread that has something to do can take its next step
    whatever the system answers, or waits for the mutex of the class it wants to
    grow; then the mutex is held by another thread, which still has the release in
    front of it and can take its next step whatever the system answers: no mutex is
    left locked by a finished call or by the thread that waits for it, no two threads
    wait for each other, a mutex is released only by its holder, and no access leaves
    the class tables. *)
Theorem slab_progress (s : state) (t : Z) (e : env) : config_ok cfgs -> slab_reachable num_nodes cfgs s -> code (thr t s) <> [] ->
  is_Some (step num_nodes (t, Step e) s) \/
  exists n i rest t', code (thr t s) = Lock n i :: rest /\ holder s n i = Some t' /\ t' <> t /\
    (n, i) ∈ (code (thr t' s) ≫= releases) /\ forall e', is_Some (step num_nodes (t', Step e') s).
Proof.
  intros Hok Hr Hc. destruct (slab_step_or_wait s t e Hok Hr Hc) as [?|(n & i & rest & t' & Hcode & Hh)]; [by left|right].
  pose proof (slab_reachable_locks _ _ _ Hr) as Hl. pose proof (proj1 (lk_holder _ Hl n i t') Hh) as Hrel. exists n, i, rest, t'. split_and!; [done|done| |done|].
  - intros ->. rewrite Hcode in Hrel. by apply (waiting_holds_none s t n i rest (n, i) Hl Hcode).
  - intros e'. destruct (slab_step_or_wait s t' e' Hok Hr) as [?|(n' & i' & rest' & t2 & Hcode' & _)]; [intros E; rewrite E in Hrel; by apply not_elem_of_nil in Hrel|done|].
    rewrite Hcode' in Hrel. by apply (waiting_holds_none s t' n' i' rest' (n, i) Hl Hcode') in Hrel.
Qed.

Lemma claim_class size i : 0 <= size < 2 ^ 64 -> 0 <= i < kNumClasses -> (class_index_for_payload size <= i <-> size + kBlockHeaderSize <= bytes_of i).
Proof.
  intros Hs Hi. pose proof (class_index_spec size Hs) as H. cbv zeta in H. set (j := class_index_for_payload size) in *.
  assert (forall x y, 0 <= x <= y -> bytes_of x <= bytes_of y) as Hmono by (intros x y Hxy; unfold bytes_of, kMinClassSize; pose proof (Z.pow_le_mono_r 2 x y); lia).
  destruct H as [[H ->]|(Hj & H1 & H2)].
  - pose proof (Hmono i 10). change (bytes_of 10) with kMaxClassSize in *. unfold kLargeClassIndex, kNumClasses in *. split; lia.
  - split; [intros Hji; pose proof (Hmono j i); lia|]. intros Hb. destruct (Z.le_gt_cases j i) as [?|Hgt]; [done|]. exfalso.
    destruct H2 as [H2|H2]; [lia|]. pose proof (Hmono i (j - 1)). lia.
Qed.

(** C26: the size a caller claims is checked and never believed. Deallocating a block
    that a client holds, on the allocator it came from: a claim is accepted exactly
    when it fits the block (for a large block, when it is large too), the size that
    was asked for is always accepted, an accepted slab block goes to the class in its
    header and a large one back to the system, and a refused claim changes nothing
    but the tally. *)
Theorem deallocate_checked (s : state) (n p asked claim : Z) (r : result) : config_ok cfgs -> slab_reachable num_nodes cfgs s ->
  live s !! p = Some asked -> owner_node_of p s = n -> 0 <= claim < 2 ^ 64 ->
  exists h, headers s !! p = Some h /\ owner_node h = n /\
    ((0 <= class_index h < kNumClasses /\ capacity h = bytes_of (class_index h) - kBlockHeaderSize /\ asked <= capacity h /\
      deallocate n p (Some claim) r s = if claim <=? capacity h then Some ([FreeOps n (class_index h) p], r, s) else Some ([], r, note_dealloc_reject n size_class_mismatch s)) \/
     (class_index h = kLargeClassIndex /\ heap s !! (p - kBlockHeaderSize) <> None /\
      deallocate n p (Some claim) r s = if kMaxClassSize <? claim + kBlockHeaderSize then Some ([], r, set_heap (delete (p - kBlockHeaderSize) (heap s)) s)
                                        else Some ([], r, note_dealloc_reject n size_class_mismatch s))).
Proof.
  intros Hok [m (own & kd & free & Hco & Hg)]%slab_reachable_inv Hp Hn Hcl; [|done].
  destruct (live_header m s own kd free Hco p) as (k & Hk & Hh & Hno & _ & Hc); [eauto|]. destruct (c_lkind _ _ _ _ _ Hco p asked Hp) as (k' & Hk' & _ & Hb & _).
  assert (k' = k) as -> by congruence. assert (k_node k = n) as Hkn by congruence. exists (header_of k). split; [done|]. split; [done|].
  unfold deallocate. rewrite Hh. cbn -[claim_fits free_by_header note_dealloc_reject class_index capacity header_of]. change (magic (header_of k) =? kBlockMagic) with true. cbn [negb].
  destruct Hc as [[(_ & _ & Hi) Hby]|Hl]; [left|right].
  - assert (k_class k =? kLargeClassIndex = false) as El by (apply Z.eqb_neq; unfold kNumClasses, kLargeClassIndex in *; lia).
    assert (capacity (header_of k) = bytes_of (k_class k) - kBlockHeaderSize) as Ec by (unfold header_of; rewrite El; cbn; lia).
    rewrite Ec. change (class_index (header_of k)) with (k_class k). split_and!; [lia|lia|done|lia|]. unfold claim_fits, free_by_header.
    change (class_index (header_of k)) with (k_class k). rewrite (proj2 (Z.leb_gt kNumClasses (k_class k))) by lia.
    pose proof (claim_class claim (k_class k) Hcl Hi) as Hiff.
    destruct (Z.leb_spec (class_index_for_payload claim) (k_class k)), (Z.leb_spec claim (bytes_of (k_class k) - kBlockHeaderSize)); try done; exfalso; intuition lia.
  - destruct (g_in _ _ Hg p k Hk) as (_ & _ & [(H & _)|[_ Hheap]]); [done|]. change (class_index (header_of k)) with (k_class k). split_and!; [done|by rewrite Hheap|].
    unfold claim_fits, free_by_header. change (class_index (header_of k)) with (k_class k). rewrite Hl. cbn -[class_index_for_payload note_dealloc_reject].
    pose proof (class_index_spec claim Hcl) as Hcs. cbv zeta in Hcs. destruct (Z.ltb_spec kMaxClassSize (claim + kBlockHeaderSize)) as [H1|H1].
    + destruct Hcs as [[_ ->]|(Hj & H2 & _)]; [done|]. exfalso. assert (bytes_of (class_index_for_payload claim) <= kMaxClassSize); [|lia].
      change kMaxClassSize with (bytes_of 10). unfold bytes_of, kMinClassSize, kNumClasses in *. pose proof (Z.pow_le_mono_r 2 (class_index_for_payload claim) 10). lia.
    + destruct Hcs as [[H2 _]|(Hj & _)]; [lia|]. rewrite (proj2 (Z.eqb_neq _ _)); [done|]. unfold kNumClasses, kLargeClassIndex in *. lia.
Qed.
End claims.

(** * Concrete runs *)

(** Thread [t] runs its call to the end; the system answers with [base], [base] +
    one million, and so on. *)
Fixpoint drive (fuel : nat) (t base : Z) (s : state) : list (Z * move) :=
  match fuel with
  | O => []
  | S fuel =>
      match code (thr t s) with
      | [] => []
      | ins :: _ =>
          let m := (t, Step (Env false None (match ins with Obtain _ _ | Large _ _ => Some base | _ => None end))) in
          match step 1 m s with Some s' => m :: drive fuel t (match ins with Obtain _ _ | Large _ _ => base + 1000000 | _ => base end) s' | None => [] end
      end
  end.
Definition after (moves : list (Z * move)) (s : state) : state := default s (run 1 moves s).
Definition then_call (t base : Z) (c : call) (moves : list (Z * move)) (s0 : state) : list (Z * move) :=
  let moves := moves ++ [(t, Begin c)] in moves ++ drive 200 t base (after moves s0).

Definition demo_cfg : config := Config 65536 0 2 ((fun i => 64 * 2 ^ i) <$> seqZ 0 11) [] None.
Definition demo_init : state := init [(0, demo_cfg)].
(** Two threads allocate; the first frees its block from another node. *)
Definition demo_moves : list (Z * move) :=
  then_call 1 3000000 (NodeDeallocate 5 1000016 100) (then_call 2 2000000 (CallAllocate 0 70000) (then_call 1 1000000 (NodeAllocate 0 100) (drive 10 0 0 demo_init) demo_init) demo_init) demo_init.
Definition demo_held : list (Z * move) :=
  then_call 2 2000000 (CallAllocate 0 70000) (then_call 1 1000000 (NodeAllocate 0 100) (drive 10 0 0 demo_init) demo_init) demo_init.

Definition demo_state : state := default demo_init (run_disciplined 1 demo_held demo_init).
Lemma demo_reachable : slab_reachable 1 [(0, demo_cfg)] demo_state.
Proof. exists demo_held. split; vm_compute; reflexivity. Qed.
Lemma demo_config : config_ok [(0, demo_cfg)].
Proof. apply (bool_decide_unpack _). vm_compute. exact I. Qed.

(** Two blocks are out: a slab block of 100 bytes and a large one of 70000. *)
Lemma slab_blocks_exclusive_witness : separate (1000016 - 16) (100 + 16) (2000016 - 16) (70000 + 16).
Proof.
  destruct (slab_blocks_exclusive 1 [(0, demo_cfg)] demo_state demo_config demo_reachable) as (_ & H & _).
  apply (H 1000016 2000016 100 70000); vm_compute; congruence.
Defined.

(** Two threads want to grow the same class: the first has the mutex, the second
    waits for it. *)
Definition idle_env : env := Env false None None.
Definition contend_moves : list (Z * move) :=
  demo_held ++ [(1, Begin (CallAllocate 0 100)); (2, Begin (CallAllocate 0 100));
    (1, Step idle_env); (1, Step idle_env); (1, Step idle_env); (2, Step idle_env); (2, Step idle_env)].
Definition demo_contended : state := default demo_init (run_disciplined 1 contend_moves demo_init).
Lemma contended_reachable : slab_reachable 1 [(0, demo_cfg)] demo_contended.
Proof. exists contend_moves. split; vm_compute; reflexivity. Qed.
Lemma slab_progress_witness : step 1 (2, Step idle_env) demo_contended = None /\ holder demo_contended 0 1 = Some 1 /\ is_Some (step 1 (1, Step idle_env) demo_contended).
Proof.
  assert (step 1 (2, Step idle_env) demo_contended = None) as Hn by (vm_compute; reflexivity). split; [exact Hn|].
  assert (code (thr 2 demo_contended) <> []) as H by (vm_compute; discriminate).
  destruct (slab_progress 1 [(0, demo_cfg)] demo_contended 2 idle_env demo_config contended_reachable H) as [[s' Hs]|(n & i & rest & t' & Hc & Hh & _ & _ & Hp)];
    [congruence|].
  assert (code (thr 2 demo_contended) = Lock 0 1 :: [Deliver 100]) as Hc' by (vm_compute; reflexivity). rewrite Hc' in Hc. injection Hc as <- <- <-.
  assert (holder demo_contended 0 1 = Some 1) as Hh' by (vm_compute; reflexivity). assert (t' = 1) as -> by congruence. split; [exact Hh'|apply Hp].
Defined.

(** A block whose claimed size is refused stays with its client, who frees it with
    the size it asked for. *)
Example refused_claim_keeps_block :
  let refused := then_call 1 0 (CallDeallocate 0 1000016 100000) demo_held demo_init in
  let freed := then_call 1 0 (CallDeallocate 0 1000016 100) refused demo_init in
  exists s s' c, run_disciplined 1 refused demo_init = Some s /\ live s !! 1000016 = Some 100 /\
    run_disciplined 1 freed demo_init = Some s' /\ live s' !! 1000016 = None /\ classes s' !! (0, 1) = Some c /\ ptr (free_list c) = 1000016.
Proof. eexists _, _, _. split; [vm_compute; reflexivity|]. split; [vm_compute; reflexivity|]. split; [vm_compute; reflexivity|]. split; [vm_compute; reflexivity|]. split; vm_compute; reflexivity. Qed.

(** The block of 100 bytes claimed as 113 bytes is refused. *)
Lemma deallocate_checked_witness : live demo_state !! 1000016 = Some 100 /\ exists h, headers demo_state !! 1000016 = Some h /\ owner_node h = 0.
Proof.
  split; [vm_compute; reflexivity|].
  destruct (deallocate_checked 1 [(0, demo_cfg)] demo_state 0 1000016 100 113 Null demo_config demo_reachable) as (h & H1 & H2 & _);
    [vm_compute; reflexivity|vm_compute; reflexivity|lia|]. exists h. split; assumption.
Defined.

(** A slab size below the size of a block passes construction, and a slab of that
    class is carved as one block although it is too short for it: the client of the
    first block holds memory past the end of the only region there is. *)
Definition short_cfg : config := Config 4096 0 2 [] [] None.
Definition short_moves : list (Z * move) := then_call 1 1000000 (CallAllocate 0 60000) (drive 10 0 0 (init [(0, short_cfg)])) (init [(0, short_cfg)]).
Lemma short_slab_overrun : exists s, run_disciplined 1 short_moves (init [(0, short_cfg)]) = Some s /\
  map_to_list (live s) = [(1000016, 60000)] /\ map_to_list (heap s) = [(1000000, (4096, SlabNew))].
Proof. eexists. vm_compute. split; [reflexivity|]. split; reflexivity. Qed.

(** The counts in the header of the mapped file include slabs that did not fit the
    file: after a limit was raised and the file ran out, a restart places slabs past
    the end of the mapping. *)
Definition file_cfg : config := Config 65536 0 1 ((fun i => 64 * 2 ^ i) <$> seqZ 0 11) [] (Some (1000000, 131096)).
Definition file_init : state := init [(0, file_cfg)].
Definition file_moves : list (Z * move) :=
  let big base moves := then_call 1 base (CallAllocate 0 60000) moves file_init in
  then_call 1 9000000 (CallAllocate 0 40) (big 7000000 (then_call 1 0 (CallSetMax 0 10 2) (big 5000000 (drive 10 0 0 file_init)) file_init)) file_init.
Lemma warm_restart_overrun : shared_memory_bytes file_cfg = 131096 /\
  exists s A, run_disciplined 1 file_moves file_init = Some s /\ allocators s !! 0 = Some A /\ header_valid file_cfg (saved_header file_cfg A) = true /\
    exists a z, (a, z) ∈ warm_slabs file_cfg 1000000 (saved_header file_cfg A) /\ 1000000 + 131096 < a + z.
Proof.
  split; [vm_compute; reflexivity|]. eexists _, _. split; [vm_compute; reflexivity|]. split; [vm_compute; reflexivity|]. split; [vm_compute; reflexivity|].
  exists (1000000 + 88 + 64 + 65536), 65536. split; [|lia]. vm_compute. by repeat (apply list_elem_of_here || apply list_elem_of_further).
Qed.

(** The owning handle neither loses nor duplicates a block. *)
Definition sp_blocks (p : slab_ptr) : list Z := if sp_block p =? 0 then [] else [sp_block p].
Definition sp_ok (p : slab_ptr) : Prop := sp_block p <> 0 -> is_Some (sp_owner p).
Lemma sp_reset_blocks p p' f : sp_ok p -> sp_reset p = (p', f) -> sp_ok p' /\ sp_blocks p' = [] /\ sp_blocks p = option_list (snd <$> f).
Proof.
  unfold sp_ok, sp_reset, sp_blocks. intros Hp E. destruct (Z.eqb_spec (sp_block p) 0) as [Hz|Hz]; injection E as <- <-; [rewrite Hz; by split_and!|].
  destruct (Hp Hz) as [n ->]. cbn. by split_and!.
Qed.
Lemma sp_assign_blocks same dst src dst' src' f : sp_ok dst -> sp_ok src -> sp_assign same dst src = (dst', src', f) ->
  sp_ok dst' /\ sp_ok src' /\ sp_blocks dst ++ sp_blocks src ≡ₚ sp_blocks dst' ++ sp_blocks src' ++ option_list (snd <$> f).
Proof.
  intros Hd Hs E. unfold sp_assign in E. destruct same; [injection E as <- <- <-; split_and!; [done|done|by rewrite app_nil_r]|].
  destruct (sp_reset dst) as [d f'] eqn:Er. destruct (sp_reset_blocks dst d f' Hd Er) as (_ & _ & Hb). injection E as <- <- <-.
  split_and!; [done|by intros []|]. rewrite Hb. cbn. apply Permutation_app_comm.
Qed.
