(* ===== verification/CompressedPtr.v ===== *)
(** * Compressed pointers

    compressed_ptr.hpp: pointers as 32-bit offsets from a base address, the hook
    that stores its links that way, and the region whose items such pointers can
    reach. An operation that throws returns [None]. *)
From S2P Require Import Prelude.

(** * The pointer *)

(** Addresses are [Z]; zero is the null pointer. *)
Definition kNullOffset : Z := U32_MAX.
Definition kMaxOffset : Z := kNullOffset - 1.

Inductive overflow := BelowBase | BeyondRange.

(** [compress], which [set_prev] and [set_next] of the hook repeat: the error, or
    the offset. *)
Definition compress (p base : Z) : overflow + Z :=
  if p =? 0 then inr kNullOffset
  else if p <? base then inl BelowBase
  else let diff := u64 (p - base) in if kNullOffset - 1 <? diff then inl BeyondRange else inr (u32 diff).
Definition get (offset base : Z) : Z := if offset =? kNullOffset then 0 else u64 (base + offset).

(** * The hook *)

Record compressed_intrusive_hook := CHook { prev_offset : Z; next_offset : Z; c_update_time : Z; c_flags : Z; c_queue_id : Z }.
Definition chook_new : compressed_intrusive_hook := CHook 0 0 0 0 0.
Definition is_prev_null (h : compressed_intrusive_hook) : bool := prev_offset h =? kNullOffset.
Definition is_next_null (h : compressed_intrusive_hook) : bool := next_offset h =? kNullOffset.
Definition set_prev_null (h : compressed_intrusive_hook) : compressed_intrusive_hook := CHook kNullOffset (next_offset h) (c_update_time h) (c_flags h) (c_queue_id h).
Definition set_next_null (h : compressed_intrusive_hook) : compressed_intrusive_hook := CHook (prev_offset h) kNullOffset (c_update_time h) (c_flags h) (c_queue_id h).
Definition c_prev (base : Z) (h : compressed_intrusive_hook) : Z := get (prev_offset h) base.
Definition c_next (base : Z) (h : compressed_intrusive_hook) : Z := get (next_offset h) base.
Definition c_set_prev (p base : Z) (h : compressed_intrusive_hook) : overflow + compressed_intrusive_hook :=
  match compress p base with inl e => inl e | inr o => inr (CHook o (next_offset h) (c_update_time h) (c_flags h) (c_queue_id h)) end.
Definition c_set_next (p base : Z) (h : compressed_intrusive_hook) : overflow + compressed_intrusive_hook :=
  match compress p base with inl e => inl e | inr o => inr (CHook (prev_offset h) o (c_update_time h) (c_flags h) (c_queue_id h)) end.
Definition c_with_flags (f : Z -> Z) (h : compressed_intrusive_hook) : compressed_intrusive_hook :=
  CHook (prev_offset h) (next_offset h) (c_update_time h) (f (c_flags h)) (c_queue_id h).
Definition c_set_update_time (t : Z) (h : compressed_intrusive_hook) : compressed_intrusive_hook :=
  CHook (prev_offset h) (next_offset h) t (c_flags h) (c_queue_id h).

(** * The region *)

(** The block at [memory]; [destructors] are the items with destructors to run, in
    the order of their allocation. *)
Record compressed_region := Region { memory : Z; item_size : Z; item_capacity : Z; used : Z; destructors : list Z }.
Inductive region_error := InvalidArgument | BadAlloc.

(** The constructor; [os] is the answer of the allocation of the block. *)
Definition region_new (item_count size : Z) (os : option Z) : region_error + compressed_region :=
  if size =? 0 then inl InvalidArgument
  else if U64_MAX / size <? item_count then inl BadAlloc
  else match os with None => inl BadAlloc | Some b => inr (Region b size item_count 0 []) end.
Definition region_capacity (r : compressed_region) : Z := u64 (item_capacity r * item_size r).
Definition region_remaining (r : compressed_region) : Z := u64 (region_capacity r - used r).
(** [(used + alignment - 1) & ~(alignment - 1)] *)
Definition align_up (x alignment : Z) : Z := Z.land (u64 (u64 (x + alignment) - 1)) (u64 (Z.lnot (alignment - 1))).
(** [allocate<T>] with [sizeof(T)] and [alignof(T)]: the item, or a null pointer. *)
Definition region_allocate (size alignment : Z) (r : compressed_region) : Z * compressed_region :=
  let aligned_used := align_up (used r) alignment in
  if region_capacity r <? u64 (aligned_used + size) then (0, r)
  else let p := memory r + aligned_used in (p, Region (memory r) (item_size r) (item_capacity r) (u64 (aligned_used + size)) (destructors r ++ [p])).
(** The destructor runs the items' destructors in reverse order. *)
Definition region_destroy (r : compressed_region) : list Z := reverse (destructors r).

(** * Lemmas *)

Lemma compress_ok p base : p = 0 \/ 0 <= base <= p /\ p - base <= kMaxOffset -> exists o, compress p base = inr o /\ 0 <= o <= kNullOffset.
Proof.
  unfold compress, kMaxOffset, kNullOffset, wrap. intros Hp. destruct (Z.eqb_spec p 0); [eexists; split; [done|lia]|].
  destruct Hp as [?|[Hb Hr]]; [done|]. rewrite (proj2 (Z.ltb_ge p base)) by lia. rewrite !Z.mod_small by lia.
  rewrite (proj2 (Z.ltb_ge _ (p - base))) by lia. eexists. split; [done|lia].
Qed.
Lemma compress_get p base o : 0 <= p < 2 ^ 64 -> 0 < base < 2 ^ 64 -> compress p base = inr o -> get o base = p /\ 0 <= o <= kNullOffset.
Proof.
  unfold compress, get, kNullOffset, wrap. intros Hp Hb E. destruct (Z.eqb_spec p 0) as [->|Hz]; [injection E as <-; rewrite Z.eqb_refl; lia|].
  destruct (Z.ltb_spec p base); [done|]. rewrite (Z.mod_small (p - base)) in E by lia. destruct (Z.ltb_spec (U32_MAX - 1) (p - base)); [done|].
  injection E as <-. rewrite !(Z.mod_small (p - base)) by lia. rewrite (proj2 (Z.eqb_neq _ _)) by lia. rewrite Z.mod_small by lia. lia.
Qed.
Lemma compress_fails p base : 0 <= p < 2 ^ 64 -> 0 < base < 2 ^ 64 ->
  compress p base = inl BelowBase <-> p <> 0 /\ p < base.
Proof.
  unfold compress, wrap. intros Hp Hb. destruct (Z.eqb_spec p 0); [split; [done|tauto]|]. destruct (Z.ltb_spec p base); [tauto|].
  destruct (_ <? _); split; try done; lia.
Qed.
Lemma compress_beyond p base : 0 <= p < 2 ^ 64 -> 0 < base < 2 ^ 64 -> compress p base = inl BeyondRange <-> base + kMaxOffset < p.
Proof.
  unfold compress, wrap, kMaxOffset, kNullOffset. intros Hp Hb. destruct (Z.eqb_spec p 0); [split; [done|lia]|]. destruct (Z.ltb_spec p base); [split; [done|lia]|].
  rewrite (Z.mod_small (p - base)) by lia. destruct (Z.ltb_spec (U32_MAX - 1) (p - base)); split; try done; lia.
Qed.

Lemma land_align x k : 0 <= k < 64 -> 0 <= x < 2 ^ 64 -> Z.land x (u64 (Z.lnot (2 ^ k - 1))) = x - x mod 2 ^ k.
Proof.
  intros Hk Hx. unfold wrap. rewrite <- (Z.land_ones _ 64) by lia. rewrite (Z.land_comm (Z.lnot _)), Z.land_assoc, Z.land_ones, (Z.mod_small x) by lia.
  replace (2 ^ k - 1) with (Z.ones k) by (rewrite Z.ones_equiv; lia). rewrite <- Z.ldiff_land, Z.ldiff_ones_r, Z.shiftl_mul_pow2, Z.shiftr_div_pow2 by lia.
  pose proof (Z.div_mod x (2 ^ k)). lia.
Qed.
Lemma align_up_spec x k : 0 <= k < 32 -> 0 <= x -> x + 2 ^ k < 2 ^ 64 -> let y := align_up x (2 ^ k) in x <= y < x + 2 ^ k /\ y mod 2 ^ k = 0.
Proof.
  intros Hk Hx Hb. assert (0 < 2 ^ k) as Hp by lia. remember (x + 2 ^ k - 1) as z eqn:Ez. cbv zeta.
  assert (align_up x (2 ^ k) = z - z mod 2 ^ k) as ->.
  { unfold align_up. unfold wrap at 2. rewrite (Z.mod_small (x + 2 ^ k)) by lia. unfold wrap at 1. rewrite Z.mod_small, <- Ez by lia. apply land_align; lia. }
  pose proof (Z.mod_pos_bound z (2 ^ k) Hp). split; [lia|]. rewrite Zminus_mod_idemp_r, Z.sub_diag. apply Z.mod_0_l. lia.
Qed.

(** ** Sequences of allocations *)

Definition request : Type := Z * Z.
Definition request_ok (q : request) : Prop := 0 < q.1 < 2 ^ 32 /\ exists k, 0 <= k < 32 /\ q.2 = 2 ^ k.
(** The items that a sequence of requests gets, with their sizes and alignments. *)
Fixpoint region_run (qs : list request) (r : compressed_region) : list (Z * request) * compressed_region :=
  match qs with
  | [] => ([], r)
  | q :: qs => let '(p, r) := region_allocate q.1 q.2 r in let '(l, r) := region_run qs r in (if p =? 0 then l else (p, q) :: l, r)
  end.

Record region_ok (r : compressed_region) : Prop := {
  ro_memory : 0 < memory r /\ memory r + item_capacity r * item_size r <= 2 ^ 63;
  ro_capacity : 0 <= item_capacity r /\ 0 < item_size r;
  ro_used : 0 <= used r <= item_capacity r * item_size r }.

Lemma region_allocate_spec q r p r' : region_ok r -> request_ok q -> region_allocate q.1 q.2 r = (p, r') ->
  region_ok r' /\ memory r' = memory r /\ item_capacity r' = item_capacity r /\ item_size r' = item_size r /\
  ((p = 0 /\ r' = r) \/
   (memory r + used r <= p /\ p + q.1 = memory r + used r' /\ (p - memory r) mod q.2 = 0 /\ destructors r' = destructors r ++ [p])).
Proof.
  intros Hr (Hs & k & Hk & Ha) E. destruct (ro_memory _ Hr) as [Hm Hb]. destruct (ro_capacity _ Hr) as [Hc Hi]. pose proof (ro_used _ Hr) as Hu.
  assert (2 ^ k <= 2 ^ 31) by (apply Z.pow_le_mono_r; lia). assert (0 < 2 ^ k) by lia.
  pose proof (align_up_spec (used r) k Hk) as Hal. rewrite <- Ha in Hal. cbv zeta in Hal. destruct Hal as [H1 H2]; [lia|lia|].
  unfold region_allocate, region_capacity in E. set (y := align_up (used r) q.2) in *. unfold wrap in E. rewrite !Z.mod_small in E by lia.
  destruct (Z.ltb_spec (item_capacity r * item_size r) (y + q.1)); injection E as <- <-; [split_and!; auto|]. cbn.
  split; [split; cbn; lia|]. split_and!; try done. right. split_and!; [lia|lia| |done]. rewrite Z.add_simpl_l. exact H2.
Qed.

Lemma region_run_spec qs r l r' : region_ok r -> Forall request_ok qs -> region_run qs r = (l, r') ->
  region_ok r' /\ memory r' = memory r /\ item_capacity r' = item_capacity r /\ item_size r' = item_size r /\ used r <= used r' /\
  destructors r' = destructors r ++ l.*1 /\
  forall p q, (p, q) ∈ l -> memory r + used r <= p /\ p + q.1 <= memory r + used r' /\ (p - memory r) mod q.2 = 0 /\ 0 < q.1.
Proof.
  revert r l r'. induction qs as [|q qs IH]; intros r l r' Hr Hq E; cbn in E.
  - injection E as <- <-. rewrite app_nil_r. split_and!; try done. by intros p q ?%not_elem_of_nil.
  - apply Forall_cons in Hq as [Hq Hqs]. destruct (region_allocate q.1 q.2 r) as [p r1] eqn:E1. destruct (region_run qs r1) as [l1 r2] eqn:E2. injection E as <- <-.
    destruct (region_allocate_spec q r p r1 Hr Hq E1) as (Hr1 & M1 & M2 & M3 & Hp). destruct (IH r1 l1 r2 Hr1 Hqs E2) as (Hr2 & N1 & N2 & N3 & Hu & Hd & Hl).
    assert (0 < q.1) as Hq1 by apply Hq. destruct Hp as [[-> ->]|(H1 & H2 & H3 & H4)].
    + cbn. split_and!; try congruence; try lia; eauto.
    + pose proof (ro_memory _ Hr) as [Hm _]. pose proof (ro_used _ Hr). rewrite (proj2 (Z.eqb_neq p 0)) by lia. split_and!; try congruence; try lia.
      * rewrite Hd, H4, <- app_assoc. done.
      * intros p' q' [[= -> ->]|Hin]%elem_of_cons; [split_and!; try lia; done|]. destruct (Hl p' q' Hin) as (L1 & L2 & L3 & L4). rewrite M1 in *. split_and!; try lia; done.
Qed.

Lemma region_run_apart qs r l r' : region_ok r -> Forall request_ok qs -> region_run qs r = (l, r') ->
  forall i j x y, l !! i = Some x -> l !! j = Some y -> (i < j)%nat -> x.1 + x.2.1 <= y.1.
Proof.
  revert r l r'. induction qs as [|q qs IH]; intros r l r' Hr Hq E i j x y Hi Hj Hij; cbn in E.
  - injection E as <- <-. done.
  - apply Forall_cons in Hq as [Hq Hqs]. destruct (region_allocate q.1 q.2 r) as [p r1] eqn:E1. destruct (region_run qs r1) as [l1 r2] eqn:E2. injection E as <- <-.
    destruct (region_allocate_spec q r p r1 Hr Hq E1) as (Hr1 & M1 & _ & _ & Hp). destruct (Z.eqb_spec p 0) as [Hz|Hz]; [by eapply (IH r1 l1 r2 Hr1 Hqs E2)|].
    destruct Hp as [[? _]|(_ & H2 & _)]; [done|]. destruct j as [|j]; [lia|]. destruct i as [|i]; cbn in Hi, Hj; [|eapply (IH r1 l1 r2 Hr1 Hqs E2 i j); [done|done|lia]].
    injection Hi as <-. cbn. destruct (region_run_spec qs r1 l1 r2 Hr1 Hqs E2) as (_ & _ & _ & _ & _ & _ & Hl). destruct y as [py qy].
    destruct (Hl py qy) as (H3 & _); [by eapply list_elem_of_lookup_2|]. cbn. rewrite M1 in *. lia.
Qed.

(** * Theorems *)

(** The items of a region of at most 2^32 - 1 bytes lie inside it, do not overlap
    and are aligned relative to it, and each is reached by a compressed pointer: its
    address fits a 32-bit offset other than the null offset, decodes to itself, and
    no two items have the same offset; they are destroyed once each, the last first. *)
Theorem region_items_encodable (item_count size b : Z) (qs : list request) (r r' : compressed_region) (l : list (Z * request)) :
  region_new item_count size (Some b) = inr r -> 0 <= item_count -> 0 < size -> item_count * size <= U32_MAX -> 0 < b -> b + U32_MAX <= 2 ^ 63 ->
  Forall request_ok qs -> region_run qs r = (l, r') ->
  (forall p q, (p, q) ∈ l -> b <= p /\ p + q.1 <= b + item_count * size /\ (p - b) mod q.2 = 0 /\
    exists o, compress p b = inr o /\ 0 <= o < kNullOffset /\ get o b = p) /\
  (forall i j x y, l !! i = Some x -> l !! j = Some y -> (i < j)%nat -> x.1 + x.2.1 <= y.1 /\ compress x.1 b <> compress y.1 b) /\
  region_destroy r' = reverse l.*1 /\ NoDup (region_destroy r').
Proof.
  intros Hn Hc Hs Hcap Hb Hb2 Hq E. unfold region_new in Hn. rewrite (proj2 (Z.eqb_neq size 0)) in Hn by lia. destruct (_ <? _); [done|]. injection Hn as <-.
  set (r := Region b size item_count 0 []) in *. assert (region_ok r) as Hr by (split; cbn; lia).
  destruct (region_run_spec qs r l r' Hr Hq E) as (Hr' & _ & M2 & M3 & _ & Hd & Hl). pose proof (ro_used _ Hr') as Hu. rewrite M2, M3 in Hu. cbn in Hl, Hu, Hd.
  pose proof (region_run_apart qs r l r' Hr Hq E) as Hap.
  assert (forall p q, (p, q) ∈ l -> b <= p /\ p + q.1 <= b + item_count * size /\ (p - b) mod q.2 = 0 /\ exists o, compress p b = inr o /\ 0 <= o < kNullOffset /\ get o b = p) as Hin.
  { intros p q Hpq. destruct (Hl p q Hpq) as (H1 & H2 & H3 & H4). rewrite Z.add_0_r in H1. split_and!; [lia|lia|done|].
    destruct (compress_ok p b) as (o & Ho & _); [unfold kMaxOffset, kNullOffset; lia|]. destruct (compress_get p b o) as [Hg Hor]; [lia|lia|done|].
    exists o. split_and!; [done|lia| |done]. destruct (decide (o = kNullOffset)) as [->|]; [|lia]. unfold get in Hg. rewrite Z.eqb_refl in Hg. lia. }
  assert (forall i j x y, l !! i = Some x -> l !! j = Some y -> (i < j)%nat -> x.1 < y.1) as Hlt.
  { intros i j [p q] [p' q'] Hi Hj Hij. pose proof (Hap i j _ _ Hi Hj Hij) as H. cbn in *. destruct (Hl p q) as (_ & _ & _ & H4); [by eapply list_elem_of_lookup_2|]. lia. }
  split_and!; [exact Hin| |by rewrite <- (app_nil_l l.*1), <- Hd|].
  - intros i j [p q] [p' q'] Hi Hj Hij. split; [by apply (Hap i j)|]. cbn. pose proof (Hlt i j _ _ Hi Hj Hij) as H. cbn in H.
    destruct (Hin p q) as (_ & _ & _ & o & -> & _ & Hg); [by eapply list_elem_of_lookup_2|]. destruct (Hin p' q') as (_ & _ & _ & o' & -> & _ & Hg'); [by eapply list_elem_of_lookup_2|].
    intros [= ->]. lia.
  - unfold region_destroy. rewrite Hd. cbn. rewrite reverse_Permutation. apply NoDup_alt. intros i j x Hi Hj. rewrite list_lookup_fmap in Hi, Hj.
    apply fmap_Some in Hi as (xi & Hi & ->), Hj as (xj & Hj & Hx). destruct (lt_eq_lt_dec i j) as [[H|H]|H]; [|done|]; exfalso.
    + pose proof (Hlt i j _ _ Hi Hj H). lia.
    + pose proof (Hlt j i _ _ Hj Hi H). lia.
Qed.

Definition demo_requests : list request := [(24, 8); (1, 1); (16, 16); (100, 4)].
Lemma region_items_encodable_witness : exists o, compress (4096 + 32) 4096 = inr o /\ 0 <= o < kNullOffset /\ get o 4096 = 4096 + 32.
Proof.
  destruct (region_items_encodable 4 32 4096 demo_requests (Region 4096 32 4 0 []) (snd (region_run demo_requests (Region 4096 32 4 0 [])))
    (fst (region_run demo_requests (Region 4096 32 4 0 [])))) as (H & _); [reflexivity|lia|lia|lia|lia|lia| |vm_compute; reflexivity|].
  - repeat apply Forall_cons_2; [..|apply Forall_nil_2]; (split; [cbn; lia|]); [exists 3|exists 0|exists 4|exists 2]; (split; [lia|reflexivity]).
  - apply (H (4096 + 32) (16, 16)). vm_compute. right. right. left.
Defined.

(** A region is not limited to what its pointers can reach: construction accepts
    one of five billion bytes, and an item past the first 4 GB cannot be encoded. *)
Lemma region_beyond_pointers : let r0 := Region 4096 1000 5000000 0 [] in
  region_new 5000000 1000 (Some 4096) = inr r0 /\
  let '(l, _) := region_run [(4294967000, 8); (1000, 8); (1000, 8)] r0 in (fun x => compress x.1 4096) <$> l = [inr 0; inr 4294967000; inl BeyondRange].
Proof. vm_compute. split; reflexivity. Qed.
