(* ===== verification/CompressedList.v ===== *)
(** * The list over any hook

    detail/intrusive_list.hpp is a template over its hook: every link operation goes
    through [hook_pointer_traits]. [HookTraits] is that interface; the operations are
    written once over it, in a monad with failed assertions and the exceptions of
    compressed links. Every link is read and written with the base of the list. With
    raw hooks they are the operations of IntrusiveList; with compressed hooks they do
    the same as long as the items lie in reach of the base and no item is moved that
    was never linked. *)
From S2P Require Import Prelude IntrusiveList ListRefine CompressedPtr.

(** * The interface *)

(** The links are written and read relative to a base, given before the hook. *)
Class HookTraits (H : Type) := {
  ht_set_prev : ptr -> ptr -> H -> option H;
  ht_set_next : ptr -> ptr -> H -> option H;
  ht_prev : ptr -> H -> ptr;
  ht_next : ptr -> H -> ptr;
  ht_is_end_prev : H -> bool;
  ht_is_linked : H -> bool;
  ht_set_linked : H -> H;
  ht_clear_linked : H -> H }.

(** [hook_pointer_traits<intrusive_hook>]: nothing throws, and the base is ignored. *)
#[export] Instance raw_traits : HookTraits intrusive_hook := {
  ht_set_prev p _ k := Some (set_prev p k);
  ht_set_next p _ k := Some (set_next p k);
  ht_prev _ := prev;
  ht_next _ := next;
  ht_is_end_prev := is_end_prev;
  ht_is_linked := is_linked;
  ht_set_linked := set_linked;
  ht_clear_linked := clear_linked }.

(** [hook_pointer_traits<compressed_intrusive_hook>]. *)
Definition addr (p : ptr) : Z := from_option Zpos 0 p.
Definition of_addr (a : Z) : ptr := match a with Zpos p => Some p | _ => None end.
Definition thrown {A B} (x : A + B) : option B := match x with inl _ => None | inr b => Some b end.
#[export] Instance compressed_traits : HookTraits compressed_intrusive_hook := {|
  ht_set_prev p base k := thrown (c_set_prev (addr p) (addr base) k);
  ht_set_next p base k := thrown (c_set_next (addr p) (addr base) k);
  ht_prev base k := of_addr (c_prev (addr base) k);
  ht_next base k := of_addr (c_next (addr base) k);
  ht_is_end_prev := is_prev_null;
  ht_is_linked k := negb (Z.land (c_flags k) kLinkedFlag =? 0);
  ht_set_linked := c_with_flags (fun f => Z.lor f kLinkedFlag);
  ht_clear_linked := c_with_flags (fun f => Z.land f kLinkedClearMask) |}.

(** * The operations *)

(** [Threw] carries the state at the throw, [Bad] is a failed assertion or a
    dangling pointer. *)
Inductive outcome (S A : Type) := Done (a : A) (s : S) | Threw (s : S) | Bad.
Arguments Done {S A}.
Arguments Threw {S A}.
Arguments Bad {S A}.

Section ops.
Context {H : Type} `{HookTraits H}.

Definition hooks : Type := gmap loc H * intrusive_list.
Definition M (A : Type) : Type := hooks -> outcome hooks A.
#[local] Instance M_ret : MRet M := fun _ a s => Done a s.
#[local] Instance M_bind : MBind M := fun _ _ k m s => match m s with Done a s => k a s | Threw s => Threw s | Bad => Bad end.

(** Reading and writing the hook of an item, with the base of the list. *)
Definition rd {A} (f : ptr -> H -> A) (p : loc) : M A := fun s => match s.1 !! p with Some k => Done (f (base s.2) k) s | None => Bad end.
Definition wr (f : ptr -> H -> option H) (p : loc) : M unit :=
  fun s => match s.1 !! p with Some k => match f (base s.2) k with Some k => Done tt (<[p := k]> s.1, s.2) | None => Threw s end | None => Bad end.
Definition look {A} (f : intrusive_list -> A) : M A := fun s => Done (f s.2) s.
Definition change (f : intrusive_list -> intrusive_list) : M unit := fun s => Done tt (s.1, f s.2).
Definition check (b : bool) : M unit := fun s => if b then Done tt s else Bad.

Definition g_patch_next (p to : ptr) : M unit := match p with Some q => wr (ht_set_next to) q | None => change (with_head to) end.
Definition g_patch_prev (p to : ptr) : M unit := match p with Some q => wr (ht_set_prev to) q | None => change (with_tail to) end.
Definition linked_hook (p : loc) : M bool := rd (fun _ => ht_is_linked) p.
Definition mark_linked (p : loc) : M unit := wr (fun _ k => Some (ht_set_linked k)) p.
Definition unmark_linked (p : loc) : M unit := wr (fun _ k => Some (ht_clear_linked k)) p.
Definition add_size (n : Z) : M unit := change (fun l => with_size (u64 (size_ l + n)) l).

Definition g_link_at_head (item : loc) : M unit :=
  b ← linked_hook item; _ ← check (negb b);
  _ ← wr (ht_set_prev None) item; hd ← look head_ptr; _ ← wr (ht_set_next hd) item;
  _ ← g_patch_prev hd (Some item);
  _ ← change (with_head (Some item)); _ ← mark_linked item; add_size 1.
Definition g_link_at_tail (item : loc) : M unit :=
  b ← linked_hook item; _ ← check (negb b);
  _ ← wr (ht_set_next None) item; tl ← look tail_ptr; _ ← wr (ht_set_prev tl) item;
  _ ← g_patch_next tl (Some item);
  _ ← change (with_tail (Some item)); _ ← mark_linked item; add_size 1.
Definition g_insert_before (next_node item : loc) : M unit :=
  nl ← linked_hook next_node; il ← linked_hook item; _ ← check (negb il); _ ← check nl;
  pr ← rd ht_prev next_node;
  _ ← wr (ht_set_prev pr) item; _ ← wr (ht_set_next (Some next_node)) item;
  _ ← g_patch_next pr (Some item);
  _ ← wr (ht_set_prev (Some item)) next_node;
  _ ← mark_linked item; add_size 1.
Definition g_unlink (item : loc) : M unit :=
  b ← linked_hook item; _ ← check b;
  pr ← rd ht_prev item; nx ← rd ht_next item;
  _ ← g_patch_next pr nx; _ ← g_patch_prev nx pr;
  _ ← unmark_linked item; add_size (-1).
Definition g_null (item : loc) : M unit := _ ← wr (ht_set_prev None) item; wr (ht_set_next None) item.
Definition g_remove (item : loc) : M unit := _ ← g_unlink item; g_null item.
Definition g_move_to_head (item : loc) : M unit :=
  e ← rd (fun _ => ht_is_end_prev) item;
  if (e : bool) then mret tt
  else
    pr ← rd ht_prev item; nx ← rd ht_next item;
    _ ← g_patch_next pr nx; _ ← g_patch_prev nx pr;
    _ ← wr (ht_set_prev None) item; hd ← look head_ptr; _ ← wr (ht_set_next hd) item;
    _ ← g_patch_prev hd (Some item); change (with_head (Some item)).
Definition g_replace (old_node new_node : loc) : M unit :=
  _ ← check (negb (bool_decide (old_node = new_node)));
  ol ← linked_hook old_node; nl ← linked_hook new_node; _ ← check ol; _ ← check (negb nl);
  pr ← rd ht_prev old_node; nx ← rd ht_next old_node;
  _ ← wr (ht_set_prev pr) new_node; _ ← wr (ht_set_next nx) new_node;
  _ ← g_patch_next pr (Some new_node); _ ← g_patch_prev nx (Some new_node);
  _ ← g_null old_node; _ ← unmark_linked old_node;
  mark_linked new_node.
Fixpoint g_clear_loop (fuel : nat) (curr : ptr) : M unit :=
  match curr, fuel with
  | None, _ => mret tt
  | Some _, O => fun _ => Bad
  | Some p, S fuel =>
      nx ← rd ht_next p; _ ← g_null p; _ ← unmark_linked p; g_clear_loop fuel nx
  end.
Definition g_clear : M unit :=
  fun s => (_ ← g_clear_loop (S (size s.1)) (head_ptr s.2); change (fun l => DList None None (base l) 0)) s.
Definition g_pop (end_ptr : intrusive_list -> ptr) : M ptr :=
  e ← look empty;
  if (e : bool) then mret None
  else p ← look end_ptr; match (p : ptr) with None => fun _ => Bad | Some item => _ ← g_unlink item; _ ← g_null item; mret (Some item) end.

Definition g_run_op (o : list_op) : M ptr :=
  let void (m : M unit) : M ptr := _ ← m; mret None in
  match o with
  | LinkAtHead x => void (g_link_at_head x)
  | LinkAtTail x => void (g_link_at_tail x)
  | InsertBefore y x => void (g_insert_before y x)
  | Remove x => void (g_remove x)
  | MoveToHead x => void (g_move_to_head x)
  | Replace y x => void (g_replace y x)
  | PopTail => g_pop tail_ptr
  | PopHead => g_pop head_ptr
  | Clear => void g_clear
  end.
Fixpoint g_run_ops (os : list list_op) : M (list ptr) :=
  match os with [] => mret [] | o :: os => p ← g_run_op o; l ← g_run_ops os; mret (p :: l) end.
End ops.
Arguments M : clear implicits.
#[export] Existing Instances M_ret M_bind.

(** * Raw hooks: the operations of IntrusiveList *)

Definition lift {S A} (r : option (A * S)) : outcome S A := match r with Some (a, s) => Done a s | None => Bad end.
Definition lift_unit {S} (r : option S) : outcome S unit := match r with Some s => Done tt s | None => Bad end.

Ltac open_ops :=
  unfold g_null, g_patch_next, g_patch_prev, patch_next, patch_prev, add_size, upd, assert_, lift_unit;
  unfold linked_hook, mark_linked, unmark_linked, rd, wr, look, change, check; unfold mbind, mret, M_bind, M_ret, option_bind.
(** Follows both programs through the same lookups. *)
Ltac follow :=
  repeat (repeat progress (cbn; rewrite ?lookup_insert_eq, ?insert_insert_eq); try done;
    match goal with
    | |- context [match ?x with _ => _ end] => lazymatch x with context [match _ with _ => _ end] => fail | _ => destruct x eqn:? end
    end; simplify_eq); cbn; rewrite ?insert_insert_eq; try done.

Lemma raw_link_at_head x (s : @hooks intrusive_hook) : g_link_at_head x s = lift_unit (link_at_head x s).
Proof. destruct s as [h l]. unfold g_link_at_head, link_at_head. open_ops. follow. Qed.
Lemma raw_link_at_tail x (s : @hooks intrusive_hook) : g_link_at_tail x s = lift_unit (link_at_tail x s).
Proof. destruct s as [h l]. unfold g_link_at_tail, link_at_tail. open_ops. follow. Qed.
Lemma raw_insert_before y x (s : @hooks intrusive_hook) : g_insert_before y x s = lift_unit (insert_before y x s).
Proof. destruct s as [h l]. unfold g_insert_before, insert_before. open_ops. follow. Qed.
Lemma raw_unlink x (s : @hooks intrusive_hook) : g_unlink x s = lift_unit (unlink x s).
Proof. destruct s as [h l]. unfold g_unlink, unlink. open_ops. follow. Qed.
Lemma raw_move_to_head x (s : @hooks intrusive_hook) : g_move_to_head x s = lift_unit (move_to_head x s).
Proof. destruct s as [h l]. unfold g_move_to_head, move_to_head. open_ops. follow. Qed.
Lemma raw_replace y x (s : @hooks intrusive_hook) : g_replace y x s = lift_unit (replace y x s).
Proof. destruct s as [h l]. unfold g_replace, replace. open_ops. follow. Qed.

Lemma raw_null x (s : @hooks intrusive_hook) : g_null x s = lift_unit (h ← upd x (fun k => set_next None (set_prev None k)) s.1; Some (h, s.2)).
Proof. open_ops. follow. Qed.
Lemma raw_remove x (s : @hooks intrusive_hook) : g_remove x s = lift_unit (remove x s).
Proof. unfold g_remove, remove, mbind, M_bind, option_bind. rewrite raw_unlink. destruct (unlink x s) as [s1|]; [|done]. cbn. by rewrite raw_null. Qed.
Lemma raw_pop e (s : @hooks intrusive_hook) : g_pop e s = lift (pop_at e s).
Proof.
  unfold g_pop, pop_at, look, mbind, mret, M_bind, M_ret, option_bind. destruct (empty s.2); [done|]. destruct (e s.2) as [x|]; [|done].
  rewrite raw_unlink. destruct (unlink x s) as [s1|]; [|done]. cbn. rewrite raw_null. cbn. by destruct (upd x _ s1.1).
Qed.
Lemma raw_clear_loop fuel p h l : g_clear_loop fuel p (h, l) = lift_unit (h ← clear_loop fuel p h; Some (h, l)).
Proof.
  revert p h. induction fuel as [|fuel IH]; intros [p|] h; [done|done| |done]. cbn. unfold unmark_linked, rd, wr, g_null, upd, wr, mbind, M_bind, option_bind. cbn.
  destruct (h !! p) as [k|] eqn:E; [|done]. repeat progress (cbn; rewrite ?E, ?lookup_insert_eq, ?insert_insert_eq). rewrite IH. done.
Qed.
Lemma raw_clear (s : @hooks intrusive_hook) : g_clear s = lift_unit (clear s).
Proof.
  destruct s as [h l]. unfold g_clear, clear, mbind, M_bind, option_bind. rewrite raw_clear_loop. cbn -[clear_loop]. destruct (clear_loop _ _ _); done.
Qed.

Lemma raw_run_op o (s : @hooks intrusive_hook) : g_run_op o s = lift (run_op o s).
Proof.
  destruct o; cbn [g_run_op run_op]; try apply raw_pop; unfold mbind, mret, M_bind, M_ret, option_bind;
    rewrite ?raw_link_at_head, ?raw_link_at_tail, ?raw_insert_before, ?raw_remove, ?raw_move_to_head, ?raw_replace, ?raw_clear;
    unfold lift_unit; match goal with |- _ = lift match ?x with Some _ => _ | None => _ end => by destruct x end.
Qed.
(** The list over raw hooks is the list of IntrusiveList. *)
Lemma raw_run_ops os (s : @hooks intrusive_hook) : g_run_ops os s = lift (run_ops os s).
Proof.
  revert s. induction os as [|o os IH]; intros s; [done|]. cbn. unfold mbind, mret, M_bind, M_ret, option_bind. rewrite raw_run_op.
  destruct (run_op o s) as [[p s1]|]; [|done]. cbn. rewrite IH. by destruct (run_ops os s1) as [[l s2]|].
Qed.

(** * Compressed hooks *)

Section compressed.
Context (bp : loc).
Let b : Z := Zpos bp.
Hypothesis (Hb : Zpos bp + U32_MAX < 2 ^ 64).
Implicit Types (D : gset loc).

(** The raw hook that a compressed one stands for. *)
Definition decode (k : compressed_intrusive_hook) : intrusive_hook :=
  Hook (ht_prev (Some bp) k) (ht_next (Some bp) k) (c_update_time k) (c_flags k).
Definition offsets_ok (k : compressed_intrusive_hook) : Prop := 0 <= prev_offset k <= kNullOffset /\ 0 <= next_offset k <= kNullOffset.

(** [D] are the items that were never linked: their links decode to the base and
    not to null. Every other link is in reach of the base and not in [D]. *)
Definition good D (p : ptr) : Prop := match p with Some q => b <= Zpos q <= b + kMaxOffset /\ q ∉ D | None => True end.

Record related D (s : @hooks compressed_intrusive_hook) (r : @hooks intrusive_hook) : Prop := {
  re_dom p : r.1 !! p = None <-> s.1 !! p = None;
  re_clean p k h : s.1 !! p = Some k -> r.1 !! p = Some h -> p ∉ D ->
    h = decode k /\ offsets_ok k /\ good D (ht_prev (Some bp) k) /\ good D (ht_next (Some bp) k);
  re_fresh p k h : s.1 !! p = Some k -> r.1 !! p = Some h -> p ∈ D -> k = chook_new /\ h = fresh_hook;
  re_new p : p ∈ D -> is_Some (s.1 !! p);
  re_reach p k : s.1 !! p = Some k -> b <= Zpos p <= b + kMaxOffset;
  re_list : r.2 = s.2;
  re_base : base s.2 = Some bp;
  re_ends : good D (head_ptr s.2) /\ good D (tail_ptr s.2) }.

Definition sim D D' {A} (P : A -> Prop) (m : M compressed_intrusive_hook A) (n : M intrusive_hook A) : Prop :=
  forall s r, related D s r -> match m s, n r with
                               | Done x s', Done y r' => x = y /\ P x /\ related D' s' r'
                               | Bad, Bad => True
                               | _, _ => False
                               end.
Abbreviation any := (fun _ => True).

Lemma sim_ret D {A} (P : A -> Prop) x : P x -> sim D D P (mret x) (mret x).
Proof. intros Hx s r Hr. done. Qed.
Lemma sim_bind D D1 D2 {A B} (P : A -> Prop) (Q : B -> Prop) m n f g :
  sim D D1 P m n -> (forall x, P x -> sim D1 D2 Q (f x) (g x)) -> sim D D2 Q (m ≫= f) (n ≫= g).
Proof.
  intros H1 H2 s r Hr. specialize (H1 s r Hr). unfold mbind, M_bind. destruct (m s), (n r); try done. destruct H1 as (-> & Hp & Hr'). by apply H2.
Qed.
Lemma sim_check D x : sim D D (fun _ => x = true) (check x) (check x).
Proof. intros s r Hr. unfold check. by destruct x. Qed.

(** The two hooks of an item. *)
Lemma related_hooks D s r p : related D s r ->
  match s.1 !! p with Some k => exists h, r.1 !! p = Some h | None => r.1 !! p = None end.
Proof.
  intros Hr. pose proof (re_dom _ _ _ Hr p) as Hd. destruct (s.1 !! p) as [k|]; [|by apply Hd]. destruct (r.1 !! p) as [h|]; [eauto|].
  discriminate (proj1 Hd eq_refl).
Qed.
Lemma related_insert D s r p k h : related D s r -> is_Some (s.1 !! p) -> p ∉ D -> h = decode k -> offsets_ok k ->
  good D (ht_prev (Some bp) k) -> good D (ht_next (Some bp) k) -> related D (<[p := k]> s.1, s.2) (<[p := h]> r.1, r.2).
Proof.
  intros [A1 A2 A3 AN A4 A5 A6 A7] [k0 Hk0] Hp Hh Ho Hg1 Hg2. split; cbn [fst snd]; try done.
  - intros q. rewrite !lookup_insert. case_decide; [done|apply A1].
  - intros q k' h'. rewrite !lookup_insert. case_decide as E; [intros [= <-] [= <-] _; done|apply A2].
  - intros q k' h'. rewrite !lookup_insert. case_decide as E; [subst q; done|apply A3].
  - intros q. rewrite lookup_insert. case_decide; [done|apply AN].
  - intros q k'. rewrite lookup_insert. case_decide as E; [subst q; intros _; by eapply A4|apply A4].
Qed.

(** ** The primitives agree *)

Lemma good_compress D p : good D p -> exists o, compress (addr p) b = inr o /\ 0 <= o <= kNullOffset /\ of_addr (get o b) = p.
Proof using Hb.
  intros Hp. destruct (compress_ok (addr p) b) as (o & Ho & Hr).
  { destruct p as [q|]; cbn in *; [right; lia|by left]. }
  exists o. split_and!; [done|lia|lia|]. destruct (compress_get (addr p) b o) as [-> _]; [destruct p; cbn in *; unfold kMaxOffset, kNullOffset in *; lia|lia|done|]. by destruct p.
Qed.
Lemma get_null o : 0 <= o <= kNullOffset -> of_addr (get o b) = None <-> o = kNullOffset.
Proof using Hb.
  intros Ho. unfold get, kNullOffset, wrap in *. destruct (Z.eqb_spec o U32_MAX) as [->|Hne]; [done|]. rewrite Z.mod_small by lia.
  destruct (b + o) as [|q|q] eqn:E; [lia| |lia]. cbn. split; [done|lia].
Qed.

Lemma sim_linked D p : sim D D any (linked_hook p) (linked_hook p).
Proof.
  intros s r Hr. unfold linked_hook, rd. pose proof (related_hooks D s r p Hr) as Hh. destruct (s.1 !! p) as [k|] eqn:Ek; [destruct Hh as [h Eh]; rewrite Eh|by rewrite Hh].
  split; [|done]. destruct (decide (p ∈ D)) as [Hp|Hp].
  - destruct (re_fresh _ _ _ Hr p k h Ek Eh Hp) as [-> ->]. done.
  - destruct (re_clean _ _ _ Hr p k h Ek Eh Hp) as (-> & _). done.
Qed.
Lemma sim_rd D {A} (P : A -> Prop) f g p : good D (Some p) ->
  (forall k, offsets_ok k -> good D (ht_prev (Some bp) k) -> good D (ht_next (Some bp) k) -> f (Some bp) k = g (Some bp) (decode k) /\ P (f (Some bp) k)) ->
  sim D D P (rd f p) (rd g p).
Proof.
  intros [_ Hp] Hf s r Hr. unfold rd. pose proof (related_hooks D s r p Hr) as Hh. destruct (s.1 !! p) as [k|] eqn:Ek; [destruct Hh as [h Eh]; rewrite Eh|by rewrite Hh].
  rewrite (re_list _ _ _ Hr), (re_base _ _ _ Hr). destruct (re_clean _ _ _ Hr p k h Ek Eh Hp) as (-> & Ho & H1 & H2). destruct (Hf k Ho H1 H2). done.
Qed.
Lemma sim_wr D f g p : good D (Some p) ->
  (forall k, offsets_ok k -> good D (ht_prev (Some bp) k) -> good D (ht_next (Some bp) k) -> exists k', f (Some bp) k = Some k' /\ g (Some bp) (decode k) = Some (decode k') /\
    offsets_ok k' /\ good D (ht_prev (Some bp) k') /\ good D (ht_next (Some bp) k')) ->
  sim D D any (wr f p) (wr g p).
Proof.
  intros [_ Hp] Hf s r Hr. unfold wr. pose proof (related_hooks D s r p Hr) as Hh. destruct (s.1 !! p) as [k|] eqn:Ek; [destruct Hh as [h Eh]; rewrite Eh|by rewrite Hh].
  rewrite (re_list _ _ _ Hr), (re_base _ _ _ Hr). destruct (re_clean _ _ _ Hr p k h Ek Eh Hp) as (-> & Ho & H1 & H2).
  destruct (Hf k Ho H1 H2) as (k' & -> & -> & Ho' & H1' & H2'). split; [done|]. split; [done|]. rewrite <- (re_list _ _ _ Hr) at 2. by apply related_insert.
Qed.
Lemma sim_look D {A} (P : A -> Prop) f : (forall l, good D (head_ptr l) -> good D (tail_ptr l) -> P (f l)) -> sim D D P (look f) (look f).
Proof. intros Hf s r Hr. unfold look. rewrite (re_list _ _ _ Hr). destruct (re_ends _ _ _ Hr). auto. Qed.
Lemma sim_change D f : (forall l, base (f l) = base l) -> (forall l, good D (head_ptr l) -> good D (tail_ptr l) -> good D (head_ptr (f l)) /\ good D (tail_ptr (f l))) ->
  sim D D any (change f) (change f).
Proof.
  intros Hfb Hf s r Hr. unfold change. split_and!; [done|done|]. destruct (re_ends _ _ _ Hr). destruct Hr as [A1 A2 A3 AN A4 A5 A6 A7].
  split; cbn [fst snd]; try done; [by rewrite A5|by rewrite Hfb|by apply Hf].
Qed.

Lemma sim_prev D p : good D (Some p) -> sim D D (good D) (rd ht_prev p) (rd ht_prev p).
Proof. intros Hp. by apply sim_rd. Qed.
Lemma sim_next D p : good D (Some p) -> sim D D (good D) (rd ht_next p) (rd ht_next p).
Proof. intros Hp. by apply sim_rd. Qed.
Lemma sim_end_prev D p : good D (Some p) -> sim D D any (rd (fun _ => ht_is_end_prev) p) (rd (fun _ => ht_is_end_prev) p).
Proof using Hb.
  intros Hp. apply sim_rd; [done|]. intros k [Hk _] _ _. split; [|done]. cbn. unfold is_prev_null, is_end_prev, decode. cbn. unfold c_prev. pose proof (get_null _ Hk) as Hi.
  destruct (Z.eqb_spec (prev_offset k) kNullOffset) as [E|E]; symmetry; [apply bool_decide_eq_true|apply bool_decide_eq_false]; tauto.
Qed.
Lemma set_prev_ok D q k : good D q -> offsets_ok k -> exists k', ht_set_prev q (Some bp) k = Some k' /\ decode k' = set_prev q (decode k) /\ offsets_ok k' /\
  ht_prev (Some bp) k' = q /\ next_offset k' = next_offset k.
Proof using Hb.
  intros Hq [H1 H2]. destruct (good_compress D q Hq) as (o & Ho & Hr & Hg). cbn. unfold c_set_prev. fold b. rewrite Ho. cbn. eexists. split; [done|].
  split; [|done]. unfold decode, set_prev. cbn. unfold c_prev. cbn. fold b. by rewrite Hg.
Qed.
Lemma set_next_ok D q k : good D q -> offsets_ok k -> exists k', ht_set_next q (Some bp) k = Some k' /\ decode k' = set_next q (decode k) /\ offsets_ok k' /\
  ht_next (Some bp) k' = q /\ prev_offset k' = prev_offset k.
Proof using Hb.
  intros Hq [H1 H2]. destruct (good_compress D q Hq) as (o & Ho & Hr & Hg). cbn. unfold c_set_next. fold b. rewrite Ho. cbn. eexists. split; [done|].
  split; [|done]. unfold decode, set_next. cbn. unfold c_next. cbn. fold b. by rewrite Hg.
Qed.
Lemma sim_set_prev D q p : good D (Some p) -> good D q -> sim D D any (wr (ht_set_prev q) p) (wr (ht_set_prev q) p).
Proof using Hb.
  intros Hp Hq. apply sim_wr; [done|]. intros k Ho H1 H2. destruct (set_prev_ok D q k Hq Ho) as (k' & E & Ed & Ho' & Ep & En).
  exists k'. rewrite Ed, Ep. split_and!; [done|done|apply Ho'..|done|]. cbn. unfold c_next. by rewrite En.
Qed.
Lemma sim_set_next D q p : good D (Some p) -> good D q -> sim D D any (wr (ht_set_next q) p) (wr (ht_set_next q) p).
Proof using Hb.
  intros Hp Hq. apply sim_wr; [done|]. intros k Ho H1 H2. destruct (set_next_ok D q k Hq Ho) as (k' & E & Ed & Ho' & En & Ep).
  exists k'. rewrite Ed, En. split_and!; [done|done|apply Ho'..| |done]. cbn. unfold c_prev. by rewrite Ep.
Qed.
Lemma sim_mark D p : good D (Some p) -> sim D D any (mark_linked p) (mark_linked p).
Proof. intros Hp. apply sim_wr; [done|]. intros k Hk H1 H2. by eexists. Qed.
Lemma sim_unmark D p : good D (Some p) -> sim D D any (unmark_linked p) (unmark_linked p).
Proof. intros Hp. apply sim_wr; [done|]. intros k Hk H1 H2. by eexists. Qed.
Lemma sim_patch_next D p q : good D p -> good D q -> sim D D any (g_patch_next p q) (g_patch_next p q).
Proof using Hb. intros Hp Hq. destruct p; [by apply sim_set_next|]. by apply sim_change. Qed.
Lemma sim_patch_prev D p q : good D p -> good D q -> sim D D any (g_patch_prev p q) (g_patch_prev p q).
Proof using Hb. intros Hp Hq. destruct p; [by apply sim_set_prev|]. by apply sim_change. Qed.
Lemma sim_head D : sim D D (good D) (look head_ptr) (look head_ptr).
Proof. by apply sim_look. Qed.
Lemma sim_tail D : sim D D (good D) (look tail_ptr) (look tail_ptr).
Proof. by apply sim_look. Qed.
Lemma sim_size D n : sim D D any (add_size n) (add_size n).
Proof. by apply sim_change. Qed.
Lemma sim_with_head D p : good D p -> sim D D any (change (with_head p)) (change (with_head p)).
Proof. intros Hp. by apply sim_change. Qed.
Lemma sim_with_tail D p : good D p -> sim D D any (change (with_tail p)) (change (with_tail p)).
Proof. intros Hp. by apply sim_change. Qed.

(** ** The first link of an item *)

Lemma good_mono D x p : good D p -> good (D ∖ {[x]}) p.
Proof. destruct p as [q|]; [|done]. intros [? ?]. split; [done|set_solver]. Qed.

(** Writing both links of an item takes it out of [D], whatever they were. *)
Lemma related_placed D s r x k h k' : related D s r -> s.1 !! x = Some k -> r.1 !! x = Some h ->
  h = Hook (prev h) (next h) (c_update_time k) (c_flags k) ->
  decode k' = Hook (ht_prev (Some bp) k') (ht_next (Some bp) k') (c_update_time k) (c_flags k) ->
  offsets_ok k' -> good D (ht_prev (Some bp) k') -> good D (ht_next (Some bp) k') ->
  related (D ∖ {[x]}) (<[x := k']> s.1, s.2) (<[x := decode k']> r.1, r.2).
Proof.
  intros Hr Hk Hh Eh Ed Ho Hg1 Hg2. destruct Hr as [A1 A2 A3 AN A4 A5 A6 A7]. split; cbn [fst snd]; try done.
  - intros q. rewrite !lookup_insert. case_decide; [done|apply A1].
  - intros q k0 h0. rewrite !lookup_insert. case_decide as E.
    + intros [= <-] [= <-] _. split_and!; [done|apply Ho..|by apply good_mono|by apply good_mono].
    + intros Hq1 Hq2 Hq. destruct (A2 q k0 h0 Hq1 Hq2) as (? & ? & ? & ?); [set_solver|]. split_and!; auto using good_mono.
  - intros q k0 h0. rewrite !lookup_insert. case_decide as E; [subst q; set_solver|]. intros Hq1 Hq2 Hq. apply (A3 q); [done|done|set_solver].
  - intros q Hq. rewrite lookup_insert. case_decide; [done|]. apply AN. set_solver.
  - intros q k0. rewrite lookup_insert. case_decide as E; [subst q; intros _; by eapply A4|apply A4].
  - destruct A7. split; by apply good_mono.
Qed.

Lemma related_offsets D s r x k h : related D s r -> s.1 !! x = Some k -> r.1 !! x = Some h ->
  offsets_ok k /\ h = Hook (prev h) (next h) (c_update_time k) (c_flags k).
Proof.
  intros Hr Hk Hh. destruct (decide (x ∈ D)) as [Hx|Hx].
  - destruct (re_fresh _ _ _ Hr x k h Hk Hh Hx) as [-> ->]. split; [|done]. unfold offsets_ok, kNullOffset. cbn. lia.
  - destruct (re_clean _ _ _ Hr x k h Hk Hh Hx) as (-> & Ho & _). done.
Qed.

(** Both orders in which the operations write the links of a new item. *)
Lemma sim_place D x p q : good D p -> good D q ->
  sim D (D ∖ {[x]}) any (_ ← wr (ht_set_prev p) x; wr (ht_set_next q) x) (_ ← wr (ht_set_prev p) x; wr (ht_set_next q) x).
Proof using Hb.
  intros Hp Hq s r Hr. unfold wr, mbind, M_bind. pose proof (related_hooks D s r x Hr) as Hh.
  destruct (s.1 !! x) as [k|] eqn:Ek; [destruct Hh as [h Eh]; rewrite Eh|by rewrite Hh].
  destruct (related_offsets D s r x k h Hr Ek Eh) as [Ho Eq]. rewrite (re_list _ _ _ Hr), (re_base _ _ _ Hr).
  destruct (set_prev_ok D p k Hp Ho) as (k1 & E1 & D1 & Ho1 & P1 & N1). rewrite E1. cbn [fst snd]. rewrite !lookup_insert_eq, (re_base _ _ _ Hr).
  destruct (set_next_ok D q k1 Hq Ho1) as (k2 & E2 & D2 & Ho2 & N2 & P2). rewrite E2. cbn [ht_set_prev ht_set_next raw_traits fst snd]. rewrite ?lookup_insert_eq, !insert_insert_eq.
  split; [done|]. split; [done|].
  assert (ht_prev (Some bp) k2 = p) as P2' by (rewrite <- P1; cbn; unfold c_prev; by rewrite P2).
  replace (set_next q (set_prev p h)) with (decode k2).
  - rewrite <- (re_list _ _ _ Hr) at 2. eapply related_placed; [done|exact Ek|exact Eh|done| |done|by rewrite P2'|by rewrite N2].
    unfold decode. f_equal; [|].
    + apply (f_equal update_time) in D2. rewrite D1 in D2. exact D2.
    + apply (f_equal flags) in D2. rewrite D1 in D2. exact D2.
  - rewrite D2, D1, Eq. done.
Qed.
Lemma sim_place' D x p q : good D p -> good D q ->
  sim D (D ∖ {[x]}) any (_ ← wr (ht_set_next q) x; wr (ht_set_prev p) x) (_ ← wr (ht_set_next q) x; wr (ht_set_prev p) x).
Proof using Hb.
  intros Hp Hq s r Hr. unfold wr, mbind, M_bind. pose proof (related_hooks D s r x Hr) as Hh.
  destruct (s.1 !! x) as [k|] eqn:Ek; [destruct Hh as [h Eh]; rewrite Eh|by rewrite Hh].
  destruct (related_offsets D s r x k h Hr Ek Eh) as [Ho Eq]. rewrite (re_list _ _ _ Hr), (re_base _ _ _ Hr).
  destruct (set_next_ok D q k Hq Ho) as (k1 & E1 & D1 & Ho1 & N1 & P1). rewrite E1. cbn [fst snd]. rewrite !lookup_insert_eq, (re_base _ _ _ Hr).
  destruct (set_prev_ok D p k1 Hp Ho1) as (k2 & E2 & D2 & Ho2 & P2 & N2). rewrite E2. cbn [ht_set_prev ht_set_next raw_traits fst snd]. rewrite ?lookup_insert_eq, !insert_insert_eq.
  split; [done|]. split; [done|].
  assert (ht_next (Some bp) k2 = q) as N2' by (rewrite <- N1; cbn; unfold c_next; by rewrite N2).
  replace (set_prev p (set_next q h)) with (decode k2).
  - rewrite <- (re_list _ _ _ Hr) at 2. eapply related_placed; [done|exact Ek|exact Eh|done| |done|by rewrite P2|by rewrite N2'].
    unfold decode. f_equal; [|].
    + apply (f_equal update_time) in D2. rewrite D1 in D2. exact D2.
    + apply (f_equal flags) in D2. rewrite D1 in D2. exact D2.
  - rewrite D2, D1, Eq. done.
Qed.

Lemma sim_ext D D' {A} (P : A -> Prop) m m' n n' : (forall s, m s = m' s) -> (forall r, n r = n' r) -> sim D D' P m' n' -> sim D D' P m n.
Proof. intros Hm Hn Hs s r Hr. rewrite Hm, Hn. by apply Hs. Qed.
Lemma bind_assoc {H} {A B C} (m : M H A) (f : A -> M H B) (g : B -> M H C) s : ((m ≫= f) ≫= g) s = (m ≫= fun x => f x ≫= g) s.
Proof. unfold mbind, M_bind. by destruct (m s). Qed.
Lemma look_wr {H} {HT : HookTraits H} {A B} (f : intrusive_list -> A) g x (K : A -> M H B) s :
  (wr g x ≫= fun _ => look f ≫= K) s = (look f ≫= fun a => wr g x ≫= fun _ => K a) s.
Proof. unfold mbind, M_bind, look, wr. destruct (s.1 !! x) as [k|]; [|done]. by destruct (g (base s.2) k). Qed.

(** The links of a new item are written around a look at an end of the list. *)
Lemma sim_place_head D D' {A} (P : A -> Prop) x K K' : (forall p, good D p -> sim (D ∖ {[x]}) D' P (K p) (K' p)) ->
  sim D D' P (_ ← wr (ht_set_prev None) x; hd ← look head_ptr; _ ← wr (ht_set_next hd) x; K hd)
             (_ ← wr (ht_set_prev None) x; hd ← look head_ptr; _ ← wr (ht_set_next hd) x; K' hd).
Proof using Hb.
  intros HK. eapply sim_ext; [intros s; apply look_wr|intros r; apply look_wr|]. eapply sim_bind; [apply sim_head|]. intros p Hp.
  eapply sim_ext; [intros s; symmetry; apply (bind_assoc _ (fun _ => wr (ht_set_next p) x) (fun _ => K p))|
                   intros r; symmetry; apply (bind_assoc _ (fun _ => wr (ht_set_next p) x) (fun _ => K' p))|].
  eapply sim_bind; [by apply sim_place|]. intros _ _. by apply HK.
Qed.
Lemma sim_place_tail D D' {A} (P : A -> Prop) x K K' : (forall p, good D p -> sim (D ∖ {[x]}) D' P (K p) (K' p)) ->
  sim D D' P (_ ← wr (ht_set_next None) x; tl ← look tail_ptr; _ ← wr (ht_set_prev tl) x; K tl)
             (_ ← wr (ht_set_next None) x; tl ← look tail_ptr; _ ← wr (ht_set_prev tl) x; K' tl).
Proof using Hb.
  intros HK. eapply sim_ext; [intros s; apply look_wr|intros r; apply look_wr|]. eapply sim_bind; [apply sim_tail|]. intros p Hp.
  eapply sim_ext; [intros s; symmetry; apply (bind_assoc _ (fun _ => wr (ht_set_prev p) x) (fun _ => K p))|
                   intros r; symmetry; apply (bind_assoc _ (fun _ => wr (ht_set_prev p) x) (fun _ => K' p))|].
  eapply sim_bind; [by apply sim_place'|]. intros _ _. by apply HK.
Qed.
Lemma sim_place_between D D' {A} (P : A -> Prop) x p q K K' : good D p -> good D q -> sim (D ∖ {[x]}) D' P K K' ->
  sim D D' P (_ ← wr (ht_set_prev p) x; _ ← wr (ht_set_next q) x; K) (_ ← wr (ht_set_prev p) x; _ ← wr (ht_set_next q) x; K').
Proof using Hb.
  intros Hp Hq HK. eapply sim_ext; [intros s; symmetry; apply (bind_assoc _ (fun _ => wr (ht_set_next q) x) (fun _ => K))|
                   intros r; symmetry; apply (bind_assoc _ (fun _ => wr (ht_set_next q) x) (fun _ => K'))|].
  eapply sim_bind; [by apply sim_place|]. by intros _ _.
Qed.

(** An item that was never linked fails the assertion in both lists. *)
Lemma sim_unlinked D p : p ∈ D -> sim D D (fun x => x = false) (linked_hook p) (linked_hook p).
Proof.
  intros Hp s r Hr. pose proof (sim_linked D p s r Hr) as Hs. unfold linked_hook, rd in *. pose proof (related_hooks D s r p Hr) as Hh.
  destruct (s.1 !! p) as [k|] eqn:Ek; [destruct Hh as [h Eh]; rewrite Eh in *|by rewrite Hh in *].
  destruct (re_fresh _ _ _ Hr p k h Ek Eh Hp) as [-> ->]. done.
Qed.
Lemma sim_fails D D' {A} (P : A -> Prop) f g : sim D D' P (check false ≫= f) (check false ≫= g).
Proof. intros s r Hr. done. Qed.

(** ** The operations agree *)

Create HintDb sim.
#[local] Hint Resolve sim_prev sim_next sim_linked sim_end_prev sim_set_prev sim_set_next sim_mark sim_unmark sim_patch_next sim_patch_prev
  sim_head sim_tail sim_size sim_with_head sim_with_tail sim_check good_mono : sim.
Ltac sim_run := repeat (eapply sim_bind; [by eauto with sim|intros]); try (by eauto with sim).
Lemma good_null D : good D None.
Proof. done. Qed.
#[local] Hint Resolve good_null : sim.
Definition in_reach (x : loc) : Prop := b <= Zpos x <= b + kMaxOffset.
Lemma good_placed D x : in_reach x -> good (D ∖ {[x]}) (Some x).
Proof. intros Hx. split; [done|set_solver]. Qed.
#[local] Hint Resolve good_placed : sim.

Lemma sim_link_at_head D x : in_reach x -> sim D (D ∖ {[x]}) any (g_link_at_head x) (g_link_at_head x).
Proof using Hb. intros Hx. unfold g_link_at_head. do 2 (eapply sim_bind; [by eauto with sim|intros]). apply sim_place_head. intros hd Hd. sim_run. Qed.
Lemma sim_link_at_tail D x : in_reach x -> sim D (D ∖ {[x]}) any (g_link_at_tail x) (g_link_at_tail x).
Proof using Hb. intros Hx. unfold g_link_at_tail. do 2 (eapply sim_bind; [by eauto with sim|intros]). apply sim_place_tail. intros tl Hl. sim_run. Qed.
Lemma sim_insert_before D y x : in_reach y -> in_reach x -> sim D (D ∖ {[x]}) any (g_insert_before y x) (g_insert_before y x).
Proof using Hb.
  intros Hy Hx. unfold g_insert_before. destruct (decide (y ∈ D)) as [Hd|Hd].
  - eapply sim_bind; [by apply sim_unlinked|]. intros nl ->. do 2 (eapply sim_bind; [by eauto with sim|intros]). apply sim_fails.
  - assert (good D (Some y)) as Hg by done. do 5 (eapply sim_bind; [by eauto with sim|intros]). apply sim_place_between; [by eauto with sim..|]. sim_run.
Qed.
Lemma sim_unlink D x : in_reach x -> sim D D any (g_unlink x) (g_unlink x).
Proof using Hb.
  intros Hx. unfold g_unlink. destruct (decide (x ∈ D)) as [Hd|Hd].
  - eapply sim_bind; [by apply sim_unlinked|]. intros l ->. apply sim_fails.
  - assert (good D (Some x)) as Hg by done. sim_run.
Qed.
Lemma sim_null D x : good D (Some x) -> sim D D any (g_null x) (g_null x).
Proof using Hb. intros Hx. unfold g_null. sim_run. Qed.
#[local] Hint Resolve sim_null : sim.
Lemma sim_remove D x : in_reach x -> sim D D any (g_remove x) (g_remove x).
Proof using Hb.
  intros Hx. unfold g_remove. destruct (decide (x ∈ D)) as [Hd|Hd]; [|eapply sim_bind; [by apply sim_unlink|]; intros _ _; by apply sim_null].
  unfold g_unlink. eapply sim_ext; [intros s; apply bind_assoc|intros r; apply bind_assoc|]. eapply sim_bind; [by apply sim_unlinked|]. intros l ->.
  eapply sim_ext; [intros s; apply bind_assoc|intros r; apply bind_assoc|]. apply sim_fails.
Qed.
Lemma sim_move_to_head D x : good D (Some x) -> sim D D any (g_move_to_head x) (g_move_to_head x).
Proof using Hb. intros Hx. unfold g_move_to_head. eapply sim_bind; [by eauto with sim|]. intros [] _; [by apply sim_ret|]. sim_run. Qed.
Lemma sim_replace D y x : in_reach y -> in_reach x -> sim D (D ∖ {[x]}) any (g_replace y x) (g_replace y x).
Proof using Hb.
  intros Hy Hx. unfold g_replace. destruct (decide (y ∈ D)) as [Hd|Hd].
  - eapply sim_bind; [by eauto with sim|intros]. eapply sim_bind; [by apply sim_unlinked|]. intros ol ->. eapply sim_bind; [by eauto with sim|intros]. apply sim_fails.
  - assert (good D (Some y)) as Hg by done. do 7 (eapply sim_bind; [by eauto with sim|intros]). apply sim_place_between; [by eauto with sim..|]. sim_run.
Qed.
Lemma sim_clear_loop D fuel p : good D p -> sim D D any (g_clear_loop fuel p) (g_clear_loop fuel p).
Proof using Hb.
  revert p. induction fuel as [|fuel IH]; intros [p|] Hp; cbn [g_clear_loop]; try (by apply sim_ret); [done|].
  do 3 (eapply sim_bind; [by eauto with sim|intros]). by apply IH.
Qed.
Lemma store_size D s r : related D s r -> size r.1 = size s.1.
Proof.
  intros Hr. rewrite <- !size_dom. f_equal. apply set_eq. intros p. rewrite !elem_of_dom, <- !not_eq_None_Some. by rewrite (re_dom _ _ _ Hr).
Qed.
Lemma sim_clear D : sim D D any g_clear g_clear.
Proof using Hb.
  intros s r Hr. unfold g_clear. rewrite (re_list _ _ _ Hr), (store_size D s r Hr).
  apply (sim_bind D D D any any (g_clear_loop (S (size s.1)) (head_ptr s.2)) (g_clear_loop (S (size s.1)) (head_ptr s.2))); [apply sim_clear_loop, Hr| |done].
  intros _ _. by apply sim_change.
Qed.
Lemma sim_pop D e : (forall l, good D (head_ptr l) -> good D (tail_ptr l) -> good D (e l)) -> sim D D any (g_pop e) (g_pop e).
Proof using Hb.
  intros He. unfold g_pop. eapply (sim_bind D D D any); [by apply sim_look|]. intros [] _; [by apply sim_ret|].
  eapply (sim_bind D D D (good D)); [by apply sim_look|]. intros [x|] Hx; [|done].
  eapply sim_bind; [apply sim_unlink, Hx|]. intros _ _. eapply sim_bind; [by apply sim_null|]. intros _ _. by apply sim_ret.
Qed.

(** The items an operation links. *)
Definition placed (o : list_op) : gset loc :=
  match o with LinkAtHead x | LinkAtTail x | InsertBefore _ x | Replace _ x => {[x]} | _ => ∅ end.
(** No item is moved that was never linked; [D] are the items not linked so far. *)
Fixpoint moves_linked D (os : list list_op) : Prop :=
  match os with
  | [] => True
  | o :: os => match o with MoveToHead x => x ∉ D | _ => True end /\ moves_linked (D ∖ placed o) os
  end.
Definition unlinked_after D (os : list list_op) : gset loc := foldl (fun D o => D ∖ placed o) D os.

Lemma sim_run_op D o : Forall in_reach (op_items o) -> match o with MoveToHead x => x ∉ D | _ => True end ->
  sim D (D ∖ placed o) any (g_run_op o) (g_run_op o).
Proof using Hb.
  intros Ho Hm. assert (forall D' (m : M compressed_intrusive_hook unit) (n : M intrusive_hook unit), sim D D' any m n -> sim D D' any (_ ← m; mret (None : ptr)) (_ ← n; mret (None : ptr))) as Hv.
  { intros D' m n Hs. eapply sim_bind; [exact Hs|]. intros _ _. by apply sim_ret. }
  assert (D ∖ ∅ = D) as E by set_solver. destruct o; cbn [g_run_op placed]; rewrite ?E; try (apply Hv); cbn [op_items] in Ho; rewrite ?Forall_cons in Ho.
  - apply sim_link_at_head, Ho.
  - apply sim_link_at_tail, Ho.
  - apply sim_insert_before; apply Ho.
  - apply sim_remove, Ho.
  - apply sim_move_to_head. split; [apply Ho|done].
  - apply sim_replace; apply Ho.
  - by apply sim_pop.
  - by apply sim_pop.
  - by apply sim_clear.
Qed.
Lemma sim_run_ops os : forall D, Forall in_reach (concat (op_items <$> os)) -> moves_linked D os -> sim D (unlinked_after D os) any (g_run_ops os) (g_run_ops os).
Proof using Hb.
  induction os as [|o os IH]; cbn; intros D Ho Hm; [by apply sim_ret|]. apply Forall_app in Ho as [H1 H2]. destruct Hm as [Hm1 Hm2].
  eapply sim_bind; [by apply sim_run_op|]. intros p _. eapply sim_bind; [by apply IH|]. intros l _. by apply sim_ret.
Qed.

(** New items: the offsets of a default-constructed hook are 0. *)
Definition compressed_store (items : list loc) : gmap loc compressed_intrusive_hook := list_to_map ((fun x => (x, chook_new)) <$> items).

Lemma store_lookup {H} (k : H) (items : list loc) p : (list_to_map ((fun x => (x, k)) <$> items) : gmap loc H) !! p = if decide (p ∈ items) then Some k else None.
Proof.
  induction items as [|x items IH]; cbn [fmap list_fmap list_to_map foldr fst snd]; [done|]. rewrite lookup_insert. destruct (decide (x = p)) as [->|Hx].
  - by rewrite decide_True by (by left).
  - rewrite IH. destruct (decide (p ∈ items)); [rewrite decide_True by (by right)|rewrite decide_False by set_solver]; done.
Qed.
Lemma related_new items : Forall in_reach items ->
  related (list_to_set items) (compressed_store items, new_list (Some bp)) (fresh_store items, new_list (Some bp)).
Proof.
  intros Hi. rewrite Forall_forall in Hi. unfold compressed_store, fresh_store. split; cbn [fst snd]; try done.
  - intros p. rewrite !store_lookup. by destruct (decide _).
  - intros p k h. rewrite !store_lookup, elem_of_list_to_set. by destruct (decide _).
  - intros p k h. rewrite !store_lookup. destruct (decide _); [|done]. by intros [= <-] [= <-].
  - intros p. rewrite store_lookup, elem_of_list_to_set. by destruct (decide _).
  - intros p k. rewrite store_lookup. destruct (decide _); [|done]. intros _. by apply Hi.
Qed.

(** C34: the list over compressed hooks is the list over raw pointers. The items
    start as they are constructed, with both offsets 0, and the list has a base with
    every item within 4 GB above it. For every sequence of list operations in which
    no item is moved to the head before it was ever linked, the operations on 32-bit
    offsets never throw, fail an assertion exactly when the ones on raw pointers do,
    return the same items and leave the same head, tail and size; the hook of every
    item that was ever linked decodes to the raw hook, update time and flags
    included, and the hook of every other item is as constructed. *)
Theorem compressed_list_equivalent (items : list loc) (os : list list_op) :
  Forall in_reach (items ++ concat (op_items <$> os)) -> moves_linked (list_to_set items) os ->
  match run_ops os (fresh_store items, new_list (Some bp)) with
  | Some (outs, (h, l)) => exists c : gmap loc compressed_intrusive_hook, (g_run_ops os : M compressed_intrusive_hook (list ptr)) (compressed_store items, new_list (Some bp)) = Done outs (c, l) /\
      forall p, if decide (p ∈ unlinked_after (list_to_set items) os)
                then (c !! p = Some chook_new /\ h !! p = Some fresh_hook) else h !! p = decode <$> c !! p
  | None => (g_run_ops os : M compressed_intrusive_hook (list ptr)) (compressed_store items, new_list (Some bp)) = Bad
  end.
Proof using Hb.
  intros [Hi Ho]%Forall_app Hm. pose proof (sim_run_ops os _ Ho Hm _ _ (related_new items Hi)) as Hs. rewrite raw_run_ops in Hs.
  destruct (run_ops os _) as [[outs [h l]]|] eqn:Er; cbn [lift] in Hs; destruct (g_run_ops os _) as [outs' [c l']|s|]; try done.
  destruct Hs as (-> & _ & Hr). pose proof (re_list _ _ _ Hr) as El. cbn in El. subst l'. exists c. split; [done|]. intros p.
  pose proof (related_hooks _ _ _ p Hr) as Hh. cbn [fst snd] in Hh. case_decide as Hp.
  - destruct (c !! p) as [k|] eqn:Ek; [destruct Hh as [h' Eh]|].
    + destruct (re_fresh _ _ _ Hr p k h' Ek Eh Hp) as [-> ->]. done.
    + by destruct (re_new _ _ _ Hr p Hp) as [k Hk%(eq_trans (eq_sym Ek))].
  - destruct (c !! p) as [k|] eqn:Ek; [destruct Hh as [h' Eh]|by rewrite Hh].
    destruct (re_clean _ _ _ Hr p k h' Ek Eh Hp) as (-> & _). done.
Qed.
End compressed.

Definition demo_ops : list list_op := [LinkAtHead 4100; LinkAtHead 4200; LinkAtTail 4300; MoveToHead 4300; Remove 4200; PopTail].
Lemma demo_ops_base : 4096 + U32_MAX < 2 ^ 64.
Proof. lia. Qed.
Lemma demo_ops_moves : moves_linked (list_to_set [4096; 4100; 4200; 4300]%positive) demo_ops.
Proof. cbn. split_and!; try exact I. apply (bool_decide_unpack _). vm_compute. exact I. Qed.
Lemma compressed_list_equivalent_witness :
  match run_ops demo_ops (fresh_store [4096; 4100; 4200; 4300]%positive, new_list (Some 4096%positive)) with
  | Some (outs, (h, l)) => exists c : gmap loc compressed_intrusive_hook,
      (g_run_ops demo_ops : M compressed_intrusive_hook (list ptr)) (compressed_store [4096; 4100; 4200; 4300]%positive, new_list (Some 4096%positive)) = Done outs (c, l) /\
      h !! 4100%positive = decode 4096 <$> c !! 4100%positive
  | None => False
  end.
Proof.
  pose proof (compressed_list_equivalent 4096 demo_ops_base [4096; 4100; 4200; 4300]%positive demo_ops) as H.
  assert (Forall (in_reach 4096) ([4096; 4100; 4200; 4300]%positive ++ concat (op_items <$> demo_ops))) as Hf
    by (unfold in_reach; apply (bool_decide_unpack _); vm_compute; exact I).
  specialize (H Hf demo_ops_moves). destruct (run_ops demo_ops _) as [[outs [h l]]|] eqn:E; [|vm_compute in E; discriminate E].
  destruct H as (c & Hc & Hp). exists c. split; [exact Hc|]. specialize (Hp 4100%positive). rewrite decide_False in Hp; [exact Hp|].
  apply (bool_decide_unpack _). vm_compute. exact I.
Defined.

(** Why an item must have been linked before it is moved: the links of a
    default-constructed compressed hook decode to the base, so the item is not at a
    list end, and moving it to the head of an empty list writes the links of the item
    at the base and makes the moved item the head and the tail, with the size still
    0; the raw list does nothing. *)
Lemma fresh_compressed_hook_not_null : decode 4096 chook_new = Hook (Some 4096%positive) (Some 4096%positive) 0 0 /\
  let fresh := compressed_store [4096; 4160]%positive in
  exists c l, g_move_to_head 4160 (fresh, new_list (Some 4096%positive)) = Done tt (c, l) /\
    head_ptr l = Some 4160%positive /\ tail_ptr l = Some 4160%positive /\ size_ l = 0 /\
  move_to_head 4160 (fresh_store [4096; 4160]%positive, new_list (Some 4096%positive)) = Some (fresh_store [4096; 4160]%positive, new_list (Some 4096%positive)).
Proof. split; [reflexivity|]. eexists _, _. vm_compute. repeat split; reflexivity. Qed.
