(* ===== verification/DistributedMutex.v ===== *)
(** The lock of the cache, [distributed_shared_mutex] of
    detail/distributed_mutex.hpp, as a step system: 64 reader counters beside a word
    with the writer's flags. Every thread has a program counter and one step is one
    atomic access (each load of the sum over the counters is a step of its own) or a
    wait or wake call, with the local code around it. The native wait is
    compare-and-wait; parked threads may also wake spuriously. The latency
    histograms and the condition-variable fallback are not modelled, and the
    interleavings are sequentially consistent. *)

From S2P Require Import Prelude.

(** * State *)

Definition kWriterFlag : Z := 1.
Definition kWriterWaitFlag : Z := 2.
Definition kNumReaderNodes : nat := 64.
Definition kTryFailFlushThreshold : Z := 64.

(** [s & f] as a condition. *)
Definition has (s f : Z) : bool := negb (Z.land s f =? 0).
Definition lnot32 (x : Z) : Z := U32_MAX - x.

(** The fields; [writer_fair_] is [fairness_ == writer_fair]. *)
Record distributed_shared_mutex := Mutex {
  state_ : Z;
  reader_nodes_ : list Z;
  writer_fair_ : bool;
  numa_aware_ : bool;
  numa_aware_generation_ : Z;
  writer_wait_start_ns_ : Z;
  writer_starvation_timeout_ns_ : Z;
  writer_starvation_events_ : Z;
  writer_max_wait_ns_ : Z;
  latency_tracking_enabled_ : bool;
  wait_count_ : Z;
  try_fail_count_ : Z
}.

Definition set_state (s : Z) (k : distributed_shared_mutex) : distributed_shared_mutex :=
  let 'Mutex _ b c d e f g h i j l m := k in Mutex s b c d e f g h i j l m.
Definition set_nodes (l : list Z) (k : distributed_shared_mutex) : distributed_shared_mutex :=
  let 'Mutex a _ c d e f g h i j w m := k in Mutex a l c d e f g h i j w m.
Definition set_fair (x : bool) (k : distributed_shared_mutex) : distributed_shared_mutex :=
  let 'Mutex a b _ d e f g h i j l m := k in Mutex a b x d e f g h i j l m.
Definition set_numa (x : bool) (gen : Z) (k : distributed_shared_mutex) : distributed_shared_mutex :=
  let 'Mutex a b c _ _ f g h i j l m := k in Mutex a b c x gen f g h i j l m.
Definition set_wait_start (ns : Z) (k : distributed_shared_mutex) : distributed_shared_mutex :=
  let 'Mutex a b c d e _ g h i j l m := k in Mutex a b c d e ns g h i j l m.
Definition set_writer_starvation_timeout (ns : Z) (k : distributed_shared_mutex) : distributed_shared_mutex :=
  let 'Mutex a b c d e f _ h i j l m := k in Mutex a b c d e f ns h i j l m.
Definition set_max_wait (ns : Z) (k : distributed_shared_mutex) : distributed_shared_mutex :=
  let 'Mutex a b c d e f g h _ j l m := k in Mutex a b c d e f g h ns j l m.
Definition set_latency_tracking (x : bool) (k : distributed_shared_mutex) : distributed_shared_mutex :=
  let 'Mutex a b c d e f g h i _ l m := k in Mutex a b c d e f g h i x l m.
Definition count (events waits fails : Z) (k : distributed_shared_mutex) : distributed_shared_mutex :=
  let 'Mutex a b c d e f g h i j l m := k in Mutex a b c d e f g (u64 (h + events)) i j (u64 (l + waits)) (u64 (m + fails)).

Definition node (a : nat) (k : distributed_shared_mutex) : Z := default 0 (reader_nodes_ k !! a).
(** [reader_nodes_[a].value.fetch_add(d)] *)
Definition add_node (a : nat) (d : Z) (k : distributed_shared_mutex) : distributed_shared_mutex :=
  set_nodes (<[a := u32 (node a k + d)]> (reader_nodes_ k)) k.

(** * Program counters *)

(** Who called [try_lock]: the client, [lock], or [set_fairness_mode_quiescent] with
    its new mode and deadline. *)
Inductive caller := ForTry | ForLock | ForQuiet (fair : bool) (deadline : Z).
(** Who called [pick_reader_node]: [lock_shared], one of the slow paths (the
    writer-fair one if [fair]), [try_lock_shared], [unlock_shared]. *)
Inductive site := AtShared | AtSlow (fair : bool) | AtTry | AtRelease.
(** Who waits: [lock_slow], entered at [t0], or a slow path of readers. *)
Inductive waiter := WLock (t0 : Z) | WRead (fair : bool) (a : nat).

(** Where a thread is: the access it makes next. [i] and [sum] are the index and the
    running total of [sum_readers], [a] is a reader node, [s] a value of [state_]. *)
Inductive pc :=
| Idle | HoldW | HoldR
(** [try_lock] *)
| TrySum (c : caller) (i : nat) (sum : Z)
| TryCas (c : caller)
| TryResum (c : caller) (i : nat) (sum : Z)
| TryUndo (c : caller)
| TryCheck (c : caller)
| TryWake (c : caller)
| TryFail (c : caller)
(** [set_fairness_mode_quiescent] *)
| QuietBegin (fair : bool) (timeout : Z)
| QuietClock (fair : bool) (deadline : Z)
| QuietStore (fair : bool)
(** [lock_slow] *)
| LsCount
| LsLoad (t0 : Z)
| LsMark (t0 s : Z)
| LsTimer (t0 s : Z)
| LsStamp (t0 s : Z)
| LsClaim (t0 s : Z)
| LsDrain (t0 : Z) (i : nat) (sum : Z)
| LsTrack (t0 : Z)
| LsMax (ns : Z)
| LsMaxCas (ns prev_max : Z)
| LsClear
(** [do_wait_writer], [do_wait_reader]: the load, the compare-and-wait, the wait *)
| WaitLoad (w : waiter) (s : Z)
| WaitEnter (w : waiter) (s : Z)
| Parked (w : waiter)
(** [unlock] *)
| UnAnd
| UnTimer (prev : Z)
| UnWake (prev : Z)
(** [lock_shared] *)
| ShMode
| ShFair
| ShPrefer
| ShTimeout
| ShStart (timeout : Z)
| ShStarved
| ShAdd (a : nat)
| ShCheck (a : nat)
| ShUndo (a : nat)
(** [pick_reader_node] *)
| PickAware (st : site)
| PickGen (st : site)
(** [lock_shared_slow], [lock_shared_writer_fair_slow] *)
| RsLoad (fair : bool) (a : nat)
| RsAdd (fair : bool) (a : nat)
| RsCheck (fair : bool) (a : nat)
| RsUndo (fair : bool) (a : nat)
(** [try_lock_shared] *)
| TsLoad
| TsAdd (a : nat)
| TsCheck (a : nat)
| TsUndo (a : nat)
| TsFail
(** [unlock_shared] *)
| UsSub (a : nat)
| UsLoad
| UsSum (all : bool) (i : nat) (sum : Z)
| UsWake (all : bool)
(** [set_numa_aware], [flush_try_fail_tls] *)
| NumaStore (enabled : bool)
| NumaBump
| FlushFails.

(** A thread with its thread-local variables: the failures in the slot of this
    mutex, and the cache of [pick_reader_node]. *)
Record thread := Thread { at_ : pc; per_thread_fail : Z; cached_gen : Z; cached_numa_idx : nat }.

Inductive wake := NoWake | WakeOne | WakeAll.

(** * One access *)

(** A load of [sum_readers]. *)
Definition sum_readers (i : nat) (sum : Z) (k : distributed_shared_mutex) (again : nat -> Z -> pc) (done : Z -> pc) : pc :=
  let sum := u32 (sum + node i k) in if (S i <? kNumReaderNodes)%nat then again (S i) sum else done sum.

Definition acquired (c : caller) : pc := match c with ForQuiet fair _ => QuietStore fair | _ => HoldW end.
Definition failed (c : caller) : pc := match c with ForTry => Idle | ForLock => LsCount | ForQuiet fair deadline => QuietClock fair deadline end.

(** The loop of [lock_slow] with [state = s]: mark the queue, then claim or wait. *)
Definition after_mark (t0 s : Z) : pc := if has s kWriterFlag then WaitLoad (WLock t0) s else LsClaim t0 s.
Definition slow_next (t0 s : Z) : pc := if has s kWriterWaitFlag then after_mark t0 s else LsMark t0 s.

(** The flags a reader of a slow path gives way to. *)
Definition reader_mask (fair : bool) : Z := if fair then Z.lor kWriterFlag kWriterWaitFlag else kWriterFlag.
Definition at_site (st : site) (a : nat) : pc :=
  match st with AtShared => ShAdd a | AtSlow fair => RsLoad fair a | AtTry => TsAdd a | AtRelease => UsSub a end.
Definition resume (w : waiter) : pc := match w with WLock t0 => LsLoad t0 | WRead fair a => RsLoad fair a end.
Definition starved (now start timeout : Z) : bool := (start <? now) && (timeout <? now - start).

(** [record_try_fail] and [flush_try_fail_tls]: the new value of the thread's slot and
    what goes to the shared counter. *)
Definition record_try_fail (slot : Z) : Z * Z := let n := slot + 1 in if kTryFailFlushThreshold <=? n then (0, n) else (n, 0).

(** [fallback_idx] is the thread's hashed node; [now] the clock, [numa] the answer of
    [current_numa_node]; [weak_fail] makes a weak compare-exchange fail. *)
Section access.
Context (fallback_idx : nat) (now numa : Z) (weak_fail : bool).
Abbreviation outcome := (option (distributed_shared_mutex * thread * wake)).

Definition step (k : distributed_shared_mutex) (th : thread) (p : pc) (w : wake) : outcome :=
  Some (k, Thread p (per_thread_fail th) (cached_gen th) (cached_numa_idx th), w).

(** [try_lock]. *)
Definition try_lock (k : distributed_shared_mutex) (th : thread) : outcome :=
  let s0 := state_ k in
  let go k p := step k th p NoWake in
  match at_ th with
  | TrySum c i sum => go k (sum_readers i sum k (TrySum c) (fun sum => if sum =? 0 then TryCas c else TryFail c))
  | TryCas c => if (s0 =? 0) && negb weak_fail then go (set_state kWriterFlag k) (TryResum c 0 0) else go k (TryFail c)
  | TryResum c i sum => go k (sum_readers i sum k (TryResum c) (fun sum => if sum =? 0 then acquired c else TryUndo c))
  | TryUndo c => go (set_state (Z.land s0 (lnot32 kWriterFlag)) k) (TryCheck c)
  | TryCheck c => go k (if has s0 kWriterWaitFlag then TryWake c else TryFail c)
  | TryWake c => step k th (TryFail c) WakeAll
  | TryFail c =>
      let '(slot, flushed) := record_try_fail (per_thread_fail th) in
      Some (count 0 0 flushed k, Thread (failed c) slot (cached_gen th) (cached_numa_idx th), NoWake)
  | _ => None
  end.

(** [set_fairness_mode_quiescent], which polls [try_lock]. *)
Definition set_fairness_mode_quiescent (k : distributed_shared_mutex) (th : thread) : outcome :=
  let go k p := step k th p NoWake in
  match at_ th with
  | QuietBegin fair timeout => go k (QuietClock fair (now + timeout))
  | QuietClock fair deadline => go k (if now <? deadline then TrySum (ForQuiet fair deadline) 0 0 else Idle)
  | QuietStore fair => go (set_fair fair k) UnAnd
  | _ => None
  end.

(** [lock_slow]; the wait of the drain loop between two sums is not a step. *)
Definition lock_slow (k : distributed_shared_mutex) (th : thread) : outcome :=
  let s0 := state_ k in
  let go k p := step k th p NoWake in
  match at_ th with
  | LsCount => go (count 0 1 0 k) (LsLoad now)
  | LsLoad t0 => go k (slow_next t0 s0)
  | LsMark t0 s =>
      let desired := Z.lor s kWriterWaitFlag in
      if (s0 =? s) && negb weak_fail then go (set_state desired k) (LsTimer t0 desired) else go k (slow_next t0 s0)
  | LsTimer t0 s => go k (if writer_wait_start_ns_ k =? 0 then LsStamp t0 s else after_mark t0 s)
  | LsStamp t0 s => go (set_wait_start t0 k) (after_mark t0 s)
  | LsClaim t0 s => if (s0 =? s) && negb weak_fail then go (set_state kWriterFlag k) (LsDrain t0 0 0) else go k (slow_next t0 s0)
  | LsDrain t0 i sum => go k (sum_readers i sum k (LsDrain t0) (fun sum => if sum =? 0 then LsTrack t0 else LsDrain t0 0 0))
  | LsTrack t0 => go k (if latency_tracking_enabled_ k then LsMax (u64 (now - t0)) else LsClear)
  | LsMax ns => go k (if writer_max_wait_ns_ k <? ns then LsMaxCas ns (writer_max_wait_ns_ k) else LsClear)
  | LsMaxCas ns prev_max =>
      if (writer_max_wait_ns_ k =? prev_max) && negb weak_fail then go (set_max_wait ns k) LsClear
      else go k (if writer_max_wait_ns_ k <? ns then LsMaxCas ns (writer_max_wait_ns_ k) else LsClear)
  | LsClear => go (set_wait_start 0 k) HoldW
  | _ => None
  end.

(** [do_wait_writer] and [do_wait_reader]. *)
Definition do_wait (k : distributed_shared_mutex) (th : thread) : outcome :=
  let s0 := state_ k in
  let go k p := step k th p NoWake in
  match at_ th with
  | WaitLoad w s => go k (if s0 =? s then WaitEnter w s else resume w)
  | WaitEnter w s => go k (if s0 =? s then Parked w else resume w)
  | _ => None
  end.

(** [unlock]. *)
Definition unlock (k : distributed_shared_mutex) (th : thread) : outcome :=
  let s0 := state_ k in
  let go k p := step k th p NoWake in
  match at_ th with
  | UnAnd => go (set_state (Z.land s0 (lnot32 kWriterFlag)) k) (UnTimer s0)
  | UnTimer prev => go (set_wait_start 0 k) (UnWake prev)
  | UnWake prev => step k th Idle (if has prev kWriterWaitFlag then WakeAll else WakeOne)
  | _ => None
  end.

(** [lock_shared]. *)
Definition lock_shared (k : distributed_shared_mutex) (th : thread) : outcome :=
  let s0 := state_ k in
  let go k p := step k th p NoWake in
  match at_ th with
  | ShMode => go k (if writer_fair_ k then ShFair else ShPrefer)
  | ShFair => go k (PickAware (if has s0 (Z.lor kWriterFlag kWriterWaitFlag) then AtSlow true else AtShared))
  | ShPrefer => go k (if has s0 kWriterWaitFlag then ShTimeout else PickAware AtShared)
  | ShTimeout => go k (if 0 <? writer_starvation_timeout_ns_ k then ShStart (writer_starvation_timeout_ns_ k) else PickAware AtShared)
  | ShStart timeout =>
      let start := writer_wait_start_ns_ k in
      go k (if negb (start =? 0) && starved now start timeout then ShStarved else PickAware AtShared)
  | ShStarved => go (count 1 0 0 k) (PickAware (AtSlow true))
  | ShAdd a => go (add_node a 1 k) (ShCheck a)
  | ShCheck a => go k (if has s0 kWriterFlag then ShUndo a else HoldR)
  | ShUndo a => go (add_node a (-1) k) (PickAware (AtSlow false))
  | _ => None
  end.

(** [pick_reader_node]. *)
Definition pick_reader_node (k : distributed_shared_mutex) (th : thread) : outcome :=
  let go k p := step k th p NoWake in
  match at_ th with
  | PickAware st => go k (if numa_aware_ k then PickGen st else at_site st fallback_idx)
  | PickGen st =>
      let gen := numa_aware_generation_ k in
      let idx := if cached_gen th =? gen then cached_numa_idx th else Z.to_nat (numa mod Z.of_nat kNumReaderNodes) in
      Some (k, Thread (at_site st idx) (per_thread_fail th) gen idx, NoWake)
  | _ => None
  end.

(** [lock_shared_slow] and [lock_shared_writer_fair_slow]. *)
Definition lock_shared_slow (k : distributed_shared_mutex) (th : thread) : outcome :=
  let s0 := state_ k in
  let go k p := step k th p NoWake in
  match at_ th with
  | RsLoad fair a => go k (if has s0 (reader_mask fair) then WaitLoad (WRead fair a) s0 else RsAdd fair a)
  | RsAdd fair a => go (add_node a 1 k) (RsCheck fair a)
  | RsCheck fair a => go k (if has s0 (reader_mask fair) then RsUndo fair a else HoldR)
  | RsUndo fair a => go (add_node a (-1) k) (RsLoad fair a)
  | _ => None
  end.

(** [try_lock_shared]. *)
Definition try_lock_shared (k : distributed_shared_mutex) (th : thread) : outcome :=
  let s0 := state_ k in
  let go k p := step k th p NoWake in
  match at_ th with
  | TsLoad => go k (if has s0 kWriterFlag then TsFail else PickAware AtTry)
  | TsAdd a => go (add_node a 1 k) (TsCheck a)
  | TsCheck a => go k (if has s0 kWriterFlag then TsUndo a else HoldR)
  | TsUndo a => go (add_node a (-1) k) TsFail
  | TsFail =>
      let '(slot, flushed) := record_try_fail (per_thread_fail th) in
      Some (count 0 0 flushed k, Thread Idle slot (cached_gen th) (cached_numa_idx th), NoWake)
  | _ => None
  end.

(** [unlock_shared]. *)
Definition unlock_shared (k : distributed_shared_mutex) (th : thread) : outcome :=
  let s0 := state_ k in
  let go k p := step k th p NoWake in
  match at_ th with
  | UsSub a => go (add_node a (-1) k) (if 0 <? u32 (node a k - 1) then Idle else UsLoad)
  | UsLoad => go k (UsSum (has s0 kWriterWaitFlag) 0 0)
  | UsSum all i sum => go k (sum_readers i sum k (UsSum all) (fun sum => if sum =? 0 then UsWake all else Idle))
  | UsWake all => step k th Idle (if all then WakeAll else WakeOne)
  | _ => None
  end.

(** [set_numa_aware]. *)
Definition set_numa_aware (k : distributed_shared_mutex) (th : thread) : outcome :=
  let go k p := step k th p NoWake in
  match at_ th with
  | NumaStore enabled => go (set_numa enabled (numa_aware_generation_ k) k) NumaBump
  | NumaBump => go (set_numa (numa_aware_ k) (u64 (numa_aware_generation_ k + 1)) k) Idle
  | _ => None
  end.

(** [flush_try_fail_tls]. *)
Definition flush_try_fail_tls (k : distributed_shared_mutex) (th : thread) : outcome :=
  match at_ th with
  | FlushFails => Some (count 0 0 (per_thread_fail th) k, Thread Idle 0 (cached_gen th) (cached_numa_idx th), NoWake)
  | _ => None
  end.

Definition access (k : distributed_shared_mutex) (th : thread) : outcome :=
  match at_ th with
  | Idle | HoldW | HoldR | Parked _ => None
  | TrySum _ _ _ | TryCas _ | TryResum _ _ _ | TryUndo _ | TryCheck _ | TryWake _ | TryFail _ => try_lock k th
  | QuietBegin _ _ | QuietClock _ _ | QuietStore _ => set_fairness_mode_quiescent k th
  | LsCount | LsLoad _ | LsMark _ _ | LsTimer _ _ | LsStamp _ _ | LsClaim _ _ | LsDrain _ _ _ | LsTrack _ | LsMax _ | LsMaxCas _ _ | LsClear => lock_slow k th
  | WaitLoad _ _ | WaitEnter _ _ => do_wait k th
  | UnAnd | UnTimer _ | UnWake _ => unlock k th
  | ShMode | ShFair | ShPrefer | ShTimeout | ShStart _ | ShStarved | ShAdd _ | ShCheck _ | ShUndo _ => lock_shared k th
  | PickAware _ | PickGen _ => pick_reader_node k th
  | RsLoad _ _ | RsAdd _ _ | RsCheck _ _ | RsUndo _ _ => lock_shared_slow k th
  | TsLoad | TsAdd _ | TsCheck _ | TsUndo _ | TsFail => try_lock_shared k th
  | UsSub _ | UsLoad | UsSum _ _ _ | UsWake _ => unlock_shared k th
  | NumaStore _ | NumaBump => set_numa_aware k th
  | FlushFails => flush_try_fail_tls k th
  end.
End access.

(** * The system *)

Record system := System { lock_ : distributed_shared_mutex; threads : list thread }.

Inductive operation :=
| Lock | TryLock | LockShared | TryLockShared | Unlock | UnlockShared
| SetFairnessQuiescent (fair : bool) (timeout : Z) | SetNumaAware (enabled : bool) | TryFailCount.

Definition begin_op (o : operation) (p : pc) : option pc :=
  match o, p with
  | Lock, Idle => Some (TrySum ForLock 0 0)
  | TryLock, Idle => Some (TrySum ForTry 0 0)
  | LockShared, Idle => Some ShMode
  | TryLockShared, Idle => Some TsLoad
  | Unlock, HoldW => Some UnAnd
  | UnlockShared, HoldR => Some (PickAware AtRelease)
  | SetFairnessQuiescent fair timeout, Idle => Some (QuietBegin fair timeout)
  | SetNumaAware enabled, Idle => Some (NumaStore enabled)
  | TryFailCount, Idle => Some FlushFails
  | _, _ => None
  end.

Definition put_pc (p : pc) (th : thread) : thread := Thread p (per_thread_fail th) (cached_gen th) (cached_numa_idx th).
Definition parked (p : pc) : bool := match p with Parked _ => true | _ => false end.
Definition wake_pc (p : pc) : pc := match p with Parked w => resume w | _ => p end.
Definition wake_thread (th : thread) : thread := put_pc (wake_pc (at_ th)) th.

(** A wake of one thread picks a parked one if there is one. *)
Definition do_wake (w : wake) (woken : option nat) (ts : list thread) : option (list thread) :=
  match w with
  | NoWake => Some ts
  | WakeAll => Some (wake_thread <$> ts)
  | WakeOne =>
      match woken with
      | Some j => th ← ts !! j; if parked (at_ th) then Some (<[j := wake_thread th]> ts) else None
      | None => if existsb (fun th => parked (at_ th)) ts then None else Some ts
      end
  end.

(** [Elsewhere] is what calls on other mutexes do to the thread-local variables,
    which all mutexes share. [SetFairness] asserts that the word is 0; the locked
    variant is called by the holder. *)
Inductive event :=
| Begin (t : nat) (o : operation)
| Run (t : nat) (now numa : Z) (weak_fail : bool) (woken : option nat)
| Spurious (t : nat)
| Elsewhere (t : nat) (fails gen : Z) (idx : nat)
| SetFairness (fair : bool)
| SetFairnessLocked (t : nat) (fair : bool)
| SetTimeout (ns : Z)
| SetTracking (enabled : bool)
| ResetMaxWait.

(** [hash_id] is [std::hash] of the thread's id. *)
Section system.
Context (hash_id : nat -> Z).

Definition fallback_idx (t : nat) : nat := Z.to_nat (hash_id t mod Z.of_nat kNumReaderNodes).

Definition fire (e : event) (y : system) : option system :=
  match e with
  | Begin t o => th ← threads y !! t; p ← begin_op o (at_ th); Some (System (lock_ y) (<[t := put_pc p th]> (threads y)))
  | Run t now numa weak_fail woken =>
      th ← threads y !! t;
      '(k, th', w) ← access (fallback_idx t) now numa weak_fail (lock_ y) th;
      ts ← do_wake w woken (<[t := th']> (threads y));
      Some (System k ts)
  | Spurious t => th ← threads y !! t; if parked (at_ th) then Some (System (lock_ y) (<[t := wake_thread th]> (threads y))) else None
  | Elsewhere t fails gen idx =>
      th ← threads y !! t;
      if (0 <=? fails) && (fails <? kTryFailFlushThreshold) && (idx <? kNumReaderNodes)%nat
      then Some (System (lock_ y) (<[t := Thread (at_ th) fails gen idx]> (threads y))) else None
  | SetFairness fair => if state_ (lock_ y) =? 0 then Some (System (set_fair fair (lock_ y)) (threads y)) else None
  | SetFairnessLocked t fair =>
      th ← threads y !! t; match at_ th with HoldW => Some (System (set_fair fair (lock_ y)) (threads y)) | _ => None end
  | SetTimeout ns => Some (System (set_writer_starvation_timeout ns (lock_ y)) (threads y))
  | SetTracking enabled => Some (System (set_latency_tracking enabled (lock_ y)) (threads y))
  | ResetMaxWait => Some (System (set_max_wait 0 (lock_ y)) (threads y))
  end.

Fixpoint fire_all (es : list event) (y : system) : option system :=
  match es with
  | [] => Some y
  | e :: es => y ← fire e y; fire_all es y
  end.
End system.

Definition mutex_new (fair : bool) : distributed_shared_mutex := Mutex 0 (replicate kNumReaderNodes 0) fair false 0 0 100000000 0 0 true 0 0.
Definition initial (fair : bool) (n : nat) : system := System (mutex_new fair) (replicate n (Thread Idle 0 0 0)).

(** * The parts of a step *)

(** Readers inside, readers that have counted themselves and will look at the flag,
    and the writer whose flag is in the word. *)
Definition holds (p : pc) : bool := match p with HoldR | PickAware AtRelease | PickGen AtRelease | UsSub _ => true | _ => false end.
Definition transit (p : pc) : option nat :=
  match p with ShCheck a | ShUndo a | RsCheck _ a | RsUndo _ a | TsCheck a | TsUndo a => Some a | _ => None end.
Definition drained (p : pc) : bool :=
  match p with LsTrack _ | LsMax _ | LsMaxCas _ _ | LsClear | HoldW | QuietStore _ | UnAnd => true | _ => false end.
(** The writer's sum under its flag: the index and the running total. *)
Definition scan (p : pc) : option (nat * Z) := match p with TryResum _ i sum | LsDrain _ i sum => Some (i, sum) | _ => None end.
Definition claimed (p : pc) : bool := drained p || match p with TryResum _ _ _ | LsDrain _ _ _ | TryUndo _ => true | _ => false end.

Definition reader_at (st : site) : bool := match st with AtRelease => true | _ => false end.

(** What a thread knows of the values it carries: nodes are in range, and the word it
    claims from, waits on or has marked has or lacks a flag. *)
Definition pc_ok (p : pc) : bool :=
  match p with
  | LsTimer _ s | LsStamp _ s => has s kWriterWaitFlag
  | LsClaim _ s => has s kWriterWaitFlag && negb (has s kWriterFlag)
  | WaitLoad (WLock _) s | WaitEnter (WLock _) s => has s kWriterFlag
  | WaitLoad (WRead fair a) s | WaitEnter (WRead fair a) s => has s (reader_mask fair) && (a <? kNumReaderNodes)%nat
  | ShAdd a | ShCheck a | ShUndo a | RsLoad _ a | RsAdd _ a | RsCheck _ a | RsUndo _ a | TsAdd a | TsCheck a | TsUndo a | UsSub a
  | Parked (WRead _ a) => (a <? kNumReaderNodes)%nat
  | TrySum _ i sum | TryResum _ i sum | LsDrain _ i sum | UsSum _ i sum => (i <? kNumReaderNodes)%nat
  | _ => true
  end.

(** What a step does to the counters and to the part of its thread in them. *)
Inductive effect (k : distributed_shared_mutex) (p q : pc) : distributed_shared_mutex -> Prop :=
| EStay k' : reader_nodes_ k' = reader_nodes_ k -> holds q = holds p -> transit q = transit p -> effect k p q k'
| ECount a : holds p = false -> transit p = None -> holds q = false -> transit q = Some a -> (a < kNumReaderNodes)%nat -> effect k p q (add_node a 1 k)
| EBack a : holds p = false -> transit p = Some a -> holds q = false -> transit q = None -> (a < kNumReaderNodes)%nat -> effect k p q (add_node a (-1) k)
| EEnter a : holds p = false -> transit p = Some a -> holds q = true -> transit q = None -> has (state_ k) kWriterFlag = false -> effect k p q k
| ELeave a : holds p = true -> transit p = None -> holds q = false -> transit q = None -> (a < kNumReaderNodes)%nat -> p = UsSub a -> effect k p q (add_node a (-1) k).

Lemma at_site_class st a : holds (at_site st a) = reader_at st /\ transit (at_site st a) = None /\ claimed (at_site st a) = false /\ drained (at_site st a) = false /\ scan (at_site st a) = None.
Proof. by destruct st. Qed.
Lemma pick_class st : holds (PickAware st) = reader_at st /\ holds (PickGen st) = reader_at st.
Proof. by destruct st. Qed.
Lemma word_cases s : 0 <= s <= 3 -> s = 0 \/ s = 1 \/ s = 2 \/ s = 3.
Proof. lia. Qed.

(** Splits an access into its cases. *)
Ltac split_access E :=
  repeat match type of E with
  | context [if ?b then _ else _] => destruct b eqn:?
  | context [match ?c with ForTry => _ | ForLock => _ | ForQuiet _ _ => _ end] => destruct c
  end; try (injection E as <- <- <-).
Ltac open_access k th E :=
  destruct th as [p slot gen idx]; unfold access, try_lock, set_fairness_mode_quiescent, lock_slow, do_wait, unlock, lock_shared, pick_reader_node, lock_shared_slow,
    try_lock_shared, unlock_shared, set_numa_aware, flush_try_fail_tls, step, sum_readers, acquired, failed, slow_next, after_mark, resume, record_try_fail in E;
  cbn [at_ per_thread_fail cached_gen cached_numa_idx] in E; destruct p; try done;
  repeat match goal with w0 : waiter |- _ => destruct w0 end; split_access E.

Lemma numa_range numa : (Z.to_nat (numa mod Z.of_nat kNumReaderNodes) < kNumReaderNodes)%nat.
Proof. pose proof (Z.mod_pos_bound numa (Z.of_nat kNumReaderNodes)). unfold kNumReaderNodes in *. lia. Qed.

Lemma mark_waits s : has (Z.lor s kWriterWaitFlag) kWriterWaitFlag = true.
Proof.
  unfold has. apply negb_true_iff, Z.eqb_neq. intros H. apply (f_equal (fun x => Z.testbit x 1)) in H.
  rewrite Z.land_spec, Z.lor_spec in H. change (Z.testbit kWriterWaitFlag 1) with true in H. by rewrite orb_true_r in H.
Qed.

Lemma mutex_access_ok home now numa wf k th k' th' w : access home now numa wf k th = Some (k', th', w) -> (home < kNumReaderNodes)%nat ->
  pc_ok (at_ th) -> (cached_numa_idx th < kNumReaderNodes)%nat -> pc_ok (at_ th') /\ (cached_numa_idx th' < kNumReaderNodes)%nat.
Proof.
  pose proof (numa_range numa) as Hn. rewrite !Is_true_true. intros E Hh Hok Hidx.
  open_access k th E; try match goal with st : site |- _ => destruct st end; cbn [pc_ok at_ at_site cached_numa_idx] in *; split; try done; try lia.
  all: rewrite ?mark_waits, ?andb_true_iff, ?negb_true_iff, ?Nat.ltb_lt, ?Nat.ltb_ge in *; try tauto; unfold kNumReaderNodes in *; lia.
Qed.

Lemma mask_flag s fair : has s (reader_mask fair) = false -> has s kWriterFlag = false.
Proof.
  unfold has. destruct fair; [|done]. rewrite !negb_false_iff, !Z.eqb_eq. intros H. change kWriterFlag with (Z.land (reader_mask true) 1). by rewrite Z.land_assoc, H.
Qed.

Lemma access_effect home now numa wf k th k' th' w : access home now numa wf k th = Some (k', th', w) -> pc_ok (at_ th) -> effect k (at_ th) (at_ th') k'.
Proof.
  intros E Hok. open_access k th E; cbn [pc_ok at_] in *; try (apply Is_true_true, Nat.ltb_lt in Hok).
  all: try (apply EStay; destruct k; cbn [holds transit at_ set_state set_fair set_numa set_wait_start set_max_wait count reader_nodes_]; try done;
            rewrite ?(proj1 (at_site_class _ _)), ?(proj1 (proj2 (at_site_class _ _))); by destruct st).
  all: try (by apply (ECount _ _ _ a)). all: try (by apply (EBack _ _ _ a)). all: try (by apply (ELeave _ _ _ a)).
  all: apply (EEnter _ _ _ a); try done. by eapply mask_flag.
Qed.

(** The word: the flag is set exactly while a thread has a claim. *)
Definition claims (th : thread) : Z := Z.b2z (claimed (at_ th)).

Lemma access_word home now numa wf k th k' th' w : access home now numa wf k th = Some (k', th', w) -> 0 <= state_ k <= 3 -> pc_ok (at_ th) ->
  claims th <= Z.b2z (has (state_ k) kWriterFlag) ->
  0 <= state_ k' <= 3 /\ Z.b2z (has (state_ k') kWriterFlag) = Z.b2z (has (state_ k) kWriterFlag) - claims th + claims th'.
Proof.
  intros E Hw Hok Hc. open_access k th E; unfold claims in *; cbn [at_] in *.
  all: destruct k; cbn [state_ set_state set_nodes set_fair set_numa set_wait_start set_max_wait count add_node] in *.
  all: try match goal with |- context [at_site ?st ?a] => destruct (at_site_class st a) as (_ & _ & -> & _) end.
  all: try match goal with H : (_ =? ?s) && negb _ = true |- _ => apply andb_true_iff in H as [H%Z.eqb_eq _]; try (is_var s; subst s) end.
  all: try (split; [done|cbn [claimed drained orb]; lia]).
  all: revert Hok; destruct (word_cases _ Hw) as [-> | [-> | [-> | ->]]]; try done.
Qed.

(** The sum of the writer: a step begins it, adds a counter to it, or ends it. *)
Lemma access_scan home now numa wf k th k' th' w : access home now numa wf k th = Some (k', th', w) ->
  (scan (at_ th') = Some (0%nat, 0) \/ scan (at_ th') = None \/
   exists i sum, scan (at_ th) = Some (i, sum) /\ scan (at_ th') = Some (S i, u32 (sum + node i k)) /\ (S i < kNumReaderNodes)%nat /\ k' = k) /\
  (drained (at_ th') = true -> drained (at_ th) = true \/
   exists i sum, scan (at_ th) = Some (i, sum) /\ (kNumReaderNodes <= S i)%nat /\ u32 (sum + node i k) = 0).
Proof.
  intros E. open_access k th E; cbn [at_].
  all: try match goal with |- context [at_site ?st ?a] => destruct (at_site_class st a) as (_ & _ & _ & -> & ->) end.
  all: cbn [scan drained]; split; try (by right; left); try (by left); try done; try (by intros _; left).
  all: repeat match goal with H : (_ <? _)%nat = true |- _ => apply Nat.ltb_lt in H | H : (_ <? _)%nat = false |- _ => apply Nat.ltb_ge in H end; bool_to_Z.
  all: try (right; right; by eexists _, _). all: try (intros _; right; by eexists _, _).
Qed.

(** * The invariant *)

Definition inside (th : thread) : Z := Z.b2z (holds (at_ th)).
(** A reader that has counted itself in a node from [i] on. *)
Definition counted (i : nat) (th : thread) : Z := match transit (at_ th) with Some a => Z.b2z (i <=? a)%nat | None => 0 end.
(** The counters from [i] on. *)
Definition rest (i : nat) (k : distributed_shared_mutex) : Z := total id (drop i (reader_nodes_ k)).

(** The running sum of a writer and the counters it has not read yet cover, up to
    wrap-around, the readers inside and those counted in the rest, and more. *)
Definition scan_ok (k : distributed_shared_mutex) (ts : list thread) (i : nat) (sum : Z) : Prop :=
  exists extra z, 0 <= extra /\ sum + rest i k = extra + total inside ts + total (counted i) ts + z * 2 ^ 32 /\
    extra + total inside ts <= Z.of_nat (length ts) * (Z.of_nat i + 1).

Record mutex_inv (k : distributed_shared_mutex) (ts : list thread) : Prop := {
  mi_threads : Z.of_nat (length ts) <= 2 ^ 25;
  mi_nodes : length (reader_nodes_ k) = kNumReaderNodes;
  mi_word : 0 <= state_ k <= 3;
  mi_pcs : Forall (fun th => pc_ok (at_ th) /\ (cached_numa_idx th < kNumReaderNodes)%nat) ts;
  mi_flag : total claims ts = Z.b2z (has (state_ k) kWriterFlag);
  mi_sum : exists z, rest 0 k = total inside ts + total (counted 0) ts + z * 2 ^ 32;
  mi_scan : forall j th i sum, ts !! j = Some th -> scan (at_ th) = Some (i, sum) -> scan_ok k ts i sum;
  mi_drained : forall j th, ts !! j = Some th -> drained (at_ th) = true -> total inside ts = 0
}.

Lemma claims_range th : 0 <= claims th <= 1.
Proof. unfold claims. destruct (claimed _); cbn; lia. Qed.
Lemma inside_range th : 0 <= inside th <= 1.
Proof. unfold inside. destruct (holds _); cbn; lia. Qed.
Lemma counted_range i th : 0 <= counted i th <= 1.
Proof. unfold counted. destruct (transit _); [|lia]. destruct (_ <=? _)%nat; cbn; lia. Qed.
#[local] Hint Resolve claims_range inside_range counted_range : core.

Lemma wrap_exists x : exists z, u32 x = x + z * 2 ^ 32.
Proof. exists (- (x / 2 ^ 32)). unfold wrap. rewrite Z.mod_eq; lia. Qed.

Lemma rest_add i a d k : length (reader_nodes_ k) = kNumReaderNodes -> (a < kNumReaderNodes)%nat ->
  exists z, rest i (add_node a d k) = rest i k + (if (i <=? a)%nat then d else 0) + z * 2 ^ 32.
Proof.
  intros Hl Ha. destruct (wrap_exists (node a k + d)) as [z Hz]. unfold rest.
  assert (reader_nodes_ (add_node a d k) = <[a := u32 (node a k + d)]> (reader_nodes_ k)) as -> by (by destruct k).
  destruct (lookup_lt_is_Some_2 (reader_nodes_ k) a) as [v Hv]; [lia|]. destruct (Nat.leb_spec i a).
  - exists z. rewrite drop_insert_ge, (total_insert _ _ _ v) by (first [lia | rewrite lookup_drop; by replace (i + (a - i))%nat with a by lia]).
    unfold id at 2 3. unfold node in *. rewrite Hv in *. cbn [default] in *. unfold id in *. lia.
  - exists 0. rewrite drop_insert_lt by lia. lia.
Qed.

Lemma rest_next i k : length (reader_nodes_ k) = kNumReaderNodes -> (i < kNumReaderNodes)%nat -> rest i k = node i k + rest (S i) k.
Proof.
  intros Hl Hi. unfold rest, node. destruct (lookup_lt_is_Some_2 (reader_nodes_ k) i) as [v Hv]; [lia|]. rewrite (drop_S _ v) by done. by rewrite Hv.
Qed.

(** A reader of the rest is counted in its first node or in the remainder. *)
Definition at_node (i : nat) (th : thread) : Z := match transit (at_ th) with Some a => Z.b2z (a =? i)%nat | None => 0 end.
Lemma counted_next i ts : total (counted i) ts = total (at_node i) ts + total (counted (S i)) ts.
Proof.
  rewrite <- total_add. apply total_ext. intros th. unfold counted, at_node. destruct (transit _) as [a|]; [|done].
  destruct (Nat.leb_spec i a), (Nat.leb_spec (S i) a), (Nat.eqb_spec a i); cbn; lia.
Qed.
Lemma at_node_range i th : 0 <= at_node i th <= 1.
Proof. unfold at_node. destruct (transit _); [|lia]. destruct (_ =? _)%nat; cbn; lia. Qed.

(** A sum that has begun stays good while threads move, as long as nobody enters. *)
Lemma scan_effect k k' ts t th th' i sum : scan_ok k ts i sum -> ts !! t = Some th -> effect k (at_ th) (at_ th') k' ->
  has (state_ k) kWriterFlag = true -> length (reader_nodes_ k) = kNumReaderNodes -> scan_ok k' (<[t := th']> ts) i sum.
Proof.
  intros (extra & z & He & Hs & Hb) Ht Hef Hf Hl. unfold scan_ok.
  rewrite !(total_insert _ ts t th th' Ht), length_insert. unfold inside at 2 3 5 6. unfold counted at 2 3.
  inversion Hef as [? Hn H1 H2|a H1 H2 H3 H4 Ha|a H1 H2 H3 H4 Ha|a H1 H2 H3 H4 Hno|a H1 H2 H3 H4 Ha]; subst; rewrite ?H1, ?H2, ?H3, ?H4; cbn [Z.b2z].
  - exists extra, z. unfold rest in *. rewrite Hn. split; [done|]. split; lia.
  - destruct (rest_add i a 1 k Hl Ha) as [z' ->]. exists extra, (z + z'). split; [done|]. destruct (i <=? a)%nat; cbn; split; lia.
  - destruct (rest_add i a (-1) k Hl Ha) as [z' ->]. exists extra, (z + z'). split; [done|]. destruct (i <=? a)%nat; cbn; split; lia.
  - congruence.
  - destruct (rest_add i a (-1) k Hl Ha) as [z' ->]. exists (if (i <=? a)%nat then extra else extra + 1), (z + z').
    destruct (i <=? a)%nat; cbn; split_and!; lia.
Qed.

Lemma sum_effect k k' ts t th th' z : rest 0 k = total inside ts + total (counted 0) ts + z * 2 ^ 32 -> ts !! t = Some th ->
  effect k (at_ th) (at_ th') k' -> length (reader_nodes_ k) = kNumReaderNodes ->
  exists z, rest 0 k' = total inside (<[t := th']> ts) + total (counted 0) (<[t := th']> ts) + z * 2 ^ 32.
Proof.
  intros Hs Ht Hef Hl. rewrite !(total_insert _ ts t th th' Ht). unfold inside at 2 3. unfold counted at 2 3.
  inversion Hef as [? Hn H1 H2|a H1 H2 H3 H4 Ha|a H1 H2 H3 H4 Ha|a H1 H2 H3 H4 Hno|a H1 H2 H3 H4 Ha]; subst; rewrite ?H1, ?H2, ?H3, ?H4; cbn [Z.b2z Nat.leb].
  - exists z. unfold rest in *. rewrite Hn. lia.
  - destruct (rest_add 0 a 1 k Hl Ha) as [z' ->]. exists (z + z'). cbn. lia.
  - destruct (rest_add 0 a (-1) k Hl Ha) as [z' ->]. exists (z + z'). cbn. lia.
  - exists z. lia.
  - destruct (rest_add 0 a (-1) k Hl Ha) as [z' ->]. exists (z + z'). cbn. lia.
Qed.

Lemma inside_effect k k' ts t th th' : ts !! t = Some th -> effect k (at_ th) (at_ th') k' -> has (state_ k) kWriterFlag = true ->
  total inside ts = 0 -> total inside (<[t := th']> ts) = 0.
Proof.
  intros Ht Hef Hf H0. pose proof (total_bound inside (<[t := th']> ts) inside_range). pose proof (total_pos inside ts t th inside_range Ht) as Hp.
  rewrite (total_insert _ ts t th th' Ht) in *. unfold inside at 2 3 in H. unfold inside at 2 3. unfold inside at 1 in Hp.
  destruct Hef; rewrite ?H1, ?H2, ?H3 in *; cbn in *; lia || congruence.
Qed.

Lemma scan_next k ts i sum : scan_ok k ts i sum -> length (reader_nodes_ k) = kNumReaderNodes -> (i < kNumReaderNodes)%nat ->
  scan_ok k ts (S i) (u32 (sum + node i k)).
Proof.
  intros (extra & z & He & Hs & Hb) Hl Hi. destruct (wrap_exists (sum + node i k)) as [z' ->].
  rewrite rest_next in Hs by done. rewrite counted_next in Hs. pose proof (total_bound (at_node i) ts (at_node_range i)) as Hn.
  exists (extra + total (at_node i) ts), (z + z'). split_and!; lia.
Qed.

Lemma scan_end k ts i sum : scan_ok k ts i sum -> length (reader_nodes_ k) = kNumReaderNodes -> (i < kNumReaderNodes)%nat -> (kNumReaderNodes <= S i)%nat ->
  Z.of_nat (length ts) <= 2 ^ 25 -> u32 (sum + node i k) = 0 -> total inside ts = 0.
Proof.
  intros Hs Hl Hi Hend Hn H0. apply scan_next in Hs as (extra & z & He & Hs & Hb); [|done..]. rewrite H0 in Hs.
  pose proof (total_bound inside ts inside_range). pose proof (total_bound (counted (S i)) ts (counted_range _)).
  assert (rest (S i) k = 0) as Hr by (unfold rest; by rewrite drop_ge by lia). unfold kNumReaderNodes in *.
  assert (i = 63%nat) as -> by lia. nia.
Qed.

Lemma effect_length k p q k' : effect k p q k' -> length (reader_nodes_ k') = length (reader_nodes_ k).
Proof. intros []; [congruence| | |done|]; destruct k; cbn; by rewrite length_insert. Qed.
Lemma scan_claims th x : scan (at_ th) = Some x -> claims th = 1.
Proof. unfold claims. by destruct (at_ th). Qed.
Lemma drained_claims th : drained (at_ th) = true -> claims th = 1.
Proof. unfold claims, claimed. by intros ->. Qed.
Lemma scan_range th i sum : scan (at_ th) = Some (i, sum) -> pc_ok (at_ th) -> (i < kNumReaderNodes)%nat.
Proof. destruct (at_ th); try done; intros [= <- <-] H; by apply Is_true_true, Nat.ltb_lt in H. Qed.

Lemma claims_flag k ts j th : mutex_inv k ts -> ts !! j = Some th -> claims th = 1 -> has (state_ k) kWriterFlag = true.
Proof.
  intros Hi Hj Hc. pose proof (mi_flag _ _ Hi) as Hf. pose proof (total_pos claims ts j th claims_range Hj). destruct (has _ _); [done|]. cbn in Hf. lia.
Qed.

Lemma mutex_access home now numa wf k ts t th k' th' w : mutex_inv k ts -> ts !! t = Some th -> (home < kNumReaderNodes)%nat ->
  access home now numa wf k th = Some (k', th', w) -> mutex_inv k' (<[t := th']> ts).
Proof.
  intros Hi Ht Hh E. pose proof Hi as [Hn Hl Hw Hp Hf [z Hs] Hsc Hd].
  assert (pc_ok (at_ th) /\ (cached_numa_idx th < kNumReaderNodes)%nat) as [Hok Hidx] by (rewrite Forall_lookup in Hp; by apply (Hp t)).
  pose proof (access_effect _ _ _ _ _ _ _ _ _ E Hok) as Hef. destruct (access_scan _ _ _ _ _ _ _ _ _ E) as [Hscan Hdr].
  pose proof (total_pos claims ts t th claims_range Ht) as Hc. rewrite Hf in Hc. destruct (access_word _ _ _ _ _ _ _ _ _ E Hw Hok Hc) as [Hw' Hf'].
  pose proof (sum_effect k k' ts t th th' z Hs Ht Hef Hl) as Hs'.
  assert (length (<[t := th']> ts) = length ts) as Hlen by apply length_insert.
  split; rewrite ?Hlen, ?(effect_length _ _ _ _ Hef); try done.
  - apply Forall_insert; [done|]. by eapply mutex_access_ok.
  - rewrite (total_insert _ ts t th th' Ht). lia.
  - intros j th1 i sum Hj Hs1. destruct (decide (j = t)) as [->|Hjt].
    + rewrite list_lookup_insert_eq in Hj by (by eapply lookup_lt_Some). injection Hj as <-. destruct Hscan as [H|[H|(i0 & s0 & H0 & H & Hi0 & ->)]].
      * rewrite Hs1 in H. injection H as -> ->. destruct Hs' as [z' Hs']. exists 0, z'. pose proof (total_bound inside (<[t := th']> ts) inside_range).
        rewrite Hlen in *. split_and!; lia.
      * congruence.
      * rewrite Hs1 in H. injection H as -> ->. apply (scan_effect k k ts t th th'); try done.
        -- apply scan_next; [by apply (Hsc t th)|done|lia].
        -- by eapply (claims_flag k ts t th), scan_claims.
    + rewrite list_lookup_insert_ne in Hj by done. apply (scan_effect k k' ts t th th'); try done; [by apply (Hsc j th1)|].
      by eapply (claims_flag k ts j th1), scan_claims.
  - intros j th1 Hj Hd1. destruct (decide (j = t)) as [->|Hjt].
    + rewrite list_lookup_insert_eq in Hj by (by eapply lookup_lt_Some). injection Hj as <-.
      destruct (Hdr Hd1) as [Hd0|(i & sum & Hs0 & Hend & H0)].
      * eapply inside_effect; eauto using claims_flag, drained_claims.
      * eapply inside_effect; [done..|by eapply claims_flag, scan_claims|]. apply (scan_end k ts i sum); try done; [by eapply Hsc|by eapply scan_range].
    + rewrite list_lookup_insert_ne in Hj by done. eapply inside_effect; eauto using claims_flag, drained_claims.
Qed.

(** Moves that leave the word, the counters and everybody's part in them alone. *)
Definition thread_ok (th : thread) : Prop := pc_ok (at_ th) /\ (cached_numa_idx th < kNumReaderNodes)%nat.
Definition similar (th th' : thread) : Prop :=
  holds (at_ th') = holds (at_ th) /\ transit (at_ th') = transit (at_ th) /\ claimed (at_ th') = claimed (at_ th) /\
  scan (at_ th') = scan (at_ th) /\ drained (at_ th') = drained (at_ th) /\ (thread_ok th -> thread_ok th').

Lemma similar_refl th : similar th th.
Proof. done. Qed.
Lemma similar_total f ts ts' : (forall th th', similar th th' -> f th' = f th) -> Forall2 similar ts ts' -> total f ts' = total f ts.
Proof. intros Hf. induction 1 as [|? ? ? ? H ? IH]; cbn; [done|]. rewrite (Hf _ _ H). lia. Qed.
Lemma similar_insert ts t th th' : ts !! t = Some th -> similar th th' -> Forall2 similar ts (<[t := th']> ts).
Proof.
  intros Ht Hs. rewrite <- (list_insert_id ts t th Ht) at 1. apply Forall2_insert; [|done]. apply Forall_Forall2_diag, Forall_true, similar_refl.
Qed.
Lemma similar_wake ts : Forall2 similar ts (wake_thread <$> ts).
Proof.
  apply Forall2_fmap_r, Forall_Forall2_diag, Forall_true. intros [p slot gen idx]. unfold wake_thread, put_pc. cbn.
  destruct p; try done. by destruct w.
Qed.
Lemma similar_wake_one ts t th : ts !! t = Some th -> Forall2 similar ts (<[t := wake_thread th]> ts).
Proof.
  intros Ht. apply (similar_insert ts t th); [done|]. destruct th as [p slot gen idx]. unfold wake_thread, put_pc. cbn. destruct p; try done. by destruct w.
Qed.
Lemma similar_begin o p th : begin_op o (at_ th) = Some p -> similar th (put_pc p th).
Proof. destruct th as [q slot gen idx]. cbn. by destruct o, q; intros [= <-]. Qed.

Lemma mutex_similar k k' ts ts' : mutex_inv k ts -> Forall2 similar ts ts' -> state_ k' = state_ k -> reader_nodes_ k' = reader_nodes_ k -> mutex_inv k' ts'.
Proof.
  intros [Hn Hl Hw Hp Hf Hs Hsc Hd] H2 Ew En. pose proof (Forall2_length _ _ _ H2) as Hlen.
  assert (total claims ts' = total claims ts) as E1 by (apply similar_total; [|done]; unfold claims; by intros ? ? (_ & _ & -> & _)).
  assert (total inside ts' = total inside ts) as E2 by (apply similar_total; [|done]; unfold inside; by intros ? ? (-> & _)).
  assert (forall i, total (counted i) ts' = total (counted i) ts) as E3 by (intros i; apply similar_total; [|done]; unfold counted; by intros ? ? (_ & -> & _)).
  assert (forall i, rest i k' = rest i k) as E4 by (intros i; unfold rest; by rewrite En).
  split; rewrite ?Ew, ?En, ?E1, ?E2, ?E3, ?E4, <- ?Hlen; try done.
  - apply Forall_lookup. intros j th' Hj. destruct (Forall2_lookup_r _ _ _ _ _ H2 Hj) as (th & Hj0 & (_ & _ & _ & _ & _ & Hok)).
    rewrite Forall_lookup in Hp. by apply Hok, (Hp j).
  - intros j th' i sum Hj Hs'. destruct (Forall2_lookup_r _ _ _ _ _ H2 Hj) as (th & Hj0 & (_ & _ & _ & H & _)). rewrite H in Hs'.
    destruct (Hsc j th i sum Hj0 Hs') as (extra & z & Hsc'). exists extra, z. by rewrite E2, E3, E4, <- Hlen.
  - intros j th' Hj Hd'. destruct (Forall2_lookup_r _ _ _ _ _ H2 Hj) as (th & Hj0 & (_ & _ & _ & _ & H & _)). rewrite H in Hd'. by apply (Hd j th).
Qed.

Lemma do_wake_similar w woken ts ts' : do_wake w woken ts = Some ts' -> Forall2 similar ts ts'.
Proof.
  intros E. assert (Forall2 similar ts ts) as Hr by (apply Forall_Forall2_diag, Forall_true, similar_refl).
  destruct w; cbn in E; [by injection E as <-| |injection E as <-; apply similar_wake]. destruct woken as [j|].
  - destruct (ts !! j) as [th|] eqn:Hj; cbn in E; [|done]. destruct (parked _); [|done]. injection E as <-. by apply similar_wake_one.
  - destruct (existsb _ _); [done|]. by injection E as <-.
Qed.

Lemma fallback_range hash_id t : (fallback_idx hash_id t < kNumReaderNodes)%nat.
Proof. apply numa_range. Qed.

Lemma mutex_fire hash_id e y y' : mutex_inv (lock_ y) (threads y) -> fire hash_id e y = Some y' -> mutex_inv (lock_ y') (threads y').
Proof.
  destruct y as [k ts]. cbn [lock_ threads]. intros Hi E.
  assert (Forall2 similar ts ts) as Hr by (apply Forall_Forall2_diag, Forall_true, similar_refl).
  destruct e as [t o|t now numa wf woken|t|t fails gen idx|fair|t fair|ns|en|]; cbn [fire lock_ threads] in E.
  - apply bind_Some in E as (th & Ht & (p & Hp & [= <-])%bind_Some). apply (mutex_similar k k ts); try done. by eapply similar_insert, similar_begin.
  - apply bind_Some in E as (th & Ht & ([[k' th'] w] & Ha & (ts' & Hw & [= <-])%bind_Some)%bind_Some). cbn.
    apply (mutex_similar k' k' (<[t := th']> ts)); [|by eapply do_wake_similar|done..]. eapply mutex_access; eauto. apply fallback_range.
  - apply bind_Some in E as (th & Ht & E). destruct (parked _); [|done]. injection E as <-. apply (mutex_similar k k ts); try done. by apply similar_wake_one.
  - apply bind_Some in E as (th & Ht & E). destruct (_ && _ && _) eqn:Hb; [|done]. injection E as <-. apply (mutex_similar k k ts); try done.
    apply (similar_insert ts t th); [done|]. apply andb_true_iff in Hb as [_ Hb%Nat.ltb_lt]. unfold similar, thread_ok. cbn. split_and!; try done. by intros [??].
  - destruct (_ =? _); [|done]. injection E as <-. apply (mutex_similar k _ ts); try done; by destruct k.
  - apply bind_Some in E as (th & Ht & E). destruct (at_ th); try done. injection E as <-. apply (mutex_similar k _ ts); try done; by destruct k.
  - injection E as <-. apply (mutex_similar k _ ts); try done; by destruct k.
  - injection E as <-. apply (mutex_similar k _ ts); try done; by destruct k.
  - injection E as <-. apply (mutex_similar k _ ts); try done; by destruct k.
Qed.

Lemma mutex_fire_all hash_id es y y' : mutex_inv (lock_ y) (threads y) -> fire_all hash_id es y = Some y' -> mutex_inv (lock_ y') (threads y').
Proof.
  revert y. induction es as [|e es IH]; intros y Hi E; [by injection E as <-|].
  apply bind_Some in E as (y1 & E1 & E). eapply IH; [|done]. by eapply mutex_fire.
Qed.

Lemma total_replicate {A} (f : A -> Z) (x : A) n : f x = 0 -> total f (replicate n x) = 0.
Proof. intros Hf. induction n; cbn; lia. Qed.

Lemma mutex_initial fair n : Z.of_nat n <= 2 ^ 25 -> mutex_inv (lock_ (initial fair n)) (threads (initial fair n)).
Proof.
  intros Hn. split; cbn [threads lock_ initial]; rewrite ?length_replicate; try done.
  - apply Forall_replicate. cbn. unfold kNumReaderNodes. split; [done|lia].
  - by rewrite total_replicate.
  - exists 0. rewrite !total_replicate by done. done.
  - intros j th i sum [-> _]%lookup_replicate. done.
  - intros j th [-> _]%lookup_replicate. done.
Qed.

(** * Theorems *)

(** C11: the lock of the cache excludes. Whatever the interleaving of up to 2^25
    threads, with changes of the fairness and of the routing of readers to counters in
    between (so that a release may go to another counter than its acquisition),
    spurious failures and spurious wake-ups: two threads never hold the lock for
    writing, and none holds it for reading while another holds it for writing; the
    writer's flag is in the word exactly while a thread has claimed it. *)
Theorem distributed_mutual_exclusion (hash_id : nat -> Z) (fair : bool) (n : nat) (es : list event) (y : system) :
  Z.of_nat n <= 2 ^ 25 -> fire_all hash_id es (initial fair n) = Some y ->
  (forall i j th th', threads y !! i = Some th -> threads y !! j = Some th' -> at_ th = HoldW -> at_ th' = HoldW -> i = j) /\
  (forall i j th th', threads y !! i = Some th -> threads y !! j = Some th' -> at_ th = HoldW -> at_ th' <> HoldR) /\
  (has (state_ (lock_ y)) kWriterFlag = true <-> exists i th, threads y !! i = Some th /\ claimed (at_ th) = true).
Proof.
  intros Hn E. pose proof (mutex_fire_all hash_id es _ y (mutex_initial fair n Hn) E) as Hi. pose proof (mi_flag _ _ Hi) as Hf. split_and!.
  - intros i j th th' H1 H2 E1 E2. destruct (decide (i = j)) as [|Hij]; [done|].
    pose proof (total_two claims _ i j th th' (Thread Idle 0 0 0) claims_range eq_refl H1 H2 Hij) as Ht. rewrite Hf in Ht. unfold claims in Ht.
    rewrite E1, E2 in Ht. destruct (has _ _); cbn in Ht; lia.
  - intros i j th th' H1 H2 E1 E2. pose proof (mi_drained _ _ Hi i th H1) as Hd. rewrite E1 in Hd. specialize (Hd eq_refl).
    pose proof (total_pos inside _ j th' inside_range H2) as Hp. unfold inside at 1 in Hp. rewrite E2 in Hp. cbn in Hp. lia.
  - split.
    + intros H. rewrite H in Hf. destruct (total_some claims (threads y)) as (i & th & H1 & H2); [rewrite Hf; cbn; lia|].
      exists i, th. split; [done|]. unfold claims in H2. by destruct (claimed _).
    + intros (i & th & H1 & H2). eapply claims_flag; [done..|]. unfold claims. by rewrite H2.
Qed.

(** Two threads, 0 reading and 1 calling [try_lock]. The reader counts itself between
    the first sum and the claim of [try_lock]; it sees the flag, withdraws and parks
    on it; [try_lock] saw its count, takes the flag back and wakes nobody, as no
    writer is queued. *)
Definition strand_run : list event :=
  let r t := Run t 1 0 false None in
  [Begin 1 TryLock] ++ replicate 64 (r 1%nat) ++ [Begin 0 LockShared] ++ replicate 4 (r 0%nat) ++ replicate 65 (r 1%nat) ++
  replicate 6 (r 0%nat) ++ replicate 3 (r 1%nat).

(** The reader sleeps on a free lock with nobody left to wake it. *)
Theorem try_lock_strands_reader : exists y, fire_all (fun _ => 0) strand_run (initial true 2) = Some y /\
  at_ <$> threads y = [Parked (WRead false 0); Idle] /\ state_ (lock_ y) = 0 /\ reader_nodes_ (lock_ y) = replicate kNumReaderNodes 0.
Proof. eexists. vm_compute. repeat split; reflexivity. Qed.

(** * Witness *)

(** A reader enters; a writer finds it, queues, claims the flag and waits for the
    counters; the reader leaves and the writer gets in. *)
Definition exclusion_run : list event :=
  let r t := Run t 1 0 false None in
  [Begin 0 LockShared] ++ replicate 5 (r 0%nat) ++ [Begin 1 Lock] ++ replicate 135 (r 1%nat) ++
  [Begin 0 UnlockShared] ++ replicate 68 (r 0%nat) ++ replicate 67 (r 1%nat).

Lemma distributed_mutual_exclusion_witness : exists y, fire_all (fun _ => 0) exclusion_run (initial true 2) = Some y /\
  at_ <$> threads y = [Idle; HoldW] /\ has (state_ (lock_ y)) kWriterFlag = true.
Proof.
  destruct (fire_all (fun _ => 0) exclusion_run (initial true 2)) as [y|] eqn:E; [|vm_compute in E; discriminate].
  destruct (distributed_mutual_exclusion (fun _ => 0) true 2 exclusion_run y ltac:(lia) E) as (_ & _ & Hf).
  assert (at_ <$> threads y = [Idle; HoldW]) as Hp by (vm_compute in E; injection E as <-; reflexivity).
  exists y. split; [reflexivity|]. split; [exact Hp|]. apply Hf. exists 1%nat.
  destruct (threads y) as [|a [|b ts]] eqn:Et; cbn in Hp; try discriminate Hp. injection Hp as _ Hb _. exists b. split; [reflexivity|]. rewrite Hb. reflexivity.
Defined.
