(* ===== verification/DistributedWake.v ===== *)
(** Blocking clients of the lock of DistributedMutex: threads that call [lock],
    [lock_shared] and their releases, with the default routing of readers. The
    counters are exact then, and nobody is parked while every other thread is idle. *)

From S2P Require Import Prelude DistributedMutex.

(** * Blocking clients *)

Definition blocking (e : event) : bool :=
  match e with
  | Begin _ (TryLock | TryLockShared | SetFairnessQuiescent _ _ | SetNumaAware _) => false
  | _ => true
  end.

(** [lock] before its claim, and with the parked writers left out. *)
Definition queued (p : pc) : bool :=
  match p with
  | TrySum ForLock _ _ | TryCas ForLock | TryCheck ForLock | TryWake ForLock | TryFail ForLock | LsCount | LsLoad _ | LsMark _ _ | LsTimer _ _ | LsStamp _ _
  | LsClaim _ _ | WaitLoad (WLock _) _ | WaitEnter (WLock _) _ | Parked (WLock _) => true
  | _ => false
  end.
Definition running_writer (p : pc) : bool := queued p && negb (parked p) || claimed p.
(** Writers that keep a queue marked, and all writers that are on their way. *)
Definition keeps_queue (p : pc) : bool := running_writer p || match p with UnTimer prev | UnWake prev => has prev kWriterWaitFlag | _ => false end.
Definition writer_active (p : pc) : bool := running_writer p || match p with UnTimer _ | UnWake _ => true | _ => false end.
(** Readers up to their release, and those whose release is going to wake somebody. *)
Definition reader_coming (p : pc) : bool :=
  match p with
  | ShMode | ShFair | ShPrefer | ShTimeout | ShStart _ | ShStarved | ShAdd _ | ShCheck _ | ShUndo _ | PickAware _ | RsLoad _ _ | RsAdd _ _ | RsCheck _ _ | RsUndo _ _
  | WaitLoad (WRead _ _) _ | WaitEnter (WRead _ _) _ | HoldR | UsSub _ => true
  | _ => false
  end.
Definition reader_active (p : pc) : bool := reader_coming p || match p with UsLoad | UsWake _ => true | UsSum _ _ sum => sum =? 0 | _ => false end.
Definition active (p : pc) : bool := writer_active p || reader_active p.

(** The program counters of blocking clients; [home] is the thread's node. *)
Definition calm_pc (home : nat) (p : pc) : bool :=
  match p with
  | TrySum c _ _ | TryCas c | TryResum c _ _ | TryUndo c | TryCheck c | TryWake c | TryFail c => match c with ForLock => true | _ => false end
  | QuietBegin _ _ | QuietClock _ _ | QuietStore _ | NumaStore _ | NumaBump | PickGen _ | PickAware AtTry | TsLoad | TsAdd _ | TsCheck _ | TsUndo _ | TsFail => false
  | ShAdd a | ShCheck a | ShUndo a | RsLoad _ a | RsAdd _ a | RsCheck _ a | RsUndo _ a | UsSub a
  | WaitLoad (WRead _ a) _ | WaitEnter (WRead _ a) _ | Parked (WRead _ a) => (a =? home)%nat
  | _ => true
  end.

(** * The steps *)

Section home.
Context (hash_id : nat -> Z).
Abbreviation home := (fallback_idx hash_id).

Definition its (ts : list thread) : list (nat * thread) := imap (fun t th => (t, th)) ts.
(** The part of a thread in the counter of node [a]. *)
Definition in_node (a : nat) (x : nat * thread) : Z :=
  Z.b2z ((holds (at_ x.2) && (home x.1 =? a)%nat) || match transit (at_ x.2) with Some b => (b =? a)%nat | None => false end).

Definition some_thread (P : pc -> bool) (ts : list thread) : Prop := exists t th, ts !! t = Some th /\ P (at_ th) = true.

(** [woken] is a wake that follows in the same step. *)
Record calm (woken : wake) (k : distributed_shared_mutex) (ts : list thread) : Prop := {
  ca_numa : numa_aware_ k = false;
  ca_pcs : forall t th, ts !! t = Some th -> calm_pc (home t) (at_ th) = true;
  ca_books : forall a, (a < kNumReaderNodes)%nat -> node a k = total (in_node a) (its ts);
  ca_queue : has (state_ k) kWriterWaitFlag = true -> some_thread queued ts;
  ca_wait : has (state_ k) kWriterWaitFlag = true -> some_thread keeps_queue ts \/ woken = WakeAll;
  ca_parked : some_thread parked ts -> some_thread active ts \/ woken <> NoWake
}.

Lemma its_lookup ts t th : ts !! t = Some th -> its ts !! t = Some (t, th).
Proof. intros H. unfold its. by rewrite list_lookup_imap, H. Qed.
Lemma its_length ts : length (its ts) = length ts.
Proof. apply length_imap. Qed.
Lemma its_insert ts t th th' : ts !! t = Some th -> its (<[t := th']> ts) = <[t := (t, th')]> (its ts).
Proof.
  intros H. apply list_eq. intros i. unfold its. rewrite list_lookup_imap. destruct (decide (i = t)) as [->|Hne].
  - rewrite !list_lookup_insert_eq; [done| |]; rewrite ?length_imap; by eapply lookup_lt_Some.
  - rewrite !list_lookup_insert_ne by done. by rewrite list_lookup_imap.
Qed.
Lemma in_node_range a x : 0 <= in_node a x <= 1.
Proof. unfold in_node. destruct (_ || _); cbn; lia. Qed.

(** Another thread than [t] is counted in a node if the counter says so. *)
Lemma counted_other a ts t th k : ts !! t = Some th -> node a k = total (in_node a) (its ts) -> in_node a (t, th) < node a k ->
  (forall t th, ts !! t = Some th -> calm_pc (home t) (at_ th) = true) -> exists j th', j <> t /\ ts !! j = Some th' /\ reader_coming (at_ th') = true.
Proof.
  intros Ht Hb Hlt Hc. destruct (total_some (in_node a) (its (<[t := Thread Idle 0 0 0]> ts))) as (j & [j' th'] & Hj & Hp).
  { rewrite (its_insert ts t th), (total_insert _ _ t (t, th)) by (done || by apply its_lookup). change (in_node a (t, Thread Idle 0 0 0)) with 0. lia. }
  unfold its in Hj. rewrite list_lookup_imap in Hj. destruct (decide (j = t)) as [->|Hne].
  - rewrite list_lookup_insert_eq in Hj by (by eapply lookup_lt_Some). cbn in Hj. injection Hj as <- <-. cbn in Hp. lia.
  - rewrite list_lookup_insert_ne in Hj by done. destruct (ts !! j) as [x|] eqn:Hx; [|done]. cbn in Hj. injection Hj as <- <-.
    exists j, x. split_and!; [done..|]. specialize (Hc j x Hx). unfold in_node in Hp. cbn in Hp. destruct (at_ x); try done.
Qed.

Lemma some_insert P ts t th th' : ts !! t = Some th -> some_thread P ts -> (P (at_ th) = true -> P (at_ th') = true \/ some_thread P (<[t := th']> ts)) -> some_thread P (<[t := th']> ts).
Proof.
  intros Ht (j & x & Hj & HP) Hk. destruct (decide (j = t)) as [->|Hne].
  - rewrite Ht in Hj. injection Hj as <-. destruct (Hk HP) as [H|H]; [|done]. exists t, th'. rewrite list_lookup_insert_eq by (by eapply lookup_lt_Some). done.
  - exists j, x. by rewrite list_lookup_insert_ne.
Qed.
Lemma some_here P ts t th th' : ts !! t = Some th -> P (at_ th') = true -> some_thread P (<[t := th']> ts).
Proof. intros Ht HP. exists t, th'. rewrite list_lookup_insert_eq by (by eapply lookup_lt_Some). done. Qed.
Lemma some_there P ts t th' j x : ts !! j = Some x -> j <> t -> P (at_ x) = true -> some_thread P (<[t := th']> ts).
Proof. intros Hj Hne HP. exists j, x. by rewrite list_lookup_insert_ne. Qed.
Lemma some_impl (P Q : pc -> bool) ts : (forall p, P p = true -> Q p = true) -> some_thread P ts -> some_thread Q ts.
Proof. intros H (t & th & Ht & HP). exists t, th. auto. Qed.

(** The flag belongs to a thread, another one than [t] if [t] has no claim. *)
Lemma flag_claimed k ts t th th' : mutex_inv k ts -> has (state_ k) kWriterFlag = true -> ts !! t = Some th -> claimed (at_ th) = false ->
  some_thread claimed (<[t := th']> ts).
Proof.
  intros Hi Hf Ht Hc. pose proof (mi_flag _ _ Hi) as E. rewrite Hf in E. destruct (total_some claims ts) as (j & x & Hj & Hx); [rewrite E; cbn; lia|].
  unfold claims in Hx. destruct (claimed (at_ x)) eqn:Ex; [|cbn in Hx; lia]. apply (some_there _ ts t th' j x); [done| |done]. intros ->. congruence.
Qed.

(** One access of a blocking client. *)
Lemma calm_access h now numa wf k th k' th' w : access h now numa wf k th = Some (k', th', w) -> calm_pc h (at_ th) = true -> numa_aware_ k = false ->
  calm_pc h (at_ th') = true /\ numa_aware_ k' = false.
Proof.
  intros E Hc Hn. open_access k th E; cbn [at_ calm_pc] in *; try done; try (rewrite Hn in *; done); try (split; [|by destruct k]; done).
  split; [|done]. destruct st; cbn; try done; apply Nat.eqb_refl.
Qed.

Lemma queue_access h now numa wf k th k' th' w : access h now numa wf k th = Some (k', th', w) -> calm_pc h (at_ th) = true -> 0 <= state_ k <= 3 ->
  pc_ok (at_ th) -> has (state_ k') kWriterWaitFlag = true ->
  (queued (at_ th') = true \/ has (state_ k) kWriterWaitFlag = true /\ queued (at_ th) = false) /\
  (keeps_queue (at_ th') = true \/ has (state_ k) kWriterWaitFlag = true /\ (keeps_queue (at_ th) = false \/ parked (at_ th') = true \/ w = WakeAll)).
Proof.
  intros E Hc Hw Hok Hq. open_access k th E; cbn [at_ calm_pc] in *; try done; try match goal with c : caller |- _ => destruct c; try done end.
  all: destruct k as [s0 nodes fr nu gn ws tm ev mx lt wc tf]; cbn [state_ set_state set_nodes set_fair set_numa set_wait_start set_max_wait count add_node] in *.
  all: try match goal with H : (_ =? ?s) && negb _ = true |- _ => apply andb_true_iff in H as [H%Z.eqb_eq _]; try (is_var s; subst s) end.
  all: try (split; [by left|by left]). all: try (split; [by right|right; split; [done|by auto]]). 
  all: try (destruct st; split; by auto).
  all: try (split; [by right|left; cbn; by rewrite ?Hq]). all: try (split; [by left|right; split; [done|by auto]]).
  - revert Hq. destruct (word_cases _ Hw) as [-> | [-> | [-> | ->]]]; cbn; by auto.
  - cbn. destruct (has prev _); by auto.
  - congruence.
Qed.

(** A thread parks only on the word it has seen. *)
Lemma parked_access h now numa wf k th k' th' w : access h now numa wf k th = Some (k', th', w) -> parked (at_ th') = true ->
  exists x, at_ th = WaitEnter x (state_ k) /\ k' = k /\ w = NoWake.
Proof.
  intros E Hp. open_access k th E; cbn [at_] in *; try done; try (by destruct st).
  all: match goal with H : (_ =? _) = true |- _ => apply Z.eqb_eq in H as <- end; by eexists.
Qed.

Lemma writer_access h now numa wf k th k' th' w : access h now numa wf k th = Some (k', th', w) -> calm_pc h (at_ th) = true ->
  writer_active (at_ th) = true -> writer_active (at_ th') = true \/ parked (at_ th') = true \/ w <> NoWake.
Proof.
  intros E Hc Hw. open_access k th E; cbn [at_ calm_pc] in *; try done; try match goal with c : caller |- _ => destruct c; try done end; auto.
  all: try (right; right; by destruct (has _ _)).
Qed.

(** With the word at 0, a reader on its way goes on, wakes somebody, or has seen
    another reader in a counter. *)
Lemma reader_access h now numa wf k th k' th' w : access h now numa wf k th = Some (k', th', w) -> calm_pc h (at_ th) = true -> state_ k = 0 ->
  numa_aware_ k = false -> pc_ok (at_ th) -> reader_active (at_ th) = true ->
  reader_active (at_ th') = true \/ w <> NoWake \/
  (exists a, at_ th = UsSub a /\ 0 < u32 (node a k - 1)) \/ (exists all i, at_ th = UsSum all i 0 /\ node i k <> 0).
Proof.
  intros E Hc H0 Hn Hok Hr. open_access k th E; cbn [at_ calm_pc] in *; try done; auto; rewrite ?H0 in *; try done.
  all: try (left; by destruct st).
  all: try match goal with H : (_ =? _) = true |- _ => apply Z.eqb_eq in H; subst end; try (by destruct fair).
  all: bool_to_Z; try (right; right; left; by eexists); try congruence.
  all: cbn in Hr; apply Z.eqb_eq in Hr as ->; destruct (decide (node i k = 0)) as [Hz|Hz]; [|right; right; right; by eexists _, _]; rewrite Hz in *; try done; by left.
Qed.

(** * The invariant is kept *)

Lemma node_add x a d k : length (reader_nodes_ k) = kNumReaderNodes -> (a < kNumReaderNodes)%nat ->
  node x (add_node a d k) = if (a =? x)%nat then u32 (node a k + d) else node x k.
Proof.
  intros Hl Ha. unfold node at 1. assert (reader_nodes_ (add_node a d k) = <[a := u32 (node a k + d)]> (reader_nodes_ k)) as -> by (by destruct k).
  destruct (Nat.eqb_spec a x) as [<-|Hne]; [by rewrite list_lookup_insert_eq by lia|by rewrite list_lookup_insert_ne].
Qed.

Lemma calm_transit h p a : calm_pc h p = true -> transit p = Some a -> a = h.
Proof. by destruct p; try done; intros ?%Nat.eqb_eq [= <-]. Qed.

Lemma books_effect k k' ts t th th' x : effect k (at_ th) (at_ th') k' -> ts !! t = Some th -> mutex_inv k ts -> calm_pc (home t) (at_ th) = true ->
  calm_pc (home t) (at_ th') = true -> (forall a, (a < kNumReaderNodes)%nat -> node a k = total (in_node a) (its ts)) -> (x < kNumReaderNodes)%nat ->
  node x k' = total (in_node x) (its (<[t := th']> ts)).
Proof.
  intros Hef Ht Hi Hc Hc' Hb Hx. rewrite (its_insert ts t th) by done. pose proof (its_lookup ts t th Ht) as Hit. rewrite (total_insert _ _ t (t, th)) by done.
  assert (forall a, 0 <= total (in_node a) (its ts) <= 2 ^ 25) as Hr.
  { intros a. pose proof (total_bound (in_node a) (its ts) (in_node_range a)). rewrite its_length in *. pose proof (mi_threads _ _ Hi). lia. }
  pose proof (fun a => total_pos (in_node a) (its ts) t (t, th) (in_node_range a) Hit) as Hp.
  pose proof (mi_nodes _ _ Hi) as Hl. unfold in_node at 2 3. unfold in_node in Hp at 1. cbn [fst snd] in *.
  inversion Hef as [? Hn H1 H2|a H1 H2 H3 H4 Ha|a H1 H2 H3 H4 Ha|a H1 H2 H3 H4 Hno|a H1 H2 H3 H4 Ha Hu]; subst.
  - rewrite H1, H2. unfold node. rewrite Hn. fold (node x k). rewrite Hb by done. lia.
  - rewrite node_add, H1, H2, H3, H4 by done. cbn [andb orb]. rewrite !Hb by done. specialize (Hr a). destruct (Nat.eqb_spec a x) as [->|]; cbn; [rewrite wrap_small; lia|lia].
  - specialize (Hp a). rewrite node_add by done. rewrite H1, H2 in *. rewrite H3, H4. cbn [andb orb] in *. rewrite Nat.eqb_refl in Hp. rewrite !Hb by done. specialize (Hr a).
    destruct (Nat.eqb_spec a x) as [->|]; cbn in *; [rewrite wrap_small; lia|lia].
  - rewrite (calm_transit _ _ a Hc H2) in H2. rewrite H1, H2, H3, H4, Hb by done. rewrite orb_false_r. cbn [andb orb]. lia.
  - specialize (Hp a). rewrite node_add by done. rewrite H1, H2 in *. rewrite H3, H4. rewrite Hu in Hc. cbn in Hc. apply Nat.eqb_eq in Hc. rewrite <- Hc in *.
    rewrite Nat.eqb_refl in Hp. cbn [andb orb] in *. rewrite !Hb by done. specialize (Hr a). rewrite orb_false_r. destruct (Nat.eqb_spec a x) as [->|]; cbn in *; [rewrite wrap_small; lia|lia].
Qed.

Lemma claimed_keeps p : claimed p = true -> keeps_queue p = true.
Proof. intros H. unfold keeps_queue, running_writer. by rewrite H, orb_true_r. Qed.
Lemma keeps_active p : keeps_queue p = true -> active p = true.
Proof. unfold active, writer_active, keeps_queue. destruct (running_writer p); [done|]. by destruct p. Qed.
Lemma coming_active p : reader_coming p = true -> active p = true.
Proof. intros H. unfold active, reader_active. by rewrite H, orb_true_r. Qed.
#[local] Hint Resolve claimed_keeps keeps_active coming_active : core.

(** A thread that parks leaves a writer behind it. *)
Lemma parks_behind k ts t th th' x : mutex_inv k ts -> calm NoWake k ts -> ts !! t = Some th -> at_ th = WaitEnter x (state_ k) -> some_thread keeps_queue (<[t := th']> ts).
Proof.
  intros Hi Hc Ht Hx. pose proof (mi_pcs _ _ Hi) as Hp. rewrite Forall_lookup in Hp. destruct (Hp t th Ht) as [Hok _]. rewrite Hx in Hok. apply Is_true_true in Hok.
  assert (claimed (at_ th) = false) as Hcl by (by rewrite Hx).
  destruct (has (state_ k) kWriterFlag) eqn:Hf; [by eapply some_impl, flag_claimed; eauto|]. destruct x as [t0|fair a]; cbn in Hok; [congruence|].
  apply andb_true_iff in Hok as [Hok _]. destruct fair; [|cbn in Hok; congruence].
  assert (has (state_ k) kWriterWaitFlag = true) as Hw by (revert Hf Hok; by destruct (word_cases _ (mi_word _ _ Hi)) as [-> | [-> | [-> | ->]]]).
  destruct (ca_wait _ _ _ Hc Hw) as [H|]; [|done]. eapply some_insert; [done..|]. by rewrite Hx.
Qed.

(** Without a writer on its way the word is 0, and a reader keeps the promise. *)
Lemma reader_goes_on now numa wf k ts t th k' th' : mutex_inv k ts -> calm NoWake k ts -> ts !! t = Some th ->
  access (home t) now numa wf k th = Some (k', th', NoWake) -> reader_active (at_ th) = true ->
  existsb (fun th => writer_active (at_ th)) ts = false -> some_thread active (<[t := th']> ts).
Proof.
  intros Hi Hc Ht E Hr Hno. pose proof Hc as [Hn Hp Hb Hq Hw Hk]. pose proof (mi_pcs _ _ Hi) as Hok. rewrite Forall_lookup in Hok. destruct (Hok t th Ht) as [Hokt _].
  assert (forall P, (forall p, P p = true -> writer_active p = true) -> some_thread P ts -> False) as Hnone.
  { intros P HP (j & x & Hj & Hx). assert (existsb (fun th => writer_active (at_ th)) ts = true); [|congruence]. apply existsb_exists. exists x.
    split; [|by apply HP]. by apply list_elem_of_In; eapply list_elem_of_lookup_2. }
  assert (has (state_ k) kWriterFlag = false) as Hf.
  { apply not_true_is_false. intros Hf. apply (Hnone claimed); [intros p H; unfold writer_active, running_writer; by rewrite H, orb_true_r|].
    pose proof (mi_flag _ _ Hi) as Ef. rewrite Hf in Ef. destruct (total_some claims ts) as (j & x & Hj & Hx); [rewrite Ef; cbn; lia|].
    exists j, x. split; [done|]. unfold claims in Hx. by destruct (claimed _). }
  assert (has (state_ k) kWriterWaitFlag = false) as Hwt.
  { apply not_true_is_false. intros Hwt. destruct (Hw Hwt) as [H|]; [|done]. apply (Hnone keeps_queue); [|done]. intros p. unfold keeps_queue, writer_active.
    destruct (running_writer p); [done|]. by destruct p. }
  assert (state_ k = 0) as H0 by (revert Hf Hwt; by destruct (word_cases _ (mi_word _ _ Hi)) as [-> | [-> | [-> | ->]]]).
  destruct (reader_access _ _ _ _ _ _ _ _ _ E (Hp t th Ht) H0 Hn Hokt Hr) as [H|[H|[(a & Ha & Hlt)|(all & i & Ha & Hne)]]]; [|done| |].
  - eapply some_here; [done|]. unfold active. by rewrite H, orb_true_r.
  - pose proof (Hp t th Ht) as Hpc. rewrite Ha in Hpc, Hokt. cbn [calm_pc pc_ok] in Hpc, Hokt. apply Nat.eqb_eq in Hpc. apply Is_true_true, Nat.ltb_lt in Hokt.
    pose proof (total_bound (in_node a) (its ts) (in_node_range a)) as Hbd. rewrite its_length in Hbd. pose proof (mi_threads _ _ Hi).
    pose proof (total_pos (in_node a) (its ts) t (t, th) (in_node_range a) (its_lookup ts t th Ht)) as Hps. rewrite <- Hb in Hbd, Hps by done.
    assert (in_node a (t, th) = 1) as E1 by (unfold in_node; cbn; rewrite Ha, <- Hpc; cbn; by rewrite Nat.eqb_refl). rewrite E1 in Hps.
    rewrite wrap_small in Hlt by lia. destruct (counted_other a ts t th k Ht (Hb a Hokt)) as (j & x & Hjt & Hj & Hx); [rewrite E1; lia|done|]. eapply some_there; eauto.
  - rewrite Ha in Hokt. cbn [pc_ok] in Hokt. apply Is_true_true, Nat.ltb_lt in Hokt.
    pose proof (total_bound (in_node i) (its ts) (in_node_range i)) as Hbd. rewrite <- Hb in Hbd by done.
    assert (in_node i (t, th) = 0) as E1 by (unfold in_node; cbn; by rewrite Ha).
    destruct (counted_other i ts t th k Ht (Hb i Hokt)) as (j & x & Hjt & Hj & Hx); [rewrite E1; lia|done|]. eapply some_there; eauto.
Qed.

Lemma calm_step now numa wf k ts t th k' th' w : mutex_inv k ts -> calm NoWake k ts -> ts !! t = Some th ->
  access (home t) now numa wf k th = Some (k', th', w) -> calm w k' (<[t := th']> ts).
Proof.
  intros Hi Hc Ht E. pose proof Hc as [Hn Hp Hb Hq Hw Hk]. pose proof (Hp t th Ht) as Hpc. destruct (calm_access _ _ _ _ _ _ _ _ _ E Hpc Hn) as [Hpc' Hn'].
  pose proof (mi_pcs _ _ Hi) as Hok. rewrite Forall_lookup in Hok. destruct (Hok t th Ht) as [Hokt _].
  pose proof (access_effect _ _ _ _ _ _ _ _ _ E Hokt) as Hef. pose proof (queue_access _ _ _ _ _ _ _ _ _ E Hpc (mi_word _ _ Hi) Hokt) as Hqa.
  assert (forall j x, <[t := th']> ts !! j = Some x -> j = t /\ x = th' \/ j <> t /\ ts !! j = Some x) as Hlk.
  { intros j x Hj. destruct (decide (j = t)) as [->|Hne]; [left|right; by rewrite list_lookup_insert_ne in Hj].
    rewrite list_lookup_insert_eq in Hj by (by eapply lookup_lt_Some). by injection Hj as <-. }
  split; try done.
  - intros j x [[-> ->]|[_ Hj]]%Hlk; [done|by apply Hp].
  - intros x Hx. by eapply books_effect.
  - intros Hwt. destruct (Hqa Hwt) as [[H|[H Hno]] _]; [by eapply some_here|]. eapply some_insert; [done|by apply Hq|]. by rewrite Hno.
  - intros Hwt. destruct (Hqa Hwt) as [_ [H|[H [Hno|[Hpk | ->]]]]]; [left; by eapply some_here| |left|by right].
    + left. destruct (Hw H) as [Hw'|]; [|done]. eapply some_insert; [done..|]. by rewrite Hno.
    + destruct (parked_access _ _ _ _ _ _ _ _ _ E Hpk) as (x & Hx & -> & _). by eapply parks_behind.
  - intros (j & x & Hj & Hpx). destruct w; [left|by right..]. destruct (parked (at_ th')) eqn:Hpk.
    { destruct (parked_access _ _ _ _ _ _ _ _ _ E Hpk) as (y & Hy & -> & _). eapply some_impl, parks_behind; eauto. }
    destruct (Hlk j x Hj) as [[-> ->]|[Hjt Hj']]; [congruence|]. destruct Hk as [(a & y & Ha & Hy)|]; [by exists j, x| |done].
    destruct (decide (a = t)) as [->|Hat]; [|by eapply some_there]. rewrite Ht in Ha. injection Ha as <-.
    assert (writer_active (at_ th) = true -> some_thread active (<[t := th']> ts)) as Hwr.
    { intros Hwa. destruct (writer_access _ _ _ _ _ _ _ _ _ E Hpc Hwa) as [H|[H|H]]; [|congruence|done]. eapply some_here; [done|]. unfold active. by rewrite H. }
    unfold active in Hy. apply orb_true_iff in Hy as [Hy|Hy]; [by apply Hwr|].
    destruct (existsb (fun th => writer_active (at_ th)) ts) eqn:Hex.
    { apply existsb_exists in Hex as (z & Hz%list_elem_of_In & Hwz). apply list_elem_of_lookup in Hz as (b & Hb'). destruct (decide (b = t)) as [->|Hbt].
      - rewrite Ht in Hb'. injection Hb' as <-. by apply Hwr.
      - eapply some_there; [done..|]. unfold active. by rewrite Hwz. }
    eapply reader_goes_on; eauto.
Qed.

(** Threads that change without touching the lock. *)
Definition milder (th th' : thread) : Prop :=
  holds (at_ th') = holds (at_ th) /\ transit (at_ th') = transit (at_ th) /\ (forall h, calm_pc h (at_ th) = true -> calm_pc h (at_ th') = true) /\
  (queued (at_ th) = true -> queued (at_ th') = true) /\ (keeps_queue (at_ th) = true -> keeps_queue (at_ th') = true) /\
  (active (at_ th) = true -> active (at_ th') = true) /\ (parked (at_ th') = true -> parked (at_ th) = true).

Lemma milder_all ts : Forall2 milder ts ts.
Proof. apply Forall_Forall2_diag, Forall_true. done. Qed.
Lemma milder_insert ts t th th' : ts !! t = Some th -> milder th th' -> Forall2 milder ts (<[t := th']> ts).
Proof. intros Ht Hm. rewrite <- (list_insert_id ts t th Ht) at 1. apply Forall2_insert; [|done]. apply milder_all. Qed.
Lemma milder_wake th : milder th (wake_thread th).
Proof. destruct th as [q slot gen idx]. unfold wake_thread, put_pc. cbn. destruct q; try done. by destruct w. Qed.
Lemma milder_begin t o p th : begin_op o (at_ th) = Some p -> blocking (Begin t o) = true -> milder th (put_pc p th).
Proof. destruct th as [q slot gen idx]. cbn. by destruct o, q; intros [= <-]. Qed.

Lemma milder_some P ts ts' : (forall th th', milder th th' -> P (at_ th) = true -> P (at_ th') = true) -> Forall2 milder ts ts' -> some_thread P ts -> some_thread P ts'.
Proof. intros HP H2 (t & th & Ht & Hth). destruct (Forall2_lookup_l _ _ _ _ _ H2 Ht) as (th' & Ht' & Hm). exists t, th'. split; [done|]. by apply (HP th). Qed.

Lemma total_Forall2 {A} (f : A -> Z) l l' : Forall2 (fun x y => f y = f x) l l' -> total f l' = total f l.
Proof. induction 1 as [|? ? ? ? H ? IH]; cbn; lia. Qed.

Lemma calm_milder w k k' ts ts' : calm w k ts -> Forall2 milder ts ts' -> state_ k' = state_ k -> reader_nodes_ k' = reader_nodes_ k -> numa_aware_ k' = numa_aware_ k -> calm w k' ts'.
Proof.
  intros [Hn Hp Hb Hq Hw Hk] H2 Es En Eu. split; rewrite ?Es, ?Eu; try done.
  - intros t th' Ht. destruct (Forall2_lookup_r _ _ _ _ _ H2 Ht) as (th & Ht0 & _ & _ & Hc & _). by apply Hc, Hp.
  - intros a Ha. transitivity (node a k); [unfold node; by rewrite En|]. rewrite Hb by done. symmetry. apply total_Forall2, Forall2_lookup. intros i.
    unfold its. rewrite !list_lookup_imap.
    destruct (ts !! i) as [x|] eqn:Ex, (ts' !! i) as [y|] eqn:Ey; cbn.
    + constructor. destruct (Forall2_lookup_lr _ _ _ _ _ _ H2 Ex Ey) as (E1 & E2 & _). unfold in_node. cbn. by rewrite E1, E2.
    + pose proof (Forall2_length _ _ _ H2). apply lookup_lt_Some in Ex. apply lookup_ge_None in Ey. lia.
    + pose proof (Forall2_length _ _ _ H2). apply lookup_lt_Some in Ey. apply lookup_ge_None in Ex. lia.
    + constructor.
  - intros H. eapply milder_some; [|done|by apply Hq]. by intros ? ? (_ & _ & _ & Hm & _).
  - intros H. destruct (Hw H) as [H'|H']; [left|by right]. eapply milder_some; [|done..]. by intros ? ? (_ & _ & _ & _ & Hm & _).
  - intros (t & th' & Ht & Hpk). destruct (Forall2_lookup_r _ _ _ _ _ H2 Ht) as (th & Ht0 & Hm). destruct Hk as [H'|H']; [|left|by right].
    + exists t, th. split; [done|]. by apply Hm.
    + eapply milder_some; [|done..]. by intros ? ? (_ & _ & _ & _ & _ & Hm' & _).
Qed.

(** The wake that ends a step pays what the step owed. *)
Lemma calm_wake w woken k ts ts' : calm w k ts -> do_wake w woken ts = Some ts' -> calm NoWake k ts'.
Proof.
  intros Hc E. destruct w; cbn in E; [by injection E as <-| |].
  - assert (Forall2 milder ts ts') as H2.
    { destruct woken as [j|].
      - apply bind_Some in E as (th & Hj & E). destruct (parked _); [|done]. injection E as <-. apply (milder_insert ts j th); [done|apply milder_wake].
      - destruct (existsb _ _); [done|]. injection E as <-. apply milder_all. }
    destruct (calm_milder _ k k ts ts' Hc H2 eq_refl eq_refl eq_refl) as [Hn Hp Hb Hq Hw Hk]. split; try done; [intros H; destruct (Hw H) as [|]; [by left|done]|].
    intros Hpk. left. destruct woken as [j|].
    + apply bind_Some in E as (th & Hj & E). destruct (parked (at_ th)) eqn:Hpj; [|done]. injection E as <-. eapply some_here; [done|].
      unfold wake_thread. cbn. destruct (at_ th); try done. by destruct w.
    + destruct (existsb _ ts) eqn:Hex; [done|]. injection E as <-. exfalso. destruct Hpk as (j & th & Hj & Hpj).
      assert (existsb (fun th => parked (at_ th)) ts = true); [|congruence]. apply existsb_exists. exists th. split; [|done]. by apply list_elem_of_In; eapply list_elem_of_lookup_2.
  - injection E as <-. assert (Forall2 milder ts (wake_thread <$> ts)) as H2 by (apply Forall2_fmap_r, Forall_Forall2_diag, Forall_true, milder_wake).
    destruct (calm_milder _ k k ts _ Hc H2 eq_refl eq_refl eq_refl) as [Hn Hp Hb Hq Hw Hk].
    assert (forall t th, (wake_thread <$> ts) !! t = Some th -> parked (at_ th) = false) as Hnp.
    { intros t th Ht. rewrite list_lookup_fmap in Ht. destruct (ts !! t) as [[p slot gen idx]|]; [|done]. injection Ht as <-. unfold wake_thread. cbn. destruct p; try done. by destruct w. }
    split; try done.
    + intros H. left. destruct (Hq H) as (t & th & Ht & Hqu). exists t, th. split; [done|]. unfold keeps_queue, running_writer. by rewrite Hqu, (Hnp t th Ht).
    + intros (t & th & Ht & Hpk). by rewrite (Hnp t th Ht) in Hpk.
Qed.

Lemma calm_fire e y y' : mutex_inv (lock_ y) (threads y) -> calm NoWake (lock_ y) (threads y) -> blocking e = true -> fire hash_id e y = Some y' -> calm NoWake (lock_ y') (threads y').
Proof.
  destruct y as [k ts]. cbn [lock_ threads]. intros Hi Hc Hb E. destruct e as [t o|t now numa wf woken|t|t fails gen idx|fair|t fair|ns|en|]; cbn [fire lock_ threads] in E.
  - apply bind_Some in E as (th & Ht & (p & Hp & [= <-])%bind_Some). apply (calm_milder NoWake k k ts); try done. by eapply milder_insert, milder_begin.
  - apply bind_Some in E as (th & Ht & ([[k' th'] w] & Ha & (ts' & Hw & [= <-])%bind_Some)%bind_Some). cbn. eapply calm_wake; [|done]. by eapply calm_step.
  - apply bind_Some in E as (th & Ht & E). destruct (parked _); [|done]. injection E as <-. apply (calm_milder NoWake k k ts); try done. eapply milder_insert; [done|apply milder_wake].
  - apply bind_Some in E as (th & Ht & E). destruct (_ && _ && _); [|done]. injection E as <-. apply (calm_milder NoWake k k ts); try done. by eapply milder_insert.
  - destruct (_ =? _); [|done]. injection E as <-. apply (calm_milder NoWake k _ ts); try apply milder_all; by destruct k.
  - apply bind_Some in E as (th & Ht & E). destruct (at_ th); try done. injection E as <-. apply (calm_milder NoWake k _ ts); try apply milder_all; by destruct k.
  - injection E as <-. apply (calm_milder NoWake k _ ts); try apply milder_all; by destruct k.
  - injection E as <-. apply (calm_milder NoWake k _ ts); try apply milder_all; by destruct k.
  - injection E as <-. apply (calm_milder NoWake k _ ts); try apply milder_all; by destruct k.
Qed.

Lemma calm_fire_all es y y' : mutex_inv (lock_ y) (threads y) -> calm NoWake (lock_ y) (threads y) -> Forall (fun e => blocking e = true) es ->
  fire_all hash_id es y = Some y' -> mutex_inv (lock_ y') (threads y') /\ calm NoWake (lock_ y') (threads y').
Proof.
  intros Hi Hc Hb. revert y Hi Hc. induction Hb as [|e es He _ IH]; intros y Hi Hc E; [by injection E as <-|].
  apply bind_Some in E as (y1 & E1 & E). eapply IH; [..|done]; [by eapply mutex_fire|by eapply calm_fire].
Qed.

Lemma total_none {A} (f : A -> Z) l : Forall (fun x => f x = 0) l -> total f l = 0.
Proof. induction 1; cbn; lia. Qed.

Lemma calm_initial fair n : calm NoWake (lock_ (initial fair n)) (threads (initial fair n)).
Proof.
  split; cbn [lock_ threads initial]; try done.
  - by intros t th [-> _]%lookup_replicate.
  - intros a Ha. rewrite total_none.
    2: { apply Forall_lookup. intros i x Hx. unfold its in Hx. rewrite list_lookup_imap in Hx. destruct (replicate _ _ !! i) as [th|] eqn:Hi; [|done].
         apply lookup_replicate in Hi as [-> _]. by injection Hx as <-. }
    unfold node, mutex_new. cbn [reader_nodes_]. by rewrite lookup_replicate_2.
  - intros (t & th & [-> _]%lookup_replicate & H). done.
Qed.
End home.

(** * Theorems *)

Lemma active_steps h k th : active (at_ th) = true -> at_ th = HoldW \/ at_ th = HoldR \/ forall now numa wf, is_Some (access h now numa wf k th).
Proof.
  destruct th as [p slot gen idx]. intros H. unfold access, try_lock, set_fairness_mode_quiescent, lock_slow, do_wait, unlock, lock_shared, pick_reader_node, lock_shared_slow,
    try_lock_shared, unlock_shared, set_numa_aware, flush_try_fail_tls, step, record_try_fail. cbn [at_ per_thread_fail cached_gen cached_numa_idx] in *.
  destruct p; try done; try (by destruct w); try (by left); try (by right; left); right; right; intros now numa wf.
  all: repeat match goal with |- context [if ?b then Some _ else _] => destruct b | |- context [let '(_, _) := (if ?b then _ else _) in _] => destruct b end.
  all: by eexists.
Qed.

(** C12: no wake-up is lost among blocking clients. In every run of up to 2^25 threads
    that call [lock], [lock_shared] and their releases (with changes of the fairness,
    of the timeout and of the settings in between, and spurious wake-ups or failures
    of weak compare-exchanges at any point), each counter is the number of readers of
    its node that are inside or looking at the flag; while a thread is parked, another
    one holds the lock or can take its next step; and once every thread is idle or
    parked, none is parked and the word and all counters are 0. *)
Theorem blocking_clients_wake (hash_id : nat -> Z) (fair : bool) (n : nat) (es : list event) (y : system) :
  Z.of_nat n <= 2 ^ 25 -> Forall (fun e => blocking e = true) es -> fire_all hash_id es (initial fair n) = Some y ->
  (forall a, (a < kNumReaderNodes)%nat -> node a (lock_ y) = total (in_node hash_id a) (its (threads y))) /\
  (some_thread parked (threads y) -> exists t th, threads y !! t = Some th /\
    (at_ th = HoldW \/ at_ th = HoldR \/ forall now numa wf, is_Some (access (fallback_idx hash_id t) now numa wf (lock_ y) th))) /\
  (Forall (fun th => at_ th = Idle \/ parked (at_ th) = true) (threads y) ->
    Forall (fun th => at_ th = Idle) (threads y) /\ state_ (lock_ y) = 0 /\ forall a, (a < kNumReaderNodes)%nat -> node a (lock_ y) = 0).
Proof.
  intros Hn Hb E. destruct (calm_fire_all hash_id es _ y (mutex_initial fair n Hn) (calm_initial hash_id fair n) Hb E) as [Hi [_ _ Hbk _ Hw Hk]].
  split; [done|]. split.
  - intros Hp. destruct (Hk Hp) as [(t & th & Ht & Ha)|]; [|done]. exists t, th. split; [done|]. by apply active_steps.
  - intros Hall. rewrite Forall_lookup in Hall.
    assert (forall t th, threads y !! t = Some th -> active (at_ th) = false /\ holds (at_ th) = false /\ transit (at_ th) = None /\ claims th = 0) as Hno.
    { intros t th Ht. unfold claims. destruct (Hall t th Ht) as [->|Hp]; [done|]. destruct (at_ th); try done. by destruct w. }
    assert (some_thread active (threads y) -> False) as Hna by (intros (t & th & Ht & Ha); destruct (Hno t th Ht); congruence).
    split_and!.
    + apply Forall_lookup. intros t th Ht. destruct (Hall t th Ht) as [|Hp]; [done|]. exfalso. destruct Hk as [H|]; [by exists t, th|by apply Hna|done].
    + assert (total claims (threads y) = 0) as Hc by (apply total_none, Forall_lookup; intros t th Ht; by apply (Hno t th)).
      rewrite (mi_flag _ _ Hi) in Hc. assert (has (state_ (lock_ y)) kWriterWaitFlag = false) as Hwt.
      { apply not_true_is_false. intros H. destruct (Hw H) as [H'|]; [|done]. apply Hna. eapply some_impl; [apply keeps_active|done]. }
      revert Hc Hwt. by destruct (word_cases _ (mi_word _ _ Hi)) as [-> | [-> | [-> | ->]]].
    + intros a Ha. rewrite Hbk by done. apply total_none, Forall_lookup. intros t x Hx. unfold its in Hx. rewrite list_lookup_imap in Hx.
      destruct (threads y !! t) as [th|] eqn:Ht; [|done]. injection Hx as <-. destruct (Hno t th Ht) as (_ & H1 & H2 & _). unfold in_node. cbn. by rewrite H1, H2.
Qed.

(** * Witness *)

(** A writer inside, a reader and a second writer parked behind it. *)
Definition parked_run : list event :=
  let r t := Run t 1 0 false None in
  [Begin 0 Lock] ++ replicate 129 (r 0%nat) ++ [Begin 1 LockShared] ++ replicate 6 (r 1%nat) ++ [Begin 2 Lock] ++ replicate 73 (r 2%nat).
Lemma blocking_clients_wake_witness : exists y, fire_all (fun _ => 0) parked_run (initial true 3) = Some y /\ Forall (fun e => blocking e = true) parked_run /\
  at_ <$> threads y = [HoldW; Parked (WRead true 0); Parked (WLock 1)] /\ node 0 (lock_ y) = total (in_node (fun _ => 0) 0) (its (threads y)).
Proof.
  destruct (fire_all (fun _ => 0) parked_run (initial true 3)) as [y|] eqn:E; [|vm_compute in E; discriminate].
  assert (Forall (fun e => blocking e = true) parked_run) as Hb by (repeat constructor).
  destruct (blocking_clients_wake (fun _ => 0) true 3 parked_run y ltac:(lia) Hb E) as (H & _ & _).
  exists y. split; [reflexivity|]. split; [exact Hb|]. split; [vm_compute in E; injection E as <-; reflexivity|]. apply H. unfold kNumReaderNodes. lia.
Defined.
